(* ===== verification/_CoqProject ===== *)
-Q . S2P
Prelude.v
Bytes.v
RustPath.v
JsArgs.v
Permissions.v
Capability.v
VirtualFs.v
EventLoop.v
KvStore.v
NodePath.v
Replay.v
Bus.v
Checkpoint.v
Grammar.v
Json.v
RawPath.v
ImportMap.v
Resolver.v
ResolverLogic.v
ResolverTheorems.v
Http.v
HttpTheorems.v
Semver.v
DiskFs.v
PackageManager.v
PackageTheorems.v
InstallTheorems.v
PruneTheorems.v
InstallCommand.v
InstallWitness.v
CommandLine.v
Dlx.v
Agent.v
AgentTheorems.v
Fetch.v
FetchTheorems.v
Weights.v
Pool.v
PoolRegistry.v
Bundler.v
BundlerTheorems.v
Standalone.v
StandaloneTheorems.v
MachO.v
MachOTheorems.v
Compile.v
CompileTheorems.v
HostDisk.v
HostDiskTheorems.v
NodeFs.v
NodeFsApi.v
NodeFsTheorems.v
NodeFsExamples.v
NodeFsVfs.v
NodeFsJobs.v
NodeFsLaws.v
NodeFsCopy.v
NodeFsTurns.v
