(* ===== verification/Prelude.v ===== *)
(** * Amber: a verification development for the core of the [amber] runtime

    Amber is a JavaScript runtime for agents: V8, an event loop, Node.js and web
    APIs, native modules ([amber:kv], [amber:replay], [amber:bus], ...), a package
    manager, a bundler and a compiler of standalone executables, all under a permission sandbox.  This
    library models the parts of [src/src/] whose behaviour is the program's own logic rather than V8's, the
    operating system's or a third-party crate's, and proves what makes them
    correct.  This file is the root: it holds the conventions and the generic
    lemmas every other file uses.

    ** Parts and how they interact

    The sandbox:
    - [Permissions] ([src/permissions.rs]).  The [ResourceBroker]'s two rule
      sets, the decision procedure [decide], the fast path
      [check_global_permission] every native module calls before it touches a
      resource, the audit log, and the other process-wide statics of the file,
      gathered in [PermState].
    - [Capability] ([src/capability/mod.rs]).  The API of [amber:security]: a
      script queries and revokes permissions, on the [PermState] of [Permissions].
    - [VirtualFs] ([src/sandbox/virtual_fs.rs]).  The in-memory file system of
      the sandbox, optionally copy-on-write over the host's disk.  [Vfs] is the
      five statics of the file.
    - [CommandLine] ([src/main.rs], [src/task_runner.rs]).  The permission flags and the policy
      file, which set up [PermState], [Vfs] and the import map, and what [amber run] starts.

    The runtime:
    - [EventLoop] ([src/event_loop.rs]).  The timer manager: a handle on the
      main thread and a worker thread that share a bounded channel, a queue of
      fired timers, two counters and a waker.  [worker_step] is the worker's
      loop as a step relation, [mgr_step] interleaves it with the public
      operations; [IoCompletionQueue] is the queue of finished I/O.
    - [Pool] and [PoolRegistry] ([src/pool/mod.rs]).  The isolate pool of [amber:pool]: worker threads, calls and
      the thread that destroys a pool as interleaved atomic actions; the process-wide registry.
    - [HostDisk], [HostDiskTheorems]: [std::fs] over inodes, with a kernel that may refuse or cut short any call.
      [NodeFs] ([src/nodejs_core/fs.rs]) has the work of Node's [fs] module over that disk and over [Vfs],
      [NodeFsApi] the functions a script calls; [NodeFsTheorems], [NodeFsVfs], [NodeFsJobs],
      [NodeFsLaws], [NodeFsCopy], [NodeFsTurns] and [NodeFsExamples] have what they promise.
    - [NodePath] ([src/nodejs_core/path.rs]).  Node's [path] module.
    - [Resolver], [ResolverLogic], [ResolverTheorems] ([src/nodejs_core/commonjs_resolver.rs]).  From a specifier to a
      built-in module or a file, through [ImportMap] ([src/tooling/import_map.rs]) and the permission check.
    - [Fetch], [FetchTheorems] ([src/web_api/fetch.rs]).  The engine of [fetch]: redirects hop by hop through the broker,
      the kept-open HTTP/1.1 socket, bodies that are pulled, integrity.
    - [Http], [HttpTheorems] ([src/https_serve.rs]).  Framing of requests and responses of [amber serve].

    Native modules:
    - [KvStore] ([src/kv/mod.rs]).  The key-value store with its write-ahead
      log, replay on open, expiry, batches and compaction, and the registry
      behind [kv_native_dispatch].
    - [Replay] ([src/replay/mod.rs]).  The record/replay state machine.  Loading
      a trace and resetting write the [PermState] of [Permissions].
    - [Checkpoint] ([src/checkpoint/mod.rs]), [Bus] ([src/bus/mod.rs]), [Grammar] ([src/grammar/mod.rs]).
      Checkpoints and their differences; topic patterns and the dead-letter queue; repair of truncated JSON and
      server-sent events.
    - [Weights] ([src/weights/mod.rs]).  The GGUF and SafeTensors parsers.

    Commands:
    - [Semver], [DiskFs], [PackageManager] ([src/package_manager.rs]).  Resolving, fetching, verifying and
      unpacking packages, the lock file, pruning; [PackageTheorems], [InstallTheorems], [PruneTheorems];
      [InstallCommand] ([src/main.rs]) is the command around it, [InstallWitness] a small registry.  [Dlx] ([src/tooling/dlx.rs])
      is [amber x], over the same disk and monad.
    - [Bundler], [BundlerTheorems] ([src/tooling/bundler.rs]).  The module graph, the rewriting of imports and exports, the bundle.
    - [Standalone], [StandaloneTheorems], [MachO], [MachOTheorems], [Compile], [CompileTheorems] ([src/tooling/compiler.rs]).
      The payload of a standalone executable and its reader, its place in a Mach-O image, and the
      command, which calls [Bundler].
    - [Agent], [AgentTheorems] ([src/agent.rs]).  Tools for agents: their schemas, the session on lines and the MCP
      server on framed messages, set up by [CommandLine] and audited by [Permissions].

    Shared: [Bytes] (buffers that may crash), [Json] ([serde_json::Value]), [RustPath] and [RawPath]
    ([std::path] as components, with the answers of the operating system in [Host], and as spelled), [JsArgs] (the
    conversions V8 applies to the arguments of a native call).

    Each definition keeps the name of the function it translates, with an
    underscore or the module's name added where Rocq has the name already
    ([set_], [delete_], [path_join], ...).

    ** Conventions

    A [String], [&str] or [Vec<u8>] is the list of its bytes ([rstr]).  A [u64], [u32] or
    [i64] is a [Z] with its wrap-around written out ([wrap_u64], ...): the
    release profile, which is what ships, has no overflow checks and aborts on
    panic; for the same reason a poisoned lock is never met.  A [HashMap] or
    [HashSet] is a [gmap] or [gset]; where the code iterates one, the order is a
    parameter.  Fallible operations return [result] or [option], operations that may panic an [outcome]; an
    operation that changes process-wide state takes and returns that state, through a small state and error monad where
    many calls follow each other ([CommandLine.C], [Resolver.M], [PackageManager.M], [Agent.P], [Fetch.F], ...).
    The clock reading of an operation is an argument.  Threads are interleaved atomic actions.

    Code outside the repository is a parameter of the model, gathered in a record: [Host] and [HostDisk.Kernel] (the
    disk and what the system refuses), [CliHost], [NodeHost], [KvWorld], [ReplayHost], [PackageManager.World],
    [NodeFs.Env] with its [Codec], [AgentHost] (V8 running a tool), [Fetch.Net] (sockets, reqwest, the [url] crate,
    digests) and so on.  What the code relies on is stated as the laws of a class or record ([KvLaws], of the
    entries that are [storable]; [Agent]'s [Well_behaved]; [CompileTheorems.disk_laws] and [frame_laws], ...), and each theorem that needs them is witnessed at a concrete instance (the [...Toy]
    modules, [InstallWitness], [NodeFsExamples]).

    ** What the theorems show

    - Sandbox.  [Permissions.sandbox_jail]: after [deny_all] and grants for some
      roots, a read passes exactly when its normalised path is under one of
      them; [CommandLine.flags_decide]: what passes after the flags and the policy, exactly.
      [Capability] shows that a script's revocation is enforced at once.  [NodeFsTheorems.fs_confined]:
      what no program of [fs] calls can change on a disk without links; [NodeFsVfs.vfs_isolates]: the host's disk under the in-memory file
      system; [FetchTheorems.hops_permitted] and [credentials_stay_home]: where requests and credentials go;
      [ResolverTheorems.exports_confined], [InstallTheorems.extract_confined_and_atomic], [Dlx.dlx_confined]: the
      same for packages.  The exact ways round each are theorems too.
    - Persistence and files.  [KvStore.kv_durability]: reopening the log of any run of
      operations gives the live entries of the running store.  [VirtualFs.vfs_refines_store];
      [NodeFsLaws.write_modes_agree] and [fd_round_trip]; [NodeFsCopy.cp_copies].
    - Concurrency.  [EventLoop.cancelled_never_fires] and [PoolRegistry.pools_isolated] hold under every
      interleaving; no wake-up is lost, I/O completions and [fs] jobs are delivered once
      ([NodeFsJobs.jobs_accounted_for]), a turn of the loop ends whatever job it takes but a copy inside the
      in-memory file system ([NodeFsTurns.job_turn]), and threads of an unreferenced pool end if their scripts do.
    - Protocols.  [HttpTheorems.framing_refines_spec]: an outcome depends on the bytes and not on how they
      arrive; [FetchTheorems.http1_response_exact] for responses; [AgentTheorems.mcp_serves]: one answer per request, in order;
      [Grammar.sse_round_trip].
    - Installing, bundling, compiling.  A pinned install is the same everywhere and ends; a bundle's text is the
      rewritten files the graph reaches ([BundlerTheorems.bundle_complete]), and the names it accepts are those of the
      bundler's rule ([Offers]), compared with ECMAScript's ([EsExports]); a compiled executable finds its bundle
      ([CompileTheorems.compiled_executable_runs_bundle]), and a compile that fails changes no file but the output;
      the Mach-O rewriting keeps every offset on its bytes and indexes no buffer out of range.
    - Computation.  [NodePath.resolve_is_cd], [Bus.topic_matches_spec], [Checkpoint.diff_is_patch],
      [Weights.gguf_round_trip], [Replay.replay_reproduces], [AgentTheorems.exported_tools_listed].

    ** Bounds and fuel

    Loops that pop from the front or the end of a string take its length as fuel and
    remove a byte a round ([trim_with], [NodePath.pop_separators], [Grammar.drop_separators], [Agent.drop_matches]).
    Loops that read take the bytes and answers still to come ([Http], [Fetch.mass], [Agent.mcp_loop]: [mcp_loop_fuel] and
    [read_to_end_fuel] show that more makes no difference).  Recursion over directories goes
    up a path ([CommandLine.find_upward], [NodeFs]'s [create_all]: its length) or down a tree ([cp]: its depth, by
    [NodeFsCopy.cp_copies]).  The resolver's fuel bounds the call
    stack; [ResolverTheorems.resolution_terminates] gives a depth that is enough, as
    [InstallTheorems.install_terminates] (the number of names and one more) and [BundlerTheorems.bundle_terminates] do for
    the installer and the bundler.  [Weights] reads no more entries than there are bytes left and recurses no deeper than the
    stack it is given, as the source does; [MachO]'s loops run over the counts in the image.  Redirects are
    followed 20 times, the dead-letter queue holds 1000 letters, 256 directory handles may be open, as in the source.

    ** What is not modelled

    - What only drives V8: contexts, bindings, the property-setting halves of the native modules, argument
      conversions of [fetch], the [Request], [Response] and [Headers] objects, [Stats] objects; and the JavaScript embedded in the
      Rust files (the [FileHandle] class, the string decoder, the bus's delivery, [amber:mcp]).
    - The TypeScript compiler and the runtime's driver ([runtime_minimal.rs]), more than half of the implementation's
      lines: their contracts are the semantics of TypeScript and of V8.
    - Code whose work is a third-party library's or the kernel's: cryptography, compression, TLS, sockets, child
      processes, SQLite, WebAssembly, FFI, file notifications, terminals.  Floating-point numerics.
    - Small parts on V8 objects with little of their own: query strings, URL search parameters, timers' and utilities' modules.
    - Retry and fallback managers, which nothing outside the historical trees calls, and the files under [src/src/] that
      [lib.rs] does not declare. *)

From Stdlib Require Export Ascii.
From stdpp Require Export base list list_numbers gmap gmultiset strings sets sorting numbers relations.
From stdpp Require Export options.

#[export] Set Default Proof Using "Type".

(** ** Rust strings

    A Rust [String] or [&str] is its UTF-8 byte sequence.  [len], slicing by
    byte offsets, [==], [starts_with], [split] and [rfind] on an ASCII
    character are exact on bytes, because an ASCII byte is never part of a
    longer UTF-8 sequence.  String literals are written as usual and coerced. *)

Abbreviation rstr := (list ascii).
Coercion String.list_ascii_of_string : string >-> list.

(** The characters [double quote] and [single quote]. *)
Definition dquote : ascii := "034"%char.
Definition squote : ascii := "039"%char.
Definition slash : ascii := "/".
Definition backslash : ascii := "\".

(** ** Results of fallible code *)

(** [Result<T, E>]: the error type comes first, so that [res E] is a monad. *)
Inductive res (E T : Type) :=
  | Ok (t : T)
  | Err (e : E).
Arguments Ok {E T} t.
Arguments Err {E T} e.
Abbreviation result T E := (res E T).

Definition is_ok {E T} (r : result T E) : bool :=
  match r with Ok _ => true | Err _ => false end.

#[export] Instance result_eq_dec {E T} `{EqDecision T, EqDecision E} :
  EqDecision (result T E).
Proof. solve_decision. Defined.

(** The error monad: [x ← m; k] stops at the first error, as [?] does. *)
#[export] Instance result_ret {E} : MRet (res E) := λ T, Ok.
#[export] Instance result_bind {E} : MBind (res E) := λ T U f r,
  match r with Ok x => f x | Err e => Err e end.

(** Notation scope of the development. *)
Declare Scope amber_scope.
Delimit Scope amber_scope with amber.
Notation "o '.unwrap_or' d" := (default d o)
  (at level 20, d at level 9) : amber_scope.
Open Scope amber_scope.

(** ** Automation

    [cases] splits every [if]/[match] of the goal and cleans up;
    [bool_cases] turns [bool_decide]/[decide] tests into propositions. *)
(** Case analysis on the scrutinee of a conditional or a match of the goal. *)
Ltac branch :=
  match goal with
  | |- context [if ?b then _ else _] => destruct b
  | |- context [match ?x with _ => _ end] => destruct x
  end.
Ltac cases := repeat (case_match; simplify_eq/=); try done.
Ltac bool_cases :=
  repeat first
    [ case_bool_decide | case_decide
    | match goal with
      | H : bool_decide _ = true |- _ => apply bool_decide_eq_true in H
      | H : bool_decide _ = false |- _ => apply bool_decide_eq_false in H
      | H : (_ && _)%bool = true |- _ => apply andb_true_iff in H as [? ?]
      | H : (_ || _)%bool = false |- _ => apply orb_false_iff in H as [? ?]
      | H : negb _ = true |- _ => apply negb_true_iff in H
      | H : negb _ = false |- _ => apply negb_false_iff in H
      end ].

(** Case on a given test of the goal. *)
Ltac bd_case P :=
  destruct (decide P);
  [rewrite ?(bool_decide_eq_true_2 P) by done
  |rewrite ?(bool_decide_eq_false_2 P) by done].

Create HintDb amber.
Create Rewrite HintDb amber.

(** ** Lists *)

Lemma omap_ext_in {A B} (f g : A → option B) (l : list A) :
  (∀ x, x ∈ l → f x = g x) → omap f l = omap g l.
Proof.
  induction l as [|x l IH]; intros H; [done|].
  change (omap f (x :: l)) with (match f x with Some y => y :: omap f l | None => omap f l end).
  change (omap g (x :: l)) with (match g x with Some y => y :: omap g l | None => omap g l end).
  rewrite (H x), IH; [done|intros; apply H; by right|left].
Qed.

(** ** Machine integers *)

Definition U64_MOD : Z := 2 ^ 64.
Definition U32_MAX : Z := 2 ^ 32 - 1.
(** [u64] and [AtomicU64] arithmetic of a release build: wrap around. *)
Definition wrap_u64 (z : Z) : Z := z mod U64_MOD.
(** [i64] arithmetic of a release build: two's complement wrap around. *)
Definition wrap_i64 (z : Z) : Z := (z + 2 ^ 63) mod 2 ^ 64 - 2 ^ 63.

Definition in_u64 (z : Z) : Prop := (0 ≤ z < U64_MOD)%Z.
Definition in_i64 (z : Z) : Prop := (- 2 ^ 63 ≤ z < 2 ^ 63)%Z.

Lemma wrap_u64_id z : in_u64 z → wrap_u64 z = z.
Proof. intros. by apply Z.mod_small. Qed.
Lemma wrap_u64_range z : in_u64 (wrap_u64 z).
Proof. by apply Z.mod_pos_bound. Qed.
Lemma wrap_i64_id z : in_i64 z → wrap_i64 z = z.
Proof. unfold wrap_i64, in_i64. intros. rewrite Z.mod_small; lia. Qed.
Lemma wrap_i64_range z : in_i64 (wrap_i64 z).
Proof.
  unfold wrap_i64, in_i64.
  pose proof (Z.mod_pos_bound (z + 2 ^ 63) (2 ^ 64)). lia.
Qed.
#[export] Hint Resolve wrap_u64_range wrap_i64_range : amber.

(** ** String operations of the Rust standard library *)

(** [s.starts_with(p)] and [s.strip_prefix(p)]. *)
Fixpoint strip_prefix (p s : rstr) : option rstr :=
  match p, s with
  | [], _ => Some s
  | a :: p', b :: s' => if bool_decide (a = b) then strip_prefix p' s' else None
  | _ :: _, [] => None
  end.
Definition starts_with (p s : rstr) : bool := bool_decide (is_Some (strip_prefix p s)).
(** [s.ends_with(p)] and [s.strip_suffix(p)]. *)
Definition strip_suffix (p s : rstr) : option rstr :=
  reverse <$> strip_prefix (reverse p) (reverse s).
Definition ends_with (p s : rstr) : bool := bool_decide (is_Some (strip_suffix p s)).
(** [haystack.contains(needle)] *)
Fixpoint contains (needle haystack : rstr) : bool :=
  starts_with needle haystack ||
  match haystack with [] => false | _ :: h => contains needle h end.

Lemma strip_prefix_Some p s r : strip_prefix p s = Some r ↔ s = p ++ r.
Proof.
  revert s. induction p as [|a p IH]; intros [|b s]; simpl; try naive_solver.
  bool_cases; subst; [rewrite IH|]; naive_solver.
Qed.
Lemma starts_with_spec p s : starts_with p s = true ↔ p `prefix_of` s.
Proof.
  unfold starts_with. rewrite bool_decide_eq_true.
  split; [intros [r Hr]|intros [r ->]]; [exists r|exists r];
    by apply strip_prefix_Some.
Qed.
Lemma strip_suffix_Some p s r : strip_suffix p s = Some r ↔ s = r ++ p.
Proof.
  unfold strip_suffix. rewrite fmap_Some. setoid_rewrite strip_prefix_Some.
  split.
  - intros (x & Hs & ->). rewrite <-(reverse_involutive s), Hs.
    by rewrite reverse_app, reverse_involutive.
  - intros ->. exists (reverse r). by rewrite reverse_app, reverse_involutive.
Qed.
Lemma ends_with_spec p s : ends_with p s = true ↔ p `suffix_of` s.
Proof.
  unfold ends_with. rewrite bool_decide_eq_true.
  split; [intros [r Hr]|intros [r ->]]; exists r; by apply strip_suffix_Some.
Qed.

(** [s.split(c)] for an ASCII character: always at least one part. *)
Fixpoint split_on (c : ascii) (s : rstr) : list rstr :=
  match s with
  | [] => [[]]
  | a :: s' =>
      if bool_decide (a = c) then [] :: split_on c s'
      else match split_on c s' with
           | [] => [[a]]
           | h :: t => (a :: h) :: t
           end
  end.
(** [parts.join(sep)]. *)
Fixpoint join (sep : rstr) (l : list rstr) : rstr :=
  match l with
  | [] => []
  | [x] => x
  | x :: l' => x ++ sep ++ join sep l'
  end.

Lemma split_on_not_nil c s : split_on c s ≠ [].
Proof. destruct s; simpl; cases. Qed.
Lemma split_on_cons c a s :
  a ≠ c → ∃ h t, split_on c s = h :: t ∧ split_on c (a :: s) = (a :: h) :: t.
Proof.
  intros Hne. simpl. rewrite bool_decide_eq_false_2 by done.
  destruct (split_on c s) as [|h t] eqn:E; [by apply split_on_not_nil in E|].
  eauto.
Qed.
Lemma join_cons sep x l : l ≠ [] → join sep (x :: l) = x ++ sep ++ join sep l.
Proof. by destruct l. Qed.
Lemma join_split_on c s : join [c] (split_on c s) = s.
Proof.
  induction s as [|a s IH]; [done|]. simpl. bool_cases; subst.
  - rewrite join_cons by apply split_on_not_nil. by rewrite IH.
  - destruct (split_on c s) as [|h t] eqn:E; [by apply split_on_not_nil in E|].
    rewrite <-IH. destruct t; done.
Qed.
Lemma split_on_no_sep c s : Forall (λ p, c ∉ p) (split_on c s).
Proof.
  induction s as [|a s IH]; simpl; [by repeat constructor; apply not_elem_of_nil|].
  bool_cases; subst; [constructor; [apply not_elem_of_nil|done]|].
  destruct (split_on c s) as [|h t]; [by repeat constructor; set_solver|].
  apply Forall_cons in IH as [? ?]. constructor; [set_solver|done].
Qed.
Lemma split_on_free c s : c ∉ s → split_on c s = [s].
Proof.
  induction s as [|a s IH]; [done|]. rewrite not_elem_of_cons. intros [? Hs].
  simpl. rewrite bool_decide_eq_false_2 by done. by rewrite IH.
Qed.
Lemma split_on_app_sep c x s : c ∉ x → split_on c (x ++ c :: s) = x :: split_on c s.
Proof.
  induction x as [|a x IH]; simpl; [by rewrite bool_decide_eq_true_2|].
  rewrite not_elem_of_cons. intros [? Hx].
  rewrite bool_decide_eq_false_2 by done. by rewrite IH.
Qed.
Lemma elem_of_split_on c part s : part ∈ split_on c s → ∀ a, a ∈ part → a ∈ s.
Proof.
  revert part. induction s as [|b s IH]; intros part; simpl.
  - intros ->%list_elem_of_singleton a Ha. done.
  - case_bool_decide.
    + intros [->|Hin]%elem_of_cons a Ha; [by apply not_elem_of_nil in Ha|].
      right. by eapply IH.
    + destruct (split_on c s) as [|h t] eqn:E; [by apply split_on_not_nil in E|].
      intros [->|Hin]%elem_of_cons a Ha.
      * apply elem_of_cons in Ha as [->|Ha]; [left|right].
        apply (IH h); [left|done].
      * right. apply (IH part); [by right|done].
Qed.
Lemma split_on_snoc_sep c s : split_on c (s ++ [c]) = split_on c s ++ [[]].
Proof.
  induction s as [|a s IH]; simpl; [by rewrite bool_decide_eq_true_2|].
  rewrite IH. case_bool_decide; [done|].
  destruct (split_on c s) as [|h t] eqn:E; [by apply split_on_not_nil in E|done].
Qed.
Lemma split_on_app c s t :
  split_on c (s ++ c :: t) = split_on c s ++ split_on c t.
Proof.
  induction s as [|a s IH]; simpl; [by rewrite bool_decide_eq_true_2|].
  rewrite IH. case_bool_decide; [done|].
  destruct (split_on c s) as [|h u] eqn:E; [by apply split_on_not_nil in E|done].
Qed.
Lemma split_on_join c l :
  l ≠ [] → Forall (λ p, c ∉ p) l → split_on c (join [c] l) = l.
Proof.
  induction l as [|x l IH]; [done|]. intros _ [Hx Hl]%Forall_cons.
  destruct l as [|y l']; [by apply split_on_free|].
  rewrite join_cons by done. simpl app at 1.
  change ([c] ++ join [c] (y :: l')) with (c :: join [c] (y :: l')).
  rewrite split_on_app_sep by done. f_equal. by apply IH.
Qed.
#[export] Hint Rewrite join_split_on : amber.

(** [s.ends_with(c)] for a character. *)
Lemma ends_with_last c s : ends_with [c] s = bool_decide (last s = Some c).
Proof.
  apply eq_true_iff_eq. rewrite ends_with_spec, bool_decide_eq_true. split.
  - intros [r ->]. by rewrite last_snoc.
  - intros [r ->]%last_Some. by exists r.
Qed.
Lemma starts_with_head c s : starts_with [c] s = bool_decide (head s = Some c).
Proof.
  apply eq_true_iff_eq. rewrite starts_with_spec, bool_decide_eq_true. split.
  - by intros [r ->].
  - destruct s as [|a s]; [done|]. intros [= ->]. by exists s.
Qed.

Definition newline : ascii := "010"%char.
Definition carriage_return : ascii := "013"%char.

(** [BufRead::lines] on the bytes of a file, and [str::lines]: the parts between newlines, a
    carriage return before the newline removed, no empty part at the end. *)
Fixpoint lines_of (parts : list rstr) : list rstr :=
  match parts with
  | [] => []
  | [x] => if bool_decide (x = []) then [] else [x]
  | x :: parts' => ((strip_suffix [carriage_return] x) .unwrap_or x) :: lines_of parts'
  end.
Definition file_lines (s : rstr) : list rstr := lines_of (split_on newline s).

Lemma file_lines_cons x s :
  newline ∉ x → last x ≠ Some carriage_return →
  file_lines (x ++ newline :: s) = x :: file_lines s.
Proof.
  intros Hx Hl. unfold file_lines. rewrite split_on_app_sep by done.
  destruct (split_on newline s) as [|y l] eqn:E; [by apply split_on_not_nil in E|].
  change (lines_of (x :: y :: l)) with
    ((strip_suffix [carriage_return] x .unwrap_or x) :: lines_of (y :: l)).
  f_equal. destruct (strip_suffix [carriage_return] x) as [r|] eqn:Er; [|done].
  apply strip_suffix_Some in Er. subst. by rewrite last_snoc in Hl.
Qed.

(** A file whose last line is complete. *)
Definition complete_file (f : rstr) : Prop := f = [] ∨ ∃ f', f = f' ++ [newline].

Lemma lines_of_app l l' :
  l' ≠ [] → lines_of (l ++ l') = ((λ x, (strip_suffix [carriage_return] x) .unwrap_or x) <$> l)
                                  ++ lines_of l'.
Proof.
  intros Hl'. induction l as [|x l IH]; [done|]. simpl app.
  destruct (l ++ l') as [|y l''] eqn:E; [by destruct l|].
  change (lines_of (x :: y :: l'')) with
    ((strip_suffix [carriage_return] x .unwrap_or x) :: lines_of (y :: l'')).
  by rewrite IH.
Qed.
(** Bytes after a complete file make lines of their own. *)
Lemma file_lines_app f g : complete_file f → file_lines (f ++ g) = file_lines f ++ file_lines g.
Proof.
  intros [->|[f' ->]]; [done|]. unfold file_lines.
  rewrite <-app_assoc. simpl app. rewrite split_on_app, split_on_snoc_sep.
  rewrite !lines_of_app by (done || apply split_on_not_nil). simpl. by rewrite app_nil_r.
Qed.
Lemma file_lines_single x :
  newline ∉ x → last x ≠ Some carriage_return → file_lines (x ++ [newline]) = [x].
Proof. intros. by rewrite file_lines_cons. Qed.
Lemma file_lines_torn x : newline ∉ x → x ≠ [] → file_lines x = [x].
Proof.
  intros. unfold file_lines. rewrite split_on_free by done. simpl.
  by rewrite bool_decide_eq_false_2.
Qed.

(** [s.split_once(c)] for an ASCII character *)
Fixpoint split_once (c : ascii) (s : rstr) : option (rstr * rstr) :=
  match s with
  | [] => None
  | a :: s' => if bool_decide (a = c) then Some ([], s')
               else '(x, y) ← split_once c s'; Some (a :: x, y)
  end.
Lemma split_once_app c x y : c ∉ x → split_once c (x ++ c :: y) = Some (x, y).
Proof.
  induction x as [|a x IH]; simpl; [by rewrite bool_decide_eq_true_2|].
  rewrite not_elem_of_cons. intros [Ha Hx]. rewrite bool_decide_eq_false_2 by done.
  by rewrite IH.
Qed.
Lemma split_once_Some c s x y : split_once c s = Some (x, y) ↔ s = x ++ c :: y ∧ c ∉ x.
Proof.
  split; [|intros [-> ?]; by apply split_once_app].
  revert x y. induction s as [|a s IH]; intros x y; simpl; [done|].
  bool_cases; subst.
  - intros [= <- <-]. split; [done|apply not_elem_of_nil].
  - destruct (split_once c s) as [[u v]|] eqn:E; [|done]. simpl. intros [= <- <-].
    destruct (IH u v eq_refl) as [-> ?]. split; [done|]. rewrite not_elem_of_cons. naive_solver.
Qed.
Lemma split_once_None c s : split_once c s = None ↔ c ∉ s.
Proof.
  induction s as [|a s IH]; simpl; [split; [intros _; apply not_elem_of_nil|done]|].
  rewrite not_elem_of_cons. bool_cases; [naive_solver|].
  destruct (split_once c s) as [[u v]|]; naive_solver.
Qed.

(** [s.rfind(c)] for an ASCII character: the byte offset of the last one. *)
Fixpoint rfind (c : ascii) (s : rstr) : option nat :=
  match s with
  | [] => None
  | a :: s' =>
      match rfind c s' with
      | Some i => Some (S i)
      | None => if bool_decide (a = c) then Some 0 else None
      end
  end.
Lemma rfind_None c s : rfind c s = None ↔ c ∉ s.
Proof.
  induction s as [|a s IH]; simpl; [split; [intros _; apply not_elem_of_nil|done]|].
  rewrite not_elem_of_cons. destruct (rfind c s); [naive_solver|].
  bool_cases; naive_solver.
Qed.
(** The offset splits the string at its last [c]. *)
Lemma rfind_Some c s i :
  rfind c s = Some i →
  s = take i s ++ c :: drop (S i) s ∧ c ∉ drop (S i) s ∧ i < length s.
Proof.
  revert i. induction s as [|a s IH]; intros i; simpl; [done|].
  destruct (rfind c s) as [j|] eqn:E.
  - intros [= <-]. destruct (IH j eq_refl) as (Hs & Hn & Hl).
    simpl. split; [by f_equal|]. split; [done|lia].
  - bool_cases; [|done]. intros [= <-]. subst. simpl.
    rewrite drop_0. apply rfind_None in E. repeat split; [done|lia].
Qed.
Lemma rfind_app c s t :
  c ∉ t → rfind c (s ++ c :: t) = Some (length s).
Proof.
  intros Ht%rfind_None. induction s as [|a s IH]; simpl.
  - by rewrite Ht, bool_decide_eq_true_2.
  - by rewrite IH.
Qed.

(** *** Unicode whitespace, on UTF-8 bytes

    [ws_len s] is the byte length of the [White_Space] character at the front
    of [s], 0 when there is none. *)
Definition ws_len (s : rstr) : nat :=
  match s with
  | a :: s' =>
      let x := N_of_ascii a in
      if bool_decide ((9 ≤ x ∧ x ≤ 13) ∨ x = 32)%N then 1
      else match s' with
      | b :: s'' =>
          let y := N_of_ascii b in
          if bool_decide (x = 194 ∧ (y = 133 ∨ y = 160))%N then 2
          else match s'' with
          | c :: _ =>
              let z := N_of_ascii c in
              if bool_decide
                   ((x = 225 ∧ y = 154 ∧ z = 128)
                    ∨ (x = 226 ∧ y = 128 ∧ (128 ≤ z ∧ z ≤ 138))
                    ∨ (x = 226 ∧ y = 128 ∧ (z = 168 ∨ z = 169 ∨ z = 175))
                    ∨ (x = 226 ∧ y = 129 ∧ z = 159)
                    ∨ (x = 227 ∧ y = 128 ∧ z = 128))%N then 3
              else 0
          | [] => 0
          end
      | [] => 0
      end
  | [] => 0
  end.
(** The same for the character at the end, the bytes given in reverse. *)
Definition ws_len_rev (s : rstr) : nat :=
  if bool_decide (ws_len (reverse (take 1 s)) = 1) then 1
  else if bool_decide (ws_len (reverse (take 2 s)) = 2) then 2
  else if bool_decide (ws_len (reverse (take 3 s)) = 3) then 3
  else 0.

(** Drops whitespace characters measured by [w] from the front; at most one
    per byte of [s], so [length s] rounds are enough. *)
Fixpoint trim_with (w : rstr → nat) (fuel : nat) (s : rstr) : rstr :=
  match fuel with
  | 0 => s
  | S fuel' => if bool_decide (w s = 0) then s else trim_with w fuel' (drop (w s) s)
  end.
Definition trim_start (s : rstr) : rstr := trim_with ws_len (length s) s.
Definition trim_end (s : rstr) : rstr :=
  reverse (trim_with ws_len_rev (length s) (reverse s)).
(** [s.trim()] *)
Definition trim (s : rstr) : rstr := trim_end (trim_start s).

Lemma trim_with_stop w fuel s :
  (∀ t, w t ≤ length t) → length s ≤ fuel → w (trim_with w fuel s) = 0.
Proof.
  intros Hw. revert s. induction fuel as [|n IH]; intros s Hs; simpl.
  - pose proof (Hw s). lia.
  - bool_cases; [done|]. apply IH. rewrite length_drop. lia.
Qed.
Lemma trim_with_id w fuel s : w s = 0 → trim_with w fuel s = s.
Proof. intros H. destruct fuel; simpl; [done|]. by rewrite bool_decide_eq_true_2. Qed.
Lemma trim_with_suffix w fuel s : trim_with w fuel s `suffix_of` s.
Proof.
  revert s. induction fuel as [|n IH]; intros s; simpl; [done|].
  bool_cases; [done|]. etrans; [apply IH|]. apply suffix_drop.
Qed.
Lemma ws_len_le s : ws_len s ≤ length s.
Proof.
  destruct s as [|a [|b [|c s]]]; simpl; repeat case_bool_decide; simpl; lia.
Qed.
Lemma trim_start_stop s : ws_len (trim_start s) = 0.
Proof. apply trim_with_stop; [apply ws_len_le|done]. Qed.

(** A printable ASCII byte: it neither is nor is part of whitespace. *)
Definition plain (c : ascii) : Prop := (33 ≤ N_of_ascii c < 128)%N.
#[export] Instance plain_dec c : Decision (plain c).
Proof. unfold plain. apply _. Defined.

Lemma ws_len_plain c s : plain c → ws_len (c :: s) = 0.
Proof.
  unfold plain. intros Hc. simpl. destruct s as [|b [|d s]];
    repeat case_bool_decide; lia.
Qed.
(** A whitespace character ends before a plain byte. *)
Lemma ws_len_before_plain s c t :
  plain c → ws_len (s ++ c :: t) ≤ length s.
Proof.
  unfold plain. intros Hc. destruct s as [|a [|b [|d s]]]; simpl;
    repeat (case_bool_decide || case_match); simpl; simplify_eq/=; lia.
Qed.
(** Every byte of a whitespace character is whitespace itself or not ASCII. *)
Lemma ws_len_bytes s c : c ∈ take (ws_len s) s → ¬ plain c.
Proof.
  unfold plain. destruct s as [|a [|b [|d s]]]; simpl;
    repeat case_bool_decide; simpl; rewrite ?elem_of_cons, ?elem_of_nil;
    intros; destruct_or?; subst; try done; lia.
Qed.
Lemma ws_len_rev_bytes s c : c ∈ take (ws_len_rev s) s → ¬ plain c.
Proof.
  assert (∀ n, ws_len (reverse (take n s)) = n → c ∈ take n s → ¬ plain c) as H.
  { intros n Hn Hc. apply (ws_len_bytes (reverse (take n s))). rewrite Hn.
    rewrite take_ge; [by apply elem_of_reverse|].
    rewrite length_reverse, length_take. lia. }
  unfold ws_len_rev. repeat case_bool_decide; eauto. by intros ?%not_elem_of_nil.
Qed.
Lemma ws_len_rev_before_plain s c t :
  plain c → ws_len_rev (s ++ c :: t) ≤ length s.
Proof.
  intros Hc. destruct (decide (ws_len_rev (s ++ c :: t) ≤ length s)) as [|Hn]; [done|].
  exfalso. apply (ws_len_rev_bytes (s ++ c :: t) c); [|done].
  rewrite take_app_ge by lia. apply elem_of_app. right.
  destruct (ws_len_rev (s ++ c :: t) - length s) eqn:E; [lia|]. left.
Qed.
Lemma trim_with_keeps w fuel s c t :
  (∀ s', w (s' ++ c :: t) ≤ length s') →
  ∃ s', trim_with w fuel (s ++ c :: t) = s' ++ c :: t ∧ s' `suffix_of` s.
Proof.
  intros Hw. revert s. induction fuel as [|n IH]; intros s; simpl; [by exists s|].
  bool_cases; [by exists s|].
  pose proof (Hw s). rewrite drop_app_le by done.
  destruct (IH (drop (w (s ++ c :: t)) s)) as (s' & -> & Hs').
  exists s'. split; [done|]. etrans; [done|apply suffix_drop].
Qed.
(** [trim] keeps a word that opens the string, and what follows the word is a
    prefix of what followed it. *)
Lemma trim_plain_word w c t :
  plain c → Forall plain w →
  ∃ t', trim (w ++ c :: t) = w ++ c :: t' ∧ t' `prefix_of` t.
Proof.
  intros Hc Hw. unfold trim, trim_start.
  rewrite trim_with_id; cycle 1.
  { destruct Hw; by apply ws_len_plain. }
  unfold trim_end. rewrite reverse_app, reverse_cons, <-app_assoc. simpl.
  edestruct (trim_with_keeps ws_len_rev (length (w ++ c :: t)) (reverse t) c (reverse w))
    as (s' & -> & Hs').
  { intros. by apply ws_len_rev_before_plain. }
  exists (reverse s'). rewrite reverse_app, reverse_cons, reverse_involutive, <-app_assoc.
  split; [done|]. destruct Hs' as [x Hx].
  exists (reverse x). by rewrite <-reverse_app, <-Hx, reverse_involutive.
Qed.

(** [s.split_whitespace().next().unwrap_or("")] *)
Fixpoint take_word (s : rstr) : rstr :=
  match s with
  | [] => []
  | a :: s' => if bool_decide (ws_len s = 0) then a :: take_word s' else []
  end.
Definition first_word (s : rstr) : rstr := take_word (trim_start s).

Lemma take_word_plain w : Forall plain w → take_word w = w.
Proof.
  induction 1 as [|c w Hc _ IH]; [done|]. cbn [take_word].
  rewrite ws_len_plain by done. simpl. by rewrite IH.
Qed.
Lemma take_word_stop w t :
  Forall plain w → ws_len t ≠ 0 → take_word (w ++ t) = w.
Proof.
  induction 1 as [|c w Hc _ IH]; intros Ht.
  - simpl. destruct t; [done|]. cbn [take_word]. by rewrite bool_decide_eq_false_2.
  - simpl app. cbn [take_word]. rewrite ws_len_plain by done. simpl. by rewrite IH.
Qed.

(** [s.to_lowercase()] on ASCII text, and [to_ascii_lowercase] on any. *)
Definition to_lower (c : ascii) : ascii :=
  let n := N_of_ascii c in
  if bool_decide (65 ≤ n ∧ n ≤ 90)%N then ascii_of_N (n + 32) else c.
Definition to_lowercase (s : rstr) : rstr := map to_lower s.

(** *** Byte-lexicographic order, [impl Ord for str] *)
Fixpoint rstr_leb (s t : rstr) : bool :=
  match s, t with
  | [], _ => true
  | _ :: _, [] => false
  | a :: s', b :: t' =>
      if bool_decide (a = b) then rstr_leb s' t'
      else bool_decide (N_of_ascii a < N_of_ascii b)%N
  end.
Definition rstr_le (s t : rstr) : Prop := rstr_leb s t = true.
#[export] Instance rstr_le_dec : RelDecision rstr_le.
Proof. intros s t. unfold rstr_le. apply _. Defined.

Lemma N_of_ascii_inj a b : N_of_ascii a = N_of_ascii b → a = b.
Proof. intros H. by rewrite <-(ascii_N_embedding a), H, ascii_N_embedding. Qed.
#[export] Instance rstr_le_total : Total rstr_le.
Proof.
  unfold rstr_le. intros s. induction s as [|a s IH]; intros [|b t]; simpl; auto.
  destruct (decide (a = b)) as [->|Hne].
  - rewrite !bool_decide_eq_true_2 by done. apply IH.
  - rewrite !(bool_decide_eq_false_2 (_ = _)) by done.
    rewrite !bool_decide_eq_true.
    assert (N_of_ascii a ≠ N_of_ascii b) by (intros ?%N_of_ascii_inj; done). lia.
Qed.
#[export] Instance rstr_le_trans : Transitive rstr_le.
Proof.
  unfold rstr_le. intros s. induction s as [|a s IH]; intros [|b t] [|c u]; simpl;
    try done.
  repeat case_bool_decide; subst; try done; intros; try lia; eauto.
Qed.
#[export] Instance rstr_le_antisymm : AntiSymm (=) rstr_le.
Proof.
  unfold rstr_le. intros s. induction s as [|a s IH]; intros [|b t]; simpl; try done.
  repeat case_bool_decide; subst; try done; intros; [|lia].
  f_equal. eauto.
Qed.
(** [v.sort()] on a vector of strings. *)
Definition sort_strings (l : list rstr) : list rstr := merge_sort rstr_le l.
Lemma sort_strings_perm l : sort_strings l ≡ₚ l.
Proof. apply merge_sort_Permutation. Qed.
Lemma sort_strings_sorted l : Sorted rstr_le (sort_strings l).
Proof. apply Sorted_merge_sort, _. Qed.
#[export] Hint Resolve sort_strings_perm sort_strings_sorted trim_start_stop : amber.

(** Decided by computation. *)
Lemma not_in (c : ascii) (s : rstr) : bool_decide (c ∈ s) = false → c ∉ s.
Proof. apply bool_decide_eq_false. Qed.

(** *** Integer parsing, [str::parse::<u64>] and [str::parse::<i64>] *)
Definition digit (c : ascii) : option Z :=
  let n := Z.of_N (N_of_ascii c) in
  if bool_decide (48 ≤ n ≤ 57)%Z then Some (n - 48)%Z else None.
Fixpoint parse_digits (acc : Z) (s : rstr) : option Z :=
  match s with
  | [] => Some acc
  | c :: s' => d ← digit c; parse_digits (10 * acc + d)%Z s'
  end.
Definition parse_nat_digits (s : rstr) : option Z :=
  match s with [] => None | _ => parse_digits 0 s end.
Definition parse_u64 (s : rstr) : option Z :=
  let body := (strip_prefix "+" s) .unwrap_or s in
  v ← parse_nat_digits body;
  if bool_decide (v < U64_MOD)%Z then Some v else None.
Definition parse_i64 (s : rstr) : option Z :=
  let v := match strip_prefix "-" s with
           | Some body => Z.opp <$> parse_nat_digits body
           | None => parse_nat_digits ((strip_prefix "+" s) .unwrap_or s)
           end in
  v ← v; if bool_decide (- 2 ^ 63 ≤ v < 2 ^ 63)%Z then Some v else None.

(** [format!("{}", n)] for an unsigned integer: decimal, no leading zeros. *)
Definition digit_char (n : N) : ascii := ascii_of_N (48 + n).
Fixpoint dec_fuel (fuel : nat) (n : N) (acc : rstr) : rstr :=
  match fuel with
  | 0 => acc
  | S fuel' =>
      let acc := digit_char (n mod 10) :: acc in
      if bool_decide (n < 10)%N then acc else dec_fuel fuel' (n / 10) acc
  end.
Definition dec (n : N) : rstr := dec_fuel (S (N.size_nat n)) n [].

Lemma digit_digit_char n : (n < 10)%N → digit (digit_char n) = Some (Z.of_N n).
Proof.
  intros Hn. unfold digit, digit_char. rewrite N_ascii_embedding by lia.
  rewrite bool_decide_eq_true_2 by lia. f_equal. lia.
Qed.
Lemma dec_fuel_parse fuel n acc :
  (n < 10 ^ N.of_nat fuel)%N → 0 < fuel →
  parse_digits 0 (dec_fuel fuel n acc) = parse_digits (Z.of_N n) acc.
Proof.
  revert n acc. induction fuel as [|fuel IH]; intros n acc Hn Hf; [lia|]. cbn [dec_fuel].
  rewrite Nat2N.inj_succ, N.pow_succ_r' in Hn.
  assert (n mod 10 < 10)%N as Hm by (apply N.mod_lt; lia).
  pose proof (N.div_mod n 10 ltac:(done)) as Hdm. case_bool_decide as Hlt.
  - cbn [parse_digits]. rewrite digit_digit_char by done. cbn [mbind option_bind].
    f_equal. rewrite N.mod_small by done. lia.
  - assert (n / 10 < 10 ^ N.of_nat fuel)%N as Hd by (apply N.Div0.div_lt_upper_bound; lia).
    rewrite IH; [|done|].
    + cbn [parse_digits]. rewrite digit_digit_char by done. cbn [mbind option_bind]. f_equal. lia.
    + destruct fuel; [|lia]. simpl in Hd. lia.
Qed.
Lemma dec_fuel_digits fuel n acc :
  Forall (λ c, is_Some (digit c)) acc → Forall (λ c, is_Some (digit c)) (dec_fuel fuel n acc).
Proof.
  revert n acc. induction fuel as [|fuel IH]; intros n acc Hacc; [done|]. cbn [dec_fuel].
  assert (Forall (λ c, is_Some (digit c)) (digit_char (n mod 10) :: acc)).
  { constructor; [|done]. rewrite digit_digit_char; [by eexists|apply N.mod_lt; lia]. }
  case_bool_decide; [done|by apply IH].
Qed.
Lemma dec_fuel_not_nil fuel n acc : 0 < fuel → dec_fuel fuel n acc ≠ [].
Proof.
  revert n acc. induction fuel as [|fuel IH]; intros n acc Hf; [lia|]. cbn [dec_fuel].
  case_bool_decide; [done|]. destruct fuel; [done|]. apply IH. lia.
Qed.
Lemma dec_digits n : Forall (λ c, is_Some (digit c)) (dec n).
Proof. by apply dec_fuel_digits. Qed.
Lemma dec_not_nil n : dec n ≠ [].
Proof. apply dec_fuel_not_nil. lia. Qed.
Lemma of_nat_size_nat n : N.of_nat (N.size_nat n) = N.size n.
Proof.
  destruct n as [|p]; [done|]. cbn [N.size_nat N.size].
  induction p as [p IH|p IH|]; cbn [Pos.size_nat Pos.size]; rewrite Nat2N.inj_succ, ?IH; reflexivity.
Qed.
(** Printing and parsing an integer. *)
Lemma parse_dec n : parse_nat_digits (dec n) = Some (Z.of_N n).
Proof.
  unfold parse_nat_digits. destruct (dec n) as [|c s] eqn:E; [by apply dec_not_nil in E|].
  rewrite <-E. unfold dec. rewrite dec_fuel_parse; [done| |lia].
  eapply N.lt_le_trans; [apply N.size_gt|].
  transitivity (2 ^ N.of_nat (S (N.size_nat n)))%N; [|apply N.pow_le_mono_l; lia].
  apply N.pow_le_mono_r; [lia|].
  pose proof (of_nat_size_nat n). lia.
Qed.

Lemma parse_digits_nonneg acc s v :
  (0 ≤ acc)%Z → parse_digits acc s = Some v → (acc ≤ v)%Z.
Proof.
  revert acc. induction s as [|c s IH]; simpl; intros acc Hacc; [naive_solver lia|].
  unfold digit. bool_cases; simpl; [|done]. intros Hv.
  apply IH in Hv; lia.
Qed.
Lemma parse_u64_range s v : parse_u64 s = Some v → in_u64 v.
Proof.
  unfold parse_u64, in_u64. intros (w & Hw & Hv)%bind_Some.
  bool_cases; simplify_eq. split; [|done].
  unfold parse_nat_digits in Hw. case_match; [done|].
  by apply parse_digits_nonneg in Hw.
Qed.
#[export] Hint Resolve parse_u64_range : amber.

(** *** UTF-8 validity, [String::from_utf8] *)
Definition in_range (lo hi : N) (c : ascii) : bool :=
  bool_decide (lo ≤ N_of_ascii c ∧ N_of_ascii c ≤ hi)%N.
Definition cont (c : ascii) : bool := in_range 128 191 c.
Fixpoint utf8_valid (s : rstr) : bool :=
  match s with
  | [] => true
  | a :: s1 =>
      if in_range 0 127 a then utf8_valid s1
      else match s1 with
      | [] => false
      | b :: s2 =>
          if in_range 194 223 a then cont b && utf8_valid s2
          else match s2 with
          | [] => false
          | c :: s3 =>
              if (in_range 224 224 a && in_range 160 191 b)
                 || (in_range 225 236 a && cont b)
                 || (in_range 237 237 a && in_range 128 159 b)
                 || (in_range 238 239 a && cont b)
              then cont c && utf8_valid s3
              else match s3 with
              | [] => false
              | d :: s4 =>
                  ((in_range 240 240 a && in_range 144 191 b)
                   || (in_range 241 243 a && cont b)
                   || (in_range 244 244 a && in_range 128 143 b))
                  && cont c && cont d && utf8_valid s4
              end
          end
      end
  end.

(** *** Searching and replacing text *)

(** [s.find(pat)], [s.rfind(pat)] and [s.replace(pat, to)] for a non-empty text. *)
Fixpoint find_text (pat s : rstr) : option nat :=
  if starts_with pat s then Some 0
  else match s with [] => None | _ :: s' => S <$> find_text pat s' end.
Fixpoint rfind_text (pat s : rstr) : option nat :=
  match s with
  | [] => None
  | _ :: s' =>
      match rfind_text pat s' with
      | Some n => Some (S n)
      | None => if starts_with pat s then Some 0 else None
      end
  end.
Fixpoint replace_from (skip : nat) (pat to s : rstr) : rstr :=
  match s with
  | [] => []
  | c :: s' =>
      match skip with
      | S k => replace_from k pat to s'
      | 0 => if starts_with pat s then to ++ replace_from (length pat - 1) pat to s' else c :: replace_from 0 pat to s'
      end
  end.
Definition replace (s pat to : rstr) : rstr := replace_from 0 pat to s.
(** [trim_end_matches(';')] *)
Fixpoint drop_char (c : ascii) (s : rstr) : rstr :=
  match s with a :: s' => if bool_decide (a = c) then drop_char c s' else s | [] => [] end.
Definition trim_end_char (c : ascii) (s : rstr) : rstr := reverse (drop_char c (reverse s)).

(** [str::split_whitespace] *)
Fixpoint split_whitespace_fuel (fuel : nat) (s : rstr) : list rstr :=
  match fuel with
  | 0 => []
  | S fuel =>
      match trim_start s with
      | [] => []
      | t => take_word t :: split_whitespace_fuel fuel (drop (length (take_word t)) t)
      end
  end.
Definition split_whitespace (s : rstr) : list rstr := split_whitespace_fuel (S (length s)) s.

(** [text.split(CR LF)] *)
Fixpoint split_crlf (s : rstr) : list rstr :=
  match s with
  | [] => [[]]
  | a :: s' =>
      match s' with
      | b :: s'' =>
          if bool_decide (a = carriage_return) && bool_decide (b = newline) then [] :: split_crlf s''
          else match split_crlf s' with [] => [[a]] | x :: l => (a :: x) :: l end
      | [] => [[a]]
      end
  end.
