(* ===== verification/Bytes.v ===== *)
(** * Bytes in memory

    Byte buffers as the code that reads and writes binary formats has them: a
    computation over them succeeds, fails with a message, or panics ([Crashed], which
    in the release profile ends the process); little-endian integers; a range of a
    buffer that is read ([get]) and one that is overwritten ([put]). *)

From S2P Require Import Prelude.

Inductive outcome (A : Type) := Done (a : A) | Failed (e : rstr) | Crashed.
Arguments Done {A} a.
Arguments Failed {A} e.
Arguments Crashed {A}.
#[export] Instance outcome_ret : MRet outcome := λ A, Done.
#[export] Instance outcome_bind : MBind outcome := λ A B f m,
  match m with Done a => f a | Failed e => Failed e | Crashed => Crashed end.

Lemma done_bind {A B} (m : outcome A) (f : A → outcome B) b :
  m ≫= f = Done b ↔ ∃ a, m = Done a ∧ f a = Done b.
Proof. destruct m; simpl; naive_solver. Qed.
Lemma crashed_bind {A B} (m : outcome A) (f : A → outcome B) :
  m ≫= f = Crashed → m = Crashed ∨ ∃ a, m = Done a ∧ f a = Crashed.
Proof. destruct m; simpl; naive_solver. Qed.
Lemma outcome_bind_assoc {A B C} (m : outcome A) (f : A → outcome B) (g : B → outcome C) :
  (m ≫= f) ≫= g = m ≫= (λ a, f a ≫= g).
Proof. by destruct m. Qed.

(** ** Little-endian integers *)

Fixpoint from_le_bytes (s : rstr) : Z :=
  match s with [] => 0 | c :: s => Z.of_N (N_of_ascii c) + 256 * from_le_bytes s end.
Fixpoint le_bytes (n : nat) (z : Z) : rstr :=
  match n with 0 => [] | S n => ascii_of_N (Z.to_N (z mod 256)) :: le_bytes n (z / 256) end.

Lemma length_le_bytes n z : length (le_bytes n z) = n.
Proof. revert z. induction n; intros z; simpl; auto. Qed.
Lemma from_le_le_bytes n z : (0 ≤ z < 256 ^ Z.of_nat n)%Z → from_le_bytes (le_bytes n z) = z.
Proof.
  revert z. induction n as [|n IH]; intros z Hz; cbn [le_bytes from_le_bytes]; [simpl in Hz; lia|].
  rewrite Nat2Z.inj_succ, Z.pow_succ_r in Hz by lia.
  pose proof (Z.mod_pos_bound z 256 ltac:(lia)) as Hm. pose proof (Z.div_mod z 256 ltac:(lia)) as Hd.
  rewrite IH by (split; [apply Z.div_pos; lia|apply Z.div_lt_upper_bound; lia]).
  rewrite N_ascii_embedding by lia. lia.
Qed.
Lemma from_le_range s : (0 ≤ from_le_bytes s < 256 ^ Z.of_nat (length s))%Z.
Proof.
  induction s as [|c s IH]; cbn [from_le_bytes length]; [lia|]. rewrite Nat2Z.inj_succ, Z.pow_succ_r by lia.
  pose proof (N_ascii_bounded c). lia.
Qed.
Lemma le_from_le_bytes s : le_bytes (length s) (from_le_bytes s) = s.
Proof.
  induction s as [|c s IH]; [done|]. cbn [length from_le_bytes le_bytes]. pose proof (N_ascii_bounded c).
  replace ((Z.of_N (N_of_ascii c) + 256 * from_le_bytes s) mod 256)%Z with (Z.of_N (N_of_ascii c))
    by (rewrite (Z.mul_comm 256), Z_mod_plus_full, Z.mod_small by lia; done).
  replace ((Z.of_N (N_of_ascii c) + 256 * from_le_bytes s) / 256)%Z with (from_le_bytes s)
    by (rewrite (Z.mul_comm 256), Z.div_add, Z.div_small by lia; lia).
  by rewrite N2Z.id, ascii_N_embedding, IH.
Qed.

(** ** Ranges *)

Definition len (s : rstr) : Z := Z.of_nat (length s).
(** [s.get(a..a+n)], and [s[a..a+n]] where [None] is a panic. *)
Definition get (s : rstr) (a n : Z) : option rstr :=
  if bool_decide (0 ≤ a ∧ 0 ≤ n ∧ a + n ≤ len s)%Z then Some (take (Z.to_nat n) (drop (Z.to_nat a) s)) else None.
(** [s[a..a+t.len()].copy_from_slice(t)]; [None] is a panic. *)
Definition put (s : rstr) (a : Z) (t : rstr) : option rstr :=
  if bool_decide (0 ≤ a ∧ a + len t ≤ len s)%Z
  then Some (take (Z.to_nat a) s ++ t ++ drop (Z.to_nat a + length t) s) else None.
Definition or_crash {A} (o : option A) : outcome A := match o with Some a => Done a | None => Crashed end.
Definition or_fail {A} (e : rstr) (o : option A) : outcome A := match o with Some a => Done a | None => Failed e end.

Lemma mjoin_cons {A} (c : list A) cs : mjoin (c :: cs) = c ++ mjoin cs.
Proof. done. Qed.
Lemma len_app s t : len (s ++ t) = (len s + len t)%Z.
Proof. unfold len. rewrite length_app. lia. Qed.
Lemma len_le_bytes n z : len (le_bytes n z) = Z.of_nat n.
Proof. unfold len. by rewrite length_le_bytes. Qed.
Lemma len_nonneg s : (0 ≤ len s)%Z.
Proof. unfold len. lia. Qed.
Lemma len_nil : len [] = 0%Z.
Proof. done. Qed.
#[export] Hint Rewrite len_app len_le_bytes len_nil : amber.

Lemma get_Some s a n t :
  get s a n = Some t ↔ ∃ x y, s = x ++ t ++ y ∧ len x = a ∧ len t = n.
Proof.
  unfold get. split.
  - case_bool_decide as H; [|done]. intros [= <-]. exists (take (Z.to_nat a) s), (drop (Z.to_nat n) (drop (Z.to_nat a) s)).
    rewrite take_drop, take_drop. unfold len in *. rewrite !length_take, length_drop. split; [done|lia].
  - intros (x & y & -> & <- & <-). unfold len. rewrite bool_decide_eq_true_2 by (rewrite !length_app; lia).
    by rewrite !Nat2Z.id, drop_app_length, take_app_length.
Qed.
Lemma get_prefix s n t : get s 0 n = Some t → ∃ z, s = t ++ z ∧ len t = n.
Proof.
  intros (x & z & -> & Hx & Hn)%get_Some. assert (x = []) as -> by (destruct x; [done|by unfold len in Hx; simpl in Hx]). by exists z.
Qed.
Lemma get_at x t y a n : a = len x → n = len t → get (x ++ t ++ y) a n = Some t.
Proof. intros -> ->. apply get_Some. eauto. Qed.
Lemma get_0_app x s n : len x = n → get (x ++ s) 0 n = Some x.
Proof. intros <-. by apply (get_at [] x s). Qed.
Lemma get_in_range s a n : (0 ≤ a)%Z → (0 ≤ n)%Z → (a + n ≤ len s)%Z → is_Some (get s a n).
Proof. intros. unfold get. rewrite bool_decide_eq_true_2 by lia. eauto. Qed.
Lemma get_length s a n t : get s a n = Some t → len t = n.
Proof. intros (x & y & _ & _ & ?)%get_Some. done. Qed.
Lemma get_bounds s a n t : get s a n = Some t → (0 ≤ a ∧ 0 ≤ n ∧ a + n ≤ len s)%Z.
Proof. unfold get. case_bool_decide; done. Qed.
Lemma get_app_l s z a n t : get s a n = Some t → get (s ++ z) a n = Some t.
Proof.
  intros (x & y & -> & Ha & Hn)%get_Some. apply get_Some. exists x, (y ++ z). by rewrite <-!app_assoc.
Qed.
(** A range of one part of a buffer. *)
Lemma get_mid x c z k n : (0 ≤ k)%Z → (k + n ≤ len c)%Z → get (x ++ c ++ z) (len x + k) n = get c k n.
Proof.
  intros Hk Hle. destruct (decide (0 ≤ n)%Z) as [Hn|Hn].
  - destruct (get_in_range c k n) as [t Ht]; [done..|]. rewrite Ht. apply get_Some in Ht as (p & q & -> & <- & <-).
    apply get_Some. exists (x ++ p), (q ++ z). rewrite <-!app_assoc, len_app. done.
  - unfold get. by rewrite !bool_decide_eq_false_2 by lia.
Qed.
Lemma get_front c z k n : (0 ≤ k)%Z → (k + n ≤ len c)%Z → get (c ++ z) k n = get c k n.
Proof. intros Hk Hle. pose proof (get_mid [] c z k n Hk Hle) as E. by rewrite len_nil, Z.add_0_l in E. Qed.
Lemma get_back x s k n : (0 ≤ k)%Z → (k + n ≤ len s)%Z → get (x ++ s) (len x + k) n = get s k n.
Proof. intros Hk Hle. pose proof (get_mid x s [] k n Hk Hle) as E. by rewrite app_nil_r in E. Qed.

Lemma put_Some s a t s' :
  put s a t = Some s' ↔ ∃ x o y, s = x ++ o ++ y ∧ len x = a ∧ len o = len t ∧ s' = x ++ t ++ y.
Proof.
  unfold put. split.
  - case_bool_decide as H; [|done]. intros [= <-]. exists (take (Z.to_nat a) s), (take (length t) (drop (Z.to_nat a) s)), (drop (Z.to_nat a + length t) s).
    unfold len in *. rewrite !length_take, length_drop, <-drop_drop, !take_drop. split_and!; [done|lia|lia|done].
  - intros (x & o & y & -> & <- & Ho & ->). unfold len in *. rewrite bool_decide_eq_true_2 by (rewrite !length_app; lia).
    rewrite Nat2Z.id, take_app_length. do 3 f_equal. rewrite app_assoc.
    replace (length x + length t) with (length (x ++ o)) by (rewrite length_app; lia). by rewrite drop_app_length.
Qed.
Lemma put_length s a t s' : put s a t = Some s' → len s' = len s.
Proof. intros (x & o & y & -> & _ & Ho & ->)%put_Some. rewrite !len_app. lia. Qed.
Lemma put_in_range s a t : (0 ≤ a)%Z → (a + len t ≤ len s)%Z → is_Some (put s a t).
Proof. intros. unfold put. rewrite bool_decide_eq_true_2 by done. eauto. Qed.
Lemma put_mid x c z k t : (0 ≤ k)%Z → (k + len t ≤ len c)%Z →
  put (x ++ c ++ z) (len x + k) t = (λ c', x ++ c' ++ z) <$> put c k t.
Proof.
  intros Hk Hle. destruct (put_in_range c k t) as [c' Hc]; [done..|]. rewrite Hc. simpl.
  apply put_Some in Hc as (p & o & q & -> & <- & Ho & ->). apply put_Some.
  exists (x ++ p), o, (q ++ z). rewrite <-!app_assoc, len_app. done.
Qed.
(** What is read outside an overwritten range is as before, and inside it is what was written. *)
Lemma get_put_ne s a t s' b n : put s a t = Some s' → (b + n ≤ a ∨ a + len t ≤ b)%Z → get s' b n = get s b n.
Proof.
  intros Hp Hd. pose proof (put_length _ _ _ _ Hp) as Hl. destruct (decide (0 ≤ b ∧ 0 ≤ n ∧ b + n ≤ len s)%Z) as [Hr|Hr].
  - apply put_Some in Hp as (x & o & y & -> & <- & Ho & ->). destruct Hd as [Hd|Hd].
    + destruct (get_in_range x b n) as [u Hu]; [lia..|]. by rewrite !(get_app_l x _ b n u Hu).
    + replace b with (len (x ++ t) + (b - len x - len t))%Z at 1 by (rewrite len_app; lia).
      replace b with (len (x ++ o) + (b - len x - len t))%Z at 2 by (rewrite len_app; lia).
      rewrite !app_assoc. rewrite <-(app_nil_r y), !(get_mid _ y []); [done|..]; rewrite ?len_app in *; lia.
  - unfold get. rewrite Hl. by rewrite !bool_decide_eq_false_2 by done.
Qed.
Lemma get_put_eq s a t s' : put s a t = Some s' → get s' a (len t) = Some t.
Proof. intros (x & o & y & _ & <- & _ & ->)%put_Some. by apply get_at. Qed.
