(* ===== verification/RustPath.v ===== *)
(** * [std::path] on Unix

    A [Path]/[PathBuf] is modelled up to the equality the standard library
    gives it: its sequence of components.  [Eq], [Hash], [starts_with],
    [strip_prefix], [parent], [file_name] and [join] are all defined by the
    standard library on components, so repeated separators and interior [.]
    do not matter.  The operating system's answers (current directory,
    [canonicalize], [exists], ...) are the fields of a [Host] record and stay
    parameters of whatever uses them. *)

From S2P Require Import Prelude.

(** [std::path::Component] (no [Prefix] on Unix). *)
Inductive component :=
  | RootDir
  | CurDir
  | ParentDir
  | Normal (name : rstr).

#[export] Instance component_eq_dec : EqDecision component.
Proof. solve_decision. Defined.
#[export] Instance component_countable : Countable component.
Proof.
  refine (inj_countable'
    (λ c, match c with RootDir => inl 0 | CurDir => inl 1 | ParentDir => inl 2
                     | Normal n => inr n end)
    (λ x : nat + rstr, match x with inl 0 => RootDir | inl 1 => CurDir
                     | inl _ => ParentDir | inr n => Normal n end) _).
  by intros [].
Defined.

Abbreviation path := (list component).

(** A part between two separators; empty parts and [.] disappear. *)
Definition parse_part (p : rstr) : option component :=
  if bool_decide (p = "" ∨ p = ".") then None
  else if bool_decide (p = "..") then Some ParentDir
  else Some (Normal p).

(** [Path::new(s).components()]: only a leading [.] of a relative path is kept. *)
Definition components (s : rstr) : path :=
  let parts := split_on "/" s in
  match s with
  | c :: _ =>
      if bool_decide (c = "/"%char) then RootDir :: omap parse_part parts
      else (if bool_decide (head parts = Some ("." : rstr)) then [CurDir] else [])
             ++ omap parse_part parts
  | [] => []
  end.

Definition component_str (c : component) : rstr :=
  match c with
  | RootDir => "/" | CurDir => "." | ParentDir => ".." | Normal n => n
  end.
(** The path spelled with single separators, [path.display()]. *)
Definition render (p : path) : rstr :=
  match p with
  | RootDir :: p' => "/" ++ join "/" (component_str <$> p')
  | _ => join "/" (component_str <$> p)
  end.

Definition is_absolute (p : path) : bool := bool_decide (head p = Some RootDir).
(** [path.is_relative()] *)
Definition is_relative (p : path) : bool := negb (is_absolute p).

(** [base.join(p)]: an absolute [p] replaces [base]; a [.] in the middle of a
    path is no component. *)
Definition path_join (base p : path) : path :=
  if is_absolute p then p
  else match base with
       | [] => p
       | _ => base ++ match p with CurDir :: p' => p' | _ => p end
       end.

(** [path.parent()] *)
Definition parent (p : path) : option path :=
  match last p with
  | None | Some RootDir => None
  | Some _ => Some (take (length p - 1) p)
  end.
(** [path.file_name()] *)
Definition file_name (p : path) : option rstr :=
  match last p with Some (Normal n) => Some n | _ => None end.

(** [p.strip_prefix(base)] and [p.starts_with(base)] compare whole components. *)
Fixpoint path_strip_prefix (base p : path) : option path :=
  match base, p with
  | [], _ => Some p
  | a :: base', b :: p' =>
      if bool_decide (a = b) then path_strip_prefix base' p' else None
  | _ :: _, [] => None
  end.
Definition path_starts_with (p base : path) : bool :=
  bool_decide (is_Some (path_strip_prefix base p)).

Lemma path_strip_prefix_Some base p r :
  path_strip_prefix base p = Some r ↔ p = base ++ r.
Proof.
  revert p. induction base as [|a base IH]; intros [|b p]; simpl; try naive_solver.
  bool_cases; subst; [rewrite IH|]; naive_solver.
Qed.
Lemma path_starts_with_spec p base :
  path_starts_with p base = true ↔ base `prefix_of` p.
Proof.
  unfold path_starts_with. rewrite bool_decide_eq_true. split.
  - intros [r Hr]. exists r. by apply path_strip_prefix_Some.
  - intros [r ->]. exists r. by apply path_strip_prefix_Some.
Qed.
Lemma path_starts_with_refl p : path_starts_with p p = true.
Proof. by apply path_starts_with_spec. Qed.
Lemma path_starts_with_trans p q r :
  path_starts_with p q = true → path_starts_with q r = true →
  path_starts_with p r = true.
Proof. rewrite !path_starts_with_spec. intros. by etrans. Qed.
#[export] Hint Resolve path_starts_with_refl : amber.

Lemma parent_Some p q : parent p = Some q → ∃ c, p = q ++ [c] ∧ c ≠ RootDir.
Proof.
  unfold parent. destruct (last p) as [c|] eqn:E; [|done].
  apply last_Some in E as [l ->].
  rewrite length_app. simpl.
  replace (length l + 1 - 1) with (length l) by lia.
  rewrite take_app_length. destruct c; naive_solver.
Qed.
Lemma parent_app q c : c ≠ RootDir → parent (q ++ [c]) = Some q.
Proof.
  intros. unfold parent. rewrite last_snoc, length_app. simpl.
  replace (length q + 1 - 1) with (length q) by lia.
  rewrite take_app_length. by destruct c.
Qed.

(** ** The operating system, as the code queries it *)

(** [io::Error]: its kind (the ones the runtime itself builds by name) and
    message. *)
Inductive ErrorKind := NotFound | InvalidData | OtherKind (code : nat).
#[export] Instance error_kind_eq_dec : EqDecision ErrorKind.
Proof. solve_decision. Defined.
Abbreviation io_result T := (result T (ErrorKind * rstr)).

(** [std::fs::Metadata]: kind and length. *)
Record HostMeta := { m_is_file : bool; m_is_dir : bool; m_len : Z }.
Record Host := {
  current_dir : option path;            (* [std::env::current_dir().ok()] *)
  canonicalize : path → option path;    (* [path.canonicalize().ok()] *)
  host_metadata : path → option HostMeta;     (* [std::fs::metadata(path).ok()] *)
  host_read : path → io_result rstr;    (* [std::fs::read(path)] *)
  host_list_dir : path → option (list rstr);  (* names of [read_dir(path)] *)
}.
(** [path.exists()], [path.is_file()], [path.is_dir()] *)
Definition host_exists (h : Host) (p : path) : bool :=
  bool_decide (is_Some (host_metadata h p)).
Definition host_is_file (h : Host) (p : path) : bool :=
  match host_metadata h p with Some m => m_is_file m | None => false end.
Definition host_is_dir (h : Host) (p : path) : bool :=
  match host_metadata h p with Some m => m_is_dir m | None => false end.

(** A host with an empty disk that refuses every query, and one whose disk
    holds the single regular file [p]: for concrete runs. *)
Definition bare_host : Host := {|
  current_dir := None; canonicalize := λ _, None; host_metadata := λ _, None;
  host_read := λ _, Err (NotFound, [] : rstr); host_list_dir := λ _, None |}.
Definition one_file_host (p : path) (data : rstr) : Host := {|
  current_dir := Some [RootDir]; canonicalize := Some;
  host_metadata := λ q,
    if bool_decide (q = p)
    then Some {| m_is_file := true; m_is_dir := false; m_len := Z.of_nat (length data) |}
    else if path_starts_with p q
    then Some {| m_is_file := false; m_is_dir := true; m_len := 0 |} else None;
  host_read := λ q, if bool_decide (q = p) then Ok data else Err (NotFound, [] : rstr);
  host_list_dir := λ q,
    match path_strip_prefix q p with
    | Some (c :: _) => Some [component_str c] | _ => None
    end |}.
