(* ===== verification/JsArgs.v ===== *)
(** * Arguments of a native call

    The native dispatchers ([kv_native_dispatch], [replay_native_dispatch], ...)
    read their arguments through V8's conversions only.  [JsArgs] is what those
    conversions answer, argument by argument; an argument past the end is
    [undefined], whose answers V8 fixes and the record carries like the others. *)

From S2P Require Import Prelude.

Record JsArgs := {
  argc : nat;                     (* args.length() *)
  arg_str : nat → rstr;           (* args.get(i).to_rust_string_lossy(scope) *)
  arg_is_string : nat → bool;     (* args.get(i).is_string() *)
  arg_int : nat → option Z;       (* args.get(i).to_integer(scope).map(value) *)
}.

(** [args.length() > i && args.get(i).is_string()], then its text. *)
Definition string_arg (args : JsArgs) (i : nat) : option rstr :=
  if bool_decide (i < argc args) && arg_is_string args i then Some (arg_str args i) else None.
(** [map(|i| i.value() as u64).unwrap_or(d)] *)
Definition u64_arg (args : JsArgs) (i : nat) (d : Z) : Z :=
  match arg_int args i with Some z => wrap_u64 z | None => d end.
(** [if s.is_empty() { None } else { Some(s) }] *)
Definition non_empty (s : rstr) : option rstr := if bool_decide (s = []) then None else Some s.

(** A call with string arguments, all of them numbers [n] when converted. *)
Definition args_of (l : list rstr) (n : Z) : JsArgs :=
  {| argc := length l; arg_str := λ i, (l !! i) .unwrap_or []; arg_is_string := λ _, true;
     arg_int := λ _, Some n |}.
