(* ===== verification/Permissions.v ===== *)
(** * The permission broker, [src/permissions.rs]

    [ResourceBroker] is the pair of rule sets; [PermState] gathers the
    process-wide statics of the file ([GLOBAL_RESOURCE_BROKER],
    [HAS_RESTRICTIONS], [SANDBOX_STRICT_ENV], the audit sink, the
    deterministic seed and the frozen clock).  [decide] is the decision
    procedure, [check_global_permission] the entry point the rest of the
    runtime calls before it touches a resource. *)

From S2P Require Import Prelude RustPath.

Inductive PermissionKind := FileSystem | Environment | Network | Process.
Inductive PermissionAction := Read | Write | Execute | Connect | Listen.
(** [PathBuf] resources are paths up to component equality (see [RustPath]). *)
Inductive ResourceId :=
  | Any
  | Path (p : path)
  | Name (name : rstr)
  | Url (url : rstr).
Inductive PermissionDecision := Allow | Deny.

Record PermissionRule := {
  kind : PermissionKind;
  action : PermissionAction;
  resource : ResourceId;
}.

Definition kind_str (k : PermissionKind) : rstr :=
  match k with
  | FileSystem => "FileSystem" | Environment => "Environment"
  | Network => "Network" | Process => "Process"
  end.
Definition action_str (a : PermissionAction) : rstr :=
  match a with
  | Read => "Read" | Write => "Write" | Execute => "Execute"
  | Connect => "Connect" | Listen => "Listen"
  end.
Definition display_for_audit (r : ResourceId) : rstr :=
  match r with
  | Any => "*" | Path p => render p | Name n => n | Url u => u
  end.
Definition is_allowed (d : PermissionDecision) : bool :=
  match d with Allow => true | Deny => false end.
Definition decision_str (d : PermissionDecision) : rstr :=
  match d with Allow => "Allow" | Deny => "Deny" end.

#[export] Instance kind_eq_dec : EqDecision PermissionKind.
Proof. solve_decision. Defined.
#[export] Instance action_eq_dec : EqDecision PermissionAction.
Proof. solve_decision. Defined.
#[export] Instance resource_eq_dec : EqDecision ResourceId.
Proof. solve_decision. Defined.
#[export] Instance decision_eq_dec : EqDecision PermissionDecision.
Proof. solve_decision. Defined.
#[export] Instance rule_eq_dec : EqDecision PermissionRule.
Proof. solve_decision. Defined.

#[export] Instance kind_countable : Countable PermissionKind.
Proof.
  refine (inj_countable'
    (λ k, match k with FileSystem => 0 | Environment => 1 | Network => 2 | Process => 3 end)
    (λ n, match n with 0 => FileSystem | 1 => Environment | 2 => Network | _ => Process end) _).
  by intros [].
Defined.
#[export] Instance action_countable : Countable PermissionAction.
Proof.
  refine (inj_countable'
    (λ k, match k with Read => 0 | Write => 1 | Execute => 2 | Connect => 3 | Listen => 4 end)
    (λ n, match n with 0 => Read | 1 => Write | 2 => Execute | 3 => Connect | _ => Listen end) _).
  by intros [].
Defined.
#[export] Instance resource_countable : Countable ResourceId.
Proof.
  refine (inj_countable'
    (λ r, match r with Any => inl (inl ()) | Path p => inl (inr p)
                     | Name n => inr (inl n) | Url u => inr (inr u) end)
    (λ x : (unit + path) + (rstr + rstr), match x with
       inl (inl _) => Any | inl (inr p) => Path p
     | inr (inl n) => Name n | inr (inr u) => Url u end) _).
  by intros [].
Defined.
#[export] Instance rule_countable : Countable PermissionRule.
Proof.
  refine (inj_countable'
    (λ r, (kind r, action r, resource r))
    (λ x, {| kind := x.1.1; action := x.1.2; resource := x.2 |}) _).
  by intros [].
Defined.

(** [PermissionError::Denied] *)
Record PermissionError := Denied {
  denied_kind : PermissionKind;
  denied_action : PermissionAction;
  denied_resource : ResourceId;
}.

(** ** Path normalisation *)

Definition normalize_path (h : Host) (p0 : path) : path :=
  let p := if is_absolute p0 then p0
           else match current_dir h with
                | Some cwd => path_join cwd p0
                | None => p0
                end in
  match canonicalize h p with
  | Some canonical => canonical
  | None =>
      match parent p with
      | None => p
      | Some par =>
          match file_name p with
          | None => (canonicalize h par) .unwrap_or p
          | Some f =>
              match canonicalize h par with
              | Some par' => path_join par' [Normal f]
              | None => p
              end
          end
      end
  end.

Definition normalize_resource (h : Host) (r : ResourceId) : ResourceId :=
  match r with
  | Path p => Path (normalize_path h p)
  | other => other
  end.

(** ** The broker *)

Record ResourceBroker := {
  allow_rules : gset PermissionRule;
  deny_rules : gset PermissionRule;
}.
(** [ResourceBroker::default()] *)
Definition broker_default : ResourceBroker :=
  {| allow_rules := ∅; deny_rules := ∅ |}.

(** [ResourceBroker::allow] *)
Definition broker_allow (h : Host) (b : ResourceBroker)
    (k : PermissionKind) (a : PermissionAction) (r : ResourceId) : ResourceBroker :=
  let rule := {| kind := k; action := a; resource := normalize_resource h r |} in
  {| allow_rules := {[rule]} ∪ allow_rules b;
     deny_rules := deny_rules b ∖ {[rule]} |}.

(** [ResourceBroker::deny]; raising [HAS_RESTRICTIONS] is [deny] below. *)
Definition broker_deny (h : Host) (b : ResourceBroker)
    (k : PermissionKind) (a : PermissionAction) (r : ResourceId) : ResourceBroker :=
  let rule := {| kind := k; action := a; resource := normalize_resource h r |} in
  {| allow_rules := allow_rules b ∖ {[rule]};
     deny_rules := {[rule]} ∪ deny_rules b |}.

(** [path_is_under] and [path_rule_matches] *)
Definition path_is_under (request prefix : path) : bool :=
  bool_decide (request = prefix) || path_starts_with request prefix.

Definition path_rule_matches (rules : gset PermissionRule)
    (k : PermissionKind) (a : PermissionAction) (r : ResourceId) : bool :=
  match r with
  | Path request =>
      existsb (λ rule,
        bool_decide (kind rule = k) && bool_decide (action rule = a) &&
        match resource rule with
        | Path allowed => path_is_under request allowed
        | _ => false
        end) (elements rules)
  | _ => false
  end.

Section decide.
(** [url::Url::parse(url).ok()?.host_str()], the [url] crate. *)
Context (url_host : rstr → option rstr).

Definition network_host_rule (k : PermissionKind) (a : PermissionAction)
    (r : ResourceId) : option PermissionRule :=
  match r with
  | Url url =>
      host ← url_host url;
      Some {| kind := k; action := a; resource := Name host |}
  | _ => None
  end.

(** The [matches!] guard of [decide]. *)
Definition is_network_url (k : PermissionKind) (a : PermissionAction)
    (r : ResourceId) : bool :=
  match k, a, r with
  | Network, (Connect | Listen), Url _ => true
  | _, _, _ => false
  end.

(** [ResourceBroker::decide] *)
Definition decide (b : ResourceBroker) (k : PermissionKind) (a : PermissionAction)
    (r : ResourceId) : PermissionDecision :=
  let exact := {| kind := k; action := a; resource := r |} in
  let wildcard := {| kind := k; action := a; resource := Any |} in
  if bool_decide (exact ∈ deny_rules b) || path_rule_matches (deny_rules b) k a r
  then Deny
  else if bool_decide (exact ∈ allow_rules b) then Allow
  else
    let host_decision :=
      if is_network_url k a r then
        match network_host_rule k a r with
        | Some host_rule =>
            if bool_decide (host_rule ∈ deny_rules b) then Some Deny
            else if bool_decide (host_rule ∈ allow_rules b) then Some Allow
            else None
        | None => None
        end
      else None in
    match host_decision with
    | Some d => d
    | None =>
        if path_rule_matches (allow_rules b) k a r then Allow
        else if bool_decide (wildcard ∈ deny_rules b) then Deny
        else if bool_decide (wildcard ∈ allow_rules b) then Allow
        else Allow
    end.
End decide.

(** ** The process-wide state *)

(** One line of the audit log.  [ts] is the wall clock's text. *)
Record AuditRecord := {
  ts : rstr;
  audit_kind : rstr;
  audit_action : rstr;
  audit_resource : rstr;
  audit_decision : rstr;
}.

Record PermState := {
  has_restrictions : bool;              (* HAS_RESTRICTIONS *)
  broker : ResourceBroker;              (* GLOBAL_RESOURCE_BROKER *)
  sandbox_strict_env : bool;            (* SANDBOX_STRICT_ENV *)
  current_audit_path : option path;     (* CURRENT_AUDIT_PATH *)
  audit_sink : option path;             (* AUDIT_SINK: the file held open *)
  audit_written : list (path * AuditRecord);  (* lines appended, in order *)
  deterministic_seed : option Z;        (* DETERMINISTIC_SEED *)
  frozen_time_ms : option Z;            (* FROZEN_TIME_MS *)
}.

Definition perm_init : PermState := {|
  has_restrictions := false; broker := broker_default;
  sandbox_strict_env := false; current_audit_path := None; audit_sink := None;
  audit_written := []; deterministic_seed := None; frozen_time_ms := None |}.

Definition with_broker (st : PermState) (b : ResourceBroker) : PermState := {|
  has_restrictions := has_restrictions st; broker := b;
  sandbox_strict_env := sandbox_strict_env st;
  current_audit_path := current_audit_path st; audit_sink := audit_sink st;
  audit_written := audit_written st; deterministic_seed := deterministic_seed st;
  frozen_time_ms := frozen_time_ms st |}.
Definition with_restrictions (st : PermState) (v : bool) : PermState := {|
  has_restrictions := v; broker := broker st;
  sandbox_strict_env := sandbox_strict_env st;
  current_audit_path := current_audit_path st; audit_sink := audit_sink st;
  audit_written := audit_written st; deterministic_seed := deterministic_seed st;
  frozen_time_ms := frozen_time_ms st |}.
Definition with_audit (st : PermState) (cur sink : option path)
    (out : list (path * AuditRecord)) : PermState := {|
  has_restrictions := has_restrictions st; broker := broker st;
  sandbox_strict_env := sandbox_strict_env st;
  current_audit_path := cur; audit_sink := sink;
  audit_written := out; deterministic_seed := deterministic_seed st;
  frozen_time_ms := frozen_time_ms st |}.

Definition set_sandbox_strict_env (st : PermState) (v : bool) : PermState := {|
  has_restrictions := has_restrictions st; broker := broker st;
  sandbox_strict_env := v;
  current_audit_path := current_audit_path st; audit_sink := audit_sink st;
  audit_written := audit_written st; deterministic_seed := deterministic_seed st;
  frozen_time_ms := frozen_time_ms st |}.
Definition set_deterministic_seed (st : PermState) (v : option Z) : PermState := {|
  has_restrictions := has_restrictions st; broker := broker st;
  sandbox_strict_env := sandbox_strict_env st;
  current_audit_path := current_audit_path st; audit_sink := audit_sink st;
  audit_written := audit_written st; deterministic_seed := v;
  frozen_time_ms := frozen_time_ms st |}.
Definition set_frozen_time_ms (st : PermState) (v : option Z) : PermState := {|
  has_restrictions := has_restrictions st; broker := broker st;
  sandbox_strict_env := sandbox_strict_env st;
  current_audit_path := current_audit_path st; audit_sink := audit_sink st;
  audit_written := audit_written st; deterministic_seed := deterministic_seed st;
  frozen_time_ms := v |}.

(** [broker.allow] and [broker.deny] on the global broker. *)
Definition allow (h : Host) (st : PermState)
    (k : PermissionKind) (a : PermissionAction) (r : ResourceId) : PermState :=
  with_broker st (broker_allow h (broker st) k a r).
Definition deny (h : Host) (st : PermState)
    (k : PermissionKind) (a : PermissionAction) (r : ResourceId) : PermState :=
  with_restrictions (with_broker st (broker_deny h (broker st) k a r)) true.

(** [ResourceBroker::deny_all] *)
Definition deny_all (h : Host) (st : PermState) : PermState :=
  let st := deny h st FileSystem Read Any in
  let st := deny h st FileSystem Write Any in
  let st := deny h st Network Connect Any in
  let st := deny h st Network Listen Any in
  let st := deny h st Environment Read Any in
  deny h st Process Execute Any.

(** [write_audit_record] *)
Definition write_audit_record (now : rstr) (st : PermState)
    (k : PermissionKind) (a : PermissionAction) (r : ResourceId)
    (d : PermissionDecision) : PermState :=
  match audit_sink st with
  | None => st
  | Some file =>
      let record := {| ts := now; audit_kind := kind_str k;
                       audit_action := action_str a;
                       audit_resource := display_for_audit r;
                       audit_decision := decision_str d |} in
      with_audit st (current_audit_path st) (audit_sink st)
        (audit_written st ++ [(file, record)])
  end.

(** [record_tool_call_audit] *)
Definition record_tool_call_audit (now : rstr) (st : PermState)
    (tool_name : rstr) (allowed : bool) : PermState :=
  write_audit_record now st Process Execute (Name ("tool:" ++ tool_name))
    (if allowed then Allow else Deny).

(** [set_audit_log_path]; [mkdirs] and [opens] are the outcomes of
    [create_dir_all] on the parent and of opening the file for append. *)
Definition set_audit_log_path (mkdirs opens : path → result unit rstr)
    (st : PermState) (p : option path) : PermState * result unit rstr :=
  let st := with_audit st p (audit_sink st) (audit_written st) in
  match p with
  | None => (with_audit st p None (audit_written st), Ok tt)
  | Some f =>
      let made := match parent f with
                  | Some dir => if bool_decide (dir = []) then Ok tt else mkdirs dir
                  | None => Ok tt
                  end in
      match made with
      | Err e => (st, Err ("failed to create audit log directory " ++ e))
      | Ok _ =>
          match opens f with
          | Err e => (st, Err ("failed to open audit log " ++ e))
          | Ok _ => (with_audit st p (Some f) (audit_written st), Ok tt)
          end
      end
  end.

(** [reset_runtime_permission_state] *)
Definition reset_runtime_permission_state (st : PermState) : PermState :=
  let st := set_sandbox_strict_env st false in
  let st := (set_audit_log_path (λ _, Ok tt) (λ _, Ok tt) st None).1 in
  let st := set_deterministic_seed st None in
  let st := set_frozen_time_ms st None in
  with_restrictions st false.

Section checks.
Context (h : Host) (url_host : rstr → option rstr) (now : rstr).

(** [ResourceBroker::check] *)
Definition check (st : PermState) (k : PermissionKind) (a : PermissionAction)
    (r : ResourceId) : PermState * PermissionDecision :=
  let r' := normalize_resource h r in
  let d := decide url_host (broker st) k a r' in
  (write_audit_record now st k a r' d, d).

(** [ResourceBroker::check_result] *)
Definition check_result (st : PermState) (k : PermissionKind) (a : PermissionAction)
    (r : ResourceId) : PermState * result unit PermissionError :=
  let '(st', d) := check st k a r in
  (st', if is_allowed d then Ok tt else Err (Denied k a r)).

(** [check_global_permission] *)
Definition check_global_permission (st : PermState) (k : PermissionKind)
    (a : PermissionAction) (r : ResourceId) : PermState * result unit PermissionError :=
  if negb (has_restrictions st) then (st, Ok tt)
  else check_result st k a r.
End checks.

(** [process_command_name]: the first token of a shell command. *)
Definition process_command_name (command : rstr) : rstr :=
  let trimmed := trim command in
  match trimmed with
  | [] => []
  | q :: _ =>
      if bool_decide (q = dquote) then
        first_word ((split_on dquote trimmed !! 1) .unwrap_or [])
      else if bool_decide (q = squote) then
        first_word ((split_on squote trimmed !! 1) .unwrap_or [])
      else first_word trimmed
  end.

(** [parse_time_spec]: the three date parsers are the [chrono] crate's. *)
Definition parse_time_spec
    (parse_rfc3339 parse_datetime parse_date : rstr → option Z)
    (spec : rstr) : result Z rstr :=
  let trimmed := trim spec in
  match parse_i64 trimmed with
  | Some t => Ok t
  | None =>
      match parse_rfc3339 trimmed with
      | Some t => Ok t
      | None =>
          match parse_datetime trimmed with
          | Some t => Ok t
          | None =>
              match parse_date trimmed with
              | Some t => Ok t
              | None => Err ("invalid time specification '" ++ spec ++
                  "', expected integer millis or RFC3339/ISO string")
              end
          end
      end
  end.

(** ** Lemmas *)

Lemma path_is_under_spec request prefix :
  path_is_under request prefix = true ↔ prefix `prefix_of` request.
Proof.
  unfold path_is_under. rewrite orb_true_iff, bool_decide_eq_true, path_starts_with_spec.
  split; [intros [->|?]; done|auto].
Qed.

Lemma path_rule_matches_spec rules k a r :
  path_rule_matches rules k a r = true ↔
  ∃ request p, r = Path request ∧ p `prefix_of` request ∧
    {| kind := k; action := a; resource := Path p |} ∈ rules.
Proof.
  unfold path_rule_matches. split.
  - destruct r as [|request|n|u]; try done. rewrite existsb_exists.
    intros ([k' a' r'] & Hin & Hm). apply list_elem_of_In, elem_of_elements in Hin.
    simpl in Hm. rewrite !andb_true_iff, !bool_decide_eq_true in Hm.
    destruct Hm as [[-> ->] Hm]. destruct r' as [|p|n|u]; try done.
    apply path_is_under_spec in Hm. eauto.
  - intros (request & p & -> & Hp & Hin). rewrite existsb_exists.
    exists {| kind := k; action := a; resource := Path p |}. split.
    + by apply list_elem_of_In, elem_of_elements.
    + simpl. rewrite !bool_decide_eq_true_2 by done. simpl. by apply path_is_under_spec.
Qed.

Lemma path_rule_matches_mono rules rules' k a r :
  rules ⊆ rules' → path_rule_matches rules k a r = true →
  path_rule_matches rules' k a r = true.
Proof. rewrite !path_rule_matches_spec. set_solver. Qed.

(** [decide] only looks at the rules of the requested kind and action. *)
Lemma path_rule_matches_ext rules rules' k a r :
  (∀ r', {| kind := k; action := a; resource := r' |} ∈ rules ↔
         {| kind := k; action := a; resource := r' |} ∈ rules') →
  path_rule_matches rules k a r = path_rule_matches rules' k a r.
Proof.
  intros H. apply eq_true_iff_eq. rewrite !path_rule_matches_spec.
  setoid_rewrite H. done.
Qed.

Ltac decide_steps :=
  repeat (case_bool_decide || case_match); simplify_eq/=; try done.

(** A broker whose denials grow and whose allowances shrink decides [Deny] at
    least as often. *)
Lemma decide_antitone url_host b b' k a r :
  deny_rules b ⊆ deny_rules b' → allow_rules b' ⊆ allow_rules b →
  decide url_host b k a r = Deny → decide url_host b' k a r = Deny.
Proof.
  intros Hd Ha. unfold decide.
  set (ex := {| kind := k; action := a; resource := r |}).
  set (wc := {| kind := k; action := a; resource := Any |}).
  destruct (bool_decide (ex ∈ deny_rules b) || path_rule_matches (deny_rules b) k a r)
    eqn:E1.
  { intros _. apply orb_true_iff in E1.
    assert (bool_decide (ex ∈ deny_rules b')
            || path_rule_matches (deny_rules b') k a r = true) as ->; [|done].
    rewrite orb_true_iff, bool_decide_eq_true in *.
    destruct E1; [left; set_solver|right; by eapply path_rule_matches_mono]. }
  destruct (bool_decide (ex ∈ deny_rules b') || path_rule_matches (deny_rules b') k a r);
    [done|].
  destruct (bool_decide (ex ∈ allow_rules b)) eqn:E2; [done|].
  rewrite (bool_decide_eq_false_2 (ex ∈ allow_rules b'))
    by (apply bool_decide_eq_false in E2; set_solver).
  assert (path_rule_matches (allow_rules b) k a r = false →
          path_rule_matches (allow_rules b') k a r = false) as Hpath.
  { rewrite <-!not_true_iff_false. intros ? ?.
    by eapply path_rule_matches_mono in Ha. }
  assert (∀ o o' : option PermissionDecision,
    (o = Some Deny → o' = Some Deny) → (o = None → o' ≠ Some Allow) →
    match o with
    | Some d => d
    | None => if path_rule_matches (allow_rules b) k a r then Allow
              else if bool_decide (wc ∈ deny_rules b) then Deny
              else if bool_decide (wc ∈ allow_rules b) then Allow else Allow
    end = Deny →
    match o' with
    | Some d => d
    | None => if path_rule_matches (allow_rules b') k a r then Allow
              else if bool_decide (wc ∈ deny_rules b') then Deny
              else if bool_decide (wc ∈ allow_rules b') then Allow else Allow
    end = Deny) as Hrest.
  { intros o o' Ho1 Ho2. destruct o as [[]|]; [done|by rewrite Ho1|].
    destruct (path_rule_matches (allow_rules b) k a r); [done|].
    rewrite Hpath by done.
    destruct (bool_decide (wc ∈ deny_rules b)) eqn:E3; [|by case_match].
    apply bool_decide_eq_true in E3.
    rewrite (bool_decide_eq_true_2 (wc ∈ deny_rules b')) by set_solver.
    destruct o' as [[]|]; naive_solver. }
  apply Hrest; (destruct (is_network_url k a r); [|done]);
    (destruct (network_host_rule url_host k a r) as [hr|]; [|done]);
    repeat case_bool_decide; simplify_eq; try done; set_solver.
Qed.

Lemma broker_deny_shrinks h b k a r :
  deny_rules b ⊆ deny_rules (broker_deny h b k a r) ∧
  allow_rules (broker_deny h b k a r) ⊆ allow_rules b.
Proof. simpl. set_solver. Qed.

Lemma broker_allow_grows h b k a r :
  deny_rules (broker_allow h b k a r) ⊆ deny_rules b ∧
  allow_rules b ⊆ allow_rules (broker_allow h b k a r).
Proof. simpl. set_solver. Qed.

(** The decision on file-system paths under [deny_all] plus path grants. *)
Definition grant_paths (h : Host) (st : PermState) (a : PermissionAction)
    (roots : list path) : PermState :=
  foldl (λ st root, allow h st FileSystem a (Path root)) st roots.

Lemma grant_paths_rules h st a roots rule :
  (rule ∈ allow_rules (broker (grant_paths h st a roots)) ↔
     rule ∈ allow_rules (broker st) ∨
     ∃ root, root ∈ roots ∧
       rule = {| kind := FileSystem; action := a; resource := Path (normalize_path h root) |})
  ∧ (rule ∈ deny_rules (broker (grant_paths h st a roots)) ↔
     rule ∈ deny_rules (broker st) ∧
     ¬ ∃ root, root ∈ roots ∧
       rule = {| kind := FileSystem; action := a; resource := Path (normalize_path h root) |}).
Proof.
  revert st. induction roots as [|root roots IH]; intros st.
  - simpl. set_solver.
  - cbn [grant_paths foldl]. fold (grant_paths h (allow h st FileSystem a (Path root)) a roots).
    destruct (IH (allow h st FileSystem a (Path root))) as [-> ->].
    simpl. rewrite elem_of_union, elem_of_difference, elem_of_singleton. set_solver.
Qed.
Lemma grant_paths_restrictions h st a roots :
  has_restrictions (grant_paths h st a roots) = has_restrictions st.
Proof.
  revert st. induction roots as [|root roots IH]; intros st; [done|].
  simpl. by rewrite IH.
Qed.

Definition disjoint_rules (b : ResourceBroker) : Prop :=
  allow_rules b ## deny_rules b.
Lemma broker_allow_disjoint h b k a r :
  disjoint_rules b → disjoint_rules (broker_allow h b k a r).
Proof. unfold disjoint_rules. simpl. set_solver. Qed.
Lemma broker_deny_disjoint h b k a r :
  disjoint_rules b → disjoint_rules (broker_deny h b k a r).
Proof. unfold disjoint_rules. simpl. set_solver. Qed.
#[export] Hint Resolve broker_allow_disjoint broker_deny_disjoint : amber.

(** Every state change this file offers, as a step relation; the host may
    answer differently at every step. *)
Inductive perm_step : PermState → PermState → Prop :=
  | step_allow h st k a r : perm_step st (allow h st k a r)
  | step_deny h st k a r : perm_step st (deny h st k a r)
  | step_check h url now st k a r :
      perm_step st (check_global_permission h url now st k a r).1
  | step_tool now st t ok : perm_step st (record_tool_call_audit now st t ok)
  | step_audit mk op st p : perm_step st (set_audit_log_path mk op st p).1
  | step_strict st v : perm_step st (set_sandbox_strict_env st v)
  | step_seed st v : perm_step st (set_deterministic_seed st v)
  | step_time st v : perm_step st (set_frozen_time_ms st v).
(** The same with [reset_runtime_permission_state]. *)
Inductive perm_step_reset : PermState → PermState → Prop :=
  | step_plain st st' : perm_step st st' → perm_step_reset st st'
  | step_reset st : perm_step_reset st (reset_runtime_permission_state st).

Lemma write_audit_broker now st k a r d :
  broker (write_audit_record now st k a r d) = broker st ∧
  has_restrictions (write_audit_record now st k a r d) = has_restrictions st.
Proof. unfold write_audit_record. by case_match. Qed.
Lemma check_global_broker h url now st k a r :
  broker (check_global_permission h url now st k a r).1 = broker st ∧
  has_restrictions (check_global_permission h url now st k a r).1 = has_restrictions st.
Proof.
  unfold check_global_permission, check_result, check. case_match; [done|].
  apply write_audit_broker.
Qed.
Lemma set_audit_broker mk op st p :
  broker (set_audit_log_path mk op st p).1 = broker st ∧
  has_restrictions (set_audit_log_path mk op st p).1 = has_restrictions st.
Proof. unfold set_audit_log_path. repeat case_match; done. Qed.

Lemma perm_step_reset_disjoint st st' :
  perm_step_reset st st' → disjoint_rules (broker st) → disjoint_rules (broker st').
Proof.
  intros [? ? Hs|?] Hd; [|done].
  destruct Hs as [h s k a r|h s k a r|h u now s k a r|now s t ok|mk op s p| | | ];
    cbn [allow deny with_broker with_restrictions broker]; auto with amber.
  - by rewrite (proj1 (check_global_broker h u now s k a r)).
  - unfold record_tool_call_audit. by rewrite (proj1 (write_audit_broker _ _ _ _ _ _)).
  - by rewrite (proj1 (set_audit_broker mk op s p)).
Qed.

(** [HAS_RESTRICTIONS] covers the deny rules. *)
Definition restrictions_cover (st : PermState) : Prop :=
  has_restrictions st = false → deny_rules (broker st) = ∅.
Lemma perm_step_cover st st' :
  perm_step st st' → restrictions_cover st → restrictions_cover st'.
Proof.
  unfold restrictions_cover.
  intros [h s k a r|h s k a r|h u now s k a r|now s t ok|mk op s p| | | ] Hc;
    cbn [allow deny with_broker with_restrictions broker has_restrictions]; auto.
  - intros H. simpl. rewrite (Hc H). set_solver.
  - done.
  - by destruct (check_global_broker h u now s k a r) as [-> ->].
  - unfold record_tool_call_audit.
    by destruct (write_audit_broker now s Process Execute (Name ("tool:" ++ t))
      (if ok then Allow else Deny)) as [-> ->].
  - by destruct (set_audit_broker mk op s p) as [-> ->].
Qed.

Lemma decide_no_deny url_host b k a r :
  deny_rules b = ∅ → decide url_host b k a r = Allow.
Proof.
  intros Hb. unfold decide. rewrite Hb.
  assert (path_rule_matches ∅ k a r = false) as ->.
  { apply not_true_iff_false. rewrite path_rule_matches_spec. set_solver. }
  repeat (case_bool_decide || case_match); simplify_eq/=; try done; set_solver.
Qed.

(** Without allowances a denied wildcard denies everything of its kind and action. *)
Lemma decide_wildcard url_host b k a r :
  allow_rules b = ∅ → {| kind := k; action := a; resource := Any |} ∈ deny_rules b →
  decide url_host b k a r = Deny.
Proof.
  intros Hb Hd. unfold decide. rewrite Hb.
  assert (path_rule_matches ∅ k a r = false) as ->.
  { apply not_true_iff_false. rewrite path_rule_matches_spec. set_solver. }
  repeat (case_bool_decide || case_match); simplify_eq/=; try done; set_solver.
Qed.

(** ** Properties *)

(** C14. The sandbox is a jail: after [deny_all] on a fresh broker and read
    grants for [roots], a read of [p] passes exactly when the normalised [p]
    is one of the normalised roots or lies below one, for every answer the
    operating system gives. *)
Theorem sandbox_jail h url now st0 roots p :
  broker st0 = broker_default →
  (check_global_permission h url now
     (grant_paths h (deny_all h st0) Read roots) FileSystem Read (Path p)).2 = Ok tt ↔
  ∃ root, root ∈ roots ∧ normalize_path h root `prefix_of` normalize_path h p.
Proof.
  intros Hb. unfold check_global_permission. rewrite grant_paths_restrictions. simpl negb.
  unfold check_result, check. cbn [normalize_resource snd].
  set (st := grant_paths _ _ _ _).
  assert (∀ rule, rule ∈ allow_rules (broker st) ↔ ∃ root, root ∈ roots ∧ rule =
    {| kind := FileSystem; action := Read; resource := Path (normalize_path h root) |}) as Ha.
  { intros rule. unfold st. rewrite (proj1 (grant_paths_rules _ _ _ _ _)). simpl.
    rewrite Hb. simpl. set_solver. }
  assert (∀ r, {| kind := FileSystem; action := Read; resource := r |}
    ∈ deny_rules (broker st) ↔ r = Any) as Hd.
  { intros r. unfold st. rewrite (proj2 (grant_paths_rules _ _ _ _ _)). simpl.
    rewrite Hb. simpl. rewrite !elem_of_union, !elem_of_singleton.
    split.
    - intros [Hr _]. destruct_or!; simplify_eq; done.
    - intros ->. split; [do 5 right; by left|]. intros (root & _ & [=]). }
  unfold decide. rewrite (bool_decide_eq_false_2 (_ ∈ deny_rules _)) by (by rewrite Hd).
  replace (path_rule_matches (deny_rules (broker st)) _ _ _) with false; cycle 1.
  { symmetry. apply not_true_iff_false. rewrite path_rule_matches_spec.
    intros (req & q & _ & _ & Hin%Hd). done. }
  cbn [orb is_network_url].
  rewrite (bool_decide_eq_true_2 (_ ∈ deny_rules _)) by (by apply Hd).
  assert (path_rule_matches (allow_rules (broker st)) FileSystem Read
    (Path (normalize_path h p)) = true ↔
    ∃ root, root ∈ roots ∧ normalize_path h root `prefix_of` normalize_path h p) as Hm.
  { rewrite path_rule_matches_spec. setoid_rewrite Ha. split.
    - intros (? & ? & [= ->] & Hp & root & Hr & [= ->]). eauto.
    - intros (root & Hr & Hp). eauto 10. }
  case_bool_decide as Hex.
  - apply Ha in Hex as (root & Hr & [= Heq]).
    split; intros _; [exists root; by rewrite Heq|reflexivity].
  - destruct (path_rule_matches (allow_rules (broker st)) _ _ _); simpl.
    + split; intros _; [by apply Hm|reflexivity].
    + split; [done|]. intros Hr%Hm. done.
Qed.
Lemma sandbox_jail_witness :
  broker perm_init = broker_default ∧
  (check_global_permission bare_host (λ _, None) [] 
     (grant_paths bare_host (deny_all bare_host perm_init) Read [[RootDir; Normal "jail"]])
     FileSystem Read (Path [RootDir; Normal "jail"; Normal "f"])).2 = Ok tt.
Proof.
   split; [reflexivity|].
  apply (sandbox_jail bare_host (λ _, None) [] perm_init [[RootDir; Normal "jail"]]); [reflexivity|].
  exists [RootDir; Normal "jail"]. split; [left|]. exists [Normal "f"]. reflexivity.
Defined.

(** A denied directory is denied with everything below it, whatever else
    the broker allows, even by an exact rule. *)
Theorem deny_overrides_subtree url_host b k a dir p :
  {| kind := k; action := a; resource := Path dir |} ∈ deny_rules b →
  dir `prefix_of` p →
  decide url_host b k a (Path p) = Deny.
Proof.
  intros Hin Hp. unfold decide.
  replace (path_rule_matches (deny_rules b) k a (Path p)) with true.
  - by rewrite orb_true_r.
  - symmetry. apply path_rule_matches_spec. eauto.
Qed.
Lemma deny_overrides_subtree_witness :
  let rule := {| kind := FileSystem; action := Write; resource := Path [RootDir] |} in
  decide (λ _, None) {| allow_rules := {[ {| kind := FileSystem; action := Write;
      resource := Path [RootDir; Normal "tmp"] |} ]}; deny_rules := {[ rule ]} |}
    FileSystem Write (Path [RootDir; Normal "tmp"]) = Deny.
Proof.
  intros rule. apply (deny_overrides_subtree _ _ _ _ [RootDir]).
  - simpl. by apply elem_of_singleton.
  - exists [Normal "tmp"]. reflexivity.
Defined.

(** Revocation is monotone: [deny] can only turn decisions into [Deny] and
    [allow] can only turn them into [Allow], for every request. *)
Theorem revocation_monotone h url_host b k a r k' a' r' :
  (decide url_host b k a r = Deny →
   decide url_host (broker_deny h b k' a' r') k a r = Deny) ∧
  (decide url_host b k a r = Allow →
   decide url_host (broker_allow h b k' a' r') k a r = Allow).
Proof.
  split.
  - destruct (broker_deny_shrinks h b k' a' r'). by apply decide_antitone.
  - intros Hb. destruct (decide url_host (broker_allow h b k' a' r') k a r) eqn:E; [done|].
    enough (decide url_host b k a r = Deny) by congruence.
    destruct (broker_allow_grows h b k' a' r') as [Hd Ha].
    by apply (decide_antitone _ _ _ _ _ _ Hd Ha).
Qed.
Lemma revocation_monotone_witness :
  let b := broker_deny bare_host broker_default Process Execute Any in
  decide (λ _, None) (broker_deny bare_host b Process Execute (Name "ls")) Process Execute
    (Name "rm") = Deny.
Proof.
  intros b. apply (proj1 (revocation_monotone bare_host (λ _, None) b
    Process Execute (Name "rm") Process Execute (Name "ls"))).
  vm_compute. reflexivity.
Defined.

(** No run of the broker, resets included, ever holds the same rule both
    as an allowance and as a denial. *)
Theorem rules_never_contradict st rule :
  rtc perm_step_reset perm_init st →
  rule ∈ allow_rules (broker st) → rule ∉ deny_rules (broker st).
Proof.
  intros Hrun. assert (disjoint_rules (broker st)) as Hd; [|set_solver].
  assert (disjoint_rules (broker perm_init)) as H0 by (unfold disjoint_rules; set_solver).
  revert H0. induction Hrun; eauto using perm_step_reset_disjoint.
Qed.
Lemma rules_never_contradict_witness :
  let rule := {| kind := Process; action := Execute; resource := Name "ls" |} in
  rule ∉ deny_rules (broker (allow bare_host (deny bare_host perm_init Process Execute (Name "ls"))
                               Process Execute (Name "ls"))).
Proof.
  intros rule. apply rules_never_contradict.
  - eapply rtc_l; [apply step_plain, step_deny|].
    eapply rtc_l; [apply step_plain, step_allow|apply rtc_refl].
  - simpl. apply elem_of_union_l. by apply elem_of_singleton.
Defined.

(** The [HAS_RESTRICTIONS] shortcut is sound: in every run without a reset,
    [check_global_permission] answers [Ok] exactly when the full decision
    procedure says [Allow]. *)
Theorem shortcut_agrees_with_decide h url now st k a r :
  rtc perm_step perm_init st →
  (check_global_permission h url now st k a r).2 =
  if is_allowed (decide url (broker st) k a (normalize_resource h r))
  then Ok tt else Err (Denied k a r).
Proof.
  intros Hrun. assert (restrictions_cover st) as Hc.
  { assert (restrictions_cover perm_init) as H0 by done.
    revert H0. induction Hrun; eauto using perm_step_cover. }
  unfold check_global_permission. destruct (has_restrictions st) eqn:E; [done|].
  simpl. by rewrite decide_no_deny by (by apply Hc).
Qed.
Lemma shortcut_agrees_with_decide_witness :
  (check_global_permission bare_host (λ _, None) []
     (allow bare_host perm_init Process Execute (Name "ls")) Process Execute (Name "rm")).2 = Ok tt.
Proof.
   rewrite shortcut_agrees_with_decide.
  - vm_compute. reflexivity.
  - eapply rtc_l; [apply step_allow|apply rtc_refl].
Defined.

(** Auditing is complete and faithful: while restrictions are in force and
    an audit file is open, a permission check appends exactly one line to that
    file, whose kind, action and resource are those of the request (the path
    normalised) and whose decision is the answer the caller gets; nothing else
    of the state changes. *)
Theorem audit_one_line_per_check h url now st k a r file :
  has_restrictions st = true → audit_sink st = Some file →
  let res := (check_global_permission h url now st k a r).2 in
  (check_global_permission h url now st k a r).1 = with_audit st (current_audit_path st) (Some file)
    (audit_written st ++
      [(file, {| ts := now; audit_kind := kind_str k; audit_action := action_str a;
                 audit_resource := display_for_audit (normalize_resource h r);
                 audit_decision := if is_ok res then "Allow" else "Deny" |})]).
Proof.
  intros Hr Hs. unfold check_global_permission, check_result, check, write_audit_record.
  rewrite Hr, Hs. simpl. by destruct (decide _ _ _ _ _).
Qed.
Lemma audit_one_line_per_check_witness :
  let st := with_audit (deny_all bare_host perm_init) None (Some [Normal "log"]) [] in
  let res := (check_global_permission bare_host (λ _, None) [] st Process Execute
    (Name "rm")).2 in
  (check_global_permission bare_host (λ _, None) [] st Process Execute (Name "rm")).1 =
  with_audit st None (Some [Normal "log"])
    [([Normal "log"], {| ts := []; audit_kind := "Process"; audit_action := "Execute";
       audit_resource := "rm"; audit_decision := if is_ok res then "Allow" else "Deny" |})].
Proof.
  intros st.
  exact (audit_one_line_per_check bare_host (λ _, None) [] st Process Execute
    (Name "rm") [Normal "log"] eq_refl eq_refl).
Defined.

(** [reset_runtime_permission_state] lifts every denial without removing
    one: the deny rules stay in the broker, and every later check passes
    unseen by the audit log. *)
Theorem reset_lifts_denials h url now st k a r :
  let st' := reset_runtime_permission_state st in
  deny_rules (broker st') = deny_rules (broker st) ∧
  check_global_permission h url now st' k a r = (st', Ok tt).
Proof. done. Qed.

(** [--allow-run] matching sees the first word only: for a plain command
    word that does not open with a quote, any text after a space, shell
    operators included, leaves the checked name unchanged. *)
Theorem process_command_name_first_word w rest :
  w ≠ [] → Forall plain w → head w ≠ Some dquote → head w ≠ Some squote →
  process_command_name (w ++ " " ++ rest) = w.
Proof.
  intros Hne Hw Hd Hs.
  destruct (exists_last Hne) as (w' & c & ->).
  apply Forall_app in Hw as [Hw' [Hc _]%Forall_cons].
  unfold process_command_name.
  replace ((w' ++ [c]) ++ " " ++ rest) with (w' ++ c :: (" " ++ rest))
    by (by rewrite <-app_assoc).
  destruct (trim_plain_word w' c (" " ++ rest) Hc Hw') as (t' & -> & Ht).
  change (c :: t') with ([c] ++ t'). rewrite app_assoc.
  assert (first_word ((w' ++ [c]) ++ t') = w' ++ [c]) as Hfw.
  { unfold first_word, trim_start. rewrite trim_with_id; cycle 1.
    { destruct w' as [|c0 w']; [by apply ws_len_plain|].
      apply Forall_cons in Hw' as [? _]. by apply ws_len_plain. }
    assert (Forall plain (w' ++ [c])) by (apply Forall_app_2; auto).
    destruct t' as [|c1 t']; [rewrite app_nil_r; by apply take_word_plain|].
    apply take_word_stop; [done|].
    destruct Ht as [x Hx]. simpl in Hx. by simplify_eq/=. }
  destruct ((w' ++ [c]) ++ t') as [|q s] eqn:E; [by destruct w'|].
  assert (head (w' ++ [c]) = Some q) as Hq by (destruct w'; simpl in E |- *; congruence).
  rewrite Hq in Hd, Hs.
  rewrite !bool_decide_eq_false_2 by congruence. done.
Qed.
Lemma process_command_name_first_word_witness :
  process_command_name ("ls" ++ " " ++ "&& rm -rf /") = "ls".
Proof.
  apply process_command_name_first_word; [done| |done|done].
  repeat constructor; vm_compute; intuition discriminate.
Defined.
