(* ===== verification/Capability.v ===== *)
(** * The script-facing permission API, [src/capability/mod.rs]

    [amber:security] lets a script query and revoke permissions.  Each closure
    of [setup_security_api] is a function on the process-wide [PermState] of
    [Permissions] and the descriptor V8 hands over: [None] when the call has no
    argument or a non-object; in an object, [d_name] is the text of its [name]
    ([None] when the getter throws) and the other fields are its string-valued
    properties. *)

From S2P Require Import Prelude RustPath Permissions.

Record PermissionQueryDescriptor := {
  d_name : option rstr;
  d_path : option rstr;
  d_host : option rstr;
  d_var_name : option rstr;
  d_command : option rstr;
}.

Definition opt_resource (f : rstr → ResourceId) (o : option rstr) : ResourceId :=
  match o with Some s => f s | None => Any end.
(** The url a host stands for. *)
Definition host_url (h : rstr) : rstr :=
  if starts_with "http://" h || starts_with "https://" h then h else "https://" ++ h.

(** [parse_descriptor_to_parts].  No character outside ASCII lowers to a letter
    of the names except the Kelvin sign (for [k], in [network]), which is left
    out. *)
Definition parse_descriptor_to_parts (name : rstr)
    (path host var_name command : option rstr) :
    PermissionKind * PermissionAction * ResourceId :=
  let name := to_lowercase name in
  let path_res := opt_resource (λ p, Path (components p)) path in
  if bool_decide (name = "read") then (FileSystem, Read, path_res)
  else if bool_decide (name = "write") then (FileSystem, Write, path_res)
  else if bool_decide (name = "fs" ∨ name = "filesystem") then (FileSystem, Read, path_res)
  else if bool_decide (name = "net" ∨ name = "network" ∨ name = "connect") then
    (Network, Connect, opt_resource (λ h, Url (host_url h)) host)
  else if bool_decide (name = "listen") then (Network, Listen, opt_resource Name host)
  else if bool_decide (name = "env" ∨ name = "environment") then
    (Environment, Read, opt_resource Name var_name)
  else if bool_decide (name = "run" ∨ name = "exec" ∨ name = "process") then
    (Process, Execute, opt_resource Name command)
  else (FileSystem, Read, Any).

Definition name_of (d : PermissionQueryDescriptor) : rstr := (d_name d) .unwrap_or ("read" : rstr).
Definition parts_of_descriptor (d : PermissionQueryDescriptor) :
    PermissionKind * PermissionAction * ResourceId :=
  parse_descriptor_to_parts (name_of d) (d_path d) (d_host d) (d_var_name d) (d_command d).

Section closures.
Context (h : Host) (url_host : rstr → option rstr) (now : rstr).

(** [permissions.query]: a type error, or the [state] and [name] it reports. *)
Definition query (st : PermState) (arg : option PermissionQueryDescriptor) :
    PermState * result (rstr * rstr) rstr :=
  match arg with
  | None => (st, Err ("permissions.query requires a descriptor object" : rstr))
  | Some d =>
      let '(k, a, r) := parts_of_descriptor d in
      let '(st, decision) := check h url_host now st k a r in
      (st, Ok ((if is_allowed decision then "granted" : rstr else "denied" : rstr), name_of d))
  end.

(** [permissions.has] *)
Definition has_permission (st : PermState) (arg : option PermissionQueryDescriptor) :
    PermState * bool :=
  match arg with
  | None => (st, false)
  | Some d =>
      let '(k, a, r) := parts_of_descriptor d in
      let '(st, decision) := check h url_host now st k a r in
      (st, is_allowed decision)
  end.

(** [permissions.list]: the flags and the two rule sets as text, in the order
    of the sets' own iteration. *)
Definition rule_text (rule : PermissionRule) : rstr * rstr * rstr :=
  (kind_str (kind rule), action_str (action rule), display_for_audit (resource rule)).
Definition list_permissions (st : PermState) :
    bool * bool * list (rstr * rstr * rstr) * list (rstr * rstr * rstr) :=
  (has_restrictions st, sandbox_strict_env st,
   rule_text <$> elements (allow_rules (broker st)),
   rule_text <$> elements (deny_rules (broker st))).

(** [permissions.revoke] *)
Definition revoke (st : PermState) (arg : option PermissionQueryDescriptor) :
    PermState * result bool rstr :=
  match arg with
  | None => (st, Err ("permissions.revoke requires a descriptor object" : rstr))
  | Some d =>
      let '(k, a, r) := parts_of_descriptor d in
      (deny h st k a r, Ok true)
  end.
End closures.

(** Policies are plain objects: the properties [get_property_names] lists, with
    their values, in order. *)
Section policy.
Context {V : Type}.
Abbreviation properties := (list (rstr * V)).

(** [createSandboxPolicy] returns its argument, or an empty object. *)
Definition create_policy (arg : option properties) : properties := arg .unwrap_or [].
(** [merged.set] for each listed property: a map, later writes win. *)
Definition copy_properties (src : properties) (merged : gmap rstr V) : gmap rstr V :=
  foldl (λ m kv, <[kv.1 := kv.2]> m) merged src.
Definition attenuate (base rest : option properties) : gmap rstr V :=
  copy_properties (rest .unwrap_or []) (copy_properties (base .unwrap_or []) ∅).
End policy.

(** ** Lemmas *)

Lemma decide_exact_deny url_host b k a r :
  {| kind := k; action := a; resource := r |} ∈ deny_rules b → decide url_host b k a r = Deny.
Proof. intros H. unfold decide. by rewrite bool_decide_eq_true_2. Qed.

Lemma copy_properties_lookup {V} (src : list (rstr * V)) m k :
  copy_properties src m !! k =
    match last (filter (λ kv, kv.1 = k) src) with Some kv => Some kv.2 | None => m !! k end.
Proof.
  unfold copy_properties. induction src as [|[k' v] src IH] using rev_ind; [done|].
  rewrite foldl_app, filter_app. cbn [foldl fst snd]. rewrite filter_cons.
  cbn [fst]. case_decide as Hk.
  - subst. by rewrite lookup_insert_eq, filter_nil, last_snoc.
  - rewrite lookup_insert_ne by done. by rewrite filter_nil, app_nil_r.
Qed.

(** ** Properties *)

(** A revocation takes effect at once, with or without a sandbox: after
    [permissions.revoke], the runtime refuses the described access, [query]
    reports it denied and [has] answers [false]. *)
Theorem revoke_takes_effect h url now st d k a r :
  parts_of_descriptor d = (k, a, r) →
  let st' := (revoke h st (Some d)).1 in
  (check_global_permission h url now st' k a r).2 = Err (Denied k a r) ∧
  (query h url now st' (Some d)).2 = Ok ("denied" : rstr, name_of d) ∧
  (has_permission h url now st' (Some d)).2 = false.
Proof.
  intros Hp st'.
  assert (decide url (broker st') k a (normalize_resource h r) = Deny) as Hd.
  { apply decide_exact_deny. unfold st', revoke. rewrite Hp. simpl. set_solver. }
  assert (has_restrictions st' = true) as Hr by (unfold st', revoke; by rewrite Hp).
  unfold check_global_permission, check_result, query, has_permission, check.
  rewrite Hp, Hr. cbn [negb]. rewrite Hd. done.
Qed.
Example revoke_takes_effect_witness :
  let d := {| d_name := Some ("net" : rstr); d_path := None; d_host := Some ("evil.com" : rstr);
              d_var_name := None; d_command := None |} in
  let st' := (revoke bare_host perm_init (Some d)).1 in
  (check_global_permission bare_host (λ _, None) [] st' Network Connect (Url "https://evil.com")).2
    = Err (Denied Network Connect (Url "https://evil.com")).
Proof.
  intros d. refine (proj1 (revoke_takes_effect bare_host (λ _, None) [] perm_init d
    Network Connect (Url "https://evil.com") _)). vm_compute. reflexivity.
Defined.

(** Revoking a host revokes the one url the host stands for: the decision on
    every other url, of the same host or not, stays what it was. *)
Theorem revoke_host_only_one_url h url st d host u :
  to_lowercase (name_of d) = "net" → d_host d = Some host → u ≠ host_url host →
  let st' := (revoke h st (Some d)).1 in
  decide url (broker st') Network Connect (Url u) = decide url (broker st) Network Connect (Url u).
Proof.
  intros Hn Hh Hu st'.
  assert (parts_of_descriptor d = (Network, Connect, Url (host_url host))) as Hp.
  { unfold parts_of_descriptor, parse_descriptor_to_parts. by rewrite Hn, Hh. }
  set (rule := {| kind := Network; action := Connect; resource := Url (host_url host) |}).
  assert (deny_rules (broker st') = {[rule]} ∪ deny_rules (broker st) ∧
          allow_rules (broker st') = allow_rules (broker st) ∖ {[rule]}) as [Hd Ha]
    by (unfold st', revoke; by rewrite Hp).
  unfold decide. rewrite Hd, Ha. cbn [path_rule_matches is_network_url network_host_rule].
  assert (∀ x, x ≠ rule →
    bool_decide (x ∈ {[rule]} ∪ deny_rules (broker st)) = bool_decide (x ∈ deny_rules (broker st)) ∧
    bool_decide (x ∈ allow_rules (broker st) ∖ {[rule]}) = bool_decide (x ∈ allow_rules (broker st)))
    as Hx.
  { intros x Hne. split; apply bool_decide_ext.
    - rewrite elem_of_union, elem_of_singleton. tauto.
    - rewrite elem_of_difference, elem_of_singleton. tauto. }
  destruct (Hx {| kind := Network; action := Connect; resource := Url u |}) as [-> ->];
    [unfold rule; congruence|].
  destruct (Hx {| kind := Network; action := Connect; resource := Any |}) as [-> ->]; [done|].
  destruct (url u) as [hn|]; [|done]. cbn [mbind option_bind].
  by destruct (Hx {| kind := Network; action := Connect; resource := Name hn |}) as [-> ->].
Qed.
Example revoke_host_only_one_url_witness :
  let d := {| d_name := Some ("net" : rstr); d_path := None; d_host := Some ("evil.com" : rstr);
              d_var_name := None; d_command := None |} in
  let st' := (revoke bare_host perm_init (Some d)).1 in
  decide (λ _, Some ("evil.com" : rstr)) (broker st') Network Connect (Url "https://evil.com/x")
  = Allow.
Proof.
  intros d st'.
  etrans; [apply (revoke_host_only_one_url bare_host (λ _, Some ("evil.com" : rstr)) perm_init d
    "evil.com" "https://evil.com/x"); [reflexivity|reflexivity|vm_compute; congruence]|].
  vm_compute. reflexivity.
Defined.

(** What a script is told is what is enforced: while restrictions are on,
    [has] answers [true] exactly for the accesses the runtime lets through, and
    [query] reports the same; neither changes a rule or a flag. *)
Theorem query_reports_enforcement h url now st d k a r :
  has_restrictions st = true → parts_of_descriptor d = (k, a, r) →
  ((has_permission h url now st (Some d)).2 = true ↔
     (check_global_permission h url now st k a r).2 = Ok tt) ∧
  ((query h url now st (Some d)).2 = Ok ("granted" : rstr, name_of d) ↔
     (check_global_permission h url now st k a r).2 = Ok tt) ∧
  broker (query h url now st (Some d)).1 = broker st ∧
  has_restrictions (query h url now st (Some d)).1 = true.
Proof.
  intros Hr Hp. unfold check_global_permission, check_result, query, has_permission, check.
  rewrite Hp, Hr. cbn [negb]. unfold write_audit_record.
  destruct (decide url (broker st) k a (normalize_resource h r)), (audit_sink st);
    repeat split; done.
Qed.
Example query_reports_enforcement_witness :
  let d := {| d_name := Some ("env" : rstr); d_path := None; d_host := None;
              d_var_name := Some ("HOME" : rstr); d_command := None |} in
  let st := deny_all bare_host perm_init in
  (has_permission bare_host (λ _, None) [] st (Some d)).2 = true ↔
  (check_global_permission bare_host (λ _, None) [] st Environment Read (Name "HOME")).2 = Ok tt.
Proof.
  intros d st. apply (query_reports_enforcement bare_host (λ _, None) [] st d
    Environment Read (Name "HOME")); vm_compute; reflexivity.
Defined.

(** [attenuate] overrides rather than restricts: the result takes every
    property of the second policy, whatever the first said. *)
Theorem attenuate_overrides {V} (base rest : list (rstr * V)) k :
  attenuate (Some base) (Some rest) !! k =
    match last (filter (λ kv, kv.1 = k) rest) with
    | Some kv => Some kv.2
    | None => snd <$> last (filter (λ kv, kv.1 = k) base)
    end.
Proof.
  unfold attenuate. cbn [from_option id]. rewrite !copy_properties_lookup.
  case_match; [done|]. rewrite lookup_empty.
  by destruct (last (filter (λ kv, kv.1 = k) base)).
Qed.
