(* ===== verification/VirtualFs.v ===== *)
(** * The in-memory file system of the sandbox, [src/sandbox/virtual_fs.rs]

    The statics [VFS_ENABLED], [VFS_COW], [VFS_FILES], [VFS_DIRS] and
    [VFS_DELETED] are the record [Vfs]; every public function of the file is an
    operation on it.  The host disk under the copy-on-write layer is the
    [Host] of [RustPath].  A poisoned lock cannot be met: the release profile
    aborts on panic.  File contents are byte strings. *)

From S2P Require Import Prelude RustPath.

Record Vfs := {
  enabled : bool;                 (* VFS_ENABLED *)
  cow : bool;                     (* VFS_COW *)
  files : gmap path rstr;         (* VFS_FILES *)
  dirs : gset path;               (* VFS_DIRS *)
  deleted : gset path;            (* VFS_DELETED *)
}.
(** The statics before any call. *)
Definition vfs_init : Vfs :=
  {| enabled := false; cow := true; files := ∅; dirs := ∅; deleted := ∅ |}.

Definition with_files (st : Vfs) (f : gmap path rstr) : Vfs :=
  {| enabled := enabled st; cow := cow st; files := f; dirs := dirs st;
     deleted := deleted st |}.
Definition with_dirs (st : Vfs) (d : gset path) : Vfs :=
  {| enabled := enabled st; cow := cow st; files := files st; dirs := d;
     deleted := deleted st |}.
Definition with_deleted (st : Vfs) (d : gset path) : Vfs :=
  {| enabled := enabled st; cow := cow st; files := files st; dirs := dirs st;
     deleted := d |}.

Definition is_enabled (st : Vfs) : bool := enabled st.
Definition is_cow_enabled (st : Vfs) : bool := cow st.
Definition enable (st : Vfs) (cow_mode : bool) : Vfs :=
  {| enabled := true; cow := cow_mode; files := files st; dirs := dirs st;
     deleted := deleted st |}.
Definition reset (st : Vfs) : Vfs :=
  {| enabled := enabled st; cow := cow st; files := ∅; dirs := ∅; deleted := ∅ |}.
Definition disable (st : Vfs) : Vfs :=
  reset {| enabled := false; cow := cow st; files := files st; dirs := dirs st;
           deleted := deleted st |}.

(** [normalize]: only anchors relative paths; [..] stays. *)
Definition normalize (h : Host) (p : path) : path :=
  match current_dir h with
  | Some curr => if is_relative p then path_join curr p else p
  | None => p
  end.

Section ops.
Context (h : Host).

Definition vfs_read (st : Vfs) (p : path) : io_result rstr :=
  let norm := normalize h p in
  if bool_decide (norm ∈ deleted st) then Err (NotFound, "File not found in VFS" : rstr)
  else match files st !! norm with
  | Some bytes => Ok bytes
  | None =>
      if is_cow_enabled st && host_exists h norm && host_is_file h norm
      then host_read h norm
      else Err (NotFound, "File not found in VFS" : rstr)
  end.

Definition vfs_read_to_string (st : Vfs) (p : path) : io_result rstr :=
  bytes ← vfs_read st p;
  if utf8_valid bytes then Ok bytes else Err (InvalidData, "invalid utf-8" : rstr).

Definition vfs_create_dir (st : Vfs) (p : path) : Vfs :=
  with_dirs st ({[normalize h p]} ∪ dirs st).

(** The loop of [vfs_create_dir_all]: [current] grows by one component a round. *)
Fixpoint create_dirs_from (st : Vfs) (current rest : path) : Vfs :=
  match rest with
  | [] => st
  | component :: rest' =>
      let current := path_join current [component] in
      create_dirs_from (vfs_create_dir st current) current rest'
  end.
Definition vfs_create_dir_all (st : Vfs) (p : path) : Vfs :=
  create_dirs_from st [] (normalize h p).

Definition vfs_write (st : Vfs) (p : path) (data : rstr) : Vfs :=
  let norm := normalize h p in
  let st := match parent norm with
            | Some par => vfs_create_dir_all st par
            | None => st
            end in
  let st := with_deleted st (deleted st ∖ {[norm]}) in
  with_files st (<[norm := data]> (files st)).

Definition vfs_remove_file (st : Vfs) (p : path) : Vfs * io_result unit :=
  let norm := normalize h p in
  let found := bool_decide (is_Some (files st !! norm)) in
  let st := with_files st (delete norm (files st)) in
  let '(st, found) :=
    if is_cow_enabled st
    then (with_deleted st ({[norm]} ∪ deleted st), found || host_exists h norm)
    else (st, found) in
  (st, if found then Ok tt else Err (NotFound, "File not found to remove" : rstr)).

Definition vfs_remove_dir_all (st : Vfs) (p : path) : Vfs :=
  let norm := normalize h p in
  let st := with_files st
    (filter (λ kv, path_starts_with kv.1 norm = false) (files st)) in
  let st := with_dirs st
    (filter (λ d, path_starts_with d norm = false) (dirs st)) in
  if is_cow_enabled st then with_deleted st ({[norm]} ∪ deleted st) else st.

Definition vfs_exists (st : Vfs) (p : path) : bool :=
  let norm := normalize h p in
  if bool_decide (norm ∈ deleted st) then false
  else if bool_decide (is_Some (files st !! norm)) then true
  else if bool_decide (norm ∈ dirs st) then true
  else is_cow_enabled st && host_exists h norm.

Record VfsMetadata := { is_file : bool; is_dir : bool; len : Z }.

Definition vfs_metadata (st : Vfs) (p : path) : io_result VfsMetadata :=
  let norm := normalize h p in
  if bool_decide (norm ∈ deleted st) then Err (NotFound, "Path deleted in VFS" : rstr)
  else match files st !! norm with
  | Some bytes =>
      Ok {| is_file := true; is_dir := false; len := Z.of_nat (length bytes) |}
  | None =>
      if bool_decide (norm ∈ dirs st)
      then Ok {| is_file := false; is_dir := true; len := 0 |}
      else if is_cow_enabled st then
        match host_metadata h norm with
        | Some m => Ok {| is_file := m_is_file m; is_dir := m_is_dir m; len := m_len m |}
        | None => Err (NotFound, "Path not found in VFS" : rstr)
        end
      else Err (NotFound, "Path not found in VFS" : rstr)
  end.

(** The name a stored path contributes to the listing of [norm]. *)
Definition entry_under (norm p : path) : option rstr :=
  rel ← path_strip_prefix norm p;
  first ← head rel;
  if bool_decide (component_str first = []) then None else Some (component_str first).

Definition vfs_read_dir (st : Vfs) (p : path) : io_result (list rstr) :=
  let norm := normalize h p in
  if bool_decide (norm ∈ deleted st)
  then Err (NotFound, "Directory deleted in VFS" : rstr)
  else
    let dir_found := bool_decide (norm ∈ dirs st) in
    let entries : gset rstr :=
      list_to_set (omap (entry_under norm) (elements (dirs st))) in
    let keys := (map_to_list (files st)).*1 in
    let dir_found := dir_found || existsb (λ f, path_starts_with f norm) keys in
    let entries := list_to_set (omap (entry_under norm) keys) ∪ entries in
    let '(dir_found, entries) :=
      if is_cow_enabled st && host_is_dir h norm
      then (true,
            list_to_set (filter (λ name : rstr,
                path_join norm [Normal name] ∉ deleted st)
              ((host_list_dir h norm) .unwrap_or [])) ∪ entries)
      else (dir_found, entries) in
    if negb dir_found && bool_decide (entries = ∅)
    then Err (NotFound, "Directory not found" : rstr)
    else Ok (sort_strings (elements entries)).

(** The keys in the map's own order, which the source leaves unspecified too. *)
Definition list_virtual_files (st : Vfs) : list rstr :=
  render <$> (map_to_list (files st)).*1.
End ops.

(** ** The operations as one transition function *)

Inductive vfs_op :=
  | OpRead (p : path)
  | OpReadString (p : path)
  | OpWrite (p : path) (data : rstr)
  | OpCreateDir (p : path)
  | OpCreateDirAll (p : path)
  | OpRemoveFile (p : path)
  | OpRemoveDirAll (p : path)
  | OpExists (p : path)
  | OpMetadata (p : path)
  | OpReadDir (p : path).
Inductive vfs_reply :=
  | RUnit (r : io_result unit)
  | RBytes (r : io_result rstr)
  | RBool (b : bool)
  | RMeta (r : io_result VfsMetadata)
  | RNames (r : io_result (list rstr)).

Definition vfs_step (h : Host) (st : Vfs) (op : vfs_op) : Vfs * vfs_reply :=
  match op with
  | OpRead p => (st, RBytes (vfs_read h st p))
  | OpReadString p => (st, RBytes (vfs_read_to_string h st p))
  | OpWrite p data => (vfs_write h st p data, RUnit (Ok tt))
  | OpCreateDir p => (vfs_create_dir h st p, RUnit (Ok tt))
  | OpCreateDirAll p => (vfs_create_dir_all h st p, RUnit (Ok tt))
  | OpRemoveFile p => let '(st', r) := vfs_remove_file h st p in (st', RUnit r)
  | OpRemoveDirAll p => (vfs_remove_dir_all h st p, RUnit (Ok tt))
  | OpExists p => (st, RBool (vfs_exists h st p))
  | OpMetadata p => (st, RMeta (vfs_metadata h st p))
  | OpReadDir p => (st, RNames (vfs_read_dir h st p))
  end.
Fixpoint vfs_run (h : Host) (st : Vfs) (ops : list vfs_op) : Vfs * list vfs_reply :=
  match ops with
  | [] => (st, [])
  | op :: ops' =>
      let '(st1, r) := vfs_step h st op in
      let '(st2, rs) := vfs_run h st1 ops' in
      (st2, r :: rs)
  end.

(** ** Lemmas *)

Lemma create_dirs_from_fields h st cur rest :
  enabled (create_dirs_from h st cur rest) = enabled st ∧
  cow (create_dirs_from h st cur rest) = cow st ∧
  files (create_dirs_from h st cur rest) = files st ∧
  deleted (create_dirs_from h st cur rest) = deleted st.
Proof.
  revert st cur. induction rest as [|c rest IH]; intros st cur; [done|]. simpl.
  destruct (IH (vfs_create_dir h st (path_join cur [c])) (path_join cur [c]))
    as (-> & -> & -> & ->). done.
Qed.
Lemma vfs_write_fields h st p data :
  cow (vfs_write h st p data) = cow st ∧
  files (vfs_write h st p data) = <[normalize h p := data]> (files st) ∧
  deleted (vfs_write h st p data) = deleted st ∖ {[normalize h p]}.
Proof.
  unfold vfs_write, vfs_create_dir_all. simpl.
  case_match; [|done].
  by rewrite !(proj1 (proj2 (create_dirs_from_fields _ _ _ _))),
    !(proj1 (proj2 (proj2 (create_dirs_from_fields _ _ _ _)))),
    !(proj2 (proj2 (proj2 (create_dirs_from_fields _ _ _ _)))).
Qed.

(** The file contents a sandboxed program sees: the abstract state of the
    component, a partial function from normalised paths to bytes. *)
Definition view (h : Host) (st : Vfs) (norm : path) : option rstr :=
  if bool_decide (norm ∈ deleted st) then None
  else match files st !! norm with
  | Some bytes => Some bytes
  | None => if is_cow_enabled st && host_exists h norm && host_is_file h norm
            then match host_read h norm with Ok bytes => Some bytes | Err _ => None end
            else None
  end.


Lemma vfs_read_view h st p b :
  vfs_read h st p = Ok b ↔ view h st (normalize h p) = Some b.
Proof.
  unfold vfs_read, view.
  repeat (case_bool_decide || case_match); simplify_eq; naive_solver.
Qed.
Lemma view_ext h st st' q :
  cow st' = cow st → (q ∈ deleted st' ↔ q ∈ deleted st) →
  files st' !! q = files st !! q → view h st' q = view h st q.
Proof.
  intros Hc Hd Hf. unfold view, is_cow_enabled. rewrite Hc, Hf.
  by rewrite (bool_decide_ext _ _ Hd).
Qed.
Lemma view_deleted h st q : q ∈ deleted st → view h st q = None.
Proof. intros. unfold view. by rewrite bool_decide_eq_true_2. Qed.

(** The abstract file store: what each operation does to file contents. *)
Definition spec_step (h : Host) (v : path → option rstr) (op : vfs_op) : path → option rstr :=
  match op with
  | OpWrite p data => λ q, if bool_decide (q = normalize h p) then Some data else v q
  | OpRemoveFile p => λ q, if bool_decide (q = normalize h p) then None else v q
  | OpRemoveDirAll p => λ q, if path_starts_with q (normalize h p) then None else v q
  | _ => v
  end.

Lemma view_write h st p data q :
  view h (vfs_write h st p data) q =
  if bool_decide (q = normalize h p) then Some data else view h st q.
Proof.
  destruct (vfs_write_fields h st p data) as (Hc & Hf & Hd).
  bd_case (q = normalize h p); subst.
  - unfold view. rewrite Hf, Hd, lookup_insert_eq.
    rewrite bool_decide_eq_false_2; set_solver.
  - apply view_ext; [done| |].
    + rewrite Hd. set_solver.
    + by rewrite Hf, lookup_insert_ne.
Qed.
Lemma view_remove_file h st p q :
  view h (vfs_remove_file h st p).1 q =
  if bool_decide (q = normalize h p) then None else view h st q.
Proof.
  unfold vfs_remove_file, is_cow_enabled. simpl. bd_case (q = normalize h p); subst.
  - destruct (cow st) eqn:E; simpl; [apply view_deleted; set_solver|].
    unfold view, is_cow_enabled. simpl. rewrite lookup_delete_eq, E. by case_bool_decide.
  - destruct (cow st); simpl; apply view_ext; simpl; try done;
      try (by rewrite lookup_delete_ne); set_solver.
Qed.
Lemma view_remove_dir_strict h st p q :
  cow st = false →
  view h (vfs_remove_dir_all h st p) q =
  if path_starts_with q (normalize h p) then None else view h st q.
Proof.
  intros Hc. unfold vfs_remove_dir_all, is_cow_enabled. simpl. rewrite Hc.
  unfold view, is_cow_enabled. simpl. rewrite Hc. simpl.
  destruct (path_starts_with q (normalize h p)) eqn:E.
  - rewrite map_lookup_filter_None_2; [by case_bool_decide|].
    right. intros x _. simpl. congruence.
  - destruct (files st !! q) eqn:Ef.
    + by rewrite (map_lookup_filter_Some_2 _ _ _ _ Ef).
    + by rewrite map_lookup_filter_None_2 by (by left).
Qed.
Lemma view_remove_dir_cow h st p q :
  cow st = true →
  view h (vfs_remove_dir_all h st p) q =
  if path_starts_with q (normalize h p) then
    (if bool_decide (q = normalize h p) then None
     else view h (with_files st (delete q (files st))) q)
  else view h st q.
Proof.
  intros Hc. unfold vfs_remove_dir_all, is_cow_enabled. simpl. rewrite Hc.
  destruct (path_starts_with q (normalize h p)) eqn:E.
  - bd_case (q = normalize h p); [subst; apply view_deleted; set_solver|].
    apply view_ext; simpl; [done|set_solver|].
    rewrite lookup_delete_eq. apply map_lookup_filter_None_2.
    right. intros x _. simpl. congruence.
  - assert (q ≠ normalize h p) by (intros ->; by rewrite path_starts_with_refl in E).
    apply view_ext; simpl; [done|set_solver|].
    destruct (files st !! q) eqn:Ef.
    + by rewrite (map_lookup_filter_Some_2 _ _ _ _ Ef).
    + by rewrite map_lookup_filter_None_2 by (by left).
Qed.

(** Operations that never look at the disk behave alike on every host with the
    same current directory. *)
Lemma normalize_cwd h h' p : current_dir h = current_dir h' → normalize h p = normalize h' p.
Proof. intros H. unfold normalize. by rewrite H. Qed.
Lemma create_dirs_cwd h h' st cur rest :
  current_dir h = current_dir h' →
  create_dirs_from h st cur rest = create_dirs_from h' st cur rest.
Proof.
  intros H. revert st cur. induction rest as [|c rest IH]; intros st cur; [done|].
  simpl. rewrite IH. unfold vfs_create_dir. by rewrite (normalize_cwd h h').
Qed.
Lemma vfs_step_cow h st op : cow (vfs_step h st op).1 = cow st.
Proof.
  destruct op; cbn [vfs_step fst]; try done.
  - apply vfs_write_fields.
  - apply (create_dirs_from_fields h st [] (normalize h p)).
  - unfold vfs_remove_file, is_cow_enabled. simpl. by destruct (cow st) eqn:E; simpl.
  - unfold vfs_remove_dir_all, is_cow_enabled. simpl. by destruct (cow st) eqn:E; simpl.
Qed.
Lemma vfs_step_strict h h' st op :
  cow st = false → current_dir h = current_dir h' → vfs_step h st op = vfs_step h' st op.
Proof.
  intros Hc Hh. pose proof (λ p, normalize_cwd h h' p Hh) as Hn.
  destruct op; simpl;
    unfold vfs_read_to_string, vfs_read, vfs_write, vfs_create_dir_all, vfs_create_dir,
      vfs_remove_file, vfs_remove_dir_all, vfs_exists, vfs_metadata, vfs_read_dir,
      is_cow_enabled; simpl; rewrite ?Hc, ?Hn; simpl; try done.
  - case_match; [|done]. by rewrite ?Hn, (create_dirs_cwd h h').
  - by rewrite (create_dirs_cwd h h').
Qed.

(** An absolute path as [components()] yields them: the root once, in front,
    and no [.]. *)
Definition well_formed_abs (p : path) : Prop :=
  ∃ r, p = RootDir :: r ∧ RootDir ∉ r ∧ CurDir ∉ r.

Lemma path_join_snoc cur c :
  cur ≠ [] → c ≠ RootDir → c ≠ CurDir → path_join cur [c] = cur ++ [c].
Proof. intros Hc. destruct cur; [done|]. by destruct c. Qed.
Lemma normalize_abs h p : head p = Some RootDir → normalize h p = p.
Proof.
  intros Hp. unfold normalize, is_relative, is_absolute.
  case_match; [|done]. by rewrite bool_decide_eq_true_2.
Qed.
Lemma create_dirs_dirs_mono h st cur rest d :
  d ∈ dirs st → d ∈ dirs (create_dirs_from h st cur rest).
Proof.
  revert st cur. induction rest as [|c rest IH]; intros st cur Hd; [done|].
  apply IH. simpl. set_solver.
Qed.
Lemma create_dirs_prefixes h st cur rest pre :
  head cur = Some RootDir → RootDir ∉ rest → CurDir ∉ rest →
  pre ≠ [] → pre `prefix_of` rest → cur ++ pre ∈ dirs (create_dirs_from h st cur rest).
Proof.
  revert st cur pre. induction rest as [|c rest IH]; intros st cur pre Hcur Hr Hc Hpre Hp.
  { by apply prefix_nil_inv in Hp. }
  rewrite not_elem_of_cons in Hr, Hc. destruct Hr as [? Hr], Hc as [? Hc].
  destruct pre as [|c' pre]; [done|]. simpl.
  assert (c' = c) as -> by (by eapply prefix_cons_inv_1).
  apply prefix_cons_inv_2 in Hp.
  rewrite path_join_snoc by (try done; by destruct cur).
  destruct (decide (pre = [])) as [->|Hne].
  - apply create_dirs_dirs_mono. unfold vfs_create_dir. simpl.
    rewrite normalize_abs by (by destruct cur). set_solver.
  - replace (cur ++ c :: pre) with ((cur ++ [c]) ++ pre) by (by rewrite <-app_assoc).
    apply IH; try done. by destruct cur.
Qed.
Lemma create_dir_all_prefixes h st p q :
  well_formed_abs p → q ≠ [] → q `prefix_of` p →
  q ∈ dirs (vfs_create_dir_all h st p).
Proof.
  intros (r & -> & Hr & Hc) Hq Hp. unfold vfs_create_dir_all.
  rewrite normalize_abs by done. simpl.
  destruct q as [|c q]; [done|].
  assert (c = RootDir) as -> by (by eapply prefix_cons_inv_1).
  apply prefix_cons_inv_2 in Hp.
  change (path_join [] [RootDir]) with [RootDir].
  destruct (decide (q = [])) as [->|Hne].
  - apply create_dirs_dirs_mono. unfold vfs_create_dir. simpl.
    rewrite normalize_abs by done. set_solver.
  - change (RootDir :: q) with ([RootDir] ++ q). by apply create_dirs_prefixes.
Qed.

(** ** Properties *)

(** What the host shows of a file of which nothing is in memory. *)
Definition beneath (h : Host) (st : Vfs) (q : path) : option rstr := view h (with_files st (delete q (files st))) q.

(** C40. Refinement: in strict mode every operation acts on the file contents a
    program sees exactly as the abstract store does, and reads return what the
    store holds.  With copy-on-write the same holds for every operation but
    [vfs_remove_dir_all], which removes the path itself, but of what is below it only the
    files in memory: the host's files there stay, or come back into sight. *)
Theorem vfs_refines_store h st op q :
  (cow st = false ∨ (∀ p, op ≠ OpRemoveDirAll p) →
   view h (vfs_step h st op).1 q = spec_step h (view h st) op q) ∧
  (∀ p, cow st = true → op = OpRemoveDirAll p →
   view h (vfs_step h st op).1 q =
   if bool_decide (q = normalize h p) then None
   else if path_starts_with q (normalize h p) then beneath h st q else view h st q) ∧
  (∀ p b, vfs_read h st p = Ok b ↔ view h st (normalize h p) = Some b).
Proof.
  split_and!; [|intros p Hc ->|intros; apply vfs_read_view].
  - intros Hop. destruct op; cbn [vfs_step fst spec_step]; try done.
    + apply view_write.
    + destruct (create_dirs_from_fields h st [] (normalize h p)) as (_ & ? & Hf & Hd).
      by apply view_ext; unfold vfs_create_dir_all; rewrite ?Hd, ?Hf.
    + rewrite <-view_remove_file. by destruct (vfs_remove_file h st p).
    + apply view_remove_dir_strict. destruct Hop as [?|Hop]; [done|by destruct (Hop p)].
  - cbn [vfs_step fst]. rewrite view_remove_dir_cow by done. unfold beneath.
    bd_case (q = normalize h p); [subst; by rewrite path_starts_with_refl|done].
Qed.
Lemma vfs_refines_store_witness :
  view bare_host (vfs_step bare_host vfs_init
    (OpWrite [RootDir; Normal "a"] "x")).1 [RootDir; Normal "a"] = Some ("x" : rstr).
Proof.
  rewrite (proj1 (vfs_refines_store bare_host vfs_init (OpWrite [RootDir; Normal "a"] "x")
    [RootDir; Normal "a"]) ltac:(right; discriminate)).
  reflexivity.
Defined.

(** Isolation: with copy-on-write off, no sequence of operations can tell
    two disks apart; only the current directory of the host is ever used. *)
Theorem strict_mode_isolated h h' st ops :
  cow st = false → current_dir h = current_dir h' →
  vfs_run h st ops = vfs_run h' st ops.
Proof.
  intros Hc Hh. revert st Hc. induction ops as [|op ops IH]; intros st Hc; [done|].
  cbn [vfs_run]. rewrite <-(vfs_step_strict h h') by done.
  pose proof (vfs_step_cow h st op) as Hc'.
  destruct (vfs_step h st op) as [st1 r]. simpl in Hc'.
  rewrite IH; [done|congruence].
Qed.
Lemma strict_mode_isolated_witness :
  let p := [RootDir; Normal "etc"] in
  vfs_run (one_file_host p "secret") (enable vfs_init false) [OpRead p; OpReadDir [RootDir]]
  = vfs_run (one_file_host p "other") (enable vfs_init false) [OpRead p; OpReadDir [RootDir]].
Proof. intros p. apply strict_mode_isolated; reflexivity. Defined.

(** Write, then look: the file exists, reads back, and its metadata give
    the length; every directory above it is recorded. *)
Theorem write_then_visible h st p data d :
  well_formed_abs p → 1 < length p →
  let st' := vfs_write h st p data in
  vfs_read h st' p = Ok data ∧ vfs_exists h st' p = true ∧
  vfs_metadata h st' p =
    Ok {| is_file := true; is_dir := false; len := Z.of_nat (length data) |} ∧
  (d ≠ [] → d `prefix_of` p → d ≠ p → d ∈ dirs st').
Proof.
  intros Hp Hl st'. destruct (vfs_write_fields h st p data) as (_ & Hf & Hd).
  assert (normalize h p = p) as Hn by (destruct Hp as (r & -> & _); by apply normalize_abs).
  rewrite Hn in Hf, Hd.
  assert (p ∉ deleted st') as Hnd by (subst st'; rewrite Hd; set_solver).
  assert (files st' !! p = Some data) as Hs by (subst st'; by rewrite Hf, lookup_insert_eq).
  unfold vfs_read, vfs_exists, vfs_metadata.
  rewrite Hn, Hs, !bool_decide_eq_false_2 by done. repeat split; try done.
  intros Hne Hpre Hneq.
  destruct Hp as (r & -> & Hr & Hc). destruct r as [|c r'] using rev_ind; [simpl in Hl; lia|].
  clear IHr'. subst st'. unfold vfs_write. rewrite Hn.
  change (RootDir :: r' ++ [c]) with ((RootDir :: r') ++ [c]).
  rewrite parent_app by set_solver. simpl.
  apply create_dir_all_prefixes; [exists r'; set_solver|done|].
  destruct Hpre as [x Hx]. change (RootDir :: r' ++ [c]) with ((RootDir :: r') ++ [c]) in Hx.
  destruct x as [|y x] using rev_ind; [rewrite app_nil_r in Hx; by destruct Hneq|].
  rewrite app_assoc in Hx. apply app_inj_tail in Hx as [Hx _]. by exists x.
Qed.
Lemma write_then_visible_witness :
  let p := [RootDir; Normal "a"; Normal "b"] in
  [RootDir; Normal "a"] ∈ dirs (vfs_write bare_host vfs_init p "x").
Proof.
  intros p. apply (write_then_visible bare_host vfs_init p "x" [RootDir; Normal "a"]).
  - exists [Normal "a"; Normal "b"]. split; [reflexivity|split; set_solver].
  - simpl. lia.
  - discriminate.
  - exists [Normal "b"]. reflexivity.
  - discriminate.
Defined.

(** [vfs_exists] and [vfs_metadata] agree. *)
Theorem exists_iff_metadata h st p : vfs_exists h st p = is_ok (vfs_metadata h st p).
Proof.
  unfold vfs_exists, vfs_metadata, host_exists.
  repeat (case_bool_decide || case_match); simplify_eq/=; try done; naive_solver.
Qed.

(** With copy-on-write, removing a directory hides the directory itself but
    not the host's files below it: they can still be read.  In strict mode the
    whole subtree is gone. *)
Theorem remove_dir_all_leaks_host_children h st p q b :
  cow st = true → path_starts_with q (normalize h p) = true → q ≠ normalize h p →
  q ∉ deleted st → host_is_file h q = true → host_read h q = Ok b →
  head q = Some RootDir →
  vfs_read h (vfs_remove_dir_all h st p) q = Ok b ∧
  vfs_read h (vfs_remove_dir_all h {| enabled := true; cow := false; files := files st;
    dirs := dirs st; deleted := deleted st |} p) q
  = Err (NotFound, "File not found in VFS" : rstr).
Proof.
  intros Hc Hu Hne Hd Hf Hr Hq. split.
  - apply vfs_read_view. rewrite normalize_abs, view_remove_dir_cow, Hu by done.
    rewrite bool_decide_eq_false_2 by done.
    unfold view, is_cow_enabled. simpl. rewrite lookup_delete_eq, Hc.
    rewrite bool_decide_eq_false_2 by done.
    unfold host_exists. unfold host_is_file in *.
    destruct (host_metadata h q); [|done].
    rewrite bool_decide_eq_true_2 by done. rewrite Hf. simpl. by rewrite Hr.
  - unfold vfs_read, vfs_remove_dir_all, is_cow_enabled. simpl.
    rewrite normalize_abs by done. rewrite bool_decide_eq_false_2 by done.
    rewrite map_lookup_filter_None_2; [done|]. right. intros x _. simpl. congruence.
Qed.
Lemma remove_dir_all_leaks_host_children_witness :
  let q := [RootDir; Normal "d"; Normal "f"] in
  let h := one_file_host q "data" in
  vfs_read h (vfs_remove_dir_all h vfs_init [RootDir; Normal "d"]) q = Ok ("data" : rstr).
Proof.
  intros q h.
  apply (remove_dir_all_leaks_host_children h vfs_init [RootDir; Normal "d"] q "data");
    try reflexivity; [discriminate|set_solver].
Defined.

(** With copy-on-write, a directory that was removed and created again stays
    invisible: [vfs_create_dir_all] does not take it off the deleted set. *)
Theorem recreated_dir_invisible h st p :
  cow st = true →
  let st' := vfs_create_dir_all h (vfs_remove_dir_all h st p) p in
  vfs_exists h st' p = false ∧
  vfs_read_dir h st' p = Err (NotFound, "Directory deleted in VFS" : rstr).
Proof.
  intros Hc st'.
  destruct (create_dirs_from_fields h (vfs_remove_dir_all h st p) [] (normalize h p))
    as (_ & _ & _ & Hd).
  assert (normalize h p ∈ deleted st') as Hin.
  { unfold st', vfs_create_dir_all. rewrite Hd.
    unfold vfs_remove_dir_all, is_cow_enabled. simpl. rewrite Hc. simpl. set_solver. }
  unfold vfs_exists, vfs_read_dir. by rewrite bool_decide_eq_true_2.
Qed.
Lemma recreated_dir_invisible_witness :
  let p := [RootDir; Normal "d"] in
  vfs_exists bare_host (vfs_create_dir_all bare_host
    (vfs_remove_dir_all bare_host vfs_init p) p) p = false.
Proof. intros p. apply (recreated_dir_invisible bare_host vfs_init p). reflexivity. Defined.
