(* ===== verification/EventLoop.v ===== *)
(** * The timer manager of the event loop, [src/event_loop.rs]

    [AsyncTimerManager] is a handle shared by the main thread and one worker
    thread.  [Worker] is what the worker owns (its map and its ordered set of
    deadlines), [Manager] adds what both threads share: the bounded command
    channel, the fired queue, the atomic counters and the waker flag.  The
    public methods are functions on [Manager]; the worker loop is the step
    relation [worker_step]; [mgr_step] interleaves the two.

    An [Instant] is a number of nanoseconds, a [Duration] a non-negative one;
    both stay far below the range where [Instant + Duration] would panic. *)

From S2P Require Import Prelude.

(** ** Deadlines in order: [BTreeSet<(Instant, u64, u64)>]

    The set is its strictly increasing enumeration, so [iter().next()] is the
    head. *)
Abbreviation heap_key := (Z * Z * Z)%type.

Definition key_lt (a b : heap_key) : Prop :=
  let '(d1, s1, i1) := a in let '(d2, s2, i2) := b in
  (d1 < d2 ∨ (d1 = d2 ∧ (s1 < s2 ∨ (s1 = s2 ∧ i1 < i2))))%Z.
#[export] Instance key_lt_dec : RelDecision key_lt.
Proof. intros [[d1 s1] i1] [[d2 s2] i2]. unfold key_lt. apply _. Defined.

Fixpoint heap_insert (k : heap_key) (l : list heap_key) : list heap_key :=
  match l with
  | [] => [k]
  | x :: l' =>
      if bool_decide (key_lt k x) then k :: l
      else if bool_decide (k = x) then l
      else x :: heap_insert k l'
  end.
Fixpoint heap_remove (k : heap_key) (l : list heap_key) : list heap_key :=
  match l with
  | [] => []
  | x :: l' => if bool_decide (k = x) then l' else x :: heap_remove k l'
  end.

(** ** The worker's data *)

Record TimerEntry := {
  deadline : Z;      (* Instant *)
  delay : Z;         (* Duration *)
  remaining : Z;     (* u32 *)
  sequence : Z;      (* u64 *)
}.

Inductive TimerCommand :=
  | ScheduleTimeout (timer_id deadline delay sequence : Z)
  | ScheduleInterval (timer_id deadline delay repeat_count sequence : Z)
  | Cancel (timer_id : Z)
  | CancelWithAck (timer_id : Z)
  | Clear
  | Shutdown
  | ClearWithAck
  | ShutdownWithAck.
(** What is sent on the [oneshot] channel of a command, if it has one. *)
Inductive Ack := NoAck | AckRemoved (removed : bool) | AckUnit.

Record Worker := {
  scheduled_timers : gmap Z TimerEntry;
  timer_heap : list heap_key;
  scheduled_count : Z;      (* shared AtomicU64 *)
  waker : bool;             (* EventLoopWaker's flag *)
}.
Definition worker_init : Worker :=
  {| scheduled_timers := ∅; timer_heap := []; scheduled_count := 0; waker := false |}.

Definition wake (w : Worker) : Worker :=
  {| scheduled_timers := scheduled_timers w; timer_heap := timer_heap w;
     scheduled_count := scheduled_count w; waker := true |}.

(** The common body of the two [Schedule] arms. *)
Definition schedule_entry (w : Worker) (timer_id : Z) (e : TimerEntry) : Worker :=
  let is_new := bool_decide (scheduled_timers w !! timer_id = None) in
  let heap := match scheduled_timers w !! timer_id with
              | Some old => heap_remove (deadline old, sequence old, timer_id) (timer_heap w)
              | None => timer_heap w
              end in
  {| scheduled_timers := <[timer_id := e]> (scheduled_timers w);
     timer_heap := heap_insert (deadline e, sequence e, timer_id) heap;
     scheduled_count :=
       if is_new then wrap_u64 (scheduled_count w + 1) else scheduled_count w;
     waker := waker w |}.

Definition cancel_entry (w : Worker) (timer_id : Z) : Worker * bool :=
  match scheduled_timers w !! timer_id with
  | Some entry =>
      ({| scheduled_timers := delete timer_id (scheduled_timers w);
          timer_heap := heap_remove (deadline entry, sequence entry, timer_id) (timer_heap w);
          scheduled_count := wrap_u64 (scheduled_count w - 1);
          waker := waker w |}, true)
  | None => (w, false)
  end.

Definition clear_all (w : Worker) : Worker :=
  let count := Z.of_nat (size (scheduled_timers w)) in
  wake {| scheduled_timers := ∅; timer_heap := [];
          scheduled_count := wrap_u64 (scheduled_count w - count); waker := waker w |}.

(** [handle_timer_command]: the new state, the acknowledgement sent, and
    whether the worker goes on. *)
Definition handle_timer_command (w : Worker) (cmd : TimerCommand) : Worker * Ack * bool :=
  match cmd with
  | ScheduleTimeout timer_id dl dly seq =>
      (schedule_entry w timer_id
         {| deadline := dl; delay := dly; remaining := 1; sequence := seq |}, NoAck, true)
  | ScheduleInterval timer_id dl dly repeat_count seq =>
      let repeats := if bool_decide (repeat_count = 0%Z) then U32_MAX else repeat_count in
      (schedule_entry w timer_id
         {| deadline := dl; delay := dly; remaining := repeats; sequence := seq |}, NoAck, true)
  | Cancel timer_id => ((cancel_entry w timer_id).1, NoAck, true)
  | CancelWithAck timer_id =>
      let '(w', removed) := cancel_entry w timer_id in (w', AckRemoved removed, true)
  | Clear => (clear_all w, NoAck, true)
  | ClearWithAck => (clear_all w, AckUnit, true)
  | Shutdown => (clear_all w, NoAck, false)
  | ShutdownWithAck => (clear_all w, AckUnit, false)
  end.

(** [fire_due_timers], first loop: pop every deadline up to [now].  Popping the
    head of the set is recursion on its enumeration. *)
Record FireAcc := {
  acc_timers : gmap Z TimerEntry;
  acc_count : Z;
  fired_ids : list Z;
  to_reschedule : list (Z * Z * Z * Z);   (* id, delay, remaining, sequence *)
}.
Fixpoint pop_due (now : Z) (heap : list heap_key) (acc : FireAcc) : list heap_key * FireAcc :=
  match heap with
  | [] => ([], acc)
  | (dl, seq, timer_id) :: heap' =>
      if bool_decide (dl ≤ now)%Z then
        match acc_timers acc !! timer_id with
        | Some entry =>
            let timers := delete timer_id (acc_timers acc) in
            let fired := fired_ids acc ++ [timer_id] in
            if bool_decide (remaining entry > 1)%Z then
              let rem := if bool_decide (remaining entry = U32_MAX) then U32_MAX
                         else (remaining entry - 1)%Z in
              pop_due now heap'
                {| acc_timers := timers; acc_count := acc_count acc; fired_ids := fired;
                   to_reschedule := to_reschedule acc ++ [(timer_id, delay entry, rem, seq)] |}
            else
              pop_due now heap'
                {| acc_timers := timers; acc_count := wrap_u64 (acc_count acc - 1);
                   fired_ids := fired; to_reschedule := to_reschedule acc |}
        | None => pop_due now heap' acc
        end
      else (heap, acc)
  end.

(** Second loop: every interval goes back in with a deadline counted from a
    fresh clock reading ([clock] lists the readings, one per interval). *)
Fixpoint reschedule (clock : nat → Z) (todo : list (Z * Z * Z * Z))
    (timers : gmap Z TimerEntry) (heap : list heap_key) :
    gmap Z TimerEntry * list heap_key :=
  match todo with
  | [] => (timers, heap)
  | (timer_id, dly, rem, seq) :: todo' =>
      let next_deadline := (clock 0%nat + dly)%Z in
      reschedule (λ i, clock (S i)) todo'
        (<[timer_id := {| deadline := next_deadline; delay := dly; remaining := rem;
                          sequence := seq |}]> timers)
        (heap_insert (next_deadline, seq, timer_id) heap)
  end.

(** The whole of [fire_due_timers]: the worker's new data and the ids it
    appends to the fired queue. *)
Definition fire_due_timers (now : Z) (clock : nat → Z) (w : Worker) : Worker * list Z :=
  let '(heap, acc) := pop_due now (timer_heap w)
    {| acc_timers := scheduled_timers w; acc_count := scheduled_count w;
       fired_ids := []; to_reschedule := [] |} in
  let '(timers, heap) := reschedule clock (to_reschedule acc) (acc_timers acc) heap in
  let w' := {| scheduled_timers := timers; timer_heap := heap;
               scheduled_count := acc_count acc; waker := waker w |} in
  (if bool_decide (fired_ids acc = []) then w' else wake w', fired_ids acc).

(** ** The manager *)

Inductive TimerScheduleError := InvalidTimerId | QueueFull | ChannelClosed.
#[export] Instance timer_error_eq_dec : EqDecision TimerScheduleError.
Proof. solve_decision. Defined.

(** Where the worker thread stands: at the top of its loop, in the [try_recv]
    loop that follows a received command, or gone (its receiver dropped). *)
Inductive Phase := AtTop | Draining | Stopped.
#[export] Instance phase_eq_dec : EqDecision Phase.
Proof. solve_decision. Defined.

Record Manager := {
  worker : Worker;
  phase : Phase;
  cmd_queue : list TimerCommand;     (* commands sent and not received *)
  next_timer_sequence : Z;           (* AtomicU64 *)
  fired_timers : list Z;             (* Arc<RwLock<Vec<u64>>> *)
  command_queue_size : nat;
  acks : list Ack;                   (* acknowledgements sent, in order *)
}.
Definition DEFAULT_TIMER_COMMAND_QUEUE_SIZE : nat := 100.
(** [new_with_command_queue_size]: the channel holds [max 1] commands. *)
Definition new_with_command_queue_size (n : nat) : Manager := {|
  worker := worker_init; phase := AtTop; cmd_queue := [];
  next_timer_sequence := 1; fired_timers := []; command_queue_size := n; acks := [] |}.
Definition channel_capacity (m : Manager) : nat := max (command_queue_size m) 1.

Definition with_queue (m : Manager) (q : list TimerCommand) : Manager := {|
  worker := worker m; phase := phase m; cmd_queue := q;
  next_timer_sequence := next_timer_sequence m; fired_timers := fired_timers m;
  command_queue_size := command_queue_size m; acks := acks m |}.
Definition with_sequence (m : Manager) (s : Z) : Manager := {|
  worker := worker m; phase := phase m; cmd_queue := cmd_queue m;
  next_timer_sequence := s; fired_timers := fired_timers m;
  command_queue_size := command_queue_size m; acks := acks m |}.
Definition with_fired (m : Manager) (f : list Z) : Manager := {|
  worker := worker m; phase := phase m; cmd_queue := cmd_queue m;
  next_timer_sequence := next_timer_sequence m; fired_timers := f;
  command_queue_size := command_queue_size m; acks := acks m |}.
Definition with_worker (m : Manager) (w : Worker) : Manager := {|
  worker := w; phase := phase m; cmd_queue := cmd_queue m;
  next_timer_sequence := next_timer_sequence m; fired_timers := fired_timers m;
  command_queue_size := command_queue_size m; acks := acks m |}.
Definition wake_manager (m : Manager) : Manager := with_worker m (wake (worker m)).

(** tokio's [try_send] on a bounded channel, with [map_try_send_error]. *)
Definition try_send (m : Manager) (c : TimerCommand) :
    Manager * result unit TimerScheduleError :=
  if bool_decide (phase m = Stopped) then (m, Err ChannelClosed)
  else if bool_decide (channel_capacity m ≤ length (cmd_queue m)) then (m, Err QueueFull)
  else (with_queue m (cmd_queue m ++ [c]), Ok tt).

Definition try_send_schedule_command (m : Manager) (c : TimerCommand) :
    Manager * result unit TimerScheduleError :=
  if bool_decide (command_queue_size m = 0) then (m, Err QueueFull) else try_send m c.

(** [next_sequence]: [fetch_add(1)]. *)
Definition next_sequence (m : Manager) : Manager * Z :=
  (with_sequence m (wrap_u64 (next_timer_sequence m + 1)), next_timer_sequence m).

Definition try_schedule_timeout (now : Z) (m : Manager) (dly timer_id : Z) :
    Manager * result unit TimerScheduleError :=
  if bool_decide (timer_id = 0%Z) then (m, Err InvalidTimerId)
  else let '(m, seq) := next_sequence m in
       try_send_schedule_command m (ScheduleTimeout timer_id (now + dly) dly seq).

Definition try_schedule_interval (now : Z) (m : Manager) (dly repeat_count timer_id : Z) :
    Manager * result unit TimerScheduleError :=
  if bool_decide (timer_id = 0%Z) then (m, Err InvalidTimerId)
  else let '(m, seq) := next_sequence m in
       try_send_schedule_command m
         (ScheduleInterval timer_id (now + dly) dly repeat_count seq).

Definition try_cancel (m : Manager) (timer_id : Z) : Manager * result unit TimerScheduleError :=
  if bool_decide (timer_id = 0%Z) then (m, Err InvalidTimerId)
  else try_send_schedule_command m (Cancel timer_id).
Definition cancel (m : Manager) (timer_id : Z) : Manager * bool :=
  let '(m, r) := try_cancel m timer_id in (m, is_ok r).
(** The sending half of [cancel_with_ack]; its answer is the [AckRemoved] the
    worker sends later. *)
Definition cancel_with_ack_send (m : Manager) (timer_id : Z) :
    Manager * result unit TimerScheduleError :=
  if bool_decide (timer_id = 0%Z) then (m, Err InvalidTimerId)
  else try_send_schedule_command m (CancelWithAck timer_id).

Definition mark_timer_fired (m : Manager) (timer_id : Z) : Manager :=
  wake_manager (with_fired m (fired_timers m ++ [timer_id])).
Definition clear_fired_timers (m : Manager) : Manager := with_fired m [].
(** [clear]: a [Clear] that finds the channel full is dropped. *)
Definition clear (m : Manager) : Manager :=
  wake_manager (with_fired (try_send m Clear).1 []).
Definition shutdown (m : Manager) : Manager := wake_manager (try_send m Shutdown).1.
(** The sending half of [shutdown_with_ack]. *)
Definition shutdown_with_ack_send (m : Manager) : Manager * result unit TimerScheduleError :=
  try_send m ShutdownWithAck.

(** The sending half of [clear_with_ack]: [blocking_send] waits for room (the
    step relation guards it), and the fired queue is emptied before the
    acknowledgement is awaited. *)
Definition clear_with_ack_send (m : Manager) : Manager :=
  with_fired (try_send m ClearWithAck).1 [].

Definition poll_fired_timers (m : Manager) : Manager * list Z :=
  (with_fired m [], fired_timers m).
Definition has_fired_timers (m : Manager) : bool := negb (bool_decide (fired_timers m = [])).
Definition has_scheduled_timers (m : Manager) : bool :=
  bool_decide (scheduled_count (worker m) > 0)%Z.

(** ** The worker loop *)

(** The worker takes one command off the channel; [false] from the handler ends
    the thread and drops what is still queued. *)
Definition receive (m : Manager) (c : TimerCommand) (q : list TimerCommand) : Manager :=
  let '(w, ack, go_on) := handle_timer_command (worker m) c in
  {| worker := w; phase := if go_on then Draining else Stopped;
     cmd_queue := if go_on then q else [];
     next_timer_sequence := next_timer_sequence m; fired_timers := fired_timers m;
     command_queue_size := command_queue_size m;
     acks := match ack with NoAck => acks m | _ => acks m ++ [ack] end |}.
Definition fire (m : Manager) (now : Z) (clock : nat → Z) : Manager :=
  let '(w, ids) := fire_due_timers now clock (worker m) in
  with_fired (with_worker m w) (fired_timers m ++ ids).
Definition back_to_top (m : Manager) : Manager := {|
  worker := worker m; phase := AtTop; cmd_queue := cmd_queue m;
  next_timer_sequence := next_timer_sequence m; fired_timers := fired_timers m;
  command_queue_size := command_queue_size m; acks := acks m |}.

(** The loop.  At the top a due deadline is fired; otherwise [select!] waits for
    the next deadline or a command, and picks either when both are ready.  A
    received command opens the [try_recv] loop, which ends on an empty channel. *)
Inductive worker_step : Manager → Manager → Prop :=
  | ws_fire m now clock k heap :
      phase m = AtTop → timer_heap (worker m) = k :: heap → (k.1.1 ≤ now)%Z →
      worker_step m (fire m now clock)
  | ws_recv m c q :
      phase m ≠ Stopped → cmd_queue m = c :: q → worker_step m (receive m c q)
  | ws_drained m :
      phase m = Draining → cmd_queue m = [] → worker_step m (back_to_top m).

(** What the main thread does, as labels. *)
Inductive main_op :=
  | MTimeout (now dly id : Z)
  | MInterval (now dly repeats id : Z)
  | MCancel (id : Z)
  | MCancelAck (id : Z)
  | MMark (id : Z)
  | MClear
  | MClearFired
  | MPoll
  | MClearAck
  | MShutdown
  | MShutdownAck
  | MWake
  | MWorker.
#[export] Instance main_op_eq_dec : EqDecision main_op.
Proof. solve_decision. Defined.
Inductive mgr_step : main_op → Manager → Manager → Prop :=
  | ms_timeout m now dly id : mgr_step (MTimeout now dly id) m (try_schedule_timeout now m dly id).1
  | ms_interval m now dly n id :
      mgr_step (MInterval now dly n id) m (try_schedule_interval now m dly n id).1
  | ms_cancel m id : mgr_step (MCancel id) m (try_cancel m id).1
  | ms_cancel_ack m id : mgr_step (MCancelAck id) m (cancel_with_ack_send m id).1
  | ms_mark m id : mgr_step (MMark id) m (mark_timer_fired m id)
  | ms_clear m : mgr_step MClear m (clear m)
  | ms_clear_fired m : mgr_step MClearFired m (clear_fired_timers m)
  | ms_poll m : mgr_step MPoll m (poll_fired_timers m).1
  | ms_clear_ack m :
      phase m = Stopped ∨ length (cmd_queue m) < channel_capacity m →
      mgr_step MClearAck m (clear_with_ack_send m)
  | ms_wake m : mgr_step MWake m (wake_manager m)
  | ms_shutdown m : mgr_step MShutdown m (shutdown m)
  | ms_shutdown_ack m : mgr_step MShutdownAck m (shutdown_with_ack_send m).1
  | ms_worker m m' : worker_step m m' → mgr_step MWorker m m'.
(** A run, with the labels of its steps. *)
Inductive mgr_run : list main_op → Manager → Manager → Prop :=
  | run_nil m : mgr_run [] m m
  | run_cons l ls m1 m2 m3 : mgr_step l m1 m2 → mgr_run ls m2 m3 → mgr_run (l :: ls) m1 m3.

(** ** Lemmas: the ordered set *)

Lemma key_lt_irrefl k : ¬ key_lt k k.
Proof. destruct k as [[d s] i]. simpl. lia. Qed.
#[export] Instance key_lt_trans : Transitive key_lt.
Proof. intros [[d1 s1] i1] [[d2 s2] i2] [[d3 s3] i3]. simpl. lia. Qed.
Lemma key_lt_trichotomy a b : key_lt a b ∨ a = b ∨ key_lt b a.
Proof.
  destruct a as [[d1 s1] i1], b as [[d2 s2] i2]. simpl.
  destruct (decide (d1 = d2)), (decide (s1 = s2)), (decide (i1 = i2)); subst; auto;
    lia.
Qed.

Abbreviation heap_sorted := (StronglySorted key_lt).

Lemma elem_of_heap_insert k x l : x ∈ heap_insert k l ↔ x = k ∨ x ∈ l.
Proof.
  induction l as [|y l IH]; simpl; [set_solver|].
  repeat case_bool_decide; subst; set_solver.
Qed.
Lemma heap_insert_sorted k l : heap_sorted l → heap_sorted (heap_insert k l).
Proof.
  induction 1 as [|x l Hs IH Hall]; simpl; [by repeat constructor|].
  repeat case_bool_decide; subst.
  - constructor; [by constructor|]. constructor; [done|].
    eapply Forall_impl; [done|]. intros y ?. by etrans.
  - by constructor.
  - constructor; [done|]. apply Forall_forall. intros y [->|Hy]%elem_of_heap_insert.
    + by destruct (key_lt_trichotomy k x) as [?|[?|?]].
    + rewrite Forall_forall in Hall. auto.
Qed.
Lemma elem_of_heap_remove k x l :
  heap_sorted l → x ∈ heap_remove k l ↔ x ∈ l ∧ x ≠ k.
Proof.
  induction 1 as [|y l Hs IH Hall]; simpl; [set_solver|].
  rewrite Forall_forall in Hall. case_bool_decide; subst.
  - split; [|set_solver]. intros Hx. split; [set_solver|]. intros ->.
    by apply (key_lt_irrefl y), Hall.
  - set_solver.
Qed.
Lemma heap_remove_sorted k l : heap_sorted l → heap_sorted (heap_remove k l).
Proof.
  induction 1 as [|y l Hs IH Hall]; simpl; [constructor|].
  case_bool_decide; [done|]. constructor; [done|].
  rewrite Forall_forall in *. intros x [Hx _]%elem_of_heap_remove; auto.
Qed.
Lemma heap_remove_head k l : heap_remove k (k :: l) = l.
Proof. simpl. by rewrite bool_decide_eq_true_2. Qed.

(** ** Lemmas: map and set agree *)

Definition key_of (id : Z) (e : TimerEntry) : heap_key := (deadline e, sequence e, id).
(** The set holds exactly the deadlines of the map, in order. *)
Definition agree (timers : gmap Z TimerEntry) (heap : list heap_key) : Prop :=
  heap_sorted heap ∧
  ∀ k, k ∈ heap ↔ ∃ e, timers !! k.2 = Some e ∧ k = key_of k.2 e.

Lemma agree_empty : agree ∅ [].
Proof. split; [constructor|]. intros k. split; [by intros ?%not_elem_of_nil|naive_solver]. Qed.
Lemma agree_delete timers heap id e :
  agree timers heap → timers !! id = Some e →
  agree (delete id timers) (heap_remove (key_of id e) heap).
Proof.
  intros [Hs Hm] Hid. split; [by apply heap_remove_sorted|].
  intros k. rewrite elem_of_heap_remove, Hm by done. split.
  - intros [(e' & He' & Hk) Hne]. exists e'. split; [|done].
    rewrite lookup_delete_ne; [done|]. intros Heq. apply Hne.
    rewrite <-Heq in He', Hk. congruence.
  - intros (e' & He' & Hk).
    assert (id ≠ k.2) by (intros Heq; by rewrite Heq, lookup_delete_eq in He').
    rewrite lookup_delete_ne in He' by done. split; [eauto|].
    intros Hkk. apply (f_equal snd) in Hkk. done.
Qed.
Lemma agree_insert timers heap id e :
  agree timers heap → timers !! id = None →
  agree (<[id := e]> timers) (heap_insert (key_of id e) heap).
Proof.
  intros [Hs Hm] Hid. split; [by apply heap_insert_sorted|].
  intros k. rewrite elem_of_heap_insert, Hm. split.
  - intros [->|(e' & He' & Hk)].
    + exists e. simpl. by rewrite lookup_insert_eq.
    + exists e'. rewrite lookup_insert_ne; [done|]. congruence.
  - intros (e' & He' & Hk). destruct (decide (id = k.2)) as [->|Hne].
    + rewrite lookup_insert_eq in He'. left. rewrite Hk. congruence.
    + rewrite lookup_insert_ne in He' by done. eauto.
Qed.
Lemma agree_insert_any timers heap id e :
  agree timers heap →
  agree (<[id := e]> timers)
    (heap_insert (key_of id e)
       match timers !! id with
       | Some old => heap_remove (key_of id old) heap
       | None => heap
       end).
Proof.
  intros Ha. destruct (timers !! id) as [old|] eqn:E; [|by apply agree_insert].
  rewrite <-insert_delete_eq. apply agree_insert; [by apply agree_delete|].
  apply lookup_delete_eq.
Qed.
Lemma agree_tail timers k heap :
  agree timers (k :: heap) →
  ∃ e, timers !! k.2 = Some e ∧ k = key_of k.2 e ∧ agree (delete k.2 timers) heap.
Proof.
  intros Ha. destruct (proj1 (proj2 Ha k)) as (e & He & Hk); [left|].
  exists e. split; [done|]. split; [done|].
  rewrite <-(heap_remove_head k heap). rewrite Hk at 2. by apply agree_delete.
Qed.

(** The counter holds the number of scheduled timers, modulo [2^64]. *)
Definition wf_worker (w : Worker) : Prop :=
  agree (scheduled_timers w) (timer_heap w) ∧
  scheduled_count w = wrap_u64 (Z.of_nat (size (scheduled_timers w))).

Lemma wrap_u64_add a b : wrap_u64 (wrap_u64 a + b) = wrap_u64 (a + b).
Proof. unfold wrap_u64. by rewrite Zplus_mod_idemp_l. Qed.
Lemma wrap_u64_sub a b : wrap_u64 (wrap_u64 a - b) = wrap_u64 (a - b).
Proof. unfold wrap_u64. by rewrite Zminus_mod_idemp_l. Qed.

Lemma wf_schedule w id e : wf_worker w → wf_worker (schedule_entry w id e).
Proof.
  intros [Ha Hc]. split; [by apply agree_insert_any|]. simpl. rewrite Hc.
  case_bool_decide as E.
  - rewrite map_size_insert_None, wrap_u64_add by done. f_equal. lia.
  - apply not_eq_None_Some in E as [o Ho]. by rewrite map_size_insert_Some.
Qed.
Lemma size_delete_Z {A} (m : gmap Z A) id x :
  m !! id = Some x → Z.of_nat (size (delete id m)) = (Z.of_nat (size m) - 1)%Z.
Proof.
  intros H. rewrite <-(insert_delete_id m id x) at 2 by done.
  rewrite map_size_insert_None by apply lookup_delete_eq. lia.
Qed.
Lemma wf_cancel w id : wf_worker w → wf_worker (cancel_entry w id).1.
Proof.
  intros [Ha Hc]. unfold cancel_entry. destruct (scheduled_timers w !! id) eqn:E; [|done].
  split; [by apply agree_delete|]. simpl.
  by rewrite Hc, wrap_u64_sub, (size_delete_Z _ _ _ E).
Qed.
Lemma wf_clear w : wf_worker w → wf_worker (clear_all w).
Proof.
  intros [Ha Hc]. split; [apply agree_empty|]. simpl.
  rewrite Hc, wrap_u64_sub, map_size_empty. f_equal. lia.
Qed.
Lemma wf_handle w c : wf_worker w → wf_worker (handle_timer_command w c).1.1.
Proof.
  intros Hw. destruct c; simpl; auto using wf_schedule, wf_cancel, wf_clear.
  pose proof (wf_cancel w timer_id Hw). by destruct (cancel_entry w timer_id).
Qed.

(** ** Lemmas: firing *)

(** The due prefix of the set, and what firing makes of a due timer. *)
Fixpoint due (now : Z) (heap : list heap_key) : list heap_key :=
  match heap with
  | k :: heap' => if bool_decide (k.1.1 ≤ now)%Z then k :: due now heap' else []
  | [] => []
  end.
Definition next_remaining (r : Z) : Z :=
  if bool_decide (r = U32_MAX) then U32_MAX else (r - 1)%Z.
Definition resched_of (timers : gmap Z TimerEntry) (k : heap_key) : option (Z * Z * Z * Z) :=
  match timers !! k.2 with
  | Some e => if bool_decide (remaining e > 1)%Z
              then Some (k.2, delay e, next_remaining (remaining e), k.1.2) else None
  | None => None
  end.
Definition todo_id (x : Z * Z * Z * Z) : Z := x.1.1.1.

Lemma due_filter now heap :
  heap_sorted heap → due now heap = filter (λ k, (k.1.1 ≤ now)%Z) heap.
Proof.
  induction 1 as [|k heap Hs IH Hall]; [done|]. simpl. rewrite filter_cons.
  repeat (case_bool_decide || case_decide); try done; [by rewrite IH|].
  symmetry.
  rewrite Forall_forall in Hall.
  assert (∀ y, y ∈ heap → ¬ (y.1.1 ≤ now)%Z) as Hn.
  { intros y Hy Hle. specialize (Hall y Hy).
    destruct k as [[? ?] ?], y as [[? ?] ?]. simpl in *. lia. }
  clear Hs IH Hall. induction heap as [|y heap IH]; [done|].
  rewrite filter_cons_False by (apply Hn; left). apply IH. intros; apply Hn; by right.
Qed.

Lemma elem_of_due now heap k : k ∈ due now heap → k ∈ heap.
Proof. induction heap as [|y heap IH]; simpl; [done|]. case_bool_decide; set_solver. Qed.

Lemma agree_tail_lookup timers k heap x :
  agree timers (k :: heap) → x ∈ heap → delete k.2 timers !! x.2 = timers !! x.2.
Proof.
  intros Ha Hx. apply agree_tail in Ha as (e & _ & _ & [_ Hm]).
  apply Hm in Hx as (e' & He' & _).
  destruct (decide (k.2 = x.2)) as [Heq|]; [|by rewrite lookup_delete_ne].
  by rewrite Heq, lookup_delete_eq in He'.
Qed.

Lemma omap_cons {A B} (f : A → option B) x l :
  omap f (x :: l) = match f x with Some y => y :: omap f l | None => omap f l end.
Proof. done. Qed.

(** The first loop in closed form. *)
Lemma pop_due_spec now heap acc :
  agree (acc_timers acc) heap →
  let heap' := (pop_due now heap acc).1 in
  let acc' := (pop_due now heap acc).2 in
  agree (acc_timers acc') heap' ∧
  fired_ids acc' = fired_ids acc ++ (due now heap).*2 ∧
  to_reschedule acc' = to_reschedule acc ++ omap (resched_of (acc_timers acc)) (due now heap) ∧
  (∀ id, acc_timers acc' !! id =
    if bool_decide (id ∈ (due now heap).*2) then None else acc_timers acc !! id) ∧
  (acc_count acc
     = wrap_u64 (Z.of_nat (size (acc_timers acc) + length (to_reschedule acc))) →
   acc_count acc'
     = wrap_u64 (Z.of_nat (size (acc_timers acc') + length (to_reschedule acc')))).
Proof.
  revert acc. induction heap as [|k heap IH]; intros acc Ha.
  { simpl. rewrite !app_nil_r. repeat split; try done; try apply Ha.
    all: intros; try by rewrite bool_decide_eq_false_2 by apply not_elem_of_nil. }
  pose proof (agree_tail _ _ _ Ha) as (e & He & Hk & Hd).
  assert (∀ x, x ∈ heap → delete k.2 (acc_timers acc) !! x.2 = acc_timers acc !! x.2) as Hl
    by (intros; by eapply agree_tail_lookup).
  destruct k as [[dl seq] id]. simpl in He, Hd, Hl. cbn [pop_due due fst snd].
  destruct (decide (dl ≤ now)%Z) as [Hle|Hgt].
  2:{ rewrite !bool_decide_eq_false_2 by done. simpl. rewrite !app_nil_r.
      repeat split; try done; try apply Ha. }
  rewrite !bool_decide_eq_true_2 by done. rewrite He.
  assert (omap (resched_of (delete id (acc_timers acc))) (due now heap) =
          omap (resched_of (acc_timers acc)) (due now heap)) as Hom.
  { apply omap_ext_in. intros x Hx. unfold resched_of. rewrite Hl; [done|].
    by apply elem_of_due in Hx. }
  assert (∀ i, (if bool_decide (i ∈ (due now heap).*2) then None
                else delete id (acc_timers acc) !! i) =
    (if bool_decide (i ∈ id :: (due now heap).*2)
     then None else acc_timers acc !! i)) as Hlk.
  { intros i. bd_case (i ∈ (due now heap).*2).
    - by rewrite bool_decide_eq_true_2 by (by right).
    - destruct (decide (i = id)) as [->|].
      + by rewrite lookup_delete_eq, bool_decide_eq_true_2 by left.
      + rewrite lookup_delete_ne, bool_decide_eq_false_2 by (done || set_solver). done. }
  assert (resched_of (acc_timers acc) (dl, seq, id) =
    if bool_decide (remaining e > 1)%Z
    then Some (id, delay e, next_remaining (remaining e), seq) else None) as Hres
    by (unfold resched_of; simpl; by rewrite He).
  pose proof (size_delete_Z _ _ _ He) as Hsize.
  case_bool_decide as Hrem.
  - edestruct (IH {| acc_timers := delete id (acc_timers acc); acc_count := acc_count acc;
        fired_ids := fired_ids acc ++ [id];
        to_reschedule := to_reschedule acc ++ [(id, delay e, next_remaining (remaining e), seq)] |})
      as (H1 & H2 & H3 & H4 & H5); [done|].
    cbn [acc_timers fired_ids to_reschedule acc_count] in *.
    fold (next_remaining (remaining e)).
    rewrite Hom in H3. rewrite <-!app_assoc in H2, H3.
    split; [done|]. split; [done|].
    split; [rewrite H3, omap_cons, Hres; done|].
    split; [intros i; rewrite H4; apply Hlk|].
    intros Hc. apply H5. rewrite Hc, length_app. simpl. f_equal. lia.
  - edestruct (IH {| acc_timers := delete id (acc_timers acc);
        acc_count := wrap_u64 (acc_count acc - 1);
        fired_ids := fired_ids acc ++ [id]; to_reschedule := to_reschedule acc |})
      as (H1 & H2 & H3 & H4 & H5); [done|].
    cbn [acc_timers fired_ids to_reschedule acc_count] in *.
    rewrite Hom in H3. rewrite <-!app_assoc in H2.
    split; [done|]. split; [done|].
    split; [rewrite H3, omap_cons, Hres; done|].
    split; [intros i; rewrite H4; apply Hlk|].
    intros Hc. apply H5. rewrite Hc, wrap_u64_sub. f_equal. lia.
Qed.

(** The second loop. *)
Lemma reschedule_spec clock todo timers heap :
  agree timers heap → NoDup (todo_id <$> todo) →
  (∀ id, id ∈ (todo_id <$> todo) → timers !! id = None) →
  let timers' := (reschedule clock todo timers heap).1 in
  let heap' := (reschedule clock todo timers heap).2 in
  agree timers' heap' ∧
  size timers' = size timers + length todo ∧
  (∀ id, id ∉ (todo_id <$> todo) → timers' !! id = timers !! id) ∧
  (∀ i id dly rem seq, todo !! i = Some (id, dly, rem, seq) →
    timers' !! id = Some {| deadline := (clock i + dly)%Z; delay := dly;
                            remaining := rem; sequence := seq |}).
Proof.
  revert clock timers heap.
  induction todo as [|[[[id dly] rem] seq] todo IH]; intros clock timers heap Ha Hnd Hfresh.
  { simpl. repeat split; try apply Ha; try done; lia. }
  apply NoDup_cons in Hnd as [Hnin Hnd]. simpl in Hnin.
  set (e := {| deadline := (clock 0%nat + dly)%Z; delay := dly; remaining := rem;
               sequence := seq |}).
  assert (timers !! id = None) as Hid by (apply Hfresh; left).
  edestruct (IH (λ i, clock (S i)) (<[id := e]> timers)
    (heap_insert (key_of id e) heap)) as (H1 & H2 & H3 & H4).
  - by apply agree_insert.
  - done.
  - intros id' Hin. rewrite lookup_insert_ne by (by intros ->).
    apply Hfresh. by right.
  - cbn [reschedule]. unfold key_of in *. simpl in *.
    split; [done|]. split; [etrans; [apply H2|]; rewrite map_size_insert_None by done; lia|].
    split.
    + intros id' Hn. rewrite not_elem_of_cons in Hn. destruct Hn as [Hne Hn].
      unfold todo_id in Hne. simpl in Hne.
      etrans; [by apply H3|]. by rewrite lookup_insert_ne.
    + intros [|i] id' dly' rem' seq' Hl; simpl in Hl; simplify_eq; [|by eapply H4].
      etrans; [by apply H3|]. by rewrite lookup_insert_eq.
Qed.

Lemma agree_ids_NoDup timers heap : agree timers heap → NoDup (heap.*2).
Proof.
  revert timers. induction heap as [|k heap IH]; intros timers Ha; [constructor|].
  destruct (agree_tail _ _ _ Ha) as (e & He & Hk & Hd). simpl. constructor; [|eauto].
  rewrite list_elem_of_fmap. intros (x & Hx & Hin).
  apply Hd in Hin as (e' & He' & _). by rewrite <-Hx, lookup_delete_eq in He'.
Qed.
Lemma due_sublist now heap : due now heap `sublist_of` heap.
Proof.
  induction heap as [|k heap IH]; simpl; [done|].
  case_bool_decide; [by constructor|apply sublist_nil_l].
Qed.
Lemma resched_ids timers l :
  todo_id <$> omap (resched_of timers) l = (filter (λ k, is_Some (resched_of timers k)) l).*2.
Proof.
  induction l as [|k l IH]; [done|]. rewrite omap_cons, filter_cons.
  destruct (resched_of timers k) as [y|] eqn:E; case_decide as H;
    [|by destruct H|by destruct H|done].
  rewrite !fmap_cons, IH. f_equal. unfold resched_of in E.
  repeat (case_match; simplify_eq/=); done.
Qed.

(** Firing in closed form: which ids come out, and what becomes of each timer. *)
Definition after_fire (now : Z) (e : TimerEntry) (next : option Z) : option TimerEntry :=
  if bool_decide (deadline e ≤ now)%Z then
    match next with
    | Some dl => Some {| deadline := dl; delay := delay e;
                         remaining := next_remaining (remaining e); sequence := sequence e |}
    | None => None
    end
  else Some e.

Definition todo_of (now : Z) (w : Worker) : list (Z * Z * Z * Z) :=
  omap (resched_of (scheduled_timers w)) (due now (timer_heap w)).

Lemma todo_of_ids now w id :
  id ∈ todo_id <$> todo_of now w → id ∈ (due now (timer_heap w)).*2.
Proof.
  unfold todo_of. rewrite resched_ids, !list_elem_of_fmap.
  intros (k & -> & [_ Hk]%list_elem_of_filter). eauto.
Qed.
Lemma todo_of_NoDup now w : wf_worker w → NoDup (todo_id <$> todo_of now w).
Proof.
  intros [Ha _]. unfold todo_of. rewrite resched_ids.
  eapply sublist_NoDup; [apply (agree_ids_NoDup _ _ Ha)|].
  etrans; [apply fmap_sublist, sublist_filter|]. apply fmap_sublist, due_sublist.
Qed.

Lemma fire_due_parts now clock w :
  wf_worker w →
  let w' := (fire_due_timers now clock w).1 in
  wf_worker w' ∧
  (fire_due_timers now clock w).2 = (due now (timer_heap w)).*2 ∧
  (∀ id, id ∉ todo_id <$> todo_of now w → scheduled_timers w' !! id =
    if bool_decide (id ∈ (due now (timer_heap w)).*2) then None
    else scheduled_timers w !! id) ∧
  (∀ i id dly rem seq, todo_of now w !! i = Some (id, dly, rem, seq) →
    scheduled_timers w' !! id = Some {| deadline := (clock i + dly)%Z; delay := dly;
                                        remaining := rem; sequence := seq |}).
Proof.
  intros Hw. pose proof Hw as [Ha Hc].
  destruct (pop_due_spec now (timer_heap w)
    {| acc_timers := scheduled_timers w; acc_count := scheduled_count w;
       fired_ids := []; to_reschedule := [] |} Ha) as (P1 & P2 & P3 & P4 & P5).
  unfold fire_due_timers. destruct (pop_due now (timer_heap w) _) as [heap acc].
  cbn [fst snd acc_timers fired_ids to_reschedule acc_count app] in *.
  fold (todo_of now w) in P3. rewrite P3 in *.
  destruct (reschedule_spec clock (todo_of now w) (acc_timers acc) heap P1
    (todo_of_NoDup now w Hw)) as (R1 & R2 & R3 & R4).
  { intros id Hid%todo_of_ids. by rewrite P4, bool_decide_eq_true_2. }
  destruct (reschedule clock (todo_of now w) (acc_timers acc) heap) as [timers heap'].
  cbn [fst snd] in *. rewrite P2.
  assert (acc_count acc = wrap_u64 (Z.of_nat (size timers))) as Hct.
  { rewrite R2. apply P5. rewrite Hc. f_equal. simpl. lia. }
  repeat case_match; (split; [by split|]; split; [done|]; split; [|done]);
    intros id Hid; simpl; rewrite R3; auto.
Qed.

Lemma mem_due now w id e :
  wf_worker w → scheduled_timers w !! id = Some e →
  id ∈ (due now (timer_heap w)).*2 ↔ (deadline e ≤ now)%Z.
Proof.
  intros [Ha _] E. rewrite list_elem_of_fmap, due_filter by apply Ha.
  setoid_rewrite list_elem_of_filter. split.
  - intros (k & -> & Hle & Hin). apply Ha in Hin as (e' & He' & Hk').
    rewrite Hk' in Hle. simpl in Hle. congruence.
  - intros Hle. exists (key_of id e). repeat split; [done|]. apply Ha. eauto.
Qed.
Lemma mem_due_None now w id :
  wf_worker w → scheduled_timers w !! id = None → id ∉ (due now (timer_heap w)).*2.
Proof.
  intros [Ha _] E. rewrite list_elem_of_fmap. intros (k & -> & Hk%elem_of_due).
  apply Ha in Hk as (e & He & _). congruence.
Qed.
Lemma mem_todo now w id e :
  wf_worker w → scheduled_timers w !! id = Some e →
  (id ∈ todo_id <$> todo_of now w ↔ (deadline e ≤ now ∧ remaining e > 1)%Z) ∧
  ((deadline e ≤ now ∧ remaining e > 1)%Z → ∃ i, todo_of now w !! i =
     Some (id, delay e, next_remaining (remaining e), sequence e)).
Proof.
  intros Hw E.
  assert (resched_of (scheduled_timers w) (key_of id e) =
    if bool_decide (remaining e > 1)%Z
    then Some (id, delay e, next_remaining (remaining e), sequence e) else None) as Hres
    by (unfold resched_of; simpl; by rewrite E).
  assert ((deadline e ≤ now ∧ remaining e > 1)%Z → ∃ i, todo_of now w !! i =
     Some (id, delay e, next_remaining (remaining e), sequence e)) as Hi.
  { intros [Hle Hr]. apply list_elem_of_lookup, list_elem_of_omap.
    exists (key_of id e). rewrite bool_decide_eq_true_2 in Hres by done.
    split; [|done]. rewrite due_filter by apply Hw. apply list_elem_of_filter.
    split; [done|]. apply Hw. eauto. }
  split; [|done]. split.
  - intros Hin. split; [by eapply mem_due; [..|apply todo_of_ids]|].
    unfold todo_of in Hin. rewrite resched_ids, list_elem_of_fmap in Hin.
    destruct Hin as (k & -> & [Hs Hk]%list_elem_of_filter).
    apply elem_of_due, Hw in Hk as (e' & He' & Hk).
    rewrite E in He'. simplify_eq. rewrite Hk, Hres in Hs.
    case_bool_decide; [done|by destruct Hs].
  - intros [i Hl]%Hi. apply list_elem_of_fmap. eexists. split; [|by eapply list_elem_of_lookup_2].
    done.
Qed.

Lemma fire_due_lookup now clock w id :
  wf_worker w →
  let w' := (fire_due_timers now clock w).1 in
  let ids := (fire_due_timers now clock w).2 in
  match scheduled_timers w !! id with
  | None => scheduled_timers w' !! id = None ∧ id ∉ ids
  | Some e =>
      (id ∈ ids ↔ (deadline e ≤ now)%Z) ∧
      ∃ i, scheduled_timers w' !! id =
        after_fire now e
          (if bool_decide (remaining e > 1)%Z then Some (clock i + delay e)%Z else None)
  end.
Proof.
  intros Hw. destruct (fire_due_parts now clock w Hw) as (_ & -> & Hout & Hin).
  destruct (scheduled_timers w !! id) as [e|] eqn:E; cycle 1.
  { pose proof (mem_due_None now w id Hw E). split; [|done].
    rewrite Hout by (by intros ?%todo_of_ids). rewrite E. by case_match. }
  pose proof (mem_due now w id e Hw E) as Hdue. split; [done|].
  destruct (mem_todo now w id e Hw E) as [Hm Hi]. unfold after_fire.
  destruct (decide (deadline e ≤ now ∧ remaining e > 1)%Z) as [[Hle Hr]|Hn].
  - destruct Hi as [i Hi]; [done|]. exists i. apply Hin in Hi as ->.
    by rewrite !bool_decide_eq_true_2.
  - exists 0. rewrite Hout by (by rewrite Hm). rewrite E.
    rewrite (bool_decide_ext _ _ Hdue).
    repeat case_bool_decide; try done. by destruct Hn.
Qed.

(** ** Lemmas: runs of the manager *)

Lemma wf_fire now clock w : wf_worker w → wf_worker (fire_due_timers now clock w).1.
Proof. intros Hw. apply (fire_due_parts now clock w Hw). Qed.
Lemma wf_wake w : wf_worker w → wf_worker (wake w).
Proof. done. Qed.
#[export] Hint Resolve wf_handle wf_fire wf_wake : amber.

(** The invariant of the shared state. *)
Definition wf_manager (m : Manager) : Prop :=
  wf_worker (worker m) ∧ length (cmd_queue m) ≤ channel_capacity m ∧
  (phase m = Stopped → cmd_queue m = []).

Lemma try_send_cases m c :
  try_send m c = (m, Err ChannelClosed) ∧ phase m = Stopped ∨
  try_send m c = (m, Err QueueFull) ∧ channel_capacity m ≤ length (cmd_queue m) ∨
  try_send m c = (with_queue m (cmd_queue m ++ [c]), Ok tt) ∧ phase m ≠ Stopped ∧
    length (cmd_queue m) < channel_capacity m.
Proof. unfold try_send. repeat case_bool_decide; auto with lia. Qed.
Lemma try_send_schedule_cases m c :
  (try_send_schedule_command m c).1 = m ∧
    is_ok (try_send_schedule_command m c).2 = false ∨
  try_send_schedule_command m c = try_send m c.
Proof. unfold try_send_schedule_command. case_bool_decide; auto. Qed.

Lemma wf_try_send m c : wf_manager m → wf_manager (try_send m c).1.
Proof.
  intros (Hw & Hl & Hs).
  destruct (try_send_cases m c) as [[-> _]|[[-> _]|(-> & Hp & Hlt)]]; [done|done|].
  split; [done|]. split; [|done]. simpl. rewrite length_app. simpl.
  unfold channel_capacity in *. simpl. lia.
Qed.
Lemma wf_try_send_schedule m c :
  wf_manager m → wf_manager (try_send_schedule_command m c).1.
Proof.
  intros Hm. destruct (try_send_schedule_cases m c) as [[-> _]| ->]; auto using wf_try_send.
Qed.
Lemma wf_receive m c q :
  wf_manager m → cmd_queue m = c :: q → wf_manager (receive m c q).
Proof.
  intros (Hw & Hl & _) E. unfold receive.
  pose proof (wf_handle (worker m) c Hw) as Hh.
  destruct (handle_timer_command (worker m) c) as [[w ack] go_on].
  split; [done|]. unfold channel_capacity in *. rewrite E in Hl. simpl in *.
  destruct go_on; simpl; split; try done; lia.
Qed.
Lemma wf_fire_manager m now clock :
  wf_manager m → wf_manager (fire m now clock).
Proof.
  intros (Hw & Hl & Hs). unfold fire. pose proof (wf_fire now clock (worker m) Hw).
  by destruct (fire_due_timers now clock (worker m)).
Qed.
#[export] Hint Resolve wf_try_send wf_try_send_schedule wf_receive wf_fire_manager : amber.

Lemma wf_mgr_step l m m' : mgr_step l m m' → wf_manager m → wf_manager m'.
Proof.
  intros Hs Hm. destruct Hs as [| | | | | | | | | | | |m m' Hs];
    unfold try_schedule_timeout, try_schedule_interval, try_cancel, cancel_with_ack_send,
      shutdown_with_ack_send; cases; eauto with amber.
  all: try by first [apply (wf_try_send m Clear) | apply (wf_try_send m ClearWithAck)
    | apply (wf_try_send m Shutdown)].
  destruct Hs; eauto with amber. by destruct Hm as (? & ? & ?).
Qed.
Lemma wf_mgr_run ls m m' : mgr_run ls m m' → wf_manager m → wf_manager m'.
Proof. induction 1; eauto using wf_mgr_step. Qed.
Lemma wf_manager_init n : wf_manager (new_with_command_queue_size n).
Proof. split; [split; [apply agree_empty|done]|]. split; simpl; [lia|done]. Qed.

(** ** Properties *)

(** In every state the main thread and the worker can reach together, from a
    manager of any queue size and under any interleaving, the worker's map and
    its ordered set of deadlines hold exactly the same timers, the set is in
    order, the command channel holds at most [max 1] commands, and the shared
    counter is the number of scheduled timers (so, below [2^64] timers,
    [has_scheduled_timers] answers whether one exists). *)
Theorem timer_bookkeeping n ls m :
  mgr_run ls (new_with_command_queue_size n) m →
  agree (scheduled_timers (worker m)) (timer_heap (worker m)) ∧
  length (cmd_queue m) ≤ max n 1 ∧
  scheduled_count (worker m) = wrap_u64 (Z.of_nat (size (scheduled_timers (worker m)))) ∧
  ((Z.of_nat (size (scheduled_timers (worker m))) < U64_MOD)%Z →
     (has_scheduled_timers m = true ↔ scheduled_timers (worker m) ≠ ∅)).
Proof.
  intros Hr. pose proof (wf_mgr_run _ _ _ Hr (wf_manager_init n)) as ([Ha Hc] & Hl & _).
  assert (command_queue_size m = n) as Hn.
  { clear -Hr. remember (new_with_command_queue_size n) as m0 eqn:E.
    assert (command_queue_size m0 = n) as H by by subst. clear E.
    revert H. induction Hr as [|l ls m1 m2 m3 Hs Hr IH]; [done|]. intros H. apply IH.
    clear IH Hr. destruct Hs as [| | | | | | | | | | | |m m' Hs]; try done;
      unfold try_schedule_timeout, try_schedule_interval, try_cancel, cancel_with_ack_send,
        shutdown_with_ack_send, clear, clear_with_ack_send, shutdown, try_send_schedule_command, try_send;
      try by cases.
    destruct Hs; try done; unfold receive, fire; cases. }
  unfold channel_capacity in Hl. rewrite Hn in Hl.
  split; [done|]. split; [done|]. split; [done|]. intros Hlt. split.
  - unfold has_scheduled_timers. rewrite Hc, bool_decide_eq_true. intros Hp Hz.
    rewrite Hz, map_size_empty in Hp. done.
  - intros Hz. unfold has_scheduled_timers. rewrite Hc, bool_decide_eq_true.
    rewrite wrap_u64_id by (split; lia).
    assert (size (scheduled_timers (worker m)) ≠ 0) by (by intros ?%map_size_empty_inv). lia.
Qed.

Lemma StronglySorted_lookup {A} (R : A → A → Prop) l i j x y :
  StronglySorted R l → i < j → l !! i = Some x → l !! j = Some y → R x y.
Proof.
  intros Hs. revert i j. induction Hs as [|a l Hs IH Hall]; [done|].
  intros [|i] [|j] Hij Hi Hj; simpl in *; try lia; simplify_eq.
  - rewrite Forall_forall in Hall. apply Hall. by eapply list_elem_of_lookup_2.
  - apply (IH i j); [lia|done|done].
Qed.
Lemma StronglySorted_filter {A} (R : A → A → Prop) (P : A → Prop) `{∀ x, Decision (P x)} l :
  StronglySorted R l → StronglySorted R (filter P l).
Proof.
  induction 1 as [|a l Hs IH Hall]; [constructor|]. rewrite filter_cons.
  case_decide; [|done]. constructor; [done|]. rewrite Forall_forall in *.
  intros x [_ Hx]%list_elem_of_filter; auto.
Qed.
Lemma fired_NoDup now clock w : wf_worker w → NoDup (fire_due_timers now clock w).2.
Proof.
  intros Hw. destruct (fire_due_parts now clock w Hw) as (_ & -> & _).
  eapply sublist_NoDup; [apply (agree_ids_NoDup _ _ (proj1 Hw))|].
  apply fmap_sublist, due_sublist.
Qed.
Lemma fired_iff now clock w id :
  wf_worker w → id ∈ (fire_due_timers now clock w).2 ↔
    ∃ e, scheduled_timers w !! id = Some e ∧ (deadline e ≤ now)%Z.
Proof.
  intros Hw. pose proof (fire_due_lookup now clock w id Hw) as H. simpl in H.
  destruct (scheduled_timers w !! id) as [e|].
  - destruct H as [-> _]. naive_solver.
  - destruct H as [_ H]. naive_solver.
Qed.

(** One firing emits every timer whose deadline has passed, each once, and no
    other, in order of deadline; timers with the same deadline come out in the
    order in which they were scheduled. *)
Theorem fires_in_deadline_order now clock w :
  wf_worker w →
  let ids := (fire_due_timers now clock w).2 in
  NoDup ids ∧
  (∀ id, id ∈ ids ↔ ∃ e, scheduled_timers w !! id = Some e ∧ (deadline e ≤ now)%Z) ∧
  (∀ i j a b ea eb, i < j → ids !! i = Some a → ids !! j = Some b →
     scheduled_timers w !! a = Some ea → scheduled_timers w !! b = Some eb →
     (deadline ea < deadline eb ∨ deadline ea = deadline eb ∧ sequence ea ≤ sequence eb)%Z).
Proof.
  intros Hw. split; [by apply fired_NoDup|]. split; [intros; by apply fired_iff|].
  intros i j a b ea eb Hij Hi Hj Ha Hb.
  destruct (fire_due_parts now clock w Hw) as (_ & Hids & _). rewrite Hids in Hi, Hj.
  rewrite due_filter in Hi, Hj by apply Hw.
  apply list_lookup_fmap_Some in Hi as (ka & -> & Hka), Hj as (kb & -> & Hkb).
  pose proof (StronglySorted_lookup _ _ _ _ _ _
    (StronglySorted_filter _ _ _ (proj1 (proj1 Hw))) Hij Hka Hkb) as Hlt.
  apply list_elem_of_lookup_2, list_elem_of_filter in Hka as [_ Hka], Hkb as [_ Hkb].
  apply Hw in Hka as (ea' & Ha' & Hka), Hkb as (eb' & Hb' & Hkb).
  rewrite Ha in Ha'. rewrite Hb in Hb'. simplify_eq. rewrite Hka, Hkb in Hlt.
  simpl in Hlt. lia.
Qed.

(** Firing calls one after the other, and what they emit. *)
Fixpoint fire_rounds (rounds : list (Z * (nat → Z))) (w : Worker) : Worker * list Z :=
  match rounds with
  | [] => (w, [])
  | (now, clock) :: rounds' =>
      let '(w1, ids) := fire_due_timers now clock w in
      let '(w2, ids') := fire_rounds rounds' w1 in (w2, ids ++ ids')
  end.
Definition occurrences (id : Z) (ids : list Z) : Z :=
  Z.of_nat (length (filter (λ x, x = id) ids)).
(** Firings a timer has left. *)
Definition firings_left (id : Z) (w : Worker) : Z :=
  match scheduled_timers w !! id with Some e => remaining e | None => 0 end.

Lemma occurrences_app id l l' : occurrences id (l ++ l') = (occurrences id l + occurrences id l')%Z.
Proof. unfold occurrences. rewrite filter_app, length_app. lia. Qed.
Lemma occurrences_None id l : id ∉ l → occurrences id l = 0%Z.
Proof.
  unfold occurrences. induction l as [|x l IH]; [done|].
  rewrite not_elem_of_cons. intros [? ?].
  rewrite filter_cons_False by (by intros ->). auto.
Qed.
Lemma occurrences_NoDup id l : NoDup l → id ∈ l → occurrences id l = 1%Z.
Proof.
  induction 1 as [|x l Hx Hnd IH]; [by intros ?%not_elem_of_nil|].
  intros [->|Hin]%elem_of_cons; unfold occurrences in *; rewrite filter_cons.
  - rewrite decide_True by done. simpl.
    pose proof (occurrences_None x l Hx) as H. unfold occurrences in H. lia.
  - rewrite decide_False by (by intros ->). auto.
Qed.

Lemma fire_round_left now clock w id :
  wf_worker w → (0 ≤ firings_left id w < U32_MAX)%Z →
  (∀ e, scheduled_timers w !! id = Some e → 1 ≤ remaining e)%Z →
  let '(w', ids) := fire_due_timers now clock w in
  (occurrences id ids + firings_left id w' = firings_left id w)%Z ∧
  (∀ e, scheduled_timers w' !! id = Some e → 1 ≤ remaining e)%Z.
Proof.
  intros Hw Hr H1. pose proof (fire_due_lookup now clock w id Hw) as H.
  pose proof (fired_NoDup now clock w Hw) as Hnd.
  destruct (fire_due_timers now clock w) as [w' ids]. unfold firings_left in *. simpl in *.
  destruct (scheduled_timers w !! id) as [e|]; cycle 1.
  { destruct H as [-> Hn]. rewrite occurrences_None by done. done. }
  destruct H as [Hin (i & ->)]. specialize (H1 e eq_refl). unfold after_fire, next_remaining.
  bd_case (deadline e ≤ now)%Z.
  - rewrite occurrences_NoDup by (by rewrite ?Hin).
    rewrite (bool_decide_eq_false_2 (remaining e = U32_MAX)) by lia.
    case_bool_decide; simpl; (split; [lia|]); intros e' He'; simplify_eq/=; lia.
  - rewrite occurrences_None by (by rewrite Hin). split; [lia|].
    intros e' He'. by simplify_eq.
Qed.

(** A timer scheduled for [n] firings fires exactly [n] times, then is gone:
    over any number of firing calls at any times, the firings emitted and the
    firings left add up to [n].  A timer scheduled with [u32::MAX] (an endless
    interval) is still there with the same delay after any number of them. *)
Theorem interval_fires_exactly rounds w id e :
  wf_worker w → scheduled_timers w !! id = Some e → (1 ≤ remaining e)%Z →
  let '(w', ids) := fire_rounds rounds w in
  ((remaining e < U32_MAX)%Z →
     (occurrences id ids + firings_left id w' = remaining e)%Z) ∧
  (remaining e = U32_MAX →
     ∃ e', scheduled_timers w' !! id = Some e' ∧ remaining e' = U32_MAX ∧
           delay e' = delay e ∧ sequence e' = sequence e).
Proof.
  intros Hw He H1. destruct (fire_rounds rounds w) as [w' ids] eqn:E. split.
  - intros Hlt.
    assert (firings_left id w = remaining e) as Hl by (unfold firings_left; by rewrite He).
    rewrite <-Hl. rewrite <-Hl in H1, Hlt.
    assert (∀ e, scheduled_timers w !! id = Some e → 1 ≤ remaining e)%Z as Hp
      by (intros e' He'; unfold firings_left in H1; rewrite He' in H1; done).
    assert (0 ≤ firings_left id w < U32_MAX)%Z as Hr by lia.
    clear He H1 Hlt Hl e. revert w w' ids E Hw Hp Hr.
    induction rounds as [|[now clock] rounds IH]; intros w w' ids E Hw Hp Hr; simpl in E.
    { simplify_eq. done. }
    pose proof (fire_round_left now clock w id Hw Hr Hp) as Hf.
    pose proof (wf_fire now clock w Hw) as Hw1.
    destruct (fire_due_timers now clock w) as [w1 ids1].
    destruct (fire_rounds rounds w1) as [w2 ids2] eqn:E2. simplify_eq.
    destruct Hf as [Hf Hp1]. rewrite occurrences_app.
    specialize (IH _ _ _ E2 Hw1 Hp1). assert (0 ≤ firings_left id w1)%Z.
    { unfold firings_left. destruct (scheduled_timers w1 !! id) as [e|]; [|done].
      specialize (Hp1 e eq_refl). lia. }
    assert (0 ≤ occurrences id ids1)%Z by (unfold occurrences; lia).
    rewrite <-Hf, <-IH by lia. lia.
  - intros Hmax. clear H1. revert w w' ids e E Hw He Hmax.
    induction rounds as [|[now clock] rounds IH]; intros w w' ids e E Hw He Hmax; simpl in E.
    { simplify_eq. eauto. }
    pose proof (fire_due_lookup now clock w id Hw) as Hf. rewrite He in Hf.
    pose proof (wf_fire now clock w Hw) as Hw1.
    destruct (fire_due_timers now clock w) as [w1 ids1].
    destruct (fire_rounds rounds w1) as [w2 ids2] eqn:E2. simplify_eq.
    destruct Hf as [_ [i Hf]]. unfold after_fire, next_remaining in Hf. rewrite Hmax in Hf.
    rewrite !(bool_decide_eq_true_2 (_ = _)), (bool_decide_eq_true_2 (_ > 1)%Z) in Hf by done.
    simpl in Hf. case_bool_decide; (edestruct IH as (e' & ? & ? & Hd & Hq);
      [done|done|exact Hf|done|]); exists e'; rewrite Hd, Hq; auto.
Qed.

(** ** Lemmas: a cancelled timer *)

Section cancelled.
Variable id : Z.

(** The command schedules [id]; the main thread asks for [id] again. *)
Definition schedules (c : TimerCommand) : bool :=
  match c with
  | ScheduleTimeout i _ _ _ | ScheduleInterval i _ _ _ _ => bool_decide (i = id)
  | _ => false
  end.
Definition revives (op : main_op) : bool :=
  match op with
  | MTimeout _ _ i | MInterval _ _ _ i | MMark i => bool_decide (i = id)
  | _ => false
  end.
Definition none_schedule (q : list TimerCommand) : Prop := Forall (λ c, schedules c = false) q.
(** The worker does not know [id] and nothing on its way brings it back. *)
Definition quiet (m : Manager) : Prop :=
  scheduled_timers (worker m) !! id = None ∧ none_schedule (cmd_queue m).
(** A [Cancel] of [id] is on its way, and no command after it brings it back. *)
Definition cancelling (m : Manager) : Prop :=
  ∃ q1 q2, cmd_queue m = q1 ++ Cancel id :: q2 ∧ none_schedule q2.

Lemma handle_other w c :
  schedules c = false → scheduled_timers w !! id = None →
  scheduled_timers (handle_timer_command w c).1.1 !! id = None.
Proof.
  intros Hs Hw. destruct c; simpl in *; try done;
    try (apply bool_decide_eq_false in Hs; by rewrite lookup_insert_ne);
    unfold cancel_entry; repeat case_match; simplify_eq/=; try done;
    apply lookup_delete_None; auto.
Qed.
Lemma handle_cancel w : scheduled_timers (handle_timer_command w (Cancel id)).1.1 !! id = None.
Proof. simpl. unfold cancel_entry. case_match; [apply lookup_delete_eq|done]. Qed.

Lemma try_send_queue m c :
  worker (try_send m c).1 = worker m ∧ fired_timers (try_send m c).1 = fired_timers m ∧
  (cmd_queue (try_send m c).1 = cmd_queue m ∨ cmd_queue (try_send m c).1 = cmd_queue m ++ [c]).
Proof. unfold try_send. repeat case_bool_decide; simpl; auto. Qed.
Lemma try_send_schedule_queue m c :
  let m' := (try_send_schedule_command m c).1 in
  worker m' = worker m ∧ fired_timers m' = fired_timers m ∧
  (cmd_queue m' = cmd_queue m ∨ cmd_queue m' = cmd_queue m ++ [c]).
Proof.
  unfold try_send_schedule_command. case_bool_decide; simpl; [auto|apply try_send_queue].
Qed.

(** What a step of the main thread may do to the worker's input and output. *)
Lemma main_step_effect l m m' :
  mgr_step l m m' → l ≠ MWorker → revives l = false →
  scheduled_timers (worker m') = scheduled_timers (worker m) ∧
  (id ∈ fired_timers m' → id ∈ fired_timers m) ∧
  (cmd_queue m' = cmd_queue m ∨
   ∃ c, cmd_queue m' = cmd_queue m ++ [c] ∧ schedules c = false).
Proof.
  intros Hs Hl Hr.
  assert (∀ m c, schedules c = false →
    let m' := (try_send_schedule_command m c).1 in
    scheduled_timers (worker m') = scheduled_timers (worker m) ∧
    (id ∈ fired_timers m' → id ∈ fired_timers m) ∧
    (cmd_queue m' = cmd_queue m ∨
     ∃ c, cmd_queue m' = cmd_queue m ++ [c] ∧ schedules c = false)) as Hsend.
  { intros m0 c Hc. cbv zeta. destruct (try_send_schedule_queue m0 c) as (-> & -> & [->| ->]); eauto 6. }
  assert (∀ m c, schedules c = false →
    cmd_queue (try_send m c).1 = cmd_queue m ∨
    ∃ c', cmd_queue (try_send m c).1 = cmd_queue m ++ [c'] ∧ schedules c' = false) as Htry.
  { intros m0 c Hc. destruct (try_send_queue m0 c) as (_ & _ & [->| ->]); eauto. }
  destruct Hs; simpl in Hr; try done;
    unfold try_schedule_timeout, try_schedule_interval, try_cancel, cancel_with_ack_send,
      clear, clear_with_ack_send, shutdown, shutdown_with_ack_send;
    try match goal with
        | |- context [if bool_decide (?i = 0%Z) then _ else _] =>
            destruct (bool_decide (i = 0%Z)); [by eauto|]
        end;
    try (by apply (Hsend (with_sequence m _))); try (by apply Hsend); simpl; eauto.
  - apply bool_decide_eq_false in Hr. split; [done|]. split; [|auto].
    rewrite elem_of_app, list_elem_of_singleton. naive_solver.
  - rewrite (proj1 (try_send_queue m Clear)). repeat split; auto. by intros ?%not_elem_of_nil.
  - split; [done|]. split; [by intros ?%not_elem_of_nil|auto].
  - split; [done|]. split; [by intros ?%not_elem_of_nil|auto].
  - rewrite (proj1 (try_send_queue m ClearWithAck)).
    repeat split; auto. by intros ?%not_elem_of_nil.
  - destruct (try_send_queue m Shutdown) as (-> & -> & _). auto.
  - destruct (try_send_queue m ShutdownWithAck) as (-> & -> & _). auto.
Qed.

Lemma none_schedule_snoc q c : none_schedule q → schedules c = false → none_schedule (q ++ [c]).
Proof. intros. apply Forall_app. split; [done|]. by constructor. Qed.

Lemma receive_effect m c q :
  let m' := receive m c q in
  worker m' = (handle_timer_command (worker m) c).1.1 ∧
  fired_timers m' = fired_timers m ∧
  (cmd_queue m' = q ∨ cmd_queue m' = [] ∧ scheduled_timers (worker m') = ∅).
Proof.
  unfold receive. destruct c; simpl; try destruct (cancel_entry _ _); simpl; auto.
Qed.
Lemma fire_quiet m now clock :
  wf_manager m → scheduled_timers (worker m) !! id = None →
  let m' := fire m now clock in
  scheduled_timers (worker m') !! id = None ∧
  (id ∈ fired_timers m' → id ∈ fired_timers m) ∧ cmd_queue m' = cmd_queue m.
Proof.
  intros Hm Hn. pose proof (fire_due_lookup now clock (worker m) id (proj1 Hm)) as H.
  rewrite Hn in H. unfold fire. destruct (fire_due_timers now clock (worker m)).
  destruct H as [H1 H2]. simpl in *. split; [done|]. split; [|done].
  rewrite elem_of_app. naive_solver.
Qed.

Lemma quiet_step l m m' :
  wf_manager m → mgr_step l m m' → revives l = false → quiet m →
  quiet m' ∧ (id ∈ fired_timers m' → id ∈ fired_timers m).
Proof.
  intros Hm Hs Hr [Hn Hq]. destruct (decide (l = MWorker)) as [->|Hl].
  - inversion Hs as [| | | | | | | | | | | |m1 m2 Hw E1 E2 E3]. subst. unfold quiet.
    destruct Hw as [m now clock k heap|m c q Hp E|m].
    + destruct (fire_quiet m now clock Hm Hn) as (-> & Hf & ->). auto.
    + destruct (receive_effect m c q) as (-> & -> & Hq'). rewrite E in Hq.
      apply Forall_cons in Hq as [Hc Hq]. split; [|done]. split; [by apply handle_other|].
      destruct Hq' as [-> |[-> _]]; [done|constructor].
    + done.
  - destruct (main_step_effect l m m' Hs Hl Hr) as (Ht & Hf & Hc).
    split; [|done]. split; [by rewrite Ht|].
    destruct Hc as [-> |(c & -> & Hc)]; [done|by apply none_schedule_snoc].
Qed.
Lemma quiet_run ls m m' :
  wf_manager m → mgr_run ls m m' → Forall (λ l, revives l = false) ls → quiet m →
  quiet m' ∧ (id ∈ fired_timers m' → id ∈ fired_timers m).
Proof.
  intros Hm Hr. induction Hr as [|l ls m1 m2 m3 Hs Hr IH]; [by auto|].
  intros [Hl Hls]%Forall_cons Hq.
  destruct (quiet_step l m1 m2 Hm Hs Hl Hq) as [Hq2 Hf].
  destruct IH; eauto using wf_mgr_step.
Qed.

Lemma cancelling_step l m m' :
  wf_manager m → mgr_step l m m' → revives l = false → cancelling m →
  cancelling m' ∨ quiet m'.
Proof.
  intros Hm Hs Hr (q1 & q2 & Hq & Hn). destruct (decide (l = MWorker)) as [->|Hl].
  - inversion Hs as [| | | | | | | | | | | |m1 m2 Hw E1 E2 E3]. subst.
    destruct Hw as [m now clock k heap|m c q Hp E|m].
    + left. exists q1, q2. split; [|done]. unfold fire. by case_match.
    + pose proof (receive_effect m c q) as (Hw & _ & Hq'). cbv zeta in *. rewrite E in Hq.
      destruct Hq' as [Hq'|[Hq' He]].
      * destruct q1 as [|c1 q1]; injection Hq as -> ->.
        -- right. split; [|by rewrite Hq']. rewrite Hw. apply handle_cancel.
        -- left. by exists q1, q2.
      * right. unfold quiet. rewrite He, Hq'. by split; [|constructor].
    + left. by exists q1, q2.
  - destruct (main_step_effect l m m' Hs Hl Hr) as (Ht & Hf & Hc). left.
    unfold cancelling.
    destruct Hc as [-> |(c & -> & Hc)]; [by exists q1, q2|].
    exists q1, (q2 ++ [c]). rewrite Hq, <-app_assoc. split; [done|].
    by apply none_schedule_snoc.
Qed.
Lemma cancelling_run ls m m' :
  wf_manager m → mgr_run ls m m' → Forall (λ l, revives l = false) ls →
  cancelling m ∨ quiet m → cancelling m' ∨ quiet m'.
Proof.
  intros Hm Hr. induction Hr as [|l ls m1 m2 m3 Hs Hr IH]; [done|].
  intros [Hl Hls]%Forall_cons Hq. apply IH; [by eapply wf_mgr_step|done|].
  destruct Hq as [Hq|Hq]; [by eapply cancelling_step|].
  right. by eapply quiet_step.
Qed.
End cancelled.

(** C17. Once the worker has taken a [cancel] off the channel, the timer is gone
    and never fires again: whatever both threads do next, in any interleaving,
    it neither is scheduled nor appears in the fired queue unless it was already
    there, as long as the main thread does not ask for that id anew. *)
Theorem cancelled_never_fires id m m1 m2 m3 ls1 ls2 :
  wf_manager m → try_cancel m id = (m1, Ok tt) →
  Forall (λ l, revives id l = false) (ls1 ++ ls2) →
  mgr_run ls1 m1 m2 → Cancel id ∉ cmd_queue m2 → mgr_run ls2 m2 m3 →
  scheduled_timers (worker m3) !! id = None ∧
  (id ∈ fired_timers m3 → id ∈ fired_timers m2).
Proof.
  intros Hm Hc [Hl1 Hl2]%Forall_app Hr1 Hno Hr2.
  assert (wf_manager m1) as Hm1.
  { unfold try_cancel in Hc. case_bool_decide; [done|].
    apply (f_equal fst) in Hc. simpl in Hc. rewrite <-Hc. by apply wf_try_send_schedule. }
  assert (cancelling id m1) as Hcan.
  { unfold try_cancel, try_send_schedule_command, try_send in Hc.
    repeat (case_bool_decide; [done|]). simplify_eq.
    exists (cmd_queue m), []. split; [done|constructor]. }
  destruct (cancelling_run id ls1 m1 m2 Hm1 Hr1 Hl1) as [(q1 & q2 & Hq & _)|Hq]; [by left| |].
  - destruct Hno. rewrite Hq. apply elem_of_app. right. left.
  - destruct (quiet_run id ls2 m2 m3) as [[? _] ?]; eauto using wf_mgr_run.
Qed.

(** ** The I/O completion queue

    [begin_op] and [complete] are called from any thread; [drain] from the main
    thread.  The queue is a value, every method one atomic step. *)
Record IoCompletion := { io_id : Z; ok : bool; payload : rstr }.
Record IoCompletionQueue := {
  inner : list IoCompletion;
  next_id : Z;          (* AtomicU64 *)
  pending_ops : Z;      (* AtomicU64 *)
}.
Definition io_queue_new : IoCompletionQueue :=
  {| inner := []; next_id := 1; pending_ops := 0 |}.
Definition begin_op (q : IoCompletionQueue) : IoCompletionQueue * Z :=
  ({| inner := inner q; next_id := wrap_u64 (next_id q + 1);
      pending_ops := wrap_u64 (pending_ops q + 1) |}, next_id q).
Definition complete (q : IoCompletionQueue) (id : Z) (is_ok : bool) (data : rstr) :
    IoCompletionQueue :=
  {| inner := inner q ++ [{| io_id := id; ok := is_ok; payload := data |}];
     next_id := next_id q; pending_ops := wrap_u64 (pending_ops q - 1) |}.
Definition drain (q : IoCompletionQueue) : IoCompletionQueue * list IoCompletion :=
  ({| inner := []; next_id := next_id q; pending_ops := pending_ops q |}, inner q).
Definition has_pending (q : IoCompletionQueue) : bool :=
  bool_decide (pending_ops q > 0)%Z || negb (bool_decide (inner q = [])).

(** A use of the queue as the runtime makes it: an operation begins and gets
    its id, completes once, and the main thread drains. *)
Inductive io_op := IoBegin | IoComplete (id : Z) (is_ok : bool) (data : rstr) | IoDrain.
Record IoTrace := {
  io_queue : IoCompletionQueue;
  in_flight : list Z;               (* ids begun and not completed *)
  delivered : list IoCompletion;    (* what [drain] returned, in order *)
  completed : list IoCompletion;    (* what [complete] was given, in order *)
}.
Definition io_start : IoTrace :=
  {| io_queue := io_queue_new; in_flight := []; delivered := []; completed := [] |}.
Inductive io_step : io_op → IoTrace → IoTrace → Prop :=
  | io_begin t :
      io_step IoBegin t
        {| io_queue := (begin_op (io_queue t)).1;
           in_flight := (begin_op (io_queue t)).2 :: in_flight t;
           delivered := delivered t; completed := completed t |}
  | io_complete t id b d l1 l2 :
      in_flight t = l1 ++ id :: l2 →
      io_step (IoComplete id b d) t
        {| io_queue := complete (io_queue t) id b d; in_flight := l1 ++ l2;
           delivered := delivered t;
           completed := completed t ++ [{| io_id := id; ok := b; payload := d |}] |}
  | io_drain t :
      io_step IoDrain t
        {| io_queue := (drain (io_queue t)).1; in_flight := in_flight t;
           delivered := delivered t ++ (drain (io_queue t)).2; completed := completed t |}.
Inductive io_run : list io_op → IoTrace → IoTrace → Prop :=
  | io_run_nil t : io_run [] t t
  | io_run_cons o os t1 t2 t3 : io_step o t1 t2 → io_run os t2 t3 → io_run (o :: os) t1 t3.

(** Ids are handed out in order, so they are distinct. *)
Definition io_wf (t : IoTrace) : Prop :=
  delivered t ++ inner (io_queue t) = completed t ∧
  pending_ops (io_queue t) = wrap_u64 (Z.of_nat (length (in_flight t))) .
Lemma io_wf_step o t t' : io_step o t t' → io_wf t → io_wf t'.
Proof.
  intros Hs [Hd Hp]. unfold io_wf. destruct Hs as [t|t id b d l1 l2 E|t]; simpl.
  - rewrite Hp, wrap_u64_add. split; [done|]. f_equal. lia.
  - rewrite Hp, wrap_u64_sub, <-Hd, app_assoc, E, !length_app. split; [done|].
    simpl. f_equal. lia.
  - by rewrite app_nil_r.
Qed.
Lemma io_wf_run os t t' : io_run os t t' → io_wf t → io_wf t'.
Proof. induction 1; eauto using io_wf_step. Qed.

(** No completion is lost or delivered twice: under every interleaving of
    begun and completed operations and drains, what the main thread has drained
    followed by what waits in the queue is what was completed, in order; and the
    event loop is told there is pending work exactly when an operation is in
    flight or a completion waits (below [2^64] operations in flight). *)
Theorem completions_delivered_once os t :
  io_run os io_start t →
  delivered t ++ inner (io_queue t) = completed t ∧
  ((Z.of_nat (length (in_flight t)) < U64_MOD)%Z →
     has_pending (io_queue t) = true ↔ in_flight t ≠ [] ∨ delivered t ≠ completed t).
Proof.
  intros Hr. destruct (io_wf_run _ _ _ Hr) as [Hd Hp]; [done|]. split; [done|].
  intros Hlt. unfold has_pending. rewrite Hp, wrap_u64_id by (split; lia).
  rewrite orb_true_iff, negb_true_iff, bool_decide_eq_true, bool_decide_eq_false.
  rewrite <-Hd. assert (delivered t ≠ delivered t ++ inner (io_queue t) ↔ inner (io_queue t) ≠ []) as ->.
  { split; intros H E; apply H; [by rewrite E, app_nil_r|].
    apply (f_equal length) in E. rewrite length_app in E.
    apply length_zero_iff_nil. lia. }
  destruct (in_flight t); simpl; naive_solver lia.
Qed.

(** ** The waker: [EventLoopWaker]

    The flag is under a mutex, so every critical section is one step.  While a
    waiter sleeps on the condition variable the mutex is free and other threads
    may run [wake] and [reset]: [during] lists what they did.  [timed_out] is
    the condition variable's answer ([false] for a notification, or a spurious
    one).  A poisoned mutex is left out: no critical section panics. *)
Inductive waker_op := OpWake | OpReset.
Definition waker_step (flag : bool) (o : waker_op) : bool :=
  match o with OpWake => true | OpReset => false end.
Definition wait_timeout (flag timeout_is_zero : bool) (during : list waker_op)
    (timed_out : bool) : bool * bool :=
  if flag then (false, true)
  else if timeout_is_zero then (flag, false)
  else let was_woken := foldl waker_step flag during in
       (false, was_woken || negb timed_out).

(** No wake-up is lost: a [wait_timeout] returns [true] when the last call
    on the waker before it, or while it waited, was a [wake], even if the
    condition variable reports a timeout; it returns [false] only after a
    timeout; and it leaves the flag clear, so one wake-up is consumed once. *)
Theorem waker_no_lost_wakeup before zero during timed_out :
  let flag := foldl waker_step false before in
  let '(flag', woken) := wait_timeout flag zero during timed_out in
  flag' = false ∧
  (last before = Some OpWake → woken = true) ∧
  (last during = Some OpWake → zero = false → woken = true) ∧
  (woken = true → before = [] → during = [] → zero = false ∧ timed_out = false).
Proof.
  assert (∀ f l, last l = Some OpWake → foldl waker_step f l = true) as Hlast.
  { intros f l [l' ->]%last_Some. by rewrite foldl_app. }
  cbv zeta. unfold wait_timeout.
  destruct (foldl waker_step false before) eqn:E.
  - split; [done|]. split; [done|]. split; [done|]. intros _ ->. done.
  - destruct zero; (split; [done|]); (split; [intros H; by rewrite Hlast in E|]);
      (split; [|by intros H -> ->; destruct timed_out]).
    + done.
    + intros H _. by rewrite Hlast.
Qed.

(** ** Witnesses *)

Example timer_bookkeeping_witness :
  let m0 := new_with_command_queue_size 2 in
  let m1 := (try_schedule_timeout 5 m0 10 7).1 in
  let m2 := receive m1 (ScheduleTimeout 7 15 10 1) [] in
  mgr_run [MTimeout 5 10 7; MWorker] m0 m2 ∧
  scheduled_count (worker m2) = 1%Z ∧
  has_scheduled_timers m2 = true.
Proof.
  intros m0 m1 m2.
  assert (mgr_run [MTimeout 5 10 7; MWorker] m0 m2) as Hr.
  { eapply run_cons; [apply ms_timeout|]. eapply run_cons; [|apply run_nil].
    apply ms_worker, ws_recv; done. }
  split; [done|]. split; [done|].
  apply (timer_bookkeeping 2 _ m2 Hr); vm_compute; [done|intros [=]].
Defined.

Definition two_timers : Worker :=
  (handle_timer_command (handle_timer_command worker_init
     (ScheduleTimeout 7 15 10 1)).1.1 (ScheduleInterval 8 15 10 3 2)).1.1.
Lemma two_timers_wf : wf_worker two_timers.
Proof. apply wf_handle, wf_handle. split; [apply agree_empty|done]. Qed.

Example fires_in_deadline_order_witness :
  (fire_due_timers 20 (λ _, 20%Z) two_timers).2 = [7; 8]%Z ∧
  NoDup (fire_due_timers 20 (λ _, 20%Z) two_timers).2.
Proof.
  split; [vm_compute; reflexivity|].
  apply (fires_in_deadline_order 20 (λ _, 20%Z) two_timers two_timers_wf).
Defined.

Definition four_rounds : list (Z * (nat → Z)) :=
  [(20, λ _, 20); (25, λ _, 25); (30, λ _, 30); (45, λ _, 45)]%Z.
Example interval_fires_exactly_witness :
  occurrences 8 (fire_rounds four_rounds two_timers).2 = 3%Z ∧
  (occurrences 8 (fire_rounds four_rounds two_timers).2
     + firings_left 8 (fire_rounds four_rounds two_timers).1 = 3)%Z.
Proof.
  assert (scheduled_timers two_timers !! 8%Z =
    Some {| deadline := 15; delay := 10; remaining := 3; sequence := 2 |}) as He
    by (vm_compute; reflexivity).
  pose proof (interval_fires_exactly four_rounds two_timers 8 _ two_timers_wf He) as H.
  split; [vm_compute; reflexivity|].
  destruct (fire_rounds four_rounds two_timers) as [w' ids]. by apply H.
Defined.

Definition scheduled_manager : Manager :=
  receive (try_schedule_timeout 5 (new_with_command_queue_size 2) 10 7).1
    (ScheduleTimeout 7 15 10 1) [].
Lemma scheduled_manager_wf : wf_manager scheduled_manager.
Proof.
  apply wf_receive; [|done].
  apply (wf_mgr_step (MTimeout 5 10 7) (new_with_command_queue_size 2));
    [apply ms_timeout|apply wf_manager_init].
Qed.
Example cancelled_never_fires_witness :
  let m1 := (try_cancel scheduled_manager 7).1 in
  let m2 := receive m1 (Cancel 7) [] in
  try_cancel scheduled_manager 7 = (m1, Ok tt) ∧
  scheduled_timers (worker scheduled_manager) !! 7%Z ≠ None ∧
  scheduled_timers (worker (back_to_top m2)) !! 7%Z = None.
Proof.
  intros m1 m2. split; [vm_compute; reflexivity|]. split; [vm_compute; intros [=]|].
  apply (cancelled_never_fires 7 scheduled_manager m1 m2 (back_to_top m2)
    [MWorker] [MWorker] scheduled_manager_wf); [vm_compute; reflexivity| | | |].
  - by repeat constructor.
  - eapply run_cons; [|apply run_nil]. apply ms_worker, ws_recv; done.
  - apply not_elem_of_nil.
  - eapply run_cons; [|apply run_nil]. apply ms_worker, ws_drained; done.
Defined.

Example completions_delivered_once_witness :
  let t1 := {| io_queue := (begin_op io_queue_new).1; in_flight := [1%Z];
               delivered := []; completed := [] |} in
  io_run [IoBegin] io_start t1 ∧ has_pending (io_queue t1) = true.
Proof.
  intros t1.
  assert (io_run [IoBegin] io_start t1) as Hr
    by (eapply io_run_cons; [apply io_begin|apply io_run_nil]).
  split; [done|]. apply (completions_delivered_once _ t1 Hr); [done|by left].
Defined.
