(* ===== verification/KvStore.v ===== *)
(** * The key-value store, [src/kv/mod.rs]

    A [KVStore] is its in-memory map plus the write-ahead log on disk; both are
    fields of one record, because every theorem relates them.  The store's
    registry and the native dispatcher follow.  [serde_json], the file system's
    handling of an append and the iteration order of [HashMap] are the fields
    of [KvWorld]; [KvLaws] is what the code relies on.  The clock reading
    [current_time_ms()] of an operation is its argument [now]. *)

From S2P Require Import Prelude RustPath JsArgs.

(** ** What the store takes from its environment *)

Section data.
Context {Value : Type}.

Record KVEntry := { value : Value; expires_at : option Z }.
Definition is_expired (e : KVEntry) (now : Z) : bool :=
  match expires_at e with Some exp => bool_decide (exp ≤ now)%Z | None => false end.

Inductive WalRecord :=
  | Set_ (key : rstr) (val : Value) (exp : option Z)
  | Del (key : rstr)
  | WalClear.
Record BatchOp := {
  op_type : rstr; op_key : rstr; op_value : option Value; ttl_ms : option Z }.
End data.
Arguments KVEntry : clear implicits.
Arguments WalRecord : clear implicits.
Arguments BatchOp : clear implicits.

Record KvWorld (Value : Type) := {
  null : Value;                              (* [Value::Null] *)
  as_i64 : Value → option Z;                 (* [Value::as_i64] *)
  as_f64_to_i64 : Value → option Z;          (* [as_f64() as i64] *)
  of_i64 : Z → Value;                        (* [Value::from(i64)] *)
  to_json : WalRecord Value → option rstr;   (* [serde_json::to_string(rec).ok()] *)
  from_json : rstr → option (WalRecord Value);  (* [serde_json::from_str(line).ok()] *)
  disk_write : rstr → rstr → rstr;           (* the file after [writeln!] and [flush] *)
  iter : gmap rstr (KVEntry Value) → list (rstr * KVEntry Value);  (* [HashMap::iter] *)
}.
Arguments null {Value} _.
Arguments as_i64 {Value} _ _.
Arguments as_f64_to_i64 {Value} _ _.
Arguments of_i64 {Value} _ _.
Arguments to_json {Value} _ _.
Arguments from_json {Value} _ _.
Arguments disk_write {Value} _ _ _.
Arguments iter {Value} _ _.

(** [serde_json] writes one line of JSON; the disk accepts
    writes; iteration visits every entry once; numbers keep their value.  A record is read back as it was when its value is
    [storable]: [serde_json] reads no text nested deeper than its recursion limit of 128, and without the feature
    [float_roundtrip] it may read a fraction as one of its neighbours.  [null] and the integers are
    storable. *)
Class KvLaws {Value} (W : KvWorld Value) := {
  storable : Value → Prop;
  null_storable : storable (null W);
  i64_storable z : storable (of_i64 W z);
  json_total r : is_Some (to_json W r);
  json_round_trip r j : match r with Set_ _ v _ => storable v | _ => True end → to_json W r = Some j → from_json W j = Some r;
  json_one_line r j : to_json W r = Some j →
    newline ∉ j ∧ last j ≠ Some carriage_return ∧ trim j ≠ [] ∧ utf8_valid j = true;
  disk_appends d x : disk_write W d x = d ++ x;
  iter_all m : iter W m ≡ₚ map_to_list m;
  as_of_i64 z : in_i64 z → as_i64 W (of_i64 W z) = Some z;
}.

(** [current_time_ms]: the frozen clock of the permissions, if it is set and not
    negative, otherwise the system's. *)
Definition current_time_ms (frozen : option Z) (system : Z) : Z :=
  match frozen with
  | Some t => if bool_decide (0 ≤ t)%Z then t else system
  | None => system
  end.

(** ** The store *)

Section store.
Context {Value : Type} (W : KvWorld Value).
Abbreviation Data := (gmap rstr (KVEntry Value)).

Record KVStore := {
  has_path : bool;            (* path.is_some() *)
  data : Data;
  wal_file : bool;            (* wal_file.is_some() *)
  disk : option rstr;         (* the file at the path, outside the process *)
}.
Definition with_data (s : KVStore) (d : Data) : KVStore :=
  {| has_path := has_path s; data := d; wal_file := wal_file s; disk := disk s |}.

Definition new_memory : KVStore :=
  {| has_path := false; data := ∅; wal_file := false; disk := None |}.

(** One record of the log, replayed at time [now]. *)
Definition replay_record (now : Z) (r : WalRecord Value) (d : Data) : Data :=
  match r with
  | Set_ key val exp =>
      let entry := {| value := val; expires_at := exp |} in
      if is_expired entry now then delete key d else <[key := entry]> d
  | Del key => delete key d
  | WalClear => ∅
  end.
(** The replay loop of [open]: a line that is not UTF-8 is an error, a blank or
    unreadable one is skipped. *)
Fixpoint replay_lines (now : Z) (ls : list rstr) (d : Data) : io_result Data :=
  match ls with
  | [] => Ok d
  | line :: ls' =>
      if negb (utf8_valid line)
      then Err (InvalidData, "stream did not contain valid UTF-8" : rstr)
      else if bool_decide (trim line = []) then replay_lines now ls' d
      else replay_lines now ls'
             match from_json W line with
             | Some r => replay_record now r d
             | None => d
             end
  end.
(** [open] on a path whose file holds [f] ([None]: no file yet).  [os] is the
    answer to opening the file for appending. *)
Definition open_store (os : io_result unit) (now : Z) (f : option rstr) :
    io_result KVStore :=
  d ← match f with
      | Some bytes => replay_lines now (file_lines bytes) ∅
      | None => Ok ∅
      end;
  _ ← os;
  Ok {| has_path := true; data := d; wal_file := true; disk := Some (f .unwrap_or []) |}.

Definition append_wal (s : KVStore) (r : WalRecord Value) : KVStore :=
  if wal_file s then
    match to_json W r with
    | Some json =>
        {| has_path := has_path s; data := data s; wal_file := wal_file s;
           disk := Some (disk_write W ((disk s) .unwrap_or []) (json ++ [newline])) |}
    | None => s
    end
  else s.

Definition get (now : Z) (s : KVStore) (key : rstr) : KVStore * option Value :=
  match data s !! key with
  | Some entry =>
      if is_expired entry now
      then (append_wal (with_data s (delete key (data s))) (Del key), None)
      else (s, Some (value entry))
  | None => (s, None)
  end.

Definition set_ (now : Z) (s : KVStore) (key : rstr) (val : Value) (ttl : option Z) : KVStore :=
  let expires := (λ ms, wrap_u64 (now + ms)) <$> ttl in
  append_wal (with_data s (<[key := {| value := val; expires_at := expires |}]> (data s)))
    (Set_ key val expires).

Definition delete_ (s : KVStore) (key : rstr) : KVStore * bool :=
  match data s !! key with
  | Some _ => (append_wal (with_data s (delete key (data s))) (Del key), true)
  | None => (s, false)
  end.

Definition has (now : Z) (s : KVStore) (key : rstr) : KVStore * bool :=
  let '(s, v) := get now s key in (s, bool_decide (is_Some v)).

Definition prune_key (s : KVStore) (k : rstr) : KVStore :=
  append_wal (with_data s (delete k (data s))) (Del k).
Definition prune_expired (now : Z) (s : KVStore) : KVStore :=
  let expired := (filter (λ kv, is_expired kv.2 now = true) (iter W (data s))).*1 in
  foldl prune_key s expired.

(** [Some(p) if !p.is_empty() => k.starts_with(p), _ => true] *)
Definition prefix_matches (prefix : option rstr) (k : rstr) : bool :=
  match prefix with
  | Some p => if bool_decide (p = []) then true else starts_with p k
  | None => true
  end.
Definition keys (now : Z) (s : KVStore) (prefix : option rstr) : KVStore * list rstr :=
  let s := prune_expired now s in
  (s, sort_strings (filter (λ k, prefix_matches prefix k = true) (iter W (data s)).*1)).

(** Pairs ordered by key: [sort_by] is a stable sort. *)
Definition pair_le (a b : rstr * Value) : Prop := rstr_le a.1 b.1.
#[local] Instance pair_le_dec : RelDecision pair_le.
Proof. intros a b. unfold pair_le. apply _. Defined.
Definition sort_pairs (l : list (rstr * Value)) : list (rstr * Value) := merge_sort pair_le l.

Definition values (now : Z) (s : KVStore) : KVStore * list Value :=
  let s := prune_expired now s in
  (s, (sort_pairs ((λ kv, (kv.1, value kv.2)) <$> iter W (data s))).*2).
Definition entries (now : Z) (s : KVStore) (prefix : option rstr) :
    KVStore * list (rstr * Value) :=
  let s := prune_expired now s in
  (s, sort_pairs ((λ kv, (kv.1, value kv.2)) <$>
        filter (λ kv, prefix_matches prefix kv.1 = true) (iter W (data s)))).
Definition scan (now : Z) (s : KVStore) (prefix : rstr) (limit : option nat) :
    KVStore * list (rstr * Value) :=
  let '(s, all) := entries now s (Some prefix) in
  (s, match limit with Some max => take max all | None => all end).

Definition incr (now : Z) (s : KVStore) (key : rstr) (delta : Z) : KVStore * result Z rstr :=
  let current := match data s !! key with
    | Some entry =>
        if is_expired entry now then Ok (0%Z, None)
        else match as_i64 W (value entry) with
        | Some n => Ok (n, expires_at entry)
        | None =>
            match as_f64_to_i64 W (value entry) with
            | Some n => Ok (n, expires_at entry)
            | None => Err ("Value for key '" ++ key ++ "' is not a number")
            end
        end
    | None => Ok (0%Z, None)
    end in
  match current with
  | Err e => (s, Err e)
  | Ok (current_num, exp) =>
      let new_val := wrap_i64 (current_num + delta) in
      let v := of_i64 W new_val in
      (append_wal (with_data s (<[key := {| value := v; expires_at := exp |}]> (data s)))
         (Set_ key v exp), Ok new_val)
  end.

(** The name in lower case: [to_lowercase] of [Prelude].  No character outside ASCII has one of
    the letters of the four names as its lower case, so ASCII is enough to
    recognise them; the error text of a name outside ASCII may differ. *)
Definition batch_op (now : Z) (s : KVStore) (op : BatchOp Value) : KVStore * result unit rstr :=
  let name : rstr := to_lowercase (op_type op) in
  if bool_decide (name = "put" ∨ name = "set") then
    let val := (op_value op) .unwrap_or (null W) in
    let expires := (λ ms, wrap_u64 (now + ms)) <$> ttl_ms op in
    (append_wal
       (with_data s (<[op_key op := {| value := val; expires_at := expires |}]> (data s)))
       (Set_ (op_key op) val expires), Ok tt)
  else if bool_decide (name = "del" ∨ name = "delete") then
    (append_wal (with_data s (delete (op_key op) (data s))) (Del (op_key op)), Ok tt)
  else (s, Err ("Unknown batch operation type '" ++ name ++ "'")).
Fixpoint batch (now : Z) (s : KVStore) (ops : list (BatchOp Value)) :
    KVStore * result unit rstr :=
  match ops with
  | [] => (s, Ok tt)
  | op :: ops' =>
      match batch_op now s op with
      | (s', Ok _) => batch now s' ops'
      | (s', Err e) => (s', Err e)
      end
  end.

Definition clear (s : KVStore) : KVStore := append_wal (with_data s ∅) WalClear.

(** What the operating system answers to the steps of [compact]. *)
Inductive CompactOutcome := AllDone | TempFails | RenameFails | ReopenFails.
(** The lines written to the temporary file, [None] when a record does not
    serialise. *)
Definition compact_image (d : Data) : option rstr :=
  (@mjoin list _ _) <$> mapM (λ kv, json ← to_json W (Set_ kv.1 (value kv.2) (expires_at kv.2));
                         Some (json ++ [newline])) (iter W d).
Definition io_failed : ErrorKind * rstr := (OtherKind 0, "I/O error" : rstr).
Definition compact (os : CompactOutcome) (now : Z) (s : KVStore) : KVStore * io_result unit :=
  if has_path s then
    let s := prune_expired now s in
    match compact_image (data s), os with
    | None, _ | _, TempFails => (s, Err io_failed)
    | Some image, RenameFails =>
        ({| has_path := has_path s; data := data s; wal_file := false; disk := disk s |},
         Err io_failed)
    | Some image, ReopenFails =>
        ({| has_path := has_path s; data := data s; wal_file := false; disk := Some image |},
         Err io_failed)
    | Some image, AllDone =>
        ({| has_path := has_path s; data := data s; wal_file := true; disk := Some image |},
         Ok tt)
    end
  else (s, Ok tt).

Definition close (s : KVStore) : KVStore :=
  {| has_path := has_path s; data := ∅; wal_file := false; disk := disk s |}.
End store.
Arguments KVStore : clear implicits.

(** ** The operations as one transition function *)

Inductive kv_op (Value : Type) :=
  | KGet (key : rstr)
  | KSet (key : rstr) (val : Value) (ttl : option Z)
  | KDelete (key : rstr)
  | KHas (key : rstr)
  | KKeys (prefix : option rstr)
  | KValues
  | KEntries (prefix : option rstr)
  | KScan (prefix : rstr) (limit : option nat)
  | KIncr (key : rstr) (delta : Z)
  | KBatch (ops : list (BatchOp Value))
  | KClear
  | KCompact (os : CompactOutcome)
  | KFlush
  | KClose.
Arguments KGet {Value} key.
Arguments KSet {Value} key val ttl.
Arguments KDelete {Value} key.
Arguments KHas {Value} key.
Arguments KKeys {Value} prefix.
Arguments KValues {Value}.
Arguments KEntries {Value} prefix.
Arguments KScan {Value} prefix limit.
Arguments KIncr {Value} key delta.
Arguments KBatch {Value} ops.
Arguments KClear {Value}.
Arguments KCompact {Value} os.
Arguments KFlush {Value}.
Arguments KClose {Value}.

Definition kv_step {Value} (W : KvWorld Value) (now : Z) (s : KVStore Value)
    (op : kv_op Value) : KVStore Value :=
  match op with
  | KGet key => (get W now s key).1
  | KSet key val ttl => set_ W now s key val ttl
  | KDelete key => (delete_ W s key).1
  | KHas key => (has W now s key).1
  | KKeys prefix => (keys W now s prefix).1
  | KValues => (values W now s).1
  | KEntries prefix => (entries W now s prefix).1
  | KScan prefix limit => (scan W now s prefix limit).1
  | KIncr key delta => (incr W now s key delta).1
  | KBatch ops => (batch W now s ops).1
  | KClear => clear W s
  | KCompact os => (compact W os now s).1
  | KFlush => s
  | KClose => close s
  end.
(** A run: every operation with its own clock reading. *)
Definition kv_run {Value} (W : KvWorld Value) (s : KVStore Value)
    (ops : list (Z * kv_op Value)) : KVStore Value :=
  foldl (λ s o, kv_step W o.1 s o.2) s ops.

(** ** Lemmas: the live entries and the log *)

Section replay.
#[local] Set Default Proof Using "Type*".
Context {Value : Type} {W : KvWorld Value} `{L : !KvLaws W}.
Abbreviation Data := (gmap rstr (KVEntry Value)).

(** The entries a reader sees at time [t]. *)
Definition alive (t : Z) (d : Data) : Data :=
  filter (λ kv : rstr * KVEntry Value, is_expired kv.2 t = false) d.
(** A record applied to the map, as the operations apply it. *)
Definition apply_record (r : WalRecord Value) (d : Data) : Data :=
  match r with
  | Set_ key val exp => <[key := {| value := val; expires_at := exp |}]> d
  | Del key => delete key d
  | WalClear => ∅
  end.

Definition storable_record (r : WalRecord Value) : Prop := match r with Set_ _ v _ => storable v | _ => True end.
Definition storable_data (d : Data) : Prop := map_Forall (λ _ e, storable (value e)) d.
Lemma storable_apply r d : storable_record r → storable_data d → storable_data (apply_record r d).
Proof.
  intros Hr Hd. destruct r as [key v exp|key|]; simpl.
  - by apply map_Forall_insert_2.
  - by apply map_Forall_delete.
  - by apply map_Forall_empty.
Qed.
Lemma alive_lookup t d k :
  alive t d !! k = match d !! k with
                   | Some e => if is_expired e t then None else Some e
                   | None => None
                   end.
Proof.
  unfold alive. destruct (d !! k) as [e|] eqn:E.
  - destruct (is_expired e t) eqn:Ee.
    + apply map_lookup_filter_None_2. right. intros x Hx. simpl. congruence.
    + by apply map_lookup_filter_Some_2.
  - apply map_lookup_filter_None_2. by left.
Qed.
Lemma is_expired_mono (e : KVEntry Value) t t' : (t ≤ t')%Z → is_expired e t = true → is_expired e t' = true.
Proof.
  unfold is_expired. destruct (expires_at e); [|done].
  rewrite !bool_decide_eq_true. lia.
Qed.
Lemma alive_replay t0 t r d :
  (t0 ≤ t)%Z → alive t (replay_record t0 r d) = alive t (apply_record r d).
Proof.
  intros Ht. apply map_eq. intros k. rewrite !alive_lookup. destruct r as [key val exp|key|]; simpl;
    [|done|done].
  destruct (is_expired {| value := val; expires_at := exp |} t0) eqn:E; [|done].
  destruct (decide (key = k)) as [->|].
  - rewrite lookup_delete_eq, lookup_insert_eq. by rewrite (is_expired_mono _ _ _ Ht E).
  - by rewrite lookup_delete_ne, lookup_insert_ne.
Qed.
Lemma alive_apply_ext t r d d' :
  alive t d = alive t d' → alive t (apply_record r d) = alive t (apply_record r d').
Proof.
  intros H. apply map_eq. intros k. rewrite !alive_lookup.
  assert (alive t d !! k = alive t d' !! k) as Hk by (by rewrite H).
  rewrite !alive_lookup in Hk.
  destruct r as [key val exp|key|]; simpl; [| |done];
    (destruct (decide (key = k)) as [->|];
     [by rewrite ?lookup_insert_eq, ?lookup_delete_eq
     |by rewrite ?lookup_insert_ne, ?lookup_delete_ne]).
Qed.

Lemma replay_lines_app now l l' d :
  replay_lines W now (l ++ l') d = (d' ← replay_lines W now l d; replay_lines W now l' d').
Proof.
  revert d. induction l as [|x l IH]; intros d; [done|]. simpl.
  repeat case_match; try done; apply IH.
Qed.
Lemma replay_lines_record now r j d :
  storable_record r → to_json W r = Some j → replay_lines W now [j] d = Ok (replay_record now r d).
Proof.
  intros Hst Hj. destruct (json_one_line r j Hj) as (_ & _ & Ht & Hu). simpl.
  rewrite Hu, bool_decide_eq_false_2 by done. simpl. by rewrite (json_round_trip r j).
Qed.
(** Replaying the same lines at two times. *)
Lemma replay_lines_times t0 t ls d d' x :
  (t0 ≤ t)%Z → alive t d = alive t d' → replay_lines W t0 ls d = Ok x →
  ∃ y, replay_lines W t ls d' = Ok y ∧ alive t x = alive t y.
Proof.
  intros Ht. revert d d'. induction ls as [|l ls IH]; intros d d' Hd Hx; simpl in *.
  { simplify_eq. eauto. }
  destruct (utf8_valid l); [|done]. simpl in *. case_bool_decide; [by eapply IH|].
  eapply IH; [|done]. destruct (from_json W l); [|done].
  rewrite !alive_replay by done. by apply alive_apply_ext.
Qed.

(** What reopening the file at time [t] recovers. *)
Definition recovers (t : Z) (f : rstr) (d : Data) : Prop :=
  ∃ x, replay_lines W t (file_lines f) ∅ = Ok x ∧ alive t x = alive t d.
(** The file is complete and recovers the store, whenever from [t0] on. *)
Definition durable (t0 : Z) (s : KVStore Value) : Prop :=
  storable_data (data s) ∧ wal_file s = true ∧ ∃ f, disk s = Some f ∧ complete_file f ∧
    ∀ t, (t0 ≤ t)%Z → recovers t f (data s).

Lemma recovers_record t f r j d :
  storable_record r → complete_file f → to_json W r = Some j → recovers t f d →
  recovers t (f ++ j ++ [newline]) (apply_record r d).
Proof.
  intros Hst Hf Hj (x & Hx & Hd). destruct (json_one_line r j Hj) as (Hn & Hl & _ & _).
  exists (replay_record t r x). rewrite file_lines_app, file_lines_single by done.
  rewrite replay_lines_app, Hx. split; [by apply replay_lines_record|].
  rewrite alive_replay by done. by apply alive_apply_ext.
Qed.

(** The shape of every mutation: change the map, append the record. *)
Lemma durable_logged t0 s r :
  storable_record r → durable t0 s → durable t0 (append_wal W (with_data s (apply_record r (data s))) r).
Proof.
  intros Hst (Hs & Hw & f & Hf & Hc & Hr). destruct (json_total r) as [j Hj].
  unfold append_wal. simpl. rewrite Hw, Hj. split; [by apply storable_apply|]. split; [done|].
  exists (f ++ j ++ [newline]). simpl. rewrite Hf, disk_appends. split; [done|].
  split; [right; exists (f ++ j); by rewrite app_assoc|].
  intros t Ht. by apply recovers_record; auto.
Qed.

Lemma durable_get t0 now s key : durable t0 s → durable t0 (get W now s key).1.
Proof.
  intros Hd. unfold get. repeat case_match; try done. by apply (durable_logged _ _ (Del key)).
Qed.
Lemma durable_prune t0 now s : durable t0 s → durable t0 (prune_expired W now s).
Proof.
  unfold prune_expired. generalize ((filter (λ kv, is_expired kv.2 now = true)
    (iter W (data s))).*1) as l.
  intros l. revert s. induction l as [|k l IH]; intros s Hd; [done|].
  apply IH. by apply (durable_logged _ _ (Del k)).
Qed.
Definition storable_op (op : BatchOp Value) : Prop := ∀ v, op_value op = Some v → storable v.
Lemma durable_batch_op t0 now s op : storable_op op → durable t0 s → durable t0 (batch_op W now s op).1.
Proof.
  intros Hst Hd. unfold batch_op. repeat case_bool_decide; try done.
  - apply (durable_logged _ _ (Set_ _ _ _)); [|done]. simpl. unfold storable_op in Hst.
    destruct (op_value op) as [v|]; [by apply Hst|apply null_storable].
  - by apply (durable_logged _ _ (Del _)).
Qed.
Lemma durable_batch t0 now ops s : Forall storable_op ops → durable t0 s → durable t0 (batch W now s ops).1.
Proof.
  intros Hst. revert s. induction Hst as [|op ops Hop _ IH]; intros s Hd; [done|]. simpl.
  pose proof (durable_batch_op t0 now s op Hop Hd) as H.
  destruct (batch_op W now s op) as [s' [|]]; [by apply IH|done].
Qed.
Lemma durable_incr t0 now s key delta : durable t0 s → durable t0 (incr W now s key delta).1.
Proof.
  intros Hd. unfold incr. destruct (match data s !! key with Some _ => _ | None => _ end)
    as [[n exp]|e]; [|done]. apply (durable_logged _ _ (Set_ _ _ _)); [apply i64_storable|done].
Qed.

(** The image [compact] writes recovers the map it was made from. *)
Lemma mapM_lines l : Forall (λ kv : rstr * KVEntry Value, storable (value kv.2)) l →
  ∃ js, mapM (λ kv : rstr * KVEntry Value,
    json ← to_json W (Set_ kv.1 (value kv.2) (expires_at kv.2)); Some (json ++ [newline])) l
    = Some js ∧ complete_file (mjoin js) ∧
  ∀ t d, replay_lines W t (file_lines (mjoin js)) d =
    Ok (foldl (λ d kv, replay_record t (Set_ kv.1 (value kv.2) (expires_at kv.2)) d) d l).
Proof.
  induction 1 as [|kv l Hkv _ (js & Hjs & Hc & Hr)]; [by exists []; repeat split; try left|].
  destruct (json_total (Set_ kv.1 (value kv.2) (expires_at kv.2))) as [j Hj].
  destruct (json_one_line _ j Hj) as (Hn & Hl & _ & _).
  exists ((j ++ [newline]) :: js). simpl. rewrite Hj, Hjs. simpl. split; [done|].
  split.
  - right. destruct Hc as [->|[f ->]]; [exists j; by rewrite app_nil_r|].
    exists (j ++ newline :: f). by rewrite <-!app_assoc.
  - intros t d. rewrite file_lines_app by (right; by exists j).
    rewrite replay_lines_app, file_lines_single by done.
    rewrite (replay_lines_record _ (Set_ kv.1 (value kv.2) (expires_at kv.2)) _ _ Hkv Hj). simpl mbind. apply Hr.
Qed.
Lemma alive_foldl_sets t l d d' :
  alive t d = alive t d' →
  alive t (foldl (λ d kv, replay_record t (Set_ kv.1 (value kv.2) (expires_at kv.2)) d) d l)
  = alive t (foldl (λ d kv, <[kv.1 := kv.2]> d) d' l).
Proof.
  revert d d'. induction l as [|[k e] l IH]; intros d d' H; [done|].
  change (foldl ?f d ((k, e) :: l)) with (foldl f (f d (k, e)) l).
  change (foldl ?f d' ((k, e) :: l)) with (foldl f (f d' (k, e)) l). cbv beta.
  apply IH. rewrite alive_replay by done.
  etrans; [by apply alive_apply_ext|]. simpl. by destruct e.
Qed.
Lemma foldl_inserts (l : list (rstr * KVEntry Value)) (d : Data) :
  NoDup l.*1 → foldl (λ d kv, <[kv.1 := kv.2]> d) d l = list_to_map l ∪ d.
Proof.
  revert d. induction l as [|[k e] l IH]; intros d; simpl; [by rewrite map_empty_union|].
  intros [Hk Hl]%NoDup_cons. rewrite IH by done.
  rewrite <-insert_union_r by (by apply not_elem_of_list_to_map).
  apply insert_union_l.
Qed.
Lemma compact_image_recovers d : storable_data d →
  ∃ image, compact_image W d = Some image ∧ complete_file image ∧
    ∀ t, recovers t image d.
Proof.
  intros Hst. destruct (mapM_lines (iter W d)) as (js & Hjs & Hc & Hr).
  { rewrite Forall_forall. intros [k e] Hin. rewrite iter_all in Hin. apply elem_of_map_to_list in Hin. by apply (Hst k e). }
  unfold compact_image. rewrite Hjs. exists (mjoin js). split; [done|]. split; [done|].
  intros t. eexists. split; [apply Hr|]. rewrite (alive_foldl_sets t _ ∅ ∅) by done.
  assert (NoDup (iter W d).*1) as Hnd
    by (rewrite iter_all; apply NoDup_fst_map_to_list).
  rewrite foldl_inserts, map_union_empty by done.
  f_equal. etrans; [|apply list_to_map_to_list].
  apply list_to_map_proper; [done|apply iter_all].
Qed.
Lemma durable_compact t0 now s :
  durable t0 s → durable t0 (compact W AllDone now s).1.
Proof.
  intros Hd. unfold compact. destruct (has_path s); [|done]. apply (durable_prune t0 now) in Hd as [Hst _].
  destruct (compact_image_recovers (data (prune_expired W now s)) Hst) as (im & -> & Hc & Hr).
  split; [done|]. split; [done|]. exists im. simpl. auto.
Qed.

(** Operations after which the log keeps recording. *)
Definition keeps_log (op : kv_op Value) : Prop :=
  match op with
  | KClose | KCompact RenameFails | KCompact ReopenFails => False
  | _ => True
  end.
(** The values an operation brings are storable. *)
Definition brings_storable (op : kv_op Value) : Prop :=
  match op with KSet _ v _ => storable v | KBatch ops => Forall storable_op ops | _ => True end.
Lemma durable_step t0 now s op :
  keeps_log op → brings_storable op → durable t0 s → durable t0 (kv_step W now s op).
Proof.
  intros Hk Hst Hd. destruct op; simpl in *; auto using durable_prune, durable_incr, durable_batch.
  - by apply durable_get.
  - by apply (durable_logged _ _ (Set_ _ _ _)).
  - unfold delete_. case_match; [|done]. by apply (durable_logged _ _ (Del key)).
  - pose proof (durable_get t0 now s key Hd). unfold has. by destruct (get W now s key).
  - by apply (durable_logged _ _ WalClear).
  - destruct os; try done; [by apply durable_compact|].
    unfold compact. destruct (has_path s); [|done].
    repeat case_match; simpl; by apply durable_prune.
  - done.
Qed.
Lemma durable_run t0 ops s :
  Forall (λ o, keeps_log o.2 ∧ brings_storable o.2) ops → durable t0 s → durable t0 (kv_run W s ops).
Proof.
  intros Ho. revert s. induction Ho as [|[now op] ops [Hop Hst] Ho IH]; intros s Hd; [done|].
  apply IH. by apply durable_step.
Qed.
Lemma durable_open os t0 f s :
  complete_file (f .unwrap_or []) → open_store W os t0 f = Ok s → storable_data (data s) → durable t0 s.
Proof.
  intros Hc Ho Hst. unfold open_store in Ho.
  destruct (match f with Some _ => _ | None => _ end) as [d|] eqn:E; [|done].
  destruct os as [[]|]; [|done]. simplify_eq/=. split; [done|]. split; [done|]. exists (f .unwrap_or []).
  split; [done|]. split; [done|]. intros t Ht. simpl.
  destruct f as [b|]; simplify_eq/=.
  - destruct (replay_lines_times t0 t (file_lines b) ∅ ∅ d Ht eq_refl E) as (y & Hy & He).
    exists y. by rewrite He.
  - by exists ∅.
Qed.
End replay.
Arguments alive {Value} t d : simpl never.

(** ** A concrete environment

    Values are optional integers ([None] is [null]); records are spelled with
    [0] and [1], the bits of their code. *)
Module Toy.
Abbreviation Val := (option Z).
#[local] Instance record_eq_dec : EqDecision (WalRecord Val).
Proof. solve_decision. Defined.
Definition to_sum (r : WalRecord Val) : (rstr * Val * option Z) + (rstr + unit) :=
  match r with Set_ k v e => inl (k, v, e) | Del k => inr (inl k) | WalClear => inr (inr tt) end.
Definition of_sum (x : (rstr * Val * option Z) + (rstr + unit)) : WalRecord Val :=
  match x with
  | inl (k, v, e) => Set_ k v e | inr (inl k) => Del k | inr (inr _) => WalClear end.

Fixpoint bits (p : positive) : rstr :=
  match p with
  | xH => ["1"%char] | xO p' => "0"%char :: bits p' | xI p' => "1"%char :: bits p' end.
Fixpoint of_bits (s : rstr) : option positive :=
  match s with
  | [] => None
  | [c] => if bool_decide (c = "1"%char) then Some xH else None
  | c :: s' => p ← of_bits s';
               if bool_decide (c = "1"%char) then Some (xI p) else Some (xO p)
  end.
Lemma bits_cons p : ∃ c s, bits p = c :: s.
Proof. destruct p; simpl; eauto. Qed.
Lemma of_bits_bits p : of_bits (bits p) = Some p.
Proof.
  induction p as [p IH|p IH|]; simpl; [| |done];
    destruct (bits_cons p) as (c & s & E); rewrite E in *; by rewrite IH.
Qed.
Lemma bits_forall p : Forall (λ c, c = "0"%char ∨ c = "1"%char) (bits p).
Proof. induction p; simpl; auto. Qed.

Definition world : KvWorld Val := {|
  null := None;
  as_i64 := λ v, v;
  as_f64_to_i64 := λ _, None;
  of_i64 := Some;
  to_json := λ r, Some (bits (encode (to_sum r)));
  from_json := λ s, p ← of_bits s; x ← decode p; Some (of_sum x);
  disk_write := λ d x, d ++ x;
  iter := λ m, map_to_list m;
|}.
#[global] Instance laws : KvLaws world.
Proof.
  refine {| storable := λ _, True |}; simpl; try done; try eauto.
  - intros r j _ [= <-]. rewrite of_bits_bits. simpl. rewrite decode_encode. by destruct r.
  - intros r j [= <-]. generalize (encode (to_sum r)) as p. intros p.
    pose proof (bits_forall p) as Hf. repeat split.
    + intros Hin. rewrite Forall_forall in Hf. by destruct (Hf _ Hin).
    + intros Hl. apply last_Some_elem_of in Hl. rewrite Forall_forall in Hf.
      by destruct (Hf _ Hl).
    + destruct (bits_cons p) as (c & s & E). rewrite E in *. apply Forall_cons in Hf as [Hc _].
      destruct (trim_plain_word [] c s) as (t & Ht & _); [by destruct Hc as [-> | ->]|done|].
      simpl in Ht. by rewrite Ht.
    + induction Hf as [|c s Hc Hf IH]; [done|]. simpl. by destruct Hc as [-> | ->].
Defined.
End Toy.

(** ** Properties *)

(** C16. Durability.  Whatever operations a store runs, at whatever clock
    readings, as long as it is not closed, no compaction loses its file
    handle and the values it holds are ones [serde_json] reads back: opening its file again, at any time from its own opening on,
    succeeds and shows exactly the entries the running store shows, with their
    expiry times. *)
Theorem kv_durability {Value} (W : KvWorld Value) `{!KvLaws W} os t0 f s0 ops :
  complete_file (f .unwrap_or []) → open_store W os t0 f = Ok s0 → storable_data (data s0) →
  Forall (λ o, keeps_log o.2 ∧ brings_storable o.2) ops →
  let s := kv_run W s0 ops in
  ∀ t, (t0 ≤ t)%Z → ∃ s', open_store W (Ok tt) t (disk s) = Ok s' ∧
    alive t (data s') = alive t (data s).
Proof.
  intros Hc Ho Hst Hk s t Ht.
  destruct (durable_run t0 ops s0 Hk (durable_open os t0 f s0 Hc Ho Hst)) as (_ & _ & f' & Hf & _ & Hr).
  destruct (Hr t Ht) as (x & Hx & Ha). fold s in Hf, Ha.
  eexists. unfold open_store. rewrite Hf, Hx. simpl. eauto.
Qed.
Example kv_durability_witness :
  let s0 := {| has_path := true; data := (∅ : gmap rstr (KVEntry (option Z))); wal_file := true; disk := Some [] |} in
  let s := kv_run Toy.world s0 [(5, KSet "a" (Some 1) (Some 10)); (6, KIncr "a" 2)]%Z in
  ∃ s', open_store Toy.world (Ok tt) 7 (disk s) = Ok s' ∧
    alive 7 (data s') = alive 7 (data s).
Proof.
  intros s0 s. apply (kv_durability Toy.world (Ok tt) 0 None s0); [by left|done|done| |lia].
  by repeat constructor.
Defined.

(** Crash recovery.  If the process dies while appending a record, so that
    the file ends in a fragment that is valid UTF-8 but no record, opening it
    shows exactly the entries of the store before that operation. *)
Theorem kv_crash_recovery {Value} (W : KvWorld Value) `{!KvLaws W} t0 t s f torn :
  durable (W:=W) t0 s → (t0 ≤ t)%Z → disk s = Some f →
  newline ∉ torn → utf8_valid torn = true → from_json W torn = None →
  ∃ s', open_store W (Ok tt) t (Some (f ++ torn)) = Ok s' ∧
    alive t (data s') = alive t (data s).
Proof.
  intros (_ & _ & f' & Hf & Hc & Hr) Ht Hf' Hn Hu Hj. rewrite Hf in Hf'. simplify_eq.
  destruct (Hr t Ht) as (x & Hx & Ha). unfold open_store. rewrite file_lines_app by done.
  rewrite replay_lines_app, Hx. destruct (decide (torn = [])) as [->|Hne].
  - eexists. by split.
  - rewrite file_lines_torn by done. simpl. rewrite Hu. simpl.
    case_bool_decide; rewrite ?Hj; eexists; by split.
Qed.
Example kv_crash_recovery_witness :
  let s := kv_run Toy.world
    {| has_path := true; data := (∅ : gmap rstr (KVEntry (option Z))); wal_file := true; disk := Some [] |}
    [(5%Z, KSet "a" (Some 1%Z) None)] in
  from_json Toy.world "10" = None ∧
  ∃ f s', disk s = Some f ∧ open_store Toy.world (Ok tt) 7 (Some (f ++ "10")) = Ok s' ∧
    alive 7 (data s') = alive 7 (data s).
Proof.
  intros s. split; [done|].
  assert (durable (W:=Toy.world) 0 s) as Hd.
  { apply durable_run; [by repeat constructor|]. by apply (durable_open (Ok tt) 0 None); [left|..]. }
  destruct (disk s) as [f|] eqn:Ef; [|by destruct Hd as (_ & _ & f & Hf & _); rewrite Hf in Ef].
  destruct (kv_crash_recovery Toy.world 0 7 s f "10" Hd) as (s' & Hs' & Ha);
    [done|done|by set_solver|done|done|].
  exists f, s'. auto.
Defined.

(** The record written after such a crash is lost: the new line is glued to
    the fragment.  And a crash that cuts a character in two leaves a file that
    cannot be opened at all. *)
Theorem kv_torn_tail_glues {Value} (W : KvWorld Value) `{!KvLaws W} t0 t s f torn r j :
  durable (W:=W) t0 s → (t0 ≤ t)%Z → disk s = Some f → newline ∉ torn → torn ≠ [] →
  to_json W r = Some j → from_json W (torn ++ j) = None →
  let after := f ++ torn ++ j ++ [newline] in
  (utf8_valid torn = false →
     open_store W (Ok tt) t (Some (f ++ torn)) =
       Err (InvalidData, "stream did not contain valid UTF-8" : rstr)) ∧
  (utf8_valid (torn ++ j) = true →
     ∃ s', open_store W (Ok tt) t (Some after) = Ok s' ∧ alive t (data s') = alive t (data s)).
Proof.
  intros (_ & _ & f' & Hf & Hc & Hr) Ht Hf' Hn Hne Hj Hg after. rewrite Hf in Hf'. simplify_eq.
  destruct (Hr t Ht) as (x & Hx & Ha). destruct (json_one_line r j Hj) as (Hnj & Hlj & Htj & _).
  unfold open_store, after. rewrite !file_lines_app by done. rewrite !replay_lines_app, Hx.
  split; intros Hu.
  - rewrite file_lines_torn by done. simpl. by rewrite Hu.
  - rewrite (app_assoc torn), file_lines_single.
    + simpl. rewrite Hu. simpl. case_bool_decide; rewrite ?Hg; eexists; by split.
    + rewrite elem_of_app. naive_solver.
    + rewrite last_app. destruct (last j) eqn:E; [done|].
      apply last_None in E. by subst.
Qed.
Example kv_torn_tail_glues_witness :
  let s := kv_run Toy.world
    {| has_path := true; data := (∅ : gmap rstr (KVEntry (option Z))); wal_file := true; disk := Some [] |}
    [(5%Z, KSet "a" (Some 1%Z) None)] in
  let j := (to_json Toy.world (Del "a")) .unwrap_or [] in
  ∃ f s', disk s = Some f ∧
    open_store Toy.world (Ok tt) 7 (Some (f ++ "{" ++ j ++ [newline])) = Ok s' ∧
    alive 7 (data s') = alive 7 (data s).
Proof.
  intros s j.
  assert (durable (W:=Toy.world) 0 s) as Hd.
  { apply durable_run; [by repeat constructor|]. by apply (durable_open (Ok tt) 0 None); [left|..]. }
  destruct (disk s) as [f|] eqn:Ef; [|by destruct Hd as (_ & _ & f & Hf & _); rewrite Hf in Ef].
  destruct (kv_torn_tail_glues Toy.world 0 7 s f "{" (Del "a") j Hd) as [_ H];
    [done|done|by set_solver|done|done|vm_compute; reflexivity|].
  destruct H as (s' & Hs' & Ha); [vm_compute; reflexivity|]. exists f, s'. auto.
Defined.

(** ** Lemmas: pruning and listing *)

Section append.
Context {Value : Type} (W : KvWorld Value).
Lemma append_wal_data (s : KVStore Value) r : data (append_wal W s r) = data s.
Proof. unfold append_wal. by repeat case_match. Qed.
Lemma append_wal_path (s : KVStore Value) r : has_path (append_wal W s r) = has_path s.
Proof. unfold append_wal. by repeat case_match. Qed.
Lemma append_wal_closed (s : KVStore Value) r : wal_file s = false → append_wal W s r = s.
Proof. unfold append_wal. by intros ->. Qed.
End append.

Section listing.
#[local] Set Default Proof Using "Type*".
Context {Value : Type} {W : KvWorld Value} `{L : !KvLaws W}.

Lemma prune_foldl_data l s k :
  data (foldl (prune_key W) s l) !! k = if bool_decide (k ∈ l) then None else data s !! k.
Proof.
  revert s. induction l as [|x l IH]; intros s; [done|]. simpl. rewrite IH.
  unfold prune_key. rewrite append_wal_data. simpl.
  destruct (decide (k ∈ l)) as [|Hn].
  - by rewrite !bool_decide_eq_true_2 by (done || by right).
  - rewrite bool_decide_eq_false_2 by done. destruct (decide (x = k)) as [->|].
    + by rewrite lookup_delete_eq, bool_decide_eq_true_2 by left.
    + rewrite lookup_delete_ne, bool_decide_eq_false_2 by (done || set_solver). done.
Qed.
Lemma prune_data now s : data (prune_expired W now s) = alive now (data s).
Proof.
  apply map_eq. intros k. unfold prune_expired. rewrite prune_foldl_data, alive_lookup.
  assert (k ∈ (filter (λ kv, is_expired kv.2 now = true) (iter W (data s))).*1 ↔
    ∃ e, data s !! k = Some e ∧ is_expired e now = true) as Hk.
  { rewrite list_elem_of_fmap. setoid_rewrite list_elem_of_filter. setoid_rewrite iter_all.
    split.
    - intros ([k' e] & -> & He & Hin%elem_of_map_to_list). eauto.
    - intros (e & Hin%elem_of_map_to_list & He). exists (k, e). auto. }
  case_bool_decide as Hb; rewrite Hk in Hb.
  - destruct Hb as (e & -> & ->). done.
  - destruct (data s !! k) as [e|] eqn:E; [|done].
    destruct (is_expired e now) eqn:Ee; [|done]. destruct Hb. eauto.
Qed.
Lemma prune_path now s : has_path (prune_expired W now s) = has_path s.
Proof.
  unfold prune_expired. generalize ((filter (λ kv, is_expired kv.2 now = true)
    (iter W (data s))).*1) as l.
  intros l. revert s. induction l as [|x l IH]; intros s; [done|]. simpl.
  rewrite IH. unfold prune_key. by rewrite append_wal_path.
Qed.

#[local] Instance pair_le_total : Total (@pair_le Value).
Proof. intros a b. apply rstr_le_total. Qed.
#[local] Instance pair_le_trans : Transitive (@pair_le Value).
Proof. intros a b c. apply rstr_le_trans. Qed.
Lemma sort_pairs_perm (l : list (rstr * Value)) : sort_pairs l ≡ₚ l.
Proof. apply merge_sort_Permutation. Qed.
Lemma sort_pairs_sorted (l : list (rstr * Value)) : StronglySorted rstr_le (sort_pairs l).*1.
Proof.
  assert (StronglySorted (@pair_le Value) (sort_pairs l)) as Hs.
  { apply Sorted_StronglySorted; [apply _|]. apply Sorted_merge_sort, _. }
  induction Hs as [|a l' Hs IH Hall]; [constructor|]. simpl. constructor; [done|].
  apply Forall_fmap. eapply Forall_impl; [done|]. auto.
Qed.
Lemma entries_elem now s prefix k v :
  (k, v) ∈ (entries W now s prefix).2 ↔
  prefix_matches prefix k = true ∧ ∃ exp, alive now (data s) !! k =
    Some {| value := v; expires_at := exp |}.
Proof.
  unfold entries. simpl. rewrite sort_pairs_perm, list_elem_of_fmap.
  setoid_rewrite list_elem_of_filter. setoid_rewrite iter_all. rewrite prune_data.
  split.
  - intros ([k' [v' exp]] & [= -> ->] & Hp & Hin%elem_of_map_to_list). eauto.
  - intros (Hp & exp & Hin%elem_of_map_to_list).
    exists (k, {| value := v; expires_at := exp |}). auto.
Qed.
Lemma entries_NoDup now s prefix : NoDup (entries W now s prefix).2.*1.
Proof.
  unfold entries. simpl. rewrite sort_pairs_perm, <-list_fmap_compose.
  eapply sublist_NoDup; [|apply fmap_sublist, sublist_filter].
  change (NoDup (iter W (data (prune_expired W now s))).*1).
  rewrite iter_all. apply NoDup_fst_map_to_list.
Qed.
End listing.

(** A listing returns exactly the live entries whose key has the prefix, each
    key once and in byte order, after expired entries are pruned; a scan is the
    first [limit] of them, in a store that then holds only live entries. *)
Theorem kv_scan_exact {Value} (W : KvWorld Value) `{!KvLaws W} now s prefix limit :
  let '(s', l) := scan W now s prefix limit in
  let all := (entries W now s (Some prefix)).2 in
  data s' = alive now (data s) ∧
  l = match limit with Some n => take n all | None => all end ∧
  StronglySorted rstr_le all.*1 ∧ NoDup all.*1 ∧
  ∀ k v, (k, v) ∈ all ↔ (prefix = [] ∨ prefix `prefix_of` k) ∧
    ∃ exp, alive now (data s) !! k = Some {| value := v; expires_at := exp |}.
Proof.
  unfold scan. destruct (entries W now s (Some prefix)) as [s' all] eqn:E. simpl.
  split; [unfold entries in E; simplify_eq; apply prune_data|]. split; [done|].
  assert (all = (entries W now s (Some prefix)).2) as -> by (by rewrite E).
  split; [apply sort_pairs_sorted|]. split; [apply entries_NoDup|].
  intros k v. rewrite entries_elem. simpl. case_bool_decide.
  - naive_solver.
  - rewrite starts_with_spec. naive_solver.
Qed.
Example kv_scan_exact_witness :
  let s := kv_run Toy.world new_memory
    [(5%Z, KSet "b" (Some 1%Z) None); (5%Z, KSet "a" (Some 2%Z) None);
     (5%Z, KSet "c" (Some 3%Z) (Some 1%Z))] in
  (scan Toy.world 9 s "" (Some 5)).2 = [("a" : rstr, Some 2%Z); ("b" : rstr, Some 1%Z)] ∧
  data (scan Toy.world 9 s "" (Some 5)).1 = alive 9 (data s).
Proof.
  intros s. split; [vm_compute; reflexivity|].
  pose proof (kv_scan_exact Toy.world 9 s "" (Some 5)) as H.
  destruct (scan Toy.world 9 s "" (Some 5)) as [s' l]. apply H.
Defined.

(** Time to live.  A value stored at [now] with a time to live of [ms] is
    returned by every [get] before [now + ms] and by none from then on, as long
    as the sum does not overflow [u64]; the first [get] after that removes the
    entry from the map and from the file.  Without a time to live it never
    expires. *)
Theorem kv_ttl {Value} (W : KvWorld Value) now t s key val ttl :
  (∀ ms, ttl = Some ms → in_u64 (now + ms)) →
  let s1 := set_ W now s key val ttl in
  let '(s2, r) := get W t s1 key in
  match ttl with
  | Some ms =>
      if bool_decide (t < now + ms)%Z then r = Some val ∧ s2 = s1
      else r = None ∧ data s2 = delete key (data s1) ∧
           s2 = append_wal W (with_data s1 (delete key (data s1))) (Del key)
  | None => r = Some val ∧ s2 = s1
  end.
Proof.
  intros Hu s1. unfold get.
  assert (data s1 !! key = Some
    {| value := val; expires_at := (λ ms, wrap_u64 (now + ms)) <$> ttl |}) as ->.
  { unfold s1, set_. rewrite append_wal_data. apply lookup_insert_eq. }
  destruct ttl as [ms|]; simpl; [|done]. unfold is_expired. simpl.
  rewrite wrap_u64_id by (by apply Hu).
  bd_case (now + ms ≤ t)%Z.
  - rewrite bool_decide_eq_false_2 by lia. rewrite append_wal_data. done.
  - rewrite bool_decide_eq_true_2 by lia. done.
Qed.
Example kv_ttl_witness :
  let s1 := set_ Toy.world 100 new_memory "k" (Some 7%Z) (Some 50%Z) in
  let '(s2, r) := get Toy.world 150 s1 "k" in
  r = None ∧ data s2 = delete ("k" : rstr) (data s1) ∧
  s2 = append_wal Toy.world (with_data s1 (delete ("k" : rstr) (data s1))) (Del "k").
Proof.
  apply (kv_ttl Toy.world 100 150 new_memory "k" (Some 7%Z) (Some 50%Z)).
  intros ms [= <-]. split; vm_compute; congruence.
Defined.

(** Compaction writes a file that recovers the same live entries at any time
    from then on, and keeps the log open.  But if the rename fails, the store
    goes on without a log: later operations change the map only, and the file
    stays as it is. *)
Theorem kv_compaction {Value} (W : KvWorld Value) `{!KvLaws W} now s :
  has_path s = true → storable_data (data s) →
  let '(s1, r) := compact W AllDone now s in
  r = Ok tt ∧ data s1 = alive now (data s) ∧ wal_file s1 = true ∧
  (∀ t, ∃ s', open_store W (Ok tt) t (disk s1) = Ok s' ∧
     alive t (data s') = alive t (alive now (data s))) ∧
  let '(s2, r2) := compact W RenameFails now s in
  is_ok r2 = false ∧ data s2 = alive now (data s) ∧
  ∀ k v ttl t, disk (set_ W t s2 k v ttl) = disk s2 ∧ disk (delete_ W s2 k).1 = disk s2.
Proof.
  intros Hp Hst. unfold compact. rewrite Hp. cbv zeta.
  destruct (compact_image_recovers (data (prune_expired W now s))) as (im & -> & Hc & Hr).
  { rewrite prune_data. intros k e (He & _)%map_lookup_filter_Some. by apply (Hst k e). }
  simpl. split; [done|]. split; [apply prune_data|]. split; [done|]. split.
  - intros t. destruct (Hr t) as (x & Hx & Ha). eexists. unfold open_store. rewrite Hx.
    split; [done|]. simpl. by rewrite Ha, prune_data.
  - split; [done|]. split; [apply prune_data|]. intros k v ttl t.
    unfold set_, delete_. split; [done|by case_match].
Qed.
Example kv_compaction_witness :
  let s := kv_run Toy.world
    {| has_path := true; data := (∅ : gmap rstr (KVEntry (option Z))); wal_file := true; disk := Some [] |}
    [(5%Z, KSet "a" (Some 1%Z) None); (6%Z, KIncr "a" 1)] in
  has_path s = true ∧ (compact Toy.world AllDone 9 s).2 = Ok tt.
Proof.
  intros s. split; [done|].
  pose proof (kv_compaction Toy.world 9 s eq_refl (λ _ _ _, I)) as H.
  destruct (compact Toy.world AllDone 9 s) as [s1 r]. exact (proj1 H).
Defined.

(** A batch is not a transaction: the operations before the first one with
    an unknown name stay applied and logged although the batch reports an error,
    and those after it are not run. *)
Theorem kv_batch_not_atomic {Value} (W : KvWorld Value) now s pre bad post :
  Forall (λ op, is_ok (batch_op W now s op).2 = true) pre →
  is_ok (batch_op W now s bad).2 = false →
  let '(s', r) := batch W now s (pre ++ bad :: post) in
  r = Err ("Unknown batch operation type '" ++ to_lowercase (op_type bad) ++ "'") ∧
  s' = foldl (λ s op, (batch_op W now s op).1) s pre.
Proof.
  intros Hpre Hbad.
  assert (∀ s' op, is_ok (batch_op W now s' op).2 = is_ok (batch_op W now s op).2) as Hind.
  { intros s' op. unfold batch_op. by repeat case_bool_decide. }
  assert (∀ op, is_ok (batch_op W now s op).2 = false → ∀ s', batch_op W now s' op =
    (s', Err ("Unknown batch operation type '" ++ to_lowercase (op_type op) ++ "'"))) as Herr.
  { intros op. unfold batch_op. by repeat case_bool_decide. }
  assert (∀ s', let '(s'', r) := batch W now s' (pre ++ bad :: post) in
    r = Err ("Unknown batch operation type '" ++ to_lowercase (op_type bad) ++ "'") ∧
    s'' = foldl (λ s op, (batch_op W now s op).1) s' pre) as H; [|apply H].
  induction Hpre as [|op pre Hop Hpre IH]; intros s'; simpl.
  - by rewrite (Herr bad Hbad s').
  - rewrite <-(Hind s' op) in Hop. destruct (batch_op W now s' op) as [s1 [u|]]; [|done].
    apply IH.
Qed.
Definition put_op (k : rstr) (z : Z) : BatchOp (option Z) :=
  {| op_type := "put"; op_key := k; op_value := Some (Some z); ttl_ms := None |}.
Definition bad_op : BatchOp (option Z) :=
  {| op_type := "merge"; op_key := "x"; op_value := None; ttl_ms := None |}.
Example kv_batch_not_atomic_witness :
  let '(s', r) := batch Toy.world 1 new_memory ([put_op "a" 1] ++ bad_op :: [put_op "b" 2]) in
  r = Err ("Unknown batch operation type '" ++ to_lowercase "merge" ++ "'") ∧
  s' = foldl (λ s op, (batch_op Toy.world 1 s op).1) new_memory [put_op "a" 1].
Proof.
  apply (kv_batch_not_atomic Toy.world 1 new_memory [put_op "a" 1] bad_op [put_op "b" 2]);
    [by repeat constructor|done].
Defined.

(** [incr] on a live integer adds in [i64], wrapping around, keeps the
    entry's expiry, and the next [get] returns the sum; on a missing or expired
    key it starts from zero without expiry; on a value that is no number it
    fails and changes nothing. *)
Theorem kv_incr {Value} (W : KvWorld Value) `{!KvLaws W} now s key delta :
  let '(s', r) := incr W now s key delta in
  match alive now (data s) !! key with
  | Some e =>
      match as_i64 W (value e) with
      | Some n => r = Ok (wrap_i64 (n + delta)) ∧
          data s' = <[key := {| value := of_i64 W (wrap_i64 (n + delta));
                                expires_at := expires_at e |}]> (data s) ∧
          ∃ v, (get W now s' key).2 = Some v ∧ as_i64 W v = Some (wrap_i64 (n + delta))
      | None => as_f64_to_i64 W (value e) = None →
          r = Err ("Value for key '" ++ key ++ "' is not a number") ∧ s' = s
      end
  | None => r = Ok (wrap_i64 delta) ∧
      data s' = <[key := {| value := of_i64 W (wrap_i64 delta); expires_at := None |}]> (data s)
  end.
Proof.
  rewrite alive_lookup. unfold incr.
  destruct (data s !! key) as [e|] eqn:E; [|by rewrite append_wal_data].
  destruct (is_expired e now) eqn:Ee; [by rewrite append_wal_data|].
  destruct (as_i64 W (value e)) as [n|] eqn:En.
  - rewrite append_wal_data. simpl. split; [done|]. split; [done|].
    exists (of_i64 W (wrap_i64 (n + delta))). split; [|apply as_of_i64, wrap_i64_range].
    unfold get. rewrite append_wal_data. simpl. rewrite lookup_insert_eq.
    assert (is_expired {| value := of_i64 W (wrap_i64 (n + delta));
      expires_at := expires_at e |} now = false) as -> by done. done.
  - destruct (as_f64_to_i64 W (value e)); [done|]. intros _. done.
Qed.
Example kv_incr_witness :
  let s := set_ Toy.world 1 new_memory "n" (Some (2 ^ 63 - 1)%Z) None in
  (incr Toy.world 2 s "n" 1).2 = Ok (- 2 ^ 63)%Z.
Proof.
  intros s. pose proof (kv_incr Toy.world 2 s "n" 1) as H.
  destruct (incr Toy.world 2 s "n" 1) as [s' r].
  assert (alive 2 (data s) !! ("n" : rstr) = Some {| value := Some (2 ^ 63 - 1)%Z; expires_at := None |})
    as E by (rewrite alive_lookup; vm_compute; reflexivity).
  rewrite E in H. simpl in H. destruct H as [-> _]. reflexivity.
Defined.

(** ** The registry and the native dispatcher

    Stores are handed to JavaScript as numbers.  A call is its action and what
    V8 converts its arguments to; what the call returns is [KvReturn], with JSON
    values left as values. *)
Section dispatch.
Context {Value : Type} (W : KvWorld Value).
(** [serde_json::from_str] on a value and on a list of batch operations. *)
Context (parse_value : rstr → option Value) (parse_ops : rstr → option (list (BatchOp Value))).

Record Registry := { STORE_COUNTER : Z; STORES : gmap Z (KVStore Value) }.
Definition registry_init : Registry := {| STORE_COUNTER := 1; STORES := ∅ |}.

(** The operating system's answers during the call. *)
Record KvOs := {
  clock : Z;
  open_append : io_result unit;
  file_at : rstr → option rstr;
  compacting : CompactOutcome;
}.
Inductive KvReturn :=
  | Undefined
  | Number (z : Z)
  | Boolean (b : bool)
  | JsonValue (v : option Value)        (* the string null for [None] *)
  | JsonKeys (l : list rstr)
  | JsonValues (l : list Value)
  | JsonEntries (l : list (rstr * Value))
  | ThrowTypeError (msg : rstr)
  | ThrowError (msg : rstr).

Definition register_store (r : Registry) (s : KVStore Value) : Registry * Z :=
  ({| STORE_COUNTER := wrap_u64 (STORE_COUNTER r + 1);
      STORES := <[STORE_COUNTER r := s]> (STORES r) |}, STORE_COUNTER r).
Definition with_store {R} (r : Registry) (id : Z) (f : KVStore Value → KVStore Value * R) :
    Registry * option R :=
  match STORES r !! id with
  | Some s => let '(s', x) := f s in
              ({| STORE_COUNTER := STORE_COUNTER r; STORES := <[id := s']> (STORES r) |}, Some x)
  | None => (r, None)
  end.

Definition kv_native_dispatch (os : KvOs) (r : Registry) (args : JsArgs) : Registry * KvReturn :=
  if bool_decide (argc args = 0) then (r, Undefined) else
  let action := arg_str args 0 in
  let now := clock os in
  let id := u64_arg args 1 0 in
  let prefix_of_arg := non_empty (arg_str args 2) in
  if bool_decide (action = "open") then
    if bool_decide (argc args < 2) then (r, ThrowTypeError "KVStore.open requires a path")
    else match open_store W (open_append os) now (file_at os (arg_str args 1)) with
         | Ok s => let '(r, id) := register_store r s in (r, Number id)
         | Err (_, e) => (r, ThrowError ("Failed to open KVStore: " ++ e))
         end
  else if bool_decide (action = "open_memory") then
    let '(r, id) := register_store r new_memory in (r, Number id)
  else if bool_decide (action = "get") then
    let '(r, v) := with_store r id (λ s, get W now s (arg_str args 2)) in
    (r, JsonValue (mjoin v))
  else if bool_decide (action = "set") then
    let ttl_num := (arg_int args 4) .unwrap_or (-1)%Z in
    let ttl := if bool_decide (ttl_num > 0)%Z then Some ttl_num else None in
    let val := (parse_value (arg_str args 3)) .unwrap_or (null W) in
    let '(r, x) := with_store r id (λ s, (set_ W now s (arg_str args 2) val ttl, true)) in
    (r, Boolean (x .unwrap_or false))
  else if bool_decide (action = "del") then
    let '(r, x) := with_store r id (λ s, delete_ W s (arg_str args 2)) in
    (r, Boolean (x .unwrap_or false))
  else if bool_decide (action = "has") then
    let '(r, x) := with_store r id (λ s, has W now s (arg_str args 2)) in
    (r, Boolean (x .unwrap_or false))
  else if bool_decide (action = "keys") then
    let '(r, l) := with_store r id (λ s, keys W now s prefix_of_arg) in
    (r, JsonKeys (l .unwrap_or []))
  else if bool_decide (action = "values") then
    let '(r, l) := with_store r id (λ s, values W now s) in (r, JsonValues (l .unwrap_or []))
  else if bool_decide (action = "entries") then
    let '(r, l) := with_store r id (λ s, entries W now s prefix_of_arg) in
    (r, JsonEntries (l .unwrap_or []))
  else if bool_decide (action = "scan") then
    let limit_num := (arg_int args 3) .unwrap_or (-1)%Z in
    let limit := if bool_decide (limit_num > 0)%Z then Some (Z.to_nat limit_num) else None in
    let '(r, l) := with_store r id (λ s, scan W now s (arg_str args 2) limit) in
    (r, JsonEntries (l .unwrap_or []))
  else if bool_decide (action = "incr") then
    let delta := (arg_int args 3) .unwrap_or 1%Z in
    let '(r, x) := with_store r id (λ s, incr W now s (arg_str args 2) delta) in
    (r, match x with
        | Some (Ok n) => Number n
        | Some (Err e) => ThrowTypeError e
        | None => ThrowError "KVStore not found"
        end)
  else if bool_decide (action = "batch") then
    match parse_ops (arg_str args 2) with
    | Some ops =>
        let '(r, x) := with_store r id (λ s, batch W now s ops) in
        (r, match x with
            | Some (Ok _) => Boolean true
            | Some (Err e) => ThrowError e
            | None => ThrowError "KVStore not found"
            end)
    | None => (r, ThrowTypeError "Invalid batch operations JSON")
    end
  else if bool_decide (action = "clear") then
    let '(r, x) := with_store r id (λ s, (clear W s, true)) in
    (r, Boolean (x .unwrap_or false))
  else if bool_decide (action = "compact") then
    let '(r, x) := with_store r id (λ s,
      let '(s, x) := compact W (compacting os) now s in (s, is_ok x)) in
    (r, Boolean (x .unwrap_or false))
  else if bool_decide (action = "flush") then
    let '(r, x) := with_store r id (λ s, (s, true)) in (r, Boolean (x .unwrap_or false))
  else if bool_decide (action = "close") then
    let '(r, x) := with_store r id (λ s, (close s, true)) in
    ({| STORE_COUNTER := STORE_COUNTER r; STORES := delete id (STORES r) |},
     Boolean (x .unwrap_or false))
  else (r, ThrowTypeError ("Unknown action '" ++ action ++ "'")).
End dispatch.
Arguments Registry : clear implicits.

(** The registry never holds a number it has not handed out. *)
Definition registry_fresh {Value} (r : Registry Value) : Prop :=
  ∀ id, (STORE_COUNTER r ≤ id)%Z → STORES r !! id = None.

Lemma with_store_other {Value R} (r : Registry Value) id f id' :
  id' ≠ id → STORES (with_store (R:=R) r id f).1 !! id' = STORES r !! id'.
Proof.
  intros Hne. unfold with_store. destruct (STORES r !! id) as [s|]; [|done].
  destruct (f s). simpl. by rewrite lookup_insert_ne.
Qed.
Lemma with_store_missing {Value R} (r : Registry Value) id f :
  STORES r !! id = None → with_store (R:=R) r id f = (r, None).
Proof. unfold with_store. by intros ->. Qed.

(** The names of the actions on one store. *)
Definition store_actions : list rstr :=
  ["get" : rstr; "set" : rstr; "del" : rstr; "has" : rstr; "keys" : rstr; "values" : rstr;
   "entries" : rstr; "scan" : rstr; "incr" : rstr; "batch" : rstr; "clear" : rstr;
   "compact" : rstr; "flush" : rstr; "close" : rstr].

(** One branch of the dispatcher: the registry comes from [with_store]. *)
Ltac dispatch_branch id' :=
  match goal with
  | |- context [with_store ?r ?i ?f] =>
      pose proof (with_store_other r i f id') as Hother;
      pose proof (with_store_missing r i f) as Hmiss;
      destruct (with_store r i f) as [r1 x]; simpl in Hother;
      split; [auto|intros _ Hn; specialize (Hmiss Hn); simplify_eq; eauto 12]
  end.

(** Stores do not interfere: a call changes at most the store whose number it
    names, and opening one changes no other; a call on a number that names no
    store (never opened, or closed) changes nothing and answers [false], an
    empty list, [null] or an exception, never data. *)
Theorem kv_stores_isolated {Value} (W : KvWorld Value) pv po os r args id' :
  registry_fresh r →
  let '(r', x) := kv_native_dispatch W pv po os r args in
  let id := u64_arg args 1 0 in
  (id' ≠ id → is_Some (STORES r !! id') → STORES r' !! id' = STORES r !! id') ∧
  (arg_str args 0 ∈ store_actions → STORES r !! id = None →
     STORES r' = STORES r ∧
     (x = Boolean false ∨ x = JsonValue None ∨ x = JsonKeys [] ∨ x = JsonValues [] ∨
      x = JsonEntries [] ∨ x = Undefined ∨ (∃ e, x = ThrowError e) ∨ ∃ e, x = ThrowTypeError e)).
Proof.
  intros Hf. unfold kv_native_dispatch. cbv zeta.
  set (id := u64_arg args 1 0).
  case_bool_decide as Ha; [by split; eauto 10|]. clear Ha.
  assert (∀ s, is_Some (STORES r !! id') →
    STORES (register_store r s).1 !! id' = STORES r !! id') as Hreg.
  { intros s [x Hx]. unfold register_store. simpl. apply lookup_insert_ne. intros Heq.
    rewrite (Hf id') in Hx by lia. done. }
  assert (("open" : rstr) ∉ store_actions ∧ ("open_memory" : rstr) ∉ store_actions) as [Hn1 Hn2]
    by (split; apply (bool_decide_unpack _); vm_compute; exact I).
  case_bool_decide as Ho.
  { rewrite Ho. case_bool_decide; [split; [done|by intros ?%Hn1]|].
    destruct (open_store _ _ _ _) as [s|[k e]]; (split; [|by intros ?%Hn1]);
      [intros _; apply (Hreg s)|done]. }
  case_bool_decide as Hm.
  { rewrite Hm. split; [intros _; apply (Hreg new_memory)|by intros ?%Hn2]. }
  clear Hreg Hn1 Hn2.
  do 9 (case_bool_decide; [dispatch_branch id'|]).
  case_bool_decide.
  { destruct (po _); [|by split; eauto 12]. dispatch_branch id'. }
  do 3 (case_bool_decide; [dispatch_branch id'|]).
  case_bool_decide.
  { match goal with |- context [with_store ?r ?i ?f] =>
      pose proof (with_store_other r i f id') as Hother;
      pose proof (with_store_missing r i f) as Hmiss;
      destruct (with_store r i f) as [r1 x] end.
    simpl in *. split.
    - intros Hne Hs. rewrite lookup_delete_ne by done. auto.
    - intros _ Hn. specialize (Hmiss Hn). simplify_eq. split; [|auto].
      by rewrite delete_id. }
  split; [done|]. eauto 12.
Qed.
Definition quiet_os : KvOs :=
  {| clock := 1; open_append := Ok tt; file_at := λ _, None; compacting := AllDone |}.
Example kv_stores_isolated_witness :
  let '(r1, x) := kv_native_dispatch Toy.world (λ _, None) (λ _, None) quiet_os
    (registry_init : Registry (option Z)) (args_of ["get" : rstr; [] : rstr; "k" : rstr] 7) in
  STORES r1 = STORES (registry_init : Registry (option Z)) ∧ x = JsonValue None.
Proof.
  pose proof (kv_stores_isolated Toy.world (λ _, None) (λ _, None) quiet_os
    (registry_init : Registry (option Z)) (args_of ["get" : rstr; [] : rstr; "k" : rstr] 7) 3)
    as H.
  assert (registry_fresh (registry_init : Registry (option Z))) as Hf by done.
  specialize (H Hf).
  destruct (kv_native_dispatch _ _ _ _ _ _) as [r1 x] eqn:E. destruct H as [_ H].
  split; [apply H; [left|done]|]. vm_compute in E. by simplify_eq.
Defined.
