(* ===== verification/NodePath.v ===== *)
(** * Node's [path] module, [src/nodejs_core/path.rs]

    Each callback is a function from the strings V8 converts its arguments to;
    [None] is a conversion that throws.  [cfg!(windows)] is the argument
    [is_windows].  A slice out of range or inside a character panics, which
    aborts the process: the functions that slice return [option]. *)

From S2P Require Import Prelude.

Definition separator (is_windows : bool) : ascii := if is_windows then backslash else slash.

(** [s.replace(c, &d)] for two characters. *)
Definition replace_char (c d : ascii) (s : rstr) : rstr :=
  map (λ a, if bool_decide (a = c) then d else a) s.
(** [s[..n]] *)
Definition slice_to (s : rstr) (n : nat) : option rstr :=
  if bool_decide (n ≤ length s) then
    match s !! n with
    | Some b => if cont b then None else Some (take n s)
    | None => Some s
    end
  else None.
(** [s.chars().nth(1) == Some(c)] for an ASCII [c]. *)
Definition char_len (a : ascii) : nat :=
  let n := N_of_ascii a in
  if bool_decide (n < 192)%N then 1 else if bool_decide (n < 224)%N then 2
  else if bool_decide (n < 240)%N then 3 else 4.
Definition second_char_is (s : rstr) (c : ascii) : bool :=
  match s with
  | [] => false
  | a :: _ => bool_decide (s !! char_len a = Some c)
  end.

(** ** [normalize_path] *)

(** The loop over the parts; [stack] has its top at the end. *)
Definition push_part (is_absolute : bool) (stack : list rstr) (part : rstr) : list rstr :=
  if bool_decide (part ≠ "..") then stack ++ [part]
  else match last stack with
       | Some top =>
           if bool_decide (top ≠ "..") then take (length stack - 1) stack
          else if negb is_absolute then stack ++ [".." : rstr] else stack
       | None => if negb is_absolute then stack ++ [".." : rstr] else stack
       end.
Definition kept_parts (sep : ascii) (s : rstr) : list rstr :=
  filter (λ part, part ≠ [] ∧ part ≠ ".") (split_on sep s).

Definition root_len (s : rstr) (is_windows : bool) : nat :=
  if is_windows && bool_decide (3 ≤ length s) && bool_decide (s !! 1 = Some (":" : ascii))
     && bool_decide (s !! 2 = Some backslash) then 3
  else if starts_with [separator is_windows] s then 1 else 0.

Definition normalize_path (path : rstr) (is_windows : bool) : rstr :=
  let sep := separator is_windows in
  let other := separator (negb is_windows) in
  let replaced := replace_char other sep path in
  let n := root_len replaced is_windows in
  let root := take n replaced in
  let is_absolute := bool_decide (0 < n) in
  let body := drop n replaced in
  let keeps_trailing_separator := negb (bool_decide (body = [])) && ends_with [sep] body in
  let stack := foldl (push_part is_absolute) [] (kept_parts sep body) in
  let result := root ++ join [sep] stack in
  let result := if keeps_trailing_separator && negb (ends_with [sep] result)
                then result ++ [sep] else result in
  if bool_decide (result = []) then "." else result.

(** ** The callbacks *)

Fixpoint join_loop (sep : ascii) (result : rstr) (first : bool) (paths : list rstr) : rstr :=
  match paths with
  | [] => result
  | p :: paths' =>
      let result := if first then result
                    else if ends_with [sep] result then result else result ++ [sep] in
      join_loop sep (result ++ p) false paths'
  end.
Definition path_join (is_windows : bool) (args : list (option rstr)) : rstr :=
  let paths : list rstr := filter (λ s, s ≠ []) (omap id args) in
  normalize_path (join_loop (separator is_windows) [] true paths) is_windows.

Definition is_absolute_path (path : rstr) (is_windows : bool) : bool :=
  if is_windows then
    starts_with [backslash] path || starts_with [slash] path
    || (bool_decide (3 ≤ length path) && bool_decide (path !! 1 = Some (":" : ascii))
        && (bool_decide (path !! 2 = Some backslash) || bool_decide (path !! 2 = Some slash)))
  else starts_with [slash] path.

(** The walk from right to left: the text built and whether an absolute segment
    stopped it. *)
Fixpoint resolve_loop (is_windows : bool) (rev_paths : list rstr) (resolved : rstr) :
    rstr * bool :=
  match rev_paths with
  | [] => (resolved, false)
  | p :: rest =>
      if bool_decide (p = []) then resolve_loop is_windows rest resolved
      else
        let resolved := if bool_decide (resolved = []) then p
                        else p ++ [separator is_windows] ++ resolved in
        if is_absolute_path p is_windows then (resolved, true)
        else resolve_loop is_windows rest resolved
  end.
(** [while result.len() > 1 && result.ends_with(separator) { result.pop(); }] *)
Fixpoint pop_separators (sep : ascii) (fuel : nat) (s : rstr) : rstr :=
  match fuel with
  | 0 => s
  | S n => if bool_decide (1 < length s) && ends_with [sep] s
           then pop_separators sep n (take (length s - 1) s) else s
  end.
(** [cwd] is the text of [std::env::current_dir()], if there is one. *)
Definition path_resolve (is_windows : bool) (cwd : option rstr) (args : list (option rstr)) : rstr :=
  let paths : list rstr := omap id args in
  let '(resolved, reached_absolute) := resolve_loop is_windows (reverse paths) [] in
  let resolved :=
    if reached_absolute then resolved
    else let cwd : rstr := cwd .unwrap_or ("." : rstr) in
         if bool_decide (resolved = []) then cwd
         else cwd ++ [separator is_windows] ++ resolved in
  let result := normalize_path resolved is_windows in
  pop_separators (separator is_windows) (length result) result.

(** How many leading parts two paths share. *)
Fixpoint common_prefix (a b : list rstr) : nat :=
  match a, b with
  | x :: a', y :: b' => if bool_decide (x = y) then S (common_prefix a' b') else 0
  | _, _ => 0
  end.
Fixpoint relative_rest (sep : rstr) (last_part : option rstr) (parts : list rstr) : rstr :=
  match parts with
  | [] => []
  | part :: parts' =>
      part ++ (if bool_decide (Some part ≠ last_part) then sep else [])
           ++ relative_rest sep last_part parts'
  end.
Definition path_relative (is_windows : bool) (from to : option rstr) : rstr :=
  let parts s := filter (λ p, p ≠ []) (split_on (separator is_windows) s) in
  let from_parts := parts (from .unwrap_or []) in
  let to_parts := parts (to .unwrap_or []) in
  let i := common_prefix from_parts to_parts in
  let result := mjoin (replicate (length from_parts - i) ("../" : rstr))
                ++ relative_rest "/" (last to_parts) (drop i to_parts) in
  if bool_decide (result = []) then "." else result.

Definition path_dirname (is_windows : bool) (arg : option rstr) : option rstr :=
  let path := arg .unwrap_or [] in
  if is_windows then
    if bool_decide (length path = 2) && second_char_is path ":" then Some path
    else if bool_decide (2 < length path) && second_char_is path ":" then slice_to path 2
    else match rfind backslash path with
         | Some 0 => Some [backslash]
         | Some i => Some (take i path)
         | None => Some ("." : rstr)
         end
  else if bool_decide (path = "/") then Some ("/" : rstr)
  else match rfind slash path with
       | Some 0 => Some ("/" : rstr)
       | Some i => Some (take i path)
       | None => Some ("." : rstr)
       end.

(** What follows the last separator. *)
Definition base_of (sep : ascii) (path : rstr) : rstr :=
  match rfind sep path with Some i => drop (S i) path | None => path end.
Definition path_basename (is_windows : bool) (arg ext : option rstr) : rstr :=
  let path := arg .unwrap_or [] in
  let ext := ext .unwrap_or [] in
  let basename := base_of (separator is_windows) path in
  if bool_decide (ext ≠ []) && ends_with ext basename
  then take (length basename - length ext) basename else basename.

Definition path_extname (is_windows : bool) (arg : option rstr) : rstr :=
  let basename := base_of (separator is_windows) (arg .unwrap_or []) in
  match rfind "." basename with
  | Some dot_pos =>
      if bool_decide (0 < dot_pos) && bool_decide (basename ≠ "..")
      then drop dot_pos basename else []
  | None => []
  end.

Record Parsed := { p_root : rstr; p_dir : rstr; p_base : rstr; p_ext : rstr; p_name : rstr }.
Definition path_parse (is_windows : bool) (arg : option rstr) : option Parsed :=
  let path := arg .unwrap_or [] in
  let sep := separator is_windows in
  root ← (if is_windows then
            if bool_decide (1 < length path) && second_char_is path ":" then slice_to path 3
            else if starts_with [backslash; backslash] path then Some [backslash; backslash]
            else Some []
          else if starts_with [slash] path then Some [slash] else Some []);
  let dir := match rfind sep path with
             | Some 0 => [sep]
             | Some i => take i path
             | None => []
             end in
  let base := base_of sep path in
  let ext := match rfind "." base with Some i => drop i base | None => [] end in
  let name := if bool_decide (base ≠ []) && bool_decide (length ext < length base)
              then take (length base - length ext) base else base in
  Some {| p_root := root; p_dir := dir; p_base := base; p_ext := ext; p_name := name |}.

(** [None]: the argument converts to no object, and the answer is [null]. *)
Definition path_format (obj : option Parsed) : option rstr :=
  o ← obj;
  let file_part := if bool_decide (p_base o ≠ []) then p_base o else p_name o ++ p_ext o in
  Some (if bool_decide (p_dir o ≠ []) then p_dir o ++ "/" ++ file_part
        else if bool_decide (p_root o ≠ []) then p_root o ++ file_part
        else file_part).

Definition path_is_absolute (is_windows : bool) (arg : option rstr) : bool :=
  let path := arg .unwrap_or [] in
  if is_windows then
    (bool_decide (1 < length path) && second_char_is path ":")
    || starts_with [backslash; backslash] path
  else starts_with [slash] path.

Definition path_normalize (is_windows : bool) (arg : option rstr) : rstr :=
  normalize_path (arg .unwrap_or []) is_windows.

Example normalize_examples :
  normalize_path "/a/./b//../c/" false = ("/a/c/" : rstr) ∧
  normalize_path "../../x/.." false = ("../.." : rstr) ∧
  normalize_path "./" false = ("/" : rstr) ∧
  normalize_path "C:/a/../b" true = ("C:\b" : rstr).
Proof. done. Qed.
Example relative_examples :
  path_relative false (Some ("/a/b/c" : rstr)) (Some ("/a/d" : rstr)) = ("../../d" : rstr) ∧
  path_relative false (Some ("/x" : rstr)) (Some ("/a/b/a" : rstr)) = ("../ab/a" : rstr).
Proof. done. Qed.

(** ** Lemmas: parts of a path (Unix) *)

Definition to_slashes (s : rstr) : rstr := replace_char backslash slash s.
(** The meaningful parts of a path text. *)
Definition parts_of (s : rstr) : list rstr := kept_parts slash (to_slashes s).
(** A part that can be a directory entry: not empty, not [.], no separator. *)
Definition clean (part : rstr) : Prop :=
  part ≠ [] ∧ part ≠ ("." : rstr) ∧ slash ∉ part ∧ backslash ∉ part.

Lemma to_slashes_app s t : to_slashes (s ++ t) = to_slashes s ++ to_slashes t.
Proof. apply map_app. Qed.
Lemma to_slashes_id s : backslash ∉ s → to_slashes s = s.
Proof.
  induction s as [|a s IH]; [done|]. rewrite not_elem_of_cons. intros [? Hs].
  simpl. rewrite bool_decide_eq_false_2 by done. f_equal. by apply IH.
Qed.
Lemma to_slashes_no_backslash s : backslash ∉ to_slashes s.
Proof.
  induction s as [|a s IH]; simpl; [apply not_elem_of_nil|].
  rewrite not_elem_of_cons. split; [|done]. by case_bool_decide.
Qed.
Lemma kept_parts_app s t : kept_parts slash (s ++ slash :: t) = kept_parts slash s ++ kept_parts slash t.
Proof. unfold kept_parts. by rewrite split_on_app, filter_app. Qed.
Lemma parts_of_app s t : parts_of (s ++ slash :: t) = parts_of s ++ parts_of t.
Proof. unfold parts_of. rewrite to_slashes_app. apply kept_parts_app. Qed.
Lemma parts_of_slash s : parts_of (slash :: s) = parts_of s.
Proof. apply (parts_of_app [] s). Qed.
Lemma parts_of_snoc s : parts_of (s ++ [slash]) = parts_of s.
Proof. rewrite parts_of_app. apply app_nil_r. Qed.

Lemma parts_of_clean s : Forall clean (parts_of s).
Proof.
  apply Forall_forall. intros part [[Hne Hdot] Hin]%list_elem_of_filter.
  pose proof (split_on_no_sep slash (to_slashes s)) as Hns.
  rewrite Forall_forall in Hns. repeat split; [done|done|by apply Hns|].
  intros Hb. apply (to_slashes_no_backslash s).
  by apply (elem_of_split_on slash part).
Qed.
Lemma clean_join_no_backslash l : Forall clean l → backslash ∉ join [slash] l.
Proof.
  induction 1 as [|p l (_ & _ & _ & Hp) Hl IH]; [apply not_elem_of_nil|].
  destruct l as [|q l]; [done|]. rewrite join_cons by done.
  rewrite !elem_of_app, list_elem_of_singleton. naive_solver.
Qed.
Lemma parts_of_join l : Forall clean l → parts_of (join [slash] l) = l.
Proof.
  intros Hl. unfold parts_of. rewrite to_slashes_id by (by apply clean_join_no_backslash).
  destruct l as [|p l]; [done|].
  unfold kept_parts. rewrite split_on_join; [|done|].
  - induction Hl as [|q l' (? & ? & _) Hl IH]; [done|].
    rewrite filter_cons_True by done. by rewrite IH.
  - eapply Forall_impl; [done|]. by intros q (_ & _ & ? & _).
Qed.
Lemma join_last l : Forall clean l → last (join [slash] l) ≠ Some slash.
Proof.
  induction 1 as [|p l (Hne & _ & Hp & _) Hl IH]; [done|].
  destruct l as [|q l].
  - simpl. intros ?%last_Some_elem_of. done.
  - rewrite join_cons by done. rewrite !last_app.
    destruct (last (join [slash] (q :: l))) eqn:E; [congruence|].
    apply last_None in E. apply Forall_cons in Hl as [(Hq & _) _].
    destruct l; simpl in E; [done|]. by destruct q.
Qed.
Lemma join_head l : Forall clean l → head (join [slash] l) ≠ Some slash.
Proof.
  destruct 1 as [|p l (Hne & _ & Hp & _) Hl]; [done|].
  destruct p as [|a p]; [done|]. apply not_elem_of_cons in Hp as [Hp _].
  destruct l; simpl; congruence.
Qed.
Lemma join_nil l : Forall clean l → join [slash] l = [] → l = [].
Proof.
  destruct 1 as [|p l (Hne & _) Hl]; [done|]. destruct l; simpl; [done|]. by destruct p.
Qed.

(** ** Lemmas: the stack of [normalize_path] *)

(** Walking a directory part by part; the root has no parent. *)
Definition enter (dir : list rstr) (part : rstr) : list rstr :=
  if bool_decide (part = "..") then take (length dir - 1) dir else dir ++ [part].
Definition stack_of (is_absolute : bool) (parts : list rstr) : list rstr :=
  foldl (push_part is_absolute) [] parts.
(** Only a relative path keeps [..], and only in front. *)
Definition reduced (is_absolute : bool) (stack : list rstr) : Prop :=
  ∃ n t, stack = replicate n (".." : rstr) ++ t ∧ Forall (λ p, p ≠ ("..": rstr)) t ∧
         (is_absolute = true → n = 0).

Lemma last_replicate {A} n (x : A) :
  last (replicate n x) = match n with 0 => None | S _ => Some x end.
Proof. induction n as [|[|n] IH]; done. Qed.
Lemma reduced_push abs stack part : reduced abs stack → reduced abs (push_part abs stack part).
Proof.
  intros (n & t & -> & Ht & Hn). unfold push_part. case_bool_decide as Hp.
  - exists n, (t ++ [part]). rewrite app_assoc. split; [done|]. split; [|done].
    apply Forall_app_2; [done|]. by constructor.
  - subst part. destruct t as [|x t _] using rev_ind.
    + rewrite app_nil_r. destruct n as [|n].
      * simpl. destruct abs; simpl; [by exists 0, []|]. by exists 1, [].
      * rewrite <-(Nat.add_1_r n), replicate_add. simpl. rewrite last_snoc.
        rewrite bool_decide_eq_false_2 by (intros []; done).
        destruct abs; simpl; [by specialize (Hn eq_refl)|].
        exists (n + 2), []. rewrite app_nil_r. split; [|done].
        rewrite <-app_assoc, replicate_add. done.
    + apply Forall_app in Ht as [Ht Hx]. apply Forall_cons in Hx as [Hx _].
      rewrite app_assoc, last_snoc, bool_decide_eq_true_2 by done.
      rewrite length_app. simpl.
      rewrite Nat.add_sub, take_app_length. by exists n, t.
Qed.
Lemma reduced_stack abs parts : reduced abs (stack_of abs parts).
Proof.
  unfold stack_of. assert (reduced abs []) as H by (by exists 0, []).
  revert H. generalize (@nil rstr) as st. induction parts as [|p parts IH]; intros st H; [done|].
  apply IH. by apply reduced_push.
Qed.
Lemma stack_of_reduced abs stack : reduced abs stack → stack_of abs stack = stack.
Proof.
  intros (n & t & -> & Ht & Hn).
  assert (∀ st, foldl (push_part abs) st t = st ++ t) as Htail.
  { induction Ht as [|p t Hp Ht IH]; intros st; simpl; [by rewrite app_nil_r|].
    rewrite IH. unfold push_part. rewrite bool_decide_eq_true_2 by done.
    by rewrite <-app_assoc. }
  unfold stack_of. rewrite foldl_app, Htail. f_equal.
  destruct abs; [by rewrite Hn|]. clear.
  assert (∀ k, foldl (push_part false) (replicate k ("..": rstr)) (replicate n ("..": rstr))
    = replicate (k + n) ("..": rstr)) as H; [|apply (H 0)].
  induction n as [|n IH]; intros k; cbn [replicate foldl]; [by rewrite Nat.add_0_r|].
  assert (push_part false (replicate k ("..": rstr)) ".." = replicate (S k) ("..": rstr)) as ->.
  { unfold push_part. rewrite bool_decide_eq_false_2 by (intros []; done).
    rewrite last_replicate. destruct k as [|k]; [done|]. cbn [bool_decide].
    rewrite bool_decide_eq_false_2 by (intros []; done). cbn [negb].
    by rewrite <-replicate_cons_app. }
  rewrite IH. f_equal. lia.
Qed.
Lemma push_part_elem abs stack part x :
  x ∈ push_part abs stack part → x ∈ stack ∨ x = part.
Proof.
  unfold push_part. repeat case_match; bool_cases; rewrite ?elem_of_app, ?list_elem_of_singleton;
    try (by intros ?%elem_of_take_in; auto); try naive_solver.
  - intros Hx. left. by eapply elem_of_take in Hx as (i & ? & _); eapply list_elem_of_lookup_2.
Qed.
Lemma stack_clean abs parts : Forall clean parts → Forall clean (stack_of abs parts).
Proof.
  intros Hp. unfold stack_of. assert (Forall clean (@nil rstr)) as H by done.
  revert H. generalize (@nil rstr) as st. induction Hp as [|p parts Hp Hps IH]; intros st H; [done|].
  apply IH. rewrite Forall_forall in *. intros x [Hx| ->]%push_part_elem; auto.
Qed.
Lemma enter_push abs d st part :
  reduced abs st → (abs = true → d = []) →
  foldl enter d (push_part abs st part) = enter (foldl enter d st) part.
Proof.
  intros (n & t & -> & Ht & Hn) Hd. unfold push_part. case_bool_decide as Hp.
  { by rewrite foldl_app. }
  subst part.
  destruct t as [|x t _] using rev_ind.
  - rewrite app_nil_r, last_replicate. destruct n as [|n].
    + cbn [replicate foldl]. destruct abs; cbn [negb]; [by rewrite Hd|done].
    + rewrite bool_decide_eq_false_2 by (intros []; done).
      destruct abs; [by specialize (Hn eq_refl)|]. cbn [negb]. by rewrite foldl_app.
  - apply Forall_app in Ht as [Ht Hx]. apply Forall_cons in Hx as [Hx _].
    rewrite app_assoc, last_snoc, bool_decide_eq_true_2 by done.
    rewrite length_app. cbn [length]. rewrite Nat.add_sub, take_app_length.
    rewrite !foldl_app. cbn [foldl].
    generalize (foldl enter (foldl enter d (replicate n (".." : rstr))) t) as y. intros y.
    unfold enter. rewrite (bool_decide_eq_false_2 (x = _)) by done.
    rewrite (bool_decide_eq_true_2 (_ = _)) by done.
    rewrite length_app. cbn [length]. by rewrite Nat.add_sub, take_app_length.
Qed.
Lemma enter_stack abs d parts :
  (abs = true → d = []) → foldl enter d (stack_of abs parts) = foldl enter d parts.
Proof.
  intros Hd. unfold stack_of.
  assert (∀ st, reduced abs st →
    foldl enter d (foldl (push_part abs) st parts) = foldl enter (foldl enter d st) parts) as H.
  { induction parts as [|p parts IH]; intros st Hst; [done|]. cbn [foldl].
    rewrite IH by (by apply reduced_push). by rewrite (enter_push abs). }
  apply (H []). by exists 0, [].
Qed.
Lemma enter_plain d t : Forall (λ p, p ≠ ("..": rstr)) t → foldl enter d t = d ++ t.
Proof.
  intros Ht. revert d. induction Ht as [|p t Hp Ht IH]; intros d; [by rewrite app_nil_r|].
  cbn [foldl]. unfold enter at 2. rewrite bool_decide_eq_false_2 by done.
  by rewrite IH, <-app_assoc.
Qed.
(** From the root, walking is the stack of the absolute path. *)
Lemma enter_root parts : foldl enter [] parts = stack_of true parts.
Proof.
  rewrite <-(enter_stack true) by done.
  destruct (reduced_stack true parts) as (n & t & -> & Ht & Hn). rewrite Hn by done.
  by apply enter_plain.
Qed.

(** [normalize_path] on Unix, in closed form. *)
Definition rooted (s : rstr) : bool := bool_decide (head (to_slashes s) = Some slash).
Definition trailing (s : rstr) : bool :=
  let body := if rooted s then tail (to_slashes s) else to_slashes s in
  bool_decide (last body = Some slash).
Lemma normalize_form s :
  let stack := stack_of (rooted s) (parts_of s) in
  normalize_path s false =
    if rooted s
    then slash :: join [slash] stack ++
           (if trailing s && negb (bool_decide (stack = [])) then [slash] else [])
    else if bool_decide (stack = []) then (if trailing s then [slash] else ".")
    else join [slash] stack ++ (if trailing s then [slash] else []).
Proof.
  cbv zeta. pose proof (stack_clean (rooted s) _ (parts_of_clean s)) as Hc.
  unfold normalize_path, root_len. change (separator (negb false)) with backslash.
  change (separator false) with slash. fold (to_slashes s).
  rewrite starts_with_head. cbn [andb]. fold (rooted s). cbv zeta.
  destruct (rooted s) eqn:Er.
  - assert (∃ body, to_slashes s = slash :: body) as [body Hb].
    { unfold rooted in Er. apply bool_decide_eq_true in Er. by apply head_Some in Er. }
    unfold trailing. rewrite Er, Hb. cbn [take drop tail app].
    rewrite (bool_decide_eq_true_2 (0 < 1)) by lia. rewrite ?drop_0, ?take_0.
    assert (kept_parts slash body = parts_of s) as ->.
    { unfold parts_of. rewrite Hb. apply (kept_parts_app []). }
    fold (stack_of true (parts_of s)) in *. rewrite !ends_with_last.
    assert (negb (bool_decide (body = [])) && bool_decide (last body = Some slash)
      = bool_decide (last body = Some slash)) as ->.
    { destruct body; [done|]. by rewrite (bool_decide_eq_false_2 (_ = [])). }
    cbn [app]. destruct (bool_decide (last body = Some slash)); cbn [andb]; cycle 1.
    { by rewrite app_nil_r. }
    set (st := stack_of true (parts_of s)) in *.
    assert (bool_decide (last (slash :: join [slash] st) = Some slash) = bool_decide (st = [])) as ->.
    { apply bool_decide_ext. split; [|by intros ->].
      intros Hl. apply (join_nil st Hc). pose proof (join_last st Hc) as Hn.
      destruct (join [slash] st); [done|]. by rewrite last_cons_cons in Hl. }
    destruct (bool_decide (st = [])); cbn [negb]; [by rewrite app_nil_r|done].
  - rewrite drop_0, take_0, (bool_decide_eq_false_2 (0 < 0)) by lia. cbn [app].
    change (kept_parts slash (to_slashes s)) with (parts_of s).
    fold (stack_of false (parts_of s)). set (st := stack_of false (parts_of s)) in *.
    unfold trailing. rewrite Er, !ends_with_last.
    assert (negb (bool_decide (to_slashes s = [])) && bool_decide (last (to_slashes s) = Some slash)
      = bool_decide (last (to_slashes s) = Some slash)) as ->.
    { destruct (to_slashes s); [done|]. by rewrite (bool_decide_eq_false_2 (_ = [])). }
    rewrite (bool_decide_eq_false_2 (last (join [slash] st) = _)) by (by apply join_last).
    cbn [negb]. rewrite andb_true_r.
    destruct (decide (st = [])) as [Hst|Hst].
    + rewrite (bool_decide_eq_true_2 (st = [])) by done. rewrite Hst.
      by destruct (bool_decide (last (to_slashes s) = Some slash)).
    + rewrite (bool_decide_eq_false_2 (st = [])) by done.
      assert (join [slash] st ≠ []) by (intros ?%join_nil; done).
      destruct (bool_decide (last (to_slashes s) = Some slash)).
      * by rewrite bool_decide_eq_false_2 by (by destruct (join [slash] st)).
      * by rewrite bool_decide_eq_false_2, app_nil_r.
Qed.

(** ** Lemmas: what a path means *)

(** Changing directory lexically, as Unix programs name files. *)
Definition cd (dir : list rstr) (s : rstr) : list rstr :=
  foldl enter (if starts_with [slash] s then [] else dir) (parts_of s).
(** The spelling of an absolute directory. *)
Definition abs_path (dir : list rstr) : rstr := slash :: join [slash] dir.

Lemma rooted_cons s : rooted (slash :: s) = true.
Proof. done. Qed.
Lemma starts_rooted s : starts_with [slash] s = true → rooted s = true.
Proof.
  rewrite starts_with_head, bool_decide_eq_true. destruct s; [done|]. by intros [= ->].
Qed.
Lemma parts_abs dir : Forall clean dir → parts_of (abs_path dir) = dir.
Proof. intros. unfold abs_path. rewrite parts_of_slash. by apply parts_of_join. Qed.
Lemma to_slashes_join l : Forall clean l → to_slashes (join [slash] l) = join [slash] l.
Proof. intros. by apply to_slashes_id, clean_join_no_backslash. Qed.
Lemma reduced_true_plain l : reduced true l → Forall (λ p, p ≠ ("..": rstr)) l.
Proof. intros (n & t & -> & Ht & Hn). by rewrite Hn. Qed.

(** The parts of a normalised path are its stack. *)
Lemma normalize_parts s : parts_of (normalize_path s false) = stack_of (rooted s) (parts_of s).
Proof.
  rewrite normalize_form. pose proof (stack_clean (rooted s) _ (parts_of_clean s)) as Hc.
  set (st := stack_of (rooted s) (parts_of s)) in *.
  assert (∀ b : bool, parts_of (join [slash] st ++ (if b then [slash] else [])) = st) as Hj.
  { intros []; rewrite ?parts_of_snoc, ?app_nil_r; by apply parts_of_join. }
  destruct (rooted s).
  - rewrite parts_of_slash. apply Hj.
  - case_bool_decide as Hst; [|apply Hj]. rewrite Hst. by destruct (trailing s).
Qed.
Lemma normalize_no_backslash s : backslash ∉ normalize_path s false.
Proof.
  rewrite normalize_form. pose proof (stack_clean (rooted s) _ (parts_of_clean s)) as Hc.
  set (st := stack_of (rooted s) (parts_of s)) in *.
  pose proof (clean_join_no_backslash _ Hc) as Hb.
  assert (backslash ∉ [slash]) as H1 by (by intros ?%list_elem_of_singleton).
  assert (∀ b : bool, backslash ∉ join [slash] st ++ (if b then [slash] else [])) as Hs.
  { intros []; rewrite ?app_nil_r, ?not_elem_of_app; auto. }
  destruct (rooted s); [by apply not_elem_of_cons|].
  case_bool_decide; [|apply Hs]. destruct (trailing s); [done|].
  by intros ?%list_elem_of_singleton.
Qed.

(** [path.normalize] is idempotent: a normalised path, whatever the input
    was, is normalised to itself. *)
Theorem normalize_idempotent s :
  normalize_path (normalize_path s false) false = normalize_path s false.
Proof.
  set (n := normalize_path s false). assert (to_slashes n = n) as Hn
    by apply to_slashes_id, normalize_no_backslash.
  assert (rooted n = bool_decide (head n = Some slash)) as Hr by (unfold rooted; by rewrite Hn).
  assert (parts_of n = stack_of (rooted s) (parts_of s)) as Hp by apply normalize_parts.
  pose proof (stack_clean (rooted s) _ (parts_of_clean s)) as Hc.
  pose proof (reduced_stack (rooted s) (parts_of s)) as Hred.
  rewrite (normalize_form n), Hp.
  pose proof (normalize_form s) as Hf. fold n in Hf. cbv zeta in Hf.
  set (st := stack_of (rooted s) (parts_of s)) in *.
  pose proof (join_last st Hc) as Hl. pose proof (join_head st Hc) as Hh.
  destruct (rooted s) eqn:Ers.
  - assert (rooted n = true) as Hrn by (by rewrite Hr, Hf).
    rewrite Hrn, stack_of_reduced by done. unfold trailing. rewrite Hrn, Hn. rewrite Hf.
    cbn [tail].
    destruct (decide (st = [])) as [Hst|Hst].
    { rewrite Hst. by destruct (trailing s). }
    rewrite (bool_decide_eq_false_2 (st = [])) by done. cbn [negb]. rewrite !andb_true_r.
    destruct (trailing s).
    + rewrite last_snoc, bool_decide_eq_true_2 by done. done.
    + rewrite app_nil_r, bool_decide_eq_false_2 by done. by rewrite app_nil_r.
  - case_bool_decide as Hst.
    { rewrite Hst. rewrite Hf. by destruct (trailing s). }
    assert (rooted n = false) as Hrn.
    { rewrite Hr, Hf. apply bool_decide_eq_false.
      assert (join [slash] st ≠ []) by (by intros ?%join_nil).
      by destruct (join [slash] st). }
    rewrite Hrn, stack_of_reduced, bool_decide_eq_false_2 by done.
    unfold trailing. rewrite Hrn, Hn. rewrite Hf. destruct (trailing s).
    + by rewrite last_snoc, bool_decide_eq_true_2.
    + by rewrite app_nil_r, bool_decide_eq_false_2, app_nil_r.
Qed.

(** [path.normalize] keeps the meaning of a path: from every directory it
    leads to the same place, unless the text starts with a backslash or the
    result is the root without the input being absolute (see the next property). *)
Theorem normalize_same_target s dir :
  head s ≠ Some backslash →
  (normalize_path s false = [slash] → starts_with [slash] s = true) →
  cd dir (normalize_path s false) = cd dir s.
Proof.
  intros Hb Hroot. unfold cd.
  assert (rooted s = starts_with [slash] s) as Hr.
  { rewrite starts_with_head. unfold rooted. apply bool_decide_ext.
    destruct s as [|a s]; [done|]. simpl. case_bool_decide; naive_solver. }
  assert (starts_with [slash] (normalize_path s false) = starts_with [slash] s) as ->.
  { destruct (starts_with [slash] s) eqn:Es.
    - rewrite normalize_form, Hr. by rewrite starts_with_head.
    - destruct (starts_with [slash] (normalize_path s false)) eqn:En; [|done].
      exfalso. rewrite normalize_form in Hroot, En. cbv zeta in Hroot, En.
      rewrite Hr in Hroot, En. rewrite starts_with_head, bool_decide_eq_true in En.
      pose proof (stack_clean false _ (parts_of_clean s)) as Hc.
      set (st := stack_of false (parts_of s)) in *.
      pose proof (join_head st Hc) as Hh. case_bool_decide as Hst.
      { destruct (trailing s); [|done]. by discriminate Hroot. }
      assert (join [slash] st ≠ []) by (by intros ?%join_nil).
      by destruct (join [slash] st). }
  rewrite normalize_parts, Hr. apply enter_stack. by intros ->.
Qed.
Example normalize_same_target_witness :
  cd ["h" : rstr] (normalize_path "a/../../b/" false) = cd ["h" : rstr] "a/../../b/".
Proof. apply normalize_same_target; vm_compute; congruence. Defined.

(** A relative path that ends in a separator and cancels out, such as [./] or
    [a/../], normalises to the root instead of the current directory. *)
Theorem normalize_escapes_to_root s :
  rooted s = false → trailing s = true → stack_of false (parts_of s) = [] →
  normalize_path s false = [slash] ∧ ∀ dir, cd dir s = dir ∧ cd dir (normalize_path s false) = [].
Proof.
  intros Hr Ht Hst.
  assert (normalize_path s false = [slash]) as Hn.
  { rewrite normalize_form. cbv zeta. rewrite Hr, Hst, Ht. done. }
  split; [done|]. intros dir. rewrite Hn. split; [|done]. unfold cd.
  assert (starts_with [slash] s = false) as ->.
  { destruct (starts_with [slash] s) eqn:E; [|done]. apply starts_rooted in E. congruence. }
  by rewrite <-(enter_stack false dir), Hst.
Qed.
Example normalize_escapes_to_root_witness :
  normalize_path "a/../" false = [slash] ∧
  ∀ dir, cd dir "a/../" = dir ∧ cd dir (normalize_path "a/../" false) = [].
Proof. apply normalize_escapes_to_root; reflexivity. Defined.

(** ** [resolve] *)

Lemma resolve_loop_cd dir paths acc :
  let '(t, reached) := resolve_loop false (reverse paths) acc in
  (acc = [] ∨ starts_with [slash] acc = false) →
  (if reached then starts_with [slash] t = true else t = [] ∨ starts_with [slash] t = false) ∧
  foldl enter (if reached then [] else dir) (parts_of t)
  = foldl enter (foldl cd dir paths) (parts_of acc).
Proof.
  revert acc. induction paths as [|p paths IH] using rev_ind; intros acc; [done|].
  rewrite reverse_snoc. cbn [resolve_loop]. rewrite foldl_app. cbn [foldl].
  destruct (decide (p = [])) as [->|Hp].
  { rewrite bool_decide_eq_true_2 by done. apply IH. }
  rewrite bool_decide_eq_false_2 by done.
  change (is_absolute_path p false) with (starts_with [slash] p).
  set (acc' := if bool_decide (acc = []) then p else p ++ [separator false] ++ acc).
  assert (parts_of acc' = parts_of p ++ parts_of acc) as Hparts.
  { unfold acc'. case_bool_decide as Ha; [|apply parts_of_app].
    rewrite Ha. by rewrite app_nil_r. }
  assert (starts_with [slash] acc' = starts_with [slash] p) as Hst.
  { rewrite !starts_with_head. unfold acc'. clear -Hp.
    destruct p as [|a p]; [done|]. by destruct (bool_decide (acc = [])). }
  destruct (starts_with [slash] p) eqn:Ep.
  - intros _. split; [done|]. rewrite Hparts, foldl_app. unfold cd. by rewrite Ep.
  - specialize (IH acc'). destruct (resolve_loop false (reverse paths) acc') as [t reached].
    intros _. destruct IH as [Ht Hr]; [by right; rewrite Hst|]. split; [done|].
    rewrite Hr, Hparts, foldl_app. unfold cd at 2. by rewrite Ep.
Qed.

Lemma pop_separators_stop sep n s : last s ≠ Some sep → pop_separators sep n s = s.
Proof.
  intros Hl. destruct n; [done|]. cbn [pop_separators]. rewrite ends_with_last.
  by rewrite (bool_decide_eq_false_2 _ Hl), andb_false_r.
Qed.

Lemma resolve_cd cwd args :
  starts_with [slash] cwd = true →
  path_resolve false (Some cwd) args = abs_path (foldl cd (cd [] cwd) (omap id args)).
Proof.
  intros Hcwd. unfold path_resolve.
  pose proof (resolve_loop_cd (cd [] cwd) (omap id args) []) as H.
  destruct (resolve_loop false (reverse (omap id args)) []) as [t reached].
  destruct H as [Ht Hr]; [by left|]. change (parts_of []) with (@nil rstr) in Hr.
  cbn [foldl] in Hr. cbn [from_option id]. change (separator false) with slash.
  set (full := if reached then t else if bool_decide (t = []) then cwd else cwd ++ [slash] ++ t).
  assert (starts_with [slash] full = true ∧ foldl enter [] (parts_of full)
    = foldl cd (cd [] cwd) (omap id args)) as [Hs Hf].
  { rewrite <-Hr. unfold full. destruct reached; [done|].
    case_bool_decide as Hnil.
    - subst t. split; [done|]. unfold cd. by rewrite Hcwd.
    - split; [rewrite starts_with_head in *; by destruct cwd|]. change ([slash] ++ t) with (slash :: t).
      rewrite parts_of_app, foldl_app. unfold cd. by rewrite Hcwd. }
  change (pop_separators slash (length (normalize_path full false)) (normalize_path full false)
    = abs_path (foldl cd (cd [] cwd) (omap id args))).
  rewrite <-Hf, enter_root. apply starts_rooted in Hs.
  rewrite normalize_form. cbv zeta. rewrite Hs. unfold abs_path.
  pose proof (stack_clean true _ (parts_of_clean full)) as Hc.
  set (st := stack_of true (parts_of full)) in *.
  assert (st ≠ [] → last (slash :: join [slash] st) ≠ Some slash) as Hlast.
  { intros Hne. assert (join [slash] st ≠ []) by (by intros ?%join_nil).
    pose proof (join_last st Hc). by destruct (join [slash] st). }
  destruct (decide (st = [])) as [->|Hne].
  { rewrite andb_false_r. reflexivity. }
  rewrite (bool_decide_eq_false_2 (st = [])) by done. cbn [negb]. rewrite andb_true_r.
  destruct (trailing full); cycle 1.
  { rewrite app_nil_r. apply pop_separators_stop. auto. }
  change (slash :: join [slash] st ++ [slash]) with ((slash :: join [slash] st) ++ [slash]).
  rewrite length_app, Nat.add_comm. cbn [Nat.add pop_separators length].
  rewrite ends_with_last, last_snoc, (bool_decide_eq_true_2 (_ = Some slash)) by done.
  rewrite length_app, (bool_decide_eq_true_2 (_ < _)) by (cbn [length]; lia). cbn [andb].
  rewrite Nat.add_sub, take_app_length.
  apply (pop_separators_stop slash (S (length (join [slash] st)))). auto.
Qed.
(** The specification is that of a POSIX host, where [/] alone separates. *)
Definition posix_cd (dir : list rstr) (s : rstr) : list rstr :=
  foldl enter (if starts_with [slash] s then [] else dir) (kept_parts slash s).
Lemma posix_cd_spec dir s : backslash ∉ s → posix_cd dir s = cd dir s.
Proof. intros Hs. unfold posix_cd, cd, parts_of. by rewrite to_slashes_id. Qed.
(** C18. On paths without a backslash [path.resolve] computes where a sequence of [cd] commands of a POSIX system leads: starting
    from the working directory, each argument is entered in turn (an absolute
    one starts over, [..] goes up but never above the root), and the answer is
    the absolute spelling of the place reached, without trailing separator.  A backslash is a separator too
    for the code ([backslash_separates]), against its contract; [resolve_cd] has this general case. *)
Theorem resolve_is_cd cwd args :
  starts_with [slash] cwd = true → backslash ∉ cwd → Forall (λ s, backslash ∉ s) (omap id args) →
  path_resolve false (Some cwd) args = abs_path (foldl posix_cd (posix_cd [] cwd) (omap id args)).
Proof.
  intros Hcwd Hb Hargs. rewrite resolve_cd by done. f_equal. rewrite <-posix_cd_spec by done.
  generalize (posix_cd [] cwd) as dir. induction Hargs as [|s l Hs _ IH]; intros dir; [done|]. simpl. rewrite <-posix_cd_spec by done. apply IH.
Qed.
Example resolve_is_cd_witness :
  path_resolve false (Some ("/home/me" : rstr)) [Some ("a" : rstr); None; Some ("../b//" : rstr)]
  = abs_path ["home" : rstr; "me" : rstr; "b" : rstr].
Proof.
  apply (resolve_is_cd "/home/me" [Some ("a" : rstr); None; Some ("../b//" : rstr)]); [done|by apply not_in; vm_compute|].
  repeat constructor; by apply not_in; vm_compute.
Defined.
Example backslash_separates :
  path_resolve false (Some ("/home/me" : rstr)) [Some (("a" : rstr) ++ backslash :: ("b" : rstr))] = "/home/me/a/b" ∧
  path_resolve false (Some ("/home/me" : rstr)) [Some (".." ++ backslash :: (".." : rstr))] = "/".
Proof. vm_compute. done. Qed.

(** ** [relative] *)

Definition named (part : rstr) : Prop := clean part ∧ part ≠ (".." : rstr).

Lemma named_clean l : Forall named l → Forall clean l.
Proof. intros. eapply Forall_impl; [done|]. by intros p []. Qed.
Lemma named_plain l : Forall named l → Forall (λ p, p ≠ ("..": rstr)) l.
Proof. intros. eapply Forall_impl; [done|]. by intros p []. Qed.
Lemma split_abs dir :
  Forall clean dir → filter (λ p, p ≠ []) (split_on slash (abs_path dir)) = dir.
Proof.
  intros Hd. unfold abs_path. destruct dir as [|p dir]; [done|].
  rewrite (split_on_app_sep slash [] (join [slash] (p :: dir)) (not_elem_of_nil _)
    : split_on slash (slash :: join [slash] (p :: dir)) = _).
  rewrite filter_cons_False by (intros []; done).
  rewrite split_on_join; [|done|].
  - induction Hd as [|q l (? & _) Hl IH]; [done|]. by rewrite filter_cons_True, IH.
  - eapply Forall_impl; [done|]. by intros q (_ & _ & ? & _).
Qed.
Lemma relative_rest_join l :
  Forall (λ p, Some p ≠ last l) (take (length l - 1) l) →
  relative_rest "/" (last l) l = join [slash] l.
Proof.
  intros Hl.
  assert (∀ last_part (l : list rstr), last l = last_part →
    Forall (λ p, Some p ≠ last_part) (take (length l - 1) l) →
    relative_rest "/" last_part l = join [slash] l) as H; [|by apply H].
  clear. intros last_part l. induction l as [|p l IH]; [done|]. intros Hlast Hall.
  destruct l as [|q l].
  - cbn [relative_rest join]. rewrite <-Hlast. cbn [last].
    rewrite bool_decide_eq_false_2 by (intros []; done). by rewrite !app_nil_r.
  - rewrite join_cons by done. cbn [relative_rest].
    replace (length (p :: q :: l) - 1) with (S (length (q :: l) - 1)) in Hall
      by (cbn [length]; lia).
    cbn [take] in Hall. apply Forall_cons in Hall as [Hp Hall].
    rewrite (bool_decide_eq_true_2 _ Hp). f_equal. f_equal. by apply IH.
Qed.
Lemma common_prefix_take a b :
  take (common_prefix a b) a = take (common_prefix a b) b ∧
  common_prefix a b ≤ length a ∧ common_prefix a b ≤ length b.
Proof.
  revert b. induction a as [|x a IH]; intros [|y b]; simpl; try (split; [done|lia]).
  case_bool_decide as Hxy; simpl; [|split; [done|lia]].
  destruct (IH b) as (-> & ? & ?). subst. split; [done|lia].
Qed.
Lemma parts_of_ups n s : parts_of (mjoin (replicate n ("../" : rstr)) ++ s)
  = replicate n (".." : rstr) ++ parts_of s.
Proof.
  induction n as [|n IH]; [done|]. cbn [replicate mjoin list_join].
  change (("../" : rstr) ++ mjoin (replicate n ("../" : rstr)))
    with ((".." : rstr) ++ slash :: mjoin (replicate n ("../" : rstr))).
  rewrite <-!app_assoc. cbn [app]. rewrite (parts_of_app ".."), IH. done.
Qed.
Lemma enter_ups n dir : foldl enter dir (replicate n (".." : rstr)) = take (length dir - n) dir.
Proof.
  revert dir. induction n as [|n IH]; intros dir.
  { cbn. by rewrite Nat.sub_0_r, firstn_all. }
  cbn [replicate foldl]. rewrite IH. unfold enter. rewrite bool_decide_eq_true_2 by done.
  rewrite take_take, length_take. f_equal. lia.
Qed.

(** [path.relative] does what it is for: resolving its answer from [from]
    leads to [to], for absolute normalised paths, as long as the last name of
    [to] does not occur among the names it follows below the common part. *)
Theorem relative_leads_back cwd from to :
  starts_with [slash] cwd = true → Forall named from → Forall named to →
  (let rest := drop (common_prefix from to) to in
   Forall (λ p, Some p ≠ last to) (take (length rest - 1) rest)) →
  path_resolve false (Some cwd)
    [Some (abs_path from); Some (path_relative false (Some (abs_path from)) (Some (abs_path to)))]
  = abs_path to.
Proof.
  intros Hcwd Hfrom Hto Hrest. rewrite resolve_cd by done. cbn [omap list_omap id foldl].
  pose proof (named_clean _ Hfrom) as Hcf. pose proof (named_clean _ Hto) as Hct.
  assert (∀ d, cd d (abs_path from) = from) as ->.
  { intros d. unfold cd. rewrite parts_abs by done.
    change (starts_with [slash] (abs_path from)) with true. cbn [cd].
    by rewrite (enter_plain [] from (named_plain _ Hfrom)). }
  f_equal. unfold path_relative. cbn [from_option id].
  change (separator false) with slash. cbv zeta in *. rewrite !split_abs by done.
  destruct (common_prefix_take from to) as (Htake & Hlf & Hlt).
  set (i := common_prefix from to) in *. set (rest := drop i to) in *.
  assert (rest ≠ [] → last rest = last to) as Hl.
  { intros Hne. unfold rest in *. rewrite <-(take_drop i to) at 2. rewrite last_app.
    destruct (last (drop i to)) eqn:E; [done|]. by apply last_None in E. }
  assert (relative_rest "/" (last to) rest = join [slash] rest) as ->.
  { destruct (decide (rest = [])) as [->|Hne]; [done|].
    rewrite <-Hl in * by done. by apply relative_rest_join. }
  assert (Forall clean rest) as Hcr by (by apply Forall_drop).
  set (text := mjoin (replicate (length from - i) ("../" : rstr)) ++ join [slash] rest).
  assert (foldl enter from (parts_of text) = to) as Ht.
  { unfold text. rewrite parts_of_ups, foldl_app, enter_ups, parts_of_join by done.
    replace (length from - (length from - i)) with i by lia.
    rewrite enter_plain by (by apply Forall_drop, named_plain).
    rewrite Htake. apply take_drop. }
  unfold cd. case_bool_decide as Hnil.
  { rewrite Hnil in Ht. exact Ht. }
  assert (starts_with [slash] text = false) as ->; [|done].
  rewrite starts_with_head. apply bool_decide_eq_false. unfold text in *.
  destruct (length from - i); [|done]. cbn in *. by apply join_head.
Qed.
Example relative_leads_back_witness :
  path_resolve false (Some ("/" : rstr))
    [Some (abs_path ["a" : rstr; "b" : rstr]);
     Some (path_relative false (Some (abs_path ["a" : rstr; "b" : rstr]))
             (Some (abs_path ["a" : rstr; "c" : rstr; "d" : rstr])))]
  = abs_path ["a" : rstr; "c" : rstr; "d" : rstr].
Proof.
  assert (∀ c : ascii, c ≠ slash → c ≠ backslash → c ≠ "."%char → named [c]) as Hn.
  { intros c H1 H2 H3. repeat split; [done|by intros [=]| | |by intros [=]];
      by rewrite list_elem_of_singleton. }
  apply relative_leads_back; [done|..].
  - repeat constructor; by apply Hn.
  - repeat constructor; by apply Hn.
  - vm_compute. repeat constructor. by intros [=].
Defined.

(** When the last name does occur before, its separator is dropped and the
    answer names another file: from the root to [/x/y/x] it is [xy/x]. *)
Theorem relative_drops_separator x y :
  named x → named y → x ≠ y →
  path_relative false (Some [slash]) (Some (abs_path [x; y; x])) = x ++ y ++ slash :: x.
Proof.
  intros Hx Hy Hne. unfold path_relative. cbn [from_option id].
  change (separator false) with slash. cbv zeta. rewrite (split_abs [x; y; x]).
  2:{ apply named_clean. repeat (apply Forall_cons_2; [done|]). apply Forall_nil_2. }
  change (filter (λ p : rstr, p ≠ []) (split_on slash [slash])) with (@nil rstr).
  cbn [common_prefix drop length Nat.sub replicate mjoin list_join last relative_rest app].
  rewrite !(bool_decide_eq_false_2 (Some x ≠ Some x)) by (intros []; done).
  rewrite (bool_decide_eq_true_2 (Some y ≠ Some x)) by congruence.
  rewrite !app_nil_r. cbn [app]. rewrite bool_decide_eq_false_2; [done|].
  destruct Hx as [(Hx & _) _]. by destruct x.
Qed.
Example relative_drops_separator_witness :
  path_relative false (Some [slash]) (Some (abs_path ["a" : rstr; "b" : rstr; "a" : rstr]))
  = ("ab/a" : rstr).
Proof.
  assert (∀ c : ascii, c ≠ slash → c ≠ backslash → c ≠ "."%char → named [c]) as Hn.
  { intros c H1 H2 H3. repeat split; [done|by intros [=]| | |by intros [=]];
      by rewrite list_elem_of_singleton. }
  apply (relative_drops_separator "a" "b"); [by apply Hn|by apply Hn|done].
Defined.

(** ** [parse] and [format] *)

(** [path.format(path.parse(p))] gives [p] back, except for a file right
    under the root, where it doubles the separator: [/x] comes back as [//x]. *)
Theorem format_parse p :
  (o ← path_parse false (Some p); path_format (Some o)) =
  Some (if bool_decide (rfind slash p = Some 0) then slash :: p else p).
Proof.
  unfold path_parse. cbn [from_option id]. change (separator false) with slash.
  set (base := base_of slash p). set (ext := match rfind "." base with Some i => _ | None => _ end).
  set (name := if _ && _ then _ else base).
  assert (p ≠ [] → base = [] → name ++ ext = []) as Hne.
  { intros Hp Hb. unfold name, ext. rewrite Hb. done. }
  assert ((if bool_decide (base ≠ []) then base else name ++ ext) = base) as Hfile.
  { case_bool_decide as Hb; [done|]. assert (base = []) as Hb' by (by destruct base).
    unfold name, ext. rewrite Hb'. done. }
  assert (∀ root : rstr, path_format (Some {| p_root := root;
    p_dir := match rfind slash p with Some 0 => [slash] | Some i => take i p | None => [] end;
    p_base := base; p_ext := ext; p_name := name |}) =
    Some (match rfind slash p with
          | Some 0 => slash :: slash :: base
          | Some i => take i p ++ slash :: base
          | None => if bool_decide (root ≠ []) then root ++ base else base end)) as Hfmt.
  { intros root. unfold path_format. cbn [mbind option_bind p_root p_dir p_base p_ext p_name].
    rewrite Hfile. destruct (rfind slash p) as [[|i]|] eqn:E; [done| |done].
    apply rfind_Some in E as (_ & _ & Hl).
    rewrite bool_decide_eq_true_2; [done|].
    destruct p; [simpl in Hl; lia|done]. }
  unfold base in *. unfold base_of in *.
  destruct (rfind slash p) as [[|i]|] eqn:E.
  - pose proof E as (Hp & _ & _)%rfind_Some. cbn [take app] in Hp.
    assert (starts_with [slash] p = true) as ->.
    { rewrite starts_with_head, Hp. done. }
    cbn [mbind option_bind]. rewrite Hfmt. rewrite bool_decide_eq_true_2 by done.
    by rewrite Hp at 2.
  - pose proof E as (Hp & _ & _)%rfind_Some.
    rewrite (bool_decide_eq_false_2 (Some (S i) = Some 0)) by done.
    destruct (starts_with [slash] p); cbn [mbind option_bind]; rewrite Hfmt; by rewrite Hp at 3.
  - rewrite (bool_decide_eq_false_2 (None = Some 0)) by done.
    apply rfind_None in E.
    assert (starts_with [slash] p = false) as ->.
    { rewrite starts_with_head. apply bool_decide_eq_false. intros [l ->]%head_Some.
      apply E. left. }
    cbn [mbind option_bind]. by rewrite Hfmt.
Qed.

(** [path.extname] and the [ext] field of [path.parse] agree, except on names
    that only start with a dot: for [.gitignore] (and for [.] and [..])
    [extname] is empty while [parse] reports the text from the last dot on. *)
Theorem extname_vs_parse p o :
  path_parse false (Some p) = Some o →
  if bool_decide (p_base o = ".." ∨ rfind "." (p_base o) = Some 0)
  then path_extname false (Some p) = [] ∧ p_ext o ≠ []
  else path_extname false (Some p) = p_ext o.
Proof.
  unfold path_parse, path_extname. cbn [from_option id]. change (separator false) with slash.
  set (base := base_of slash p).
  destruct (if starts_with [slash] p then _ else _) as [root|]; [|done].
  cbn [mbind option_bind]. intros [= <-]. cbn [p_base p_ext].
  case_bool_decide as H.
  - destruct H as [H|H]; [by rewrite H|]. rewrite H. split; [done|].
    apply rfind_Some in H as (_ & _ & Hl). rewrite drop_0.
    intros Hb. rewrite Hb in Hl. simpl in Hl. lia.
  - destruct (rfind "." base) as [i|] eqn:E; [|done].
    rewrite (bool_decide_eq_true_2 (0 < i)) by (destruct i; [by destruct H; right|lia]).
    by rewrite (bool_decide_eq_true_2 (base ≠ _)) by (intros Hb; destruct H; by left).
Qed.
Example extname_vs_parse_witness :
  path_extname false (Some ("/a/.gitignore" : rstr)) = [] ∧
  path_parse false (Some ("/a/.gitignore" : rstr)) = Some {| p_root := "/"; p_dir := "/a";
    p_base := ".gitignore"; p_ext := ".gitignore"; p_name := ".gitignore" |}.
Proof.
  split; [|reflexivity].
  apply (extname_vs_parse "/a/.gitignore" {| p_root := "/"; p_dir := "/a";
    p_base := ".gitignore"; p_ext := ".gitignore"; p_name := ".gitignore" |}); reflexivity.
Defined.
