(* ===== verification/Replay.v ===== *)
(** * Deterministic replay, [src/replay/mod.rs]

    [ReplayEngine] is the record/replay state machine ([Idle], [Recording],
    [Replaying]).  Loading a trace and resetting also write the process-wide
    [PermState] of [Permissions], so those operations take both.  JSON values
    ([serde_json::Value]) and floats are type parameters with decidable
    equality; JSON text, the trace file and the clock are the fields of
    [ReplayHost]. *)

From S2P Require Import Prelude RustPath JsArgs Permissions.

Section engine.
Context {Value F64 : Type} `{EqDecision Value}.

Inductive TraceEvent :=
  | TimeNow (timestamp_ms : Z)
  | Random (v : F64)
  | Fetch (url : rstr) (status : Z) (headers : gmap rstr rstr) (body : rstr)
  | FsRead (file : rstr) (content : rstr)
  | AgentStep (name : rstr) (input output : Value)
  | Custom (key : rstr) (payload : Value).

Record Trace := {
  version : rstr;
  created_at : rstr;
  platform : rstr;
  arch : rstr;
  script : option rstr;
  random_seed : option Z;
  events : list TraceEvent;
}.

Inductive ReplayMode := Idle | Recording | Replaying.
#[local] Instance replay_mode_eq_dec : EqDecision ReplayMode.
Proof. solve_decision. Defined.

Record ReplayStats := {
  stat_mode : rstr; is_recording : bool; is_replaying : bool;
  total_events : nat; step_count : nat; current_cursor : nat; stat_script : option rstr }.

Record ReplayEngine := {
  mode : ReplayMode;
  recorded_events : list TraceEvent;
  current_trace : option Trace;
  cursor : nat;
  step_cursor : nat;
  script_path : option rstr;
  output_path : option rstr;
}.
Definition engine_new : ReplayEngine := {|
  mode := Idle; recorded_events := []; current_trace := None; cursor := 0;
  step_cursor := 0; script_path := None; output_path := None |}.

(** What the engine reads from and writes to outside: the text of the clock, the
    build's platform, the outcome of writing and of reading and parsing a trace
    file, JSON text, and [format!("{:?}")] of a value. *)
Record ReplayHost := {
  now_text : rstr;
  os_name : rstr;
  arch_name : rstr;
  write_trace : rstr → Trace → result unit rstr;
  read_trace : rstr → result Trace rstr;
  parse_trace : rstr → result Trace rstr;
  parse_value : rstr → option Value;
  null : Value;
  debug_text : Value → rstr;
  dec_text : nat → rstr;
}.

Definition start_recording (e : ReplayEngine) (s output : option rstr) : ReplayEngine := {|
  mode := Recording; recorded_events := []; current_trace := None; cursor := 0;
  step_cursor := 0; script_path := s; output_path := output |}.

Definition stop_recording (H : ReplayHost) (e : ReplayEngine) (output_file : option rstr) :
    ReplayEngine * result Trace rstr :=
  if bool_decide (mode e ≠ Recording)
  then (e, Err ("Cannot stop recording: engine is not in recording mode" : rstr))
  else
    let trace := {| version := "1.6.0"; created_at := now_text H; platform := os_name H;
                    arch := arch_name H; script := script_path e;
                    random_seed := Some 133742%Z; events := recorded_events e |} in
    let target := match output_file with Some s => Some s | None => output_path e end in
    match match target with Some p => write_trace H p trace | None => Ok tt end with
    | Err err => (e, Err err)
    | Ok _ =>
        ({| mode := Idle; recorded_events := recorded_events e; current_trace := Some trace;
            cursor := cursor e; step_cursor := step_cursor e; script_path := script_path e;
            output_path := output_path e |}, Ok trace)
    end.

Definition load_trace (st : PermState) (e : ReplayEngine) (t : Trace) :
    PermState * ReplayEngine :=
  (match random_seed t with Some seed => set_deterministic_seed st (Some seed) | None => st end,
   {| mode := Replaying; recorded_events := events t; current_trace := Some t;
      cursor := 0; step_cursor := 0; script_path := script_path e;
      output_path := output_path e |}).
Definition load_trace_from_file (H : ReplayHost) (st : PermState) (e : ReplayEngine) (p : rstr) :
    (PermState * ReplayEngine) * result unit rstr :=
  match read_trace H p with
  | Ok t => (load_trace st e t, Ok tt)
  | Err err => ((st, e), Err err)
  end.

Definition with_events (e : ReplayEngine) (l : list TraceEvent) : ReplayEngine := {|
  mode := mode e; recorded_events := l; current_trace := current_trace e; cursor := cursor e;
  step_cursor := step_cursor e; script_path := script_path e; output_path := output_path e |}.
Definition with_step_cursor (e : ReplayEngine) (n : nat) : ReplayEngine := {|
  mode := mode e; recorded_events := recorded_events e; current_trace := current_trace e;
  cursor := cursor e; step_cursor := n; script_path := script_path e;
  output_path := output_path e |}.

Definition record_event (e : ReplayEngine) (ev : TraceEvent) : ReplayEngine :=
  if bool_decide (mode e = Recording) then with_events e (recorded_events e ++ [ev]) else e.

Definition is_step (ev : TraceEvent) : bool :=
  match ev with AgentStep _ _ _ => true | _ => false end.
(** The events a replay walks over. *)
Definition replayed_events (e : ReplayEngine) : list TraceEvent :=
  match current_trace e with Some t => events t | None => recorded_events e end.
(** The search from [step_cursor] for the next step: its index and fields. *)
Fixpoint find_step (i : nat) (l : list TraceEvent) : option (nat * (rstr * Value * Value)) :=
  match l with
  | [] => None
  | AgentStep n x y :: _ => Some (i, (n, x, y))
  | _ :: l' => find_step (S i) l'
  end.

Definition step (H : ReplayHost) (e : ReplayEngine) (name : rstr) (input output : Value) :
    ReplayEngine * result Value rstr :=
  match mode e with
  | Recording => (with_events e (recorded_events e ++ [AgentStep name input output]), Ok output)
  | Replaying =>
      match find_step (step_cursor e) (drop (step_cursor e) (replayed_events e)) with
      | None =>
          (e, Err ("ReplayDivergenceError: Extra step '" ++ name
                     ++ "' executed beyond recorded trace boundary (step cursor: "
                     ++ dec_text H (step_cursor e) ++ ")"))
      | Some (idx, (rec_name, rec_input, rec_output)) =>
          if bool_decide (rec_name ≠ name) then
            (e, Err ("ReplayDivergenceError: Step name mismatch at step #"
                       ++ dec_text H (step_cursor e) ++ ": expected '" ++ rec_name
                       ++ "', got '" ++ name ++ "'"))
          else if bool_decide (rec_input ≠ input) then
            (e, Err ("ReplayDivergenceError: Step input divergence at step #"
                       ++ dec_text H (step_cursor e) ++ " ('" ++ name ++ "'): recorded="
                       ++ debug_text H rec_input ++ ", current=" ++ debug_text H input))
          else (with_step_cursor e (idx + 1), Ok rec_output)
      end
  | Idle => (e, Ok output)
  end.

Definition mode_text (m : ReplayMode) : rstr :=
  match m with Idle => "idle" | Recording => "recording" | Replaying => "replaying" end.
Definition count_steps (l : list TraceEvent) : nat := length (filter (λ ev, is_step ev = true) l).
Definition get_stats (e : ReplayEngine) : ReplayStats :=
  let '(total, steps) := match mode e with
    | Recording => (length (recorded_events e), count_steps (recorded_events e))
    | Replaying => (length (replayed_events e), count_steps (replayed_events e))
    | Idle => (0, 0)
    end in
  {| stat_mode := mode_text (mode e);
     is_recording := bool_decide (mode e = Recording);
     is_replaying := bool_decide (mode e = Replaying);
     total_events := total; step_count := steps; current_cursor := step_cursor e;
     stat_script := script_path e |}.

Definition reset (st : PermState) (e : ReplayEngine) : PermState * ReplayEngine :=
  (reset_runtime_permission_state st, engine_new).

(** ** [replay_native_dispatch]

    The engine's lock is never poisoned (a panic aborts the process). *)
Inductive ReplayReturn :=
  | RNull
  | RBool (b : bool)
  | RText (s : rstr)
  | RTrace (t : Trace)          (* JSON of the trace *)
  | RValue (v : Value)          (* JSON of the value *)
  | RStats (s : ReplayStats)    (* JSON of the statistics *)
  | RThrowError (msg : rstr)
  | RThrowTypeError (msg : rstr).

Definition replay_native_dispatch (H : ReplayHost) (st : PermState) (e : ReplayEngine)
    (args : JsArgs) : (PermState * ReplayEngine) * ReplayReturn :=
  match string_arg args 0 with
  | None => ((st, e), RNull)
  | Some action =>
  if bool_decide (action = "start") then
    ((st, start_recording e (string_arg args 1) (string_arg args 2)), RBool true)
  else if bool_decide (action = "stop") then
    let '(e, r) := stop_recording H e (string_arg args 1) in
    ((st, e), match r with Ok t => RTrace t | Err err => RThrowError err end)
  else if bool_decide (action = "load_file") then
    match string_arg args 1 with
    | Some p => let '(w, r) := load_trace_from_file H st e p in
                (w, match r with Ok _ => RBool true | Err err => RThrowError err end)
    | None => ((st, e), RBool false)
    end
  else if bool_decide (action = "load_json") then
    match string_arg args 1 with
    | Some json =>
        match parse_trace H json with
        | Ok t => (load_trace st e t, RBool true)
        | Err err => ((st, e), RThrowTypeError ("Invalid trace JSON: " ++ err))
        end
    | None => ((st, e), RBool false)
    end
  else if bool_decide (action = "step") then
    let name := (string_arg args 1) .unwrap_or ("step" : rstr) in
    let input_json := (string_arg args 2) .unwrap_or ("null" : rstr) in
    let output_json := (string_arg args 3) .unwrap_or ("null" : rstr) in
    let input_val := (parse_value H input_json) .unwrap_or (null H) in
    let output_val := (parse_value H output_json) .unwrap_or (null H) in
    let '(e, r) := step H e name input_val output_val in
    ((st, e), match r with Ok v => RValue v | Err err => RThrowError err end)
  else if bool_decide (action = "get_mode") then ((st, e), RText (mode_text (mode e)))
  else if bool_decide (action = "is_recording") then
    ((st, e), RBool (bool_decide (mode e = Recording)))
  else if bool_decide (action = "is_replaying") then
    ((st, e), RBool (bool_decide (mode e = Replaying)))
  else if bool_decide (action = "stats") then ((st, e), RStats (get_stats e))
  else if bool_decide (action = "reset") then (reset st e, RBool true)
  else ((st, e), RNull)
  end.

(** ** Runs *)

(** An agent's program: what it does that the engine sees. *)
Inductive agent_op :=
  | DoStep (name : rstr) (input output : Value)
  | DoEvent (ev : TraceEvent).
Fixpoint run_agent (H : ReplayHost) (e : ReplayEngine) (ops : list agent_op) :
    ReplayEngine * list (result Value rstr) :=
  match ops with
  | [] => (e, [])
  | DoStep n x y :: ops' =>
      let '(e, r) := step H e n x y in
      let '(e, rs) := run_agent H e ops' in (e, r :: rs)
  | DoEvent ev :: ops' => run_agent H (record_event e ev) ops'
  end.
(** The steps of a program, and of a trace. *)
Definition op_step (o : agent_op) : option (rstr * Value * Value) :=
  match o with DoStep n x y => Some (n, x, y) | DoEvent _ => None end.
Definition event_step (ev : TraceEvent) : option (rstr * Value * Value) :=
  match ev with AgentStep n x y => Some (n, x, y) | _ => None end.
Definition op_event (o : agent_op) : TraceEvent :=
  match o with DoStep n x y => AgentStep n x y | DoEvent ev => ev end.
Definition step_output (s : rstr * Value * Value) : Value := s.2.
(** What a step asks for: name and input. *)
Definition step_key (s : rstr * Value * Value) : rstr * Value := s.1.

(** ** Lemmas *)

Lemma run_agent_recording H ops e :
  mode e = Recording →
  let '(e', rs) := run_agent H e ops in
  mode e' = Recording ∧ recorded_events e' = recorded_events e ++ (op_event <$> ops) ∧
  script_path e' = script_path e ∧ output_path e' = output_path e ∧
  rs = Ok ∘ step_output <$> omap op_step ops.
Proof.
  revert e. induction ops as [|o ops IH]; intros e He; [by rewrite app_nil_r|].
  destruct o as [n x y|ev]; cbn [run_agent].
  - unfold step. rewrite He. specialize (IH (with_events e (recorded_events e ++ [AgentStep n x y])) He).
    destruct (run_agent H _ ops) as [e' rs]. destruct IH as (Hm & Hev & Hs & Ho & ->).
    split; [done|]. split; [|done]. rewrite Hev. simpl. by rewrite <-app_assoc.
  - unfold record_event. rewrite bool_decide_eq_true_2 by done.
    specialize (IH (with_events e (recorded_events e ++ [ev])) He).
    destruct (run_agent H _ ops) as [e' rs]. destruct IH as (Hm & Hev & Hs & Ho & ->).
    split; [done|]. split; [|done]. rewrite Hev. simpl. by rewrite <-app_assoc.
Qed.

Lemma find_step_spec i l :
  match find_step i l with
  | Some (j, s) => ∃ k, j = i + k ∧ event_step <$> l !! k = Some (Some s) ∧
      omap event_step l = s :: omap event_step (drop (S k) l)
  | None => omap event_step l = []
  end.
Proof.
  revert i. induction l as [|ev l IH]; intros i; [done|].
  assert (find_step (S i) l = find_step (S i) l) as _ by done.
  destruct ev; cbn [find_step];
    try (specialize (IH (S i)); destruct (find_step (S i) l) as [[j s]|];
         [destruct IH as (k & -> & Hk & Ho); exists (S k); split; [lia|]; split; [done|exact Ho]
         |exact IH]).
  exists 0. split; [lia|]. split; [done|]. simpl. by rewrite drop_0.
Qed.

(** The steps still to be replayed. *)
Definition steps_left (e : ReplayEngine) : list (rstr * Value * Value) :=
  omap event_step (drop (step_cursor e) (replayed_events e)).

Lemma step_replaying H e n x y :
  mode e = Replaying →
  match steps_left e with
  | s :: rest =>
      if bool_decide (step_key s = (n, x))
      then ∃ e', step H e n x y = (e', Ok (step_output s)) ∧ mode e' = Replaying ∧
           replayed_events e' = replayed_events e ∧ steps_left e' = rest
      else ∃ msg, step H e n x y = (e, Err msg)
  | [] => ∃ msg, step H e n x y = (e, Err msg)
  end.
Proof.
  intros He. unfold step, steps_left. rewrite He.
  pose proof (find_step_spec (step_cursor e) (drop (step_cursor e) (replayed_events e))) as Hf.
  destruct (find_step _ _) as [[j [[n' x'] y']]|]; [|rewrite Hf; eauto].
  destruct Hf as (k & -> & Hk & ->). unfold step_key. cbn [fst snd].
  destruct (base.decide (n' = n)) as [->|Hn].
  2:{ rewrite (bool_decide_eq_false_2 (_ = _)) by congruence.
      rewrite (bool_decide_eq_true_2 (n' ≠ n)) by done. eauto. }
  rewrite (bool_decide_eq_false_2 (n ≠ n)) by (intros []; done).
  destruct (base.decide (x' = x)) as [->|Hx].
  2:{ rewrite (bool_decide_eq_false_2 (_ = _)) by congruence.
      rewrite (bool_decide_eq_true_2 (x' ≠ x)) by done. eauto. }
  rewrite (bool_decide_eq_false_2 (x ≠ x)) by (intros []; done).
  rewrite (bool_decide_eq_true_2 (_ = _)) by done.
  eexists. split; [done|]. split; [done|]. split; [done|]. simpl.
  rewrite drop_drop. do 2 f_equal. lia.
Qed.

(** Replaying a program whose first steps ask for what comes next. *)
Lemma run_agent_replaying H ops e pre rest :
  mode e = Replaying → steps_left e = pre ++ rest →
  (step_key <$> omap op_step ops) `prefix_of` (step_key <$> pre) →
  ∃ e', run_agent H e ops = (e', Ok ∘ step_output <$> take (length (omap op_step ops)) pre) ∧
    mode e' = Replaying ∧ steps_left e' = drop (length (omap op_step ops)) pre ++ rest.
Proof.
  revert e pre. induction ops as [|o ops IH]; intros e pre He Hleft Hpre.
  { exists e. rewrite take_0, drop_0. done. }
  destruct o as [n x y|ev].
  - cbn [omap list_omap op_step fmap list_fmap] in Hpre.
    destruct pre as [|sp pre]; [by apply prefix_nil_not in Hpre|].
    cbn [fmap list_fmap] in Hpre. pose proof (prefix_cons_inv_1 _ _ _ _ Hpre) as Hk.
    apply prefix_cons_inv_2 in Hpre.
    pose proof (step_replaying H e n x y He) as Hs. rewrite Hleft in Hs. cbn [app] in Hs.
    rewrite bool_decide_eq_true_2 in Hs by done.
    destruct Hs as (e1 & Hs & Hm & Hev & Hl). cbn [run_agent]. rewrite Hs.
    destruct (IH e1 pre Hm Hl Hpre) as (e' & -> & ? & ?). exists e'. done.
  - cbn [run_agent]. unfold record_event. rewrite bool_decide_eq_false_2 by congruence.
    by apply IH.
Qed.
Lemma run_agent_app H e ops ops' :
  run_agent H e (ops ++ ops') =
    (let '(e1, r1) := run_agent H e ops in
     let '(e2, r2) := run_agent H e1 ops' in (e2, r1 ++ r2)).
Proof.
  revert e. induction ops as [|[n x y|ev] ops IH]; intros e; cbn [app run_agent].
  - by destruct (run_agent H e ops').
  - destruct (step H e n x y) as [e1 r]. rewrite IH.
    destruct (run_agent H e1 ops) as [e2 r1]. by destruct (run_agent H e2 ops').
  - apply IH.
Qed.
Lemma op_event_step ops :
  Forall (λ o, match o with DoEvent ev => is_step ev = false | _ => True end) ops →
  omap event_step (op_event <$> ops) = omap op_step ops.
Proof.
  induction 1 as [|o ops Ho Hops IH]; [done|]. destruct o as [n x y|ev].
  - change (omap event_step (op_event <$> DoStep n x y :: ops)) with
      ((n, x, y) :: omap event_step (op_event <$> ops)). by rewrite IH.
  - destruct ev; try done; exact IH.
Qed.
End engine.
Arguments TraceEvent : clear implicits.
Arguments Trace : clear implicits.
Arguments ReplayEngine : clear implicits.
Arguments ReplayHost : clear implicits.
Arguments agent_op : clear implicits.

(** ** Properties *)

(** C24. Record, then replay.  Whatever an agent does while recording, the trace it
    leaves replays: after loading it (in any engine state), any program that asks
    for the same steps with the same inputs gets the recorded outputs, in order,
    whatever outputs it proposes itself, and the random seed of the trace is
    installed. *)
Theorem replay_reproduces {Value F64} `{EqDecision Value} (H : ReplayHost Value F64)
    st e0 e3 s o ops ops' :
  Forall (λ o, match o with DoEvent ev => is_step ev = false | _ => True end) ops →
  step_key <$> omap op_step ops' = step_key <$> omap op_step ops →
  let e1 := (run_agent H (start_recording e0 s o) ops).1 in
  ∀ e2 t out, stop_recording H e1 out = (e2, Ok t) →
  let '(st', e4) := load_trace st e3 t in
  let '(e5, rs) := run_agent H e4 ops' in
  rs = Ok ∘ step_output <$> omap op_step ops ∧ deterministic_seed st' = Some 133742%Z.
Proof.
  intros Hops Hkeys e1 e2 t out Hstop.
  pose proof (run_agent_recording H ops (start_recording e0 s o) eq_refl) as Hr.
  unfold e1 in *. destruct (run_agent H (start_recording e0 s o) ops) as [e rs1].
  destruct Hr as (Hm & Hev & Hsc & Hout & _). cbn [fst] in *.
  assert (events t = op_event <$> ops ∧ random_seed t = Some 133742%Z) as [Ht Hseed].
  { unfold stop_recording in Hstop. rewrite Hm in Hstop.
    rewrite bool_decide_eq_false_2 in Hstop by (intros []; done).
    destruct (match _ with Some _ => _ | None => _ end); simplify_eq. by rewrite Hev. }
  unfold load_trace. rewrite Hseed.
  set (e4 := {| mode := Replaying; recorded_events := events t; current_trace := Some t;
    cursor := 0; step_cursor := 0; script_path := script_path e3; output_path := output_path e3 |}).
  assert (steps_left e4 = omap op_step ops ++ []) as Hl.
  { unfold steps_left, e4. cbn [step_cursor]. rewrite drop_0, app_nil_r.
    change (replayed_events _) with (events t). rewrite Ht. by apply op_event_step. }
  destruct (run_agent_replaying H ops' e4 (omap op_step ops) [] eq_refl Hl) as (e5 & -> & _).
  { by rewrite Hkeys. }
  assert (length (omap op_step ops') = length (omap op_step ops)) as ->.
  { apply (f_equal length) in Hkeys. by rewrite !length_fmap in Hkeys. }
  rewrite firstn_all. done.
Qed.
Definition toy_host : ReplayHost nat nat := {|
  now_text := []; os_name := "linux"; arch_name := "x86_64";
  write_trace := λ _ _, Ok tt; read_trace := λ _, Err ("no file" : rstr);
  parse_trace := λ _, Err ("no json" : rstr); parse_value := λ _, None; null := 0;
  debug_text := λ _, []; dec_text := λ _, [] |}.
Example replay_reproduces_witness :
  let ops := [DoStep ("a" : rstr) 1 10; DoEvent (TimeNow 5); DoStep ("b" : rstr) 2 20] in
  let e1 := (run_agent toy_host (start_recording engine_new None None) ops).1 in
  let '(e2, r) := stop_recording toy_host e1 None in
  match r with
  | Ok t => (run_agent toy_host (load_trace perm_init engine_new t).2
      [DoStep ("a" : rstr) 1 0; DoStep ("b" : rstr) 2 0]).2 = [Ok 10; Ok 20]
  | Err _ => False
  end.
Proof.
  intros ops e1.
  assert (Forall (λ o, match o with DoEvent ev => is_step ev = false | _ => True end) ops) as Ho
    by (by repeat constructor).
  destruct (stop_recording toy_host e1 None) as [e2 r] eqn:E.
  destruct r as [t|err]; [|by unfold stop_recording in E].
  pose proof (replay_reproduces toy_host perm_init engine_new engine_new None None ops
    [DoStep ("a" : rstr) 1 0; DoStep ("b" : rstr) 2 0] Ho eq_refl e2 t None E) as Hr.
  destruct (load_trace perm_init engine_new t) as [st' e4]. cbn [snd].
  destruct (run_agent toy_host e4 _) as [e5 rs]. apply Hr.
Defined.

(** Divergence is detected where it happens.  While a program asks for the
    recorded steps it gets the recorded outputs; the first step that differs
    from the recording in name or input, or that goes beyond it, is answered
    with an error and leaves the engine where it was. *)
Theorem divergence_detected {Value F64} `{EqDecision Value} (H : ReplayHost Value F64)
    e ops n x y pre rest :
  mode e = Replaying → steps_left e = pre ++ rest →
  step_key <$> omap op_step ops = step_key <$> pre →
  match rest with s :: _ => step_key s ≠ (n, x) | [] => True end →
  ∃ e' msg, run_agent H e (ops ++ [DoStep n x y]) = (e', (Ok ∘ step_output <$> pre) ++ [Err msg]) ∧
    e' = (run_agent H e ops).1 ∧ steps_left e' = rest.
Proof.
  intros He Hl Hk Hdiv.
  destruct (run_agent_replaying H ops e pre rest He Hl) as (e' & Hrun & Hm & Hl'); [by rewrite Hk|].
  assert (length (omap op_step ops) = length pre) as Hlen.
  { apply (f_equal length) in Hk. by rewrite !length_fmap in Hk. }
  rewrite Hlen, firstn_all, drop_all in *.
  rewrite run_agent_app, Hrun. cbn [run_agent].
  pose proof (step_replaying H e' n x y Hm) as Hs. rewrite Hl' in Hs. cbn [app] in Hs.
  assert (∃ msg, step H e' n x y = (e', Err msg)) as [msg ->].
  { destruct rest as [|s rest]; [done|].
    by rewrite bool_decide_eq_false_2 in Hs by done. }
  eauto.
Qed.
Example divergence_detected_witness :
  let t := {| version := []; created_at := []; platform := []; arch := []; script := None;
              random_seed := None;
              events := [AgentStep ("a" : rstr) 1 10; AgentStep ("b" : rstr) 2 20] |} in
  let e := (load_trace perm_init engine_new t).2 in
  ∃ e' msg, run_agent toy_host e ([DoStep ("a" : rstr) 1 0] ++ [DoStep ("b" : rstr) 3 0])
    = (e', [Ok 10; Err msg]).
Proof.
  intros t e.
  destruct (divergence_detected toy_host e [DoStep ("a" : rstr) 1 0] "b" 3 0
    [("a" : rstr, 1, 10)] [("b" : rstr, 2, 20)]) as (e' & msg & Hr & _); [done..| |].
  - by intros [=].
  - eauto.
Defined.

(** The script-callable [reset] action of the replay engine lifts the sandbox:
    after it, with every deny rule still in place, the runtime lets every access
    through and no longer writes the audit log. *)
Theorem reset_action_lifts_sandbox {Value F64} `{EqDecision Value} (H : ReplayHost Value F64)
    h url now st e k a r :
  let '((st', e'), x) := replay_native_dispatch H st e (args_of ["reset" : rstr] 0) in
  x = RBool true ∧ e' = engine_new ∧ broker st' = broker st ∧ audit_sink st' = None ∧
  check_global_permission h url now st' k a r = (st', Ok tt).
Proof. done. Qed.
