(* ===== verification/Bus.v ===== *)
(** * The message bus, [src/bus/mod.rs]

    The native half of [amber:bus]: topic patterns, the metrics and the bounded
    dead-letter queue of each bus, and the dispatcher over the process-wide
    table of buses.  Delivery itself is JavaScript embedded in the file and not
    modelled; a message is an opaque value of type [Msg]. *)

From S2P Require Import Prelude JsArgs.

(** ** Topic patterns *)

(** The inner [match_recursive]: [p[0] == "#"] tries every suffix of [t]. *)
Fixpoint match_recursive (p t : list rstr) : bool :=
  match p with
  | [] => bool_decide (t = [])
  | p0 :: p' =>
      if bool_decide (p0 = "#") then
        if bool_decide (p' = []) then true
        else existsb (λ i, match_recursive p' (drop i t)) (seq 0 (length t + 1))
      else match t with
           | [] => false
           | t0 :: t' =>
               if bool_decide (p0 = "*") || bool_decide (p0 = t0)
               then match_recursive p' t' else false
           end
  end.
Definition topic_matches (pattern topic : rstr) : bool :=
  if bool_decide (pattern = "#") || bool_decide (pattern = topic) then true
  else match_recursive (split_on "." pattern) (split_on "." topic).

(** What a pattern means: [#] stands for any run of tokens, [*] for one. *)
Inductive matches : list rstr → list rstr → Prop :=
  | matches_nil : matches [] []
  | matches_hash ts p t : matches p t → matches (("#" : rstr) :: p) (ts ++ t)
  | matches_star x p t : matches p t → matches (("*" : rstr) :: p) (x :: t)
  | matches_same x p t : matches p t → matches (x :: p) (x :: t).

(** ** A bus *)

Section bus.
Context {Msg : Type}.

Record BusMetrics := {
  published_count : Z;        (* u64 *)
  delivered_count : Z;        (* u64 *)
  dead_letter_count : Z;      (* u64 *)
  active_subscriptions : Z;   (* usize *)
}.
Definition metrics_default : BusMetrics :=
  {| published_count := 0; delivered_count := 0; dead_letter_count := 0;
     active_subscriptions := 0 |}.

Record MessageBus := {
  bus_id : Z;
  dead_letters : list Msg;
  max_dead_letters : nat;
  metrics : BusMetrics;
  registered_topics : gmap rstr Z;
}.
Definition bus_new (id : Z) : MessageBus := {|
  bus_id := id; dead_letters := []; max_dead_letters := 1000;
  metrics := metrics_default; registered_topics := ∅ |}.

Definition record_publish (b : MessageBus) (topic : rstr) (delivered : Z) : MessageBus := {|
  bus_id := bus_id b; dead_letters := dead_letters b; max_dead_letters := max_dead_letters b;
  metrics := {| published_count := wrap_u64 (published_count (metrics b) + 1);
                delivered_count := wrap_u64 (delivered_count (metrics b) + delivered);
                dead_letter_count := dead_letter_count (metrics b);
                active_subscriptions := active_subscriptions (metrics b) |};
  registered_topics :=
    <[topic := wrap_u64 ((registered_topics b !! topic) .unwrap_or 0%Z + 1)]>
      (registered_topics b) |}.

Definition with_dead_letters (b : MessageBus) (l : list Msg) (count : Z) : MessageBus := {|
  bus_id := bus_id b; dead_letters := l; max_dead_letters := max_dead_letters b;
  metrics := {| published_count := published_count (metrics b);
                delivered_count := delivered_count (metrics b);
                dead_letter_count := count;
                active_subscriptions := active_subscriptions (metrics b) |};
  registered_topics := registered_topics b |}.

(** [remove(0)] on an empty vector would panic; [None] is that panic. *)
Definition add_dead_letter (b : MessageBus) (msg : Msg) : option MessageBus :=
  let count := wrap_u64 (dead_letter_count (metrics b) + 1) in
  if bool_decide (max_dead_letters b ≤ length (dead_letters b)) then
    match dead_letters b with
    | [] => None
    | _ :: l => Some (with_dead_letters b (l ++ [msg]) count)
    end
  else Some (with_dead_letters b (dead_letters b ++ [msg]) count).
Definition clear_dead_letters (b : MessageBus) : MessageBus := with_dead_letters b [] 0.

(** ** The table of buses and [bus_native_dispatch] *)

Record BusWorld := {
  BUS_ID_COUNTER : Z;
  MSG_ID_COUNTER : Z;
  BUSES : gmap Z MessageBus;
}.
Inductive BusReturn :=
  | BUndefined
  | BInteger (i : Z)                 (* an i32 *)
  | BText (s : rstr)
  | BBool (b : bool)
  | BMessages (l : list Msg)         (* JSON *)
  | BMetrics (m : option BusMetrics) (* JSON; the empty object for [None] *)
  | BTopics (l : list rstr)          (* JSON, in the order of the map's keys *)
  | BThrowTypeError (msg : rstr)
  | BPanic.

(** [id as i32] *)
Definition as_i32 (z : Z) : Z := (z + 2 ^ 31) mod 2 ^ 32 - 2 ^ 31.
(** [format!("{:x}", id)]; [serde_json::from_str] on a message. *)
Context (hex : Z → rstr) (parse_message : rstr → option Msg).

Definition on_bus (w : BusWorld) (id : Z) (f : MessageBus → MessageBus) : BusWorld :=
  {| BUS_ID_COUNTER := BUS_ID_COUNTER w; MSG_ID_COUNTER := MSG_ID_COUNTER w;
     BUSES := alter f id (BUSES w) |}.

Definition bus_native_dispatch (w : BusWorld) (args : JsArgs) : BusWorld * BusReturn :=
  if bool_decide (argc args < 1) then (w, BUndefined) else
  let action := arg_str args 0 in
  let id := u64_arg args 1 1 in
  if bool_decide (action = "create_bus") then
    let id := BUS_ID_COUNTER w in
    ({| BUS_ID_COUNTER := wrap_u64 (id + 1); MSG_ID_COUNTER := MSG_ID_COUNTER w;
        BUSES := <[id := bus_new id]> (BUSES w) |}, BInteger (as_i32 id))
  else if bool_decide (action = "next_message_id") then
    let id := MSG_ID_COUNTER w in
    ({| BUS_ID_COUNTER := BUS_ID_COUNTER w; MSG_ID_COUNTER := wrap_u64 (id + 1);
        BUSES := BUSES w |}, BText ("msg_" ++ hex id))
  else if bool_decide (action = "topic_matches") then
    (w, BBool (topic_matches (arg_str args 1) (arg_str args 2)))
  else if bool_decide (action = "record_publish") then
    (on_bus w id (λ b, record_publish b (arg_str args 2) (u64_arg args 3 0)), BUndefined)
  else if bool_decide (action = "add_dead_letter") then
    match parse_message (arg_str args 2), BUSES w !! id with
    | Some msg, Some b =>
        match add_dead_letter b msg with
        | Some b' => (on_bus w id (λ _, b'), BUndefined)
        | None => (w, BPanic)
        end
    | _, _ => (w, BUndefined)
    end
  else if bool_decide (action = "get_dead_letters") then
    (w, BMessages (match BUSES w !! id with Some b => dead_letters b | None => [] end))
  else if bool_decide (action = "clear_dead_letters") then
    (on_bus w id clear_dead_letters, BBool true)
  else if bool_decide (action = "get_metrics") then
    (w, BMetrics (metrics <$> BUSES w !! id))
  else if bool_decide (action = "get_topics") then
    (w, BTopics (match BUSES w !! id with
                 | Some b => (map_to_list (registered_topics b)).*1 | None => [] end))
  else (w, BThrowTypeError ("Unknown bus action '" ++ action ++ "'")).
End bus.
Arguments MessageBus : clear implicits.
Arguments BusWorld : clear implicits.

(** ** Lemmas *)

Lemma matches_refl t : matches t t.
Proof. induction t; constructor; done. Qed.
Lemma match_recursive_spec p t : match_recursive p t = true ↔ matches p t.
Proof.
  revert t. induction p as [|p0 p IH]; intros t; cbn [match_recursive].
  { rewrite bool_decide_eq_true. split; [intros ->; constructor|by inversion 1]. }
  destruct (decide (p0 = "#")) as [->|Hh].
  - rewrite bool_decide_eq_true_2 by done.
    assert (matches (("#" : rstr) :: p) t ↔ ∃ i, i ≤ length t ∧ matches p (drop i t)) as ->.
    { split.
      - inversion 1 as [|ts p' t' Hm| |x p' t' Hm]; subst.
        + exists (length ts). rewrite drop_app_length, length_app. split; [lia|done].
        + exists 1. simpl. rewrite drop_0. split; [lia|done].
      - intros (i & _ & Hm). rewrite <-(take_drop i t). by constructor. }
    case_bool_decide as Hp.
    { subst. split; [|done]. intros _. exists (length t). rewrite drop_all.
      split; [done|constructor]. }
    rewrite existsb_exists. setoid_rewrite in_seq. setoid_rewrite IH.
    split; intros (i & Hi & Hm); exists i; (split; [lia|done]).
  - rewrite bool_decide_eq_false_2 by done. destruct t as [|t0 t].
    { split; [done|]. inversion 1. subst. done. }
    destruct (bool_decide (p0 = "*") || bool_decide (p0 = t0)) eqn:E.
    + rewrite orb_true_iff, !bool_decide_eq_true in E. rewrite IH. split.
      * intros Hm. destruct E as [->| ->]; by constructor.
      * inversion 1; subst; done.
    + rewrite orb_false_iff, !bool_decide_eq_false in E. split; [done|].
      inversion 1; subst; naive_solver.
Qed.

Section dead.
Context {Msg : Type}.
Implicit Types b : MessageBus Msg.

(** A sequence of dead letters; [None] when one panics. *)
Definition add_all (b : MessageBus Msg) (l : list Msg) : option (MessageBus Msg) :=
  foldl (λ ob m, b ← ob; add_dead_letter b m) (Some b) l.

Lemma add_dead_letter_spec b m :
  0 < max_dead_letters b → length (dead_letters b) ≤ max_dead_letters b →
  ∃ b', add_dead_letter b m = Some b' ∧
    dead_letters b' = drop (S (length (dead_letters b)) - max_dead_letters b) (dead_letters b ++ [m])
    ∧ max_dead_letters b' = max_dead_letters b ∧
    dead_letter_count (metrics b') = wrap_u64 (dead_letter_count (metrics b) + 1).
Proof.
  intros Hm Hl. unfold add_dead_letter. case_bool_decide as Hfull.
  - destruct (dead_letters b) as [|x l] eqn:E; [simpl in *; lia|].
    eexists. split; [done|]. split; [|done]. simpl in *.
    replace (S (S (length l)) - max_dead_letters b) with 1 by lia. done.
  - eexists. split; [done|]. split; [|done]. simpl.
    replace (S (length (dead_letters b)) - max_dead_letters b) with 0 by lia.
    by rewrite drop_0.
Qed.
End dead.

(** A pattern matches a topic exactly when its tokens, with [*] for any one
    token and [#] for any number of tokens, spell the topic's tokens; the
    shortcuts for [#] and for equal texts agree with that. *)
Theorem topic_matches_spec pattern topic :
  topic_matches pattern topic = true ↔ matches (split_on "." pattern) (split_on "." topic).
Proof.
  unfold topic_matches.
  destruct (decide (pattern = "#")) as [->|H1].
  { rewrite (bool_decide_eq_true_2 (_ = _)) by done. split; [intros _|done].
    rewrite <-(app_nil_r (split_on "." topic)). apply (matches_hash _ []). constructor. }
  rewrite (bool_decide_eq_false_2 (_ = _)) by done. cbn [orb].
  case_bool_decide as H2; [|apply match_recursive_spec].
  subst. split; [intros _; apply matches_refl|done].
Qed.

(** The dead-letter queue is bounded and keeps the newest letters: after any
    number of additions to a new bus it holds the last 1000 of them, in order,
    none of the additions panics, and the counter counts them all. *)
Theorem dead_letters_keep_newest {Msg} id (l : list Msg) :
  ∃ b, add_all (bus_new id) l = Some b ∧
    dead_letters b = drop (length l - 1000) l ∧
    dead_letter_count (metrics b) = wrap_u64 (Z.of_nat (length l)).
Proof.
  assert (∃ b, add_all (bus_new id) l = Some b ∧ dead_letters b = drop (length l - 1000) l ∧
    dead_letter_count (metrics b) = wrap_u64 (Z.of_nat (length l)) ∧ max_dead_letters b = 1000)
    as (b & ? & ? & ? & _); [|by exists b].
  induction l as [|m l (b & Hb & Hd & Hc & Hmax)] using rev_ind; [by eexists|].
  destruct (add_dead_letter_spec b m) as (b' & Hadd & Hd' & Hm' & Hc').
  { rewrite Hmax. lia. }
  { rewrite Hd, Hmax, length_drop. lia. }
  exists b'. unfold add_all in *. rewrite foldl_app. cbn [foldl]. rewrite Hb. cbn [mbind option_bind].
  split; [done|]. rewrite Hd', Hm', Hc', Hmax, Hd, Hc, length_app, length_drop. cbn [length].
  split; [|split; [|done]].
  - destruct (decide (length l < 1000)) as [Hlt|Hge].
    + replace (length l - 1000) with 0 by lia. replace (length l + 1 - 1000) with 0 by lia.
      rewrite !drop_0. by replace (S (length l - 0) - 1000) with 0 by lia.
    + replace (S (length l - (length l - 1000)) - 1000) with 1 by lia.
      rewrite drop_app_le, drop_drop by (rewrite length_drop; lia).
      rewrite (drop_app_le l) by lia. do 2 f_equal. lia.
  - unfold wrap_u64. rewrite Zplus_mod_idemp_l. f_equal. lia.
Qed.
