(* ===== verification/Checkpoint.v ===== *)
(** * Agent checkpoints, [src/checkpoint/mod.rs]

    [CheckpointManager] keeps snapshots by id with their insertion order, the
    current one and the current branch; [compute_diff] compares two states.
    JSON values are a type parameter with decidable equality; [as_object] is
    [Value::Object]'s map.  [MANAGERS] and the dispatcher follow. *)

From S2P Require Import Prelude JsArgs.

Section checkpoint.
Context {Value : Type}.

Record Checkpoint := {
  cp_id : rstr;
  parent_id : option rstr;
  cp_branch : rstr;
  timestamp : Z;
  state : Value;
  metadata : gmap rstr Value;
}.
Record ValueDiff := { from : Value; to : Value }.
Record StateDiff := {
  added : gmap rstr Value;
  modified : gmap rstr ValueDiff;
  deleted : list rstr;
}.
Definition diff_default : StateDiff := {| added := ∅; modified := ∅; deleted := [] |}.

Record CheckpointManager := {
  mgr_id : Z;
  checkpoints : gmap rstr Checkpoint;
  order : list rstr;
  current_id : option rstr;
  current_branch : rstr;
}.
Definition manager_new (id : Z) : CheckpointManager := {|
  mgr_id := id; checkpoints := ∅; order := []; current_id := None; current_branch := "main" |}.

(** [save] with [CP_ID_COUNTER] at [num] and the clock at [now]: the counter is
    read only without a custom id. *)
Definition save (hex : Z → rstr) (num now : Z) (m : CheckpointManager) (custom_id : option rstr)
    (st : Value) (branch : option rstr) (meta : gmap rstr Value) :
    CheckpointManager * Checkpoint * Z :=
  let '(id, num) := match custom_id with
                    | Some id => (id, num)
                    | None => ("cp_" ++ hex num, wrap_u64 (num + 1))
                    end in
  let cp := {| cp_id := id; parent_id := current_id m;
               cp_branch := branch .unwrap_or (current_branch m);
               timestamp := now; state := st; metadata := meta |} in
  ({| mgr_id := mgr_id m; checkpoints := <[id := cp]> (checkpoints m); order := order m ++ [id];
      current_id := Some id; current_branch := current_branch m |}, cp, num).

Definition get_checkpoint (m : CheckpointManager) (id : rstr) : option Checkpoint :=
  checkpoints m !! id.
Definition branch_matches (branch_filter : option rstr) (cp : Checkpoint) : bool :=
  match branch_filter with Some b => bool_decide (cp_branch cp = b) | None => true end.
Definition list_checkpoints (m : CheckpointManager) (branch_filter : option rstr) :
    list Checkpoint :=
  filter (λ cp, branch_matches branch_filter cp = true)
    (omap (λ id, checkpoints m !! id) (order m)).

Definition restore (m : CheckpointManager) (id : rstr) : CheckpointManager * option Value :=
  match checkpoints m !! id with
  | Some cp =>
      ({| mgr_id := mgr_id m; checkpoints := checkpoints m; order := order m;
          current_id := Some id; current_branch := cp_branch cp |}, Some (state cp))
  | None => (m, None)
  end.

Section diff.
Context `{EqDecision Value} (as_object : Value → option (gmap rstr Value)).

(** [compute_diff]; the deleted keys come in the order of the first map. *)
Definition compute_diff (a b : Value) : StateDiff :=
  match as_object a, as_object b with
  | Some map_a, Some map_b =>
      {| added := filter (λ kv, map_a !! kv.1 = None) map_b;
         modified := map_imap (λ k val_b,
           match map_a !! k with
           | Some val_a => if bool_decide (val_a ≠ val_b)
                           then Some {| from := val_a; to := val_b |} else None
           | None => None
           end) map_b;
         deleted := filter (λ k, map_b !! k = None) (map_to_list map_a).*1 |}
  | _, _ =>
      if bool_decide (a ≠ b)
      then {| added := ∅; modified := {["root" : rstr := {| from := a; to := b |}]};
              deleted := [] |}
      else diff_default
  end.
Definition diff_checkpoints (m : CheckpointManager) (from_id to_id : rstr) : option StateDiff :=
  cp_a ← checkpoints m !! from_id;
  cp_b ← checkpoints m !! to_id;
  Some (compute_diff (state cp_a) (state cp_b)).
End diff.

Definition delete_checkpoint (m : CheckpointManager) (id : rstr) : CheckpointManager * bool :=
  match checkpoints m !! id with
  | Some _ =>
      let order := filter (λ k, k ≠ id) (order m) in
      ({| mgr_id := mgr_id m; checkpoints := delete id (checkpoints m); order := order;
          current_id := if bool_decide (current_id m = Some id) then last order
                        else current_id m;
          current_branch := current_branch m |}, true)
  | None => (m, false)
  end.
Definition clear_checkpoints (m : CheckpointManager) : CheckpointManager := {|
  mgr_id := mgr_id m; checkpoints := ∅; order := []; current_id := None;
  current_branch := "main" |}.

(** ** Runs of one manager *)

Inductive cp_op :=
  | CpSave (num now : Z) (custom : option rstr) (st : Value) (branch : option rstr)
      (meta : gmap rstr Value)
  | CpRestore (id : rstr)
  | CpDelete (id : rstr)
  | CpClear.
Definition cp_step (hex : Z → rstr) (m : CheckpointManager) (o : cp_op) : CheckpointManager :=
  match o with
  | CpSave num now custom st branch meta => (save hex num now m custom st branch meta).1.1
  | CpRestore id => (restore m id).1
  | CpDelete id => (delete_checkpoint m id).1
  | CpClear => clear_checkpoints m
  end.
Definition cp_run (hex : Z → rstr) (m : CheckpointManager) (ops : list cp_op) :
    CheckpointManager := foldl (cp_step hex) m ops.

(** The order lists exactly the stored ids, every checkpoint is stored under
    its own id, and the current one exists. *)
Definition wf_manager (m : CheckpointManager) : Prop :=
  (∀ id, id ∈ order m ↔ is_Some (checkpoints m !! id)) ∧
  (∀ id cp, checkpoints m !! id = Some cp → cp_id cp = id) ∧
  (∀ id, current_id m = Some id → is_Some (checkpoints m !! id)).

Lemma wf_manager_new id : wf_manager (manager_new id).
Proof.
  split; [|done]. intros i. simpl. rewrite lookup_empty. split; [by intros ?%not_elem_of_nil|].
  by intros [].
Qed.
Lemma wf_save hex num now m custom st branch meta :
  wf_manager m → wf_manager (save hex num now m custom st branch meta).1.1.
Proof.
  intros (Ho & Hi & Hc). unfold save.
  destruct (match custom with Some _ => _ | None => _ end) as [id num']. simpl. split; [|split].
  - intros i. simpl. rewrite elem_of_app, list_elem_of_singleton, Ho.
    destruct (decide (id = i)) as [->|Hne]; [rewrite lookup_insert_eq; naive_solver|].
    rewrite lookup_insert_ne by done. naive_solver.
  - intros i cp. simpl. destruct (decide (id = i)) as [->|Hne].
    + rewrite lookup_insert_eq. by intros [= <-].
    + rewrite lookup_insert_ne by done. apply Hi.
  - intros i [= <-]. simpl. by rewrite lookup_insert_eq.
Qed.
Lemma wf_restore m id : wf_manager m → wf_manager (restore m id).1.
Proof.
  intros (Ho & Hi & Hc). unfold restore. destruct (checkpoints m !! id) as [cp|] eqn:E; [|done].
  split; [done|]. split; [done|]. intros i [= <-]. eauto.
Qed.
Lemma wf_delete m id : wf_manager m → wf_manager (delete_checkpoint m id).1.
Proof.
  intros (Ho & Hi & Hc). unfold delete_checkpoint.
  destruct (checkpoints m !! id) as [cp|] eqn:E; [|done].
  assert (∀ i, i ∈ filter (λ k, k ≠ id) (order m) ↔ is_Some (delete id (checkpoints m) !! i)) as H.
  { intros i. rewrite list_elem_of_filter, Ho. destruct (decide (i = id)) as [->|Hne].
    - rewrite lookup_delete_eq. split; [by intros []|by intros []].
    - rewrite lookup_delete_ne by done. naive_solver. }
  split; [exact H|]. split.
  - intros i cp'. simpl. rewrite lookup_delete_Some. intros [_ Hl]. by apply Hi.
  - intros i. simpl. case_bool_decide as Hcur.
    + intros Hl%last_Some_elem_of. by apply H.
    + intros Hi'. rewrite lookup_delete_ne by congruence. auto.
Qed.
Lemma wf_run hex ops m : wf_manager m → wf_manager (cp_run hex m ops).
Proof.
  unfold cp_run. revert m. induction ops as [|o ops IH]; intros m Hm; [done|]. apply IH.
  destruct o; simpl; auto using wf_save, wf_restore, wf_delete.
  apply (wf_manager_new (mgr_id m)).
Qed.

(** Whether an operation may change or remove the checkpoint [id]. *)
Definition touches (hex : Z → rstr) (id : rstr) (o : cp_op) : Prop :=
  match o with
  | CpSave num _ custom _ _ _ => (custom .unwrap_or ("cp_" ++ hex num)) = id
  | CpRestore _ => False
  | CpDelete i => i = id
  | CpClear => True
  end.
Lemma run_keeps hex ops m id cp :
  Forall (λ o, ¬ touches hex id o) ops → checkpoints m !! id = Some cp →
  checkpoints (cp_run hex m ops) !! id = Some cp.
Proof.
  intros Hops. revert m. induction Hops as [|o ops Ho Hops IH]; intros m Hm; [done|].
  apply IH. destruct o as [num now custom st branch meta|i|i|]; simpl in *.
  - unfold save. destruct custom; simpl in *; by rewrite lookup_insert_ne.
  - unfold restore. by destruct (checkpoints m !! i).
  - unfold delete_checkpoint. destruct (checkpoints m !! i); [|done]. simpl.
    by rewrite lookup_delete_ne.
  - by destruct Ho.
Qed.
Lemma save_lookup hex num now m custom st branch meta :
  let '(m', cp, _) := save hex num now m custom st branch meta in
  checkpoints m' !! cp_id cp = Some cp ∧ state cp = st ∧
  cp_branch cp = branch .unwrap_or (current_branch m) ∧
  cp_id cp = custom .unwrap_or ("cp_" ++ hex num).
Proof. unfold save. destruct custom; simpl; by rewrite lookup_insert_eq. Qed.
End checkpoint.
Arguments Checkpoint : clear implicits.
Arguments CheckpointManager : clear implicits.
Arguments cp_op : clear implicits.

(** ** Properties *)

(** Time travel.  A saved state can be restored, unchanged, after any other
    operations that do not save over, delete or clear its checkpoint; restoring
    makes it the current checkpoint and its branch the current branch. *)
Theorem restore_after_save {Value} (hex : Z → rstr) (m : CheckpointManager Value)
    num now custom st branch meta ops :
  let '(m1, cp, _) := save hex num now m custom st branch meta in
  Forall (λ o, ¬ touches hex (cp_id cp) o) ops →
  let '(m2, r) := restore (cp_run hex m1 ops) (cp_id cp) in
  r = Some st ∧ current_id m2 = Some (cp_id cp) ∧
  current_branch m2 = branch .unwrap_or (current_branch m) ∧
  checkpoints m2 = checkpoints (cp_run hex m1 ops).
Proof.
  pose proof (save_lookup hex num now m custom st branch meta) as Hs.
  destruct (save hex num now m custom st branch meta) as [[m1 cp] num'].
  destruct Hs as (Hl & Hst & Hb & _). intros Hops.
  pose proof (run_keeps hex ops m1 (cp_id cp) cp Hops Hl) as Hk.
  unfold restore. rewrite Hk. simpl. by rewrite Hst, Hb.
Qed.
Example restore_after_save_witness :
  let m0 : CheckpointManager nat := manager_new 1 in
  let '(m1, cp, _) := save (λ _, []) 1 0 m0 (Some ("a" : rstr)) 7 None ∅ in
  let '(m2, r) := restore (cp_run (λ _, []) m1 [CpSave 1 0 (Some ("b" : rstr)) 8 None ∅;
                                               CpDelete "b"]) (cp_id cp) in
  r = Some 7.
Proof.
  intros m0.
  pose proof (restore_after_save (λ _, []) m0 1 0 (Some ("a" : rstr)) 7 None ∅
    [CpSave 1 0 (Some ("b" : rstr)) 8 None ∅; CpDelete "b"]) as H.
  destruct (save _ _ _ _ _ _ _ _) as [[m1 cp] num] eqn:E.
  assert (cp_id cp = "a") as Ha by (unfold save in E; by simplify_eq/=).
  assert (Forall (λ o : cp_op nat, ¬ touches (λ _, []) (cp_id cp) o)
    [CpSave 1 0 (Some ("b" : rstr)) 8 None ∅; CpDelete "b"]) as Hops.
  { rewrite Ha. repeat constructor; by intros [=]. }
  specialize (H Hops). destruct (restore _ _) as [m2 r]. apply H.
Defined.

(** Applying a diff to an object. *)
Definition apply_diff {Value} (d : StateDiff (Value := Value)) (a : gmap rstr Value) : gmap rstr Value :=
  foldr (λ k m, delete k m) ((to <$> modified d) ∪ (added d ∪ a)) (deleted d).

(** A diff between two JSON objects is complete: applied to the first it gives
    the second, and it names no key without need: added keys were absent,
    modified ones had the other value, deleted ones are gone, each listed once. *)
Theorem diff_is_patch {Value} `{EqDecision Value} (as_object : Value → option (gmap rstr Value))
    a b map_a map_b :
  as_object a = Some map_a → as_object b = Some map_b →
  let d := compute_diff as_object a b in
  apply_diff d map_a = map_b ∧
  (∀ k v, added d !! k = Some v → map_a !! k = None) ∧
  (∀ k x, modified d !! k = Some x → map_a !! k = Some (from x) ∧ from x ≠ to x) ∧
  (∀ k, k ∈ deleted d ↔ is_Some (map_a !! k) ∧ map_b !! k = None) ∧ NoDup (deleted d).
Proof.
  intros Ha Hb. unfold compute_diff. rewrite Ha, Hb. cbn [added modified deleted].
  assert (∀ k, k ∈ filter (λ k, map_b !! k = None) (map_to_list map_a).*1 ↔
    is_Some (map_a !! k) ∧ map_b !! k = None) as Hdel.
  { intros k. rewrite list_elem_of_filter, list_elem_of_fmap. split.
    - intros (? & [k' v] & -> & Hin%elem_of_map_to_list). eauto.
    - intros [[v Hv] Hn]. split; [done|]. exists (k, v). split; [done|].
      by apply elem_of_map_to_list. }
  assert (∀ l (m : gmap rstr Value) k, foldr (λ k m, delete k m) m l !! k =
    if bool_decide (k ∈ l) then None else m !! k) as Hfold.
  { clear. induction l as [|x l IH]; intros m k; [done|]. cbn [foldr].
    destruct (decide (k = x)) as [->|Hne].
    - by rewrite lookup_delete_eq, bool_decide_eq_true_2 by left.
    - rewrite lookup_delete_ne, IH by done.
      apply eq_sym, (f_equal (λ b : bool, if b then None else m !! k)), bool_decide_ext.
      rewrite elem_of_cons. naive_solver. }
  split; [|split; [|split; [|split]]].
  - unfold apply_diff. cbn [added modified deleted]. apply map_eq. intros k.
    rewrite Hfold. case_bool_decide as Hk.
    { by apply Hdel in Hk as [_ ->]. }
    rewrite !lookup_union, lookup_fmap, map_lookup_imap.
    destruct (map_b !! k) as [vb|] eqn:Eb.
    + cbn. destruct (map_a !! k) as [va|] eqn:Ea.
      * rewrite map_lookup_filter_None_2
          by (right; intros x _; simpl; by rewrite Ea).
        destruct (decide (va = vb)) as [->|Hne].
        { by rewrite bool_decide_eq_false_2 by (intros []; done). }
        by rewrite bool_decide_eq_true_2.
      * by rewrite (map_lookup_filter_Some_2 _ map_b k vb).
    + cbn. rewrite map_lookup_filter_None_2 by (by left).
      destruct (map_a !! k) as [va|] eqn:Ea; [|done].
      destruct Hk. apply Hdel. eauto.
  - intros k v Hk. apply map_lookup_filter_Some in Hk as [_ Hk]. exact Hk.
  - intros k x. rewrite map_lookup_imap. destruct (map_b !! k) as [vb|]; [|done]. cbn.
    destruct (map_a !! k) as [va|]; [|done]. case_bool_decide; [|done]. by intros [= <-].
  - exact Hdel.
  - apply NoDup_filter, NoDup_fst_map_to_list.
Qed.
Example diff_is_patch_witness :
  let a : gmap rstr (option nat) := {["x" : rstr := Some 1; "y" : rstr := Some 2]} in
  let b : gmap rstr (option nat) := {["y" : rstr := Some 3; "z" : rstr := Some 4]} in
  apply_diff (compute_diff (Value := gmap rstr (option nat) + option nat)
    (λ v, match v with inl m => Some (inr <$> m) | inr _ => None end) (inl a) (inl b)) (inr <$> a)
  = inr <$> b.
Proof.
  intros a b. exact (proj1 (diff_is_patch (Value := gmap rstr (option nat) + option nat)
    (λ v, match v with inl m => Some (inr <$> m) | inr _ => None end)
    (inl a) (inl b) (inr <$> a) (inr <$> b) eq_refl eq_refl)).
Defined.

(** Saving twice under one id lists the newer checkpoint twice: the order keeps
    both entries. *)
Theorem resave_listed_twice {Value} (hex : Z → rstr) mid n now id (v1 v2 : Value) :
  let m1 := (save hex n now (manager_new mid) (Some id) v1 None ∅).1.1 in
  let '(m2, cp, _) := save hex n now m1 (Some id) v2 None ∅ in
  list_checkpoints m2 None = [cp; cp].
Proof.
  unfold save, list_checkpoints. cbn [fst order checkpoints manager_new app omap list_omap].
  rewrite lookup_insert_eq. done.
Qed.

(** ** The managers and [checkpoint_native_dispatch] *)

Section dispatch.
Context {Value : Type} `{EqDecision Value} (as_object : Value → option (gmap rstr Value)).
(** [format!("{:x}", n)], [serde_json::from_str] on a value and on an object,
    and the clock in milliseconds. *)
Context (hex : Z → rstr) (parse_value : rstr → option Value) (null : Value)
  (parse_object : rstr → option (gmap rstr Value)) (now : Z).

Record CpWorld := {
  MGR_ID_COUNTER : Z;
  CP_ID_COUNTER : Z;
  MANAGERS : gmap Z (CheckpointManager Value);
}.
Inductive CpReturn :=
  | CUndefined
  | CNull
  | CInteger (i : Z)                          (* an i32 *)
  | CBool (b : bool)
  | CCheckpoint (c : Checkpoint Value)        (* JSON *)
  | CState (v : Value)                        (* JSON *)
  | CList (l : list (Checkpoint Value))       (* JSON *)
  | CDiff (d : StateDiff (Value := Value))    (* JSON *)
  | CThrowError (msg : rstr)
  | CThrowTypeError (msg : rstr).

Definition put_manager (w : CpWorld) (id : Z) (m : CheckpointManager Value) : CpWorld :=
  {| MGR_ID_COUNTER := MGR_ID_COUNTER w; CP_ID_COUNTER := CP_ID_COUNTER w;
     MANAGERS := <[id := m]> (MANAGERS w) |}.
(** [id as i32] *)
Definition cp_as_i32 (z : Z) : Z := (z + 2 ^ 31) mod 2 ^ 32 - 2 ^ 31.

Definition checkpoint_native_dispatch (w : CpWorld) (args : JsArgs) : CpWorld * CpReturn :=
  if bool_decide (argc args < 1) then (w, CUndefined) else
  let action := arg_str args 0 in
  let id := u64_arg args 1 1 in
  if bool_decide (action = "create_manager") then
    let id := MGR_ID_COUNTER w in
    ({| MGR_ID_COUNTER := wrap_u64 (id + 1); CP_ID_COUNTER := CP_ID_COUNTER w;
        MANAGERS := <[id := manager_new id]> (MANAGERS w) |}, CInteger (cp_as_i32 id))
  else if bool_decide (action = "save") then
    let st := (parse_value (arg_str args 3)) .unwrap_or null in
    let meta := (parse_object (arg_str args 5)) .unwrap_or ∅ in
    match MANAGERS w !! id with
    | Some m =>
        let '(m, cp, num) := save hex (CP_ID_COUNTER w) now m (non_empty (arg_str args 2)) st
                               (non_empty (arg_str args 4)) meta in
        ({| MGR_ID_COUNTER := MGR_ID_COUNTER w; CP_ID_COUNTER := num;
            MANAGERS := <[id := m]> (MANAGERS w) |}, CCheckpoint cp)
    | None => (w, CThrowError "Manager not found")
    end
  else if bool_decide (action = "get") then
    (w, match MANAGERS w !! id with
        | Some m => match get_checkpoint m (arg_str args 2) with
                    | Some cp => CCheckpoint cp | None => CNull end
        | None => CUndefined
        end)
  else if bool_decide (action = "restore") then
    match MANAGERS w !! id with
    | Some m => match restore m (arg_str args 2) with
                | (m, Some v) => (put_manager w id m, CState v)
                | (m, None) =>
                    (put_manager w id m,
                     CThrowError ("Checkpoint '" ++ arg_str args 2 ++ "' not found"))
                end
    | None => (w, CUndefined)
    end
  else if bool_decide (action = "list") then
    (w, match MANAGERS w !! id with
        | Some m => CList (list_checkpoints m (non_empty (arg_str args 2)))
        | None => CUndefined
        end)
  else if bool_decide (action = "diff") then
    (w, match MANAGERS w !! id with
        | Some m => match diff_checkpoints as_object m (arg_str args 2) (arg_str args 3) with
                    | Some d => CDiff d
                    | None => CThrowError "Checkpoints for diff not found"
                    end
        | None => CUndefined
        end)
  else if bool_decide (action = "delete") then
    match MANAGERS w !! id with
    | Some m => let '(m, r) := delete_checkpoint m (arg_str args 2) in
                (put_manager w id m, CBool r)
    | None => (w, CBool false)
    end
  else if bool_decide (action = "clear") then
    (match MANAGERS w !! id with
     | Some m => put_manager w id (clear_checkpoints m) | None => w end, CBool true)
  else (w, CThrowTypeError ("Unknown checkpoint action '" ++ action ++ "'")).

(** Every manager the dispatcher ever holds is well formed. *)
Definition wf_world (w : CpWorld) : Prop := ∀ id m, MANAGERS w !! id = Some m → wf_manager m.
Lemma wf_put w id m : wf_world w → wf_manager m → wf_world (put_manager w id m).
Proof. intros Hw Hm i m'. simpl. intros [[_ <-]|[_ ?]]%lookup_insert_Some; eauto. Qed.
Lemma wf_dispatch w args : wf_world w → wf_world (checkpoint_native_dispatch w args).1.
Proof.
  intros Hw. unfold checkpoint_native_dispatch. cbv zeta.
  set (id := u64_arg args 1 1).
  repeat (case_bool_decide; [|]); try done.
  - intros i m. simpl. intros [[_ <-]|[_ ?]]%lookup_insert_Some; eauto using wf_manager_new.
  - destruct (MANAGERS w !! id) as [m|] eqn:E; [|done].
    pose proof (wf_save hex (CP_ID_COUNTER w) now m (non_empty (arg_str args 2))
      ((parse_value (arg_str args 3)) .unwrap_or null) (non_empty (arg_str args 4))
      ((parse_object (arg_str args 5)) .unwrap_or ∅) (Hw _ _ E)) as Hs.
    destruct (save _ _ _ _ _ _ _ _) as [[m' cp] num].
    intros i m''. simpl. intros [[_ <-]|[_ ?]]%lookup_insert_Some; eauto.
  - destruct (MANAGERS w !! id) as [m|] eqn:E; [|done].
    pose proof (wf_restore m (arg_str args 2) (Hw _ _ E)) as Hs.
    destruct (restore m (arg_str args 2)) as [m' [v|]]; by apply wf_put.
  - destruct (MANAGERS w !! id) as [m|] eqn:E; [|done].
    pose proof (wf_delete m (arg_str args 2) (Hw _ _ E)) as Hs.
    destruct (delete_checkpoint m (arg_str args 2)) as [m' r]. by apply wf_put.
  - destruct (MANAGERS w !! id) as [m|] eqn:E; [|done].
    apply wf_put; [done|]. apply (wf_manager_new (mgr_id m)).
Qed.
End dispatch.
Arguments CpWorld : clear implicits.

(** Whatever a script calls, with whatever arguments: in every manager it
    holds, the list of ids names exactly the stored checkpoints, each stored
    under its own id, and the current checkpoint, if any, is one of them. *)
Theorem manager_well_formed {Value} `{EqDecision Value} as_object hex parse_value (null : Value)
    parse_object (calls : list (Z * JsArgs)) id m :
  let w := foldl (λ w c, (checkpoint_native_dispatch as_object hex parse_value null parse_object
                            c.1 w c.2).1)
             {| MGR_ID_COUNTER := 1; CP_ID_COUNTER := 1; MANAGERS := ∅ |} calls in
  MANAGERS w !! id = Some m →
  (∀ i, i ∈ order m ↔ is_Some (checkpoints m !! i)) ∧
  (∀ i cp, checkpoints m !! i = Some cp → cp_id cp = i) ∧
  (∀ i, current_id m = Some i → is_Some (checkpoints m !! i)).
Proof.
  intros w. assert (wf_world w) as Hw; [|apply Hw].
  unfold w. assert (wf_world (Value := Value)
    {| MGR_ID_COUNTER := 1; CP_ID_COUNTER := 1; MANAGERS := ∅ |}) as H0.
  { intros i m' Hi. cbn [MANAGERS] in Hi. by apply lookup_empty_Some in Hi. }
  revert H0. generalize ({| MGR_ID_COUNTER := 1; CP_ID_COUNTER := 1; MANAGERS := ∅ |} : CpWorld Value)
    as w0.
  induction calls as [|[now args] calls IH]; intros w0 H0; [done|]. apply IH.
  by apply wf_dispatch.
Qed.
Example manager_well_formed_witness :
  let w := (checkpoint_native_dispatch (λ _, None) (λ _, []) (λ _, Some 5) 0 (λ _, None) 9
              {| MGR_ID_COUNTER := 1; CP_ID_COUNTER := 1; MANAGERS := ∅ |}
              (args_of ["create_manager" : rstr] 1)).1 in
  ∃ m, MANAGERS w !! 1%Z = Some m ∧ ∀ i, i ∈ order m ↔ is_Some (checkpoints m !! i).
Proof.
  intros w. exists (manager_new 1). split; [vm_compute; reflexivity|].
  refine (proj1 (manager_well_formed (λ _, None) (λ _, []) (λ _, Some 5) 0 (λ _, None)
    [(9%Z, args_of ["create_manager" : rstr] 1)] 1 (manager_new 1) _)).
  vm_compute. reflexivity.
Defined.
