(* ===== verification/Grammar.v ===== *)
(** * Partial JSON and server-sent events, [src/grammar/mod.rs]

    [repair_partial_json] closes what a truncated JSON text left open;
    [parse_sse_chunk] parses a chunk of an event stream.  Both scan characters
    but act on ASCII ones only, so scanning bytes is the same.  Whether a text
    is JSON ([serde_json::from_str] succeeds) and the JSON spelling of a string
    ([serde_json::to_string]) are parameters. *)

From S2P Require Import Prelude JsArgs.


(** ** [repair_partial_json] *)

Section repair.
Context (valid_json : rstr → bool) (json_string : rstr → option rstr).

Record Scan := {
  out : rstr;          (* result *)
  in_string : bool;
  escape : bool;
  stack : list ascii;  (* the top is the head *)
}.
Definition scan_char (s : Scan) (ch : ascii) : Scan :=
  if in_string s then
    {| out := out s ++ [ch];
       in_string := if escape s then true else negb (bool_decide (ch = dquote)
                                                     && negb (bool_decide (ch = backslash)));
       escape := if escape s then false else bool_decide (ch = backslash);
       stack := stack s |}
  else
    let pop_if c := match stack s with
                    | top :: st => if bool_decide (top = c) then st else stack s
                    | [] => []
                    end in
    {| out := out s ++ [ch];
       in_string := bool_decide (ch = dquote);
       escape := escape s;
       stack := if bool_decide (ch = "{"%char) then "}"%char :: stack s
                else if bool_decide (ch = "["%char) then "]"%char :: stack s
                else if bool_decide (ch = "}"%char) then pop_if "}"%char
                else if bool_decide (ch = "]"%char) then pop_if "]"%char
                else stack s |}.
Definition scan_text (text : rstr) : Scan :=
  foldl scan_char {| out := []; in_string := false; escape := false; stack := [] |} text.

(** The loop that drops trailing commas; each round shortens the text. *)
Fixpoint drop_separators (fuel : nat) (s : rstr) : rstr :=
  match fuel with
  | 0 => s
  | S n =>
      if ends_with [","%char] s then drop_separators n (trim_end (take (length s - 1) s))
      else if ends_with [":"%char] s then s ++ " null"
      else s
  end.

(** Steps 1 to 3: the text with its string, separators and brackets closed. *)
Definition repair_candidate (text : rstr) : rstr :=
  let s := scan_text text in
  let result :=
    if in_string s
    then (if escape s then take (length (out s) - 1) (out s) else out s) ++ [dquote]
    else out s in
  let trimmed := trim_end result in
  drop_separators (S (length trimmed)) trimmed ++ stack s.

Definition repair_partial_json (input : rstr) : rstr :=
  let text := trim input in
  if bool_decide (text = []) then "null"
  else if valid_json text then text
  else
    let trimmed := repair_candidate text in
    if valid_json trimmed then trimmed
    else if starts_with "{" text then "{}"
    else if starts_with "[" text then "[]"
    else (json_string text) .unwrap_or [dquote; dquote].
End repair.

(** ** [parse_sse_chunk] *)

Record SSEMessage := {
  event : option rstr;
  sse_data : rstr;
  sse_id : option rstr;
  retry : option Z;
}.
(** The parser's variables between two lines. *)
Record SseState := {
  messages : list SSEMessage;
  current_event : option rstr;
  current_data_lines : list rstr;
  current_id : option rstr;
  current_retry : option Z;
}.
Definition sse_init : SseState := {|
  messages := []; current_event := None; current_data_lines := []; current_id := None;
  current_retry := None |}.

(** [line.trim_end_matches('\r')] *)
Fixpoint trim_cr_rev (s : rstr) : rstr :=
  match s with
  | c :: s' => if bool_decide (c = carriage_return) then trim_cr_rev s' else s
  | [] => []
  end.
Definition trim_end_cr (s : rstr) : rstr := reverse (trim_cr_rev (reverse s)).

Definition has_content (s : SseState) : bool :=
  negb (bool_decide (current_data_lines s = [])) || bool_decide (is_Some (current_event s)).
Definition message_of (s : SseState) : SSEMessage :=
  {| event := current_event s; sse_data := join [newline] (current_data_lines s);
     sse_id := current_id s; retry := current_retry s |}.
Definition with_field (s : SseState) (field val : rstr) : SseState :=
  {| messages := messages s;
     current_event := if bool_decide (field = "event") then Some val else current_event s;
     current_data_lines := if bool_decide (field = "data")
                           then current_data_lines s ++ [val] else current_data_lines s;
     current_id := if bool_decide (field = "id") then Some val else current_id s;
     current_retry := if bool_decide (field = "retry")
                      then match parse_u64 val with Some ms => Some ms | None => current_retry s end
                      else current_retry s |}.
Definition sse_line (s : SseState) (line : rstr) : SseState :=
  let line := trim_end_cr line in
  if bool_decide (line = []) then
    if has_content s then
      {| messages := messages s ++ [message_of s]; current_event := None;
         current_data_lines := []; current_id := None; current_retry := None |}
    else s
  else if starts_with ":" line then s
  else match split_once ":" line with
       | Some (field, value) =>
           with_field s field ((strip_prefix " " value) .unwrap_or value)
       | None => if bool_decide (line = "data") then with_field s "data" [] else s
       end.
Definition parse_sse_chunk (chunk : rstr) : list SSEMessage :=
  let s := foldl sse_line sse_init (file_lines chunk) in
  if has_content s then messages s ++ [message_of s] else messages s.

(** ** [grammar_native_dispatch] *)
Inductive GrammarReturn :=
  | GUndefined
  | GText (s : rstr)
  | GMessages (l : list SSEMessage)   (* JSON *)
  | GThrowTypeError (msg : rstr).
Definition grammar_native_dispatch (valid_json : rstr → bool) (json_string : rstr → option rstr)
    (args : JsArgs) : GrammarReturn :=
  if bool_decide (argc args < 1) then GUndefined else
  let action := arg_str args 0 in
  if bool_decide (action = "repair_partial_json")
  then GText (repair_partial_json valid_json json_string (arg_str args 1))
  else if bool_decide (action = "parse_sse") then GMessages (parse_sse_chunk (arg_str args 1))
  else GThrowTypeError ("Unknown grammar action '" ++ action ++ "'").

Example sse_example :
  parse_sse_chunk ("event: a" ++ newline :: "data: 1" ++ newline :: "data:2" ++ newline :: [newline])
  = [{| event := Some ("a" : rstr); sse_data := "1" ++ newline :: "2"; sse_id := None; retry := None |}].
Proof. reflexivity. Qed.

(** ** Lemmas: scanning *)

(** The bytes that move the scanner outside a string. *)
Definition structural (c : ascii) : Prop :=
  c = dquote ∨ c = "{"%char ∨ c = "["%char ∨ c = "}"%char ∨ c = "]"%char.
Definition closer (c : ascii) : Prop := c = "}"%char ∨ c = "]"%char.
Definition scan_from (s : Scan) (t : rstr) : Scan := foldl scan_char s t.
(** Two scanners agree on where they are. *)
Definition same_place (s s' : Scan) : Prop :=
  in_string s = in_string s' ∧ stack s = stack s' ∧ escape s = escape s'.

Lemma scan_out s t : out (scan_from s t) = out s ++ t.
Proof.
  revert s. induction t as [|c t IH]; intros s; [by rewrite app_nil_r|].
  unfold scan_from in *. cbn [foldl]. rewrite IH.
  unfold scan_char. destruct (in_string s); simpl; by rewrite <-app_assoc.
Qed.
(** Outside a string the escape flag is down, and only closers are stacked. *)
Definition wf_scan (s : Scan) : Prop :=
  (in_string s = false → escape s = false) ∧ Forall closer (stack s).
Lemma wf_scan_char s c : wf_scan s → wf_scan (scan_char s c).
Proof.
  intros [He Hst]. unfold scan_char. destruct (in_string s); split; simpl.
  - destruct (escape s); [done|]. rewrite negb_false_iff, andb_true_iff, bool_decide_eq_true.
    intros [-> _]. done.
  - done.
  - auto.
  - unfold closer. repeat case_bool_decide; try done.
    + constructor; auto.
    + constructor; auto.
    + destruct (stack s) as [|x st]; [done|]. case_bool_decide; [|done].
      by apply Forall_cons in Hst as [_ ?].
    + destruct (stack s) as [|x st]; [done|]. case_bool_decide; [|done].
      by apply Forall_cons in Hst as [_ ?].
Qed.
Lemma wf_scan_from s t : wf_scan s → wf_scan (scan_from s t).
Proof. revert s. induction t as [|c t IH]; intros s Hs; [done|]. by apply IH, wf_scan_char. Qed.

Lemma scan_neutral s t :
  in_string s = false → Forall (λ c, ¬ structural c) t → same_place (scan_from s t) s.
Proof.
  intros Hs Ht. revert s Hs. induction Ht as [|c t Hc Ht IH]; intros s Hs; [done|].
  assert (same_place (scan_char s c) s) as Hp.
  { unfold same_place, scan_char. rewrite Hs. simpl. unfold structural in Hc.
    rewrite !bool_decide_eq_false_2 by tauto. done. }
  unfold scan_from. cbn [foldl].
  destruct Hp as (Hp1 & Hp2 & Hp3). destruct (IH (scan_char s c)) as (Hq1 & Hq2 & Hq3); [congruence|].
  unfold same_place, scan_from in *. repeat split; congruence.
Qed.
(** Without a quote in it, text leaves the scanner in or out of a string. *)
Lemma scan_in_string s t :
  dquote ∉ t → in_string s = true → in_string (scan_from s t) = true.
Proof.
  revert s. induction t as [|c t IH]; intros s Hq Hs; [done|].
  apply not_elem_of_cons in Hq as [Hc Hq]. apply IH; [done|].
  unfold scan_char. rewrite Hs. simpl. destruct (escape s); [done|].
  by rewrite (bool_decide_eq_false_2 (c = dquote)).
Qed.
(** So dropping neutral text from the end keeps the place, when that is outside
    a string. *)
Lemma scan_drop_neutral r t :
  Forall (λ c, ¬ structural c) t → in_string (scan_text (r ++ t)) = false →
  same_place (scan_text r) (scan_text (r ++ t)).
Proof.
  intros Ht Hin. unfold scan_text in *. rewrite foldl_app in *.
  set (s := foldl scan_char _ r) in *. fold (scan_from s t) in *.
  assert (in_string s = false) as Hs.
  { destruct (in_string s) eqn:E; [|done]. rewrite scan_in_string in Hin; [done| |done].
    intros Hq. rewrite Forall_forall in Ht. apply (Ht _ Hq). by left. }
  destruct (scan_neutral s t Hs Ht) as (? & ? & ?). by repeat split.
Qed.
Lemma same_place_trans a b c : same_place a b → same_place b c → same_place a c.
Proof. intros (? & ? & ?) (? & ? & ?). repeat split; congruence. Qed.

(** ** Lemmas: trimming *)

Lemma trim_with_split w (P : ascii → Prop) fuel s :
  (∀ s c, c ∈ take (w s) s → P c) → ∃ t, s = t ++ trim_with w fuel s ∧ Forall P t.
Proof.
  intros Hw. revert s. induction fuel as [|n IH]; intros s; simpl; [by exists []|].
  case_bool_decide; [by exists []|].
  destruct (IH (drop (w s) s)) as (t & Ht & HP).
  exists (take (w s) s ++ t). rewrite <-app_assoc, <-Ht, take_drop. split; [done|].
  apply Forall_app. split; [|done]. apply Forall_forall. eauto.
Qed.
Lemma trim_end_split s : ∃ t, s = trim_end s ++ t ∧ Forall (λ c, ¬ plain c) t.
Proof.
  unfold trim_end.
  destruct (trim_with_split ws_len_rev (λ c, ¬ plain c) (length s) (reverse s)) as (t & Ht & HP).
  { apply ws_len_rev_bytes. }
  exists (reverse t). rewrite <-reverse_app, <-Ht, reverse_involutive. split; [done|].
  by apply Forall_reverse.
Qed.
Lemma plain_structural c : structural c → plain c.
Proof. unfold structural, plain. intros H. destruct_or!; subst; vm_compute; done. Qed.

Lemma drop_separators_place fuel r s :
  in_string (scan_text r) = false → s = r →
  same_place (scan_text (drop_separators fuel s)) (scan_text r).
Proof.
  intros Hin ->. revert r Hin. induction fuel as [|n IH]; intros r Hin; [done|].
  cbn [drop_separators]. rewrite !ends_with_last. case_bool_decide as Hc.
  - apply last_Some in Hc as [l ->]. rewrite length_app. cbn [length].
    rewrite Nat.add_sub, take_app_length.
    assert (same_place (scan_text l) (scan_text (l ++ [","%char]))) as H1.
    { apply scan_drop_neutral; [|done]. constructor; [|constructor].
      unfold structural. intros Hx. destruct_or!; done. }
    destruct (trim_end_split l) as (t & Hl & Ht).
    assert (same_place (scan_text (trim_end l)) (scan_text l)) as H2.
    { rewrite Hl at 2. apply scan_drop_neutral.
      - eapply Forall_impl; [done|]. intros c Hp Hst. by apply Hp, plain_structural.
      - rewrite <-Hl. destruct H1 as (-> & _). done. }
    eapply same_place_trans; [apply IH|].
    + destruct H2 as (-> & _). destruct H1 as (-> & _). done.
    + by eapply same_place_trans.
  - case_bool_decide; [|done]. unfold scan_text. rewrite foldl_app.
    apply scan_neutral; [done|]. apply Forall_forall. intros c Hx Hst.
    unfold structural in Hst. vm_compute in Hx.
    repeat (apply elem_of_cons in Hx as [->|Hx]; [destruct_or!; done|]).
    by apply not_elem_of_nil in Hx.
Qed.
Lemma scan_closers s :
  in_string s = false → Forall closer (stack s) →
  in_string (scan_from s (stack s)) = false ∧ stack (scan_from s (stack s)) = [].
Proof.
  remember (stack s) as st eqn:E. revert s E.
  induction st as [|c st IH]; intros s E Hs Hst; [done|].
  apply Forall_cons in Hst as [Hc Hst]. unfold scan_from. cbn [foldl].
  assert (stack (scan_char s c) = st ∧ in_string (scan_char s c) = false) as [H1 H2].
  { unfold scan_char. rewrite Hs, <-E. destruct Hc as [-> | ->]; done. }
  by apply IH.
Qed.

Lemma scan_text_out text : out (scan_text text) = text.
Proof. unfold scan_text. fold (scan_from {| out := []; in_string := false; escape := false; stack := [] |} text).
  by rewrite scan_out. Qed.
Lemma wf_scan_text text : wf_scan (scan_text text).
Proof. apply wf_scan_from. by split; [|constructor]. Qed.
Lemma scan_text_snoc text c : scan_text (text ++ [c]) = scan_char (scan_text text) c.
Proof. unfold scan_text. by rewrite foldl_app. Qed.

(** Step 1 closes the string. *)
Lemma close_string text :
  let s := scan_text text in
  let result := if in_string s
    then (if escape s then take (length (out s) - 1) (out s) else out s) ++ [dquote] else out s in
  in_string (scan_text result) = false ∧ stack (scan_text result) = stack s.
Proof.
  cbv zeta. rewrite scan_text_out. destruct (in_string (scan_text text)) eqn:Hin; [|done].
  destruct (escape (scan_text text)) eqn:Hesc.
  - destruct text as [|c text _] using rev_ind; [done|].
    rewrite length_app. cbn [length]. rewrite Nat.add_sub, take_app_length.
    rewrite scan_text_snoc in Hin, Hesc |- *. unfold scan_char in Hin, Hesc.
    rewrite scan_text_snoc. unfold scan_char.
    destruct (in_string (scan_text text)) eqn:Hin'; cbn in *.
    + destruct (escape (scan_text text)); [done|]. done.
    + pose proof (proj1 (wf_scan_text text) Hin') as He. congruence.
  - rewrite scan_text_snoc. unfold scan_char. by rewrite Hin, Hesc.
Qed.

(** What [repair_partial_json] builds from a truncated text is closed: reading
    it ends outside any string with no bracket left open, wherever the text was
    cut, inside a string, after a backslash, after a comma or a colon. *)
Theorem repair_closes_everything text :
  in_string (scan_text (repair_candidate text)) = false ∧
  stack (scan_text (repair_candidate text)) = [].
Proof.
  unfold repair_candidate. cbv zeta.
  pose proof (close_string text) as [Hin Hst]. cbv zeta in Hin, Hst.
  set (result := if in_string (scan_text text) then _ else _) in *.
  destruct (trim_end_split result) as (t & Ht & HP).
  assert (same_place (scan_text (trim_end result)) (scan_text result)) as H1.
  { rewrite Ht at 2. apply scan_drop_neutral; [|by rewrite <-Ht].
    eapply Forall_impl; [done|]. intros c Hp Hs. by apply Hp, plain_structural. }
  destruct (drop_separators_place (S (length (trim_end result))) (trim_end result) (trim_end result))
    as (H2 & H3 & _); [by destruct H1 as (-> & _)|done|].
  destruct H1 as (H1 & H1' & _).
  unfold scan_text at 1 3. rewrite !foldl_app.
  set (s := foldl scan_char _ (drop_separators _ _)).
  change (scan_text (drop_separators (S (length (trim_end result))) (trim_end result))) with s in *.
  assert (stack s = stack (scan_text text)) as Hs by congruence. rewrite <-Hs.
  apply (scan_closers s); [congruence|]. rewrite Hs. apply wf_scan_text.
Qed.

(** The repaired text is always JSON, whatever the input; and valid input is
    returned as it is, trimmed. *)
Theorem repair_always_json (valid_json : rstr → bool) (json_string : rstr → option rstr) input :
  valid_json "null" = true → valid_json "{}" = true → valid_json "[]" = true →
  (∀ s, ∃ j, json_string s = Some j ∧ valid_json j = true) →
  valid_json (repair_partial_json valid_json json_string input) = true ∧
  (valid_json (trim input) = true → trim input ≠ [] →
     repair_partial_json valid_json json_string input = trim input).
Proof.
  intros Hn Ho Ha Hs. unfold repair_partial_json. split.
  - case_bool_decide; [done|]. destruct (valid_json (trim input)) eqn:E; [done|]. cbv zeta.
    destruct (valid_json (repair_candidate (trim input))) eqn:Ec; [done|].
    destruct (starts_with "{" (trim input)); [done|].
    destruct (starts_with "[" (trim input)); [done|].
    destruct (Hs (trim input)) as (j & -> & Hj). done.
  - intros Hv Hne. by rewrite bool_decide_eq_false_2, Hv.
Qed.
Definition toy_valid (s : rstr) : bool :=
  bool_decide (s ∈ ["null" : rstr; "{}" : rstr; "[]" : rstr; "[{}]" : rstr]).
Example repair_always_json_witness :
  repair_partial_json toy_valid (λ _, Some ("null" : rstr)) " [{ " = ("[{}]" : rstr) ∧
  toy_valid (repair_partial_json toy_valid (λ _, Some ("null" : rstr)) " [{ ") = true.
Proof.
  split; [vm_compute; reflexivity|].
  apply (repair_always_json toy_valid (λ _, Some ("null" : rstr)) " [{ ");
    [reflexivity..|]. intros s. by exists ("null" : rstr).
Defined.

(** ** Lemmas: event streams *)

(** A line that survives line splitting: no line break in it. *)
Definition one_line (s : rstr) : Prop := newline ∉ s ∧ carriage_return ∉ s.
(** The lines that spell a message; [retry_text] spells its retry. *)
Definition message_lines (m : SSEMessage) (retry_text : option rstr) : list rstr :=
  match event m with Some e => [("event: " : rstr) ++ e] | None => [] end
  ++ ((λ l, ("data: " : rstr) ++ l) <$> split_on newline (sse_data m))
  ++ match sse_id m with Some i => [("id: " : rstr) ++ i] | None => [] end
  ++ match retry_text with Some r => [("retry: " : rstr) ++ r] | None => [] end
  ++ [[] : rstr].
Definition encode_lines (ls : list rstr) : rstr := mjoin ((λ l, l ++ [newline]) <$> ls).
Definition encode_messages (ms : list (SSEMessage * option rstr)) : rstr :=
  encode_lines (mjoin ((λ m, message_lines m.1 m.2) <$> ms)).

Lemma trim_end_cr_id s : carriage_return ∉ s → trim_end_cr s = s.
Proof.
  intros H. unfold trim_end_cr.
  assert (trim_cr_rev (reverse s) = reverse s) as ->; [|apply reverse_involutive].
  rewrite <-elem_of_reverse in H. destruct (reverse s) as [|c r]; [done|].
  apply not_elem_of_cons in H as [H _]. simpl. by rewrite bool_decide_eq_false_2.
Qed.
Lemma encode_lines_parse ls : Forall one_line ls → file_lines (encode_lines ls) = ls.
Proof.
  induction 1 as [|l ls [Hn Hc] Hls IH]; [done|].
  unfold encode_lines. cbn [fmap list_fmap mjoin list_join]. rewrite <-app_assoc.
  change ([newline] ++ ?x) with (newline :: x). rewrite file_lines_cons; [|done|].
  - f_equal. exact IH.
  - intros Hl%last_Some_elem_of. done.
Qed.
Lemma sse_line_field s (field prefix val : rstr) :
  prefix = field ++ (": " : rstr) → (":" : ascii) ∉ field → field ≠ [] →
  carriage_return ∉ field → carriage_return ∉ val →
  sse_line s (prefix ++ val) = with_field s field val.
Proof.
  intros -> Hf Hne Hcf Hcv. rewrite <-app_assoc. unfold sse_line. rewrite trim_end_cr_id.
  2:{ rewrite !elem_of_app. intros [?|[Hx|?]]; [done| |done].
      by repeat (apply elem_of_cons in Hx as [?|Hx]; [done|]); apply not_elem_of_nil in Hx. }
  rewrite bool_decide_eq_false_2 by (by destruct field).
  assert (starts_with ":" (field ++ (": " : rstr) ++ val) = false) as ->.
  { rewrite (starts_with_head ":"). apply bool_decide_eq_false. destruct field as [|a field]; [done|].
    apply not_elem_of_cons in Hf as [Hf _]. simpl. congruence. }
  change ((": " : rstr) ++ val) with ((":" : ascii) :: (" " : ascii) :: val).
  by rewrite split_once_app.
Qed.
Ltac sse_field_side := by first
  [ done | let Hin := fresh in intros Hin; vm_compute in Hin;
    repeat (apply elem_of_cons in Hin as [?|Hin]; [done|]); apply not_elem_of_nil in Hin ].

(** A message whose spelling is unambiguous: no carriage return in a field, no
    line break in a field other than the data. *)
Definition plain_message (m : SSEMessage) (retry_text : option rstr) : Prop :=
  (∀ e, event m = Some e → one_line e) ∧ carriage_return ∉ sse_data m ∧
  (∀ i, sse_id m = Some i → one_line i) ∧
  (∀ r, retry_text = Some r → one_line r ∧ parse_u64 r = retry m ∧ is_Some (retry m)) ∧
  (retry_text = None → retry m = None).

Lemma message_lines_one_line m rt : plain_message m rt → Forall one_line (message_lines m rt).
Proof.
  intros (He & Hd & Hi & Hr & _). unfold message_lines.
  assert (∀ p s : rstr, one_line p → one_line s → one_line (p ++ s)) as Happ.
  { intros p s [? ?] [? ?]. split; rewrite elem_of_app; tauto. }
  assert (∀ o : option rstr, (∀ x, o = Some x → one_line x) → ∀ p : rstr, one_line p →
    Forall one_line match o with Some x => [p ++ x] | None => [] end) as Ho.
  { intros [x|] Hx p Hp; [|constructor]. constructor; [by apply Happ; auto|constructor]. }
  assert (one_line "event: " ∧ one_line "data: " ∧ one_line "id: " ∧ one_line "retry: ")
    as (Le & Ld & Li & Lr) by (repeat split; sse_field_side).
  rewrite !Forall_app. split; [by apply Ho|]. split; [|split; [by apply Ho|split]].
  - apply Forall_fmap, Forall_forall. intros x Hx. apply Happ; [done|]. split.
    + pose proof (split_on_no_sep newline (sse_data m)) as Hn. rewrite Forall_forall in Hn. auto.
    + intros Hc. apply Hd. by eapply (elem_of_split_on newline x).
  - apply Ho; [|done]. intros r Hr'. by apply Hr.
  - constructor; [|constructor]. split; apply not_elem_of_nil.
Qed.

Lemma sse_message s m rt :
  plain_message m rt → current_event s = None → current_data_lines s = [] →
  current_id s = None → current_retry s = None →
  foldl sse_line s (message_lines m rt) =
    {| messages := messages s ++ [m]; current_event := None; current_data_lines := [];
       current_id := None; current_retry := None |}.
Proof.
  intros (He & Hd & Hi & Hr & Hr') H1 H2 H3 H4.
  destruct s as [ms ce cd ci cr]. simpl in *. subst. unfold message_lines.
  rewrite !foldl_app.
  assert (foldl sse_line {| messages := ms; current_event := None; current_data_lines := [];
      current_id := None; current_retry := None |}
      match event m with Some e => [("event: " : rstr) ++ e] | None => [] end =
    {| messages := ms; current_event := event m; current_data_lines := [];
      current_id := None; current_retry := None |}) as ->.
  { destruct (event m) as [e|]; [|done]. cbn [foldl].
    rewrite (sse_line_field _ "event" "event: " e); [done|sse_field_side..|]. by apply He. }
  assert (∀ l s, Forall (λ x, carriage_return ∉ x) l →
    foldl sse_line s ((λ l, ("data: " : rstr) ++ l) <$> l) =
    {| messages := messages s; current_event := current_event s;
       current_data_lines := current_data_lines s ++ l; current_id := current_id s;
       current_retry := current_retry s |}) as Hdata.
  { clear. intros l s Hl. revert s. induction Hl as [|x l Hx Hl IH]; intros s; cbn [foldl fmap list_fmap].
    - rewrite app_nil_r. by destruct s.
    - rewrite (sse_line_field s "data" "data: " x); [|sse_field_side..|done]. rewrite IH.
      unfold with_field. simpl. by rewrite <-app_assoc. }
  rewrite Hdata; cycle 1.
  { apply Forall_forall. intros x Hx Hc. apply Hd. by eapply (elem_of_split_on newline x). }
  cbn [messages current_event current_data_lines current_id current_retry app].
  assert (∀ s, foldl sse_line s match sse_id m with Some i => [("id: " : rstr) ++ i] | None => [] end =
    {| messages := messages s; current_event := current_event s;
       current_data_lines := current_data_lines s;
       current_id := match sse_id m with Some i => Some i | None => current_id s end;
       current_retry := current_retry s |}) as Hid.
  { intros s. destruct (sse_id m) as [i|]; [|by destruct s]. cbn [foldl].
    rewrite (sse_line_field s "id" "id: " i); [done|sse_field_side..|]. by apply Hi. }
  rewrite Hid. cbn [messages current_event current_data_lines current_id current_retry].
  assert (∀ s, current_retry s = None →
    foldl sse_line s match rt with Some r => [("retry: " : rstr) ++ r] | None => [] end =
    {| messages := messages s; current_event := current_event s;
       current_data_lines := current_data_lines s; current_id := current_id s;
       current_retry := retry m |}) as Hretry.
  { intros s Hs. destruct rt as [r|].
    - destruct (Hr r eq_refl) as ((_ & Hc) & Hp & [n Hn]). cbn [foldl].
      rewrite (sse_line_field s "retry" "retry: " r); [|sse_field_side..|done].
      unfold with_field. simpl. rewrite Hp, Hn. done.
    - rewrite Hr' by done. cbn [foldl]. destruct s; simpl in *. by subst. }
  rewrite Hretry by done. cbn [foldl]. unfold sse_line. cbn.
  unfold has_content. cbn [current_data_lines].
  rewrite bool_decide_eq_false_2 by apply split_on_not_nil. cbn.
  unfold message_of. cbn. rewrite join_split_on. by destruct m as [e d [i|] r].
Qed.

(** An event stream says what was sent: spelling any list of messages (data
    may span lines; no carriage returns) and parsing the text gives the messages
    back, in order. *)
Theorem sse_round_trip ms :
  Forall (λ m, plain_message m.1 m.2) ms → parse_sse_chunk (encode_messages ms) = ms.*1.
Proof.
  intros Hms. unfold parse_sse_chunk, encode_messages. rewrite encode_lines_parse.
  2:{ induction Hms as [|[m rt] ms Hm Hms IH]; [constructor|].
      cbn [fmap list_fmap mjoin list_join]. apply Forall_app. split; [|done].
      by apply message_lines_one_line. }
  assert (∀ s, current_event s = None → current_data_lines s = [] → current_id s = None →
    current_retry s = None →
    foldl sse_line s (mjoin ((λ m, message_lines m.1 m.2) <$> ms)) =
    {| messages := messages s ++ ms.*1; current_event := None; current_data_lines := [];
       current_id := None; current_retry := None |}) as H.
  { induction Hms as [|[m rt] ms Hm Hms IH]; intros s H1 H2 H3 H4.
    - cbn. rewrite app_nil_r. destruct s; simpl in *; by subst.
    - cbn [fmap list_fmap mjoin list_join]. rewrite foldl_app. cbn [fst snd].
      rewrite (sse_message s m rt) by done. rewrite IH by done. simpl. by rewrite <-app_assoc. }
  by rewrite H.
Qed.
Example sse_round_trip_witness :
  let m := {| event := Some ("tick" : rstr); sse_data := "a" ++ newline :: "b"; sse_id := None;
              retry := Some 30%Z |} in
  parse_sse_chunk (encode_messages [(m, Some ("30" : rstr))]) = [m].
Proof.
  intros m. apply (sse_round_trip [(m, Some ("30" : rstr))]).
  constructor; [|constructor]. unfold plain_message. cbn.
  split; [intros e [= <-]; split; sse_field_side|]. split; [sse_field_side|]. split; [done|].
  split; [|done]. intros r [= <-]. split; [split; sse_field_side|]. split; [reflexivity|by eexists].
Defined.

(** A stream cut between two chunks inside a message gives two messages: the end
    of a chunk dispatches what has been read. *)
Theorem sse_chunk_cut_splits_message :
  let a : rstr := "data: a" ++ [newline] in
  let b : rstr := "data: b" ++ [newline; newline] in
  length (parse_sse_chunk (a ++ b)) = 1 ∧
  length (parse_sse_chunk a ++ parse_sse_chunk b) = 2.
Proof. vm_compute. done. Qed.
