(* ===== verification/Json.v ===== *)
(** * JSON values, as [serde_json] represents them

    The crate's own parser and printer are parameters of what uses them; the
    shape of [Value] and its accessors are fixed by its documentation. *)

From S2P Require Import Prelude.

(** [serde_json::Value]; [preserve_order] is on, so an object keeps its keys in
    the order of the text.  A number is its text. *)
Inductive Json :=
  | JNull
  | JBool (b : bool)
  | JNumber (text : rstr)
  | JString (s : rstr)
  | JArray (l : list Json)
  | JObject (m : list (rstr * Json)).

(** [Map::get], [Value::as_str], [Value::as_object], [value.get(key)] *)
Definition map_get (m : list (rstr * Json)) (key : rstr) : option Json :=
  snd <$> head (filter (λ kv, kv.1 = key) m).
Definition as_str (v : Json) : option rstr := match v with JString s => Some s | _ => None end.
Definition as_object (v : Json) : option (list (rstr * Json)) :=
  match v with JObject m => Some m | _ => None end.
Definition json_get (v : Json) (key : rstr) : option Json := m ← as_object v; map_get m key.

(** [Value::as_u64]: a number without sign, fraction or exponent that fits. *)
Definition as_u64 (v : Json) : option Z :=
  match v with
  | JNumber text =>
      n ← parse_nat_digits text; if bool_decide (n < U64_MOD)%Z then Some n else None
  | _ => None
  end.

(** ** Derived parsers

    serde's parser of a struct takes an object, in which a known member may be there once, or
    an array with the fields in order.  A document keeps all members of an object; a
    [Value] keeps the last one of a name, at the place of the first. *)

Fixpoint map_insert (m : list (rstr * Json)) (k : rstr) (v : Json) : list (rstr * Json) :=
  match m with
  | [] => [(k, v)]
  | (k', v') :: m' => if bool_decide (k' = k) then (k', v) :: m' else (k', v') :: map_insert m' k v
  end.
Fixpoint value_of (doc : Json) : Json :=
  match doc with
  | JArray l => JArray (map value_of l)
  | JObject m =>
      JObject (fold_left (λ acc kv, map_insert acc kv.1 kv.2) (map (λ '(k, v), (k, value_of v)) m) [])
  | v => v
  end.

Record Fields := {
  find_field : rstr → nat → option (option Json);   (* [None]: the member is there twice *)
  by_name : bool;
}.
Definition fields_of (count : nat) (doc : Json) : option Fields :=
  match doc with
  | JObject m => Some {|
      find_field := λ key _, match filter (λ kv, kv.1 = key) m with
                             | [] => Some None | [kv] => Some (Some kv.2) | _ => None end;
      by_name := true |}
  | JArray l => if bool_decide (length l ≤ count)
                then Some {| find_field := λ _ i, Some (l !! i); by_name := false |} else None
  | _ => None
  end.
(** One field: [missing] is what it is when it is not there. *)
Definition field {A} (missing : option A) (conv : Json → option A) (f : Fields) (key : rstr) (i : nat) : option A :=
  found ← find_field f key i;
  match found with Some v => conv v | None => missing end.
(** Induction on JSON values through arrays and objects. *)
Lemma json_ind (P : Json → Prop) :
  P JNull → (∀ b, P (JBool b)) → (∀ t, P (JNumber t)) → (∀ s, P (JString s)) →
  (∀ l, Forall P l → P (JArray l)) → (∀ m, Forall (λ kv, P kv.2) m → P (JObject m)) →
  ∀ v, P v.
Proof.
  intros Hnull Hbool Hnum Hstr Harr Hobj. fix IH 1. intros [| | | |l|m]; [done|auto..| |].
  - apply Harr. induction l as [|v l IHl]; [apply Forall_nil_2|]. apply Forall_cons_2; [apply IH|done].
  - apply Hobj. induction m as [|[k v] m IHm]; [apply Forall_nil_2|].
    apply Forall_cons_2; [apply IH|done].
Qed.

(** All strings of a value, the keys of objects left out. *)
Fixpoint json_strings (v : Json) : list rstr :=
  match v with
  | JString s => [s]
  | JArray l => (fix go (l : list Json) : list rstr :=
                   match l with [] => [] | v :: l' => json_strings v ++ go l' end) l
  | JObject m => (fix go (m : list (rstr * Json)) : list rstr :=
                    match m with [] => [] | (_, v) :: m' => json_strings v ++ go m' end) m
  | _ => []
  end.

Lemma map_get_strings (S : rstr → Prop) m k t :
  map_get m k = Some t → Forall S (json_strings (JObject m)) → Forall S (json_strings t).
Proof.
  induction m as [|[k' v] m IH]; [done|]. intros Hget HS.
  cbn [json_strings] in HS. apply Forall_app in HS as [HSv HS].
  unfold map_get in Hget. rewrite filter_cons in Hget. case_decide.
  - by simplify_eq/=.
  - by apply IH.
Qed.
Lemma elem_strings (S : rstr → Prop) m k t :
  (k, t) ∈ m → Forall S (json_strings (JObject m)) → Forall S (json_strings t).
Proof.
  induction m as [|[k' v] m IH]; [by intros ?%elem_of_nil|]. intros Hin HS.
  cbn [json_strings] in HS. apply Forall_app in HS as [HSv HS].
  apply elem_of_cons in Hin as [[= <- <-]|]; [done|by apply IH].
Qed.
