(* ===== verification/RawPath.v ===== *)
(** * [std::path] on Unix, spelled

    Where the code turns a [PathBuf] back into text, or hands a path with a
    trailing separator to the operating system, the spelling matters and the
    component list of [RustPath] is too coarse.  Here a [PathBuf] is its
    bytes; comparisons and cache keys go through [components].  Paths are
    valid UTF-8, so [to_string_lossy] and [to_str] lose nothing. *)

From S2P Require Import Prelude RustPath.

Abbreviation pathbuf := rstr.

(** [Path::is_absolute] *)
Definition pb_is_absolute (p : pathbuf) : bool := starts_with [slash] p.

(** [base.join(p)], that is [PathBuf::push]: an absolute [p] replaces [base];
    a separator is added unless [base] is empty or ends with one. *)
Definition pb_join (base p : pathbuf) : pathbuf :=
  if pb_is_absolute p then p
  else if bool_decide (base = []) || ends_with [slash] base then base ++ p
  else base ++ slash :: p.

(** [Components::as_path] on the first components of [s]: the shortest front of
    [s] that has them; what follows (separators and [.]) is trimmed. *)
Definition pb_front (s : pathbuf) (c : path) : option pathbuf :=
  (λ x, take x.2 s) <$>
    list_find (λ n, components (take n s) = c) (seq 0 (S (length s))).

(** [path.parent()] *)
Definition pb_parent (s : pathbuf) : option pathbuf :=
  c ← parent (components s); pb_front s c.

(** [path.file_name()] *)
Definition pb_file_name (s : pathbuf) : option rstr := file_name (components s).

(** [path.ancestors()]: the path itself, its parent, the parent of that, ... *)
Fixpoint ancestors_fuel (fuel : nat) (s : pathbuf) : list pathbuf :=
  match fuel with
  | 0 => []
  | S n => s :: match pb_parent s with Some d => ancestors_fuel n d | None => [] end
  end.
Definition ancestors (s : pathbuf) : list pathbuf := ancestors_fuel (S (length s)) s.

(** [rsplit_file_at_dot]: stem and extension of a file name; a name that only
    starts with a dot has no extension. *)
Definition rsplit_dot (name : rstr) : rstr * option rstr :=
  match rfind "." name with
  | Some (S i) => (take (S i) name, Some (drop (S (S i)) name))
  | _ => (name, None)
  end.
(** [path.extension()] *)
Definition pb_extension (s : pathbuf) : option rstr :=
  name ← pb_file_name s; (rsplit_dot name).2.

(** [path.with_extension(ext)] for a non-empty [ext]: everything after the stem
    of the file name is replaced, a trailing separator included. *)
Definition with_extension (s : pathbuf) (ext : rstr) : pathbuf :=
  match pb_file_name s with
  | None => s
  | Some name =>
      let body := (pb_front s (components s)) .unwrap_or s in
      take (length body - (length name - length (rsplit_dot name).1)) body ++ "." ++ ext
  end.

(** ** Lemmas *)

Lemma pb_front_Some s c d : pb_front s c = Some d → components d = c ∧ length d ≤ length s.
Proof.
  unfold pb_front. intros ([n k] & (_ & H & _)%list_find_Some & ->)%fmap_Some.
  split; [done|]. simpl. rewrite length_take. lia.
Qed.
Lemma pb_parent_components s d : pb_parent s = Some d → parent (components s) = Some (components d).
Proof.
  unfold pb_parent. destruct (parent (components s)) as [c|]; [|done]. simpl.
  intros [-> _]%pb_front_Some. done.
Qed.
(** Going up makes the spelling shorter, so the fuel of [ancestors] is enough. *)
Lemma pb_parent_shorter s d : pb_parent s = Some d → length d < length s.
Proof.
  intros Hp. pose proof (pb_parent_components s d Hp) as (c & Hc & _)%parent_Some.
  unfold pb_parent in Hp. destruct (parent (components s)) as [q|]; [|done]. simpl in Hp.
  unfold pb_front in Hp. apply fmap_Some in Hp as ([n k] & (Hn & Hk & _)%list_find_Some & ->).
  apply lookup_seq in Hn as [-> Hlt]. cbn [snd]. rewrite length_take.
  destruct (decide (0 + n = length s)) as [Heq|]; [|lia].
  cbn [snd] in Hc. rewrite Heq, take_ge in Hc by lia. apply (f_equal length) in Hc. rewrite length_app in Hc.
  simpl in Hc. lia.
Qed.
Lemma ancestors_step s :
  ancestors s = s :: match pb_parent s with Some d => ancestors d | None => [] end.
Proof.
  assert (∀ n m s, length s < n → length s < m → ancestors_fuel n s = ancestors_fuel m s) as Hfuel.
  { induction n as [|n IH]; intros [|m] t Hn Hm; try lia. simpl. f_equal.
    destruct (pb_parent t) as [d|] eqn:E; [|done]. apply pb_parent_shorter in E. apply IH; lia. }
  transitivity (s :: match pb_parent s with Some d => ancestors_fuel (length s) d | None => [] end);
    [done|]. f_equal. destruct (pb_parent s) as [d|] eqn:E; [|done].
  apply pb_parent_shorter in E. apply Hfuel; lia.
Qed.

Lemma pb_join_relative base p :
  pb_is_absolute p = false → p ≠ [] → length base < length (pb_join base p).
Proof.
  intros Ha Hp. unfold pb_join. rewrite Ha. destruct p as [|c p]; [done|].
  destruct (_ || _); rewrite length_app; simpl; lia.
Qed.
Lemma pb_join_absolute base p : pb_is_absolute p = true → pb_join base p = p.
Proof. intros H. unfold pb_join. by rewrite H. Qed.

(** What follows a separator adds its own components. *)
Lemma components_app s t :
  s ≠ [] → components (s ++ slash :: t) = components s ++ omap parse_part (split_on slash t).
Proof.
  intros Hs. unfold components. change ("/"%char) with slash. rewrite split_on_app, omap_app.
  assert (head (split_on slash s ++ split_on slash t) = head (split_on slash s)) as ->.
  { destruct (split_on slash s) as [|x l] eqn:E; [by apply split_on_not_nil in E|done]. }
  destruct s as [|c s]; [done|]. cbn [app]. destruct (bool_decide (c = slash)); [done|].
  by rewrite app_assoc.
Qed.
Lemma components_trailing s : s ≠ [] → components (s ++ [slash]) = components s.
Proof. intros Hs. rewrite components_app by done. apply app_nil_r. Qed.
(** Joining a plain name adds one component. *)
Lemma components_join_name s x :
  slash ∉ x → parse_part x = Some (Normal x) →
  components (pb_join s x) = components s ++ [Normal x].
Proof.
  intros Hx Hp. assert (omap parse_part (split_on slash x) = [Normal x]) as Hparts.
  { rewrite split_on_free by done. cbn. by rewrite Hp. }
  assert (components x = [Normal x]) as Hc.
  { unfold components. change ("/"%char) with slash. rewrite Hparts.
    destruct x as [|c x]; [done|]. rewrite bool_decide_eq_false_2 by set_solver.
    rewrite split_on_free by done. cbn [head]. rewrite bool_decide_eq_false_2; [done|].
    intros [= -> ->]. by vm_compute in Hp. }
  assert (pb_is_absolute x = false) as Ha.
  { unfold pb_is_absolute. rewrite starts_with_head. apply bool_decide_eq_false_2.
    destruct x; [done|]. intros [= ->]. set_solver. }
  unfold pb_join. rewrite Ha. destruct (bool_decide (s = [])) eqn:Es; [by bool_cases; subst|].
  apply bool_decide_eq_false in Es. destruct (ends_with [slash] s) eqn:Ee; cbn [orb].
  - apply ends_with_spec in Ee as [t ->]. rewrite <-app_assoc. cbn [app].
    destruct (base.decide (t = [])) as [->|Ht]; [|by rewrite components_trailing, components_app, Hparts].
    cbn [app]. unfold components. change ("/"%char) with slash.
    change (slash :: x) with ([] ++ slash :: x). rewrite split_on_app, omap_app, Hparts. done.
  - by rewrite components_app, Hparts.
Qed.
Lemma components_join_nil s : components (pb_join s []) = components s.
Proof.
  assert (pb_is_absolute [] = false) as Ha by done. unfold pb_join. rewrite Ha.
  destruct (bool_decide (s = []) || ends_with [slash] s) eqn:E; [by rewrite app_nil_r|].
  apply components_trailing. by apply orb_false_iff in E as [?%bool_decide_eq_false _].
Qed.

Example ancestors_ex :
  ancestors "/p//a/./b/" = ["/p//a/./b/" : rstr; "/p//a" : rstr; "/p" : rstr; "/" : rstr].
Proof. vm_compute. done. Qed.
Example with_extension_ex :
  with_extension "a/b.min" "js" = ("a/b.js" : rstr) ∧
  with_extension "a/b/" "js" = ("a/b.js" : rstr) ∧ with_extension "a/.b" "js" = ("a/.b.js" : rstr).
Proof. vm_compute. done. Qed.
