(* ===== verification/ImportMap.v ===== *)
(** * Import maps, [src/tooling/import_map.rs]

    Remapping of module specifiers before resolution.  The two [HashMap]s are
    [gmap]s; the order in which one is iterated is the argument [iter].
    [load] reads and parses the file with serde_json: what they answer is its
    argument. *)

From S2P Require Import Prelude RustPath RawPath.

Record ImportMap := {
  imports : gmap rstr rstr;
  scopes : gmap rstr (gmap rstr rstr);
  base_dir : pathbuf;
}.

(** [normalize_target] *)
Definition normalize_target (target : rstr) (base : pathbuf) : rstr :=
  if starts_with "./" target || starts_with "../" target then pb_join base target else target.

(** One round of the loop that looks for the longest prefix entry. *)
Definition best_prefix (specifier : rstr) (best : option (rstr * rstr)) (kv : rstr * rstr) :
    option (rstr * rstr) :=
  if ends_with [slash] kv.1 && starts_with kv.1 specifier then
    match best with
    | None => Some kv
    | Some (prev_key, _) => if bool_decide (length prev_key < length kv.1) then Some kv else best
    end
  else best.

(** [load]: [content] is what [read_to_string] gives and [parse] what serde_json
    makes of a text, both with their error message. *)
Definition load {E} (content : result rstr E)
    (parse : rstr → result (gmap rstr rstr * gmap rstr (gmap rstr rstr)) E) (p : pathbuf) :
    result ImportMap E :=
  text ← content; ms ← parse text;
  mret {| imports := ms.1; scopes := ms.2; base_dir := (pb_parent p) .unwrap_or ("." : rstr) |}.

Section iteration.
Context (iter : ∀ A, gmap rstr A → list (rstr * A)).

Definition match_entry (entries : gmap rstr rstr) (specifier : rstr) (base : pathbuf) :
    option rstr :=
  match entries !! specifier with
  | Some target => Some (normalize_target target base)
  | None =>
      match foldl (best_prefix specifier) None (iter rstr entries) with
      | Some (prefix, target) =>
          Some (normalize_target (target ++ drop (length prefix) specifier) base)
      | None => None
      end
  end.

(** The first scope, in iteration order, that occurs in the referrer and has an
    entry. *)
Fixpoint scoped (m : ImportMap) (specifier ref_str : rstr)
    (l : list (rstr * gmap rstr rstr)) : option rstr :=
  match l with
  | [] => None
  | (scope_prefix, scope_map) :: l' =>
      if contains scope_prefix ref_str then
        match match_entry scope_map specifier (base_dir m) with
        | Some target => Some target
        | None => scoped m specifier ref_str l'
        end
      else scoped m specifier ref_str l'
  end.

Definition resolve (m : ImportMap) (specifier : rstr) (referrer : option pathbuf) : option rstr :=
  match
    match referrer with
    | Some ref_str => scoped m specifier ref_str (iter _ (scopes m))
    | None => None
    end
  with
  | Some target => Some target
  | None => match_entry (imports m) specifier (base_dir m)
  end.

(** The process-global map is [GLOBAL_IMPORT_MAP]. *)
Definition resolve_from_global_import_map (global : option ImportMap) (specifier : rstr)
    (referrer : option pathbuf) : option rstr :=
  m ← global; resolve m specifier referrer.
End iteration.

(** ** The iteration order does not matter for one map of entries *)

(** What the loop looks for: the longest key ending in a slash that the
    specifier starts with. *)
Definition prefix_entry (specifier : rstr) (l : list (rstr * rstr)) (kv : rstr * rstr) : Prop :=
  kv ∈ l ∧ ends_with [slash] kv.1 = true ∧ starts_with kv.1 specifier = true ∧
  ∀ kv', kv' ∈ l → ends_with [slash] kv'.1 = true → starts_with kv'.1 specifier = true →
    length kv'.1 ≤ length kv.1.

Lemma best_prefix_spec specifier l :
  match foldl (best_prefix specifier) None l with
  | Some kv => prefix_entry specifier l kv
  | None => ∀ kv, kv ∈ l → ends_with [slash] kv.1 && starts_with kv.1 specifier = false
  end.
Proof.
  induction l as [|kv l IH] using rev_ind; [intros kv H; by apply elem_of_nil in H|].
  rewrite foldl_app. cbn [foldl]. set (b := foldl _ None l) in *. unfold best_prefix at 1.
  destruct (ends_with [slash] kv.1 && starts_with kv.1 specifier) eqn:E.
  - apply andb_true_iff in E as [E1 E2].
    destruct b as [[k t]|].
    + destruct IH as (Hin & H1 & H2 & Hmax). bool_cases; unfold prefix_entry.
      * repeat split; [set_solver|done..|]. intros kv' [Hin'| ->%list_elem_of_singleton]%elem_of_app H1' H2'; [|done].
        specialize (Hmax kv' Hin' H1' H2'). simpl in *. lia.
      * repeat split; [set_solver|done..|]. intros kv' [Hin'| ->%list_elem_of_singleton]%elem_of_app H1' H2'.
        -- by apply Hmax.
        -- simpl. lia.
    + repeat split; [set_solver|done..|]. intros kv' [Hin'| ->%list_elem_of_singleton]%elem_of_app H1' H2'; [|done].
      specialize (IH kv' Hin'). by rewrite H1', H2' in IH.
  - destruct b as [[k t]|].
    + destruct IH as (Hin & H1 & H2 & Hmax). repeat split; [set_solver|done..|].
      intros kv' [Hin'| ->%list_elem_of_singleton]%elem_of_app H1' H2'; [by apply Hmax|].
      by rewrite H1', H2' in E.
    + intros kv' [Hin'| ->%list_elem_of_singleton]%elem_of_app; [by apply IH|done].
Qed.

Lemma prefix_same_length (a b s : rstr) :
  starts_with a s = true → starts_with b s = true → length a = length b → a = b.
Proof.
  rewrite !starts_with_spec. intros [x ->] [y Hy] Hl. by apply app_inj_1 in Hy as [? _].
Qed.

(** The remapping of a specifier by one map of entries does not depend on the
    order in which the [HashMap] is iterated. *)
Theorem match_entry_order_independent (iter1 iter2 : ∀ A, gmap rstr A → list (rstr * A))
    entries specifier base :
  (∀ A m, iter1 A m ≡ₚ map_to_list m) → (∀ A m, iter2 A m ≡ₚ map_to_list m) →
  match_entry iter1 entries specifier base = match_entry iter2 entries specifier base.
Proof.
  intros H1 H2. unfold match_entry. destruct (entries !! specifier); [done|].
  pose proof (best_prefix_spec specifier (iter1 rstr entries)) as S1.
  pose proof (best_prefix_spec specifier (iter2 rstr entries)) as S2.
  assert (∀ kv, kv ∈ iter1 rstr entries ↔ kv ∈ iter2 rstr entries) as Heq.
  { intros kv. by rewrite (H1 rstr entries), (H2 rstr entries). }
  destruct (foldl _ None (iter1 rstr entries)) as [[k1 t1]|],
    (foldl _ None (iter2 rstr entries)) as [[k2 t2]|]; [| | |done].
  - destruct S1 as (I1 & E1 & P1 & M1), S2 as (I2 & E2 & P2 & M2). cbn [fst] in *.
    pose proof (M1 _ (proj2 (Heq _) I2) E2 P2). pose proof (M2 _ (proj1 (Heq _) I1) E1 P1).
    cbn [fst] in *. assert (k1 = k2) as -> by (eapply prefix_same_length; eauto; lia).
    rewrite (H1 rstr entries) in I1. rewrite (H2 rstr entries) in I2.
    apply elem_of_map_to_list in I1, I2. congruence.
  - destruct S1 as (I1 & E1 & P1 & _). specialize (S2 _ (proj1 (Heq _) I1)).
    cbn [fst] in *. by rewrite E1, P1 in S2.
  - destruct S2 as (I2 & E2 & P2 & _). specialize (S1 _ (proj2 (Heq _) I2)).
    cbn [fst] in *. by rewrite E2, P2 in S1.
Qed.
Lemma match_entry_order_independent_witness :
  let entries : gmap rstr rstr := {["pkg/" : rstr := "./src/pkg/" : rstr]} in
  match_entry (λ A, map_to_list) entries "pkg/math.js" "/project" =
    Some ("/project/./src/pkg/math.js" : rstr) ∧
  match_entry (λ A, map_to_list) entries "pkg/math.js" "/project" =
    match_entry (λ A m, reverse (map_to_list m)) entries "pkg/math.js" "/project".
Proof.
  intros entries. split; [vm_compute; reflexivity|].
  apply match_entry_order_independent; [done|]. intros A m. apply reverse_Permutation.
Defined.
