(* ===== verification/Resolver.v ===== *)
(** * Module resolution, [src/nodejs_core/commonjs_resolver.rs]

    A specifier becomes a built-in module or a file.  The functions of the
    source keep their names and their order of effects; they run in the monad
    [M], which threads the two process-wide caches and the [PermState] of
    [Permissions] through, stops at the first error, and has a third outcome,
    [None], for a computation that needs deeper recursion than the fuel it was
    given.  Only the two functions through which the source's recursion goes,
    [resolve_path_candidate] and [resolve_module_with_conditions], consume
    fuel: it bounds the depth of the call stack, not the number of steps.

    The disk, serde_json and the [url] crate are the fields of [NodeHost]. *)

From S2P Require Import Prelude Json RustPath Permissions RawPath ImportMap.

Record NodeHost := {
  is_file : pathbuf → bool;
  is_dir : pathbuf → bool;
  fs_canonicalize : pathbuf → option pathbuf;      (* [fs::canonicalize(p).ok()] *)
  read_to_string : pathbuf → result rstr rstr;     (* the error as text *)
  from_str : rstr → result Json rstr;              (* serde_json, the error as text *)
  to_string : Json → rstr;                         (* [Value]'s [Display] *)
  url_parses : rstr → bool;                        (* [Url::parse(s).is_ok()] *)
  denied_text : PermissionError → rstr;            (* [PermissionError]'s [Display] *)
}.

Inductive ResolvedModule :=
  | Builtin (name : rstr)
  | File (p : pathbuf).
#[export] Instance resolved_eq_dec : EqDecision ResolvedModule.
Proof. solve_decision. Defined.

Inductive CommonJsModuleFormat := CommonJs | EsModule | JsonModule | TypeScript | TypeScriptJsx.

Record PackageSpecifier := { name : rstr; subpath : option rstr }.

(** [PackageExportResolution] and [PackageImportResolution] differ in what they
    resolve to. *)
Inductive Resolution (A : Type) :=
  | Resolved (a : A)
  | NotFound
  | Blocked
  | InvalidTarget (target : rstr).
Arguments Resolved {A}.
Arguments NotFound {A}.
Arguments Blocked {A}.
Arguments InvalidTarget {A}.
Abbreviation PackageExportResolution := (Resolution pathbuf).
Abbreviation PackageImportResolution := (Resolution ResolvedModule).

Record CommonJsResolveError := { specifier : rstr; from : pathbuf; reason : option rstr }.
#[export] Instance resolve_error_eq_dec : EqDecision CommonJsResolveError.
Proof. solve_decision. Defined.

Definition error_new (specifier : rstr) (from : pathbuf) : CommonJsResolveError :=
  {| specifier := specifier; from := from; reason := None |}.
Definition with_reason (specifier : rstr) (from : pathbuf) (reason : rstr) : CommonJsResolveError :=
  {| specifier := specifier; from := from; reason := Some reason |}.
Definition package_json_of (root : pathbuf) : pathbuf := pb_join root "package.json".

Definition package_path_not_exported (root : pathbuf) (export_key : rstr) : CommonJsResolveError :=
  with_reason export_key root
    ("ERR_PACKAGE_PATH_NOT_EXPORTED: Package subpath '" ++ export_key ++ "' is not defined by "
       ++ [dquote] ++ "exports" ++ [dquote] ++ " in " ++ package_json_of root).
Definition package_import_not_defined (root : pathbuf) (specifier : rstr) : CommonJsResolveError :=
  with_reason specifier root
    ("ERR_PACKAGE_IMPORT_NOT_DEFINED: Package import specifier '" ++ specifier
       ++ "' is not defined in " ++ package_json_of root).
Definition invalid_package_target (root : pathbuf) (export_key target : rstr) :
    CommonJsResolveError :=
  with_reason export_key root
    ("ERR_INVALID_PACKAGE_TARGET: Invalid package target '" ++ target ++ "' for '" ++ export_key
       ++ "' in " ++ package_json_of root).
Definition invalid_module_specifier (root : pathbuf) (export_key : rstr) : CommonJsResolveError :=
  with_reason export_key root
    ("ERR_INVALID_MODULE_SPECIFIER: Invalid module specifier '" ++ export_key ++ "'").
Definition invalid_package_config (root : pathbuf) (reason : rstr) : CommonJsResolveError :=
  with_reason (package_json_of root) root
    ("ERR_INVALID_PACKAGE_CONFIG: Invalid package configuration in " ++ package_json_of root
       ++ ": " ++ reason).
(** [Display] *)
Definition error_text (e : CommonJsResolveError) : rstr :=
  match reason e with
  | Some r => r
  | None => "Cannot find module '" ++ specifier e ++ "' from '" ++ from e ++ "'"
  end.

(** ** State and monad *)

Record Resolver := {
  resolution_cache :
    gmap (path * rstr * bool) (result ResolvedModule CommonJsResolveError);
  package_json_cache : gmap path (option Json);
  permissions : PermState;
}.
Definition with_package_json (s : Resolver) (root : pathbuf) (v : option Json) : Resolver :=
  {| resolution_cache := resolution_cache s;
     package_json_cache := <[components root := v]> (package_json_cache s);
     permissions := permissions s |}.
Definition with_permissions (s : Resolver) (p : PermState) : Resolver :=
  {| resolution_cache := resolution_cache s; package_json_cache := package_json_cache s;
     permissions := p |}.

Definition M (A : Type) : Type := Resolver → option (Resolver * result A CommonJsResolveError).
#[export] Instance M_ret : MRet M := λ A a s, Some (s, Ok a).
#[export] Instance M_bind : MBind M := λ A B f m s,
  match m s with
  | Some (s', Ok a) => f a s'
  | Some (s', Err e) => Some (s', Err e)
  | None => None
  end.
Definition throw {A} (e : CommonJsResolveError) : M A := λ s, Some (s, Err e).

(** [clear_module_resolution_cache] *)
Definition clear_module_resolution_cache (s : Resolver) : Resolver :=
  {| resolution_cache := ∅; package_json_cache := ∅; permissions := permissions s |}.

(** ** Constants *)

Definition strs (l : list string) : list rstr := String.list_ascii_of_string <$> l.

Definition JS_EXTENSIONS : list rstr := strs [
  "js"; "json"; "ts"; "mjs"; "cjs"; "tsx"]%string.
Definition COMMONJS_EXPORT_CONDITIONS : list rstr := strs [
  "require"; "wintercg"; "wintertc"; "node"; "amber"; "amberjs"; "default"]%string.
Definition ESM_EXPORT_CONDITIONS : list rstr := strs [
  "import"; "wintercg"; "wintertc"; "node"; "amber"; "amberjs"; "default"]%string.
Definition BUILTIN_MODULES : list rstr := strs [
  "ai"; "amber:ai"; "amber:db"; "amber:ffi"; "amber:pool"; "amber:wasm"; "amber:replay";
  "amber:weights"; "amber:security"; "amber:permissions"; "amber:kv"; "amber:tools"; "amber:bus";
  "amber:grammar"; "amber:checkpoint"; "amber:sockets"; "amber:sqlite"; "amber:vector";
  "amber:std"; "amber:std/dotenv"; "amber:std/cli"; "amber:std/fs"; "amber:std/crypto";
  "amber:std/assert"; "amber:mcp"; "amber:sandbox"; "amber:vfs"; "amber:test"; "assert";
  "assert/strict"; "async_hooks"; "db"; "ffi"; "pool"; "wasm"; "replay"; "weights"; "security";
  "permissions"; "kv"; "tools"; "bus"; "grammar"; "checkpoint"; "sockets"; "wintertc:sockets";
  "sqlite"; "vector"; "std"; "std/dotenv"; "std/cli"; "std/fs"; "std/crypto"; "std/assert";
  "mcp"; "sandbox"; "vfs"; "buffer"; "child_process"; "crypto"; "diagnostics_channel"; "dns";
  "events"; "fs"; "fs/promises"; "http"; "http2"; "https"; "module"; "net"; "os"; "path";
  "perf_hooks"; "performance"; "process"; "querystring"; "readline"; "stream"; "stream/promises";
  "string_decoder"; "tcp_async"; "timers"; "timers/promises"; "tls"; "tty"; "url"; "util"; "vm";
  "worker_threads"; "zlib"]%string.

(** ** Functions on specifiers, patterns and paths alone *)

(** [normalize_builtin_specifier] *)
Definition without (prefix s : rstr) : rstr := (strip_prefix prefix s) .unwrap_or s.
Definition normalize_builtin_specifier (s : rstr) : option rstr :=
  if bool_decide (s ∈ BUILTIN_MODULES) then Some s
  else if bool_decide (without "node:" s ∈ BUILTIN_MODULES) then Some (without "node:" s)
  else if bool_decide (without "amber:" s ∈ BUILTIN_MODULES) then Some (without "amber:" s)
  else if bool_decide (without "wintertc:" s ∈ BUILTIN_MODULES) then Some (without "wintertc:" s)
  else None.
Definition is_builtin_module (s : rstr) : bool :=
  bool_decide (is_Some (normalize_builtin_specifier s)).

(** [s.splitn(n, c)] *)
Fixpoint splitn (n : nat) (c : ascii) (s : rstr) : list rstr :=
  match n with
  | 0 => []
  | 1 => [s]
  | S n' => match split_once c s with
            | Some (x, y) => x :: splitn n' c y
            | None => [s]
            end
  end.
Definition parse_plain_specifier (s : rstr) : PackageSpecifier :=
  let parts := splitn 2 slash s in
  {| name := (parts !! 0) .unwrap_or []; subpath := parts !! 1 |}.
Definition parse_package_specifier (s : rstr) : PackageSpecifier :=
  if starts_with "@" s then
    let parts := splitn 3 slash s in
    let scope := (parts !! 0) .unwrap_or [] in
    let name := (parts !! 1) .unwrap_or [] in
    if negb (bool_decide (scope = [])) && negb (bool_decide (name = []))
    then {| name := scope ++ slash :: name; subpath := parts !! 2 |}
    else parse_plain_specifier s
  else parse_plain_specifier s.

(** [is_export_condition] *)
Definition is_export_condition (condition : rstr) (conditions : list rstr) : bool :=
  bool_decide (condition ∈ conditions).

(** [validate_package_exports_config] fails on an object that mixes keys. *)
Definition mixed_keys (m : list (rstr * Json)) : bool :=
  existsb (λ kv, starts_with "." kv.1) m && existsb (λ kv, negb (starts_with "." kv.1)) m.

(** [s.replace('*', t)] *)
Definition replace_star (t s : rstr) : rstr :=
  mjoin ((λ c, if bool_decide (c = "*"%char) then t else [c]) <$> s).
Definition with_capture (capture : option rstr) (s : rstr) : rstr :=
  match capture with Some t => replace_star t s | None => s end.

(** [match_package_pattern]: what the star stands for, and the score. *)
Definition score := (nat * nat)%type.
Definition match_package_pattern (pattern_key match_key required_prefix : rstr) :
    option (rstr * score) :=
  if negb (bool_decide (length (filter (λ c, c = "*"%char) pattern_key) = 1)) then None else
  '(prefix, suffix) ← split_once "*" pattern_key;
  if negb (starts_with required_prefix prefix) || negb (starts_with prefix match_key)
     || bool_decide (match_key = prefix) then None
  else if negb (bool_decide (suffix = [])) &&
          (negb (ends_with suffix match_key)
           || bool_decide (length match_key < length pattern_key)) then None
  else if bool_decide (length match_key < length suffix) then None
  else let capture_start := length prefix in
       let capture_end := length match_key - length suffix in
       if bool_decide (capture_end ≤ capture_start) then None
       else Some (take (capture_end - capture_start) (drop capture_start match_key),
                  (length prefix, length pattern_key)).

(** [>] on pairs is lexicographic. *)
Definition score_gt (a b : score) : bool :=
  bool_decide (b.1 < a.1) || (bool_decide (a.1 = b.1) && bool_decide (b.2 < a.2)).
(** The loop of [resolve_package_pattern_export] and [..._import]. *)
Definition better_match (match_key required_prefix : rstr)
    (best : option (Json * rstr * score)) (entry : rstr * Json) : option (Json * rstr * score) :=
  match match_package_pattern entry.1 match_key required_prefix with
  | Some (capture, sc) =>
      if match best with Some (_, best_score) => score_gt sc best_score | None => true end
      then Some (entry.2, capture, sc) else best
  | None => best
  end.
Definition best_match (m : list (rstr * Json)) (match_key required_prefix : rstr) :
    option (Json * rstr * score) :=
  foldl (better_match match_key required_prefix) None m.

(** [is_invalid_package_export_pattern_capture]; splitting at either separator. *)
Definition invalid_capture_segment (segment : rstr) : bool :=
  bool_decide (segment = []) || bool_decide (segment = ".") || bool_decide (segment = "..")
  || bool_decide (to_lowercase segment = "node_modules").
Definition is_invalid_package_export_pattern_capture (capture : rstr) : bool :=
  existsb invalid_capture_segment
    (split_on slash ((λ c, if bool_decide (c = backslash) then slash else c) <$> capture)).

(** [is_invalid_package_export_target_segment] *)
Definition is_invalid_package_export_target_segment (c : component) : bool :=
  match c with
  | Normal segment => bool_decide (segment = "node_modules")
  | _ => true
  end.

(** [s.trim_start_matches('/')] *)
Fixpoint trim_start_slashes (s : rstr) : rstr :=
  match s with
  | c :: s' => if bool_decide (c = slash) then trim_start_slashes s' else s
  | [] => []
  end.

(** ** The resolution algorithm *)

Section resolver.
Context (N : NodeHost) (h : Host) (url_host : rstr → option rstr).
(** The time stamp of an audit record, by the state it is written in. *)
Context (clock : PermState → rstr).

(** [canonical_file], [resolve_as_file] *)
Definition canonical_file (p : pathbuf) : pathbuf := (fs_canonicalize N p) .unwrap_or p.
Fixpoint try_extensions (candidate : pathbuf) (extensions : list rstr) : option pathbuf :=
  match extensions with
  | [] => None
  | extension :: rest =>
      let appended := candidate ++ "." ++ extension in
      if is_file N appended then Some (canonical_file appended)
      else let replaced := with_extension candidate extension in
           if is_file N replaced then Some (canonical_file replaced)
           else try_extensions candidate rest
  end.
Definition resolve_as_file (candidate : pathbuf) : option pathbuf :=
  if is_file N candidate then Some (canonical_file candidate)
  else try_extensions candidate JS_EXTENSIONS.

(** [read_package_json_with_policy] *)
Inductive PackageJsonDenyPolicy := TreatAsAbsent | FailOnDeny.
Definition read_package_json_with_policy (root : pathbuf) (policy : PackageJsonDenyPolicy) :
    M (option Json) := λ s,
  match package_json_cache s !! components root with
  | Some cached => Some (s, Ok cached)
  | None =>
      let file := package_json_of root in
      if negb (is_file N file) then Some (with_package_json s root None, Ok None)
      else
        let '(p, verdict) := check_global_permission h url_host (clock (permissions s))
               (permissions s) FileSystem Read (Path (components file)) in
        let s := with_permissions s p in
        match verdict with
        | Err error =>
            match policy with
            | TreatAsAbsent => Some (s, Ok None)
            | FailOnDeny => Some (s, Err (with_reason file root (denied_text N error)))
            end
        | Ok _ =>
            match read_to_string N file with
            | Err error =>
                Some (s, Err (invalid_package_config root ("failed to read package.json: " ++ error)))
            | Ok content =>
                match from_str N content with
                | Err error => Some (s, Err (invalid_package_config root error))
                | Ok v => Some (with_package_json s root (Some v), Ok (Some v))
                end
            end
        end
  end.
Definition read_package_json (root : pathbuf) : M (option Json) :=
  read_package_json_with_policy root TreatAsAbsent.
Definition read_package_json_required (root : pathbuf) : M (option Json) :=
  read_package_json_with_policy root FailOnDeny.

Definition validate_package_exports_config (root : pathbuf) (m : list (rstr * Json)) : M unit :=
  if mixed_keys m
  then throw (invalid_package_config root "exports cannot mix subpath keys and condition keys")
  else mret tt.

(** The common shape of [resolve_package_export_value_with_pattern] and
    [resolve_package_import_value_with_pattern]: only what becomes of a string
    target differs. *)
Section value.
Context {A : Type} (string_target : rstr → M (Resolution A)) (capture : option rstr).
Context (conditions : list rstr).
Section loops.
Context (value : Json → M (Resolution A)).
Fixpoint fallbacks (l : list Json) (last_fallback : Resolution A) : M (Resolution A) :=
  match l with
  | [] => mret last_fallback
  | t :: l' =>
      r ← value t;
      match r with
      | Resolved a => mret (Resolved a)
      | InvalidTarget s => fallbacks l' (InvalidTarget s)
      | Blocked => mret Blocked
      | NotFound =>
          fallbacks l' match last_fallback with
                       | InvalidTarget s => InvalidTarget s | _ => NotFound end
      end
  end.
Fixpoint first_condition (m : list (rstr * Json)) : M (Resolution A) :=
  match m with
  | [] => mret NotFound
  | (condition, t) :: m' =>
      if is_export_condition condition conditions then
        r ← value t;
        match r with
        | Resolved a => mret (Resolved a)
        | Blocked => mret Blocked
        | InvalidTarget s => mret (InvalidTarget s)
        | NotFound => first_condition m'
        end
      else first_condition m'
  end.
End loops.
Fixpoint package_value (target : Json) : M (Resolution A) :=
  match target with
  | JNull => mret Blocked
  | JString s => string_target (with_capture capture s)
  | JArray [] => mret Blocked
  | JArray l => fallbacks package_value l NotFound
  | JObject m => first_condition package_value m
  | JBool _ | JNumber _ => mret (InvalidTarget (to_string N target))
  end.
End value.

(** The functions between one call of [resolve_path_candidate] and the next;
    [resolve_path] is that recursive call. *)
Section path_resolution.
Context (resolve_path : pathbuf → list rstr → M (option pathbuf)).

Definition resolve_package_string_target (root : pathbuf) (target : rstr)
    (conditions : list rstr) : M PackageExportResolution :=
  match strip_prefix "./" target with
  | None | Some [] => mret (InvalidTarget target)
  | Some target_path =>
      if pb_is_absolute target_path ||
         existsb is_invalid_package_export_target_segment (components target_path)
      then mret (InvalidTarget target)
      else
        found ← resolve_path (pb_join root target_path) conditions;
        match found with
        | None => mret NotFound
        | Some resolved =>
            let canonical_root := (fs_canonicalize N root) .unwrap_or root in
            if path_starts_with (components resolved) (components canonical_root)
            then mret (Resolved resolved) else mret (InvalidTarget target)
        end
  end.
Definition resolve_package_export_value_with_pattern (root : pathbuf) (target : Json)
    (capture : option rstr) (conditions : list rstr) : M PackageExportResolution :=
  package_value (λ s, resolve_package_string_target root s conditions) capture conditions target.
Definition resolve_package_export_value (root : pathbuf) (target : Json)
    (conditions : list rstr) : M PackageExportResolution :=
  resolve_package_export_value_with_pattern root target None conditions.

Definition resolve_package_root_exports (root : pathbuf) (exports : Json)
    (conditions : list rstr) : M PackageExportResolution :=
  match exports with
  | JString _ | JArray _ | JNull => resolve_package_export_value root exports conditions
  | JObject m =>
      _ ← validate_package_exports_config root m;
      match map_get m "." with
      | None =>
          if existsb (λ kv, starts_with "." kv.1) m then mret NotFound
          else resolve_package_export_value root exports conditions
      | Some root_target => resolve_package_export_value root root_target conditions
      end
  | JBool _ | JNumber _ => mret (InvalidTarget (to_string N exports))
  end.

(** What [resolve_package_main], [resolve_package_subpath] and the self
    reference make of a resolution under [exports]. *)
Definition export_outcome (root : pathbuf) (export_key : rstr) (r : PackageExportResolution) :
    M (option pathbuf) :=
  match r with
  | Resolved p => mret (Some p)
  | InvalidTarget target => throw (invalid_package_target root export_key target)
  | NotFound | Blocked => throw (package_path_not_exported root export_key)
  end.

Definition resolve_package_main (root : pathbuf) (conditions : list rstr) : M (option pathbuf) :=
  package_json ← read_package_json_required root;
  match package_json with
  | None => mret None
  | Some v =>
      match json_get v "exports" with
      | Some exports =>
          r ← resolve_package_root_exports root exports conditions; export_outcome root "." r
      | None =>
          match json_get v "main" with
          | Some (JString main) => resolve_path (pb_join root main) conditions
          | _ => mret None
          end
      end
  end.

Fixpoint try_index (candidate : pathbuf) (extensions : list rstr) : option pathbuf :=
  match extensions with
  | [] => None
  | extension :: rest =>
      let index_path := pb_join candidate ("index." ++ extension) in
      if is_file N index_path then Some (canonical_file index_path)
      else try_index candidate rest
  end.
Definition resolve_as_directory (candidate : pathbuf) (conditions : list rstr) :
    M (option pathbuf) :=
  if negb (is_dir N candidate) then mret None
  else
    main ← resolve_package_main candidate conditions;
    match main with
    | Some main_path => mret (Some main_path)
    | None => mret (try_index candidate JS_EXTENSIONS)
    end.

Definition path_candidate (candidate : pathbuf) (conditions : list rstr) : M (option pathbuf) :=
  match resolve_as_file candidate with
  | Some file => mret (Some file)
  | None => resolve_as_directory candidate conditions
  end.

Definition resolve_package_pattern_export (root : pathbuf) (m : list (rstr * Json))
    (export_key : rstr) (conditions : list rstr) : M PackageExportResolution :=
  match best_match m export_key "./" with
  | Some (target, capture, _) =>
      if is_invalid_package_export_pattern_capture capture
      then throw (invalid_module_specifier root export_key)
      else resolve_package_export_value_with_pattern root target (Some capture) conditions
  | None => mret NotFound
  end.

Definition resolve_package_subpath (root : pathbuf) (subpath : rstr) (conditions : list rstr) :
    M (option pathbuf) :=
  package_json ← read_package_json_required root;
  match package_json ≫= (λ v, json_get v "exports") with
  | None => resolve_path (pb_join root subpath) conditions
  | Some exports =>
      let export_key := "./" ++ trim_start_slashes subpath in
      match as_object exports with
      | None => throw (package_path_not_exported root export_key)
      | Some m =>
          _ ← validate_package_exports_config root m;
          match map_get m export_key with
          | Some target =>
              r ← resolve_package_export_value root target conditions;
              export_outcome root export_key r
          | None =>
              r ← resolve_package_pattern_export root m export_key conditions;
              export_outcome root export_key r
          end
      end
  end.

(** The walk up the ancestors of the requiring directory. *)
Fixpoint node_modules_walk (package : PackageSpecifier) (dirs : list pathbuf)
    (conditions : list rstr) : M (option pathbuf) :=
  match dirs with
  | [] => mret None
  | dir :: rest =>
      let root := pb_join (pb_join dir "node_modules") (name package) in
      resolved ← match subpath package with
                 | Some sub => resolve_package_subpath root sub conditions
                 | None => resolve_path root conditions
                 end;
      match resolved with
      | Some p => mret (Some p)
      | None => node_modules_walk package rest conditions
      end
  end.
Definition resolve_node_modules (specifier : rstr) (parent_dir : pathbuf)
    (conditions : list rstr) : M (option pathbuf) :=
  node_modules_walk (parse_package_specifier specifier) (ancestors parent_dir) conditions.

Fixpoint self_reference_walk (package : PackageSpecifier) (dirs : list pathbuf)
    (conditions : list rstr) : M (option pathbuf) :=
  match dirs with
  | [] => mret None
  | dir :: rest =>
      package_json ← read_package_json dir;
      match package_json with
      | None => self_reference_walk package rest conditions
      | Some v =>
          match json_get v "name" with
          | Some (JString package_name) =>
              if negb (bool_decide (package_name = name package))
              then self_reference_walk package rest conditions
              else
                match json_get v "exports" with
                | None => mret None
                | Some exports =>
                    match subpath package with
                    | Some sub => resolve_package_subpath dir sub conditions
                    | None =>
                        r ← resolve_package_root_exports dir exports conditions;
                        export_outcome dir "." r
                    end
                end
          | _ => self_reference_walk package rest conditions
          end
      end
  end.
Definition resolve_package_self_reference (specifier : rstr) (parent_dir : pathbuf)
    (conditions : list rstr) : M (option pathbuf) :=
  let package := parse_package_specifier specifier in
  if bool_decide (name package = []) then mret None
  else self_reference_walk package (ancestors parent_dir) conditions.
End path_resolution.

Fixpoint resolve_path_candidate (fuel : nat) (candidate : pathbuf) (conditions : list rstr) :
    M (option pathbuf) :=
  match fuel with
  | 0 => λ _, None
  | S n => path_candidate (resolve_path_candidate n) candidate conditions
  end.

(** The functions between one call of [resolve_module_with_conditions] and the
    next; [resolve_module] is that recursive call. *)
Section module_resolution.
Context (resolve_path : pathbuf → list rstr → M (option pathbuf)).
Context (resolve_module : rstr → pathbuf → list rstr → M ResolvedModule).

Definition resolve_package_import_string_target (root : pathbuf) (target : rstr)
    (conditions : list rstr) : M PackageImportResolution :=
  if bool_decide (target = []) then mret (InvalidTarget target)
  else if starts_with "./" target then
    r ← resolve_package_string_target resolve_path root target conditions;
    mret match r with
         | Resolved p => Resolved (File p)
         | NotFound => NotFound
         | Blocked => Blocked
         | InvalidTarget t => InvalidTarget t
         end
  else if starts_with "../" target || starts_with "/" target || url_parses N target
  then mret (InvalidTarget target)
  else r ← resolve_module target root conditions; mret (Resolved r).
Definition resolve_package_import_value_with_pattern (root : pathbuf) (target : Json)
    (capture : option rstr) (conditions : list rstr) : M PackageImportResolution :=
  package_value (λ s, resolve_package_import_string_target root s conditions)
    capture conditions target.

Definition resolve_package_import_resolution (root : pathbuf) (specifier : rstr)
    (r : PackageImportResolution) : M ResolvedModule :=
  match r with
  | Resolved m => mret m
  | InvalidTarget target => throw (invalid_package_target root specifier target)
  | NotFound | Blocked => throw (package_import_not_defined root specifier)
  end.
Definition resolve_package_import_value (root : pathbuf) (specifier : rstr) (target : Json)
    (conditions : list rstr) : M ResolvedModule :=
  r ← resolve_package_import_value_with_pattern root target None conditions;
  resolve_package_import_resolution root specifier r.
Definition resolve_package_pattern_import (root : pathbuf) (m : list (rstr * Json))
    (specifier : rstr) (conditions : list rstr) : M PackageImportResolution :=
  match best_match m specifier "#" with
  | Some (target, capture, _) =>
      if is_invalid_package_export_pattern_capture capture
      then throw (invalid_module_specifier root specifier)
      else resolve_package_import_value_with_pattern root target (Some capture) conditions
  | None => mret NotFound
  end.

Fixpoint import_walk (specifier : rstr) (parent_dir : pathbuf) (dirs : list pathbuf)
    (conditions : list rstr) : M ResolvedModule :=
  match dirs with
  | [] => throw (package_import_not_defined parent_dir specifier)
  | dir :: rest =>
      if bool_decide (pb_file_name dir = Some ("node_modules" : rstr))
      then throw (package_import_not_defined parent_dir specifier)
      else
        package_json ← read_package_json dir;
        match package_json with
        | None => import_walk specifier parent_dir rest conditions
        | Some v =>
            match json_get v "imports" ≫= as_object with
            | Some m =>
                match map_get m specifier with
                | Some target => resolve_package_import_value dir specifier target conditions
                | None =>
                    r ← resolve_package_pattern_import dir m specifier conditions;
                    resolve_package_import_resolution dir specifier r
                end
            | None => throw (package_import_not_defined dir specifier)
            end
        end
  end.
Definition resolve_package_import (specifier : rstr) (parent_dir : pathbuf)
    (conditions : list rstr) : M ResolvedModule :=
  if bool_decide (specifier = "#") || ends_with "/" specifier
  then throw (invalid_module_specifier parent_dir specifier)
  else import_walk specifier parent_dir (ancestors parent_dir) conditions.

(** [.map(ResolvedModule::File).ok_or_else(..)] *)
Definition file_or_error (specifier : rstr) (parent_dir : pathbuf) (found : option pathbuf) :
    M ResolvedModule :=
  match found with
  | Some p => mret (File p)
  | None => throw (error_new specifier parent_dir)
  end.

Definition module_with_conditions (specifier : rstr) (parent_dir : pathbuf)
    (conditions : list rstr) : M ResolvedModule :=
  match normalize_builtin_specifier specifier with
  | Some builtin_name => mret (Builtin builtin_name)
  | None =>
      if starts_with "node:" specifier then throw (error_new specifier parent_dir)
      else if bool_decide (specifier = ".") || bool_decide (specifier = "..")
              || starts_with "./" specifier || starts_with "../" specifier
              || pb_is_absolute specifier
      then
        let candidate := if pb_is_absolute specifier then specifier
                         else pb_join parent_dir specifier in
        found ← resolve_path candidate conditions; file_or_error specifier parent_dir found
      else if starts_with "#" specifier then resolve_package_import specifier parent_dir conditions
      else
        self ← resolve_package_self_reference resolve_path specifier parent_dir conditions;
        match self with
        | Some resolved => mret (File resolved)
        | None =>
            found ← resolve_node_modules resolve_path specifier parent_dir conditions;
            file_or_error specifier parent_dir found
        end
  end.
End module_resolution.

Fixpoint resolve_module_with_conditions (fuel : nat) (specifier : rstr) (parent_dir : pathbuf)
    (conditions : list rstr) : M ResolvedModule :=
  match fuel with
  | 0 => λ _, None
  | S n => module_with_conditions (resolve_path_candidate n) (resolve_module_with_conditions n)
             specifier parent_dir conditions
  end.

(** ** Entry points *)

(** [nearest_package_type], [classify_commonjs_file] *)
Fixpoint package_type_walk (dirs : list pathbuf) : M (option rstr) :=
  match dirs with
  | [] => mret None
  | dir :: rest =>
      package_json ← read_package_json dir;
      match package_json with
      | Some v => mret (json_get v "type" ≫= as_str)
      | None => package_type_walk rest
      end
  end.
Definition nearest_package_type (p : pathbuf) : M (option rstr) :=
  package_type_walk match pb_parent p with Some dir => ancestors dir | None => [] end.
Definition classify_commonjs_file (p : pathbuf) : M CommonJsModuleFormat :=
  match pb_extension p with
  | None => mret CommonJs
  | Some e =>
      if bool_decide (e = "json") then mret JsonModule
      else if bool_decide (e = "ts") then mret TypeScript
      else if bool_decide (e = "tsx") || bool_decide (e = "jsx") then mret TypeScriptJsx
      else if bool_decide (e = "mjs") then mret EsModule
      else if bool_decide (e = "cjs") then mret CommonJs
      else if bool_decide (e = "js") then
        t ← nearest_package_type p;
        mret (if bool_decide (t = Some ("module" : rstr)) then EsModule else CommonJs)
      else mret CommonJs
  end.

(** [resolve_commonjs_module] and [resolve_esm_module] differ in the key's flag
    and the conditions.  [remapped] is the answer of
    [resolve_from_global_import_map]. *)
Definition cached_resolution (is_esm : bool) (conditions : list rstr) (fuel : nat)
    (remapped : option rstr) (specifier : rstr) (parent_dir : pathbuf) : M ResolvedModule := λ s,
  let effective_specifier := remapped .unwrap_or specifier in
  let key := (components parent_dir, effective_specifier, is_esm) in
  match resolution_cache s !! key with
  | Some cached => Some (s, cached)
  | None =>
      match resolve_module_with_conditions fuel effective_specifier parent_dir conditions s with
      | None => None
      | Some (s, res) =>
          Some ({| resolution_cache := <[key := res]> (resolution_cache s);
                   package_json_cache := package_json_cache s;
                   permissions := permissions s |}, res)
      end
  end.
Definition resolve_commonjs_module (fuel : nat) (iter : ∀ A, gmap rstr A → list (rstr * A))
    (global : option ImportMap) (specifier : rstr) (parent_dir : pathbuf) : M ResolvedModule :=
  cached_resolution false COMMONJS_EXPORT_CONDITIONS fuel
    (resolve_from_global_import_map iter global specifier (Some parent_dir)) specifier parent_dir.
Definition resolve_esm_module (fuel : nat) (iter : ∀ A, gmap rstr A → list (rstr * A))
    (global : option ImportMap) (specifier : rstr) (parent_dir : pathbuf) : M ResolvedModule :=
  cached_resolution true ESM_EXPORT_CONDITIONS fuel
    (resolve_from_global_import_map iter global specifier (Some parent_dir)) specifier parent_dir.
End resolver.
