(* ===== verification/ResolverLogic.v ===== *)
(** * Reasoning about the resolver's monad

    Two proof rules cover every function of [Resolver]: [spec], a
    pre/postcondition with an invariant on the state, total or partial
    according to its first argument; and [rel], a relation between two runs,
    exact or up to one of them running out of fuel.  Each is closed under the
    monad's operations and under [package_value]; [mstep] applies the rules. *)

From S2P Require Import Prelude Json RustPath Permissions RawPath Resolver.

(** ** One run *)

Section spec.
(** [D]: what a run that is out of fuel may be ([False] for total correctness);
    [I]: the invariant. *)
Context (D : Prop) (I : Resolver → Prop).

Definition spec {A} (m : M A) (Q : A → Prop) : Prop := ∀ s, I s →
  match m s with
  | Some (s', r) => I s' ∧ ∀ a, r = Ok a → Q a
  | None => D
  end.

Lemma spec_ret {A} (a : A) Q : Q a → spec (mret a) Q.
Proof. intros H s Hs. split; [done|]. by intros ? [= <-]. Qed.
Lemma spec_throw {A} e (Q : A → Prop) : spec (throw e) Q.
Proof. intros s Hs. by split. Qed.
Lemma spec_bind {A B} (m : M A) (f : A → M B) P Q :
  spec m P → (∀ a, P a → spec (f a) Q) → spec (m ≫= f) Q.
Proof.
  intros Hm Hf s Hs. unfold mbind, M_bind. specialize (Hm s Hs).
  destruct (m s) as [[s' [a|e]]|]; [|by destruct Hm|done].
  destruct Hm as [Hs' Ha]. by apply Hf; [apply Ha|].
Qed.
Lemma spec_mono {A} (m : M A) (P Q : A → Prop) : (∀ a, P a → Q a) → spec m P → spec m Q.
Proof.
  intros HPQ Hm s Hs. specialize (Hm s Hs). destruct (m s) as [[s' r]|]; [|done].
  destruct Hm as [? Ha]. eauto.
Qed.

Lemma spec_package_value {A} N (f : rstr → M (Resolution A)) capture conditions
    (S : rstr → Prop) (Q : Resolution A → Prop) :
  (∀ s, S s → spec (f (with_capture capture s)) Q) →
  Q NotFound → Q Blocked → (∀ t, Q (InvalidTarget t)) →
  ∀ v, Forall S (json_strings v) →
  spec (package_value N f capture conditions v) Q.
Proof.
  intros Hf HN HB HI. induction v as [| | |s|l IH|m IH] using json_ind; intros HS;
    cbn [package_value]; try by apply spec_ret.
  - apply Hf. by apply Forall_cons in HS as [? _].
  - assert (∀ last, Q last → spec (fallbacks (package_value N f capture conditions) l last) Q)
      as Hloop; [|destruct l; [by apply spec_ret|exact (Hloop NotFound HN)]].
    induction l as [|w l IHl]; intros last Hlast; [by apply spec_ret|].
    apply Forall_cons in IH as [Hw Hl]. cbn [json_strings] in HS. apply Forall_app in HS as [HSw HS].
    eapply spec_bind; [by apply Hw|].
    intros [] HQ; [by apply spec_ret|apply IHl; [done..|by destruct last]|by apply spec_ret|by apply IHl].
  - induction m as [|[k v] m IHm]; [by apply spec_ret|]. apply Forall_cons in IH as [IHv IH].
    cbn [json_strings] in HS. apply Forall_app in HS as [HSv HS]. cbn [first_condition].
    destruct (is_export_condition k conditions); [|by apply IHm].
    eapply spec_bind; [by apply IHv|].
    intros [] HQ; [by apply spec_ret|by apply IHm|by apply spec_ret|by apply spec_ret].
Qed.
End spec.

(** ** Two runs *)

Section rel.
(** [L]: whether the first run may run out of fuel where the second does not. *)
Context (L : Prop) (R : Resolver → Resolver → Prop).

Definition rel {A} (m1 m2 : M A) : Prop := ∀ s1 s2, R s1 s2 →
  match m1 s1, m2 s2 with
  | Some (s1', r1), Some (s2', r2) => R s1' s2' ∧ r1 = r2
  | None, None => True
  | None, Some _ => L
  | Some _, None => False
  end.

Lemma rel_ret {A} (a : A) : rel (mret a) (mret a).
Proof. by intros s1 s2 Hs. Qed.
Lemma rel_throw {A} e : rel (throw (A := A) e) (throw e).
Proof. by intros s1 s2 Hs. Qed.
Lemma rel_bind {A B} (m1 m2 : M A) (f1 f2 : A → M B) :
  rel m1 m2 → (∀ a, rel (f1 a) (f2 a)) → rel (m1 ≫= f1) (m2 ≫= f2).
Proof.
  intros Hm Hf s1 s2 Hs. unfold mbind, M_bind. specialize (Hm s1 s2 Hs).
  destruct (m1 s1) as [[s1' r1]|], (m2 s2) as [[s2' r2]|]; [|done|by destruct r2; cases|done].
  - destruct Hm as [Hs' <-]. destruct r1 as [a|e]; [by apply Hf|done].
Qed.
Lemma rel_package_value {A} N1 N2 (f1 f2 : rstr → M (Resolution A)) capture conditions v :
  to_string N1 = to_string N2 → (∀ s, rel (f1 s) (f2 s)) →
  rel (package_value N1 f1 capture conditions v) (package_value N2 f2 capture conditions v).
Proof.
  intros Ht Hf. induction v as [| | |s|l IH|m IH] using json_ind;
    cbn [package_value]; try apply rel_ret; try (rewrite Ht; apply rel_ret).
  - apply Hf.
  - assert (∀ last, rel (fallbacks (package_value N1 f1 capture conditions) l last)
                        (fallbacks (package_value N2 f2 capture conditions) l last)) as Hloop;
      [|destruct l; [apply rel_ret|exact (Hloop NotFound)]].
    induction l as [|w l' IHl]; intros last; [apply rel_ret|].
    apply Forall_cons in IH as [Hw Hl]. apply rel_bind; [exact Hw|].
    intros []; try apply rel_ret; by apply IHl.
  - induction m as [|[k v] m IHm]; [apply rel_ret|]. apply Forall_cons in IH as [IHv IH].
    cbn [first_condition]. destruct (is_export_condition k conditions); [|by apply IHm].
    apply rel_bind; [exact IHv|]. intros []; try apply rel_ret; by apply IHm.
Qed.
End rel.

(** Closes goals about a sequence of operations: binds, returns, errors, case
    analyses, recursive calls in the context, and the lemmas in [rel]. *)
Create HintDb rel.
Ltac rel_step :=
  match goal with
  | |- rel _ _ (mret _) _ => apply rel_ret
  | |- rel _ _ (throw _) _ => apply rel_throw
  | |- rel _ _ (_ ≫= _) (_ ≫= _) => apply rel_bind; [|intros]
  | |- rel _ _ (match ?x with _ => _ end) (match ?x with _ => _ end) => destruct x eqn:?
  | _ => progress cbv zeta
  | _ => solve [auto with rel]
  end.
Ltac rel_run := repeat rel_step.

(** The same host with other file contents. *)
Definition with_reader (N : NodeHost) (rd : pathbuf → result rstr rstr) : NodeHost := {|
  is_file := is_file N; is_dir := is_dir N; fs_canonicalize := fs_canonicalize N;
  read_to_string := rd; from_str := from_str N; to_string := to_string N;
  url_parses := url_parses N; denied_text := denied_text N |}.

(** If reading a manifest is related, so is everything built on it. *)
Section congruence.
Context (N : NodeHost) (rd : pathbuf → result rstr rstr).
Context (h : Host) (url_host : rstr → option rstr) (clock : PermState → rstr).
Context (L : Prop) (R : Resolver → Resolver → Prop).
Abbreviation N' := (with_reader N rd).
Hypothesis Hread : ∀ root policy,
  rel L R (read_package_json_with_policy N h url_host clock root policy)
          (read_package_json_with_policy N' h url_host clock root policy).

Lemma rel_read root : rel L R (read_package_json N h url_host clock root)
                              (read_package_json N' h url_host clock root).
Proof using Hread. apply Hread. Qed.
Lemma rel_read_required root :
  rel L R (read_package_json_required N h url_host clock root)
          (read_package_json_required N' h url_host clock root).
Proof using Hread. apply Hread. Qed.
#[local] Hint Resolve rel_read rel_read_required : rel.

Lemma rel_validate root m :
  rel L R (validate_package_exports_config root m) (validate_package_exports_config root m).
Proof. unfold validate_package_exports_config. rel_run. Qed.
Lemma rel_outcome root key r : rel L R (export_outcome root key r) (export_outcome root key r).
Proof. unfold export_outcome. rel_run. Qed.
#[local] Hint Resolve rel_validate rel_outcome : rel.

Section paths.
Context (P1 P2 : pathbuf → list rstr → M (option pathbuf)).
Hypothesis HP : ∀ p conditions, rel L R (P1 p conditions) (P2 p conditions).
#[local] Hint Resolve HP : rel.

Lemma rel_string_target root target conditions :
  rel L R (resolve_package_string_target N P1 root target conditions)
          (resolve_package_string_target N' P2 root target conditions).
Proof using HP. unfold resolve_package_string_target. cbn [fs_canonicalize with_reader]. rel_run. Qed.
Lemma rel_export_value root target capture conditions :
  rel L R (resolve_package_export_value_with_pattern N P1 root target capture conditions)
          (resolve_package_export_value_with_pattern N' P2 root target capture conditions).
Proof using HP.
  apply (rel_package_value L R N N'); [done|]. intros. apply rel_string_target.
Qed.
#[local] Hint Resolve rel_export_value : rel.
Lemma rel_root_exports root exports conditions :
  rel L R (resolve_package_root_exports N P1 root exports conditions)
          (resolve_package_root_exports N' P2 root exports conditions).
Proof using HP.
  unfold resolve_package_root_exports, resolve_package_export_value.
  cbn [to_string with_reader]. rel_run.
Qed.
#[local] Hint Resolve rel_root_exports : rel.

Lemma rel_path_candidate p conditions :
  rel L R (path_candidate N h url_host clock P1 p conditions)
          (path_candidate N' h url_host clock P2 p conditions).
Proof using HP Hread.
  unfold path_candidate. change (resolve_as_file N' p) with (resolve_as_file N p).
  destruct (resolve_as_file N p); [rel_run|]. unfold resolve_as_directory, resolve_package_main.
  cbn [is_dir with_reader]. change (try_index N' p JS_EXTENSIONS) with (try_index N p JS_EXTENSIONS).
  rel_run.
Qed.
Lemma rel_subpath root sub conditions :
  rel L R (resolve_package_subpath N h url_host clock P1 root sub conditions)
          (resolve_package_subpath N' h url_host clock P2 root sub conditions).
Proof using HP Hread.
  unfold resolve_package_subpath, resolve_package_pattern_export, resolve_package_export_value.
  rel_run.
Qed.
#[local] Hint Resolve rel_subpath : rel.
Lemma rel_node_modules specifier dir conditions :
  rel L R (resolve_node_modules N h url_host clock P1 specifier dir conditions)
          (resolve_node_modules N' h url_host clock P2 specifier dir conditions).
Proof using HP Hread.
  unfold resolve_node_modules. generalize (parse_package_specifier specifier). intros pkg.
  induction (ancestors dir) as [|d dirs IH]; cbn [node_modules_walk]; rel_run.
Qed.
Lemma rel_self_reference specifier dir conditions :
  rel L R (resolve_package_self_reference N h url_host clock P1 specifier dir conditions)
          (resolve_package_self_reference N' h url_host clock P2 specifier dir conditions).
Proof using HP Hread.
  unfold resolve_package_self_reference. cbv zeta.
  generalize (parse_package_specifier specifier). intros pkg. rel_step; [rel_run|].
  induction (ancestors dir) as [|d dirs IH]; cbn [self_reference_walk]; rel_run.
Qed.
#[local] Hint Resolve rel_node_modules rel_self_reference : rel.

Context (M1 M2 : rstr → pathbuf → list rstr → M ResolvedModule).
Hypothesis HM : ∀ s p conditions, rel L R (M1 s p conditions) (M2 s p conditions).
#[local] Hint Resolve HM : rel.

Lemma rel_import_resolution root s r :
  rel L R (resolve_package_import_resolution root s r) (resolve_package_import_resolution root s r).
Proof. unfold resolve_package_import_resolution. rel_run. Qed.
#[local] Hint Resolve rel_import_resolution rel_string_target : rel.
Lemma rel_import_value root target capture conditions :
  rel L R (resolve_package_import_value_with_pattern N P1 M1 root target capture conditions)
          (resolve_package_import_value_with_pattern N' P2 M2 root target capture conditions).
Proof using HP HM.
  apply (rel_package_value L R N N'); [done|]. intros s.
  unfold resolve_package_import_string_target. cbn [url_parses with_reader]. rel_run.
Qed.
#[local] Hint Resolve rel_import_value : rel.
Lemma rel_import s dir conditions :
  rel L R (resolve_package_import N h url_host clock P1 M1 s dir conditions)
          (resolve_package_import N' h url_host clock P2 M2 s dir conditions).
Proof using HP HM Hread.
  unfold resolve_package_import. rel_step; [rel_run|].
  induction (ancestors dir) as [|d dirs IH]; cbn [import_walk];
    unfold resolve_package_import_value, resolve_package_pattern_import; rel_run.
Qed.
#[local] Hint Resolve rel_import : rel.
Lemma rel_module s dir conditions :
  rel L R (module_with_conditions N h url_host clock P1 M1 s dir conditions)
          (module_with_conditions N' h url_host clock P2 M2 s dir conditions).
Proof using HP HM Hread. unfold module_with_conditions, file_or_error. rel_run. Qed.
End paths.

(** The two recursions, at the same fuel. *)
Lemma rel_resolve_path n p conditions :
  rel L R (resolve_path_candidate N h url_host clock n p conditions)
          (resolve_path_candidate N' h url_host clock n p conditions).
Proof using Hread.
  revert p conditions. induction n as [|n IH]; intros p conditions; [by intros s1 s2|].
  by apply rel_path_candidate.
Qed.
Lemma rel_resolve_module n s dir conditions :
  rel L R (resolve_module_with_conditions N h url_host clock n s dir conditions)
          (resolve_module_with_conditions N' h url_host clock n s dir conditions).
Proof using Hread.
  revert s dir conditions. induction n as [|n IH]; intros s dir conditions; [by intros s1 s2|].
  apply rel_module; [|done]. apply rel_resolve_path.
Qed.
End congruence.

(** ** A postcondition for every function

    [Q] holds of a resolved file, [G] of a manifest that was read, [ok] of what
    may be joined to a package's directory before resolving again, and [okm] of
    the specifiers that import targets may lead to. *)
Lemma best_match_elem m key prefix t capture sc :
  best_match m key prefix = Some (t, capture, sc) →
  ∃ k, (k, t) ∈ m ∧ match_package_pattern k key prefix = Some (capture, sc).
Proof.
  unfold best_match. induction m as [|[k v] m IH] using rev_ind; [done|].
  rewrite foldl_app. cbn [foldl]. set (b := foldl _ None m) in *. unfold better_match. cbn [fst snd].
  assert (b = Some (t, capture, sc) →
    ∃ k', (k', t) ∈ m ++ [(k, v)] ∧ match_package_pattern k' key prefix = Some (capture, sc)) as Hold.
  { intros (k' & ? & ?)%IH. exists k'. set_solver. }
  destruct (match_package_pattern k key prefix) as [[c s]|] eqn:E; [|done].
  destruct (match b with Some (_, bs) => score_gt s bs | None => true end); [|done].
  intros [= -> -> ->]. exists k. set_solver.
Qed.
Section spec_resolver.
Context (N : NodeHost) (h : Host) (url_host : rstr → option rstr) (clock : PermState → rstr).
Context (D : Prop) (I : Resolver → Prop).
Context (ok : rstr → Prop) (G : Json → Prop) (Q : pathbuf → Prop).
Hypothesis Hok : ∀ x, x ≠ [] → pb_is_absolute x = false → ok x.
Hypothesis Hread : ∀ root policy,
  spec D I (read_package_json_with_policy N h url_host clock root policy)
    (λ o, ∀ v, o = Some v → G v).
Hypothesis Hmain : ∀ v m, G v → json_get v "main" = Some (JString m) → ok m.
Hypothesis HQ : ∀ p, is_file N p = true → Q (canonical_file N p).

Definition found (o : option pathbuf) : Prop := ∀ p, o = Some p → Q p.
Definition target_found (r : PackageExportResolution) : Prop := ∀ p, r = Resolved p → Q p.

Lemma found_None : found None.
Proof. by intros p. Qed.
Lemma try_extensions_found p l : found (try_extensions N p l).
Proof using HQ.
  induction l as [|e l IH]; [done|]. intros f. cbn [try_extensions]. cbv zeta.
  destruct (is_file N (p ++ _)) eqn:E1; [intros [= <-]; by apply HQ|].
  destruct (is_file N (with_extension p e)) eqn:E2; [intros [= <-]; by apply HQ|]. apply IH.
Qed.
Lemma resolve_as_file_found p : found (resolve_as_file N p).
Proof using HQ.
  intros f. unfold resolve_as_file. destruct (is_file N p) eqn:E; [intros [= <-]; by apply HQ|].
  apply try_extensions_found.
Qed.
Lemma try_index_found p l : found (try_index N p l).
Proof using HQ.
  induction l as [|e l IH]; [done|]. intros f. cbn [try_index]. cbv zeta.
  destruct (is_file N (pb_join p _)) eqn:E; [intros [= <-]; by apply HQ|]. apply IH.
Qed.

Lemma spec_validate root m : spec D I (validate_package_exports_config root m) (λ _, True).
Proof. unfold validate_package_exports_config. destruct (mixed_keys m); [apply spec_throw|by apply spec_ret]. Qed.
Lemma spec_outcome root key r : target_found r → spec D I (export_outcome root key r) found.
Proof.
  intros Hr. destruct r; cbn [export_outcome]; [|apply spec_throw..].
  apply spec_ret. intros p [= <-]. by apply Hr.
Qed.

Section paths.
Context (P : pathbuf → list rstr → M (option pathbuf)).

(** Only paths below [root] are resolved again. *)
Section below.
Context (root : pathbuf).
Hypothesis HP : ∀ x conditions, ok x → spec D I (P (pb_join root x) conditions) found.

Lemma spec_string_target target conditions :
  spec D I (resolve_package_string_target N P root target conditions) target_found.
Proof using HP Hok.
  unfold resolve_package_string_target.
  destruct (strip_prefix "./" target) as [[|c x]|]; [by apply spec_ret| |by apply spec_ret].
  destruct (pb_is_absolute (c :: x) || _) eqn:E; [by apply spec_ret|].
  apply orb_false_iff in E as [Ha _]. eapply spec_bind; [by apply HP, Hok|].
  intros [f|] Hf; [|by apply spec_ret]. cbv zeta. destruct (path_starts_with _ _); apply spec_ret; [|done].
  intros p [= <-]. by apply Hf.
Qed.
Lemma spec_export_value target capture conditions :
  spec D I (resolve_package_export_value_with_pattern N P root target capture conditions) target_found.
Proof using HP Hok.
  apply (spec_package_value D I N _ _ _ (λ _, True)); [|done..|by apply Forall_true].
  intros. apply spec_string_target.
Qed.
Lemma spec_root_exports exports conditions :
  spec D I (resolve_package_root_exports N P root exports conditions) target_found.
Proof using HP Hok.
  unfold resolve_package_root_exports.
  destruct exports as [| | | | |m]; try apply spec_export_value; try by apply spec_ret.
  eapply spec_bind; [apply spec_validate|]. intros _ _.
  destruct (map_get m "."); [apply spec_export_value|].
  destruct (existsb _ m); [by apply spec_ret|apply spec_export_value].
Qed.
Lemma spec_main conditions :
  spec D I (resolve_package_main N h url_host clock P root conditions) found.
Proof using HP Hok Hread Hmain.
  unfold resolve_package_main. eapply spec_bind; [apply Hread|].
  intros [v|] Hv; [|apply spec_ret, found_None]. specialize (Hv v eq_refl).
  destruct (json_get v "exports") as [exports|].
  - eapply spec_bind; [apply spec_root_exports|]. intros r. apply spec_outcome.
  - destruct (json_get v "main") as [[| | |m| |]|] eqn:E; try apply spec_ret, found_None.
    apply HP. by eapply Hmain.
Qed.
End below.

Lemma spec_path_candidate p conditions :
  (is_dir N p = true → ∀ x conditions, ok x → spec D I (P (pb_join p x) conditions) found) →
  spec D I (path_candidate N h url_host clock P p conditions) found.
Proof using HQ Hok Hread Hmain.
  intros HP. unfold path_candidate.
  destruct (resolve_as_file N p) as [f|] eqn:E.
  { apply spec_ret. rewrite <-E. apply resolve_as_file_found. }
  unfold resolve_as_directory. destruct (is_dir N p); [|apply spec_ret, found_None].
  cbn [negb]. eapply spec_bind; [by apply spec_main, HP|].
  intros [f|] Hf; apply spec_ret; [done|apply try_index_found].
Qed.

Hypothesis HP : ∀ p conditions, spec D I (P p conditions) found.

Lemma spec_subpath root sub conditions :
  spec D I (resolve_package_subpath N h url_host clock P root sub conditions) found.
Proof using HP Hok Hread.
  unfold resolve_package_subpath. eapply spec_bind; [apply Hread|]. intros o Ho.
  destruct (o ≫= _) as [exports|]; [|apply HP]. cbv zeta.
  destruct (as_object exports) as [m|]; [|apply spec_throw].
  eapply spec_bind; [apply spec_validate|]. intros _ _.
  destruct (map_get m _).
  - eapply spec_bind; [by apply spec_export_value|]. intros r. apply spec_outcome.
  - eapply spec_bind; [|intros r; apply spec_outcome]. unfold resolve_package_pattern_export.
    destruct (best_match m _ _) as [[[t c] sc]|]; [|by apply spec_ret].
    destruct (is_invalid_package_export_pattern_capture c); [apply spec_throw|].
    by apply spec_export_value.
Qed.
Lemma spec_node_modules s dir conditions :
  spec D I (resolve_node_modules N h url_host clock P s dir conditions) found.
Proof using HP Hok Hread.
  unfold resolve_node_modules. generalize (parse_package_specifier s). intros pkg.
  induction (ancestors dir) as [|d dirs IH]; cbn [node_modules_walk]; [apply spec_ret, found_None|].
  cbv zeta. eapply (spec_bind _ _ _ _ found).
  - destruct (subpath pkg); [apply spec_subpath|apply HP].
  - intros [p|] Hp; [by apply spec_ret|exact IH].
Qed.
Lemma spec_self_reference s dir conditions :
  spec D I (resolve_package_self_reference N h url_host clock P s dir conditions) found.
Proof using HP Hok Hread.
  unfold resolve_package_self_reference. cbv zeta. generalize (parse_package_specifier s). intros pkg.
  destruct (bool_decide _); [apply spec_ret, found_None|].
  induction (ancestors dir) as [|d dirs IH]; cbn [self_reference_walk]; [apply spec_ret, found_None|].
  eapply spec_bind; [apply Hread|]. intros [v|] Hv; [|exact IH].
  destruct (json_get v "name") as [[| | |n| |]|]; try exact IH.
  destruct (negb _); [exact IH|]. destruct (json_get v "exports"); [|apply spec_ret, found_None].
  destruct (subpath pkg); [apply spec_subpath|].
  eapply spec_bind; [by apply spec_root_exports|]. intros r. apply spec_outcome.
Qed.

(** Import targets. *)
Context (okm : rstr → Prop) (S : rstr → Prop).
Context (resolve_module : rstr → pathbuf → list rstr → M ResolvedModule).
Definition module_found (r : ResolvedModule) : Prop := ∀ p, r = File p → Q p.
Hypothesis Hcapture : ∀ s capture, S s → okm (with_capture capture s).
Hypothesis Himports : ∀ v m,
  G v → json_get v "imports" ≫= as_object = Some m → Forall S (json_strings (JObject m)).

Lemma spec_file_or_error s dir o : found o → spec D I (file_or_error s dir o) module_found.
Proof. intros Ho. destruct o as [p|]; [|apply spec_throw]. apply spec_ret. intros q [= <-]. by apply Ho. Qed.

Section imports.
Hypothesis HM : ∀ s p conditions, okm s → spec D I (resolve_module s p conditions) module_found.
Definition import_found (r : PackageImportResolution) : Prop :=
  ∀ m, r = Resolved m → module_found m.

Lemma spec_import_value root target capture conditions :
  Forall S (json_strings target) →
  spec D I (resolve_package_import_value_with_pattern N P resolve_module root target capture conditions)
    import_found.
Proof using HP Hok Hcapture HM.
  apply (spec_package_value D I N); [|done..]. intros s Hs%(λ H, Hcapture s capture H).
  unfold resolve_package_import_string_target.
  destruct (bool_decide _); [by apply spec_ret|]. destruct (starts_with "./" _).
  - eapply spec_bind; [by apply spec_string_target|]. intros [p| | |] Hr; apply spec_ret; [|done..].
    intros m [= <-] q [= <-]. by apply Hr.
  - destruct (_ || _); [by apply spec_ret|]. eapply spec_bind; [by apply HM|].
    intros m Hm. apply spec_ret. by intros ? [= <-].
Qed.
Lemma spec_import_resolution root s r :
  import_found r → spec D I (resolve_package_import_resolution root s r) module_found.
Proof. intros Hr. destruct r; [|apply spec_throw..]. apply spec_ret. by apply Hr. Qed.
Lemma spec_import s dir conditions :
  spec D I (resolve_package_import N h url_host clock P resolve_module s dir conditions) module_found.
Proof using HP Hok Hread Hcapture Himports HM.
  unfold resolve_package_import. destruct (_ || _); [apply spec_throw|].
  induction (ancestors dir) as [|d dirs IH]; cbn [import_walk]; [apply spec_throw|].
  destruct (bool_decide _); [apply spec_throw|]. eapply spec_bind; [apply Hread|].
  intros [v|] Hv; [|exact IH]. specialize (Hv v eq_refl).
  destruct (_ ≫= as_object) as [m|] eqn:Em; [|apply spec_throw].
  apply Himports in Em; [|done]. destruct (map_get m s) as [t|] eqn:Et.
  - eapply spec_bind; [apply spec_import_value; by eapply map_get_strings|].
    intros r. apply spec_import_resolution.
  - eapply spec_bind; [|intros r; apply spec_import_resolution].
    unfold resolve_package_pattern_import.
    destruct (best_match m s "#") as [[[t c] sc]|] eqn:Eb; [|by apply spec_ret].
    destruct (is_invalid_package_export_pattern_capture c); [apply spec_throw|].
    apply best_match_elem in Eb as (k & Hk & _). apply spec_import_value. by eapply elem_strings.
Qed.
End imports.

Lemma spec_module s dir conditions :
  (starts_with "#" s = true → ∀ s p conditions, okm s →
     spec D I (resolve_module s p conditions) module_found) →
  spec D I (module_with_conditions N h url_host clock P resolve_module s dir conditions) module_found.
Proof using HP Hok Hread Hcapture Himports.
  intros HM. unfold module_with_conditions.
  destruct (normalize_builtin_specifier s); [by apply spec_ret|].
  destruct (starts_with "node:" s); [apply spec_throw|]. destruct (_ || _).
  { cbv zeta. eapply spec_bind; [apply HP|]. intros o. apply spec_file_or_error. }
  destruct (starts_with "#" s); [by apply spec_import, HM|].
  eapply spec_bind; [apply spec_self_reference|]. intros [p|] Hp.
  - apply spec_ret. intros q [= <-]. by apply Hp.
  - eapply spec_bind; [apply spec_node_modules|]. intros o. apply spec_file_or_error.
Qed.
End paths.
End spec_resolver.
