(* ===== verification/ResolverTheorems.v ===== *)
(** * What module resolution guarantees

    Theorems about [Resolver], by the proof rules of [ResolverLogic]. *)

From S2P Require Import Prelude Json RustPath Permissions RawPath Resolver ResolverLogic.

(** What reading a manifest gives when it is not cached and nothing is
    restricted. *)
Definition fresh_manifest (N : NodeHost) (root : pathbuf) : option (option Json) :=
  if negb (is_file N (package_json_of root)) then Some None
  else match read_to_string N (package_json_of root) with
       | Ok text => match from_str N text with Ok v => Some (Some v) | Err _ => None end
       | Err _ => None
       end.
Definition cache_sound (N : NodeHost) (s : Resolver) : Prop :=
  ∀ root o, package_json_cache s !! components root = Some o → fresh_manifest N root = Some o.

(** ** A concrete disk

    [files] gives the regular files with their text, [manifests] what each
    text parses to; directory paths are shorter than 64 bytes. *)
Module ToyDisk.
Definition file_at (files : list (rstr * rstr)) (p : pathbuf) : option rstr :=
  snd <$> head (filter (λ f, components f.1 = components p) files).
Definition host (files : list (rstr * rstr)) (manifests : list (rstr * Json)) : NodeHost := {|
  is_file := λ p, bool_decide (is_Some (file_at files p));
  is_dir := λ p, bool_decide (length p < 64) &&
    existsb (λ f, path_starts_with (components f.1) (components p)
                  && negb (bool_decide (components f.1 = components p))) files;
  fs_canonicalize := λ p, Some (render (components p));
  read_to_string := λ p,
    match file_at files p with Some text => Ok text | None => Err ("no such file" : rstr) end;
  from_str := λ t,
    match map_get manifests t with Some v => Ok v | None => Err ("expected value" : rstr) end;
  to_string := λ _, "null";
  url_parses := λ _, false;
  denied_text := λ _, "permission denied" |}.
Definition no_clock (_ : PermState) : rstr := "now".
Definition no_host (_ : rstr) : option rstr := None.
Definition start (p : PermState) : Resolver :=
  {| resolution_cache := ∅; package_json_cache := ∅; permissions := p |}.

(** A project at [/p] with one installed package. *)
Definition manifest : Json := JObject [
  ("name" : rstr, JString "q");
  ("exports" : rstr, JObject [("." : rstr, JString "./lib.js");
                              ("./x/*" : rstr, JString "./in/*.js")])].
Definition main_manifest : Json := JObject [("main" : rstr, JString "lib")].
Definition disk (v : Json) : NodeHost :=
  host [("/p/node_modules/q/package.json" : rstr, "manifest" : rstr);
        ("/p/node_modules/q/lib.js" : rstr, [] : rstr);
        ("/p/node_modules/q/in/a.js" : rstr, [] : rstr)] [("manifest" : rstr, v)].
Definition q_root : pathbuf := "/p/node_modules/q".
Definition lib : pathbuf := "/p/node_modules/q/lib.js".

Lemma spelling v r1 r2 :
  components r1 = components r2 → fresh_manifest (disk v) r1 = fresh_manifest (disk v) r2.
Proof.
  intros E. unfold fresh_manifest, package_json_of. cbn [disk host is_file read_to_string].
  assert (∀ r, components (pb_join r "package.json") = components r ++ [Normal "package.json"]) as Hj.
  { intros r. apply components_join_name; [|done]. apply (bool_decide_unpack _). by vm_compute. }
  assert (file_at [("/p/node_modules/q/package.json" : rstr, "manifest" : rstr);
        ("/p/node_modules/q/lib.js" : rstr, [] : rstr);
        ("/p/node_modules/q/in/a.js" : rstr, [] : rstr)] (pb_join r1 "package.json") =
     file_at [("/p/node_modules/q/package.json" : rstr, "manifest" : rstr);
        ("/p/node_modules/q/lib.js" : rstr, [] : rstr);
        ("/p/node_modules/q/in/a.js" : rstr, [] : rstr)] (pb_join r2 "package.json")) as ->; [|done].
  unfold file_at. by rewrite (Hj r1), (Hj r2), E.
Qed.
Lemma dir_bound v p : is_dir (disk v) p = true → length p < 64.
Proof. cbn [disk host is_dir]. by intros [?%bool_decide_eq_true _]%andb_true_iff. Qed.
Lemma parsed v f text w : read_to_string (disk v) f = Ok text → from_str (disk v) text = Ok w → w = v.
Proof.
  intros _. cbn [disk host from_str]. unfold map_get. rewrite filter_cons. case_decide; [|done].
  by intros [= <-].
Qed.
End ToyDisk.

(** ** Fuel *)

Section fuel.
Context (N : NodeHost) (h : Host) (url_host : rstr → option rstr) (clock : PermState → rstr).

Lemma with_reader_id : with_reader N (read_to_string N) = N.
Proof. by destruct N. Qed.
Lemma rel_refl {A} (m : M A) : rel True eq m m.
Proof. intros s ? <-. by destruct (m s) as [[]|]. Qed.
Lemma rel_out {A} (m : M A) : rel True eq (λ _, None) m.
Proof. intros s ? <-. by destruct (m s) as [[]|]. Qed.

(** More fuel gives the same outcome, where there is one. *)
Lemma path_fuel_mono n m p conditions :
  n ≤ m → rel True eq (resolve_path_candidate N h url_host clock n p conditions)
                      (resolve_path_candidate N h url_host clock m p conditions).
Proof.
  revert m p conditions. induction n as [|n IH]; intros m p conditions Hle; [apply rel_out|].
  destruct m as [|m]; [lia|]. cbn [resolve_path_candidate].
  pose proof (rel_path_candidate N (read_to_string N) h url_host clock True eq) as Hc.
  rewrite with_reader_id in Hc. apply Hc; [intros; apply rel_refl|]. intros. apply IH. lia.
Qed.
Lemma module_fuel_mono n m s dir conditions :
  n ≤ m → rel True eq (resolve_module_with_conditions N h url_host clock n s dir conditions)
                      (resolve_module_with_conditions N h url_host clock m s dir conditions).
Proof.
  revert m s dir conditions. induction n as [|n IH]; intros m s dir conditions Hle; [apply rel_out|].
  destruct m as [|m]; [lia|]. cbn [resolve_module_with_conditions].
  pose proof (rel_module N (read_to_string N) h url_host clock True eq) as Hc.
  rewrite with_reader_id in Hc. apply Hc; [intros; apply rel_refl| |].
  - intros. apply path_fuel_mono. lia.
  - intros. apply IH. lia.
Qed.
Lemma rel_eq_Some {A} (m1 m2 : M A) s r : rel True eq m1 m2 → m1 s = Some r → m2 s = Some r.
Proof.
  intros Hrel E. specialize (Hrel s s eq_refl). rewrite E in Hrel. destruct r as [s' r].
  destruct (m2 s) as [[s2 r2]|]; [|done]. by destruct Hrel as [-> ->].
Qed.
End fuel.

(** ** Reading a manifest *)

Section reading.
Context (N : NodeHost) (h : Host) (url_host : rstr → option rstr) (clock : PermState → rstr).

(** [G] holds of every manifest read if it holds of those in the cache and of
    those that the files' texts parse to. *)
Definition cache_good (G : Json → Prop) (s : Resolver) : Prop :=
  ∀ d v, package_json_cache s !! d = Some (Some v) → G v.
Lemma cache_good_insert G s root o :
  cache_good G s → (∀ v, o = Some v → G v) → cache_good G (with_package_json s root o).
Proof.
  intros Hs Ho d v. cbn. destruct (base.decide (d = components root)) as [->|].
  - rewrite lookup_insert_eq. intros [= ->]. by apply Ho.
  - rewrite lookup_insert_ne by done. apply Hs.
Qed.
Lemma spec_read_good D G root policy :
  (∀ f text v, read_to_string N f = Ok text → from_str N text = Ok v → G v) →
  spec D (cache_good G) (read_package_json_with_policy N h url_host clock root policy)
    (λ o, ∀ v, o = Some v → G v).
Proof.
  intros HG s Hs. unfold read_package_json_with_policy.
  destruct (package_json_cache s !! components root) as [o|] eqn:E.
  { split; [done|]. intros ? [= <-] v ->. by eapply Hs. }
  cbv zeta. destruct (negb _); [split; [by apply cache_good_insert|by intros ? [= <-]]|].
  destruct (check_global_permission _ _ _ _ _ _ _) as [p [u|e]].
  - destruct (read_to_string N _) as [text|] eqn:Et; [|done].
    destruct (from_str N text) as [v|] eqn:Ev; [|done]. split.
    + apply cache_good_insert; [done|]. intros ? [= <-]. by eapply HG.
    + intros ? [= <-] ? [= <-]. by eapply HG.
  - destruct policy; [|done]. split; [done|]. by intros ? [= <-].
Qed.
End reading.

(** ** Termination *)

(** A manifest whose [main], if any, is a non-empty relative path, and whose
    import targets are no imports themselves. *)
Definition no_import (s : rstr) : Prop := ∀ c s', s = c :: s' → c ≠ "#"%char ∧ c ≠ "*"%char.
Definition plain_manifest (v : Json) : Prop :=
  (∀ m, json_get v "main" = Some (JString m) → m ≠ [] ∧ pb_is_absolute m = false) ∧
  (∀ m, json_get v "imports" ≫= as_object = Some m → Forall no_import (json_strings (JObject m))).

Lemma no_import_capture s capture :
  no_import s → starts_with "#" (with_capture capture s) = false.
Proof.
  intros Hs. destruct s as [|c s]; [by destruct capture|]. destruct (Hs c s eq_refl) as [Hh Hst].
  assert (∀ t, starts_with "#" (c :: t) = false) as Hc.
  { intros t. change (starts_with ["#"%char] (c :: t) = false). rewrite starts_with_head.
    apply bool_decide_eq_false_2. cbn. congruence. }
  destruct capture as [t|]; [|apply Hc]. cbn [with_capture]. unfold replace_star. cbn [fmap list_fmap].
  rewrite bool_decide_eq_false_2 by done. apply Hc.
Qed.

Section termination.
Context (N : NodeHost) (h : Host) (url_host : rstr → option rstr) (clock : PermState → rstr).
Context (PATH_MAX : nat).
Hypothesis Hdir : ∀ p, is_dir N p = true → length p < PATH_MAX.
Hypothesis Hfiles : ∀ f text v, read_to_string N f = Ok text → from_str N text = Ok v → plain_manifest v.

Let spec' {A} (m : M A) (Q : A → Prop) := spec False (cache_good plain_manifest) m Q.

Lemma path_terminates n p conditions :
  PATH_MAX < length p + n → 0 < n →
  spec' (resolve_path_candidate N h url_host clock n p conditions) (found (λ _, True)).
Proof using Hdir Hfiles.
  revert p conditions. induction n as [|n IH]; intros p conditions Hn H0; [lia|].
  apply (spec_path_candidate N h url_host clock False (cache_good plain_manifest)
           (λ x, x ≠ [] ∧ pb_is_absolute x = false) plain_manifest (λ _, True)); [done| | |done|].
  - intros. by apply spec_read_good.
  - intros v m [Hm _]. apply Hm.
  - intros Hp%Hdir x conditions' [Hne Hrel]. pose proof (pb_join_relative p x Hrel Hne). apply IH; lia.
Qed.
Lemma module_terminates n s dir conditions :
  PATH_MAX + 3 ≤ n →
  spec' (resolve_module_with_conditions N h url_host clock n s dir conditions) (λ _, True).
Proof using Hdir Hfiles.
  intros Hn. destruct n as [|n]; [lia|].
  assert (∀ k s dir conditions resolve_module, PATH_MAX < k →
    (starts_with "#" s = true → ∀ s' p conditions, starts_with "#" s' = false →
       spec' (resolve_module s' p conditions) (module_found (λ _, True))) →
    spec' (module_with_conditions N h url_host clock (resolve_path_candidate N h url_host clock k)
             resolve_module s dir conditions) (module_found (λ _, True))) as Hlevel.
  { intros k s' dir' c Mo Hk HM.
    apply (spec_module N h url_host clock False (cache_good plain_manifest)
             (λ x, x ≠ [] ∧ pb_is_absolute x = false) plain_manifest (λ _, True)) with
      (okm := λ s, starts_with "#" s = false) (S := no_import); [done| | | | |exact HM].
    - intros. by apply spec_read_good.
    - intros. apply path_terminates; lia.
    - intros. by apply no_import_capture.
    - intros v m [_ Hi]. apply Hi. }
  eapply (spec_mono _ _ _ (module_found (λ _, True))); [done|]. apply Hlevel; [lia|].
  intros _ s' p c Hs'. destruct n as [|n]; [lia|]. apply Hlevel; [lia|]. congruence.
Qed.
End termination.

(** C23. Module resolution terminates, with an outcome that does not depend on the
    fuel, on every disk whose directory paths are bounded (the system's
    [PATH_MAX]) and whose manifests have no [main] that is empty or absolute and
    no import target that is an import again: the depth of the recursion is at
    most [PATH_MAX + 3]. *)
Theorem resolution_terminates N h url_host clock PATH_MAX specifier dir conditions s :
  (∀ p, is_dir N p = true → length p < PATH_MAX) →
  (∀ f text v, read_to_string N f = Ok text → from_str N text = Ok v → plain_manifest v) →
  (∀ d v, package_json_cache s !! d = Some (Some v) → plain_manifest v) →
  ∃ r, ∀ n, PATH_MAX + 3 ≤ n →
    resolve_module_with_conditions N h url_host clock n specifier dir conditions s = Some r.
Proof.
  intros Hdir Hfiles Hs.
  pose proof (module_terminates N h url_host clock PATH_MAX Hdir Hfiles (PATH_MAX + 3)
                specifier dir conditions (le_n _) s Hs) as Hr.
  destruct (resolve_module_with_conditions _ _ _ _ _ _ _ _ _) as [r|] eqn:E; [|done].
  exists r. intros n Hn. eapply rel_eq_Some; [|exact E]. by apply module_fuel_mono.
Qed.
Lemma resolution_terminates_witness :
  (∃ r, ∀ n, 67 ≤ n → resolve_module_with_conditions (ToyDisk.disk ToyDisk.main_manifest) bare_host
     ToyDisk.no_host ToyDisk.no_clock n "q" "/p" COMMONJS_EXPORT_CONDITIONS
     (ToyDisk.start perm_init) = Some r) ∧
  snd <$> resolve_module_with_conditions (ToyDisk.disk ToyDisk.main_manifest) bare_host
     ToyDisk.no_host ToyDisk.no_clock 67 "q" "/p" COMMONJS_EXPORT_CONDITIONS
     (ToyDisk.start perm_init) = Some (Ok (File ToyDisk.lib)).
Proof.
  split; [|vm_compute; reflexivity].
  apply (resolution_terminates (ToyDisk.disk ToyDisk.main_manifest) bare_host
    ToyDisk.no_host ToyDisk.no_clock 64 "q" "/p" COMMONJS_EXPORT_CONDITIONS
    (ToyDisk.start perm_init)).
  - apply ToyDisk.dir_bound.
  - intros f text v H1 H2. rewrite (ToyDisk.parsed _ _ _ _ H1 H2). split; [|done].
    intros m [= <-]. by vm_compute.
  - intros d v Hd. cbn in Hd. by rewrite lookup_empty in Hd.
Defined.

(** Outside these bounds it may not terminate: a directory whose manifest has
    no [exports] and an empty [main] resolves to itself forever, and so does an
    import that is its own target.  No amount of fuel is enough; the running
    program overflows its stack. *)
Theorem resolution_can_diverge N h url_host clock p dir conditions v w s fuel :
  (∀ q, components q = components p → is_dir N q = true ∧ resolve_as_file N q = None) →
  package_json_cache s !! components p = Some (Some v) →
  json_get v "exports" = None → json_get v "main" = Some (JString []) →
  package_json_cache s !! components dir = Some (Some w) →
  pb_file_name dir ≠ Some ("node_modules" : rstr) → url_parses N "#a" = false →
  json_get w "imports" = Some (JObject [("#a" : rstr, JString "#a")]) →
  resolve_path_candidate N h url_host clock fuel p conditions s = None ∧
  resolve_module_with_conditions N h url_host clock fuel "#a" dir conditions s = None.
Proof.
  intros Hp Hv He Hm Hw Hd Hu Hi. split.
  - assert (∀ n q, components q = components p →
      resolve_path_candidate N h url_host clock n q conditions s = None) as Hall; [|by apply Hall].
    intros n. induction n as [|n IH]; intros q Hq; [done|].
    destruct (Hp q Hq) as [Hqd Hqf]. cbn [resolve_path_candidate]. unfold path_candidate.
    rewrite Hqf. unfold resolve_as_directory. rewrite Hqd. cbn [negb].
    unfold resolve_package_main, read_package_json_required, read_package_json_with_policy.
    unfold mbind, M_bind. rewrite Hq, Hv. cbn [mret M_ret]. rewrite He, Hm. rewrite IH; [done|].
    by rewrite components_join_nil.
  - induction fuel as [|n IH]; [done|]. cbn [resolve_module_with_conditions].
    unfold module_with_conditions.
    replace (normalize_builtin_specifier "#a") with (@None rstr) by (vm_compute; reflexivity).
    change (starts_with "node:" "#a") with false. cbn [negb].
    replace (bool_decide _ || _ || _ || _ || _) with false by (vm_compute; reflexivity).
    change (starts_with "#" "#a") with true. unfold resolve_package_import.
    replace (bool_decide _ || _) with false by (vm_compute; reflexivity).
    rewrite ancestors_step. cbn [import_walk]. rewrite bool_decide_eq_false_2 by done.
    unfold read_package_json, read_package_json_with_policy.
    unfold mbind at 1, M_bind at 1. rewrite Hw. rewrite Hi.
    cbn [mbind option_bind as_object].
    replace (map_get _ "#a") with (Some (JString "#a")) by (vm_compute; reflexivity).
    unfold resolve_package_import_value, resolve_package_import_value_with_pattern.
    cbn [package_value with_capture]. unfold resolve_package_import_string_target.
    rewrite bool_decide_eq_false_2 by done. change (starts_with "./" "#a") with false.
    change (starts_with "../" "#a") with false. change (starts_with "/" "#a") with false.
    cbn [orb]. rewrite Hu. unfold mbind, M_bind. by rewrite IH.
Qed.
Lemma resolution_can_diverge_witness :
  let v := JObject [("main" : rstr, JString [])] in
  let w := JObject [("imports" : rstr, JObject [("#a" : rstr, JString "#a")])] in
  let N := {| is_file := λ _, false;
              is_dir := λ p, bool_decide (components p = [RootDir; Normal "d"]);
              fs_canonicalize := Some; read_to_string := λ _, Ok ([] : rstr);
              from_str := λ _, Err ([] : rstr); to_string := λ _, []; url_parses := λ _, false;
              denied_text := λ _, [] |} in
  let s := {| resolution_cache := ∅; permissions := perm_init;
              package_json_cache := {[components "/d" := Some v; components "/e" := Some w]} |} in
  resolve_path_candidate N bare_host ToyDisk.no_host ToyDisk.no_clock 1000 "/d" [] s = None ∧
  resolve_module_with_conditions N bare_host ToyDisk.no_host ToyDisk.no_clock 1000 "#a" "/e" [] s = None.
Proof.
  intros v w N s. apply (resolution_can_diverge N) with (v := v) (w := w).
  - intros q Hq. split; [|done]. cbn [N is_dir]. rewrite Hq. by vm_compute.
  - vm_compute; reflexivity.
  - done.
  - done.
  - vm_compute; reflexivity.
  - vm_compute. done.
  - done.
  - vm_compute; reflexivity.
Defined.

(** ** Confinement *)

Section confinement.
Context (N : NodeHost) (P : pathbuf → list rstr → M (option pathbuf)) (root : pathbuf).

Definition inside (o : option pathbuf) : Prop := ∃ p, o = Some p ∧
  path_starts_with (components p) (components ((fs_canonicalize N root) .unwrap_or root)) = true.
Definition target_inside (r : PackageExportResolution) : Prop :=
  ∀ p, r = Resolved p → inside (Some p).
Abbreviation ensures m Q := (spec True (λ _, True) m Q).

Lemma ensures_true {A} (m : M A) : ensures m (λ _, True).
Proof. intros s _. by destruct (m s) as [[]|]. Qed.
Lemma ensures_use {A} (m : M A) (Q : A → Prop) s s' a : ensures m Q → m s = Some (s', Ok a) → Q a.
Proof. intros Hm E. specialize (Hm s I). rewrite E in Hm. by apply Hm. Qed.

Lemma string_target_inside t conditions :
  ensures (resolve_package_string_target N P root t conditions) target_inside.
Proof.
  unfold resolve_package_string_target.
  destruct (strip_prefix "./" t) as [[|c x]|]; try by apply spec_ret.
  destruct (_ || _); [by apply spec_ret|]. eapply spec_bind; [apply ensures_true|].
  intros [f|] _; [|by apply spec_ret]. cbv zeta.
  destruct (path_starts_with _ _) eqn:E; apply spec_ret; [|done]. intros p [= <-]. by exists f.
Qed.
Lemma export_value_inside t capture conditions :
  ensures (resolve_package_export_value_with_pattern N P root t capture conditions) target_inside.
Proof.
  apply (spec_package_value _ _ N _ _ _ (λ _, True)); [|done..|by apply Forall_true].
  intros. apply string_target_inside.
Qed.
Lemma export_outcome_inside key r : target_inside r → ensures (export_outcome root key r) inside.
Proof. intros Hr. destruct r; [|apply spec_throw..]. by apply spec_ret, Hr. Qed.
End confinement.

Lemma subpath_inside N h url_host clock P root sub conditions v exports s s1 s' o :
  read_package_json_required N h url_host clock root s = Some (s1, Ok (Some v)) →
  json_get v "exports" = Some exports →
  resolve_package_subpath N h url_host clock P root sub conditions s = Some (s', Ok o) → inside N root o.
Proof.
  intros Hread Hexp. unfold resolve_package_subpath, mbind at 1, M_bind at 1. rewrite Hread.
  cbn [mbind option_bind]. rewrite Hexp. apply ensures_use. cbv zeta.
  destruct (as_object exports) as [m|]; [|apply spec_throw].
  eapply spec_bind; [apply ensures_true|]. intros _ _. destruct (map_get m _).
  - eapply spec_bind; [apply export_value_inside|]. intros r. apply export_outcome_inside.
  - eapply spec_bind; [|intros r; apply export_outcome_inside].
    unfold resolve_package_pattern_export.
    destruct (best_match m _ _) as [[[t c] sc]|]; [|by apply spec_ret].
    destruct (is_invalid_package_export_pattern_capture c); [apply spec_throw|apply export_value_inside].
Qed.
Lemma main_inside N h url_host clock P root conditions v exports s s1 s' o :
  read_package_json_required N h url_host clock root s = Some (s1, Ok (Some v)) →
  json_get v "exports" = Some exports →
  resolve_package_main N h url_host clock P root conditions s = Some (s', Ok o) → inside N root o.
Proof.
  intros Hread Hexp. unfold resolve_package_main, mbind at 1, M_bind at 1. rewrite Hread, Hexp.
  apply ensures_use. eapply spec_bind; [|intros r; apply export_outcome_inside].
  unfold resolve_package_root_exports.
  destruct exports as [| | | | |m]; try apply export_value_inside; try by apply spec_ret.
  eapply spec_bind; [apply ensures_true|]. intros _ _.
  destruct (map_get m "."); [apply export_value_inside|].
  destruct (existsb _ m); [by apply spec_ret|apply export_value_inside].
Qed.
Lemma bind_found {A B} (m : M A) (f : A → M B) s s' (r : result B CommonJsResolveError) :
  (m ≫= f) s = Some (s', r) →
  (∃ s1 a, m s = Some (s1, Ok a) ∧ f a s1 = Some (s', r)) ∨ (∃ e, m s = Some (s', Err e) ∧ r = Err e).
Proof. unfold mbind, M_bind. destruct (m s) as [[s1 [a|e]]|]; [eauto|intros [= <- <-]; eauto|done]. Qed.

(** C22. An installed package with [exports] is confined: whatever the keys,
    conditions, fallbacks and patterns say, and whatever the path resolution under it
    does, the walk that requires the package or one of its subpaths from the directory
    whose [node_modules] holds it ends there, with a file below the package's canonical
    directory or an error.  The one way past [exports] is that of a bare package name,
    whose path is tried as a file first: a file of that name next to the package, or
    that name with an extension, is taken instead ([sibling_file_shadows_exports]). *)
Theorem exports_confined N h url_host clock fuel package dir rest conditions v exports s s1 s' o :
  let root := pb_join (pb_join dir "node_modules") (name package) in
  is_dir N root = true →
  read_package_json_required N h url_host clock root s = Some (s1, Ok (Some v)) →
  json_get v "exports" = Some exports →
  node_modules_walk N h url_host clock (resolve_path_candidate N h url_host clock fuel) package
    (dir :: rest) conditions s = Some (s', Ok o) →
  inside N root o ∨ (subpath package = None ∧ is_Some o ∧ o = resolve_as_file N root).
Proof.
  intros root Hdir Hread Hexp H. cbn [node_modules_walk] in H. fold root in H.
  apply bind_found in H as [(s2 & resolved & H & Hrest)|(e & _ & ?)]; [|done].
  assert (inside N root resolved ∨
          (subpath package = None ∧ is_Some resolved ∧ resolved = resolve_as_file N root)) as Hr.
  { destruct (subpath package) as [sub|]; [left; by eapply subpath_inside|].
    destruct fuel as [|fuel]; [done|]. cbn [resolve_path_candidate] in H. unfold path_candidate in H.
    destruct (resolve_as_file N root) as [q|]; [injection H as <- <-; right; eauto|left].
    unfold resolve_as_directory in H. rewrite Hdir in H. cbn [negb] in H.
    apply bind_found in H as [(s3 & main & H & Hm)|(e & _ & ?)]; [|done].
    pose proof (main_inside _ _ _ _ _ _ _ _ _ _ _ _ _ Hread Hexp H) as (q & -> & Hq).
    injection Hm as <- <-. by exists q. }
  assert (is_Some resolved) as [q ->] by (destruct Hr as [(q & -> & _)|(_ & ? & _)]; eauto).
  injection Hrest as <- <-. exact Hr.
Qed.
Lemma exports_confined_witness :
  let N := ToyDisk.disk ToyDisk.manifest in
  let run := node_modules_walk N bare_host ToyDisk.no_host ToyDisk.no_clock
               (resolve_path_candidate N bare_host ToyDisk.no_host ToyDisk.no_clock 5)
               {| name := "q"; subpath := Some ("x/a" : rstr) |} ["/p" : pathbuf; "/" : pathbuf]
               COMMONJS_EXPORT_CONDITIONS (ToyDisk.start perm_init) in
  snd <$> run = Some (Ok (Some ("/p/node_modules/q/in/a.js" : rstr))) ∧
  ∀ s' o, run = Some (s', Ok o) →
    inside N ToyDisk.q_root o ∨ (Some ("x/a" : rstr) = None ∧ is_Some o ∧ o = resolve_as_file N ToyDisk.q_root).
Proof.
  intros N run. split; [vm_compute; reflexivity|]. intros s' o.
  apply (exports_confined N bare_host ToyDisk.no_host ToyDisk.no_clock 5
    {| name := "q"; subpath := Some ("x/a" : rstr) |} "/p" ["/" : pathbuf]
    COMMONJS_EXPORT_CONDITIONS ToyDisk.manifest
    (JObject [("." : rstr, JString "./lib.js"); ("./x/*" : rstr, JString "./in/*.js")])
    (ToyDisk.start perm_init)
    (with_package_json (ToyDisk.start perm_init) ToyDisk.q_root (Some ToyDisk.manifest)));
    [vm_compute; reflexivity|vm_compute; reflexivity|reflexivity].
Defined.
(** A file [node_modules/q.js] next to the package [q] is what [q] names, the package's
    [exports] notwithstanding; Node's algorithm looks at [exports] first. *)
Example sibling_file_shadows_exports :
  let N := ToyDisk.host [("/p/node_modules/q/package.json" : rstr, "manifest" : rstr);
                         ("/p/node_modules/q/lib.js" : rstr, [] : rstr);
                         ("/p/node_modules/q.js" : rstr, [] : rstr)] [("manifest" : rstr, ToyDisk.manifest)] in
  snd <$> resolve_module_with_conditions N bare_host ToyDisk.no_host ToyDisk.no_clock 5 "q" "/p"
    COMMONJS_EXPORT_CONDITIONS (ToyDisk.start perm_init)
  = Some (Ok (File "/p/node_modules/q.js")).
Proof. vm_compute. reflexivity. Qed.

(** A module is only ever resolved to a file that is there: the answer is a
    path that [is_file] accepts, in canonical form. *)
Theorem resolves_to_files N h url_host clock fuel specifier dir conditions s s' p :
  resolve_module_with_conditions N h url_host clock fuel specifier dir conditions s =
    Some (s', Ok (File p)) →
  ∃ q, is_file N q = true ∧ p = canonical_file N q.
Proof.
  set (Q p := ∃ q, is_file N q = true ∧ p = canonical_file N q).
  assert (∀ root policy, spec True (λ _, True) (read_package_json_with_policy N h url_host clock root policy)
    (λ o, ∀ v, o = Some v → True)) as Hread.
  { intros root policy s0 _. by destruct (read_package_json_with_policy _ _ _ _ _ _ s0) as [[]|]. }
  assert (∀ n p c, spec True (λ _, True) (resolve_path_candidate N h url_host clock n p c) (found Q)) as HP.
  { induction n as [|n IH]; intros q c; [by intros ? _|].
    apply (spec_path_candidate N h url_host clock True (λ _, True) (λ _, True) (λ _, True));
      [done..|intros x ?; by exists x|intros; apply IH]. }
  assert (∀ n s d c, spec True (λ _, True) (resolve_module_with_conditions N h url_host clock n s d c)
    (module_found Q)) as HM.
  { induction n as [|n IH]; intros t d c; [by intros ? _|].
    apply (spec_module N h url_host clock True (λ _, True) (λ _, True) (λ _, True) Q) with
      (okm := λ _, True) (S := λ _, True); [done..|apply HP|done| |intros; apply IH].
    intros. by apply Forall_true. }
  intros E. specialize (HM fuel specifier dir conditions s I). rewrite E in HM.
  destruct HM as [_ HM]. by eapply HM.
Qed.
Lemma resolves_to_files_witness :
  let N := ToyDisk.disk ToyDisk.manifest in
  ∃ q, is_file N q = true ∧ ToyDisk.lib = canonical_file N q.
Proof.
  intros N.
  destruct (resolve_module_with_conditions N bare_host ToyDisk.no_host ToyDisk.no_clock 5 "q" "/p"
    COMMONJS_EXPORT_CONDITIONS (ToyDisk.start perm_init)) as [[s' r]|] eqn:E.
  - apply (resolves_to_files N bare_host ToyDisk.no_host ToyDisk.no_clock 5 "q" "/p"
      COMMONJS_EXPORT_CONDITIONS (ToyDisk.start perm_init) s').
    rewrite E. apply (f_equal (fmap snd)) in E. revert E.
    match goal with |- ?x = _ → _ => replace x with (Some (Ok (E := CommonJsResolveError) (File ToyDisk.lib)))
      by (vm_compute; reflexivity) end.
    cbn. by intros [= <-].
  - apply (f_equal (fmap snd)) in E. by vm_compute in E.
Defined.

(** ** Permissions *)

(** A manifest that may not be read has no influence: under restrictions,
    resolution gives the same answer, the same caches and the same audit log on
    any two disks that differ only in files the permission broker denies. *)
Theorem denied_manifests_unread N rd h url_host clock fuel specifier dir conditions s :
  has_restrictions (permissions s) = true →
  (∀ f, Permissions.decide url_host (broker (permissions s)) FileSystem Read
          (normalize_resource h (Path (components f))) = Allow → rd f = read_to_string N f) →
  resolve_module_with_conditions (with_reader N rd) h url_host clock fuel specifier dir conditions s =
  resolve_module_with_conditions N h url_host clock fuel specifier dir conditions s.
Proof.
  intros Hr Hrd. set (b := broker (permissions s)) in *.
  set (R s1 s2 := s1 = s2 ∧ broker (permissions s1) = b ∧ has_restrictions (permissions s1) = true).
  assert (∀ root policy, rel False R (read_package_json_with_policy N h url_host clock root policy)
    (read_package_json_with_policy (with_reader N rd) h url_host clock root policy)) as Hread.
  { intros root policy s1 ? (<- & Hb & Hrs). unfold read_package_json_with_policy.
    destruct (package_json_cache s1 !! components root); [done|]. cbv zeta. cbn [is_file with_reader].
    destruct (negb _); [done|]. unfold check_global_permission. rewrite Hrs. cbn [negb].
    unfold check_result, check. rewrite Hb.
    set (d := Permissions.decide _ _ _ _ _).
    set (s2 := with_permissions s1 _).
    assert (R s2 s2) as Hs2.
    { subst s2 R. cbn. unfold write_audit_record. by destruct (audit_sink _). }
    destruct (is_allowed d) eqn:Ed.
    - cbn [read_to_string with_reader from_str].
      rewrite Hrd; [|destruct d eqn:E; [exact E|done]].
      destruct (read_to_string N _) as [text|]; [|by split].
      destruct (from_str N text); [|by split]. split; [|done]. destruct Hs2 as (_ & ? & ?). done.
    - by destruct policy. }
  pose proof (rel_resolve_module N rd h url_host clock False R Hread fuel specifier dir conditions
    s s (conj eq_refl (conj eq_refl Hr))) as Hrel.
  destruct (resolve_module_with_conditions N _ _ _ _ _ _ _ _) as [[s1 r1]|],
    (resolve_module_with_conditions _ _ _ _ _ _ _ _ _) as [[s2 r2]|]; [|done..].
  by destruct Hrel as [[-> _] ->].
Qed.
Lemma denied_manifests_unread_witness :
  let N := ToyDisk.disk ToyDisk.manifest in
  let rd := λ _, Ok ("anything" : rstr) in
  let s := ToyDisk.start (deny_all bare_host perm_init) in
  resolve_module_with_conditions (with_reader N rd) bare_host ToyDisk.no_host ToyDisk.no_clock 5 "q"
    "/p" COMMONJS_EXPORT_CONDITIONS s =
  resolve_module_with_conditions N bare_host ToyDisk.no_host ToyDisk.no_clock 5 "q"
    "/p" COMMONJS_EXPORT_CONDITIONS s.
Proof.
  intros N rd s. apply (denied_manifests_unread N rd); [done|]. intros f.
  rewrite decide_wildcard; [done|reflexivity|]. apply (bool_decide_unpack _). by vm_compute.
Defined.

(** ** The caches *)

Section cache.
Context (N : NodeHost) (h : Host) (url_host : rstr → option rstr) (clock : PermState → rstr).
Hypothesis Hspell : ∀ r1 r2, components r1 = components r2 → fresh_manifest N r1 = fresh_manifest N r2.

Lemma cache_sound_insert s root o :
  cache_sound N s → fresh_manifest N root = Some o → cache_sound N (with_package_json s root o).
Proof using Hspell.
  intros Hs Hf root' o'. cbn. destruct (base.decide (components root = components root')) as [E|].
  - rewrite E, lookup_insert_eq. intros [= <-]. by rewrite <-(Hspell root root' E).
  - rewrite lookup_insert_ne by done. apply Hs.
Qed.
(** Reading from a sound cache without restrictions: the answer is the fresh one. *)
Lemma read_sound : ∀ s root policy, cache_sound N s → has_restrictions (permissions s) = false →
  match read_package_json_with_policy N h url_host clock root policy s with
  | Some (s', Ok o) => permissions s' = permissions s ∧ cache_sound N s' ∧ fresh_manifest N root = Some o
  | Some (s', Err e) => permissions s' = permissions s ∧ cache_sound N s' ∧ fresh_manifest N root = None ∧
      ∀ s2, has_restrictions (permissions s2) = false → package_json_cache s2 !! components root = None →
        ∃ s2', read_package_json_with_policy N h url_host clock root policy s2 = Some (s2', Err e)
  | None => False
  end.
Proof using Hspell.
  intros s0 root policy Hs0 Hr0. unfold read_package_json_with_policy.
  destruct (package_json_cache s0 !! components root) as [o|] eqn:E; [by eauto|].
  cbv zeta. destruct (negb (is_file N _)) eqn:Ef.
  { split; [done|]. assert (fresh_manifest N root = Some None) as Hf by (unfold fresh_manifest; by rewrite Ef).
    split; [by apply cache_sound_insert|done]. }
  unfold check_global_permission. rewrite Hr0. cbn [negb].
  destruct (read_to_string N _) as [text|e] eqn:Et; [destruct (from_str N text) as [v|e] eqn:Ev|].
  - assert (fresh_manifest N root = Some (Some v)) as Hf by (unfold fresh_manifest; by rewrite Ef, Et, Ev).
    repeat split; [|done]. by apply (cache_sound_insert (with_permissions s0 _)).
  - split; [done|]. split; [done|]. split; [unfold fresh_manifest; by rewrite Ef, Et, Ev|].
    intros s2 Hr2 E2. rewrite E2, Hr2. cbn [negb]. by eexists.
  - split; [done|]. split; [done|]. split; [unfold fresh_manifest; by rewrite Ef, Et|].
    intros s2 Hr2 E2. rewrite E2, Hr2. cbn [negb]. by eexists.
Qed.
(** Two states that agree on the permissions and whose caches are sound. *)
Definition sound_pair (s1 s2 : Resolver) : Prop :=
  permissions s1 = permissions s2 ∧ has_restrictions (permissions s1) = false ∧
  cache_sound N s1 ∧ cache_sound N s2.
Lemma rel_read_sound root policy :
  rel False sound_pair (read_package_json_with_policy N h url_host clock root policy)
    (read_package_json_with_policy N h url_host clock root policy).
Proof using Hspell.
  intros s1 s2 (Hp & Hr1 & Hs1 & Hs2).
  assert (has_restrictions (permissions s2) = false) as Hr2 by congruence.
  pose proof (read_sound s1 root policy Hs1 Hr1) as H1. pose proof (read_sound s2 root policy Hs2 Hr2) as H2.
  destruct (read_package_json_with_policy N h url_host clock root policy s1) as [[s1' [o1|e1]]|] eqn:E1,
    (read_package_json_with_policy N h url_host clock root policy s2) as [[s2' [o2|e2]]|] eqn:E2;
    try done; destruct H1 as (P1 & S1 & F1), H2 as (P2 & S2 & F2).
  - split; [|congruence]. repeat split; [congruence|congruence|done..].
  - destruct F2 as [F2 _]. congruence.
  - destruct F1 as [F1 _]. congruence.
  - split; [repeat split; [congruence|congruence|done..]|].
    destruct F1 as [F1 Hsame]. destruct (Hsame s2 Hr2) as [s2'' E]; [|congruence].
    destruct (package_json_cache s2 !! components root) as [o|] eqn:Ec; [|done].
    apply Hs2 in Ec. congruence.
Qed.
End cache.

(** The manifest cache is transparent: without restrictions, on a disk that
    does not change, resolution from any cache of earlier readings gives what it
    gives from an empty cache, and leaves a cache of the same kind.  The disk
    may not tell apart two spellings of one directory. *)
Theorem manifest_cache_transparent N h url_host clock fuel specifier dir conditions s :
  (∀ r1 r2, components r1 = components r2 → fresh_manifest N r1 = fresh_manifest N r2) →
  has_restrictions (permissions s) = false → cache_sound N s →
  match resolve_module_with_conditions N h url_host clock fuel specifier dir conditions s,
        resolve_module_with_conditions N h url_host clock fuel specifier dir conditions
          (clear_module_resolution_cache s) with
  | Some (s1, r1), Some (s2, r2) => r1 = r2 ∧ cache_sound N s1
  | None, None => True
  | _, _ => False
  end.
Proof.
  intros Hspell Hr Hs.
  pose proof (rel_resolve_module N (read_to_string N) h url_host clock False (sound_pair N)) as Hrel.
  rewrite with_reader_id in Hrel.
  specialize (Hrel (rel_read_sound N h url_host clock Hspell) fuel specifier dir conditions s
    (clear_module_resolution_cache s)).
  destruct (resolve_module_with_conditions N _ _ _ _ _ _ _ s) as [[s1 r1]|],
    (resolve_module_with_conditions N _ _ _ _ _ _ _ (clear_module_resolution_cache s)) as [[s2 r2]|];
    try (destruct Hrel as [(_ & _ & ? & _) ->]; [|done]); try apply Hrel;
    repeat split; try done; intros root o; cbn; by rewrite lookup_empty.
Qed.
Lemma manifest_cache_transparent_witness :
  let N := ToyDisk.disk ToyDisk.manifest in
  let s := with_package_json (ToyDisk.start perm_init) ToyDisk.q_root (Some ToyDisk.manifest) in
  match resolve_module_with_conditions N bare_host ToyDisk.no_host ToyDisk.no_clock 5 "q" "/p" [] s,
        resolve_module_with_conditions N bare_host ToyDisk.no_host ToyDisk.no_clock 5 "q" "/p" []
          (clear_module_resolution_cache s) with
  | Some (s1, r1), Some (s2, r2) => r1 = r2 ∧ cache_sound N s1
  | None, None => True
  | _, _ => False
  end.
Proof.
  intros N s. apply (manifest_cache_transparent N bare_host ToyDisk.no_host ToyDisk.no_clock 5 "q" "/p" [] s).
  - apply ToyDisk.spelling.
  - reflexivity.
  - apply cache_sound_insert; [apply ToyDisk.spelling| |vm_compute; reflexivity].
    intros root o Ho. cbn in Ho. by rewrite lookup_empty in Ho.
Defined.

(** A request that was answered once is answered the same way from then on,
    whatever has happened to the disk, the import map's other entries and the
    permissions, without a check and without an audit line. *)
Theorem resolution_is_memoised N N' h h' url_host url_host' clock clock' esm conditions conditions'
    fuel fuel' remapped specifier dir dir' s s' r permissions' :
  cached_resolution N h url_host clock esm conditions fuel remapped specifier dir s = Some (s', r) →
  components dir' = components dir →
  let s2 := with_permissions s' permissions' in
  cached_resolution N' h' url_host' clock' esm conditions' fuel' remapped specifier dir' s2 = Some (s2, r).
Proof.
  intros E Hd. unfold cached_resolution in *. cbv zeta in *. rewrite Hd. cbn [resolution_cache with_permissions].
  destruct (resolution_cache s !! _) as [c|] eqn:Ec.
  - injection E as <- <-. by rewrite Ec.
  - destruct (resolve_module_with_conditions _ _ _ _ _ _ _ _ _) as [[s1 r1]|]; [|done].
    injection E as <- <-. cbn [resolution_cache]. by rewrite lookup_insert_eq.
Qed.

(** ** Patterns *)

(** What a pattern with one star stands for. *)
Definition stands_for (pattern_key match_key required_prefix capture : rstr) (sc : score) : Prop :=
  ∃ prefix suffix, pattern_key = prefix ++ "*"%char :: suffix ∧
    "*"%char ∉ prefix ∧ "*"%char ∉ suffix ∧ starts_with required_prefix prefix = true ∧
    match_key = prefix ++ capture ++ suffix ∧ capture ≠ [] ∧
    sc = (length prefix, length pattern_key).

Lemma star_count_zero s : length (filter (λ c, c = "*"%char) s) = 0 ↔ "*"%char ∉ s.
Proof.
  induction s as [|a s IH]; [split; [intros _; apply not_elem_of_nil|done]|].
  rewrite filter_cons, not_elem_of_cons. case_decide; simpl; [naive_solver lia|naive_solver].
Qed.
Lemma star_count_one prefix suffix :
  "*"%char ∉ prefix →
  length (filter (λ c, c = "*"%char) (prefix ++ "*"%char :: suffix)) = 1 ↔ "*"%char ∉ suffix.
Proof.
  intros Hp%star_count_zero. rewrite filter_app, length_app, Hp, filter_cons_True by done.
  rewrite <-star_count_zero. simpl. lia.
Qed.

Lemma ends_with_rest q (p t : rstr) :
  ends_with q (p ++ t) = true → length q ≤ length t → ∃ u, t = u ++ q.
Proof.
  intros [z Hz]%ends_with_spec Hl. exists (take (length t - length q) t).
  rewrite <-(take_drop (length t - length q) t) at 1. f_equal.
  apply (f_equal (drop (length z))) in Hz as Hz'. rewrite drop_app_length in Hz'.
  apply (f_equal length) in Hz as Hlz. rewrite !length_app in Hlz.
  rewrite drop_app_ge in Hz' by lia. etransitivity; [|exact Hz']. f_equal. lia.
Qed.

Lemma match_package_pattern_sound pattern_key match_key required_prefix capture sc :
  match_package_pattern pattern_key match_key required_prefix = Some (capture, sc) →
  stands_for pattern_key match_key required_prefix capture sc.
Proof.
  unfold match_package_pattern, stands_for.
  destruct (split_once "*" pattern_key) as [[p q]|] eqn:Es; [|by destruct (negb _)].
  apply split_once_Some in Es as [-> Hp]. cbn [mbind option_bind].
  destruct (negb (bool_decide (length _ = 1))) eqn:E1; [done|].
  apply negb_false_iff, bool_decide_eq_true, star_count_one in E1; [|done].
  destruct (negb (starts_with required_prefix p) || _ || _) eqn:E2; [done|].
  apply orb_false_iff in E2 as [[Hr Hm]%orb_false_iff Hne].
  apply negb_false_iff in Hr, Hm. apply bool_decide_eq_false in Hne.
  apply starts_with_spec in Hm as [t ->]. destruct (negb _ && _) eqn:E3; [done|].
  cbv zeta. destruct (bool_decide (_ < length q)) eqn:E4; [done|].
  destruct (bool_decide (_ ≤ _)) eqn:E5; [done|].
  apply bool_decide_eq_false in E4, E5. intros [= <- <-].
  rewrite drop_app_length. rewrite length_app in *.
  assert (∃ u, t = u ++ q) as [u ->].
  { destruct q as [|c q]; [exists t; by rewrite app_nil_r|].
    rewrite bool_decide_eq_false_2 in E3 by done. cbn [negb andb] in E3.
    apply orb_false_iff in E3 as [E3%negb_false_iff _].
    eapply ends_with_rest; [exact E3|]. simpl in *. lia. }
  rewrite length_app in *. exists p, q. repeat split; try done.
  + replace (length p + (length u + length q) - length q - length p) with (length u) by lia.
    by rewrite take_app_length.
  + replace (length p + (length u + length q) - length q - length p) with (length u) by lia.
    rewrite take_app_length. destruct u; simpl in *; [lia|done].
Qed.
Lemma match_package_pattern_complete pattern_key match_key required_prefix capture sc :
  stands_for pattern_key match_key required_prefix capture sc →
  match_package_pattern pattern_key match_key required_prefix = Some (capture, sc).
Proof.
  intros (p & q & -> & Hp & Hq & Hr & -> & Hc & ->). unfold match_package_pattern.
  rewrite split_once_app by done. cbn [mbind option_bind].
  assert (0 < length capture) as Hlc by (destruct capture; simpl; [done|lia]).
  rewrite bool_decide_eq_true_2 by (by apply star_count_one). cbn [negb].
  assert (starts_with p (p ++ capture ++ q) = true) as -> by (apply starts_with_spec; by eexists).
  rewrite Hr. cbn [negb orb]. rewrite (bool_decide_eq_false_2 (_ = p)).
  2:{ intros E. apply (f_equal length) in E. rewrite !length_app in E. lia. }
  assert (ends_with q (p ++ capture ++ q) = true) as ->.
  { apply ends_with_spec. exists (p ++ capture). by rewrite app_assoc. }
  rewrite !length_app. cbn [negb orb length].
  rewrite (bool_decide_eq_false_2 (_ < length p + S (length q))) by lia. rewrite andb_false_r.
  rewrite bool_decide_eq_false_2 by lia. rewrite bool_decide_eq_false_2 by lia.
  rewrite drop_app_length.
  replace (length p + (length capture + length q) - length q - length p) with (length capture) by lia.
  by rewrite take_app_length.
Qed.
Lemma match_package_pattern_spec pattern_key match_key required_prefix capture sc :
  match_package_pattern pattern_key match_key required_prefix = Some (capture, sc) ↔
  stands_for pattern_key match_key required_prefix capture sc.
Proof. split; [apply match_package_pattern_sound|apply match_package_pattern_complete]. Qed.

(** No pattern that applies has a higher score than the one taken. *)
Lemma best_match_max m match_key required_prefix b :
  best_match m match_key required_prefix = b →
  match b with
  | Some (_, _, sc) => ∀ k t c s, (k, t) ∈ m →
      match_package_pattern k match_key required_prefix = Some (c, s) → score_gt s sc = false
  | None => ∀ k t, (k, t) ∈ m → match_package_pattern k match_key required_prefix = None
  end.
Proof.
  revert b.
  induction m as [|[k v] m IH] using rev_ind; intros b; [intros <- k t H; by apply elem_of_nil in H|].
  unfold best_match. rewrite foldl_app. cbn [foldl].
  fold (best_match m match_key required_prefix). specialize (IH _ eq_refl).
  unfold better_match. cbn [fst snd].
  destruct (match_package_pattern k match_key required_prefix) as [[c s]|] eqn:Ek.
  - destruct (best_match m match_key required_prefix) as [[[t' c'] s']|].
    + destruct (score_gt s s') eqn:Eg; intros <-; intros k1 t1 c1 s1
        [Hin|[= -> ->]%list_elem_of_singleton]%elem_of_app E1.
      * specialize (IH _ _ _ _ Hin E1). revert IH Eg. clear. unfold score_gt.
        destruct s, s', s1. intros. bool_cases; simpl in *; repeat case_bool_decide; simpl in *; try done; lia.
      * rewrite Ek in E1. injection E1 as <- <-. revert Eg. clear. unfold score_gt. destruct s, s'.
        intros. bool_cases; simpl in *; repeat case_bool_decide; simpl in *; try done; lia.
      * by eapply IH.
      * congruence.
    + intros <-. intros k1 t1 c1 s1 [Hin|[= -> ->]%list_elem_of_singleton]%elem_of_app E1.
      * specialize (IH _ _ Hin). congruence.
      * rewrite Ek in E1. injection E1 as <- <-. unfold score_gt. destruct s. simpl.
        by rewrite !(bool_decide_eq_false_2 (_ < _)), andb_false_r by lia.
  - intros <-. destruct (best_match m match_key required_prefix) as [[[t' c'] s']|].
    + intros k1 t1 c1 s1 [Hin|[= -> ->]%list_elem_of_singleton]%elem_of_app E1; [by eapply IH|congruence].
    + intros k1 t1 [Hin|[= -> ->]%list_elem_of_singleton]%elem_of_app; [by eapply IH|done].
Qed.

(** [exports] and [imports] patterns: a pattern applies exactly when the
    requested key is its text with the star replaced by something, and of those
    that apply the one with the longest text before the star, then the longest
    key, is taken; there is only one such key, so the order of the manifest
    does not matter.  None is taken only if none applies. *)
Theorem pattern_choice m match_key required_prefix :
  match best_match m match_key required_prefix with
  | Some (target, capture, sc) =>
      ∃ key, (key, target) ∈ m ∧ stands_for key match_key required_prefix capture sc ∧
      ∀ key' target' capture' sc', (key', target') ∈ m →
        stands_for key' match_key required_prefix capture' sc' →
        score_gt sc' sc = false ∧ (sc' = sc → key' = key ∧ capture' = capture)
  | None => ∀ key target capture sc, (key, target) ∈ m →
      ¬ stands_for key match_key required_prefix capture sc
  end.
Proof.
  pose proof (best_match_max m match_key required_prefix _ eq_refl) as Hmax.
  destruct (best_match m _ _) as [[[t c] s]|] eqn:Eb.
  - apply best_match_elem in Eb as (k & Hk & E). exists k. split; [done|].
    apply match_package_pattern_spec in E. split; [done|].
    intros k' t' c' s' Hk' Hs'. split.
    { eapply Hmax; [exact Hk'|]. by apply match_package_pattern_spec. }
    destruct E as (p & q & -> & _ & _ & _ & -> & _ & ->).
    destruct Hs' as (p' & q' & -> & _ & _ & _ & Heq & _ & ->). intros [= Hlp Hlk].
    apply app_inj_1 in Heq as [-> Heq]; [|done]. rewrite !length_app in Hlk. simpl in Hlk.
    apply app_inj_2 in Heq as [-> ->]; [|lia]. done.
  - intros k t c s Hk Hs%match_package_pattern_spec. rewrite (Hmax k t Hk) in Hs. done.
Qed.
