(* ===== verification/Http.v ===== *)
(** * HTTP/1.1 framing of [amber serve], [src/https_serve.rs]

    One request is read from a connection, one response is written.  The
    connection is the list of what successive [read] calls meet ([ReadEvent]);
    a read asks for at most so many bytes and gets at most that.  Bytes are
    characters.  The loops that read consume fuel, and the fuel they are given
    is shown to be enough.  Loading PEM files, TLS and the embedded JavaScript are not
    modelled. *)

From S2P Require Import Prelude Json.

Record ServeLimits := {
  max_header_bytes : nat;
  max_body_bytes : nat;
  max_header_count : nat;
}.
Definition default_limits : ServeLimits :=
  {| max_header_bytes := 16 * 1024; max_body_bytes := 1024 * 1024; max_header_count := 64 |}.

Record Http11Request := {
  method : rstr;
  target : rstr;
  headers : gmap rstr rstr;
  body : rstr;
}.
Record Http11Response := {
  status : Z;
  response_headers : list (rstr * rstr);
  response_body : rstr;
}.
Record ProtocolFailure := { failure_status : Z; failure_body : rstr; failure_head : bool }.
Inductive Incoming := Closed | Request (q : Http11Request).
(** [io::ErrorKind], as far as the code tells kinds apart. *)
Inductive IoKind := TimedOut | WouldBlock | OtherIo.
Inductive ReadHttpError := Io (kind : IoKind) | Protocol (failure : ProtocolFailure).

Definition protocol_failure (status : Z) (body : rstr) (head : bool) : ProtocolFailure :=
  {| failure_status := status; failure_body := body; failure_head := head |}.
(** [protocol] *)
Definition protocol {A} (status : Z) (body : rstr) (head : bool) : result A ReadHttpError :=
  Err (Protocol (protocol_failure status body head)).

(** ** Reading *)

(** What a [read] call meets; at the end of the list the peer has closed. *)
Inductive ReadEvent :=
  | Chunk (data : rstr)
  | Interrupted
  | UnexpectedEof
  | Failure (kind : IoKind).

(** [reader.read(buf)] with [buf.len() = n], retried as [read_some] does. *)
Fixpoint read_some (r : list ReadEvent) (n : nat) : list ReadEvent * result rstr ReadHttpError :=
  match r with
  | [] => ([], Ok [])
  | Chunk d :: r' =>
      if bool_decide (length d ≤ n) then (r', Ok d) else (Chunk (drop n d) :: r', Ok (take n d))
  | Interrupted :: r' => read_some r' n
  | UnexpectedEof :: r' => (r', Ok [])
  | Failure TimedOut :: r' => (r', protocol 408 "request timeout" false)
  | Failure kind :: r' => (r', Err (Io kind))
  end.

Definition crlf : rstr := [carriage_return; newline].
Definition crlf_crlf : rstr := crlf ++ crlf.
(** [find_crlf_crlf]: the first window of four that matches. *)
Fixpoint find_crlf_crlf (data : rstr) : option nat :=
  if starts_with crlf_crlf data then Some 0
  else match data with [] => None | _ :: data' => S <$> find_crlf_crlf data' end.

(** The header block and what was read beyond it.  The outer [None] is a lack
    of fuel; an inner one, a connection closed before the first byte. *)
Fixpoint read_header_block (fuel : nat) (r : list ReadEvent) (buf : rstr) (max : nat) :
    option (list ReadEvent * result (option (rstr * rstr)) ReadHttpError) :=
  match fuel with
  | 0 => None
  | S fuel' =>
      match find_crlf_crlf buf with
      | Some pos =>
          let header_len := pos + 4 in
          Some (r, if bool_decide (max < header_len)
                   then protocol 431 "request headers too large" false
                   else Ok (Some (take header_len buf, drop header_len buf)))
      | None =>
          if bool_decide (max < length buf)
          then Some (r, protocol 431 "request headers too large" false)
          else
            match read_some r 1024 with
            | (r, Ok []) =>
                Some (r, if bool_decide (buf = []) then Ok None else protocol 400 "bad request" false)
            | (r, Ok data) => read_header_block fuel' r (buf ++ data) max
            | (r, Err e) => Some (r, Err e)
            end
      end
  end.

Fixpoint read_body_loop (fuel : nat) (r : list ReadEvent) (body : rstr) (need : nat) :
    option (list ReadEvent * result rstr ReadHttpError) :=
  match fuel with
  | 0 => None
  | S fuel' =>
      if bool_decide (length body < need) then
        match read_some r (Nat.min (need - length body) (8 * 1024)) with
        | (r, Ok []) => Some (r, protocol 400 "incomplete request body" false)
        | (r, Ok data) => read_body_loop fuel' r (body ++ data) need
        | (r, Err e) => Some (r, Err e)
        end
      else Some (r, Ok body)
  end.
Definition read_body (r : list ReadEvent) (rest : rstr) (need : nat) :
    option (list ReadEvent * result rstr ReadHttpError) :=
  read_body_loop (S need) r (take (Nat.min (length rest) need) rest) need.

(** ** Parsing the header block *)

Definition is_upper (c : ascii) : bool := in_range 65 90 c.
Definition is_digit (c : ascii) : bool := in_range 48 57 c.
Definition is_uppercase_method (m : rstr) : bool :=
  bool_decide (1 ≤ length m ≤ 20) && forallb is_upper m.
Definition is_token_char (c : ascii) : bool :=
  bool_decide (c ∈ ("!#$%&'*+-.^_`|~" : rstr)) || is_digit c || is_upper c || in_range 97 122 c.
Definition is_token (name : rstr) : bool := negb (bool_decide (name = [])) && forallb is_token_char name.

Definition NUL : ascii := "000"%char.
Definition parse_content_length (value : rstr) : result Z ReadHttpError :=
  if bool_decide (value = []) || negb (forallb is_digit value)
  then protocol 400 "invalid content-length" false
  else match parse_u64 value with
       | Some n => Ok n
       | None => protocol 400 "invalid content-length" false
       end.

(** The local variables of the loop over the header lines. *)
Record Fields := {
  map : gmap rstr rstr;
  header_count : nat;
  host_count : nat;
  content_lengths : list rstr;
  saw_transfer_encoding : bool;
  saw_expect : bool;
}.
Definition no_fields : Fields :=
  {| map := ∅; header_count := 0; host_count := 0; content_lengths := [];
     saw_transfer_encoding := false; saw_expect := false |}.
Definition add_field (f : Fields) (lower value : rstr) : Fields := {|
  map := <[lower := value]> (map f);
  header_count := header_count f + 1;
  host_count := if bool_decide (lower = "host") then host_count f + 1 else host_count f;
  content_lengths := if bool_decide (lower = "content-length")
                     then content_lengths f ++ [value] else content_lengths f;
  saw_transfer_encoding := bool_decide (lower = "transfer-encoding") || saw_transfer_encoding f;
  saw_expect := bool_decide (lower = "expect") || saw_expect f |}.

Definition header_line (max_count : nat) (head : bool) (f : Fields) (line : rstr) :
    result Fields ReadHttpError :=
  if bool_decide (line = []) then Ok f
  else if starts_with " " line || starts_with ["009"%char] line then protocol 400 "bad request" head
  else match split_once ":" line with
       | None => protocol 400 "bad request" head
       | Some (name, raw_value) =>
           if negb (is_token name) || bool_decide (NUL ∈ raw_value)
           then protocol 400 "bad request" head
           else if bool_decide (max_count < header_count f + 1)
           then protocol 431 "request headers too large" head
           else Ok (add_field f (to_lowercase name) (trim raw_value))
       end.
Fixpoint header_lines (max_count : nat) (head : bool) (f : Fields) (lines : list rstr) :
    result Fields ReadHttpError :=
  match lines with
  | [] => Ok f
  | line :: lines' => f ← header_line max_count head f line; header_lines max_count head f lines'
  end.

(** Everything in [parse_request] after the loop and before the body: the
    length of the body. *)
Definition check_fields (limits : ServeLimits) (head : bool) (f : Fields) : result Z ReadHttpError :=
  if bool_decide (host_count f = 0) then protocol 400 "host header required" head
  else if bool_decide (1 < host_count f) then protocol 400 "invalid host header" head
  else if saw_transfer_encoding f && negb (bool_decide (content_lengths f = []))
  then protocol 400 "invalid content-length" head
  else if saw_transfer_encoding f then protocol 501 "transfer-encoding is not supported" head
  else if saw_expect f then protocol 417 "expectation failed" head
  else if bool_decide (1 < length (content_lengths f)) then protocol 400 "invalid content-length" head
  else
    body_len ← match content_lengths f with
               | value :: _ => parse_content_length value
               | [] => Ok 0%Z
               end;
    if bool_decide (Z.of_nat (max_body_bytes limits) < body_len)%Z
    then protocol 413 "request body too large" head
    else Ok body_len.

(** [parse_request] up to the body: method, target, fields, length of the body. *)
Definition parse_head (limits : ServeLimits) (header_block : rstr) :
    result (rstr * rstr * gmap rstr rstr * Z) ReadHttpError :=
  if bool_decide (length header_block < 4) then protocol 400 "bad request" false
  else
    let header_bytes := take (length header_block - 4) header_block in
    if bool_decide (NUL ∈ header_bytes) then protocol 400 "bad request" false
    else if negb (utf8_valid header_bytes) then protocol 400 "bad request" false
    else
      let '(request_line, lines) := match split_crlf header_bytes with
                                    | l :: ls => (l, ls) | [] => ([], []) end in
      match split_on " " request_line with
      | [method; target; version] =>
          if negb (bool_decide (version = "HTTP/1.1")) then
            if starts_with "HTTP/" version then protocol 505 "HTTP/1.1 required" false
            else protocol 400 "bad request" false
          else if negb (is_uppercase_method method) then protocol 400 "bad request" false
          else
            let head := bool_decide (method = "HEAD") in
            if negb (starts_with "/" target) || bool_decide (NUL ∈ target)
            then protocol 400 "origin-form target required" head
            else
              f ← header_lines (max_header_count limits) head no_fields lines;
              body_len ← check_fields limits head f;
              Ok (method, target, map f, body_len)
      | _ => protocol 400 "bad request" false
      end.

Definition parse_request (limits : ServeLimits) (header_block rest : rstr) (r : list ReadEvent) :
    option (list ReadEvent * result Incoming ReadHttpError) :=
  match parse_head limits header_block with
  | Err e => Some (r, Err e)
  | Ok (m, t, hs, body_len) =>
      '(r, b) ← read_body r rest (Z.to_nat body_len);
      Some (r, b ← b; Ok (Request {| method := m; target := t; headers := hs; body := b |}))
  end.

Definition read_http11 (r : list ReadEvent) (limits : ServeLimits) :
    option (list ReadEvent * result Incoming ReadHttpError) :=
  '(r, block) ← read_header_block (max_header_bytes limits + 2) r [] (max_header_bytes limits);
  match block with
  | Err e => Some (r, Err e)
  | Ok None => Some (r, Ok Closed)
  | Ok (Some (header_block, rest)) => parse_request limits header_block rest r
  end.

(** ** Writing *)

Definition reason_phrase (status : Z) : rstr :=
  if bool_decide (status = 200)%Z then "OK"
  else if bool_decide (status = 201)%Z then "Created"
  else if bool_decide (status = 204)%Z then "No Content"
  else if bool_decide (status = 400)%Z then "Bad Request"
  else if bool_decide (status = 404)%Z then "Not Found"
  else if bool_decide (status = 408)%Z then "Request Timeout"
  else if bool_decide (status = 413)%Z then "Payload Too Large"
  else if bool_decide (status = 417)%Z then "Expectation Failed"
  else if bool_decide (status = 431)%Z then "Request Header Fields Too Large"
  else if bool_decide (status = 500)%Z then "Internal Server Error"
  else if bool_decide (status = 501)%Z then "Not Implemented"
  else if bool_decide (status = 505)%Z then "HTTP Version Not Supported"
  else "Status".

Definition header_is_safe (name value : rstr) : bool :=
  is_token name &&
  forallb (λ c, negb (bool_decide (c = carriage_return ∨ c = newline ∨ c = NUL))) value.
Definition is_framing_header (name : rstr) : bool :=
  bool_decide (to_lowercase name ∈
    ["content-length" : rstr; "connection" : rstr; "transfer-encoding" : rstr]).
Definition header_text (h : rstr * rstr) : rstr :=
  if negb (header_is_safe h.1 h.2) then [] else if is_framing_header h.1 then []
  else h.1 ++ ": " ++ h.2 ++ crlf.

Definition encode_response (method : rstr) (response : Http11Response) : rstr :=
  let status := if bool_decide (100 ≤ status response < 600)%Z then status response else 500%Z in
  "HTTP/1.1 " ++ dec (Z.to_N status) ++ " " ++ reason_phrase status ++ crlf
  ++ mjoin (header_text <$> response_headers response)
  ++ "Content-Length: " ++ dec (N.of_nat (length (response_body response))) ++ crlf
  ++ "Connection: close" ++ crlf_crlf
  ++ (if bool_decide (to_lowercase method = "head") then [] else response_body response).

Definition text_response (status : Z) (body : rstr) : Http11Response :=
  {| status := status; response_headers := [("Content-Type" : rstr, "text/plain; charset=utf-8" : rstr)];
     response_body := body |}.
Definition encode_failure (failure : ProtocolFailure) : rstr :=
  encode_response (if failure_head failure then "HEAD" else "GET")
    (text_response (failure_status failure) (failure_body failure)).

(** [response_from_handler_json]; [parsed] is what serde_json makes of the
    trimmed text. *)
Definition response_from_handler_json (parsed : option Json) : Http11Response :=
  match parsed with
  | Some (JObject m) =>
      {| status := match map_get m "status" ≫= as_u64 with
                   | Some code => if bool_decide (100 ≤ code < 600)%Z then code else 500
                   | None => 200
                   end;
         response_headers :=
           match map_get m "headers" ≫= as_object with
           | Some hs => omap (λ kv, (λ text, (kv.1, text)) <$> as_str kv.2) hs
           | None => [("Content-Type" : rstr, "text/plain" : rstr)]
           end;
         response_body := (map_get m "body" ≫= as_str) .unwrap_or [] |}
  | _ => text_response 500 "invalid handler result"
  end.

(** What [handle_plain_connection] writes before it shuts the connection down. *)
Definition handle_plain_connection (limits : ServeLimits) (handler : Http11Request → Http11Response)
    (r : list ReadEvent) : option rstr :=
  '(_, outcome) ← read_http11 r limits;
  Some match outcome with
       | Ok Closed => []
       | Ok (Request q) => encode_response (method q) (handler q)
       | Err (Protocol failure) => encode_failure failure
       | Err (Io TimedOut) => encode_failure (protocol_failure 408 "request timeout" false)
       | Err (Io _) => []
       end.
