(* ===== verification/HttpTheorems.v ===== *)
(** * What the HTTP/1.1 framing guarantees

    Theorems about [Http]: the outcome depends on the bytes alone and not on how they arrive,
    an accepted request is framed without ambiguity, requests and responses
    are read as they were written. *)

From S2P Require Import Prelude Json Http.

(** ** The connection as one string *)

Definition event_data (e : ReadEvent) : rstr := match e with Chunk d => d | _ => [] end.
Definition content (r : list ReadEvent) : rstr := mjoin (event_data <$> r).
(** A connection whose peer sends everything and then closes. *)
Definition clean (r : list ReadEvent) : Prop :=
  Forall (λ e, (∃ d, e = Chunk d ∧ d ≠ []) ∨ e = Interrupted) r.

(** What the code is to make of a whole stream. *)
Definition http_spec (limits : ServeLimits) (s : rstr) : result Incoming ReadHttpError :=
  match find_crlf_crlf s with
  | Some pos =>
      if bool_decide (max_header_bytes limits < pos + 4)
      then protocol 431 "request headers too large" false
      else
        '(m, t, hs, body_len) ← parse_head limits (take (pos + 4) s);
        let need := Z.to_nat body_len in
        let rest := drop (pos + 4) s in
        if bool_decide (length rest < need) then protocol 400 "incomplete request body" false
        else Ok (Request {| method := m; target := t; headers := hs; body := take need rest |})
  | None =>
      if bool_decide (max_header_bytes limits < length s)
      then protocol 431 "request headers too large" false
      else if bool_decide (s = []) then Ok Closed else protocol 400 "bad request" false
  end.

Lemma read_some_clean r n :
  clean r → 0 < n →
  let '(r', res) := read_some r n in
  clean r' ∧ ∃ d, res = Ok d ∧ length d ≤ n ∧ content r = d ++ content r' ∧ (d = [] → content r = []).
Proof.
  intros Hr Hn. induction Hr as [|e r He Hr IH]; [split; [apply Forall_nil_2|exists []; split_and!; simpl; [done|lia|done|done]]|].
  destruct He as [(d & -> & Hd)| ->]; [|exact IH]. cbn [read_some]. case_bool_decide as Hl.
  - split; [done|]. exists d. repeat split; [done|]. intros ->. done.
  - split.
    + constructor; [left; eexists; split; [done|]|done]. intros E.
      apply (f_equal length) in E. rewrite length_drop in E. simpl in E. lia.
    + exists (take n d). rewrite length_take. split; [done|]. split; [lia|]. split.
      * unfold content. cbn [fmap list_fmap mjoin list_join event_data].
        by rewrite app_assoc, take_drop.
      * intros E. apply (f_equal length) in E. rewrite length_take in E. simpl in E. lia.
Qed.

Lemma find_crlf_crlf_length s p : find_crlf_crlf s = Some p → p + 4 ≤ length s.
Proof.
  revert p. induction s as [|a s IH]; intros p; cbn [find_crlf_crlf]; destruct (starts_with _ _) eqn:E;
    try done.
  - intros [= <-]. apply starts_with_spec in E as [t ->]. rewrite length_app. simpl. lia.
  - intros (q & Hq & ->)%fmap_Some. apply IH in Hq. simpl. lia.
Qed.
(** A match does not depend on what follows it. *)
Lemma find_crlf_crlf_app s t p :
  find_crlf_crlf s = Some p → find_crlf_crlf (s ++ t) = Some p.
Proof.
  revert p. induction s as [|a s IH]; intros p; cbn [find_crlf_crlf]; destruct (starts_with _ _) eqn:E;
    try done.
  - intros [= <-]. apply starts_with_spec in E as [u Hu].
    assert (starts_with crlf_crlf (a :: s ++ t) = true) as E.
    { apply starts_with_spec. exists (u ++ t). by rewrite app_comm_cons, Hu, app_assoc. }
    cbn [app find_crlf_crlf]. by rewrite E.
  - intros (q & Hq & ->)%fmap_Some. cbn [app find_crlf_crlf].
    destruct (starts_with crlf_crlf (a :: s ++ t)) eqn:E'; [|by rewrite (IH q Hq)].
    exfalso. apply find_crlf_crlf_length in Hq as Hl.
    apply starts_with_spec in E' as [u Hu].
    assert (starts_with crlf_crlf (a :: s) = true); [|congruence].
    apply starts_with_spec. exists (take (length s - 3) u).
    apply (f_equal (take (S (length s)))) in Hu. cbn [take] in Hu.
    rewrite take_app_length in Hu. rewrite Hu. by rewrite take_app_ge by (simpl; lia).
Qed.
Lemma starts_with_front p s t :
  starts_with p (s ++ t) = true → length p ≤ length s → starts_with p s = true.
Proof.
  rewrite !starts_with_spec. intros [u Hu] Hl. exists (take (length s - length p) u).
  apply (f_equal (take (length s))) in Hu. rewrite take_app_length in Hu.
  etransitivity; [exact Hu|]. by rewrite take_app_ge by done.
Qed.
Lemma find_crlf_crlf_front s t p :
  find_crlf_crlf (s ++ t) = Some p → p + 4 ≤ length s → find_crlf_crlf s = Some p.
Proof.
  revert p. induction s as [|a s IH]; intros p Hf Hl; [simpl in Hl; lia|].
  cbn [app find_crlf_crlf] in Hf |- *. destruct (starts_with crlf_crlf (a :: s ++ t)) eqn:E.
  - injection Hf as <-. apply (starts_with_front _ (a :: s)) in E; [by rewrite E|done].
  - apply fmap_Some in Hf as (q & Hq & ->). simpl in Hl.
    rewrite (IH q Hq) by lia.
    destruct (starts_with crlf_crlf (a :: s)) eqn:E'; [|done].
    apply starts_with_spec in E' as [u Hu]. exfalso.
    assert (starts_with crlf_crlf (a :: s ++ t) = true); [|congruence].
    apply starts_with_spec. exists (u ++ t). by rewrite app_comm_cons, Hu, app_assoc.
Qed.

(** What [read_header_block] is to give, on the stream [s]; [r'] is what it
    leaves on the connection. *)
Definition block_spec (max : nat) (s : rstr) (r' : list ReadEvent)
    (res : result (option (rstr * rstr)) ReadHttpError) : Prop :=
  match find_crlf_crlf s with
  | Some pos =>
      if bool_decide (max < pos + 4) then res = protocol 431 "request headers too large" false
      else ∃ rest, res = Ok (Some (take (pos + 4) s, rest)) ∧ clean r' ∧
                   rest ++ content r' = drop (pos + 4) s
  | None =>
      if bool_decide (max < length s) then res = protocol 431 "request headers too large" false
      else if bool_decide (s = []) then res = Ok None else res = protocol 400 "bad request" false
  end.
Lemma read_header_block_spec fuel r buf max :
  clean r → max + 1 < fuel + length buf → 0 < fuel →
  ∃ r' res, read_header_block fuel r buf max = Some (r', res) ∧
            block_spec max (buf ++ content r) r' res.
Proof.
  revert r buf. induction fuel as [|fuel IH]; intros r buf Hr Hf H0; [lia|]. cbn [read_header_block].
  unfold block_spec. destruct (find_crlf_crlf buf) as [pos|] eqn:Ef.
  { eexists _, _. split; [done|]. rewrite (find_crlf_crlf_app _ _ _ Ef).
    apply find_crlf_crlf_length in Ef. case_bool_decide; [done|].
    exists (drop (pos + 4) buf). rewrite take_app_le, drop_app_le by lia. done. }
  destruct (bool_decide (max < length buf)) eqn:Em.
  { apply bool_decide_eq_true in Em. eexists _, _. split; [done|].
    destruct (find_crlf_crlf (buf ++ content r)) as [pos|] eqn:Es.
    - destruct (base.decide (pos + 4 ≤ length buf)).
      + apply find_crlf_crlf_front in Es; congruence.
      + by rewrite bool_decide_eq_true_2 by lia.
    - rewrite length_app. by rewrite bool_decide_eq_true_2 by lia. }
  apply bool_decide_eq_false in Em.
  pose proof (read_some_clean r 1024 Hr ltac:(lia)) as Hread.
  destruct (read_some r 1024) as [r' res]. destruct Hread as (Hr' & d & -> & _ & Hc & Hd).
  destruct d as [|c d].
  - rewrite (Hd eq_refl), app_nil_r, Ef. eexists _, _. split; [done|].
    rewrite (bool_decide_eq_false_2 (max < _)) by lia. by case_bool_decide.
  - destruct (IH r' (buf ++ c :: d) Hr') as (r2 & res & E & Hspec);
      [rewrite length_app; simpl; lia|destruct fuel; [simpl in *; lia|lia]|].
    rewrite <-app_assoc, <-Hc in Hspec. eauto.
Qed.

Lemma read_body_loop_spec fuel r b need :
  clean r → need < fuel + length b → 0 < fuel → length b ≤ need →
  ∃ r', read_body_loop fuel r b need =
    Some (r', if bool_decide (length (b ++ content r) < need)
              then protocol 400 "incomplete request body" false
              else Ok (take need (b ++ content r))).
Proof.
  revert r b. induction fuel as [|fuel IH]; intros r b Hr Hf H0 Hb; [lia|]. cbn [read_body_loop].
  destruct (base.decide (length b < need)) as [Hlt|Hge].
  - rewrite bool_decide_eq_true_2 by done.
    pose proof (read_some_clean r (Nat.min (need - length b) (8 * 1024)) Hr ltac:(lia)) as Hread.
    destruct (read_some r _) as [r' res]. destruct Hread as (Hr' & d & -> & Hl & Hc & Hd).
    destruct d as [|c d].
    + rewrite (Hd eq_refl), app_nil_r, bool_decide_eq_true_2 by done. eauto.
    + destruct (IH r' (b ++ c :: d) Hr') as (r2 & E); [rewrite ?length_app; cbn [length] in *; lia..|].
      exists r2. by rewrite E, <-app_assoc, <-Hc.
  - rewrite bool_decide_eq_false_2 by done. eexists. rewrite length_app.
    rewrite bool_decide_eq_false_2 by lia. rewrite take_app_le, take_ge by lia. done.
Qed.

Lemma read_http11_spec limits r :
  clean r → ∃ r', read_http11 r limits = Some (r', http_spec limits (content r)).
Proof.
  intros Hr. unfold read_http11, http_spec.
  destruct (read_header_block_spec (max_header_bytes limits + 2) r [] (max_header_bytes limits) Hr)
    as (r' & res & -> & Hspec); [simpl; lia..|]. cbn [app mbind option_bind] in *.
  unfold block_spec in Hspec. destruct (find_crlf_crlf (content r)) as [pos|].
  - case_bool_decide; [subst; eauto|]. destruct Hspec as (rest & -> & Hr' & Hrest).
    unfold parse_request. destruct (parse_head limits _) as [[[[m t] hs] n]|e]; [|eauto].
    cbn [mbind result_bind option_bind]. unfold read_body.
    destruct (read_body_loop_spec (S (Z.to_nat n)) r'
      (take (Nat.min (length rest) (Z.to_nat n)) rest) (Z.to_nat n) Hr') as (r2 & ->);
      try (rewrite ?length_take; lia).
    cbn [mbind option_bind]. exists r2. rewrite <-Hrest.
    destruct (base.decide (length rest ≤ Z.to_nat n)).
    + rewrite (take_ge rest) by lia. by case_bool_decide.
    + rewrite (Nat.min_r (length rest)) by lia. rewrite !length_app, length_take.
      rewrite (bool_decide_eq_false_2 (length rest + _ < _)) by lia.
      rewrite bool_decide_eq_false_2 by lia. rewrite !take_app_le by (rewrite ?length_take; lia).
      by rewrite take_take, Nat.min_id.
  - case_bool_decide; [subst; eauto|]. by case_bool_decide; subst; eauto.
Qed.

(** C25. The outcome depends on the bytes alone: however they are cut into reads, and
    whatever reads are interrupted, the server makes of a connection what the
    one-string specification says, its reading loops end, and two connections
    with the same bytes get the same answer. *)
Theorem framing_refines_spec limits r :
  clean r →
  (∃ r', read_http11 r limits = Some (r', http_spec limits (content r))) ∧
  ∀ handler r2, clean r2 → content r2 = content r →
    is_Some (handle_plain_connection limits handler r) ∧
    handle_plain_connection limits handler r2 = handle_plain_connection limits handler r.
Proof.
  intros Hr. destruct (read_http11_spec limits r Hr) as (r' & E). split; [eauto|].
  intros handler r2 Hr2 Hc. destruct (read_http11_spec limits r2 Hr2) as (r2' & E2).
  unfold handle_plain_connection. rewrite E, E2, Hc. cbn [mbind option_bind]. eauto.
Qed.

(** ** Accepted requests *)

Definition fields_inv (max : nat) (f : Fields) : Prop :=
  (saw_transfer_encoding f = false → map f !! ("transfer-encoding" : rstr) = None) ∧
  map f !! ("content-length" : rstr) = last (content_lengths f) ∧
  (0 < host_count f → is_Some (map f !! ("host" : rstr))) ∧
  size (map f) ≤ header_count f ∧ header_count f ≤ max.

Lemma add_field_inv max f lower value :
  fields_inv max f → header_count f + 1 ≤ max → fields_inv max (add_field f lower value).
Proof.
  intros (Hte & Hcl & Hh & Hs & Hm) Hc. unfold fields_inv, add_field. cbn [map header_count host_count
    content_lengths saw_transfer_encoding]. split_and!.
  - intros [?%bool_decide_eq_false ?]%orb_false_iff. rewrite lookup_insert_ne by done. by apply Hte.
  - case_bool_decide as E; [subst; by rewrite lookup_insert_eq, last_snoc|].
    by rewrite lookup_insert_ne.
  - case_bool_decide as E; [subst; by rewrite lookup_insert_eq|]. rewrite lookup_insert_ne by done. done.
  - rewrite map_size_insert. case_match; simpl; lia.
  - done.
Qed.
Lemma header_lines_inv max head f lines f' :
  header_lines max head f lines = Ok f' → fields_inv max f → fields_inv max f'.
Proof.
  revert f. induction lines as [|line lines IH]; intros f; cbn [header_lines]; [by intros [= <-]|].
  unfold header_line. destruct (bool_decide (line = [])); [apply IH|].
  destruct (_ || _); [done|]. destruct (split_once ":" line) as [[name raw]|]; [|done].
  destruct (_ || _); [done|]. destruct (bool_decide (_ < _)) eqn:E; [done|].
  apply bool_decide_eq_false in E. intros H Hf. eapply IH; [exact H|]. apply add_field_inv; [done|lia].
Qed.
Lemma no_fields_inv max : fields_inv max no_fields.
Proof. unfold fields_inv. cbn. split_and!; done || lia. Qed.

Lemma check_fields_ok limits head f n :
  check_fields limits head f = Ok n → fields_inv (max_header_count limits) f →
  is_Some (map f !! ("host" : rstr)) ∧ map f !! ("transfer-encoding" : rstr) = None ∧
  (0 ≤ n ≤ Z.of_nat (max_body_bytes limits))%Z ∧
  match map f !! ("content-length" : rstr) with
  | Some v => parse_u64 v = Some n
  | None => n = 0%Z
  end.
Proof.
  intros H (Hte & Hcl & Hh & _). unfold check_fields in H.
  destruct (bool_decide (host_count f = 0)) eqn:E1; [done|].
  destruct (bool_decide (1 < host_count f)); [done|].
  destruct (saw_transfer_encoding f); [by cbn [andb] in H; destruct (negb _)|]. cbn [andb] in H.
  destruct (saw_expect f); [done|]. destruct (bool_decide (1 < _)) eqn:E2; [done|].
  apply bool_decide_eq_false in E1, E2.
  split; [apply Hh; lia|]. split; [by apply Hte|]. rewrite Hcl.
  destruct (content_lengths f) as [|v l]; cbn [mbind result_bind] in H.
  - destruct (bool_decide _) eqn:E; [done|]. injection H as <-. simpl. split; [lia|done].
  - destruct l; [|simpl in E2; lia]. cbn [last]. unfold parse_content_length in H.
    destruct (_ || _); [done|]. destruct (parse_u64 v) as [k|] eqn:Ev; [|done].
    cbn [mbind result_bind] in H. destruct (bool_decide _) eqn:E; [done|]. injection H as <-.
    apply bool_decide_eq_false in E. apply parse_u64_range in Ev. unfold in_u64 in Ev. split; [lia|done].
Qed.

Lemma parse_head_ok limits block m t hs n :
  parse_head limits block = Ok (m, t, hs, n) →
  is_uppercase_method m = true ∧ starts_with "/" t = true ∧
  ∃ f, hs = map f ∧ fields_inv (max_header_count limits) f ∧
       check_fields limits (bool_decide (m = "HEAD")) f = Ok n.
Proof.
  unfold parse_head. destruct (bool_decide _); [done|]. cbv zeta.
  destruct (bool_decide _); [done|]. destruct (negb (utf8_valid _)); [done|].
  destruct (match split_crlf _ with [] => _ | l :: ls => _ end) as [rl lines].
  destruct (split_on " " rl) as [|m' [|t' [|v [|]]]]; try done.
  destruct (negb (bool_decide (v = _))); [by destruct (starts_with _ v)|].
  destruct (negb (is_uppercase_method m')) eqn:Em; [done|].
  destruct (negb (starts_with "/" t') || _) eqn:Et; [done|].
  apply negb_false_iff in Em. apply orb_false_iff in Et as [Et%negb_false_iff _].
  destruct (header_lines _ _ _ lines) as [f|e] eqn:Ef; [|done]. cbn [mbind result_bind].
  destruct (check_fields _ _ f) as [k|e] eqn:Ec; [|done]. cbn [mbind result_bind].
  intros [= -> -> <- ->]. split; [done|]. split; [done|]. exists f. split; [done|].
  split; [|done]. eapply header_lines_inv; [exact Ef|apply no_fields_inv].
Qed.

(** C26. An accepted request is framed in one way only: its head ends at the first
    empty line, within the limits; it has a host, no transfer encoding, and a
    body of exactly the announced length, which are the bytes right after the
    head. *)
Theorem accepted_request_framed limits r r' q :
  clean r → read_http11 r limits = Some (r', Ok (Request q)) →
  ∃ pos, find_crlf_crlf (content r) = Some pos ∧ pos + 4 ≤ max_header_bytes limits ∧
    body q `prefix_of` drop (pos + 4) (content r) ∧ length (body q) ≤ max_body_bytes limits ∧
    size (headers q) ≤ max_header_count limits ∧
    is_Some (headers q !! ("host" : rstr)) ∧ headers q !! ("transfer-encoding" : rstr) = None ∧
    match headers q !! ("content-length" : rstr) with
    | Some v => parse_u64 v = Some (Z.of_nat (length (body q)))
    | None => body q = []
    end ∧
    is_uppercase_method (method q) = true ∧ starts_with "/" (target q) = true.
Proof.
  intros Hr Hq. destruct (read_http11_spec limits r Hr) as (r2 & E). rewrite E in Hq.
  injection Hq as <- Hq. clear E. unfold http_spec in Hq.
  destruct (find_crlf_crlf (content r)) as [pos|]; [|by repeat case_bool_decide].
  exists pos. split; [done|]. case_bool_decide; [done|]. split; [lia|].
  destruct (parse_head limits _) as [[[[m t] hs] n]|] eqn:Eh; [|done]. cbn [mbind result_bind] in Hq.
  apply parse_head_ok in Eh as (Hm & Ht & f & -> & Hf & Hc). cbv zeta in Hq.
  destruct (bool_decide (_ < Z.to_nat n)) eqn:El; [done|]. apply bool_decide_eq_false in El.
  injection Hq as <-. cbn [body headers method target]. destruct (check_fields_ok _ _ _ _ Hc Hf) as (Hh & Hte & Hn & Hcl).
  rewrite length_take. destruct Hf as (_ & _ & _ & Hs & Hmax).
  split_and!; [eexists; symmetry; apply take_drop|lia|lia|done|done| |done|done].
  destruct (map f !! ("content-length" : rstr)).
  - rewrite Hcl. f_equal. lia.
  - by subst.
Qed.

(** ** Blocks of lines *)

Definition tail_lines (ls : list rstr) : rstr := mjoin ((crlf ++.) <$> ls).
Lemma tail_lines_cons l ls : tail_lines (l :: ls) = crlf ++ l ++ tail_lines ls.
Proof. unfold tail_lines. cbn [fmap list_fmap mjoin list_join]. by rewrite <-app_assoc. Qed.
Lemma tail_lines_app ls ls' : tail_lines (ls ++ ls') = tail_lines ls ++ tail_lines ls'.
Proof. unfold tail_lines. by rewrite fmap_app, join_app. Qed.
(** The text of a block of lines, without the empty line that ends it. *)
Definition text_of (l : rstr) (ls : list rstr) : rstr := l ++ tail_lines ls.
Definition a_line (l : rstr) : Prop := carriage_return ∉ l ∧ l ≠ [].

Lemma find_crlf_crlf_skip x s :
  carriage_return ∉ x → find_crlf_crlf (x ++ s) = Nat.add (length x) <$> find_crlf_crlf s.
Proof.
  induction x as [|a x IH]; intros Hx; [symmetry; apply option_fmap_id|].
  apply not_elem_of_cons in Hx as [Ha Hx]. cbn [app find_crlf_crlf].
  destruct (starts_with _ _) eqn:E; [by apply starts_with_spec in E as [? [= ->]]|].
  rewrite (IH Hx), <-option_fmap_compose. done.
Qed.
Lemma find_crlf_crlf_line l s :
  a_line l → find_crlf_crlf (crlf ++ l ++ s) = (S ∘ S) <$> find_crlf_crlf (l ++ s).
Proof.
  intros [Hc Hl]. destruct l as [|a l]; [done|]. apply not_elem_of_cons in Hc as [Ha _].
  assert (starts_with crlf_crlf (carriage_return :: newline :: a :: l ++ s) = false) as H1.
  { apply not_true_is_false; intros [t E]%starts_with_spec. simplify_eq/=. }
  assert (starts_with crlf_crlf (newline :: a :: l ++ s) = false) as H2.
  { apply not_true_is_false; intros [t E]%starts_with_spec. simplify_eq/=. }
  change (crlf ++ (a :: l) ++ s) with (carriage_return :: newline :: (a :: l) ++ s).
  cbn [find_crlf_crlf app]. rewrite H1, H2.
  by destruct (if starts_with crlf_crlf (a :: l ++ s) then _ else _).
Qed.
Lemma find_text_of l ls rest :
  Forall a_line (l :: ls) →
  find_crlf_crlf (text_of l ls ++ crlf_crlf ++ rest) = Some (length (text_of l ls)).
Proof.
  unfold text_of. revert l. induction ls as [|l' ls IH]; intros l (Hl & Hls)%Forall_cons.
  - change (tail_lines []) with (@nil ascii). rewrite !app_nil_r, find_crlf_crlf_skip by apply Hl.
    change (find_crlf_crlf (crlf_crlf ++ rest)) with (Some 0). simpl. by rewrite Nat.add_0_r.
  - rewrite tail_lines_cons.
    specialize (IH l' Hls). apply Forall_cons in Hls as [Hl' _].
    rewrite <-!app_assoc in IH |- *. rewrite find_crlf_crlf_skip, <-!app_assoc, find_crlf_crlf_line, IH by (done || apply Hl).
    cbn [fmap option_fmap option_map compose]. f_equal. rewrite !length_app. simpl. lia.
Qed.

Lemma split_crlf_none l : carriage_return ∉ l → split_crlf l = [l].
Proof.
  induction l as [|a l IH]; [done|]. intros [Ha Hl]%not_elem_of_cons. specialize (IH Hl).
  destruct l as [|b l]; [done|]. cbn [split_crlf] in IH |- *.
  rewrite (bool_decide_eq_false_2 (a = _)) by done. cbn [andb]. cbn [split_crlf] in IH. by rewrite IH.
Qed.
Lemma split_crlf_line l s : carriage_return ∉ l → split_crlf (l ++ crlf ++ s) = l :: split_crlf s.
Proof.
  induction l as [|a l IH]; [done|]. intros [Ha Hl]%not_elem_of_cons. specialize (IH Hl).
  destruct (l ++ crlf ++ s) as [|b u] eqn:E; [by destruct l|]. cbn [app]. rewrite E.
  cbn [split_crlf] in IH |- *. rewrite (bool_decide_eq_false_2 (a = _)) by done. cbn [andb].
  by rewrite IH.
Qed.
Lemma split_text_of l ls : Forall a_line (l :: ls) → split_crlf (text_of l ls) = l :: ls.
Proof.
  unfold text_of. revert l. induction ls as [|l' ls IH]; intros l (Hl & Hls)%Forall_cons.
  - change (tail_lines []) with (@nil ascii). rewrite app_nil_r. apply split_crlf_none, Hl.
  - rewrite tail_lines_cons.
    rewrite split_crlf_line by apply Hl. by rewrite IH.
Qed.
Lemma token_chars name : is_token name = true → Forall (λ c, is_token_char c = true) name.
Proof.
  unfold is_token. intros [_ H]%andb_true_iff. rewrite forallb_forall in H. apply Forall_forall.
  intros c Hc. apply H. by apply list_elem_of_In.
Qed.
Lemma token_free c name : is_token name = true → is_token_char c = false → c ∉ name.
Proof.
  intros H%token_chars Hc Hin. rewrite Forall_forall in H. by rewrite (H c Hin) in Hc.
Qed.

(** ** Responses *)

Definition kept (h : rstr * rstr) : Prop := header_is_safe h.1 h.2 = true ∧ is_framing_header h.1 = false.
#[export] Instance kept_dec h : Decision (kept h).
Proof. unfold kept. apply _. Defined.
Definition header_as_line (h : rstr * rstr) : rstr := h.1 ++ ": " ++ h.2.

Lemma header_texts hs s :
  crlf ++ mjoin (header_text <$> hs) ++ s
  = tail_lines (header_as_line <$> filter kept hs) ++ crlf ++ s.
Proof.
  induction hs as [|h hs IH]; [done|]. cbn [fmap list_fmap mjoin list_join]. unfold header_text at 1.
  rewrite filter_cons. destruct (base.decide (kept h)) as [[-> ->]|K]; cbn [negb].
  2:{ unfold kept in K. destruct (header_is_safe h.1 h.2), (is_framing_header h.1); try exact IH. naive_solver. }
  rewrite fmap_cons, tail_lines_cons. unfold header_as_line at 1. rewrite <-!app_assoc, <-IH. done.
Qed.
Lemma kept_line h : kept h → a_line (header_as_line h).
Proof.
  intros [Hs _]. unfold header_is_safe in Hs. apply andb_true_iff in Hs as [Ht Hv].
  unfold header_as_line. split; [|by destruct h.1].
  rewrite !not_elem_of_app. split; [by apply (token_free _ _ Ht)|]. split; [by apply not_in|].
  intros Hin%list_elem_of_In. rewrite forallb_forall in Hv. apply Hv in Hin.
  apply negb_true_iff, bool_decide_eq_false in Hin. naive_solver.
Qed.
Lemma dec_no_cr n : carriage_return ∉ dec n.
Proof.
  intros H. pose proof (dec_digits n) as Hd. rewrite Forall_forall in Hd. by destruct (Hd _ H).
Qed.
Definition status_line (status : Z) : rstr :=
  "HTTP/1.1 " ++ dec (Z.to_N status) ++ " " ++ reason_phrase status.
Lemma status_line_ok status : a_line (status_line status).
Proof.
  split; [|done]. unfold status_line. rewrite !not_elem_of_app. split_and!; [|apply dec_no_cr| |].
  - by apply not_in.
  - by apply not_in.
  - unfold reason_phrase. repeat (case_match; [by apply not_in|]). by apply not_in.
Qed.

(** Whatever names and values a handler puts in its headers, a client that
    splits the answer at the first empty line finds one status line, the
    safe headers, the length of the body and [Connection: close], and then the
    body and nothing else: a response cannot be split. *)
Theorem response_not_split method response :
  let status := if bool_decide (100 ≤ status response < 600)%Z then status response else 500%Z in
  let out := encode_response method response in
  ∃ pos, find_crlf_crlf out = Some pos ∧
    split_crlf (take pos out) =
      status_line status :: (header_as_line <$> filter kept (response_headers response))
      ++ ["Content-Length: " ++ dec (N.of_nat (length (response_body response))); "Connection: close" : rstr] ∧
    drop (pos + 4) out = if bool_decide (to_lowercase method = "head") then [] else response_body response.
Proof.
  cbv zeta. set (st := if bool_decide _ then _ else _). set (hs := response_headers response).
  set (n := N.of_nat _). set (rest := if bool_decide (to_lowercase _ = _) then _ else _).
  set (l := status_line st).
  set (ls := (header_as_line <$> filter kept hs) ++ ["Content-Length: " ++ dec n; "Connection: close" : rstr]).
  assert (encode_response method response = text_of l ls ++ crlf_crlf ++ rest) as ->.
  { unfold encode_response. fold st hs n rest. unfold text_of, l, ls, status_line.
    rewrite tail_lines_app, !tail_lines_cons, <-!app_assoc. do 4 f_equal. by rewrite header_texts. }
  assert (Forall a_line (l :: ls)) as Hl.
  { constructor; [apply status_line_ok|]. apply Forall_app. split.
    - apply Forall_fmap, Forall_forall. intros h [Hh _]%list_elem_of_filter. by apply kept_line.
    - repeat constructor; try done.
      + rewrite not_elem_of_app. split; [by apply not_in|apply dec_no_cr].
      + by apply not_in. }
  exists (length (text_of l ls)). rewrite (find_text_of _ _ _ Hl), take_app_length, split_text_of by done.
  split; [done|]. split; [done|]. rewrite app_assoc, drop_app_length'; [done|].
  rewrite length_app. done.
Qed.

(** ** Requests *)

(** A request as a client spells it. *)
Definition request_line (method target : rstr) : rstr := method ++ " " ++ target ++ " HTTP/1.1".
Definition request_head (method target : rstr) (fields : list (rstr * rstr)) : rstr :=
  text_of (request_line method target) (header_as_line <$> fields).
Definition encode_request (method target : rstr) (fields : list (rstr * rstr)) (body : rstr) : rstr :=
  request_head method target fields ++ crlf_crlf ++ body.

Definition named (name : rstr) (fields : list (rstr * rstr)) : list (rstr * rstr) :=
  filter (λ h, to_lowercase h.1 = name) fields.
Definition headers_of (fields : list (rstr * rstr)) : gmap rstr rstr :=
  fold_left (λ m h, <[to_lowercase h.1 := h.2]> m) fields ∅.
Definition good_field (h : rstr * rstr) : Prop :=
  header_is_safe h.1 h.2 = true ∧ trim (" " ++ h.2) = h.2.
(** What [parse_request] asks of a request with a body of a given length. *)
Definition well_formed (limits : ServeLimits) (method target : rstr) (fields : list (rstr * rstr))
    (body : rstr) : Prop :=
  is_uppercase_method method = true ∧ starts_with "/" target = true ∧
  (carriage_return ∉ target ∧ NUL ∉ target ∧ (" " : ascii) ∉ target) ∧
  Forall good_field fields ∧ utf8_valid (request_head method target fields) = true ∧
  length (named "host" fields) = 1 ∧
  named "transfer-encoding" fields = [] ∧ named "expect" fields = [] ∧
  match named "content-length" fields with
  | [] => body = []
  | [h] => h.2 = dec (N.of_nat (length body))
  | _ => False
  end ∧
  length fields ≤ max_header_count limits ∧
  length (request_head method target fields) + 4 ≤ max_header_bytes limits ∧
  length body ≤ max_body_bytes limits ∧ (Z.of_nat (length body) < U64_MOD)%Z.

Lemma is_safe_free h : header_is_safe h.1 h.2 = true → NUL ∉ header_as_line h ∧ a_line (header_as_line h).
Proof.
  intros Hs. unfold header_is_safe in Hs. apply andb_true_iff in Hs as [Ht Hv].
  assert (NUL ∉ h.2 ∧ carriage_return ∉ h.2) as [Hn Hc].
  { rewrite forallb_forall in Hv.
    split; intros Hin%list_elem_of_In%Hv%negb_true_iff%bool_decide_eq_false; naive_solver. }
  unfold header_as_line, a_line. rewrite !not_elem_of_app.
  split_and!; try done; try (by apply (token_free _ _ Ht)); try (by apply not_in). by destruct h.1.
Qed.

Definition add_header (f : Fields) (h : rstr * rstr) : Fields := add_field f (to_lowercase h.1) h.2.
Lemma header_line_text max head f h :
  good_field h → header_count f < max → header_line max head f (header_as_line h) = Ok (add_header f h).
Proof.
  intros [Hs Ht] Hc. pose proof Hs as Hs'. unfold header_is_safe in Hs'. apply andb_true_iff in Hs' as [Hn _].
  destruct (is_safe_free h Hs) as [Hnul [_ Hl]]. unfold header_line.
  rewrite bool_decide_eq_false_2 by done.
  assert (∀ c, is_token_char c = false → starts_with [c] (header_as_line h) = false) as Hst.
  { intros c Hch. rewrite starts_with_head. apply bool_decide_eq_false. unfold header_as_line.
    destruct h.1 as [|a name] eqn:E; [done|]. intros [= ->]. apply token_chars in Hn.
    apply Forall_cons in Hn as [Hn _]. congruence. }
  assert (starts_with " " (header_as_line h) = false) as -> by (by apply (Hst " "%char)).
  rewrite (Hst "009"%char) by done.
  assert (split_once ":" (header_as_line h) = Some (h.1, " " ++ h.2)) as ->.
  { apply (split_once_app ":" h.1 (" " ++ h.2)). by apply (token_free _ _ Hn). }
  rewrite Hn, Ht. cbn [orb negb].
  rewrite bool_decide_eq_false_2.
  - by rewrite bool_decide_eq_false_2 by lia.
  - unfold header_as_line in Hnul. rewrite !not_elem_of_app in Hnul.
    rewrite not_elem_of_app. split; [by apply not_in|]. apply Hnul.
Qed.
Lemma header_lines_text max head fields f :
  Forall good_field fields → header_count f + length fields ≤ max →
  header_lines max head f (header_as_line <$> fields) = Ok (fold_left add_header fields f).
Proof.
  intros H. revert f. induction H as [|h fields Hh _ IH]; intros f Hc; [done|]. simpl in Hc.
  cbn [fmap list_fmap header_lines fold_left]. rewrite header_line_text by (done || lia).
  cbn [mbind result_bind]. apply IH. simpl. lia.
Qed.

Lemma named_cons name h fields :
  named name (h :: fields) = if bool_decide (to_lowercase h.1 = name) then h :: named name fields else named name fields.
Proof. unfold named. rewrite filter_cons. by destruct (base.decide _), (bool_decide_reflect (to_lowercase h.1 = name)). Qed.
Lemma fold_add_header fields f :
  let f' := fold_left add_header fields f in
  map f' = fold_left (λ m h, <[to_lowercase h.1 := h.2]> m) fields (map f) ∧
  host_count f' = host_count f + length (named "host" fields) ∧
  content_lengths f' = content_lengths f ++ (snd <$> named "content-length" fields) ∧
  (named "transfer-encoding" fields = [] → saw_transfer_encoding f' = saw_transfer_encoding f) ∧
  (named "expect" fields = [] → saw_expect f' = saw_expect f).
Proof.
  revert f. induction fields as [|h fields IH]; intros f; cbv zeta.
  { cbn. rewrite app_nil_r, Nat.add_0_r. done. }
  cbn [fold_left]. destruct (IH (add_header f h)) as (-> & -> & -> & Hte & He). rewrite !named_cons.
  cbn [add_header add_field map host_count content_lengths saw_transfer_encoding saw_expect] in *.
  split; [done|]. repeat case_bool_decide; simplify_eq/=; rewrite <-?app_assoc; split_and!; done || lia.
Qed.

Lemma upper_free m c : is_uppercase_method m = true → is_upper c = false → c ∉ m.
Proof.
  unfold is_uppercase_method. intros [_ H]%andb_true_iff Hc Hin%list_elem_of_In.
  rewrite forallb_forall in H. by rewrite (H c Hin) in Hc.
Qed.
Lemma parse_content_length_dec n :
  (Z.of_N n < U64_MOD)%Z → parse_content_length (dec n) = Ok (Z.of_N n).
Proof.
  intros Hn. unfold parse_content_length. rewrite bool_decide_eq_false_2 by apply dec_not_nil.
  assert (forallb is_digit (dec n) = true) as ->.
  { apply forallb_forall. intros c Hc%list_elem_of_In. pose proof (dec_digits n) as Hd.
    rewrite Forall_forall in Hd. destruct (Hd c Hc) as [d E]. unfold digit in E. unfold is_digit, in_range.
    case_bool_decide as H; [|done]. apply bool_decide_eq_true. lia. }
  cbn [orb negb]. unfold parse_u64. assert (strip_prefix "+" (dec n) = None) as ->.
  { pose proof (dec_digits n) as Hd. destruct (strip_prefix "+" (dec n)) eqn:E; [|done].
    apply strip_prefix_Some in E. rewrite E in Hd. apply Forall_cons in Hd as [[? [=]] _]. }
  cbn [default from_option]. rewrite parse_dec. cbn [mbind option_bind].
  by rewrite bool_decide_eq_true_2.
Qed.

Lemma text_of_free c l ls : c ∉ crlf → c ∉ l → Forall (λ x, c ∉ x) ls → c ∉ text_of l ls.
Proof.
  intros Hc Hl Hls. unfold text_of. apply not_elem_of_app. split; [done|].
  induction Hls; [by apply not_elem_of_nil|]. rewrite tail_lines_cons, !not_elem_of_app. done.
Qed.
Lemma request_lines method target fields :
  is_uppercase_method method = true → carriage_return ∉ target → Forall good_field fields →
  Forall a_line (request_line method target :: (header_as_line <$> fields)).
Proof.
  intros Hm Hcr Hf. constructor.
  - unfold a_line, request_line. rewrite !not_elem_of_app.
    split_and!; [by apply (upper_free _ _ Hm)|by apply not_in|done|by apply not_in|by destruct method].
  - apply Forall_fmap. eapply Forall_impl; [exact Hf|]. intros h [Hs _]. by apply is_safe_free.
Qed.

(** What is parsed of a well-formed request's head. *)
Lemma parse_head_text limits method target fields body :
  well_formed limits method target fields body →
  parse_head limits (request_head method target fields ++ crlf_crlf)
  = Ok (method, target, headers_of fields, Z.of_nat (length body)).
Proof.
  intros (Hm & Ht & (Hcr & Hnul & Hsp) & Hf & Hutf & Hhost & Hte & He & Hcl & Hcount & _ & Hbody & Hu64).
  unfold parse_head. rewrite length_app, bool_decide_eq_false_2 by (simpl; lia). cbv zeta.
  change (length crlf_crlf) with 4. rewrite Nat.add_sub, take_app_length, Hutf. cbn [negb].
  rewrite bool_decide_eq_false_2.
  2:{ apply text_of_free; [by apply not_in| |].
      - unfold request_line. rewrite !not_elem_of_app.
        split_and!; [by apply (upper_free _ _ Hm)|by apply not_in|done|by apply not_in].
      - apply Forall_fmap. eapply Forall_impl; [exact Hf|]. intros h [Hs _]. by apply is_safe_free. }
  unfold request_head. rewrite split_text_of by (by apply request_lines).
  assert (split_on " " (request_line method target) = [method; target; "HTTP/1.1" : rstr]) as ->.
  { unfold request_line. change (method ++ " " ++ ?x) with (method ++ (" " : ascii) :: x).
    rewrite split_on_app_sep by (by apply (upper_free _ _ Hm)).
    change (target ++ " HTTP/1.1") with (target ++ (" " : ascii) :: "HTTP/1.1").
    rewrite split_on_app_sep by done. done. }
  rewrite bool_decide_eq_true_2, Hm, Ht by done. cbn [negb orb].
  rewrite (bool_decide_eq_false_2 (NUL ∈ _)) by done.
  rewrite header_lines_text by (done || simpl; lia). cbn [mbind result_bind].
  destruct (fold_add_header fields no_fields) as (Emap & Ehost & Ecl & Ete & Ee).
  unfold check_fields. rewrite Ehost, Ecl, Hhost, (Ete Hte), (Ee He), Emap. cbn [host_count no_fields content_lengths].
  cbn [app andb saw_transfer_encoding saw_expect no_fields]. clear -Hcl Hbody Hu64.
  rewrite (bool_decide_eq_false_2 (0 + 1 = 0)), (bool_decide_eq_false_2 (1 < 0 + 1)) by lia.
  destruct (named "content-length" fields) as [|h [|]]; [| |done].
  { subst. cbn [fmap list_fmap length mbind result_bind]. by rewrite !bool_decide_eq_false_2 by lia. }
  cbn [fmap list_fmap length snd app]. rewrite bool_decide_eq_false_2 by lia. rewrite Hcl.
  rewrite parse_content_length_dec by lia. cbn [mbind result_bind].
  rewrite bool_decide_eq_false_2 by lia. cbn [mbind result_bind]. do 3 f_equal. lia.
Qed.

(** Round trip: a request spelled with any method, target, fields and body within the
    limits is parsed to just these, whatever follows it on the connection and however
    it is cut into reads. *)
Theorem request_round_trip limits method target fields body extra r :
  well_formed limits method target fields body →
  clean r → content r = encode_request method target fields body ++ extra →
  ∃ r', read_http11 r limits =
    Some (r', Ok (Request {| method := method; target := target;
                             headers := headers_of fields; body := body |})).
Proof.
  intros Hw Hr Hc. destruct (read_http11_spec limits r Hr) as (r' & E). exists r'. rewrite E, Hc.
  do 3 f_equal. clear E. unfold http_spec, encode_request. pose proof Hw as
    (Hm & _ & (Hcr & _) & Hf & _ & _ & _ & _ & _ & _ & Hhead & _).
  rewrite <-!app_assoc. unfold request_head at 1. rewrite find_text_of by (by apply request_lines).
  fold (request_head method target fields). rewrite bool_decide_eq_false_2 by lia.
  rewrite app_assoc. assert (length (request_head method target fields) + 4 =
    length (request_head method target fields ++ crlf_crlf)) as -> by (by rewrite length_app).
  rewrite take_app_length, drop_app_length, (parse_head_text _ _ _ _ _ Hw). cbn [mbind result_bind].
  cbv zeta. rewrite Nat2Z.id, length_app, bool_decide_eq_false_2 by lia. by rewrite take_app_length.
Qed.

(** ** A connection that stalls *)

(** What a read that fails with [kind] comes to. *)
Definition failed_read (kind : IoKind) : ReadHttpError :=
  match kind with TimedOut => Protocol (protocol_failure 408 "request timeout" false) | _ => Io kind end.
Lemma read_some_stalled r kind n :
  clean r → 0 < n →
  read_some (r ++ [Failure kind]) n = ([], Err (failed_read kind)) ∨
  ∃ r' d, read_some (r ++ [Failure kind]) n = (r' ++ [Failure kind], Ok d) ∧ d ≠ [] ∧
    clean r' ∧ content r = d ++ content r'.
Proof.
  intros Hr Hn. induction Hr as [|e r He Hr IH]; [left; by destruct kind|].
  destruct He as [(d & -> & Hd)| ->]; [|exact IH]. right. cbn [app read_some]. case_bool_decide.
  - by exists r, d.
  - exists (Chunk (drop n d) :: r), (take n d). split; [done|]. split.
    { intros E%(f_equal length). rewrite length_take in E. simpl in E. lia. }
    split; [|unfold content; cbn [fmap list_fmap mjoin list_join event_data]; by rewrite app_assoc, take_drop].
    constructor; [left; eexists; split; [done|]|done].
    intros E%(f_equal length). rewrite length_drop in E. simpl in E. lia.
Qed.
Lemma read_header_block_stalled fuel r buf max kind :
  clean r → find_crlf_crlf (buf ++ content r) = None → length (buf ++ content r) ≤ max →
  max < fuel + length buf →
  ∃ r', read_header_block fuel (r ++ [Failure kind]) buf max = Some (r', Err (failed_read kind)).
Proof.
  revert r buf. induction fuel as [|fuel IH]; intros r buf Hr Hf Hl Hfuel;
    [rewrite length_app in Hl; simpl in Hfuel; lia|].
  cbn [read_header_block]. destruct (find_crlf_crlf buf) eqn:E.
  { by rewrite (find_crlf_crlf_app _ _ _ E) in Hf. }
  rewrite length_app in Hl. rewrite bool_decide_eq_false_2 by lia.
  destruct (read_some_stalled r kind 1024 Hr ltac:(lia)) as [->|(r' & d & -> & Hd & Hr' & Hc)]; [eauto|].
  destruct d as [|c d]; [done|]. rewrite Hc in Hf, Hl.
  apply IH; [done|by rewrite <-app_assoc| |]; rewrite ?length_app in *; simpl in *; lia.
Qed.

(** A peer that stops in the middle of its header is told so exactly when the
    system reports the expired timeout as [TimedOut]; a timeout reported as
    [WouldBlock], as Unix does for [SO_RCVTIMEO], closes the connection without the
    408 that the code has for this case. *)
Theorem stalled_header limits handler r kind :
  clean r → find_crlf_crlf (content r) = None → length (content r) ≤ max_header_bytes limits →
  handle_plain_connection limits handler (r ++ [Failure kind])
  = Some match kind with
         | TimedOut => encode_failure (protocol_failure 408 "request timeout" false)
         | WouldBlock | OtherIo => []
         end.
Proof.
  intros Hr Hf Hl. unfold handle_plain_connection, read_http11.
  destruct (read_header_block_stalled (max_header_bytes limits + 2) r [] (max_header_bytes limits) kind Hr)
    as (r' & ->); [done|done|simpl; lia|]. by destruct kind.
Qed.

(** ** Witnesses *)

Module HttpWitness.
Definition small : ServeLimits := {| max_header_bytes := 128; max_body_bytes := 16; max_header_count := 4 |}.
Definition fields : list (rstr * rstr) := [("Host" : rstr, "a" : rstr); ("content-length" : rstr, "2" : rstr)].
Definition text : rstr := encode_request "POST" "/x" fields "hi".
Definition reads : list ReadEvent := [Chunk (take 20 text); Interrupted; Chunk (drop 20 text)].
Definition request : Http11Request :=
  {| method := "POST"; target := "/x"; headers := headers_of fields; body := "hi" |}.
End HttpWitness.
Ltac clean_reads :=
  repeat match goal with
         | |- clean _ => unfold clean, HttpWitness.reads
         | |- Forall _ [] => apply Forall_nil_2
         | |- Forall _ (_ :: _) => apply Forall_cons_2
         | |- _ ∨ _ => (left; eexists; split; [reflexivity|discriminate]) || (right; reflexivity)
         end.

Lemma framing_refines_spec_witness :
  (∃ r', read_http11 HttpWitness.reads HttpWitness.small = Some (r', Ok (Request HttpWitness.request))) ∧
  handle_plain_connection HttpWitness.small (λ _, text_response 200 "ok") [Chunk HttpWitness.text]
  = handle_plain_connection HttpWitness.small (λ _, text_response 200 "ok") HttpWitness.reads.
Proof.
  destruct (framing_refines_spec HttpWitness.small HttpWitness.reads) as [(r' & E) H]; [clean_reads|].
  split; [exists r'; rewrite E; vm_compute; reflexivity|].
  apply (H (λ _, text_response 200 "ok") [Chunk HttpWitness.text]); [clean_reads|vm_compute; reflexivity].
Defined.

Lemma accepted_request_framed_witness :
  ∃ pos, find_crlf_crlf HttpWitness.text = Some pos ∧ pos + 4 ≤ 128.
Proof.
  destruct (accepted_request_framed HttpWitness.small HttpWitness.reads [] HttpWitness.request)
    as (pos & Hf & Hp & _); [clean_reads|vm_compute; reflexivity|].
  exists pos. split; [exact Hf|exact Hp].
Defined.

Lemma request_round_trip_witness :
  ∃ r', read_http11 HttpWitness.reads HttpWitness.small = Some (r', Ok (Request HttpWitness.request)).
Proof.
  apply (request_round_trip HttpWitness.small "POST" "/x" HttpWitness.fields "hi" []);
    [|clean_reads|vm_compute; reflexivity].
  assert (Forall good_field HttpWitness.fields) as Hf by (repeat constructor).
  assert (length (request_head "POST" "/x" HttpWitness.fields) + 4 = 48) as Hl by (vm_compute; reflexivity).
  unfold well_formed. rewrite Hl. cbn [length max_header_bytes max_header_count max_body_bytes HttpWitness.small].
  split_and!; [reflexivity|reflexivity|apply not_in; reflexivity..|exact Hf|vm_compute; reflexivity| | | | | | | |];
    first [lia | vm_compute; first [reflexivity | lia]].
Defined.

Lemma stalled_header_witness :
  handle_plain_connection HttpWitness.small (λ _, text_response 200 "ok")
    ([Chunk "GET / HT"] ++ [Failure WouldBlock]) = Some [].
Proof.
  apply (stalled_header HttpWitness.small (λ _, text_response 200 "ok") [Chunk "GET / HT"] WouldBlock);
    [clean_reads|reflexivity|vm_compute; lia].
Defined.

(** A [HEAD] request with a bad [Content-Length] is answered with a body: the
    failure is made without the flag the other failures carry. *)
Example head_failure_has_body :
  http_spec HttpWitness.small (encode_request "HEAD" "/" [("host" : rstr, "a" : rstr); ("content-length" : rstr, "x" : rstr)] [])
  = protocol 400 "invalid content-length" false.
Proof. vm_compute. reflexivity. Qed.
