(* ===== verification/Semver.v ===== *)
(** * Version ranges and package names, [src/package_manager.rs]

    The pure part of the package manager: what a command-line argument names,
    which of the versions a registry lists a range stands for, and whether a
    locked version satisfies a request.  [main.rs] has a second copy of the
    matching functions for [--frozen-lockfile]. *)

From S2P Require Import Prelude.

(** [parse_npm_package_spec] *)
Definition parse_npm_package_spec (spec : rstr) : rstr * rstr :=
  let spec := trim spec in
  if starts_with "@" spec then
    match split_once slash spec with
    | Some (scope, rest) =>
        match split_once "@" rest with
        | Some (base, version) => (scope ++ slash :: base, version)
        | None => (spec, "latest" : rstr)
        end
    | None => (spec, "latest" : rstr)
    end
  else
    match split_once "@" spec with
    | Some (name, version) =>
        if negb (bool_decide (name = [])) && negb (bool_decide (version = []))
        then (name, version) else (spec, "latest" : rstr)
    | None => (spec, "latest" : rstr)
    end.

(** ** Ranges against a registry's list of versions *)

(** [s.parse::<u32>()] *)
Definition parse_u32 (s : rstr) : option Z :=
  v ← parse_nat_digits ((strip_prefix "+" s) .unwrap_or s);
  if bool_decide (v ≤ U32_MAX)%Z then Some v else None.

Definition part (v : rstr) (i : nat) : option Z :=
  (λ p, (parse_u32 p) .unwrap_or 0%Z) <$> split_on "." v !! i.
Definition last_or (l : list rstr) (base : rstr) : rstr := (last l) .unwrap_or base.

(** [resolve_caret_range]; [split] gives one part at least. *)
Definition resolve_caret_range (versions : list rstr) (base : rstr) : rstr :=
  last_or (filter (λ v, part v 0 = part base 0) versions) base.

Definition resolve_tilde_range (versions : list rstr) (base : rstr) : rstr :=
  if bool_decide (2 ≤ length (split_on "." base))
  then last_or (filter (λ v, part v 0 = part base 0 ∧ part v 1 = part base 1) versions) base
  else base.

(** [Vec<u32>]'s [>=]: lexicographic, a proper prefix is smaller. *)
Fixpoint vec_le (a b : list Z) : bool :=
  match a, b with
  | [], _ => true
  | _ :: _, [] => false
  | x :: a, y :: b => bool_decide (x < y)%Z || (bool_decide (x = y) && vec_le a b)
  end.
Definition parts_or (d : Z) (v : rstr) : list Z := (λ p, (parse_u32 p) .unwrap_or d) <$> split_on "." v.
Definition resolve_greater_than (versions : list rstr) (min : rstr) : rstr :=
  last_or (filter (λ v, vec_le (parts_or 0 min) (parts_or 0 v) = true) versions) min.
Definition resolve_less_than (versions : list rstr) (max : rstr) : rstr :=
  last_or (filter (λ v, vec_le (parts_or U32_MAX v) (parts_or U32_MAX max) = true) versions) max.

(** ** A request against a locked version *)

Record SemverTriple := { major : Z; minor : Z; patch : Z }.
#[export] Instance semver_eq_dec : EqDecision SemverTriple.
Proof. solve_decision. Defined.

(** The derived order: field by field. *)
Definition semver_lt (a b : SemverTriple) : Prop :=
  (major a < major b)%Z ∨ major a = major b ∧
  ((minor a < minor b)%Z ∨ minor a = minor b ∧ (patch a < patch b)%Z).
#[export] Instance semver_lt_dec a b : Decision (semver_lt a b).
Proof. unfold semver_lt. apply _. Defined.

Definition trim_start_v (s : rstr) : rstr := trim_with (λ s, if starts_with "v" s then 1 else 0) (length s) s.
(** [version.split(['-', '+']).next()] *)
Fixpoint before_tag (s : rstr) : rstr :=
  match s with
  | [] => []
  | c :: s' => if bool_decide (c = "-"%char ∨ c = "+"%char) then [] else c :: before_tag s'
  end.
Definition parse_semver_triplet (version : rstr) : option SemverTriple :=
  let parts := split_on "." (before_tag (trim_start_v (trim version))) in
  major ← parts !! 0 ≫= parse_u64;
  minor ← parse_u64 ((parts !! 1) .unwrap_or ("0" : rstr));
  patch ← parse_u64 ((parts !! 2) .unwrap_or ("0" : rstr));
  Some {| major := major; minor := minor; patch := patch |}.

Definition semver_caret_matches (base locked : rstr) : bool :=
  match parse_semver_triplet base, parse_semver_triplet locked with
  | Some base, Some locked =>
      if bool_decide (semver_lt locked base) then false
      else if bool_decide (0 < major base)%Z then bool_decide (major locked = major base)
      else if bool_decide (0 < minor base)%Z
      then bool_decide (major locked = 0%Z) && bool_decide (minor locked = minor base)
      else bool_decide (major locked = 0%Z) && bool_decide (minor locked = 0%Z)
           && bool_decide (patch locked = patch base)
  | _, _ => false
  end.
Definition semver_tilde_matches (base locked : rstr) : bool :=
  match parse_semver_triplet base, parse_semver_triplet locked with
  | Some base, Some locked =>
      negb (bool_decide (semver_lt locked base)) && bool_decide (major locked = major base)
      && bool_decide (minor locked = minor base)
  | _, _ => false
  end.

Definition dependency_request_matches_locked_version (requested locked : rstr) : bool :=
  let requested := trim requested in
  let locked := trim locked in
  if bool_decide (requested = "*") || bool_decide (to_lowercase requested = "latest") then true
  else if bool_decide (requested = locked) then true
  else match strip_prefix "^" requested, strip_prefix "~" requested, strip_prefix "=" requested with
       | Some base, _, _ => semver_caret_matches base locked
       | None, Some base, _ => semver_tilde_matches base locked
       | None, None, Some base => bool_decide (locked = trim base)
       | None, None, None => false
       end.

(** ** Semantics of ranges *)

Definition semver_le (a b : SemverTriple) : Prop := ¬ semver_lt b a.
Definition triple (a b c : Z) : SemverTriple := {| major := a; minor := b; patch := c |}.
(** Where npm's caret and tilde ranges end. *)
Definition caret_ceiling (b : SemverTriple) : SemverTriple :=
  if bool_decide (0 < major b)%Z then triple (major b + 1) 0 0
  else if bool_decide (0 < minor b)%Z then triple 0 (minor b + 1) 0 else triple 0 0 (patch b + 1).
Definition tilde_ceiling (b : SemverTriple) : SemverTriple := triple (major b) (minor b + 1) 0.
Definition in_range_of (ceiling : SemverTriple → SemverTriple) (base locked : rstr) : Prop :=
  ∃ b l, parse_semver_triplet base = Some b ∧ parse_semver_triplet locked = Some l ∧
         semver_le b l ∧ semver_lt l (ceiling b).

Lemma parse_semver_nonneg s t :
  parse_semver_triplet s = Some t → (0 ≤ major t ∧ 0 ≤ minor t ∧ 0 ≤ patch t)%Z.
Proof.
  unfold parse_semver_triplet. cbv zeta. set (parts := split_on _ _).
  destruct (parts !! 0 ≫= parse_u64) as [a|] eqn:Ea; [|done].
  destruct (parse_u64 ((parts !! 1) .unwrap_or ("0" : rstr))) as [b|] eqn:Eb; [|done].
  destruct (parse_u64 ((parts !! 2) .unwrap_or ("0" : rstr))) as [c|] eqn:Ec; [|done].
  intros [= <-]. apply bind_Some in Ea as (p & _ & Ea). cbn [major minor patch].
  apply parse_u64_range in Ea, Eb, Ec. unfold in_u64 in *. lia.
Qed.
Ltac semver_cases :=
  intros; unfold semver_le, semver_lt, caret_ceiling, tilde_ceiling, triple in *;
  cbn [major minor patch] in *;
  repeat (case_bool_decide; cbn [andb negb major minor patch] in *);
  try (split; [discriminate|lia]); (split; [intros _; lia|reflexivity]).

(** The lock check decides npm's ranges: a caret or tilde request admits a
    locked version exactly when its numeric triple lies from the base up to, and not
    including, the next version the range excludes. *)
Theorem lock_check_is_interval base locked :
  (semver_caret_matches base locked = true ↔ in_range_of caret_ceiling base locked) ∧
  (semver_tilde_matches base locked = true ↔ in_range_of tilde_ceiling base locked).
Proof.
  unfold semver_caret_matches, semver_tilde_matches, in_range_of.
  destruct (parse_semver_triplet base) as [b|] eqn:Eb; [|naive_solver].
  destruct (parse_semver_triplet locked) as [l|] eqn:El; [|naive_solver].
  apply parse_semver_nonneg in Eb, El.
  assert (∀ c, (∃ b' l', Some b = Some b' ∧ Some l = Some l' ∧ semver_le b' l' ∧ semver_lt l' (c b'))
    ↔ semver_le b l ∧ semver_lt l (c b)) as E by naive_solver.
  rewrite !E. clear E. split; semver_cases.
Qed.

(** ** Package specifiers *)

(** A name and a version joined by an at sign are read back, with or without a
    scope; a name alone stands for [latest]. *)
Theorem package_spec_round_trip scope name version :
  ("@" : ascii) ∉ name → slash ∉ scope → name ≠ [] → version ≠ [] →
  (trim (name ++ "@" ++ version) = name ++ "@" ++ version →
   parse_npm_package_spec (name ++ "@" ++ version) = (name, version)) ∧
  (trim ("@" ++ scope ++ "/" ++ name ++ "@" ++ version) = "@" ++ scope ++ "/" ++ name ++ "@" ++ version →
   parse_npm_package_spec ("@" ++ scope ++ "/" ++ name ++ "@" ++ version)
   = ("@" ++ scope ++ "/" ++ name, version)).
Proof.
  intros Hn Hs Hne Hv. unfold parse_npm_package_spec. split; intros ->.
  - assert (starts_with "@" (name ++ "@" ++ version) = false) as ->.
    { change ("@" : rstr) with ["@"%char]. rewrite starts_with_head. apply bool_decide_eq_false.
      destruct name; [done|]. intros [= ->]. set_solver. }
    change ("@" ++ version) with ("@"%char :: version). rewrite split_once_app by done.
    by rewrite !bool_decide_eq_false_2.
  - assert (starts_with "@" ("@" ++ scope ++ "/" ++ name ++ "@" ++ version) = true) as ->.
    { apply starts_with_spec. by eexists. }
    assert (split_once slash ("@" ++ scope ++ "/" ++ name ++ "@" ++ version)
            = Some ("@" ++ scope, name ++ "@" ++ version)) as ->.
    { apply (split_once_app slash ("@"%char :: scope) (name ++ "@" ++ version)).
      intros [|]%elem_of_cons; done. }
    assert (split_once "@" (name ++ "@" ++ version) = Some (name, version)) as -> by (by apply split_once_app).
    by rewrite <-app_assoc.
Qed.

(** ** Unlocked ranges and the lock made of them *)

(** The version a caret range resolves to is the last listed one with its major
    version, or the base itself when there is none: nothing compares it with
    the base. *)
Theorem caret_choice versions base :
  let r := resolve_caret_range versions base in
  (r ∈ versions ∧ part r 0 = part base 0) ∨
  (r = base ∧ ∀ v, v ∈ versions → part v 0 ≠ part base 0).
Proof.
  unfold resolve_caret_range, last_or. cbv zeta. set (l := filter _ _).
  destruct (last l) as [r|] eqn:E.
  - left. assert (r ∈ l) as H by (apply last_Some in E as [l' ->]; set_solver).
    apply list_elem_of_filter in H as [H1 H2]. done.
  - right. split; [done|]. apply last_None in E. intros v Hv Hp.
    assert (v ∈ l) as H by (by apply list_elem_of_filter). rewrite E in H. by apply elem_of_nil in H.
Qed.

(** The comparison ranges that an install without a lock resolves are unknown to
    the lock check: whatever version was resolved and written to the lock, the next
    install rejects it, unless the lock repeats the request word for word. *)
Theorem comparison_range_never_relocks c s locked :
  c = ">"%char ∨ c = "<"%char → trim (c :: s) = c :: s → trim locked ≠ c :: s →
  dependency_request_matches_locked_version (c :: s) locked = false.
Proof.
  intros Hc Ht Hl. unfold dependency_request_matches_locked_version. rewrite Ht. cbv zeta.
  destruct Hc as [-> | ->]; rewrite !bool_decide_eq_false_2 by done; done.
Qed.

(** What the comparison filters accept: [>] accepts the bound itself and [<] does
    too; the version a caret range of a [0.] base resolves to can be one the lock
    check of the same range refuses, and it can lie below the base. *)
Example ranges_ex :
  resolve_greater_than ["1.0.0" : rstr] "1.0.0" = "1.0.0" ∧
  resolve_less_than ["1.0.0" : rstr; "2.0.0" : rstr] "2.0.0" = "2.0.0" ∧
  resolve_caret_range ["0.2.3" : rstr; "0.9.0" : rstr] "0.2.3" = "0.9.0" ∧
  dependency_request_matches_locked_version "^0.2.3" "0.9.0" = false ∧
  resolve_caret_range ["1.2.0" : rstr] "1.5.0" = "1.2.0" ∧
  dependency_request_matches_locked_version "^1.5.0" "1.2.0" = false.
Proof. vm_compute. done. Qed.
