(* ===== verification/DiskFs.v ===== *)
(** * A disk, as [std::fs] changes it

    A tree of directories and regular files without symbolic links, permissions or
    failing hardware: the part of [std::fs] the package manager writes with.  A
    location is the list of names that leads to it from the root; [locate]
    takes a [Path] there from the current directory, [..] lexically. *)

From S2P Require Import Prelude RustPath.

Inductive Node := FileNode (data : rstr) | DirNode.
#[export] Instance node_eq_dec : EqDecision Node.
Proof. solve_decision. Defined.
Abbreviation loc := (list rstr).
Abbreviation Disk := (gmap loc Node).

Definition enter_component (l : loc) (c : component) : loc :=
  match c with
  | RootDir => []
  | CurDir => l
  | ParentDir => take (length l - 1) l
  | Normal n => l ++ [n]
  end.
Definition locate (cwd : loc) (p : path) : loc := fold_left enter_component p cwd.

(** The root is there without an entry. *)
Definition node_at (d : Disk) (l : loc) : option Node :=
  match l with [] => Some DirNode | _ => d !! l end.
(** [path.exists()], [path.is_dir()], [fs::read(path)] *)
Definition exists_at (d : Disk) (l : loc) : bool := bool_decide (is_Some (node_at d l)).
Definition dir_at (d : Disk) (l : loc) : bool := bool_decide (node_at d l = Some DirNode).
Definition read_at (d : Disk) (l : loc) : option rstr :=
  match node_at d l with Some (FileNode data) => Some data | _ => None end.
Definition parent_loc (l : loc) : loc := take (length l - 1) l.

(** [fs::write], and an unpacked archive entry: the parent is a directory and
    the place is not one. *)
Definition write_at (d : Disk) (l : loc) (data : rstr) : option Disk :=
  if dir_at d (parent_loc l) && negb (dir_at d l) then Some (<[l := FileNode data]> d) else None.

(** [fs::create_dir_all], name by name. *)
Fixpoint create_dirs (d : Disk) (l rest : loc) : option Disk :=
  match rest with
  | [] => Some d
  | n :: rest =>
      match node_at d (l ++ [n]) with
      | Some DirNode => create_dirs d (l ++ [n]) rest
      | Some (FileNode _) => None
      | None => create_dirs (<[l ++ [n] := DirNode]> d) (l ++ [n]) rest
      end
  end.
Definition create_dir_all_at (d : Disk) (l : loc) : option Disk := create_dirs d [] l.

(** The disk without what lies at or under [l]. *)
Definition remove_tree {A} (d : gmap loc A) (l : loc) : gmap loc A := filter (λ kv, ¬ l `prefix_of` kv.1) d.
(** [fs::remove_dir_all], [fs::remove_file], [fs::remove_dir] *)
Definition remove_dir_all_at (d : Disk) (l : loc) : option Disk :=
  if bool_decide (l ≠ []) && dir_at d l then Some (remove_tree d l) else None.
Definition remove_file_at (d : Disk) (l : loc) : option Disk :=
  match read_at d l with Some _ => Some (delete l d) | None => None end.

(** The names in a directory. *)
Definition name_in (l k : loc) : option rstr :=
  if bool_decide (parent_loc k = l) then last k else None.
Definition names_at (d : Disk) (l : loc) : list rstr := omap (λ kv, name_in l kv.1) (map_to_list d).
Definition remove_dir_at (d : Disk) (l : loc) : option Disk :=
  if bool_decide (l ≠ []) && dir_at d l && bool_decide (names_at d l = [])
  then Some (delete l d) else None.

(** [fs::rename] to a place that does not exist. *)
Definition moved {A} (src dst : loc) (d : gmap loc A) : gmap loc A :=
  list_to_map (prod_map (λ k, dst ++ drop (length src) k) id
               <$> map_to_list (filter (λ kv, src `prefix_of` kv.1) d)).
Definition rename_at (d : Disk) (src dst : loc) : option Disk :=
  if bool_decide (is_Some (d !! src)) && negb (exists_at d dst) && dir_at d (parent_loc dst)
     && negb (bool_decide (src `prefix_of` dst))
  then Some (moved src dst d ∪ remove_tree (remove_tree d src) dst) else None.

(** ** Lemmas *)

Lemma parent_loc_snoc l n : parent_loc (l ++ [n]) = l.
Proof. unfold parent_loc. rewrite length_app. simpl. by rewrite Nat.add_sub, take_app_length. Qed.
Lemma locate_app cwd p q : locate cwd (p ++ q) = locate (locate cwd p) q.
Proof. apply fold_left_app. Qed.
Lemma locate_names cwd names : locate cwd (Normal <$> names) = cwd ++ names.
Proof.
  revert cwd. induction names as [|n names IH]; intros cwd; [symmetry; apply app_nil_r|].
  cbn [fmap list_fmap]. unfold locate in *. cbn [fold_left enter_component]. by rewrite IH, <-app_assoc.
Qed.

Lemma node_at_lookup d l x : d !! l = Some x → l ≠ [] → node_at d l = Some x.
Proof. by destruct l. Qed.
Lemma lookup_remove_tree {A} (d : gmap loc A) (l k : loc) :
  remove_tree d l !! k = if bool_decide (l `prefix_of` k) then None else d !! k.
Proof.
  unfold remove_tree. case_bool_decide.
  - apply map_lookup_filter_None. right. intros x _. naive_solver.
  - rewrite map_lookup_filter. destruct (d !! k); [|done]. cbn. by rewrite option_guard_True.
Qed.
Lemma lookup_moved {A} (src dst : loc) (d : gmap loc A) (k : loc) :
  moved src dst d !! k =
  if bool_decide (dst `prefix_of` k) then d !! (src ++ drop (length dst) k) else None.
Proof.
  unfold moved. set (g := prod_map _ _). set (sub := filter _ d).
  assert (∀ a b : loc * A, a ∈ map_to_list sub → b ∈ map_to_list sub → (g a).1 = (g b).1 → a = b) as Hinj.
  { intros [ka x] [kb y] Ha Hb E. apply elem_of_map_to_list in Ha, Hb.
    pose proof Ha as [_ [ta Ea]]%map_lookup_filter_Some. pose proof Hb as [_ [tb Eb]]%map_lookup_filter_Some.
    cbn in Ea, Eb, E. subst ka kb. rewrite !drop_app_length in E. apply app_inv_head in E. subst.
    by rewrite Ha in Hb; injection Hb as ->. }
  assert (NoDup (g <$> map_to_list sub).*1) as Hnd.
  { rewrite <-list_fmap_compose. apply NoDup_fmap_2_strong; [exact Hinj|apply NoDup_map_to_list]. }
  apply option_eq. intros x. rewrite <-elem_of_list_to_map by done. rewrite list_elem_of_fmap. split.
  - intros ([ka y] & [= -> ->] & Ha%elem_of_map_to_list).
    apply map_lookup_filter_Some in Ha as [Ha [t Et]]. cbn in Et. subst ka.
    rewrite drop_app_length, bool_decide_eq_true_2 by (by eexists). by rewrite drop_app_length.
  - case_bool_decide as Hp; [|done]. destruct Hp as [t ->]. rewrite drop_app_length. intros Hx.
    exists (src ++ t, x). split; [unfold g, prod_map; cbn [fst snd id]; by rewrite drop_app_length|].
    apply elem_of_map_to_list, map_lookup_filter_Some. split; [done|]. by eexists.
Qed.
Lemma lookup_rename d src dst d' k :
  rename_at d src dst = Some d' →
  d' !! k = if bool_decide (dst `prefix_of` k) then d !! (src ++ drop (length dst) k)
            else if bool_decide (src `prefix_of` k) then None else d !! k.
Proof.
  unfold rename_at. destruct (_ && _); [|done]. intros [= <-].
  rewrite lookup_union, lookup_moved, !lookup_remove_tree. case_bool_decide; [|by rewrite (left_id None _)].
  by destruct (d !! _).
Qed.

(** What an operation leaves alone: every place but those of [R]. *)
Definition same_outside (R : loc → Prop) (d d' : Disk) : Prop := ∀ k, ¬ R k → d' !! k = d !! k.
Lemma same_outside_refl R d : same_outside R d d.
Proof. by intros k _. Qed.
Lemma same_outside_trans R d1 d2 d3 :
  same_outside R d1 d2 → same_outside R d2 d3 → same_outside R d1 d3.
Proof. intros H1 H2 k Hk. by rewrite H2, H1. Qed.
Lemma same_outside_mono (R S : loc → Prop) d d' :
  (∀ k, R k → S k) → same_outside R d d' → same_outside S d d'.
Proof. intros HRS H k Hk. apply H. auto. Qed.
Definition below (l k : loc) : Prop := l `prefix_of` k.
Lemma below_refl l : below l l.
Proof. by exists []; rewrite app_nil_r. Qed.
#[export] Hint Resolve same_outside_refl below_refl : amber.

Lemma write_at_outside d l data d' : write_at d l data = Some d' → same_outside (below l) d d'.
Proof.
  unfold write_at. destruct (_ && _); [|done]. intros [= <-] k Hk. apply lookup_insert_ne.
  intros ->. auto with amber.
Qed.
Lemma create_dirs_outside d l rest d' :
  create_dirs d l rest = Some d' →
  ∀ k, ¬ (k `prefix_of` l ++ rest ∧ length l < length k) → d' !! k = d !! k.
Proof.
  revert d l. induction rest as [|n rest IH]; intros d l; cbn [create_dirs]; [by intros [= <-]|].
  rewrite (cons_middle n l rest), (app_assoc l [n] rest).
  intros H k Hk. assert (¬ (k `prefix_of` (l ++ [n]) ++ rest ∧ length (l ++ [n]) < length k)) as Hk'.
  { rewrite length_app. simpl. intros [Hp Hlt]. apply Hk. split; [done|lia]. }
  destruct (node_at d (l ++ [n])) as [[]|]; [done|by eapply IH|].
  rewrite (IH _ _ H k Hk'). apply lookup_insert_ne. intros <-. apply Hk.
  split; [by exists rest|rewrite length_app; simpl; lia].
Qed.
Lemma remove_tree_outside d l : same_outside (below l) d (remove_tree d l).
Proof. intros k Hk. rewrite lookup_remove_tree. by rewrite bool_decide_eq_false_2. Qed.
Lemma remove_dir_all_outside d l d' : remove_dir_all_at d l = Some d' → same_outside (below l) d d'.
Proof. unfold remove_dir_all_at. destruct (_ && _); [|done]. intros [= <-]. apply remove_tree_outside. Qed.
Lemma remove_file_outside d l d' : remove_file_at d l = Some d' → same_outside (below l) d d'.
Proof.
  unfold remove_file_at. destruct (read_at d l); [|done]. intros [= <-] k Hk. apply lookup_delete_ne.
  intros ->. auto with amber.
Qed.
Lemma rename_outside d src dst d' :
  rename_at d src dst = Some d' → same_outside (λ k, below src k ∨ below dst k) d d'.
Proof.
  intros H k Hk. rewrite (lookup_rename _ _ _ _ k H).
  rewrite !bool_decide_eq_false_2; [done|intros ?; apply Hk; by left|intros ?; apply Hk; by right].
Qed.

(** ** Directories are kept *)

(** [ready d l]: [l] and everything above it are directories. *)
Definition ready (d : Disk) (l : loc) : Prop := ∀ k, k `prefix_of` l → node_at d k = Some DirNode.
(** What was there is still there. *)
Definition grows (d d' : Disk) : Prop := ∀ k x, d !! k = Some x → d' !! k = Some x.
(** Directories are still directories. *)
Definition keeps_dirs (d d' : Disk) : Prop := ∀ k, d !! k = Some DirNode → d' !! k = Some DirNode.

Lemma keeps_dirs_refl d : keeps_dirs d d.
Proof. by intros k. Qed.
Lemma keeps_dirs_trans d1 d2 d3 : keeps_dirs d1 d2 → keeps_dirs d2 d3 → keeps_dirs d1 d3.
Proof. intros H1 H2 k H. auto. Qed.
Lemma grows_keeps_dirs d d' : grows d d' → keeps_dirs d d'.
Proof. intros H k. apply H. Qed.
Lemma keeps_dirs_node d d' l :
  keeps_dirs d d' → node_at d l = Some DirNode → node_at d' l = Some DirNode.
Proof. intros H. destruct l; [done|]. apply H. Qed.
Lemma keeps_dirs_ready d d' l : keeps_dirs d d' → ready d l → ready d' l.
Proof. intros H Hr k Hk. eapply keeps_dirs_node; eauto. Qed.
#[export] Hint Resolve keeps_dirs_refl grows_keeps_dirs : amber.

Lemma write_at_keeps_dirs d l data d' : write_at d l data = Some d' → keeps_dirs d d'.
Proof.
  unfold write_at. destruct (dir_at d (parent_loc l)); [|done].
  destruct (dir_at d l) eqn:E; [done|]. intros [= <-] k Hk.
  destruct (decide (k = l)) as [->|]; [|by rewrite lookup_insert_ne].
  apply bool_decide_eq_false in E. destruct l; [done|]. by destruct E.
Qed.
Lemma grows_insert_fresh d l x : d !! l = None → grows d (<[l := x]> d).
Proof.
  intros Hl k y Hk. destruct (decide (k = l)) as [->|]; [congruence|]. by rewrite lookup_insert_ne.
Qed.
Lemma node_at_None d l : node_at d l = None → d !! l = None.
Proof. by destruct l. Qed.
Lemma create_dirs_grows d l rest d' : create_dirs d l rest = Some d' → grows d d'.
Proof.
  revert d l. induction rest as [|n rest IH]; intros d l; cbn [create_dirs]; [by intros [= <-] ?|].
  destruct (node_at d (l ++ [n])) as [[]|] eqn:E; [done|apply IH|].
  intros H k x Hk. eapply IH; [exact H|]. by apply (grows_insert_fresh d); [apply node_at_None|].
Qed.
(** Whatever is new is a directory. *)
Definition only_dirs_new (d d' : Disk) : Prop := ∀ k x, d' !! k = Some x → d !! k = Some x ∨ x = DirNode.
#[export] Instance only_dirs_new_preorder : PreOrder only_dirs_new.
Proof.
  split; [by intros d k x; left|]. intros d1 d2 d3 H1 H2 k x H. destruct (H2 k x H); [by apply H1|by right].
Qed.
Lemma create_dirs_new d l rest d' : create_dirs d l rest = Some d' → only_dirs_new d d'.
Proof.
  revert d l. induction rest as [|n rest IH]; intros d l; cbn [create_dirs]; [by intros [= <-]|].
  destruct (node_at d (l ++ [n])) as [[]|]; [done|apply IH|]. intros H. etrans; [|by eapply IH].
  intros k x Hk. apply lookup_insert_Some in Hk as [[_ <-]|[_ Hk]]; auto.
Qed.
Lemma read_at_only_dirs_new d d' l data : only_dirs_new d d' → read_at d' l = Some data → read_at d l = Some data.
Proof.
  intros H. unfold read_at. destruct l as [|x l]; [done|]. unfold node_at.
  destruct (d' !! _) as [y|] eqn:E; [|done]. destruct (H _ _ E) as [-> | ->]; done.
Qed.
Lemma node_at_insert_other d l k x : l ≠ k → k ≠ [] → node_at (<[l := x]> d) k = node_at d k.
Proof. intros Hl Hk. destruct k; [done|]. by apply lookup_insert_ne. Qed.

Lemma node_at_insert_eq d l n x : node_at (<[l ++ [n] := x]> d) (l ++ [n]) = Some x.
Proof. destruct (l ++ [n]) eqn:E; [by destruct l|]. by apply lookup_insert_eq. Qed.
Lemma ready_snoc d l n : ready d l → node_at d (l ++ [n]) = Some DirNode → ready d (l ++ [n]).
Proof.
  intros Hl Hn k [t Ht]. destruct t as [|x t _] using rev_ind; [rewrite app_nil_r in Ht; by subst|].
  rewrite app_assoc in Ht. apply app_inj_tail in Ht as [-> _]. apply Hl. by exists t.
Qed.
Lemma create_dirs_ready d l rest d' :
  create_dirs d l rest = Some d' → ready d l → ready d' (l ++ rest).
Proof.
  revert d l. induction rest as [|n rest IH]; intros d l; cbn [create_dirs].
  { intros [= <-]. by rewrite app_nil_r. }
  rewrite (cons_middle n l rest), (app_assoc l [n] rest).
  destruct (node_at d (l ++ [n])) as [[]|] eqn:E; [done| |]; intros H Hl; eapply IH; try exact H.
  - by apply ready_snoc.
  - apply ready_snoc.
    + eapply keeps_dirs_ready, Hl. by apply grows_keeps_dirs, grows_insert_fresh, node_at_None.
    + apply node_at_insert_eq.
Qed.
Lemma ready_nil d : ready d [].
Proof. intros k Hk. by apply prefix_nil_inv in Hk as ->. Qed.
(** Below a directory that is there, creation starts there. *)
Lemma create_dirs_skip d l pre rest :
  ready d (l ++ pre) → create_dirs d l (pre ++ rest) = create_dirs d (l ++ pre) rest.
Proof.
  revert l. induction pre as [|n pre IH]; intros l Hr; [by rewrite app_nil_r|].
  cbn [app create_dirs]. rewrite (cons_middle n l pre), (app_assoc l [n] pre) in Hr |- *.
  rewrite (Hr (l ++ [n])) by (by eexists). by apply IH.
Qed.

(** Creating directories under one that is there touches nothing above it. *)
Lemma create_below_outside d l rest d' :
  ready d l → create_dir_all_at d (l ++ rest) = Some d' → same_outside (below l) d d'.
Proof.
  unfold create_dir_all_at. intros Hr. rewrite create_dirs_skip by done. cbn [app]. intros H k Hk.
  apply (create_dirs_outside _ _ _ _ H). intros [Hp Hl]. apply Hk.
  destruct (prefix_weak_total l k (l ++ rest)) as [?|Hkl]; [by apply prefix_app_r|done|done|].
  apply prefix_length in Hkl. lia.
Qed.

Lemma create_ready d l : ready d l → create_dir_all_at d l = Some d.
Proof.
  intros Hr. unfold create_dir_all_at. rewrite <-(app_nil_r l). by rewrite create_dirs_skip.
Qed.
Lemma ready_prefix d l k : k `prefix_of` l → ready d l → ready d k.
Proof. intros Hk Hr j Hj. apply Hr. by etrans. Qed.
Lemma parent_loc_prefix l : parent_loc l `prefix_of` l.
Proof. apply prefix_take. Qed.

(** What unpacking under [l] may do. *)
Definition unpacks (l : loc) (d d' : Disk) : Prop :=
  ready d l → same_outside (below l) d d' ∧ keeps_dirs d d'.
#[export] Instance unpacks_preorder l : PreOrder (unpacks l).
Proof.
  split; [by split; auto with amber|]. intros d1 d2 d3 H1 H2 Hr. destruct (H1 Hr) as [H1s H1k].
  destruct H2 as [H2s H2k]; [by eapply keeps_dirs_ready|].
  split; [by eapply same_outside_trans|by eapply keeps_dirs_trans].
Qed.
Lemma create_unpacks l names d d' : create_dir_all_at d (l ++ names) = Some d' → unpacks l d d'.
Proof.
  intros H Hr. split; [by eapply create_below_outside|]. by eapply grows_keeps_dirs, create_dirs_grows.
Qed.
Lemma create_parent_unpacks l names d d' :
  create_dir_all_at d (parent_loc (l ++ names)) = Some d' → unpacks l d d'.
Proof.
  intros H. destruct names as [|n names _] using rev_ind.
  - intros Hr. rewrite app_nil_r, create_ready in H; [injection H as <-; auto with amber|].
    eapply ready_prefix, Hr. apply parent_loc_prefix.
  - rewrite app_assoc, parent_loc_snoc in H. by apply create_unpacks in H.
Qed.
Lemma write_unpacks l names data d d' : write_at d (l ++ names) data = Some d' → unpacks l d d'.
Proof.
  intros H _. split; [|by eapply write_at_keeps_dirs]. intros k Hk. apply (write_at_outside _ _ _ _ H).
  intros Hb. apply Hk. by eapply prefix_app_l.
Qed.
#[export] Hint Resolve create_unpacks create_parent_unpacks write_unpacks : amber.

(** ** The same tree in two places *)

(** Under [l1] on one disk and [l2] on another lies the same. *)
Definition agree (l1 l2 : loc) (d1 d2 : Disk) : Prop := ∀ k, d1 !! (l1 ++ k) = d2 !! (l2 ++ k).
Lemma agree_node l1 l2 d1 d2 k :
  l1 ≠ [] → l2 ≠ [] → agree l1 l2 d1 d2 → node_at d1 (l1 ++ k) = node_at d2 (l2 ++ k).
Proof. intros H1 H2 H. specialize (H k). by destruct l1, l2. Qed.
Lemma agree_at_insert l1 l2 d1 d2 k x :
  agree l1 l2 d1 d2 → agree l1 l2 (<[l1 ++ k := x]> d1) (<[l2 ++ k := x]> d2).
Proof.
  intros H k'. destruct (decide (k = k')) as [->|]; [by rewrite !lookup_insert_eq|].
  rewrite !lookup_insert_ne; [done|intros ?%app_inv_head; done..].
Qed.
Definition agree_opt (l1 l2 : loc) (o1 o2 : option Disk) : Prop :=
  match o1, o2 with Some d1, Some d2 => agree l1 l2 d1 d2 | None, None => True | _, _ => False end.
Lemma create_dirs_agree l1 l2 d1 d2 k rest :
  l1 ≠ [] → l2 ≠ [] → agree l1 l2 d1 d2 →
  agree_opt l1 l2 (create_dirs d1 (l1 ++ k) rest) (create_dirs d2 (l2 ++ k) rest).
Proof.
  intros H1 H2. revert d1 d2 k. induction rest as [|n rest IH]; intros d1 d2 k H; [done|].
  cbn [create_dirs]. rewrite <-!app_assoc, (agree_node l1 l2 d1 d2) by done.
  destruct (node_at d2 (l2 ++ k ++ [n])) as [[]|]; [done|by apply IH|].
  by apply IH, agree_at_insert.
Qed.
Lemma parent_loc_app l k : k ≠ [] → parent_loc (l ++ k) = l ++ parent_loc k.
Proof.
  destruct k as [|n k _] using rev_ind; [done|]. intros _. by rewrite app_assoc, !parent_loc_snoc.
Qed.
Lemma write_at_agree l1 l2 d1 d2 k data :
  l1 ≠ [] → l2 ≠ [] → k ≠ [] → agree l1 l2 d1 d2 →
  agree_opt l1 l2 (write_at d1 (l1 ++ k) data) (write_at d2 (l2 ++ k) data).
Proof.
  intros H1 H2 Hk H. unfold write_at, dir_at. rewrite !parent_loc_app by done.
  rewrite !(agree_node l1 l2 d1 d2) by done. destruct (_ && _); [|done]. by apply agree_at_insert.
Qed.

Lemma create_agree l1 l2 d1 d2 names :
  l1 ≠ [] → l2 ≠ [] → ready d1 l1 → ready d2 l2 → agree l1 l2 d1 d2 →
  agree_opt l1 l2 (create_dir_all_at d1 (l1 ++ names)) (create_dir_all_at d2 (l2 ++ names)).
Proof.
  intros H1 H2 Hr1 Hr2 H. unfold create_dir_all_at. rewrite !create_dirs_skip by done. cbn [app].
  pose proof (create_dirs_agree l1 l2 d1 d2 [] names H1 H2 H) as Hc. by rewrite !app_nil_r in Hc.
Qed.
Lemma write_ready d l data : ready d l → write_at d l data = None.
Proof.
  intros Hr. unfold write_at, dir_at. rewrite (bool_decide_eq_true_2 (node_at d l = _)) by (by apply Hr).
  by rewrite andb_false_r.
Qed.

(** ** Well-formed disks *)

(** Everything lies in a directory. *)
Definition wf_disk (d : Disk) : Prop := ∀ l n x, d !! (l ++ [n]) = Some x → node_at d l = Some DirNode.
Lemma wf_ready d l : wf_disk d → node_at d l = Some DirNode → ready d l.
Proof.
  intros Hwf. induction l as [|n l IH] using rev_ind; intros Hl; [apply ready_nil|].
  apply ready_snoc; [|done]. apply IH. apply (Hwf l n DirNode). by destruct (l ++ [n]) eqn:E; [destruct l|].
Qed.
(** Keeping the directories that something lies in keeps a disk well formed. *)
Lemma wf_insert d l n x :
  wf_disk d → node_at d l = Some DirNode → node_at d (l ++ [n]) ≠ Some DirNode ∨ x = DirNode →
  wf_disk (<[l ++ [n] := x]> d).
Proof.
  intros Hwf Hl Hx k m y Hk.
  assert (node_at d k = Some DirNode) as Hd.
  { destruct (decide (l ++ [n] = k ++ [m])) as [E|]; [by apply app_inj_tail in E as [-> _]|].
    rewrite lookup_insert_ne in Hk by done. by eapply Hwf. }
  destruct (decide (k = l ++ [n])) as [->|Hkl].
  - rewrite node_at_insert_eq. destruct Hx as [Hx| ->]; [by destruct Hx|done].
  - destruct k; [done|]. unfold node_at in *. by rewrite lookup_insert_ne.
Qed.
Lemma wf_create_dirs d l rest d' :
  wf_disk d → node_at d l = Some DirNode → create_dirs d l rest = Some d' → wf_disk d'.
Proof.
  revert d l. induction rest as [|n rest IH]; intros d l Hwf Hl; cbn [create_dirs]; [by intros [= <-]|].
  destruct (node_at d (l ++ [n])) as [[]|] eqn:E; [done|by apply IH|].
  apply IH; [|by apply node_at_insert_eq]. apply wf_insert; [done|done|by right].
Qed.
Lemma wf_create_dir_all d l d' : wf_disk d → create_dir_all_at d l = Some d' → wf_disk d'.
Proof. intros H. by apply wf_create_dirs. Qed.
Lemma wf_write_at d l data d' : wf_disk d → write_at d l data = Some d' → wf_disk d'.
Proof.
  unfold write_at, dir_at. intros Hwf. destruct l as [|n l _] using rev_ind; [by rewrite andb_false_r|].
  rewrite parent_loc_snoc. case_bool_decide as Hp; [|done]. case_bool_decide as Hd; [done|]. intros [= <-].
  apply wf_insert; [done|done|by left].
Qed.
Lemma wf_remove_file d l d' : wf_disk d → remove_file_at d l = Some d' → wf_disk d'.
Proof.
  unfold remove_file_at, read_at. intros Hwf. destruct (node_at d l) as [[data|]|] eqn:E; try done.
  intros [= <-] k m y Hk. apply lookup_delete_Some in Hk as [_ Hk]. apply Hwf in Hk.
  destruct k; [done|]. unfold node_at in *. rewrite lookup_delete_ne; [done|]. intros ->. congruence.
Qed.
#[export] Hint Resolve wf_create_dir_all wf_write_at wf_remove_file : amber.
