(* ===== verification/PackageManager.v ===== *)
(** * The installer behind [amber install], [src/package_manager.rs]

    Resolving, downloading, verifying and unpacking packages, the lock file,
    and pruning.  The functions keep their names and their order of effects; they run in
    the monad [M], which threads the disk, the permission state and a count of
    [curl] runs, stops at the first error, and has a third outcome, [None], for a
    computation that recurses deeper than its fuel.  What the registry answers,
    the JSON and archive formats, the hash functions and the orders the operating
    system and [HashMap] choose are the fields of [World]. *)

From S2P Require Import Prelude Json RustPath DiskFs Permissions Semver.

(** ** Data *)

Record PackageManagerConfig := {
  registry_url : rstr;
  cache_dir : path;
  node_modules_dir : path;
}.
Definition default_config : PackageManagerConfig := {|
  registry_url := "https://registry.npmjs.org/";
  cache_dir := components ".amberjs_cache";
  node_modules_dir := components "node_modules" |}.

(** A [HashMap] from names to ranges. *)
Abbreviation Ranges := (gmap rstr rstr).
Record PackageJson := {
  pkg_name : rstr;
  pkg_version : rstr;
  description : option rstr;
  main : option rstr;
  scripts : option Ranges;
  dependencies : option Ranges;
  dev_dependencies : option Ranges;
  peer_dependencies : option Ranges;
  optional_dependencies : option Ranges;
  author : option Json;
  license : option rstr;
  repository : option Json;
}.
Definition with_dependencies (p : PackageJson) (deps dev : option Ranges) : PackageJson := {|
  pkg_name := pkg_name p; pkg_version := pkg_version p; description := description p;
  main := main p; scripts := scripts p; dependencies := deps; dev_dependencies := dev;
  peer_dependencies := peer_dependencies p; optional_dependencies := optional_dependencies p;
  author := author p; license := license p; repository := repository p |}.
Record PackageVersion := { name : rstr; version : rstr }.
Record ResolutionResult := {
  package : PackageVersion;
  result_path : path;
  resolved : bool;
  integrity : option rstr;
  tarball_url : option rstr;
}.
Record DownloadedPackage := {
  downloaded_path : path;
  downloaded_integrity : option rstr;
  downloaded_url : rstr;
}.
Inductive LockedDependency := Locked {
  locked_version : rstr;
  locked_resolved : option rstr;
  locked_integrity : option rstr;
  locked_dev : option bool;
  locked_dependencies : option (list (rstr * LockedDependency));
}.
Record PackageLock := {
  lock_name : rstr;
  lock_version : rstr;
  lockfile_version : Z;
  requires : bool;
  lock_dependencies : option (gmap rstr LockedDependency);
}.
Inductive InstalledPackage := Installed {
  inst_name : rstr;
  inst_version : rstr;
  inst_resolved : option rstr;
  inst_integrity : option rstr;
  inst_dev : bool;
  inst_dependencies : list InstalledPackage;
}.

(** *** The derived parsers

    [#[derive(Deserialize)]] with the attributes of the fields; unknown fields
    are skipped. *)
Definition opt_field {A} (conv : Json → option A) (v : option Json) : option (option A) :=
  match v with None | Some JNull => Some None | Some v => Some <$> conv v end.
(** A field with an alias: both at once are refused. *)
Definition field (m : list (rstr * Json)) (key alias : rstr) : option (option Json) :=
  match map_get m key, map_get m alias with
  | Some _, Some _ => None
  | Some v, None | None, Some v => Some (Some v)
  | None, None => Some None
  end.
Definition string_map (v : Json) : option Ranges :=
  m ← as_object v;
  kvs ← mapM (λ kv, (λ s, (kv.1, s)) <$> as_str kv.2) m;
  Some (fold_left (λ acc kv, <[kv.1 := kv.2]> acc) kvs (∅ : Ranges)).
Definition package_of_json (v : Json) : option PackageJson :=
  m ← as_object v;
  name ← map_get m "name" ≫= as_str;
  version ← map_get m "version" ≫= as_str;
  description ← opt_field as_str (map_get m "description");
  main ← opt_field as_str (map_get m "main");
  scripts ← opt_field string_map (map_get m "scripts");
  deps ← opt_field string_map (map_get m "dependencies");
  dev ← field m "devDependencies" "dev_dependencies";
  dev ← opt_field string_map dev;
  peer ← field m "peerDependencies" "peer_dependencies";
  peer ← opt_field string_map peer;
  optional ← field m "optionalDependencies" "optional_dependencies";
  optional ← opt_field string_map optional;
  author ← opt_field Some (map_get m "author");
  license ← opt_field as_str (map_get m "license");
  repository ← opt_field Some (map_get m "repository");
  Some {| pkg_name := name; pkg_version := version; description := description; main := main;
          scripts := scripts; dependencies := deps; dev_dependencies := dev; peer_dependencies := peer;
          optional_dependencies := optional; author := author; license := license;
          repository := repository |}.

Definition as_bool (v : Json) : option bool := match v with JBool b => Some b | _ => None end.
Fixpoint locked_of_json (v : Json) : option LockedDependency :=
  match v with
  | JObject m =>
      version ← map_get m "version" ≫= as_str;
      resolved ← opt_field as_str (map_get m "resolved");
      integrity ← opt_field as_str (map_get m "integrity");
      dev ← opt_field as_bool (map_get m "dev");
      deps ← (fix find (m : list (rstr * Json)) : option (option (list (rstr * LockedDependency))) :=
        match m with
        | [] => Some None
        | (k, v) :: m =>
            if bool_decide (k = "dependencies") then
              match v with
              | JNull => Some None
              | JObject m' => Some <$>
                  (fix all (m' : list (rstr * Json)) : option (list (rstr * LockedDependency)) :=
                     match m' with
                     | [] => Some []
                     | (k, v) :: m' => d ← locked_of_json v; rest ← all m'; Some ((k, d) :: rest)
                     end) m'
              | _ => None
              end
            else find m
        end) m;
      Some (Locked version resolved integrity dev deps)
  | _ => None
  end.
Definition locked_map (v : Json) : option (gmap rstr LockedDependency) :=
  m ← as_object v;
  kvs ← mapM (λ kv, (λ d, (kv.1, d)) <$> locked_of_json kv.2) m;
  Some (fold_left (λ acc kv, <[kv.1 := kv.2]> acc) kvs ∅).
Definition as_u32 (v : Json) : option Z :=
  n ← as_u64 v; if bool_decide (n ≤ U32_MAX)%Z then Some n else None.
Definition lock_of_json (v : Json) : option PackageLock :=
  m ← as_object v;
  name ← map_get m "name" ≫= as_str;
  version ← map_get m "version" ≫= as_str;
  lockfile_version ← match map_get m "lockfileVersion" with None => Some 0%Z | Some v => as_u32 v end;
  requires ← match map_get m "requires" with None => Some false | Some v => as_bool v end;
  deps ← opt_field locked_map (map_get m "dependencies");
  Some {| lock_name := name; lock_version := version; lockfile_version := lockfile_version;
          requires := requires; lock_dependencies := deps |}.

(** [anyhow::Error]: a denial, the fixed text of a message up to the first value
    in it, or such a text in front of another error. *)
Inductive PmError :=
  | PermissionDenied (e : PermissionError)
  | Failed (text : rstr)
  | Wrapped (text : rstr) (e : PmError).

(** [tar::EntryType], as far as the code tells types apart, and an entry; the
    path and the data of an entry can fail to be read. *)
Inductive EntryType := RegularFile | Directory | OtherType.
Record Entry := { entry_path : option path; entry_type : EntryType; entry_data : option rstr }.

Record World := {
  host : Host;                       (* for the permission checks *)
  url_host : rstr → option rstr;
  clock : PermState → rstr;
  cwd : loc;
  (* the n-th run of curl: [None] when it cannot be started; a failing status or
     what it printed *)
  curl : nat → rstr → option (option rstr);
  (* the same with [-o file]: what is in the file afterwards, and the status *)
  curl_to : nat → rstr → option (option rstr * bool);
  from_str : rstr → option Json;     (* serde_json *)
  print_package : PackageJson → rstr;
  print_lock : PackageLock → rstr;
  print_meta : option rstr → option rstr → rstr;
  sha512 : rstr → rstr;
  sha384 : rstr → rstr;
  sha256 : rstr → rstr;
  sha1 : rstr → rstr;
  base64_decode : rstr → option rstr;
  (* the entries of a gzipped archive up to the first that cannot be read *)
  untar : rstr → option (list (option Entry));
  temp_name : Disk → loc → rstr;     (* tempfile's random name *)
  (* a removal of a tree that fails half-way: the places it leaves *)
  removal_stops : Disk → loc → option (list loc);
  rename_refused : Disk → loc → loc → bool;
  dir_order : list rstr → list rstr; (* of [read_dir] *)
  hash_order : Ranges → list (rstr * rstr);  (* of [HashMap::iter] *)
}.

(** ** State and monad *)

Record PmState := { disk : Disk; perms : PermState; curls : nat }.
Definition with_disk (s : PmState) (d : Disk) : PmState :=
  {| disk := d; perms := perms s; curls := curls s |}.
Definition with_perms (s : PmState) (p : PermState) : PmState :=
  {| disk := disk s; perms := p; curls := curls s |}.
Definition ran_curl (s : PmState) : PmState :=
  {| disk := disk s; perms := perms s; curls := S (curls s) |}.

Definition M (A : Type) : Type := PmState → option (PmState * result A PmError).
#[export] Instance M_ret : MRet M := λ A a s, Some (s, Ok a).
#[export] Instance M_bind : MBind M := λ A B f m s,
  match m s with
  | Some (s', Ok a) => f a s'
  | Some (s', Err e) => Some (s', Err e)
  | None => None
  end.
Definition throw {A} (e : PmError) : M A := λ s, Some (s, Err e).
Definition fail {A} (text : rstr) : M A := throw (Failed text).
(** [option.ok_or(anyhow!(text))?] *)
Definition ok_or {A} (o : option A) (text : rstr) : M A :=
  match o with Some a => mret a | None => fail text end.
(** [m.map_err(|e| anyhow!(text, e))?] *)
Definition map_err {A} (text : rstr) (m : M A) : M A := λ s,
  match m s with
  | Some (s', Err e) => Some (s', Err (Wrapped text e))
  | r => r
  end.
(** The outcome as a value: [match m { Ok(..) .. Err(..) .. }]. *)
Definition attempt {A} (m : M A) : M (result A PmError) := λ s,
  match m s with Some (s', r) => Some (s', Ok r) | None => None end.
Definition get_disk : M Disk := λ s, Some (s, Ok (disk s)).
(** A disk operation that may fail. *)
Definition on_disk (f : Disk → option Disk) (text : rstr) : M unit := λ s,
  match f (disk s) with
  | Some d => Some (with_disk s d, Ok tt)
  | None => Some (s, Err (Failed text))
  end.
(** The same with its error dropped, [let _ = ...]. *)
Definition on_disk_ignored (f : Disk → option Disk) : M unit := λ s,
  Some (with_disk s ((f (disk s)) .unwrap_or (disk s)), Ok tt).
Fixpoint for_each {A} (l : list A) (f : A → M unit) : M unit :=
  match l with [] => mret tt | x :: l => _ ← f x; for_each l f end.
Definition when (b : bool) (m : M unit) : M unit := if b then m else mret tt.

(** ** Archives and hashes *)

Definition is_file_type (t : EntryType) : bool := match t with RegularFile => true | _ => false end.
Definition is_dir_type (t : EntryType) : bool := match t with Directory => true | _ => false end.

Fixpoint push_parts (relative : path) (cs : path) : result path PmError :=
  match cs with
  | [] => Ok relative
  | Normal part :: cs => push_parts (relative ++ [Normal part]) cs
  | CurDir :: cs => push_parts relative cs
  | _ :: _ => Err (Failed "Unsafe package archive entry path escapes package directory: ")
  end.
Definition validate_package_archive_path (p : path) (t : EntryType) : result path PmError :=
  if is_absolute p then Err (Failed "Unsafe package archive entry uses absolute path: ")
  else if negb (is_file_type t || is_dir_type t)
  then Err (Failed "Unsupported package archive entry type ")
  else match p with
       | Normal prefix :: cs =>
           if bool_decide (prefix = "package") then push_parts [] cs
           else Err (Failed "Package archive entry is outside package/ prefix: ")
       | _ => Err (Failed "Package archive entry is outside package/ prefix: ")
       end.

(** [hex::encode] *)
Definition hex_digit (n : N) : ascii :=
  if bool_decide (n < 10)%N then ascii_of_N (48 + n) else ascii_of_N (87 + n).
Definition hex_encode (s : rstr) : rstr :=
  mjoin ((λ c, let n := N_of_ascii c in [hex_digit (n / 16); hex_digit (n mod 16)]) <$> s).

Definition non_empty (o : option rstr) : option rstr :=
  s ← o; if bool_decide (trim s = []) then None else Some s.

Section pm.
Context (w : World) (config : PackageManagerConfig).
(** [serde_json::from_str] at the two types. *)
Definition parse_package (text : rstr) : option PackageJson := from_str w text ≫= package_of_json.
Definition parse_lock (text : rstr) : option PackageLock := from_str w text ≫= lock_of_json.

(** The loop of [verify_sri_integrity]: whether a token matches, and whether one
    with a known algorithm was seen. *)
Fixpoint sri_tokens (bytes : rstr) (tokens : list rstr) (saw_supported : bool) : result bool PmError :=
  match tokens with
  | [] => Err (Failed (if saw_supported then "Package integrity mismatch for "
                       else "Unsupported package integrity algorithm(s): "))
  | token :: tokens =>
      match split_once "-" token with
      | None => sri_tokens bytes tokens saw_supported
      | Some (algorithm, expected_b64) =>
          let actual :=
            if bool_decide (algorithm = "sha512") then Some (sha512 w bytes)
            else if bool_decide (algorithm = "sha384") then Some (sha384 w bytes)
            else if bool_decide (algorithm = "sha256") then Some (sha256 w bytes)
            else if bool_decide (algorithm = "sha1") then Some (sha1 w bytes) else None in
          match actual with
          | None => sri_tokens bytes tokens saw_supported
          | Some actual =>
              match base64_decode w expected_b64 with
              | None => Err (Failed "Failed to decode package integrity: ")
              | Some expected =>
                  if bool_decide (actual = expected) then Ok true else sri_tokens bytes tokens true
              end
          end
      end
  end.
Definition verify_sri_integrity (bytes : option rstr) (integrity : rstr) : result unit PmError :=
  match bytes with
  | None => Err (Failed "Failed to read tarball for integrity verification: ")
  | Some bytes => _ ← sri_tokens bytes (split_whitespace integrity) false; Ok tt
  end.
Definition verify_sha1_shasum (bytes : option rstr) (shasum : rstr) : result unit PmError :=
  match bytes with
  | None => Err (Failed "Failed to read tarball for shasum verification: ")
  | Some bytes =>
      if bool_decide (to_lowercase (hex_encode (sha1 w bytes)) = to_lowercase (trim shasum))
      then Ok tt else Err (Failed "Package shasum mismatch for ")
  end.
(** [verify_package_tarball]; [bytes] is what is read of the file. *)
Definition verify_package_tarball (bytes : option rstr) (integrity shasum : option rstr) :
    result unit PmError :=
  match non_empty integrity, non_empty shasum with
  | Some integrity, _ => verify_sri_integrity bytes integrity
  | None, Some shasum => verify_sha1_shasum bytes shasum
  | None, None => Err (Failed "Package metadata missing integrity or shasum; refusing untrusted tarball")
  end.

Definition validate_locked_dependency_dist (version : rstr) (locked : option LockedDependency)
    (registry_tarball_url : rstr) (registry_integrity : option rstr) : result unit PmError :=
  match locked with
  | None => Ok tt
  | Some locked =>
      if negb (bool_decide (trim (locked_version locked) = version))
      then Err (Failed "package-lock.json version mismatch for package '")
      else if match non_empty (locked_resolved locked) with
              | Some r => negb (bool_decide (trim r = registry_tarball_url)) | None => false end
      then Err (Failed "package-lock.json resolved mismatch for package '")
      else if match non_empty (locked_integrity locked), non_empty registry_integrity with
              | Some l, Some r => negb (bool_decide (trim l = trim r)) | _, _ => false end
      then Err (Failed "package-lock.json integrity mismatch for package '")
      else Ok tt
  end.

(** ** Permission checks *)

Definition check_permission (k : PermissionKind) (a : PermissionAction) (r : ResourceId) : M unit := λ s,
  let '(p, verdict) := check_global_permission (host w) (url_host w) (clock w (perms s)) (perms s) k a r in
  Some (with_perms s p, match verdict with Ok _ => Ok tt | Err e => Err (PermissionDenied e) end).
Definition check_fs_read_permission (p : path) : M unit := check_permission FileSystem Read (Path p).
Definition check_fs_write_permission (p : path) : M unit := check_permission FileSystem Write (Path p).
Definition check_network_connect_permission (url : rstr) : M unit := check_permission Network Connect (Url url).
Definition check_process_execute_permission (command : rstr) : M unit :=
  check_permission Process Execute (Name command).

Definition at_ (p : path) : loc := locate (cwd w) p.
Definition exists_ (p : path) : M bool := d ← get_disk; mret (exists_at d (at_ p)).
Definition is_dir_ (p : path) : M bool := d ← get_disk; mret (dir_at d (at_ p)).
Definition create_dir_all (p : path) (text : rstr) : M unit :=
  on_disk (λ d, create_dir_all_at d (at_ p)) text.
Definition read_file (p : path) (text : rstr) : M rstr := d ← get_disk; ok_or (read_at d (at_ p)) text.
Definition write_file (p : path) (data text : rstr) : M unit := on_disk (λ d, write_at d (at_ p) data) text.
(** [base.join(s)] *)
Definition join_str (base : path) (s : rstr) : path := path_join base (components s).

(** [PackageManager::new] *)
Definition new : M unit :=
  _ ← check_fs_write_permission (cache_dir config);
  _ ← check_fs_write_permission (node_modules_dir config);
  have ← exists_ (cache_dir config);
  _ ← when (negb have) (create_dir_all (cache_dir config) "Failed to create cache directory: ");
  have ← exists_ (node_modules_dir config);
  when (negb have) (create_dir_all (node_modules_dir config) "Failed to create node_modules directory: ").

(** ** The registry *)

Definition trim_end_slashes (s : rstr) : rstr :=
  rev (trim_with (λ t, if starts_with [slash] t then 1 else 0) (length s) (rev s)).
Definition run_curl (url : rstr) : M (option (option rstr)) := λ s,
  Some (ran_curl s, Ok (curl w (curls s) url)).

Definition fetch_package_info (name : rstr) : M Json :=
  let url := trim_end_slashes (registry_url config) ++ slash :: name in
  _ ← check_network_connect_permission url;
  _ ← check_process_execute_permission "curl";
  output ← run_curl url;
  output ← ok_or output "Failed to execute curl: ";
  response ← ok_or output "Failed to fetch package info: ";
  ok_or (from_str w response) "Failed to parse package info: ".

(** [curl -o tarball_path tarball_url] *)
Definition run_curl_to (url : rstr) (p : path) : M unit := λ s,
  match curl_to w (curls s) url with
  | None => Some (ran_curl s, Err (Failed "Failed to download tarball: "))
  | Some (written, status) =>
      let after := match written with Some data => write_at (disk s) (at_ p) data | None => Some (disk s) end in
      match after with
      | Some d => Some (ran_curl (with_disk s d),
                        if status then Ok tt else Err (Failed "Failed to download tarball: "))
      | None => Some (ran_curl s, Err (Failed "Failed to download tarball: "))
      end
  end.

Definition verify_at (p : path) (integrity shasum : option rstr) : M (result unit PmError) :=
  d ← get_disk; mret (verify_package_tarball (read_at d (at_ p)) integrity shasum).
Definition lift {A} (r : result A PmError) : M A := λ s, Some (s, r).

(** The end of [download_package_with_locked_dependency]: fetch the file unless
    a cached one verifies. *)
Definition download_verified (cached_path package_cache_dir : path) (tarball_url : rstr)
    (verification_integrity verification_shasum : option rstr) : M unit :=
  _ ← check_fs_write_permission package_cache_dir;
  have ← exists_ package_cache_dir;
  _ ← when (negb have) (create_dir_all package_cache_dir "Failed to create cache directory: ");
  _ ← check_fs_write_permission cached_path;
  _ ← run_curl_to tarball_url cached_path;
  verdict ← verify_at cached_path verification_integrity verification_shasum;
  match verdict with
  | Ok _ => mret tt
  | Err e => _ ← on_disk_ignored (λ d, remove_file_at d (at_ cached_path)); throw e
  end.

Definition download_package_with_locked_dependency (name version : rstr)
    (locked : option LockedDependency) : M DownloadedPackage :=
  let package_cache_dir := join_str (cache_dir config) name in
  let cached_path := join_str package_cache_dir (version ++ ".tgz") in
  info ← fetch_package_info name;
  versions ← ok_or (json_get info "versions") "No versions found";
  version_info ← ok_or (json_get versions version) "Version ";
  dist ← ok_or (json_get version_info "dist") "No dist metadata found";
  tarball_url ← ok_or (json_get dist "tarball" ≫= as_str) "No tarball URL found";
  _ ← check_network_connect_permission tarball_url;
  _ ← check_process_execute_permission "curl";
  let integrity := json_get dist "integrity" ≫= as_str in
  let shasum := json_get dist "shasum" ≫= as_str in
  _ ← lift (validate_locked_dependency_dist version locked tarball_url integrity);
  let locked_integrity := l ← locked; non_empty (locked_integrity l) in
  let verification_integrity := match locked_integrity with Some i => Some i | None => integrity end in
  let verification_shasum := match locked_integrity with Some _ => None | None => shasum end in
  let downloaded := {| downloaded_path := cached_path; downloaded_integrity := integrity;
                       downloaded_url := tarball_url |} in
  cached ← exists_ cached_path;
  fresh ← (if cached : bool
           then verdict ← verify_at cached_path verification_integrity verification_shasum;
                match verdict with
                | Ok _ => mret false
                | Err _ => _ ← on_disk_ignored (λ d, remove_file_at d (at_ cached_path)); mret true
                end
           else mret true);
  _ ← when fresh (download_verified cached_path package_cache_dir tarball_url
                    verification_integrity verification_shasum);
  mret downloaded.
Definition download_package (name version : rstr) : M path :=
  d ← download_package_with_locked_dependency name version None; mret (downloaded_path d).

(** ** Unpacking *)

(** [TempDir]'s drop, on every way out of [m]. *)
Definition with_tempdir {A} (root : loc) (m : M A) : M A := λ s,
  match m s with
  | Some (s', r) => Some (with_disk s' ((remove_dir_all_at (disk s') root) .unwrap_or (disk s')), r)
  | None => None
  end.

(** One round of the loop over the entries. *)
Definition unpack_entry (staging : loc) (e : option Entry) : M unit :=
  entry ← ok_or e "Failed to read entry: ";
  entry_path ← ok_or (entry_path entry) "";
  stripped_path ← lift (validate_package_archive_path entry_path (entry_type entry));
  let target := locate staging stripped_path in
  if is_dir_type (entry_type entry)
  then on_disk (λ d, create_dir_all_at d target) "Failed to create directory: "
  else
    d ← get_disk;
    _ ← when (negb (exists_at d (parent_loc target)))
          (on_disk (λ d, create_dir_all_at d (parent_loc target)) "Failed to create parent: ");
    data ← ok_or (entry_data entry) "Failed to unpack entry: ";
    on_disk (λ d, write_at d target data) "Failed to unpack entry: ".

(** What a removal of [l] that failed leaves: [l] itself and the way to the places [kept]. *)
Definition partly_removed (d : Disk) (l : loc) (kept : list loc) : Disk :=
  filter (λ kx, ¬ l `prefix_of` kx.1 ∨ Exists (λ p, kx.1 `prefix_of` p) (l :: kept)) d.
(** The swap: the installed package goes, then the staging directory takes its
    place.  Either can fail, the removal after it removed part of the package. *)
Definition remove_installed (target : loc) : M unit := λ s,
  match (if dir_at (disk s) target then removal_stops w (disk s) target else None) with
  | Some kept => Some (with_disk s (partly_removed (disk s) target kept),
                       Err (Failed "Failed to remove existing package: "))
  | None => on_disk (λ d, remove_dir_all_at d target) "Failed to remove existing package: " s
  end.
Definition move_into_place (staging target : loc) : M unit :=
  on_disk (λ d, if rename_refused w d staging target then None else rename_at d staging target)
    "Failed to move verified package into place: ".

(** [extract_package] from the staging directory on. *)
Definition unpack_and_replace (tarball_path target_dir : path) (staging_root : loc) : M path :=
  let staging_dir := staging_root ++ [("package" : rstr)] in
  _ ← on_disk (λ d, create_dir_all_at d staging_dir) "Failed to create package staging root: ";
  tarball ← read_file tarball_path "Failed to open tarball: ";
  entries ← ok_or (untar w tarball) "Failed to read archive: ";
  _ ← for_each entries (unpack_entry staging_dir);
  have ← exists_ target_dir;
  _ ← when have (remove_installed (at_ target_dir));
  _ ← move_into_place staging_dir (at_ target_dir);
  mret target_dir.

Definition extract_package (tarball_path : path) (package_name : rstr) : M path :=
  _ ← check_fs_read_permission tarball_path;
  let target_dir := join_str (node_modules_dir config) package_name in
  _ ← check_fs_write_permission target_dir;
  _ ← match parent target_dir with
      | Some parent =>
          _ ← check_fs_write_permission parent;
          have ← exists_ parent;
          when (negb have) (create_dir_all parent "Failed to create parent directory: ")
      | None => mret tt
      end;
  target_parent ← ok_or (parent target_dir) "Package target has no parent: ";
  d ← get_disk;
  let staging_root := at_ target_parent ++ [temp_name w d (at_ target_parent)] in
  _ ← on_disk (λ d, if dir_at d (at_ target_parent) && negb (exists_at d staging_root)
                    then Some (<[staging_root := DirNode]> d) else None)
        "Failed to create package staging directory: ";
  with_tempdir staging_root (unpack_and_replace tarball_path target_dir staging_root).

(** ** Resolving a range against the registry *)

Definition resolve_version (name version_range : rstr) : M rstr :=
  info ← fetch_package_info name;
  if bool_decide (version_range = "latest") then
    dist_tags ← ok_or (json_get info "dist-tags") "No dist-tags found";
    dist_tags ← ok_or (as_object dist_tags) "Invalid dist-tags format";
    latest ← ok_or (map_get dist_tags "latest") "No 'latest' tag found";
    ok_or (as_str latest) "Invalid latest tag format"
  else
    versions ← ok_or (json_get info "versions") "No versions found";
    versions ← ok_or (as_object versions) "Invalid versions format";
    let all_versions := versions.*1 in
    mret (
      if starts_with "^" version_range then resolve_caret_range all_versions (drop 1 version_range)
      else if starts_with "~" version_range then resolve_tilde_range all_versions (drop 1 version_range)
      else if starts_with ">=" version_range then resolve_greater_than all_versions (drop 2 version_range)
      else if starts_with ">" version_range then resolve_greater_than all_versions (drop 1 version_range)
      else if starts_with "<=" version_range then resolve_less_than all_versions (drop 2 version_range)
      else if starts_with "<" version_range then resolve_less_than all_versions (drop 1 version_range)
      else version_range).

(** ** Installing *)

Definition check_package_install_write_permissions (package_name : rstr) : M unit :=
  _ ← check_fs_write_permission (node_modules_dir config);
  let target_dir := join_str (node_modules_dir config) package_name in
  _ ← match parent target_dir with
      | Some parent => check_fs_write_permission parent | None => mret tt end;
  check_fs_write_permission target_dir.

Definition meta_path (package_dir : path) : path := join_str package_dir ".amberjs-integrity.json".
Definition write_package_integrity_meta (package_dir : path) (integrity tarball_url : option rstr) : M unit :=
  _ ← check_fs_write_permission (meta_path package_dir);
  write_file (meta_path package_dir) (print_meta w integrity tarball_url)
    "Failed to write integrity metadata: ".
Definition read_package_integrity_meta (package_dir : path) : M (option rstr * option rstr) :=
  d ← get_disk;
  mret match read_at d (at_ (meta_path package_dir)) ≫= from_str w with
       | Some v => (json_get v "integrity" ≫= as_str, json_get v "resolved" ≫= as_str)
       | None => (None, None)
       end.

Definition parse_package_json (p : path) : M PackageJson :=
  _ ← check_fs_read_permission p;
  content ← read_file p "Failed to read package.json: ";
  ok_or (parse_package content) "Failed to parse package.json: ".

(** The version to install: the locked one, if the request admits it. *)
Definition version_to_install (name version_range : rstr) (locked : option LockedDependency) : M rstr :=
  match locked with
  | Some locked =>
      if negb (dependency_request_matches_locked_version version_range (locked_version locked))
      then fail "package-lock.json version mismatch for package '"
      else mret (locked_version locked)
  | None => resolve_version name version_range
  end.
(** [install_package_recursive] up to the dependencies of the package. *)
Definition install_one (name version_range : rstr) (locked : option LockedDependency) : M ResolutionResult :=
  _ ← check_package_install_write_permissions name;
  version ← version_to_install name version_range locked;
  downloaded ← download_package_with_locked_dependency name version locked;
  installed_path ← extract_package (downloaded_path downloaded) name;
  _ ← write_package_integrity_meta installed_path (downloaded_integrity downloaded)
        (Some (downloaded_url downloaded));
  mret {| package := {| name := name; version := version |}; result_path := installed_path;
          resolved := true; integrity := downloaded_integrity downloaded;
          tarball_url := Some (downloaded_url downloaded) |}.
Definition already_seen (name version_range : rstr) : ResolutionResult := {|
  package := {| name := name; version := version_range |};
  result_path := join_str (node_modules_dir config) name;
  resolved := true; integrity := None; tarball_url := None |}.

(** The loop of [install_package_dependency_tree]; [rec] installs one name. *)
Fixpoint install_each (rec : gset rstr → rstr → rstr → M (gset rstr * ResolutionResult))
    (seen : gset rstr) (deps : list (rstr * rstr)) : M (gset rstr) :=
  match deps with
  | [] => mret seen
  | (dep_name, dep_range) :: deps =>
      '(seen, _) ← rec seen dep_name dep_range;
      install_each rec seen deps
  end.
Definition install_package_dependency_tree
    (rec : gset rstr → rstr → rstr → M (gset rstr * ResolutionResult))
    (package_dir : path) (seen : gset rstr) : M (gset rstr) :=
  let package_json_path := join_str package_dir "package.json" in
  have ← exists_ package_json_path;
  if negb have then mret seen
  else
    package ← parse_package_json package_json_path;
    match dependencies package with
    | Some deps => install_each rec seen (hash_order w deps)
    | None => mret seen
    end.
Fixpoint install_package_recursive (fuel : nat) (name version_range : rstr)
    (locked : option LockedDependency) (seen : gset rstr) : M (gset rstr * ResolutionResult) :=
  match fuel with
  | 0 => λ _, None
  | S fuel =>
      if bool_decide (name ∈ seen) then mret (seen, already_seen name version_range)
      else
        r ← install_one name version_range locked;
        seen ← install_package_dependency_tree
          (λ seen dep_name dep_range, install_package_recursive fuel dep_name dep_range None seen)
          (result_path r) ({[name]} ∪ seen);
        mret (seen, r)
  end.
Definition install_package_with_locked_dependency (fuel : nat) (name version_range : rstr)
    (locked : option LockedDependency) : M ResolutionResult :=
  '(_, r) ← install_package_recursive fuel name version_range locked ∅; mret r.
Definition install_package (fuel : nat) (name version_range : rstr) : M ResolutionResult :=
  install_package_with_locked_dependency fuel name version_range None.

(** ** The lock file *)

Definition package_lock_read_candidates : list path :=
  let legacy_path := join_str (node_modules_dir config) "package-lock.json" in
  let candidates :=
    if bool_decide (file_name (node_modules_dir config) = Some ("node_modules" : rstr))
    then match parent (node_modules_dir config) with
         | Some project_dir => [join_str project_dir "package-lock.json"] | None => [] end
    else [] in
  if bool_decide (legacy_path ∈ candidates) then candidates else candidates ++ [legacy_path].
Definition read_package_lock_at (p : path) : M PackageLock :=
  _ ← check_fs_read_permission p;
  content ← read_file p "Failed to read package-lock.json: ";
  ok_or (parse_lock content) "Failed to parse package-lock.json: ".
(** The first candidate that exists. *)
Fixpoint first_existing (candidates : list path) : M (option path) :=
  match candidates with
  | [] => mret None
  | c :: candidates => have ← exists_ c; if have : bool then mret (Some c) else first_existing candidates
  end.
Definition read_existing_package_lock : M (option PackageLock) :=
  candidate ← first_existing package_lock_read_candidates;
  match candidate with
  | Some c => lock ← read_package_lock_at c; mret (Some lock)
  | None => mret None
  end.
Definition package_lock_read_path : M path :=
  candidate ← first_existing package_lock_read_candidates;
  ok_or candidate "package-lock.json not found at ".
Definition read_package_lock : M PackageLock := p ← package_lock_read_path; read_package_lock_at p.

(** ** The whole project *)

(** The loops of [install_dependencies]; a failure ends those with an error text. *)
Fixpoint install_section (fuel : nat) (locked : option (gmap rstr LockedDependency))
    (text : option rstr) (deps : list (rstr * rstr)) : M (list ResolutionResult) :=
  match deps with
  | [] => mret []
  | (name, version) :: deps =>
      outcome ← attempt (install_package_with_locked_dependency fuel name version
                           (l ← locked; l !! name));
      match outcome with
      | Ok r => rs ← install_section fuel locked text deps; mret (r :: rs)
      | Err e => match text with
                 | Some text => throw (Wrapped text e)
                 | None => install_section fuel locked None deps
                 end
      end
  end.
Definition section (deps : option Ranges) : list (rstr * rstr) :=
  match deps with Some deps => hash_order w deps | None => [] end.
Definition install_dependencies (fuel : nat) (package_json : PackageJson) : M (list ResolutionResult) :=
  package_lock ← read_existing_package_lock;
  let locked := package_lock ≫= lock_dependencies in
  rs ← install_section fuel locked (Some ("Failed to install " : rstr)) (section (dependencies package_json));
  dev ← install_section fuel locked (Some ("Failed to install dev " : rstr)) (section (dev_dependencies package_json));
  opt ← install_section fuel locked None (section (optional_dependencies package_json));
  mret (rs ++ dev ++ opt).

(** [fs::read_dir], the entries as paths. *)
Definition read_dir (p : path) (text : rstr) : M (list path) :=
  d ← get_disk;
  if dir_at d (at_ p) then mret ((λ n, p ++ [Normal n]) <$> dir_order w (names_at d (at_ p)))
  else fail text.

(** Scanning installed packages; [rec] scans one directory. *)
Fixpoint scan_each (rec : path → M (option InstalledPackage)) (l : list path) : M (list InstalledPackage) :=
  match l with
  | [] => mret []
  | p :: l => pkg ← rec p; rest ← scan_each rec l;
              mret (match pkg with Some pkg => pkg :: rest | None => rest end)
  end.
Fixpoint scan_installed_package (fuel : nat) (p : path) : M (option InstalledPackage) :=
  match fuel with
  | 0 => λ _, None
  | S fuel =>
      let package_json_path := join_str p "package.json" in
      have ← exists_ package_json_path;
      if negb have then mret None
      else
        _ ← check_fs_read_permission package_json_path;
        content ← read_file package_json_path "Failed to read package.json: ";
        package ← ok_or (from_str w content) "Failed to parse package.json: ";
        name ← ok_or (json_get package "name" ≫= as_str) "Package missing name field";
        version ← ok_or (json_get package "version" ≫= as_str) "Package ";
        let nested_node_modules := join_str p "node_modules" in
        have ← exists_ nested_node_modules;
        nested_deps ← (if have : bool
                       then _ ← check_fs_read_permission nested_node_modules;
                            entries ← read_dir nested_node_modules "Failed to read nested node_modules: ";
                            scan_each (scan_installed_package fuel) entries
                       else mret []);
        '(integrity, resolved) ← read_package_integrity_meta p;
        mret (Some (Installed name version resolved integrity false nested_deps))
  end.

Definition locked_entry (nested : option (list (rstr * LockedDependency))) (pkg : InstalledPackage) :
    LockedDependency :=
  Locked (inst_version pkg) (inst_resolved pkg) (inst_integrity pkg) (Some (inst_dev pkg)) nested.
Definition nested_entries (pkg : InstalledPackage) : list (rstr * LockedDependency) :=
  (λ d, (inst_name d, locked_entry None d)) <$> inst_dependencies pkg.
Definition is_scope (name : rstr) : bool := starts_with "@" name.

(** The loop of [generate_package_lock]. *)
Fixpoint lock_entries (fuel : nat) (entries : list path) (dependencies : gmap rstr LockedDependency) :
    M (gmap rstr LockedDependency) :=
  match entries with
  | [] => mret dependencies
  | p :: entries =>
      dir ← is_dir_ p;
      let file := (file_name p) .unwrap_or [] in
      if negb dir || bool_decide (file = "node_modules") then lock_entries fuel entries dependencies
      else if is_scope file then
        scoped ← read_dir p "Failed to read scoped node_modules: ";
        pkgs ← scan_each (scan_installed_package fuel) scoped;
        lock_entries fuel entries
          (fold_left (λ m pkg, <[inst_name pkg := locked_entry None pkg]> m) pkgs dependencies)
      else
        pkg ← scan_installed_package fuel p;
        lock_entries fuel entries
          match pkg with
          | Some pkg => <[inst_name pkg := locked_entry (Some (nested_entries pkg)) pkg]> dependencies
          | None => dependencies
          end
  end.
Definition generate_package_lock (fuel : nat) (lock_path : path) (project_name project_version : rstr) : M unit :=
  _ ← check_fs_write_permission lock_path;
  have ← exists_ (node_modules_dir config);
  deps ← (if have : bool
          then _ ← check_fs_read_permission (node_modules_dir config);
               entries ← read_dir (node_modules_dir config) "Failed to read node_modules: ";
               lock_entries fuel entries ∅
          else mret ∅);
  write_file lock_path (print_lock w {|
    lock_name := project_name; lock_version := project_version; lockfile_version := 3;
    requires := true; lock_dependencies := Some deps |}) "Failed to write package-lock.json: ".

Definition update_package_lock (lock_path : path) (project_name project_version : rstr)
    (updated_deps : list (rstr * LockedDependency)) : M unit :=
  have ← exists_ lock_path;
  lock ← (if have : bool
          then _ ← check_fs_read_permission lock_path;
               content ← read_file lock_path "Failed to read package-lock.json: ";
               ok_or (parse_lock content) "Failed to parse package-lock.json: "
          else mret {| lock_name := project_name; lock_version := project_version; lockfile_version := 3;
                       requires := true; lock_dependencies := Some ∅ |});
  let deps := (lock_dependencies lock) .unwrap_or ∅ in
  let deps := fold_left (λ m kv, <[kv.1 := kv.2]> m) updated_deps deps in
  _ ← check_fs_write_permission lock_path;
  write_file lock_path (print_lock w {|
    lock_name := lock_name lock; lock_version := lock_version lock;
    lockfile_version := lockfile_version lock; requires := requires lock;
    lock_dependencies := Some deps |}) "Failed to write package-lock.json: ".

Definition generate_lock_for_verified_package (package_name package_version resolved integrity : rstr) :
    result PackageLock PmError :=
  if bool_decide (trim integrity = [])
  then Err (Failed "Cannot generate trusted lock entry for ")
  else Ok {| lock_name := "@amberjs/temp-" ++ package_name; lock_version := "0.0.0"; lockfile_version := 3;
             requires := true;
             lock_dependencies := Some {[package_name :=
               Locked package_version (Some resolved) (Some integrity) (Some false) None]} |}.

(** ** The other commands *)

Definition add_dependency (p : PackageJson) (name version : rstr) : PackageJson :=
  with_dependencies p (Some (<[name := version]> ((dependencies p) .unwrap_or ∅))) (dev_dependencies p).
Definition remove_dependency (p : PackageJson) (name : rstr) : PackageJson :=
  with_dependencies p (delete name <$> dependencies p) (dev_dependencies p).

(** [install_package_exact]: where the exact version is pinned in [package.json]. *)
Definition pin (name version : rstr) (deps : option Ranges) : option Ranges :=
  (λ m : Ranges, if bool_decide (is_Some (m !! name)) then <[name := version]> m else m) <$> deps.
Definition install_package_exact (name version : rstr) : M ResolutionResult :=
  let package_json_path := components "package.json" in
  have ← exists_ package_json_path;
  _ ← when have (_ ← check_fs_read_permission package_json_path;
                 check_fs_write_permission package_json_path);
  _ ← check_package_install_write_permissions name;
  exact_version ← resolve_version name version;
  tarball_path ← download_package name exact_version;
  _ ← extract_package tarball_path name;
  have ← exists_ package_json_path;
  _ ← when have (
    package ← parse_package_json package_json_path;
    _ ← check_fs_write_permission package_json_path;
    write_file package_json_path
      (print_package w (with_dependencies package (pin name exact_version (dependencies package))
                          (pin name exact_version (dev_dependencies package))))
      "Failed to write package.json: ");
  mret {| package := {| name := name; version := exact_version |};
          result_path := join_str (node_modules_dir config) name;
          resolved := true; integrity := None; tarball_url := None |}.

(** [init_package_json] *)
Definition init_package_json (name version : rstr) : M PackageJson :=
  let package := {|
    pkg_name := name; pkg_version := version; description := None; main := Some ("index.js" : rstr);
    scripts := None; dependencies := None; dev_dependencies := None; peer_dependencies := None;
    optional_dependencies := None; author := None; license := Some ("MIT" : rstr); repository := None |} in
  let p := components "package.json" in
  _ ← check_fs_write_permission p;
  _ ← write_file p (print_package w package) "Failed to write package.json: ";
  mret package.
(** [resolve_package] answers without asking the registry. *)
Definition resolve_package (name version : rstr) : ResolutionResult := {|
  package := {| name := name; version := version |};
  result_path := join_str (node_modules_dir config) name;
  resolved := true; integrity := None; tarball_url := None |}.
Fixpoint installed_packages (entries : list path) : M (list PackageVersion) :=
  match entries with
  | [] => mret []
  | p :: entries =>
      let package_json_path := join_str p "package.json" in
      dir ← is_dir_ p;
      have ← exists_ package_json_path;
      if dir && have then
        parsed ← attempt (parse_package_json package_json_path);
        rest ← installed_packages entries;
        mret match parsed with
             | Ok package => {| name := pkg_name package; version := pkg_version package |} :: rest
             | Err _ => rest
             end
      else installed_packages entries
  end.
Definition get_installed_packages : M (list PackageVersion) :=
  have ← exists_ (node_modules_dir config);
  if negb have then mret []
  else
    _ ← check_fs_read_permission (node_modules_dir config);
    entries ← read_dir (node_modules_dir config) "Failed to read node_modules: ";
    installed_packages entries.
Definition generate_lock_for_package (package_name package_version : rstr) : result PackageLock PmError :=
  Err (Failed "Cannot generate trusted lock entry for ").

Definition clean_cache : M unit :=
  have ← exists_ (cache_dir config);
  when have (
    _ ← check_fs_write_permission (cache_dir config);
    _ ← on_disk (λ d, remove_dir_all_at d (at_ (cache_dir config))) "Failed to clean cache: ";
    _ ← check_fs_write_permission (cache_dir config);
    create_dir_all (cache_dir config) "Failed to recreate cache directory: ").

(** *** Pruning *)

Definition names_of (deps : option Ranges) : gset rstr := match deps with Some m => dom m | None => ∅ end.
(** What [package.json] and a readable lock file declare. *)
Definition declared_dependencies (package_json : PackageJson) : M (gset rstr) :=
  lock ← attempt read_package_lock;
  mret (names_of (dependencies package_json) ∪ names_of (dev_dependencies package_json)
        ∪ names_of (optional_dependencies package_json)
        ∪ match lock with
          | Ok lock => match lock_dependencies lock with Some m => dom m | None => ∅ end
          | Err _ => ∅
          end).
(** The first loop: packages without a scope. *)
Fixpoint prune_packages (declared : gset rstr) (entries : list path) : M (list rstr) :=
  match entries with
  | [] => mret []
  | p :: entries =>
      dir ← is_dir_ p;
      let name := (file_name p) .unwrap_or [] in
      if bool_decide (name = ".bin" ∨ name = ".cache") || negb dir
         || bool_decide (name ∈ declared) || is_scope name
      then prune_packages declared entries
      else
        _ ← check_fs_write_permission p;
        _ ← on_disk (λ d, remove_dir_all_at d (at_ p)) "Failed to remove ";
        removed ← prune_packages declared entries;
        mret (name :: removed)
  end.
(** The packages of one scope: those removed, and whether one is declared. *)
Fixpoint prune_scope (declared : gset rstr) (org : rstr) (entries : list path) : M (list rstr * bool) :=
  match entries with
  | [] => mret ([], false)
  | p :: entries =>
      dir ← is_dir_ p;
      let full_name := org ++ slash :: (file_name p) .unwrap_or [] in
      if negb dir then prune_scope declared org entries
      else if bool_decide (full_name ∈ declared) then
        '(removed, _) ← prune_scope declared org entries; mret (removed, true)
      else
        _ ← check_fs_write_permission p;
        _ ← on_disk (λ d, remove_dir_all_at d (at_ p)) "Failed to remove ";
        '(removed, valid) ← prune_scope declared org entries;
        mret (full_name :: removed, valid)
  end.
Fixpoint prune_scopes (declared : gset rstr) (orgs : list rstr) : M (list rstr) :=
  match orgs with
  | [] => mret []
  | org :: orgs =>
      let org_path := join_str (node_modules_dir config) org in
      _ ← check_fs_read_permission org_path;
      entries ← read_dir org_path "Failed to read scoped package directory: ";
      '(removed, valid) ← prune_scope declared org entries;
      _ ← when (negb valid) (
        _ ← check_fs_read_permission org_path;
        entries ← read_dir org_path "Failed to read scoped package directory: ";
        when (bool_decide (entries = [])) (
          _ ← check_fs_write_permission org_path;
          on_disk (λ d, remove_dir_at d (at_ org_path)) "Failed to remove empty scope "));
      rest ← prune_scopes declared orgs;
      mret (removed ++ rest)
  end.
(** The scope directories: a [HashSet] of names, iterated in some order. *)
Fixpoint scope_dirs (entries : list path) : M (list rstr) :=
  match entries with
  | [] => mret []
  | p :: entries =>
      dir ← is_dir_ p;
      let name := (file_name p) .unwrap_or [] in
      rest ← scope_dirs entries;
      mret (if is_scope name && dir then name :: rest else rest)
  end.
Definition prune (package_json : PackageJson) : M (list rstr) :=
  declared ← declared_dependencies package_json;
  have ← exists_ (node_modules_dir config);
  if negb have then mret []
  else
    _ ← check_fs_read_permission (node_modules_dir config);
    entries ← read_dir (node_modules_dir config) "Failed to read node_modules: ";
    removed ← prune_packages declared entries;
    _ ← check_fs_read_permission (node_modules_dir config);
    entries ← read_dir (node_modules_dir config) "Failed to read node_modules: ";
    orgs ← scope_dirs entries;
    removed_scoped ← prune_scopes declared (dir_order w orgs);
    mret (removed ++ removed_scoped).
End pm.
