(* ===== verification/PackageTheorems.v ===== *)
(** * What the installer guarantees

    Theorems about [PackageManager]: unpacking is confined, and all or nothing up to the swap,
    nothing is unpacked that was not verified, a pinned install is the same
    everywhere, installing ends, pruning removes what is undeclared. *)

From S2P Require Import Prelude Json RustPath DiskFs Permissions Semver PackageManager.

(** ** Reasoning about computations *)

Lemma bind_ok {A B} (m : M A) (f : A → M B) s s' b :
  (m ≫= f) s = Some (s', Ok b) → ∃ s1 a, m s = Some (s1, Ok a) ∧ f a s1 = Some (s', Ok b).
Proof. unfold mbind, M_bind. destruct (m s) as [[s1 [a|e]]|]; [eauto|done|done]. Qed.
Lemma bind_outcome {A B} (m : M A) (f : A → M B) s s' r :
  (m ≫= f) s = Some (s', r) →
  (∃ s1 a, m s = Some (s1, Ok a) ∧ f a s1 = Some (s', r)) ∨ (∃ e, m s = Some (s', Err e) ∧ r = Err e).
Proof. unfold mbind, M_bind. destruct (m s) as [[s1 [a|e]]|]; [eauto|intros [= <- <-]; eauto|done]. Qed.
Lemma bind_ret {A B} (a : A) (f : A → M B) : mret a ≫= f = f a.
Proof. done. Qed.
Lemma bind_ok_state {A B} (a : A) (f : A → M B) s : ((λ s, Some (s, Ok a)) ≫= f) s = f a s.
Proof. done. Qed.
Lemma bind_get_disk {B} (f : Disk → M B) s : (get_disk ≫= f) s = f (disk s) s.
Proof. done. Qed.
Lemma bind_on_disk {B} f text (g : unit → M B) s :
  (on_disk f text ≫= g) s
  = match f (disk s) with Some d => g tt (with_disk s d) | None => Some (s, Err (Failed text)) end.
Proof. unfold mbind, M_bind, on_disk. by destruct (f (disk s)). Qed.
Lemma ok_or_ok {A} (o : option A) text s s' a : ok_or o text s = Some (s', Ok a) → s' = s ∧ o = Some a.
Proof. destruct o; [by intros [= <- <-]|done]. Qed.
Lemma on_disk_ok f text s s' u :
  on_disk f text s = Some (s', Ok u) → ∃ d, f (disk s) = Some d ∧ s' = with_disk s d.
Proof. unfold on_disk. destruct (f (disk s)); [intros [= <- _]; eauto|done]. Qed.

(** Inverts a successful run, one statement at a time. *)
Ltac inv_ok H :=
  let s := fresh "s" in let a := fresh "a" in let Hm := fresh "Hm" in
  apply bind_ok in H as (s & a & Hm & H).

(** [R] relates the states before and after every run of [m]. *)
Definition steps {A} (R : PmState → PmState → Prop) (m : M A) : Prop :=
  ∀ s s' r, m s = Some (s', r) → R s s'.
Section steps.
#[local] Set Default Proof Using "Type*".
Context (R : PmState → PmState → Prop) `{!PreOrder R}.
Lemma steps_ret {A} (a : A) : steps R (mret a).
Proof. by intros s s' r [= <- <-]. Qed.
Lemma steps_throw {A} e : steps R (throw e : M A).
Proof. by intros s s' r [= <- <-]. Qed.
Lemma steps_fail {A} text : steps R (fail text : M A).
Proof. apply steps_throw. Qed.
Lemma steps_ok_or {A} (o : option A) text : steps R (ok_or o text).
Proof. destruct o; [apply steps_ret|apply steps_throw]. Qed.
Lemma steps_lift {A} (r : result A PmError) : steps R (lift r).
Proof. by intros s s' r' [= <- <-]. Qed.
Lemma steps_get_disk : steps R get_disk.
Proof. by intros s s' r [= <- <-]. Qed.
Lemma steps_bind {A B} (m : M A) (f : A → M B) :
  steps R m → (∀ a, steps R (f a)) → steps R (m ≫= f).
Proof.
  intros Hm Hf s s' r [(s1 & a & H1 & H2)|(e & H1 & ->)]%bind_outcome; [|by eapply Hm].
  transitivity s1; [by eapply Hm|by eapply Hf].
Qed.
Lemma steps_when b m : steps R m → steps R (when b m).
Proof. destruct b; [done|intros _; apply steps_ret]. Qed.
Lemma steps_for_each {A} (l : list A) f : (∀ x, steps R (f x)) → steps R (for_each l f).
Proof. intros Hf. induction l; [apply steps_ret|]. apply steps_bind; auto. Qed.
Lemma steps_attempt {A} (m : M A) : steps R m → steps R (attempt m).
Proof.
  intros Hm s s' r H. unfold attempt in H. destruct (m s) as [[s1 r1]|] eqn:E; [|done].
  injection H as <- <-. by eapply Hm.
Qed.
Lemma steps_if {A} (b : bool) (m m' : M A) : steps R m → steps R m' → steps R (if b then m else m').
Proof. by destruct b. Qed.
Lemma steps_on_disk f text :
  (∀ s d, f (disk s) = Some d → R s (with_disk s d)) → steps R (on_disk f text).
Proof.
  intros Hf s s' r. unfold on_disk. destruct (f (disk s)) eqn:E; intros [= <- <-]; [by apply Hf|done].
Qed.
Lemma steps_on_disk_ignored f :
  (∀ s d, f (disk s) = Some d → R s (with_disk s d)) → (∀ s, R s (with_disk s (disk s))) →
  steps R (on_disk_ignored f).
Proof.
  intros Hf Hn s s' r. unfold on_disk_ignored. destruct (f (disk s)) eqn:E; intros [= <- <-]; [by apply Hf|apply Hn].
Qed.
End steps.
Create HintDb steps.
#[export] Hint Resolve steps_ret steps_throw steps_fail steps_ok_or steps_lift steps_get_disk
  steps_bind steps_when steps_for_each steps_attempt steps_if : steps.
#[export] Hint Extern 1 (PreOrder _) => typeclasses eauto : steps.

(** Goes through a computation and leaves its atoms, after trying the hints on them. *)
Ltac run_steps :=
  repeat first
    [ progress intros
    | apply steps_bind; [typeclasses eauto| |]
    | apply steps_when; [typeclasses eauto|]
    | apply steps_for_each; [typeclasses eauto|]
    | apply steps_attempt
    | match goal with
      | |- steps _ (if ?b then _ else _) => destruct b
      | |- steps _ (match ?x with _ => _ end) => destruct x
      end ];
  eauto with steps amber.

(** ** Relations on disks *)

Definition on_disks (R : Disk → Disk → Prop) (s s' : PmState) : Prop := R (disk s) (disk s').
#[export] Instance on_disks_preorder R : PreOrder R → PreOrder (on_disks R).
Proof. intros [Hr Ht]. split; [intros s; apply Hr|intros s1 s2 s3; apply Ht]. Qed.
#[export] Instance same_outside_preorder Q : PreOrder (same_outside Q).
Proof. split; [intros d; apply same_outside_refl|intros d1 d2 d3; apply same_outside_trans]. Qed.
#[export] Instance keeps_dirs_preorder : PreOrder keeps_dirs.
Proof. split; [intros d; apply keeps_dirs_refl|intros d1 d2 d3; apply keeps_dirs_trans]. Qed.
#[export] Instance grows_preorder : PreOrder grows.
Proof. split; [by intros d k|intros d1 d2 d3 H1 H2 k x H; auto]. Qed.
#[export] Instance eq_disk_preorder : PreOrder (@eq Disk).
Proof. split; congruence. Qed.
Lemma steps_on_disks R `{!PreOrder R} f text :
  (∀ d d', f d = Some d' → R d d') → steps (on_disks R) (on_disk f text).
Proof. intros H. apply steps_on_disk; [typeclasses eauto|]. intros s d Hd. by apply (H (disk s)). Qed.
#[export] Hint Resolve steps_on_disks : steps.

Section checks.
Context (w : World).
(** A permission check leaves the disk alone. *)
Lemma steps_check R `{!PreOrder R} k a r : steps (on_disks R) (check_permission w k a r).
Proof.
  intros s s' o. unfold check_permission. destruct (check_global_permission _ _ _ _ _ _ _) as [p v].
  intros [= <- <-]. by unfold on_disks.
Qed.
Lemma steps_exists R `{!PreOrder R} p : steps R (exists_ w p).
Proof. unfold exists_. eauto with steps. Qed.
Lemma check_ok k a r s s' u : check_permission w k a r s = Some (s', Ok u) → disk s' = disk s.
Proof. intros H. symmetry. exact (steps_check eq k a r _ _ _ H). Qed.
End checks.
#[export] Hint Resolve steps_check steps_exists : steps.
#[export] Hint Extern 1 (steps _ (check_fs_read_permission _ _)) => unfold check_fs_read_permission : steps.
#[export] Hint Extern 1 (steps _ (check_fs_write_permission _ _)) => unfold check_fs_write_permission : steps.
#[export] Hint Extern 1 (steps _ (check_network_connect_permission _ _)) => unfold check_network_connect_permission : steps.
#[export] Hint Extern 1 (steps _ (check_process_execute_permission _ _)) => unfold check_process_execute_permission : steps.

(** ** Unpacking *)

Section unpacking.
Context (w : World) (config : PackageManagerConfig).

Lemma push_parts_names cs rel p :
  push_parts rel cs = Ok p → ∃ names, p = rel ++ (Normal <$> names).
Proof.
  revert rel. induction cs as [|c cs IH]; intros rel; cbn [push_parts].
  { intros [= <-]. exists []. by rewrite app_nil_r. }
  destruct c; try done; [apply IH|]. intros (names & ->)%IH. exists (name :: names).
  by rewrite <-app_assoc.
Qed.
(** Whatever the archive says, the path is a list of plain names. *)
Lemma validated_names p t rel :
  validate_package_archive_path p t = Ok rel → ∃ names, rel = Normal <$> names.
Proof.
  unfold validate_package_archive_path. destruct (is_absolute p); [done|].
  destruct (negb _); [done|]. destruct p as [|[| | |prefix] cs]; try done.
  case_bool_decide; [|done]. apply push_parts_names.
Qed.

(** What one entry does at a place: where it goes and how. *)
Definition entry_plan (e : option Entry) : result (list rstr * option (option rstr)) PmError :=
  match e with
  | None => Err (Failed "Failed to read entry: ")
  | Some e =>
      match entry_path e with
      | None => Err (Failed "")
      | Some p =>
          match validate_package_archive_path p (entry_type e) with
          | Ok rel => Ok (omap (λ c, match c with Normal n => Some n | _ => None end) rel,
                          if is_dir_type (entry_type e) then None else Some (entry_data e))
          | Err err => Err err
          end
      end
  end.
Definition apply_plan (staging : loc) (plan : list rstr * option (option rstr)) : M unit :=
  let '(names, content) := plan in
  let target := staging ++ names in
  match content with
  | None => on_disk (λ d, create_dir_all_at d target) "Failed to create directory: "
  | Some data =>
      d ← get_disk;
      _ ← when (negb (exists_at d (parent_loc target)))
            (on_disk (λ d, create_dir_all_at d (parent_loc target)) "Failed to create parent: ");
      data ← ok_or data "Failed to unpack entry: ";
      on_disk (λ d, write_at d target data) "Failed to unpack entry: "
  end.
Lemma unpack_entry_plan staging e s :
  unpack_entry staging e s = (plan ← lift (entry_plan e); apply_plan staging plan) s.
Proof.
  unfold unpack_entry, entry_plan. destruct e as [e|]; [|done]. cbn [ok_or]. rewrite bind_ret.
  destruct (entry_path e) as [p|]; [|done]. cbn [ok_or]. rewrite bind_ret.
  destruct (validate_package_archive_path p _) as [rel|err] eqn:E; [|done].
  apply validated_names in E as [names ->]. unfold lift. rewrite !bind_ok_state.
  assert (omap (λ c, match c with Normal n => Some n | _ => None end) (Normal <$> names) = names) as ->.
  { induction names as [|n names IH]; [done|]. cbn. by rewrite IH. }
  rewrite locate_names. by destruct (is_dir_type (entry_type e)).
Qed.
(** Unpacked entries only change places below the staging directory, and
    directories stay directories. *)
Lemma apply_plan_steps staging plan : steps (on_disks (unpacks staging)) (apply_plan staging plan).
Proof. destruct plan as [names [data|]]; unfold apply_plan; run_steps. Qed.
Lemma unpack_entry_steps staging e : steps (on_disks (unpacks staging)) (unpack_entry staging e).
Proof.
  intros s s' r. rewrite unpack_entry_plan.
  apply (steps_bind (on_disks (unpacks staging))); [apply steps_lift; typeclasses eauto|].
  apply apply_plan_steps.
Qed.

(** The same entries unpack to the same tree, whatever else is on the disks. *)
Lemma agree_opt_ok l1 l2 o1 o2 d1 d2 :
  agree_opt l1 l2 o1 o2 → o1 = Some d1 → o2 = Some d2 → agree l1 l2 d1 d2.
Proof. by intros H -> ->. Qed.
Definition with_parent (d : Disk) (l : loc) : option Disk :=
  if exists_at d (parent_loc l) then Some d else create_dir_all_at d (parent_loc l).
Lemma write_plan_ok st names data s s' u :
  apply_plan st (names, Some data) s = Some (s', Ok u) →
  ∃ d bytes, with_parent (disk s) (st ++ names) = Some d ∧ data = Some bytes ∧
             write_at d (st ++ names) bytes = Some (disk s').
Proof.
  unfold apply_plan, with_parent. rewrite bind_get_disk. intros H.
  inv_ok H. inv_ok H. apply ok_or_ok in Hm0 as [-> ->]. apply on_disk_ok in H as (d' & E & ->).
  destruct (exists_at _ _); cbn [negb when] in Hm.
  - injection Hm as <- _. eauto.
  - apply on_disk_ok in Hm as (d & Ed & ->). eauto.
Qed.
Lemma with_parent_agree st1 st2 d1 d2 names :
  st1 ≠ [] → st2 ≠ [] → ready d1 st1 → ready d2 st2 → agree st1 st2 d1 d2 → names ≠ [] →
  agree_opt st1 st2 (with_parent d1 (st1 ++ names)) (with_parent d2 (st2 ++ names)).
Proof.
  intros Hn1 Hn2 Hr1 Hr2 Ha Hnames. unfold with_parent, exists_at. rewrite !parent_loc_app by done.
  rewrite (agree_node st1 st2 d1 d2) by done. case_bool_decide; [done|]. by apply create_agree.
Qed.
Lemma with_parent_ready d st names d' : with_parent d (st ++ names) = Some d' → ready d st → ready d' st.
Proof.
  unfold with_parent. destruct (exists_at _ _); [by intros [= <-]|]. intros H Hr.
  eapply keeps_dirs_ready, Hr. by eapply grows_keeps_dirs, create_dirs_grows.
Qed.
Lemma apply_plan_agree st1 st2 plan s1 s2 s1' s2' u1 u2 :
  st1 ≠ [] → st2 ≠ [] → ready (disk s1) st1 → ready (disk s2) st2 →
  agree st1 st2 (disk s1) (disk s2) →
  apply_plan st1 plan s1 = Some (s1', Ok u1) → apply_plan st2 plan s2 = Some (s2', Ok u2) →
  agree st1 st2 (disk s1') (disk s2').
Proof.
  intros Hn1 Hn2 Hr1 Hr2 Ha H1 H2. destruct plan as [names [data|]].
  2:{ unfold apply_plan in H1, H2. apply on_disk_ok in H1 as (d1 & E1 & ->), H2 as (d2 & E2 & ->).
      by eapply agree_opt_ok; [apply (create_agree _ _ _ _ names Hn1 Hn2 Hr1 Hr2 Ha)| |]. }
  apply write_plan_ok in H1 as (d1 & b & P1 & -> & W1), H2 as (d2 & b2 & P2 & [= ->] & W2).
  destruct (base.decide (names = [])) as [->|Hnames].
  { rewrite app_nil_r in W1. rewrite <-(app_nil_r st1) in P1. rewrite write_ready in W1; [done|].
    eapply with_parent_ready; [|exact Hr1]. by rewrite !app_nil_r in *. }
  eapply agree_opt_ok; [|exact W1|exact W2]. apply write_at_agree; try done.
  by eapply agree_opt_ok; [apply (with_parent_agree _ _ _ _ names Hn1 Hn2 Hr1 Hr2 Ha)| |].
Qed.
Lemma unpack_all_agree st1 st2 entries s1 s2 s1' s2' u1 u2 :
  st1 ≠ [] → st2 ≠ [] → ready (disk s1) st1 → ready (disk s2) st2 →
  agree st1 st2 (disk s1) (disk s2) →
  for_each entries (unpack_entry st1) s1 = Some (s1', Ok u1) →
  for_each entries (unpack_entry st2) s2 = Some (s2', Ok u2) →
  agree st1 st2 (disk s1') (disk s2').
Proof.
  intros Hn1 Hn2. revert s1 s2. induction entries as [|e entries IH]; intros s1 s2 Hr1 Hr2 Ha H1 H2.
  { by injection H1 as <- _; injection H2 as <- _. }
  cbn [for_each] in H1, H2. inv_ok H1. inv_ok H2.
  pose proof (unpack_entry_steps st1 e _ _ _ Hm Hr1) as [_ Hk1].
  pose proof (unpack_entry_steps st2 e _ _ _ Hm0 Hr2) as [_ Hk2].
  eapply IH; [exact (keeps_dirs_ready _ _ _ Hk1 Hr1)|exact (keeps_dirs_ready _ _ _ Hk2 Hr2)| |exact H1|exact H2].
  rewrite unpack_entry_plan in Hm, Hm0. unfold lift in Hm, Hm0.
  destruct (entry_plan e) as [plan|]; [|done]. rewrite bind_ok_state in Hm, Hm0.
  by eapply apply_plan_agree.
Qed.

(** The staging directory: new, inside the parent of the target. *)
Definition staged (d : Disk) (parent : loc) (tmp : rstr) : Prop :=
  ready d (parent ++ [tmp]) ∧ ∀ k, k ≠ [] → d !! ((parent ++ [tmp]) ++ k) = None.
(** What unpacking a list of entries in an empty directory gives. *)
Definition unpacked_tree (entries : list (option Entry)) (tree : Disk) : Prop :=
  ∃ st s s', st ≠ [] ∧ ready (disk s) st ∧ (∀ k, k ≠ [] → disk s !! (st ++ k) = None) ∧
    for_each entries (unpack_entry st) s = Some (s', Ok tt) ∧ ∀ k, tree !! k = disk s' !! (st ++ k).
Lemma unpacked_tree_unique entries t1 t2 :
  unpacked_tree entries t1 → unpacked_tree entries t2 → t1 = t2.
Proof.
  intros (st1 & s1 & s1' & N1 & R1 & E1 & H1 & T1) (st2 & s2 & s2' & N2 & R2 & E2 & H2 & T2).
  apply map_eq. intros k. rewrite T1, T2. eapply (unpack_all_agree st1 st2); try done.
  intros k'. destruct (base.decide (k' = [])) as [->|]; [|by rewrite E1, E2].
  rewrite !app_nil_r. specialize (R1 st1). specialize (R2 st2).
  destruct st1, st2; try done. unfold node_at in *. by rewrite R1, R2.
Qed.

Definition subtree_at (l : loc) (d : Disk) : Disk :=
  list_to_map (prod_map (drop (length l)) id <$> map_to_list (filter (λ kv, l `prefix_of` kv.1) d)).
Lemma lookup_subtree l d k : subtree_at l d !! k = d !! (l ++ k).
Proof.
  pose proof (lookup_moved l [] d k) as H. unfold moved in H. cbn [app length] in H.
  rewrite bool_decide_eq_true_2 in H by apply prefix_nil. exact H.
Qed.
Lemma create_staging d parent tmp :
  staged d parent tmp →
  create_dir_all_at d ((parent ++ [tmp]) ++ [("package" : rstr)])
  = Some (<[(parent ++ [tmp]) ++ [("package" : rstr)] := DirNode]> d).
Proof.
  intros [Hr Hn]. unfold create_dir_all_at. rewrite create_dirs_skip by done. cbn [app create_dirs].
  assert (node_at d ((parent ++ [tmp]) ++ ["package" : rstr]) = None) as ->; [|done].
  rewrite <-(Hn ["package" : rstr]) by done. by destruct parent.
Qed.

Section swap.
Context (parent : loc) (n tmp : rstr) (Hne : n ≠ tmp).
#[local] Notation root := (parent ++ [tmp]).
#[local] Notation sd := ((parent ++ [tmp]) ++ [("package" : rstr)]).
#[local] Notation target := (parent ++ [n]).
Lemma target_not_below_root k : below target k → ¬ below root k.
Proof using Hne.
  intros [t ->] [t' E]. rewrite <-!app_assoc in E.
  apply app_inv_head in E. by injection E as <-.
Qed.
Lemma sd_not_below_target : ¬ below target sd.
Proof using Hne. intros H%target_not_below_root. apply H. by exists ["package" : rstr]. Qed.
Lemma parent_not_below_target k : k `prefix_of` parent → ¬ below target k.
Proof.
  intros H1 H2. unfold below in H2.
  assert (parent ++ [n] `prefix_of` parent) as H%prefix_length by (by etrans).
  rewrite length_app in H. simpl in H. lia.
Qed.
Lemma swap_succeeds d :
  ready d parent → is_Some (d !! sd) → node_at d target = None →
  ∃ d', rename_at d sd target = Some d'.
Proof.
  intros Hr Hsd Ht. unfold rename_at, exists_at, dir_at.
  assert (parent_loc target = parent) as -> by apply parent_loc_snoc.
  rewrite (bool_decide_eq_true_2 (is_Some (d !! sd))), Ht, (bool_decide_eq_false_2 (is_Some None)) by
    (done || by intros []).
  rewrite (bool_decide_eq_true_2 (node_at d parent = _)) by (by apply Hr).
  rewrite bool_decide_eq_false_2; [eauto|]. intros H%prefix_length.
  rewrite !length_app in H. simpl in H. lia.
Qed.
Lemma removed_target d : ready d parent → is_Some (d !! sd) →
  ready (remove_tree d target) parent ∧ is_Some (remove_tree d target !! sd) ∧
  node_at (remove_tree d target) target = None.
Proof using Hne.
  intros Hr Hsd. split_and!.
  - intros k Hk. specialize (Hr k Hk). destruct k as [|x k]; [done|].
    unfold node_at in *. rewrite lookup_remove_tree.
    rewrite bool_decide_eq_false_2; [done|by apply parent_not_below_target].
  - rewrite lookup_remove_tree, bool_decide_eq_false_2; [done|apply sd_not_below_target].
  - assert (node_at (remove_tree d target) target = remove_tree d target !! target) as -> by (by destruct parent).
    rewrite lookup_remove_tree. by rewrite bool_decide_eq_true_2.
Qed.
(** Removing the target and moving the staging directory there. *)
Lemma swap_lookup d d' k :
  rename_at (if dir_at d target then remove_tree d target else d) sd target = Some d' →
  d' !! k = if bool_decide (below target k) then d !! (sd ++ drop (length target) k)
            else if bool_decide (below sd k) then None else d !! k.
Proof using Hne.
  intros H. rewrite (lookup_rename _ _ _ _ k H). unfold below.
  destruct (dir_at d target); [|done]. rewrite !lookup_remove_tree.
  rewrite (bool_decide_eq_false_2 (target `prefix_of` sd ++ _)).
  2:{ intros Ht%target_not_below_root. apply Ht. rewrite <-app_assoc. by eexists. }
  by destruct (bool_decide (target `prefix_of` k)).
Qed.
End swap.

(** The first half of [unpack_and_replace]: everything up to the swap. *)
Definition unpack_only (tarball_path : path) (sd : loc) : M unit :=
  _ ← on_disk (λ d, create_dir_all_at d sd) "Failed to create package staging root: ";
  tarball ← read_file w tarball_path "Failed to open tarball: ";
  entries ← ok_or (untar w tarball) "Failed to read archive: ";
  for_each entries (unpack_entry sd).
Definition swap_only (sd : loc) (target_dir : path) : M path :=
  have ← exists_ w target_dir;
  _ ← when have (remove_installed w (at_ w target_dir));
  _ ← move_into_place w sd (at_ w target_dir);
  mret target_dir.
Lemma unpack_and_replace_halves tarball_path target_dir root s :
  unpack_and_replace w tarball_path target_dir root s
  = (_ ← unpack_only tarball_path (root ++ [("package" : rstr)]);
     swap_only (root ++ [("package" : rstr)]) target_dir) s.
Proof.
  unfold unpack_and_replace, unpack_only, swap_only, mbind, M_bind. cbv zeta.
  destruct (on_disk _ _ s) as [[s1 [u|e]]|]; try done.
  destruct (read_file _ _ _ s1) as [[s2 [b|e]]|]; try done.
  destruct (ok_or _ _ s2) as [[s3 [es|e]]|]; done.
Qed.

Lemma unpack_only_outcome tarball_path parent tmp s s' r :
  let root := parent ++ [tmp] in
  let sd := root ++ [("package" : rstr)] in
  staged (disk s) parent tmp → unpack_only tarball_path sd s = Some (s', r) →
  (same_outside (below root) (disk s) (disk s') ∧ keeps_dirs (disk s) (disk s')) ∧
  ∀ u, r = Ok u → ready (disk s') sd ∧ ∃ bytes entries tree,
    read_at (disk s) (at_ w tarball_path) = Some bytes ∧ untar w bytes = Some entries ∧
    unpacked_tree entries tree ∧ ∀ k, tree !! k = disk s' !! (sd ++ k).
Proof.
  intros root sd Hst H. unfold unpack_only, on_disk in H. unfold mbind at 1, M_bind at 1 in H.
  assert (create_dir_all_at (disk s) sd = Some (<[sd:=DirNode]> (disk s))) as Ec by (by apply create_staging).
  rewrite Ec in H.
  set (s1 := with_disk s (<[sd:=DirNode]> (disk s))) in H.
  assert (ready (disk s1) sd) as Hr1.
  { apply ready_snoc; [|apply node_at_insert_eq].
    eapply keeps_dirs_ready, Hst. apply grows_keeps_dirs, grows_insert_fresh. by apply Hst. }
  assert (same_outside (below root) (disk s) (disk s1)) as Hs1.
  { intros k Hk. apply lookup_insert_ne. intros <-. apply Hk. by eexists. }
  assert (keeps_dirs (disk s) (disk s1)) as Hk1.
  { apply grows_keeps_dirs, grows_insert_fresh. by apply Hst. }
  apply bind_outcome in H as [(s2 & b & Hb & H)|(e & Hb & ->)]; unfold read_file in Hb;
    rewrite bind_get_disk in Hb.
  2:{ destruct (read_at _ _); [done|]. injection Hb as <- <-. done. }
  apply ok_or_ok in Hb as [-> Hb].
  apply bind_outcome in H as [(s3 & es & He & H)|(e & He & ->)].
  2:{ destruct (untar w b); [done|]. injection He as <- <-. done. }
  apply ok_or_ok in He as [-> He].
  pose proof (steps_for_each (on_disks (unpacks sd)) es (unpack_entry sd) (unpack_entry_steps sd) _ _ _ H Hr1)
    as [Hout Hkeep].
  split.
  { split; [|by etrans]. etrans; [exact Hs1|]. eapply same_outside_mono, Hout.
    intros k [t ->]. exists (("package" : rstr) :: t). unfold sd. by rewrite <-app_assoc. }
  intros u ->. split; [by eapply keeps_dirs_ready|].
  exists b, es, (subtree_at sd (disk s')). split; [|split; [done|]].
  { unfold read_at in Hb |- *. destruct (base.decide (at_ w tarball_path = sd)) as [E|Hsd].
    - rewrite E, Hr1 in Hb by done. done.
    - destruct (at_ w tarball_path); [done|]. unfold node_at, s1 in *. cbn [disk with_disk] in Hb.
      by rewrite lookup_insert_ne in Hb. }
  split; [|intros k; apply lookup_subtree].
  destruct u. exists sd, s1, s'. split; [unfold sd, root; by destruct parent|]. split; [done|]. split.
  { intros k Hk. cbn [s1 disk with_disk]. rewrite lookup_insert_ne.
    - unfold sd, root. rewrite <-app_assoc. by apply Hst.
    - intros E. apply Hk. apply (app_inv_head sd). by rewrite app_nil_r. }
  split; [done|]. intros k. apply lookup_subtree.
Qed.

(** A failure of the swap itself, and what it can leave of a package. *)
Definition swap_failed (e : PmError) : Prop :=
  e = Failed "Failed to remove existing package: " ∨ e = Failed "Failed to move verified package into place: ".
#[export] Instance swap_failed_dec e : Decision (swap_failed e).
Proof.
  unfold swap_failed. destruct e as [|t|]; [by right; intros [?|?]| |by right; intros [?|?]].
  destruct (base.decide (t = "Failed to remove existing package: ")) as [->|H1]; [by left; left|].
  destruct (base.decide (t = "Failed to move verified package into place: ")) as [->|H2]; [by left; right|].
  right. intros [[= E]|[= E]]; done.
Defined.
(** Under [l], [d'] holds some of what [d] holds and nothing else. *)
Definition part_left (l : loc) (d d' : Disk) : Prop := ∀ k x, below l k → d' !! k = Some x → d !! k = Some x.
Definition after_failure (e : PmError) (l : loc) (d d' : Disk) : Prop :=
  if base.decide (swap_failed e) then part_left l d d' else ∀ k, below l k → d' !! k = d !! k.
Lemma unchanged_after_failure e l d d' : (∀ k, below l k → d' !! k = d !! k) → after_failure e l d d'.
Proof. unfold after_failure, part_left. intros H. case_decide; [|done]. intros k x Hk. by rewrite H. Qed.
Lemma after_failure_eq e l d1 d1' d2 d2' :
  (∀ k, below l k → d1 !! k = d2 !! k) → (∀ k, below l k → d1' !! k = d2' !! k) →
  after_failure e l d1 d1' → after_failure e l d2 d2'.
Proof.
  unfold after_failure, part_left. intros H H'. case_decide; intros Ha k.
  - intros x Hk. rewrite <-H, <-H' by done. by apply Ha.
  - intros Hk. rewrite <-H, <-H' by done. by apply Ha.
Qed.
Lemma partly_removed_outside d l kept : same_outside (below l) d (partly_removed d l kept).
Proof.
  intros k Hk. apply option_eq. intros x. unfold partly_removed. rewrite map_lookup_filter_Some.
  cbn [fst]. unfold below in Hk. naive_solver.
Qed.
Lemma partly_removed_part d l kept : part_left l d (partly_removed d l kept).
Proof. intros k x _ [H _]%map_lookup_filter_Some. done. Qed.
Lemma removed_part d l : part_left l d (remove_tree d l).
Proof. intros k x Hk. by rewrite lookup_remove_tree, bool_decide_eq_true_2. Qed.
Lemma remove_installed_outcome l s s' r :
  remove_installed w l s = Some (s', r) →
  (∃ e, r = Err e ∧ swap_failed e ∧ same_outside (below l) (disk s) (disk s') ∧
        part_left l (disk s) (disk s')) ∨
  (r = Ok tt ∧ dir_at (disk s) l = true ∧ s' = with_disk s (remove_tree (disk s) l)).
Proof.
  unfold remove_installed, on_disk, remove_dir_all_at, swap_failed. intros H.
  destruct (dir_at (disk s) l) eqn:Ed.
  - destruct (removal_stops w (disk s) l) as [kept|].
    + injection H as <- <-. left. eexists. split; [done|]. split; [by left|]. cbn [disk with_disk].
      split; [apply partly_removed_outside|apply partly_removed_part].
    + destruct (bool_decide (l ≠ [])); injection H as <- <-; [by right|].
      left. eexists. split; [done|]. split; [by left|]. split; [done|]. by intros k x.
  - rewrite andb_false_r in H. injection H as <- <-.
    left. eexists. split; [done|]. split; [by left|]. split; [done|]. by intros k x.
Qed.
Lemma move_into_place_outcome sd l s s' r d' :
  rename_at (disk s) sd l = Some d' → move_into_place w sd l s = Some (s', r) →
  (∃ e, r = Err e ∧ swap_failed e ∧ s' = s) ∨ (r = Ok tt ∧ s' = with_disk s d').
Proof.
  unfold move_into_place, on_disk, swap_failed. intros E H. destruct (rename_refused _ _ _ _).
  - injection H as <- <-. left. eexists. split; [done|]. split; [by right|done].
  - rewrite E in H. injection H as <- <-. by right.
Qed.
Lemma swap_only_outcome sd target_dir parent n tmp s s' r :
  n ≠ tmp → sd = (parent ++ [tmp]) ++ [("package" : rstr)] → at_ w target_dir = parent ++ [n] →
  ready (disk s) sd → swap_only sd target_dir s = Some (s', r) →
  (∃ e, r = Err e ∧ swap_failed e ∧ same_outside (below (parent ++ [n])) (disk s) (disk s') ∧
        part_left (parent ++ [n]) (disk s) (disk s')) ∨
  (r = Ok target_dir ∧ ∀ k, disk s' !! k =
     if bool_decide (below (parent ++ [n]) k) then disk s !! (sd ++ drop (length (parent ++ [n])) k)
     else if bool_decide (below sd k) then None else disk s !! k).
Proof.
  intros Hne -> Hat Hr H. unfold swap_only, exists_ in H. rewrite Hat in H.
  assert (ready (disk s) parent) as Hrp by (eapply ready_prefix, Hr; rewrite <-app_assoc; by eexists).
  assert (is_Some (disk s !! ((parent ++ [tmp]) ++ [("package" : rstr)]))) as Hsd.
  { exists DirNode. rewrite <-(Hr _ (reflexivity _)). by destruct parent. }
  change ((get_disk ≫= ?f) ≫= ?g) with (get_disk ≫= λ d, f d ≫= g) in H.
  rewrite bind_get_disk, bind_ret in H. unfold exists_at in H. pose proof (swap_lookup parent n tmp Hne) as Hlook.
  destruct (bool_decide (is_Some (node_at (disk s) (parent ++ [n])))) eqn:Ex; cbn [when] in H.
  - apply bind_outcome in H as [(s1 & u & H1 & H)|(e & H1 & ->)];
      apply remove_installed_outcome in H1 as [(e' & E & ?)|(E & Ed & ->)]; try done.
    2:{ injection E as <-. left. eauto. }
    destruct (removed_target parent n tmp Hne (disk s) Hrp Hsd) as (H1 & H2 & H3).
    destruct (swap_succeeds parent n tmp _ H1 H2 H3) as [d' Ed'].
    apply bind_outcome in H as [(s2 & u2 & H4 & H)|(e & H4 & ->)];
      apply (move_into_place_outcome _ _ _ _ _ d') in H4 as [(e' & E' & He' & ->)|(E' & ->)]; try done.
    + injection H as <- <-. right. split; [done|]. intros k. apply (Hlook (disk s) d' k). by rewrite Ed.
    + injection E' as <-. left. eexists. split; [done|]. split; [done|]. cbn [disk with_disk].
      split; [apply remove_tree_outside|apply removed_part].
  - apply bool_decide_eq_false in Ex. rewrite bind_ret in H.
    assert (node_at (disk s) (parent ++ [n]) = None) as Hno by (by apply eq_None_not_Some).
    destruct (swap_succeeds parent n tmp _ Hrp Hsd Hno) as [d' Ed'].
    apply bind_outcome in H as [(s2 & u2 & H4 & H)|(e & H4 & ->)];
      apply (move_into_place_outcome _ _ _ _ _ d') in H4 as [(e' & E' & He' & ->)|(E' & ->)]; try done.
    + injection H as <- <-. right. split; [done|]. intros k. apply (Hlook (disk s) d' k). unfold dir_at. by rewrite Hno.
    + injection E' as <-. left. eexists. split; [done|]. split; [done|]. split; [done|]. by intros k x.
Qed.

(** *** Names and places *)
Lemma join_plain base pkg names :
  components pkg = Normal <$> names → join_str base pkg = base ++ (Normal <$> names).
Proof.
  intros E. unfold join_str, path_join. rewrite E. destruct names as [|x names]; [by destruct base; rewrite ?app_nil_r|].
  unfold is_absolute. rewrite bool_decide_eq_false_2 by done. by destruct base.
Qed.
Lemma at_plain base pkg names :
  components pkg = Normal <$> names → at_ w (join_str base pkg) = at_ w base ++ names.
Proof. intros E. unfold at_. by rewrite (join_plain _ _ _ E), locate_app, locate_names. Qed.
Lemma parent_plain base pkg ns n :
  components pkg = Normal <$> (ns ++ [n]) →
  ∃ q, parent (join_str base pkg) = Some q ∧ at_ w q = at_ w base ++ ns.
Proof.
  intros E. rewrite (join_plain _ _ _ E), fmap_app, app_assoc. eexists. split; [by apply parent_app|].
  unfold at_. by rewrite locate_app, locate_names.
Qed.

(** Making the directories up to [parent]. *)
Definition makes (parent : loc) (d d' : Disk) : Prop :=
  same_outside (λ k, k `prefix_of` parent) d d' ∧ grows d d' ∧ only_dirs_new d d'.
#[export] Instance makes_preorder parent : PreOrder (makes parent).
Proof.
  split; [by intros d; split_and!|]. intros d1 d2 d3 (H1 & G1 & N1) (H2 & G2 & N2). split_and!; by etrans.
Qed.
Lemma create_makes l d d' : create_dir_all_at d l = Some d' → makes l d d'.
Proof.
  intros H. split; [|split; [by eapply create_dirs_grows|by eapply create_dirs_new]].
  intros k Hk. apply (create_dirs_outside _ _ _ _ H).
  by intros [? _].
Qed.

(** The law of [tempfile]: its directory is new. *)
Definition temp_fresh : Prop := ∀ d l k, d !! (l ++ [temp_name w d l] ++ k) = None.
Lemma ensure_parent_outcome q parent s s' r :
  at_ w q = parent → wf_disk (disk s) →
  (_ ← check_fs_write_permission w q; have ← exists_ w q;
   when (negb have) (create_dir_all w q "Failed to create parent directory: ")) s = Some (s', r) →
  makes parent (disk s) (disk s') ∧ wf_disk (disk s').
Proof.
  intros Hq Hwf H.
  assert (steps (on_disks (λ d d', wf_disk d → makes parent d d' ∧ wf_disk d')) 
    (_ ← check_fs_write_permission w q; have ← exists_ w q;
     when (negb have) (create_dir_all w q "Failed to create parent directory: "))) as Hsteps;
    [|by apply Hsteps in H; apply H].
  clear H. unfold create_dir_all. rewrite Hq.
  assert (PreOrder (λ d d' : Disk, wf_disk d → makes parent d d' ∧ wf_disk d')) as Hpre.
  { split; [by intros d; split|]. intros d1 d2 d3 H1 H2 H. destruct (H1 H) as [M1 W1].
    destruct (H2 W1) as [M2 W2]. split; [by etrans|done]. }
  run_steps. apply steps_on_disks; [done|]. intros d d' E Hd. split; [by apply create_makes|eauto with amber].
Qed.

Lemma read_at_insert_dir d l n k bytes :
  read_at (<[l ++ [n] := DirNode]> d) k = Some bytes → read_at d k = Some bytes.
Proof.
  apply read_at_only_dirs_new. intros k' x Hk. apply lookup_insert_Some in Hk as [[_ <-]|[_ Hk]]; auto.
Qed.
Definition installed (d1 d' : Disk) (tarball target : loc) : Prop :=
  ∃ bytes entries tree, read_at d1 tarball = Some bytes ∧ untar w bytes = Some entries ∧
    unpacked_tree entries tree ∧ ∀ k, d' !! (target ++ k) = tree !! k.
(** Dropping the temporary directory removes it and all below it, nothing else. *)
Lemma lookup_dropped parent tmp d k :
  dir_at d (parent ++ [tmp]) = true →
  (remove_dir_all_at d (parent ++ [tmp]) .unwrap_or d) !! k
  = if bool_decide (below (parent ++ [tmp]) k) then None else d !! k.
Proof.
  intros Hd. unfold remove_dir_all_at. rewrite Hd, bool_decide_eq_true_2 by (by destruct parent).
  simpl. apply lookup_remove_tree.
Qed.
Lemma dropped_restores parent tmp d1 d :
  (∀ k, below (parent ++ [tmp]) k → d1 !! k = None) → dir_at d (parent ++ [tmp]) = true →
  (∀ k, ¬ below (parent ++ [tmp]) k → d !! k = d1 !! k) →
  same_outside (λ _, False) d1 (remove_dir_all_at d (parent ++ [tmp]) .unwrap_or d).
Proof.
  intros Hnone Hd Hsame k _. rewrite lookup_dropped by done.
  case_bool_decide; [by rewrite Hnone|by apply Hsame].
Qed.
Lemma staged_fresh parent tmp d1 d :
  (∀ k, d1 !! ((parent ++ [tmp]) ++ k) = None) → ready d1 parent → d = <[parent ++ [tmp] := DirNode]> d1 →
  staged d parent tmp.
Proof.
  intros Hfresh Hr ->. set (root := parent ++ [tmp]) in *.
  split; [|intros k Hk; rewrite lookup_insert_ne; [apply Hfresh|];
    intros E; apply Hk, (app_inv_head root); by rewrite app_nil_r].
  apply ready_snoc; [|apply node_at_insert_eq]. eapply keeps_dirs_ready, Hr.
  apply grows_keeps_dirs, grows_insert_fresh. rewrite <-(app_nil_r root). apply Hfresh.
Qed.
(** The swap leaves the emptied temporary directory itself in place. *)
Lemma swapped_keeps_root parent n tmp d2 d3 :
  n ≠ tmp → dir_at d2 (parent ++ [tmp]) = true →
  (∀ k, d3 !! k = if bool_decide (below (parent ++ [n]) k)
                  then d2 !! (((parent ++ [tmp]) ++ ["package" : rstr]) ++ drop (length (parent ++ [n])) k)
                  else if bool_decide (below ((parent ++ [tmp]) ++ ["package" : rstr]) k) then None
                  else d2 !! k) →
  dir_at d3 (parent ++ [tmp]) = true.
Proof.
  intros Hne Hst%bool_decide_eq_true_1 Hd. apply bool_decide_eq_true_2.
  assert (∀ d, node_at d (parent ++ [tmp]) = d !! (parent ++ [tmp])) as En by (by destruct parent).
  rewrite En in *. rewrite Hd, !bool_decide_eq_false_2; [done| |].
  - intros Hb2%prefix_length. rewrite !length_app in Hb2. simpl in Hb2. lia.
  - intros Hb2. by eapply target_not_below_root, below_refl.
Qed.

Lemma tempdir_outcome parent n tmp tarball target_dir d1 s1 s' r :
  (∀ k, d1 !! ((parent ++ [tmp]) ++ k) = None) → ready d1 parent → n ≠ tmp →
  at_ w target_dir = parent ++ [n] → disk s1 = <[parent ++ [tmp] := DirNode]> d1 →
  with_tempdir (parent ++ [tmp]) (unpack_and_replace w tarball target_dir (parent ++ [tmp])) s1 = Some (s', r) →
  same_outside (below (parent ++ [n])) d1 (disk s') ∧
  match r with
  | Err e => after_failure e (parent ++ [n]) d1 (disk s')
  | Ok p => p = target_dir ∧ installed d1 (disk s') (at_ w tarball) (parent ++ [n])
  end.
Proof.
  intros Hfresh Hr Hne Hat Hs1 H. pose proof (staged_fresh _ _ _ _ Hfresh Hr Hs1) as Hst.
  unfold with_tempdir in H. rewrite unpack_and_replace_halves in H.
  set (root := parent ++ [tmp]) in *.
  assert (∀ d, keeps_dirs (disk s1) d → dir_at d root = true) as Hdir.
  { intros d Hk. apply bool_decide_eq_true_2. eapply keeps_dirs_node; [exact Hk|]. by apply Hst. }
  assert (∀ k, below root k → d1 !! k = None) as Hnone by (intros k [t ->]; apply Hfresh).
  assert (∀ k, ¬ below root k → disk s1 !! k = d1 !! k) as Hsame.
  { intros k Hk. rewrite Hs1. apply lookup_insert_ne. intros <-. apply Hk, below_refl. }
  destruct ((_ ← unpack_only _ _; swap_only _ _) s1) as [[s3 r3]|] eqn:E; [|done].
  injection H as <- ->. cbn [disk with_disk].
  apply bind_outcome in E as [(s2 & u & E1 & E2)|(e & E1 & ->)];
    pose proof (unpack_only_outcome _ _ _ _ _ _ Hst E1) as [[Hout Hkeep] Hok].
  2:{ assert (same_outside (λ _, False) d1 (remove_dir_all_at (disk s3) root .unwrap_or (disk s3))) as Hall;
      [|split; [by eapply same_outside_mono, Hall|apply unchanged_after_failure; intros k _; apply Hall; by intros []]].
      apply dropped_restores; auto. intros k Hk. by rewrite Hout, Hsame. }
  destruct (Hok u eq_refl) as (Hr2 & bytes & entries & tree & Hb & Hu & Ht & Htree).
  assert (∀ k, ¬ below root k → disk s2 !! k = d1 !! k) as Hsame2 by (intros k Hk; by rewrite Hout, Hsame).
  apply (swap_only_outcome _ _ parent n tmp) in E2 as [(e & -> & He & Hs3 & Hpart)|[-> Hd]]; try done.
  - assert (dir_at (disk s3) root = true) as Hd3.
    { apply bool_decide_eq_true_2. assert (∀ d, node_at d root = d !! root) as En by (by destruct parent).
      rewrite En, Hs3, <-En by (intros Hb0; by eapply target_not_below_root, below_refl).
      assert (dir_at (disk s2) root = true) as Hd%bool_decide_eq_true_1 by auto. exact Hd. }
    split.
    + intros k Hk. unfold root. rewrite lookup_dropped by done. case_bool_decide as Hbl; [by rewrite Hnone|].
      rewrite Hs3 by done. by apply Hsame2.
    + unfold after_failure. rewrite decide_True by done. intros k x Hk. unfold root.
      rewrite lookup_dropped by done. rewrite bool_decide_eq_false_2 by (by eapply target_not_below_root; eauto).
      intros Hx%Hpart; [|done]. rewrite Hsame2 in Hx; [done|]. by eapply target_not_below_root; eauto.
  - assert (dir_at (disk s3) root = true) as Hd3 by (eapply swapped_keeps_root; eauto).
    split.
    + intros k Hk. unfold root. rewrite lookup_dropped by done. case_bool_decide as Hbl; [by rewrite Hnone|].
      rewrite Hd, !bool_decide_eq_false_2; [by apply Hsame2| |done].
      intros [t ->]. apply Hbl. rewrite <-app_assoc. by eexists.
    + split; [done|]. exists bytes, entries, tree. split.
      { rewrite Hs1 in Hb. by apply read_at_insert_dir in Hb. }
      split; [done|]. split; [done|]. intros k. unfold root. rewrite lookup_dropped by done.
      assert (below (parent ++ [n]) ((parent ++ [n]) ++ k)) as Hbk by (by eexists).
      rewrite bool_decide_eq_false_2 by (by eapply target_not_below_root; eauto).
      rewrite Hd, bool_decide_eq_true_2 by done. by rewrite drop_app_length, Htree.
Qed.

Lemma after_makes parent n (target_dir : path) (tarball : loc) d d1 d' (r : result path PmError) :
  makes parent d d1 → same_outside (below (parent ++ [n])) d1 d' →
  match r with
  | Err e => after_failure e (parent ++ [n]) d1 d'
  | Ok p => p = target_dir ∧ installed d1 d' tarball (parent ++ [n])
  end →
  (∀ k, ¬ below (parent ++ [n]) k → ¬ k `prefix_of` parent → d' !! k = d !! k) ∧
  (∀ k x, ¬ below (parent ++ [n]) k → d !! k = Some x → d' !! k = Some x) ∧
  match r with
  | Err e => after_failure e (parent ++ [n]) d d'
  | Ok p => p = target_dir ∧ installed d d' tarball (parent ++ [n])
  end.
Proof.
  intros (Hm & Hg & Hnew) Hout Hr. split_and!.
  - intros k Hk Hp. by rewrite Hout, Hm.
  - intros k x Hk Hx. rewrite Hout by done. by apply Hg.
  - destruct r as [p|e].
    + destruct Hr as [-> (bytes & entries & tree & Hb & H)]. split; [done|].
      exists bytes, entries, tree. split; [by eapply read_at_only_dirs_new|done].
    + revert Hr. apply after_failure_eq; [|done]. intros k Hk. apply Hm. intros Hp.
      by eapply parent_not_below_target.
Qed.
Lemma makes_only parent n target_dir tarball d d' e :
  makes parent d d' →
  (∀ k, ¬ below (parent ++ [n]) k → ¬ k `prefix_of` parent → d' !! k = d !! k) ∧
  (∀ k x, ¬ below (parent ++ [n]) k → d !! k = Some x → d' !! k = Some x) ∧
  match (Err e : result path PmError) with
  | Err e => after_failure e (parent ++ [n]) d d'
  | Ok p => p = target_dir ∧ installed d d' tarball (parent ++ [n])
  end.
Proof. intros H. eapply after_makes; [done|done|]. by apply unchanged_after_failure. Qed.

Lemma extract_confined_outcome tarball pkg ns n s s' r :
  temp_fresh → (∀ d l, temp_name w d l ≠ n) → wf_disk (disk s) →
  components pkg = Normal <$> (ns ++ [n]) →
  extract_package w config tarball pkg s = Some (s', r) →
  let parent := at_ w (node_modules_dir config) ++ ns in
  let target := parent ++ [n] in
  (∀ k, ¬ below target k → ¬ k `prefix_of` parent → disk s' !! k = disk s !! k) ∧
  (∀ k x, ¬ below target k → disk s !! k = Some x → disk s' !! k = Some x) ∧
  match r with
  | Err e => after_failure e target (disk s) (disk s')
  | Ok p => p = join_str (node_modules_dir config) pkg ∧
            installed (disk s) (disk s') (at_ w tarball) target
  end.
Proof.
  intros Hfresh Hn Hwf Hpkg H parent target. unfold extract_package in H.
  destruct (parent_plain (node_modules_dir config) pkg ns n Hpkg) as (q & Hq & Hat).
  assert (at_ w (join_str (node_modules_dir config) pkg) = target) as Htarget.
  { rewrite (at_plain _ _ _ Hpkg). apply app_assoc. }
  rewrite Hq in H. fold parent in Hat.
  apply bind_outcome in H as [(s1 & u1 & H1 & H)|(e & H1 & ->)].
  2:{ refine (makes_only parent n [] [] _ _ _ _). exact (steps_check w (makes parent) _ _ _ _ _ _ H1). }
  apply check_ok in H1. apply bind_outcome in H as [(s2 & u2 & H2 & H)|(e & H2 & ->)].
  2:{ refine (makes_only parent n [] [] _ _ _ _). rewrite <-H1. exact (steps_check w (makes parent) _ _ _ _ _ _ H2). }
  apply check_ok in H2. rewrite <-H1, <-H2 in Hwf |- *.
  apply bind_outcome in H as [(s3 & u3 & H3 & H)|(e & H3 & ->)];
    pose proof (ensure_parent_outcome q parent _ _ _ Hat Hwf H3) as [Hmakes Hwf3].
  2:{ by refine (makes_only parent n [] [] _ _ _ _). }
  cbn [ok_or] in H. rewrite bind_ret, bind_get_disk, bind_on_disk, Hat in H.
  destruct (dir_at (disk s3) parent) eqn:Ed; cbn [andb] in H; [|injection H as <- <-; by refine (makes_only parent n [] [] _ _ _ _)].
  destruct (negb _) eqn:Ex; [|injection H as <- <-; by refine (makes_only parent n [] [] _ _ _ _)].
  apply bool_decide_eq_true in Ed.
  set (tmp := temp_name w (disk s3) parent) in H.
  assert (∀ k, disk s3 !! ((parent ++ [tmp]) ++ k) = None) as Hnew by (intros k; rewrite <-app_assoc; apply Hfresh).
  destruct (tempdir_outcome parent n tmp tarball _ (disk s3)
    (with_disk s3 (<[parent ++ [tmp] := DirNode]> (disk s3))) s' r Hnew (wf_ready _ _ Hwf3 Ed)
    (not_eq_sym (Hn _ _)) Htarget eq_refl H) as [Hout Hr].
  by refine (after_makes parent n _ _ _ _ _ r _ _ _).
Qed.
End unpacking.
