(* ===== verification/InstallTheorems.v ===== *)
(** * What an installed package is

    Theorems about [PackageManager], continued: what is unpacked was verified, a pinned
    install is the same everywhere, installing ends, and what the lock
    check and pruning guarantee. *)

From S2P Require Import Prelude Json RustPath DiskFs Permissions Semver PackageManager PackageTheorems.

Section install.
Context (w : World) (config : PackageManagerConfig).

(** ** Downloads *)

Definition wf_kept (d d' : Disk) : Prop := wf_disk d → wf_disk d'.
#[export] Instance wf_kept_preorder : PreOrder wf_kept.
Proof. split; [intros d H; exact H|intros d1 d2 d3 H1 H2 H; apply H2, H1, H]. Qed.
Lemma steps_create_dir_all p text : steps (on_disks wf_kept) (create_dir_all w p text).
Proof. apply steps_on_disks; [typeclasses eauto|]. intros d d' E H. eauto with amber. Qed.
Lemma steps_write_file p data text : steps (on_disks wf_kept) (write_file w p data text).
Proof. apply steps_on_disks; [typeclasses eauto|]. intros d d' E H. eauto with amber. Qed.
Lemma steps_remove_ignored p : steps (on_disks wf_kept) (on_disk_ignored (λ d, remove_file_at d (at_ w p))).
Proof. apply steps_on_disk_ignored; [typeclasses eauto|intros s d E H; cbn in *; eauto with amber|by intros s H]. Qed.
Lemma steps_run_curl R `{!PreOrder R} url : steps (on_disks R) (run_curl w url).
Proof. intros s s' r [= <- <-]. by unfold on_disks. Qed.
Lemma steps_run_curl_to url p : steps (on_disks wf_kept) (run_curl_to w url p).
Proof.
  intros s s' r. unfold run_curl_to, on_disks, wf_kept.
  destruct (curl_to w _ _) as [[[data|] status]|]; [| |by intros [= <- _]].
  - destruct (write_at _ _ _) eqn:E; intros [= <- _]; [|done]. cbn. eauto with amber.
  - by intros [= <- _].
Qed.
Lemma steps_verify_at R `{!PreOrder R} p i sh : steps R (verify_at w p i sh).
Proof. unfold verify_at. run_steps. Qed.
#[local] Hint Resolve steps_create_dir_all steps_write_file steps_remove_ignored steps_run_curl
  steps_run_curl_to steps_verify_at : steps.
Lemma steps_fetch R `{!PreOrder R} name : steps (on_disks R) (fetch_package_info w config name).
Proof. unfold fetch_package_info. run_steps. Qed.
#[local] Hint Resolve steps_fetch : steps.
Lemma steps_download name version locked :
  steps (on_disks wf_kept) (download_package_with_locked_dependency w config name version locked).
Proof. unfold download_package_with_locked_dependency, download_verified. run_steps. Qed.
Lemma steps_version_to_install R `{!PreOrder R} name range locked :
  steps (on_disks R) (version_to_install w config name range locked).
Proof. unfold version_to_install, resolve_version. run_steps. Qed.

Lemma verify_read bytes i sh u :
  verify_package_tarball w bytes i sh = Ok u → ∃ b, bytes = Some b.
Proof.
  unfold verify_package_tarball, verify_sri_integrity, verify_sha1_shasum.
  destruct (non_empty i), (non_empty sh), bytes; eauto; done.
Qed.
Definition pin_of (locked : option LockedDependency) : option rstr := l ← locked; non_empty (locked_integrity l).
(** The file a download leaves was verified, and against the pin if there is one. *)
Lemma download_is_verified name version locked s s' d :
  download_package_with_locked_dependency w config name version locked s = Some (s', Ok d) →
  ∃ bytes i sh, read_at (disk s') (at_ w (downloaded_path d)) = Some bytes ∧
    verify_package_tarball w (Some bytes) i sh = Ok tt ∧
    (∀ pin, pin_of locked = Some pin → i = Some pin).
Proof.
  unfold download_package_with_locked_dependency. cbv zeta. fold (pin_of locked). intros H.
  do 8 (apply bind_ok in H as (? & ? & _ & H)).
  apply bind_ok in H as (s1 & cached & _ & H). apply bind_ok in H as (s2 & fresh & Hfresh & H).
  apply bind_ok in H as (s3 & u & Hwhen & H). injection H as -> <-. cbn [downloaded_path].
  match type of Hwhen with when _ (download_verified _ _ _ _ ?i ?sh) _ = _ => set (vi := i) in *; set (vs := sh) in * end.
  set (p := join_str _ (version ++ ".tgz")) in *.
  assert (∃ u, verify_package_tarball w (read_at (disk s') (at_ w p)) vi vs = Ok u) as [v Hv].
  { destruct fresh; cbn [when] in Hwhen.
    - unfold download_verified in Hwhen. do 5 (apply bind_ok in Hwhen as (? & ? & _ & Hwhen)).
      apply bind_ok in Hwhen as (s4 & verdict & Hver & Hwhen). unfold verify_at in Hver.
      rewrite bind_get_disk in Hver. injection Hver as -> <-.
      destruct (verify_package_tarball _ _ _ _) as [v|] eqn:E; [injection Hwhen as <-; eauto|].
      by apply bind_ok in Hwhen as (? & ? & _ & ?).
    - injection Hwhen as <-. destruct cached; [|done].
      apply bind_ok in Hfresh as (s4 & verdict & Hver & Hfresh). unfold verify_at in Hver.
      rewrite bind_get_disk in Hver. injection Hver as -> <-.
      destruct (verify_package_tarball _ _ _ _) as [v|] eqn:E; [injection Hfresh as <-; eauto|].
      apply bind_ok in Hfresh as (? & ? & _ & Hfresh). done. }
  destruct (verify_read _ _ _ _ Hv) as [bytes Hb]. rewrite Hb in Hv. destruct v.
  exists bytes, vi, vs. split; [done|]. split; [done|]. intros pin Hpin. unfold vi. by rewrite Hpin.
Qed.

(** ** Installing one package *)

Definition meta_name : rstr := ".amberjs-integrity.json".
Lemma at_meta p : at_ w (meta_path p) = at_ w p ++ [meta_name].
Proof. apply at_plain. vm_compute. done. Qed.
(** [target] holds what some verified archive unpacks to, and the metadata. *)
Definition verified_install (locked : option LockedDependency) (d : Disk) (target : loc) : Prop :=
  ∃ bytes i sh entries tree, verify_package_tarball w (Some bytes) i sh = Ok tt ∧
    (∀ pin, pin_of locked = Some pin → i = Some pin) ∧ untar w bytes = Some entries ∧
    unpacked_tree entries tree ∧ ∀ k, k ≠ [meta_name] → d !! (target ++ k) = tree !! k.
Lemma install_one_verified pkg ns n range locked s s' r :
  temp_fresh w → (∀ d l, temp_name w d l ≠ n) → wf_disk (disk s) →
  components pkg = Normal <$> (ns ++ [n]) →
  install_one w config pkg range locked s = Some (s', Ok r) →
  verified_install locked (disk s') ((at_ w (node_modules_dir config) ++ ns) ++ [n]) ∧
  name (package r) = pkg ∧
  match locked with
  | Some l => version (package r) = locked_version l ∧
              dependency_request_matches_locked_version range (locked_version l) = true
  | None => True
  end.
Proof.
  intros Hfresh Hn Hwf Hpkg H. unfold install_one in H.
  apply bind_ok in H as (s1 & u1 & H1 & H). apply bind_ok in H as (s2 & v & H2 & H).
  apply bind_ok in H as (s3 & dl & H3 & H). apply bind_ok in H as (s4 & p & H4 & H).
  apply bind_ok in H as (s5 & u5 & H5 & H). injection H as -> <-. cbn [package name version].
  assert (wf_disk (disk s3)) as Hwf3.
  { apply (steps_download _ _ _ _ _ _ H3). apply (steps_version_to_install wf_kept _ _ _ _ _ _ H2).
    assert (steps (on_disks wf_kept) (check_package_install_write_permissions w config pkg)) as Hc
      by (unfold check_package_install_write_permissions; run_steps).
    by apply (Hc _ _ _ H1). }
  apply download_is_verified in H3 as (bytes & i & sh & Hb & Hv & Hpin).
  destruct (extract_confined_outcome w config _ pkg ns n s3 s4 _ Hfresh Hn Hwf3 Hpkg H4)
    as (_ & _ & -> & (bytes' & entries & tree & Hb' & Hu & Ht & Htree)).
  rewrite Hb in Hb'. injection Hb' as <-. split; [|split; [done|]].
  - exists bytes, i, sh, entries, tree. do 4 (split; [done|]). intros k Hk.
    unfold write_package_integrity_meta in H5. apply bind_ok in H5 as (s6 & u6 & H6 & H5).
    apply check_ok in H6. unfold write_file in H5. apply on_disk_ok in H5 as (d & E & ->). cbn [disk with_disk].
    rewrite H6 in E. rewrite at_meta, (at_plain _ _ _ _ Hpkg), app_assoc in E.
    rewrite <-Htree. unfold write_at in E. destruct (_ && _); [|done]. injection E as <-.
    apply lookup_insert_ne. intros E. apply app_inv_head in E. done.
  - destruct locked as [l|]; [|done]. unfold version_to_install in H2.
    destruct (dependency_request_matches_locked_version _ _); [|done]. by injection H2 as _ <-.
Qed.
End install.

(** C19. Installing an archive is confined, and all or nothing up to the swap.  Whatever
    paths its entries spell, nothing that exists outside [node_modules/<name>] changes, and
    only the directories leading there can be new; a failure at the permissions, the
    archive or any of its entries leaves the installed package as it was; a success puts
    there what the entries of the archive unpack to, and nothing else.  The swap is no
    single step: when the old package cannot be removed, or is removed and the new one
    cannot be moved there, a part of the old package is left, possibly nothing, and
    nothing of the new one ([InstallWitness.failed_swap_loses_the_package]). *)
Theorem extract_confined_and_atomic w config tarball pkg ns n s s' r :
  temp_fresh w → (∀ d l, temp_name w d l ≠ n) → wf_disk (disk s) →
  components pkg = Normal <$> (ns ++ [n]) →
  extract_package w config tarball pkg s = Some (s', r) →
  let parent := at_ w (node_modules_dir config) ++ ns in
  let target := parent ++ [n] in
  (∀ k, ¬ below target k → ¬ k `prefix_of` parent → disk s' !! k = disk s !! k) ∧
  (∀ k x, ¬ below target k → disk s !! k = Some x → disk s' !! k = Some x) ∧
  match r with
  | Err e => after_failure e target (disk s) (disk s')
  | Ok p => p = join_str (node_modules_dir config) pkg ∧
            installed w (disk s) (disk s') (at_ w tarball) target
  end.
Proof. apply extract_confined_outcome. Qed.

(** ** The same package everywhere *)

Lemma pin_non_empty locked pin : pin_of locked = Some pin → non_empty (Some pin) = Some pin.
Proof.
  unfold pin_of, non_empty. destruct locked as [l|]; [|done]. cbn [mbind option_bind].
  destruct (locked_integrity l) as [i|]; [|done]. cbn [mbind option_bind].
  destruct (bool_decide (trim i = [])) eqn:E; [done|]. intros [= <-]. by rewrite E.
Qed.
(** A pin of one SHA-512 token fixes the digest. *)
Lemma pinned_digest w locked pin b64 bytes i sh :
  pin_of locked = Some pin → split_whitespace pin = ["sha512-" ++ b64] → i = Some pin →
  verify_package_tarball w (Some bytes) i sh = Ok tt → base64_decode w b64 = Some (sha512 w bytes).
Proof.
  intros Hpin Htok -> H. unfold verify_package_tarball in H. rewrite (pin_non_empty _ _ Hpin) in H.
  unfold verify_sri_integrity in H. rewrite Htok in H. cbn [sri_tokens] in H.
  assert (split_once "-" ("sha512-" ++ b64) = Some (("sha512" : rstr), b64)) as E.
  { apply (split_once_app "-" "sha512" b64). by apply not_in. }
  rewrite E, bool_decide_eq_true_2 in H by done. destruct (base64_decode w b64) as [expected|]; [|done].
  case_bool_decide; [by subst|done].
Qed.

(** C20. A pinned install is reproducible.  Two machines, with whatever registry answers, caches,
    permissions and disks, that install the same package under a lock entry with
    the same SHA-512 integrity and succeed end with the same files in the package's
    directory, the installer's metadata file aside; the alternative is a collision of SHA-512. *)
Theorem pinned_install_reproducible w1 w2 c1 c2 pkg ns n range1 range2 lock1 lock2 pin b64
    s1 s2 s1' s2' r1 r2 :
  sha512 w1 = sha512 w2 → base64_decode w1 = base64_decode w2 → untar w1 = untar w2 →
  temp_fresh w1 → temp_fresh w2 → (∀ d l, temp_name w1 d l ≠ n ∧ temp_name w2 d l ≠ n) →
  wf_disk (disk s1) → wf_disk (disk s2) → components pkg = Normal <$> (ns ++ [n]) →
  pin_of lock1 = Some pin → pin_of lock2 = Some pin → split_whitespace pin = ["sha512-" ++ b64] →
  install_one w1 c1 pkg range1 lock1 s1 = Some (s1', Ok r1) →
  install_one w2 c2 pkg range2 lock2 s2 = Some (s2', Ok r2) →
  (∀ k, k ≠ [meta_name] →
     disk s1' !! (at_ w1 (node_modules_dir c1) ++ ns ++ [n] ++ k)
     = disk s2' !! (at_ w2 (node_modules_dir c2) ++ ns ++ [n] ++ k)) ∨
  ∃ b1 b2, b1 ≠ b2 ∧ sha512 w1 b1 = sha512 w1 b2.
Proof.
  intros Hsha Hb64 Huntar Hf1 Hf2 Hn Hwf1 Hwf2 Hpkg Hp1 Hp2 Htok H1 H2.
  apply (install_one_verified w1 c1 pkg ns n) in H1 as [(b1 & i1 & sh1 & es1 & t1 & V1 & P1 & U1 & T1 & D1) _];
    [|done|apply Hn|done|done].
  apply (install_one_verified w2 c2 pkg ns n) in H2 as [(b2 & i2 & sh2 & es2 & t2 & V2 & P2 & U2 & T2 & D2) _];
    [|done|apply Hn|done|done].
  apply (pinned_digest w1 lock1 pin b64) in V1; [|done|done|by apply P1].
  apply (pinned_digest w2 lock2 pin b64) in V2; [|done|done|by apply P2].
  rewrite <-Hb64, V1, <-Hsha in V2. injection V2 as Hd.
  destruct (base.decide (b1 = b2)) as [->|Hb]; [left|right; eauto].
  rewrite <-Huntar, U1 in U2. injection U2 as <-. rewrite (unpacked_tree_unique _ _ _ T1 T2) in D1.
  intros k Hk. specialize (D1 k Hk). specialize (D2 k Hk). rewrite <-!app_assoc in D1, D2. congruence.
Qed.

(** ** Installing ends *)

Definition total {A} (m : M A) : Prop := ∀ s, ∃ s' r, m s = Some (s', r).
Lemma total_ret {A} (a : A) : total (mret a).
Proof. intros s. by eexists _, _. Qed.
Lemma total_throw {A} e : total (throw e : M A).
Proof. intros s. by eexists _, _. Qed.
Lemma total_bind {A B} (m : M A) (f : A → M B) : total m → (∀ a, total (f a)) → total (m ≫= f).
Proof.
  intros Hm Hf s. destruct (Hm s) as (s1 & [a|e] & E); unfold mbind, M_bind; rewrite E; [apply Hf|eauto].
Qed.
Lemma total_ok_or {A} (o : option A) text : total (ok_or o text).
Proof. destruct o; [apply total_ret|apply total_throw]. Qed.
Lemma total_lift {A} (r : result A PmError) : total (lift r).
Proof. intros s. by eexists _, _. Qed.
Lemma total_when b m : total m → total (when b m).
Proof. destruct b; [done|intros _; apply total_ret]. Qed.
Lemma total_for_each {A} (l : list A) f : (∀ x, total (f x)) → total (for_each l f).
Proof. intros Hf. induction l; [apply total_ret|]. apply total_bind; auto. Qed.
Lemma total_on_disk f text : total (on_disk f text).
Proof. intros s. unfold on_disk. destruct (f (disk s)); eauto. Qed.
Lemma total_on_disk_ignored f : total (on_disk_ignored f).
Proof. intros s. unfold on_disk_ignored. eauto. Qed.
Lemma total_get_disk : total get_disk.
Proof. intros s. by eexists _, _. Qed.
Lemma total_check w k a r : total (check_permission w k a r).
Proof. intros s. unfold check_permission. destruct (check_global_permission _ _ _ _ _ _ _). eauto. Qed.
Lemma total_tempdir {A} root (m : M A) : total m → total (with_tempdir root m).
Proof. intros Hm s. unfold with_tempdir. destruct (Hm s) as (s1 & r & ->). eauto. Qed.
Lemma total_run_curl w url : total (run_curl w url).
Proof. intros s. unfold run_curl. eauto. Qed.
Lemma total_run_curl_to w url p : total (run_curl_to w url p).
Proof.
  intros s. unfold run_curl_to. destruct (curl_to w _ _) as [[[data|] status]|]; [|eauto|eauto].
  destruct (write_at _ _ _); eauto.
Qed.
Create HintDb total.
#[export] Hint Resolve total_ret total_throw total_ok_or total_lift total_on_disk total_on_disk_ignored
  total_get_disk total_check total_run_curl total_run_curl_to : total.
(** A computation without loops and recursion is total if its atoms are. *)
Ltac run_total :=
  repeat first
    [ progress intros
    | apply total_bind
    | apply total_when
    | apply total_for_each
    | apply total_tempdir
    | match goal with
      | |- total (if ?b then _ else _) => destruct b
      | |- total (match ?x with _ => _ end) => destruct x
      end ];
  eauto with total.
Lemma total_remove_installed w l : total (remove_installed w l).
Proof. intros s. unfold remove_installed, on_disk. repeat case_match; eauto. Qed.
#[export] Hint Resolve total_remove_installed : total.
Lemma total_install_one w config name range locked : total (install_one w config name range locked).
Proof.
  unfold install_one, check_package_install_write_permissions, version_to_install, resolve_version,
    fetch_package_info, download_package_with_locked_dependency, download_verified, verify_at,
    extract_package, unpack_and_replace, move_into_place, unpack_entry, write_package_integrity_meta, write_file, read_file,
    exists_, create_dir_all, check_fs_read_permission, check_fs_write_permission,
    check_network_connect_permission, check_process_execute_permission, fail.
  run_total.
Qed.

Section termination.
Context (w : World) (config : PackageManagerConfig) (U : gset rstr).
(** [rec] ends from every set of seen names not smaller than [seen], and only adds names. *)
Definition ends_above (seen : gset rstr)
    (rec : gset rstr → rstr → rstr → M (gset rstr * ResolutionResult)) : Prop :=
  ∀ seen' dep range s, seen ⊆ seen' → dep ∈ U →
    ∃ s' r, rec seen' dep range s = Some (s', r) ∧ ∀ seen'' x, r = Ok (seen'', x) → seen' ⊆ seen''.
Lemma smaller_rest dep seen seen' :
  dep ∈ U → dep ∉ seen → {[dep]} ∪ seen ⊆ seen' → size (U ∖ seen') < size (U ∖ seen).
Proof.
  intros HdepU Hdep Hs. apply subset_size. split.
  - intros x [Hx Hx']%elem_of_difference. apply elem_of_difference. split; [done|].
    intros Hin. by apply Hx', Hs, elem_of_union_r.
  - intros Hsub. assert (dep ∈ U ∖ seen') as [_ H]%elem_of_difference by (apply Hsub, elem_of_difference; done).
    by apply H, Hs, elem_of_union_l, elem_of_singleton.
Qed.
Lemma install_each_ends seen rec deps s seen' :
  ends_above seen rec → Forall (λ d, d.1 ∈ U) deps → seen ⊆ seen' →
  ∃ s' r, install_each rec seen' deps s = Some (s', r) ∧ ∀ seen'', r = Ok seen'' → seen' ⊆ seen''.
Proof.
  intros Hrec Hdeps. revert s seen'. induction Hdeps as [|[dep range] deps Hd _ IH]; intros s seen' Hs.
  { eexists _, _. split; [done|]. by intros ? [= <-]. }
  cbn [install_each]. destruct (Hrec seen' dep range s Hs Hd) as (s1 & [[seen1 x]|e] & E & Hgrow);
    unfold mbind, M_bind; rewrite E; [|eexists _, _; split; [done|]; by intros].
  specialize (Hgrow _ _ eq_refl). destruct (IH s1 seen1) as (s2 & r & E2 & Hg2); [set_solver|].
  exists s2, r. split; [done|]. intros seen'' ->. specialize (Hg2 _ eq_refl). set_solver.
Qed.
(** The order of a [HashMap] is an order of its entries, and every name that a
    [package.json] on the way can depend on is in [U]. *)
Context (Horder : ∀ m : Ranges, hash_order w m ≡ₚ map_to_list m)
  (HU : ∀ text p deps, parse_package w text = Some p → dependencies p = Some deps → dom deps ⊆ U).

Lemma tree_ends seen rec p s :
  ends_above seen rec →
  ∃ s' r, install_package_dependency_tree w rec p seen s = Some (s', r) ∧
          ∀ seen', r = Ok seen' → seen ⊆ seen'.
Proof using Horder HU.
  intros Hrec. unfold install_package_dependency_tree. cbv zeta.
  unfold mbind at 1, M_bind at 1. unfold exists_. rewrite bind_get_disk. cbn [mret M_ret].
  destruct (exists_at _ _); cbn [negb]; [|by eexists _, _; split; [done|]; intros ? [= <-]].
  assert (total (parse_package_json w (join_str p "package.json"))) as Ht
    by (unfold parse_package_json, check_fs_read_permission, read_file; run_total).
  destruct (Ht s) as (s1 & [pkg|e] & E); unfold mbind, M_bind; rewrite E; [|by eexists _, _; split].
  destruct (dependencies pkg) as [deps|] eqn:Edeps; [|by eexists _, _; split; [done|]; intros ? [= <-]].
  apply (install_each_ends seen); [done| |done].
  unfold parse_package_json in E. apply bind_ok in E as (s2 & u & _ & E).
  apply bind_ok in E as (s3 & text & _ & E). apply ok_or_ok in E as [_ E].
  apply Forall_forall. intros [dep range] Hin. rewrite Horder in Hin. apply elem_of_map_to_list in Hin.
  apply (HU _ _ _ E Edeps). by apply elem_of_dom_2 in Hin.
Qed.
Lemma install_recursive_ends fuel :
  ∀ seen dep range locked s, size (U ∖ seen) < fuel → dep ∈ U →
    ∃ s' r, install_package_recursive w config fuel dep range locked seen s = Some (s', r) ∧
            ∀ seen' x, r = Ok (seen', x) → seen ⊆ seen'.
Proof using Horder HU.
  induction fuel as [|fuel IH]; intros seen dep range locked s Hfuel Hdep; [lia|].
  cbn [install_package_recursive]. case_bool_decide as Hin.
  { eexists _, _. split; [done|]. by intros ? ? [= <- _]. }
  destruct (total_install_one w config dep range locked s) as (s1 & [res|e] & E);
    unfold mbind, M_bind; rewrite E; [|eexists _, _; split; [done|]; by intros].
  assert (ends_above ({[dep]} ∪ seen) (λ seen dep_name dep_range,
    install_package_recursive w config fuel dep_name dep_range None seen)) as Hrec.
  { intros seen' dep' range' s' Hs Hd. apply IH; [|done].
    pose proof (smaller_rest dep seen seen' Hdep Hin Hs). lia. }
  destruct (tree_ends _ _ (result_path res) s1 Hrec) as (s2 & [seen2|e] & E2 & Hg); rewrite E2.
  - eexists _, _. split; [done|]. intros ? ? [= <- _]. specialize (Hg _ eq_refl). set_solver.
  - eexists _, _. split; [done|]. by intros.
Qed.
End termination.

(** C21. Installing ends, cycles of dependencies included: with room for one more
    call than there are names the packages can depend on, the recursion always
    reaches an answer, whatever registry, disk and permissions do. *)
Theorem install_terminates w config U fuel name range s :
  (∀ m : Ranges, hash_order w m ≡ₚ map_to_list m) →
  (∀ text p deps, parse_package w text = Some p → dependencies p = Some deps → dom deps ⊆ U) →
  name ∈ U → size U < fuel →
  ∃ s' r, install_package w config fuel name range s = Some (s', r).
Proof.
  intros Horder HU Hname Hfuel. unfold install_package, install_package_with_locked_dependency.
  destruct (install_recursive_ends w config U Horder HU fuel ∅ name range None s) as (s1 & [[seen r]|e] & E & _);
    [|done| |]; [|unfold mbind, M_bind; rewrite E; eauto..].
  eapply Nat.le_lt_trans; [|exact Hfuel]. apply subseteq_size. set_solver.
Qed.
