(* ===== verification/PruneTheorems.v ===== *)
(** * What pruning removes

    Theorems about [PackageManager.prune]: it removes the undeclared packages, and
    nothing else. *)

From S2P Require Import Prelude Json RustPath DiskFs Permissions Semver PackageManager PackageTheorems.

(** Whatever is there afterwards was there before, unchanged. *)
Definition shrinks (d d' : Disk) : Prop := ∀ k, d' !! k = None ∨ d' !! k = d !! k.
#[export] Instance shrinks_preorder : PreOrder shrinks.
Proof.
  split; [by right|]. intros d1 d2 d3 H1 H2 k. destruct (H2 k) as [->| ->]; auto.
Qed.
Lemma shrinks_tree d l : shrinks d (remove_tree d l).
Proof. intros k. rewrite lookup_remove_tree. case_bool_decide; auto. Qed.
Lemma shrinks_gone d d' k : shrinks d d' → d !! k = None → d' !! k = None.
Proof. intros H Hk. destruct (H k) as [->| ->]; done. Qed.
(** Removals inside [Q]. *)
Definition prunes (Q : loc → Prop) (d d' : Disk) : Prop := same_outside Q d d' ∧ shrinks d d'.
#[export] Instance prunes_preorder Q : PreOrder (prunes Q).
Proof.
  split; [by intros d; split|]. intros d1 d2 d3 [H1 G1] [H2 G2]. split; by etrans.
Qed.
Lemma remove_dir_all_prunes Q l d d' :
  (∀ k, below l k → Q k) → remove_dir_all_at d l = Some d' → prunes Q d d'.
Proof.
  intros HQ H. split; [by eapply same_outside_mono, remove_dir_all_outside|].
  unfold remove_dir_all_at in H. destruct (_ && _); [|done]. injection H as <-. apply shrinks_tree.
Qed.
Lemma remove_dir_prunes Q l d d' : Q l → remove_dir_at d l = Some d' → prunes Q d d'.
Proof.
  unfold remove_dir_at. intros HQ. destruct (_ && _); [|done]. intros [= <-]. split.
  - intros k Hk. apply lookup_delete_ne. by intros ->.
  - intros k. destruct (base.decide (l = k)) as [->|]; [left; apply lookup_delete_eq|right; by apply lookup_delete_ne].
Qed.

Section prune.
Context (w : World) (config : PackageManagerConfig).
#[local] Notation nm := (at_ w (node_modules_dir config)).

(** Where an undeclared package lies: directly in [node_modules], or in a scope. *)
Definition undeclared_at (declared : gset rstr) (k : loc) : Prop :=
  ∃ n, n ∉ declared ∧ is_scope n = false ∧ n ≠ ".bin" ∧ n ≠ ".cache" ∧ below (nm ++ [n]) k.
Definition undeclared_in_scope (declared : gset rstr) (k : loc) : Prop :=
  ∃ org n, is_scope org = true ∧ org ++ slash :: n ∉ declared ∧ below (nm ++ [org; n]) k.
Definition scope_dir (k : loc) : Prop := ∃ org, is_scope org = true ∧ k = nm ++ [org].
Definition prunable (declared : gset rstr) (k : loc) : Prop :=
  undeclared_at declared k ∨ undeclared_in_scope declared k ∨ scope_dir k.

(** The entries of a directory, as [read_dir] gives them. *)
Definition entries_of (p : path) (names : list rstr) : list path := (λ n, p ++ [Normal n]) <$> names.
Lemma at_entry p n : at_ w (p ++ [Normal n]) = at_ w p ++ [n].
Proof. unfold at_. by rewrite locate_app. Qed.
Lemma entry_name p n : file_name (p ++ [Normal n]) = Some n.
Proof. unfold file_name. by rewrite last_snoc. Qed.
Lemma read_dir_entries p text s s' l :
  read_dir w p text s = Some (s', Ok l) → s' = s ∧ l = entries_of p (dir_order w (names_at (disk s) (at_ w p))).
Proof. unfold read_dir. rewrite bind_get_disk. destruct (dir_at _ _); [by intros [= <- <-]|done]. Qed.
Lemma steps_read_dir R `{!PreOrder R} p text : steps R (read_dir w p text).
Proof. unfold read_dir. run_steps. Qed.
Lemma steps_is_dir R `{!PreOrder R} p : steps R (is_dir_ w p).
Proof. unfold is_dir_. run_steps. Qed.
#[local] Hint Resolve steps_read_dir steps_is_dir : steps.

Lemma prune_packages_prunes declared names :
  steps (on_disks (prunes (undeclared_at declared)))
    (prune_packages w declared (entries_of (node_modules_dir config) names)).
Proof.
  induction names as [|n names IH]; [apply steps_ret; typeclasses eauto|].
  cbn [entries_of fmap list_fmap prune_packages]. fold (entries_of (node_modules_dir config) names).
  cbv zeta. rewrite entry_name. change (default [] (Some n)) with n.
  apply steps_bind; [typeclasses eauto|auto with steps|]. intros dir.
  destruct (_ || is_scope n) eqn:E; [exact IH|].
  apply orb_false_iff in E as [[[E1 _]%orb_false_iff E2]%orb_false_iff E3].
  apply bool_decide_eq_false in E1, E2.
  run_steps. apply steps_on_disks; [typeclasses eauto|]. intros d d'.
  apply remove_dir_all_prunes. intros k Hk. rewrite at_entry in Hk. exists n. naive_solver.
Qed.
Lemma prune_scope_prunes declared org p names :
  is_scope org = true → at_ w p = nm ++ [org] →
  steps (on_disks (prunes (undeclared_in_scope declared))) (prune_scope w declared org (entries_of p names)).
Proof.
  intros Horg Hp. induction names as [|n names IH]; [apply steps_ret; typeclasses eauto|].
  cbn [entries_of fmap list_fmap prune_scope]. fold (entries_of p names).
  cbv zeta. rewrite entry_name. change (default [] (Some n)) with n.
  apply steps_bind; [typeclasses eauto|auto with steps|]. intros dir.
  destruct (negb dir); [exact IH|]. case_bool_decide as Hd; [run_steps|].
  run_steps. apply steps_on_disks; [typeclasses eauto|]. intros d d'.
  apply remove_dir_all_prunes. intros k Hk. rewrite at_entry, Hp, <-app_assoc in Hk. by exists org, n.
Qed.

Lemma steps_bind_val R `{!PreOrder R} {A B} (m : M A) (f : A → M B) :
  steps R m → (∀ s s' a, m s = Some (s', Ok a) → steps R (f a)) → steps R (m ≫= f).
Proof.
  intros Hm Hf s s' r [(s1 & a & H1 & H2)|(e & H1 & ->)]%bind_outcome; [|by eapply Hm].
  transitivity s1; [by eapply Hm|by eapply Hf].
Qed.
Lemma scope_component org :
  is_scope org = true → slash ∉ org → components org = [Normal org].
Proof.
  intros Hs Hn. unfold is_scope in Hs. apply starts_with_spec in Hs as [t ->].
  unfold components. change ("/"%char) with slash. rewrite (split_on_free slash) by done. done.
Qed.
Definition scope_prunable (declared : gset rstr) (k : loc) : Prop :=
  undeclared_in_scope declared k ∨ scope_dir k.
Lemma prunes_mono (Q Q' : loc → Prop) d d' : (∀ k, Q k → Q' k) → prunes Q d d' → prunes Q' d d'.
Proof. intros H [H1 H2]. split; [by eapply same_outside_mono|done]. Qed.
Lemma steps_prunes_mono {A} (Q Q' : loc → Prop) (m : M A) :
  (∀ k, Q k → Q' k) → steps (on_disks (prunes Q)) m → steps (on_disks (prunes Q')) m.
Proof. intros H Hm s s' r E. eapply prunes_mono; [exact H|]. by eapply Hm. Qed.
Lemma prune_scopes_prunes declared orgs :
  Forall (λ org, is_scope org = true ∧ slash ∉ org) orgs →
  steps (on_disks (prunes (scope_prunable declared))) (prune_scopes w config declared orgs).
Proof.
  induction 1 as [|org orgs [Hs Hn] _ IH]; [apply steps_ret; typeclasses eauto|].
  cbn [prune_scopes]. cbv zeta. pose proof (scope_component org Hs Hn) as Hc.
  set (p := join_str (node_modules_dir config) org).
  assert (at_ w p = nm ++ [org]) as Hp by (apply at_plain; by rewrite Hc).
  apply steps_bind; [typeclasses eauto|auto with steps|]. intros _.
  apply steps_bind_val; [typeclasses eauto|auto with steps|].
  intros s0 s1 entries [_ ->]%read_dir_entries.
  apply steps_bind; [typeclasses eauto| |].
  { eapply steps_prunes_mono, (prune_scope_prunes declared org p); [by left|done|done]. }
  intros [removed valid]. run_steps. apply steps_on_disks; [typeclasses eauto|]. intros d d'.
  apply remove_dir_prunes. right. exists org. split; [done|exact Hp].
Qed.
Lemma scope_dirs_names p names s s' orgs :
  scope_dirs w (entries_of p names) s = Some (s', Ok orgs) →
  s' = s ∧ Forall (λ org, is_scope org = true ∧ org ∈ names) orgs.
Proof.
  revert s' orgs. induction names as [|n names IH]; intros s' orgs.
  { intros [= <- <-]. split; [done|apply Forall_nil_2]. }
  cbn [entries_of fmap list_fmap scope_dirs]. fold (entries_of p names).
  cbv zeta. rewrite entry_name. change (default [] (Some n)) with n. intros H.
  apply bind_ok in H as (s1 & dir & H1 & H). unfold is_dir_ in H1. rewrite bind_get_disk in H1.
  injection H1 as <- <-. apply bind_ok in H as (s2 & rest & H2 & H). apply IH in H2 as [-> Hrest].
  injection H as <- <-. split; [done|].
  assert (Forall (λ org, is_scope org = true ∧ org ∈ n :: names) rest) as Hrest'.
  { eapply Forall_impl; [exact Hrest|]. intros org [? ?]. split; [done|by right]. }
  destruct (is_scope n) eqn:E; [|done]. destruct (dir_at _ _); [|done].
  apply Forall_cons_2; [split; [done|by left]|done].
Qed.

Lemma prune_packages_gone declared names s s' removed n :
  prune_packages w declared (entries_of (node_modules_dir config) names) s = Some (s', Ok removed) →
  n ∈ names → n ∉ declared → is_scope n = false → n ≠ ".bin" → n ≠ ".cache" →
  dir_at (disk s) (nm ++ [n]) = true → ∀ k, below (nm ++ [n]) k → disk s' !! k = None.
Proof.
  intros H Hin Hd Hs Hb Hc. revert s removed H. induction names as [|x names IH]; intros s removed H Hdir k Hk;
    [by apply elem_of_nil in Hin|].
  cbn [entries_of fmap list_fmap prune_packages] in H. fold (entries_of (node_modules_dir config) names) in H.
  cbv zeta in H. rewrite entry_name in H. change (default [] (Some x)) with x in H.
  apply bind_ok in H as (s1 & dir & H1 & H). unfold is_dir_ in H1. rewrite bind_get_disk, at_entry in H1.
  injection H1 as <- <-.
  destruct (base.decide (n = x)) as [->|Hne].
  - rewrite !bool_decide_eq_false_2, Hdir, Hs in H by naive_solver. cbn [orb negb] in H.
    apply bind_ok in H as (s2 & u2 & H2 & H). apply check_ok in H2.
    apply bind_ok in H as (s3 & u3 & H3 & H). rewrite at_entry in H3. apply on_disk_ok in H3 as (d & E & ->).
    apply bind_ok in H as (s4 & r4 & H4 & H). injection H as -> <-.
    pose proof (prune_packages_prunes declared names _ _ _ H4) as [_ Hsh]. eapply shrinks_gone; [exact Hsh|].
    cbn [disk with_disk]. unfold remove_dir_all_at in E. destruct (_ && _); [|done]. injection E as <-.
    rewrite lookup_remove_tree. by rewrite bool_decide_eq_true_2.
  - apply elem_of_cons in Hin as [?|Hin]; [done|]. destruct (_ || is_scope x); [by eapply (IH Hin)|].
    apply bind_ok in H as (s2 & u2 & H2 & H). apply check_ok in H2.
    apply bind_ok in H as (s3 & u3 & H3 & H). rewrite at_entry in H3. apply on_disk_ok in H3 as (d & E & ->).
    apply bind_ok in H as (s4 & r4 & H4 & H). injection H as -> <-.
    eapply (IH Hin); [exact H4| |exact Hk]. cbn [disk with_disk]. unfold dir_at. rewrite <-Hdir, <-H2.
    unfold dir_at. apply bool_decide_ext. apply remove_dir_all_outside in E.
    assert (∀ d, node_at d (nm ++ [n]) = d !! (nm ++ [n])) as En by (by destruct nm).
    rewrite !En, E; [done|]. intros [t Ht]. rewrite <-app_assoc in Ht. apply app_inv_head in Ht. by injection Ht.
Qed.
End prune.

(** Names on a disk have no separator. *)
Definition plain_names (d : Disk) : Prop := ∀ l n x, d !! (l ++ [n]) = Some x → slash ∉ n.
Lemma names_at_elem d l n : n ∈ names_at d l ↔ is_Some (d !! (l ++ [n])).
Proof.
  unfold names_at. rewrite list_elem_of_omap. split.
  - intros ([k x] & Hk & Hn). apply elem_of_map_to_list in Hk. unfold name_in in Hn. cbn [fst] in Hn.
    case_bool_decide as Hp; [|done]. apply last_Some in Hn as [k' ->]. rewrite parent_loc_snoc in Hp.
    subst. eauto.
  - intros [x Hx]. exists (l ++ [n], x). split; [by apply elem_of_map_to_list|].
    unfold name_in. cbn [fst]. by rewrite parent_loc_snoc, bool_decide_eq_true_2, last_snoc.
Qed.
Lemma steps_first_existing R `{!PreOrder R} w l : steps R (first_existing w l).
Proof. induction l; cbn [first_existing]; run_steps. Qed.
Lemma declared_disk w config pj s s0 declared :
  declared_dependencies w config pj s = Some (s0, Ok declared) →
  disk s0 = disk s ∧ names_of (dependencies pj) ∪ names_of (dev_dependencies pj)
                     ∪ names_of (optional_dependencies pj) ⊆ declared.
Proof.
  intros H. split.
  - assert (steps (on_disks eq) (declared_dependencies w config pj)) as Hs; [|by symmetry; apply (Hs _ _ _ H)].
    unfold declared_dependencies, read_package_lock, package_lock_read_path, read_package_lock_at, read_file.
    run_steps. apply steps_first_existing. typeclasses eauto.
  - unfold declared_dependencies in H. apply bind_ok in H as (s1 & lock & _ & H). injection H as _ <-.
    apply union_subseteq_l.
Qed.

(** Pruning removes exactly the undeclared packages.  A place on the disk changes only if it
    lies in an undeclared package, scoped or not, or is an emptied scope
    directory; whatever changes is removed; and of an undeclared package without
    a scope nothing is left.  Declared is what [package.json] or a readable lock file names. *)
Theorem prune_exact w config pj s s' removed :
  (∀ l, dir_order w l ≡ₚ l) → wf_disk (disk s) → plain_names (disk s) →
  prune w config pj s = Some (s', Ok removed) →
  ∃ s0 declared, declared_dependencies w config pj s = Some (s0, Ok declared) ∧
    (names_of (dependencies pj) ∪ names_of (dev_dependencies pj) ∪ names_of (optional_dependencies pj)
       ⊆ declared) ∧
    (∀ k, ¬ prunable w config declared k → disk s' !! k = disk s !! k) ∧
    shrinks (disk s) (disk s') ∧
    (∀ n k, n ∉ declared → is_scope n = false → n ≠ ".bin" → n ≠ ".cache" →
       let l := at_ w (node_modules_dir config) ++ [n] in
       dir_at (disk s) l = true → below l k → disk s' !! k = None).
Proof.
  intros Horder Hwf Hnames H. unfold prune in H.
  apply bind_ok in H as (s0 & declared & H0 & H). exists s0, declared. split; [done|].
  apply declared_disk in H0 as [Hd0 Hdecl]. split; [done|]. rewrite <-Hd0 in Hwf, Hnames |- *. clear Hd0.
  apply bind_ok in H as (s1 & have & H1 & H). unfold exists_ in H1. rewrite bind_get_disk in H1.
  injection H1 as <- <-. set (nm := at_ w (node_modules_dir config)) in *.
  destruct (exists_at (disk s0) nm) eqn:Ex; cbn [negb] in H.
  2:{ injection H as <- <-. split; [done|]. split; [done|]. intros n k _ _ _ _ l Hdir _. exfalso. unfold l in Hdir.
      apply bool_decide_eq_false in Ex. apply Ex. apply bool_decide_eq_true in Hdir.
      exists DirNode. apply (Hwf nm n DirNode). by destruct nm. }
  apply bind_ok in H as (s2 & u2 & H2 & H). apply check_ok in H2.
  apply bind_ok in H as (s3 & entries & H3 & H). apply read_dir_entries in H3 as [-> ->].
  apply bind_ok in H as (s4 & rm1 & H4 & H). apply bind_ok in H as (s5 & u5 & H5 & H). apply check_ok in H5.
  apply bind_ok in H as (s6 & entries & H6 & H). apply read_dir_entries in H6 as [-> ->].
  apply bind_ok in H as (s7 & orgs & H7 & H). apply scope_dirs_names in H7 as [-> Horgs].
  apply bind_ok in H as (s8 & rm2 & H8 & H). injection H as -> _.
  fold nm in H4, Horgs. rewrite H2 in H4. rewrite H5 in Horgs.
  pose proof (prune_packages_prunes w config declared _ _ _ _ H4) as [Hout4 Hsh4]. rewrite H2 in Hout4, Hsh4.
  assert (Forall (λ org, is_scope org = true ∧ slash ∉ org) (dir_order w orgs)) as Horgs'.
  { rewrite Horder. eapply Forall_impl; [exact Horgs|]. intros org [Hs Hin]. split; [done|].
    rewrite Horder in Hin. apply names_at_elem in Hin as [x Hx].
    destruct (Hsh4 (nm ++ [org])) as [E|E]; [congruence|]. apply (Hnames nm org x). congruence. }
  pose proof (prune_scopes_prunes w config declared _ Horgs' _ _ _ H8) as [Hout8 Hsh8]. rewrite H5 in Hout8, Hsh8.
  split; [|split; [by etrans|]].
  - intros k Hk. rewrite Hout8, Hout4; [done| |]; intros Hq; apply Hk; [by left|right; destruct Hq; auto].
  - intros n k Hn Hs Hb Hc l Hdir Hk. eapply shrinks_gone; [exact Hsh8|].
    refine (prune_packages_gone w config declared _ _ _ _ n H4 _ Hn Hs Hb Hc _ k Hk).
    + rewrite Horder. apply names_at_elem. apply bool_decide_eq_true in Hdir. exists DirNode.
      unfold l in Hdir. by destruct nm.
    + by rewrite H2.
Qed.
