(* ===== verification/InstallCommand.v ===== *)
(** * [amber install], [src/main.rs]

    The command around [PackageManager]: the check of a frozen lock file, the
    install, and the new lock file.  Theorems: what the frozen check
    guarantees, and what slips through it. *)

From S2P Require Import Prelude Json RustPath DiskFs Permissions Semver PackageManager PackageTheorems.

Section command.
Context (w : World).

(** One section of [package.json] against the locked dependencies. *)
Fixpoint validate_section (locked_deps : gmap rstr LockedDependency) (deps : list (rstr * Json)) : M unit :=
  match deps with
  | [] => mret tt
  | (name, requested_value) :: deps =>
      requested ← ok_or (as_str requested_value) "frozen lockfile cannot validate non-string dependency '";
      locked ← ok_or (locked_deps !! name) "frozen lockfile mismatch for package '";
      if negb (dependency_request_matches_locked_version requested (locked_version locked))
      then fail "frozen lockfile mismatch for package '"
      else validate_section locked_deps deps
  end.
Definition frozen_sections : list rstr :=
  [("dependencies" : rstr); ("devDependencies" : rstr); ("optionalDependencies" : rstr)].
Definition validate_frozen_lockfile (package_data : Json) (lock_path : path) : M unit :=
  have ← exists_ w lock_path;
  if negb have then fail "frozen lockfile requires package-lock.json to exist"
  else
    _ ← check_fs_read_permission w lock_path;
    lock_content ← read_file w lock_path "Failed to read package-lock.json: ";
    lock ← ok_or (parse_lock w lock_content) "Failed to parse package-lock.json: ";
    let locked_deps := (lock_dependencies lock) .unwrap_or ∅ in
    for_each frozen_sections (λ section,
      match json_get package_data section ≫= as_object with
      | Some deps => validate_section locked_deps deps
      | None => mret tt
      end).

(** [run_install_command] once the permission flags are applied. *)
Definition run_install_command (fuel : nat) (frozen_lockfile : bool) : M (list ResolutionResult) :=
  let config := default_config in
  let package_json_path := components "package.json" in
  let lock_path := components "package-lock.json" in
  have ← exists_ w package_json_path;
  if negb have then fail "package.json not found in current directory. Run 'amber init' first."
  else
    _ ← check_fs_read_permission w package_json_path;
    content ← read_file w package_json_path "Failed to read package.json: ";
    package_data ← ok_or (from_str w content) "Failed to parse package.json: ";
    have_lock ← exists_ w lock_path;
    _ ← (if frozen_lockfile then validate_frozen_lockfile package_data lock_path
         else if (have_lock : bool) then _ ← check_fs_read_permission w lock_path; check_fs_write_permission w lock_path
         else check_fs_write_permission w lock_path);
    _ ← map_err "Failed to create package manager: " (new w config);
    package_json ← map_err "Failed to parse package.json: " (parse_package_json w package_json_path);
    results ← map_err "Failed to install dependencies: " (install_dependencies w config fuel package_json);
    _ ← (if frozen_lockfile then mret tt
         else match json_get package_data "name" ≫= as_str with
              | Some project_name =>
                  generate_package_lock w config fuel lock_path project_name
                    ((json_get package_data "version" ≫= as_str) .unwrap_or ("1.0.0" : rstr))
              | None => mret tt
              end);
    mret results.
End command.

(** ** What the frozen check covers *)

Lemma validate_section_ok locked deps s s' u name v :
  validate_section locked deps s = Some (s', Ok u) → (name, v) ∈ deps →
  ∃ range l, v = JString range ∧ locked !! name = Some l ∧
             dependency_request_matches_locked_version range (locked_version l) = true.
Proof.
  revert s. induction deps as [|[k x] deps IH]; intros s H Hin; [by apply elem_of_nil in Hin|].
  cbn [validate_section] in H. apply bind_ok in H as (s1 & range & H1 & H). apply ok_or_ok in H1 as [-> H1].
  apply bind_ok in H as (s2 & l & H2 & H). apply ok_or_ok in H2 as [-> H2].
  destruct (dependency_request_matches_locked_version range (locked_version l)) eqn:E; cbn [negb] in H; [|done].
  apply elem_of_cons in Hin as [[= -> ->]|Hin]; [|by eapply IH].
  destruct x; try done. injection H1 as ->. eauto.
Qed.
Lemma for_each_ok {A} (l : list A) f s s' u x :
  for_each l f s = Some (s', Ok u) → x ∈ l → ∃ s1 s2 u', f x s1 = Some (s2, Ok u').
Proof.
  revert s. induction l as [|y l IH]; intros s H Hin; [by apply elem_of_nil in Hin|].
  cbn [for_each] in H. apply bind_ok in H as (s1 & u1 & H1 & H).
  apply elem_of_cons in Hin as [->|Hin]; eauto.
Qed.
Lemma validate_frozen_ok w data lock_path s s' u :
  validate_frozen_lockfile w data lock_path s = Some (s', Ok u) →
  ∃ lock, read_at (disk s) (at_ w lock_path) ≫= parse_lock w = Some lock ∧
    ∀ section deps name v, section ∈ frozen_sections → json_get data section = Some (JObject deps) →
      (name, v) ∈ deps →
      ∃ range l, v = JString range ∧ (lock_dependencies lock .unwrap_or ∅) !! name = Some l ∧
                 dependency_request_matches_locked_version range (locked_version l) = true.
Proof.
  unfold validate_frozen_lockfile. intros H. apply bind_ok in H as (s1 & have & H1 & H).
  unfold exists_ in H1. rewrite bind_get_disk in H1. injection H1 as <- <-.
  destruct (negb _); [done|]. apply bind_ok in H as (s2 & u2 & H2 & H). apply check_ok in H2.
  apply bind_ok in H as (s3 & text & H3 & H). unfold read_file in H3. rewrite bind_get_disk in H3.
  apply ok_or_ok in H3 as [-> H3]. apply bind_ok in H as (s4 & lock & H4 & H). apply ok_or_ok in H4 as [-> H4].
  exists lock. rewrite <-H2, H3. split; [done|]. intros section deps name v Hs Hd Hin.
  destruct (for_each_ok _ _ _ _ _ section H Hs) as (s5 & s6 & u6 & Hv).
  rewrite Hd in Hv. exact (validate_section_ok _ _ _ _ _ _ _ Hv Hin).
Qed.

(** What the typed parser reads of a map is in the text. *)
Lemma fold_insert_elem (kvs : list (rstr * rstr)) (acc : Ranges) name range :
  fold_left (λ acc kv, <[kv.1 := kv.2]> acc) kvs acc !! name = Some range →
  acc !! name = Some range ∨ (name, range) ∈ kvs.
Proof.
  revert acc. induction kvs as [|[k v] kvs IH]; intros acc; cbn [fold_left]; [by left|].
  intros [H|H]%IH; [|right; by right]. apply lookup_insert_Some in H as [[<- <-]|[_ H]]; [right; by left|by left].
Qed.
Lemma string_map_elem v deps name range :
  string_map v = Some deps → deps !! name = Some range →
  ∃ m, v = JObject m ∧ (name, JString range) ∈ m.
Proof.
  unfold string_map. destruct v as [| | | | |m]; try done. cbn [as_object mbind option_bind].
  destruct (mapM _ m) as [kvs|] eqn:E; [|done]. cbn [mbind option_bind]. intros [= <-] H.
  apply fold_insert_elem in H as [H|H]; [by rewrite lookup_empty in H|]. exists m. split; [done|].
  apply mapM_Some in E. apply list_elem_of_lookup in H as [i Hi].
  destruct (Forall2_lookup_r _ _ _ _ _ E Hi) as ([k x] & Hx & Hk). cbn in Hk.
  destruct x; try done. injection Hk as -> ->. apply list_elem_of_lookup. eauto.
Qed.

Definition sections (p : PackageJson) : list (option Ranges) :=
  [dependencies p; dev_dependencies p; optional_dependencies p].
Lemma field_named m key alias v :
  map_get m alias = None → field m key alias = Some v → v = map_get m key.
Proof. unfold field. intros ->. by destruct (map_get m key); intros [= <-]. Qed.
Lemma opt_field_map v deps : opt_field string_map v = Some (Some deps) → ∃ x, v = Some x ∧ string_map x = Some deps.
Proof.
  unfold opt_field. destruct v as [x|]; [|done]. destruct x; try done; intros (d & E & [= <-])%fmap_Some; eauto.
Qed.
(** Without the aliases the sections of the typed value are those the check reads. *)
Lemma package_sections data p deps :
  package_of_json data = Some p →
  json_get data "dev_dependencies" = None → json_get data "optional_dependencies" = None →
  Some deps ∈ sections p →
  ∃ section x, section ∈ frozen_sections ∧ json_get data section = Some x ∧ string_map x = Some deps.
Proof.
  intros H Hdev Hopt Hin. destruct data as [| | | | |m]; try done. unfold package_of_json in H.
  unfold json_get in *. cbn [as_object mbind option_bind] in *.
  apply bind_Some in H as (? & _ & H). apply bind_Some in H as (? & _ & H).
  apply bind_Some in H as (? & _ & H). apply bind_Some in H as (? & _ & H).
  apply bind_Some in H as (? & _ & H). apply bind_Some in H as (d1 & E1 & H).
  apply bind_Some in H as (f2 & F2 & H). apply bind_Some in H as (d2 & E2 & H).
  apply bind_Some in H as (? & _ & H). apply bind_Some in H as (? & _ & H).
  apply bind_Some in H as (f3 & F3 & H). apply bind_Some in H as (d3 & E3 & H).
  do 3 apply bind_Some in H as (? & _ & H). injection H as <-.
  apply field_named in F2; [|done]. apply field_named in F3; [|done]. subst f2 f3.
  unfold sections in Hin. cbn [dependencies dev_dependencies optional_dependencies] in Hin.
  assert (∀ name d, name ∈ frozen_sections → opt_field string_map (map_get m name) = Some (Some d) →
    ∃ section x, section ∈ frozen_sections ∧ map_get m section = Some x ∧ string_map x = Some d) as Hfound.
  { intros name d Hn (v & Hv & Hd)%opt_field_map. eauto. }
  apply elem_of_cons in Hin as [<-|[<-|[<-|[]%elem_of_nil]%elem_of_cons]%elem_of_cons];
    (eapply Hfound; [|eassumption]); by repeat constructor.
Qed.

(** A frozen install is pinned.  When the frozen check passes, every
    dependency that the installer will read from [package.json], in each of the three
    sections, has a lock entry whose version the request admits, so its version is the
    locked one and no range is resolved against the registry; this needs that the
    sections are not spelled with their snake-case aliases, which the installer
    accepts and the check does not look at. *)
Theorem frozen_check_pins_dependencies w data p lock_path s s' u :
  validate_frozen_lockfile w data lock_path s = Some (s', Ok u) → package_of_json data = Some p →
  json_get data "dev_dependencies" = None → json_get data "optional_dependencies" = None →
  ∃ lock, read_at (disk s) (at_ w lock_path) ≫= parse_lock w = Some lock ∧
    ∀ deps name range config s1, Some deps ∈ sections p → deps !! name = Some range →
      ∃ l, (lock_dependencies lock .unwrap_or ∅) !! name = Some l ∧
           version_to_install w config name range (Some l) s1 = Some (s1, Ok (locked_version l)).
Proof.
  intros H Hp Hdev Hopt. apply validate_frozen_ok in H as (lock & Hlock & H). exists lock. split; [done|].
  intros deps name range config s1 Hin Hname.
  destruct (package_sections _ _ _ Hp Hdev Hopt Hin) as (section & x & Hs & Hx & Hm).
  destruct (string_map_elem _ _ _ _ Hm Hname) as (m & -> & Helem).
  destruct (H _ _ _ _ Hs Hx Helem) as (r & l & [= <-] & Hl & Hmatch). exists l. split; [done|].
  unfold version_to_install. by rewrite Hmatch.
Qed.
