(* ===== verification/InstallWitness.v ===== *)
(** * The package manager on a small world

    A registry with two packages, formats and hashes one can compute with, and the
    theorems about installing at work on it; and the two ways in which an
    install reaches further than it should. *)

From S2P Require Import Prelude Json RustPath DiskFs Permissions Semver PackageManager.
From S2P Require Import PackageTheorems InstallTheorems PruneTheorems InstallCommand.

Module InstallToy.
Definition dist (url pin : rstr) : Json := JObject [("versions" : rstr, JObject [("1" : rstr, JObject [
  ("dist" : rstr, JObject [("tarball" : rstr, JString url); ("integrity" : rstr, JString pin)])])])].
(** The manifest of [a], which depends on a package it calls [../src]. *)
Definition manifest_a : Json := JObject [("name" : rstr, JString "a"); ("version" : rstr, JString "1");
  ("dependencies" : rstr, JObject [("../src" : rstr, JString "1")])].
Definition lock_text : Json := JObject [("name" : rstr, JString "p"); ("version" : rstr, JString "1");
  ("dependencies" : rstr, JObject [("a" : rstr, JObject [("version" : rstr, JString "1");
                                                           ("integrity" : rstr, JString "sha512-A")])])].
Definition parse (text : rstr) : option Json :=
  if bool_decide (text = "https://registry.npmjs.org/a") then Some (dist "t-a" "sha512-A")
  else if bool_decide (text = "https://registry.npmjs.org/../src") then Some (dist "t-src" "sha512-S")
  else if bool_decide (text = "{a}") then Some manifest_a
  else if bool_decide (text = "{lock}") then Some lock_text else None.
Definition bytes_of (url : rstr) : rstr := if bool_decide (url = "t-a") then "A" else "S".
Definition file (name data : rstr) : option Entry := Some
  {| entry_path := Some (components ("package/" ++ name)); entry_type := RegularFile; entry_data := Some data |}.
Definition entries_in (bytes : rstr) : option (list (option Entry)) :=
  if bool_decide (bytes = "A") then Some [file "package.json" "{a}"; file "lib/index.js" "a"]
  else Some [file "index.js" "evil"].
Definition longest (d : Disk) : nat := max_list (length <$> mjoin (map_to_list d).*1).
Definition new_name (d : Disk) (l : loc) : rstr := replicate (S (longest d)) "t"%char.

(** [stops] and [refused] say whether removing a package and moving one into place fail. *)
Definition toy_world (stops : option (list loc)) (refused : bool) : World := {|
  host := bare_host; url_host := λ _, None; clock := λ _, []; cwd := [];
  curl := λ _ url, Some (Some url); curl_to := λ _ url, Some (Some (bytes_of url), true);
  from_str := parse; print_package := λ _, []; print_lock := λ _, []; print_meta := λ _ _, [];
  sha512 := id; sha384 := id; sha256 := id; sha1 := id; base64_decode := Some;
  untar := entries_in; temp_name := new_name;
  removal_stops := λ _ _, stops; rename_refused := λ _ _ _, refused; dir_order := id; hash_order := map_to_list |}.
Definition toy : World := toy_world None false.

Lemma toy_fresh : temp_fresh toy.
Proof.
  intros d l k. destruct (d !! _) as [x|] eqn:E; [|done]. exfalso.
  apply elem_of_map_to_list in E. cbn [temp_name toy toy_world] in E.
  assert (length (new_name d l) ≤ longest d) as H; [|unfold new_name in H; rewrite length_replicate in H; lia].
  unfold longest. assert (length (new_name d l) ∈ length <$> mjoin (map_to_list d).*1) as Hin.
  { apply list_elem_of_fmap. eexists. split; [done|]. apply list_elem_of_join. eexists.
    split; [|apply list_elem_of_fmap; eexists; split; [|exact E]; reflexivity]. cbn [fst].
    rewrite !elem_of_app. right. left. by left. }
  apply max_list_elem_of_le. exact Hin.
Qed.
Lemma toy_order l : dir_order toy l ≡ₚ l.
Proof. reflexivity. Qed.
Lemma new_name_not n d l : head n ≠ Some "t"%char → temp_name toy d l ≠ n.
Proof. intros H <-. by apply H. Qed.

(** A project with a source directory of its own. *)
Definition project : Disk := <[[("node_modules" : rstr)] := DirNode]> (<[[("src" : rstr)] := DirNode]>
  (<[[("src" : rstr); ("main.js" : rstr)] := FileNode "mine"]>
  (<[[("package-lock.json" : rstr)] := FileNode "{lock}"]> ∅))).
Definition start : PmState := {| disk := project; perms := perm_init; curls := 0 |}.
Definition after {A} (r : option (PmState * result A PmError)) : PmState :=
  match r with Some (s, _) => s | None => start end.
Definition answer {A} (d : A) (r : option (PmState * result A PmError)) : A :=
  match r with Some (_, Ok a) => a | _ => d end.
(** Looking at the outcome alone spares comparing whole disks. *)
Definition ran {A} (r : option (PmState * result A PmError)) : bool :=
  match r with Some (_, Ok _) => true | _ => false end.
End InstallToy.
Lemma ran_ok {A} (d : A) (r : option (PmState * result A PmError)) :
  InstallToy.ran r = true → r = Some (InstallToy.after r, Ok (InstallToy.answer d r)).
Proof. by destruct r as [[s []]|]. Qed.

(** A dependency name is not checked: [../src] is fetched, since [curl] resolves the
    dots in the address, and unpacked over the project's own [src]. *)
Example dependency_name_escapes :
  let s := InstallToy.after (install_package InstallToy.toy default_config 3 "a" "1" InstallToy.start) in
  read_at (disk InstallToy.start) [("src" : rstr); ("main.js" : rstr)] = Some ("mine" : rstr) ∧
  read_at (disk s) [("src" : rstr); ("main.js" : rstr)] = None ∧
  read_at (disk s) [("src" : rstr); ("index.js" : rstr)] = Some ("evil" : rstr).
Proof. vm_compute. done. Qed.

(** The installer reads [dev_dependencies] as an alias; the frozen check does not look
    there, so an unlocked dependency passes it. *)
Example frozen_check_misses_alias :
  let data := JObject [("name" : rstr, JString "p"); ("version" : rstr, JString "1");
                       ("dev_dependencies" : rstr, JObject [("b" : rstr, JString "latest")])] in
  (snd <$> validate_frozen_lockfile InstallToy.toy data (components "package-lock.json") InstallToy.start)
    = Some (Ok tt) ∧
  (package_of_json data ≫= dev_dependencies) = Some {["b" : rstr := "latest" : rstr]}.
Proof. split; vm_compute; reflexivity. Qed.

Module Witnesses.
Import InstallToy.
Definition locked_a : LockedDependency := Locked "1" None (Some ("sha512-A" : rstr)) None None.
Definition tarball : path := components "a.tgz".
Definition with_tarball : PmState := with_disk start (<[[("a.tgz" : rstr)] := FileNode "A"]> project).
Definition extract_run := extract_package toy default_config tarball "a" with_tarball.
Definition extracted : PmState := after extract_run.
Definition extracted_to : path := answer [] extract_run.
Definition once_run := install_one toy default_config "a" "1" (Some locked_a) start.
Definition installed_once : PmState := after once_run.
Definition result_once : ResolutionResult := answer (already_seen default_config [] []) once_run.
(** Another machine: another registry address, cache and modules directory. *)
Definition elsewhere : PackageManagerConfig := {|
  registry_url := "https://registry.npmjs.org"; cache_dir := components "/c";
  node_modules_dir := components "/m/node_modules" |}.
Definition start_elsewhere : PmState := {| disk := ∅; perms := perm_init; curls := 7 |}.
Definition twice_run := install_one toy elsewhere "a" "^1" (Some locked_a) start_elsewhere.
Definition installed_twice : PmState := after twice_run.
Definition result_twice : ResolutionResult := answer (already_seen default_config [] []) twice_run.
Definition no_package : PackageJson := {|
  pkg_name := []; pkg_version := []; description := None; main := None; scripts := None;
  dependencies := None; dev_dependencies := None; peer_dependencies := None;
  optional_dependencies := None; author := None; license := None; repository := None |}.
Definition before_prune : PmState :=
  with_disk installed_once (delete [("package-lock.json" : rstr)] (disk installed_once)).
Definition prune_run := prune toy default_config no_package before_prune.
Definition pruned : PmState := after prune_run.
Definition removed : list rstr := answer [] prune_run.
End Witnesses.

(** The swap is two steps: the old package is gone when the new one cannot be moved
    into place, and half gone when its removal fails. *)
Example failed_swap_loses_the_package :
  let old := [("node_modules" : rstr); ("a" : rstr)] in
  let s := with_disk InstallToy.start (<[[("a.tgz" : rstr)] := FileNode "A"]> (<[old := DirNode]>
    (<[old ++ [("package.json" : rstr)] := FileNode "{old}"]> (<[old ++ [("index.js" : rstr)] := FileNode "old"]>
     InstallToy.project)))) in
  let failed w := match extract_package w default_config Witnesses.tarball "a" s with
                  | Some (s', Err e) => Some (e, disk s' !! old, disk s' !! (old ++ [("package.json" : rstr)]),
                                              disk s' !! (old ++ [("index.js" : rstr)]))
                  | _ => None
                  end in
  failed (InstallToy.toy_world None true)
    = Some (Failed "Failed to move verified package into place: ", None, None, None) ∧
  failed (InstallToy.toy_world (Some [old ++ [("index.js" : rstr)]]) false)
    = Some (Failed "Failed to remove existing package: ", Some DirNode, None, Some (FileNode "old")).
Proof. split; vm_compute; reflexivity. Qed.

Lemma wf_disk_dec d :
  forallb (λ kv, match kv.1 with [] => true | _ => dir_at d (parent_loc kv.1) end) (map_to_list d) = true →
  wf_disk d.
Proof.
  intros H l n x Hx. rewrite forallb_forall in H. apply elem_of_map_to_list, list_elem_of_In, H in Hx.
  cbn [fst] in Hx. destruct (l ++ [n]) as [|y k] eqn:E; [by destruct l|]. rewrite <-E, parent_loc_snoc in Hx.
  by apply bool_decide_eq_true in Hx.
Qed.

Lemma plain_names_dec d :
  forallb (λ kv, forallb (λ n : rstr, negb (bool_decide (slash ∈ n))) kv.1) (map_to_list d) = true →
  plain_names d.
Proof.
  intros H l n x Hx. rewrite forallb_forall in H. apply elem_of_map_to_list, list_elem_of_In, H in Hx.
  cbn [fst] in Hx. rewrite forallb_forall in Hx.
  assert (n ∈ l ++ [n]) as Hn%list_elem_of_In by (apply elem_of_app; right; by left).
  apply Hx, negb_true_iff, bool_decide_eq_false in Hn. done.
Qed.

Lemma ok_empty (r : option (PmState * result (gset rstr) PmError)) :
  match r with Some (_, Ok x) => bool_decide (x = ∅) | _ => false end = true → ∃ s, r = Some (s, Ok ∅).
Proof. destruct r as [[s [x|]]|]; try done. intros ->%bool_decide_eq_true. by exists s. Qed.

(** The runs, computed once. *)
Lemma run_extract :
  extract_package InstallToy.toy default_config Witnesses.tarball "a" Witnesses.with_tarball
  = Some (Witnesses.extracted, Ok Witnesses.extracted_to).
Proof. exact (ran_ok [] Witnesses.extract_run (ltac:(vm_compute; reflexivity))). Qed.
Lemma run_once :
  install_one InstallToy.toy default_config "a" "1" (Some Witnesses.locked_a) InstallToy.start
  = Some (Witnesses.installed_once, Ok Witnesses.result_once).
Proof. exact (ran_ok (already_seen default_config [] []) Witnesses.once_run (ltac:(vm_compute; reflexivity))). Qed.
Lemma run_twice :
  install_one InstallToy.toy Witnesses.elsewhere "a" "^1" (Some Witnesses.locked_a) Witnesses.start_elsewhere
  = Some (Witnesses.installed_twice, Ok Witnesses.result_twice).
Proof. exact (ran_ok (already_seen default_config [] []) Witnesses.twice_run (ltac:(vm_compute; reflexivity))). Qed.
Lemma run_prune :
  prune InstallToy.toy default_config Witnesses.no_package Witnesses.before_prune
  = Some (Witnesses.pruned, Ok Witnesses.removed).
Proof. exact (ran_ok [] Witnesses.prune_run (ltac:(vm_compute; reflexivity))). Qed.
Lemma run_declared :
  ∃ s, declared_dependencies InstallToy.toy default_config Witnesses.no_package Witnesses.before_prune
       = Some (s, Ok ∅).
Proof.
  exact (ok_empty (declared_dependencies InstallToy.toy default_config Witnesses.no_package
    Witnesses.before_prune) (ltac:(vm_compute; reflexivity))).
Qed.
Lemma wf_starts :
  wf_disk (disk Witnesses.with_tarball) ∧ wf_disk (disk InstallToy.start) ∧
  wf_disk (disk Witnesses.start_elsewhere) ∧ wf_disk (disk Witnesses.before_prune) ∧
  plain_names (disk Witnesses.before_prune).
Proof. split_and!; try apply wf_disk_dec; try apply plain_names_dec; vm_compute; reflexivity. Qed.
Lemma main_js_there : disk Witnesses.with_tarball !! [("src" : rstr); ("main.js" : rstr)] = Some (FileNode "mine").
Proof. vm_compute. reflexivity. Qed.
Lemma a_installed : dir_at (disk Witnesses.before_prune) [("node_modules" : rstr); ("a" : rstr)] = true.
Proof. vm_compute. reflexivity. Qed.
Lemma a_name : components "a" = Normal <$> (([] : list rstr) ++ ["a" : rstr]).
Proof. vm_compute. reflexivity. Qed.
Lemma pin_tokens : split_whitespace "sha512-A" = ["sha512-" ++ ("A" : rstr)].
Proof. vm_compute. reflexivity. Qed.
Lemma not_a d l : temp_name InstallToy.toy d l ≠ "a".
Proof. apply InstallToy.new_name_not. discriminate. Qed.
#[global] Opaque Witnesses.extracted Witnesses.installed_once Witnesses.installed_twice Witnesses.pruned
  Witnesses.before_prune Witnesses.with_tarball Witnesses.start_elsewhere Witnesses.result_once
  Witnesses.result_twice InstallToy.start InstallToy.toy.

Lemma extract_confined_and_atomic_witness :
  disk Witnesses.extracted !! [("src" : rstr); ("main.js" : rstr)] = Some (FileNode "mine").
Proof.
  destruct (extract_confined_and_atomic InstallToy.toy default_config Witnesses.tarball "a" [] "a"
    Witnesses.with_tarball Witnesses.extracted (Ok Witnesses.extracted_to)
    InstallToy.toy_fresh not_a (proj1 wf_starts) a_name run_extract) as (_ & Hkeep & _).
  apply Hkeep; [|exact main_js_there]. intros [t Ht]. apply (f_equal head) in Ht.
  Transparent InstallToy.toy. discriminate Ht.
Defined.
#[global] Opaque InstallToy.toy.

Lemma pinned_install_reproducible_witness :
  (∀ k, k ≠ [meta_name] →
     disk Witnesses.installed_once !! (at_ InstallToy.toy (node_modules_dir default_config) ++ [] ++ ["a" : rstr] ++ k)
     = disk Witnesses.installed_twice
         !! (at_ InstallToy.toy (node_modules_dir Witnesses.elsewhere) ++ [] ++ ["a" : rstr] ++ k)) ∨
  ∃ b1 b2 : rstr, b1 ≠ b2 ∧ sha512 InstallToy.toy b1 = sha512 InstallToy.toy b2.
Proof.
  exact (pinned_install_reproducible InstallToy.toy InstallToy.toy default_config Witnesses.elsewhere "a" [] "a"
    "1" "^1" (Some Witnesses.locked_a) (Some Witnesses.locked_a) "sha512-A" "A" InstallToy.start
    Witnesses.start_elsewhere Witnesses.installed_once Witnesses.installed_twice
    Witnesses.result_once Witnesses.result_twice eq_refl eq_refl eq_refl
    InstallToy.toy_fresh InstallToy.toy_fresh (λ d l, conj (not_a d l) (not_a d l))
    (proj1 (proj2 wf_starts)) (proj1 (proj2 (proj2 wf_starts))) a_name eq_refl eq_refl pin_tokens
    run_once run_twice).
Defined.
Lemma toy_names text p deps :
  parse_package InstallToy.toy text = Some p → dependencies p = Some deps →
  dom deps ⊆ ({["a" : rstr; "../src" : rstr]} : gset rstr).
Proof.
  unfold parse_package. cbn [from_str InstallToy.toy InstallToy.toy_world]. unfold InstallToy.parse. intros H Hd.
  case_bool_decide; [discriminate H|]. case_bool_decide; [discriminate H|].
  case_bool_decide; [|case_bool_decide; discriminate H]. cbn [mbind option_bind] in H.
  assert (bool_decide (package_of_json InstallToy.manifest_a ≫= dependencies
          = Some ({["../src" : rstr := "1" : rstr]} : Ranges)) = true) as E%bool_decide_eq_true
    by (vm_compute; reflexivity).
  rewrite H in E. cbn [mbind option_bind] in E. rewrite Hd in E. injection E as ->.
  rewrite dom_singleton. apply union_subseteq_r.
Qed.
Lemma install_terminates_witness :
  ∃ s r, install_package InstallToy.toy default_config 3 "a" "1" InstallToy.start = Some (s, r).
Proof.
  apply (install_terminates InstallToy.toy default_config {["a" : rstr; "../src" : rstr]} 3 "a" "1" InstallToy.start).
  - intros m. reflexivity.
  - exact toy_names.
  - apply elem_of_union_l, elem_of_singleton. reflexivity.
  - apply Nat.ltb_lt. vm_compute. reflexivity.
Defined.

Lemma prune_exact_witness :
  disk Witnesses.pruned !! (at_ InstallToy.toy (node_modules_dir default_config) ++ ["a" : rstr]
                              ++ ["package.json" : rstr]) = None.
Proof.
  destruct (prune_exact InstallToy.toy default_config Witnesses.no_package Witnesses.before_prune
    Witnesses.pruned Witnesses.removed InstallToy.toy_order (proj1 (proj2 (proj2 (proj2 wf_starts))))
    (proj2 (proj2 (proj2 (proj2 wf_starts)))) run_prune) as (s0 & declared & Hd & _ & _ & _ & Hgone).
  assert (declared = ∅) as -> by (destruct run_declared as [s1 H1]; rewrite H1 in Hd; congruence).
  apply (Hgone "a"); [apply not_elem_of_empty|reflexivity|discriminate|discriminate|exact a_installed|].
  exists ["package.json" : rstr]. by rewrite <-app_assoc.
Defined.

Lemma frozen_check_pins_dependencies_witness :
  ∃ lock, parse_lock InstallToy.toy "{lock}" = Some lock.
Proof.
  set (data := JObject [("name" : rstr, JString "p"); ("version" : rstr, JString "1");
                        ("dependencies" : rstr, JObject [("a" : rstr, JString "^1")])]).
  destruct (package_of_json data) as [p|] eqn:Hp; [|discriminate Hp].
  destruct (frozen_check_pins_dependencies InstallToy.toy data p (components "package-lock.json")
    InstallToy.start InstallToy.start tt) as (lock & Hlock & _).
  - vm_compute. reflexivity.
  - exact Hp.
  - reflexivity.
  - reflexivity.
  - exists lock. exact Hlock.
Defined.
