(* ===== verification/Dlx.v ===== *)
(** * The on-demand package runner [amber x], [src/tooling/dlx.rs]

    A package is fetched once into a cache directory of the user and run from there.
    The disk and the monad are those of [PackageManager]; the HTTP client's
    answers, the home directory, the environment and what unpacking an entry
    does that is neither file nor directory are the parameters.  Theorems: what a
    well-behaved archive can touch and what of it is run, and that a cached package is
    run without asking the registry; and the ways round both. *)

From S2P Require Import Prelude Json RustPath RawPath DiskFs Permissions PackageManager PackageTheorems.
From S2P Require ImportMap RawPath.

(** [str::replace] of one character by a string *)
Definition replace_char (c : ascii) (by_ : rstr) (s : rstr) : rstr :=
  mjoin ((λ x, if bool_decide (x = c) then by_ else [x]) <$> s).
Definition at_sign : ascii := "@"%char.

Definition parse_pkg_spec (spec : rstr) : rstr * option rstr :=
  if starts_with [at_sign] spec then
    match split_once at_sign (drop 1 spec) with
    | Some (name, version) => (at_sign :: name, Some version)
    | None => (spec, None)
    end
  else match split_once at_sign spec with
       | Some (name, ver) => (name, Some ver)
       | None => (spec, None)
       end.
Definition sanitize_cache_name (name version : rstr) : rstr :=
  replace_char at_sign [] (replace_char slash "__" name) ++ at_sign :: version.

(** The fields of the registry's answer. *)
Definition latest_of (meta : Json) : option rstr :=
  tags ← json_get meta "dist-tags"; v ← json_get tags "latest"; as_str v.
Definition tarball_of (meta : Json) (version : rstr) : option rstr :=
  versions ← json_get meta "versions"; v ← json_get versions version;
  dist ← json_get v "dist"; url ← json_get dist "tarball"; as_str url.

Section dlx.
Context (w : World).
(** The n-th request: no answer, or whether its status is a success and the body,
    which may fail to arrive. *)
Context (http_get : nat → rstr → option (bool * option rstr)).
Context (home_dir : option path).
Context (unpack_other : Disk → loc → option Disk).
Context (current_exe node_path : rstr).

Definition get_x_cache_dir : path :=
  path_join (home_dir .unwrap_or (components ".")) (components ".amberjs/x_cache").

(** One request; the counter is that of [curl] runs. *)
Definition client_get (url : rstr) : M (bool * option rstr) := λ s,
  Some (ran_curl s, match http_get (curls s) url with Some r => Ok r | None => Err (Failed "") end).

(** [entry.unpack(dest_file)] *)
Definition unpack_to (dest : loc) (entry : Entry) : M unit :=
  match entry_type entry with
  | Directory => on_disk (λ d, create_dir_all_at d dest) ""
  | RegularFile => data ← ok_or (entry_data entry) ""; on_disk (λ d, write_at d dest data) ""
  | OtherType => on_disk (λ d, unpack_other d dest) ""
  end.
(** One round of the loop of [ensure_package_cached]. *)
Definition unpack_cached (target : loc) (e : option Entry) : M unit :=
  entry ← ok_or e "";
  entry_path ← ok_or (entry_path entry) "";
  let relative_path := match path_strip_prefix [Normal ("package" : rstr)] entry_path with
                       | Some stripped => stripped | None => entry_path end in
  let dest_file := locate target relative_path in
  _ ← on_disk (λ d, create_dir_all_at d (parent_loc dest_file)) "";
  unpack_to dest_file entry.

Definition ensure_package_cached (pkg_spec : rstr) : M path :=
  let '(name, ver_opt) := parse_pkg_spec pkg_spec in
  let cache_base := get_x_cache_dir in
  _ ← create_dir_all w cache_base "";
  let target_version := ver_opt .unwrap_or ("latest" : rstr) in
  let target_dir := path_join cache_base (components (sanitize_cache_name name target_version)) in
  have ← exists_ w (path_join target_dir [Normal "package.json"]);
  if (have : bool) then mret target_dir
  else
    resp ← client_get ("https://registry.npmjs.org/" ++ name);
    if negb resp.1 then fail "Failed to fetch package '"
    else
      body ← ok_or resp.2 "";
      meta ← ok_or (from_str w body) "";
      resolved_version ← (if bool_decide (target_version = "latest")
        then ok_or (latest_of meta) "No latest version found for package '"
        else mret target_version);
      tarball_url ← ok_or (tarball_of meta resolved_version) "Tarball URL not found for ";
      resp ← client_get tarball_url;
      tarball_bytes ← ok_or resp.2 "";
      _ ← create_dir_all w target_dir "";
      entries ← ok_or (untar w tarball_bytes) "";
      _ ← for_each entries (unpack_cached (at_ w target_dir));
      mret target_dir.

(** [resolve_package_bin]; the mode bits it sets, of the file it returns, are not part of the disk. *)
Definition resolve_package_bin (package_dir : path) (pkg_name : rstr) : M path :=
  let pkg_json_path := path_join package_dir [Normal "package.json"] in
  have ← exists_ w pkg_json_path;
  if negb have then fail "package.json not found in "
  else
    content ← read_file w pkg_json_path "";
    pkg_info ← ok_or (from_str w content) "";
    bin_val ← ok_or (json_get pkg_info "bin") "Package '";
    relative_bin ← match bin_val with
      | JString bin_str => mret bin_str
      | JObject bin_obj =>
          let clean_pkg_name := (last (split_on slash pkg_name)) .unwrap_or pkg_name in
          match map_get bin_obj clean_pkg_name ≫= as_str, head bin_obj with
          | Some found, _ => mret found
          | None, Some (_, first_val) => ok_or (as_str first_val) "Invalid bin definition"
          | None, None => fail "Empty bin map in package.json"
          end
      | _ => fail "Unsupported bin field in package.json"
      end;
    let bin_path := join_str package_dir relative_bin in
    have ← exists_ w bin_path;
    if negb have then fail "Binary not found at " else mret bin_path.

(** The process that is started: program, arguments, [NODE_PATH]. *)
Record Started := { program : rstr; arguments : list rstr; started_node_path : rstr }.
Definition is_script (bin_path : path) (content : option rstr) : bool :=
  match pb_extension (render bin_path) with
  | Some ext => bool_decide (ext ∈ [("js" : rstr); ("mjs" : rstr); ("cjs" : rstr); ("ts" : rstr)])
  | None => false
  end
  || match content with
     | Some s => utf8_valid s && starts_with "#!" s && (Prelude.contains "node" s || Prelude.contains "amber" s)
     | None => false
     end.
Definition run_dlx (package_spec : rstr) (args : list rstr) : M Started :=
  let '(name, _) := parse_pkg_spec package_spec in
  pkg_dir ← ensure_package_cached package_spec;
  bin_path ← resolve_package_bin pkg_dir name;
  d ← get_disk;
  let script := is_script bin_path (read_at d (at_ w bin_path)) in
  let local_nm := render (path_join pkg_dir [Normal "node_modules"]) in
  mret {| program := if script then current_exe else render bin_path;
          arguments := if script then ("run" : rstr) :: render bin_path :: args else args;
          started_node_path := match node_path with [] => local_nm | _ => node_path ++ ":" ++ local_nm end |}.
End dlx.

(** ** What unpacking can touch *)

Lemma steps_for_each_in {A} R `{!PreOrder R} (l : list A) f :
  (∀ x, x ∈ l → steps R (f x)) → steps R (for_each l f).
Proof.
  intros Hf. induction l as [|x l IH]; [by apply steps_ret|].
  apply steps_bind; [done|apply Hf; left|]. intros _. apply IH. intros y Hy. apply Hf. by right.
Qed.

Lemma steps_stop {A B} R `{!PreOrder R} text (f : A → M B) : steps R (fail text ≫= f).
Proof. by intros s s' r [= <- <-]. Qed.

Lemma steps_bind_ret {A B} R (a : A) (f : A → M B) : steps R (f a) → steps R (mret a ≫= f).
Proof. done. Qed.

(** An entry that names a file or directory by plain names. *)
Definition tame (e : option Entry) : Prop :=
  ∀ entry p, e = Some entry → entry_path entry = Some p →
    entry_type entry ≠ OtherType ∧ ∃ names, p = Normal <$> names.

Section confined.
Context (w : World) (http_get : nat → rstr → option (bool * option rstr)).
Context (home_dir : option path) (unpack_other : Disk → loc → option Disk).

Lemma relative_names (names : list rstr) :
  ∃ names', (match path_strip_prefix [Normal ("package" : rstr)] (Normal <$> names) with
             | Some stripped => stripped | None => Normal <$> names end) = Normal <$> names'.
Proof.
  destruct (path_strip_prefix _ _) as [r|] eqn:E; [|eauto].
  apply path_strip_prefix_Some in E. destruct names as [|n names]; [done|].
  injection E as _ <-. eauto.
Qed.
Lemma unpack_cached_steps target e :
  tame e → steps (on_disks (unpacks target)) (unpack_cached unpack_other target e).
Proof.
  intros He. unfold unpack_cached.
  destruct e as [entry|]; [apply steps_bind_ret|apply steps_stop; typeclasses eauto].
  destruct (entry_path entry) as [p|] eqn:Ep; [apply steps_bind_ret|apply steps_stop; typeclasses eauto].
  destruct (He entry p eq_refl Ep) as [Ht [names ->]]. destruct (relative_names names) as [names' Hn].
  cbn zeta. rewrite Hn, locate_names. unfold unpack_to. destruct (entry_type entry); [..|done]; run_steps.
Qed.
End confined.
Section cache.
Context (w : World) (http_get : nat → rstr → option (bool * option rstr)) (home_dir : option path).
Context (unpack_other : Disk → loc → option Disk).
#[local] Notation base := (at_ w (get_x_cache_dir home_dir)).
(** The directory of a package. *)
Definition cache_entry (pkg_spec : rstr) : path :=
  let '(name, ver_opt) := parse_pkg_spec pkg_spec in
  path_join (get_x_cache_dir home_dir) (components (sanitize_cache_name name (ver_opt .unwrap_or ("latest" : rstr)))).
Definition cache_area (pkg_spec : rstr) (k : loc) : Prop :=
  below (at_ w (cache_entry pkg_spec)) k ∨ k `prefix_of` at_ w (cache_entry pkg_spec) ∨ k `prefix_of` base.

Lemma create_dir_all_outside Q p text :
  (∀ k, k `prefix_of` at_ w p → Q k) → steps (on_disks (same_outside Q)) (create_dir_all w p text).
Proof.
  intros HQ. apply steps_on_disks; [typeclasses eauto|]. intros d d' H k Hk.
  eapply (create_dirs_outside _ [] _ _ H). simpl. intros [Hp _]. by apply Hk, HQ.
Qed.
(** What is returned is the package's directory. *)
Lemma ensure_returns_entry pkg_spec s s' dir :
  ensure_package_cached w http_get home_dir unpack_other pkg_spec s = Some (s', Ok dir) → dir = cache_entry pkg_spec.
Proof.
  unfold ensure_package_cached, cache_entry. destruct (parse_pkg_spec pkg_spec) as [name ver_opt]. intros H.
  apply bind_ok in H as (s1 & u & _ & H). apply bind_ok in H as (s2 & have & _ & H).
  destruct have; [by injection H as _ <-|]. apply bind_ok in H as (s3 & resp & _ & H).
  destruct (negb _); [done|].
  repeat (apply bind_ok in H as (? & ? & _ & H)). by injection H as _ <-.
Qed.
Lemma client_get_same R `{!PreOrder R} url : steps (on_disks R) (client_get http_get url).
Proof. intros s s' r [= <- _]. unfold on_disks. reflexivity. Qed.

Lemma unpack_area target entries (Q : loc → Prop) {A} (r : A) :
  Forall tame entries → (∀ k, below (at_ w target) k ∨ k `prefix_of` at_ w target → Q k) →
  steps (on_disks (same_outside Q))
    (_ ← create_dir_all w target ""; _ ← for_each entries (unpack_cached unpack_other (at_ w target)); mret r).
Proof.
  intros Ht HQ s s' o H. assert (∀ k, k `prefix_of` at_ w target → Q k) as HQp by auto.
  apply bind_outcome in H as [(s1 & [] & H1 & H)|(e & H1 & _)]; [|by eapply create_dir_all_outside].
  transitivity s1; [by eapply create_dir_all_outside|].
  unfold create_dir_all in H1. apply on_disk_ok in H1 as (d & Hd & ->). apply create_dirs_ready in Hd as Hr; [|apply ready_nil].
  assert (steps (on_disks (unpacks (at_ w target)))
    (_ ← for_each entries (unpack_cached unpack_other (at_ w target)); mret r)) as Hs.
  { apply steps_bind; [typeclasses eauto| |intros _; apply steps_ret; typeclasses eauto].
    apply steps_for_each_in; [typeclasses eauto|]. intros e He. apply unpack_cached_steps.
    by eapply Forall_forall in Ht. }
  apply Hs in H. destruct (H Hr) as [Hout _]. eapply same_outside_mono, Hout. auto.
Qed.

Lemma ensure_area pkg_spec :
  (∀ bytes entries, untar w bytes = Some entries → Forall tame entries) →
  steps (on_disks (same_outside (cache_area pkg_spec)))
    (ensure_package_cached w http_get home_dir unpack_other pkg_spec).
Proof.
  intros Ht. unfold ensure_package_cached. destruct (parse_pkg_spec pkg_spec) as [name ver_opt] eqn:Ep.
  assert (cache_entry pkg_spec = path_join (get_x_cache_dir home_dir)
    (components (sanitize_cache_name name (ver_opt .unwrap_or ("latest" : rstr))))) as <-
    by (unfold cache_entry; by rewrite Ep).
  apply steps_bind; [typeclasses eauto| |intros _].
  { apply create_dir_all_outside. unfold cache_area. auto. }
  apply steps_bind; [typeclasses eauto|eauto with steps|intros []].
  { apply steps_ret. typeclasses eauto. }
  apply steps_bind; [typeclasses eauto|apply client_get_same; typeclasses eauto|intros [ok body]].
  destruct ok; [|apply steps_fail; typeclasses eauto]. cbn [negb fst snd].
  apply steps_bind; [typeclasses eauto|eauto with steps|intros text].
  apply steps_bind; [typeclasses eauto|eauto with steps|intros meta].
  apply steps_bind; [typeclasses eauto|destruct (bool_decide _); eauto with steps|intros v].
  apply steps_bind; [typeclasses eauto|eauto with steps|intros url].
  apply steps_bind; [typeclasses eauto|apply client_get_same; typeclasses eauto|intros [ok body']].
  cbn [snd]. apply steps_bind; [typeclasses eauto|eauto with steps|intros bytes].
  intros s s' r H. destruct (untar w bytes) as [entries|] eqn:Eu.
  - exact (unpack_area (cache_entry pkg_spec) entries _ (cache_entry pkg_spec) (Ht _ _ Eu)
             (λ k Hk, match Hk with or_introl a => or_introl a | or_intror b => or_intror (or_introl b) end) s s' r H).
  - revert H. apply (steps_bind (on_disks (same_outside (cache_area pkg_spec)))); [|intros _].
    + apply create_dir_all_outside. unfold cache_area. auto.
    + apply steps_stop. typeclasses eauto.
Qed.
End cache.

(** *** The directory of a package *)

Lemma no_slash_replaced (s by_ : rstr) : slash ∉ by_ → slash ∉ replace_char slash by_ s.
Proof.
  intros Hb Hin. unfold replace_char in Hin. apply list_elem_of_join in Hin as (l & Hx & Hl).
  apply list_elem_of_fmap in Hl as (c & -> & _). case_bool_decide as Hc; [done|].
  by apply list_elem_of_singleton in Hx.
Qed.
Lemma no_slash_kept (c : ascii) (s : rstr) : slash ∉ s → slash ∉ replace_char c [] s.
Proof.
  intros Hs Hin. unfold replace_char in Hin. apply list_elem_of_join in Hin as (l & Hx & Hl).
  apply list_elem_of_fmap in Hl as (x & -> & Hin). case_bool_decide; [by apply elem_of_nil in Hx|].
  apply list_elem_of_singleton in Hx as <-. done.
Qed.
(** A version without a slash makes one name of the directory. *)
Lemma folder_plain name version :
  slash ∉ version → components (sanitize_cache_name name version) = [Normal (sanitize_cache_name name version)].
Proof.
  intros Hv. set (x := sanitize_cache_name name version).
  assert (slash ∉ x) as Hx.
  { unfold x, sanitize_cache_name. rewrite elem_of_app, elem_of_cons. intros [H|[H|H]]; [|done|done].
    revert H. apply no_slash_kept, no_slash_replaced. by apply (bool_decide_unpack _); vm_compute. }
  assert (at_sign ∈ x) as Hat by (unfold x, sanitize_cache_name; apply elem_of_app; right; left).
  assert (parse_part x = Some (Normal x)) as Hp.
  { unfold parse_part. rewrite !bool_decide_eq_false_2; [done|intros E|intros [E|E]]; rewrite E in Hat;
      revert Hat; by apply (bool_decide_unpack _); vm_compute. }
  change (components x = [Normal x]). unfold components. change ("/"%char) with slash. clearbody x.
  rewrite split_on_free by done. cbn [omap list_omap]. rewrite Hp. destruct x as [|c x]; [by apply elem_of_nil in Hat|].
  rewrite bool_decide_eq_false_2 by (intros ->; apply Hx; left). cbn [head].
  rewrite bool_decide_eq_false_2; [done|]. intros [= -> ->]. by vm_compute in Hp.
Qed.
Definition version_of (pkg_spec : rstr) : rstr := ((parse_pkg_spec pkg_spec).2) .unwrap_or ("latest" : rstr).
Definition folder_of (pkg_spec : rstr) : rstr := sanitize_cache_name (parse_pkg_spec pkg_spec).1 (version_of pkg_spec).
Lemma cache_entry_inside home_dir pkg_spec :
  slash ∉ version_of pkg_spec →
  cache_entry home_dir pkg_spec = get_x_cache_dir home_dir ++ [Normal (folder_of pkg_spec)].
Proof.
  intros Hv. unfold cache_entry. unfold folder_of, version_of in *.
  destruct (parse_pkg_spec pkg_spec) as [name ver_opt]. cbn [fst snd] in *. rewrite folder_plain by done.
  unfold path_join, is_absolute. rewrite bool_decide_eq_false_2 by done. by destruct (get_x_cache_dir home_dir).
Qed.

(** *** What is run *)

(** The manifest's [bin] names [relative], alone or among others. *)
Definition names_bin (info : Json) (relative : rstr) : Prop :=
  json_get info "bin" = Some (JString relative) ∨
  ∃ bins key, json_get info "bin" = Some (JObject bins) ∧ (key, JString relative) ∈ bins.
Lemma map_get_in m k s : map_get m k ≫= as_str = Some s → ∃ key, (key, JString s) ∈ m.
Proof.
  unfold map_get. destruct (head _) as [[key v]|] eqn:E; [|done]. cbn. intros Hv. exists key.
  destruct v; try done. injection Hv as <-. apply head_Some_elem_of, list_elem_of_filter in E as [_ E]. done.
Qed.
Section run.
Context (w : World).
Lemma resolve_bin_outcome dir name s s' r :
  resolve_package_bin w dir name s = Some (s', r) →
  s' = s ∧ ∀ bin, r = Ok bin → ∃ text info relative,
    read_at (disk s) (at_ w (path_join dir [Normal "package.json"])) = Some text ∧ from_str w text = Some info ∧
    names_bin info relative ∧ bin = join_str dir relative ∧ exists_at (disk s) (at_ w bin) = true.
Proof.
  unfold resolve_package_bin, exists_, read_file. cbv zeta.
  change ((get_disk ≫= ?f) ≫= ?g) with (get_disk ≫= λ d, f d ≫= g). rewrite bind_get_disk, bind_ret.
  destruct (negb _); [by intros [= <- <-]|].
  change ((get_disk ≫= ?f) ≫= ?g) with (get_disk ≫= λ d, f d ≫= g). rewrite bind_get_disk.
  destruct (read_at _ _) as [text|] eqn:Et; [cbn [ok_or]; rewrite bind_ret|by intros [= <- <-]].
  destruct (from_str w text) as [info|] eqn:Ei; [cbn [ok_or]; rewrite bind_ret|by intros [= <- <-]].
  destruct (json_get info "bin") as [v|] eqn:Ev; [cbn [ok_or]; rewrite bind_ret|by intros [= <- <-]].
  set (choice := match v with JString _ => _ | _ => _ end).
  assert (∀ s1 r1, choice s = Some (s1, r1) → s1 = s ∧ ∀ rel, r1 = Ok rel → names_bin info rel) as Hchoice.
  { subst choice. intros s1 r1. destruct v; try by intros [= <- <-].
    - intros [= <- <-]. split; [done|]. intros rel [= <-]. by left.
    - destruct (map_get m _ ≫= as_str) as [found|] eqn:Ef.
      + intros [= <- <-]. split; [done|]. intros rel [= <-]. right. apply map_get_in in Ef as [key Hkey]. eauto.
      + destruct (head m) as [[key v]|] eqn:Eh; [|by intros [= <- <-]].
        destruct v as [| | |t| |]; cbn [as_str ok_or]; intros [= <- <-]; (split; [done|]); [done..| |done|done].
        intros rel [= <-]. right. exists m, key. split; [done|]. by apply head_Some_elem_of in Eh. }
  intros [(s1 & rel & H1 & H)|(e & H1 & ->)]%bind_outcome; apply Hchoice in H1 as [-> Hrel]; [|done].
  change ((get_disk ≫= ?f) ≫= ?g) with (get_disk ≫= λ d, f d ≫= g) in H. rewrite bind_get_disk, bind_ret in H. destruct (exists_at _ _) eqn:Ex; cbn [negb] in H; injection H as <- <-; [|done].
  split; [done|]. intros bin [= <-]. exists text, info, rel. split_and!; [done..|by apply Hrel|done|done].
Qed.
End run.

(** C38. On a disk without links, with archives of plain files and directories, and a version
    that is one path component, [amber x] writes, before the program starts, to the package's directory in the cache and to the
    directories leading to the cache, and nowhere else, whether it succeeds or
    fails.  What it runs (and gives the execute bits) is the file that the [bin] of the
    manifest there names, so one below that directory when the manifest names it by
    plain names.  None of the conditions is checked by the code:
    [archive_paths_unchecked], [version_leaves_cache], [bin_leaves_cache]. *)
Theorem dlx_confined w http_get home_dir unpack_other current_exe node_path pkg_spec args s s' r :
  (∀ bytes entries, untar w bytes = Some entries → Forall tame entries) →
  slash ∉ version_of pkg_spec →
  run_dlx w http_get home_dir unpack_other current_exe node_path pkg_spec args s = Some (s', r) →
  let cache := at_ w (get_x_cache_dir home_dir) in
  let package := cache ++ [folder_of pkg_spec] in
  (∀ k, ¬ below package k → ¬ k `prefix_of` cache → disk s' !! k = disk s !! k) ∧
  ∀ started, r = Ok started → ∃ bin text info relative,
    (program started = current_exe ∧ arguments started = ("run" : rstr) :: render bin :: args ∨
     program started = render bin ∧ arguments started = args) ∧
    exists_at (disk s') (at_ w bin) = true ∧
    read_at (disk s') (package ++ ["package.json" : rstr]) = Some text ∧ from_str w text = Some info ∧
    names_bin info relative ∧
    ∀ names, components relative = Normal <$> names → at_ w bin = package ++ names.
Proof.
  intros Ht Hv H cache package. pose proof (cache_entry_inside home_dir pkg_spec Hv) as He.
  assert (at_ w (cache_entry home_dir pkg_spec) = package) as Hat.
  { rewrite He. unfold at_, package, cache. rewrite locate_app. done. }
  unfold run_dlx in H. destruct (parse_pkg_spec pkg_spec) as [name ver_opt] eqn:Ep.
  assert (∀ s1 r1, ensure_package_cached w http_get home_dir unpack_other pkg_spec s = Some (s1, r1) →
    ∀ k, ¬ below package k → ¬ k `prefix_of` cache → disk s1 !! k = disk s !! k) as Hensure.
  { intros s1 r1 H1 k Hk Hk'. apply (ensure_area w http_get home_dir unpack_other pkg_spec Ht s s1 r1 H1 k).
    unfold cache_area. rewrite Hat. fold cache. intros [?|[Hp|?]]; [done| |done].
    destruct Hp as [l Hl]. destruct l as [|x l] using rev_ind.
    - rewrite app_nil_r in Hl. apply Hk. rewrite <-Hl. by apply below_refl.
    - clear IHl. unfold package in Hl. rewrite app_assoc in Hl. apply app_inj_tail in Hl as [Hl _].
      apply Hk'. by exists l. }
  apply bind_outcome in H as [(s1 & dir & H1 & H)|(e & H1 & ->)]; [|split; [by eapply Hensure|done]].
  assert (dir = cache_entry home_dir pkg_spec) as ->.
  { pose proof (ensure_returns_entry _ _ _ _ _ _ _ _ H1). done. }
  apply bind_outcome in H as [(s2 & bin & H2 & H)|(e & H2 & ->)];
    apply resolve_bin_outcome in H2 as [-> Hbin]; [|split; [by eapply Hensure|done]].
  rewrite bind_get_disk in H. injection H as <- <-. split; [by eapply Hensure|].
  intros started [= <-]. destruct (Hbin _ eq_refl) as (text & info & rel & Htext & Hinfo & Hrel & -> & Hex).
  exists (join_str (cache_entry home_dir pkg_spec) rel), text, info, rel. split_and!; [|done| |done|done|].
  - cbn [program arguments]. destruct (is_script _ _); [by left|by right].
  - rewrite <-Htext. f_equal. rewrite <-Hat. symmetry.
    exact (at_plain w (cache_entry home_dir pkg_spec) "package.json" [("package.json" : rstr)] eq_refl).
  - intros names Hn. rewrite (at_plain w _ _ names Hn). by rewrite Hat.
Qed.

(** A package with a manifest in its cache directory is taken from there as it is:
    no request is made and nothing is written but the cache directory itself. *)
Theorem cached_package_runs_offline w http_get home_dir unpack_other pkg_spec s d :
  create_dir_all_at (disk s) (at_ w (get_x_cache_dir home_dir)) = Some d →
  exists_at d (at_ w (path_join (cache_entry home_dir pkg_spec) [Normal "package.json"])) = true →
  ensure_package_cached w http_get home_dir unpack_other pkg_spec s
  = Some (with_disk s d, Ok (cache_entry home_dir pkg_spec)).
Proof.
  intros Hd He. unfold ensure_package_cached, cache_entry, create_dir_all in *.
  destruct (parse_pkg_spec pkg_spec) as [name ver_opt]. rewrite bind_on_disk, Hd.
  unfold exists_. change ((get_disk ≫= ?f) ≫= ?g) with (get_disk ≫= λ d, f d ≫= g).
  rewrite bind_get_disk, bind_ret. cbn [disk with_disk]. rewrite He. reflexivity.
Qed.

Example specs_ex :
  parse_pkg_spec "@biomejs/biome@1.8.0" = ("@biomejs/biome" : rstr, Some ("1.8.0" : rstr)) ∧
  parse_pkg_spec "cowsay" = ("cowsay" : rstr, None) ∧
  sanitize_cache_name "@biomejs/biome" "1.8.0" = "biomejs__biome@1.8.0".
Proof. vm_compute. done. Qed.
(** Two packages can share a cache directory, so that one runs as the other. *)
Example cache_names_collide :
  sanitize_cache_name "@biomejs/biome" "1.8.0" = sanitize_cache_name "biomejs__biome" "1.8.0".
Proof. vm_compute. reflexivity. Qed.

Module DlxToy.
Definition meta : Json := JObject [("dist-tags" : rstr, JObject [("latest" : rstr, JString "1")]);
  ("versions" : rstr, JObject [("1" : rstr, JObject [("dist" : rstr, JObject [("tarball" : rstr, JString "t")])])])].
Definition get (n : nat) (url : rstr) : option (bool * option rstr) := Some (true, Some url).
Definition regular (p data : rstr) : option Entry :=
  Some {| entry_path := Some (components p); entry_type := RegularFile; entry_data := Some data |}.
Definition world_of (meta : Json) (entries : list (option Entry)) : World := {|
  host := bare_host; url_host := λ _, None; clock := λ _, []; cwd := [];
  curl := λ _ _, None; curl_to := λ _ _, None; from_str := λ _, Some meta; print_package := λ _, [];
  print_lock := λ _, []; print_meta := λ _ _, []; sha512 := id; sha384 := id; sha256 := id; sha1 := id;
  base64_decode := Some; untar := λ _, Some entries; temp_name := λ _ _, [];
  removal_stops := λ _ _, None; rename_refused := λ _ _ _, false; dir_order := id;
  hash_order := map_to_list |}.
Definition world : list (option Entry) → World := world_of meta.
Definition plain : World := world [regular "package/package.json" "{}"; regular "package/bin/a" "a"].
Definition hostile : World := world [regular "/etc/profile" "evil"; regular "package/../../../x" "evil"].
Definition broken : World := world [regular "package/package.json" "{}"; None].
Definition start : PmState := {| disk := <[[("etc" : rstr)] := DirNode]> ∅; perms := perm_init; curls := 0 |}.
Definition run (w : World) (s : PmState) : option (PmState * result path PmError) :=
  ensure_package_cached w get (Some [RootDir; Normal "h"]) (λ d _, Some d) "a" s.
Definition disk_after (w : World) (s : PmState) : Disk :=
  match run w s with Some (s, _) => disk s | None => ∅ end.
(** The archive of [plain], with a manifest whose [bin] is [bin]; every text parses to it. *)
Definition running (bin : rstr) : World :=
  world_of match meta with JObject fields => JObject (("bin" : rstr, JString bin) :: fields) | v => v end
    [regular "package/package.json" "{}"; regular "package/bin/a" "a"].
Definition ran : option (PmState * result Started PmError) :=
  run_dlx (running "bin/a") get (Some [RootDir; Normal "h"]) (λ d _, Some d) "amber" [] "a" [] start.
End DlxToy.
(** Nothing checks the entries of an archive: an absolute path is written where it
    points, and [..] leads out of the cache. *)
Example archive_paths_unchecked :
  let d := DlxToy.disk_after DlxToy.hostile DlxToy.start in
  read_at d [("etc" : rstr); ("profile" : rstr)] = Some ("evil" : rstr) ∧
  read_at d [("h" : rstr); ("x" : rstr)] = Some ("evil" : rstr).
Proof. vm_compute. done. Qed.
(** An archive that breaks off after the manifest fails once and is taken for complete
    ever after. *)
Example broken_archive_stays_cached :
  match DlxToy.run DlxToy.broken DlxToy.start with
  | Some (s, Err _) =>
      match DlxToy.run DlxToy.broken s with Some (_, Ok _) => true | _ => false end
  | _ => false
  end = true.
Proof. vm_compute. reflexivity. Qed.

(** A version with [..] leads out of the cache, and the manifest's [bin] out of the package:
    what it names is run, and made executable. *)
Example version_leaves_cache :
  at_ DlxToy.plain (cache_entry (Some [RootDir; Normal "h"]) "a@../../../../x") = [("h" : rstr); ("x" : rstr)].
Proof. vm_compute. reflexivity. Qed.
Example bin_leaves_cache :
  let s := with_disk DlxToy.start (<[[("bin" : rstr)] := DirNode]>
    (<[[("bin" : rstr); ("sh" : rstr)] := FileNode "#!shell"]> (disk DlxToy.start))) in
  match run_dlx (DlxToy.running "/bin/sh") DlxToy.get (Some [RootDir; Normal "h"]) (λ d _, Some d) "amber" [] "a" [] s with
  | Some (_, Ok started) => program started = ("/bin/sh" : rstr)
  | _ => False
  end.
Proof. vm_compute. reflexivity. Qed.

Lemma dlx_confined_witness :
  disk (match DlxToy.ran with Some (s, _) => s | None => DlxToy.start end) !! [("etc" : rstr)] = Some DirNode ∧
  ∃ bin, at_ (DlxToy.running "bin/a") bin = [("h" : rstr); (".amberjs" : rstr); ("x_cache" : rstr); ("a@latest" : rstr);
                                             ("bin" : rstr); ("a" : rstr)].
Proof.
  assert (match DlxToy.ran with Some (_, Ok _) => true | _ => false end = true) as Hran by (vm_compute; reflexivity).
  destruct DlxToy.ran as [[s [started|e]]|] eqn:E; [clear Hran|discriminate Hran..].
  destruct (dlx_confined (DlxToy.running "bin/a") DlxToy.get (Some [RootDir; Normal "h"]) (λ d _, Some d) "amber" [] "a" []
    DlxToy.start s (Ok started)) as [Hout Hrun]; [| |exact E|].
  - intros bytes entries H. assert (entries = [DlxToy.regular "package/package.json" "{}";
      DlxToy.regular "package/bin/a" "a"]) as -> by (symmetry; apply (inj Some); exact H).
    apply Forall_cons_2; [|apply Forall_cons_2; [|apply Forall_nil_2]]; intros entry p He Hp;
      (apply (inj Some) in He as <-); (apply (inj Some) in Hp as <-); (split; [discriminate|]).
    + exists [("package" : rstr); ("package.json" : rstr)]. vm_compute. reflexivity.
    + exists [("package" : rstr); ("bin" : rstr); ("a" : rstr)]. vm_compute. reflexivity.
  - apply (bool_decide_unpack _). vm_compute. exact I.
  - split.
    + rewrite (Hout [("etc" : rstr)]); [reflexivity| |]; intros [t Ht]; vm_compute in Ht; discriminate Ht.
    + destruct (Hrun started eq_refl) as (bin & text & info & relative & _ & _ & _ & Hinfo & Hbin & Hnames).
      exists bin. apply (inj Some) in Hinfo as <-.
      assert (relative = "bin/a") as ->.
      { destruct Hbin as [Hbin|(bins & key & Hbin & _)]; vm_compute in Hbin; [by injection Hbin as <-|discriminate Hbin]. }
      rewrite (Hnames [("bin" : rstr); ("a" : rstr)]); vm_compute; reflexivity.
Defined.
Lemma cached_package_runs_offline_witness :
  let s := {| disk := <[[("h" : rstr)] := DirNode]> (<[[("h" : rstr); (".amberjs" : rstr)] := DirNode]>
                (<[[("h" : rstr); (".amberjs" : rstr); ("x_cache" : rstr)] := DirNode]>
                (<[[("h" : rstr); (".amberjs" : rstr); ("x_cache" : rstr); ("a@latest" : rstr)] := DirNode]>
                (<[[("h" : rstr); (".amberjs" : rstr); ("x_cache" : rstr); ("a@latest" : rstr);
                    ("package.json" : rstr)] := FileNode "{}"]> ∅))));
              perms := perm_init; curls := 0 |} in
  ensure_package_cached DlxToy.plain (λ _ _, None) (Some [RootDir; Normal "h"]) (λ _ _, None) "a" s
  = Some (with_disk s (disk s), Ok (cache_entry (Some [RootDir; Normal "h"]) "a")).
Proof.
  intros s. apply (cached_package_runs_offline DlxToy.plain (λ _ _, None) (Some [RootDir; Normal "h"]) (λ _ _, None) "a" s (disk s)).
  - change (at_ DlxToy.plain (get_x_cache_dir (Some [RootDir; Normal ("h" : rstr)])))
      with [("h" : rstr); (".amberjs" : rstr); ("x_cache" : rstr)].
    apply create_ready. intros k Hk. destruct Hk as [t Ht].
    destruct k as [|a [|b [|c [|e k]]]]; simplify_eq/=; vm_compute; reflexivity.
  - vm_compute. reflexivity.
Defined.
