(* ===== verification/Agent.v ===== *)
(** * The tool host for agents, [src/agent.rs]

    A tool file is a JavaScript or TypeScript file whose exported functions an agent
    may call.  [amber run --export-tools] prints their schemas, [amber
    session] serves one JSON-RPC request per line, [amber mcp] serves framed messages.
    This file models all three from the bytes on the input to the bytes on the output: the
    schemas' file and the scan of the source, the session with its runtime, the
    dispatch of a request, the framing, the two loops and the three commands of [src/main.rs].

    The state [Proc] is what the command line sets up ([CliState]), whatever else the
    scripts can change ([X]), and what the process has written on its standard output,
    which a script can write on as well.  The runtime is V8's: its type [RT] and how it runs
    code are fields of [AgentHost], with the text parser of serde_json, memory and the
    writer.  A script that never ends is not modelled. *)

From S2P Require Import Prelude Bytes Json RustPath Permissions CommandLine.

(** ** Strings *)

(** [s.trim_start_matches(pat)] and [s.trim_end_matches(pat)] for a non-empty text: at most one
    match per byte. *)
Fixpoint drop_matches (fuel : nat) (pat s : rstr) : rstr :=
  match fuel, strip_prefix pat s with
  | S fuel, Some rest => drop_matches fuel pat rest
  | _, _ => s
  end.
Definition trim_start_matches (pat s : rstr) : rstr := drop_matches (length s) pat s.
Definition trim_end_matches (pat s : rstr) : rstr :=
  reverse (drop_matches (length s) (reverse pat) (reverse s)).

(** ** Tool schemas *)

Definition some_value (v : Json) : option (option Json) :=
  Some match v with JNull => None | v => Some (value_of v) end.
Definition some_str (v : Json) : option (option rstr) :=
  match v with JNull => Some None | JString s => Some (Some s) | _ => None end.

Record ToolSchema := { tool_name : rstr; description : rstr; input_schema : Json }.
Definition default_object_schema : Json := JObject [("type" : rstr, JString "object")].
Definition tool_of_doc (doc : Json) : option ToolSchema :=
  f ← fields_of 3 doc;
  n ← field None as_str f "name" 0;
  d ← field (Some []) as_str f "description" 1;
  s ← field (Some default_object_schema) (λ v, Some (value_of v)) f "inputSchema" 2;
  Some {| tool_name := n; description := d; input_schema := s |}.
(** [ToolsFile] *)
Definition tools_file_of_doc (doc : Json) : option (list ToolSchema) :=
  f ← fields_of 1 doc;
  field (Some []) (λ v, match v with JArray l => mapM tool_of_doc l | _ => None end) f "tools" 0.
(** [Serialize for ToolSchema] *)
Definition tool_json (t : ToolSchema) : Json :=
  JObject [("name" : rstr, JString (tool_name t)); ("description" : rstr, JString (description t));
           ("inputSchema" : rstr, input_schema t)].
Definition tools_list_json (tools : list ToolSchema) : Json :=
  JObject [("tools" : rstr, JArray (map tool_json tools))].

Definition EXPORT_TOOLS_ERROR_PREFIX : rstr := "error: amber run --export-tools:".
Definition export_tools_error (message : rstr) : rstr := EXPORT_TOOLS_ERROR_PREFIX ++ " " ++ message.

(** [seen] is the set of the names so far. *)
Fixpoint validate_from (seen : gset rstr) (tools : list ToolSchema) : result unit rstr :=
  match tools with
  | [] => Ok tt
  | tool :: tools' =>
      if bool_decide (tool_name tool = []) then Err (export_tools_error "tool name must be non-empty")
      else if bool_decide (tool_name tool ∈ seen)
      then Err (export_tools_error ("duplicate tool name '" ++ tool_name tool ++ "'"))
      else match input_schema tool with
           | JObject _ => validate_from ({[tool_name tool]} ∪ seen) tools'
           | _ => Err (export_tools_error ("inputSchema for '" ++ tool_name tool ++ "' must be a JSON object"))
           end
  end.
Definition validate_printed_tools (tools : list ToolSchema) : result unit rstr := validate_from ∅ tools.

(** ** The scan of the source *)

Definition is_ident_char (c : ascii) : bool :=
  in_range 48 57 c || in_range 65 90 c || in_range 97 122 c
  || bool_decide (c = "_"%char) || bool_decide (c = "$"%char).
(** [rest.split(|c| !is_ident_char(c)).next()] *)
Fixpoint take_ident (s : rstr) : rstr :=
  match s with c :: s' => if is_ident_char c then c :: take_ident s' else [] | [] => [] end.

Definition push_doc_line (pending_doc : list rstr) (trimmed : rstr) : list rstr :=
  let clean := trim (trim_start_matches "//" (drop_char "*"
                 (trim_end_matches "*/" (trim_start_matches "/**" trimmed)))) in
  if bool_decide (clean ≠ []) && negb (starts_with "@" clean) then pending_doc ++ [clean] else pending_doc.

(** The name a line exports. *)
Definition export_name (trimmed : rstr) : option rstr :=
  rest ← match strip_prefix "export async function " trimmed with
         | Some rest => Some rest
         | None => strip_prefix "export function " trimmed
         end;
  if bool_decide (take_ident rest = []) then None else Some (take_ident rest).

Record Scan := {
  tools : list ToolSchema; pending_doc : list rstr;
  in_block : bool; block_is_doc : bool;
}.
Definition scan_start : Scan := {| tools := []; pending_doc := []; in_block := false; block_is_doc := false |}.
Definition scan_source_line (st : Scan) (line : rstr) : Scan :=
  let trimmed := trim line in
  if in_block st then
    {| tools := tools st;
       pending_doc := if block_is_doc st then push_doc_line (pending_doc st) trimmed else pending_doc st;
       in_block := negb (contains "*/" trimmed);
       block_is_doc := if contains "*/" trimmed then false else block_is_doc st |}
  else if starts_with "/*" trimmed then
    {| tools := tools st;
       pending_doc := if starts_with "/**" trimmed then push_doc_line (pending_doc st) trimmed else pending_doc st;
       in_block := negb (contains "*/" trimmed);
       block_is_doc := starts_with "/**" trimmed |}
  else if starts_with "//" trimmed || starts_with "*" trimmed then
    {| tools := tools st; pending_doc := push_doc_line (pending_doc st) trimmed;
       in_block := false; block_is_doc := block_is_doc st |}
  else match export_name trimmed with
  | Some name =>
      {| tools := if existsb (λ tool, bool_decide (tool_name tool = name)) (tools st) then tools st
                  else tools st ++ [{| tool_name := name;
                    description := match pending_doc st with
                                   | [] => "Exported function `" ++ name ++ "`"
                                   | docs => join " " docs
                                   end;
                    input_schema := default_object_schema |}];
         pending_doc := []; in_block := false; block_is_doc := block_is_doc st |}
  | None =>
      {| tools := tools st; pending_doc := if bool_decide (trimmed = []) then pending_doc st else [];
         in_block := false; block_is_doc := block_is_doc st |}
  end.
Definition scan_exported_functions (source : rstr) : list ToolSchema :=
  tools (fold_left scan_source_line (file_lines source) scan_start).

Definition wrap_source_for_tool_exports (source : rstr) : rstr :=
  let names := map tool_name (scan_exported_functions source) in
  let rewritten := replace (replace source "export async function " "async function ")
                     "export function " "function " in
  match names with
  | [] => rewritten
  | _ => rewritten ++ [newline] ++ ";globalThis.__beeToolExports = { " ++ join ", " names ++ " };" ++ [newline]
  end.

(** ** The process *)

Record Proc (X : Type) := { cli : CliState; outside : X; stdout : rstr }.
Arguments cli {X} p.
Arguments outside {X} p.
Arguments stdout {X} p.
Arguments Build_Proc {X} cli outside stdout.

Record AgentHost (RT X : Type) := {
  machine : CliHost;                              (* the disk, before any script runs *)
  url_host : rstr → option rstr;                  (* the [url] crate *)
  debug_path : path → rstr;                       (* [format!("{:?}", path)] *)
  now : X → rstr;                                 (* the clock's text in the audit log *)
  parse_doc : rstr → result Json rstr;            (* serde_json on a text *)
  serde_error : rstr → rstr;                      (* its error for a text of the wrong shape *)
  to_string : Json → rstr;                        (* [Value::to_string] *)
  to_string_pretty : Json → rstr;
  from_utf8_lossy : rstr → rstr;
  utf8_error : rstr → rstr;                       (* the text of [String::from_utf8]'s error *)
  can_alloc : Z → bool;                           (* whether a buffer of this size can be had *)
  write_out : rstr → rstr → rstr * result unit rstr;  (* a text after what is written, and flush *)
  runtime_new : Proc X → Proc X * result RT rstr;     (* [MinimalRuntime::new] *)
  set_main_module_path : RT → path → RT;
  execute_code : RT → rstr → Proc X → Proc X * RT * result rstr rstr;
}.
Arguments machine {RT X} _.
Arguments url_host {RT X} _ _.
Arguments debug_path {RT X} _ _.
Arguments now {RT X} _ _.
Arguments parse_doc {RT X} _ _.
Arguments serde_error {RT X} _ _.
Arguments to_string {RT X} _ _.
Arguments to_string_pretty {RT X} _ _.
Arguments from_utf8_lossy {RT X} _ _.
Arguments utf8_error {RT X} _ _.
Arguments can_alloc {RT X} _ _.
Arguments write_out {RT X} _ _ _.
Arguments runtime_new {RT X} _ _.
Arguments set_main_module_path {RT X} _ _ _.
Arguments execute_code {RT X} _ _ _ _.

(** A step of the process: it changes the state and ends, fails, or panics. *)
Definition P (X A : Type) : Type := Proc X → Proc X * outcome A.
#[export] Instance P_ret X : MRet (P X) := λ A a p, (p, Done a).
#[export] Instance P_bind X : MBind (P X) := λ A B f m p,
  match m p with
  | (p, Done a) => f a p
  | (p, Failed e) => (p, Failed e)
  | (p, Crashed) => (p, Crashed)
  end.
Definition lift {X A} (r : result A rstr) : P X A := λ p,
  (p, match r with Ok a => Done a | Err e => Failed e end).
Definition lift_step {X A} (m : Proc X → Proc X * result A rstr) : P X A := λ p,
  ((m p).1, match (m p).2 with Ok a => Done a | Err e => Failed e end).
(** A step of the command line's set-up. *)
Definition on_cli {X A} (m : C A) : P X A := λ p,
  let '(s, r) := m (cli p) in
  ({| cli := s; outside := outside p; stdout := stdout p |},
   match r with Ok a => Done a | Err e => Failed e end).

(** What is left of the standard input, and how reading ends after it: at the end of
    the file, or with an error. *)
Record Input := { unread : rstr; ending : option rstr }.

Section agent.
Context {RT X : Type} (H : AgentHost RT X).

(** [serde_json::from_str] at [Value] and at a derived type. *)
Definition parse_value (text : rstr) : result Json rstr :=
  match parse_doc H text with Ok doc => Ok (value_of doc) | Err e => Err e end.
Definition parse_as {A} (of_doc : Json → option A) (text : rstr) : result A rstr :=
  match parse_doc H text with
  | Ok doc => match of_doc doc with Some a => Ok a | None => Err (serde_error H text) end
  | Err e => Err e
  end.

(** ** Loading the schemas *)

Definition export_tools_from_entry (entry : path) : result (list ToolSchema) rstr :=
  let sidecar := tools_json_path entry in
  if host_is_file (files (machine H)) sidecar then
    match read_to_string (machine H) sidecar with
    | Err e => Err ("Failed to read tools manifest " ++ render sidecar ++ ": " ++ e)
    | Ok contents =>
        match parse_as tools_file_of_doc contents with
        | Err e => Err ("Failed to parse tools manifest " ++ render sidecar ++ " as JSON: " ++ e)
        | Ok [] => Err ("tools manifest " ++ render sidecar ++ " has an empty tools array")
        | Ok parsed => Ok parsed
        end
    end
  else
    match read_to_string (machine H) entry with
    | Err e => Err ("Failed to read " ++ render entry ++ ": " ++ e)
    | Ok source =>
        match scan_exported_functions source with
        | [] => Err ("No tools.json next to " ++ render entry ++ " and no exported functions found")
        | scanned => Ok scanned
        end
    end.
Definition load_export_tools (entry : path) : result (list ToolSchema) rstr :=
  if negb (host_exists (files (machine H)) entry)
  then Err (export_tools_error ("entry file not found: " ++ render entry))
  else if negb (host_is_file (files (machine H)) entry)
  then Err (export_tools_error ("entry must be a file: " ++ render entry))
  else match export_tools_from_entry entry with
       | Err err => Err (export_tools_error err)
       | Ok tools => _ ← validate_printed_tools tools; Ok tools
       end.

(** ** The session *)

Record AgentSession := {
  entry : path; source : rstr; isolate_per_call : bool; runtime : option RT;
}.
Definition with_runtime (s : AgentSession) (rt : RT) : AgentSession := {|
  entry := entry s; source := source s; isolate_per_call := isolate_per_call s; runtime := Some rt |}.

Definition spawn_runtime (s : AgentSession) (p : Proc X) : Proc X * result RT rstr :=
  match runtime_new H p with
  | (p, Err e) => (p, Err ("Failed to create runtime: " ++ e))
  | (p, Ok rt) =>
      match execute_code H (set_main_module_path H rt (entry s)) (wrap_source_for_tool_exports (source s)) p with
      | (p, _, Err e) => (p, Err ("Failed to load tool module " ++ render (entry s) ++ ": " ++ e))
      | (p, rt, Ok _) => (p, Ok rt)
      end
  end.
Definition AgentSession_new (entry : path) (isolated : bool) : P X AgentSession :=
  source ← lift match read_to_string (machine H) entry with
                | Ok text => Ok text
                | Err e => Err ("Failed to read " ++ render entry ++ ": " ++ e)
                end;
  let session := {| entry := entry; source := source; isolate_per_call := isolated; runtime := None |} in
  if isolated then mret session else rt ← lift_step (spawn_runtime session); mret (with_runtime session rt).

(** [MinimalRuntime::call_named_export] *)
Definition ln (line rest : rstr) : rstr := line ++ newline :: rest.
Definition export_call (name args_json : rstr) : rstr :=
  let name_json := to_string H (JString name) in
  let args_literal := to_string H (JString args_json) in
  ln "" (ln "(async () => {" (ln ("  const name = " ++ name_json ++ ";")
  (ln ("  const args = JSON.parse(" ++ args_literal ++ ");")
  (ln "  const bag = globalThis.__beeToolExports"
  (ln "    || (typeof module !== 'undefined' && module.exports)" (ln "    || {};"
  (ln "  const fn = bag[name];" (ln "  if (typeof fn !== 'function') {"
  (ln "    throw new Error('unknown tool: ' + name);" (ln "  }" (ln "  const result = await fn(args);"
  (ln "  if (result === undefined) {" (ln "    return 'null';" (ln "  }"
  (ln "  return JSON.stringify(result);" (ln "})()" "")))))))))))))))).
Definition call_named_export (rt : RT) (name args_json : rstr) (p : Proc X) : Proc X * RT * result rstr rstr :=
  execute_code H rt (export_call name args_json) p.

Definition parse_tool_result (raw : rstr) : result Json rstr :=
  let trimmed := trim raw in
  if bool_decide (trimmed = []) || bool_decide (trimmed = "undefined") || bool_decide (trimmed = "null")
  then Ok JNull
  else match parse_value trimmed with Ok value => Ok value | Err _ => Ok (JString trimmed) end.

(** [permissions::record_tool_call_audit] on the process. *)
Definition audit_call (name : rstr) (allowed : bool) (p : Proc X) : Proc X := {|
  cli := {| perm := record_tool_call_audit (now H (outside p)) (perm (cli p)) name allowed;
            vfs := vfs (cli p); import_map := import_map (cli p) |};
  outside := outside p; stdout := stdout p |}.
(** The [?] on the call leaves the function before the audit. *)
Definition call_tool (s : AgentSession) (name : rstr) (arguments : Json) (p : Proc X) :
    Proc X * AgentSession * result Json rstr :=
  let args_json := to_string H arguments in
  if isolate_per_call s then
    match spawn_runtime s p with
    | (p, Ok rt) =>
        match call_named_export rt name args_json p with
        | (p, _, Err e) => (p, s, Err e)
        | (p, _, Ok raw) =>
            let result := parse_tool_result raw in
            (audit_call name (is_ok result) p, s, result)
        end
    | (p, Err e) => (p, s, Err e)
    end
  else
    match runtime s with
    | None => (p, s, Err ("session runtime missing" : rstr))
    | Some rt =>
        match call_named_export rt name args_json p with
        | (p, rt, Err e) => (p, with_runtime s rt, Err e)
        | (p, rt, Ok raw) =>
            let result := parse_tool_result raw in
            (audit_call name (is_ok result) p, with_runtime s rt, result)
        end
    end.

(** ** JSON-RPC *)

Record JsonRpcRequest := {
  jsonrpc : rstr; id : option Json; method : rstr; params : Json;
  tool : option rstr; args : option Json;
}.
Definition request_of_doc (doc : Json) : option JsonRpcRequest :=
  f ← fields_of 6 doc;
  v ← field (Some ("2.0" : rstr)) as_str f "jsonrpc" 0;
  i ← field (if by_name f then Some None else None) some_value f "id" 1;
  m ← field (Some []) as_str f "method" 2;
  ps ← field (Some JNull) (λ v, Some (value_of v)) f "params" 3;
  t ← field (Some None) some_str f "tool" 4;
  a ← field (Some None) some_value f "args" 5;
  Some {| jsonrpc := v; id := i; method := m; params := ps; tool := t; args := a |}.

Definition rpc_result (version : rstr) (id result : Json) : Json :=
  JObject [("jsonrpc" : rstr, JString version); ("id" : rstr, id); ("result" : rstr, result)].
Definition jsonrpc_error (version : rstr) (id : Json) (code message : rstr) : Json :=
  JObject [("jsonrpc" : rstr, JString version); ("id" : rstr, id);
           ("error" : rstr, JObject [("code" : rstr, JNumber code); ("message" : rstr, JString message)])].
Definition CARGO_PKG_VERSION : rstr := "1.17.0".
Definition mcp_initialize_result : Json := JObject [
  ("protocolVersion" : rstr, JString "2024-11-05");
  ("capabilities" : rstr, JObject [("tools" : rstr, JObject []); ("prompts" : rstr, JObject []);
                                   ("resources" : rstr, JObject [])]);
  ("serverInfo" : rstr, JObject [("name" : rstr, JString "amberjs"); ("version" : rstr, JString CARGO_PKG_VERSION)])].

(** [params.get(key).and_then(Value::as_str).unwrap_or("")] and
    [params.get(key).cloned().unwrap_or(json!({}))] on what [get] gives. *)
Definition str_or_empty (v : option Json) : rstr := (v ≫= as_str) .unwrap_or [].
Definition or_empty_object (v : option Json) : Json := v .unwrap_or (JObject []).
Definition or_else {A} (a b : option A) : option A := match a with Some _ => a | None => b end.
Definition answer_call (request : JsonRpcRequest) (s : AgentSession) (name : rstr) (arguments : Json) (p : Proc X) :
    Proc X * AgentSession * Json :=
  let id := id request .unwrap_or JNull in
  match call_tool s name arguments p with
  | (p, s, Ok result) => (p, s, rpc_result (jsonrpc request) id result)
  | (p, s, Err error) => (p, s, jsonrpc_error (jsonrpc request) id "-32000" error)
  end.
Definition dispatch_value (tools : list ToolSchema) (s : AgentSession) (request : JsonRpcRequest) (p : Proc X) :
    Proc X * AgentSession * Json :=
  let id := id request .unwrap_or JNull in
  let ok result := (p, s, rpc_result (jsonrpc request) id result) in
  let named (m : rstr) := bool_decide (method request = m) in
  match tool request with
  | Some t => answer_call request s t (or_empty_object (args request)) p
  | None =>
      if named "tools/list" || named "list" then ok (tools_list_json tools)
      else if named "tools/call" || named "call" then
        answer_call request s
          (str_or_empty (or_else (json_get (params request) "name") (json_get (params request) "tool")))
          (or_empty_object (or_else (json_get (params request) "arguments") (json_get (params request) "args"))) p
      else if named "prompts/list" then ok (JObject [("prompts" : rstr, JArray [])])
      else if named "resources/list" then ok (JObject [("resources" : rstr, JArray [])])
      else if named "resources/templates/list" then ok (JObject [("resourceTemplates" : rstr, JArray [])])
      else if named "initialize" then ok mcp_initialize_result
      else if named "ping" then ok (JObject [])
      else if named "" then (p, s, jsonrpc_error (jsonrpc request) id "-32600" "missing method")
      else (p, s, jsonrpc_error (jsonrpc request) id "-32601" ("unknown method: " ++ method request))
  end.
Definition dispatch_jsonrpc (tools : list ToolSchema) (s : AgentSession) (request : JsonRpcRequest) (p : Proc X) :
    Proc X * AgentSession * rstr :=
  let '(p, s, response) := dispatch_value tools s request p in (p, s, to_string H response).
Definition parse_error (error : rstr) : Json := jsonrpc_error "2.0" JNull "-32700" error.
Definition handle_jsonrpc_line (tools : list ToolSchema) (s : AgentSession) (line : rstr) (p : Proc X) :
    Proc X * AgentSession * rstr :=
  match parse_as request_of_doc line with
  | Ok request => dispatch_jsonrpc tools s request p
  | Err error => (p, s, to_string H (parse_error error))
  end.

(** [write!] and [flush] on the output. *)
Definition emit (text : rstr) : P X unit := λ p,
  let '(out, r) := write_out H (stdout p) text in
  ({| cli := cli p; outside := outside p; stdout := out |}, match r with Ok _ => Done tt | Err e => Failed e end).

(** [input.lines()]: the lines with the errors of reading; a last line without a
    newline is lost when an error follows it. *)
Definition read_line (line : rstr) : result rstr rstr :=
  if utf8_valid line then Ok ((strip_suffix [carriage_return] line) .unwrap_or line)
  else Err ("stream did not contain valid UTF-8" : rstr).
Fixpoint read_lines (parts : list rstr) (ending : option rstr) : list (result rstr rstr) :=
  match parts with
  | [] => []
  | [x] => match ending with
           | Some e => [Err e]
           | None => if bool_decide (x = []) then []
                     else [if utf8_valid x then Ok x else Err ("stream did not contain valid UTF-8" : rstr)]
           end
  | x :: parts' => read_line x :: read_lines parts' ending
  end.
Fixpoint session_loop (tools : list ToolSchema) (s : AgentSession) (lines : list (result rstr rstr)) (p : Proc X) :
    Proc X * outcome unit :=
  match lines with
  | [] => (p, Done tt)
  | Err e :: _ => (p, Failed e)
  | Ok line :: lines' =>
      let line := trim line in
      if bool_decide (line = []) then session_loop tools s lines' p
      else let '(p, s, response) := handle_jsonrpc_line tools s line p in
           match emit (response ++ [newline]) p with
           | (p, Done _) => session_loop tools s lines' p
           | stop => stop
           end
  end.
Definition run_jsonrpc_session (entry : path) (isolated : bool) (input : Input) : P X unit :=
  tools ← lift (export_tools_from_entry entry);
  session ← AgentSession_new entry isolated;
  session_loop tools session (read_lines (split_on newline (unread input)) (ending input)).

(** ** Framed messages *)

Definition crlfcrlf : rstr := [carriage_return; newline; carriage_return; newline].
(** The loop's condition and the [break] at its top. *)
Definition header_complete (header : rstr) : bool :=
  contains crlfcrlf header || (bool_decide (4 ≤ length header) && ends_with [newline; newline] header).
(** The header's bytes one by one, with what is left; [None] at the end of the input. *)
Fixpoint read_header (header input : rstr) (ending : option rstr) : outcome (option (rstr * rstr)) :=
  if header_complete header then Done (Some (header, input))
  else match input with
       | [] => match ending with
               | Some e => Failed e
               | None => match header with [] => Done None | _ => Failed "truncated MCP header" end
               end
       | c :: input' =>
           let header := header ++ [c] in
           if bool_decide (65536 < len header)%Z then Failed "MCP header too large"
           else read_header header input' ending
       end.
Definition content_length (line : rstr) : option Z :=
  '(name, value) ← split_once ":" line;
  if bool_decide (to_lowercase name = "content-length") then parse_u64 (trim value) else None.
(** [vec![0u8; length]]: a size over [isize::MAX] panics, one that memory does not
    have ends the process. *)
Definition ISIZE_MAX : Z := 2 ^ 63 - 1.
Definition read_mcp_message (input : Input) : outcome (option (rstr * Input)) :=
  found ← read_header [] (unread input) (ending input);
  match found with
  | None => mret None
  | Some (header, rest) =>
      let header_text := from_utf8_lossy H header in
      let left_over (l : rstr) := {| unread := l; ending := ending input |} in
      if negb (contains "content-length" (to_lowercase header_text)) then
        let text := trim header_text in
        mret (if bool_decide (text = []) then None else Some (text, left_over rest))
      else
        length ← or_fail "MCP message missing Content-Length" (head (omap content_length (file_lines header_text)));
        if bool_decide (ISIZE_MAX < length)%Z || negb (can_alloc H length) then Crashed
        else if bool_decide (len rest < length)%Z
        then Failed (ending input .unwrap_or ("failed to fill whole buffer" : rstr))
        else
          let body := take (Z.to_nat length) rest in
          if utf8_valid body then mret (Some (body, left_over (drop (Z.to_nat length) rest)))
          else Failed ("MCP body is not UTF-8: " ++ utf8_error H body)
  end.
Definition frame (body : rstr) : rstr :=
  "Content-Length: " ++ dec (N.of_nat (length body)) ++ crlfcrlf ++ body.
Definition write_mcp_message (body : rstr) : P X unit := emit (frame body).

(** ** The MCP server *)

Definition stringify_tool_content (value : Json) : rstr :=
  match value with JString text => text | other => to_string H other end.
Definition tool_content (text : rstr) (is_error : bool) : Json := JObject [
  ("content" : rstr, JArray [JObject [("type" : rstr, JString "text"); ("text" : rstr, JString text)]]);
  ("isError" : rstr, JBool is_error)].
(** The answer to a request, [None] for a notification. *)
Definition mcp_respond (tools : list ToolSchema) (s : AgentSession) (request : JsonRpcRequest) (p : Proc X) :
    Proc X * AgentSession * option Json :=
  let id := id request .unwrap_or JNull in
  if starts_with "notifications/" (method request) then (p, s, None)
  else if bool_decide (method request = "tools/list")
  then (p, s, Some (rpc_result (jsonrpc request) id (tools_list_json tools)))
  else if bool_decide (method request = "tools/call") then
    match call_tool s (str_or_empty (json_get (params request) "name"))
            (or_empty_object (json_get (params request) "arguments")) p with
    | (p, s, Ok result) => (p, s, Some (rpc_result (jsonrpc request) id (tool_content (stringify_tool_content result) false)))
    | (p, s, Err error) => (p, s, Some (rpc_result (jsonrpc request) id (tool_content error true)))
    end
  else let '(p, s, response) := dispatch_value tools s request p in (p, s, Some response).
(** One turn of the loop on a message. *)
Definition mcp_handle (tools : list ToolSchema) (s : AgentSession) (body : rstr) (p : Proc X) :
    Proc X * AgentSession * option Json :=
  if bool_decide (trim body = []) then (p, s, None)
  else match parse_as request_of_doc body with
       | Err error => (p, s, Some (parse_error error))
       | Ok request => mcp_respond tools s request p
       end.
(** Each message has a byte, so a turn per byte and one for the end are enough. *)
Fixpoint mcp_loop (fuel : nat) (tools : list ToolSchema) (s : AgentSession) (input : Input) (p : Proc X) :
    Proc X * outcome unit :=
  match fuel with
  | 0 => (p, Failed "out of fuel")
  | S fuel =>
      match read_mcp_message input with
      | Failed e => (p, Failed e)
      | Crashed => (p, Crashed)
      | Done None => (p, Done tt)
      | Done (Some (body, rest)) =>
          match mcp_handle tools s body p with
          | (p, s, None) => mcp_loop fuel tools s rest p
          | (p, s, Some response) =>
              match write_mcp_message (to_string H response) p with
              | (p, Done _) => mcp_loop fuel tools s rest p
              | stop => stop
              end
          end
      end
  end.
Definition run_mcp_server (entry : path) (isolated : bool) (input : Input) : P X unit :=
  tools ← lift (export_tools_from_entry entry);
  session ← AgentSession_new entry isolated;
  mcp_loop (S (length (unread input))) tools session input.

(** ** The commands, [src/main.rs] *)

Definition check_file_read_permission (file : path) : P X unit := λ p,
  let '(st, r) := check_global_permission (files (machine H)) (url_host H) (now H (outside p)) (perm (cli p))
                    FileSystem Read (Path file) in
  ({| cli := {| perm := st; vfs := vfs (cli p); import_map := import_map (cli p) |};
      outside := outside p; stdout := stdout p |},
   match r with
   | Ok _ => Done tt
   | Err _ => Failed ("permission denied: FileSystem Read Path(" ++ debug_path H file ++ ")")
   end).
(** [println!] panics when it cannot write. *)
Definition println (text : rstr) : P X unit := λ p,
  match emit (text ++ [newline]) p with (p, Done _) => (p, Done tt) | (p, _) => (p, Crashed) end.
(** [amber run --export-tools]; a failure is printed by [export_tools_cli_fail]. *)
Definition run_export_tools_command (o : PermissionCliOptions) (file : path) : P X unit :=
  _ ← on_cli (apply_permission_cli_options (machine H) o);
  _ ← on_cli (allow_sandbox_entry_file (machine H) (sandbox o) file);
  _ ← on_cli (allow_sandbox_export_manifest (machine H) (sandbox o) file);
  _ ← (if host_is_file (files (machine H)) file then
         _ ← check_file_read_permission file;
         let manifest := tools_json_path file in
         if host_is_file (files (machine H)) manifest then check_file_read_permission manifest else mret tt
       else mret tt);
  tools ← lift (load_export_tools file);
  println (to_string_pretty H (tools_list_json tools)).
Definition export_tools_cli_fail (msg : rstr) : rstr :=
  if contains EXPORT_TOOLS_ERROR_PREFIX msg then msg else EXPORT_TOOLS_ERROR_PREFIX ++ " " ++ msg.
(** [amber session] and [amber mcp] with a file. *)
Definition session_command (o : PermissionCliOptions) (file : path) (isolated : bool) (stdin : Input) : P X unit :=
  _ ← on_cli (apply_permission_cli_options (machine H) o);
  _ ← on_cli (allow_sandbox_entry_file (machine H) (sandbox o) file);
  _ ← check_file_read_permission file;
  run_jsonrpc_session file isolated stdin.
Definition mcp_command (o : PermissionCliOptions) (file : path) (isolated : bool) (stdin : Input) : P X unit :=
  _ ← on_cli (apply_permission_cli_options (machine H) o);
  _ ← on_cli (allow_sandbox_entry_file (machine H) (sandbox o) file);
  _ ← check_file_read_permission file;
  run_mcp_server file isolated stdin.
End agent.
Arguments entry {RT} _.
Arguments source {RT} _.
Arguments isolate_per_call {RT} _.
Arguments runtime {RT} _.
