(* ===== verification/AgentTheorems.v ===== *)
(** * What the tool host promises

    The framing: a framed message is read back, whatever follows it.  The
    server: each request of a stream of messages is answered once, in order, with its
    own id, and what is written is such a stream again.  The scan of the source:
    exactly the exports outside comments are listed, once each, and what is listed passes the checks
    before printing.  The audit: what a session's calls leave in the log. *)

From S2P Require Import Prelude Bytes Json RustPath Permissions CommandLine Agent.

(** ** Framing *)

Lemma trim_plain w : Forall plain w → trim w = w.
Proof.
  intros Hw. unfold trim, trim_start. rewrite trim_with_id by (destruct Hw; [done|by apply ws_len_plain]).
  unfold trim_end. rewrite trim_with_id; [apply reverse_involutive|].
  apply Forall_reverse in Hw. destruct Hw as [|c l Hc _]; [done|].
  destruct (ws_len_rev (c :: l)) as [|n] eqn:E; [done|].
  exfalso. apply (ws_len_rev_bytes (c :: l) c); [rewrite E; left|done].
Qed.
Lemma trim_space_plain w : Forall plain w → trim (" " ++ w) = w.
Proof.
  intros Hw. transitivity (trim w); [|by apply trim_plain]. unfold trim. apply (f_equal trim_end).
  unfold trim_start. assert (ws_len ((" " : rstr) ++ w) = 1) as E by done.
  change ((" " : rstr) ++ w) with (" "%char :: w) in *. cbn [length trim_with]. by rewrite E.
Qed.
Lemma digit_plain c : is_Some (digit c) → plain c.
Proof. unfold digit, plain. case_bool_decide; [intros _; lia|by intros []]. Qed.
Lemma dec_plain n : Forall plain (dec n).
Proof. eapply Forall_impl, digit_plain. apply dec_digits. Qed.
Lemma parse_u64_dec n : (Z.of_N n < U64_MOD)%Z → parse_u64 (dec n) = Some (Z.of_N n).
Proof.
  intros Hn. unfold parse_u64. destruct (strip_prefix "+" (dec n)) as [r|] eqn:E.
  - apply strip_prefix_Some in E. pose proof (dec_digits n) as Hd. rewrite E in Hd.
    inversion Hd as [|c l Hc]. by destruct Hc.
  - simpl. rewrite parse_dec. simpl. by rewrite bool_decide_eq_true_2.
Qed.

(** A header is complete only with its second newline. *)
Definition newlines (s : rstr) : nat := length (filter (λ c, c = newline) s).
Lemma newlines_app s t : newlines (s ++ t) = newlines s + newlines t.
Proof. unfold newlines. by rewrite filter_app, length_app. Qed.
Lemma newlines_none s : newline ∉ s → newlines s = 0.
Proof.
  unfold newlines. induction s as [|c s IH]; [done|]. rewrite not_elem_of_cons. intros [Hc Hs].
  rewrite filter_cons_False by done. by apply IH.
Qed.
Lemma contains_split pat s : contains pat s = true → ∃ x y, s = x ++ pat ++ y.
Proof.
  induction s as [|c s IH]; simpl; intros Hc.
  - destruct (starts_with pat []) eqn:E; [|done]. apply starts_with_spec in E as [y E]. by exists [], y.
  - destruct (starts_with pat (c :: s)) eqn:E; [apply starts_with_spec in E as [y E]; by exists [], y|].
    destruct (IH Hc) as (x & y & ->). by exists (c :: x), y.
Qed.
Lemma header_complete_newlines h : header_complete h = true → 2 ≤ newlines h.
Proof.
  unfold header_complete. intros [Hc|[_ He]%andb_true_iff]%orb_true_iff.
  - apply contains_split in Hc as (x & y & ->). rewrite !newlines_app. assert (newlines crlfcrlf = 2) as -> by done. lia.
  - apply ends_with_spec in He as [x ->]. rewrite newlines_app. assert (newlines [newline; newline] = 2) as -> by done. lia.
Qed.
Lemma contains_app_r pat x : contains pat (x ++ pat) = true.
Proof.
  induction x as [|c x IH]; simpl.
  - destruct pat as [|a pat]; [done|]. simpl. assert (starts_with (a :: pat) (a :: pat) = true) as ->; [|done].
    by apply starts_with_spec.
  - by destruct (starts_with pat (c :: x ++ pat)).
Qed.
Lemma read_header_until h w rest e :
  (∀ x y, w = x ++ y → y ≠ [] → header_complete (h ++ x) = false) →
  header_complete (h ++ w) = true → (len (h ++ w) ≤ 65536)%Z →
  read_header h (w ++ rest) e = Done (Some (h ++ w, rest)).
Proof.
  revert h. induction w as [|c w IH]; intros h Hbefore Hat Hlen.
  - rewrite app_nil_r in *. destruct rest; simpl; by rewrite Hat.
  - cbn [app read_header]. pose proof (Hbefore [] (c :: w) eq_refl ltac:(done)) as H0. rewrite app_nil_r in H0.
    rewrite H0, bool_decide_eq_false_2.
    2:{ unfold len in *. rewrite length_app in *. simpl in *. lia. }
    replace (h ++ c :: w) with ((h ++ [c]) ++ w) in * by (by rewrite <-app_assoc).
    apply IH; [|done|done]. intros x y -> Hy. rewrite <-app_assoc. by apply (Hbefore (c :: x) y).
Qed.

(** The header of [frame]. *)
Definition frame_line (n : nat) : rstr := "Content-Length: " ++ dec (N.of_nat n).
Lemma frame_line_free c n : ¬ plain c → c ≠ " "%char → c ∉ frame_line n.
Proof.
  intros Hc Hs. unfold frame_line. rewrite not_elem_of_app. split.
  - intros Hin. assert (Forall (λ a, plain a ∨ a = " "%char) ("Content-Length: " : rstr)) as Hall
      by (repeat constructor; vm_compute; intuition congruence).
    rewrite Forall_forall in Hall. by destruct (Hall _ Hin).
  - intros Hin. pose proof (dec_plain (N.of_nat n)) as Hd. rewrite Forall_forall in Hd. by apply Hc, Hd.
Qed.
Lemma frame_line_newline n : newline ∉ frame_line n.
Proof. apply frame_line_free; [vm_compute; intuition congruence|done]. Qed.
Lemma frame_header_complete n x y :
  frame_line n ++ crlfcrlf = x ++ y → y ≠ [] → header_complete x = false.
Proof.
  intros Hxy Hy. apply not_true_iff_false. intros Hc%header_complete_newlines.
  assert (newlines (frame_line n ++ crlfcrlf) = 2) as Hn
    by (by rewrite newlines_app, newlines_none by apply frame_line_newline).
  destruct y as [|a y _] using rev_ind; [done|].
  assert (a = newline) as ->.
  { apply (f_equal last) in Hxy. rewrite app_assoc, last_snoc, last_app in Hxy. by injection Hxy. }
  rewrite Hxy, !newlines_app in Hn. assert (newlines [newline] = 1) as Hone by done. lia.
Qed.

(** ** The world of a session

    What the two loops rely on: text that is UTF-8 stays as it is, and the standard output takes what is
    written, so that a script can add to it and not take back what is there. *)

Class Well_behaved {RT X} (H : AgentHost RT X) : Prop := {
  lossy_utf8 : ∀ s, utf8_valid s = true → from_utf8_lossy H s = s;
  output_taken : ∀ out text, write_out H out text = (out ++ text, Ok tt);
  new_appends : ∀ p, stdout p `prefix_of` stdout (runtime_new H p).1;
  code_appends : ∀ rt code p, stdout p `prefix_of` stdout (execute_code H rt code p).1.1;
}.

Section host.
Context {RT X : Type} (H : AgentHost RT X) {HW : Well_behaved H}.

(** A text that another process can be sent: it is UTF-8 and fits in memory. *)
Definition fits (text : rstr) : Prop :=
  utf8_valid text = true ∧ (len text ≤ ISIZE_MAX)%Z ∧ can_alloc H (len text) = true.

Lemma utf8_ascii s : Forall (λ c, N_of_ascii c < 128)%N s → utf8_valid s = true.
Proof.
  induction 1 as [|c s Hc _ IH]; [done|]. cbn [utf8_valid]. unfold in_range at 1.
  rewrite bool_decide_eq_true_2 by lia. done.
Qed.
Lemma to_lowercase_app s t : to_lowercase (s ++ t) = to_lowercase s ++ to_lowercase t.
Proof. apply map_app. Qed.
Lemma contains_prefix pat s t : starts_with pat s = true → contains pat (s ++ t) = true.
Proof.
  intros Hs. apply starts_with_spec in Hs as [r ->]. rewrite <-app_assoc. destruct (pat ++ r ++ t) eqn:E; simpl.
  - destruct pat; [done|]. discriminate E.
  - rewrite <-E. assert (starts_with pat (pat ++ r ++ t) = true) as ->; [|done].
    apply starts_with_spec. by eexists.
Qed.
Lemma frame_header_lines n : file_lines (frame_line n ++ crlfcrlf) = [frame_line n; []].
Proof.
  unfold file_lines, crlfcrlf. replace (frame_line n ++ [carriage_return; newline; carriage_return; newline])
    with ((frame_line n ++ [carriage_return]) ++ newline :: [carriage_return] ++ newline :: [])
    by (by rewrite <-app_assoc).
  rewrite split_on_app_sep.
  2:{ rewrite not_elem_of_app. split; [apply frame_line_newline|]. by intros ?%list_elem_of_singleton. }
  rewrite split_on_app_sep by (by intros ?%list_elem_of_singleton). 
  change (split_on newline []) with [[] : rstr].
  assert (strip_suffix [carriage_return] (frame_line n ++ [carriage_return]) = Some (frame_line n)) as E
    by (by apply strip_suffix_Some).
  cbn [lines_of]. by rewrite E.
Qed.
Lemma frame_content_length n : (Z.of_nat n < U64_MOD)%Z → content_length (frame_line n) = Some (Z.of_nat n).
Proof.
  intros Hn. unfold content_length. change (frame_line n) with
    (("Content-Length" : rstr) ++ ":"%char :: (" " ++ dec (N.of_nat n))).
  rewrite split_once_app by (by apply not_in; vm_compute). cbn [mbind option_bind].
  rewrite bool_decide_eq_true_2 by done. rewrite trim_space_plain by apply dec_plain.
  rewrite parse_u64_dec by lia. f_equal. lia.
Qed.

(** The header of any message is far below the limit. *)
Lemma dec_fuel_short fuel n acc : length (dec_fuel fuel n acc) ≤ fuel + length acc.
Proof.
  revert n acc. induction fuel as [|fuel IH]; intros n acc; simpl; [lia|].
  case_bool_decide; simpl; [lia|]. etrans; [apply IH|]. simpl. lia.
Qed.
Lemma frame_line_short n : (Z.of_nat n < U64_MOD)%Z → (len ([] ++ frame_line n ++ crlfcrlf) ≤ 65536)%Z.
Proof.
  intros Hn. unfold len, frame_line. cbn [app]. rewrite !length_app. unfold dec.
  pose proof (dec_fuel_short (S (N.size_nat (N.of_nat n))) (N.of_nat n) []) as Hd. cbn [length] in Hd.
  assert (N.size_nat (N.of_nat n) ≤ 64) as Hs.
  { pose proof (of_nat_size_nat (N.of_nat n)) as Hs. destruct (N.eq_dec (N.of_nat n) 0%N) as [->|Hz]; [simpl; lia|].
    rewrite N.size_log2 in Hs by done. assert (N.log2 (N.of_nat n) < 64)%N; [|lia].
    apply N.log2_lt_pow2; [lia|]. unfold U64_MOD in Hn. lia. }
  change (length ("Content-Length: " : rstr)) with 16. change (length crlfcrlf) with 4. lia.
Qed.

(** A framed message is read back, with what follows it left. *)
Lemma read_frame body rest e :
  fits body →
  read_mcp_message H {| unread := frame body ++ rest; ending := e |}
  = Done (Some (body, {| unread := rest; ending := e |})).
Proof using HW.
  intros (Hutf & Hlen & Halloc). unfold read_mcp_message. cbn [unread ending].
  replace (frame body ++ rest) with ((frame_line (length body) ++ crlfcrlf) ++ body ++ rest)
    by (unfold frame, frame_line; by rewrite <-!app_assoc).
  assert (Z.of_nat (length body) < U64_MOD)%Z as Hn by (unfold len, ISIZE_MAX, U64_MOD in *; lia).
  rewrite read_header_until.
  2:{ intros x y Hxy Hy. by eapply (frame_header_complete (length body)). }
  2:{ unfold header_complete. cbn [app]. by rewrite (contains_app_r crlfcrlf). }
  2:{ apply frame_line_short. done. }
  cbn [app mbind outcome_bind]. rewrite lossy_utf8.
  2:{ apply utf8_ascii, Forall_app. split; [|by repeat constructor].
      apply Forall_app. split; [by repeat constructor|].
      eapply Forall_impl; [apply dec_plain|]. unfold plain. intros c. lia. }
  rewrite to_lowercase_app, contains_prefix by done. simpl negb. cbv iota.
  rewrite frame_header_lines. cbn [omap list_omap]. rewrite frame_content_length by done.
  cbn [head or_fail mbind outcome_bind]. fold (len body).
  rewrite bool_decide_eq_false_2 by lia. rewrite Halloc. cbn [negb orb].
  rewrite bool_decide_eq_false_2 by (rewrite len_app; pose proof (len_nonneg rest); lia).
  unfold len. rewrite Nat2Z.id, take_app_length, drop_app_length, Hutf. done.
Qed.
Lemma read_end : read_mcp_message H {| unread := []; ending := None |} = Done None.
Proof using Type. done. Qed.

(** ** The server on a stream of messages *)

(** What another process reads from a stream with the same framing, up to its end. *)
Inductive reads_as : rstr → list rstr → Prop :=
  | reads_end : reads_as [] []
  | reads_message stream text rest texts :
      read_mcp_message H {| unread := stream; ending := None |} = Done (Some (text, rest)) →
      reads_as (unread rest) texts → reads_as stream (text :: texts).
Definition stream (texts : list rstr) : rstr := mjoin (frame <$> texts).
Lemma reads_stream texts : Forall fits texts → reads_as (stream texts) texts.
Proof using HW.
  induction 1 as [|text texts Hf _ IH]; [constructor|].
  apply (reads_message _ text {| unread := stream texts; ending := None |}); [|exact IH].
  by apply (read_frame text (stream texts)).
Qed.
Lemma stream_length texts : length texts ≤ length (stream texts).
Proof using Type.
  induction texts as [|t texts IH]; [done|]. unfold stream in *. cbn [fmap list_fmap]. rewrite mjoin_cons, length_app.
  assert (1 ≤ length (frame t)) by (unfold frame; simpl; lia). cbn [length]. lia.
Qed.

Definition printed (p : Proc X) (text : rstr) : Proc X :=
  {| cli := cli p; outside := outside p; stdout := stdout p ++ text |}.
Lemma emit_wrote text p : emit H text p = (printed p text, Done tt).
Proof using HW. unfold emit. by rewrite output_taken. Qed.

(** What was printed from one state to a later one. *)
Definition noise (p p' : Proc X) : rstr := drop (length (stdout p)) (stdout p').
Lemma noise_spec p p' : stdout p `prefix_of` stdout p' → stdout p' = stdout p ++ noise p p'.
Proof using Type. unfold noise. intros [t ->]. by rewrite drop_app_length. Qed.
(** The messages one after the other, each with what the tools print while it is handled and the answer that is then written. *)
Abbreviation Turn := (rstr * option Json)%type.
Fixpoint serve (tools : list ToolSchema) (s : AgentSession) (bodies : list rstr) (p : Proc X) : Proc X * list Turn :=
  match bodies with
  | [] => (p, [])
  | body :: bodies =>
      let '(p1, s, response) := mcp_handle H tools s body p in
      let '(p2, turns) := serve tools s bodies
        match response with Some r => printed p1 (frame (to_string H r)) | None => p1 end in
      (p2, (noise p p1, response) :: turns)
  end.
Definition answer_texts (turns : list Turn) : list rstr := omap (λ t : Turn, to_string H <$> t.2) turns.
Definition turn_out (t : Turn) : rstr := t.1 ++ match t.2 with Some r => frame (to_string H r) | None => [] end.
Lemma mcp_loop_serve fuel tools s bodies p :
  Forall fits bodies → length bodies < fuel →
  mcp_loop H fuel tools s {| unread := stream bodies; ending := None |} p = ((serve tools s bodies p).1, Done tt).
Proof using HW.
  intros Hf. revert fuel s p. induction Hf as [|body bodies Hb _ IH]; intros [|fuel] s p Hl; simpl in Hl; try lia; [done|].
  cbn [mcp_loop serve]. unfold stream. cbn [fmap list_fmap]. rewrite mjoin_cons, read_frame by done.
  destruct (mcp_handle H tools s body p) as [[p1 s1] [response|]].
  - unfold write_mcp_message. rewrite emit_wrote. fold (stream bodies). rewrite IH by lia. by destruct (serve _ _ _ _).
  - fold (stream bodies). rewrite IH by lia. by destruct (serve _ _ _ _).
Qed.

(** *** What handling a message does to the output, and what it answers *)
Lemma call_tool_stdout s name arguments p : stdout p `prefix_of` stdout (call_tool H s name arguments p).1.1.
Proof using HW.
  unfold call_tool, spawn_runtime, call_named_export. destruct (isolate_per_call s).
  - pose proof (new_appends p) as Hn. destruct (runtime_new H p) as [p1 [rt|e]]; [|exact Hn].
    pose proof (code_appends (set_main_module_path H rt (entry s)) (wrap_source_for_tool_exports (source s)) p1) as He1.
    destruct (execute_code H _ _ p1) as [[p2 rt2] [o|e]]; [|by etrans].
    pose proof (code_appends rt2 (export_call H name (to_string H arguments)) p2) as He.
    destruct (execute_code H rt2 _ p2) as [[p3 rt3] [raw|e]]; (etrans; [exact Hn|]; etrans; [exact He1|exact He]).
  - destruct (runtime s) as [rt|]; [|done]. pose proof (code_appends rt (export_call H name (to_string H arguments)) p) as He.
    by destruct (execute_code H rt _ p) as [[p3 rt3] [raw|e]].
Qed.
Lemma answer_call_stdout request s name arguments p : stdout p `prefix_of` stdout (answer_call H request s name arguments p).1.1.
Proof using HW.
  unfold answer_call. pose proof (call_tool_stdout s name arguments p) as Hc.
  by destruct (call_tool H s name arguments p) as [[p1 s1] [v|e]].
Qed.
(** The requests that run a tool. *)
Definition calls_tool (request : JsonRpcRequest) : bool :=
  bool_decide (is_Some (tool request)) || bool_decide (method request = "tools/call") || bool_decide (method request = "call").
Definition runs_code (body : rstr) : bool :=
  match parse_as H request_of_doc body with Ok request => calls_tool request | Err _ => false end.
Lemma dispatch_stdout tools s request p :
  stdout p `prefix_of` stdout (dispatch_value H tools s request p).1.1 ∧
  (calls_tool request = false → stdout (dispatch_value H tools s request p).1.1 = stdout p).
Proof using HW.
  unfold dispatch_value, calls_tool. destruct (tool request) as [t|]; [by split; [apply answer_call_stdout|]|].
  destruct (bool_decide (method request = "tools/list") || bool_decide (method request = "list")); [done|].
  destruct (bool_decide (method request = "tools/call")); [by split; [apply answer_call_stdout|]|].
  destruct (bool_decide (method request = "call")); [by split; [apply answer_call_stdout|]|].
  split; [|intros _]; repeat case_match; done.
Qed.
Lemma handle_stdout tools s body p :
  stdout p `prefix_of` stdout (mcp_handle H tools s body p).1.1 ∧
  (runs_code body = false → stdout (mcp_handle H tools s body p).1.1 = stdout p).
Proof using HW.
  unfold mcp_handle, runs_code. case_bool_decide; [done|]. destruct (parse_as H request_of_doc body) as [request|e]; [|done].
  unfold mcp_respond. destruct (starts_with _ _); [done|]. case_bool_decide; [done|]. case_bool_decide as Hc.
  - set (name := str_or_empty _). set (arguments := or_empty_object _).
    pose proof (call_tool_stdout s name arguments p). split; [by destruct (call_tool H s name arguments p) as [[p1 s1] [v|e]]|].
    unfold calls_tool. by rewrite (bool_decide_eq_true_2 (method request = "tools/call")), orb_true_r by done.
  - pose proof (dispatch_stdout tools s request p). by destruct (dispatch_value H tools s request p) as [[p1 s1] v].
Qed.
Lemma serve_stdout tools s bodies p :
  stdout (serve tools s bodies p).1 = stdout p ++ mjoin (turn_out <$> (serve tools s bodies p).2).
Proof using HW.
  revert s p. induction bodies as [|body bodies IH]; intros s p; cbn [serve]; [by rewrite app_nil_r|].
  destruct (handle_stdout tools s body p) as [Hh%noise_spec _]. destruct (mcp_handle H tools s body p) as [[p1 s1] response].
  cbn [fst] in Hh. match goal with |- context [serve tools s1 bodies ?q] => specialize (IH s1 q); destruct (serve tools s1 bodies q) as [p2 turns] end.
  cbn [fst snd] in *. rewrite IH. cbn [fmap list_fmap]. rewrite mjoin_cons. unfold turn_out at 2. cbn [fst snd].
  destruct response; cbn [stdout printed]; rewrite Hh, <-!app_assoc; done.
Qed.
Lemma quiet_turns turns : Forall (λ t : Turn, t.1 = []) turns → mjoin (turn_out <$> turns) = stream (answer_texts turns).
Proof using Type.
  induction 1 as [|[n r] turns Hn _ IH]; [done|]. simpl in Hn. subst n. cbn [fmap list_fmap]. rewrite mjoin_cons, IH. unfold turn_out, answer_texts, stream.
  cbn [fst snd omap list_omap]. destruct r; [|done]. cbn [fmap option_fmap option_map list_fmap]. by rewrite mjoin_cons.
Qed.

(** Which messages are answered, and what makes a JSON object the answer to a message. *)
Definition wants_answer (body : rstr) : bool :=
  bool_decide (trim body ≠ []) &&
  match parse_as H request_of_doc body with Ok request => negb (starts_with "notifications/" (method request)) | Err _ => true end.
Definition response_to (request : JsonRpcRequest) (key : rstr) (content : Json) : Json :=
  JObject [("jsonrpc" : rstr, JString (jsonrpc request)); ("id" : rstr, id request .unwrap_or JNull); (key, content)].
Definition answers (tools : list ToolSchema) (body : rstr) (response : Json) : Prop :=
  match parse_as H request_of_doc body with
  | Err error => response = parse_error error
  | Ok request =>
      ∃ key content, response = response_to request key content ∧ (key = "result" ∨ key = "error") ∧
        (method request = "tools/list" → key = "result" ∧ content = tools_list_json tools) ∧
        (method request = "tools/call" → key = "result" ∧ ∃ text failed, content = tool_content text failed)
  end.
Lemma dispatch_response tools s request p :
  ∃ key content, (dispatch_value H tools s request p).2 = response_to request key content ∧ (key = "result" ∨ key = "error").
Proof using Type.
  assert (∀ name arguments, ∃ key content,
    (answer_call H request s name arguments p).2 = response_to request key content ∧ (key = "result" ∨ key = "error")) as Ha.
  { intros name arguments. unfold answer_call. destruct (call_tool _ _ _ _ _) as [[p1 s1] [v|e]];
      (do 2 eexists; split; [reflexivity|auto]). }
  unfold dispatch_value. repeat case_match; try (do 2 eexists; split; [reflexivity|by auto]); apply Ha.
Qed.
Lemma handle_answers tools s body p :
  match (mcp_handle H tools s body p).2 with
  | Some response => wants_answer body = true ∧ answers tools body response
  | None => wants_answer body = false
  end.
Proof using Type.
  unfold mcp_handle, wants_answer, answers. case_bool_decide as Hb; [by rewrite bool_decide_eq_false_2 by auto|].
  rewrite bool_decide_eq_true_2 by done. destruct (parse_as H request_of_doc body) as [request|e]; [|done].
  unfold mcp_respond. destruct (starts_with _ _); [done|]. case_bool_decide as Hl; [|case_bool_decide as Hc].
  - split; [done|]. do 2 eexists. split; [reflexivity|]. split; [by auto|]. split; [done|].
    rewrite Hl. by intros Hx%(bool_decide_pack _).
  - destruct (call_tool _ _ _ _ _) as [[p1 s1] [v|e]]; (split; [done|]; do 2 eexists; split; [reflexivity|];
      split; [by auto|]; split; [done|]; intros _; split; [done|]; by do 2 eexists).
  - pose proof (dispatch_response tools s request p) as (key & content & Hr & Hk).
    destruct (dispatch_value _ _ _ _ _) as [[p1 s1] v]. cbn [snd] in *. subst v. split; [done|].
    exists key, content. done.
Qed.
(** What the turn of a message is. *)
Definition turn_of (tools : list ToolSchema) (body : rstr) (t : Turn) : Prop :=
  match t.2 with
  | Some response => wants_answer body = true ∧ answers tools body response
  | None => wants_answer body = false
  end ∧ (runs_code body = false → t.1 = []).
Lemma serve_turns tools s bodies p : Forall2 (turn_of tools) bodies (serve tools s bodies p).2.
Proof using HW.
  revert s p. induction bodies as [|body bodies IH]; intros s p; cbn [serve]; [constructor|].
  pose proof (handle_answers tools s body p) as Hh. destruct (handle_stdout tools s body p) as [_ Hq].
  destruct (mcp_handle H tools s body p) as [[p1 s1] response]. cbn [fst snd] in *.
  match goal with |- context [serve tools s1 bodies ?q] => specialize (IH s1 q); destruct (serve tools s1 bodies q) as [p2 turns] end.
  constructor; [|exact IH]. split; [done|]. intros Hr. unfold noise. cbn [fst]. rewrite Hq by done. by rewrite drop_all.
Qed.

(** C8. [amber mcp] on a stream of framed messages that ends, with tools whose calls return: once the tools and
    the session are there, the server reads every message and ends without an error.  Each message that is
    not a notification (and not blank) is answered exactly once, in order, with the version and the id of its
    request: [tools/list] with the tools, [tools/call] with one text and whether it failed, a
    text that is no request with a parse error under id [null].  What is written for a message is what the
    called tool prints itself, since [console.log] has the same standard output, and then the framed answer: nothing else, and
    nothing but the answer when no tool is called.  When the tools print nothing a client that reads the output with the
    same framing gets these answers; what they print is in its way ([printed_text_hides_answer]). *)
Theorem mcp_serves entry isolated tools p p1 s bodies :
  export_tools_from_entry H entry = Ok tools →
  AgentSession_new H entry isolated p = (p1, Done s) →
  Forall fits bodies →
  ∃ p2 turns,
    run_mcp_server H entry isolated {| unread := stream bodies; ending := None |} p = (p2, Done tt) ∧
    Forall2 (turn_of tools) bodies turns ∧
    stdout p2 = stdout p1 ++ mjoin (turn_out <$> turns) ∧
    (Forall (λ t : Turn, t.1 = []) turns → Forall fits (answer_texts turns) →
     reads_as (mjoin (turn_out <$> turns)) (answer_texts turns)).
Proof using HW.
  intros Ht Hs Hf. exists (serve tools s bodies p1).1, (serve tools s bodies p1).2.
  split; [|split; [apply serve_turns|split; [apply serve_stdout|]]].
  - unfold run_mcp_server. rewrite Ht. unfold mbind, P_bind, lift. rewrite Hs.
    apply mcp_loop_serve; [done|]. cbn [unread]. pose proof (stream_length bodies). lia.
  - intros Hq Ha. rewrite quiet_turns by done. by apply reads_stream.
Qed.

(** Whatever is on the input, a turn of the server's loop takes at least a byte of it, so the fuel of
    [run_mcp_server] is never used up. *)
Lemma read_header_shorter h input e h' rest :
  header_complete h = false → read_header h input e = Done (Some (h', rest)) → length rest < length input.
Proof using Type.
  revert h. induction input as [|c input IH]; intros h Hh; cbn [read_header]; rewrite Hh.
  - destruct e; [done|]. by destruct h.
  - case_bool_decide; [done|]. intros Hr. simpl. destruct (header_complete (h ++ [c])) eqn:E.
    + destruct input; simpl in Hr; rewrite E in Hr; simplify_eq; simpl; lia.
    + apply IH in Hr; [lia|done].
Qed.
Lemma read_message_shorter input body rest :
  read_mcp_message H input = Done (Some (body, rest)) → length (unread rest) < length (unread input).
Proof using Type.
  unfold read_mcp_message. destruct (read_header [] (unread input) (ending input)) as [[[h r]|]| |] eqn:E; try done.
  apply read_header_shorter in E; [|done]. cbn [mbind outcome_bind].
  destruct (negb _); [case_bool_decide; [done|]; intros [=]; by subst|].
  destruct (or_fail _ _) as [n| |]; [|done..]. cbn [mbind outcome_bind].
  destruct (_ || _); [done|]. case_bool_decide; [done|]. destruct (utf8_valid _); [|done]. intros [=]. subst. cbn [unread].
  rewrite length_drop. lia.
Qed.
Theorem mcp_loop_fuel fuel fuel' tools s input p :
  length (unread input) < fuel → length (unread input) < fuel' →
  mcp_loop H fuel tools s input p = mcp_loop H fuel' tools s input p.
Proof using Type.
  revert fuel' s input p. induction fuel as [|fuel IH]; intros [|fuel'] s input p Hl Hl'; try lia. cbn [mcp_loop].
  destruct (read_mcp_message H input) as [[[body rest]|]| |] eqn:E; try done. apply read_message_shorter in E.
  destruct (mcp_handle H tools s body p) as [[p1 s1] [response|]]; [|apply IH; lia].
  destruct (write_mcp_message _ _ _) as [p2 [[]| |]]; try done. apply IH; lia.
Qed.

(** ** The line session

    [amber session] answers every line that is not blank, also a notification. *)
Definition line_answers (line : rstr) (response : Json) : Prop :=
  match parse_as H request_of_doc line with
  | Err error => response = parse_error error
  | Ok request => ∃ key content, response = response_to request key content ∧ (key = "result" ∨ key = "error")
  end.
(** What a tool prints before the answer to a line, and the answer. *)
Definition line_out (t : rstr * Json) : rstr := t.1 ++ to_string H t.2 ++ [newline].
Lemma handle_line tools s line p :
  ∃ p1 s1 response, handle_jsonrpc_line H tools s line p = (p1, s1, to_string H response) ∧
    stdout p `prefix_of` stdout p1 ∧ line_answers line response.
Proof using HW.
  unfold handle_jsonrpc_line, line_answers. destruct (parse_as H request_of_doc line) as [request|e]; [|by exists p, s, (parse_error e)].
  unfold dispatch_jsonrpc. destruct (dispatch_stdout tools s request p) as [Ho _].
  pose proof (dispatch_response tools s request p) as Hr. destruct (dispatch_value H tools s request p) as [[p1 s1] v].
  by exists p1, s1, v.
Qed.
Lemma read_lines_ok parts :
  Forall (λ x, utf8_valid x = true) parts → read_lines parts None = Ok <$> lines_of parts.
Proof using Type.
  induction 1 as [|x parts Hx Hps IH]; [done|]. cbn [read_lines lines_of]. unfold read_line. rewrite Hx.
  destruct parts; [by case_bool_decide|]. rewrite IH. done.
Qed.
Theorem session_serves entry isolated tools p p1 s input :
  export_tools_from_entry H entry = Ok tools →
  AgentSession_new H entry isolated p = (p1, Done s) →
  Forall (λ x, utf8_valid x = true) (split_on newline input) →
  ∃ p2 turns,
    run_jsonrpc_session H entry isolated {| unread := input; ending := None |} p = (p2, Done tt) ∧
    Forall2 line_answers (filter (λ l, l ≠ []) (trim <$> file_lines input)) turns.*2 ∧
    stdout p2 = stdout p1 ++ mjoin (line_out <$> turns).
Proof using HW.
  intros Ht Hs Hu. unfold run_jsonrpc_session. rewrite Ht. unfold mbind, P_bind, lift. rewrite Hs. cbn [unread ending].
  rewrite read_lines_ok by done. fold (file_lines input). clear Ht Hs Hu. revert s p1.
  induction (file_lines input) as [|l lines IH]; intros s p1; cbn [session_loop fmap list_fmap].
  { exists p1, []. split; [done|]. split; [constructor|]. simpl. by rewrite app_nil_r. }
  case_bool_decide as Hl; [rewrite filter_cons_False by auto; apply IH|]. rewrite filter_cons_True by done.
  destruct (handle_line tools s (trim l) p1) as (p2 & s2 & response & -> & Ho%noise_spec & Ha). rewrite emit_wrote.
  destruct (IH s2 (printed p2 (to_string H response ++ [newline]))) as (p3 & turns & Hr & Hf & Hout).
  exists p3, ((noise p1 p2, response) :: turns). split; [exact Hr|]. split; [by constructor|].
  rewrite Hout. cbn [stdout printed fmap list_fmap]. rewrite Ho, mjoin_cons, <-!app_assoc. unfold line_out at 2. cbn [fst snd]. by rewrite <-!app_assoc.
Qed.

(** ** The audit log *)

(** An audit line without its time. *)
Definition line (kv : path * AuditRecord) : path * rstr * rstr := (kv.1, audit_resource kv.2, audit_decision kv.2).
Definition log (p : Proc X) : option path * list (path * rstr * rstr) :=
  (audit_sink (perm (cli p)), line <$> audit_written (perm (cli p))).
(** Scripts whose own checks leave no lines: none is checked, or nothing restricts them. *)
Definition silent_scripts : Prop :=
  (∀ p, log (runtime_new H p).1 = log p) ∧ (∀ rt code p, log (execute_code H rt code p).1.1 = log p).
(** Calls one after the other, with their results. *)
Fixpoint calls (s : AgentSession) (l : list (rstr * Json)) (p : Proc X) : Proc X * list (rstr * result Json rstr) :=
  match l with
  | [] => (p, [])
  | (name, arguments) :: l =>
      let '(p, s, r) := call_tool H s name arguments p in
      let '(p, rs) := calls s l p in (p, (name, r) :: rs)
  end.
Definition audit_line (file : path) (name : rstr) : path * rstr * rstr := (file, "tool:" ++ name, "Allow" : rstr).
Lemma log_audit name p file :
  audit_sink (perm (cli p)) = Some file →
  log (audit_call H name true p) = ((log p).1, (log p).2 ++ [audit_line file name]).
Proof using Type.
  intros Hs. unfold log, audit_call, record_tool_call_audit, write_audit_record. cbn [cli perm].
  rewrite Hs. cbn [audit_sink audit_written with_audit]. by rewrite fmap_app.
Qed.
Lemma tool_result_ok raw : is_ok (parse_tool_result H raw) = true.
Proof using Type. unfold parse_tool_result. repeat case_match; done. Qed.
Lemma call_tool_log s name arguments p file :
  silent_scripts → (log p).1 = Some file →
  log (call_tool H s name arguments p).1.1 =
    ((log p).1, (log p).2 ++ (if is_ok (call_tool H s name arguments p).2 then [audit_line file name] else [])).
Proof using Type.
  intros [Hn He] Hf. unfold call_tool, spawn_runtime, call_named_export.
  assert (∀ q raw, log q = log p → log (audit_call H name (is_ok (parse_tool_result H raw)) q)
    = ((log p).1, (log p).2 ++ [audit_line file name])) as Ha.
  { intros q raw Hq. rewrite tool_result_ok, (log_audit _ _ file); [by rewrite Hq|]. by rewrite <-Hf, <-Hq. }
  assert (∀ q, log q = log p → log q = ((log p).1, (log p).2 ++ [])) as Hq
    by (intros q ->; rewrite app_nil_r; apply surjective_pairing).
  destruct (isolate_per_call s).
  - specialize (Hn p). destruct (runtime_new H p) as [p1 [rt|e]]; [|by apply Hq].
    specialize (He (set_main_module_path H rt (entry s)) (wrap_source_for_tool_exports (source s)) p1) as He1.
    destruct (execute_code H _ _ p1) as [[p2 rt2] [o|e]]; [|apply Hq; simpl in *; congruence].
    specialize (He rt2 (export_call H name (to_string H arguments)) p2).
    destruct (execute_code H rt2 _ p2) as [[p3 rt3] [raw|e]]; [|apply Hq; simpl in *; congruence].
    cbn [fst snd] in *. rewrite tool_result_ok, <-(tool_result_ok raw). apply Ha. congruence.
  - destruct (runtime s) as [rt|]; [|by apply Hq]. specialize (He rt (export_call H name (to_string H arguments)) p).
    destruct (execute_code H rt _ p) as [[p3 rt3] [raw|e]]; [|by apply Hq].
    cbn [fst snd] in *. rewrite tool_result_ok, <-(tool_result_ok raw). by apply Ha.
Qed.
End host.

(** ** The scan of the source

    The lines that are code: neither in a block comment, nor the line that opens or closes one, nor a line that
    starts as a comment does. *)
Fixpoint code_lines (hidden : bool) (lines : list rstr) : list rstr :=
  match lines with
  | [] => []
  | l :: lines =>
      if hidden || starts_with "/*" l then code_lines (negb (contains "*/" l)) lines
      else if starts_with "//" l || starts_with "*" l then code_lines false lines
      else l :: code_lines false lines
  end.
Definition exported_names (source : rstr) : list rstr :=
  omap export_name (code_lines false (trim <$> file_lines source)).
Fixpoint first_occurrences (l : list rstr) : list rstr :=
  match l with [] => [] | x :: l => x :: filter (λ y, y ≠ x) (first_occurrences l) end.
(** What the checks before printing ask for. *)
Definition printable (tools : list ToolSchema) : Prop :=
  NoDup (tool_name <$> tools) ∧ Forall (λ t, tool_name t ≠ [] ∧ ∃ m, input_schema t = JObject m) tools.

Definition extend (acc l : list rstr) : list rstr := acc ++ filter (λ y, y ∉ acc) (first_occurrences l).
Lemma extend_old acc x l : x ∈ acc → extend acc (x :: l) = extend acc l.
Proof.
  intros Hx. unfold extend. cbn [first_occurrences]. rewrite filter_cons_False by (by intros ?).
  f_equal. rewrite list_filter_filter. apply list_filter_iff. intros y. split; [by intros []|].
  intros Hy. split; [done|]. by intros ->.
Qed.
Lemma extend_new acc x l : x ∉ acc → extend acc (x :: l) = extend (acc ++ [x]) l.
Proof.
  intros Hx. unfold extend. cbn [first_occurrences]. rewrite filter_cons_True by done. rewrite <-app_assoc. simpl.
  do 2 f_equal. rewrite list_filter_filter. apply list_filter_iff. intros y.
  rewrite elem_of_app, list_elem_of_singleton. tauto.
Qed.
Lemma existsb_name name tools :
  existsb (λ tool, bool_decide (tool_name tool = name)) tools = true ↔ name ∈ tool_name <$> tools.
Proof.
  rewrite existsb_exists, list_elem_of_fmap. setoid_rewrite bool_decide_eq_true. setoid_rewrite <-list_elem_of_In.
  split; intros (t & ? & ?); exists t; naive_solver.
Qed.
Lemma scan_lines_names lines st :
  tool_name <$> tools (fold_left scan_source_line lines st)
  = extend (tool_name <$> tools st) (omap export_name (code_lines (in_block st) (trim <$> lines))).
Proof.
  revert st. induction lines as [|l lines IH]; intros st; [unfold extend; simpl; by rewrite app_nil_r|].
  cbn [fold_left fmap list_fmap code_lines]. rewrite IH. clear IH. unfold scan_source_line.
  destruct (in_block st); [done|]. cbn [orb]. destruct (starts_with "/*" (trim l)); [done|].
  destruct (starts_with "//" (trim l) || starts_with "*" (trim l)); [done|]. cbn [omap list_omap].
  destruct (export_name (trim l)) as [name|] eqn:En; cbn [tools in_block]; [|done].
  destruct (existsb _ _) eqn:Ex; [|apply not_true_iff_false in Ex]; rewrite existsb_name in Ex.
  - by rewrite extend_old.
  - by rewrite extend_new, fmap_app.
Qed.
Lemma scan_names source : tool_name <$> scan_exported_functions source = first_occurrences (exported_names source).
Proof.
  unfold scan_exported_functions. rewrite scan_lines_names. unfold extend. simpl.
  induction (first_occurrences _) as [|x l IH]; [done|].
  rewrite filter_cons_True by apply not_elem_of_nil. by rewrite IH.
Qed.
Lemma first_occurrences_NoDup l : NoDup (first_occurrences l).
Proof.
  induction l as [|x l IH]; [constructor|]. constructor; [|by apply NoDup_filter].
  rewrite list_elem_of_filter. by intros [].
Qed.
Lemma scan_lines_schema lines st :
  Forall (λ t, tool_name t ≠ [] ∧ ∃ m, input_schema t = JObject m) (tools st) →
  Forall (λ t, tool_name t ≠ [] ∧ ∃ m, input_schema t = JObject m) (tools (fold_left scan_source_line lines st)).
Proof.
  revert st. induction lines as [|l lines IH]; intros st Hst; [done|]. apply IH. unfold scan_source_line.
  destruct (in_block st); [done|]. destruct (starts_with _ _); [done|]. destruct (_ || _); [done|].
  unfold export_name. destruct (_ ≫= _) as [name|] eqn:En; cbn [tools]; [|done].
  destruct (existsb _ _); [done|]. apply Forall_app. split; [done|]. constructor; [|done].
  split; [|by eexists]. cbn [tool_name]. destruct (match strip_prefix _ _ with Some _ => _ | None => _ end) as [rest|];
    [|done]. simpl in En. case_bool_decide; congruence.
Qed.
Lemma scan_printable source : printable (scan_exported_functions source).
Proof.
  split; [rewrite scan_names; apply first_occurrences_NoDup|]. apply scan_lines_schema. constructor.
Qed.

(** *** The checks before printing *)
Lemma validate_from_ok seen tools :
  validate_from seen tools = Ok tt ↔ printable tools ∧ Forall (λ t, tool_name t ∉ seen) tools.
Proof.
  unfold printable. revert seen. induction tools as [|t tools IH]; intros seen; cbn [validate_from fmap list_fmap].
  { split; [by repeat constructor|done]. }
  rewrite !Forall_cons, NoDup_cons. case_bool_decide as Hn; [naive_solver|]. case_bool_decide as Hs; [naive_solver|].
  assert (∀ m, input_schema t = JObject m → validate_from ({[tool_name t]} ∪ seen) tools = Ok tt ↔
    ((tool_name t ∉ tool_name <$> tools ∧ NoDup (tool_name <$> tools)) ∧
     (tool_name t ≠ [] ∧ ∃ m, input_schema t = JObject m) ∧ Forall (λ t, tool_name t ≠ [] ∧ ∃ m, input_schema t = JObject m) tools) ∧
    tool_name t ∉ seen ∧ Forall (λ t, tool_name t ∉ seen) tools) as Hgo.
  { intros m Hm. rewrite IH.
    assert (Forall (λ x, tool_name x ∉ {[tool_name t]} ∪ seen) tools ↔
      tool_name t ∉ tool_name <$> tools ∧ Forall (λ x, tool_name x ∉ seen) tools) as ->.
    { rewrite !Forall_forall, list_elem_of_fmap. setoid_rewrite not_elem_of_union.
      setoid_rewrite not_elem_of_singleton. naive_solver. }
    naive_solver. }
  destruct (input_schema t) as [| | | | |m]; [naive_solver..|]. by apply (Hgo m).
Qed.
Lemma validate_ok tools : validate_printed_tools tools = Ok tt ↔ printable tools.
Proof.
  unfold validate_printed_tools. rewrite validate_from_ok. split; [by intros []|]. intros Hp. split; [done|].
  apply Forall_true. intros t. apply not_elem_of_empty.
Qed.

(** The tools of an entry, on its disk: those of the [tools.json] beside it, or those of the scan. *)
Definition lists_tools {RT X} (H : AgentHost RT X) (entry : path) (tools : list ToolSchema) : Prop :=
  host_is_file (files (machine H)) entry = true ∧ tools ≠ [] ∧
  if host_is_file (files (machine H)) (tools_json_path entry)
  then ∃ text, read_to_string (machine H) (tools_json_path entry) = Ok text ∧
         parse_as H tools_file_of_doc text = Ok tools ∧ printable tools
  else ∃ source, read_to_string (machine H) entry = Ok source ∧ tools = scan_exported_functions source.
Lemma load_lists {RT X} (H : AgentHost RT X) entry tools : load_export_tools H entry = Ok tools ↔ lists_tools H entry tools.
Proof.
  unfold lists_tools, load_export_tools. assert (host_is_file (files (machine H)) entry = true →
    host_exists (files (machine H)) entry = true) as Hex.
  { unfold host_is_file, host_exists. destruct (host_metadata _ _); [done|done]. }
  destruct (host_is_file (files (machine H)) entry); [rewrite Hex by done|].
  2:{ split; [by destruct (host_exists _ _)|by intros []]. }
  cbn [negb]. unfold export_tools_from_entry.
  assert (∀ l, (_ ← validate_printed_tools l; Ok l) = Ok tools ↔ l = tools ∧ printable tools) as Hv.
  { intros l. destruct (validate_printed_tools l) as [[]|e] eqn:E; simpl.
    - apply validate_ok in E. naive_solver.
    - split; [done|]. intros [-> Hp%validate_ok]. congruence. }
  destruct (host_is_file (files (machine H)) (tools_json_path entry)).
  - destruct (read_to_string _ _) as [text|e]; [|naive_solver].
    assert (∀ P : Prop, (∃ t, Ok (E := rstr) text = Ok t ∧ parse_as H tools_file_of_doc t = Ok tools ∧ P) ↔
      parse_as H tools_file_of_doc text = Ok tools ∧ P) as -> by naive_solver.
    destruct (parse_as H tools_file_of_doc text) as [[|t l]|e]; rewrite ?Hv; naive_solver.
  - destruct (read_to_string _ _) as [source|e]; [|naive_solver].
    assert ((∃ t, Ok (E := rstr) source = Ok t ∧ tools = scan_exported_functions t) ↔ tools = scan_exported_functions source)
      as -> by naive_solver.
    pose proof (scan_printable source) as Hp. destruct (scan_exported_functions source) as [|t l]; [naive_solver|].
    rewrite Hv. split; [intros [<- _]|intros (_ & _ & ->)]; done.
Qed.
Lemma lists_tools_once {RT X} (H : AgentHost RT X) entry tools tools' : lists_tools H entry tools → lists_tools H entry tools' → tools = tools'.
Proof. rewrite <-!load_lists. congruence. Qed.

(** *** The command *)
Section command.
Context {RT X : Type} (H : AgentHost RT X) (o : PermissionCliOptions) (file : path).
(** What the flags and the policy let the command read; [--sandbox] allows the two files itself, after the policy. *)
Definition may_read (f : path) : Prop :=
  denied (machine H) o FileSystem Read = false ∨ sandbox o = true ∨
  ∃ g, g ∈ granted (machine H) o FileSystem Read ∧ covers (files (machine H)) (url_host H) FileSystem Read g (Path f).
(** What [--sandbox] adds to the grants. *)
Definition own_files : list ResourceId :=
  if sandbox o then Path file :: (if host_is_file (files (machine H)) (tools_json_path file) then [Path (tools_json_path file)] else []) else [].
Definition decides (s : CliState) : Prop :=
  configured (files (machine H)) (perm s) (denied (machine H) o)
    (λ k a, granted (machine H) o k a ++ if bool_decide (k = FileSystem ∧ a = Read) then own_files else []).
Lemma grant_one s f D G : configured (files (machine H)) (perm s) D G →
  ∃ s', on_perm (λ st, allow (files (machine H)) st FileSystem Read (Path f)) s = (s', Ok tt) ∧
    configured (files (machine H)) (perm s') D (λ k a, G k a ++ if bool_decide (k = FileSystem ∧ a = Read) then [Path f] else []).
Proof. intros HC. eexists. split; [done|]. by apply (allow_each_configured (machine H) FileSystem Read [Path f]); [intros ?%list_elem_of_singleton|]. Qed.
Lemma own_files_granted s s1 : apply_permission_cli_options (machine H) o s = (s1, Ok tt) →
  ∃ s2 s3, allow_sandbox_entry_file (machine H) (sandbox o) file s1 = (s2, Ok tt) ∧
    allow_sandbox_export_manifest (machine H) (sandbox o) file s2 = (s3, Ok tt) ∧ decides s3.
Proof.
  intros HC%apply_configured. unfold allow_sandbox_entry_file, allow_sandbox_export_manifest, decides, own_files.
  destruct (sandbox o); cbn [negb].
  - destruct (grant_one s1 file _ _ HC) as (s2 & H2 & HC2). destruct (host_is_file _ _).
    + destruct (grant_one s2 (tools_json_path file) _ _ HC2) as (s3 & H3 & HC3). exists s2, s3. split; [done|]. split; [done|].
      eapply configured_ext, HC3; [done|]. intros [] []; simpl; by rewrite <-?app_assoc, ?app_nil_r.
    + exists s2, s2. split; [done|]. split; [done|]. eapply configured_ext, HC2; [done|]. by intros [] [].
  - exists s1, s1. split; [done|]. split; [done|]. eapply configured_ext, HC; [done|]. intros [] []; simpl; by rewrite ?app_nil_r.
Qed.
Lemma check_read f p : decides (cli p) → f = file ∨ f = tools_json_path file → host_is_file (files (machine H)) f = true →
  ∃ p', (check_file_read_permission H f p).1 = p' ∧ decides (cli p') ∧ stdout p' = stdout p ∧
    ((check_file_read_permission H f p).2 = Done tt ↔ may_read f).
Proof.
  intros HC Hf Hfile. eexists. split; [done|]. unfold check_file_read_permission, decides in *.
  pose proof (configured_check _ (url_host H) _ _ _ HC (now H (outside p)) FileSystem Read (Path f)) as Hd.
  pose proof (check_global_broker (files (machine H)) (url_host H) (now H (outside p)) (perm (cli p)) FileSystem Read (Path f)) as Hb.
  destruct (check_global_permission _ _ _ _ _ _ _) as [st r]. cbn [fst snd] in *. split; [by eapply configured_same|]. split; [done|].
  transitivity (r = Ok tt); [by destruct r as [[]|]|]. rewrite Hd. unfold may_read. rewrite bool_decide_eq_true_2 by done.
  split.
  - intros [?|(g & [Hg|Hg]%elem_of_app & Hc)]; [by left|right; right; eauto|]. unfold own_files in Hg. destruct (sandbox o); [by right; left|by apply elem_of_nil in Hg].
  - intros [?|[Hs|(g & Hg & Hc)]]; [by left| |right; exists g; rewrite elem_of_app; by auto]. right. exists (Path f). split; [|by apply covers_exact].
    apply elem_of_app. right. unfold own_files. rewrite Hs. destruct Hf as [->|Hf]; [by left|]. subst f. rewrite Hfile. right. by left.
Qed.
(** The two checks. *)
Definition read_checks : P X unit :=
  if host_is_file (files (machine H)) file then
    _ ← check_file_read_permission H file;
    let manifest := tools_json_path file in
    if host_is_file (files (machine H)) manifest then check_file_read_permission H manifest else mret tt
  else mret tt.
Lemma read_checks_spec p : decides (cli p) →
  stdout (read_checks p).1 = stdout p ∧
  ((read_checks p).2 = Done tt ↔ (host_is_file (files (machine H)) file = true →
     may_read file ∧ (host_is_file (files (machine H)) (tools_json_path file) = true → may_read (tools_json_path file)))).
Proof.
  intros HC. unfold read_checks. destruct (host_is_file _ file) eqn:Ef; [|done]. unfold mbind, P_bind.
  destruct (check_read file p HC (or_introl eq_refl) Ef) as (p1 & H1 & HC1 & Ho1 & Hr1).
  destruct (check_file_read_permission H file p) as [p1' r1]. cbn [fst snd] in *. subst p1'.
  destruct r1 as [[]|e|]; [|cbn [fst snd]; naive_solver..]. cbv zeta.
  destruct (host_is_file _ (tools_json_path file)) eqn:Em; [|cbn; naive_solver].
  destruct (check_read (tools_json_path file) p1 HC1 (or_intror eq_refl) Em) as (p2 & H2 & HC2 & Ho2 & Hr2).
  rewrite H2, Ho2, Hr2. naive_solver.
Qed.
Lemma command_steps (Hout : ∀ out text, write_out H out text = (out ++ text, Ok tt)) p :
  let ran := run_export_tools_command H o file p in
  ((ran.2 = Done tt ∧ ∃ tools, lists_tools H file tools ∧ stdout ran.1 = stdout p ++ to_string_pretty H (tools_list_json tools) ++ [newline])
   ∨ (ran.2 ≠ Done tt ∧ stdout ran.1 = stdout p)) ∧
  (ran.2 = Done tt ↔
   (apply_permission_cli_options (machine H) o (cli p)).2 = Ok tt ∧ may_read file ∧
   (host_is_file (files (machine H)) (tools_json_path file) = true → may_read (tools_json_path file)) ∧
   ∃ tools, lists_tools H file tools).
Proof.
  cbv zeta. unfold run_export_tools_command, mbind, P_bind, on_cli.
  destruct (apply_permission_cli_options (machine H) o (cli p)) as [s1 [[]|e]] eqn:E1; [|cbn [fst snd stdout]; naive_solver].
  destruct (own_files_granted _ _ E1) as (s2 & s3 & H2 & H3 & HC). cbn [cli fst snd]. rewrite H2. cbn [cli]. rewrite H3.
  cbn [cli outside stdout]. set (p3 := {| cli := s3; outside := outside p; stdout := stdout p |}). change (stdout p) with (stdout p3).
  assert (decides (cli p3)) as Hp by exact HC. clearbody p3. clear HC H2 H3 E1 s1 s2 s3 p.
  match goal with |- context [match ?m p3 with _ => _ end] => change (m p3) with (read_checks p3) end.
  destruct (read_checks_spec p3 Hp) as [Ho Hr]. destruct (read_checks p3) as [p4 r]. cbn [fst snd] in *.
  assert (∀ tools, lists_tools H file tools → host_is_file (files (machine H)) file = true) as Hl by (by intros tools []).
  destruct r as [[]|e|]; [|cbn [fst snd]; split; [by right|naive_solver]..]. unfold lift.
  destruct (load_export_tools H file) as [tools|e] eqn:El.
  - apply load_lists in El. unfold println, emit. rewrite Hout. cbn [fst snd stdout]. rewrite Ho. split; [left; eauto|]. naive_solver.
  - assert (∀ tools, ¬ lists_tools H file tools) as Hn by (intros tools Ht%load_lists; congruence). cbn [fst snd]. naive_solver.
Qed.
End command.
(** C9. [amber run --export-tools] succeeds exactly when the flags, the policy and the rest of the set-up are sound,
    the entry is a file that may be read, the [tools.json] beside it, when that is a file, may be read too -- because nothing
    denies reading, a grant covers it, or [--sandbox] grants the two itself -- and there are tools to list: at least one, those of
    the [tools.json] (whose names must then be distinct and non-empty and whose schemas objects), otherwise those of the
    scan.  It then prints them and a newline; when it fails it prints nothing.  The scan lists each name once, in the
    order of the first lines of code that export it: lines that begin, without the white space, with [export function] or
    [export async function] and an identifier, outside the comments.  What it lists always passes the checks.  The output takes
    what is written. *)
Theorem exported_tools_listed {RT X} (H : AgentHost RT X) o file p :
  (∀ out text, write_out H out text = (out ++ text, Ok tt)) →
  let ran := run_export_tools_command H o file p in
  (ran.2 = Done tt ↔
   (apply_permission_cli_options (machine H) o (cli p)).2 = Ok tt ∧ may_read H o file ∧
   (host_is_file (files (machine H)) (tools_json_path file) = true → may_read H o (tools_json_path file)) ∧
   ∃ tools, lists_tools H file tools) ∧
  (ran.2 ≠ Done tt → stdout ran.1 = stdout p) ∧
  (∀ tools, ran.2 = Done tt → lists_tools H file tools →
     stdout ran.1 = stdout p ++ to_string_pretty H (tools_list_json tools) ++ [newline]) ∧
  (∀ source, tool_name <$> scan_exported_functions source = first_occurrences (exported_names source) ∧
             printable (scan_exported_functions source)).
Proof.
  intros Hout. destruct (command_steps H o file Hout p) as [Hc Hr]. split; [exact Hr|]. split; [naive_solver|].
  split; [|intros; split; [apply scan_names|apply scan_printable]]. intros tools Hd Ht.
  destruct Hc as [(_ & tools' & Ht' & Hs)|[? _]]; [|done]. by rewrite (lists_tools_once H file tools tools').
Qed.

(** ** Examples *)

(** A world with two tools, [add] and [boom]; the texts of the toy parser are not
    JSON, its printer leaves names as they are. *)
Module AgentToy.
Fixpoint show (v : Json) : rstr :=
  match v with
  | JNull => "null" | JBool b => if b then "true" else "false" | JNumber t => t
  | JString s => squote :: s ++ [squote]
  | JArray l => "[" ++ join "," (map show l) ++ "]"
  | JObject m => "{" ++ join "," (map (λ '(k, v), k ++ ":" ++ show v) m) ++ "}"
  end.
Definition request (id : option rstr) (method : rstr) (more : list (rstr * Json)) : Json :=
  JObject ((match id with Some n => [("id" : rstr, JNumber n)] | None => [] end) ++ ("method" : rstr, JString method) :: more).
Definition call_of (name : rstr) : list (rstr * Json) := [("params" : rstr, JObject [("name" : rstr, JString name)])].
Definition texts : list (rstr * Json) := [
  ("init" : rstr, request (Some ("1" : rstr)) "initialize" []);
  ("ready" : rstr, request None "notifications/initialized" []);
  ("list" : rstr, request (Some ("2" : rstr)) "tools/list" []);
  ("add" : rstr, request (Some ("3" : rstr)) "tools/call" (call_of "add"));
  ("boom" : rstr, request (Some ("4" : rstr)) "tools/call" (call_of "boom"));
  ("5" : rstr, JNumber "5");
  ("{manifest}" : rstr, JObject [("tools" : rstr, JArray [JObject [("name" : rstr, JString "secret")]])])].
Definition lookup (text : rstr) : result Json rstr :=
  match filter (λ kv, kv.1 = text) texts with kv :: _ => Ok kv.2 | [] => Err ("expected value" : rstr) end.
Definition entry_source : rstr :=
  join [newline] ["/** Adds. */" : rstr; "export function add(a) {}" : rstr; "export async function boom() {}" : rstr].
Definition host_with (disk : list (rstr * rstr)) : AgentHost unit unit := {|
  machine := cli_host disk (λ _, None); url_host := λ _, None; debug_path := render; now := λ _, [];
  parse_doc := lookup; serde_error := λ _, ("invalid type" : rstr); to_string := show; to_string_pretty := show;
  from_utf8_lossy := λ s, s; utf8_error := λ _, []; can_alloc := λ _, true;
  write_out := λ out text, (out ++ text, Ok tt); runtime_new := λ p, (p, Ok tt); set_main_module_path := λ rt _, rt;
  execute_code := λ rt code p, (p, rt, if contains "'boom'" code then Err ("thrown" : rstr) else Ok ("5" : rstr)) |}.
Definition host : AgentHost unit unit := host_with [("t/tools.js" : rstr, entry_source)].
(** The same with a call that prints [hi]. *)
Definition printing : AgentHost unit unit := {|
  machine := machine host; url_host := url_host host; debug_path := debug_path host; now := now host;
  parse_doc := parse_doc host; serde_error := serde_error host; to_string := to_string host; to_string_pretty := to_string_pretty host;
  from_utf8_lossy := from_utf8_lossy host; utf8_error := utf8_error host; can_alloc := can_alloc host;
  write_out := write_out host; runtime_new := runtime_new host; set_main_module_path := set_main_module_path host;
  execute_code := λ rt code p, ({| cli := cli p; outside := outside p; stdout := stdout p ++ (if contains "'add'" code then "hi" : rstr else []) |}, rt, Ok ("5" : rstr)) |}.
Definition file : path := components "t/tools.js".
Definition start : Proc unit := {| cli := cli_init; outside := tt; stdout := [] |}.
Definition session : AgentSession (RT := unit) :=
  {| entry := file; source := entry_source; isolate_per_call := false; runtime := Some tt |}.
Definition audited : Proc unit := {| cli := {| perm := with_audit perm_init None (Some (components "a.jsonl")) [];
  vfs := vfs cli_init; import_map := None |}; outside := tt; stdout := [] |}.
End AgentToy.
#[export] Instance toy_well_behaved : Well_behaved AgentToy.host.
Proof. by split. Qed.

(** Five messages, the second of them a notification: four answers. *)
Lemma mcp_serves_witness :
  ∃ p2 turns,
    run_mcp_server AgentToy.host AgentToy.file false
      {| unread := stream ["init" : rstr; "ready" : rstr; "list" : rstr; "add" : rstr; "boom" : rstr]; ending := None |}
      AgentToy.start = (p2, Done tt) ∧ length turns = 5 ∧ stdout p2 = mjoin (turn_out AgentToy.host <$> turns).
Proof.
  edestruct (mcp_serves AgentToy.host AgentToy.file false
    (scan_exported_functions AgentToy.entry_source) AgentToy.start AgentToy.start AgentToy.session
    ["init" : rstr; "ready" : rstr; "list" : rstr; "add" : rstr; "boom" : rstr]) as (p2 & turns & Hrun & Hall & Hout & _).
  - vm_compute. reflexivity.
  - vm_compute. reflexivity.
  - repeat constructor; vm_compute; congruence.
  - exists p2, turns. split; [exact Hrun|]. split; [|exact Hout]. apply Forall2_length in Hall. by rewrite <-Hall.
Defined.
(** A tool that prints without a newline takes the header of its answer with it. *)
Example printed_text_hides_answer :
  let out := stdout (run_mcp_server AgentToy.printing AgentToy.file true {| unread := frame "add"; ending := None |} AgentToy.start).1 in
  out = "hi" ++ frame "{jsonrpc:'2.0',id:3,result:{content:[{type:'text',text:'5'}],isError:false}}" ∧
  read_mcp_message AgentToy.printing {| unread := out; ending := None |} = Failed "MCP message missing Content-Length".
Proof. vm_compute. done. Qed.

(** A blank header ends the server as the end of the input does, whatever follows. *)
Example blank_header_ends_server rest :
  read_mcp_message AgentToy.host {| unread := crlfcrlf ++ rest; ending := None |} = Done None.
Proof. by destruct rest. Qed.
(** A header with a length beyond all memory ends the process. *)
Example huge_length_crashes :
  read_mcp_message AgentToy.host
    {| unread := "Content-Length: 18446744073709551615" ++ crlfcrlf; ending := None |} = Crashed.
Proof. vm_compute. reflexivity. Qed.
(** An empty block comment is taken for the text of a description. *)
Example empty_comment_describes :
  description <$> scan_exported_functions (join [newline] ["/**/" : rstr; "export function f() {}" : rstr]) = ["/" : rstr].
Proof. vm_compute. reflexivity. Qed.
(** A comment that is no description does not end the pending one. *)
Example plain_comment_keeps_description :
  description <$> scan_exported_functions
    (join [newline] ["/** Of g. */" : rstr; "/* export function g() {} */" : rstr; "export function f() {}" : rstr])
  = ["Of g." : rstr].
Proof. vm_compute. reflexivity. Qed.
(** A notification on a line is answered with an error. *)
Example session_answers_notification :
  (handle_jsonrpc_line AgentToy.host [] AgentToy.session "ready" AgentToy.start).2
  = "{jsonrpc:'2.0',id:null,error:{code:-32601,message:'unknown method: notifications/initialized'}}".
Proof. vm_compute. reflexivity. Qed.

Lemma exported_tools_listed_witness :
  let ran := run_export_tools_command AgentToy.host default_options AgentToy.file AgentToy.start in
  ran.2 = Done tt ∧
  stdout ran.1 = to_string_pretty AgentToy.host (tools_list_json (scan_exported_functions AgentToy.entry_source)) ++ [newline].
Proof.
  destruct (exported_tools_listed AgentToy.host default_options AgentToy.file AgentToy.start (λ _ _, eq_refl)) as (Hiff & _ & Hout & _).
  assert (lists_tools AgentToy.host AgentToy.file (scan_exported_functions AgentToy.entry_source)) as Hl.
  { split; [vm_compute; reflexivity|]. split; [vm_compute; discriminate|].
    assert (host_is_file (files (machine AgentToy.host)) (tools_json_path AgentToy.file) = false) as -> by (vm_compute; reflexivity).
    exists AgentToy.entry_source. split; [vm_compute; reflexivity|reflexivity]. }
  assert ((run_export_tools_command AgentToy.host default_options AgentToy.file AgentToy.start).2 = Done tt) as Hd.
  { apply Hiff. split; [vm_compute; reflexivity|]. split; [left; reflexivity|]. split; [intros _; left; reflexivity|]. by eexists. }
  split; [exact Hd|]. exact (Hout _ Hd Hl).
Defined.
(** With [--deny-fs --allow-read t/tools.js], [--export-tools] refuses to read the [tools.json] beside the entry;
    [amber mcp] reads it without a check and lists what is in it. *)
Definition guarded : AgentHost unit unit :=
  AgentToy.host_with [("t/tools.js" : rstr, AgentToy.entry_source); ("t/tools.json" : rstr, "{manifest}" : rstr)].
Definition entry_only : PermissionCliOptions := {|
  policy := None; deny_fs := true; deny_net := false; deny_env := false; deny_run := false;
  sandbox := false; audit_log := None; allow_read := [AgentToy.file]; allow_write := []; allow_net := [];
  allow_listen := []; allow_env := []; allow_run := []; seed := None; freeze_time := None;
  import_map_path := None; virtual_fs := false; virtual_fs_strict := false |}.
Example manifest_read_unchecked :
  (run_export_tools_command guarded entry_only AgentToy.file AgentToy.start).2
    = Failed "permission denied: FileSystem Read Path(t/tools.json)" ∧
  stdout (mcp_command guarded entry_only AgentToy.file false
            {| unread := frame "list"; ending := None |} AgentToy.start).1
    = frame ("{jsonrpc:'2.0',id:2,result:{tools:[{name:'secret',description:'',"
             ++ "inputSchema:{type:'object'}}]}}").
Proof. vm_compute. done. Qed.
