(* ===== verification/Fetch.v ===== *)
(** * The engine of [fetch], [src/web_api/fetch.rs]

    Two ways to send a request: over a socket of its own, kept open for the next
    request to the same endpoint ([http1_keepalive_get]), and through the reqwest client.  Redirects
    are followed here, hop by hop, so that each hop passes the permission broker.  A response's body is
    pulled from the network when it is read ([SharedBody]).

    The network is the parameter [Net]: the url crate, sockets, reqwest, digests.  What a connection or a body
    will still give is a list of the answers to the reads to come, so a peer that never
    ends its body is not modelled.  [Fetching] is the state a call works on; its
    field [sent] is not in the code: it records what was handed to the network.  V8's side of the
    file, the JavaScript objects and the conversion of arguments, is left out. *)

From S2P Require Import Prelude Bytes RustPath Permissions.

(** ** Requests and responses *)

Inductive HttpMethod := GET | POST | PUT | DELETE | PATCH | HEAD | OPTIONS.
#[export] Instance HttpMethod_dec : EqDecision HttpMethod.
Proof. solve_decision. Defined.
(** [From<String> for HttpMethod] on the text in upper case. *)
Definition method_of (upper : rstr) : HttpMethod :=
  if bool_decide (upper = "GET") then GET
  else if bool_decide (upper = "POST") then POST
  else if bool_decide (upper = "PUT") then PUT
  else if bool_decide (upper = "DELETE") then DELETE
  else if bool_decide (upper = "PATCH") then PATCH
  else if bool_decide (upper = "HEAD") then HEAD
  else if bool_decide (upper = "OPTIONS") then OPTIONS
  else GET.

(** What the reads to come answer; nothing left is the end. *)
Abbreviation reads := (list (result rstr rstr)).
(** [read] into a buffer of the given size. *)
Definition read_once (size : nat) (r : reads) : reads * result rstr rstr :=
  match r with
  | [] => ([], Ok [])
  | Ok d :: r' => if bool_decide (length d ≤ size) then (r', Ok d) else (Ok (drop size d) :: r', Ok (take size d))
  | Err e :: r' => (r', Err e)
  end.
(** Each read takes a byte or an answer from this. *)
Definition mass (r : reads) : nat := sum_list (map (λ a, match a with Ok d => S (length d) | Err _ => 1 end) r).

Inductive NetReader :=
  | Tcp (stream : reads) (remaining : option Z)
  | Blocking (response : reads)
  | Async (chunks : reads).
Record SharedBody := { pulled : rstr; net : option NetReader; finished : bool }.
Record FetchResponse := {
  url : rstr; status : Z; status_text : rstr; ok : bool;
  headers : list (rstr * rstr); body : SharedBody; body_used : bool;
  redirected : bool; response_type : rstr;
}.

(** ** Headers, redirects, modes *)

Definition MAX_REDIRECTS : nat := 20.
Definition is_redirect_status (status : Z) : bool := bool_decide (status ∈ [301; 302; 303; 307; 308]%Z).
Definition eq_ignore_ascii_case (a b : rstr) : bool := bool_decide (to_lowercase a = to_lowercase b).
Definition header_lookup (headers : list (rstr * rstr)) (name : rstr) : option rstr :=
  snd <$> head (filter (λ kv : rstr * rstr, eq_ignore_ascii_case kv.1 name = true) headers).
Definition is_redirect_mode (mode : rstr) : bool := bool_decide (mode ∈ ["follow" : rstr; "error" : rstr; "manual" : rstr]).
Definition is_request_mode (mode : rstr) : bool := bool_decide (mode ∈ ["cors" : rstr; "no-cors" : rstr; "same-origin" : rstr]).
Definition is_body_request_header (name : rstr) : bool :=
  bool_decide (to_lowercase name ∈ ["content-encoding" : rstr; "content-language" : rstr; "content-length" : rstr; "content-location" : rstr; "content-type" : rstr; "transfer-encoding" : rstr]).
Definition is_credential_request_header (name : rstr) : bool :=
  bool_decide (to_lowercase name ∈ ["authorization" : rstr; "cookie" : rstr; "cookie2" : rstr; "proxy-authorization" : rstr]).
Definition keep_headers (keep : rstr → bool) (headers : gmap rstr rstr) : gmap rstr rstr :=
  filter (λ kv : rstr * rstr, keep kv.1 = true) headers.
Definition apply_redirect_method (status : Z) (method : HttpMethod) (body : option rstr) (headers : gmap rstr rstr) :
    HttpMethod * option rstr * gmap rstr rstr :=
  let rewrite_to_get :=
    if bool_decide (status = 301 ∨ status = 302)%Z then negb (bool_decide (method = GET ∨ method = HEAD))
    else if bool_decide (status = 303)%Z then negb (bool_decide (method = HEAD))
    else false in
  let method := if rewrite_to_get then GET else method in
  if rewrite_to_get || bool_decide (status = 303)%Z
  then (method, None, keep_headers (λ name, negb (is_body_request_header name)) headers)
  else (method, body, headers).
Definition strip_cross_origin_request_headers (headers : gmap rstr rstr) : gmap rstr rstr :=
  keep_headers (λ name, negb (is_credential_request_header name)) headers.

Definition is_cors_safelisted_response_header (name : rstr) : bool :=
  bool_decide (name ∈ ["cache-control" : rstr; "content-language" : rstr; "content-length" : rstr;
    "content-type" : rstr; "expires" : rstr; "last-modified" : rstr; "pragma" : rstr]).
Definition exposed_names (headers : list (rstr * rstr)) : list rstr :=
  mjoin (map (λ '(name, value),
    if negb (eq_ignore_ascii_case name "access-control-expose-headers") then []
    else if bool_decide (trim value = "*") then ["*" : rstr]
    else filter (λ part, part ≠ []) (map (λ part, to_lowercase (trim part)) (split_on "," value))) headers).
Definition cors_filter_headers (headers : list (rstr * rstr)) : list (rstr * rstr) :=
  let exposed := exposed_names headers in
  filter (λ kv,
    let name := to_lowercase kv.1 in
    (if bool_decide (name = "set-cookie" ∨ name = "set-cookie2") then false
     else if is_cors_safelisted_response_header name || starts_with "access-control-" name then true
     else existsb (λ item : rstr, bool_decide (item = "*") || bool_decide (item = name)) exposed) = true) headers.

(** ** Bodies *)

Definition memory_body (bytes : rstr) : SharedBody := {| pulled := bytes; net := None; finished := true |}.
Definition open_body (pulled : rstr) (net : option NetReader) : SharedBody :=
  {| pulled := pulled; net := net; finished := match net with None => true | Some _ => false end |}.

Definition body_error {A} (r : reads * result A rstr) : reads * result A rstr :=
  (r.1, match r.2 with Ok a => Ok a | Err e => Err ("failed to read response body: " ++ e) end).
(** The chunks of a reqwest response, empty ones skipped. *)
Fixpoint next_full_chunk (chunks : reads) : reads * result (option rstr) rstr :=
  match chunks with
  | [] => ([], Ok None)
  | Ok [] :: chunks => next_full_chunk chunks
  | Ok bytes :: chunks => (chunks, Ok (Some bytes))
  | Err e :: chunks => (chunks, Err e)
  end.
Definition read_net (n : NetReader) : NetReader * result (option rstr) rstr :=
  match n with
  | Tcp stream remaining =>
      if bool_decide (remaining = Some 0%Z) then (n, Ok None)
      else match body_error (read_once 8192 stream) with
           | (stream, Err e) => (Tcp stream remaining, Err e)
           | (stream, Ok []) => (Tcp stream remaining, Ok None)
           | (stream, Ok bytes) =>
               match remaining with
               | None => (Tcp stream None, Ok (Some bytes))
               | Some size =>
                   let taken := Z.min (len bytes) size in
                   (Tcp stream (Some (size - taken)%Z), Ok (Some (take (Z.to_nat taken) bytes)))
               end
           end
  | Blocking response =>
      match body_error (read_once 8192 response) with
      | (response, Err e) => (Blocking response, Err e)
      | (response, Ok []) => (Blocking response, Ok None)
      | (response, Ok bytes) => (Blocking response, Ok (Some bytes))
      end
  | Async chunks =>
      let '(chunks, r) := body_error (next_full_chunk chunks) in (Async chunks, r)
  end.
Definition next_chunk (b : SharedBody) : SharedBody * result (option rstr) rstr :=
  if finished b then (b, Ok None)
  else
    let '(n, chunk) := match net b with
                       | Some n => let '(n, r) := read_net n in (Some n, r)
                       | None => (None, Ok None)
                       end in
    match chunk with
    | Err e => ({| pulled := pulled b; net := n; finished := false |}, Err e)
    | Ok (Some bytes) => ({| pulled := pulled b ++ bytes; net := n; finished := false |}, Ok (Some bytes))
    | Ok None => ({| pulled := pulled b; net := None; finished := true |}, Ok None)
    end.
Definition body_mass (b : SharedBody) : nat :=
  match net b with Some (Tcp r _ | Blocking r | Async r) => mass r | None => 0 end.
(** At most one round per byte and answer that the network still has. *)
Fixpoint read_to_end_loop (fuel : nat) (b : SharedBody) : SharedBody * result rstr rstr :=
  match fuel with
  | 0 => (b, Err ("out of fuel" : rstr))
  | S fuel =>
      match next_chunk b with
      | (b, Err e) => (b, Err e)
      | (b, Ok None) => (b, Ok (pulled b))
      | (b, Ok (Some _)) => read_to_end_loop fuel b
      end
  end.
Definition read_to_end (b : SharedBody) : SharedBody * result rstr rstr := read_to_end_loop (S (body_mass b)) b.
(** One [reader.read()]: the reader's place in the body is its own. *)
Definition read_from_offset (b : SharedBody) (offset : nat) : SharedBody * result (option rstr * nat) rstr :=
  if bool_decide (offset < length (pulled b))
  then (b, Ok (Some (drop offset (pulled b)), length (pulled b)))
  else match next_chunk b with
       | (b, Err e) => (b, Err e)
       | (b, Ok (Some chunk)) => (b, Ok (Some chunk, length (pulled b)))
       | (b, Ok None) => (b, Ok (None, offset))
       end.

Definition apply_response_mode (r : FetchResponse) (mode : rstr) : FetchResponse :=
  if bool_decide (mode = "cors") then
    {| url := url r; status := status r; status_text := status_text r; ok := ok r;
       headers := cors_filter_headers (headers r); body := body r; body_used := body_used r;
       redirected := redirected r; response_type := "cors" |}
  else if bool_decide (mode = "no-cors") then
    {| url := []; status := 0; status_text := []; ok := false; headers := []; body := memory_body [];
       body_used := body_used r; redirected := false; response_type := "opaque" |}
  else
    {| url := url r; status := status r; status_text := status_text r; ok := ok r; headers := headers r;
       body := body r; body_used := body_used r; redirected := redirected r; response_type := "basic" |}.

(** ** The network *)

(** A parsed address, [url::Url]; [origin] is [None] for an opaque origin, which equals no other. *)
Record ParsedUrl := {
  href : rstr; scheme : rstr; host_str : option rstr; port_or_known_default : option Z;
  url_path : rstr; query : option rstr; origin : option (rstr * rstr * Z);
}.
Inductive Address := Loopback (port : Z) | Named (host : rstr) (port : Z).
Record Socket := { peer : nat; incoming : reads }.
Record HttpRequest := {
  req_url : rstr; req_method : HttpMethod; req_headers : gmap rstr rstr; req_body : option rstr;
}.
(** A header value is [None] when it is not visible ASCII. *)
Record Reply := {
  reply_url : rstr; reply_status : Z; reason : option rstr;
  reply_headers : list (rstr * option rstr); reply_chunks : reads;
}.
Inductive Algorithm := Sha256 | Sha384 | Sha512.
Record Net (W : Type) := {
  files : Host;
  url_host : rstr → option rstr;
  now : W → rstr;
  denied_text : PermissionError → rstr;
  url_parse : rstr → result ParsedUrl rstr;
  url_join : ParsedUrl → rstr → result ParsedUrl rstr;
  from_utf8_lossy : rstr → rstr;
  to_uppercase : rstr → rstr;
  digest : Algorithm → rstr → rstr;
  base64_decode : rstr → result rstr rstr;
  connect : W → Address → W * result Socket rstr;
  write_all : W → Socket → rstr → W * result Socket rstr;
  client_send : W → HttpRequest → W * result Reply rstr;   (* reqwest, without its redirects *)
  poll_aborted : W → W * bool;                              (* the abort flag, which other threads set *)
}.
Arguments files {W} _.
Arguments url_host {W} _ _.
Arguments now {W} _ _.
Arguments denied_text {W} _ _.
Arguments url_parse {W} _ _.
Arguments url_join {W} _ _ _.
Arguments from_utf8_lossy {W} _ _.
Arguments to_uppercase {W} _ _.
Arguments digest {W} _ _ _.
Arguments base64_decode {W} _ _.
Arguments connect {W} _ _ _.
Arguments write_all {W} _ _ _ _.
Arguments client_send {W} _ _ _.
Arguments poll_aborted {W} _ _.

Record Fetching (W : Type) := {
  perm : PermState;
  http1_conn : option (rstr * Socket);      (* HTTP1_CONN *)
  world : W;
  sent : list HttpRequest;
}.
Arguments perm {W} _.
Arguments http1_conn {W} _.
Arguments world {W} _.
Arguments sent {W} _.
Arguments Build_Fetching {W} perm http1_conn world sent.

Definition F (W A : Type) : Type := Fetching W → Fetching W * result A rstr.
#[export] Instance F_ret W : MRet (F W) := λ A a s, (s, Ok a).
#[export] Instance F_bind W : MBind (F W) := λ A B f m s,
  match m s with (s, Ok a) => f a s | (s, Err e) => (s, Err e) end.
Definition fail {W A} (e : rstr) : F W A := λ s, (s, Err e).
Definition lift {W A} (r : result A rstr) : F W A := λ s, (s, r).
(** A step of the world alone. *)
Definition on_world {W A} (f : W → W * result A rstr) : F W A := λ s,
  let '(w, r) := f (world s) in (Build_Fetching (perm s) (http1_conn s) w (sent s), r).
(** [f().map_err(..)], [f().ok()] *)
Definition map_err {W A} (f : rstr → rstr) (m : F W A) : F W A := λ s,
  match m s with (s, Err e) => (s, Err (f e)) | other => other end.
Definition try {W A} (m : F W A) : F W (option A) := λ s,
  match m s with (s, Ok a) => (s, Ok (Some a)) | (s, Err _) => (s, Ok None) end.
Definition put_conn {W} (c : option (rstr * Socket)) : F W unit := λ s,
  (Build_Fetching (perm s) c (world s) (sent s), Ok tt).
Definition take_conn {W} : F W (option (rstr * Socket)) := λ s,
  (Build_Fetching (perm s) None (world s) (sent s), Ok (http1_conn s)).
Definition note_sent {W} (r : HttpRequest) : F W unit := λ s,
  (Build_Fetching (perm s) (http1_conn s) (world s) (sent s ++ [r]), Ok tt).

Section fetch.
Context {W : Type} (N : Net W).

(** ** Addresses *)

Definition resolve_redirect_location (current location : rstr) : result rstr rstr :=
  let location := trim location in
  if bool_decide (location = []) then Err ("redirect Location is empty" : rstr)
  else match url_parse N current with
       | Err error => Err ("invalid URL " ++ current ++ ": " ++ error)
       | Ok base =>
           match url_join N base location with
           | Err error => Err ("invalid redirect Location " ++ location ++ ": " ++ error)
           | Ok joined =>
               match url_parse N location with
               | Ok absolute => if bool_decide (href absolute = href joined) then Ok location else Ok (href joined)
               | Err _ => Ok (href joined)
               end
           end
       end.
Definition same_http_origin (left right : rstr) : bool :=
  match url_parse N left, url_parse N right with
  | Ok l, Ok r => match origin l, origin r with Some a, Some b => bool_decide (a = b) | _, _ => false end
  | _, _ => false
  end.
Definition parse_http_url (url : rstr) : option (rstr * Z * rstr) :=
  match url_parse N url with
  | Err _ => None
  | Ok parsed =>
      if negb (bool_decide (scheme parsed = "http")) then None
      else
        host ← host_str parsed;
        let port := port_or_known_default parsed .unwrap_or 80%Z in
        let p := if bool_decide (url_path parsed = []) then ("/" : rstr) else url_path parsed in
        Some (host, port, match query parsed with Some q => p ++ "?" ++ q | None => p end)
  end.
Definition http_host_header (host : rstr) (port : Z) : rstr :=
  let bracketed := if bool_decide (":"%char ∈ host) then "[" ++ host ++ "]" else host in
  if bool_decide (port = 80)%Z then bracketed else bracketed ++ ":" ++ dec (Z.to_N port).

(** ** Integrity *)

Definition integrity_is_absent (integrity : rstr) : bool :=
  bool_decide (trim integrity ∈ [[] : rstr; "undefined" : rstr; "null" : rstr]).
Definition algorithm_of (name : rstr) : option Algorithm :=
  if bool_decide (name = "sha256") then Some Sha256
  else if bool_decide (name = "sha384") then Some Sha384
  else if bool_decide (name = "sha512") then Some Sha512 else None.
Fixpoint check_tokens (saw_supported : bool) (bytes integrity : rstr) (tokens : list rstr) : result unit rstr :=
  match tokens with
  | [] => Err (if saw_supported then ("integrity mismatch" : rstr)
               else "Unsupported integrity algorithm: " ++ integrity)
  | token :: tokens =>
      match ('(algorithm, expected_b64) ← split_once "-" token;
             a ← algorithm_of algorithm; Some (a, expected_b64)) with
      | None => check_tokens saw_supported bytes integrity tokens
      | Some (a, expected_b64) =>
          match base64_decode N expected_b64 with
          | Err error => Err ("invalid integrity metadata: " ++ error)
          | Ok expected =>
              if bool_decide (digest N a bytes = expected) then Ok tt
              else check_tokens true bytes integrity tokens
          end
      end
  end.
Definition check_body_integrity (bytes integrity : rstr) : result unit rstr :=
  let integrity := trim integrity in
  if integrity_is_absent integrity then Ok tt
  else check_tokens false bytes integrity (split_whitespace integrity).

Definition check_fetch_permission (url : rstr) : F W unit := λ s,
  if has_restrictions (perm s) then
    let '(p, r) := check_global_permission (files N) (url_host N) (now N (world s)) (perm s) Network Connect (Url url) in
    (Build_Fetching p (http1_conn s) (world s) (sent s),
     match r with Ok _ => Ok tt | Err e => Err (denied_text N e) end)
  else (s, Ok tt).
Definition ensure_not_aborted : F W unit :=
  aborted ← on_world (λ w, let '(w, b) := poll_aborted N w in (w, Ok b));
  if (aborted : bool) then fail "The operation was aborted" else mret tt.

(** ** A request over a socket of its own *)

Definition crlfcrlf : rstr := [carriage_return; newline; carriage_return; newline].
Definition crlf : rstr := [carriage_return; newline].
Definition connect_http_stream (host : rstr) (port : Z) : F W Socket :=
  on_world (λ w, connect N w (if bool_decide (host = "127.0.0.1" ∨ host = "localhost") then Loopback port else Named host port)).
Definition request_text (path host_header : rstr) : rstr :=
  "GET " ++ path ++ " HTTP/1.1" ++ crlf ++ "Host: " ++ host_header ++ crlf ++ "Connection: keep-alive" ++ crlf ++
  "Accept: */*" ++ crlf ++ crlf.
(** The bytes up to the end of the header block, with the place where it ends. *)
Fixpoint read_head (fuel : nat) (r : reads) (buf : rstr) : reads * result (rstr * nat) rstr :=
  match fuel with
  | 0 => (r, Err ("out of fuel" : rstr))
  | S fuel =>
      match read_once 512 r with
      | (r, Err e) => (r, Err e)
      | (r, Ok []) => (r, Err ("connection closed before headers" : rstr))
      | (r, Ok bytes) =>
          let buf := buf ++ bytes in
          match find_text crlfcrlf buf with
          | Some pos => (r, Ok (buf, pos + 4))
          | None => if bool_decide (65536 < len buf)%Z then (r, Err ("headers too large" : rstr)) else read_head fuel r buf
          end
      end
  end.
Definition parse_u16 (s : rstr) : option Z := v ← parse_u64 s; if bool_decide (v < 65536)%Z then Some v else None.
(** The status line and the header lines. *)
Definition parse_status_line (line : rstr) : Z * rstr :=
  match split_whitespace line with
  | _ :: code :: text => (parse_u16 code .unwrap_or 200%Z, join " " text)
  | _ => (200%Z, [])
  end.
Definition parse_header_line (line : rstr) : option (rstr * rstr) :=
  '(k, v) ← split_once ":" line; Some (to_lowercase (trim k), trim v).
(** [content_length] is what the last field of the name parses to. *)
Definition last_content_length (headers : list (rstr * rstr)) : option Z :=
  match last (filter (λ kv : rstr * rstr, kv.1 = "content-length") headers) with Some kv => parse_u64 kv.2 | None => None end.
Definition parse_response_head (header_text : rstr) : Z * rstr * list (rstr * rstr) :=
  match split_crlf header_text with
  | [] => (200%Z, [], [])
  | first :: lines =>
      let '(status, text) := parse_status_line first in
      (status, text, omap (λ line, if bool_decide (line = []) then None else parse_header_line line) lines)
  end.
Definition is_success (status : Z) : bool := bool_decide (200 ≤ status < 300)%Z.

(** [write_all] and [flush]; the request is noted as sent with the first attempt. *)
Definition send_text (stream : Socket) (text : rstr) : F W Socket := on_world (λ w, write_all N w stream text).
Definition http1_keepalive_get (u : rstr) : F W FetchResponse :=
  '(host, port, path) ← lift match parse_http_url u with
    | Some t => Ok t | None => Err ("http1 fast path requires http:// URL" : rstr) end;
  let endpoint := host ++ ":" ++ dec (Z.to_N port) in
  let request := request_text path (http_host_header host port) in
  slot ← take_conn;
  stream ← match slot with
           | Some (ep, sock) => if bool_decide (ep = endpoint) then mret sock else connect_http_stream host port
           | None => connect_http_stream host port
           end;
  _ ← note_sent {| req_url := u; req_method := GET; req_headers := ∅; req_body := None |};
  written ← try (send_text stream request);
  stream ← match written with
           | Some stream => mret stream
           | None => stream ← connect_http_stream host port; send_text stream request
           end;
  let '(r, head) := read_head (S (mass (incoming stream))) (incoming stream) [] in
  '(buf, header_end) ← lift head;
  let '(status, text, headers) := parse_response_head (from_utf8_lossy N (take header_end buf)) in
  let content_length := last_content_length headers in
  let leftover := match content_length with
                  | Some n => take (Z.to_nat (Z.min n (len (drop header_end buf)))) (drop header_end buf)
                  | None => drop header_end buf
                  end in
  let remaining := (λ n, Z.max 0 (n - len leftover))%Z <$> content_length in
  let body_done := match remaining with Some size => bool_decide (size = 0)%Z | None => true end in
  body ← (if body_done then
            let reuse := match filter (λ kv : rstr * rstr, kv.1 = "connection") headers with
                         | kv :: _ => negb (eq_ignore_ascii_case kv.2 "close") | [] => true end in
            _ ← (if reuse then put_conn (Some (endpoint, {| peer := peer stream; incoming := r |})) else put_conn None);
            mret (memory_body leftover)
          else
            _ ← put_conn None; mret (open_body leftover (Some (Tcp r remaining))));
  mret {| url := u; status := status; status_text := text; ok := is_success status; headers := headers;
          body := body; body_used := false; redirected := false; response_type := "basic" |}.

(** ** A request through reqwest *)

Definition send_request (r : HttpRequest) : F W Reply :=
  _ ← note_sent r;
  map_err (λ error, "failed to fetch " ++ req_url r ++ ": " ++ error) (on_world (λ w, client_send N w r)).
Definition headers_from_reqwest (l : list (rstr * option rstr)) : list (rstr * rstr) :=
  map (λ kv, (kv.1, kv.2 .unwrap_or [])) l.
Definition reply_text (r : Reply) : rstr := reason r .unwrap_or ("Unknown" : rstr).
(** The response, with the address and the body that the caller gives it. *)
Definition response_of (r : Reply) (u : rstr) (redirected : bool) (b : SharedBody) : FetchResponse :=
  {| url := u; status := reply_status r; status_text := reply_text r; ok := is_success (reply_status r);
     headers := headers_from_reqwest (reply_headers r); body := b; body_used := false;
     redirected := redirected; response_type := "basic" |}.

(** ** [fetch(url)] *)

Definition fetch_once_without_redirect (u : rstr) : F W FetchResponse :=
  fast ← (if starts_with "http://" u then try (http1_keepalive_get u) else mret None);
  match fast with
  | Some response => mret response
  | None =>
      r ← send_request {| req_url := u; req_method := GET; req_headers := ∅; req_body := None |};
      mret (response_of r (reply_url r) false (open_body [] (Some (Blocking (reply_chunks r)))))
  end.
Definition arrived (r : FetchResponse) (u : rstr) (was_redirected : bool) : FetchResponse :=
  {| url := u; status := status r; status_text := status_text r; ok := ok r; headers := headers r;
     body := body r; body_used := body_used r; redirected := was_redirected; response_type := response_type r |}.
(** [follows] is how many redirects may still be followed. *)
Fixpoint simple_get_loop (follows : nat) (current_url : rstr) (was_redirected : bool) : F W FetchResponse :=
  _ ← check_fetch_permission current_url;
  r ← fetch_once_without_redirect current_url;
  let location := match trim <$> header_lookup (headers r) "location" with
                  | Some [] | None => None | Some l => Some l end in
  match location with
  | Some location =>
      if is_redirect_status (status r) then
        _ ← lift (read_to_end (body r)).2;
        match follows with
        | 0 => fail "Too many redirects"
        | S follows =>
            next ← lift (resolve_redirect_location current_url location);
            simple_get_loop follows next true
        end
      else mret (arrived r current_url was_redirected)
  | None => mret (arrived r current_url was_redirected)
  end.
Definition execute_simple_get (u : rstr) : F W FetchResponse := simple_get_loop MAX_REDIRECTS u false.

(** ** [fetch(url, init)] *)

(** The hop's chunks; they are kept only when there is something to check. *)
Fixpoint consume_hop_body (chunks : reads) (integrity collected : rstr) : F W rstr :=
  let check := negb (integrity_is_absent integrity) in
  _ ← ensure_not_aborted;
  match chunks with
  | [] => _ ← (if check then lift (check_body_integrity collected integrity) else mret tt); mret collected
  | Ok chunk :: chunks => consume_hop_body chunks integrity (if check then collected ++ chunk else collected)
  | Err error :: _ => fail ("failed to read fetch body: " ++ error)
  end.
Definition location_of (r : Reply) : option rstr :=
  match head (filter (λ kv : rstr * option rstr, eq_ignore_ascii_case kv.1 "location" = true) (reply_headers r)) with
  | Some (_, Some value) => match trim value with [] => None | l => Some l end
  | _ => None
  end.
Definition finish_fetch (r : Reply) (u integrity mode : rstr) (was_redirected : bool) : F W FetchResponse :=
  built ← (if integrity_is_absent integrity
           then mret (response_of r u was_redirected (open_body [] (Some (Async (reply_chunks r)))))
           else bytes ← consume_hop_body (reply_chunks r) integrity [];
                mret (response_of r u was_redirected (memory_body bytes)));
  _ ← ensure_not_aborted;
  mret (apply_response_mode built mode).
Fixpoint fetch_loop (follows : nat) (current_url : rstr) (method : HttpMethod) (headers : gmap rstr rstr)
    (body : option rstr) (redirect integrity mode : rstr) (was_redirected : bool) : F W FetchResponse :=
  _ ← ensure_not_aborted;
  _ ← check_fetch_permission current_url;
  r ← send_request {| req_url := current_url; req_method := method; req_headers := headers;
                      req_body := if bool_decide (method = GET ∨ method = HEAD) then None else body |};
  let status := reply_status r in
  if is_redirect_status status && bool_decide (redirect = "error")
  then fail ("redirect not allowed: " ++ dec (Z.to_N status))
  else match location_of r with
  | Some location =>
      if is_redirect_status status && bool_decide (redirect = "follow") then
        match follows with
        | 0 => fail "Too many redirects"
        | S follows =>
            next_url ← lift (resolve_redirect_location current_url location);
            let headers := if same_http_origin current_url next_url then headers
                           else strip_cross_origin_request_headers headers in
            let '(method, body, headers) := apply_redirect_method status method body headers in
            _ ← consume_hop_body (reply_chunks r) integrity [];
            _ ← ensure_not_aborted;
            fetch_loop follows next_url method headers body redirect integrity mode true
        end
      else finish_fetch r current_url integrity mode was_redirected
  | None => finish_fetch r current_url integrity mode was_redirected
  end.
Definition execute_fetch (u : rstr) (method : HttpMethod) (headers : gmap rstr rstr) (body : option rstr)
    (redirect integrity mode : rstr) : F W FetchResponse :=
  if negb (is_redirect_mode redirect) then fail ("invalid redirect mode: " ++ redirect)
  else fetch_loop MAX_REDIRECTS u method headers body redirect integrity mode false.

(** [fetch_callback] once the arguments are read. *)
Record FetchCall := {
  is_url_alone : bool;             (* a string and no init object *)
  call_url : rstr; call_method : rstr; call_headers : gmap rstr rstr; call_body : option rstr;
  call_content_type : rstr; call_redirect : rstr; call_integrity : rstr; call_mode : option rstr;
}.
Definition with_content_type (content_type : rstr) (headers : gmap rstr rstr) : gmap rstr rstr :=
  if bool_decide (content_type ≠ []) && negb (existsb (λ h, eq_ignore_ascii_case h "content-type") (map fst (map_to_list headers)))
  then <[("content-type" : rstr) := content_type]> headers else headers.
Definition fetch_error {A} (m : F W A) : F W A := map_err (λ e, "Fetch error: " ++ e) m.
Definition fetch_with_init (c : FetchCall) : F W FetchResponse :=
  let headers := with_content_type (call_content_type c) (call_headers c) in
  if negb (is_redirect_mode (call_redirect c)) then fail ("Invalid redirect mode: " ++ call_redirect c)
  else if match call_mode c with Some mode => negb (is_request_mode mode) | None => false end
  then fail ("Invalid request mode: " ++ call_mode c .unwrap_or [])
  else fetch_error (execute_fetch (call_url c) (method_of (to_uppercase N (call_method c))) headers (call_body c)
                      (call_redirect c) (call_integrity c) (call_mode c .unwrap_or [])).
Definition fetch_callback (c : FetchCall) : F W FetchResponse :=
  if bool_decide (call_url c = []) then fail "Invalid URL"
  else if is_url_alone c then fetch_error (execute_simple_get (call_url c))
  else fetch_with_init c.
End fetch.
