(* ===== verification/FetchTheorems.v ===== *)
(** * What [fetch] promises

    Where its requests go: every one to an address the broker allows, a bounded number of them, and credentials only to
    the origin they were given for.  What a response is: over a kept-open
    socket, exactly the bytes its length announces, however they arrive; with integrity
    metadata, bytes with one of the listed digests; and all readers of a body see the same bytes.
    The examples at the end show where the framing fails: a body without a length. *)

From S2P Require Import Prelude Bytes RustPath Permissions Fetch.

Create HintDb fetch.

(** ** What a step hands to the network

    [does R Q n m Post]: run under the rules [R], which it keeps, [m] sends at most [n] requests, all of them in [Q], and
    a value it gives is in [Post]. *)
Definition rules {W} (s : Fetching W) : bool * ResourceBroker := (has_restrictions (perm s), broker (perm s)).
Definition does {W A} (R : bool * ResourceBroker) (Q : HttpRequest → Prop) (n : nat) (m : F W A) (Post : A → Prop) : Prop :=
  ∀ s s' r, rules s = R → m s = (s', r) →
    rules s' = R ∧ (∃ new, sent s' = sent s ++ new ∧ length new ≤ n ∧ Forall Q new) ∧ (∀ a, r = Ok a → Post a).

Section does.
Context {W : Type} (N : Net W) (R : bool * ResourceBroker) (Q : HttpRequest → Prop).

Lemma does_bind {A B} n n' (m : F W A) (f : A → F W B) Mid Post :
  does R Q n m Mid → (∀ a, Mid a → does R Q n' (f a) Post) → does R Q (n + n') (m ≫= f) Post.
Proof.
  intros Hm Hf s s' r Hs. unfold mbind, F_bind. destruct (m s) as [s1 [a|e]] eqn:E.
  - intros Hrun. destruct (Hm s s1 (Ok a) Hs E) as (H1 & (new1 & Hs1 & Hn1 & HQ1) & HMid).
    destruct (Hf a (HMid a eq_refl) s1 s' r H1 Hrun) as (H2 & (new2 & Hs2 & Hn2 & HQ2) & HP).
    split; [done|]. split; [|done]. exists (new1 ++ new2). rewrite Hs2, Hs1, app_assoc, length_app. split; [done|].
    split; [lia|]. by apply Forall_app.
  - intros [= <- <-]. destruct (Hm s s1 (Err e) Hs E) as (H1 & (new & Hs1 & Hn1 & HQ1) & _).
    split; [done|]. split; [|done]. exists new. split; [done|]. split; [lia|done].
Qed.
Lemma does_weaken {A} n n' (m : F W A) Post : n ≤ n' → does R Q n m Post → does R Q n' m Post.
Proof.
  intros Hn Hm s s' r Hs Hrun. destruct (Hm s s' r Hs Hrun) as (H1 & (new & Hnew & Hl & HQ) & HP).
  split; [done|]. split; [|done]. exists new. split; [done|]. split; [lia|done].
Qed.
Lemma does_ret {A} n (a : A) (Post : A → Prop) : Post a → does R Q n (mret (M := F W) a) Post.
Proof.
  intros Ha s s' r Hs [= <- <-]. split; [done|]. split; [|by intros ? [= <-]].
  exists []. rewrite app_nil_r. split; [done|]. split; [simpl; lia|constructor].
Qed.
Lemma does_impl {A} (Q' : HttpRequest → Prop) n (m : F W A) Post : does R Q' n m Post → (∀ q, Q' q → Q q) → does R Q n m Post.
Proof.
  intros Hm HQ s s' r Hs Hrun. destruct (Hm s s' r Hs Hrun) as (H1 & (new & Hnew & Hl & HQ') & HP).
  split; [done|]. split; [|done]. exists new. split; [done|]. split; [done|]. by eapply Forall_impl.
Qed.
(** Steps that send nothing and leave the rules alone. *)
Definition silent {A} (m : F W A) : Prop := ∀ s s' r, m s = (s', r) → perm s' = perm s ∧ sent s' = sent s.
Lemma does_silent {A} n (m : F W A) : silent m → does R Q n m (λ _, True).
Proof.
  intros Hm s s' r Hs Hrun. destruct (Hm s s' r Hrun) as [Hp Hsent]. unfold rules in *. rewrite Hp.
  split; [done|]. split; [|done]. exists []. rewrite app_nil_r. split; [done|]. split; [simpl; lia|constructor].
Qed.
Lemma silent_lift {A} (r : result A rstr) : silent (lift (W := W) r).
Proof. by intros s s' r' [= <- <-]. Qed.
Lemma silent_fail {A} e : silent (fail (W := W) (A := A) e).
Proof. by intros s s' r [= <- <-]. Qed.
Lemma silent_world {A} (f : W → W * result A rstr) : silent (on_world f).
Proof. intros s s' r. unfold on_world. destruct (f (world s)). by intros [= <- <-]. Qed.
Lemma silent_conn c : silent (put_conn (W := W) c).
Proof. by intros s s' r [= <- <-]. Qed.
Lemma silent_take : silent (take_conn (W := W)).
Proof. by intros s s' r [= <- <-]. Qed.
Lemma silent_ret {A} (a : A) : silent (mret (M := F W) a).
Proof. by intros s s' r [= <- <-]. Qed.
Lemma silent_bind {A B} (m : F W A) (f : A → F W B) : silent m → (∀ a, silent (f a)) → silent (m ≫= f).
Proof.
  intros Hm Hf s s' r. unfold mbind, F_bind. destruct (m s) as [s1 [a|e]] eqn:E.
  - intros Hrun. destruct (Hm _ _ _ E) as [<- <-]. exact (Hf a _ _ _ Hrun).
  - intros [= <- <-]. by apply (Hm _ _ _ E).
Qed.
Lemma silent_try {A} (m : F W A) : silent m → silent (try m).
Proof.
  intros Hm s s' r. unfold try. destruct (m s) as [s1 [a|e]] eqn:E; intros [= <- <-]; by apply (Hm _ _ _ E).
Qed.
Lemma silent_send stream text : silent (send_text N stream text).
Proof. apply silent_world. Qed.
Lemma silent_connect host port : silent (connect_http_stream N host port).
Proof. apply silent_world. Qed.
Lemma silent_abort : silent (ensure_not_aborted N).
Proof. apply silent_bind; [apply silent_world|]. intros []; [apply silent_fail|apply silent_ret]. Qed.
Lemma silent_hop_body chunks integrity collected : silent (consume_hop_body N chunks integrity collected).
Proof.
  revert collected. induction chunks as [|[chunk|e] chunks IH]; intros collected; cbn [consume_hop_body];
    (apply silent_bind; [apply silent_abort|intros _]).
  - apply silent_bind; [|intros _; apply silent_ret]. destruct (negb _); [apply silent_lift|apply silent_ret].
  - apply IH.
  - apply silent_fail.
Qed.
Lemma does_note n r : Q r → 0 < n → does R Q n (note_sent (W := W) r) (λ _, True).
Proof.
  intros Hr Hn s s' r' Hs [= <- <-]. split; [done|]. split; [|done]. exists [r]. split; [done|]. split; [simpl; lia|].
  by constructor.
Qed.
Lemma does_try {A} n (m : F W A) Post : does R Q n m Post → does R Q n (try m) (λ o, ∀ a, o = Some a → Post a).
Proof.
  intros Hm s s' r Hs. unfold try. destruct (m s) as [s1 [a|e]] eqn:E; intros [= <- <-];
    destruct (Hm _ _ _ Hs E) as (H1 & H2 & H3); (split; [done|split; [done|]]); intros o [= <-]; [|done].
  intros a' [= ->]. by apply H3.
Qed.
Lemma does_map_err {A} n (m : F W A) g Post : does R Q n m Post → does R Q n (map_err g m) Post.
Proof.
  intros Hm s s' r Hs. unfold map_err. destruct (m s) as [s1 [a|e]] eqn:E; intros [= <- <-];
    destruct (Hm _ _ _ Hs E) as (H1 & H2 & H3); done.
Qed.
End does.
#[export] Hint Resolve silent_lift silent_fail silent_world silent_conn silent_take silent_ret silent_send
  silent_connect silent_abort silent_hop_body silent_try : fetch.

(** ** Permissions *)

Section permitted.
Context {W : Type} (N : Net W).
(** A request to the address passes under the rules, whatever the time. *)
Definition passes (R : bool * ResourceBroker) (u : rstr) : Prop :=
  R.1 = false ∨ Permissions.decide (url_host N) R.2 Network Connect (Url u) = Allow.
Definition permitted (R : bool * ResourceBroker) (q : HttpRequest) : Prop := passes R (req_url q).
Lemma does_permission R Q n u : does R Q n (check_fetch_permission N u) (λ _, passes R u).
Proof.
  intros s s' r Hs. unfold check_fetch_permission. destruct (has_restrictions (perm s)) eqn:Hr.
  - destruct (check_global_permission _ _ _ _ _ _ _) as [p r0] eqn:E. intros [= <- <-].
    pose proof (check_global_broker (files N) (url_host N) (now N (world s)) (perm s) Network Connect (Url u)) as [Hb Hh].
    rewrite E in Hb, Hh. cbn [fst] in Hb, Hh. unfold rules in *. cbn [perm sent]. rewrite Hb, Hh. split; [done|].
    split; [exists []; rewrite app_nil_r; split; [done|]; split; [simpl; lia|constructor]|].
    intros a Ha. right. unfold check_global_permission in E. rewrite Hr in E. unfold check_result, check in E.
    cbn [negb normalize_resource] in E. injection E as _ Hr0. rewrite <-Hs. cbn [snd].
    destruct (Permissions.decide _ _ _ _ _); [done|]. by subst r0.
  - intros [= <- <-]. split; [done|]. split; [exists []; rewrite app_nil_r; split; [done|]; split; [simpl; lia|constructor]|].
    intros _ _. left. by rewrite <-Hs.
Qed.

Lemma does_send R Q q : Q q → does R Q 1 (send_request N q) (λ _, True).
Proof.
  intros Hq. unfold send_request. apply (does_bind R Q 1 0 _ _ (λ _, True)); [apply does_note; [done|lia]|].
  intros _ _. apply does_map_err, does_silent; auto with fetch.
Qed.
Lemma does_http1 R Q u :
  Q {| req_url := u; req_method := GET; req_headers := ∅; req_body := None |} →
  does R Q 1 (http1_keepalive_get N u) (λ _, True).
Proof.
  intros HQ. unfold http1_keepalive_get.
  apply (does_bind R Q 0 1 _ _ (λ _, True)); [apply does_silent; auto with fetch|]. intros [[host port] path] _.
  apply (does_bind R Q 0 1 _ _ (λ _, True)); [apply does_silent; auto with fetch|]. intros slot _.
  apply (does_bind R Q 0 1 _ _ (λ _, True)).
  { apply does_silent. destruct slot as [[ep sock]|]; [case_bool_decide|]; auto with fetch. }
  intros stream _. apply (does_bind R Q 1 0 _ _ (λ _, True)); [apply does_note; [done|lia]|]. intros _ _.
  apply does_silent, silent_bind; [auto with fetch|]. intros written. apply silent_bind.
  { destruct written; [auto with fetch|]. apply silent_bind; auto with fetch. }
  intros stream'. destruct (read_head _ _ _) as [r head]. apply silent_bind; [auto with fetch|]. intros [buf header_end].
  destruct (parse_response_head _) as [[status text] hs]. apply silent_bind; [|auto with fetch].
  destruct (match _ <$> _ with Some _ => _ | None => _ end).
  - apply silent_bind; [|auto with fetch]. destruct (match filter _ _ with [] => _ | _ => _ end); auto with fetch.
  - apply silent_bind; auto with fetch.
Qed.
Lemma does_once R Q u :
  Q {| req_url := u; req_method := GET; req_headers := ∅; req_body := None |} →
  does R Q 2 (fetch_once_without_redirect N u) (λ _, True).
Proof.
  intros HQ. unfold fetch_once_without_redirect. apply (does_bind R Q 1 1 _ _ (λ _, True)).
  - destruct (starts_with _ _); [|apply does_ret; done].
    intros s s' r Hs Hrun. destruct (does_try R Q 1 _ _ (does_http1 R Q u HQ) s s' r Hs Hrun) as (H1 & H2 & _). done.
  - intros [response|] _; [by apply does_ret|]. apply (does_bind R Q 1 0 _ _ (λ _, True)); [by apply does_send|].
    intros r _. by apply does_ret.
Qed.
Lemma simple_get_does R follows u was :
  does R (λ q, permitted R q ∧ req_headers q = ∅) (2 * S follows) (simple_get_loop N follows u was) (λ _, True).
Proof.
  revert u was. induction follows as [|follows IH]; intros u was; cbn [simple_get_loop].
  - apply (does_weaken R _ (0 + (2 + 0))); [lia|].
    apply (does_bind R _ 0 _ _ _ (λ _, passes R u)); [apply does_permission|]. intros _ Hu.
    apply (does_bind R _ 2 0 _ _ (λ _, True)); [by apply does_once|]. intros r _.
    case_match; [|by apply does_ret]. destruct (is_redirect_status _); [|by apply does_ret].
    apply does_silent, silent_bind; auto with fetch.
  - apply (does_weaken R _ (0 + (2 + 2 * S follows))); [lia|].
    apply (does_bind R _ 0 _ _ _ (λ _, passes R u)); [apply does_permission|]. intros _ Hu.
    apply (does_bind R _ 2 _ _ _ (λ _, True)); [by apply does_once|]. intros r _.
    case_match; [|by apply does_ret]. destruct (is_redirect_status _); [|by apply does_ret].
    apply (does_bind R _ 0 _ _ _ (λ _, True)); [apply does_silent; auto with fetch|]. intros _ _.
    apply (does_bind R _ 0 _ _ _ (λ _, True)); [apply does_silent; auto with fetch|]. intros next _. apply IH.
Qed.

Lemma silent_finish r u integrity mode was : silent (finish_fetch N r u integrity mode was).
Proof.
  unfold finish_fetch. apply silent_bind.
  - destruct (integrity_is_absent _); [auto with fetch|]. apply silent_bind; auto with fetch.
  - intros built. apply silent_bind; auto with fetch.
Qed.
(** The loop of [execute_fetch], for a class [Q] of requests and an invariant [Inv] on the address and the
    headers that every redirect keeps. *)
Lemma fetch_loop_does (R : bool * ResourceBroker) (Q : HttpRequest → Prop) (Inv : rstr → gmap rstr rstr → Prop)
    (redirect integrity mode : rstr) follows u method headers body was :
  (∀ u method headers body, passes R u → Inv u headers →
     Q {| req_url := u; req_method := method; req_headers := headers; req_body := body |}) →
  (∀ u next headers status method body, Inv u headers →
     Inv next (apply_redirect_method status method body
                 (if same_http_origin N u next then headers else strip_cross_origin_request_headers headers)).2) →
  Inv u headers →
  does R Q (if bool_decide (redirect = "follow") then S follows else 1)
    (fetch_loop N follows u method headers body redirect integrity mode was) (λ _, True).
Proof.
  intros HQ Hnext. revert u method headers body was. induction follows as [|follows IH]; intros u method headers body was HInv;
    cbn [fetch_loop];
    (apply (does_bind R _ 0 _ _ _ (λ _, True)); [apply does_silent; auto with fetch|]; intros _ _);
    (apply (does_bind R _ 0 _ _ _ (λ _, passes R u)); [apply does_permission|]; intros _ Hu).
  - apply (does_weaken R _ (1 + 0)); [case_bool_decide; lia|]. apply (does_bind R _ 1 0 _ _ (λ _, True)); [by apply does_send, HQ|].
    intros r _. destruct (_ && _); [apply does_silent; auto with fetch|].
    destruct (location_of r); [|apply does_silent, silent_finish].
    destruct (_ && _); apply does_silent; [auto with fetch|apply silent_finish].
  - apply (does_weaken R _ (1 + (if bool_decide (redirect = "follow") then S follows else 0))); [case_bool_decide; lia|].
    apply (does_bind R _ 1 _ _ _ (λ _, True)); [by apply does_send, HQ|].
    intros r _. destruct (_ && bool_decide (redirect = "error")); [apply does_silent; auto with fetch|].
    destruct (location_of r); [|apply does_silent, silent_finish].
    destruct (is_redirect_status _); cbn [andb]; [|apply does_silent, silent_finish].
    case_bool_decide as Hf; [|apply does_silent, silent_finish].
    apply (does_bind R _ 0 _ _ _ (λ _, True)); [apply does_silent; auto with fetch|]. intros next _.
    pose proof (Hnext u next headers (reply_status r) method body HInv) as HI.
    destruct (apply_redirect_method _ _ _ _) as [[method' body'] headers'].
    apply (does_bind R _ 0 _ _ _ (λ _, True)); [apply does_silent; auto with fetch|]. intros _ _.
    apply (does_bind R _ 0 _ _ _ (λ _, True)); [apply does_silent; auto with fetch|]. intros _ _.
    specialize (IH next method' headers' body' true HI). exact IH.
Qed.
Lemma execute_fetch_does (R : bool * ResourceBroker) (Q : HttpRequest → Prop) (Inv : rstr → gmap rstr rstr → Prop)
    u method headers body (redirect integrity mode : rstr) :
  (∀ u method headers body, passes R u → Inv u headers →
     Q {| req_url := u; req_method := method; req_headers := headers; req_body := body |}) →
  (∀ u next headers status method body, Inv u headers →
     Inv next (apply_redirect_method status method body
                 (if same_http_origin N u next then headers else strip_cross_origin_request_headers headers)).2) →
  Inv u headers →
  does R Q (if bool_decide (redirect = "follow") then S MAX_REDIRECTS else 1)
    (execute_fetch N u method headers body redirect integrity mode) (λ _, True).
Proof.
  intros HQ Hnext HI. unfold execute_fetch. destruct (negb _); [apply does_silent; auto with fetch|].
  by apply (fetch_loop_does R Q Inv).
Qed.
End permitted.

(** ** Where requests go *)

Section hops.
Context {W : Type} (N : Net W).
Lemma passes_check (s : Fetching W) u t :
  passes N (rules s) u → (check_global_permission (files N) (url_host N) t (perm s) Network Connect (Url u)).2 = Ok tt.
Proof.
  unfold passes, rules, check_global_permission. cbn [fst snd]. destruct (has_restrictions (perm s)); [|done].
  intros [|Hd]; [done|]. unfold check_result, check. cbn [negb normalize_resource snd]. by rewrite Hd.
Qed.
(** What [fetch_callback] does, from what the two engines do. *)
Lemma fetch_callback_does (R : bool * ResourceBroker) (Q : HttpRequest → Prop) n c :
  does R Q n (execute_simple_get N (call_url c)) (λ _, True) →
  (∀ method mode, does R Q n
     (execute_fetch N (call_url c) method (with_content_type (call_content_type c) (call_headers c)) (call_body c)
        (call_redirect c) (call_integrity c) mode) (λ _, True)) →
  does R Q n (fetch_callback N c) (λ _, True).
Proof.
  intros Hs Hf. unfold fetch_callback. case_bool_decide; [apply does_silent; auto with fetch|].
  destruct (is_url_alone c); [by apply does_map_err|]. unfold fetch_with_init.
  destruct (negb (is_redirect_mode _)); [apply does_silent; auto with fetch|].
  destruct (match call_mode c with Some _ => _ | None => _ end); [apply does_silent; auto with fetch|]. by apply does_map_err.
Qed.

(** C11. Every request that a call of [fetch] hands to the network, also each redirect it follows, goes to an
    address the broker allows under the rules at the call, and the call leaves the rules as they are.  At most 21 are
    sent (each a second time when the socket of the short form fails), and only one unless redirects are to be followed. *)
Theorem hops_permitted c (s : Fetching W) s' r :
  fetch_callback N c s = (s', r) →
  rules s' = rules s ∧
  ∃ new, sent s' = sent s ++ new ∧
    Forall (λ q, ∀ t, (check_global_permission (files N) (url_host N) t (perm s) Network Connect (Url (req_url q))).2 = Ok tt) new ∧
    length new ≤ (if is_url_alone c then 42 else if bool_decide (call_redirect c = "follow") then 21 else 1).
Proof.
  intros Hrun.
  assert (does (rules s) (permitted N (rules s))
    (if is_url_alone c then 42 else if bool_decide (call_redirect c = "follow") then 21 else 1) (fetch_callback N c) (λ _, True)) as Hd.
  { unfold fetch_callback. destruct (bool_decide (call_url c = [])); [apply does_silent; auto with fetch|].
    destruct (is_url_alone c).
    { apply does_map_err. eapply does_impl; [apply (simple_get_does N (rules s) MAX_REDIRECTS (call_url c) false)|].
      by intros q []. }
    unfold fetch_with_init. destruct (negb (is_redirect_mode _)); [apply does_silent; auto with fetch|].
    destruct (match call_mode c with Some _ => _ | None => _ end); [apply does_silent; auto with fetch|].
    by apply does_map_err, (execute_fetch_does N (rules s) _ (λ _ _, True)). }
  destruct (Hd s s' r eq_refl Hrun) as (HR & (new & Hs & Hl & HQ) & _). split; [done|]. exists new. split; [done|].
  split; [|done]. eapply Forall_impl; [exact HQ|]. intros q Hq t. by apply passes_check.
Qed.

(** *** Credentials *)
Definition origin_of (u : rstr) : option (rstr * rstr * Z) :=
  match url_parse N u with Ok parsed => origin parsed | Err _ => None end.
Definition home (u0 u : rstr) : Prop := u = u0 ∨ ∃ o, origin_of u0 = Some o ∧ origin_of u = Some o.
Definition with_credentials (headers : gmap rstr rstr) : Prop :=
  ∃ name, is_Some (headers !! name) ∧ is_credential_request_header name = true.
Lemma keep_headers_lookup (keep : rstr → bool) (headers : gmap rstr rstr) (name : rstr) :
  is_Some (keep_headers keep headers !! name) → is_Some (headers !! name) ∧ keep name = true.
Proof. intros [v Hv]. unfold keep_headers in Hv. apply map_lookup_filter_Some in Hv as [Hv Hk]. split; [by eexists|done]. Qed.
Lemma redirect_method_headers (st : Z) (method : HttpMethod) (body : option rstr) (headers : gmap rstr rstr) (name : rstr) :
  is_Some ((apply_redirect_method st method body headers).2 !! name) → is_Some (headers !! name).
Proof.
  unfold apply_redirect_method. destruct (_ || _); cbn [snd]; [|done]. by intros [? _]%keep_headers_lookup.
Qed.
Lemma same_origin_home u0 u next : home u0 u → same_http_origin N u next = true → home u0 next.
Proof.
  unfold home, same_http_origin, origin_of. destruct (url_parse N u) as [l|e] eqn:El; [|done].
  destruct (url_parse N next) as [n|e] eqn:En; [|done]. destruct (origin l) as [o|] eqn:Eo; [|done].
  destruct (origin n) as [o'|]; [|done]. rewrite bool_decide_eq_true. intros Hh <-. right.
  destruct Hh as [->|(o0 & H0 & [= <-])]; [|by exists o]. exists o. by rewrite El.
Qed.
(** C12. An [Authorization], [Cookie], [Cookie2] or [Proxy-Authorization] header that a call of [fetch] is given is
    sent to the call's own address and to addresses of its origin, and nowhere else, however it is redirected:
    also a redirect back from elsewhere does not bring it back. *)
Theorem credentials_stay_home c (s : Fetching W) s' r :
  fetch_callback N c s = (s', r) →
  ∃ new, sent s' = sent s ++ new ∧
    Forall (λ q, with_credentials (req_headers q) → home (call_url c) (req_url q)) new.
Proof.
  intros Hrun. set (u0 := call_url c).
  assert (does (rules s) (λ q, with_credentials (req_headers q) → home u0 (req_url q)) 42 (fetch_callback N c) (λ _, True)) as Hd.
  { apply fetch_callback_does.
    - assert (∀ q, req_headers q = ∅ → with_credentials (req_headers q) → home u0 (req_url q)) as H0.
      { intros q -> (name & [v Hv] & _). by rewrite lookup_empty in Hv. }
      intros s1 s1' r1 HR Hrun1. destruct (simple_get_does N (rules s) MAX_REDIRECTS u0 false s1 s1' r1 HR Hrun1)
        as (H1 & (new & H2 & H3 & H4) & _). split; [done|]. split; [|done]. exists new. split; [done|]. split; [done|].
      eapply Forall_impl; [exact H4|]. intros q [_ Hq]. by apply H0.
    - intros method mode. apply (does_weaken _ _ (if bool_decide (call_redirect c = "follow") then 21 else 1));
        [case_bool_decide; lia|].
      apply (execute_fetch_does N (rules s) _ (λ u headers, with_credentials headers → home u0 u)).
      + intros u m headers body _ Hinv. exact Hinv.
      + intros u next headers st m body Hinv (name & Hn & Hc). apply redirect_method_headers in Hn.
        destruct (same_http_origin N u next) eqn:Eo.
        * eapply same_origin_home, Eo. apply Hinv. by exists name.
        * apply keep_headers_lookup in Hn as [_ Hk]. by rewrite Hc in Hk.
      + intros _. by left. }
  destruct (Hd s s' r eq_refl Hrun) as (_ & (new & Hs & _ & HQ) & _). by exists new.
Qed.
End hops.

(** ** Reading *)

(** Reads that each give something, and what they give together. *)
Definition giving (r : reads) : Prop := Forall (λ a, ∃ d, a = Ok d ∧ d ≠ []) r.
Definition flat (r : reads) : rstr := mjoin (map (λ a, match a with Ok d => d | Err _ => [] end) r).
Lemma flat_cons d r : flat (Ok d :: r) = d ++ flat r.
Proof. apply mjoin_cons. Qed.
Lemma read_once_mass size r : 0 < size → r ≠ [] → mass (read_once size r).1 < mass r.
Proof.
  intros Hs Hr. destruct r as [|[d|e] r]; [done| |]; unfold mass; simpl; [|lia].
  case_bool_decide; simpl; [lia|]. rewrite length_drop. lia.
Qed.
Lemma read_once_giving size r :
  0 < size → giving r → r ≠ [] →
  ∃ d r', read_once size r = (r', Ok d) ∧ d ≠ [] ∧ flat r = d ++ flat r' ∧ giving r' ∧ mass r' < mass r.
Proof.
  intros Hs Hg Hr. pose proof (read_once_mass size r Hs Hr) as Hm. destruct Hg as [|a r (d & -> & Hd) Hg]; [done|].
  simpl in *. case_bool_decide.
  - exists d, r. rewrite flat_cons. done.
  - exists (take size d), (Ok (drop size d) :: r). split; [done|].
    split; [destruct d, size; [lia|done|lia|done]|]. rewrite !flat_cons, app_assoc, take_drop. split; [done|].
    split; [|done]. constructor; [|done]. eexists. split; [done|]. intros Hn%(f_equal length). rewrite length_drop in Hn.
    simpl in Hn. lia.
Qed.

(** *** The head of a response *)
Lemma find_text_fits pat x p : find_text pat x = Some p → length pat + p ≤ length x.
Proof.
  revert p. induction x as [|c x IH]; intros p; cbn [find_text].
  - destruct (starts_with pat []) eqn:E; [|done]. intros [= <-].
    apply starts_with_spec, prefix_length in E. simpl in *. lia.
  - destruct (starts_with pat (c :: x)) eqn:E.
    + intros [= <-]. apply starts_with_spec, prefix_length in E. simpl in *. lia.
    + destruct (find_text pat x) as [q|]; [|done]. intros [= <-]. specialize (IH q eq_refl). simpl. lia.
Qed.
Lemma find_text_app pat x y p : find_text pat x = Some p → find_text pat (x ++ y) = Some p.
Proof.
  assert (∀ x y, starts_with pat x = true → starts_with pat (x ++ y) = true) as Hstart.
  { intros u v [z ->]%starts_with_spec. apply starts_with_spec. exists (z ++ v). by rewrite app_assoc. }
  revert p. induction x as [|c x IH]; intros p; cbn [app find_text].
  - destruct (starts_with pat []) eqn:E; [|done]. intros [= <-]. apply (Hstart [] y) in E. cbn [app] in E.
    destruct y; cbn [find_text]; by rewrite E.
  - destruct (starts_with pat (c :: x)) eqn:E.
    + intros [= <-]. apply (Hstart _ y) in E. cbn [app] in E. by rewrite E.
    + destruct (find_text pat x) as [q|] eqn:Eq; [|done]. intros [= <-].
      destruct (starts_with pat (c :: x ++ y)) eqn:E'; [|by rewrite (IH q)].
      exfalso.
      apply starts_with_spec in E' as [z Hz].
      assert (length pat + q ≤ length x) as Hl by (by apply (find_text_fits pat)).
      apply not_true_iff_false in E. apply E, starts_with_spec. exists (take (S (length x) - length pat) z).
      apply (f_equal (take (S (length x)))) in Hz. change (c :: x ++ y) with ((c :: x) ++ y) in Hz.
      rewrite take_app_length' in Hz by done. rewrite Hz, take_app, (take_ge pat) by lia. done.
Qed.
(** A response head: its first empty line is its end. *)
Definition is_head (head : rstr) : Prop :=
  ∃ p, find_text crlfcrlf head = Some p ∧ length head = p + 4 ∧ (len head ≤ 65536)%Z.
Lemma read_head_exact head payload fuel r buf :
  is_head head → giving r → buf ++ flat r = head ++ payload → find_text crlfcrlf buf = None → mass r < fuel →
  ∃ r' k, read_head fuel r buf = (r', Ok (head ++ take k payload, length head)) ∧ flat r' = drop k payload ∧ giving r'.
Proof.
  intros (p & Hp & Hlen & Hmax). revert r buf. induction fuel as [|fuel IH]; intros r buf Hg Hflat Hnone Hf; [lia|].
  assert (r ≠ []) as Hr.
  { intros ->. unfold flat in Hflat. simpl in Hflat. rewrite app_nil_r in Hflat. subst buf.
    by rewrite (find_text_app _ _ _ _ Hp) in Hnone. }
  destruct (read_once_giving 512 r ltac:(lia) Hg Hr) as (d & r' & Hread & Hd & Hfl & Hg' & Hm).
  cbn [read_head]. rewrite Hread. destruct d as [|a d]; [done|]. set (bytes := a :: d) in *. clearbody bytes.
  rewrite Hfl, app_assoc in Hflat. destruct (find_text crlfcrlf (buf ++ bytes)) as [q|] eqn:Eq.
  - pose proof (find_text_app _ _ (flat r') _ Eq) as E1. rewrite Hflat, (find_text_app _ _ _ _ Hp) in E1. injection E1 as ->.
    assert (4 + q ≤ length (buf ++ bytes)) as Hl by (by apply (find_text_fits crlfcrlf)).
    exists r', (length (buf ++ bytes) - length head).
    apply (f_equal (take (length (buf ++ bytes)))) in Hflat as Ht. rewrite take_app_length, take_app, take_ge in Ht by lia.
    apply (f_equal (drop (length (buf ++ bytes)))) in Hflat as Hdr. rewrite drop_app_length, drop_app, drop_ge in Hdr by lia.
    rewrite Hlen in *. rewrite Ht at 1. split; [do 2 f_equal; f_equal; lia|]. done.
  - rewrite bool_decide_eq_false_2.
    + apply IH; [done|done|done|lia].
    + intros Hbig. assert (length head ≤ length (buf ++ bytes)) as Hl by (unfold len in *; lia).
      apply (f_equal (take (length head))) in Hflat. rewrite take_app_le, take_app_length in Hflat by done.
      rewrite <-(take_drop (length head) (buf ++ bytes)), Hflat, (find_text_app _ _ _ _ Hp) in Eq. done.
Qed.

(** *** Bodies *)
Lemma next_full_chunk_mass chunks r c : next_full_chunk chunks = (r, Ok (Some c)) → mass r < mass chunks.
Proof.
  induction chunks as [|[[|a d]|e] chunks IH]; cbn [next_full_chunk]; [done| | |done].
  - intros H%IH. unfold mass in *. simpl. lia.
  - intros [= <- <-]. unfold mass. simpl. lia.
Qed.
Lemma buffer_pos : 0 < 8192.
Proof. by apply Nat.ltb_lt. Qed.
Lemma read_net_mass n n' c : read_net n = (n', Ok (Some c)) →
  body_mass {| pulled := []; net := Some n'; finished := false |} < body_mass {| pulled := []; net := Some n; finished := false |}.
Proof.
  assert (∀ (r r' : reads) a d, body_error (read_once 8192 r) = (r', Ok (a :: d)) → mass r' < mass r) as Hs.
  { intros r r' a d. unfold body_error. pose proof (read_once_mass 8192 r buffer_pos) as Hm. destruct r as [|x r]; [done|].
    specialize (Hm ltac:(done)). destruct (read_once 8192 (x :: r)) as [r1 [d1|e1]]; [|done]. by intros [= <- ->]. }
  unfold read_net, body_mass. destruct n as [r size|r|r]; cbn [net].
  - case_bool_decide; [done|]. destruct (body_error (read_once 8192 r)) as [r1 [[|a d]|e]] eqn:E; try done.
    apply Hs in E. destruct size; by intros [= <- _].
  - destruct (body_error (read_once 8192 r)) as [r1 [[|a d]|e]] eqn:E; try done. apply Hs in E. by intros [= <- _].
  - unfold body_error. destruct (next_full_chunk r) as [r1 [o|e]] eqn:E; [|done]. intros [= <- ->].
    by apply next_full_chunk_mass in E.
Qed.
Lemma next_chunk_more b b' c :
  next_chunk b = (b', Ok (Some c)) → body_mass b' < body_mass b ∧ pulled b' = pulled b ++ c.
Proof.
  unfold next_chunk. destruct (finished b); [done|]. destruct (net b) as [n|] eqn:En; [|done].
  destruct (read_net n) as [n' [[bytes|]|e]] eqn:E; intros [= <- <-]. split; [|done].
  apply read_net_mass in E. unfold body_mass in *. by rewrite En.
Qed.
Lemma next_chunk_end b b' : next_chunk b = (b', Ok None) → pulled b' = pulled b ∧ next_chunk b' = (b', Ok None).
Proof.
  unfold next_chunk at 1. destruct (finished b) eqn:Hf.
  - intros [= <-]. split; [done|]. unfold next_chunk. by rewrite Hf.
  - destruct (net b) as [n|]; [destruct (read_net n) as [n' [[bytes|]|e]]; intros [= <-]|intros [= <-]]; done.
Qed.
Lemma read_to_end_fuel fuel fuel' b : body_mass b < fuel → body_mass b < fuel' → read_to_end_loop fuel b = read_to_end_loop fuel' b.
Proof.
  revert fuel' b. induction fuel as [|fuel IH]; intros [|fuel'] b H H'; try lia. cbn [read_to_end_loop].
  destruct (next_chunk b) as [b1 [[c|]|e]] eqn:E; try done. apply next_chunk_more in E as [E _]. apply IH; lia.
Qed.
Lemma read_to_end_step b :
  read_to_end b = match next_chunk b with
                  | (b, Err e) => (b, Err e) | (b, Ok None) => (b, Ok (pulled b)) | (b, Ok (Some _)) => read_to_end b end.
Proof.
  unfold read_to_end at 1. cbn [read_to_end_loop]. destruct (next_chunk b) as [b1 [[c|]|e]] eqn:E; try done.
  apply next_chunk_more in E as [E _]. apply read_to_end_fuel; lia.
Qed.
(** What has been pulled is the front of what reading to the end gives. *)
Definition whole (b : SharedBody) (t : rstr) : Prop := (read_to_end b).2 = Ok t.
Lemma whole_step b b' o t : whole b t → next_chunk b = (b', Ok o) → whole b' t.
Proof.
  unfold whole. rewrite read_to_end_step. intros Hw E. rewrite E in Hw. destruct o as [c|]; [done|].
  apply next_chunk_end in E as [_ E]. by rewrite read_to_end_step, E.
Qed.
Lemma whole_end b b' t : whole b t → next_chunk b = (b', Ok None) → t = pulled b'.
Proof. unfold whole. rewrite read_to_end_step. intros Hw E. rewrite E in Hw. by injection Hw. Qed.
Lemma whole_pulled b t : whole b t → pulled b `prefix_of` t.
Proof.
  remember (body_mass b) as m eqn:Hm. revert b Hm. induction (lt_wf m) as [m _ IH]. intros b -> Hw.
  destruct (next_chunk b) as [b1 [[c|]|e]] eqn:E.
  - pose proof (whole_step _ _ _ _ Hw E) as Hw1. apply next_chunk_more in E as [Hlt Hp].
    pose proof (IH _ Hlt b1 eq_refl Hw1) as Hpre. rewrite Hp in Hpre. etrans; [|exact Hpre]. by apply prefix_app_r.
  - pose proof (whole_end _ _ _ Hw E) as ->. by apply next_chunk_end in E as [-> _].
  - unfold whole in Hw. by rewrite read_to_end_step, E in Hw.
Qed.

(** Readers of one body, as the clones of a response have them: each has its place and what it was given. *)
Record Reader := { place : nat; got : rstr; ended : bool }.
Definition fresh_reader : Reader := {| place := 0; got := []; ended := false |}.
Definition turn (st : SharedBody * (nat → Reader)) (i : nat) : SharedBody * (nat → Reader) :=
  let '(b, rs) := st in
  match read_from_offset b (place (rs i)) with
  | (b, Err _) => (b, rs)
  | (b, Ok (Some c, o)) => (b, λ j, if bool_decide (j = i) then {| place := o; got := got (rs i) ++ c; ended := false |} else rs j)
  | (b, Ok (None, o)) => (b, λ j, if bool_decide (j = i) then {| place := o; got := got (rs i); ended := true |} else rs j)
  end.
Definition in_place (b : SharedBody) (t : rstr) (r : Reader) : Prop :=
  place r ≤ length (pulled b) ∧ got r = take (place r) (pulled b) ∧ (ended r = true → got r = t).
Lemma turn_in_place b rs t i :
  whole b t → (∀ j, in_place b t (rs j)) →
  whole (turn (b, rs) i).1 t ∧ ∀ j, in_place (turn (b, rs) i).1 t ((turn (b, rs) i).2 j).
Proof.
  intros Hw Hin. unfold turn, read_from_offset. destruct (Hin i) as (Hi1 & Hi2 & Hi3).
  case_bool_decide as Ho.
  - cbn [fst snd]. split; [done|]. intros j. case_bool_decide; [|apply Hin]. split; [done|]. cbn [place got ended].
    rewrite Hi2, take_drop, take_ge by done. done.
  - destruct (next_chunk b) as [b1 [[c|]|e]] eqn:E; cbn [fst snd].
    + split; [by eapply whole_step|]. pose proof (next_chunk_more _ _ _ E) as [_ Hp]. intros j. case_bool_decide.
      * split; [done|]. cbn [place got ended]. rewrite take_ge by done. split; [|done].
        by rewrite Hi2, take_ge, Hp by lia.
      * destruct (Hin j) as (H1 & H2 & H3). split; [rewrite Hp, length_app; lia|]. split; [|done].
        by rewrite Hp, take_app_le.
    + split; [by eapply whole_step|]. pose proof (whole_end _ _ _ Hw E) as Ht. pose proof (next_chunk_end _ _ E) as [Hp _].
      intros j. unfold in_place. rewrite Hp. case_bool_decide; [|apply Hin]. cbn [place got ended]. split; [done|].
      split; [done|]. intros _. by rewrite Hi2, take_ge, <-Hp by lia.
    + exfalso. unfold whole in Hw. by rewrite read_to_end_step, E in Hw.
Qed.
(** Whatever order the readers of a body take turns in, each is given the body's bytes from the
    start, and a reader that is told of the end has been given all of them. *)
Theorem readers_agree b t schedule i :
  whole b t →
  got ((fold_left turn schedule (b, λ _, fresh_reader)).2 i) `prefix_of` t ∧
  (ended ((fold_left turn schedule (b, λ _, fresh_reader)).2 i) = true →
   got ((fold_left turn schedule (b, λ _, fresh_reader)).2 i) = t).
Proof.
  intros Hw. assert (∀ rs, (∀ j, in_place b t (rs j)) →
    let st := fold_left turn schedule (b, rs) in whole st.1 t ∧ ∀ j, in_place st.1 t (st.2 j)) as Hrun.
  { revert b Hw. induction schedule as [|k schedule IH]; intros b Hw rs Hrs; [done|]. cbn [fold_left].
    destruct (turn_in_place b rs t k Hw Hrs) as [Hw' Hrs']. destruct (turn (b, rs) k) as [b1 rs1]. by apply IH. }
  destruct (Hrun (λ _, fresh_reader)) as [Hw' Hin]; [split; [simpl; lia|done]|]. destruct (Hin i) as (_ & Hg & He).
  split; [|done]. rewrite Hg. etrans; [|by apply whole_pulled]. apply prefix_take.
Qed.

(** *** A response with its length announced *)
Lemma whole_memory t : whole (memory_body t) t.
Proof. done. Qed.
Lemma whole_finished b t : pulled b = t → finished b = true → whole b t.
Proof. intros <- Hf. unfold whole, read_to_end. cbn [read_to_end_loop]. unfold next_chunk. by rewrite Hf. Qed.
(** What the socket still gives is exactly what remains. *)
Lemma whole_tcp r front :
  giving r → whole {| pulled := front; net := Some (Tcp r (Some (len (flat r)))); finished := false |} (front ++ flat r).
Proof.
  remember (mass r) as m eqn:Hm. revert r front Hm. induction (lt_wf m) as [m _ IH]. intros r front -> Hg.
  destruct (base.decide (r = [])) as [->|Hr]; [unfold whole; by rewrite app_nil_r|].
  destruct (read_once_giving 8192 r buffer_pos Hg Hr) as (d & r' & Hread & Hd & Hfl & Hg' & Hlt).
  unfold whole. rewrite read_to_end_step. unfold next_chunk. cbn [finished net read_net].
  rewrite bool_decide_eq_false_2.
  2:{ rewrite Hfl, len_app. destruct d; [done|]. unfold len. intros [=]. simpl in *. lia. }
  unfold body_error. rewrite Hread. cbn [fst snd]. destruct d as [|a d]; [done|]. set (bytes := a :: d) in *. clearbody bytes.
  rewrite Hfl, len_app, Z.min_l by (pose proof (len_nonneg (flat r')); lia). cbn [pulled].
  unfold len at 1. rewrite Nat2Z.id, take_ge by done.
  replace (len bytes + len (flat r') - len bytes)%Z with (len (flat r')) by lia.
  rewrite app_assoc. by apply (IH (mass r')).
Qed.

Section http1.
Context {W : Type} (N : Net W).
Definition address_of (host : rstr) (port : Z) : Address :=
  if bool_decide (host = "127.0.0.1" ∨ host = "localhost") then Loopback port else Named host port.
(** C13. A request over a new socket to a peer that answers with a head and a body of the length the head announces: however
    the bytes are split over the reads, the call gives the head's status and fields, and reading the body
    gives exactly the body, what arrived with the head and what is still on the socket together. *)
Theorem http1_response_exact s u host port path w1 sock w2 answered head payload :
  parse_http_url N u = Some (host, port, path) →
  http1_conn s = None →
  connect N (world s) (address_of host port) = (w1, Ok sock) →
  write_all N w1 sock (request_text path (http_host_header host port)) = (w2, Ok answered) →
  giving (incoming answered) → flat (incoming answered) = head ++ payload → is_head head →
  last_content_length (parse_response_head (from_utf8_lossy N head)).2 = Some (len payload) →
  ∃ s' response, http1_keepalive_get N u s = (s', Ok response) ∧
    (status response, status_text response, headers response) = parse_response_head (from_utf8_lossy N head) ∧
    whole (body response) payload.
Proof.
  intros Hu Hconn Hc Hw Hg Hflat Hhead Hlen.
  destruct (read_head_exact head payload (S (mass (incoming answered))) (incoming answered) [] Hhead Hg Hflat eq_refl ltac:(lia))
    as (r' & k & Hread & Hrest & Hg').
  unfold http1_keepalive_get. rewrite Hu. unfold mbind, F_bind, lift, take_conn, connect_http_stream, on_world, note_sent.
  fold (address_of host port). rewrite Hconn. cbn [world perm http1_conn sent]. rewrite Hc. cbn [world perm http1_conn sent].
  unfold try, send_text, on_world. cbn [world perm http1_conn sent]. rewrite Hw. unfold mret, F_ret.
  rewrite Hread. rewrite take_app_length.
  destruct (parse_response_head (from_utf8_lossy N head)) as [[st text] hs]. cbn [snd] in Hlen. rewrite Hlen, drop_app_length.
  assert (take (Z.to_nat (Z.min (len payload) (len (take k payload)))) (take k payload) = take k payload) as ->.
  { apply take_ge. unfold len. rewrite length_take. lia. }
  cbn [fmap option_fmap option_map]. assert (Z.max 0 (len payload - len (take k payload)) = len (flat r'))%Z as ->.
  { rewrite Hrest. unfold len. rewrite length_take, length_drop. lia. }
  case_bool_decide as Hz.
  - assert (take k payload = payload) as ->.
    { apply take_ge. rewrite Hrest in Hz. unfold len in Hz. rewrite length_drop in Hz. lia. }
    destruct (match filter _ _ with [] => _ | _ => _ end); by do 2 eexists.
  - do 2 eexists. split; [reflexivity|]. split; [done|]. cbn [body open_body].
    rewrite <-(take_drop k payload) at 2. rewrite <-Hrest. by apply whole_tcp.
Qed.

(** ** Integrity *)

Lemma ws_len_front x y : ws_len x ≠ 0 → ws_len (x ++ y) ≠ 0.
Proof.
  destruct x as [|a [|b [|c x]]]; destruct y as [|d [|e y]]; simpl; repeat case_bool_decide; try done; tauto.
Qed.
Lemma ws_len_rev_le s : ws_len_rev s ≤ length s.
Proof.
  assert (∀ n, ws_len (reverse (take n s)) = n → n ≤ length s) as H.
  { intros n Hn. pose proof (ws_len_le (reverse (take n s))) as Hl. rewrite length_reverse, length_take in Hl. lia. }
  unfold ws_len_rev. repeat case_bool_decide; auto with lia.
Qed.
Lemma trim_trim s : trim (trim s) = trim s.
Proof.
  unfold trim at 1. assert (trim_start (trim s) = trim s) as ->.
  { unfold trim_start. apply trim_with_id. unfold trim.
    destruct (base.decide (ws_len (trim_end (trim_start s)) = 0)) as [|Hn]; [done|].
    destruct (trim_with_suffix ws_len_rev (length (trim_start s)) (reverse (trim_start s))) as [x Hx].
    apply (f_equal reverse) in Hx. rewrite reverse_involutive, reverse_app in Hx.
    apply (ws_len_front _ (reverse x)) in Hn. unfold trim_end in Hn. rewrite <-Hx in Hn.
    by rewrite trim_start_stop in Hn. }
  unfold trim, trim_end at 1. rewrite trim_with_id; [apply reverse_involutive|].
  unfold trim_end. rewrite reverse_involutive. apply trim_with_stop; [apply ws_len_rev_le|by rewrite length_reverse].
Qed.

(** A digest that the metadata lists. *)
Definition listed_digest (bytes integrity : rstr) : Prop :=
  ∃ token name b64 a, token ∈ split_whitespace (trim integrity) ∧ split_once "-" token = Some (name, b64) ∧
    algorithm_of name = Some a ∧ base64_decode N b64 = Ok (digest N a bytes).
Lemma check_tokens_ok saw bytes integrity tokens :
  check_tokens N saw bytes integrity tokens = Ok tt →
  ∃ token name b64 a, token ∈ tokens ∧ split_once "-" token = Some (name, b64) ∧
    algorithm_of name = Some a ∧ base64_decode N b64 = Ok (digest N a bytes).
Proof.
  revert saw. induction tokens as [|token tokens IH]; intros saw; cbn [check_tokens]; [done|].
  assert (∀ saw, check_tokens N saw bytes integrity tokens = Ok tt → ∃ t name b64 a, t ∈ token :: tokens ∧
    split_once "-" t = Some (name, b64) ∧ algorithm_of name = Some a ∧ base64_decode N b64 = Ok (digest N a bytes)) as Hlater.
  { intros saw' (t & name & b64 & a & Hin & Hrest)%IH. exists t, name, b64, a. split; [by right|done]. }
  destruct (split_once "-" token) as [[name b64]|] eqn:Es; simpl; [|apply Hlater].
  destruct (algorithm_of name) as [a|] eqn:Ea; simpl; [|apply Hlater].
  destruct (base64_decode N b64) as [e|e] eqn:Eb; [|done]. case_bool_decide as Hd; [|apply Hlater].
  intros _. exists token, name, b64, a. split; [left|]. by rewrite Hd.
Qed.
Lemma consume_checked chunks integrity collected s s' bytes :
  integrity_is_absent integrity = false →
  consume_hop_body N chunks integrity collected s = (s', Ok bytes) → listed_digest bytes integrity.
Proof.
  intros Ha. revert collected s. induction chunks as [|[chunk|e] chunks IH]; intros collected s; cbn [consume_hop_body];
    unfold mbind, F_bind; destruct (ensure_not_aborted N s) as [s1 [[]|e1]]; try done; rewrite Ha; cbn [negb].
  - unfold lift, mret, F_ret. destruct (check_body_integrity N collected integrity) as [[]|e] eqn:Ec; [|done]. intros [= _ <-].
    unfold check_body_integrity in Ec.
    assert (integrity_is_absent (trim integrity) = false) as Hat by (unfold integrity_is_absent in *; by rewrite trim_trim).
    rewrite Hat in Ec. by apply check_tokens_ok in Ec.
  - apply IH.
Qed.
End http1.

Lemma F_bind_ok {W A B} (m : F W A) (f : A → F W B) s s' b :
  (m ≫= f) s = (s', Ok b) → ∃ s1 a, m s = (s1, Ok a) ∧ f a s1 = (s', Ok b).
Proof. unfold mbind, F_bind. destruct (m s) as [s1 [a|e]]; [eauto|done]. Qed.
Lemma fetch_map_err_ok {W A} g (m : F W A) s s' a : map_err g m s = (s', Ok a) → m s = (s', Ok a).
Proof. unfold map_err. destruct (m s) as [s1 [b|e]]; [done|]. by intros [=]. Qed.

Section integrity.
Context {W : Type} (N : Net W).
Lemma finish_checked r u (integrity mode : rstr) was s s' response :
  integrity_is_absent integrity = false → mode ≠ "no-cors" →
  finish_fetch N r u integrity mode was s = (s', Ok response) →
  ∃ bytes, body response = memory_body bytes ∧ listed_digest N bytes integrity.
Proof.
  intros Ha Hm. unfold finish_fetch. rewrite Ha. intros (s1 & built & H1 & H2)%F_bind_ok.
  apply F_bind_ok in H1 as (s2 & bytes & Hc & [= _ <-]). apply F_bind_ok in H2 as (s3 & [] & _ & [= _ <-]).
  exists bytes. split; [|by eapply consume_checked]. unfold apply_response_mode. by repeat case_bool_decide.
Qed.
Lemma fetch_loop_checked follows u method headers body (redirect integrity mode : rstr) was s s' response :
  integrity_is_absent integrity = false → mode ≠ "no-cors" →
  fetch_loop N follows u method headers body redirect integrity mode was s = (s', Ok response) →
  ∃ bytes, Fetch.body response = memory_body bytes ∧ listed_digest N bytes integrity.
Proof.
  intros Ha Hm. revert u method headers body was s.
  induction follows as [|follows IH]; intros u method headers body was s; cbn [fetch_loop];
    intros (s1 & [] & _ & H)%F_bind_ok; apply F_bind_ok in H as (s2 & [] & _ & H); apply F_bind_ok in H as (s3 & r & _ & H);
    (destruct (_ && bool_decide (redirect = "error")); [by inversion H|]);
    (destruct (location_of r); [|by eapply finish_checked]);
    (destruct (_ && bool_decide (redirect = "follow")); [|by eapply finish_checked]); [by inversion H|].
  apply F_bind_ok in H as (s4 & next & _ & H). destruct (apply_redirect_method _ _ _ _) as [[m' b'] h'].
  apply F_bind_ok in H as (s5 & ? & _ & H). apply F_bind_ok in H as (s6 & ? & _ & H). by eapply IH.
Qed.
(** With integrity metadata, a call of [fetch] gives a response only with its whole body read, and only
    when one of the listed digests is the body's; nothing is left to read from the network. *)
Theorem integrity_enforced c s s' response :
  fetch_callback N c s = (s', Ok response) →
  is_url_alone c = false → integrity_is_absent (call_integrity c) = false → call_mode c ≠ Some ("no-cors" : rstr) →
  ∃ bytes, body response = memory_body bytes ∧ listed_digest N bytes (call_integrity c).
Proof.
  intros Hrun Halone Ha Hm. unfold fetch_callback, fetch_with_init in Hrun. rewrite Halone in Hrun.
  destruct (bool_decide _); [done|]. destruct (negb (is_redirect_mode _)); [done|].
  destruct (match call_mode c with Some _ => _ | None => _ end); [done|]. apply fetch_map_err_ok in Hrun.
  unfold execute_fetch in Hrun. destruct (negb _); [done|]. eapply fetch_loop_checked; [done| |exact Hrun].
  destruct (call_mode c); [naive_solver|done].
Qed.
End integrity.

(** ** Examples *)

(** A network with three addresses of two origins; [https://a/1] answers with a redirect to the other
    origin, whose [https://b/2] sends back to [https://a/3].  On the sockets, the answer to the first request is [first]. *)
Module FetchToy.
Definition parsed (text host path : rstr) : ParsedUrl := {|
  href := text; scheme := if starts_with "https" text then "https" else "http"; host_str := Some host;
  port_or_known_default := Some (if starts_with "https" text then 443 else 80)%Z; url_path := path; query := None;
  origin := Some (if starts_with "https" text then "https" : rstr else "http", host, if starts_with "https" text then 443 else 80)%Z |}.
Definition parse (text : rstr) : result ParsedUrl rstr :=
  if bool_decide (text = "https://a/1") then Ok (parsed text "a" "/1")
  else if bool_decide (text = "https://b/2") then Ok (parsed text "b" "/2")
  else if bool_decide (text = "https://a/3") then Ok (parsed text "a" "/3")
  else if bool_decide (text = "http://c/") then Ok (parsed text "c" "/")
  else Err ("relative URL without a base" : rstr).
Definition answer (u : rstr) (st : Z) (location : option rstr) (text : rstr) : Reply := {|
  reply_url := u; reply_status := st; reason := None;
  reply_headers := match location with Some l => [("location" : rstr, Some l)] | None => [] end;
  reply_chunks := [Ok text] |}.
Definition line_end : rstr := crlf.
Definition net_with (first : reads) : Net unit := {|
  files := bare_host; url_host := λ _, None; now := λ _, []; denied_text := λ _, ("denied" : rstr);
  url_parse := parse; url_join := λ _ l, parse l; from_utf8_lossy := λ s, s; to_uppercase := λ s, s;
  digest := λ _ b, b; base64_decode := Ok;
  connect := λ w _, (w, Ok {| peer := 0; incoming := [] |});
  write_all := λ w sock _, (w, Ok {| peer := peer sock; incoming := incoming sock ++ match incoming sock with [] => first | _ => [] end |});
  client_send := λ w q, (w, Ok (if bool_decide (req_url q = "https://a/1") then answer (req_url q) 302 (Some ("https://b/2" : rstr)) []
                              else if bool_decide (req_url q = "https://b/2") then answer (req_url q) 307 (Some ("https://a/3" : rstr)) []
                              else answer (req_url q) 200 None "body"));
  poll_aborted := λ w, (w, false) |}.
Definition net : Net unit := net_with [].
Definition start : Fetching unit := {| perm := perm_init; http1_conn := None; world := tt; sent := [] |}.
Definition sandboxed : Fetching unit := {|
  perm := allow bare_host (deny_all bare_host perm_init) Network Connect (Url "https://a/1"); http1_conn := None; world := tt; sent := [] |}.
Definition with_secret : FetchCall := {|
  is_url_alone := false; call_url := "https://a/1"; call_method := "POST";
  call_headers := <[("Cookie" : rstr) := ("s=1" : rstr)]> (<[("accept" : rstr) := ("*/*" : rstr)]> ∅); call_body := Some ("x" : rstr);
  call_content_type := "text/plain"; call_redirect := "follow"; call_integrity := []; call_mode := None |}.
Definition checked : FetchCall := {|
  is_url_alone := false; call_url := "https://a/3"; call_method := "GET"; call_headers := ∅; call_body := None;
  call_content_type := []; call_redirect := "follow"; call_integrity := "sha256-body"; call_mode := None |}.
End FetchToy.

(** In the sandbox with one address allowed, the redirect to the other is refused before it is requested. *)
Lemma hops_permitted_witness :
  req_url <$> sent (fetch_callback FetchToy.net FetchToy.with_secret FetchToy.sandboxed).1 = ["https://a/1" : rstr] ∧
  ∃ new, sent (fetch_callback FetchToy.net FetchToy.with_secret FetchToy.sandboxed).1 = [] ++ new ∧ length new ≤ 21.
Proof.
  split; [vm_compute; reflexivity|].
  destruct (hops_permitted FetchToy.net FetchToy.with_secret FetchToy.sandboxed _ _ (surjective_pairing _)) as (_ & new & H1 & _ & H2).
  exists new. split; [exact H1|]. exact H2.
Defined.
Lemma credentials_stay_home_witness :
  ∃ new, sent (fetch_callback FetchToy.net FetchToy.with_secret FetchToy.start).1 = [] ++ new ∧
    Forall (λ q, with_credentials (req_headers q) → home FetchToy.net "https://a/1" (req_url q)) new ∧
    (λ q, (req_url q, req_method q, dom (req_headers q))) <$> new =
      [("https://a/1" : rstr, POST, {[("accept" : rstr); ("content-type" : rstr); ("Cookie" : rstr)]});
       ("https://b/2" : rstr, GET, {[("accept" : rstr)]}); ("https://a/3" : rstr, GET, {[("accept" : rstr)]})].
Proof.
  destruct (credentials_stay_home FetchToy.net FetchToy.with_secret FetchToy.start _ _ (surjective_pairing _)) as (new & H1 & H2).
  exists new. split; [exact H1|]. split; [exact H2|]. cbn [sent FetchToy.start app] in H1. rewrite <-H1. vm_compute. reflexivity.
Defined.
Lemma integrity_enforced_witness :
  ∃ response bytes, (fetch_callback FetchToy.net FetchToy.checked FetchToy.start).2 = Ok response ∧
    body response = memory_body bytes ∧ listed_digest FetchToy.net bytes "sha256-body".
Proof.
  destruct (fetch_callback FetchToy.net FetchToy.checked FetchToy.start) as [s' [response|e]] eqn:E.
  - exists response. destruct (integrity_enforced FetchToy.net FetchToy.checked FetchToy.start s' response E eq_refl eq_refl ltac:(discriminate))
      as (bytes & H1 & H2). by exists bytes.
  - exfalso. apply (f_equal snd) in E. vm_compute in E. discriminate E.
Defined.

(** *** The framing of the kept-open socket *)
Definition sized_head : rstr := "HTTP/1.1 200 OK" ++ crlf ++ "Content-Length: 6" ++ crlf ++ crlf.
Definition sized_reads : reads := [Ok (take 9 sized_head); Ok (drop 9 sized_head ++ "bo"); Ok ("di" : rstr); Ok ("es" : rstr)].
Lemma http1_response_exact_witness :
  ∃ s' response, http1_keepalive_get (FetchToy.net_with sized_reads) "http://c/" FetchToy.start = (s', Ok response) ∧
    status response = 200%Z ∧ whole (body response) "bodies".
Proof.
  edestruct (http1_response_exact (FetchToy.net_with sized_reads) FetchToy.start "http://c/" "c" 80 "/" tt
    {| peer := 0; incoming := [] |} tt {| peer := 0; incoming := sized_reads |} sized_head "bodies") as (s' & response & H1 & H2 & H3).
  - reflexivity.
  - reflexivity.
  - reflexivity.
  - reflexivity.
  - repeat constructor; eexists; (split; [reflexivity|vm_compute; discriminate]).
  - vm_compute. reflexivity.
  - eexists. split; [vm_compute; reflexivity|]. split; [reflexivity|vm_compute; discriminate].
  - vm_compute. reflexivity.
  - exists s', response. split; [exact H1|]. split; [|exact H3]. injection H2 as -> _ _. vm_compute. reflexivity.
Defined.
(** A body without a length is taken to end with the bytes that came with the head.  The socket is kept, and
    the next request to the endpoint reads the rest of that body as its response. *)
Definition unsized_head : rstr := "HTTP/1.1 200 OK" ++ crlf ++ "Transfer-Encoding: chunked" ++ crlf ++ crlf.
Definition inner : rstr := "HTTP/1.1 404 Forged" ++ crlf ++ "Content-Length: 0" ++ crlf ++ crlf.
Definition smuggling : Net unit := FetchToy.net_with [Ok unsized_head; Ok inner].
Example body_without_length_is_cut :
  let '(s1, r1) := http1_keepalive_get smuggling "http://c/" FetchToy.start in
  let '(s2, r2) := http1_keepalive_get smuggling "http://c/" s1 in
  match r1, r2 with
  | Ok first, Ok second =>
      (read_to_end (body first)).2 = Ok [] ∧ status second = 404%Z ∧ status_text second = "Forged"
  | _, _ => False
  end.
Proof. vm_compute. done. Qed.
(** A method that is none of the seven is sent as [GET]. *)
Example other_methods_become_get : method_of "PROPFIND" = GET ∧ method_of "UNDEFINED" = GET.
Proof. done. Qed.
