(* ===== verification/Weights.v ===== *)
(** * Model weight files, [src/weights/mod.rs]

    The headers of GGUF and SafeTensors files, and [loadTensor], which cuts one
    tensor out of a file.  A file is its bytes; reading one can succeed, fail with a
    message, or take the process down ([Crashed]): the release profile aborts on
    a panic, a failed allocation and an exhausted stack.  How much memory can be
    had, how deep the stack is, serde_json's parser and its spelling of a float
    are parameters.  Theorems: a well-formed GGUF header is parsed
    to what was written; [loadTensor] answers with exactly the tensor's bytes;
    the loops over announced counts end with the file; and which files crash. *)

From S2P Require Import Prelude Bytes Json.

Record GGUFTensorInfo := {
  t_name : rstr;
  dimensions : list Z;
  dtype : rstr;
  dtype_id : Z;
  offset : Z;
  size_bytes : Z;
}.
Record GGUFMetadata := {
  gguf_version : Z;
  tensor_count : Z;
  metadata_kv_count : Z;
  metadata : gmap rstr Json;
  tensors : list GGUFTensorInfo;
  data_offset : Z;
}.
Record SafeTensorItem := {
  st_name : rstr;
  st_dtype : rstr;
  shape : list Z;
  data_offsets : Z * Z;
  st_size_bytes : Z;
}.
Record SafeTensorsMetadata := {
  header_size : Z;
  st_metadata : gmap rstr Json;
  st_tensors : list SafeTensorItem;
}.

Definition ggml_type_to_str (id : Z) : rstr :=
  match id with
  | 0 => "F32" | 1 => "F16" | 2 => "Q4_0" | 3 => "Q4_1" | 6 => "Q5_0" | 7 => "Q5_1" | 8 => "Q8_0"
  | 9 => "Q8_1" | 10 => "Q2_K" | 11 => "Q3_K" | 12 => "Q4_K" | 13 => "Q5_K" | 14 => "Q6_K"
  | 15 => "Q8_K" | 16 => "IQ2_XXS" | 17 => "IQ2_XS" | 18 => "IQ3_XXS" | 19 => "IQ1_S"
  | 20 => "IQ4_NL" | 21 => "IQ3_S" | 22 => "IQ2_S" | 23 => "IQ4_XS" | 24 => "I8" | 25 => "I16"
  | 26 => "I32" | 27 => "I64" | 28 => "F64" | 29 => "IQ1_M" | 30 => "BF16"
  | _ => "UNKNOWN"
  end%Z.

(** ** The two conversions through [f64]

    Everything in [(total as f64 * size).ceil() as u64] is a whole number of
    sixteenths below 2^72, so a double is that number with 53 bits kept. *)
Definition ggml_type_sixteenths (id : Z) : Z :=
  match id with
  | 0 => 64 | 1 => 32 | 2 => 9 | 8 => 17 | 24 => 16 | 25 => 32 | 26 => 64 | 27 => 128 | 28 => 128
  | 30 => 32 | _ => 16
  end%Z.
(** Rounding to 53 bits, ties to even. *)
Definition round53 (n : Z) : Z :=
  if bool_decide (n < 2 ^ 53)%Z then n
  else let k := (Z.log2 n - 52)%Z in
       let q := (n / 2 ^ k)%Z in
       let r := (n mod 2 ^ k)%Z in
       let up := bool_decide (2 ^ (k - 1) < r)%Z || (bool_decide (r = 2 ^ (k - 1))%Z && Z.odd q) in
       ((if up then q + 1 else q) * 2 ^ k)%Z.
Definition u64_max : Z := U64_MOD - 1.
Definition tensor_size (total_elements dtype_id : Z) : Z :=
  let sixteenths := round53 (round53 total_elements * ggml_type_sixteenths dtype_id) in
  Z.min ((sixteenths + 15) / 16) u64_max.
Definition saturating_mul (a b : Z) : Z := Z.min (a * b) u64_max.
Definition saturating_sub (a b : Z) : Z := Z.max (a - b) 0.

(** [f32 as f64] on the bits of a finite number. *)
Definition widen_f32 (bits : Z) : Z :=
  let s := (bits / 2 ^ 31)%Z in
  let e := (bits / 2 ^ 23 mod 2 ^ 8)%Z in
  let m := (bits mod 2 ^ 23)%Z in
  (s * 2 ^ 63 +
   if bool_decide (e = 0)%Z then
     if bool_decide (m = 0)%Z then 0
     else let k := Z.log2 m in (k - 149 + 1023) * 2 ^ 52 + (m - 2 ^ k) * 2 ^ (52 - k)
   else (e - 127 + 1023) * 2 ^ 52 + m * 2 ^ 29)%Z.

(** ** Reading *)

(** A reader takes the bytes left and leaves others. *)
Definition R (A : Type) : Type := rstr → outcome (A * rstr).
#[export] Instance R_ret : MRet R := λ A a s, Done (a, s).
#[export] Instance R_bind : MBind R := λ A B f m s,
  match m s with Done (a, s) => f a s | Failed e => Failed e | Crashed => Crashed end.
Definition fail {A} (e : rstr) : R A := λ _, Failed e.
Definition crash {A} : R A := λ _, Crashed.
Definition read_exact (n : Z) (e : rstr) : R rstr := λ s,
  if bool_decide (n ≤ Z.of_nat (length s))%Z then Done (take (Z.to_nat n) s, drop (Z.to_nat n) s) else Failed e.
(** [from_le_bytes], and the signed reading of [w] bits. *)
Definition signed (w z : Z) : Z := if bool_decide (z < 2 ^ (w - 1))%Z then z else (z - 2 ^ w)%Z.
Definition read_le (n : Z) (e : rstr) : R Z := b ← read_exact n e; mret (from_le_bytes b).

(** [for _ in 0..n].  Every round of every such loop reads a byte or fails, so that
    no more rounds than bytes are ever completed ([times_exact]). *)
Fixpoint rep {A} (k : nat) (m : R A) : R (list A) :=
  match k with 0 => mret [] | S k => x ← m; xs ← rep k m; mret (x :: xs) end.
Definition times {A} (n : Z) (m : R A) : R (list A) := λ s,
  rep (Z.to_nat (Z.min n (Z.of_nat (S (length s))))) m s.

(** The decimal spelling of an integer. *)
Definition int_text (z : Z) : rstr := if bool_decide (z < 0)%Z then "-" ++ dec (Z.to_N (- z)) else dec (Z.to_N z).

Section weights.
Context (alloc : Z → bool) (f64_text : Z → rstr) (from_str : rstr → option Json).

Definition read_gguf_string : R rstr :=
  len ← read_le 8 "Failed to read string length: ";
  if negb (alloc len) then crash
  else
    str_bytes ← read_exact len "Failed to read string bytes: ";
    if utf8_valid str_bytes then mret str_bytes else fail "Invalid UTF-8 string: ".

Definition int_value (n : Z) (conv : Z → Z) : R Json :=
  z ← read_le n []; mret (JNumber (int_text (conv z))).
Definition f64_value (bits : Z) : Json :=
  if bool_decide (bits / 2 ^ 52 mod 2 ^ 11 = 2047)%Z then JNull else JNumber (f64_text bits).
Definition f32_value (bits : Z) : Json :=
  if bool_decide (bits / 2 ^ 23 mod 2 ^ 8 = 255)%Z then JNull else JNumber (f64_text (widen_f32 bits)).

(** [stack] calls fit on the stack. *)
Fixpoint read_gguf_typed_value (stack : nat) (type_id : Z) : R Json :=
  match stack with
  | 0 => crash
  | S stack =>
      match type_id with
      | 0 => int_value 1 id
      | 1 => int_value 1 (signed 8)
      | 2 => int_value 2 id
      | 3 => int_value 2 (signed 16)
      | 4 => int_value 4 id
      | 5 => int_value 4 (signed 32)
      | 6 => bits ← read_le 4 []; mret (f32_value bits)
      | 7 => b ← read_le 1 []; mret (JBool (negb (bool_decide (b = 0)%Z)))
      | 8 => s ← read_gguf_string; mret (JString s)
      | 9 =>
          elem_type ← read_le 4 [];
          count ← read_le 8 [];
          arr ← times count (read_gguf_typed_value stack elem_type);
          mret (JArray arr)
      | 10 => int_value 8 id
      | 11 => int_value 8 (signed 64)
      | 12 => bits ← read_le 8 []; mret (f64_value bits)
      | _ => fail ("Unknown GGUF metadata type ID: " ++ int_text type_id)
      end%Z
  end.
Definition read_gguf_value (stack : nat) : R Json :=
  type_id ← read_le 4 "Failed to read value type: "; read_gguf_typed_value stack type_id.

(** One metadata entry and one tensor record. *)
Definition read_kv (stack : nat) : R (rstr * Json) :=
  key ← read_gguf_string; val ← read_gguf_value stack; mret (key, val).
Definition read_tensor : R GGUFTensorInfo :=
  name ← read_gguf_string;
  n_dimensions ← read_le 4 "Failed to read n_dimensions: ";
  if negb (alloc (8 * n_dimensions)) then crash
  else
    dimensions ← times n_dimensions (read_le 8 "Failed to read dimension: ");
    dtype_id ← read_le 4 "Failed to read tensor type: ";
    offset ← read_le 8 "Failed to read tensor offset: ";
    let total_elements := fold_left saturating_mul dimensions 1%Z in
    mret {| t_name := name; dimensions := dimensions; dtype := ggml_type_to_str dtype_id;
            dtype_id := dtype_id; offset := offset; size_bytes := tensor_size total_elements dtype_id |}.

Definition alignment_of (metadata : gmap rstr Json) : Z :=
  (v ← metadata !! ("general.alignment" : rstr); as_u64 v) .unwrap_or 32%Z.
Definition insert_all (kvs : list (rstr * Json)) : gmap rstr Json :=
  fold_left (λ m kv, <[kv.1 := kv.2]> m) kvs ∅.

(** The end of [parse_gguf_file]: where the data starts; a remainder by zero is a
    panic. *)
Definition align_up (alignment current_pos : Z) : Z :=
  let remainder := (current_pos mod alignment)%Z in
  if bool_decide (remainder ≠ 0)%Z then wrap_u64 (current_pos + (alignment - remainder)) else current_pos.
Definition finish (file : rstr) (version tensor_count metadata_kv_count : Z) (metadata : gmap rstr Json)
    (tensors : list GGUFTensorInfo) : R GGUFMetadata := λ rest,
  let current_pos := (Z.of_nat (length file) - Z.of_nat (length rest))%Z in
  if bool_decide (alignment_of metadata = 0)%Z then Crashed
  else Done ({| gguf_version := version; tensor_count := tensor_count;
                metadata_kv_count := metadata_kv_count; metadata := metadata; tensors := tensors;
                data_offset := align_up (alignment_of metadata) current_pos |}, rest).
(** [parse_gguf_file] on the bytes of the file. *)
Definition parse_gguf_file (stack : nat) (file : rstr) : outcome GGUFMetadata :=
  let read : R GGUFMetadata :=
    magic ← read_exact 4 "Failed to read magic: ";
    if negb (bool_decide (magic = ("GGUF" : rstr))) then fail "Invalid GGUF magic: expected 'GGUF', got "
    else
      version ← read_le 4 "Failed to read version: ";
      if bool_decide (version < 2 ∨ 3 < version)%Z then fail ("Unsupported GGUF version: " ++ int_text version)
      else
        tensor_count ← read_le 8 "Failed to read tensor_count: ";
        metadata_kv_count ← read_le 8 "Failed to read metadata_kv_count: ";
        kvs ← times metadata_kv_count (read_kv stack);
        let metadata := insert_all kvs in
        if negb (alloc (96 * tensor_count)) then crash
        else
          tensors ← times tensor_count read_tensor;
          finish file version tensor_count metadata_kv_count metadata tensors in
  match read file with Done (m, _) => Done m | Failed e => Failed e | Crashed => Crashed end.

(** ** SafeTensors *)

Definition two_u64 (v : Json) : option (Z * Z) :=
  match v with
  | JArray [a; b] => start ← as_u64 a; end_ ← as_u64 b; Some (start, end_)
  | _ => None
  end.
Definition safe_tensor (name : rstr) (obj : list (rstr * Json)) : SafeTensorItem :=
  let dtype := (map_get obj "dtype" ≫= as_str) .unwrap_or ("F32" : rstr) in
  let shape := match map_get obj "shape" with Some (JArray l) => omap as_u64 l | _ => [] end in
  let offsets := (map_get obj "data_offsets" ≫= two_u64) .unwrap_or (0%Z, 0%Z) in
  {| st_name := name; st_dtype := dtype; shape := shape; data_offsets := offsets;
     st_size_bytes := saturating_sub offsets.2 offsets.1 |}.
Definition safe_entry (kv : rstr * Json) : option SafeTensorItem :=
  if bool_decide (kv.1 = ("__metadata__" : rstr)) then None
  else match kv.2 with JObject obj => Some (safe_tensor kv.1 obj) | _ => None end.
Definition safe_metadata (obj : list (rstr * Json)) : gmap rstr Json :=
  fold_left (λ m kv, if bool_decide (kv.1 = ("__metadata__" : rstr))
                     then match kv.2 with
                          | JObject entries => fold_left (λ m e, <[e.1 := e.2]> m) entries m
                          | _ => m
                          end
                     else m) obj ∅.
Definition parse_safetensors_file (file : rstr) : outcome SafeTensorsMetadata :=
  let read : R SafeTensorsMetadata :=
    header_size ← read_le 8 "Failed to read header size: ";
    if bool_decide (100 * 1024 * 1024 < header_size)%Z then fail ("SafeTensors header size too large ("
      ++ int_text header_size ++ " bytes)")
    else if negb (alloc header_size) then crash
    else
      header_bytes ← read_exact header_size "Failed to read header JSON: ";
      if negb (utf8_valid header_bytes) then fail "SafeTensors header is not valid UTF-8: "
      else match from_str header_bytes with
           | None => fail "Failed to parse SafeTensors header JSON: "
           | Some (JObject obj) =>
               mret {| header_size := header_size; st_metadata := safe_metadata obj;
                       st_tensors := omap safe_entry obj |}
           | Some _ => fail "SafeTensors header root must be an object"
           end in
  match read file with Done (m, _) => Done m | Failed e => Failed e | Crashed => Crashed end.

(** ** [weights.loadTensor] *)

Record Tensor := { tensor_name : rstr; tensor_dtype : rstr; tensor_shape : list Z; buffer : rstr; byte_length : Z }.
(** [&mmap[start..end]], a panic when the range is not one. *)
Definition slice (file : rstr) (start end_ : Z) : outcome rstr :=
  if bool_decide (start ≤ end_ ∧ end_ ≤ Z.of_nat (length file))%Z
  then Done (take (Z.to_nat (end_ - start)) (drop (Z.to_nat start) file)) else Crashed.
Definition load_range (file : rstr) (start end_ : Z) (too_far : rstr) (answer : rstr → Tensor) : outcome Tensor :=
  if bool_decide (Z.of_nat (length file) < end_)%Z then Failed too_far
  else match slice file start end_ with
       | Done bytes => Done (answer bytes) | Failed e => Failed e | Crashed => Crashed end.
Definition load_tensor (stack : nat) (file name : rstr) : outcome Tensor :=
  if starts_with "GGUF" file then
    match parse_gguf_file stack file with
    | Failed e => Failed e
    | Crashed => Crashed
    | Done meta =>
        match head (filter (λ t, t_name t = name) (tensors meta)) with
        | None => Failed ("Tensor '" ++ name ++ "' not found in GGUF file")
        | Some t =>
            let start := wrap_u64 (data_offset meta + offset t) in
            let end_ := wrap_u64 (start + size_bytes t) in
            load_range file start end_ "Tensor byte range exceeds file bounds" (λ bytes,
              {| tensor_name := t_name t; tensor_dtype := dtype t; tensor_shape := dimensions t;
                 buffer := bytes; byte_length := size_bytes t |})
        end
    end
  else
    match parse_safetensors_file file with
    | Failed e => Failed e
    | Crashed => Crashed
    | Done meta =>
        match head (filter (λ t, st_name t = name) (st_tensors meta)) with
        | None => Failed ("Tensor '" ++ name ++ "' not found in SafeTensors file")
        | Some t =>
            let data_base := (8 + header_size meta)%Z in
            let start := wrap_u64 (data_base + (data_offsets t).1) in
            let end_ := wrap_u64 (data_base + (data_offsets t).2) in
            load_range file start end_ "Tensor offset exceeds file length" (λ bytes,
              {| tensor_name := st_name t; tensor_dtype := st_dtype t; tensor_shape := shape t;
                 buffer := bytes; byte_length := st_size_bytes t |})
        end
    end.
End weights.

(** ** The format *)

Definition str_bytes (s : rstr) : rstr := le_bytes 8 (Z.of_nat (length s)) ++ s.

(** Metadata values, with the type number of the format where it is not fixed. *)
Inductive gval :=
  | GInt (ty z : Z)
  | GF32 (bits : Z)
  | GBool (b : bool)
  | GStr (s : rstr)
  | GArr (elem : Z) (l : list gval)
  | GF64 (bits : Z).
Definition gtype (v : gval) : Z :=
  match v with
  | GInt ty _ => ty | GF32 _ => 6 | GBool _ => 7 | GStr _ => 8 | GArr _ _ => 9 | GF64 _ => 12
  end.
(** Bytes and sign of an integer type. *)
Definition int_kind (ty : Z) : option (nat * bool) :=
  match ty with
  | 0%Z => Some (1, false) | 1%Z => Some (1, true) | 2%Z => Some (2, false) | 3%Z => Some (2, true)
  | 4%Z => Some (4, false) | 5%Z => Some (4, true) | 10%Z => Some (8, false) | 11%Z => Some (8, true)
  | _ => None
  end.
Definition kind_range (w : nat) (sg : bool) (z : Z) : Prop :=
  let m := (2 ^ (8 * Z.of_nat w))%Z in
  if sg then (- m ≤ 2 * z < m)%Z else (0 ≤ z < m)%Z.
Fixpoint payload (v : gval) : rstr :=
  match v with
  | GInt ty z => match int_kind ty with
                 | Some (w, _) => le_bytes w (z mod 2 ^ (8 * Z.of_nat w)) | None => [] end
  | GF32 bits => le_bytes 4 bits
  | GBool b => [if b then "001"%char else "000"%char]
  | GStr s => str_bytes s
  | GArr elem l => le_bytes 4 elem ++ le_bytes 8 (Z.of_nat (length l)) ++ concat (map payload l)
  | GF64 bits => le_bytes 8 bits
  end.

Record GTensor := { g_name : rstr; g_dims : list Z; g_type : Z; g_offset : Z }.
Record GFile := { g_version : Z; g_kvs : list (rstr * gval); g_tensors : list GTensor }.
Definition kv_bytes (kv : rstr * gval) : rstr := str_bytes kv.1 ++ le_bytes 4 (gtype kv.2) ++ payload kv.2.
Definition tensor_bytes (t : GTensor) : rstr :=
  str_bytes (g_name t) ++ le_bytes 4 (Z.of_nat (length (g_dims t))) ++ concat (map (le_bytes 8) (g_dims t))
  ++ le_bytes 4 (g_type t) ++ le_bytes 8 (g_offset t).
Definition header_bytes (f : GFile) : rstr :=
  "GGUF" ++ le_bytes 4 (g_version f) ++ le_bytes 8 (Z.of_nat (length (g_tensors f)))
  ++ le_bytes 8 (Z.of_nat (length (g_kvs f))) ++ concat (map kv_bytes (g_kvs f))
  ++ concat (map tensor_bytes (g_tensors f)).

Section format.
Context (alloc : Z → bool) (f64_text : Z → rstr).
(** What a value is read as. *)
Fixpoint view (v : gval) : Json :=
  match v with
  | GInt _ z => JNumber (int_text z)
  | GF32 bits => f32_value f64_text bits
  | GBool b => JBool b
  | GStr s => JString s
  | GArr _ l => JArray (map view l)
  | GF64 bits => f64_value f64_text bits
  end.
Definition wf_string (s : rstr) : Prop :=
  utf8_valid s = true ∧ (Z.of_nat (length s) < 2 ^ 64)%Z ∧ alloc (Z.of_nat (length s)) = true.
(** A value in the ranges of its types, nested less deep than the stack. *)
Inductive wf_val : nat → gval → Prop :=
  | wf_int d ty z w sg : int_kind ty = Some (w, sg) → kind_range w sg z → wf_val (S d) (GInt ty z)
  | wf_f32 d bits : (0 ≤ bits < 2 ^ 32)%Z → wf_val (S d) (GF32 bits)
  | wf_bool d b : wf_val (S d) (GBool b)
  | wf_str d s : wf_string s → wf_val (S d) (GStr s)
  | wf_arr d elem l :
      (0 ≤ elem < 2 ^ 32)%Z → (Z.of_nat (length l) < 2 ^ 64)%Z →
      Forall (λ v, gtype v = elem ∧ wf_val d v) l → wf_val (S d) (GArr elem l)
  | wf_f64 d bits : (0 ≤ bits < 2 ^ 64)%Z → wf_val (S d) (GF64 bits).
Definition wf_tensor (t : GTensor) : Prop :=
  wf_string (g_name t) ∧ (Z.of_nat (length (g_dims t)) < 2 ^ 32)%Z ∧
  alloc (8 * Z.of_nat (length (g_dims t))) = true ∧ Forall (λ d, 0 ≤ d < 2 ^ 64)%Z (g_dims t) ∧
  (0 ≤ g_type t < 2 ^ 32)%Z ∧ (0 ≤ g_offset t < 2 ^ 64)%Z.
Record wf_file (stack : nat) (f : GFile) : Prop := {
  wf_version : (2 ≤ g_version f ≤ 3)%Z;
  wf_kvs : Forall (λ kv, wf_string kv.1 ∧ wf_val stack kv.2) (g_kvs f);
  wf_tensors : Forall wf_tensor (g_tensors f);
  wf_kv_count : (Z.of_nat (length (g_kvs f)) < 2 ^ 64)%Z;
  wf_tensor_count : (Z.of_nat (length (g_tensors f)) < 2 ^ 64)%Z;
  wf_room : alloc (96 * Z.of_nat (length (g_tensors f))) = true;
}.
Definition info (t : GTensor) : GGUFTensorInfo := {|
  t_name := g_name t; dimensions := g_dims t; dtype := ggml_type_to_str (g_type t);
  dtype_id := g_type t; offset := g_offset t;
  size_bytes := tensor_size (fold_left saturating_mul (g_dims t) 1%Z) (g_type t) |}.
Definition meta_of (f : GFile) : gmap rstr Json := insert_all ((λ kv, (kv.1, view kv.2)) <$> g_kvs f).
End format.

(** ** Reading what was written *)

Definition reads {A} (m : R A) (s : rstr) (a : A) : Prop := ∀ rest, m (s ++ rest) = Done (a, rest).
Lemma reads_ret {A} (a : A) : reads (mret a) [] a.
Proof. done. Qed.
Lemma reads_bind {A B} (m : R A) (f : A → R B) s1 s2 a b :
  reads m s1 a → reads (f a) s2 b → reads (m ≫= f) (s1 ++ s2) b.
Proof. intros H1 H2 rest. unfold mbind, R_bind. rewrite <-app_assoc, H1. apply H2. Qed.
Lemma reads_last {A B} (m : R A) (g : A → B) s a : reads m s a → reads (x ← m; mret (g x)) s (g a).
Proof. intros H. rewrite <-(app_nil_r s). eapply reads_bind; [exact H|apply reads_ret]. Qed.
Lemma reads_exact s e n : n = Z.of_nat (length s) → reads (read_exact n e) s s.
Proof.
  intros -> rest. unfold read_exact. rewrite bool_decide_eq_true_2 by (rewrite length_app; lia).
  by rewrite Nat2Z.id, take_app_length, drop_app_length.
Qed.
Lemma reads_le n z e :
  (0 ≤ z < 2 ^ (8 * Z.of_nat n))%Z → reads (read_le (Z.of_nat n) e) (le_bytes n z) z.
Proof.
  intros Hz. unfold read_le. rewrite <-(from_le_le_bytes n z) at 2.
  - apply (reads_last _ from_le_bytes), reads_exact. by rewrite length_le_bytes.
  - replace (256 ^ Z.of_nat n)%Z with (2 ^ (8 * Z.of_nat n))%Z; [done|]. by rewrite Z.pow_mul_r by lia.
Qed.
Lemma rep_reads {A X} (m : R A) (enc : X → rstr) (dec : X → A) (l : list X) :
  Forall (λ x, reads m (enc x) (dec x)) l → reads (rep (length l) m) (concat (map enc l)) (map dec l).
Proof.
  induction 1 as [|x l Hx _ IH]; [apply reads_ret|]. cbn [length rep map concat].
  eapply reads_bind; [exact Hx|]. rewrite <-(app_nil_r (concat _)). eapply reads_bind; [exact IH|apply reads_ret].
Qed.
Lemma length_concat_ge {X} (enc : X → rstr) (l : list X) :
  Forall (λ x, enc x ≠ []) l → length l ≤ length (concat (map enc l)).
Proof.
  induction 1 as [|x l Hx _ IH]; [done|]. cbn [length map concat]. rewrite length_app.
  destruct (enc x); [done|]. simpl. lia.
Qed.
Lemma reads_times {A X} (m : R A) (enc : X → rstr) (dec : X → A) (l : list X) :
  Forall (λ x, reads m (enc x) (dec x) ∧ enc x ≠ []) l →
  reads (times (Z.of_nat (length l)) m) (concat (map enc l)) (map dec l).
Proof.
  intros H rest. unfold times. apply Forall_and in H as [Hr Hne]. apply length_concat_ge in Hne.
  rewrite Z.min_l by (rewrite length_app; lia). rewrite Nat2Z.id. by apply rep_reads.
Qed.

Section round_trip.
Context (alloc : Z → bool) (f64_text : Z → rstr).
Lemma reads_string s : wf_string alloc s → reads (read_gguf_string alloc) (str_bytes s) s.
Proof.
  intros (Hu & Hl & Ha). unfold read_gguf_string, str_bytes. eapply reads_bind.
  { apply (reads_le 8). split; [lia|exact Hl]. }
  rewrite Ha. cbn [negb]. rewrite <-(app_nil_r s) at 2.
  eapply reads_bind; [by apply reads_exact|]. rewrite Hu. apply reads_ret.
Qed.
Lemma kind_mod w z :
  (0 ≤ z mod 2 ^ (8 * Z.of_nat w) < 2 ^ (8 * Z.of_nat w))%Z.
Proof. apply Z.mod_pos_bound. by apply Z.pow_pos_nonneg; lia. Qed.
Lemma signed_mod w z : kind_range w true z → (0 < w) → signed (8 * Z.of_nat w) (z mod 2 ^ (8 * Z.of_nat w)) = z.
Proof.
  unfold kind_range, signed. set (W := (8 * Z.of_nat w)%Z). intros Hz Hw.
  assert (2 ^ W = 2 * 2 ^ (W - 1))%Z as HW by (rewrite <-Z.pow_succ_r by lia; f_equal; lia).
  destruct (Z_lt_le_dec z 0) as [Hn|Hn].
  - assert (z mod 2 ^ W = z + 2 ^ W)%Z as ->.
    { symmetry. apply (Z.mod_unique _ _ (-1)); lia. }
    rewrite bool_decide_eq_false_2 by lia. lia.
  - rewrite Z.mod_small by lia. by rewrite bool_decide_eq_true_2 by lia.
Qed.
Lemma reads_int w z (conv : Z → Z) :
  conv (z mod 2 ^ (8 * Z.of_nat w))%Z = z →
  reads (int_value (Z.of_nat w) conv) (le_bytes w (z mod 2 ^ (8 * Z.of_nat w))) (JNumber (int_text z)).
Proof.
  intros Hc. unfold int_value. rewrite <-Hc at 2.
  apply (reads_last _ (λ z, JNumber (int_text (conv z)))), reads_le, kind_mod.
Qed.
Lemma int_kind_pos ty w sg : int_kind ty = Some (w, sg) → 0 < w.
Proof. unfold int_kind. repeat case_match; intros; simplify_eq; lia. Qed.
Lemma payload_not_nil d v : wf_val alloc d v → payload v ≠ [].
Proof.
  intros H E. apply (f_equal length) in E. revert E. destruct H; cbn [payload].
  - rewrite H, length_le_bytes. apply int_kind_pos in H. simpl. lia.
  - by rewrite length_le_bytes.
  - done.
  - unfold str_bytes. by rewrite length_app, length_le_bytes.
  - by rewrite !length_app, !length_le_bytes.
  - by rewrite length_le_bytes.
Qed.
Lemma reads_value stack v :
  wf_val alloc stack v → reads (read_gguf_typed_value alloc f64_text stack (gtype v)) (payload v) (view f64_text v).
Proof.
  revert v. induction stack as [|stack IH]; intros v Hv; inversion Hv as
    [? ty z w sg Hk Hr|? bits Hb|? b|? s Hs|? elem l He Hl Hall|? bits Hb]; subst;
    cbn [read_gguf_typed_value gtype payload view].
  - rewrite Hk. destruct ty as [|p|p]; [|repeat (destruct p as [p|p|]; try discriminate Hk)|discriminate Hk];
      simplify_eq/=;
      first [apply (reads_int 1)|apply (reads_int 2)|apply (reads_int 4)|apply (reads_int 8)];
      first [by apply Z.mod_small|apply (signed_mod 1); [done|lia]|apply (signed_mod 2); [done|lia]
            |apply (signed_mod 4); [done|lia]|apply (signed_mod 8); [done|lia]].
  - by apply (reads_last _ (f32_value f64_text)), (reads_le 4).
  - replace [if b then "001"%char else "000"%char] with (le_bytes 1 (if b then 1 else 0)%Z) by (by destruct b).
    replace (JBool b) with (JBool (negb (bool_decide ((if b then 1 else 0) = 0)%Z))) by (by destruct b).
    apply (reads_last _ (λ z, JBool (negb (bool_decide (z = 0%Z))))), (reads_le 1). by destruct b.
  - by apply (reads_last _ JString), reads_string.
  - eapply reads_bind; [by apply (reads_le 4)|]. eapply reads_bind; [apply (reads_le 8); lia|].
    apply (reads_last _ JArray), reads_times. eapply Forall_impl; [exact Hall|].
    intros v' [<- Hv']. split; [by apply IH|by eapply payload_not_nil].
  - by apply (reads_last _ (f64_value f64_text)), (reads_le 8).
Qed.
Lemma reads_kv stack kv :
  wf_string alloc kv.1 → wf_val alloc stack kv.2 →
  reads (read_kv alloc f64_text stack) (kv_bytes kv) (kv.1, view f64_text kv.2).
Proof.
  intros Hk Hv. unfold read_kv, kv_bytes. eapply reads_bind; [by apply reads_string|].
  apply (reads_last _ (pair kv.1)). unfold read_gguf_value. eapply reads_bind; [|by apply reads_value].
  apply (reads_le 4). destruct Hv as [d ty z w sg Hk' _| | | | |]; try done. cbn [gtype].
  revert Hk'. unfold int_kind. repeat case_match; intros; simplify_eq; lia.
Qed.
Lemma reads_tensor t : wf_tensor alloc t → reads (read_tensor alloc) (tensor_bytes t) (info t).
Proof.
  intros (Hn & Hl & Ha & Hd & Ht & Ho). unfold read_tensor, tensor_bytes.
  eapply reads_bind; [by apply reads_string|]. eapply reads_bind; [apply (reads_le 4); lia|].
  rewrite Ha. cbn [negb]. eapply reads_bind.
  { apply (reads_times _ (le_bytes 8) id). eapply Forall_impl; [exact Hd|]. intros d Hd'.
    split; [by apply (reads_le 8)|]. done. }
  rewrite map_id. eapply reads_bind; [by apply (reads_le 4)|].
  rewrite <-(app_nil_r (le_bytes 8 _)). eapply reads_bind; [by apply (reads_le 8)|apply reads_ret].
Qed.
Lemma align_up_spec a pos :
  (0 < a)%Z → (0 ≤ pos)%Z → (pos + a < 2 ^ 64)%Z → (a | align_up a pos)%Z ∧ (pos ≤ align_up a pos < pos + a)%Z.
Proof.
  intros Ha Hp Hl. unfold align_up. pose proof (Z.mod_pos_bound pos a Ha) as Hm.
  case_bool_decide as E.
  - rewrite wrap_u64_id by (unfold in_u64, U64_MOD; lia). split; [|lia].
    exists (pos / a + 1)%Z. pose proof (Z.div_mod pos a ltac:(lia)). lia.
  - split; [apply Z.mod_divide; lia|lia].
Qed.
Lemma str_bytes_not_nil s t : str_bytes s ++ t ≠ [].
Proof. done. Qed.

(** Reading the header leaves the data, and [finish] says where it starts. *)
Lemma parse_header stack f data :
  wf_file alloc stack f →
  parse_gguf_file alloc f64_text stack (header_bytes f ++ data) =
  match finish (header_bytes f ++ data) (g_version f) (Z.of_nat (length (g_tensors f)))
          (Z.of_nat (length (g_kvs f))) (meta_of f64_text f) (info <$> g_tensors f) data with
  | Done (m, _) => Done m | Failed e => Failed e | Crashed => Crashed
  end.
Proof.
  intros [Hv Hkv Ht Hnk Hnt Hroom]. unfold parse_gguf_file. set (file := header_bytes f ++ data) at 1 3.
  cbn zeta. unfold header_bytes. rewrite <-!app_assoc.
  assert (∀ {A B} (m : R A) (g : A → R B) s a rest, reads m s a → (m ≫= g) (s ++ rest) = g a rest) as Hstep.
  { intros A B m g s a rest H. unfold mbind, R_bind. by rewrite H. }
  rewrite (Hstep _ _ _ _ ("GGUF" : rstr) ("GGUF" : rstr)) by (by apply reads_exact). rewrite bool_decide_eq_true_2 by done. cbn [negb].
  erewrite Hstep by (apply (reads_le 4); lia). rewrite bool_decide_eq_false_2 by lia.
  erewrite Hstep by (apply (reads_le 8); lia). erewrite Hstep by (apply (reads_le 8); lia).
  erewrite Hstep; [|apply (reads_times _ kv_bytes (λ kv, (kv.1, view f64_text kv.2)))].
  2:{ eapply Forall_impl; [exact Hkv|]. intros kv [Hk Hval]. split; [by apply reads_kv|apply str_bytes_not_nil]. }
  rewrite Hroom. cbn [negb].
  erewrite Hstep; [|apply (reads_times _ tensor_bytes info)]; [done|].
  eapply Forall_impl; [exact Ht|]. intros t Hwt. split; [by apply reads_tensor|apply str_bytes_not_nil].
Qed.
End round_trip.

(** ** Properties *)

(** C39. A GGUF header written as the format says, whatever data follows it, is read
    back: the version, every metadata value (integers at their width and sign,
    strings, nested arrays), every tensor with its dimensions, type, offset and size,
    and the data start at the first multiple of the alignment after the header. *)
Theorem gguf_round_trip alloc f64_text stack f data :
  wf_file alloc stack f →
  let meta := meta_of f64_text f in
  (0 < alignment_of meta)%Z → (Z.of_nat (length (header_bytes f)) + alignment_of meta < 2 ^ 64)%Z →
  parse_gguf_file alloc f64_text stack (header_bytes f ++ data) = Done {|
    gguf_version := g_version f; tensor_count := Z.of_nat (length (g_tensors f));
    metadata_kv_count := Z.of_nat (length (g_kvs f)); metadata := meta;
    tensors := info <$> g_tensors f;
    data_offset := align_up (alignment_of meta) (Z.of_nat (length (header_bytes f))) |} ∧
  (alignment_of meta | align_up (alignment_of meta) (Z.of_nat (length (header_bytes f))))%Z ∧
  (Z.of_nat (length (header_bytes f)) ≤ align_up (alignment_of meta) (Z.of_nat (length (header_bytes f)))
     < Z.of_nat (length (header_bytes f)) + alignment_of meta)%Z.
Proof.
  intros Hwf meta Ha Hlen. rewrite parse_header by done. unfold finish. fold meta.
  rewrite length_app. replace (Z.of_nat _ - _)%Z with (Z.of_nat (length (header_bytes f))) by lia.
  rewrite bool_decide_eq_false_2 by lia. split; [done|]. apply align_up_spec; lia.
Qed.

(** *** The loops end with the file *)

Definition consuming {A} (m : R A) : Prop := ∀ s a s', m s = Done (a, s') → length s' < length s.
(** A reader that never gives bytes back. *)
Definition forward {A} (m : R A) : Prop := ∀ s a s', m s = Done (a, s') → length s' ≤ length s.
Lemma R_bind_done {A B} (m : R A) (f : A → R B) s r :
  (m ≫= f) s = Done r → ∃ a s1, m s = Done (a, s1) ∧ f a s1 = Done r.
Proof. unfold mbind, R_bind. destruct (m s) as [[a s1]| |]; [eauto|done|done]. Qed.
Lemma consuming_forward {A} (m : R A) : consuming m → forward m.
Proof. intros H s a s' E. apply H in E. lia. Qed.
Lemma forward_ret {A} (a : A) : forward (mret a).
Proof. by intros s b s' [= <- <-]. Qed.
Lemma forward_fail {A} e : forward (fail e : R A).
Proof. done. Qed.
Lemma forward_crash {A} : forward (crash : R A).
Proof. done. Qed.
Lemma forward_exact n e : forward (read_exact n e).
Proof. intros s a s'. unfold read_exact. case_bool_decide; intros [= <- <-]. rewrite length_drop. lia. Qed.
Lemma consuming_exact n e : (0 < n)%Z → consuming (read_exact n e).
Proof. intros Hn s a s'. unfold read_exact. case_bool_decide; intros [= <- <-]. rewrite length_drop. lia. Qed.
Lemma forward_bind {A B} (m : R A) (f : A → R B) : forward m → (∀ a, forward (f a)) → forward (m ≫= f).
Proof. intros Hm Hf s b s' (a & s1 & H1 & H2)%R_bind_done. apply Hm in H1. apply Hf in H2. lia. Qed.
Lemma consuming_bind {A B} (m : R A) (f : A → R B) : consuming m → (∀ a, forward (f a)) → consuming (m ≫= f).
Proof. intros Hm Hf s b s' (a & s1 & H1 & H2)%R_bind_done. apply Hm in H1. apply Hf in H2. lia. Qed.
Lemma consuming_le n e : (0 < n)%Z → consuming (read_le n e).
Proof. intros Hn. apply consuming_bind; [by apply consuming_exact|intros; apply forward_ret]. Qed.
Lemma forward_rep {A} k (m : R A) : forward m → forward (rep k m).
Proof.
  intros Hm. induction k; [apply forward_ret|]. apply forward_bind; [done|intros x].
  apply forward_bind; [done|intros xs; apply forward_ret].
Qed.
Lemma forward_times {A} n (m : R A) : forward m → forward (times n m).
Proof. intros Hm s. by apply forward_rep. Qed.
Create HintDb readers.
#[export] Hint Resolve consuming_forward forward_ret forward_fail forward_crash forward_exact
  forward_times : readers.
#[export] Hint Extern 1 (consuming (read_le _ _)) => apply consuming_le; lia : readers.
#[export] Hint Extern 1 (consuming (read_exact _ _)) => apply consuming_exact; lia : readers.
Ltac readers :=
  repeat first
    [ progress intros
    | apply consuming_bind | apply forward_bind
    | match goal with |- forward (if ?b then _ else _) => destruct b end ];
  auto 6 with readers.

Lemma rep_stable {A} (m : R A) j k s :
  consuming m → length s < j → length s < k → rep j m s = rep k m s.
Proof.
  intros Hm. revert k s. induction j as [|j IH]; intros k s Hj Hk; [lia|]. destruct k as [|k]; [lia|].
  cbn [rep]. unfold mbind, R_bind. destruct (m s) as [[a s1]| |] eqn:E; [|done|done].
  apply Hm in E. by rewrite (IH k s1) by lia.
Qed.
(** Capping the rounds at the bytes left changes nothing. *)
Lemma times_exact {A} n (m : R A) s : consuming m → times n m s = rep (Z.to_nat n) m s.
Proof.
  intros Hm. unfold times. destruct (Z_le_gt_dec n (Z.of_nat (S (length s)))) as [H|H].
  - by rewrite Z.min_l.
  - rewrite Z.min_r by lia. apply rep_stable; [done|lia|lia].
Qed.

Section loops.
Context (alloc : Z → bool) (f64_text : Z → rstr).
Lemma consuming_string : consuming (read_gguf_string alloc).
Proof. unfold read_gguf_string. readers. Qed.
#[local] Hint Resolve consuming_string : readers.
Lemma consuming_int n conv : (0 < n)%Z → consuming (int_value n conv).
Proof. intros Hn. apply consuming_bind; [by apply consuming_le|readers]. Qed.
Lemma consuming_value stack ty : consuming (read_gguf_typed_value alloc f64_text stack ty).
Proof.
  revert ty. induction stack as [|stack IH]; intros ty; [done|]. cbn [read_gguf_typed_value].
  repeat case_match; try done; try (apply consuming_int; lia); readers.
Qed.
Lemma consuming_kv stack : consuming (read_kv alloc f64_text stack).
Proof.
  unfold read_kv, read_gguf_value. readers. apply consuming_forward, consuming_value.
Qed.
Lemma consuming_tensor : consuming (read_tensor alloc).
Proof. unfold read_tensor. readers. Qed.
End loops.

(** Every loop over a count a GGUF file announces, up to 2^64 of them, ends with
    the bytes of the file: capping it at one round more than there are bytes left
    does not change what it returns, for the metadata entries, the tensors, their
    dimensions and the elements of (nested) arrays. *)
Theorem gguf_loops_end alloc f64_text stack ty n s :
  times n (read_kv alloc f64_text stack) s = rep (Z.to_nat n) (read_kv alloc f64_text stack) s ∧
  times n (read_tensor alloc) s = rep (Z.to_nat n) (read_tensor alloc) s ∧
  times n (read_le 8 "Failed to read dimension: ") s = rep (Z.to_nat n) (read_le 8 "Failed to read dimension: ") s ∧
  times n (read_gguf_typed_value alloc f64_text stack ty) s
    = rep (Z.to_nat n) (read_gguf_typed_value alloc f64_text stack ty) s.
Proof.
  split_and!; apply times_exact;
    [apply consuming_kv|apply consuming_tensor|by apply consuming_le|apply consuming_value].
Qed.

(** *** Cutting out a tensor *)

Lemma round53_nonneg n : (0 ≤ n)%Z → (0 ≤ round53 n)%Z.
Proof.
  intros Hn. unfold round53. case_bool_decide as H; [done|]. cbn zeta.
  assert (0 < 2 ^ (Z.log2 n - 52))%Z as Hk.
  { apply Z.pow_pos_nonneg; [lia|]. enough (53 ≤ Z.log2 n)%Z by lia. apply Z.log2_le_pow2; lia. }
  pose proof (Z.div_pos n _ Hn Hk). destruct (_ || _); nia.
Qed.
Lemma sixteenths_pos id : (0 < ggml_type_sixteenths id)%Z.
Proof. unfold ggml_type_sixteenths. repeat case_match; lia. Qed.
Lemma tensor_size_range n id : (0 ≤ n)%Z → (0 ≤ tensor_size n id < 2 ^ 64)%Z.
Proof.
  intros Hn. unfold tensor_size, u64_max, U64_MOD. pose proof (sixteenths_pos id).
  assert (0 ≤ round53 (round53 n * ggml_type_sixteenths id))%Z as H0.
  { apply round53_nonneg. apply round53_nonneg in Hn. nia. }
  assert (0 ≤ (round53 (round53 n * ggml_type_sixteenths id) + 15) / 16)%Z by (apply Z.div_pos; lia). lia.
Qed.
(** Below 2^53 the size is the exact one: the elements at their width, rounded up. *)
Lemma tensor_size_exact n id :
  (0 ≤ n)%Z → (n * ggml_type_sixteenths id < 2 ^ 53)%Z →
  tensor_size n id = ((n * ggml_type_sixteenths id + 15) / 16)%Z.
Proof.
  intros Hn Hs. pose proof (sixteenths_pos id). unfold tensor_size, round53.
  rewrite (bool_decide_eq_true_2 (n < _)%Z) by nia. rewrite bool_decide_eq_true_2 by done.
  apply Z.min_l. unfold u64_max, U64_MOD.
  assert ((n * ggml_type_sixteenths id + 15) / 16 ≤ n * ggml_type_sixteenths id + 15)%Z; [|lia].
  apply Z.div_le_upper_bound; nia.
Qed.

Lemma from_le_bytes_nonneg s : (0 ≤ from_le_bytes s)%Z.
Proof. induction s; simpl; lia. Qed.
Lemma saturating_fold_nonneg l a : Forall (λ d, 0 ≤ d)%Z l → (0 ≤ a)%Z → (0 ≤ fold_left saturating_mul l a)%Z.
Proof.
  intros Hl. revert a. induction Hl as [|d l Hd _ IH]; intros a Ha; [done|]. apply IH.
  unfold saturating_mul, u64_max, U64_MOD. nia.
Qed.

(** A property of every value a reader can return. *)
Definition returns {A} (P : A → Prop) (m : R A) : Prop := ∀ s a s', m s = Done (a, s') → P a.
Lemma returns_ret {A} (P : A → Prop) a : P a → returns P (mret a).
Proof. by intros H s b s' [= <- _]. Qed.
Lemma returns_bind {A B} (P : A → Prop) (Q : B → Prop) (m : R A) (f : A → R B) :
  returns P m → (∀ a, P a → returns Q (f a)) → returns Q (m ≫= f).
Proof. intros Hm Hf s b s' (a & s1 & H1 & H2)%R_bind_done. eapply Hf; [by eapply Hm|exact H2]. Qed.
Lemma returns_any {A} (m : R A) : returns (λ _, True) m.
Proof. done. Qed.
Lemma returns_le n e : returns (λ z, 0 ≤ z)%Z (read_le n e).
Proof. eapply returns_bind; [apply returns_any|]. intros b _. apply returns_ret, from_le_bytes_nonneg. Qed.
Lemma returns_times {A} (P : A → Prop) n (m : R A) : returns P m → returns (Forall P) (times n m).
Proof.
  intros Hm s a s'. unfold times. generalize (Z.to_nat (Z.min n (Z.of_nat (S (length s))))). intros k. revert s a s'.
  induction k as [|k IH]; [by apply returns_ret|]. cbn [rep].
  eapply returns_bind; [exact Hm|]. intros x Hx. eapply returns_bind; [exact IH|]. intros xs Hxs.
  apply returns_ret. by constructor.
Qed.
Lemma returns_if {A} (P : A → Prop) (b : bool) (m m' : R A) : returns P m → returns P m' → returns P (if b then m else m').
Proof. by destruct b. Qed.
Definition sized (i : GGUFTensorInfo) : Prop := (0 ≤ size_bytes i < 2 ^ 64)%Z.
Lemma read_tensor_sized alloc : returns sized (read_tensor alloc).
Proof.
  unfold read_tensor. eapply returns_bind; [apply returns_any|intros name _].
  eapply returns_bind; [apply returns_le|intros n _]. apply returns_if; [done|].
  eapply returns_bind; [apply returns_times, returns_le|intros dims Hd].
  eapply returns_bind; [apply returns_any|intros ty _]. eapply returns_bind; [apply returns_any|intros o _].
  apply returns_ret. apply tensor_size_range, saturating_fold_nonneg; [done|lia].
Qed.
Lemma parse_gguf_sized alloc f64_text stack file meta :
  parse_gguf_file alloc f64_text stack file = Done meta → Forall sized (tensors meta).
Proof.
  unfold parse_gguf_file. cbn zeta. intros H. case_match eqn:E; [|done|done]. destruct a as [m rest].
  injection H as <-. revert E.
  match goal with |- ?m file = _ → _ => assert (returns (λ x, Forall sized (tensors x)) m) as Hm; [|apply Hm] end.
  eapply returns_bind; [apply returns_any|intros magic _]. apply returns_if; [done|].
  eapply returns_bind; [apply returns_any|intros version _]. apply returns_if; [done|].
  eapply returns_bind; [apply returns_any|intros tc _]. eapply returns_bind; [apply returns_any|intros kc _].
  eapply returns_bind; [apply returns_any|intros kvs _]. cbn zeta. apply returns_if; [done|].
  eapply returns_bind; [apply returns_times, read_tensor_sized|intros ts Hts].
  intros s a s'. unfold finish. case_bool_decide; [done|]. by intros [= <- _].
Qed.

Lemma parse_safetensors_sized alloc from_str file meta :
  parse_safetensors_file alloc from_str file = Done meta →
  Forall (λ i, st_size_bytes i = saturating_sub (data_offsets i).2 (data_offsets i).1) (st_tensors meta).
Proof.
  unfold parse_safetensors_file. cbn zeta. intros H. case_match eqn:E; [|done|done]. destruct a as [m rest].
  injection H as <-. revert E.
  match goal with |- ?r file = _ → _ => assert (returns (λ m, Forall (λ i, st_size_bytes i =
    saturating_sub (data_offsets i).2 (data_offsets i).1) (st_tensors m)) r) as Hm; [|apply Hm] end.
  eapply returns_bind; [apply returns_any|intros n _]. apply returns_if; [done|]. apply returns_if; [done|].
  eapply returns_bind; [apply returns_any|intros bytes _]. apply returns_if; [done|].
  destruct (from_str bytes) as [[]|]; try done. apply returns_ret. cbn [st_tensors].
  apply Forall_forall. intros i (kv & _ & Hkv)%list_elem_of_omap. unfold safe_entry in Hkv.
  case_bool_decide; [done|]. destruct kv.2; try done. by injection Hkv as <-.
Qed.
Lemma load_range_done file start end_ too_far answer t :
  load_range file start end_ too_far answer = Done t →
  (start ≤ end_ ≤ Z.of_nat (length file))%Z ∧
  t = answer (take (Z.to_nat (end_ - start)) (drop (Z.to_nat start) file)).
Proof.
  unfold load_range, slice. case_bool_decide; [done|]. case_bool_decide as H1; [|done]. by intros [= <-].
Qed.
Lemma head_filter {A} (P : A → Prop) `{!∀ x, Decision (P x)} l x : head (filter P l) = Some x → P x ∧ x ∈ l.
Proof.
  intros Hh. destruct (filter P l) as [|y l'] eqn:E; [done|]. injection Hh as ->.
  assert (x ∈ filter P l) as Hx by (rewrite E; left). by apply list_elem_of_filter in Hx.
Qed.

(** What [loadTensor] answers with is a range of the file's bytes.  For a GGUF file
    it is the range at the tensor's offset from the data start, modulo 2^64, and as
    long as the size announced with it.  For a SafeTensors file it is the
    range the two offsets mean, as long as announced, provided their sums with
    the header do not wrap around. *)
Theorem load_tensor_range alloc f64_text from_str stack file name t :
  load_tensor alloc f64_text from_str stack file name = Done t →
  ∃ start end_, (0 ≤ start ≤ end_ ∧ end_ ≤ Z.of_nat (length file))%Z ∧
    buffer t = take (Z.to_nat (end_ - start)) (drop (Z.to_nat start) file) ∧
    if starts_with "GGUF" file then
      ∃ meta i, parse_gguf_file alloc f64_text stack file = Done meta ∧ i ∈ tensors meta ∧ t_name i = name ∧
        start = wrap_u64 (data_offset meta + offset i) ∧ end_ = (start + size_bytes i)%Z ∧
        byte_length t = (end_ - start)%Z
    else
      ∃ meta i, parse_safetensors_file alloc from_str file = Done meta ∧ i ∈ st_tensors meta ∧ st_name i = name ∧
        let base := (8 + header_size meta)%Z in
        ((0 ≤ base + (data_offsets i).1 < 2 ^ 64)%Z → (0 ≤ base + (data_offsets i).2 < 2 ^ 64)%Z →
         start = (base + (data_offsets i).1)%Z ∧ end_ = (base + (data_offsets i).2)%Z ∧
         byte_length t = (end_ - start)%Z).
Proof.
  unfold load_tensor. destruct (starts_with "GGUF" file).
  - destruct (parse_gguf_file _ _ _ _) as [meta| |] eqn:E; [|done|done].
    destruct (head _) as [i|] eqn:Ei; [|done]. apply head_filter in Ei as [Hn Hi].
    intros [Hr ->]%load_range_done. pose proof (wrap_u64_range (data_offset meta + offset i)) as Hs.
    apply parse_gguf_sized in E as Hz. eapply Forall_forall in Hz; [|exact Hi].
    set (start := wrap_u64 (data_offset meta + offset i)) in *. unfold in_u64, sized, U64_MOD in *.
    assert (wrap_u64 (start + size_bytes i) = start + size_bytes i)%Z as Hend.
    { apply wrap_u64_id. unfold in_u64, U64_MOD. destruct (Z_lt_le_dec (start + size_bytes i) (2 ^ 64)); [lia|].
      exfalso. unfold wrap_u64, U64_MOD in Hr.
      rewrite <-(Z.mod_unique (start + size_bytes i) (2 ^ 64) 1 (start + size_bytes i - 2 ^ 64)) in Hr; lia. }
    rewrite Hend in *. exists start, (start + size_bytes i)%Z. split; [lia|]. split; [done|].
    exists meta, i. cbn [byte_length]. split_and!; try done. lia.
  - destruct (parse_safetensors_file _ _ _) as [meta| |] eqn:E; [|done|done].
    destruct (head _) as [i|] eqn:Ei; [|done]. apply head_filter in Ei as [Hn Hi].
    intros [Hr ->]%load_range_done.
    pose proof (wrap_u64_range (8 + header_size meta + (data_offsets i).1)) as Hs. unfold in_u64 in Hs.
    exists (wrap_u64 (8 + header_size meta + (data_offsets i).1)), (wrap_u64 (8 + header_size meta + (data_offsets i).2)).
    split; [lia|]. split; [done|]. exists meta, i.
    do 3 (split; [done|]). cbn zeta. intros H1 H2. rewrite !wrap_u64_id in * by (unfold in_u64, U64_MOD; lia).
    split_and!; try done. cbn [byte_length].
    apply parse_safetensors_sized in E. eapply Forall_forall in E; [|exact Hi].
    rewrite E. unfold saturating_sub. lia.
Qed.

(** ** What takes the process down *)

(** Arrays nested [k] deep: twelve bytes a level. *)
Fixpoint nested (k : nat) : gval := match k with 0 => GBool true | S k => GArr (gtype (nested k)) [nested k] end.
Lemma nested_crashes alloc f64_text k stack rest :
  stack ≤ k → read_gguf_typed_value alloc f64_text stack (gtype (nested k)) (payload (nested k) ++ rest) = Crashed.
Proof.
  revert k rest. induction stack as [|stack IH]; intros k rest Hk; [done|]. destruct k as [|k]; [lia|].
  cbn [nested gtype read_gguf_typed_value payload map concat length]. rewrite <-!app_assoc.
  assert (∀ {A B} (m : R A) (g : A → R B) s a rest, reads m s a → (m ≫= g) (s ++ rest) = g a rest) as Hstep.
  { intros A B m g s a r H. unfold mbind, R_bind. by rewrite H. }
  rewrite (Hstep _ _ _ _ _ (gtype (nested k))) by (apply (reads_le 4); by destruct k).
  rewrite (Hstep _ _ _ _ _ 1%Z) by (by apply (reads_le 8)).
  cbn [app]. unfold mbind at 1, R_bind at 1. unfold times.
  replace (Z.to_nat _) with (S (Z.to_nat (Z.min 1 (Z.of_nat (S (length (payload (nested k) ++ rest)))) - 1))) by lia.
  cbn [rep]. unfold mbind at 1, R_bind at 1. by rewrite IH by lia.
Qed.

Definition plenty : Z → bool := λ n, bool_decide (n < 2 ^ 40)%Z.
Definition no_json : rstr → option Json := λ _, None.
(** An alignment of zero, and tensor offsets the wrong way round. *)
Example zero_alignment_crashes :
  parse_gguf_file plenty (λ _, []) 10
    (header_bytes {| g_version := 3; g_kvs := [("general.alignment" : rstr, GInt 4 0)]; g_tensors := [] |}) = Crashed.
Proof. vm_compute. reflexivity. Qed.
Definition reversed : Json := JObject [("w" : rstr, JObject [("dtype" : rstr, JString "U8");
  ("shape" : rstr, JArray [JNumber "4"]); ("data_offsets" : rstr, JArray [JNumber "4"; JNumber "0"])])].
Example reversed_offsets_crash :
  load_tensor plenty (λ _, []) (λ s, if bool_decide (s = ("H" : rstr)) then Some reversed else None) 10
    (le_bytes 8 1 ++ "H" ++ "data") "w" = Crashed.
Proof. vm_compute. reflexivity. Qed.
(** An announced length no allocation can serve. *)
Example huge_string_crashes :
  parse_gguf_file plenty (λ _, []) 10
    ("GGUF" ++ le_bytes 4 3 ++ le_bytes 8 0 ++ le_bytes 8 1 ++ le_bytes 8 (2 ^ 62)) = Crashed.
Proof. vm_compute. reflexivity. Qed.

Module WeightsToy.
Definition tensor : GTensor := {| g_name := "w"; g_dims := [2; 3]%Z; g_type := 24; g_offset := 0 |}.
Definition file : GFile := {| g_version := 3;
  g_kvs := [("general.alignment" : rstr, GInt 4 8); ("tags" : rstr, GArr 8 [GStr "a"; GStr "b"]);
            ("t" : rstr, GInt 1 (-5))];
  g_tensors := [tensor] |}.
(** Padding up to the alignment, then the data. *)
Definition bytes : rstr := header_bytes file ++ ".." ++ "123456".
End WeightsToy.
Lemma plain_string s : utf8_valid s && bool_decide (Z.of_nat (length s) < 2 ^ 40)%Z = true → wf_string plenty s.
Proof. intros [Hu Hl]%andb_true_iff. apply bool_decide_eq_true in Hl as Hl'. split_and!; [done|lia|done]. Qed.
Lemma toy_wf : wf_file plenty 3 WeightsToy.file.
Proof.
  split; [done| | |done|done|reflexivity].
  - apply Forall_cons_2; [|apply Forall_cons_2; [|apply Forall_cons_2; [|apply Forall_nil_2]]];
      (split; [by apply plain_string|]); cbn [snd].
    + by eapply wf_int.
    + apply wf_arr; [done|done|]. repeat apply Forall_cons_2; try apply Forall_nil_2;
        (split; [done|]); by apply wf_str, plain_string.
    + by eapply wf_int.
  - apply Forall_cons_2; [|apply Forall_nil_2]. split; [by apply plain_string|].
    split_and!; try done. by repeat apply Forall_cons_2; try apply Forall_nil_2.
Qed.
Lemma gguf_round_trip_witness :
  parse_gguf_file plenty (λ _, []) 3 WeightsToy.bytes = Done {|
    gguf_version := 3; tensor_count := 1; metadata_kv_count := 3; metadata := meta_of (λ _, []) WeightsToy.file;
    tensors := [info WeightsToy.tensor]; data_offset := 160 |}.
Proof.
  unfold WeightsToy.bytes.
  destruct (gguf_round_trip plenty (λ _, []) 3 WeightsToy.file (".." ++ "123456") toy_wf) as [E _].
  - vm_compute. reflexivity.
  - vm_compute. reflexivity.
  - rewrite E. vm_compute. reflexivity.
Defined.
Lemma load_tensor_range_witness :
  ∃ start end_, (0 ≤ start ≤ end_ ∧ end_ ≤ Z.of_nat (length WeightsToy.bytes))%Z ∧
    ("123456" : rstr) = take (Z.to_nat (end_ - start)) (drop (Z.to_nat start) WeightsToy.bytes).
Proof.
  destruct (load_tensor_range plenty (λ _, []) no_json 10 WeightsToy.bytes "w"
    {| tensor_name := "w"; tensor_dtype := "I8"; tensor_shape := [2; 3]%Z; buffer := "123456"; byte_length := 6 |})
    as (start & end_ & H & Hb & _).
  - vm_compute. reflexivity.
  - exists start, end_. split; [exact H|exact Hb].
Defined.
