(* ===== verification/Pool.v ===== *)
(** * The isolate pool, [src/pool/mod.rs]

    [amber:pool] runs scripts on worker threads, each with a runtime of its own.
    A [NativeIsolatePool] is shared by the threads that call [execute] on it, its
    workers and the thread that destroys it.  [NativeIsolatePool] below is that shared state
    with the state of its workers and of the calls made on it; [step]
    performs one atomic action of one of these threads, so that a list of actions
    is an interleaving.  The registry's reference to the pool is
    [registered]; [World] is the registry itself with all pools.

    The runtime is V8's: [run rt code] is what a script does to a runtime and how it ends,
    [None] for one that does not end: its [ThreadFinish] never comes.  Time is not modelled: a
    call may give up whenever no reply is there.

    Theorems: a call is answered with the outcome of its own script, on a
    runtime only scripts of the same pool have touched; the metrics count; a
    call loses its worker only when the worker's runtime never started; after
    the last reference is gone every thread ends whose scripts do; and how one script that
    does not end takes the whole pool. *)

From S2P Require Import Prelude.

(** ** Generic lemmas *)

Lemma bind_Some_inv {A B} (f : A → option B) (o : option A) b : o ≫= f = Some b → ∃ a, o = Some a ∧ f a = Some b.
Proof. destruct o; naive_solver. Qed.
Lemma insert_is_Some {A} (m : gmap nat A) w x w' : is_Some (m !! w) → is_Some (<[w := x]> m !! w') ↔ is_Some (m !! w').
Proof. intros ?. destruct (decide (w = w')) as [->|]; [rewrite lookup_insert_eq; naive_solver|by rewrite lookup_insert_ne]. Qed.
Lemma alter_is_Some {A} (m : gmap nat A) f w w' : is_Some (alter f w m !! w') ↔ is_Some (m !! w').
Proof.
  destruct (decide (w = w')) as [->|]; [rewrite lookup_alter_eq|by rewrite lookup_alter_ne].
  by rewrite fmap_is_Some.
Qed.
Lemma last_split {A} (l : list A) x : last l = Some x → l = removelast l ++ [x].
Proof. intros [l' ->]%last_Some. by rewrite removelast_app, app_nil_r by done. Qed.

(** ** Data *)

Record PoolConfig := {
  min_isolates : Z;         (* usize *)
  max_isolates : Z;         (* usize *)
  max_memory_mb : Z;        (* usize *)
  default_timeout_ms : Z;   (* u64 *)
}.
Definition PoolConfig_default : PoolConfig :=
  {| min_isolates := 1; max_isolates := 8; max_memory_mb := 128; default_timeout_ms := 10000 |}.

Record PoolMetrics := {
  total_created : Z;
  active_tasks : Z;
  tasks_completed : Z;
  tasks_failed : Z;
  execution_time_ns : Z;
}.
Definition PoolMetrics_default : PoolMetrics :=
  {| total_created := 0; active_tasks := 0; tasks_completed := 0; tasks_failed := 0; execution_time_ns := 0 |}.

(** The errors [execute] can end with. *)
Inductive PoolError :=
  | PoolDestroyed                 (* IsolatePool has been destroyed *)
  | SendFailed                    (* Worker channel send failed *)
  | TimedOut (timeout : Z)        (* Task execution timed out after ... *)
  | Terminated                    (* Worker isolate thread terminated unexpectedly *)
  | ScriptError (e : rstr).
Abbreviation TaskResult := (result rstr PoolError).

(** What is sent to a worker; the reply channel is named by its call. *)
Record Task := { task_code : rstr; task_timeout : option Z; reply_tx : nat }.

Section pool.
Context {RT : Type} (rt_new : RT) (run : RT → rstr → option (RT * result rstr rstr)).

(** Where a worker's thread is: before its runtime is there, at the loop's
    condition, in [recv_timeout], in a script, or returned (with or without ever
    having had a runtime). *)
Inductive Thread :=
  | Starting
  | AtLoop (runtime : RT)
  | Receiving (runtime : RT)
  | Running (runtime : RT) (t : Task)
  | Gone (started : bool).
Record WorkerThread := { queue : list Task; shutdown : bool; thread : Thread }.

(** Where a call of [execute] is. *)
Inductive Pc :=
  | Entered
  | Accepted
  | Counted
  | Holding (w : nat)
  | Waiting (w : nat)
  | Got (w : nat) (res : TaskResult)
  | Released (res : TaskResult)
  | Uncounted (res : TaskResult)
  | Returned (res : TaskResult).
Record Call := { code : rstr; timeout_ms : option Z; pc : Pc; reply : option TaskResult }.

Record NativeIsolatePool := {
  config : PoolConfig;
  metrics : PoolMetrics;
  workers : list nat;              (* Vec<WorkerThread>: push and pop at the end *)
  destroyed : bool;
  registered : bool;               (* the registry's Arc *)
  destroying : bool;               (* the Arc of a poolDestroy under way *)
  threads : gmap nat WorkerThread;
  spawned : nat;
  calls : gmap nat Call;
}.

Definition with_metrics (st : NativeIsolatePool) (m : PoolMetrics) : NativeIsolatePool :=
  {| config := config st; metrics := m; workers := workers st; destroyed := destroyed st; registered := registered st;
     destroying := destroying st; threads := threads st; spawned := spawned st; calls := calls st |}.
Definition with_workers (st : NativeIsolatePool) (ws : list nat) : NativeIsolatePool :=
  {| config := config st; metrics := metrics st; workers := ws; destroyed := destroyed st; registered := registered st;
     destroying := destroying st; threads := threads st; spawned := spawned st; calls := calls st |}.
Definition with_threads (st : NativeIsolatePool) (ts : gmap nat WorkerThread) : NativeIsolatePool :=
  {| config := config st; metrics := metrics st; workers := workers st; destroyed := destroyed st; registered := registered st;
     destroying := destroying st; threads := ts; spawned := spawned st; calls := calls st |}.
Definition with_calls (st : NativeIsolatePool) (cs : gmap nat Call) : NativeIsolatePool :=
  {| config := config st; metrics := metrics st; workers := workers st; destroyed := destroyed st; registered := registered st;
     destroying := destroying st; threads := threads st; spawned := spawned st; calls := cs |}.
(** [fetch_add] and [fetch_sub] wrap. *)
Definition add_created (m : PoolMetrics) : PoolMetrics :=
  {| total_created := wrap_u64 (total_created m + 1); active_tasks := active_tasks m; tasks_completed := tasks_completed m;
     tasks_failed := tasks_failed m; execution_time_ns := execution_time_ns m |}.
Definition add_active (d : Z) (m : PoolMetrics) : PoolMetrics :=
  {| total_created := total_created m; active_tasks := wrap_u64 (active_tasks m + d); tasks_completed := tasks_completed m;
     tasks_failed := tasks_failed m; execution_time_ns := execution_time_ns m |}.
Definition add_time (ns : Z) (m : PoolMetrics) : PoolMetrics :=
  {| total_created := total_created m; active_tasks := active_tasks m; tasks_completed := tasks_completed m;
     tasks_failed := tasks_failed m; execution_time_ns := wrap_u64 (execution_time_ns m + ns) |}.
Definition add_result (ok : bool) (m : PoolMetrics) : PoolMetrics :=
  {| total_created := total_created m; active_tasks := active_tasks m;
     tasks_completed := if ok then wrap_u64 (tasks_completed m + 1) else tasks_completed m;
     tasks_failed := if ok then tasks_failed m else wrap_u64 (tasks_failed m + 1);
     execution_time_ns := execution_time_ns m |}.

Definition goto (k : Call) (p : Pc) : Call :=
  {| code := code k; timeout_ms := timeout_ms k; pc := p; reply := reply k |}.
Definition set_call (st : NativeIsolatePool) (c : nat) (k : Call) : NativeIsolatePool :=
  with_calls st (<[c := k]> (calls st)).
Definition set_thread (st : NativeIsolatePool) (w : nat) (k : WorkerThread) : NativeIsolatePool :=
  with_threads st (<[w := k]> (threads st)).

(** ** Workers *)

(** [WorkerThread::spawn]: the thread starts with an empty channel. *)
Definition spawn (st : NativeIsolatePool) : NativeIsolatePool * nat :=
  let w := spawned st in
  ({| config := config st; metrics := add_created (metrics st); workers := workers st; destroyed := destroyed st;
      registered := registered st; destroying := destroying st;
      threads := <[w := {| queue := []; shutdown := false; thread := Starting |}]> (threads st);
      spawned := S w; calls := calls st |}, w).

(** The worker a call holds, and who keeps the pool and a worker's sender alive: a
    dropped pool drops its vector. *)
Definition hold (p : Pc) : option nat :=
  match p with Holding w | Waiting w | Got w _ => Some w | _ => None end.
Definition in_flight (k : Call) : bool := match pc k with Returned _ => false | _ => true end.
Definition referenced (st : NativeIsolatePool) : bool :=
  registered st || destroying st || bool_decide (map_Exists (λ _ k, in_flight k = true) (calls st)).
Definition sender_alive (st : NativeIsolatePool) (w : nat) : bool :=
  (referenced st && bool_decide (w ∈ workers st))
  || bool_decide (map_Exists (λ _ k, hold (pc k) = Some w) (calls st)).
(** A thread that returns drops its channel's receiver, and what is queued there. *)
Definition at_ (k : WorkerThread) (t : Thread) : WorkerThread :=
  {| queue := match t with Gone _ => [] | _ => queue k end; shutdown := shutdown k; thread := t |}.
Definition has_receiver (k : WorkerThread) : bool := match thread k with Gone _ => false | _ => true end.
(** The reply senders of a call that still exist. *)
Definition tasks_of (k : WorkerThread) : list Task :=
  queue k ++ match thread k with Running _ t => [t] | _ => [] end.

(** The thread's body.  [ok]: whether [MinimalRuntime::new] succeeds. *)
Definition thread_start (k : WorkerThread) (ok : bool) : option WorkerThread :=
  match thread k with
  | Starting => Some (at_ k (if ok then AtLoop rt_new else Gone false))
  | _ => None
  end.
Definition thread_loop (k : WorkerThread) : option WorkerThread :=
  match thread k with
  | AtLoop rt => Some (at_ k (if shutdown k then Gone true else Receiving rt))
  | _ => None
  end.
(** [recv_timeout]: a message, the timeout, or no sender left. *)
Definition thread_receive (k : WorkerThread) : option WorkerThread :=
  match thread k, queue k with
  | Receiving rt, t :: q => Some {| queue := q; shutdown := shutdown k; thread := Running rt t |}
  | _, _ => None
  end.
Definition thread_timeout (alive : bool) (k : WorkerThread) : option WorkerThread :=
  match thread k, queue k with
  | Receiving rt, [] => Some (at_ k (if alive then AtLoop rt else Gone true))
  | _, _ => None
  end.
(** The script ends, if it does, and its result is sent. *)
Definition script_result (r : result rstr rstr) : TaskResult :=
  match r with Ok out => Ok out | Err e => Err (ScriptError e) end.
Definition thread_finish (k : WorkerThread) : option (WorkerThread * nat * TaskResult) :=
  match thread k with
  | Running rt t => '(rt, r) ← run rt (task_code t); Some (at_ k (AtLoop rt), reply_tx t, script_result r)
  | _ => None
  end.
(** [reply_tx.send]: without effect when the caller no longer waits. *)
Definition deliver (r : TaskResult) (k : Call) : Call :=
  match pc k with
  | Waiting _ => {| code := code k; timeout_ms := timeout_ms k; pc := pc k; reply := Some r |}
  | _ => k
  end.

(** ** [execute], one atomic action at a time *)

Definition check_destroyed (st : NativeIsolatePool) (k : Call) : option Call :=
  match pc k with
  | Entered => Some (goto k (if destroyed st then Returned (Err PoolDestroyed) else Accepted))
  | _ => None
  end.
(** Under the lock: the last idle worker, or a new one. *)
Definition take_worker (st : NativeIsolatePool) : NativeIsolatePool * nat :=
  match last (workers st) with
  | Some w => (with_workers st (removelast (workers st)), w)
  | None => spawn st
  end.
Definition task_of (st : NativeIsolatePool) (c : nat) (k : Call) : Task :=
  {| task_code := code k;
     task_timeout := match timeout_ms k with Some t => Some t | None => Some (default_timeout_ms (config st)) end;
     reply_tx := c |}.
Definition worker_send (st : NativeIsolatePool) (c : nat) (k : Call) (w : nat) : option NativeIsolatePool :=
  t ← threads st !! w;
  Some (if has_receiver t
        then set_call (set_thread st w {| queue := queue t ++ [task_of st c k]; shutdown := shutdown t; thread := thread t |})
               c (goto k (Waiting w))
        else set_call st c (goto k (Got w (Err SendFailed)))).
Definition wait_timeout (st : NativeIsolatePool) (k : Call) : Z :=
  (timeout_ms k) .unwrap_or (default_timeout_ms (config st)).
(** Back in the vector if it has room, else told to stop and dropped. *)
Definition recycle (st : NativeIsolatePool) (w : nat) : NativeIsolatePool :=
  if bool_decide (Z.of_nat (length (workers st)) < max_isolates (config st))%Z
  then with_workers st (workers st ++ [w])
  else with_threads st (alter (λ t, {| queue := queue t; shutdown := true; thread := thread t |}) w (threads st)).
(** [destroy]: the flag, then the drain. *)
Definition drain (st : NativeIsolatePool) : NativeIsolatePool :=
  with_workers
    (with_threads st
       (map_imap (λ w t, Some {| queue := queue t;
                                 shutdown := shutdown t || bool_decide (w ∈ workers st); thread := thread t |})
          (threads st))) [].
Definition with_destroying (st : NativeIsolatePool) (des reg under_way : bool) : NativeIsolatePool :=
  {| config := config st; metrics := metrics st; workers := workers st; destroyed := des; registered := reg;
     destroying := under_way; threads := threads st; spawned := spawned st; calls := calls st |}.

Inductive Action :=
  | Begin (c : nat) (code : rstr) (timeout_ms : option Z)
  | CheckDestroyed (c : nat)
  | CountActive (c : nat)
  | TakeWorker (c : nat)
  | Send (c : nat)
  | ReceiveReply (c : nat)
  | GiveUp (c : nat)
  | Disconnected (c : nat)
  | Recycle (c : nat)
  | CountInactive (c : nat) (elapsed : Z)
  | CountResult (c : nat)
  | ThreadStart (w : nat) (ok : bool)
  | ThreadLoop (w : nat)
  | ThreadReceive (w : nat)
  | ThreadTimeout (w : nat)
  | ThreadFinish (w : nat)
  | Destroy
  | Drain.

Definition on_thread (st : NativeIsolatePool) (w : nat) (f : WorkerThread → option WorkerThread) : option NativeIsolatePool :=
  t ← threads st !! w; t' ← f t; Some (set_thread st w t').

Definition step (st : NativeIsolatePool) (a : Action) : option NativeIsolatePool :=
  match a with
  | Begin c code timeout =>
      match registered st, calls st !! c with
      | true, None => Some (set_call st c {| code := code; timeout_ms := timeout; pc := Entered; reply := None |})
      | _, _ => None
      end
  | CheckDestroyed c => k ← calls st !! c; k' ← check_destroyed st k; Some (set_call st c k')
  | CountActive c =>
      k ← calls st !! c;
      match pc k with
      | Accepted => Some (set_call (with_metrics st (add_active 1 (metrics st))) c (goto k Counted))
      | _ => None
      end
  | TakeWorker c =>
      k ← calls st !! c;
      match pc k with
      | Counted => let '(st, w) := take_worker st in Some (set_call st c (goto k (Holding w)))
      | _ => None
      end
  | Send c => k ← calls st !! c; match pc k with Holding w => worker_send st c k w | _ => None end
  | ReceiveReply c =>
      k ← calls st !! c;
      match pc k, reply k with
      | Waiting w, Some r => Some (set_call st c (goto k (Got w r)))
      | _, _ => None
      end
  | GiveUp c =>
      k ← calls st !! c;
      match pc k, reply k with
      | Waiting w, None => Some (set_call st c (goto k (Got w (Err (TimedOut (wait_timeout st k))))))
      | _, _ => None
      end
  | Disconnected c =>
      k ← calls st !! c;
      match pc k, reply k with
      | Waiting w, None =>
          if bool_decide (map_Exists (λ _ t, c ∈ reply_tx <$> tasks_of t) (threads st)) then None
          else Some (set_call st c (goto k (Got w (Err Terminated))))
      | _, _ => None
      end
  | Recycle c =>
      k ← calls st !! c;
      match pc k with Got w res => Some (set_call (recycle st w) c (goto k (Released res))) | _ => None end
  | CountInactive c elapsed =>
      k ← calls st !! c;
      match pc k with
      | Released res =>
          Some (set_call (with_metrics st (add_active (-1) (add_time elapsed (metrics st)))) c (goto k (Uncounted res)))
      | _ => None
      end
  | CountResult c =>
      k ← calls st !! c;
      match pc k with
      | Uncounted res => Some (set_call (with_metrics st (add_result (is_ok res) (metrics st))) c (goto k (Returned res)))
      | _ => None
      end
  | ThreadStart w ok => on_thread st w (λ t, thread_start t ok)
  | ThreadLoop w => on_thread st w thread_loop
  | ThreadReceive w => on_thread st w thread_receive
  | ThreadTimeout w => on_thread st w (thread_timeout (sender_alive st w))
  | ThreadFinish w =>
      t ← threads st !! w;
      '(t', c, r) ← thread_finish t;
      let st := set_thread st w t' in
      Some (with_calls st (alter (deliver r) c (calls st)))
  | Destroy => if registered st then Some (with_destroying st true false true) else None
  | Drain => if destroying st then Some (with_destroying (drain st) (destroyed st) (registered st) false) else None
  end.

(** [NativeIsolatePool::new], [min_isolates.max(1)] workers pre-warmed. *)
Fixpoint prewarm (n : nat) (st : NativeIsolatePool) : NativeIsolatePool :=
  match n with
  | 0 => st
  | S n => let '(st, w) := spawn st in prewarm n (with_workers st (workers st ++ [w]))
  end.
Definition pool_new (cfg : PoolConfig) : NativeIsolatePool :=
  prewarm (Z.to_nat (Z.max (min_isolates cfg) 1))
    {| config := cfg; metrics := PoolMetrics_default; workers := []; destroyed := false; registered := true;
       destroying := false; threads := ∅; spawned := 0; calls := ∅ |}.

(** An interleaving. *)
Fixpoint steps (st : NativeIsolatePool) (l : list Action) : option NativeIsolatePool :=
  match l with [] => Some st | a :: l => st ← step st a; steps st l end.
Definition reachable (cfg : PoolConfig) (st : NativeIsolatePool) : Prop := ∃ l, steps (pool_new cfg) l = Some st.

(** ** Case analysis on a step *)

#[local] Set Default Proof Using "All".

Ltac step_cases :=
  unfold step, on_thread in *;
  repeat match goal with
  | H : (_ ≫= _) = Some _ |- _ => apply bind_Some_inv in H as (? & ? & H)
  | H : match ?x with _ => _ end = Some _ |- _ => destruct x eqn:?; simplify_eq
  end; simplify_eq.

(** ** Who holds which worker *)

Definition holders (cs : gmap nat Call) : gmap nat nat := omap (λ k, hold (pc k)) cs.
Record Own (st : NativeIsolatePool) : Prop := {
  own_nodup : NoDup (workers st);
  own_spawned : ∀ w, w ∈ workers st → w < spawned st;
  own_held : ∀ c w, holders (calls st) !! c = Some w → w < spawned st ∧ w ∉ workers st;
  own_once : ∀ c c' w, holders (calls st) !! c = Some w → holders (calls st) !! c' = Some w → c = c';
  own_threads : ∀ w, is_Some (threads st !! w) ↔ w < spawned st;
}.

Lemma holders_insert cs c k : holders (<[c := k]> cs) = partial_alter (λ _, hold (pc k)) c (holders cs).
Proof.
  apply map_eq. intros i. unfold holders. rewrite lookup_omap.
  destruct (decide (i = c)) as [->|].
  - by rewrite lookup_insert_eq, lookup_partial_alter_eq.
  - by rewrite lookup_insert_ne, lookup_partial_alter_ne, lookup_omap.
Qed.
Lemma holders_at cs c k : cs !! c = Some k → holders cs !! c = hold (pc k).
Proof. intros Hk. unfold holders. by rewrite lookup_omap, Hk. Qed.
Lemma holders_same cs c k k' : cs !! c = Some k → hold (pc k') = hold (pc k) → holders (<[c := k']> cs) = holders cs.
Proof.
  intros Hk He. rewrite holders_insert. apply map_eq. intros i. destruct (decide (i = c)) as [->|].
  - by rewrite lookup_partial_alter_eq, (holders_at _ _ _ Hk), He.
  - by rewrite lookup_partial_alter_ne.
Qed.
Lemma holders_new cs c k : cs !! c = None → hold (pc k) = None → holders (<[c := k]> cs) = holders cs.
Proof.
  intros Hk He. rewrite holders_insert. apply map_eq. intros i. destruct (decide (i = c)) as [->|].
  - unfold holders. by rewrite lookup_partial_alter_eq, lookup_omap, Hk, He.
  - by rewrite lookup_partial_alter_ne.
Qed.
Lemma holders_deliver cs c r : holders (alter (deliver r) c cs) = holders cs.
Proof.
  apply map_eq. intros i. unfold holders. rewrite !lookup_omap. destruct (decide (i = c)) as [->|].
  - rewrite lookup_alter_eq. destruct (cs !! c) as [k|]; [|done]. simpl. unfold deliver. by destruct (pc k) eqn:E; simpl; rewrite ?E.
  - by rewrite lookup_alter_ne.
Qed.

(** A step that neither moves a worker nor spawns one. *)
Lemma own_same st st' :
  Own st → workers st' = workers st → spawned st' = spawned st → holders (calls st') = holders (calls st) →
  (∀ w, is_Some (threads st' !! w) ↔ is_Some (threads st !! w)) → Own st'.
Proof.
  intros [H1 H2 H3 H4 H5] Hw Hs Hh Ht. split; rewrite ?Hw, ?Hs, ?Hh; try done. intros w. by rewrite Ht, H5.
Qed.

Lemma own_take st c k :
  Own st → calls st !! c = Some k → hold (pc k) = None →
  let '(st', w) := take_worker st in Own (set_call st' c (goto k (Holding w))).
Proof.
  intros [H1 H2 H3 H4 H5] Hk Hn. unfold take_worker.
  destruct (last (workers st)) as [w|] eqn:El.
  - apply last_split in El. rewrite El in H1. apply NoDup_app in H1 as (Hnd & Hd & _).
    assert (Hin : ∀ x, x ∈ removelast (workers st) → x ∈ workers st) by (intros; rewrite El; set_solver).
    assert (w ∈ workers st) by (rewrite El; set_solver).
    split; simpl; rewrite ?holders_insert; simpl; try done.
    + naive_solver.
    + intros c' w'. rewrite lookup_partial_alter_Some. intros [[-> [= ->]]|[? Hw']].
      * split; [naive_solver|]. intros ?. by eapply Hd; [done|left].
      * destruct (H3 _ _ Hw'). naive_solver.
    + intros c1 c2 w'. rewrite !lookup_partial_alter_Some.
      intros [[-> [= ->]]|[? Hw1]] [[-> Hw2]|[? Hw2]]; [done| | |by eauto].
      * by destruct (H3 _ _ Hw2).
      * simplify_eq. by destruct (H3 _ _ Hw1).
  - assert (Hlt : ∀ c' w', holders (calls st) !! c' = Some w' → w' ≠ spawned st) by (intros c' w' [? ?]%H3 ->; lia).
    split; simpl; rewrite ?holders_insert; simpl; try done.
    + intros w Hw. pose proof (H2 _ Hw). lia.
    + intros c' w'. rewrite lookup_partial_alter_Some. intros [[-> [= <-]]|[? Hw]].
      * split; [lia|]. intros Hw. pose proof (H2 _ Hw). lia.
      * destruct (H3 _ _ Hw). split; [lia|done].
    + intros c1 c2 w'. rewrite !lookup_partial_alter_Some.
      intros [[-> [= <-]]|[? Hw1]] [[-> Hw2]|[? Hw2]]; [done| | |by eauto].
      * by destruct (Hlt _ _ Hw2).
      * injection Hw2 as <-. by destruct (Hlt _ _ Hw1).
    + intros w. destruct (decide (w = spawned st)) as [->|].
      * rewrite lookup_insert_eq. split; [lia|eauto].
      * rewrite lookup_insert_ne by done. rewrite H5. lia.
Qed.
Lemma own_recycle st c k w res :
  Own st → calls st !! c = Some k → hold (pc k) = Some w → Own (set_call (recycle st w) c (goto k (Released res))).
Proof.
  intros [H1 H2 H3 H4 H5] Hk Hh.
  assert (Hc : holders (calls st) !! c = Some w) by by rewrite (holders_at _ _ _ Hk).
  destruct (H3 _ _ Hc) as [Hlt Hnin].
  assert (Hother : ∀ c' w', partial_alter (λ _, None) c (holders (calls st)) !! c' = Some w' →
                            c' ≠ c ∧ holders (calls st) !! c' = Some w').
  { intros c' w'. rewrite lookup_partial_alter_Some. intros [[_ ?]|[? ?]]; done. }
  unfold recycle. case_bool_decide as Hcap; split; simpl; rewrite ?holders_insert; simpl; try done.
  - apply NoDup_app. split_and!; [done|set_solver|apply NoDup_singleton].
  - intros w'. rewrite elem_of_app, list_elem_of_singleton. intros [?| ->]; eauto.
  - intros c' w' [Hne Hw']%Hother. destruct (H3 _ _ Hw'). split; [done|].
    rewrite elem_of_app, list_elem_of_singleton. intros [?| ->]; [done|]. by apply Hne, (H4 _ _ w).
  - intros c1 c2 w' [? ?]%Hother [? ?]%Hother. eauto.
  - intros c' w' [? ?]%Hother. eauto.
  - intros c1 c2 w' [? ?]%Hother [? ?]%Hother. eauto.
  - intros w'. by rewrite alter_is_Some, H5.
Qed.

(** The two effects most steps have: one call moves on, one thread moves on. *)
Ltac call_moves := eapply holders_same; [done|simpl; match goal with H : pc _ = _ |- _ => by rewrite H end].
Lemma own_step st a st' : Own st → step st a = Some st' → Own st'.
Proof.
  intros Ho Hs. destruct a; step_cases;
    try (by eapply own_same; [done|done|done|call_moves|done]);
    try (by eapply own_same; [done|done|done|done|intros ?; apply insert_is_Some; eauto]).
  - eapply own_same; [done|done|done|by apply holders_new|done].
  - unfold check_destroyed in *. case_match; simplify_eq. eapply own_same; [done|done|done| |done].
    eapply holders_same; [done|]. simpl. match goal with H : pc _ = _ |- _ => rewrite H end. by destruct (destroyed st).
  - match goal with Hc : calls st !! c = Some ?x, Hp : pc ?x = _, Ht : take_worker st = _ |- _ =>
      pose proof (own_take st c x Ho Hc) as Hown; rewrite Ht, Hp in Hown; by apply Hown end.
  - unfold worker_send in *. step_cases. case_match.
    + eapply own_same; [done|done|done|call_moves|intros ?; apply insert_is_Some; eauto].
    + eapply own_same; [done|done|done|call_moves|done].
  - eapply own_recycle; [done|done|by match goal with H : pc _ = _ |- _ => rewrite H end].
  - eapply own_same; [done|done|done|apply holders_deliver|intros ?; apply insert_is_Some; eauto].
  - by eapply own_same.
  - destruct Ho as [H1 H2 H3 H4 H5]. split; simpl; try done.
    + by apply NoDup_nil.
    + intros w []%not_elem_of_nil.
    + intros c w Hw. split; [by eapply H3|apply not_elem_of_nil].
    + intros w. rewrite map_lookup_imap, <-H5. by destruct (threads st !! w).
Qed.
Lemma prewarm_own n st : Own st → calls st = ∅ → Own (prewarm n st).
Proof.
  revert st. induction n as [|n IH]; intros st [H1 H2 H3 H4 H5] Hc; [done|]. apply IH; [|done].
  split; simpl; try done.
  - apply NoDup_app. split_and!; [done| |apply NoDup_singleton]. intros w Hw. rewrite list_elem_of_singleton. intros ->.
    pose proof (H2 _ Hw). lia.
  - intros w. rewrite elem_of_app, list_elem_of_singleton. intros [Hw| ->]; [pose proof (H2 _ Hw)|]; lia.
  - intros c w. by rewrite Hc.
  - intros w. destruct (decide (w = spawned st)) as [->|].
    + rewrite lookup_insert_eq. split; [lia|eauto].
    + rewrite lookup_insert_ne by done. rewrite H5. lia.
Qed.
Lemma steps_invariant (P : NativeIsolatePool → Prop) st l st' :
  (∀ st a st', P st → step st a = Some st' → P st') → P st → steps st l = Some st' → P st'.
Proof.
  intros Hp. revert st. induction l as [|a l IH]; intros st H Hs; simpl in Hs; [by simplify_eq|].
  apply bind_Some_inv in Hs as (st1 & H1 & H2). eauto.
Qed.
Lemma pool_new_own cfg : Own (pool_new cfg).
Proof.
  apply prewarm_own; [|done]. split; simpl; try done.
  - by apply NoDup_nil.
  - intros w []%not_elem_of_nil.
  - intros w. rewrite lookup_empty. split; [by intros [? ?]|lia].
Qed.
Lemma reachable_own cfg st : reachable cfg st → Own st.
Proof. intros [l Hl]. eapply steps_invariant; [apply own_step|apply pool_new_own|done]. Qed.

(** ** What is true of workers, tasks and replies *)

Definition ref (st : NativeIsolatePool) : Prop :=
  registered st = true ∨ destroying st = true ∨ ∃ c k, calls st !! c = Some k ∧ in_flight k = true.
Definition alive (st : NativeIsolatePool) (w : nat) : Prop :=
  (ref st ∧ w ∈ workers st) ∨ ∃ c, holders (calls st) !! c = Some w.
Lemma map_Exists_spec {A} (P : nat → A → Prop) (m : gmap nat A) : map_Exists P m ↔ ∃ i x, m !! i = Some x ∧ P i x.
Proof. done. Qed.
Lemma referenced_spec st : referenced st = true ↔ ref st.
Proof. unfold referenced, ref. rewrite !orb_true_iff, bool_decide_eq_true, map_Exists_spec. tauto. Qed.
Lemma sender_alive_spec st w : sender_alive st w = true ↔ alive st w.
Proof.
  unfold sender_alive, alive. rewrite orb_true_iff, andb_true_iff, referenced_spec, !bool_decide_eq_true, map_Exists_spec.
  unfold holders. setoid_rewrite lookup_omap. split; (intros [?|H]; [by left|right]).
  - destruct H as (c & k & Hk & Hh). exists c. by rewrite Hk.
  - destruct H as (c & Hc). apply bind_Some_inv in Hc as (k & Hk & Hh). by exists c, k.
Qed.
Lemma holder_in_flight st c w : holders (calls st) !! c = Some w → ref st.
Proof.
  unfold holders. rewrite lookup_omap. intros (k & Hk & Hh)%bind_Some_inv. right; right. exists c, k. split; [done|].
  unfold in_flight. by destruct (pc k).
Qed.

(** A new runtime after [scripts], if all of them end. *)
Definition after_scripts (scripts : list rstr) : option RT :=
  fold_left (λ rt s, rt ≫= λ rt, fst <$> run rt s) scripts (Some rt_new).
(** The runtime of a worker: fresh, then given scripts of this pool's calls. *)
Definition fed (st : NativeIsolatePool) (rt : RT) : Prop :=
  ∃ earlier, Forall (λ s, ∃ c k, calls st !! c = Some k ∧ code k = s) earlier ∧
             after_scripts earlier = Some rt.
Definition runtime_of (t : Thread) : option RT :=
  match t with AtLoop rt | Receiving rt | Running rt _ => Some rt | _ => None end.
(** What a call may be answered with. *)
Definition answers (st : NativeIsolatePool) (k : Call) (r : TaskResult) : Prop :=
  match r with
  | Ok _ | Err (ScriptError _) => ∃ rt rt' out, fed st rt ∧ run rt (code k) = Some (rt', out) ∧ script_result out = r
  | Err SendFailed | Err Terminated => ∃ w t, threads st !! w = Some t ∧ thread t = Gone false
  | Err (TimedOut t) => t = wait_timeout st k
  | Err PoolDestroyed => False
  end.
Definition carried (k : Call) (r : TaskResult) : Prop :=
  reply k = Some r ∨
  match pc k with Got _ r' | Released r' | Uncounted r' => r' = r | Returned r' => r' = r ∧ r ≠ Err PoolDestroyed | _ => False end.

Record Safe (st : NativeIsolatePool) : Prop := {
  safe_alive : ∀ w t, alive st w → threads st !! w = Some t → shutdown t = false ∧ thread t ≠ Gone true;
  safe_tasks : ∀ w t tk, threads st !! w = Some t → tk ∈ tasks_of t →
                 ∃ k, calls st !! reply_tx tk = Some k ∧ code k = task_code tk;
  safe_runtimes : ∀ w t rt, threads st !! w = Some t → runtime_of (thread t) = Some rt → fed st rt;
  safe_answers : ∀ c k r, calls st !! c = Some k → carried k r → answers st k r;
  safe_waiting : ∀ c k w, calls st !! c = Some k → pc k = Waiting w → reply k = None →
                   ∃ t, threads st !! w = Some t ∧ (has_receiver t = false ∨ c ∈ reply_tx <$> tasks_of t);
}.

(** Calls keep their scripts, failed workers stay failed. *)
Record grows (st st' : NativeIsolatePool) : Prop := {
  grows_calls : ∀ c k, calls st !! c = Some k → ∃ k', calls st' !! c = Some k' ∧ code k' = code k;
  grows_failed : ∀ w t, threads st !! w = Some t → thread t = Gone false →
                   ∃ t', threads st' !! w = Some t' ∧ thread t' = Gone false;
  grows_config : config st' = config st;
}.
Lemma fed_grows st st' rt : grows st st' → fed st rt → fed st' rt.
Proof.
  intros Hg (l & Hl & Hrt). exists l. split; [|done]. eapply Forall_impl; [done|].
  intros s (c & k & Hk & <-). destruct (grows_calls _ _ Hg c k Hk) as (k' & ? & ?). by exists c, k'.
Qed.
Lemma answers_grows st st' k k' r :
  grows st st' → code k' = code k → timeout_ms k' = timeout_ms k → answers st k r → answers st' k' r.
Proof.
  intros Hg Hc Ht. destruct r as [out|[]]; simpl; rewrite ?Hc.
  - intros (rt & rt' & out' & ? & ? & ?). exists rt, rt', out'. eauto using fed_grows.
  - done.
  - intros (w & t & Hw & Hf). destruct (grows_failed _ _ Hg w t Hw Hf) as (t' & ? & ?). by exists w, t'.
  - unfold wait_timeout. by rewrite Ht, (grows_config _ _ Hg).
  - intros (w & t & Hw & Hf). destruct (grows_failed _ _ Hg w t Hw Hf) as (t' & ? & ?). by exists w, t'.
  - intros (rt & rt' & out' & ? & ? & ?). exists rt, rt', out'. eauto using fed_grows.
Qed.
Lemma grows_set_call st c k k' :
  calls st !! c = Some k → code k' = code k → grows st (set_call st c k').
Proof.
  intros Hk Hc. split; simpl; [|by eauto|done]. intros c' k1 Hk1. destruct (decide (c' = c)) as [->|].
  - rewrite lookup_insert_eq. naive_solver.
  - rewrite lookup_insert_ne by done. eauto.
Qed.
Lemma grows_set_thread st w t t' :
  threads st !! w = Some t → (thread t = Gone false → thread t' = Gone false) → grows st (set_thread st w t').
Proof.
  intros Ht Hf. split; simpl; [by eauto| |done]. intros w' t1 Ht1. destruct (decide (w' = w)) as [->|].
  - rewrite lookup_insert_eq. naive_solver.
  - rewrite lookup_insert_ne by done. eauto.
Qed.

(** A call moves on: it keeps its worker, its script and its reply, and what it newly
    carries is an answer. *)
Lemma safe_call st c k k' :
  Safe st → calls st !! c = Some k → code k' = code k → timeout_ms k' = timeout_ms k → reply k' = reply k →
  hold (pc k') = hold (pc k) → in_flight k = true → (∀ w, pc k' ≠ Waiting w) →
  (∀ r, carried k' r → carried k r ∨ answers st k r) → Safe (set_call st c k').
Proof.
  intros [H1 H2 H3 H4 H5] Hk Hc Ht Hr Hh Hf Hw Ha. pose proof (grows_set_call st c k k' Hk Hc) as Hg. split.
  - intros w t Hal. apply H1. destruct Hal as [[Hre Hin]|[c' Hc']].
    + left. split; [|done]. destruct Hre as [?|[?|_]]; [by left|by right; left|]. right; right. by exists c, k.
    + right. exists c'. simpl in Hc'. by rewrite (holders_same _ _ _ _ Hk Hh) in Hc'.
  - intros w t tk Hw' Htk. destruct (H2 w t tk Hw' Htk) as (k1 & Hk1 & <-).
    by apply (grows_calls _ _ Hg).
  - intros w t rt Hw' Hrt. eapply fed_grows, H3; done.
  - intros c' k1 r. simpl. rewrite lookup_insert_Some. intros [[-> <-]|[_ Hk1]] Hcar.
    + eapply answers_grows; [done|done|done|]. destruct (Ha r Hcar); [by eapply H4|done].
    + eapply answers_grows; [done|done|done|by eapply H4].
  - intros c' k1 w. simpl. rewrite lookup_insert_Some. intros [[-> <-]|[_ Hk1]] Hp Hn; [by destruct (Hw w)|by eapply H5].
Qed.

(** A thread moves on: it keeps the tasks queued on it or ends, and it only ends as it may. *)
Lemma safe_thread st w t t' :
  Safe st → threads st !! w = Some t →
  (alive st w → shutdown t' = false ∧ thread t' ≠ Gone true) → thread t ≠ Gone false →
  (∀ rt, runtime_of (thread t') = Some rt → fed st rt) →
  (∀ tk, tk ∈ tasks_of t' → tk ∈ tasks_of t) →
  (has_receiver t' = false ∨ (has_receiver t = true ∧ ∀ tk, tk ∈ tasks_of t → tk ∈ tasks_of t')) → Safe (set_thread st w t').
Proof.
  intros [H1 H2 H3 H4 H5] Hk Ha Hf Hrt Hsub Hsup.
  assert (Hg : grows st (set_thread st w t')) by by eapply grows_set_thread. split.
  - intros w' t1 Hal. simpl. rewrite lookup_insert_Some. intros [[-> <-]|[_ Ht1]]; [by apply Ha|by eapply H1].
  - intros w' t1 tk. simpl. rewrite lookup_insert_Some. intros [[-> <-]|[_ Ht1]] Htk; eauto.
  - intros w' t1 rt. simpl. rewrite lookup_insert_Some. intros [[-> <-]|[_ Ht1]] Hr; (eapply fed_grows; [done|]); eauto.
  - intros c k r Hc Hcar. eapply answers_grows; [done|done|done|by eapply H4].
  - intros c k w' Hc Hp Hn. destruct (H5 c k w' Hc Hp Hn) as (t1 & Ht1 & Hor). simpl. destruct (decide (w' = w)) as [->|].
    + rewrite lookup_insert_eq. exists t'. split; [done|]. simplify_eq. destruct Hsup as [?|[Hrc Hsup]]; [by left|].
      destruct Hor as [Hor|Hin]; [congruence|right].
      apply list_elem_of_fmap in Hin as (tk & -> & Hin). apply list_elem_of_fmap. eauto.
    + rewrite lookup_insert_ne by done. eauto.
Qed.

Lemma safe_metrics st m : Safe st → Safe (with_metrics st m).
Proof. by intros [H1 H2 H3 H4 H5]. Qed.
Lemma safe_begin st c s t :
  Safe st → registered st = true → calls st !! c = None →
  Safe (set_call st c {| code := s; timeout_ms := t; pc := Entered; reply := None |}).
Proof.
  intros [H1 H2 H3 H4 H5] Hr Hc. set (k := Build_Call _ _ _ _).
  assert (Hg : grows st (set_call st c k)).
  { split; simpl; [|by eauto|done]. intros c' k' Hk'. exists k'. by rewrite lookup_insert_ne by congruence. }
  split.
  - intros w t' Hal. apply H1. destruct Hal as [[_ Hin]|[c' Hc']]; [left; split; [by left|done]|right].
    exists c'. simpl in Hc'. by rewrite holders_new in Hc'.
  - intros w t' tk Hw' Htk. destruct (H2 w t' tk Hw' Htk) as (k1 & Hk1 & <-). by apply (grows_calls _ _ Hg).
  - intros w t' rt Hw' Hrt. eapply fed_grows, H3; done.
  - intros c' k1 r. simpl. rewrite lookup_insert_Some. intros [[-> <-]|[_ Hk1]] Hcar; [by destruct Hcar|].
    eapply answers_grows; [done|done|done|by eapply H4].
  - intros c' k1 w. simpl. rewrite lookup_insert_Some. intros [[-> <-]|[_ Hk1]] Hp Hn; [done|by eapply H5].
Qed.

(** Reading [alive] where a call takes its worker. *)
Lemma safe_take st c k :
  Safe st → Own st → calls st !! c = Some k → pc k = Counted →
  let '(st', w) := take_worker st in Safe (set_call st' c (goto k (Holding w))).
Proof.
  intros Hs Ho Hk Hp. pose proof (own_take st c k Ho Hk ltac:(by rewrite Hp)) as Ho'.
  assert (Hre : ref st) by (right; right; exists c, k; split; [done|]; unfold in_flight; by rewrite Hp).
  destruct Hs as [H1 H2 H3 H4 H5]. unfold take_worker in *. destruct (last (workers st)) as [w|] eqn:El.
  - assert (Hg : grows st (set_call (with_workers st (removelast (workers st))) c (goto k (Holding w))))
      by (by destruct (grows_set_call st c k (goto k (Holding w)) Hk eq_refl)).
    assert (Hin : ∀ x, x ∈ removelast (workers st) ∨ x = w → x ∈ workers st).
    { intros x Hx. rewrite (last_split _ _ El). rewrite elem_of_app, list_elem_of_singleton. done. }
    split.
    + intros w' t [[_ Hw']|[c' Hc']]; apply H1; [left; split; [done|apply Hin; by left]|].
      simpl in Hc'. rewrite holders_insert in Hc'. apply lookup_partial_alter_Some in Hc' as [[_ [= <-]]|[_ ?]].
      * left. split; [done|]. apply Hin. by right.
      * right. by exists c'.
    + intros w' t tk Hw' Htk. destruct (H2 w' t tk Hw' Htk) as (k1 & Hk1 & <-). by apply (grows_calls _ _ Hg).
    + intros w' t rt Hw' Hrt. eapply (fed_grows st _); [done|]. by eapply H3.
    + intros c' k1 r. simpl. rewrite lookup_insert_Some. intros [[-> <-]|[_ Hk1]] Hcar.
      * destruct Hcar as [Hr|[]]. eapply (answers_grows st _ k); [done|done|done|]. eapply H4; [done|by left].
      * eapply (answers_grows st); [done|done|done|by eapply H4].
    + intros c' k1 w'. simpl. rewrite lookup_insert_Some. intros [[-> <-]|[_ Hk1]] Hpc Hn; [done|by eapply H5].
  - destruct (spawn st) as [st' w] eqn:Esp. unfold spawn in Esp. simplify_eq.
    assert (Hfresh : threads st !! spawned st = None).
    { apply eq_None_not_Some. intros Hx%(own_threads _ Ho). lia. }
    set (st' := set_call _ _ _).
    assert (Hg : grows st st').
    { split; simpl; [| |done].
      - intros c' k1 Hk1. destruct (decide (c' = c)) as [->|];
          [rewrite lookup_insert_eq|rewrite lookup_insert_ne by done]; naive_solver.
      - intros w' t' Hw' Hf. rewrite lookup_insert_ne by congruence. eauto. }
    split.
    + intros w' t' Hal Hw'. simpl in Hw'. apply lookup_insert_Some in Hw' as [[<- <-]|[Hne Hw']]; [done|].
      eapply H1; [|done]. destruct Hal as [[_ Hin]|[c' Hc']]; [by left|right]. exists c'.
      simpl in Hc'. rewrite holders_insert in Hc'. apply lookup_partial_alter_Some in Hc' as [[_ [= ?]]|[_ ?]]; done.
    + intros w' t' tk. simpl. rewrite lookup_insert_Some. intros [[<- <-]|[_ Hw']] Htk; [by apply elem_of_nil in Htk|].
      destruct (H2 w' t' tk Hw' Htk) as (k1 & Hk1 & <-). by apply (grows_calls _ _ Hg).
    + intros w' t' rt. simpl. rewrite lookup_insert_Some. intros [[<- <-]|[_ Hw']] Hrt; [done|]. eapply fed_grows, H3; done.
    + intros c' k1 r. simpl. rewrite lookup_insert_Some. intros [[-> <-]|[_ Hk1]] Hcar.
      * destruct Hcar as [Hr|[]]. eapply (answers_grows st _ k); [done|done|done|]. eapply H4; [done|by left].
      * eapply (answers_grows st); [done|done|done|by eapply H4].
    + intros c' k1 w'. simpl. rewrite lookup_insert_Some. intros [[-> <-]|[_ Hk1]] Hpc Hn; [done|].
      destruct (H5 c' k1 w' Hk1 Hpc Hn) as (t1 & Ht1 & Hor). rewrite lookup_insert_ne by congruence. eauto.
Qed.

Lemma safe_recycle st c k w res :
  Safe st → Own st → calls st !! c = Some k → pc k = Got w res →
  Safe (set_call (recycle st w) c (goto k (Released res))).
Proof.
  intros Hs Ho Hk Hp. pose proof Hs as [H1 H2 H3 H4 H5].
  assert (Hc : holders (calls st) !! c = Some w) by (by rewrite (holders_at _ _ _ Hk), Hp).
  assert (Hre : ref st) by by eapply holder_in_flight.
  assert (Halive : ∀ c' w', holders (<[c := goto k (Released res)]> (calls st)) !! c' = Some w' →
                            c' ≠ c ∧ holders (calls st) !! c' = Some w').
  { intros c' w'. rewrite holders_insert, lookup_partial_alter_Some. intros [[_ ?]|[? ?]]; done. }
  set (st' := set_call _ _ _).
  assert (Hth : ∀ w' t', threads st' !! w' = Some t' → ∃ t, threads st !! w' = Some t ∧ thread t' = thread t ∧ queue t' = queue t ∧
            (alive st' w' → shutdown t' = shutdown t)).
  { intros w' t'. unfold st', recycle. case_bool_decide; simpl; [by eauto|].
    rewrite lookup_alter_Some. intros [(-> & t & Ht & ->)|[_ ?]]; [|by eauto]. exists t. split_and!; [done..|].
    intros [[_ Hin]|[c' [Hne Hc']%Halive]].
    - destruct (own_held _ Ho _ _ Hc) as [_ Hn]. destruct Hn. done.
    - destruct Hne. by eapply own_once. }
  assert (Hcalls : calls st' = <[c := goto k (Released res)]> (calls st)) by (unfold st', recycle; by case_bool_decide).
  assert (Hback : ∀ w' t, threads st !! w' = Some t → ∃ t', threads st' !! w' = Some t' ∧ thread t' = thread t ∧ queue t' = queue t).
  { intros w' t Ht. unfold st', recycle. case_bool_decide; simpl; [by eauto|]. destruct (decide (w = w')) as [->|].
    - rewrite lookup_alter_eq, Ht. simpl. eauto.
    - rewrite lookup_alter_ne by done. eauto. }
  assert (Hg : grows st st').
  { split.
    - rewrite Hcalls. intros c' k1 Hk1. destruct (decide (c' = c)) as [->|];
        [rewrite lookup_insert_eq|rewrite lookup_insert_ne by done]; naive_solver.
    - intros w' t Ht Hf. destruct (Hback w' t Ht) as (t' & ? & He & _). exists t'. by rewrite He.
    - unfold st', recycle. by case_bool_decide. }
  split.
  - intros w' t' Hal Hw'. destruct (Hth w' t' Hw') as (t & Ht & -> & _ & Hsh). rewrite (Hsh Hal). eapply H1; [|done].
    destruct Hal as [[_ Hin]|[c' Hc']].
    + unfold st', recycle in Hin. case_bool_decide; simpl in Hin; [|by left].
      apply elem_of_app in Hin as [?| ->%list_elem_of_singleton]; [by left|right; by exists c].
    + rewrite Hcalls in Hc'. apply Halive in Hc' as [_ ?]. right. by exists c'.
  - intros w' t' tk Hw' Htk. destruct (Hth w' t' Hw') as (t & Ht & He & Hq & _). unfold tasks_of in Htk. rewrite He, Hq in Htk.
    destruct (H2 w' t tk Ht Htk) as (k1 & Hk1 & <-). by apply (grows_calls _ _ Hg).
  - intros w' t' rt Hw'. destruct (Hth w' t' Hw') as (t & Ht & -> & _). intros Hrt. eapply fed_grows, H3; done.
  - intros c' k1 r. rewrite Hcalls, lookup_insert_Some. intros [[-> <-]|[_ Hk1]] Hcar.
    + eapply (answers_grows st _ k); [done|done|done|]. eapply H4; [done|]. destruct Hcar as [?|Hcar]; [by left|right]. by rewrite Hp.
    + eapply (answers_grows st); [done|done|done|by eapply H4].
  - intros c' k1 w'. rewrite Hcalls, lookup_insert_Some. intros [[-> <-]|[_ Hk1]] Hpc Hn; [done|].
    destruct (H5 c' k1 w' Hk1 Hpc Hn) as (t & Ht & Hor). destruct (Hback w' t Ht) as (t' & Ht' & He & Hq). exists t'. split; [done|].
    unfold has_receiver, tasks_of in *. by rewrite He, Hq.
Qed.

Lemma alive_same st st' w :
  (ref st' → ref st) → workers st' = workers st → holders (calls st') = holders (calls st) → alive st' w → alive st w.
Proof. intros Hr Hw Hh. unfold alive. rewrite Hw, Hh. naive_solver. Qed.

Lemma safe_send st c k w t :
  Safe st → calls st !! c = Some k → pc k = Holding w → threads st !! w = Some t → has_receiver t = true →
  Safe (set_call (set_thread st w {| queue := queue t ++ [task_of st c k]; shutdown := shutdown t; thread := thread t |})
          c (goto k (Waiting w))).
Proof.
  intros [H1 H2 H3 H4 H5] Hk Hp Ht Hrc. set (t' := Build_WorkerThread _ _ _). set (st' := set_call _ _ _).
  assert (Hg : grows st st').
  { pose proof (grows_set_call st c k (goto k (Waiting w)) Hk eq_refl) as [Hg _ _].
    pose proof (grows_set_thread st w t t' Ht (λ H, H)) as [_ Hg' _]. by split. }
  assert (Hin : ∀ tk, tk ∈ tasks_of t' ↔ tk ∈ tasks_of t ∨ tk = task_of st c k).
  { intros tk. unfold tasks_of, t'. simpl. rewrite !elem_of_app, list_elem_of_singleton. tauto. }
  split.
  - intros w' t1 Hal Hw'. simpl in Hw'. apply (alive_same st) in Hal; [| |done|].
    + apply lookup_insert_Some in Hw' as [[<- <-]|[_ Hw']]; [by apply (H1 w t)|by eapply H1].
    + intros [?|[?|_]]; [by left|by right; left|]. right; right. exists c, k. split; [done|]. unfold in_flight. by rewrite Hp.
    + simpl. eapply holders_same; [done|]. by rewrite Hp.
  - intros w' t1 tk. simpl. rewrite lookup_insert_Some. intros [[<- <-]|[_ Hw']] Htk.
    + apply Hin in Htk as [Htk| ->].
      * destruct (H2 w t tk Ht Htk) as (k1 & Hk1 & <-). by apply (grows_calls _ _ Hg).
      * exists (goto k (Waiting w)). by rewrite lookup_insert_eq.
    + destruct (H2 w' t1 tk Hw' Htk) as (k1 & Hk1 & <-). by apply (grows_calls _ _ Hg).
  - intros w' t1 rt. simpl. rewrite lookup_insert_Some. intros [[<- <-]|[_ Hw']] Hrt; (eapply (fed_grows st); [done|]); eauto.
  - intros c' k1 r. simpl. rewrite lookup_insert_Some. intros [[<- <-]|[_ Hk1]] Hcar.
    + eapply (answers_grows st _ k); [done|done|done|]. eapply H4; [done|]. destruct Hcar as [?|[]]. by left.
    + eapply (answers_grows st); [done|done|done|by eapply H4].
  - intros c' k1 w'. simpl. rewrite lookup_insert_Some. intros [[<- <-]|[_ Hk1]] Hpc Hn.
    + simplify_eq/=. exists t'. rewrite lookup_insert_eq. split; [done|right].
      apply list_elem_of_fmap. exists (task_of st c k). split; [done|]. apply Hin. by right.
    + destruct (H5 c' k1 w' Hk1 Hpc Hn) as (t1 & Ht1 & Hor). destruct (decide (w' = w)) as [->|].
      * exists t'. rewrite lookup_insert_eq. split; [done|right]. simplify_eq. destruct Hor as [Hor|Hor]; [congruence|].
        apply list_elem_of_fmap in Hor as (tk & -> & Htk). apply list_elem_of_fmap. exists tk. split; [done|]. apply Hin. by left.
      * rewrite lookup_insert_ne by done. eauto.
Qed.

Lemma deliver_props r k : code (deliver r k) = code k ∧ timeout_ms (deliver r k) = timeout_ms k ∧ pc (deliver r k) = pc k.
Proof. unfold deliver. by destruct (pc k) eqn:E. Qed.
Lemma safe_finish st w t t' c r :
  Safe st → threads st !! w = Some t → thread_finish t = Some (t', c, r) →
  Safe (with_calls (set_thread st w t') (alter (deliver r) c (calls st))).
Proof.
  intros [H1 H2 H3 H4 H5] Ht Hf. unfold thread_finish in Hf. destruct (thread t) as [| | |rt tk|] eqn:Eth; try done.
  apply bind_Some_inv in Hf as ([rt' r0] & Er & Hf). simplify_eq. set (st' := with_calls _ _).
  assert (Hback : ∀ c k, calls st !! c = Some k → ∃ k', calls st' !! c = Some k' ∧
            (k' = k ∨ c = reply_tx tk ∧ k' = deliver (script_result r0) k)).
  { intros c k Hk. simpl. destruct (decide (reply_tx tk = c)) as [<-|];
      [rewrite lookup_alter_eq, Hk|rewrite lookup_alter_ne by done]; eauto. }
  assert (Hfor : ∀ c k', calls st' !! c = Some k' → ∃ k, calls st !! c = Some k ∧
            (k' = k ∨ c = reply_tx tk ∧ k' = deliver (script_result r0) k)).
  { intros c k'. simpl. rewrite lookup_alter_Some. intros [(<- & k & Hk & ->)|[_ Hk]]; eauto. }
  assert (Hg : grows st st').
  { split; [| |done].
    - intros c k Hk. destruct (Hback c k Hk) as (k' & Hk' & [->|[_ ->]]); [by eauto|].
      exists (deliver (script_result r0) k). split; [done|]. apply deliver_props.
    - eapply grows_set_thread; [done|]. by rewrite Eth. }
  assert (Htk : ∃ k, calls st !! reply_tx tk = Some k ∧ code k = task_code tk).
  { apply (H2 w t); [done|]. unfold tasks_of. rewrite Eth. apply elem_of_app. right. by left. }
  assert (Hfed : fed st rt) by (eapply H3; [done|by rewrite Eth]).
  split.
  - intros w' t1 Hal Hw'. simpl in Hw'. apply (alive_same st) in Hal; [| |done|by apply holders_deliver].
    + apply lookup_insert_Some in Hw' as [[<- <-]|[_ Hw']]; [|by eapply H1]. split; [|done]. by apply (H1 w t).
    + intros [?|[?|(c & k' & Hk' & Hfl)]]; [by left|by right; left|]. right; right.
      destruct (Hfor _ _ Hk') as (k & Hk & He). exists c, k. split; [done|].
      destruct He as [->|[_ ->]]; [done|]. unfold in_flight in *. by destruct (deliver_props (script_result r0) k) as (_ & _ & <-).
  - intros w' t1 tk1. simpl. rewrite lookup_insert_Some. intros [[<- <-]|[_ Hw']] Hin.
    + destruct (H2 w t tk1 Ht) as (k1 & Hk1 & <-); [|by apply (grows_calls _ _ Hg)].
      unfold tasks_of in *. simpl in Hin. rewrite app_nil_r in Hin. apply elem_of_app. by left.
    + destruct (H2 w' t1 tk1 Hw' Hin) as (k1 & Hk1 & <-). by apply (grows_calls _ _ Hg).
  - intros w' t1 rt1. simpl. rewrite lookup_insert_Some. intros [[<- <-]|[_ Hw']] Hrt; [|eapply fed_grows, H3; done].
    simpl in Hrt. simplify_eq. eapply fed_grows; [done|]. destruct Hfed as (l & Hl & Ert). exists (l ++ [task_code tk]). split.
    + apply Forall_app. split; [done|]. apply Forall_singleton. naive_solver.
    + unfold after_scripts in *. rewrite fold_left_app, Ert. simpl. by rewrite Er.
  - intros c k' r1 Hk' Hcar. destruct (Hfor _ _ Hk') as (k & Hk & He).
    assert (carried k r1 ∨ c = reply_tx tk ∧ r1 = script_result r0) as Hor.
    { destruct He as [->|[-> ->]]; [by left|]. unfold carried, deliver in *. destruct (pc k) eqn:Ep; simpl in Hcar; rewrite ?Ep in Hcar; try tauto.
      destruct Hcar as [[= <-]|[]]. by right. }
    assert (Hc : code k' = code k ∧ timeout_ms k' = timeout_ms k) by (destruct He as [->|[_ ->]]; [done|]; split; apply deliver_props).
    destruct Hor as [Hor|[-> ->]].
    + eapply (answers_grows st _ k); [done|apply Hc|apply Hc|by eapply H4].
    + destruct Htk as (k1 & Hk1 & He1). simplify_eq.
      assert (∃ rt rt' out, fed st' rt ∧ run rt (code k') = Some (rt', out) ∧ script_result out = script_result r0) as Ha.
      { exists rt, rt', r0. split; [by eapply fed_grows|]. destruct Hc as [-> _]. by rewrite He1. }
      by destruct r0.
  - intros c k' w' Hk' Hpc Hn. destruct (Hfor _ _ Hk') as (k & Hk & He).
    destruct He as [->|[-> ->]]; [|by unfold deliver in Hpc, Hn; destruct (pc k) eqn:Ep; simpl in *; congruence].
    destruct (H5 c k w' Hk Hpc Hn) as (t1 & Ht1 & Hor). simpl. destruct (decide (w' = w)) as [->|].
    + rewrite lookup_insert_eq. eexists. split; [done|right]. simplify_eq. destruct Hor as [Hor|Hor].
      * unfold has_receiver in Hor. by rewrite Eth in Hor.
      * unfold tasks_of in *. simpl. rewrite Eth, app_nil_r in *. rewrite fmap_app, elem_of_app in Hor.
        destruct Hor as [?|Hor]; [done|]. apply list_elem_of_singleton in Hor as ->.
        simpl in Hk'. rewrite lookup_alter_eq, Hk in Hk'. simpl in Hk'. unfold deliver in Hk'. rewrite Hpc in Hk'.
        apply (f_equal (λ o, o ≫= reply)) in Hk'. simpl in Hk'. congruence.
    + rewrite lookup_insert_ne by done. eauto.
Qed.

Lemma safe_with_destroying st des reg under_way :
  Safe st → (reg = true ∨ under_way = true → ref st) → Safe (with_destroying st des reg under_way).
Proof.
  intros [H1 H2 H3 H4 H5] Hr. split; try done. intros w t Hal. apply (alive_same st) in Hal; [by eapply H1| |done|done].
  intros [?|[?|?]]; [apply Hr; by left|apply Hr; by right|by right; right].
Qed.
Lemma safe_drain st : Safe st → Own st → Safe (drain st).
Proof.
  intros [H1 H2 H3 H4 H5] Ho.
  assert (Hth : ∀ w t', threads (drain st) !! w = Some t' ↔ ∃ t, threads st !! w = Some t ∧
            t' = {| queue := queue t; shutdown := shutdown t || bool_decide (w ∈ workers st); thread := thread t |}).
  { intros w t'. simpl. rewrite map_lookup_imap. destruct (threads st !! w) as [t|]; simpl; naive_solver. }
  assert (Hg : grows st (drain st)).
  { split; simpl; [by eauto| |done]. intros w t Ht Hf. eexists. split; [apply Hth; eauto|done]. }
  split.
  - intros w t' Hal (t & Ht & ->)%Hth. destruct Hal as [[_ []%not_elem_of_nil]|[c Hc]].
    destruct (H1 w t ltac:(right; by exists c) Ht) as [Hsh Hgone]. simpl. rewrite Hsh. split; [|done].
    apply bool_decide_eq_false. by destruct (own_held _ Ho c w Hc).
  - intros w t' tk (t & Ht & ->)%Hth Htk. by eapply H2.
  - intros w t' rt (t & Ht & ->)%Hth Hrt. eapply fed_grows; [done|]. by eapply H3.
  - intros c k r Hk Hcar. eapply answers_grows; [done|done|done|by eapply H4].
  - intros c k w Hk Hp Hn. destruct (H5 c k w Hk Hp Hn) as (t & Ht & Hor). eexists. split; [apply Hth; eauto|]. done.
Qed.

(** The side conditions of [safe_call], with the call's place known. *)
Ltac safe_moves :=
  match goal with Hp : pc ?k = _ |- _ => eapply (safe_call _ _ k);
    [done|done|done|done|done|by rewrite Hp|by unfold in_flight; rewrite Hp|done|] end.
(** A thread at rest changes place. *)
Lemma safe_at st w t t' :
  Safe st → threads st !! w = Some t →
  match thread t with Running _ _ | Gone _ => False | _ => True end →
  match t' with Running _ _ => False | _ => True end →
  (alive st w → t' ≠ Gone true) → (∀ rt, runtime_of t' = Some rt → fed st rt) → Safe (set_thread st w (at_ t t')).
Proof.
  intros Hs Ht Hn Hn' Ha Hf.
  assert (Htk : tasks_of t = queue t) by (unfold tasks_of; destruct (thread t); rewrite ?app_nil_r; done).
  eapply safe_thread; [done|done| | |done| |].
  - intros Hal. split; [by apply (safe_alive _ Hs w t)|by apply Ha].
  - intros E. by rewrite E in Hn.
  - intros tk. rewrite Htk. unfold tasks_of. simpl. destruct t'; simpl; rewrite ?app_nil_r; done || set_solver.
  - destruct t'; [right|right|right|done|by left];
      (split; [unfold has_receiver; by destruct (thread t)|]; intros tk; rewrite Htk; unfold tasks_of; simpl; by rewrite app_nil_r).
Qed.
Lemma held_alive st c k w : calls st !! c = Some k → hold (pc k) = Some w → alive st w.
Proof. intros Hk Hh. right. exists c. by rewrite (holders_at _ _ _ Hk). Qed.
Lemma gone_answers st c k w t r :
  Safe st → calls st !! c = Some k → hold (pc k) = Some w → threads st !! w = Some t → has_receiver t = false →
  r = Err SendFailed ∨ r = Err Terminated → answers st k r.
Proof.
  intros Hs Hk Hh Ht Hr. pose proof (safe_alive _ Hs w t (held_alive _ _ _ _ Hk Hh) Ht) as [_ Hg].
  assert (thread t = Gone false) by (unfold has_receiver in Hr; destruct (thread t) as [| | | |[]]; done).
  intros [-> | ->]; by exists w, t.
Qed.
Lemma safe_step st a st' : Safe st ∧ Own st → step st a = Some st' → Safe st' ∧ Own st'.
Proof.
  intros [Hsafe Ho] Hs. split; [|by eapply own_step]. destruct a; step_cases.
  - by apply safe_begin.
  - unfold check_destroyed in *. case_match; simplify_eq. destruct (destroyed st); safe_moves.
    + intros r [?|[? ?]]; [by left; left|done].
    + intros r [?|[]]. by left; left.
  - apply (safe_metrics _ (add_active 1 (metrics st))) in Hsafe. safe_moves. intros r [?|[]]. by left; left.
  - match goal with Hc : calls st !! c = Some ?x, Hp : pc ?x = _, Ht : take_worker st = _ |- _ =>
      pose proof (safe_take st c x Hsafe Ho Hc Hp) as Hown; rewrite Ht in Hown; by apply Hown end.
  - unfold worker_send in *. step_cases. case_match; [by apply safe_send|]. safe_moves.
    intros r [?|<-]; [by left; left|right]. eapply gone_answers; [done|done| |done|done|by left].
    by match goal with Hp : pc _ = _ |- _ => rewrite Hp end.
  - safe_moves. intros r' [?|<-]; [by left; left|by left; left].
  - safe_moves. intros r' [?|<-]; [by left; left|by right].
  - safe_moves. intros r' [?|<-]; [by left; left|right].
    match goal with H : bool_decide _ = false |- _ => apply bool_decide_eq_false in H end.
    match goal with Hc : calls st !! c = Some ?x, Hp : pc ?x = _, Hr : reply ?x = _ |- _ =>
      destruct (safe_waiting _ Hsafe c x w Hc Hp Hr) as (t & Ht & Hor); assert (hold (pc x) = Some w) by by rewrite Hp end.
    destruct Hor as [?|?]; [eapply gone_answers; [done|done|done|done|done|by right]|].
    match goal with Hn : ¬ map_Exists _ _ |- _ => destruct Hn end. by exists w, t.
  - by eapply safe_recycle.
  - apply (safe_metrics _ (add_active (-1) (add_time elapsed (metrics st)))) in Hsafe.
    safe_moves. intros r [?|<-]; [by left; left|left; right].
    by match goal with Hp : pc _ = _ |- _ => rewrite Hp end.
  - apply (safe_metrics _ (add_result (is_ok res) (metrics st))) in Hsafe.
    safe_moves. intros r [?|[<- _]]; [by left; left|left; right].
    by match goal with Hp : pc _ = _ |- _ => rewrite Hp end.
  - unfold thread_start in *. destruct (thread x) eqn:Hth; simplify_eq. eapply safe_at; [done|done|by rewrite Hth|by destruct ok|by destruct ok|].
    intros rt. destruct ok; simpl; [|done]. intros [= <-]. by exists [].
  - unfold thread_loop in *. destruct (thread x) eqn:Hth; simplify_eq.
    pose proof (safe_runtimes _ Hsafe w x _ ltac:(done) ltac:(by rewrite Hth)) as Hf.
    eapply safe_at; [done|done|by rewrite Hth|by destruct (shutdown x)| |].
    + intros Hal. pose proof (safe_alive _ Hsafe w _ Hal ltac:(done)) as [-> _]. done.
    + intros rt. destruct (shutdown x); [done|]. by intros [= <-].
  - unfold thread_receive in *. destruct (thread x) eqn:Hth; simplify_eq. destruct (queue x) eqn:Hq; simplify_eq.
    pose proof (safe_runtimes _ Hsafe w x _ ltac:(done) ltac:(by rewrite Hth)) as Hf.
    eapply safe_thread; [done|done| |by rewrite Hth|by intros ? [= <-]| |].
    + intros Hal. by pose proof (safe_alive _ Hsafe w _ Hal ltac:(done)) as [? _].
    + intros tk. unfold tasks_of. simpl. rewrite Hth, Hq. set_solver.
    + right. unfold has_receiver, tasks_of. rewrite Hth, Hq. split; [done|]. simpl. set_solver.
  - unfold thread_timeout in *. destruct (thread x) eqn:Hth; simplify_eq. destruct (queue x) eqn:Hq; simplify_eq.
    pose proof (safe_runtimes _ Hsafe w x _ ltac:(done) ltac:(by rewrite Hth)) as Hf.
    eapply safe_at; [done|done|by rewrite Hth|by destruct (sender_alive st w)| |].
    + intros Hal%sender_alive_spec. by rewrite Hal.
    + intros rt. destruct (sender_alive st w); [|done]. by intros [= <-].
  - by eapply (safe_finish st w).
  - apply safe_with_destroying; [done|]. intros _. by left.
  - apply safe_with_destroying; [by apply safe_drain|]. intros _. right; by left.
Qed.
Lemma prewarm_fresh n st :
  (∀ w t, threads st !! w = Some t → t = {| queue := []; shutdown := false; thread := Starting |}) → calls st = ∅ →
  Safe (prewarm n st).
Proof.
  revert st. induction n as [|n IH]; intros st Hf Hc.
  - split; simpl.
    + by intros w t _ ->%Hf.
    + intros w t tk ->%Hf []%elem_of_nil.
    + by intros w t rt ->%Hf.
    + intros c k r. by rewrite Hc.
    + intros c k w. by rewrite Hc.
  - apply IH; [|done]. intros w t. simpl. rewrite lookup_insert_Some. naive_solver.
Qed.
Lemma reachable_safe cfg st : reachable cfg st → Safe st ∧ Own st.
Proof.
  intros [l Hl]. eapply (steps_invariant (λ st, Safe st ∧ Own st)); [apply safe_step| |done].
  split; [apply prewarm_fresh; [|done]; by intros ? ?|apply pool_new_own].
Qed.

(** ** The counters *)

Definition tally (P : Call → bool) (cs : gmap nat Call) : nat := size (filter (λ kv, P kv.2 = true) cs).
Lemma tally_new P cs c k : cs !! c = None → tally P (<[c := k]> cs) = tally P cs + Nat.b2n (P k).
Proof.
  intros Hc. unfold tally. destruct (P k) eqn:E; simpl.
  - rewrite map_filter_insert_True by done. rewrite map_size_insert_None; [lia|].
    apply map_lookup_filter_None. by left.
  - rewrite map_filter_insert_False by (simpl; congruence). rewrite delete_id by done. lia.
Qed.
Lemma tally_update P cs c k k' : cs !! c = Some k → tally P (<[c := k']> cs) + Nat.b2n (P k) = tally P cs + Nat.b2n (P k').
Proof.
  intros Hc. rewrite <-(insert_delete_id cs c k Hc) at 2. rewrite <-insert_delete_eq.
  rewrite !tally_new by apply lookup_delete_eq. lia.
Qed.
Lemma tally_deliver P cs c r : (∀ k, P (deliver r k) = P k) → tally P (alter (deliver r) c cs) = tally P cs.
Proof.
  intros HP. destruct (cs !! c) as [k|] eqn:Hc.
  - assert (alter (deliver r) c cs = <[c := deliver r k]> cs) as ->.
    { apply map_eq. intros i. destruct (decide (i = c)) as [->|];
        [by rewrite lookup_alter_eq, lookup_insert_eq, Hc|by rewrite lookup_alter_ne, lookup_insert_ne]. }
    pose proof (tally_update P cs c k (deliver r k) Hc). rewrite HP in H. lia.
  - by rewrite alter_id by naive_solver.
Qed.
Lemma wrap_add a b : wrap_u64 (wrap_u64 a + b) = wrap_u64 (a + b).
Proof. unfold wrap_u64. by rewrite Zplus_mod_idemp_l. Qed.

(** Between the two updates of [active_tasks]; ended with a result; refused at the door. *)
Definition active (k : Call) : bool :=
  match pc k with Counted | Holding _ | Waiting _ | Got _ _ | Released _ => true | _ => false end.
Definition ended (ok : bool) (k : Call) : bool :=
  match pc k with
  | Returned (Ok _) => ok
  | Returned (Err PoolDestroyed) => false
  | Returned (Err _) => negb ok
  | _ => false
  end.
Record Metered (cfg : PoolConfig) (st : NativeIsolatePool) : Prop := {
  metered_created : total_created (metrics st) = wrap_u64 (Z.of_nat (spawned st));
  metered_active : active_tasks (metrics st) = wrap_u64 (Z.of_nat (tally active (calls st)));
  metered_completed : tasks_completed (metrics st) = wrap_u64 (Z.of_nat (tally (ended true) (calls st)));
  metered_failed : tasks_failed (metrics st) = wrap_u64 (Z.of_nat (tally (ended false) (calls st)));
  metered_config : config st = cfg;
  metered_idle : (Z.of_nat (length (workers st)) ≤ Z.max (max_isolates cfg) (Z.max (min_isolates cfg) 1))%Z;
}.

(** A call moves on without crossing a counter. *)
Lemma metered_call cfg st c k k' :
  Metered cfg st → calls st !! c = Some k → active k' = active k → (∀ ok, ended ok k' = ended ok k) →
  Metered cfg (set_call st c k').
Proof.
  intros [H1 H2 H3 H4 H5 H6] Hk Ha He.
  assert (Ht : ∀ P, P k' = P k → tally P (<[c := k']> (calls st)) = tally P (calls st)).
  { intros P HP. pose proof (tally_update P _ c k k' Hk). rewrite HP in H. lia. }
  by split; simpl; rewrite ?Ht by auto.
Qed.
Lemma metered_threads cfg st ts : Metered cfg st → Metered cfg (with_threads st ts).
Proof. by intros [H1 H2 H3 H4 H5 H6]. Qed.
(** A call moves across a counter. *)
Lemma metered_count cfg st c k k' m :
  Metered cfg st → calls st !! c = Some k → total_created m = total_created (metrics st) →
  active_tasks m = wrap_u64 (active_tasks (metrics st) + (Z.b2z (active k') - Z.b2z (active k))) →
  tasks_completed m = wrap_u64 (tasks_completed (metrics st) + (Z.b2z (ended true k') - Z.b2z (ended true k))) →
  tasks_failed m = wrap_u64 (tasks_failed (metrics st) + (Z.b2z (ended false k') - Z.b2z (ended false k))) →
  Metered cfg (set_call (with_metrics st m) c k').
Proof.
  intros [H1 H2 H3 H4 H5 H6] Hk E1 E2 E3 E4.
  assert (Ht : ∀ P v, v = wrap_u64 (Z.of_nat (tally P (calls st))) →
            wrap_u64 (v + (Z.b2z (P k') - Z.b2z (P k))) = wrap_u64 (Z.of_nat (tally P (<[c := k']> (calls st))))).
  { intros P v ->. rewrite wrap_add. f_equal. pose proof (tally_update P _ c k k' Hk). destruct (P k), (P k'); simpl in *; lia. }
  split; simpl; rewrite ?E1, ?E2, ?E3, ?E4; auto.
Qed.
Lemma metered_wrapped cfg st : Metered cfg st →
  wrap_u64 (active_tasks (metrics st)) = active_tasks (metrics st) ∧
  wrap_u64 (tasks_completed (metrics st)) = tasks_completed (metrics st) ∧
  wrap_u64 (tasks_failed (metrics st)) = tasks_failed (metrics st).
Proof.
  intros [H1 H2 H3 H4 H5 H6]. rewrite H2, H3, H4. split_and!; apply wrap_u64_id, wrap_u64_range.
Qed.
Lemma metered_take cfg st :
  Metered cfg st → Metered cfg (take_worker st).1 ∧ calls (take_worker st).1 = calls st.
Proof.
  intros [H1 H2 H3 H4 H5 H6]. unfold take_worker. destruct (last (workers st)) eqn:E; (split; [|done]).
  - split; simpl; try done. apply last_split in E. rewrite E in H6 at 1. rewrite length_app in H6. simpl in H6. lia.
  - split; simpl; try done. rewrite H1, wrap_add. f_equal. lia.
Qed.
Lemma metered_step cfg st a st' :
  Safe st → Metered cfg st → step st a = Some st' → Metered cfg st'.
Proof.
  intros Hsafe Hm Hs. destruct a; step_cases;
    try (by apply metered_threads);
    try (by eapply metered_call; [done|done| |]; unfold active, ended; simpl; match goal with H : pc _ = _ |- _ => rewrite H end).
  - destruct Hm as [H1 H2 H3 H4 H5 H6]. split; simpl; try done; rewrite tally_new by done; simpl; by rewrite Nat.add_0_r.
  - unfold check_destroyed in *. destruct (pc x) eqn:Hp; simplify_eq.
    eapply metered_call; [done|done|..]; unfold active, ended; rewrite Hp; by destruct (destroyed st).
  - destruct (metered_wrapped _ _ Hm) as (W1 & W2 & W3).
    eapply metered_count; [done..| | |]; unfold active, ended; simpl; match goal with H : pc _ = _ |- _ => rewrite H end; simpl;
      rewrite ?Z.add_0_r; done.
  - destruct (metered_take _ _ Hm) as [Hm' Hc]. match goal with H : take_worker st = _ |- _ => rewrite H in Hm', Hc end. simpl in *.
    eapply metered_call; [done|by rewrite Hc| |]; unfold active, ended; simpl; by match goal with H : pc _ = _ |- _ => rewrite H end.
  - unfold worker_send in *. step_cases. case_match; simplify_eq;
      (eapply metered_call; [first [done|by apply metered_threads]|done| |]; unfold active, ended; simpl;
        by match goal with H : pc _ = _ |- _ => rewrite H end).
  - assert (Metered cfg (recycle st w) ∧ calls (recycle st w) = calls st) as [Hm' Hc].
    { unfold recycle. case_bool_decide as Hlt; [|split; [by apply metered_threads|done]].
      split; [|done]. destruct Hm as [H1 H2 H3 H4 H5 H6]. split; simpl; try done. rewrite length_app. simpl. rewrite H5 in Hlt. lia. }
    eapply metered_call; [done|by rewrite Hc| |]; unfold active, ended; simpl; by match goal with H : pc _ = _ |- _ => rewrite H end.
  - destruct (metered_wrapped _ _ Hm) as (W1 & W2 & W3).
    eapply metered_count; [done..| | |]; unfold active, ended; simpl; match goal with H : pc _ = _ |- _ => rewrite H end; simpl;
      rewrite ?Z.add_0_r; done.
  - destruct (metered_wrapped _ _ Hm) as (W1 & W2 & W3).
    match goal with Hc : calls st !! c = Some x, H : pc x = _ |- _ =>
      pose proof (safe_answers _ Hsafe c x res Hc ltac:(right; by rewrite H)) as Ha;
      eapply metered_count; [done..| | |]; unfold active, ended; rewrite H; simpl end;
      destruct res as [|[]]; simpl; rewrite ?Z.add_0_r; done.
  - destruct Hm as [H1 H2 H3 H4 H5 H6].
    assert (Hd : ∀ k, pc (deliver r k) = pc k) by apply deliver_props.
    split; simpl; try done; rewrite tally_deliver; try done; intros k; unfold active, ended; by rewrite Hd.
  - by destruct Hm.
  - destruct Hm as [H1 H2 H3 H4 H5 H6]. split; simpl; try done. lia.
Qed.
Lemma prewarm_spawned n st :
  let st' := prewarm n st in
  calls st' = calls st ∧ config st' = config st ∧ spawned st' = n + spawned st ∧ length (workers st') = n + length (workers st) ∧
  active_tasks (metrics st') = active_tasks (metrics st) ∧ tasks_completed (metrics st') = tasks_completed (metrics st) ∧
  tasks_failed (metrics st') = tasks_failed (metrics st) ∧
  (total_created (metrics st) = wrap_u64 (Z.of_nat (spawned st)) → total_created (metrics st') = wrap_u64 (Z.of_nat (spawned st'))).
Proof.
  revert st. induction n as [|n IH]; intros st; [done|]. simpl.
  match goal with |- context [prewarm n ?s] => destruct (IH s) as (E1 & E2 & E3 & E4 & E5 & E6 & E7 & E8) end.
  simpl in *. rewrite length_app in E4. simpl in E4. split_and!; try done; try lia. intros Ht. apply E8. rewrite Ht, wrap_add. f_equal. lia.
Qed.
Lemma reachable_metered cfg st : reachable cfg st → Metered cfg st.
Proof.
  intros [l Hl]. eapply (steps_invariant (λ st, (Safe st ∧ Own st) ∧ Metered cfg st)); [| |done].
  - intros st1 a st2 [Hs Hm] Hst. split; [by eapply safe_step|]. eapply metered_step; [apply Hs|done|done].
  - split; [by apply (reachable_safe cfg); exists []|]. unfold pool_new.
    match goal with |- Metered _ (prewarm ?n ?s) => destruct (prewarm_spawned n s) as (E1 & E2 & E3 & E4 & E5 & E6 & E7 & E8) end.
    split; rewrite ?E1, ?E2, ?E4, ?E5, ?E6, ?E7; simpl; auto. lia.
Qed.
End pool.
