(* ===== verification/PoolRegistry.v ===== *)
(** * The registry of isolate pools and the theorems on pools, [src/pool/mod.rs]

    [World] is the process-wide registry behind the native functions [poolCreate],
    [poolRun], [poolStats] and [poolDestroy], with every pool ever made; what happens
    inside a pool is [Pool.step].  The registry's lock is held for each of the four
    and, by [poolDestroy], for the whole of [destroy]; the model lets other
    threads in between its two actions, which allows more.  Pool ids reach
    scripts as [i32]. *)

From S2P Require Import Prelude Pool.

Definition to_i32 (z : Z) : Z := ((z + 2 ^ 31) mod 2 ^ 32 - 2 ^ 31)%Z.

Section registry.
Context {RT : Type} (rt_new : RT) (run : RT → rstr → option (RT * result rstr rstr)).
Abbreviation Pool := (@NativeIsolatePool RT).

Record World := {
  objects : list Pool;
  registry : gmap Z nat;
  next_pool_id : Z;        (* NEXT_POOL_ID *)
}.
Definition world_init : World := {| objects := []; registry := ∅; next_pool_id := 1 |}.

(** The options of [poolCreate]: the numbers among them, as V8's [integer_value]. *)
Record PoolOptions := { o_min : option Z; o_max : option Z; o_memory : option Z; o_timeout : option Z }.
Definition config_of (o : PoolOptions) : PoolConfig := {|
  min_isolates := (wrap_u64 <$> o_min o) .unwrap_or (min_isolates PoolConfig_default);
  max_isolates := (wrap_u64 <$> o_max o) .unwrap_or (max_isolates PoolConfig_default);
  max_memory_mb := (wrap_u64 <$> o_memory o) .unwrap_or (max_memory_mb PoolConfig_default);
  default_timeout_ms := (wrap_u64 <$> o_timeout o) .unwrap_or (default_timeout_ms PoolConfig_default);
|}.
(** An object the registry lets go of loses that reference. *)
Definition unregister (p : Pool) : Pool := with_destroying p (destroyed p) false (destroying p).
Definition pool_create (w : World) (o : PoolOptions) : World * Z :=
  let pool_id := next_pool_id w in
  let objects := match registry w !! pool_id with
                 | Some old => alter unregister old (objects w)
                 | None => objects w
                 end in
  ({| objects := objects ++ [pool_new (config_of o)]; registry := <[pool_id := length objects]> (registry w);
      next_pool_id := wrap_u64 (pool_id + 1) |}, to_i32 pool_id).
(** [int32_value() as usize], looked up. *)
Definition find_pool (w : World) (id : Z) : option nat := registry w !! wrap_u64 (to_i32 id).
Definition at_pool (w : World) (i : nat) (a : Action) : option World :=
  p ← objects w !! i; p' ← step rt_new run p a;
  Some {| objects := <[i := p']> (objects w); registry := registry w; next_pool_id := next_pool_id w |}.
Definition pool_run (w : World) (id : Z) (c : nat) (code : rstr) (timeout_ms : option Z) : option World :=
  i ← find_pool w id; at_pool w i (Begin c code (wrap_u64 <$> timeout_ms)).
(** What [poolStats] puts in its object. *)
Definition pool_stats (w : World) (id : Z) : option (Z * Z * Z * Z) :=
  i ← find_pool w id; p ← objects w !! i;
  let m := metrics p in
  Some (to_i32 (active_tasks m), to_i32 (tasks_completed m), to_i32 (tasks_failed m), to_i32 (total_created m)).
Definition pool_destroy (w : World) (id : Z) : World * bool :=
  match (i ← find_pool w id; at_pool w i Destroy) with
  | Some w => ({| objects := objects w; registry := delete (wrap_u64 (to_i32 id)) (registry w);
                  next_pool_id := next_pool_id w |}, true)
  | None => (w, false)
  end.

(** One action of the process.  [Begin] and [Destroy] come through the registry. *)
Inductive WorldAction :=
  | Create (o : PoolOptions)
  | Run (id : Z) (c : nat) (code : rstr) (timeout_ms : option Z)
  | DestroyPool (id : Z)
  | Inside (i : nat) (a : Action).
Definition internal (a : Action) : bool := match a with Begin _ _ _ | Destroy => false | _ => true end.
Definition world_step (w : World) (a : WorldAction) : option World :=
  match a with
  | Create o => Some (pool_create w o).1
  | Run id c code timeout => pool_run w id c code timeout
  | DestroyPool id => Some (pool_destroy w id).1
  | Inside i a => if internal a then at_pool w i a else None
  end.
Fixpoint world_steps (w : World) (l : list WorldAction) : option World :=
  match l with [] => Some w | a :: l => w ← world_step w a; world_steps w l end.

(** ** Each pool lives its own life *)

#[local] Set Default Proof Using "All".

(** A pool as [step] can make it, up to references lost to a reused id. *)
Record sound (p : Pool) : Prop := {
  sound_safe : Safe rt_new run p ∧ Own p;
  sound_metered : Metered (config p) p;
}.
Lemma sound_new cfg : sound (pool_new cfg).
Proof.
  assert (reachable rt_new run cfg (pool_new cfg)) as Hr by (by exists []).
  pose proof (reachable_metered _ _ _ _ Hr) as Hm. split; [by apply (reachable_safe rt_new run cfg)|].
  by rewrite (metered_config _ _ Hm).
Qed.
Lemma sound_step p a p' : sound p → step rt_new run p a = Some p' → sound p'.
Proof.
  intros [Hs Hm] Hst. split; [by eapply safe_step|].
  pose proof (metered_step _ _ _ _ _ _ (proj1 Hs) Hm Hst) as Hm'. by rewrite (metered_config _ _ Hm').
Qed.
Lemma sound_unregister p : sound p → sound (unregister p).
Proof.
  intros [[Hs Ho] Hm]. split; [split|].
  - apply safe_with_destroying; [done|]. intros [?|?]; [done|by right; left].
  - destruct Ho. by split.
  - by destruct Hm.
Qed.
Lemma at_pool_sound w i a w' : Forall sound (objects w) → at_pool w i a = Some w' → Forall sound (objects w').
Proof.
  intros Hw H. unfold at_pool in H. apply bind_Some_inv in H as (p & Hp & H). apply bind_Some_inv in H as (p' & Hst & H).
  simplify_eq/=. apply Forall_insert; [done|]. eapply sound_step; [|done]. by eapply Forall_lookup_1.
Qed.
Lemma world_sound w l w' : Forall sound (objects w) → world_steps w l = Some w' → Forall sound (objects w').
Proof.
  revert w. induction l as [|a l IH]; intros w Hw H; simpl in H; [by simplify_eq|].
  apply bind_Some_inv in H as (w1 & H1 & H). eapply IH; [|done]. clear IH H. destruct a as [o|id c s t|id|i a]; simpl in H1.
  - simplify_eq. simpl. apply Forall_app. split; [|apply Forall_singleton, sound_new].
    case_match; [|done]. apply Forall_alter; [done|]. intros. by apply sound_unregister.
  - unfold pool_run in H1. apply bind_Some_inv in H1 as (i & _ & H1). by eapply at_pool_sound.
  - simplify_eq. unfold pool_destroy. case_match eqn:E; [|done]. apply bind_Some_inv in E as (i & _ & E).
    simpl. by eapply at_pool_sound.
  - case_match; [|done]. by eapply at_pool_sound.
Qed.

Lemma world_pool_sound l w i p : world_steps world_init l = Some w → objects w !! i = Some p → sound p.
Proof. intros Hl Hp. eapply Forall_lookup_1; [eapply world_sound; [|done]; constructor|done]. Qed.

(** ** A pool nobody refers to *)

(** The rounds a thread has left: three for each queued task. *)
Definition weight (t : @WorkerThread RT) : nat :=
  3 * length (queue t) + match thread t with Gone _ => 0 | Receiving _ => 1 | AtLoop _ => 2 | _ => 3 end.
Definition backlog_of (ts : gmap nat (@WorkerThread RT)) : nat := map_fold (λ _ t n, weight t + n) 0 ts.
Definition backlog (p : Pool) : nat := backlog_of (threads p).
Lemma backlog_insert ts w t t' :
  ts !! w = Some t → backlog_of (<[w := t']> ts) + weight t = backlog_of ts + weight t'.
Proof.
  intros Ht. unfold backlog_of. rewrite <-(insert_delete_id ts w t Ht) at 2. rewrite <-insert_delete_eq.
  rewrite !(map_fold_insert_L (λ _ t n, weight t + n)); [lia|intros; lia|apply lookup_delete_eq|intros; lia|apply lookup_delete_eq].
Qed.
Lemma unreferenced (p : Pool) :
  referenced p = false → registered p = false ∧ destroying p = false ∧ ∀ c k, calls p !! c = Some k → in_flight k = false.
Proof.
  unfold referenced. rewrite !orb_false_iff, bool_decide_eq_false. intros [[? ?] Hn]. split_and!; [done..|].
  intros c k Hk. apply not_true_is_false. intros ?. apply Hn. by exists c, k.
Qed.
Lemma thread_moves (p : Pool) w f p' :
  on_thread p w f = Some p' → (∀ t t', f t = Some t' → weight t' < weight t) →
  registered p' = registered p ∧ destroying p' = destroying p ∧ calls p' = calls p ∧ backlog p' < backlog p.
Proof.
  unfold on_thread. intros H Hf. apply bind_Some_inv in H as (t & Ht & H). apply bind_Some_inv in H as (t' & Ht' & H). simplify_eq.
  split_and!; [done..|]. unfold backlog. simpl. pose proof (backlog_insert _ _ _ t' Ht). specialize (Hf _ _ Ht'). lia.
Qed.
Ltac weigh t := unfold weight; destruct (thread t) eqn:?; try done; simpl.
Lemma start_weight t ok t' : thread_start rt_new t ok = Some t' → weight t' < weight t.
Proof. unfold thread_start. weigh t. intros [= <-]. destruct ok; simpl; lia. Qed.
Lemma loop_weight (t t' : @WorkerThread RT) : thread_loop t = Some t' → weight t' < weight t.
Proof. unfold thread_loop. weigh t. intros [= <-]. destruct (shutdown t); simpl; lia. Qed.
Lemma receive_weight (t t' : @WorkerThread RT) : thread_receive t = Some t' → weight t' < weight t.
Proof. unfold thread_receive. weigh t. destruct (queue t) eqn:?; [done|]. intros [= <-]. simpl. lia. Qed.
Lemma timeout_weight (t t' : @WorkerThread RT) : thread_timeout false t = Some t' → weight t' < weight t.
Proof. unfold thread_timeout. weigh t. destruct (queue t) eqn:?; [|done]. intros [= <-]. simpl. lia. Qed.
Lemma finish_weight t t' c r : thread_finish run t = Some (t', c, r) → weight t' < weight t.
Proof.
  unfold thread_finish. weigh t. destruct (run _ _) as [[rt' r']|]; [|done]. intros H. simpl in H. simplify_eq. simpl. lia.
Qed.
Lemma deliver_returned r (k : Call) r' : pc k = Returned r' → deliver r k = k.
Proof. unfold deliver. by intros ->. Qed.

(** Each step such a pool can still make uses up its backlog. *)
Lemma unreferenced_step (p : Pool) a p' :
  referenced p = false → step rt_new run p a = Some p' → referenced p' = false ∧ backlog p' < backlog p.
Proof.
  intros Hu Hst. pose proof (unreferenced _ Hu) as (Hr & Hd & Hc).
  assert (Hall : ∀ c k, calls p !! c = Some k → ∃ r, pc k = Returned r).
  { intros c k Hk. specialize (Hc c k Hk). unfold in_flight in Hc. destruct (pc k); naive_solver. }
  assert (Hdead : ∀ w, sender_alive p w = false).
  { intros w. unfold sender_alive. rewrite Hu. simpl. apply bool_decide_eq_false. intros (c & k & Hk & Hh).
    destruct (Hall c k Hk) as [r Hp]. by rewrite Hp in Hh. }
  assert (Hth : ∀ p1 : Pool, registered p1 = registered p ∧ destroying p1 = destroying p ∧ calls p1 = calls p ∧ backlog p1 < backlog p →
            referenced p1 = false ∧ backlog p1 < backlog p).
  { intros p1 (E1 & E2 & E3 & ?). split; [|done]. unfold referenced in *. by rewrite E1, E2, E3. }
  destruct a; simpl in Hst; try (rewrite ?Hr, ?Hd in Hst; done);
    try (apply bind_Some_inv in Hst as (k & Hk & Hst); destruct (Hall _ _ Hk) as [r Hp];
         unfold check_destroyed in Hst; rewrite Hp in Hst; done);
    try (apply Hth; eapply thread_moves; [exact Hst|]; simpl;
         first [by intros ? ?; apply start_weight|exact loop_weight|exact receive_weight]).
  - apply Hth. rewrite Hdead in Hst. eapply thread_moves; [exact Hst|]. eauto using timeout_weight.
  - apply bind_Some_inv in Hst as (t & Ht & Hst). apply bind_Some_inv in Hst as ([[t' c] r] & Hf & Hst). simplify_eq/=.
    apply Hth. split_and!; [done|done| |].
    + simpl. apply map_eq. intros c'. destruct (decide (c' = c)) as [->|]; [|by rewrite lookup_alter_ne].
      rewrite lookup_alter_eq. destruct (calls p !! c) as [k|] eqn:Hk; [|done]. simpl.
      destruct (Hall c k Hk) as [r' Hp]. by rewrite (deliver_returned _ _ r').
    + unfold backlog. simpl. pose proof (backlog_insert _ _ _ t' Ht). pose proof (finish_weight _ _ _ _ Hf). lia.
Qed.
(** A thread that has returned, or is in a script that does not end. *)
Definition at_rest (t : @WorkerThread RT) : Prop :=
  match thread t with
  | Gone _ => True
  | Running rt tk => run rt (task_code tk) = None
  | _ => False
  end.
(** Every other thread can go on. *)
Lemma thread_can_step (p : Pool) w t :
  threads p !! w = Some t → (∀ a, step rt_new run p a = None) → at_rest t.
Proof.
  intros Ht Hn. assert (¬ at_rest t → ∃ a, is_Some (step rt_new run p a)) as Hs.
  2:{ assert (Decision (at_rest t)) as Hd by (unfold at_rest; destruct (thread t); apply _).
      destruct Hd as [|Hr]; [done|]. destruct (Hs Hr) as [a [p1 Ha]]. by rewrite Hn in Ha. }
  clear Hn. intros Hr. unfold at_rest in Hr. unfold has_receiver in Hr. destruct (thread t) as [|rt|rt|rt tk|] eqn:Eth; [..|by destruct Hr].
  - exists (ThreadStart w true). simpl. unfold on_thread. rewrite Ht. simpl. unfold thread_start. rewrite Eth. simpl. eauto.
  - exists (ThreadLoop w). simpl. unfold on_thread. rewrite Ht. simpl. unfold thread_loop. rewrite Eth. simpl. eauto.
  - destruct (queue t) as [|tk q] eqn:Eq.
    + exists (ThreadTimeout w). simpl. unfold on_thread. rewrite Ht. simpl. unfold thread_timeout. rewrite Eth, Eq. simpl. eauto.
    + exists (ThreadReceive w). simpl. unfold on_thread. rewrite Ht. simpl. unfold thread_receive. rewrite Eth, Eq. simpl. eauto.
  - exists (ThreadFinish w). simpl. rewrite Ht. simpl. unfold thread_finish. rewrite Eth. destruct (run rt _) as [[]|]; [simpl; eauto|by destruct Hr].
Qed.

(** ** A worker whose script does not end

    [alone w p l]: the calls of [l] come one after the other, the script on worker [w] does not
    end, and nobody destroys the pool. *)
Fixpoint alone (w : nat) (p : Pool) (l : list Action) : Prop :=
  match l with
  | [] => True
  | a :: l =>
      match a with
      | Begin _ _ _ => ∀ c k, calls p !! c = Some k → in_flight k = false
      | ThreadFinish w' => w' ≠ w
      | Destroy | Drain => False
      | _ => True
      end ∧ match step rt_new run p a with Some p1 => alone w p1 l | None => True end
  end.

Section hung.
Context (cfg : PoolConfig) (w : nat) (rt : RT) (tk : Task) (old : gmap nat Call).

Definition on_top (p : Pool) : Prop :=
  last (workers p) = Some w ∧ (Z.of_nat (length (workers p)) ≤ max_isolates cfg)%Z.
Definition taken (p : Pool) : Prop := (Z.of_nat (length (workers p)) < max_isolates cfg)%Z.
Definition gave_up (k : Call) (r : TaskResult) : Prop := r = Err (TimedOut ((timeout_ms k) .unwrap_or (default_timeout_ms cfg))).
(** Where the one call in flight can be. *)
Definition phase (p : Pool) (k : Call) : Prop :=
  match pc k with
  | Entered | Accepted | Counted => on_top p
  | Holding w' | Waiting w' => w' = w ∧ taken p
  | Got w' r => w' = w ∧ taken p ∧ gave_up k r
  | Released r | Uncounted r => on_top p ∧ gave_up k r
  | Returned _ => False
  end.
Definition idle (p : Pool) : Prop := on_top p ∧ ∀ c k, calls p !! c = Some k → in_flight k = false.
Record Busy (p : Pool) (c : nat) (k : Call) : Prop := {
  busy_call : calls p !! c = Some k;
  busy_only : ∀ c' k', calls p !! c' = Some k' → in_flight k' = true → c' = c;
  busy_reply : reply k = None;
  busy_new : old !! c = None;
  busy_task : ∀ w' t' tk', threads p !! w' = Some t' → tk' ∈ tasks_of t' → reply_tx tk' = c → w' = w;
  busy_phase : phase p k;
}.
Record Hung (p : Pool) : Prop := {
  hung_thread : ∃ t, threads p !! w = Some t ∧ thread t = Running rt tk;
  hung_alive : destroyed p = false ∧ destroying p = false;
  hung_config : config p = cfg;
  hung_old : ∀ c k, old !! c = Some k → is_Some (calls p !! c);
  hung_ended : ∀ c k r, old !! c = None → calls p !! c = Some k → pc k = Returned r → gave_up k r;
  hung_phase : idle p ∨ ∃ c k, Busy p c k;
}.

Lemma hung_in_flight p c k : Hung p → calls p !! c = Some k → in_flight k = true → Busy p c k.
Proof.
  intros Hh Hk Hf. destruct (hung_phase _ Hh) as [[_ Hi]|(c' & k' & Hb)]; [by rewrite (Hi c k Hk) in Hf|].
  pose proof (busy_only _ _ _ Hb c k Hk Hf) as ->. pose proof (busy_call _ _ _ Hb). by simplify_eq.
Qed.
(** The one call moves on, and may move workers. *)
Lemma hung_call p c k k' ws m :
  Hung p → Busy p c k → reply k' = None → timeout_ms k' = timeout_ms k →
  (∀ r, pc k' = Returned r → gave_up k' r) →
  (if in_flight k' then phase (with_workers p ws) k' else on_top (with_workers p ws)) →
  Hung (set_call (with_metrics (with_workers p ws) m) c k').
Proof.
  intros Hh Hb Hr Ht Hret Hph. split; try apply Hh; simpl.
  - intros c' k1 Hold. destruct (decide (c' = c)) as [->|]; [rewrite lookup_insert_eq; eauto|].
    rewrite lookup_insert_ne by done. by eapply hung_old.
  - intros c' k1 r Hold. rewrite lookup_insert_Some. intros [[<- <-]|[_ Hk1]] Hpc; [by apply Hret|by eapply hung_ended].
  - destruct (in_flight k') eqn:Hf.
    + right. exists c, k'. split; simpl; [by rewrite lookup_insert_eq| |done|apply Hb|apply Hb|done].
      intros c' k1. rewrite lookup_insert_Some. intros [[<- <-]|[_ Hk1]] Hf1; [done|by eapply busy_only].
    + left. split; [done|]. intros c' k1. simpl. rewrite lookup_insert_Some. intros [[<- <-]|[Hne Hk1]]; [done|].
      apply not_true_is_false. intros Hf1. destruct Hne. symmetry. by eapply busy_only.
Qed.
(** Another thread moves on without new tasks. *)
Lemma hung_other p w' t t' :
  Hung p → threads p !! w' = Some t → w' ≠ w → (∀ tk, tk ∈ tasks_of t' → tk ∈ tasks_of t) → Hung (set_thread p w' t').
Proof.
  intros Hh Ht Hne Htk. split; try apply Hh.
  - simpl. rewrite lookup_insert_ne by done. apply Hh.
  - destruct (hung_phase _ Hh) as [?|(c & k & Hb)]; [by left|right]. exists c, k. split; try apply Hb.
    intros w1 t1 tk1. simpl. rewrite lookup_insert_Some. intros [[<- <-]|[_ Hw1]] Hin Hc; [|by eapply busy_task].
    eapply (busy_task _ _ _ Hb w' t tk1); eauto.
Qed.
Lemma hung_on_thread p w' f p' :
  Hung p → on_thread p w' f = Some p' →
  (∀ t t', f t = Some t' → match thread t with Running _ _ => False | _ => True end ∧ ∀ tk, tk ∈ tasks_of t' → tk ∈ tasks_of t) →
  Hung p'.
Proof.
  intros Hh H Hf. unfold on_thread in H. apply bind_Some_inv in H as (t & Ht & H). apply bind_Some_inv in H as (t' & Ht' & H).
  simplify_eq. destruct (Hf _ _ Ht') as [Hn Hin]. eapply hung_other; [done|done| |done].
  intros ->. destruct (hung_thread _ Hh) as (t1 & Ht1 & E). simplify_eq. by rewrite E in Hn.
Qed.
(** The script of the waiting call is queued behind the one that does not end. *)
Lemma hung_queued p t c k q :
  Hung p → Busy p c k → threads p !! w = Some t → (∀ tk, tk ∈ q → reply_tx tk = c) →
  Hung (set_thread p w {| queue := queue t ++ q; shutdown := shutdown t; thread := thread t |}) ∧
  Busy (set_thread p w {| queue := queue t ++ q; shutdown := shutdown t; thread := thread t |}) c k.
Proof.
  intros Hh Hb Ht Hq. set (p' := set_thread _ _ _). assert (Hb' : Busy p' c k).
  { split; try apply Hb. intros w1 t1 tk1. simpl. rewrite lookup_insert_Some. intros [[<- <-]|[_ Hw1]] Hin Hc; [done|].
    by eapply busy_task. }
  split; [|done]. split; try apply Hh; [|right; by exists c, k].
  destruct (hung_thread _ Hh) as (t1 & Ht1 & E). simplify_eq. eexists. split; [simpl; by rewrite lookup_insert_eq|done].
Qed.
Lemma hung_begin p c s t :
  Hung p → Safe rt_new run p → (∀ c k, calls p !! c = Some k → in_flight k = false) → calls p !! c = None →
  Hung (set_call p c {| code := s; timeout_ms := t; pc := Entered; reply := None |}).
Proof.
  intros Hh Hs Hn Hc. assert (Htop : on_top p).
  { destruct (hung_phase _ Hh) as [[? _]|(c1 & k1 & Hb)]; [done|]. pose proof (busy_phase _ _ _ Hb) as Hp.
    pose proof (Hn _ _ (busy_call _ _ _ Hb)) as Hf. unfold phase, in_flight in *. by destruct (pc k1). }
  split; try apply Hh; simpl.
  - intros c' k' Hold. destruct (hung_old _ Hh c' k' Hold). rewrite lookup_insert_ne by congruence. eauto.
  - intros c' k' r Hold. rewrite lookup_insert_Some. intros [[<- <-]|[_ Hk]] Hp; [done|by eapply hung_ended].
  - right. eexists c, _. split; simpl; [by rewrite lookup_insert_eq| |done| | |done].
    + intros c' k'. rewrite lookup_insert_Some. intros [[<- <-]|[_ Hk]]; [done|]. by rewrite (Hn _ _ Hk).
    + destruct (old !! c) eqn:E; [|done]. destruct (hung_old _ Hh _ _ E). congruence.
    + intros w' t' tk' Ht' Hin <-. destruct (safe_tasks _ _ _ Hs _ _ _ Ht' Hin) as (k & Hk & _). congruence.
Qed.
Lemma hung_finish p w' t t' c r :
  Hung p → Safe rt_new run p → w' ≠ w → threads p !! w' = Some t → thread_finish run t = Some (t', c, r) →
  Hung (with_calls (set_thread p w' t') (alter (deliver r) c (calls p))).
Proof.
  intros Hh Hs Hne Ht Hf. unfold thread_finish in Hf. destruct (thread t) as [| | |rt0 tk0|] eqn:Eth; try done.
  apply bind_Some_inv in Hf as ([rt1 r1] & _ & Hf). simplify_eq.
  assert (Hcalls : alter (deliver (script_result r1)) (reply_tx tk0) (calls p) = calls p).
  { apply map_eq. intros c. destruct (decide (c = reply_tx tk0)) as [->|]; [|by rewrite lookup_alter_ne].
    rewrite lookup_alter_eq. destruct (calls p !! reply_tx tk0) as [k|] eqn:Hk; [|done]. simpl. f_equal.
    destruct (in_flight k) eqn:Hfl.
    - pose proof (hung_in_flight _ _ _ Hh Hk Hfl) as Hb. destruct Hne. eapply (busy_task _ _ _ Hb w' t tk0); [done| |done].
      unfold tasks_of. rewrite Eth. set_solver.
    - unfold in_flight in Hfl. unfold deliver. by destruct (pc k). }
  rewrite Hcalls. change (Hung (set_thread p w' (at_ t (AtLoop rt1)))).
  eapply hung_other; [done|done|done|]. intros tk1. unfold tasks_of. rewrite Eth. simpl. set_solver.
Qed.
End hung.

Lemma quiet_thread (f : @WorkerThread RT → option (@WorkerThread RT)) t t' :
  (∃ ok, f = λ t, thread_start rt_new t ok) ∨ f = thread_loop ∨ f = thread_receive ∨ (∃ b, f = thread_timeout b) →
  f t = Some t' →
  match thread t with Running _ _ => False | _ => True end ∧ ∀ tk, tk ∈ tasks_of t' → tk ∈ tasks_of t.
Proof.
  unfold tasks_of. intros [[ok ->]|[->|[->|[b ->]]]];
    unfold thread_start, thread_loop, thread_receive, thread_timeout; destruct (thread t) eqn:E; try done.
  - intros [= <-]. split; [done|]. destruct ok; simpl; set_solver.
  - intros [= <-]. split; [done|]. destruct (shutdown t); simpl; set_solver.
  - destruct (queue t) as [|tk q]; [done|]. intros [= <-]. split; [done|]. simpl. set_solver.
  - destruct (queue t) as [|tk q] eqn:Eq; [|done]. intros [= <-]. split; [done|]. intros tk. destruct b; simpl; by rewrite ?Eq.
Qed.
(** A call known to be at [X] moves. *)
Ltac hung_moves Hst :=
  apply bind_Some_inv in Hst as (k & Hk & Hst);
  destruct (pc k) eqn:Hp; try done;
  pose proof (hung_in_flight _ _ _ _ _ _ _ _ ltac:(eassumption) Hk ltac:(unfold in_flight; by rewrite Hp)) as Hb;
  pose proof (busy_phase _ _ _ _ _ _ Hb) as Hph; unfold phase in Hph; rewrite Hp in Hph.
Lemma hung_step cfg w rt tk old p a p' :
  Hung cfg w rt tk old p → Safe rt_new run p → alone w p [a] → step rt_new run p a = Some p' → Hung cfg w rt tk old p'.
Proof.
  intros Hh Hs [Ha _] Hst.
  assert (Hmove : ∀ c k k' ws m, Busy cfg w old p c k → reply k' = reply k → timeout_ms k' = timeout_ms k →
            (∀ r, pc k' = Returned r → gave_up cfg k' r) →
            (if in_flight k' then phase cfg w (with_workers p ws) k' else on_top cfg w (with_workers p ws)) →
            Hung cfg w rt tk old (set_call (with_metrics (with_workers p ws) m) c k')).
  { intros c k k' ws m Hb Hr. apply hung_call; [done|done|]. rewrite Hr. apply Hb. }
  destruct a; simpl in Hst, Ha; try done.
  - destruct (registered p), (calls p !! c) eqn:Hc; simplify_eq. by apply hung_begin.
  - unfold check_destroyed in Hst. hung_moves Hst. simplify_eq/=. destruct (hung_alive _ _ _ _ _ _ Hh) as [-> _].
    by apply (Hmove c k _ (workers p) (metrics p)).
  - hung_moves Hst. simplify_eq/=. by apply (Hmove c k _ (workers p) _).
  - hung_moves Hst. destruct Hph as [Hlast Hlen]. unfold take_worker in Hst. rewrite Hlast in Hst. simplify_eq/=.
    apply (Hmove c k _ (removelast (workers p)) (metrics p)); try done. simpl. split; [done|].
    rewrite (last_split _ _ Hlast) in Hlen. rewrite length_app in Hlen. simpl in Hlen. unfold taken. simpl. lia.
  - hung_moves Hst. destruct Hph as [-> Hlen]. unfold worker_send in Hst. apply bind_Some_inv in Hst as (t & Ht & Hst).
    destruct (hung_thread _ _ _ _ _ _ Hh) as (t1 & Ht1 & E). simplify_eq. unfold has_receiver. rewrite E.
    destruct (hung_queued _ _ _ _ _ p t c k [task_of p c k] Hh Hb Ht) as [Hh' Hb']; [by intros ? ->%list_elem_of_singleton|].
    rewrite E in Hh', Hb'.
    apply (hung_call _ _ _ _ _ (set_thread p w {| queue := queue t ++ [task_of p c k]; shutdown := shutdown t; thread := Running rt tk |})
             c k (goto k (Waiting w)) (workers p) (metrics p)); try done. apply Hb.
  - hung_moves Hst. rewrite (busy_reply _ _ _ _ _ _ Hb) in Hst. done.
  - hung_moves Hst. rewrite (busy_reply _ _ _ _ _ _ Hb) in Hst. simplify_eq. destruct Hph as [-> Hlen].
    apply (Hmove c k _ (workers p) (metrics p)); try done. simpl. split_and!; [done|done|].
    unfold gave_up, wait_timeout. by rewrite (hung_config _ _ _ _ _ _ Hh).
  - hung_moves Hst. rewrite (busy_reply _ _ _ _ _ _ Hb) in Hst. case_bool_decide as Hex; [done|]. destruct Hex.
    destruct (safe_waiting _ _ _ Hs c k _ Hk Hp (busy_reply _ _ _ _ _ _ Hb)) as (t & Ht & [Hor|Hor]); [|by exists w0, t].
    destruct Hph as [-> _]. destruct (hung_thread _ _ _ _ _ _ Hh) as (t1 & Ht1 & E). simplify_eq.
    unfold has_receiver in Hor. by rewrite E in Hor.
  - hung_moves Hst. destruct Hph as (-> & Hlen & Hg). unfold taken in Hlen. unfold recycle in Hst.
    rewrite (hung_config _ _ _ _ _ _ Hh), bool_decide_eq_true_2 in Hst by done. simplify_eq.
    apply (Hmove c k _ (workers p ++ [w]) (metrics p)); try done. simpl. split; [|done]. split; simpl; [by rewrite last_snoc|].
    rewrite length_app. simpl. lia.
  - hung_moves Hst. simplify_eq. by apply (Hmove c k _ (workers p) _).
  - hung_moves Hst. simplify_eq. destruct Hph as [Htop Hg]. apply (Hmove c k _ (workers p) _); try done. by intros ? [= <-].
  - eapply hung_on_thread; [done|exact Hst|]. intros t t'. apply (quiet_thread (λ t, thread_start rt_new t ok)). eauto.
  - eapply hung_on_thread; [done|exact Hst|]. intros t t'. apply quiet_thread. eauto.
  - eapply hung_on_thread; [done|exact Hst|]. intros t t'. apply quiet_thread. eauto.
  - eapply hung_on_thread; [done|exact Hst|]. intros t t'. apply quiet_thread. eauto.
  - apply bind_Some_inv in Hst as (t & Ht & Hst). apply bind_Some_inv in Hst as ([[t' c] r] & Hf & Hst). simplify_eq.
    by eapply hung_finish.
Qed.

Lemma hung_steps cfg w rt tk old p l p' :
  Hung cfg w rt tk old p → Safe rt_new run p ∧ Own p → alone w p l → steps rt_new run p l = Some p' → Hung cfg w rt tk old p'.
Proof.
  revert p. induction l as [|a l IH]; intros p Hh Hs Hal Hst; simpl in Hst; [by simplify_eq|].
  apply bind_Some_inv in Hst as (p1 & H1 & Hst). destruct Hal as [Ha Hal]. rewrite H1 in Hal.
  eapply IH; [|by eapply safe_step|done|done]. eapply hung_step; [done|apply Hs| |done]. split; [done|]. by rewrite H1.
Qed.

(** ** Properties *)

(** C27. Scripts of different pools never meet, and answers are never mixed up: in every
    interleaving of any number of pools, a call that ends with a script's result or
    error got the outcome of its own script, which ended, on a runtime that was new and has
    run nothing but scripts handed to the same pool. *)
Theorem pools_isolated l w i p c k r :
  world_steps world_init l = Some w → objects w !! i = Some p → calls p !! c = Some k → pc k = Returned r →
  match r with Ok _ | Err (ScriptError _) => True | _ => False end →
  ∃ (earlier : list rstr) rt rt' out,
    Forall (λ s, ∃ c' k', calls p !! c' = Some k' ∧ code k' = s) earlier ∧
    after_scripts rt_new run earlier = Some rt ∧ run rt (code k) = Some (rt', out) ∧ script_result out = r.
Proof.
  intros Hl Hp Hk Hpc Hr. pose proof (world_pool_sound _ _ _ _ Hl Hp) as [[Hs _] _].
  assert (answers rt_new run p k r) as Ha.
  { apply (safe_answers _ _ _ Hs c); [done|]. right. rewrite Hpc. by destruct r as [|[]]. }
  assert (∃ rt rt' out, fed rt_new run p rt ∧ run rt (code k) = Some (rt', out) ∧ script_result out = r)
    as (rt & rt' & out & (earlier & He & Hrt) & Hrun & Hout) by by destruct r as [|[]].
  by exists earlier, rt, rt', out.
Qed.

(** The statistics add up in every interleaving (modulo 2^64, as the atomics count): the
    active ones are the calls between their two updates, the completed and failed ones
    the calls that returned with a result and with an error other than the refusal
    by a destroyed pool, the created ones the threads spawned; the idle workers never
    exceed [max_isolates] or the number pre-warmed. *)
Theorem pool_metrics l w i p :
  world_steps world_init l = Some w → objects w !! i = Some p →
  active_tasks (metrics p) = wrap_u64 (Z.of_nat (tally active (calls p))) ∧
  tasks_completed (metrics p) = wrap_u64 (Z.of_nat (tally (ended true) (calls p))) ∧
  tasks_failed (metrics p) = wrap_u64 (Z.of_nat (tally (ended false) (calls p))) ∧
  total_created (metrics p) = wrap_u64 (Z.of_nat (spawned p)) ∧
  (Z.of_nat (length (workers p)) ≤ Z.max (max_isolates (config p)) (Z.max (min_isolates (config p)) 1))%Z.
Proof.
  intros Hl Hp. pose proof (world_pool_sound _ _ _ _ Hl Hp) as [_ [H1 H2 H3 H4 _ H6]]. by split_and!.
Qed.

(** A call never loses its worker to the pool: while a call holds a worker, no
    recycling and no destruction flags it or lets its thread return, no other call
    holds it and the pool does not offer it; so a call only fails to send, or finds its worker
    terminated, when some worker's runtime could not be created. *)
Theorem worker_is_exclusive l w i p c k :
  world_steps world_init l = Some w → objects w !! i = Some p → calls p !! c = Some k →
  (∀ wk t, hold (pc k) = Some wk → threads p !! wk = Some t →
     shutdown t = false ∧ thread t ≠ Gone true ∧ wk ∉ workers p ∧
     ∀ c' k', calls p !! c' = Some k' → hold (pc k') = Some wk → c' = c) ∧
  (pc k = Returned (Err SendFailed) ∨ pc k = Returned (Err Terminated) →
     ∃ wk t, threads p !! wk = Some t ∧ thread t = Gone false).
Proof.
  intros Hl Hp Hk. pose proof (world_pool_sound _ _ _ _ Hl Hp) as [[Hs Ho] _]. split.
  - intros wk t Hh Ht. destruct (safe_alive _ _ _ Hs wk t (held_alive rt_new run _ _ _ _ Hk Hh) Ht) as [? ?].
    assert (Hc : holders (calls p) !! c = Some wk) by by rewrite (holders_at rt_new run _ _ _ Hk).
    split_and!; [done|done|by eapply own_held|]. intros c' k' Hk' Hh'. eapply own_once; [done| |done].
    by rewrite (holders_at rt_new run _ _ _ Hk').
  - intros [Hpc|Hpc];
      [apply (safe_answers _ _ _ Hs c k (Err SendFailed) Hk)|apply (safe_answers _ _ _ Hs c k (Err Terminated) Hk)];
      right; by rewrite Hpc.
Qed.

(** C28. Once nothing refers to a pool (the registry has let go of it, its destruction is
    over and its calls have returned), its threads end if their scripts do: every sequence
    of steps it can still make is at most as long as its backlog, and one that cannot be
    continued has every thread returned but those in a script that does not end; such a
    thread stays for good ([hung_thread_stays]). *)
Theorem unreferenced_pool_ends (p : Pool) l p' :
  referenced p = false → steps rt_new run p l = Some p' →
  length l + backlog p' ≤ backlog p ∧
  ((∀ a, step rt_new run p' a = None) → ∀ w t, threads p' !! w = Some t →
     (∃ started, thread t = Gone started) ∨
     ∃ rt tk, thread t = Running rt tk ∧ run rt (task_code tk) = None).
Proof.
  revert p. induction l as [|a l IH]; intros p Hu Hl; simpl in Hl.
  - simplify_eq. split; [simpl; lia|]. intros Hn w t Ht. pose proof (thread_can_step p' w t Ht Hn) as Hr. unfold at_rest in Hr.
    destruct (thread t); naive_solver.
  - apply bind_Some_inv in Hl as (p1 & H1 & Hl). destruct (unreferenced_step _ _ _ Hu H1) as [Hu1 Hlt].
    destruct (IH p1 Hu1 Hl) as [? ?]. split; [simpl; lia|done].
Qed.

(** One script that does not end takes the whole pool: its call times out, its
    worker goes back on top of the idle ones with the script still running, and from
    then on every call made one after the other is handed that worker and times out,
    whatever its script and however many other workers are idle. *)
Theorem hung_script_takes_pool cfg (p : Pool) w t rt tk l p' c k r :
  reachable rt_new run cfg p → destroyed p = false → destroying p = false →
  last (workers p) = Some w → (Z.of_nat (length (workers p)) ≤ max_isolates cfg)%Z →
  threads p !! w = Some t → thread t = Running rt tk →
  (∀ c k, calls p !! c = Some k → in_flight k = false) →
  steps rt_new run p l = Some p' → alone w p l →
  calls p !! c = None → calls p' !! c = Some k → pc k = Returned r →
  r = Err (TimedOut ((timeout_ms k) .unwrap_or (default_timeout_ms cfg))).
Proof.
  intros Hr Hd Hdy Hlast Hlen Ht Hth Hidle Hst Hal Hc Hk Hp.
  pose proof (reachable_safe _ _ _ _ Hr) as [Hs Ho]. pose proof (metered_config _ _ (reachable_metered _ _ _ _ Hr)) as Hcfg.
  assert (Hh : Hung cfg w rt tk (calls p) p).
  { split; [by exists t|done|done|by eauto|congruence|left; by split]. }
  eapply hung_ended; [eapply hung_steps; [exact Hh|done|done|done]|done|done|done].
Qed.
End registry.

(** ** Concrete runs

    A runtime that counts the scripts it ran and answers with their text; one script
    does not end. *)
Module PoolToy.
Definition rt_new : nat := 0.
Definition run (rt : nat) (code : rstr) : option (nat * result rstr rstr) :=
  if bool_decide (code = "for(;;);") then None else Some (S rt, Ok code).
(** The whole of a call that gives up, one that is answered by worker [w], and a worker's start. *)
Definition timed_out (c : nat) (code : rstr) : list Action :=
  [Begin c code None; CheckDestroyed c; CountActive c; TakeWorker c; Send c; GiveUp c; Recycle c; CountInactive c 5; CountResult c].
Definition answered (c w : nat) : list Action :=
  [CheckDestroyed c; CountActive c; TakeWorker c; Send c; ThreadReceive w; ThreadFinish w; ReceiveReply c; Recycle c;
   CountInactive c 5; CountResult c].
Definition started (w : nat) : list Action := [ThreadStart w true; ThreadLoop w].
Definition two : PoolConfig := {| min_isolates := 2; max_isolates := 8; max_memory_mb := 128; default_timeout_ms := 10000 |}.

(** Two workers; the script of call 0 runs on worker 1 when its call gives up. *)
Definition before : list Action := started 0 ++ started 1 ++
  [Begin 0 "for(;;);" None; CheckDestroyed 0; CountActive 0; TakeWorker 0; Send 0; ThreadReceive 1; GiveUp 0; Recycle 0;
   CountInactive 0 5; CountResult 0].
Definition hung_pool : NativeIsolatePool := default (pool_new two) (steps rt_new run (pool_new two) before).
Definition after_pool : NativeIsolatePool := default (pool_new two) (steps rt_new run hung_pool (timed_out 1 "1")).
Lemma some_default {A} (d : A) (o : option A) : bool_decide (is_Some o) = true → o = Some (default d o).
Proof. intros [? ->]%bool_decide_eq_true. done. Qed.
Lemma hung_reached : steps rt_new run (pool_new two) before = Some hung_pool.
Proof. apply some_default. vm_compute. reflexivity. Qed.
Lemma hung_idle c k : calls hung_pool !! c = Some k → in_flight k = false.
Proof.
  assert (bool_decide (map_Forall (λ _ k, in_flight k = false) (calls hung_pool)) = true) as H by (vm_compute; reflexivity).
  apply bool_decide_eq_true in H. apply H.
Qed.

(** One pool, two calls: the runtime that answered the first answers the second. *)
Definition story : list WorldAction :=
  [Create {| o_min := None; o_max := None; o_memory := None; o_timeout := Some 7%Z |}; Run 1 0 "a" None] ++
  (Inside 0 <$> started 0 ++ answered 0 0) ++ [Run 1 1 "b" (Some 3%Z)] ++ (Inside 0 <$> [ThreadLoop 0] ++ answered 1 0).
Definition told : World := default world_init (world_steps rt_new run world_init story).
Definition toy_pool : NativeIsolatePool := default (pool_new two) (objects told !! 0).
Lemma story_told : world_steps rt_new run world_init story = Some told.
Proof. apply some_default. vm_compute. reflexivity. Qed.
Lemma toy_there : objects told !! 0 = Some toy_pool.
Proof. apply some_default. vm_compute. reflexivity. Qed.
Definition call_b : Call := {| code := "b"; timeout_ms := Some 3%Z; pc := Returned (Ok ("b" : rstr)); reply := Some (Ok ("b" : rstr)) |}.
Lemma b_there : calls toy_pool !! 1 = Some call_b.
Proof. vm_compute. reflexivity. Qed.
(** The statistics a script sees then. *)
Example toy_stats : pool_stats told 1 = Some (0, 2, 0, 1)%Z.
Proof. vm_compute. reflexivity. Qed.
(** The registry lets go of the pool; its one worker has a round left before it returns. *)
Definition released : NativeIsolatePool :=
  default toy_pool (steps rt_new run toy_pool [Destroy; Drain]).
Definition ended_pool : NativeIsolatePool := default toy_pool (steps rt_new run released [ThreadLoop 0]).

(** The same story while call 0 waits for its worker. *)
Definition opening : list WorldAction :=
  [Create {| o_min := None; o_max := None; o_memory := None; o_timeout := Some 7%Z |}; Run 1 0 "a" None] ++
  (Inside 0 <$> started 0 ++ [CheckDestroyed 0; CountActive 0; TakeWorker 0; Send 0]).
Definition opened : World := default world_init (world_steps rt_new run world_init opening).
Definition busy_pool : NativeIsolatePool := default (pool_new two) (objects opened !! 0).
Definition call_a : Call := {| code := "a"; timeout_ms := None; pc := Waiting 0; reply := None |}.
Definition worker_0 : @WorkerThread nat :=
  {| queue := [{| task_code := "a"; task_timeout := Some 7%Z; reply_tx := 0 |}]; shutdown := false; thread := Receiving 0 |}.
Lemma opening_told : world_steps rt_new run world_init opening = Some opened.
Proof. apply some_default. vm_compute. reflexivity. Qed.
Lemma busy_there : objects opened !! 0 = Some busy_pool.
Proof. apply some_default. vm_compute. reflexivity. Qed.
Lemma a_there : calls busy_pool !! 0 = Some call_a.
Proof. vm_compute. reflexivity. Qed.
Lemma worker_there : threads busy_pool !! 0 = Some worker_0.
Proof. vm_compute. reflexivity. Qed.
End PoolToy.

Lemma hung_script_takes_pool_witness :
  0 ∈ workers PoolToy.hung_pool ∧
  ∃ k r, calls PoolToy.after_pool !! 1 = Some k ∧ pc k = Returned r ∧ r = Err (TimedOut ((timeout_ms k) .unwrap_or 10000%Z)).
Proof.
  split; [apply (bool_decide_unpack _); vm_compute; exact I|].
  exists {| code := "1"; timeout_ms := None; pc := Returned (Err (TimedOut 10000)); reply := None |}, (Err (TimedOut 10000)).
  split; [vm_compute; reflexivity|]. split; [reflexivity|].
  eapply (hung_script_takes_pool PoolToy.rt_new PoolToy.run PoolToy.two PoolToy.hung_pool 1 _ _ _
           (PoolToy.timed_out 1 "1") PoolToy.after_pool 1 {| code := "1"; timeout_ms := None; pc := _; reply := None |}).
  - exists PoolToy.before. exact PoolToy.hung_reached.
  - vm_compute. reflexivity.
  - vm_compute. reflexivity.
  - vm_compute. reflexivity.
  - vm_compute. discriminate.
  - vm_compute. reflexivity.
  - vm_compute. reflexivity.
  - exact PoolToy.hung_idle.
  - apply PoolToy.some_default. vm_compute. reflexivity.
  - split; [intros ? ?; apply PoolToy.hung_idle|]. vm_compute. repeat split.
  - vm_compute. reflexivity.
  - vm_compute. reflexivity.
  - reflexivity.
Defined.
Lemma pools_isolated_witness :
  ∃ (earlier : list rstr) rt rt' out,
    Forall (λ s, ∃ c' k', calls PoolToy.toy_pool !! c' = Some k' ∧ code k' = s) earlier ∧
    after_scripts PoolToy.rt_new PoolToy.run earlier = Some rt ∧
    PoolToy.run rt "b" = Some (rt', out) ∧ script_result out = Ok ("b" : rstr).
Proof.
  exact (pools_isolated PoolToy.rt_new PoolToy.run _ _ 0 _ 1 PoolToy.call_b _ PoolToy.story_told PoolToy.toy_there
           PoolToy.b_there eq_refl I).
Defined.
Lemma pool_metrics_witness :
  tasks_completed (metrics PoolToy.toy_pool) = wrap_u64 (Z.of_nat (tally (ended true) (calls PoolToy.toy_pool))) ∧
  tally (ended true) (calls PoolToy.toy_pool) = 2.
Proof.
  split; [|vm_compute; reflexivity].
  exact (proj1 (proj2 (pool_metrics PoolToy.rt_new PoolToy.run _ _ 0 _ PoolToy.story_told PoolToy.toy_there))).
Defined.
Lemma worker_is_exclusive_witness :
  thread (PoolToy.worker_0) ≠ Gone true ∧ 0 ∉ workers PoolToy.busy_pool.
Proof.
  destruct (proj1 (worker_is_exclusive PoolToy.rt_new PoolToy.run _ _ 0 _ 0 PoolToy.call_a PoolToy.opening_told
              PoolToy.busy_there PoolToy.a_there) 0 PoolToy.worker_0 eq_refl PoolToy.worker_there) as (_ & ? & ? & _).
  by split.
Defined.
Lemma unreferenced_pool_ends_witness :
  1 + backlog PoolToy.ended_pool ≤ backlog PoolToy.released ∧
  ((∀ a, step PoolToy.rt_new PoolToy.run PoolToy.ended_pool a = None) →
   ∀ w t, threads PoolToy.ended_pool !! w = Some t →
     (∃ started, thread t = Gone started) ∨
     ∃ rt tk, thread t = Running rt tk ∧ PoolToy.run rt (task_code tk) = None).
Proof.
  apply (unreferenced_pool_ends PoolToy.rt_new PoolToy.run PoolToy.released [ThreadLoop 0] PoolToy.ended_pool).
  - vm_compute. reflexivity.
  - apply PoolToy.some_default. vm_compute. reflexivity.
Defined.
(** A pool that is let go of while a script on its worker 1 does not end: the other
    worker returns, this one stays. *)
Example hung_thread_stays :
  let p := default PoolToy.hung_pool
    (steps PoolToy.rt_new PoolToy.run PoolToy.hung_pool [Destroy; Drain; ThreadTimeout 0]) in
  referenced p = false ∧ thread <$> threads p !! 0 = Some (Gone true) ∧
  thread <$> threads p !! 1 = Some (Running 0 {| task_code := "for(;;);"; task_timeout := Some 10000%Z; reply_tx := 0 |}) ∧
  step PoolToy.rt_new PoolToy.run p (ThreadFinish 1) = None.
Proof. split_and!; vm_compute; reflexivity. Qed.
