(* ===== verification/Bundler.v ===== *)
(** * The bundler, [src/tooling/bundler.rs]

    [amber bundle] walks the module graph from an entry file, rewrites the imports
    and exports of each module, checks the names that are imported, and assembles
    one script.  The parser (oxc) is a parameter that gives the module declarations of a
    source with their byte spans, the data types of which are below as far as the
    code looks at them; so are the disk, serde_json, the minifier, the TypeScript
    compiler and the order in which a [HashMap] is iterated.  A path is its
    spelling ([RawPath]).

    [walk] is the loop over the stack of files; its fuel is a number of rounds, and
    [BundlerTheorems.bundle_terminates] gives one that is enough. *)

From S2P Require Import Prelude RustPath RawPath Json ImportMap.

(** ** What oxc's parser gives: the module declarations of a file *)

Record Span := { span_start : nat; span_end : nat }.
Inductive BindingPattern :=
  | BindingIdentifier (name : rstr)
  | ObjectPattern (properties : list BindingPattern) (rest : option BindingPattern)
  | ArrayPattern (elements : list (option BindingPattern)) (rest : option BindingPattern)
  | AssignmentPattern (left : BindingPattern).
Inductive ImportDeclarationSpecifier :=
  | ImportSpecifier (imported local : rstr) (is_type : bool)
  | ImportDefaultSpecifier (local : rstr)
  | ImportNamespaceSpecifier (local : rstr).
Record ExportSpecifier := { exported : rstr; local : rstr; spec_is_type : bool }.
Inductive Declaration :=
  | VariableDeclaration (ids : list BindingPattern) (span : Span)
  | FunctionDeclaration (id : option rstr) (span : Span)
  | ClassDeclaration (id : option rstr) (span : Span)
  | OtherDeclaration.
Inductive ModuleDeclaration :=
  | ImportDeclaration (span : Span) (is_type : bool) (source : rstr) (specifiers : option (list ImportDeclarationSpecifier))
  | ExportDeclaration (span : Span) (declaration : Declaration)
  | ExportNamedDeclaration (span : Span) (is_type : bool) (specifiers : list ExportSpecifier)
  | ExportFromDeclaration (span : Span) (is_type : bool) (source : rstr) (specifiers : list ExportSpecifier)
  | ExportAllDeclaration (span : Span) (is_type : bool) (source : rstr) (exported : option rstr)
  | ExportDefaultDeclaration (span : Span) (id : option rstr) (expr : Span)
  | TSExportAssignment (span : Span)
  | TSNamespaceExportDeclaration (span : Span).

(** ** Data *)

Record BundleOptions := {
  entry : pathbuf;
  outfile : option pathbuf;
  minify : bool;
  sourcemap : bool;
  target : rstr;
  import_map : option pathbuf;
}.
Record BundleOutput := { out_code : rstr; out_map : option rstr; module_count : nat; total_bytes : nat }.
Record BundledModule := { bm_id : nat; bm_path : pathbuf; processed_code : rstr }.
Record ModuleAnalysis := {
  local_exports : gset rstr;
  reexports : list (rstr * rstr * rstr);     (* exported, specifier, name in source *)
  export_stars : list rstr;
  named_imports : list (rstr * rstr);        (* imported, specifier *)
}.
Definition analysis_default : ModuleAnalysis :=
  {| local_exports := ∅; reexports := []; export_stars := []; named_imports := [] |}.
Record SpanReplace := { start : nat; end_ : nat; text : rstr }.

Record BundleHost := {
  b_is_file : pathbuf → bool;
  b_is_dir : pathbuf → bool;
  b_exists : pathbuf → bool;
  b_canonicalize : pathbuf → option pathbuf;
  b_read : pathbuf → result rstr rstr;                       (* [read_to_string] *)
  b_write : pathbuf → rstr → result unit rstr;               (* [fs::write] *)
  b_create_dir_all : pathbuf → result unit rstr;
  b_json : rstr → option Json;
  b_import_map : rstr → result (gmap rstr rstr * gmap rstr (gmap rstr rstr)) rstr;
  b_parse : rstr → list ModuleDeclaration;                   (* oxc's parser *)
  b_minify : rstr → option rstr;                             (* oxc's parser and printer *)
  b_typescript : rstr → rstr → result rstr rstr;             (* code, file name *)
  b_map_text : list rstr → rstr;                             (* the source map's JSON *)
  b_iter : ∀ A, gmap rstr A → list (rstr * A);               (* [HashMap]'s order *)
}.

Definition BUNDLE_ERROR_PREFIX : rstr := "error: amber bundle:".
Definition BUNDLED_EXTENSIONS : list rstr :=
  String.list_ascii_of_string <$> ["js"; "mjs"; "cjs"; "jsx"; "ts"; "tsx"; "mts"; "cts"; "json"]%string.
Definition exts (l : list string) : list rstr := String.list_ascii_of_string <$> l.

Definition bundle_err {A} (text : rstr) : result A rstr :=
  Err (if starts_with BUNDLE_ERROR_PREFIX text then text else BUNDLE_ERROR_PREFIX ++ " " ++ text).

Definition is_relative_specifier (specifier : rstr) : bool :=
  starts_with "./" specifier || starts_with "../" specifier || bool_decide (specifier = ".") || bool_decide (specifier = "..").
Definition is_supported_bundle_module (p : pathbuf) : bool :=
  match pb_extension p with
  | Some ext => existsb (λ allowed, bool_decide (to_lowercase ext = to_lowercase allowed)) BUNDLED_EXTENSIONS
  | None => false
  end.
Definition is_local_path_specifier (specifier : rstr) : bool :=
  is_relative_specifier specifier || pb_is_absolute specifier.

Section bundler.
Context (h : BundleHost).

(** ** Resolution *)

(** The first of some candidates that is a file. *)
Fixpoint first_file (l : list pathbuf) : option pathbuf :=
  match l with [] => None | p :: l => if b_is_file h p then Some p else first_file l end.
Definition resolve_existing_candidate (direct : pathbuf) : option pathbuf :=
  if b_is_file h direct then Some direct
  else match first_file (with_extension direct <$> exts ["ts"; "tsx"; "js"; "mjs"; "cjs"; "jsx"; "json"]) with
       | Some p => Some p
       | None => if b_is_dir h direct
                 then first_file ((λ ext, pb_join direct ("index." ++ ext)) <$> exts ["ts"; "tsx"; "js"; "mjs"; "json"])
                 else None
       end.
(** One round of the search for [node_modules]. *)
Definition in_node_modules (cur : pathbuf) (specifier : rstr) : option pathbuf :=
  let candidate := pb_join (pb_join cur "node_modules") specifier in
  if b_is_file h candidate then Some candidate
  else match first_file (with_extension candidate <$> exts ["ts"; "js"; "mjs"; "json"]) with
       | Some p => Some p
       | None =>
           let pkg_json := pb_join candidate "package.json" in
           if b_is_file h pkg_json then
             match b_read h pkg_json with
             | Ok content =>
                 val ← b_json h content; main ← json_get val "main" ≫= as_str;
                 let main_path := pb_join candidate main in
                 if b_is_file h main_path then Some main_path else None
             | Err _ => None
             end
           else None
       end.
Fixpoint first_some {A B} (f : A → option B) (l : list A) : option B :=
  match l with [] => None | x :: l => match f x with Some y => Some y | None => first_some f l end end.
Definition resolve_module_path (from_file : pathbuf) (specifier : rstr) : option pathbuf :=
  let parent := (pb_parent from_file) .unwrap_or ("." : rstr) in
  if starts_with "." specifier then resolve_existing_candidate (pb_join parent specifier)
  else if pb_is_absolute specifier then resolve_existing_candidate specifier
  else first_some (λ cur, in_node_modules cur specifier) (ancestors parent).

Definition unsupported (p : pathbuf) : rstr :=
  "unsupported module '" ++ p ++ "' (bundled files must be js, mjs, cjs, jsx, ts, tsx, mts, cts, or json)".
Definition resolve_bundle_dep (map : option ImportMap) (from_file : pathbuf) (specifier : rstr) :
    result (option pathbuf) rstr :=
  let remapped := im ← map; resolve (b_iter h) im specifier (Some from_file) in
  let mapped := remapped .unwrap_or specifier in
  match resolve_module_path from_file mapped with
  | Some resolved =>
      if negb (is_supported_bundle_module resolved) then bundle_err (unsupported resolved) else Ok (Some resolved)
  | None =>
      if is_relative_specifier specifier || is_local_path_specifier mapped
         || match remapped with Some m => is_local_path_specifier m | None => false end
      then bundle_err ("cannot resolve '" ++ specifier ++ "' from " ++ from_file)
      else Ok None
  end.

(** ** Specifiers *)

(** A quoted text at the front. *)
Definition quoted (rest : rstr) : list rstr :=
  match rest with
  | q :: rest' =>
      if bool_decide (q = squote ∨ q = dquote)
      then match find_text [q] rest' with Some e => [take e rest'] | None => [] end
      else []
  | [] => []
  end.
Definition scan_line (line : rstr) : list rstr :=
  let trimmed := trim line in
  if starts_with "import type " trimmed || starts_with "export type " trimmed then []
  else
    (if (starts_with "import " trimmed || starts_with "export " trimmed) && contains " from " trimmed then
       match rfind_text " from " trimmed with
       | Some i => quoted (trim_end_char ";" (trim (drop (i + 6) trimmed)))
       | None => []
       end
     else if starts_with "import " trimmed && negb (starts_with "import(" trimmed) then
       quoted (trim_end_char ";" (trim (drop 7 trimmed)))
     else []) ++
    match find_text "require(" trimmed with
    | Some i => quoted (trim (drop (i + 8) trimmed))
    | None => []
    end.
Definition scan_import_specifiers_fallback (source : rstr) : list rstr := mjoin (scan_line <$> file_lines source).
Definition declared_specifier (d : ModuleDeclaration) : option rstr :=
  match d with
  | ImportDeclaration _ false source _ | ExportFromDeclaration _ false source _ | ExportAllDeclaration _ false source _ => Some source
  | _ => None
  end.
Definition push_new (l : list rstr) (s : rstr) : list rstr := if bool_decide (s ∈ l) then l else l ++ [s].
Definition scan_import_specifiers (source : rstr) : list rstr :=
  fold_left push_new (scan_import_specifiers_fallback source) (omap declared_specifier (b_parse h source)).

(** ** Rewriting a module *)

Definition span_text (source : rstr) (span : Span) : rstr :=
  let e := Nat.min (span_end span) (length source) in
  take (e - span_start span) (drop (span_start span) source).
Fixpoint collect_binding_names (pat : BindingPattern) : list rstr :=
  match pat with
  | BindingIdentifier name => [name]
  | ObjectPattern ps rest =>
      mjoin (collect_binding_names <$> ps) ++ match rest with Some r => collect_binding_names r | None => [] end
  | ArrayPattern es rest =>
      mjoin ((λ e, match e with Some p => collect_binding_names p | None => [] end) <$> es)
      ++ match rest with Some r => collect_binding_names r | None => [] end
  | AssignmentPattern l => collect_binding_names l
  end.

Definition require_id (dep_id : nat) : rstr := "__amberjs_require__(" ++ dec (N.of_nat dep_id) ++ ")".
Definition require_expr (dep_map : gmap rstr nat) (specifier : rstr) : rstr :=
  match dep_map !! specifier with
  | Some dep_id => require_id dep_id
  | None => "require('" ++ replace specifier [squote] [backslash; squote] ++ "')"
  end.
Definition remap_require (processed : rstr) (kv : rstr * nat) : rstr :=
  let target := require_id kv.2 in
  let processed := replace processed ("require('" ++ kv.1 ++ "')") target in
  replace processed ("require(" ++ [dquote] ++ kv.1 ++ [dquote] ++ ")") target.
Definition remap_requires (source : rstr) (dep_map : gmap rstr nat) : rstr :=
  fold_left remap_require (b_iter h nat dep_map) source.

(** [sort_by], a stable sort: the last replacement of the text first. *)
Definition later (a b : SpanReplace) : bool :=
  bool_decide (start b < start a) || (bool_decide (start a = start b) && bool_decide (end_ b ≤ end_ a)).
Fixpoint insert_span (r : SpanReplace) (l : list SpanReplace) : list SpanReplace :=
  match l with [] => [r] | x :: l' => if later r x then r :: l else x :: insert_span r l' end.
Definition sort_spans (l : list SpanReplace) : list SpanReplace := fold_right insert_span [] l.
Definition replace_range (out : rstr) (r : SpanReplace) : rstr :=
  if bool_decide (start r ≤ end_ r ∧ end_ r ≤ length out) then take (start r) out ++ text r ++ drop (end_ r) out else out.
Definition apply_span_replacements (source : rstr) (replacements : list SpanReplace) : rstr :=
  fold_left replace_range (sort_spans replacements) source.

Definition default_interop (tmp local : rstr) : rstr :=
  "const " ++ local ++ " = (" ++ tmp ++ " && " ++ tmp ++ ".__esModule && " ++ tmp ++ ".default !== undefined) ? "
  ++ tmp ++ ".default : " ++ tmp ++ ";".

(** What the loop over the declarations fills in. *)
Record Rewrite := {
  analysis : ModuleAnalysis;
  replacements : list SpanReplace;
  exports_to_assign : list (rstr * rstr);
  req_counter : nat;
}.
Definition rewrite_init : Rewrite :=
  {| analysis := analysis_default; replacements := []; exports_to_assign := []; req_counter := 0 |}.
Definition replaced (r : Rewrite) (span : Span) (t : rstr) : Rewrite :=
  {| analysis := analysis r;
     replacements := replacements r ++ [{| start := span_start span; end_ := span_end span; text := t |}];
     exports_to_assign := exports_to_assign r; req_counter := req_counter r |}.
(** A local export, to be assigned at the end of the module. *)
Definition assign_export (r : Rewrite) (exported local : rstr) : Rewrite :=
  {| analysis := {| local_exports := {[exported]} ∪ local_exports (analysis r); reexports := reexports (analysis r);
                    export_stars := export_stars (analysis r); named_imports := named_imports (analysis r) |};
     replacements := replacements r; exports_to_assign := exports_to_assign r ++ [(exported, local)]; req_counter := req_counter r |}.
Definition with_analysis (r : Rewrite) (a : ModuleAnalysis) : Rewrite :=
  {| analysis := a; replacements := replacements r; exports_to_assign := exports_to_assign r; req_counter := req_counter r |}.
Definition add_local (a : ModuleAnalysis) (name : rstr) : ModuleAnalysis :=
  {| local_exports := {[name]} ∪ local_exports a; reexports := reexports a; export_stars := export_stars a; named_imports := named_imports a |}.
Definition add_star (a : ModuleAnalysis) (spec : rstr) : ModuleAnalysis :=
  {| local_exports := local_exports a; reexports := reexports a; export_stars := export_stars a ++ [spec]; named_imports := named_imports a |}.
Definition add_imports (a : ModuleAnalysis) (l : list (rstr * rstr)) : ModuleAnalysis :=
  {| local_exports := local_exports a; reexports := reexports a; export_stars := export_stars a; named_imports := named_imports a ++ l |}.
Definition add_reexports (a : ModuleAnalysis) (l : list (rstr * rstr * rstr)) : ModuleAnalysis :=
  {| local_exports := local_exports a; reexports := reexports a ++ l; export_stars := export_stars a; named_imports := named_imports a |}.
(** [req_counter += 1], and the name made of it. *)
Definition next_tmp (r : Rewrite) : Rewrite * rstr :=
  ({| analysis := analysis r; replacements := replacements r; exports_to_assign := exports_to_assign r;
      req_counter := S (req_counter r) |}, "__amber_req_" ++ dec (N.of_nat (S (req_counter r)))).

Definition import_part (tmp : rstr) (sp : ImportDeclarationSpecifier) : option rstr :=
  match sp with
  | ImportSpecifier imported local false => Some ("const " ++ local ++ " = " ++ tmp ++ "." ++ imported)
  | ImportSpecifier _ _ true => None
  | ImportDefaultSpecifier local => Some (default_interop tmp local)
  | ImportNamespaceSpecifier local => Some ("const " ++ local ++ " = " ++ tmp)
  end.
Definition named_import (spec : rstr) (sp : ImportDeclarationSpecifier) : option (rstr * rstr) :=
  match sp with ImportSpecifier imported _ false => Some (imported, spec) | _ => None end.
Definition value_specifiers (l : list ExportSpecifier) : list ExportSpecifier := filter (λ s, spec_is_type s = false) l.
Definition parts_text (parts : list rstr) : rstr := join "; " parts ++ ";".

(** One module declaration. *)
Definition rewrite_declaration (source : rstr) (dep_map : gmap rstr nat) (r : Rewrite) (d : ModuleDeclaration) : Rewrite :=
  match d with
  | ImportDeclaration span true _ _ => replaced r span []
  | ImportDeclaration span false spec None => replaced r span (require_expr dep_map spec ++ ";")
  | ImportDeclaration span false spec (Some specifiers) =>
      let '(r, tmp) := next_tmp r in
      let parts := ("const " ++ tmp ++ " = " ++ require_expr dep_map spec) :: omap (import_part tmp) specifiers in
      replaced (with_analysis r (add_imports (analysis r) (omap (named_import spec) specifiers))) span (parts_text parts)
  | ExportDeclaration span (VariableDeclaration ids var) =>
      replaced (fold_left (λ r name, assign_export r name name) (mjoin (collect_binding_names <$> ids)) r) span (span_text source var)
  | ExportDeclaration span (FunctionDeclaration id decl) | ExportDeclaration span (ClassDeclaration id decl) =>
      replaced match id with Some name => assign_export r name name | None => r end span (span_text source decl)
  | ExportDeclaration span OtherDeclaration => replaced r span []
  | ExportNamedDeclaration span is_type specifiers =>
      let r := if is_type then r
               else fold_left (λ r s, assign_export r (exported s) (local s)) (value_specifiers specifiers) r in
      replaced r span []
  | ExportFromDeclaration span true _ _ => replaced r span []
  | ExportFromDeclaration span false spec specifiers =>
      let '(r, tmp) := next_tmp r in
      let values := value_specifiers specifiers in
      let parts := ("const " ++ tmp ++ " = " ++ require_expr dep_map spec)
                   :: ((λ s, "module.exports." ++ exported s ++ " = " ++ tmp ++ "." ++ local s) <$> values) in
      replaced (with_analysis r (add_reexports (analysis r) ((λ s, (exported s, spec, local s)) <$> values))) span (parts_text parts)
  | ExportAllDeclaration span true _ _ => replaced r span []
  | ExportAllDeclaration span false spec (Some name) =>
      replaced (with_analysis r (add_local (analysis r) name)) span
        ("module.exports." ++ name ++ " = " ++ require_expr dep_map spec ++ ";")
  | ExportAllDeclaration span false spec None =>
      replaced (with_analysis r (add_star (analysis r) spec)) span
        ("Object.assign(module.exports, " ++ require_expr dep_map spec ++ ");")
  | ExportDefaultDeclaration span (Some name) decl => replaced (assign_export r "default" name) span (span_text source decl)
  | ExportDefaultDeclaration span None decl =>
      replaced (with_analysis r (add_local (analysis r) "default")) span ("module.exports.default = " ++ span_text source decl ++ ";")
  | TSExportAssignment span | TSNamespaceExportDeclaration span => replaced r span []
  end.
Definition rewrite_module (source : rstr) (dep_map : gmap rstr nat) : Rewrite :=
  fold_left (rewrite_declaration source dep_map) (b_parse h source) rewrite_init.
Definition es_module_line : rstr := "Object.defineProperty(module.exports, '__esModule', { value: true });".
Definition transform_module_code (source : rstr) (dep_map : gmap rstr nat) : rstr * ModuleAnalysis :=
  let r := rewrite_module source dep_map in
  let remapped := remap_requires (apply_span_replacements source (replacements r)) dep_map in
  (join [newline] (es_module_line :: remapped
     :: ((λ kl, "module.exports." ++ kl.1 ++ " = " ++ kl.2 ++ ";") <$> exports_to_assign r)), analysis r).

(** ** The names a module exports *)

Section exports.
Context (analyses : list ModuleAnalysis) (dep_maps : list (gmap rstr nat)).

(** The loop over the [export *] of a module. *)
Fixpoint add_stars (rec : nat → list (option (gset rstr)) → option (gset rstr * list (option (gset rstr)))) (dep_map : gmap rstr nat)
    (stars : list rstr) (exports : gset rstr) (cache : list (option (gset rstr))) :
    option (gset rstr * list (option (gset rstr))) :=
  match stars with
  | [] => Some (exports, cache)
  | specifier :: stars =>
      match dep_map !! specifier with
      | Some dep_id =>
          '(nested, cache) ← rec dep_id cache;
          add_stars rec dep_map stars (exports ∪ (nested ∖ {["default" : rstr]})) cache
      | None => add_stars rec dep_map stars exports cache
      end
  end.
Definition locals_of (module_id : nat) : gset rstr :=
  match analyses !! module_id with Some a => local_exports a | None => ∅ end.
(** [None]: deeper than [depth] calls; [visiting] grows with each of them. *)
Fixpoint resolve_module_exports (depth : nat) (visiting : gset nat) (module_id : nat) (cache : list (option (gset rstr))) :
    option (gset rstr * list (option (gset rstr))) :=
  match depth with
  | 0 => None
  | S depth =>
      match cache !! module_id with
      | Some (Some cached) => Some (cached, cache)
      | _ =>
          if bool_decide (module_id ∈ visiting) then Some (locals_of module_id, cache)
          else
            '(exports, cache) ←
              match analyses !! module_id, dep_maps !! module_id with
              | Some a, Some dep_map =>
                  add_stars (resolve_module_exports depth ({[module_id]} ∪ visiting)) dep_map (export_stars a)
                    (local_exports a ∪ list_to_set ((λ r, r.1.1) <$> reexports a)) cache
              | _, _ => Some (locals_of module_id, cache)
              end;
            Some (exports, <[module_id := Some exports]> cache)
      end
  end.
(** More calls than there are modules are never nested. *)
Definition exports_depth : nat := S (S (length analyses)).

Definition shown (modules : list pathbuf) (module_id : nat) : rstr := (modules !! module_id) .unwrap_or (dec (N.of_nat module_id)).
(** The two loops over what a module imports and re-exports: name, specifier, and
    the error when the name is missing. *)
Fixpoint check_names (dep_map : gmap rstr nat) (l : list (rstr * rstr * rstr)) (cache : list (option (gset rstr))) :
    option (result unit rstr * list (option (gset rstr))) :=
  match l with
  | [] => Some (Ok tt, cache)
  | (name, specifier, error) :: l =>
      match dep_map !! specifier with
      | None => check_names dep_map l cache
      | Some dep_id =>
          '(exports, cache) ← resolve_module_exports exports_depth ∅ dep_id cache;
          if bool_decide (name ∈ exports) then check_names dep_map l cache else Some (bundle_err error, cache)
      end
  end.
Definition names_to_check (modules : list pathbuf) (module_id : nat) (a : ModuleAnalysis) : list (rstr * rstr * rstr) :=
  ((λ i, (i.1, i.2, ("missing export '" ++ i.1 ++ "' from '" ++ i.2 ++ "' (imported by " ++ shown modules module_id ++ ")"))) <$> named_imports a)
  ++ ((λ r, (r.2, r.1.2, ("missing export '" ++ r.2 ++ "' from '" ++ r.1.2 ++ "' (cannot re-export '" ++ r.1.1 ++ "' in "
                          ++ shown modules module_id ++ ")"))) <$> reexports a).
Fixpoint check_modules (modules : list pathbuf) (l : list (nat * ModuleAnalysis)) (cache : list (option (gset rstr))) :
    option (result unit rstr) :=
  match l with
  | [] => Some (Ok tt)
  | (module_id, a) :: l =>
      '(r, cache) ← check_names ((dep_maps !! module_id) .unwrap_or ∅) (names_to_check modules module_id a) cache;
      match r with Ok _ => check_modules modules l cache | Err e => Some (Err e) end
  end.
Definition validate_named_bindings (modules : list pathbuf) : option (result unit rstr) :=
  check_modules modules (imap pair analyses) (replicate (length analyses) None).
End exports.

(** ** The module graph *)

Definition canonical (p : pathbuf) : path := components ((b_canonicalize h p) .unwrap_or p).
Record Graph := { modules : list pathbuf; path_to_id : gmap path nat }.
(** The files the specifiers of one source name, in order. *)
Fixpoint dependencies (map : option ImportMap) (p : pathbuf) (specifiers : list rstr) : result (list (rstr * pathbuf)) rstr :=
  match specifiers with
  | [] => Ok []
  | specifier :: l =>
      dep ← resolve_bundle_dep map p specifier;
      deps ← dependencies map p l;
      Ok (match dep with Some resolved => (specifier, resolved) :: deps | None => deps end)
  end.
Definition read_module (p : pathbuf) : result rstr rstr :=
  match b_read h p with Ok source => Ok source | Err e => bundle_err ("failed to read '" ++ p ++ "': " ++ e) end.
Definition module_dependencies (map : option ImportMap) (p : pathbuf) : result (list (rstr * pathbuf)) rstr :=
  source ← read_module p; dependencies map p (scan_import_specifiers source).
(** The stack's top is the head here; each file's dependencies not visited yet go on top. *)
Fixpoint walk (fuel : nat) (map : option ImportMap) (queue : list pathbuf) (g : Graph) : option (result Graph rstr) :=
  match fuel with
  | 0 => None
  | S fuel =>
      match queue with
      | [] => Some (Ok g)
      | current :: queue =>
          if bool_decide (is_Some (path_to_id g !! canonical current)) then walk fuel map queue g
          else
            let g := {| modules := modules g ++ [current];
                        path_to_id := <[canonical current := length (modules g)]> (path_to_id g) |} in
            match module_dependencies map current with
            | Err e => Some (Err e)
            | Ok deps =>
                walk fuel map (reverse (filter (λ q, path_to_id g !! canonical q = None) deps.*2) ++ queue) g
            end
      end
  end.

(** ** [bundle_project] *)

Record PreparedModule := {
  prep_path : pathbuf;
  prep_analysis : ModuleAnalysis;
  dep_map : gmap rstr nat;
  prep_code : rstr;
  transpile : bool;
}.
Definition dep_map_of (g : Graph) (deps : list (rstr * pathbuf)) : gmap rstr nat :=
  fold_left (λ m d, match path_to_id g !! canonical d.2 with Some dep_id => <[d.1 := dep_id]> m | None => m end) deps ∅.
Definition has_extension (p : pathbuf) (l : list string) : bool :=
  match pb_extension p with Some ext => bool_decide (ext ∈ exts l) | None => false end.
Definition prepare (map : option ImportMap) (g : Graph) (p : pathbuf) : result PreparedModule rstr :=
  source ← read_module p;
  deps ← dependencies map p (scan_import_specifiers source);
  let dep_map := dep_map_of g deps in
  let is_json := has_extension p ["json"%string] in
  let '(code, a) := if is_json then ("module.exports = " ++ trim source ++ ";", analysis_default)
                    else transform_module_code source dep_map in
  Ok {| prep_path := p; prep_analysis := a; dep_map := dep_map; prep_code := code;
        transpile := negb is_json && has_extension p ["ts"; "tsx"; "mts"; "cts"]%string |}.
Fixpoint try_each {A B} (f : A → result B rstr) (l : list A) : result (list B) rstr :=
  match l with [] => Ok [] | x :: l => y ← f x; ys ← try_each f l; Ok (y :: ys) end.
(** The batch: one output per TypeScript module. *)
Definition compile_module (m : PreparedModule) : result rstr rstr :=
  if transpile m then
    match b_typescript h (prep_code m) (prep_path m) with
    | Ok js => Ok js
    | Err e => bundle_err ("TypeScript compile failed for '" ++ prep_path m ++ "': " ++ e)
    end
  else Ok (prep_code m).

Definition lines (l : list rstr) : rstr := mjoin ((λ s, s ++ [newline]) <$> l).
Definition registry_text (target : rstr) : rstr := lines [
  "// Amber Production Bundle 2.0 (oxc engine)" : rstr;
  "// Target: " ++ target;
  [] : rstr;
  "(function(modules) {" : rstr;
  "  var installed = {};" : rstr;
  "  function __amberjs_require__(id) {" : rstr;
  "    if (installed[id]) return installed[id].exports;" : rstr;
  "    var module = installed[id] = { exports: {} };" : rstr;
  "    if (modules[id] !== undefined) {" : rstr;
  "      modules[id].call(module.exports, module, module.exports, __amberjs_require__);" : rstr;
  "      return module.exports;" : rstr;
  "    }" : rstr;
  "    if (typeof require === 'function') {" : rstr;
  "      return require(id);" : rstr;
  "    }" : rstr;
  "    throw new Error(" ++ [dquote] ++ "Cannot find module '" ++ [dquote] ++ " + id + " ++ [dquote] ++ "'" ++ [dquote] ++ ");";
  "  }" : rstr;
  "  return __amberjs_require__(0);" : rstr;
  "})({" : rstr].
Definition module_text (m : BundledModule) : rstr :=
  lines (("  // [" ++ dec (N.of_nat (bm_id m)) ++ "] " ++ bm_path m)
         :: ("  " ++ dec (N.of_nat (bm_id m)) ++ ": function(module, exports, __amberjs_require__) {")
         :: ((λ line, "    " ++ line) <$> file_lines (processed_code m)) ++ ["  }," : rstr]).
Definition assemble (target : rstr) (bundled : list BundledModule) : rstr :=
  registry_text target ++ mjoin (module_text <$> bundled) ++ lines ["});" : rstr].
Definition minify_code (bundle : rstr) : rstr :=
  let minified := (b_minify h bundle) .unwrap_or bundle in
  join [newline] (filter (λ l, negb (bool_decide (l = [])) && negb (starts_with "//" l) = true) (trim <$> file_lines minified)).

(** The text of the bundle, before anything is written. *)
Definition load_map (options : BundleOptions) : result (option ImportMap) rstr :=
  match import_map options with
  | Some p => match load (b_read h p) (b_import_map h) p with Ok im => Ok (Some im) | Err e => bundle_err e end
  | None => Ok None
  end.
Definition check_entry (e : pathbuf) : result unit rstr :=
  if negb (b_exists h e) then bundle_err ("entry file not found: " ++ e)
  else if negb (b_is_file h e) then bundle_err ("entry must be a file: " ++ e)
  else if negb (is_supported_bundle_module e) then bundle_err (unsupported e)
  else Ok tt.
(** The rewritten modules, their analyses and what their specifiers name. *)
Definition bundle_modules (map : option ImportMap) (g : Graph) :
    option (result (list BundledModule * list PreparedModule) rstr) :=
  match
    prepared ← try_each (prepare map g) (modules g);
    codes ← try_each compile_module prepared;
    mret (imap (λ id mc, {| bm_id := id; bm_path := prep_path mc.1; processed_code := mc.2 |}) (zip prepared codes), prepared)
  with
  | Err e => Some (Err e)
  | Ok (bundled, prepared) =>
      r ← validate_named_bindings (prep_analysis <$> prepared) (dep_map <$> prepared) (modules g);
      Some (match r with Ok _ => Ok (bundled, prepared) | Err e => Err e end)
  end.
Definition output_of (options : BundleOptions) (g : Graph) (bundled : list BundledModule) : BundleOutput :=
  let bundle := assemble (target options) bundled in
  let final_code := if minify options then minify_code bundle else bundle in
  {| out_code := final_code; out_map := if sourcemap options then Some (b_map_text h (modules g)) else None;
     module_count := length bundled; total_bytes := length final_code |}.
(** What is written, in order, until a write fails. *)
Inductive Effect := CreateDir (p : pathbuf) | Write (p : pathbuf) (data : rstr).
Definition wrote (out : pathbuf) (r : result unit rstr) : result unit rstr :=
  match r with Ok _ => Ok tt | Err e => bundle_err ("failed to write '" ++ out ++ "': " ++ e) end.
Definition perform (e : Effect) : pathbuf * result unit rstr :=
  match e with CreateDir p => (p, b_create_dir_all h p) | Write p data => (p, b_write h p data) end.
Fixpoint perform_all (l : list (Effect * pathbuf)) : list Effect * result unit rstr :=
  match l with
  | [] => ([], Ok tt)
  | (e, shown) :: l =>
      match wrote shown (perform e).2 with
      | Ok _ => let '(done, r) := perform_all l in (e :: done, r)
      | Err text => ([e], Err text)
      end
  end.
Definition writes_of (options : BundleOptions) (o : BundleOutput) : list (Effect * pathbuf) :=
  match outfile options with
  | None => []
  | Some out =>
      match pb_parent out with
      | Some parent => if b_exists h parent then [] else [(CreateDir parent, out)]
      | None => []
      end
      ++ [(Write out (out_code o), out)]
      ++ match out_map o with
         | Some map_str => let map_path := with_extension out "map" in [(Write map_path map_str, map_path)]
         | None => []
         end
  end.
Definition bundle_text (fuel : nat) (options : BundleOptions) : option (result BundleOutput rstr) :=
  match (_ ← check_entry (entry options); load_map options) with
  | Err e => Some (Err e)
  | Ok map =>
      r ← walk fuel map [entry options] {| modules := []; path_to_id := ∅ |};
      match r with
      | Err e => Some (Err e)
      | Ok g =>
          r ← bundle_modules map g;
          Some (match r with Ok (bundled, _) => Ok (output_of options g bundled) | Err e => Err e end)
      end
  end.
Definition bundle_project (fuel : nat) (options : BundleOptions) : option (list Effect * result BundleOutput rstr) :=
  r ← bundle_text fuel options;
  Some match r with
       | Err e => ([], Err e)
       | Ok o => let '(done, w) := perform_all (writes_of options o) in
                 (done, match w with Ok _ => Ok o | Err e => Err e end)
       end.
End bundler.
