(* ===== verification/BundlerTheorems.v ===== *)
(** * Theorems on the bundler

    The module graph: what [walk] returns is closed and contains nothing else, and
    it returns.  The registry: every specifier that names a file is given the id of
    that file's module.  The text of a bundle is the entries of its modules.  Replacing spans is
    one pass over the source.  The names a module exports are those of the bundler's own rule when
    [export *] has no cycle, and fewer when it has; that rule is compared with ECMAScript's.  Failures carry the contract's prefix and write nothing. *)

From S2P Require Import Prelude RustPath RawPath Json ImportMap Bundler.

Section graph.
Context (h : BundleHost) (map : option ImportMap).

(** [q] is named by a specifier of [p]. *)
Definition depends (p q : pathbuf) : Prop :=
  ∃ deps s, module_dependencies h map p = Ok deps ∧ (s, q) ∈ deps.
Inductive Reach (e : pathbuf) : pathbuf → Prop :=
  | reach_entry : Reach e e
  | reach_dep p q : Reach e p → depends p q → Reach e q.

Definition has_id (g : Graph) (q : pathbuf) : Prop := is_Some (path_to_id g !! canonical h q).
(** The ids are the positions in [modules], by canonical path. *)
Record indexed (g : Graph) : Prop := {
  indexed_nodup : NoDup (canonical h <$> modules g);
  indexed_ids : ∀ c i, path_to_id g !! c = Some i ↔ canonical h <$> modules g !! i = Some c;
}.
Record Walking (e : pathbuf) (queue : list pathbuf) (g : Graph) : Prop := {
  walking_indexed : indexed g;
  walking_entry : modules g !! 0 = Some e ∨ (modules g = [] ∧ queue = [e]);
  walking_reach : ∀ p, p ∈ modules g ∨ p ∈ queue → Reach e p;
  walking_closed : ∀ p, p ∈ modules g → ∃ deps, module_dependencies h map p = Ok deps ∧
    ∀ s q, (s, q) ∈ deps → has_id g q ∨ ∃ q', q' ∈ queue ∧ canonical h q' = canonical h q;
}.

Definition add_module (g : Graph) (p : pathbuf) : Graph :=
  {| modules := modules g ++ [p]; path_to_id := <[canonical h p := length (modules g)]> (path_to_id g) |}.
Lemma add_module_indexed g p : indexed g → path_to_id g !! canonical h p = None → indexed (add_module g p).
Proof.
  intros [Hn Hi] Hp. assert (Hnot : canonical h p ∉ canonical h <$> modules g).
  { intros (i & Hc)%list_elem_of_lookup. rewrite list_lookup_fmap in Hc. apply Hi in Hc. congruence. }
  split; simpl.
  - rewrite fmap_app. apply NoDup_app. split_and!; [done| |apply NoDup_singleton].
    intros c Hc ->%list_elem_of_singleton. done.
  - intros c i. rewrite lookup_insert_Some. split.
    + intros [[<- <-]|[Hne Hc]].
      * rewrite lookup_app_r, Nat.sub_diag by done. done.
      * apply Hi in Hc. apply fmap_Some in Hc as (q & Hq & ->). by rewrite (lookup_app_l_Some _ _ _ _ Hq).
    + intros (q & Hq & ->)%fmap_Some. apply lookup_app_Some in Hq as [Hq|[Hle Hq]].
      * right. assert (Hq' : path_to_id g !! canonical h q = Some i) by (apply Hi; by rewrite Hq). split; congruence.
      * left. destruct (i - length (modules g)) as [|n] eqn:E; simpl in Hq; simplify_eq. split; [done|lia].
Qed.
Lemma add_module_id g p q : has_id g q ∨ canonical h q = canonical h p → has_id (add_module g p) q.
Proof.
  unfold has_id. simpl. intros [[i Hi]| ->].
  - destruct (decide (canonical h p = canonical h q)) as [->|]; [rewrite lookup_insert_eq|rewrite lookup_insert_ne by done]; eauto.
  - rewrite lookup_insert_eq. eauto.
Qed.

Lemma walking_skip e p queue g :
  Walking e (p :: queue) g → has_id g p → Walking e queue g.
Proof.
  intros [H1 H2 H3 H4] Hp. split; [done| | |].
  - left. destruct H2 as [?|[Hm [= -> ->]]]; [done|]. destruct Hp as [i Hi].
    apply (indexed_ids _ H1) in Hi. by rewrite Hm in Hi.
  - intros q [?|?]; apply H3; [by left|right; by right].
  - intros q Hq. destruct (H4 q Hq) as (deps & Hd & Hc). exists deps. split; [done|]. intros s q1 Hin.
    destruct (Hc s q1 Hin) as [?|(q' & [-> |Hq']%elem_of_cons & Heq)]; [by left| |by right; exists q'].
    left. unfold has_id. by rewrite <-Heq.
Qed.
Lemma walking_visit e p queue g deps :
  Walking e (p :: queue) g → path_to_id g !! canonical h p = None → module_dependencies h map p = Ok deps →
  Walking e (reverse (filter (λ q, path_to_id (add_module g p) !! canonical h q = None) deps.*2) ++ queue) (add_module g p).
Proof.
  intros [H1 H2 H3 H4] Hp Hd.
  assert (Hreach : Reach e p) by (apply H3; right; left).
  assert (Hin : ∀ q, q ∈ deps.*2 → ∃ s, (s, q) ∈ deps).
  { intros q ([s q1] & -> & Hq)%list_elem_of_fmap. by exists s. }
  split.
  - by apply add_module_indexed.
  - left. simpl. destruct H2 as [Hm|[Hm [= -> ->]]]; [by apply lookup_app_l_Some|by rewrite Hm].
  - intros q [Hq|Hq].
    + simpl in Hq. apply elem_of_app in Hq as [?| ->%list_elem_of_singleton]; [apply H3; by left|done].
    + apply elem_of_app in Hq as [Hq|?]; [|apply H3; right; by right].
      apply elem_of_reverse, list_elem_of_filter in Hq as [_ [s Hs]%Hin]. eapply reach_dep; [done|]. by exists deps, s.
  - intros q Hq. simpl in Hq. apply elem_of_app in Hq as [Hq| ->%list_elem_of_singleton].
    + destruct (H4 q Hq) as (deps' & Hd' & Hc). exists deps'. split; [done|]. intros s q1 Hs.
      destruct (Hc s q1 Hs) as [?|(q' & [-> |Hq']%elem_of_cons & Heq)].
      * left. apply add_module_id. by left.
      * left. apply add_module_id. by right.
      * right. exists q'. split; [|done]. apply elem_of_app. by right.
    + exists deps. split; [done|]. intros s q1 Hs. destruct (path_to_id (add_module g p) !! canonical h q1) as [i|] eqn:E.
      * left. by exists i.
      * right. exists q1. split; [|done]. apply elem_of_app. left. apply elem_of_reverse, list_elem_of_filter. split; [done|].
        apply list_elem_of_fmap. by exists (s, q1).
Qed.
Lemma walk_invariant fuel e queue g g' : Walking e queue g → walk h fuel map queue g = Some (Ok g') → Walking e [] g'.
Proof.
  revert queue g. induction fuel as [|fuel IH]; intros queue g Hw Hr; [done|]. simpl in Hr.
  destruct queue as [|p queue]; [by simplify_eq|]. case_bool_decide as Hp.
  - eapply IH; [|done]. by eapply walking_skip.
  - destruct (module_dependencies h map p) as [deps|] eqn:Hd; [|done]. eapply IH; [|exact Hr].
    apply (walking_visit e p queue g deps); [done| |done]. by apply eq_None_not_Some.
Qed.
Definition start_graph : Graph := {| modules := []; path_to_id := ∅ |}.
Lemma walking_start e : Walking e [e] start_graph.
Proof.
  split.
  - split; [by apply NoDup_nil|]. intros c i. simpl. by rewrite lookup_empty.
  - by right.
  - intros p [Hp|Hp]; [by apply elem_of_nil in Hp|]. apply list_elem_of_singleton in Hp as ->. constructor.
  - intros p Hp. by apply elem_of_nil in Hp.
Qed.

(** ** The walk ends *)

Lemma walk_total (U : gset path) :
  (∀ p q, canonical h p ∈ U → depends p q → canonical h q ∈ U) →
  ∀ n queue g, size (U ∖ dom (path_to_id g)) = n → (∀ q, q ∈ queue → canonical h q ∈ U) →
  ∃ fuel, ∀ fuel', fuel ≤ fuel' → is_Some (walk h fuel' map queue g).
Proof.
  intros Hdep. induction n as [n IHn] using lt_wf_ind. intros queue. induction queue as [|p queue IHq]; intros g Hn Hq.
  - exists 1. intros [|fuel'] ?; [lia|]. simpl. eauto.
  - destruct (decide (is_Some (path_to_id g !! canonical h p))) as [Hp|Hp].
    + destruct (IHq g Hn) as [fuel Hf]; [intros; apply Hq; by right|]. exists (S fuel). intros [|fuel'] Hle; [lia|].
      simpl. rewrite bool_decide_eq_true_2 by done. apply Hf. lia.
    + destruct (module_dependencies h map p) as [deps|err] eqn:Hd.
      * assert (Hlt : size (U ∖ dom (path_to_id (add_module g p))) < n).
        { rewrite <-Hn. apply subset_size. simpl. rewrite dom_insert. assert (canonical h p ∈ U) by (apply Hq; left).
          assert (canonical h p ∉ dom (path_to_id g)) by by rewrite elem_of_dom. set_solver. }
        destruct (IHn _ Hlt (reverse (filter (λ q, path_to_id (add_module g p) !! canonical h q = None) deps.*2) ++ queue)
            (add_module g p) eq_refl) as [fuel Hf].
        { intros q [Hin|Hin]%elem_of_app; [|apply Hq; by right].
          apply elem_of_reverse, list_elem_of_filter in Hin as [_ ([s q1] & -> & Hs)%list_elem_of_fmap].
          apply (Hdep p); [apply Hq; left|]. by exists deps, s. }
        exists (S fuel). intros [|fuel'] Hle; [lia|]. simpl. rewrite bool_decide_eq_false_2, Hd by done. apply Hf. lia.
      * exists 1. intros [|fuel'] ?; [lia|]. simpl. rewrite bool_decide_eq_false_2, Hd by done. eauto.
Qed.
End graph.

(** ** The names a module exports *)

Lemma is_Some_bind {A B} (o : option A) (f : A → option B) : is_Some o → (∀ a, is_Some (f a)) → is_Some (o ≫= f).
Proof. intros [a ->] Hf. apply Hf. Qed.
Abbreviation Cache := (list (option (gset rstr))).
(** The names of a module before its [export *]. *)
Definition own_names (a : ModuleAnalysis) : gset rstr := local_exports a ∪ list_to_set ((λ r, r.1.1) <$> reexports a).
Lemma own_names_spec a x : x ∈ own_names a ↔ x ∈ local_exports a ∨ ∃ r, r ∈ reexports a ∧ x = r.1.1.
Proof.
  unfold own_names. rewrite elem_of_union, elem_of_list_to_set, list_elem_of_fmap. naive_solver.
Qed.

Lemma add_stars_spec (rec : nat → Cache → option (gset rstr * Cache)) (C : Cache → Prop) (Q : nat → gset rstr → Prop)
    dm stars exports cache exports' cache' :
  (∀ specifier d c n c', specifier ∈ stars → dm !! specifier = Some d → C c → rec d c = Some (n, c') → Q d n ∧ C c') →
  C cache → add_stars rec dm stars exports cache = Some (exports', cache') →
  C cache' ∧
  (∀ x, x ∈ exports' → x ∈ exports ∨ ∃ specifier d n, specifier ∈ stars ∧ dm !! specifier = Some d ∧ Q d n ∧ x ∈ n ∧ x ≠ ("default" : rstr)) ∧
  exports ⊆ exports' ∧
  (∀ specifier d, specifier ∈ stars → dm !! specifier = Some d → ∃ n, Q d n ∧ ∀ x, x ∈ n → x ≠ ("default" : rstr) → x ∈ exports').
Proof.
  revert exports cache. induction stars as [|s stars IH]; intros exports cache Hrec Hc Hr; simpl in Hr.
  - simplify_eq. split_and!; [done|by left|done|]. intros ? ? Hin. by apply elem_of_nil in Hin.
  - assert (Hrec' : ∀ specifier d c n c', specifier ∈ stars → dm !! specifier = Some d → C c → rec d c = Some (n, c') → Q d n ∧ C c')
      by (intros; eapply Hrec; [by right|done..]).
    destruct (dm !! s) as [d|] eqn:Es.
    + destruct (rec d cache) as [[n c1]|] eqn:Er; [|done]. simpl in Hr.
      destruct (Hrec s d cache n c1 ltac:(by left) Es Hc Er) as [Hq Hc1].
      destruct (IH _ _ Hrec' Hc1 Hr) as (Hc' & Hsub & Hsup & Hall). split_and!; [done| |set_solver|].
      * intros x [Hx|(sp & d' & n' & ? & ?)]%Hsub; [|right; exists sp, d', n'; split; [by right|done]].
        apply elem_of_union in Hx as [?|[Hx Hd]%elem_of_difference]; [by left|]. right. exists s, d, n.
        split_and!; [by left|done|done|done|]. intros ->. by apply Hd, elem_of_singleton.
      * intros sp d' [-> |Hin]%elem_of_cons Hd'; [|by apply (Hall sp)]. simplify_eq. exists n. split; [done|].
        intros x Hx Hne. apply Hsup, elem_of_union. right. apply elem_of_difference. split; [done|]. by rewrite elem_of_singleton.
    + destruct (IH _ _ Hrec' Hc Hr) as (Hc' & Hsub & Hsup & Hall). split_and!; [done| |done|].
      * intros x [Hx|(sp & d' & n' & ? & ?)]%Hsub; [by left|right; exists sp, d', n'; split; [by right|done]].
      * intros sp d' [-> |Hin]%elem_of_cons Hd'; [congruence|by apply (Hall sp)].
Qed.

Section exports.
#[local] Set Default Proof Using "All".
Context (analyses : list ModuleAnalysis) (dep_maps : list (gmap rstr nat)).
Context (same_length : length dep_maps = length analyses).

(** The bundler's rule: own names, re-exported ones whether or not they lead anywhere, and
    those of [export *] but the default. *)
Inductive Offers : nat → rstr → Prop :=
  | offers_local m a x : analyses !! m = Some a → x ∈ local_exports a → Offers m x
  | offers_from m a r : analyses !! m = Some a → r ∈ reexports a → Offers m r.1.1
  | offers_star m a dm specifier m' x :
      analyses !! m = Some a → dep_maps !! m = Some dm → specifier ∈ export_stars a → dm !! specifier = Some m' →
      Offers m' x → x ≠ ("default" : rstr) → Offers m x.

(** ECMAScript's ResolveExport, on what the bundler knows of the modules: the binding a
    name stands for is found in finitely many steps, own names before those of
    [export *]; a name is exported if it stands for one binding only. *)
Inductive Binding :=
  | Own (m : nat) (x : rstr)
  | Outside (specifier x : rstr).   (* of a module that is not bundled *)
Inductive Resolves : nat → rstr → Binding → Prop :=
  | resolves_local m a x : analyses !! m = Some a → x ∈ local_exports a → Resolves m x (Own m x)
  | resolves_from m a dm r m' b :
      analyses !! m = Some a → dep_maps !! m = Some dm → r ∈ reexports a → dm !! r.1.2 = Some m' →
      Resolves m' r.2 b → Resolves m r.1.1 b
  | resolves_outside m a dm r :
      analyses !! m = Some a → dep_maps !! m = Some dm → r ∈ reexports a → dm !! r.1.2 = None →
      Resolves m r.1.1 (Outside r.1.2 r.2)
  | resolves_star m a dm specifier m' x b :
      analyses !! m = Some a → dep_maps !! m = Some dm → specifier ∈ export_stars a → dm !! specifier = Some m' →
      x ∉ own_names a → x ≠ ("default" : rstr) → Resolves m' x b → Resolves m x b.
Definition EsExports (m : nat) (x : rstr) : Prop := ∃ b, Resolves m x b ∧ ∀ b', Resolves m x b' → b' = b.
Lemma es_offers m x : EsExports m x → Offers m x.
Proof.
  intros (b & Hb & _). induction Hb.
  - by eapply offers_local.
  - by eapply offers_from.
  - by eapply offers_from.
  - by eapply offers_star.
Qed.

(** Entries of the cache satisfy [Q]. *)
Definition cached (Q : nat → gset rstr → Prop) (c : Cache) : Prop := ∀ m n, c !! m = Some (Some n) → Q m n.
Lemma cached_insert Q c m n : cached Q c → Q m n → cached Q (<[m := Some n]> c).
Proof.
  intros Hc Hq m' n' Hm. destruct (decide (m = m')) as [->|].
  - apply list_lookup_insert_Some in Hm as [(_ & ? & _)|[? _]]; [by simplify_eq|done].
  - rewrite list_lookup_insert_ne in Hm by done. by apply Hc.
Qed.

(** Every name found is offered, cycles or not. *)
Definition found (m : nat) (n : gset rstr) : Prop := ∀ x, x ∈ n → Offers m x.
Lemma locals_found m : found m (locals_of analyses m).
Proof. intros x Hx. unfold locals_of in Hx. destruct (analyses !! m) eqn:E; [by eapply offers_local|set_solver]. Qed.
Lemma resolve_found depth visiting m c n c' :
  cached found c → resolve_module_exports analyses dep_maps depth visiting m c = Some (n, c') → found m n ∧ cached found c'.
Proof.
  revert visiting m c n c'. induction depth as [|depth IH]; intros visiting m c n c' Hc Hr; [done|]. simpl in Hr.
  assert (Hmiss : (if bool_decide (m ∈ visiting) then Some (locals_of analyses m, c)
            else '(exports, cache) ←
              match analyses !! m, dep_maps !! m with
              | Some a, Some dep_map =>
                  add_stars (resolve_module_exports analyses dep_maps depth ({[m]} ∪ visiting)) dep_map (export_stars a) (own_names a) c
              | _, _ => Some (locals_of analyses m, c)
              end; Some (exports, <[m := Some exports]> cache)) = Some (n, c') → found m n ∧ cached found c').
  { case_bool_decide; [intros [= <- <-]; split; [apply locals_found|done]|].
    intros ([n1 c1] & He & [= <- <-])%bind_Some. enough (found m n1 ∧ cached found c1) as [? ?] by (split; [done|by apply cached_insert]).
    destruct (analyses !! m) as [a|] eqn:Ea; [|simplify_eq; split; [apply locals_found|done]].
    destruct (dep_maps !! m) as [dm|] eqn:Ed; [|simplify_eq; split; [apply locals_found|done]].
    apply (add_stars_spec _ (cached found) found) in He as (Hc1 & Hsub & _); [|by eauto|done]. split; [|done].
    intros x [Hx|(sp & d & n2 & Hsp & Hd & Hf & Hx & Hne)]%Hsub.
    - apply own_names_spec in Hx as [?|(r & ? & ->)]; [by eapply offers_local|by eapply offers_from].
    - eapply offers_star; [done|done|done|done|by apply Hf|done]. }
  destruct (c !! m) as [[n0|]|] eqn:E; [simplify_eq; split; [by apply Hc|done]|by apply Hmiss..].
Qed.

(** Without a cycle of [export *], every offered name is found. *)
Definition star_edge (m m' : nat) : Prop :=
  ∃ a dm s, analyses !! m = Some a ∧ dep_maps !! m = Some dm ∧ s ∈ export_stars a ∧ dm !! s = Some m'.
Definition complete_names (m : nat) (n : gset rstr) : Prop := ∀ x, Offers m x → x ∈ n.
Lemma resolve_complete (rank : nat → nat) depth visiting m c n c' :
  (∀ m m', star_edge m m' → rank m' < rank m) →
  (∀ v, v ∈ visiting → rank m < rank v) → cached complete_names c →
  resolve_module_exports analyses dep_maps depth visiting m c = Some (n, c') → complete_names m n ∧ cached complete_names c'.
Proof.
  intros Hrank. revert visiting m c n c'. induction depth as [|depth IH]; intros visiting m c n c' Hv Hc Hr; [done|]. simpl in Hr.
  assert (Hmiss : (if bool_decide (m ∈ visiting) then Some (locals_of analyses m, c)
            else '(exports, cache) ←
              match analyses !! m, dep_maps !! m with
              | Some a, Some dep_map =>
                  add_stars (resolve_module_exports analyses dep_maps depth ({[m]} ∪ visiting)) dep_map (export_stars a) (own_names a) c
              | _, _ => Some (locals_of analyses m, c)
              end; Some (exports, <[m := Some exports]> cache)) = Some (n, c') → complete_names m n ∧ cached complete_names c').
  { rewrite bool_decide_eq_false_2 by (intros ?%Hv; lia).
    intros ([n1 c1] & He & [= <- <-])%bind_Some. enough (complete_names m n1 ∧ cached complete_names c1) as [? ?] by (split; [done|by apply cached_insert]).
    destruct (analyses !! m) as [a|] eqn:Ea.
    2: { simplify_eq. split; [|done]. intros x Hx. inversion Hx; congruence. }
    destruct (dep_maps !! m) as [dm|] eqn:Ed.
    2: { apply lookup_ge_None in Ed. apply lookup_lt_Some in Ea. lia. }
    apply (add_stars_spec _ (cached complete_names) complete_names) in He as (Hc1 & _ & Hown & Hall); [| |done].
    - split; [|done]. intros x Hx. inversion Hx as [? a' ? Ha'|? a' r Ha' Hin|? a' dm' s m' ? Ha' Hd' Hs Hm' Hx' Hne]; simplify_eq.
      + apply Hown, own_names_spec. by left.
      + apply Hown, own_names_spec. right. by exists r.
      + destruct (Hall s m' Hs Hm') as (n2 & Hn2 & Hin). apply Hin; [by apply Hn2|done].
    - intros s d c2 n2 c3 Hs Hd Hc2 Hr2. assert (rank d < rank m) by (apply Hrank; by exists a, dm, s).
      eapply IH; [|done|done]. intros v [->%elem_of_singleton|Hin]%elem_of_union; [done|]. pose proof (Hv v Hin). lia. }
  destruct (c !! m) as [[n0|]|] eqn:E; [simplify_eq; split; [by apply Hc|done]|by apply Hmiss..].
Qed.

(** The depth is enough: no module is visited twice on the way down. *)
Lemma resolve_total depth visiting m c :
  visiting ⊆ set_seq 0 (length analyses) → 2 + (length analyses - size visiting) ≤ depth →
  is_Some (resolve_module_exports analyses dep_maps depth visiting m c).
Proof.
  revert visiting m c. induction depth as [|depth IH]; intros visiting m c Hv Hd; [lia|]. simpl.
  assert (Hmiss : is_Some (if bool_decide (m ∈ visiting) then Some (locals_of analyses m, c)
            else '(exports, cache) ←
              match analyses !! m, dep_maps !! m with
              | Some a, Some dep_map =>
                  add_stars (resolve_module_exports analyses dep_maps depth ({[m]} ∪ visiting)) dep_map (export_stars a) (own_names a) c
              | _, _ => Some (locals_of analyses m, c)
              end; Some (exports, <[m := Some exports]> cache))).
  { case_bool_decide as Hin; [by eauto|]. apply is_Some_bind; [|by intros [n1 c1]; eauto].
    destruct (analyses !! m) as [a|] eqn:Ea; [|by eauto]. destruct (dep_maps !! m) as [dm|]; [|by eauto].
    apply lookup_lt_Some in Ea.
    assert (Hv' : {[m]} ∪ visiting ⊆ set_seq 0 (length analyses)).
    { apply union_subseteq. split; [|done]. apply singleton_subseteq_l, elem_of_set_seq. lia. }
    pose proof (subseteq_size _ _ Hv') as Hsz. rewrite size_set_seq in Hsz.
    rewrite size_union, size_singleton in Hsz by set_solver.
    assert (Hrec : ∀ d c, is_Some (resolve_module_exports analyses dep_maps depth ({[m]} ∪ visiting) d c)).
    { intros d c0. apply IH; [done|]. rewrite size_union, size_singleton by set_solver. lia. }
    clear IH. generalize (own_names a). revert c. induction (export_stars a) as [|s l IHl]; intros c n; simpl; [by eauto|].
    destruct (dm !! s) as [d|]; [|by apply IHl]. destruct (Hrec d c) as [[n1 c1] ->]. simpl. apply IHl. }
  by destruct (c !! m) as [[n0|]|] eqn:E; [eauto|..].
Qed.

#[local] Arguments resolve_module_exports : simpl never.
(** The names of [l] are, by the rule [E], those of what their specifiers name. *)
Definition names_exist (E : nat → rstr → Prop) (dm : gmap rstr nat) (l : list (rstr * rstr * rstr)) : Prop :=
  ∀ name specifier error j, (name, specifier, error) ∈ l → dm !! specifier = Some j → E j name.
Lemma check_names_total dm l c : is_Some (check_names analyses dep_maps dm l c).
Proof.
  revert c. induction l as [|[[name s] e] l IH]; intros c; simpl; [by eauto|]. destruct (dm !! s) as [j|]; [|done].
  destruct (resolve_total (exports_depth analyses) ∅ j c) as [[n c'] ->]; [set_solver|unfold exports_depth; lia|].
  simpl. case_bool_decide; eauto.
Qed.
Lemma check_names_found dm l c r c' :
  cached found c → check_names analyses dep_maps dm l c = Some (r, c') →
  cached found c' ∧ (r = Ok tt → names_exist Offers dm l).
Proof.
  revert c. induction l as [|[[name s] e] l IH]; intros c Hc Hr; simpl in Hr.
  - simplify_eq. split; [done|]. intros _ ? ? ? ? Hin. by apply elem_of_nil in Hin.
  - destruct (dm !! s) as [j|] eqn:Es.
    + apply bind_Some in Hr as ([n c1] & Hn & Hr). apply resolve_found in Hn as [Hf Hc1]; [|done].
      case_bool_decide as Hin; [|by simplify_eq]. destruct (IH _ Hc1 Hr) as [? Hl]. split; [done|].
      intros Hok name' s' e' j' [[= -> -> ->]|Hin']%elem_of_cons Hj; [|by eapply Hl].
      simplify_eq. by apply Hf.
    + destruct (IH _ Hc Hr) as [? Hl]. split; [done|].
      intros Hok name' s' e' j' [[= -> -> ->]|Hin']%elem_of_cons Hj; [congruence|by eapply Hl].
Qed.
Lemma check_names_complete rank dm l c r c' :
  (∀ m m', star_edge m m' → rank m' < rank m) →
  cached complete_names c → check_names analyses dep_maps dm l c = Some (r, c') → names_exist Offers dm l → r = Ok tt ∧ cached complete_names c'.
Proof.
  intros Hrank. revert c. induction l as [|[[name s] e] l IH]; intros c Hc Hr Hn; simpl in Hr; [by simplify_eq|].
  assert (Hn' : names_exist Offers dm l) by (intros ? ? ? ? Hin; eapply Hn; by right).
  destruct (dm !! s) as [j|] eqn:Es; [|by eapply IH]. apply bind_Some in Hr as ([n c1] & Hr1 & Hr).
  apply (resolve_complete rank) in Hr1 as [Hf Hc1]; [|done|intros v Hv; by apply elem_of_empty in Hv|done].
  rewrite bool_decide_eq_true_2 in Hr; [by eapply IH|]. apply Hf. eapply Hn; [by left|done].
Qed.
Definition all_exist (E : nat → rstr → Prop) (modules : list pathbuf) (l : list (nat * ModuleAnalysis)) : Prop :=
  ∀ i a, (i, a) ∈ l → names_exist E ((dep_maps !! i) .unwrap_or ∅) (names_to_check modules i a).
Lemma check_modules_total modules l c : is_Some (check_modules analyses dep_maps modules l c).
Proof.
  revert c. induction l as [|[i a] l IH]; intros c; simpl; [by eauto|].
  destruct (check_names_total ((dep_maps !! i) .unwrap_or ∅) (names_to_check modules i a) c) as [[r c'] ->]. simpl.
  destruct r; eauto.
Qed.
Lemma check_modules_found modules l c :
  cached found c → check_modules analyses dep_maps modules l c = Some (Ok tt) → all_exist Offers modules l.
Proof.
  revert c. induction l as [|[i a] l IH]; intros c Hc Hr i' a' Hin; simpl in Hr; [by apply elem_of_nil in Hin|].
  apply bind_Some in Hr as ([r c1] & Hr1 & Hr). apply check_names_found in Hr1 as [Hc1 Hl]; [|done].
  destruct r as [[]|]; [|done]. apply elem_of_cons in Hin as [[= -> ->]|Hin]; [by apply Hl|by eapply IH].
Qed.
Lemma check_modules_complete rank modules l c :
  (∀ m m', star_edge m m' → rank m' < rank m) → cached complete_names c → all_exist Offers modules l →
  check_modules analyses dep_maps modules l c = Some (Ok tt).
Proof.
  intros Hrank. revert c. induction l as [|[i a] l IH]; intros c Hc Ha; [done|]. simpl.
  destruct (check_names_total ((dep_maps !! i) .unwrap_or ∅) (names_to_check modules i a) c) as [[r c'] Hr]. rewrite Hr. simpl.
  apply (check_names_complete rank) in Hr as [-> Hc']; [|done|done|apply Ha; by left].
  apply IH; [done|]. intros i' a' Hin. apply Ha. by right.
Qed.
Lemma cached_none Q n : cached Q (replicate n None).
Proof. intros m x [Hx _]%lookup_replicate. done. Qed.
Lemma validate_total modules : is_Some (validate_named_bindings analyses dep_maps modules).
Proof. apply check_modules_total. Qed.
Lemma validate_found modules : validate_named_bindings analyses dep_maps modules = Some (Ok tt) → all_exist Offers modules (imap pair analyses).
Proof. apply check_modules_found, cached_none. Qed.
Lemma validate_complete rank modules :
  (∀ m m', star_edge m m' → rank m' < rank m) → all_exist Offers modules (imap pair analyses) →
  validate_named_bindings analyses dep_maps modules = Some (Ok tt).
Proof. intros Hr. apply (check_modules_complete rank); [done|apply cached_none]. Qed.
End exports.

(** ** Replacing spans *)

(** One pass from left to right. *)
Fixpoint splice (pos : nat) (source : rstr) (l : list SpanReplace) : rstr :=
  match l with
  | [] => drop pos source
  | r :: l => take (start r - pos) (drop pos source) ++ text r ++ splice (end_ r) source l
  end.
(** Spans that follow each other within [pos] and the end. *)
Fixpoint ordered (pos len : nat) (l : list SpanReplace) : Prop :=
  match l with
  | [] => pos ≤ len
  | r :: l => pos ≤ start r ∧ start r < end_ r ∧ ordered (end_ r) len l
  end.
Lemma ordered_bound pos len l : ordered pos len l → pos ≤ len.
Proof. revert pos. induction l as [|r l IH]; simpl; [done|]. intros pos (? & ? & ?%IH). lia. Qed.
Lemma ordered_starts pos len l r : ordered pos len l → r ∈ l → pos ≤ start r ∧ start r < end_ r ∧ end_ r ≤ len.
Proof.
  revert pos. induction l as [|x l IH]; intros pos Ho Hin; [by apply elem_of_nil in Hin|]. destruct Ho as (? & ? & Ho).
  apply elem_of_cons in Hin as [->|Hin]; [pose proof (ordered_bound _ _ _ Ho); lia|]. destruct (IH _ Ho Hin). lia.
Qed.

(** Sorting puts the last of the text first, whatever the order before. *)
Lemma insert_span_last r l : Forall (λ x, start x < start r) l → insert_span r l = r :: l.
Proof.
  destruct l as [|x l]; [done|]. intros [Hx _]%Forall_cons. simpl. unfold later. by rewrite bool_decide_eq_true_2.
Qed.
Lemma insert_span_app r l1 l2 :
  Forall (λ x, start r < start x) l1 → Forall (λ x, start x < start r) l2 → insert_span r (l1 ++ l2) = l1 ++ r :: l2.
Proof.
  induction l1 as [|x l1 IH]; intros H1 H2; [by apply insert_span_last|]. apply Forall_cons in H1 as [Hx H1]. simpl.
  unfold later at 1. rewrite bool_decide_eq_false_2, (bool_decide_eq_false_2 (start r = start x)) by lia. simpl. by rewrite IH.
Qed.
Lemma ordered_remove pos len l1 r l2 : ordered pos len (l1 ++ r :: l2) → ordered pos len (l1 ++ l2).
Proof.
  revert pos. induction l1 as [|x l1 IH]; intros pos; simpl.
  - intros (? & ? & Ho). destruct l2 as [|y l2]; simpl in *; [lia|]. destruct Ho as (? & ? & ?). split_and!; [lia|done|done].
  - intros (? & ? & ?%IH). done.
Qed.
Lemma ordered_around pos len l1 r l2 :
  ordered pos len (l1 ++ r :: l2) →
  Forall (λ x, start x < start r) l1 ∧ Forall (λ x, start r < start x) l2.
Proof.
  intros Ho. split; apply Forall_forall; intros x Hx; revert pos Ho; induction l1 as [|y l1 IH1]; intros pos Ho; simpl in Ho.
  - by apply elem_of_nil in Hx.
  - destruct Ho as (? & ? & Ho). apply elem_of_cons in Hx as [->|Hx]; [|by eapply IH1].
    assert (r ∈ l1 ++ r :: l2) as Hr by (apply elem_of_app; right; left). pose proof (ordered_starts _ _ _ _ Ho Hr). lia.
  - destruct Ho as (_ & ? & Ho). pose proof (ordered_starts _ _ _ _ Ho Hx). lia.
  - destruct Ho as (_ & _ & Ho). by eapply IH1.
Qed.
Lemma sort_spans_ordered l l' pos len : ordered pos len l → l' ≡ₚ l → sort_spans l' = reverse l.
Proof.
  revert l pos. induction l' as [|r l' IH]; intros l pos Ho Hp.
  - apply Permutation_nil_l in Hp as <-. done.
  - assert (Hin : r ∈ l) by (rewrite <-Hp; left). apply list_elem_of_split in Hin as (l1 & l2 & ->).
    assert (Hp' : l' ≡ₚ l1 ++ l2) by (apply (Permutation_cons_inv (a := r)); by rewrite Hp, Permutation_middle).
    destruct (ordered_around _ _ _ _ _ Ho) as [H1 H2].
    simpl. rewrite (IH (l1 ++ l2) pos) by (done || by eapply ordered_remove).
    rewrite !reverse_app, reverse_cons, <-app_assoc. simpl. apply insert_span_app; by apply Forall_reverse.
Qed.
(** Replacing from the end leaves what is before in its place. *)
Lemma replace_all_splice source l pos :
  ordered pos (length source) l →
  fold_left replace_range (reverse l) source = take pos source ++ splice pos source l.
Proof.
  revert pos. induction l as [|r l IH]; intros pos Ho; simpl in *; [by rewrite take_drop|].
  destruct Ho as (H1 & H2 & Ho). pose proof (ordered_bound _ _ _ Ho).
  rewrite reverse_cons, fold_left_app, (IH _ Ho). simpl. unfold replace_range.
  rewrite bool_decide_eq_true_2 by (rewrite length_app, length_take; lia).
  rewrite take_app_le by (rewrite length_take; lia). rewrite take_take, Nat.min_l by lia.
  rewrite drop_app_ge by (rewrite length_take; lia). rewrite length_take, Nat.min_l, Nat.sub_diag by lia. simpl.
  rewrite (app_assoc (take pos source)). f_equal. rewrite <-(take_drop pos (take (start r) source)), take_take, Nat.min_l by lia.
  f_equal. by rewrite skipn_firstn_comm.
Qed.

(** ** The whole bundle *)

Section bundle.
Context (h : BundleHost).
#[local] Set Default Proof Using "All".

Lemma dependencies_spec map p specs deps :
  dependencies h map p specs = Ok deps →
  ∀ s q, (s, q) ∈ deps ↔ s ∈ specs ∧ resolve_bundle_dep h map p s = Ok (Some q).
Proof.
  revert deps. induction specs as [|x specs IH]; intros deps Hd s q; simpl in Hd.
  - simplify_eq. rewrite !elem_of_nil. naive_solver.
  - destruct (resolve_bundle_dep h map p x) as [dep|] eqn:Ex; [|done]. simpl in Hd.
    destruct (dependencies h map p specs) as [deps'|]; [|done]. simpl in Hd. specialize (IH deps' eq_refl s q). simplify_eq.
    destruct dep as [r|]; rewrite ?elem_of_cons, IH; split.
    + intros [[= -> ->]|[? ?]]; [split; [by left|done]|split; [by right|done]].
    + intros [[->|?] Hr]; [left; congruence|by right].
    + intros [? ?]. split; [by right|done].
    + intros [[->|?] Hr]; [congruence|done].
Qed.
Lemma dep_map_of_spec g deps :
  (∀ s q q', (s, q) ∈ deps → (s, q') ∈ deps → q = q') →
  ∀ s j, dep_map_of h g deps !! s = Some j ↔ ∃ q, (s, q) ∈ deps ∧ path_to_id g !! canonical h q = Some j.
Proof.
  unfold dep_map_of. induction deps as [|[s0 q0] deps IH] using rev_ind; intros Hf s j.
  - simpl. rewrite lookup_empty. split; [done|]. by intros (q & Hq%elem_of_nil & _).
  - rewrite fold_left_app. simpl.
    assert (Hf' : ∀ s q q', (s, q) ∈ deps → (s, q') ∈ deps → q = q')
      by (intros s1 q1 q2 ? ?; apply (Hf s1); apply elem_of_app; by left).
    specialize (IH Hf' s j). destruct (path_to_id g !! canonical h q0) as [i|] eqn:Ei.
    + rewrite lookup_insert_Some, IH. setoid_rewrite elem_of_app. setoid_rewrite list_elem_of_singleton. split.
      * intros [[-> ->]|[Hne (q & Hq & Hj)]]; [exists q0; split; [by right|done]|exists q; split; [by left|done]].
      * intros (q & [Hq|[= -> ->]] & Hj); [|left; split; congruence].
        destruct (decide (s0 = s)) as [->|]; [|right; split; [done|by exists q]].
        left. split; [done|]. assert (q0 = q) as -> by (apply (Hf s); [apply elem_of_app; right; left|apply elem_of_app; by left]). congruence.
    + rewrite IH. setoid_rewrite elem_of_app. setoid_rewrite list_elem_of_singleton. split.
      * intros (q & Hq & Hj). exists q. split; [by left|done].
      * intros (q & [Hq|[= -> ->]] & Hj); [by exists q|congruence].
Qed.
Lemma try_each_spec {A B} (f : A → result B rstr) l ys :
  try_each f l = Ok ys → Forall2 (λ x y, f x = Ok y) l ys.
Proof.
  revert ys. induction l as [|x l IH]; intros ys Hl; simpl in Hl; [by simplify_eq|].
  destruct (f x) as [y|] eqn:Ef; [|done]. simpl in Hl. destruct (try_each f l) as [ys'|] eqn:El; [|done]. simplify_eq/=.
  constructor; [done|by apply IH].
Qed.

(** What a prepared module is. *)
Lemma prepare_spec map g p m :
  prepare h map g p = Ok m →
  prep_path m = p ∧ ∃ source deps, read_module h p = Ok source ∧
    dependencies h map p (scan_import_specifiers h source) = Ok deps ∧ dep_map m = dep_map_of h g deps.
Proof.
  unfold prepare. destruct (read_module h p) as [source|]; [|done]. simpl.
  destruct (dependencies h map p _) as [deps|] eqn:Hd; [|done]. simpl.
  destruct (if has_extension p _ then _ else _) as [code a]. intros [= <-]. simpl. split; [done|]. by exists source, deps.
Qed.
(** The specifiers of a module that name files, with the module of each. *)
Definition links (map : option ImportMap) (g : Graph) (m : PreparedModule) : Prop :=
  ∀ s j, dep_map m !! s = Some j ↔
    ∃ source q, read_module h (prep_path m) = Ok source ∧ s ∈ scan_import_specifiers h source ∧
      resolve_bundle_dep h map (prep_path m) s = Ok (Some q) ∧ canonical h <$> modules g !! j = Some (canonical h q).
Lemma prepare_links map g p m : indexed h g → prepare h map g p = Ok m → links map g m.
Proof.
  intros Hi (<- & source & deps & Hs & Hd & Hm)%prepare_spec s j.
  pose proof (dependencies_spec _ _ _ _ Hd) as Hdeps.
  rewrite Hm, dep_map_of_spec.
  - split.
    + intros (q & [Hq Hr]%Hdeps & Hj%(indexed_ids _ _ Hi)). by exists source, q.
    + intros (source' & q & Hs' & Hin & Hr & Hj). assert (source' = source) as -> by congruence. exists q. split; [by apply Hdeps|by apply (indexed_ids _ _ Hi)].
  - intros s' q q' [_ H1]%Hdeps [_ H2]%Hdeps. congruence.
Qed.

Lemma bundle_modules_spec map g bundled prepared :
  bundle_modules h map g = Some (Ok (bundled, prepared)) →
  Forall2 (λ p m, prepare h map g p = Ok m) (modules g) prepared ∧ length bundled = length prepared ∧
  validate_named_bindings (prep_analysis <$> prepared) (dep_map <$> prepared) (modules g) = Some (Ok tt).
Proof.
  unfold bundle_modules. destruct (try_each (prepare h map g) (modules g)) as [prep|] eqn:Hp; [|done]. simpl.
  destruct (try_each (compile_module h) prep) as [codes|] eqn:Hc; [|done]. simpl.
  intros ([[]|] & Hv & Hr)%bind_Some; simplify_eq. apply try_each_spec in Hp, Hc. split_and!; [done| |done].
  rewrite length_imap, length_zip_with. apply Forall2_length in Hc. lia.
Qed.
Lemma bundle_text_spec fuel options o :
  bundle_text h fuel options = Some (Ok o) →
  ∃ map g bundled prepared, load_map h options = Ok map ∧ walk h fuel map [entry options] start_graph = Some (Ok g) ∧
    bundle_modules h map g = Some (Ok (bundled, prepared)) ∧ o = output_of h options g bundled.
Proof.
  unfold bundle_text. destruct (check_entry h (entry options)) as [[]|]; [|done]. simpl.
  destruct (load_map h options) as [map|]; [|done]. intros ([g|] & Hw & Hr)%bind_Some; [|done].
  apply bind_Some in Hr as ([[bundled prepared]|] & Hb & Hr); [|done]. simplify_eq. by exists map, g, bundled, prepared.
Qed.

(** *** The text *)

(** A module's entry of the table the bundle's loader is given: the id, then a function
    whose body is the code, line by line. *)
Definition entry_text (i : nat) (p code : rstr) : rstr :=
  "  // [" ++ dec (N.of_nat i) ++ "] " ++ p ++ [newline]
  ++ "  " ++ dec (N.of_nat i) ++ ": function(module, exports, __amberjs_require__) {" ++ [newline]
  ++ mjoin ((λ line, "    " ++ line ++ [newline]) <$> file_lines code) ++ "  }," ++ [newline].
(** What a file's source becomes, its specifiers having the ids of [table]. *)
Definition module_code (p source : rstr) (table : gmap rstr nat) (code : rstr) : Prop :=
  if has_extension p ["json"%string] then code = "module.exports = " ++ trim source ++ ";"
  else if has_extension p ["ts"; "tsx"; "mts"; "cts"]%string
       then b_typescript h (transform_module_code h source table).1 p = Ok code
       else code = (transform_module_code h source table).1.
#[local] Arguments transform_module_code : simpl never.
Lemma prepared_code map g p m code :
  prepare h map g p = Ok m → compile_module h m = Ok code →
  ∃ source, read_module h p = Ok source ∧ module_code p source (dep_map m) code.
Proof.
  intros Hm Hc. unfold prepare in Hm. destruct (read_module h p) as [source|]; [|done]. simpl in Hm.
  destruct (dependencies h map p _) as [deps|]; [|done]. simpl in Hm. exists source. split; [done|].
  assert (dep_map m = dep_map_of h g deps) as ->.
  { by destruct (if has_extension p ["json"%string] then _ else _) as [c a]; simplify_eq. }
  unfold module_code. destruct (has_extension p ["json"%string]).
  - injection Hm as <-. unfold compile_module in Hc. cbn in Hc. by simplify_eq.
  - destruct (transform_module_code h source _) as [js a]. injection Hm as <-.
    unfold compile_module in Hc. simpl in *.
    destruct (has_extension p _); [|by simplify_eq]. destruct (b_typescript h js p); [by simplify_eq|done].
Qed.
Lemma lines_cons x l : lines (x :: l) = x ++ [newline] ++ lines l.
Proof. unfold lines. simpl. by rewrite <-app_assoc. Qed.
Lemma lines_app l1 l2 : lines (l1 ++ l2) = lines l1 ++ lines l2.
Proof. induction l1 as [|x l1 IH]; [done|]. simpl. rewrite !lines_cons, IH. by rewrite <-!app_assoc. Qed.
Lemma module_text_entry m : module_text m = entry_text (bm_id m) (bm_path m) (processed_code m).
Proof.
  unfold module_text, entry_text. rewrite !lines_cons, lines_app. 
  assert (∀ l : list rstr, lines ((λ line, "    " ++ line) <$> l) = mjoin ((λ line, "    " ++ line ++ [newline]) <$> l)) as ->.
  { induction l as [|x l IH]; [done|]. rewrite !fmap_cons, lines_cons, IH. simpl. by rewrite <-!app_assoc. }
  rewrite lines_cons. change (lines []) with ([] : rstr). by rewrite <-!app_assoc, app_nil_r.
Qed.
Lemma bundle_modules_code map g bundled prepared :
  bundle_modules h map g = Some (Ok (bundled, prepared)) →
  ∃ codes, Forall2 (λ m code, compile_module h m = Ok code) prepared codes ∧
    module_text <$> bundled = imap (λ i pc, entry_text i pc.1 pc.2) (zip (prep_path <$> prepared) codes).
Proof.
  unfold bundle_modules. destruct (try_each (prepare h map g) (modules g)) as [prep|]; [|done]. simpl.
  destruct (try_each (compile_module h) prep) as [codes|] eqn:Hc; [|done]. simpl.
  intros ([[]|] & _ & Hr)%bind_Some; simplify_eq. apply try_each_spec in Hc. exists codes. split; [done|].
  apply list_eq. intros i. rewrite list_lookup_fmap, !list_lookup_imap, !lookup_zip_with, list_lookup_fmap.
  destruct (prepared !! i) as [m|]; [|done]. simpl. destruct (codes !! i) as [code|]; [|done]. simpl.
  by rewrite module_text_entry.
Qed.

(** *** Errors *)

Definition prefixed {A} (r : result A rstr) : Prop := ∀ e, r = Err e → starts_with BUNDLE_ERROR_PREFIX e = true.
Lemma prefixed_ok {A} (a : A) : prefixed (Ok a : result A rstr).
Proof. done. Qed.
Lemma prefixed_bundle_err {A} e : prefixed (bundle_err e : result A rstr).
Proof.
  unfold bundle_err. intros e' [= <-]. destruct (starts_with BUNDLE_ERROR_PREFIX e) eqn:E; [done|].
  apply starts_with_spec. by eexists.
Qed.
Lemma prefixed_bind {A B} (r : result A rstr) (f : A → result B rstr) : prefixed r → (∀ a, prefixed (f a)) → prefixed (r ≫= f).
Proof. intros Hr Hf. destruct r as [a|e']; [apply Hf|]. intros e [= <-]. by apply Hr. Qed.
Lemma prefixed_cast {A B} e : prefixed (Err e : result A rstr) → prefixed (Err e : result B rstr).
Proof. intros H e' [= <-]. by apply H. Qed.
Lemma prefixed_try_each {A B} (f : A → result B rstr) l : (∀ x, prefixed (f x)) → prefixed (try_each f l).
Proof.
  intros Hf. induction l; simpl; [apply prefixed_ok|]. apply prefixed_bind; [apply Hf|]. intros ?. apply prefixed_bind; [done|]. intros ?. apply prefixed_ok.
Qed.
Create HintDb prefixed.
#[local] Hint Resolve prefixed_ok prefixed_bundle_err prefixed_bind prefixed_try_each : prefixed.
Lemma prefixed_read p : prefixed (read_module h p).
Proof. unfold read_module. case_match; auto with prefixed. Qed.
Lemma prefixed_resolve map p s : prefixed (resolve_bundle_dep h map p s).
Proof. unfold resolve_bundle_dep. repeat case_match; auto with prefixed. Qed.
Lemma prefixed_dependencies map p l : prefixed (dependencies h map p l).
Proof. induction l; simpl; auto using prefixed_resolve with prefixed. Qed.
#[local] Hint Resolve prefixed_read prefixed_dependencies : prefixed.
Lemma prefixed_prepare map g p : prefixed (prepare h map g p).
Proof.
  unfold prepare. apply prefixed_bind; [auto with prefixed|]. intros source. apply prefixed_bind; [auto with prefixed|].
  intros deps. destruct (if has_extension p _ then _ else _). auto with prefixed.
Qed.
Lemma prefixed_compile m : prefixed (compile_module h m).
Proof. unfold compile_module. repeat case_match; auto with prefixed. Qed.
#[local] Hint Resolve prefixed_prepare prefixed_compile : prefixed.
Lemma prefixed_walk fuel map queue g r : walk h fuel map queue g = Some r → prefixed r.
Proof.
  revert queue g. induction fuel as [|fuel IH]; intros queue g Hr; [done|]. simpl in Hr.
  destruct queue as [|p queue]; [simplify_eq; auto with prefixed|]. case_bool_decide; [by eapply IH|].
  destruct (module_dependencies h map p) as [deps|e] eqn:Hd; [by eapply IH|]. simplify_eq.
  assert (Hp : prefixed (module_dependencies h map p)) by (unfold module_dependencies; auto with prefixed).
  rewrite Hd in Hp. by eapply prefixed_cast.
Qed.
Lemma prefixed_check_names analyses dep_maps dm l c r c' : check_names analyses dep_maps dm l c = Some (r, c') → prefixed r.
Proof.
  revert c. induction l as [|[[name s] e] l IH]; intros c Hr; simpl in Hr; [simplify_eq; auto with prefixed|].
  destruct (dm !! s) as [j|]; [|by eapply IH]. apply bind_Some in Hr as ([found c1] & _ & Hr).
  case_bool_decide; [by eapply IH|]. simplify_eq. auto with prefixed.
Qed.
Lemma prefixed_validate analyses dep_maps ms r : validate_named_bindings analyses dep_maps ms = Some r → prefixed r.
Proof.
  unfold validate_named_bindings. generalize (imap pair analyses), (replicate (length analyses) (None : option (gset rstr))).
  intros l. induction l as [|[i a] l IH]; intros c Hr; simpl in Hr; [simplify_eq; auto with prefixed|].
  apply bind_Some in Hr as ([r1 c1] & Hn & Hr). destruct r1 as [|e1]; [by eapply IH|]. simplify_eq.
  by eapply prefixed_check_names.
Qed.
Lemma prefixed_bundle_modules map g r : bundle_modules h map g = Some r → prefixed r.
Proof.
  unfold bundle_modules. intros Hr.
  destruct (try_each (prepare h map g) (modules g)) as [prep|e] eqn:Hp; simpl in Hr.
  - destruct (try_each (compile_module h) prep) as [codes|e] eqn:Hc; simpl in Hr.
    + apply bind_Some in Hr as ([[]|e] & Hv & Hr); simplify_eq; [auto with prefixed|].
      eapply prefixed_cast, prefixed_validate, Hv.
    + simplify_eq. assert (Hx : prefixed (try_each (compile_module h) prep)) by auto with prefixed. rewrite Hc in Hx. by eapply prefixed_cast.
  - simplify_eq. assert (Hx : prefixed (try_each (prepare h map g) (modules g))) by auto with prefixed. rewrite Hp in Hx. by eapply prefixed_cast.
Qed.
Lemma prefixed_bundle_text fuel options r : bundle_text h fuel options = Some r → prefixed r.
Proof.
  unfold bundle_text. intros Hr.
  assert (Hpre : prefixed (_ ← check_entry h (entry options); load_map h options)).
  { apply prefixed_bind; [unfold check_entry|intros _; unfold load_map]; repeat case_match; auto with prefixed. }
  destruct (_ ← check_entry h (entry options); load_map h options) as [map|e]; [|simplify_eq; by eapply prefixed_cast].
  apply bind_Some in Hr as ([g|e] & Hw & Hr); [|simplify_eq; eapply prefixed_cast, prefixed_walk, Hw].
  apply bind_Some in Hr as ([[b p]|e] & Hb & Hr); simplify_eq; [auto with prefixed|].
  eapply prefixed_cast, prefixed_bundle_modules, Hb.
Qed.
Lemma perform_all_spec l ran e :
  perform_all h l = (ran, Err e) →
  starts_with BUNDLE_ERROR_PREFIX e = true ∧ ∃ before failed, ran = before ++ [failed] ∧ ran `prefix_of` l.*1 ∧ is_ok (perform h failed).2 = false.
Proof.
  revert ran. induction l as [|[x shown] l IH]; intros ran Hr; simpl in Hr; [done|].
  destruct (wrote shown (perform h x).2) as [[]|e1] eqn:Ew.
  - destruct (perform_all h l) as [ran1 r1]. simplify_eq. destruct (IH ran1 eq_refl) as (? & before & failed & -> & Hpre & ?).
    split; [done|]. exists (x :: before), failed. split_and!; [done|by apply prefix_cons|done].
  - simplify_eq. unfold wrote in Ew. destruct (perform h x).2 as [|e2] eqn:Ep; [done|]. split; [by eapply prefixed_bundle_err|].
    exists [], x. split_and!; [done|by apply prefix_cons, prefix_nil|by rewrite Ep].
Qed.
End bundle.

(** ** Properties *)

(** C29. A bundle is complete and holds nothing else.  Its text is the loader followed by one
    entry per module of [modules g], in order and under its position as id, and by the
    loader's end.  Module 0 is the entry file, no file is there twice and each is
    reached from the entry through specifiers.  The code of a module is its file's source
    rewritten (a JSON file's an assignment, a TypeScript file's compiled after that) with a
    table that gives every specifier that names a file the id of exactly that file's
    module, and no other specifier an id, so that no rewritten import points nowhere.
    A bundle that is minified is that text minified. *)
Theorem bundle_complete h fuel options o :
  bundle_text h fuel options = Some (Ok o) →
  ∃ map g codes,
    load_map h options = Ok map ∧ modules g !! 0 = Some (entry options) ∧ NoDup (canonical h <$> modules g) ∧
    (∀ p, p ∈ modules g → Reach h map (entry options) p) ∧
    module_count o = length (modules g) ∧ length codes = length (modules g) ∧
    (let text := registry_text (target options)
                 ++ mjoin (imap (λ i pc, entry_text i pc.1 pc.2) (zip (modules g) codes)) ++ "});" ++ [newline] in
     out_code o = if minify options then minify_code h text else text) ∧
    ∀ i p, modules g !! i = Some p → ∃ source table code,
      read_module h p = Ok source ∧ codes !! i = Some code ∧ module_code h p source table code ∧
      (∀ s j, table !! s = Some j ↔ s ∈ scan_import_specifiers h source ∧
         ∃ q, resolve_bundle_dep h map p s = Ok (Some q) ∧ canonical h <$> modules g !! j = Some (canonical h q)) ∧
      (∀ s q, s ∈ scan_import_specifiers h source → resolve_bundle_dep h map p s = Ok (Some q) → is_Some (table !! s)).
Proof.
  intros (map & g & bundled & prepared & Hm & Hw & Hb & ->)%bundle_text_spec.
  apply (walk_invariant h map _ (entry options)) in Hw as [Hi He Hr Hc]; [|apply walking_start].
  pose proof (bundle_modules_code _ _ _ _ _ Hb) as (codes & Hcodes & Htext).
  apply bundle_modules_spec in Hb as (Hp & Hlen & _). exists map, g, codes.
  assert (Hpaths : prep_path <$> prepared = modules g).
  { clear -Hp. induction Hp as [|p m l k Hpm Hl IH]; [done|]. rewrite fmap_cons, IH. by apply prepare_spec in Hpm as [-> _]. }
  rewrite Hpaths in Htext. pose proof (Forall2_length _ _ _ Hcodes) as Hlc.
  split_and!; [done|by destruct He as [?|[_ ?]]|apply Hi|intros; apply Hr; by left| | | |].
  - simpl. by rewrite Hlen, <-Hpaths, length_fmap.
  - by rewrite <-Hlc, <-Hpaths, length_fmap.
  - unfold output_of, assemble. cbn [out_code]. rewrite Htext. by destruct (minify options).
  - intros i p Hpi. destruct (Forall2_lookup_l _ _ _ _ _ Hp Hpi) as (m & Hmi & Hpm).
    destruct (Forall2_lookup_l _ _ _ _ _ Hcodes Hmi) as (code & Hci & Hcm).
    destruct (prepared_code _ _ _ _ _ _ Hpm Hcm) as (source & Hs & Hcode).
    pose proof (prepare_links _ _ _ _ _ Hi Hpm) as Hl. pose proof (proj1 (prepare_spec _ _ _ _ _ Hpm)) as Hpp.
    exists source, (dep_map m), code.
    assert (Htab : ∀ s j, dep_map m !! s = Some j ↔ s ∈ scan_import_specifiers h source ∧
         ∃ q, resolve_bundle_dep h map p s = Ok (Some q) ∧ canonical h <$> modules g !! j = Some (canonical h q)).
    { intros s j. rewrite (Hl s j), Hpp, Hs. split; [intros (? & q & [= <-] & ?); naive_solver|].
      intros (? & q & ? & ?). by exists source, q. }
    split_and!; [done..|]. intros s q Hin Hres.
    destruct (Hc p) as (deps & Hd & Hids); [by eapply list_elem_of_lookup_2|].
    unfold module_dependencies in Hd. rewrite Hs in Hd. simpl in Hd.
    destruct (Hids s q) as [[j Hj]|(q' & Hq' & _)]; [by apply (dependencies_spec _ _ _ _ _ Hd)| |by apply elem_of_nil in Hq'].
    exists j. apply Htab. split; [done|]. exists q. split; [done|]. by apply (indexed_ids _ _ Hi).
Qed.

(** C30. The check of named imports and re-exports ends, and what it accepts is the
    bundler's own rule: a bundle that passes only names what its modules offer (names of
    their own, re-exported names, names of [export *] but the default), and when no
    [export *] is part of a cycle, a bundle whose names are all offered passes.  The rule
    is wider than ECMAScript's on the modules of the bundle, so that without such cycles
    nothing is rejected whose names all resolve to one binding each; what is wider is a name
    that two [export *] give and a re-export that leads in a circle
    ([ambiguous_star_accepted], [circular_reexport_accepted]).  Names that come through
    [export *] of a module outside the bundle are not offered ([outside_star_rejected]). *)
Theorem named_bindings_checked analyses dep_maps modules :
  length dep_maps = length analyses →
  let named E := all_exist dep_maps E modules (imap pair analyses) in
  let offered := Offers analyses dep_maps in
  let resolved := EsExports analyses dep_maps in
  let acyclic := ∃ rank : nat → nat, ∀ m m', star_edge analyses dep_maps m m' → rank m' < rank m in
  (∃ r, validate_named_bindings analyses dep_maps modules = Some r) ∧
  (validate_named_bindings analyses dep_maps modules = Some (Ok tt) → named offered) ∧
  (acyclic → named offered → validate_named_bindings analyses dep_maps modules = Some (Ok tt)) ∧
  (acyclic → named resolved → validate_named_bindings analyses dep_maps modules = Some (Ok tt)).
Proof.
  intros Hl. cbv zeta.
  assert ((∃ rank : nat → nat, ∀ m m', star_edge analyses dep_maps m m' → rank m' < rank m) →
    all_exist dep_maps (Offers analyses dep_maps) modules (imap pair analyses) →
    validate_named_bindings analyses dep_maps modules = Some (Ok tt)) as Hok.
  { intros [rank Hr]. by apply (validate_complete _ _ Hl rank). }
  split_and!.
  - by apply validate_total.
  - by apply validate_found.
  - exact Hok.
  - intros Ha Hn. apply (Hok Ha). intros i a Hin name sp e j Hname Hj. eapply es_offers; [done|]. by eapply Hn.
Qed.

(** Rewriting by spans is one pass over the source: for spans that do not overlap, in
    whatever order they were collected, the replaced text is the source with each
    span's text in its place and every byte between them kept. *)
Theorem spans_spliced source l l' :
  ordered 0 (length source) l → l' ≡ₚ l → apply_span_replacements source l' = splice 0 source l.
Proof.
  intros Ho Hp. unfold apply_span_replacements. rewrite (sort_spans_ordered l l' 0 (length source)) by done.
  by rewrite (replace_all_splice source l 0).
Qed.

Lemma bundle_total (h : BundleHost) (options : BundleOptions) (U : gset path) :
  canonical h (entry options) ∈ U →
  (∀ map p q, load_map h options = Ok map → canonical h p ∈ U → depends h map p q → canonical h q ∈ U) →
  ∃ fuel, ∀ fuel', fuel ≤ fuel' → ∃ r, bundle_project h fuel' options = Some r.
Proof.
  intros He Hu. enough (∃ fuel, ∀ fuel', fuel ≤ fuel' → is_Some (bundle_text h fuel' options)) as [fuel Hf].
  { exists fuel. intros fuel' Hle. unfold bundle_project. destruct (Hf fuel' Hle) as [r ->]. by eexists. }
  unfold bundle_text. destruct (check_entry h (entry options)) as [[]|]; simpl; [|by exists 0; eauto].
  destruct (load_map h options) as [map|]; [|by exists 0; eauto].
  destruct (walk_total h map U ltac:(by intros p q ? ?; eapply (Hu map p q)) _ [entry options] start_graph eq_refl) as [fuel Hf].
  { by intros q ->%list_elem_of_singleton. }
  exists fuel. intros fuel' Hle. destruct (Hf fuel' Hle) as [r Hr]. unfold start_graph in Hr. rewrite Hr. simpl. destruct r as [g|]; [|by eauto].
  enough (is_Some (bundle_modules h map g)) as [r ->] by (by eexists).
  unfold bundle_modules. destruct (_ ≫= _) as [[bundled prepared]|]; [|by eauto].
  destruct (validate_total (prep_analysis <$> prepared) (dep_map <$> prepared) ltac:(by rewrite !length_fmap) (modules g)) as [r ->].
  by eexists.
Qed.
(** C31. Bundling ends, cyclic imports included: when the specifiers reachable from the entry
    name files out of a finite set, some number of rounds is enough for the walk,
    and the check of the names needs no more depth than it is given. *)
Theorem bundle_terminates (h : BundleHost) (options : BundleOptions) (U : gset path) :
  canonical h (entry options) ∈ U →
  (∀ map p q, load_map h options = Ok map → canonical h p ∈ U → depends h map p q → canonical h q ∈ U) →
  ∃ fuel, ∀ fuel', fuel ≤ fuel' → ∃ r, bundle_project h fuel' options = Some r.
Proof. apply bundle_total. Qed.

(** Every failure of [amber bundle] starts with the contract's prefix, and one that is not
    a failed write happens before anything is written; a failed write ends the
    sequence of writes that the finished bundle calls for. *)
Theorem bundle_failures h fuel options effects e :
  bundle_project h fuel options = Some (effects, Err e) →
  starts_with BUNDLE_ERROR_PREFIX e = true ∧
  (effects = [] ∨
   ∃ o before failed, bundle_text h fuel options = Some (Ok o) ∧ effects = before ++ [failed] ∧
     effects `prefix_of` (writes_of h options o).*1 ∧ is_ok (perform h failed).2 = false).
Proof.
  unfold bundle_project. intros ([o|e'] & Ht & Hr)%bind_Some.
  - destruct (perform_all h (writes_of h options o)) as [ran w] eqn:Ep. destruct w as [[]|w]; simplify_eq.
    apply perform_all_spec in Ep as (? & before & failed & ? & ? & ?). split; [done|]. right. by exists o, before, failed.
  - simplify_eq. split; [|by left]. by eapply prefixed_bundle_text.
Qed.

(** ** Concrete bundles *)

Module BundleToy.
(** Two files that import each other, and one import that stays outside. *)
Definition a_js : rstr := "import b, {n} from './b.js'; export * from './b.js'; require('fs');".
Definition b_js : rstr := "import './a.js'; export default n; export const n = 1;".
Definition parse (source : rstr) : list ModuleDeclaration :=
  if bool_decide (source = a_js) then
    [ImportDeclaration {| span_start := 0; span_end := 28 |} false "./b.js" (Some [ImportDefaultSpecifier "b"; ImportSpecifier "n" "n" false]);
     ExportAllDeclaration {| span_start := 29; span_end := 52 |} false "./b.js" None]
  else
    [ImportDeclaration {| span_start := 0; span_end := 16 |} false "./a.js" None;
     ExportDefaultDeclaration {| span_start := 17; span_end := 34 |} None {| span_start := 32; span_end := 33 |};
     ExportDeclaration {| span_start := 35; span_end := 54 |} (VariableDeclaration [BindingIdentifier "n"] {| span_start := 42; span_end := 54 |})].
Definition at_path (p q : pathbuf) : bool := bool_decide (components p = components q).
Definition host : BundleHost := {|
  b_is_file := λ p, at_path p "/p/a.js" || at_path p "/p/b.js"; b_is_dir := λ p, at_path p "/p"; b_exists := λ p, at_path p "/p" || at_path p "/p/a.js";
  b_canonicalize := λ p, Some p;
  b_read := λ p, if at_path p "/p/a.js" then Ok a_js else if at_path p "/p/b.js" then Ok b_js else Err ("no such file" : rstr);
  b_write := λ p _, if at_path p "/p/out.map" then Err ("no space" : rstr) else Ok tt; b_create_dir_all := λ _, Ok tt;
  b_json := λ _, None; b_import_map := λ _, Ok (∅, ∅); b_parse := parse; b_minify := λ _, None; b_typescript := λ code _, Ok code;
  b_map_text := λ _, "{}" : rstr; b_iter := λ A, map_to_list |}.
Definition options : BundleOptions :=
  {| entry := "/p/a.js"; outfile := Some ("/p/out.js" : rstr); minify := false; sourcemap := true; target := "es2022"; import_map := None |}.
Definition bundled : BundleOutput :=
  match bundle_text host 5 options with Some (Ok o) => o | _ => {| out_code := []; out_map := None; module_count := 0; total_bytes := 0 |} end.
Lemma bundled_ok : bundle_text host 5 options = Some (Ok bundled).
Proof. vm_compute. reflexivity. Qed.
(** The first module, rewritten. *)
Example a_rewritten :
  (transform_module_code host a_js {["./b.js" : rstr := 1]}).1 =
  join [newline] [es_module_line;
    "const __amber_req_1 = __amberjs_require__(1); const b = (__amber_req_1 && __amber_req_1.__esModule && __amber_req_1.default !== undefined) ? __amber_req_1.default : __amber_req_1;; const n = __amber_req_1.n; Object.assign(module.exports, __amberjs_require__(1)); require('fs');" : rstr].
Proof. vm_compute. reflexivity. Qed.

(** Three modules that [export *] each other in a ring: 0 from 1, 1 from 2, 2 from 0, with
    one name each; module 3 imports the name of 0 from 1. *)
Definition ring_analysis (name : rstr) : ModuleAnalysis :=
  {| local_exports := {[name]}; reexports := []; export_stars := ["next" : rstr]; named_imports := [] |}.
Definition ring : list ModuleAnalysis :=
  [ring_analysis "x"; ring_analysis "y"; ring_analysis "z";
   {| local_exports := ∅; reexports := []; export_stars := []; named_imports := [("z" : rstr, "zero" : rstr); ("y" : rstr, "two" : rstr)] |}].
Definition ring_maps : list (gmap rstr nat) :=
  [{["next" : rstr := 1]}; {["next" : rstr := 2]}; {["next" : rstr := 0]}; {["zero" : rstr := 0; "two" : rstr := 2]}].
End BundleToy.

(** What the ring shows: all its names resolve to one binding each, and the check rejects
    it, because the names of a module that were collected while the ring was cut are
    kept as if they were all of them. *)
Lemma ring_binding m n b :
  Resolves BundleToy.ring BundleToy.ring_maps m n b → ∃ k, b = Own k n ∧ [("x" : rstr); "y" : rstr; "z" : rstr] !! k = Some n.
Proof.
  assert (∀ k a n, BundleToy.ring !! k = Some a → n ∈ local_exports a → [("x" : rstr); "y" : rstr; "z" : rstr] !! k = Some n) as Hk.
  { intros k a x Ha Hx. do 4 (destruct k as [|k]; [injection Ha as <-; set_solver|]). done. }
  assert (∀ k a r, BundleToy.ring !! k = Some a → r ∉ reexports a) as Hno.
  { intros k a r Ha. do 4 (destruct k as [|k]; [injection Ha as <-; apply not_elem_of_nil|]). done. }
  induction 1 as [? ? ? Ha Hx|? ? ? ? ? ? Ha ? Hr|? ? ? ? Ha ? Hr|]; [eexists; split; [done|by eapply Hk]|..|done];
    by eapply Hno in Hr.
Qed.
Lemma star_ring_rejected :
  all_exist BundleToy.ring_maps (EsExports BundleToy.ring BundleToy.ring_maps) [] (imap pair BundleToy.ring) ∧
  ∃ e, validate_named_bindings BundleToy.ring BundleToy.ring_maps [] = Some (Err e).
Proof.
  split; [|by eexists; vm_compute].
  assert (Hx : ∀ m m' n b, (BundleToy.ring_maps !! m) ≫= (λ dm, dm !! ("next" : rstr)) = Some m' → m < 3 →
            n ≠ ("default" : rstr) → [("x" : rstr); "y" : rstr; "z" : rstr] !! m ≠ Some n →
            Resolves BundleToy.ring BundleToy.ring_maps m' n b → Resolves BundleToy.ring BundleToy.ring_maps m n b).
  { intros m m' n b Hm Hlt Hn Hown He. do 3 (destruct m as [|m]; [simpl in Hm; simplify_map_eq;
      eapply (resolves_star _ _ _ _ _ ("next" : rstr)); [reflexivity|reflexivity|left|done| |done|done];
      unfold own_names; simpl; set_solver|]). lia. }
  assert (Hl : ∀ m n, BundleToy.ring !! m = Some (BundleToy.ring_analysis n) → Resolves BundleToy.ring BundleToy.ring_maps m n (Own m n)).
  { intros m n Hm. eapply resolves_local; [done|]. change (n ∈ ({[n]} : gset rstr)). by apply elem_of_singleton. }
  assert (Hu : ∀ m n k, Resolves BundleToy.ring BundleToy.ring_maps m n (Own k n) → EsExports BundleToy.ring BundleToy.ring_maps m n).
  { intros m n k H. eexists; split; [exact H|]. intros b' (k' & -> & Hk')%ring_binding.
    apply ring_binding in H as (k0 & [= <-] & Hk). f_equal.
    do 3 (destruct k as [|k]; [do 3 (destruct k' as [|k']; [simplify_eq/=; done|]); done|]). done. }
  intros i a Hin name s e j Hname Hj. unfold BundleToy.ring in Hin. cbn in Hin.
  repeat (apply elem_of_cons in Hin as [[= -> ->]|Hin]; [try by apply elem_of_nil in Hname|]); [|by apply elem_of_nil in Hin].
  cbn in Hname, Hj. apply elem_of_cons in Hname as [[= -> -> ->]|[[= -> -> ->]|Hname%elem_of_nil]%elem_of_cons]; [| |done].
  - assert (j = 0) as -> by (vm_compute in Hj; congruence). eapply Hu, (Hx 0 1); [reflexivity|lia|done|done|].
    apply (Hx 1 2); [reflexivity|lia|done|done|]. by apply Hl.
  - assert (j = 2) as -> by (vm_compute in Hj; congruence). eapply Hu, (Hx 2 0); [reflexivity|lia|done|done|].
    apply (Hx 0 1); [reflexivity|lia|done|done|]. by apply Hl.
Qed.

(** The check is wider than ECMAScript's rule in two ways: a name that two [export *] give
    stands for no binding, and one that two modules re-export from each other neither. *)
Module WiderToy.
Definition stars : ModuleAnalysis :=
  {| local_exports := ∅; reexports := []; export_stars := ["one" : rstr; "two" : rstr]; named_imports := [] |}.
Definition named (x : rstr) : ModuleAnalysis :=
  {| local_exports := {[x]}; reexports := []; export_stars := []; named_imports := [] |}.
Definition importing (x specifier : rstr) : ModuleAnalysis :=
  {| local_exports := ∅; reexports := []; export_stars := []; named_imports := [(x, specifier)] |}.
Definition twice : list ModuleAnalysis := [stars; named "x"; named "x"; importing "x" "zero"].
Definition twice_maps : list (gmap rstr nat) := [{["one" : rstr := 1; "two" : rstr := 2]}; ∅; ∅; {["zero" : rstr := 0]}].
Definition handing (specifier : rstr) : ModuleAnalysis :=
  {| local_exports := ∅; reexports := [("x" : rstr, specifier, "x" : rstr)]; export_stars := []; named_imports := [] |}.
Definition circle : list ModuleAnalysis := [handing "other"; handing "other"].
Definition circle_maps : list (gmap rstr nat) := [{["other" : rstr := 1]}; {["other" : rstr := 0]}].
(** Module 0 is [export * from 'fs']; what it hands on is not bundled. *)
Definition outside : list ModuleAnalysis :=
  [{| local_exports := ∅; reexports := []; export_stars := ["fs" : rstr]; named_imports := [] |}; importing "readFileSync" "zero"].
Definition outside_maps : list (gmap rstr nat) := [∅; {["zero" : rstr := 0]}].
End WiderToy.
Example ambiguous_star_accepted :
  validate_named_bindings WiderToy.twice WiderToy.twice_maps [] = Some (Ok tt) ∧
  ¬ EsExports WiderToy.twice WiderToy.twice_maps 0 "x".
Proof.
  split; [vm_compute; reflexivity|]. intros (b & _ & Hb).
  assert (∀ s m', s ∈ ["one" : rstr; "two" : rstr] → (WiderToy.twice_maps !! 0) ≫= (λ dm, dm !! s) = Some m' →
    WiderToy.twice !! m' = Some (WiderToy.named "x") →
    Resolves WiderToy.twice WiderToy.twice_maps 0 "x" (Own m' "x")) as H.
  { intros s m' Hs Hm Ha. eapply (resolves_star _ _ 0 WiderToy.stars _ s m'); [done|done|done|exact Hm| |done|].
    - unfold own_names. simpl. set_solver.
    - eapply resolves_local; [exact Ha|]. simpl. set_solver. }
  assert (Own 1 "x" = b) as E1 by (apply Hb, (H ("one" : rstr)); [set_solver|reflexivity..]).
  assert (Own 2 "x" = b) as E2 by (apply Hb, (H ("two" : rstr)); [set_solver|reflexivity..]).
  rewrite <-E2 in E1. discriminate E1.
Qed.
Example circular_reexport_accepted :
  validate_named_bindings WiderToy.circle WiderToy.circle_maps [] = Some (Ok tt) ∧
  ∀ m x b, ¬ Resolves WiderToy.circle WiderToy.circle_maps m x b.
Proof.
  split; [vm_compute; reflexivity|].
  assert (∀ m a dm, WiderToy.circle !! m = Some a → WiderToy.circle_maps !! m = Some dm →
    a = WiderToy.handing "other" ∧ is_Some (dm !! ("other" : rstr))) as Hall.
  { intros m a dm Ha Hd. do 2 (destruct m as [|m]; [injection Ha as <-; injection Hd as <-; by split; [|eexists]|]). done. }
  assert (∀ m a, WiderToy.circle !! m = Some a → a = WiderToy.handing "other") as Ha'.
  { intros m a Ha. do 2 (destruct m as [|m]; [by injection Ha as <-|]). done. }
  intros m x b Hr.
  induction Hr as [? ? ? Ha Hx| |? ? ? r Ha Hd Hr Hn|? ? ? ? ? ? ? Ha ? Hs]; [apply Ha' in Ha as ->; set_solver|done| |].
  - destruct (Hall _ _ _ Ha Hd) as [-> Ho]. apply list_elem_of_singleton in Hr as ->.
    by apply eq_None_not_Some in Hn.
  - apply Ha' in Ha as ->. by apply elem_of_nil in Hs.
Qed.
(** A name that a module outside the bundle would give at run time is a missing export. *)
Example outside_star_rejected :
  match validate_named_bindings WiderToy.outside WiderToy.outside_maps ["a.js" : rstr; "main.js" : rstr] with
  | Some (Err e) => e = BUNDLE_ERROR_PREFIX ++ " missing export 'readFileSync' from 'zero' (imported by main.js)"
  | _ => False
  end.
Proof. vm_compute. reflexivity. Qed.

Lemma first_file_is_file h l p : first_file h l = Some p → b_is_file h p = true.
Proof. induction l as [|q l IH]; [done|]. simpl. destruct (b_is_file h q) eqn:E; [by intros [= <-]|done]. Qed.
Lemma first_some_Some {A B} (f : A → option B) l y : first_some f l = Some y → ∃ x, x ∈ l ∧ f x = Some y.
Proof.
  induction l as [|x l IH]; [done|]. simpl. destruct (f x) eqn:E; [intros [= <-]; exists x; split; [left|done]|].
  intros (x' & ? & ?)%IH. exists x'. split; [by right|done].
Qed.
(** Whatever a specifier resolves to is a file. *)
Lemma resolve_is_file h map p s q : resolve_bundle_dep h map p s = Ok (Some q) → b_is_file h q = true.
Proof.
  assert (Hcand : ∀ d r, resolve_existing_candidate h d = Some r → b_is_file h r = true).
  { intros d r. unfold resolve_existing_candidate. destruct (b_is_file h d) eqn:E; [by intros [= <-]|].
    destruct (first_file h (with_extension d <$> _)) eqn:E1; [intros [= <-]; by eapply first_file_is_file|].
    destruct (b_is_dir h d); [apply first_file_is_file|done]. }
  unfold resolve_bundle_dep. destruct (resolve_module_path h p _) as [r|] eqn:Er.
  - destruct (negb _); [done|]. intros [= <-]. unfold resolve_module_path in Er.
    repeat case_match; eauto. apply first_some_Some in Er as (cur & _ & Er). unfold in_node_modules in Er.
    destruct (b_is_file h _) eqn:E in Er; [by simplify_eq|].
    destruct (first_file h (with_extension _ <$> _)) eqn:E1 in Er; [simplify_eq; by eapply first_file_is_file|].
    repeat case_match; try done. apply bind_Some in Er as (v & _ & Er). apply bind_Some in Er as (main & _ & Er).
    case_match eqn:E2; [by simplify_eq|done].
  - by destruct (_ || _ || _).
Qed.

Lemma bundle_complete_witness :
  module_count BundleToy.bundled = 2 ∧
  ∃ map g, (∀ p, p ∈ modules g → Reach BundleToy.host map "/p/a.js" p) ∧ length (modules g) = 2.
Proof.
  split; [vm_compute; reflexivity|].
  destruct (bundle_complete BundleToy.host 5 BundleToy.options BundleToy.bundled BundleToy.bundled_ok)
    as (map & g & codes & _ & _ & _ & Hr & Hn & _).
  exists map, g. split; [exact Hr|]. rewrite <-Hn. vm_compute. reflexivity.
Defined.
Lemma named_bindings_checked_witness :
  validate_named_bindings (take 2 BundleToy.ring) (take 2 BundleToy.ring_maps) [] = Some (Ok tt).
Proof.
  apply (proj1 (proj2 (proj2 (named_bindings_checked (take 2 BundleToy.ring) (take 2 BundleToy.ring_maps) [] eq_refl)))).
  - exists (λ m, 3 - m). intros m m' (a & dm & s & Ha & Hd & Hs & Hm).
    destruct m as [|[|m]]; [| |done]; simpl in Ha, Hd; simplify_eq/=; apply list_elem_of_singleton in Hs as ->;
      vm_compute in Hm; injection Hm as <-; lia.
  - intros i a Hin name s e j Hname. cbn in Hin.
    repeat (apply elem_of_cons in Hin as [[= -> ->]|Hin]; [by apply elem_of_nil in Hname|]). by apply elem_of_nil in Hin.
Defined.
Lemma spans_spliced_witness :
  apply_span_replacements BundleToy.b_js [{| start := 17; end_ := 34; text := "D" |}; {| start := 0; end_ := 16; text := "I;" |}]
  = ("I; D export const n = 1;" : rstr).
Proof.
  rewrite (spans_spliced BundleToy.b_js [{| start := 0; end_ := 16; text := "I;" |}; {| start := 17; end_ := 34; text := "D" |}]).
  - vm_compute. reflexivity.
  - vm_compute. repeat split; lia.
  - apply Permutation_swap.
Defined.
Lemma bundle_terminates_witness :
  ∃ fuel, ∀ fuel', fuel ≤ fuel' → ∃ r, bundle_project BundleToy.host fuel' BundleToy.options = Some r.
Proof.
  apply (bundle_terminates BundleToy.host BundleToy.options {[components "/p/a.js"; components "/p/b.js"]}).
  - apply elem_of_union. left. by apply elem_of_singleton.
  - intros map p q _ _ (deps & s & Hd & Hin). unfold module_dependencies in Hd.
    destruct (read_module BundleToy.host p) as [source|]; [|done].
    apply (dependencies_spec _ _ _ _ _ Hd) in Hin as [_ Hq%resolve_is_file].
    cbn in Hq. apply orb_true_iff in Hq. unfold BundleToy.at_path in Hq. rewrite !bool_decide_eq_true in Hq.
    apply elem_of_union. destruct Hq as [Hq|Hq]; [left|right]; apply elem_of_singleton; exact Hq.
Defined.
Lemma bundle_failures_witness :
  starts_with BUNDLE_ERROR_PREFIX "error: amber bundle: failed to write '/p/out.map': no space" = true ∧
  length (match bundle_project BundleToy.host 5 BundleToy.options with Some (effects, Err _) => effects | _ => [] end) = 2.
Proof.
  split; [|vm_compute; reflexivity].
  refine (proj1 (bundle_failures BundleToy.host 5 BundleToy.options _ _ _)). vm_compute. reflexivity.
Defined.

(** *** What the line scanner and the assembly do to text that is not code *)

(** A specifier in a comment is a dependency, and a missing one fails the bundle. *)
Example comment_is_scanned : scan_line "// was: require('./gone')" = ["./gone" : rstr].
Proof. vm_compute. reflexivity. Qed.
(** The lines of a template literal are indented like code. *)
Example template_is_indented :
  starts_with ("  // [0] t.js" ++ newline :: "  0: function(module, exports, __amberjs_require__) {" ++ newline :: "    x = `a" ++ newline :: "    b`;")
    (module_text {| bm_id := 0; bm_path := "t.js"; processed_code := "x = `a" ++ newline :: "b`;" |}) = true.
Proof. vm_compute. reflexivity. Qed.
(** A request for a file whose name has a dot looks for another name. *)
Example dotted_name_replaced : with_extension "/p/util.test" "js" = ("/p/util.js" : rstr).
Proof. vm_compute. reflexivity. Qed.
