(* ===== verification/Standalone.v ===== *)
(** * The executable that carries a script, [src/tooling/compiler.rs]

    [amber compile] adds a script and a 32-byte trailer to a copy of the runtime, and
    every start of the runtime looks for that trailer in its own file.  Here: the
    trailer, how it is found in an image in memory and in an open file, and the
    Mach-O segment it may be in.  A file is what [metadata] says its length is and what
    seeking and reading exactly so many bytes gives.  Integers are those of a
    64-bit machine, on which a [u64] always fits a [usize].  The segment is put into a
    Mach-O by [MachO]; the command is [Compile]. *)

From S2P Require Import Prelude Bytes RustPath RawPath.

Definition MAGIC_TRAILER : rstr := "AMBER_STANDALONE".
Definition TRAILER_TOTAL_SIZE : Z := 32.
Definition COMPILE_ERROR_PREFIX : rstr := "error: amber compile:".
Definition STANDALONE_ERROR_PREFIX : rstr := "error: amber standalone:".
Definition compile_error (message : rstr) : rstr := COMPILE_ERROR_PREFIX ++ " " ++ message.
Definition standalone_error (message : rstr) : rstr := STANDALONE_ERROR_PREFIX ++ " " ++ message.

Record StandaloneTrailer := { payload_start : Z; payload_len : Z; flags : Z; trailer_end : Z }.

(** ** Mach-O load commands *)

Definition MACHO_HEADER_READ_LIMIT : Z := 8 * 1024 * 1024.
Definition MH_MAGIC_64 : Z := 0xfeedfacf.
Definition LC_SEGMENT_64 : Z := 0x19.
Definition SEG_CMD_SIZE : Z := 72.
Record AmberSegment := { seg_start : Z; seg_end : Z }.

Definition read_le_at (w : Z) (bytes : rstr) (at_ : Z) : outcome Z :=
  if bool_decide (U64_MOD ≤ at_ + w)%Z then Failed (compile_error "Mach-O offset overflow")
  else match get bytes at_ w with
       | Some slice => Done (from_le_bytes slice)
       | None => Failed (compile_error "Mach-O load command is truncated")
       end.
Definition read_u32 : rstr → Z → outcome Z := read_le_at 4.
Definition read_u64 : rstr → Z → outcome Z := read_le_at 8.
Definition padded_name (name : rstr) : rstr := name ++ replicate (16 - length name) "000"%char.
Definition segname_is (bytes name : rstr) : bool := bool_decide (bytes = padded_name name).

(** [.ok()?] *)
Definition ok {A} (m : outcome A) : outcome (option A) :=
  match m with Done a => Done (Some a) | Failed _ => Done None | Crashed => Crashed end.
(** The segment of one load command, when it is [__AMBER]: [None] gives up on the file. *)
Definition amber_segment_at (bytes : rstr) (file_len offset : Z) : outcome (option AmberSegment) :=
  fileoff ← ok (read_u64 bytes (offset + 40));
  filesize ← ok (read_u64 bytes (offset + 48));
  Done (start ← fileoff; size ← filesize;
        if bool_decide (U64_MOD ≤ start + size)%Z then None       (* [checked_add] *)
        else if bool_decide (file_len < start + size)%Z then None
        else Some {| seg_start := start; seg_end := start + size |}).
Fixpoint find_amber (ncmds : nat) (bytes : rstr) (file_len header_end offset : Z) : outcome (option AmberSegment) :=
  match ncmds with
  | 0 => Done None
  | S ncmds =>
      if bool_decide (header_end < offset + 8)%Z then Done None
      else
        cmd ← ok (read_u32 bytes offset);
        cmdsize ← ok (read_u32 bytes (offset + 4));
        match cmd, cmdsize with
        | Some cmd, Some cmdsize =>
            if bool_decide (cmdsize < 8 ∨ header_end < offset + cmdsize)%Z then Done None
            else if bool_decide (cmd = LC_SEGMENT_64 ∧ SEG_CMD_SIZE ≤ cmdsize)%Z then
              name ← or_crash (get bytes (offset + 8) 16);
              if segname_is name "__AMBER" then amber_segment_at bytes file_len offset
              else find_amber ncmds bytes file_len header_end (offset + cmdsize)
            else find_amber ncmds bytes file_len header_end (offset + cmdsize)
        | _, _ => Done None
        end
  end.
Definition macho_amber_segment_in (bytes : rstr) (file_len : Z) : outcome (option AmberSegment) :=
  if bool_decide (len bytes < 32 ∨ file_len < 32)%Z then Done None
  else
    magic ← or_crash (from_le_bytes <$> get bytes 0 4);
    if bool_decide (magic ≠ MH_MAGIC_64) then Done None
    else
      ncmds ← ok (read_u32 bytes 16);
      sizeofcmds ← ok (read_u32 bytes 20);
      match ncmds, sizeofcmds with
      | Some ncmds, Some sizeofcmds =>
          let header_end := (32 + sizeofcmds)%Z in
          if bool_decide (len bytes < header_end ∨ file_len < header_end)%Z then Done None
          else find_amber (Z.to_nat ncmds) bytes file_len header_end 32
      | _, _ => Done None
      end.
Definition macho_amber_segment (bytes : rstr) : outcome (option AmberSegment) := macho_amber_segment_in bytes (len bytes).

(** ** The trailer *)

Definition parse_trailer_bytes (file_len trailer_end : Z) (raw : rstr) (segment_start : option Z) :
    outcome (option StandaloneTrailer) :=
  if bool_decide (len raw ≠ TRAILER_TOTAL_SIZE ∨ trailer_end < TRAILER_TOTAL_SIZE ∨ file_len < trailer_end)%Z
  then Failed (standalone_error "invalid trailer")
  else
    payload_len ← or_crash (from_le_bytes <$> get raw 0 8);
    flags ← or_crash (from_le_bytes <$> get raw 8 8);
    if bool_decide (flags ≠ 0)%Z
    then Done (Some {| payload_start := 0; payload_len := payload_len; flags := flags; trailer_end := trailer_end |})
    else if bool_decide (payload_len = 0)%Z then Failed (standalone_error "invalid payload length")
    else
      let len_at := (trailer_end - TRAILER_TOTAL_SIZE)%Z in
      if bool_decide (len_at < payload_len)%Z then Failed (standalone_error "invalid payload length")
      else
        let payload_start := (len_at - payload_len)%Z in
        if match segment_start with Some start => bool_decide (payload_start < start)%Z | None => false end
        then Failed (standalone_error "invalid payload length")
        else Done (Some {| payload_start := payload_start; payload_len := payload_len; flags := flags;
                           trailer_end := trailer_end |}).
Definition parse_trailer_at (bytes : rstr) (trailer_end : Z) (segment_start : option Z) :
    outcome (option StandaloneTrailer) :=
  if bool_decide (trailer_end < TRAILER_TOTAL_SIZE ∨ len bytes < trailer_end)%Z
  then Failed (standalone_error "invalid trailer")
  else
    raw ← or_crash (get bytes (trailer_end - TRAILER_TOTAL_SIZE) TRAILER_TOTAL_SIZE);
    parse_trailer_bytes (len bytes) trailer_end raw segment_start.
(** In an image in memory. *)
Definition find_standalone_trailer (bytes : rstr) : outcome (option StandaloneTrailer) :=
  segment ← macho_amber_segment bytes;
  match segment with
  | Some segment =>
      let end_ := seg_end segment in
      if bool_decide (end_ < TRAILER_TOTAL_SIZE ∨ len bytes < end_)%Z then Failed (standalone_error "invalid trailer")
      else
        magic ← or_crash (get bytes (end_ - 16) 16);
        if bool_decide (magic ≠ MAGIC_TRAILER) then Failed (standalone_error "invalid trailer")
        else parse_trailer_at bytes end_ (Some (seg_start segment))
  | None =>
      if bool_decide (16 ≤ len bytes)%Z && ends_with MAGIC_TRAILER bytes
      then parse_trailer_at bytes (len bytes) None else Done None
  end.

(** ** In an open file *)

Record SeaFile := {
  f_len : option Z;                       (* [metadata().len()] *)
  f_read : Z → Z → option rstr;           (* [seek] and [read_exact] *)
}.
Definition invalid {A} : option A → outcome A := or_fail (standalone_error "invalid trailer").

Definition read_macho_amber_segment (file : SeaFile) (file_len : Z) : outcome (option AmberSegment) :=
  if bool_decide (file_len < 32)%Z then Done None
  else match f_read file 0 32 with
       | None => Done None
       | Some header =>
           magic ← or_crash (from_le_bytes <$> get header 0 4);
           if bool_decide (magic ≠ MH_MAGIC_64) then Done None
           else
             sizeofcmds ← or_crash (from_le_bytes <$> get header 20 4);
             let header_end := (32 + sizeofcmds)%Z in
             if bool_decide (file_len < header_end ∨ MACHO_HEADER_READ_LIMIT < header_end)%Z then Done None
             else cmds ← invalid (f_read file 0 header_end); macho_amber_segment_in cmds file_len
       end.
Definition read_trailer_fields (file : SeaFile) (file_len trailer_end : Z) (segment_start : option Z) :
    outcome (option StandaloneTrailer) :=
  if bool_decide (trailer_end < TRAILER_TOTAL_SIZE ∨ file_len < trailer_end)%Z
  then Failed (standalone_error "invalid trailer")
  else
    raw ← invalid (f_read file (trailer_end - TRAILER_TOTAL_SIZE) TRAILER_TOTAL_SIZE);
    parse_trailer_bytes file_len trailer_end raw segment_start.
Definition locate_standalone_trailer (file : SeaFile) (file_len : Z) : outcome (option StandaloneTrailer) :=
  if bool_decide (file_len < 16)%Z then Done None
  else
    segment ← read_macho_amber_segment file file_len;
    match segment with
    | Some segment =>
        let end_ := seg_end segment in
        if bool_decide (end_ < TRAILER_TOTAL_SIZE ∨ file_len < end_)%Z then Failed (standalone_error "invalid trailer")
        else
          magic ← invalid (f_read file (end_ - 16) 16);
          if bool_decide (magic ≠ MAGIC_TRAILER) then Failed (standalone_error "invalid trailer")
          else read_trailer_fields file file_len end_ (Some (seg_start segment))
    | None =>
        magic ← invalid (f_read file (file_len - 16) 16);
        if bool_decide (magic ≠ MAGIC_TRAILER) then Done None
        else if bool_decide (file_len < TRAILER_TOTAL_SIZE)%Z then Failed (standalone_error "invalid trailer")
        else read_trailer_fields file file_len file_len None
    end.
(** [None] for a file that cannot be opened. *)
Definition read_standalone_payload (file : option SeaFile) : outcome (option rstr) :=
  match file ≫= (λ f, pair f <$> f_len f) with
  | None => Done None
  | Some (file, file_len) =>
      trailer ← locate_standalone_trailer file file_len;
      match trailer with
      | None => Done None
      | Some trailer =>
          if bool_decide (flags trailer ≠ 0)%Z
          then Failed (standalone_error ("unsupported trailer flags: " ++ dec (Z.to_N (flags trailer))))
          else
            payload ← invalid (f_read file (payload_start trailer) (payload_len trailer));
            if utf8_valid payload then Done (Some payload) else Failed (standalone_error "payload is not UTF-8")
      end
  end.
(** [current_exe] fails, or gives the running file. *)
Definition detect_standalone_payload (current_exe : option (option SeaFile)) : outcome (option rstr) :=
  match current_exe with None => Done None | Some file => read_standalone_payload file end.

(** A regular file whose every read works. *)
Definition file_of (bytes : rstr) : SeaFile := {| f_len := Some (len bytes); f_read := get bytes |}.

(** ** Writing it *)

Definition trailer_blob (payload : rstr) : outcome rstr :=
  if bool_decide (payload = []) then Failed (compile_error "bundle produced an empty payload")
  else if bool_decide (U64_MOD ≤ len payload)%Z then Failed (compile_error "bundle payload is too large")
  else Done (payload ++ le_bytes 8 (len payload) ++ le_bytes 8 0 ++ MAGIC_TRAILER).
