(* ===== verification/StandaloneTheorems.v ===== *)
(** * Theorems on finding the script

    What a start of the runtime finds in its own file: looking at parts of an open
    file is the same as looking at the whole image; a file that is not a Mach-O
    carries a script exactly when it ends in one and its trailer; and whatever the file
    holds, looking never panics and never leaves the file. *)

From S2P Require Import Prelude Bytes Standalone.

#[local] Arguments le_bytes : simpl never.
#[local] Arguments Z.add : simpl never.
(** Buffers are far smaller than the address space. *)
Definition small (s : rstr) : Prop := (len s < 2 ^ 62)%Z.
(** The little-endian field of [w] bytes at [k]. *)
Definition field (w : Z) (c : rstr) (k : Z) : Z := default 0%Z (from_le_bytes <$> get c k w).

Lemma read_field w x c z k :
  small (x ++ c ++ z) → (0 ≤ w ≤ 8)%Z → (0 ≤ k)%Z → (k + w ≤ len c)%Z → read_le_at w (x ++ c ++ z) (len x + k) = Done (field w c k).
Proof.
  unfold small. rewrite !len_app. intros Hs Hw Hk Hle. pose proof (len_nonneg x). pose proof (len_nonneg z).
  unfold read_le_at, field. rewrite bool_decide_eq_false_2 by (unfold U64_MOD; lia). rewrite get_mid by done.
  destruct (get_in_range c k w) as [t ->]; [lia..|]. done.
Qed.
Lemma read_own w c k : small c → (0 ≤ w ≤ 8)%Z → (0 ≤ k)%Z → (k + w ≤ len c)%Z → read_le_at w c k = Done (field w c k).
Proof.
  intros. pose proof (read_field w [] c [] k) as H'. rewrite len_nil, app_nil_r, Z.add_0_l in H'. by apply H'.
Qed.
Lemma field_range w c k : (0 ≤ w)%Z → (0 ≤ field w c k < 256 ^ w)%Z.
Proof.
  intros Hw. unfold field. destruct (get c k w) as [t|] eqn:E; simpl; [|lia]. apply get_length in E. unfold len in E.
  pose proof (from_le_range t). by rewrite E in *.
Qed.
Lemma get_out s a n : (a + n ≤ len s)%Z → (0 ≤ a)%Z → (0 ≤ n)%Z → get s a n = Some (default [] (get s a n)).
Proof. intros. by destruct (get_in_range s a n) as [t ->]. Qed.


(** ** A prefix that holds the load commands is enough *)

Lemma read_le_front w x z k : (0 ≤ k)%Z → (k + w ≤ len x)%Z → read_le_at w (x ++ z) k = read_le_at w x k.
Proof. intros. unfold read_le_at. by rewrite get_front. Qed.
Lemma find_amber_front n x z file_len he offset :
  (0 ≤ offset)%Z → (he ≤ len x)%Z → find_amber n (x ++ z) file_len he offset = find_amber n x file_len he offset.
Proof.
  intros Ho Hhe. revert offset Ho. induction n as [|n IH]; intros offset Ho; [done|]. cbn [find_amber].
  case_bool_decide; [done|]. unfold read_u32. rewrite !read_le_front by lia.
  destruct (ok (read_le_at 4 x offset)) as [[cmd|]| |]; [|by destruct (ok _) as [[]| |]..]. cbn [mbind outcome_bind].
  destruct (ok (read_le_at 4 x (offset + 4))) as [[cmdsize|]| |]; [|done..]. cbn [mbind outcome_bind].
  case_bool_decide as Hfit; [done|]. case_bool_decide as Hseg; [|by apply IH; lia].
  unfold SEG_CMD_SIZE in Hseg. rewrite get_front by lia. destruct (get x (offset + 8) 16); [|done]. cbn [or_crash mbind outcome_bind].
  destruct (segname_is _ _); [|by apply IH; lia]. unfold amber_segment_at, read_u64. by rewrite !read_le_front by lia.
Qed.
(** The commands of a Mach-O that the reader is willing to load. *)
Definition loadable (bytes : rstr) : Prop :=
  field 4 bytes 0 = MH_MAGIC_64 → (32 + field 4 bytes 20 ≤ MACHO_HEADER_READ_LIMIT)%Z.
Lemma read_segment_agrees bytes :
  small bytes → loadable bytes → read_macho_amber_segment (file_of bytes) (len bytes) = macho_amber_segment bytes.
Proof.
  intros Hs Hl. unfold read_macho_amber_segment, macho_amber_segment, macho_amber_segment_in, file_of. cbn [f_read].
  case_bool_decide as H32; [by rewrite bool_decide_eq_true_2 by lia|]. rewrite (bool_decide_eq_false_2 (len bytes < 32 ∨ _)%Z) by lia.
  destruct (get_in_range bytes 0 32) as [hd Hhd]; [lia..|]. rewrite Hhd.
  apply get_prefix in Hhd as (rest & -> & Hhd).
  assert (G : ∀ k, (0 ≤ k)%Z → (k + 4 ≤ 32)%Z → get (hd ++ rest) k 4 = get hd k 4) by (intros; apply get_front; lia).
  unfold read_u32. rewrite !read_own by (done || lia). rewrite G by lia. unfold loadable in Hl.
  assert (F : ∀ k, (0 ≤ k)%Z → (k + 4 ≤ 32)%Z → from_le_bytes <$> get hd k 4 = Some (field 4 (hd ++ rest) k)).
  { intros k Hk Hle. unfold field. rewrite G by done. by destruct (get_in_range hd k 4) as [t ->]; [lia..|]. }
  rewrite !F by lia. cbn [or_crash ok mbind outcome_bind]. case_bool_decide as Hm; [done|].
  specialize (Hl Hm). pose proof (field_range 4 (hd ++ rest) 20 ltac:(lia)).
  destruct (decide (len (hd ++ rest) < 32 + field 4 (hd ++ rest) 20)%Z) as [Hlt|Hge]; [by rewrite !bool_decide_eq_true_2 by lia|].
  rewrite (bool_decide_eq_false_2 (_ ∨ MACHO_HEADER_READ_LIMIT < _)%Z) by lia.
  destruct (get_in_range (hd ++ rest) 0 (32 + field 4 (hd ++ rest) 20)) as [cmds Hc]; [lia..|]. rewrite Hc. cbn [invalid or_fail mbind outcome_bind].
  apply get_prefix in Hc as (z & Hb & Hc).
  rewrite (bool_decide_eq_false_2 (len (hd ++ rest) < _ ∨ len (hd ++ rest) < _)%Z) by lia.
  unfold macho_amber_segment_in. rewrite bool_decide_eq_false_2 by lia.
  assert (Gc : ∀ k, (0 ≤ k)%Z → (k + 4 ≤ 32)%Z → get cmds k 4 = get (hd ++ rest) k 4) by (intros; rewrite Hb; symmetry; apply get_front; lia).
  assert (Fc : ∀ k, (0 ≤ k)%Z → (k + 4 ≤ 32)%Z → field 4 cmds k = field 4 (hd ++ rest) k) by (intros; unfold field; by rewrite Gc).
  rewrite Gc, G, F by lia. cbn [or_crash mbind outcome_bind]. rewrite bool_decide_eq_false_2 by (intros Hn; by apply Hn).
  assert (Hsc : small cmds) by (unfold small in *; rewrite Hb, len_app in Hs; pose proof (len_nonneg z); lia).
  unfold read_u32. rewrite !read_own by (done || lia). rewrite !Fc by lia. cbn [ok mbind outcome_bind].
  rewrite bool_decide_eq_false_2 by lia. rewrite <-(find_amber_front _ cmds z) by lia. by rewrite <-Hb.
Qed.

Lemma fields_agree bytes trailer_end start :
  read_trailer_fields (file_of bytes) (len bytes) trailer_end start = parse_trailer_at bytes trailer_end start.
Proof.
  unfold read_trailer_fields, parse_trailer_at. case_bool_decide as H; [done|]. unfold TRAILER_TOTAL_SIZE in *. cbn [f_read file_of].
  by destruct (get_in_range bytes (trailer_end - 32) 32) as [raw ->]; [lia..|].
Qed.
(** The runtime looks at the last bytes of its file, or at the load commands of a Mach-O
    alone, and finds what a search of the whole image finds. *)
Theorem reader_agrees bytes :
  small bytes → loadable bytes → locate_standalone_trailer (file_of bytes) (len bytes) = find_standalone_trailer bytes.
Proof.
  intros Hs Hl. pose proof (len_nonneg bytes) as Hn. unfold locate_standalone_trailer, find_standalone_trailer.
  rewrite read_segment_agrees by done. case_bool_decide as H16.
  { unfold macho_amber_segment, macho_amber_segment_in. rewrite (bool_decide_eq_true_2 (len bytes < 32 ∨ len bytes < 32)%Z) by lia. cbn [mbind outcome_bind].
    rewrite bool_decide_eq_false_2 by lia. done. }
  destruct (macho_amber_segment bytes) as [[[start end_]|]| |]; [..|done|done]; cbn [mbind outcome_bind seg_end seg_start f_read file_of].
  - case_bool_decide as He; [done|]. unfold TRAILER_TOTAL_SIZE in He. destruct (get_in_range bytes (end_ - 16) 16) as [m ->]; [lia..|].
    cbn [invalid or_fail or_crash mbind outcome_bind]. case_bool_decide; [done|]. apply fields_agree.
  - rewrite (bool_decide_eq_true_2 (16 ≤ _)%Z) by lia. destruct (get_in_range bytes (len bytes - 16) 16) as [m Hm]; [lia..|]. rewrite Hm.
    cbn [invalid or_fail andb mbind outcome_bind].
    assert (ends_with MAGIC_TRAILER bytes = bool_decide (m = MAGIC_TRAILER)) as ->.
    { apply get_Some in Hm as (x & y & -> & Hx & Hm). assert (y = []) as ->.
      { destruct y; [done|]. unfold len in *. rewrite !length_app in *. simpl in *. lia. }
      rewrite app_nil_r. apply Bool.eq_iff_eq_true. rewrite ends_with_spec, bool_decide_eq_true. split.
      - intros [k Hk]. apply app_inj_2 in Hk as [_ ?]; [done|]. unfold len in Hm. simpl. lia.
      - intros ->. by exists x. }
    destruct (decide (m = MAGIC_TRAILER)) as [E|E].
    + rewrite bool_decide_eq_false_2, (bool_decide_eq_true_2 (m = _)) by (done || by intros Hn'). case_bool_decide as E2.
      * unfold parse_trailer_at. by rewrite bool_decide_eq_true_2 by lia.
      * apply fields_agree.
    + by rewrite bool_decide_eq_true_2, bool_decide_eq_false_2 by done.
Qed.

(** ** The trailer *)

Definition trailer (n : Z) : rstr := le_bytes 8 n ++ le_bytes 8 0 ++ MAGIC_TRAILER.
Lemma len_trailer n : len (trailer n) = 32%Z.
Proof. unfold trailer. by rewrite !len_app, !len_le_bytes. Qed.
Lemma trailer_blob_spec s blob : trailer_blob s = Done blob ↔ s ≠ [] ∧ (len s < U64_MOD)%Z ∧ blob = s ++ trailer (len s).
Proof.
  unfold trailer_blob. case_bool_decide as H; [naive_solver|]. case_bool_decide as H'.
  - split; [done|]. intros (_ & ? & _). lia.
  - split; [intros E; split_and!; [done|lia|]|intros (_ & _ & ->); done]. unfold trailer. congruence.
Qed.
(** The 32 bytes before [trailer_end], when they are a trailer of this runtime. *)
Lemma parse_trailer_spec file_len trailer_end n start :
  (0 < n < 256 ^ 8)%Z → (trailer_end ≤ file_len)%Z → (n ≤ trailer_end - 32)%Z →
  match start with Some start => start ≤ trailer_end - 32 - n | None => True end%Z →
  parse_trailer_bytes file_len trailer_end (trailer n) start =
    Done (Some {| payload_start := trailer_end - 32 - n; payload_len := n; flags := 0; trailer_end := trailer_end |}).
Proof.
  intros Hn Hle Hfit Hst. unfold parse_trailer_bytes. rewrite len_trailer. unfold TRAILER_TOTAL_SIZE.
  rewrite bool_decide_eq_false_2 by lia. unfold trailer.
  rewrite get_0_app by by rewrite len_le_bytes. rewrite (get_at (le_bytes 8 n) (le_bytes 8 0)) by by rewrite ?len_le_bytes.
  cbn [fmap option_fmap option_map or_crash mbind outcome_bind]. rewrite !from_le_le_bytes by lia.
  rewrite bool_decide_eq_false_2, bool_decide_eq_false_2, bool_decide_eq_false_2 by lia.
  destruct start as [start|]; [by rewrite bool_decide_eq_false_2 by lia|done].
Qed.
Lemma parse_trailer_inv file_len trailer_end raw start t :
  parse_trailer_bytes file_len trailer_end raw start = Done (Some t) → flags t = 0%Z →
  ∃ magic, raw = le_bytes 8 (payload_len t) ++ le_bytes 8 0 ++ magic ∧ len magic = 16%Z ∧ (0 < payload_len t < 256 ^ 8)%Z ∧
    payload_start t = (trailer_end - 32 - payload_len t)%Z ∧ (0 ≤ payload_start t)%Z ∧ (32 ≤ trailer_end ≤ file_len)%Z ∧
    match start with Some start => start ≤ payload_start t | None => True end%Z.
Proof.
  unfold parse_trailer_bytes, TRAILER_TOTAL_SIZE. case_bool_decide as H; [done|].
  destruct (decide (len raw = 32%Z)) as [Hraw|]; [|tauto].
  destruct (get_in_range raw 0 8) as [r1 Hr]; [lia..|]. rewrite Hr. apply get_prefix in Hr as (r23 & -> & H1).
  rewrite len_app in Hraw. 
  assert (get (r1 ++ r23) 8 8 = get r23 0 8) as -> by (replace 8%Z with (len r1 + 0)%Z at 1 by lia; apply get_back; lia).
  destruct (get_in_range r23 0 8) as [r2 Hr]; [lia..|]. rewrite Hr. apply get_prefix in Hr as (magic & -> & H2). rewrite len_app in Hraw.
  cbn [fmap option_fmap option_map or_crash mbind outcome_bind]. intros Ht Hf.
  pose proof (from_le_range r1) as R1. assert (length r1 = 8) as L1 by (unfold len in H1; lia). assert (length r2 = 8) as L2 by (unfold len in H2; lia).
  rewrite L1 in R1. destruct (decide (from_le_bytes r2 = 0)%Z) as [E0|E0].
  2:{ rewrite bool_decide_eq_true_2 in Ht by done. by simplify_eq. }
  rewrite bool_decide_eq_false_2 in Ht by tauto. case_bool_decide as E1; [done|]. case_bool_decide as E2; [done|].
  destruct (match start with Some _ => _ | None => _ end) eqn:E3; [done|]. simplify_eq/=. exists magic.
  split_and!; try lia.
  - rewrite <-(le_from_le_bytes r1) at 1. rewrite <-(le_from_le_bytes r2) at 1. by rewrite L1, L2, E0.
  - destruct start; [|done]. apply bool_decide_eq_false in E3. lia.
Qed.
Lemma not_macho bytes : field 4 bytes 0 ≠ MH_MAGIC_64 → macho_amber_segment bytes = Done None.
Proof.
  intros Hm. unfold macho_amber_segment, macho_amber_segment_in. case_bool_decide as H32; [done|].
  unfold field in Hm. destruct (get_in_range bytes 0 4) as [t Ht]; [lia..|]. rewrite Ht in *. simpl in *. by rewrite bool_decide_eq_true_2.
Qed.
Lemma read_found bytes t s :
  locate_standalone_trailer (file_of bytes) (len bytes) = Done (Some t) → flags t = 0%Z →
  get bytes (payload_start t) (payload_len t) = Some s → utf8_valid s = true → read_standalone_payload (Some (file_of bytes)) = Done (Some s).
Proof.
  intros Hl Hf Hg Hu. unfold read_standalone_payload. cbn [mbind option_bind fmap option_fmap option_map f_len file_of].
  rewrite Hl. cbn [mbind outcome_bind]. rewrite bool_decide_eq_false_2 by tauto. cbn [f_read file_of]. rewrite Hg.
  cbn [invalid or_fail mbind outcome_bind]. by rewrite Hu.
Qed.
Lemma read_inv bytes s :
  read_standalone_payload (Some (file_of bytes)) = Done (Some s) →
  ∃ t, locate_standalone_trailer (file_of bytes) (len bytes) = Done (Some t) ∧ flags t = 0%Z ∧
    get bytes (payload_start t) (payload_len t) = Some s ∧ utf8_valid s = true.
Proof.
  unfold read_standalone_payload. cbn [mbind option_bind fmap option_fmap option_map f_len file_of].
  intros ([t|] & Hl & H)%done_bind; [|done]. case_bool_decide as Hf; [done|]. cbn [f_read file_of] in H.
  apply done_bind in H as (p & Hp & H). destruct (get bytes _ _) as [p'|] eqn:Eg; [|done]. simplify_eq/=.
  destruct (utf8_valid p) eqn:Eu; [|done]. simplify_eq. exists t. destruct (decide (flags t = 0)%Z); [done|tauto].
Qed.

Lemma appended_spec bytes s :
  small bytes → field 4 bytes 0 ≠ MH_MAGIC_64 →
  read_standalone_payload (Some (file_of bytes)) = Done (Some s) ↔
  s ≠ [] ∧ utf8_valid s = true ∧ ∃ host blob, trailer_blob s = Done blob ∧ bytes = host ++ blob.
Proof.
  intros Hs Hm. assert (Hloc : locate_standalone_trailer (file_of bytes) (len bytes) =
    (if bool_decide (16 ≤ len bytes)%Z && ends_with MAGIC_TRAILER bytes then parse_trailer_at bytes (len bytes) None else Done None)).
  { rewrite reader_agrees; [|done|by intros ?]. unfold find_standalone_trailer. by rewrite not_macho. }
  split.
  - intros (t & Hl & Hf & Hg & Hu)%read_inv. rewrite Hloc in Hl. destruct (_ && _) eqn:E; [|done].
    apply andb_true_iff in E as [_ [x Hx]%ends_with_spec].
    unfold parse_trailer_at in Hl. case_bool_decide as H32; [done|]. unfold TRAILER_TOTAL_SIZE in *.
    destruct (get_in_range bytes (len bytes - 32) 32) as [raw Hraw]; [lia..|]. rewrite Hraw in Hl. cbn [or_crash mbind outcome_bind] in Hl.
    apply parse_trailer_inv in Hl as (magic & -> & Hmg & Hn & Hst & Hst0 & _); [|done].
    apply get_Some in Hraw as (y & z & Hb & Hy & Hr).
    assert (z = []) as -> by (destruct z; [done|]; rewrite Hb, !len_app in *; unfold len in *; simpl in *; lia). rewrite app_nil_r in Hb.
    assert (magic = MAGIC_TRAILER) as ->.
    { rewrite Hb, !app_assoc in Hx. apply app_inj_2 in Hx as [_ ?]; [done|]. unfold len in Hmg. simpl. lia. }
    rewrite Hb in Hg. rewrite get_front in Hg by lia. apply get_Some in Hg as (host & q & Hyq & Hh & Hq).
    assert (q = []) as -> by (destruct q; [done|]; rewrite Hyq, !len_app in *; unfold len in *; simpl in *; lia).
    assert (s ≠ []) as Hne by (intros ->; unfold len in Hq; simpl in Hq; lia).
    split_and!; [done|done|]. exists host, (s ++ trailer (len s)). split.
    + apply trailer_blob_spec. split_and!; [done| |done]. unfold U64_MOD. unfold small in Hs. rewrite Hb, Hyq, !len_app in Hs. pose proof (len_nonneg host). lia.
    + unfold trailer. rewrite Hb, Hyq, app_nil_r, Hq. by rewrite <-!app_assoc.
  - intros (Hne & Hu & host & blob & (_ & Hbig & ->)%trailer_blob_spec & ->). unfold U64_MOD in Hbig.
    assert (Hpos : (0 < len s)%Z) by (destruct s; [done|unfold len; simpl; lia]).
    pose proof (len_nonneg host). unfold small in Hs. rewrite (len_app host), (len_app s), len_trailer in Hs.
    apply (read_found _ {| payload_start := len host + (len s + 32) - 32 - len s; payload_len := len s; flags := 0;
                           trailer_end := len host + (len s + 32) |}); [|done| |done].
    + rewrite Hloc. rewrite bool_decide_eq_true_2 by (rewrite (len_app host), (len_app s), len_trailer; lia).
      rewrite (proj2 (ends_with_spec MAGIC_TRAILER _)) by (exists (host ++ s ++ le_bytes 8 (len s) ++ le_bytes 8 0); unfold trailer; by rewrite <-!app_assoc).
      cbn [andb]. unfold parse_trailer_at, TRAILER_TOTAL_SIZE. rewrite (len_app host), (len_app s), len_trailer. rewrite bool_decide_eq_false_2 by lia.
      rewrite app_assoc. rewrite <-(app_nil_r (trailer _)).
      rewrite (get_at (host ++ s) (trailer (len s)) []) by (rewrite ?len_trailer, ?len_app; lia). cbn [or_crash mbind outcome_bind].
      apply parse_trailer_spec; [lia..|done].
    + cbn [payload_start payload_len]. apply get_at; lia.
Qed.
(** On every system but macOS: a file that is no Mach-O carries a script exactly when it ends
    in the script, its length, zero flags and the magic; the script is then that one, whatever the
    executable before it is.  In particular what [compile] appends is what runs, and a second
    script appended later replaces the first. *)
Theorem appended_script_found bytes s :
  small bytes → field 4 bytes 0 ≠ MH_MAGIC_64 →
  read_standalone_payload (Some (file_of bytes)) = Done (Some s) ↔
  s ≠ [] ∧ utf8_valid s = true ∧ ∃ host blob, trailer_blob s = Done blob ∧ bytes = host ++ blob.
Proof. apply appended_spec. Qed.

(** ** Nothing in a file makes the reader panic *)

Definition safe {A} (m : outcome A) : Prop :=
  match m with Done _ => True | Failed e => starts_with STANDALONE_ERROR_PREFIX e = true | Crashed => False end.
Lemma safe_bind {A B} (m : outcome A) (f : A → outcome B) : safe m → (∀ a, m = Done a → safe (f a)) → safe (m ≫= f).
Proof. destruct m; simpl; auto. Qed.
Lemma safe_error {A} e : safe (Failed (standalone_error e) : outcome A).
Proof. simpl. apply starts_with_spec. by eexists. Qed.
Lemma safe_ok {A} (m : outcome A) : m ≠ Crashed → safe (ok m).
Proof. by destruct m. Qed.
Lemma read_le_not_crashed w s a : read_le_at w s a ≠ Crashed.
Proof. unfold read_le_at. case_bool_decide; [done|]. by destruct (get _ _ _). Qed.
Lemma safe_get s a n : (0 ≤ a)%Z → (0 ≤ n)%Z → (a + n ≤ len s)%Z → safe (or_crash (get s a n)).
Proof. intros. by destruct (get_in_range s a n) as [t ->]. Qed.
Lemma safe_get_field s a n : (0 ≤ a)%Z → (0 ≤ n)%Z → (a + n ≤ len s)%Z → safe (or_crash (from_le_bytes <$> get s a n)).
Proof. intros. by destruct (get_in_range s a n) as [t ->]. Qed.
Lemma safe_invalid {A} (o : option A) : safe (invalid o).
Proof. destruct o; [done|apply safe_error]. Qed.

Lemma safe_find_amber n bytes file_len he offset :
  (0 ≤ offset)%Z → (he ≤ len bytes)%Z → safe (find_amber n bytes file_len he offset).
Proof.
  intros Ho Hhe. revert offset Ho. induction n as [|n IH]; intros offset Ho; [done|]. cbn [find_amber].
  case_bool_decide; [done|]. apply safe_bind; [apply safe_ok, read_le_not_crashed|intros cmd _].
  apply safe_bind; [apply safe_ok, read_le_not_crashed|intros cmdsize _]. destruct cmd as [cmd|]; [|done]. destruct cmdsize as [cmdsize|]; [|done].
  case_bool_decide; [done|]. case_bool_decide as Hseg; [|by apply IH; lia]. unfold SEG_CMD_SIZE in Hseg.
  apply safe_bind; [apply safe_get; lia|intros name _]. destruct (segname_is _ _); [|by apply IH; lia].
  unfold amber_segment_at. apply safe_bind; [apply safe_ok, read_le_not_crashed|intros ? _].
  by apply safe_bind; [apply safe_ok, read_le_not_crashed|].
Qed.
Lemma safe_segment_in bytes file_len : safe (macho_amber_segment_in bytes file_len).
Proof.
  unfold macho_amber_segment_in. case_bool_decide; [done|]. apply safe_bind; [apply safe_get_field; lia|intros magic _].
  case_bool_decide; [done|]. apply safe_bind; [apply safe_ok, read_le_not_crashed|intros ncmds _].
  apply safe_bind; [apply safe_ok, read_le_not_crashed|intros size _]. destruct ncmds, size; try done.
  case_bool_decide; [done|]. apply safe_find_amber; lia.
Qed.
Lemma safe_parse file_len trailer_end raw start : safe (parse_trailer_bytes file_len trailer_end raw start).
Proof.
  unfold parse_trailer_bytes, TRAILER_TOTAL_SIZE. case_bool_decide as H; [apply safe_error|].
  destruct (decide (len raw = 32)%Z); [|tauto].
  apply safe_bind; [apply safe_get_field; lia|intros n _]. apply safe_bind; [apply safe_get_field; lia|intros fl _].
  case_bool_decide; [done|]. case_bool_decide; [apply safe_error|]. case_bool_decide; [apply safe_error|].
  destruct (match start with Some _ => _ | None => _ end); [apply safe_error|done].
Qed.
Lemma safe_fields f file_len trailer_end start : safe (read_trailer_fields f file_len trailer_end start).
Proof.
  unfold read_trailer_fields. case_bool_decide; [apply safe_error|]. apply safe_bind; [apply safe_invalid|intros; apply safe_parse].
Qed.

(** Whatever is in the running executable, and whichever of its reads fail, looking for a
    script ends without a panic; an error it reports has the contract's prefix. *)
Theorem reader_never_panics file :
  (∀ f a n t, file = Some f → f_read f a n = Some t → len t = n) →
  read_standalone_payload file ≠ Crashed ∧
  ∀ e, read_standalone_payload file = Failed e → starts_with STANDALONE_ERROR_PREFIX e = true.
Proof.
  intros Hr. enough (safe (read_standalone_payload file)) as Hsafe by (split; [intros E|intros e E]; by rewrite E in Hsafe).
  unfold read_standalone_payload. destruct file as [f|]; [|done]. cbn [mbind option_bind]. destruct (f_len f) as [n|]; [|done].
  cbn [fmap option_fmap option_map]. apply safe_bind.
  - unfold locate_standalone_trailer. case_bool_decide; [done|]. apply safe_bind.
    + unfold read_macho_amber_segment. case_bool_decide; [done|]. destruct (f_read f 0 32) as [hd|] eqn:Eh; [|done]. apply (Hr f) in Eh; [|done].
      apply safe_bind; [apply safe_get_field; lia|intros magic _]. case_bool_decide; [done|].
      apply safe_bind; [apply safe_get_field; lia|intros size _]. case_bool_decide; [done|].
      apply safe_bind; [apply safe_invalid|intros cmds _; apply safe_segment_in].
    + intros [segment|] _.
      * case_bool_decide; [apply safe_error|]. apply safe_bind; [apply safe_invalid|intros magic _].
        case_bool_decide; [apply safe_error|apply safe_fields].
      * apply safe_bind; [apply safe_invalid|intros magic _]. case_bool_decide; [done|]. case_bool_decide; [apply safe_error|apply safe_fields].
  - intros [t|] _; [|done]. case_bool_decide; [apply safe_error|]. apply safe_bind; [apply safe_invalid|intros p _].
    destruct (utf8_valid p); [done|apply safe_error].
Qed.

(** ** Concrete files *)

Module SeaToy.
Definition host : rstr := "not a Mach-O, the bytes of an executable".
Definition script : rstr := "console.log(1)".
Definition blob : rstr := script ++ trailer (len script).
Definition exe : rstr := host ++ blob.
Lemma exe_not_macho : field 4 exe 0 ≠ MH_MAGIC_64.
Proof. by vm_compute. Qed.
Lemma exe_small : small exe.
Proof. by vm_compute. Qed.
(** An executable that already carries a script is given another. *)
Example second_script : read_standalone_payload (Some (file_of (exe ++ "2" ++ trailer 1))) = Done (Some ("2" : rstr)).
Proof. vm_compute. reflexivity. Qed.
(** Trailers that are refused: unknown flags, no script, a script longer than the file. *)
Example refused_trailers :
  read_standalone_payload (Some (file_of (host ++ "2" ++ le_bytes 8 1 ++ le_bytes 8 7 ++ MAGIC_TRAILER)))
    = Failed (standalone_error "unsupported trailer flags: 7") ∧
  read_standalone_payload (Some (file_of (host ++ trailer 0))) = Failed (standalone_error "invalid payload length") ∧
  read_standalone_payload (Some (file_of (host ++ trailer 1000))) = Failed (standalone_error "invalid payload length") ∧
  read_standalone_payload (Some (file_of MAGIC_TRAILER)) = Failed (standalone_error "invalid trailer").
Proof. vm_compute. done. Qed.
End SeaToy.

Lemma reader_agrees_witness :
  locate_standalone_trailer (file_of SeaToy.exe) (len SeaToy.exe) =
  Done (Some {| payload_start := 40; payload_len := 14; flags := 0; trailer_end := 86 |}).
Proof.
  rewrite (reader_agrees SeaToy.exe SeaToy.exe_small (λ H, False_ind _ (SeaToy.exe_not_macho H))). vm_compute. reflexivity.
Defined.
Lemma appended_script_found_witness : read_standalone_payload (Some (file_of SeaToy.exe)) = Done (Some SeaToy.script).
Proof.
  apply (proj2 (appended_script_found SeaToy.exe SeaToy.script SeaToy.exe_small SeaToy.exe_not_macho)).
  split; [done|]. split; [reflexivity|]. exists SeaToy.host, SeaToy.blob. split; reflexivity.
Defined.
(** A file of which only the header can be read. *)
Lemma reader_never_panics_witness :
  read_standalone_payload (Some {| f_len := Some 86%Z; f_read := λ a n, if bool_decide (a = 0)%Z then get SeaToy.exe a n else None |}) ≠ Crashed.
Proof.
  apply (reader_never_panics (Some _)). intros f a n t [= <-]. cbn [f_read]. case_bool_decide; [apply get_length|done].
Defined.
