(* ===== verification/MachO.v ===== *)
(** * Putting the script into a Mach-O, [src/tooling/compiler.rs]

    On macOS the script goes into a segment [__AMBER] placed before [__LINKEDIT], so
    that [codesign] can sign what is left at the end: [inject_amber_segment] adds a
    load command, moves [__LINKEDIT] down by whole pages and then every file
    offset that points into what moved.  Offsets are 64-bit, [usize] sums of them that
    the sizes of real buffers keep small are not wrapped; those on fields read from
    the file are. *)

From S2P Require Import Prelude Bytes Standalone.

Definition FAT_MAGIC : Z := 0xcafebabe.
Definition FAT_CIGAM : Z := 0xbebafeca.
Definition FAT_MAGIC_64 : Z := 0xcafebabf.
Definition CPU_TYPE_X86_64 : Z := 0x01000007.
Definition CPU_TYPE_ARM64 : Z := 0x0100000c.
Definition LC_SYMTAB : Z := 0x2.
Definition LC_DYSYMTAB : Z := 0xb.
Definition LC_TWOLEVEL_HINTS : Z := 0x16.
Definition LC_DYLD_INFO : Z := 0x22.
Definition LC_DYLD_INFO_ONLY : Z := 0x80000022.
Definition LC_ENCRYPTION_INFO_64 : Z := 0x2c.
Definition SECT_SIZE : Z := 80.
Definition AMBER_CMD_SIZE : Z := SEG_CMD_SIZE + SECT_SIZE.

Definition failed {A} (message : rstr) : outcome A := Failed (compile_error message).
Definition require (ok : bool) (message : rstr) : outcome unit := if ok then Done tt else failed message.
(** [saturating_add] on [u64]; and the wrapping sum of the release profile. *)
Definition saturating_add (a b : Z) : Z := Z.min (a + b) (U64_MOD - 1).
Definition swap_bytes (z : Z) : Z := from_le_bytes (reverse (le_bytes 4 z)).

(** [{:#x}] *)
Definition hex_char (n : N) : ascii := ascii_of_N (if bool_decide (n < 10)%N then 48 + n else 87 + n).
Fixpoint hex_digits (fuel : nat) (n : N) (acc : rstr) : rstr :=
  match fuel with
  | 0 => acc
  | S fuel => let acc := hex_char (n mod 16) :: acc in if bool_decide (n < 16)%N then acc else hex_digits fuel (n / 16) acc
  end.
Definition hex (n : N) : rstr := "0x" ++ hex_digits (S (N.size_nat n)) n [].
Definition macho_page_size (cputype : Z) : outcome Z :=
  if bool_decide (cputype = CPU_TYPE_ARM64) then Done 0x4000%Z
  else if bool_decide (cputype = CPU_TYPE_X86_64) then Done 0x1000%Z
  else failed ("unsupported Mach-O cputype " ++ hex (Z.to_N cputype) ++ " (amber compile signs the host binary only)").
Definition align_up (value page : Z) : Z :=
  let rem := (value mod page)%Z in if bool_decide (rem = 0)%Z then value else (value + (page - rem))%Z.
Definition is_linkedit_data_cmd (cmd : Z) : bool :=
  bool_decide (cmd ∈ [0x1d; 0x1e; 0x26; 0x29; 0x2b; 0x2e; 0x36; 0x37; 0x38; 0x80000033; 0x80000034]%Z).

(** ** Moving the offsets *)

Definition bump_u32 (buf : rstr) (at_ threshold span : Z) : outcome rstr :=
  value ← read_u32 buf at_;
  if bool_decide (value = 0 ∨ value < threshold)%Z then Done buf
  else
    let bumped := wrap_u64 (value + span) in
    if bool_decide (U32_MAX < bumped)%Z then failed "Mach-O file offset does not fit in u32 after SEA insert"
    else or_crash (put buf at_ (le_bytes 4 bumped)).
Definition bump_u64_fileoff (buf : rstr) (at_ threshold span : Z) : outcome rstr :=
  value ← read_u64 buf at_;
  if bool_decide (value < threshold)%Z then Done buf
  else or_crash (put buf at_ (le_bytes 8 (wrap_u64 (value + span)))).
Fixpoint bump_fields (ats : list Z) (buf : rstr) (threshold span : Z) : outcome rstr :=
  match ats with
  | [] => Done buf
  | at_ :: ats => buf ← bump_u32 buf at_ threshold span; bump_fields ats buf threshold span
  end.
Fixpoint bump_sections (nsects : nat) (buf : rstr) (sect threshold span : Z) : outcome rstr :=
  match nsects with
  | 0 => Done buf
  | S nsects =>
      buf ← bump_u32 buf (sect + 48) threshold span;
      buf ← bump_u32 buf (sect + 56) threshold span;
      bump_sections nsects buf (sect + SECT_SIZE) threshold span
  end.
(** Where the commands that are not segments keep file offsets. *)
Definition offset_fields (cmd cmdsize : Z) : list Z :=
  if bool_decide (cmd = LC_SYMTAB ∧ 24 ≤ cmdsize)%Z then [8; 16]%Z
  else if bool_decide (cmd = LC_DYSYMTAB ∧ 80 ≤ cmdsize)%Z then [32; 40; 48; 56; 64; 72]%Z
  else if bool_decide ((cmd = LC_DYLD_INFO ∨ cmd = LC_DYLD_INFO_ONLY) ∧ 48 ≤ cmdsize)%Z then [8; 16; 24; 32; 40]%Z
  else if is_linkedit_data_cmd cmd && bool_decide (16 ≤ cmdsize)%Z then [8]%Z
  else if bool_decide (cmd = LC_ENCRYPTION_INFO_64 ∧ 16 ≤ cmdsize)%Z then [8]%Z
  else if bool_decide (cmd = LC_TWOLEVEL_HINTS ∧ 16 ≤ cmdsize)%Z then [8]%Z
  else [].
(** One load command of [bump_linkedit_offsets]. *)
Definition bump_command (buf : rstr) (offset cmd cmdsize threshold span : Z) : outcome rstr :=
  if bool_decide (cmd = LC_SEGMENT_64) then
    name ← or_crash (get buf (offset + 8) 16);
    if segname_is name "__AMBER" then Done buf
    else
      buf ← bump_u64_fileoff buf (offset + 40) threshold span;
      buf ← (if segname_is name "__LINKEDIT" then
               vmaddr ← read_u64 buf (offset + 24);
               or_crash (put buf (offset + 24) (le_bytes 8 (wrap_u64 (vmaddr + span))))
             else Done buf);
      nsects ← read_u32 buf (offset + 64);
      bump_sections (Z.to_nat nsects) buf (offset + SEG_CMD_SIZE) threshold span
  else bump_fields (Z.add offset <$> offset_fields cmd cmdsize) buf threshold span.
Fixpoint bump_commands (ncmds : nat) (buf : rstr) (header_end offset threshold span : Z) : outcome (rstr * Z) :=
  match ncmds with
  | 0 => Done (buf, offset)
  | S ncmds =>
      _ ← require (negb (bool_decide (header_end < offset + 8 ∨ len buf < offset + 8)%Z))
            "Mach-O load command overruns the header after SEA insert";
      cmd ← read_u32 buf offset;
      cmdsize ← read_u32 buf (offset + 4);
      _ ← require (negb (bool_decide (cmdsize < 8 ∨ header_end < offset + cmdsize)%Z))
            "Mach-O load command size is invalid after SEA insert";
      buf ← bump_command buf offset cmd cmdsize threshold span;
      bump_commands ncmds buf header_end (offset + cmdsize) threshold span
  end.
Definition bump_linkedit_offsets (buf : rstr) (ncmds sizeofcmds threshold span : Z) : outcome rstr :=
  let header_end := (32 + sizeofcmds)%Z in
  '(buf, offset) ← bump_commands (Z.to_nat ncmds) buf header_end 32 threshold span;
  _ ← require (bool_decide (offset = header_end)) "Mach-O load commands do not fill sizeofcmds after SEA insert";
  Done buf.

(** ** Looking at the load commands *)

Record Linkedit := { linkedit_cmd_off : Z; linkedit_fileoff : Z; linkedit_vmaddr : Z }.
Record Layout := {
  linkedit : option Linkedit;
  earliest_content : option Z;
  other_vm : list (Z * Z);
}.
Definition with_content (l : Layout) (at_ : Z) : Layout :=
  {| linkedit := linkedit l; other_vm := other_vm l;
     earliest_content := Some (match earliest_content l with Some e => Z.min e at_ | None => at_ end) |}.
Definition with_vm (l : Layout) (range : Z * Z) : Layout :=
  {| linkedit := linkedit l; earliest_content := earliest_content l; other_vm := other_vm l ++ [range] |}.
Fixpoint scan_sections (nsects : nat) (macho : rstr) (sect : Z) (l : Layout) : outcome Layout :=
  match nsects with
  | 0 => Done l
  | S nsects =>
      sect_size ← read_u64 macho (sect + 40);
      sect_off ← read_u32 macho (sect + 48);
      scan_sections nsects macho (sect + SECT_SIZE)
        (if bool_decide (0 < sect_size ∧ 0 < sect_off)%Z then with_content l sect_off else l)
  end.
Definition scan_segment (macho : rstr) (offset cmdsize : Z) (l : Layout) : outcome Layout :=
  _ ← require (bool_decide (SEG_CMD_SIZE ≤ cmdsize)%Z) "LC_SEGMENT_64 is truncated";
  name ← or_crash (get macho (offset + 8) 16);
  vmaddr ← read_u64 macho (offset + 24);
  vmsize ← read_u64 macho (offset + 32);
  fileoff ← read_u64 macho (offset + 40);
  filesize ← read_u64 macho (offset + 48);
  nsects ← read_u32 macho (offset + 64);
  _ ← require (bool_decide (SEG_CMD_SIZE + nsects * SECT_SIZE ≤ cmdsize)%Z) "LC_SEGMENT_64 sections overrun the command";
  l ← (if segname_is name "__LINKEDIT" then
         _ ← require (bool_decide (linkedit l = None)) "Mach-O has more than one __LINKEDIT segment";
         Done {| linkedit := Some {| linkedit_cmd_off := offset; linkedit_fileoff := fileoff; linkedit_vmaddr := vmaddr |};
                 earliest_content := earliest_content l; other_vm := other_vm l |}
       else if segname_is name "__AMBER" then failed "host runtime already contains an __AMBER segment"
       else
         let l := if bool_decide (0 < filesize ∧ 0 < fileoff)%Z then with_content l fileoff else l in
         Done (if bool_decide (0 < vmsize)%Z then with_vm l (vmaddr, saturating_add vmaddr vmsize) else l));
  scan_sections (Z.to_nat nsects) macho (offset + SEG_CMD_SIZE) l.
(** The first loop over the commands: what it found, and where it ended. *)
Fixpoint scan_commands (ncmds : nat) (macho : rstr) (header_end offset : Z) (l : Layout) : outcome (Layout * Z) :=
  match ncmds with
  | 0 => Done (l, offset)
  | S ncmds =>
      _ ← require (negb (bool_decide (header_end < offset + 8)%Z)) "Mach-O load command overruns the header";
      cmd ← read_u32 macho offset;
      cmdsize ← read_u32 macho (offset + 4);
      _ ← require (negb (bool_decide (cmdsize < 8 ∨ header_end < offset + cmdsize)%Z)) "Mach-O load command size is invalid";
      l ← (if bool_decide (cmd = LC_SEGMENT_64) then scan_segment macho offset cmdsize l else Done l);
      scan_commands ncmds macho header_end (offset + cmdsize) l
  end.
(** The second loop: nothing lies behind [__LINKEDIT]. *)
Fixpoint check_order (ncmds : nat) (macho : rstr) (offset fileoff_of_linkedit : Z) : outcome unit :=
  match ncmds with
  | 0 => Done tt
  | S ncmds =>
      cmd ← read_u32 macho offset;
      cmdsize ← read_u32 macho (offset + 4);
      _ ← (if bool_decide (cmd = LC_SEGMENT_64) then
             fileoff ← read_u64 macho (offset + 40);
             filesize ← read_u64 macho (offset + 48);
             name ← or_crash (get macho (offset + 8) 16);
             require (negb (bool_decide (0 < filesize ∧ fileoff_of_linkedit < fileoff)%Z && negb (segname_is name "__LINKEDIT")))
               "Mach-O has a segment after __LINKEDIT; amber compile cannot sign that layout"
           else Done tt);
      check_order ncmds macho (offset + cmdsize) fileoff_of_linkedit
  end.

(** ** The new segment *)

Definition zeros (n : nat) : rstr := replicate n "000"%char.
(** The load command of [__AMBER], with its one section [__payload]. *)
Definition amber_command (vmaddr span fileoff blob_len : Z) : rstr :=
  mjoin [le_bytes 4 LC_SEGMENT_64; le_bytes 4 AMBER_CMD_SIZE; padded_name "__AMBER";
         le_bytes 8 vmaddr; le_bytes 8 span; le_bytes 8 fileoff; le_bytes 8 blob_len;
         le_bytes 4 1; le_bytes 4 1; le_bytes 4 1; zeros 4;
         padded_name "__payload"; padded_name "__AMBER"; le_bytes 8 vmaddr; le_bytes 8 blob_len;
         le_bytes 4 fileoff; le_bytes 4 3; zeros 24].
(** [Vec::resize] with zeros. *)
Definition resize (s : rstr) (n : Z) : rstr := take (Z.to_nat n) s ++ zeros (Z.to_nat n - length s).
Definition check_magic (macho : rstr) : outcome unit :=
  magic ← or_crash (from_le_bytes <$> get macho 0 4);
  _ ← require (negb (bool_decide (swap_bytes magic ∈ [FAT_MAGIC; FAT_MAGIC_64] ∨ magic ∈ [FAT_MAGIC; FAT_CIGAM; FAT_MAGIC_64])))
        "universal Mach-O is not supported (amber compile does not rewrite fat binaries)";
  require (bool_decide (magic = MH_MAGIC_64)) "host runtime is not a 64-bit Mach-O".
(** Where [__LINKEDIT] is, once the layout is known to leave room for the segment. *)
Definition check_layout (macho : rstr) (ncmds sizeofcmds page blob_len : Z) : outcome Linkedit :=
  let header_end := (32 + sizeofcmds)%Z in
  '(l, offset) ← scan_commands (Z.to_nat ncmds) macho header_end 32 {| linkedit := None; earliest_content := None; other_vm := [] |};
  _ ← require (bool_decide (offset = header_end)) "Mach-O load commands do not fill sizeofcmds";
  le ← or_fail (compile_error "Mach-O is missing __LINKEDIT") (linkedit l);
  _ ← require (negb (bool_decide (len macho < linkedit_fileoff le)%Z)) "__LINKEDIT starts past the end of the file";
  _ ← require (negb (bool_decide (linkedit_fileoff le mod page ≠ 0 ∨ linkedit_vmaddr le mod page ≠ 0)%Z))
        "__LINKEDIT is not page-aligned (cannot insert __AMBER before it)";
  _ ← check_order (Z.to_nat ncmds) macho 32 (linkedit_fileoff le);
  _ ← require (negb (bool_decide ((earliest_content l) .unwrap_or (linkedit_fileoff le) < header_end + AMBER_CMD_SIZE)%Z))
        "Mach-O header has no room for the __AMBER segment";
  let amber_vm_end := saturating_add (linkedit_vmaddr le) (align_up blob_len page) in
  _ ← require (negb (existsb (λ r, bool_decide (r.1 < amber_vm_end ∧ linkedit_vmaddr le < r.2)%Z) (other_vm l)))
        "Mach-O VM layout has no gap for the __AMBER segment";
  Done le.
(** The image with the segment in it, before any offset is moved. *)
Definition insert_segment (macho blob : rstr) (ncmds sizeofcmds span : Z) (le : Linkedit) : outcome rstr :=
  let header_end := (32 + sizeofcmds)%Z in
  let new_header_end := (header_end + AMBER_CMD_SIZE)%Z in
  let off := linkedit_fileoff le in
  _ ← require (bool_decide (off ≤ U32_MAX)%Z) "Mach-O file offset does not fit in u32";
  _ ← require (negb (bool_decide (off < new_header_end)%Z)) "Mach-O header overlaps __LINKEDIT";
  before ← or_crash (get macho 0 (linkedit_cmd_off le));
  after ← or_crash (get macho (linkedit_cmd_off le) (header_end - linkedit_cmd_off le));
  body ← or_crash (get macho new_header_end (off - new_header_end));
  rest ← or_crash (get macho off (len macho - off));
  let out := resize (before ++ amber_command (linkedit_vmaddr le) span off (len blob) ++ after ++ body ++ blob) (off + span) ++ rest in
  out ← or_crash (put out 16 (le_bytes 4 (ncmds + 1)));
  or_crash (put out 20 (le_bytes 4 (sizeofcmds + AMBER_CMD_SIZE))).
Definition inject_amber_segment (macho blob : rstr) : outcome rstr :=
  _ ← require (negb (bool_decide (len macho < 32)%Z)) "host runtime is not a 64-bit Mach-O";
  _ ← check_magic macho;
  _ ← require (negb (bool_decide (blob = []))) "bundle produced an empty payload";
  cputype ← read_u32 macho 4;
  page ← macho_page_size cputype;
  ncmds ← read_u32 macho 16;
  sizeofcmds ← read_u32 macho 20;
  _ ← require (negb (bool_decide (ncmds = 0 ∨ sizeofcmds = 0 ∨ len macho < 32 + sizeofcmds)%Z)) "Mach-O load commands are truncated";
  let span := align_up (len blob) page in
  le ← check_layout macho ncmds sizeofcmds page (len blob);
  out ← insert_segment macho blob ncmds sizeofcmds span le;
  bump_linkedit_offsets out ((ncmds + 1) mod 2 ^ 32) ((sizeofcmds + AMBER_CMD_SIZE) mod 2 ^ 32) (linkedit_fileoff le) span.
