(* ===== verification/MachOTheorems.v ===== *)
(** * Theorems on the Mach-O image

    An image is split into its header, its load commands and what follows ([wf_cmd],
    [scan_commands_split]), and the loops that work at offsets of one buffer are shown to work
    command by command ([bump_command_mid], [bump_commands_split]).  With that: what
    [inject_amber_segment] builds is found again by the reader, every file offset it
    moves still points at the same bytes, and no image makes it panic. *)

From S2P Require Import Prelude Bytes Standalone StandaloneTheorems MachO.

#[local] Arguments le_bytes : simpl never.
#[local] Arguments Z.add : simpl never.
(** ** Load commands *)

Definition cmd_of (c : rstr) : Z := field 4 c 0.
Definition is_segment (c : rstr) : Prop := cmd_of c = LC_SEGMENT_64.
Definition named (name c : rstr) : Prop := is_segment c ∧ get c 8 16 = Some (padded_name name).
Record wf_cmd (c : rstr) : Prop := {
  wf_size : field 4 c 4 = len c;
  wf_min : (8 ≤ len c)%Z;
  wf_segment : is_segment c → (SEG_CMD_SIZE ≤ len c ∧ SEG_CMD_SIZE + field 4 c 64 * SECT_SIZE ≤ len c)%Z;
}.
Lemma segname_named c name : is_segment c → (24 ≤ len c)%Z → segname_is (default [] (get c 8 16)) name = true ↔ named name c.
Proof.
  intros Hs Hl. unfold segname_is, named. rewrite bool_decide_eq_true, (get_out c 8 16) by lia. simpl.
  split; [intros ->; by split|by intros [_ [= ->]]].
Qed.
Lemma padded_length name : length name ≤ 16 → len (padded_name name) = 16%Z.
Proof. intros. unfold padded_name, len. rewrite length_app, length_replicate. lia. Qed.

Lemma len_mjoin_cons (c : rstr) cs : len (mjoin (c :: cs)) = (len c + len (mjoin cs))%Z.
Proof. apply len_app. Qed.
(** A command at the front of what is left. *)
Lemma get_split s a n t : get s a n = Some t → ∃ x y, s = x ++ t ++ y ∧ len x = a ∧ len t = n.
Proof. apply get_Some. Qed.

(** *** The loops of [bump_linkedit_offsets] *)

(** The same edit on one part of a buffer. *)
Definition inside (x z : rstr) (m : outcome rstr) : outcome rstr := c ← m; Done (x ++ c ++ z).
Definition edits (f : rstr → Z → outcome rstr) (w : Z) : Prop :=
  ∀ x c z k, small (x ++ c ++ z) → (0 ≤ k)%Z → (k + w ≤ len c)%Z → f (x ++ c ++ z) (len x + k)%Z = inside x z (f c k).

Lemma small_mid x c z : small (x ++ c ++ z) → small c.
Proof. unfold small. rewrite !len_app. pose proof (len_nonneg x). pose proof (len_nonneg z). lia. Qed.
Lemma or_crash_put_mid x c z k t : (0 ≤ k)%Z → (k + len t ≤ len c)%Z →
  or_crash (put (x ++ c ++ z) (len x + k) t) = inside x z (or_crash (put c k t)).
Proof. intros. rewrite put_mid by done. by destruct (put c k t). Qed.
(** An edit keeps the length, and what it returns agrees with the old bytes elsewhere. *)
Definition keeps (a n : Z) (s s' : rstr) : Prop := len s' = len s ∧ get s' a n = get s a n.
Lemma keeps_trans a n s1 s2 s3 : keeps a n s1 s2 → keeps a n s2 s3 → keeps a n s1 s3.
Proof. unfold keeps. intros [-> ->] [-> ->]. done. Qed.
Lemma wf_nsects c : wf_cmd c → is_segment c → (72 ≤ len c ∧ 0 ≤ field 4 c 64 ∧ 72 + field 4 c 64 * 80 ≤ len c)%Z.
Proof. intros Hw Hs. pose proof (field_range 4 c 64 ltac:(lia)). destruct (wf_segment c Hw Hs). unfold SEG_CMD_SIZE, SECT_SIZE in *. lia. Qed.
Lemma keeps_field w a c c' : keeps a w c c' → field w c' a = field w c a.
Proof. intros [_ H]. unfold field. by rewrite H. Qed.
Lemma keeps_refl a n c : keeps a n c c.
Proof. done. Qed.
(** The fields that name and size a command, at its offset. *)
Lemma read_cmd pre c post : wf_cmd c → small (pre ++ c ++ post) →
  read_u32 (pre ++ c ++ post) (len pre) = Done (cmd_of c) ∧ read_u32 (pre ++ c ++ post) (len pre + 4) = Done (len c).
Proof.
  intros Hw Hs. pose proof (wf_min c Hw). unfold read_u32. split.
  - rewrite <-(Z.add_0_r (len pre)) at 1. by apply read_field; [|lia..].
  - rewrite <-(wf_size c Hw). by apply read_field; [|lia..].
Qed.

Section bump.
#[local] Set Default Proof Using "All".
Context (threshold span : Z).

Lemma bump_u32_mid : edits (λ s a, bump_u32 s a threshold span) 4.
Proof.
  intros x c z k Hs Hk Hle. unfold bump_u32, read_u32. rewrite read_field by (done || lia).
  rewrite read_own by (lia || by eapply small_mid). simpl.
  case_bool_decide; [done|]. case_bool_decide; [done|]. by rewrite or_crash_put_mid by (rewrite ?len_le_bytes; lia).
Qed.
Lemma bump_u64_mid : edits (λ s a, bump_u64_fileoff s a threshold span) 8.
Proof.
  intros x c z k Hs Hk Hle. unfold bump_u64_fileoff, read_u64. rewrite read_field by (done || lia).
  rewrite read_own by (lia || by eapply small_mid). simpl.
  case_bool_decide; [done|]. by rewrite or_crash_put_mid by (rewrite ?len_le_bytes; lia).
Qed.

Lemma bump_u32_keeps s k s' a n : bump_u32 s k threshold span = Done s' → (a + n ≤ k ∨ k + 4 ≤ a)%Z → keeps a n s s'.
Proof.
  unfold bump_u32. intros (v & _ & H)%done_bind Hd. case_bool_decide; [by simplify_eq|]. case_bool_decide; [done|].
  destruct (put s k _) as [s1|] eqn:E; simplify_eq/=. split; [by eapply put_length|].
  eapply get_put_ne; [done|]. rewrite len_le_bytes. lia.
Qed.
Lemma bump_u64_keeps s k s' a n : bump_u64_fileoff s k threshold span = Done s' → (a + n ≤ k ∨ k + 8 ≤ a)%Z → keeps a n s s'.
Proof.
  unfold bump_u64_fileoff. intros (v & _ & H)%done_bind Hd. case_bool_decide; [by simplify_eq|].
  destruct (put s k _) as [s1|] eqn:E; simplify_eq/=. split; [by eapply put_length|].
  eapply get_put_ne; [done|]. rewrite len_le_bytes. lia.
Qed.

Lemma inside_bind x z m (f g : rstr → outcome rstr) :
  (∀ c, m = Done c → f (x ++ c ++ z) = inside x z (g c)) → inside x z m ≫= f = inside x z (m ≫= g).
Proof. intros H. destruct m as [c| |]; simpl; [by apply H|done..]. Qed.
Lemma bump_fields_mid ats x c z :
  small (x ++ c ++ z) → Forall (λ k, 0 ≤ k ∧ k + 4 ≤ len c)%Z ats →
  bump_fields (Z.add (len x) <$> ats) (x ++ c ++ z) threshold span = inside x z (bump_fields ats c threshold span).
Proof.
  revert c. induction ats as [|k ats IH]; intros c Hs Hats; [done|]. apply Forall_cons in Hats as [[Hk Hle] Hats].
  cbn [fmap list_fmap bump_fields]. rewrite bump_u32_mid by done. apply inside_bind. intros c' Hc.
  assert (len c' = len c) as Hl by (apply (bump_u32_keeps _ _ _ 0 0 Hc); lia).
  apply IH; [|by rewrite Hl]. unfold small in *. rewrite !len_app in *. lia.
Qed.
Lemma bump_sections_mid n x c z k :
  small (x ++ c ++ z) → (0 ≤ k)%Z → (k + Z.of_nat n * SECT_SIZE ≤ len c)%Z →
  bump_sections n (x ++ c ++ z) (len x + k) threshold span = inside x z (bump_sections n c k threshold span).
Proof.
  unfold SECT_SIZE. revert c k. induction n as [|n IH]; intros c k Hs Hk Hle; [done|]. cbn [bump_sections].
  assert (Hsame : ∀ c c' k, bump_u32 c k threshold span = Done c' → len c' = len c) by (intros s s' a H; apply (bump_u32_keeps _ _ _ a 0 H); lia).
  assert (Hsm : ∀ c', len c' = len c → small (x ++ c' ++ z)) by (intros c' Hl; unfold small in *; rewrite !len_app in *; lia).
  rewrite <-!Z.add_assoc, bump_u32_mid by (done || lia). apply inside_bind. intros c1 H1%Hsame.
  rewrite bump_u32_mid by (lia || by apply Hsm). apply inside_bind. intros c2 H2%Hsame.
  unfold SECT_SIZE. apply IH; [apply Hsm|..]; lia.
Qed.
Lemma offset_fields_fit cmd cmdsize : Forall (λ k, 8 ≤ k ∧ k + 4 ≤ cmdsize)%Z (offset_fields cmd cmdsize).
Proof.
  unfold offset_fields.
  repeat match goal with |- context [if ?b then _ else _] => destruct b eqn:? end;
    rewrite ?andb_true_iff, ?bool_decide_eq_true in *; rewrite ?Forall_cons, ?Forall_nil; lia.
Qed.

Definition bumped (c c' : rstr) : Prop := bump_command c 0 (cmd_of c) (len c) threshold span = Done c'.
Lemma bump_vmaddr_mid x c z : small (x ++ c ++ z) → (32 ≤ len c)%Z →
  (vmaddr ← read_u64 (x ++ c ++ z) (len x + 24); or_crash (put (x ++ c ++ z) (len x + 24) (le_bytes 8 (wrap_u64 (vmaddr + span)))))
  = inside x z (vmaddr ← read_u64 c 24; or_crash (put c 24 (le_bytes 8 (wrap_u64 (vmaddr + span))))).
Proof.
  intros Hs Hl. unfold read_u64. rewrite read_field by (done || lia). rewrite read_own by (lia || by eapply small_mid). simpl.
  by rewrite or_crash_put_mid by (rewrite ?len_le_bytes; lia).
Qed.
Lemma bump_vmaddr_keeps c c' a n :
  (vmaddr ← read_u64 c 24; or_crash (put c 24 (le_bytes 8 (wrap_u64 (vmaddr + span))))) = Done c' →
  (a + n ≤ 24 ∨ 32 ≤ a)%Z → keeps a n c c'.
Proof.
  intros (v & _ & H)%done_bind Hd. destruct (put c 24 _) as [s1|] eqn:E; simplify_eq/=. split; [by eapply put_length|].
  eapply get_put_ne; [done|]. rewrite len_le_bytes. lia.
Qed.
Lemma bump_command_mid x c z :
  wf_cmd c → small (x ++ c ++ z) →
  bump_command (x ++ c ++ z) (len x) (cmd_of c) (len c) threshold span = inside x z (bump_command c 0 (cmd_of c) (len c) threshold span).
Proof.
  intros Hw Hs. unfold bump_command. case_bool_decide as Hseg.
  - destruct (wf_nsects c Hw Hseg) as (H72 & Hn & Hfit). rewrite get_mid by lia.
    change (0 + 8)%Z with 8%Z. destruct (get c 8 16) as [name|]; [|done]. cbn [or_crash mbind outcome_bind]. destruct (segname_is name "__AMBER"); [done|].
    rewrite bump_u64_mid by (done || lia). apply inside_bind. intros c1 H1.
    assert (K1 : keeps 64 4 c c1) by (eapply bump_u64_keeps; [done|lia]).
    assert (Hs1 : ∀ c', len c' = len c → small (x ++ c' ++ z)) by (intros c' Hl; unfold small in *; rewrite !len_app in *; lia).
    change (0 + 24)%Z with 24%Z. change (0 + 64)%Z with 64%Z. change (0 + SEG_CMD_SIZE)%Z with 72%Z.
    assert (Hrest : ∀ c2, keeps 64 4 c c2 →
      (nsects ← read_u32 (x ++ c2 ++ z) (len x + 64); bump_sections (Z.to_nat nsects) (x ++ c2 ++ z) (len x + SEG_CMD_SIZE) threshold span)
      = inside x z (nsects ← read_u32 c2 64; bump_sections (Z.to_nat nsects) c2 72 threshold span)).
    { intros c2 K2. pose proof (proj1 K2) as Hl. pose proof (Hs1 c2 Hl) as Hs2. unfold read_u32. rewrite read_field by (done || lia).
      rewrite read_own by (lia || by eapply small_mid). simpl. rewrite (keeps_field _ _ _ _ K2). unfold SEG_CMD_SIZE.
      apply bump_sections_mid; [done|lia|unfold SECT_SIZE; lia]. }
    destruct (segname_is name "__LINKEDIT"); [|by apply Hrest].
    rewrite bump_vmaddr_mid by (first [by apply Hs1, K1|destruct K1; lia]). apply inside_bind. intros c2 H2. apply Hrest.
    eapply keeps_trans; [done|]. eapply bump_vmaddr_keeps; [done|lia].
  - pose proof (bump_fields_mid (offset_fields (cmd_of c) (len c)) x c z Hs) as H.
    rewrite H by (eapply Forall_impl; [apply offset_fields_fit|simpl; lia]).
    f_equal. f_equal. by rewrite <-(list_fmap_id (offset_fields _ _)) at 1.
Qed.
Lemma bump_fields_keeps ats c c' a n :
  Forall (λ k, a + n ≤ k)%Z ats → bump_fields ats c threshold span = Done c' → keeps a n c c'.
Proof.
  revert c. induction ats as [|k ats IH]; intros c Hats H; [by simplify_eq/=|]. apply Forall_cons in Hats as [Hk Hats].
  cbn [bump_fields] in H. apply done_bind in H as (c1 & H1 & H). eapply keeps_trans; [eapply bump_u32_keeps; [done|lia]|by apply IH].
Qed.
Lemma bump_sections_keeps m k c c' a n :
  (a + n ≤ k)%Z → bump_sections m c k threshold span = Done c' → keeps a n c c'.
Proof.
  unfold SECT_SIZE. revert c k. induction m as [|m IH]; intros c k Hk H; [by simplify_eq/=|]. cbn [bump_sections] in H.
  apply done_bind in H as (c1 & H1 & (c2 & H2 & H)%done_bind).
  eapply keeps_trans; [eapply bump_u32_keeps; [done|lia]|]. eapply keeps_trans; [eapply bump_u32_keeps; [done|lia]|].
  eapply IH; [|done]. unfold SECT_SIZE. lia.
Qed.
(** What identifies a command stays. *)
Lemma bumped_keeps c c' : wf_cmd c → bumped c c' →
  keeps 0 4 c c' ∧ keeps 4 4 c c' ∧ (is_segment c → keeps 8 16 c c' ∧ keeps 64 4 c c').
Proof.
  unfold bumped, bump_command. intros Hw H. case_bool_decide as Hseg.
  - assert (Hk : ∀ a n, (a + n ≤ 24 ∨ (32 ≤ a ∧ a + n ≤ 40) ∨ (48 ≤ a ∧ a + n ≤ 72))%Z → keeps a n c c').
    { intros a n Hd. apply done_bind in H as (name & _ & H). destruct (segname_is name "__AMBER"); [by simplify_eq|].
      apply done_bind in H as (c1 & H1 & (c2 & H2 & (nsects & _ & H)%done_bind)%done_bind).
      eapply keeps_trans; [eapply bump_u64_keeps; [done|lia]|].
      apply (keeps_trans a n c1 c2); [|eapply bump_sections_keeps; [|done]; unfold SEG_CMD_SIZE; lia].
      destruct (segname_is name "__LINKEDIT"); [eapply bump_vmaddr_keeps; [exact H2|lia]|by simplify_eq]. }
    split_and!; [..|intros _; split]; apply Hk; lia.
  - assert (Hk : ∀ a n, (a + n ≤ 8)%Z → keeps a n c c').
    { intros a n Hd. eapply bump_fields_keeps; [|done]. apply Forall_fmap. eapply Forall_impl; [apply offset_fields_fit|simpl; lia]. }
    split_and!; [apply Hk; lia..|done].
Qed.
Lemma bumped_wf c c' : wf_cmd c → bumped c c' →
  wf_cmd c' ∧ len c' = len c ∧ cmd_of c' = cmd_of c ∧ ∀ n, named n c' ↔ named n c.
Proof.
  intros Hw Hb. destruct (bumped_keeps c c' Hw Hb) as (K0 & K4 & Kseg). pose proof (proj1 K0) as Hl.
  assert (Hc : cmd_of c' = cmd_of c) by (unfold cmd_of; by eapply keeps_field).
  assert (Hseg : is_segment c' ↔ is_segment c) by (unfold is_segment; by rewrite Hc).
  split_and!; [|done|done|].
  - split; [by rewrite (keeps_field _ _ _ _ K4), Hl, (wf_size c Hw)|rewrite Hl; apply Hw|].
    intros Hs%Hseg. rewrite (keeps_field _ _ _ _ (proj2 (Kseg Hs))), Hl. by apply Hw.
  - intros n. unfold named. rewrite Hseg. split; intros [Hs Hn]; (split; [done|]); destruct (Kseg Hs) as [[_ E] _]; congruence.
Qed.

Lemma bump_commands_split cs pre post he buf' off' :
  small (pre ++ mjoin cs ++ post) → Forall wf_cmd cs →
  bump_commands (length cs) (pre ++ mjoin cs ++ post) he (len pre) threshold span = Done (buf', off') →
  ∃ cs', Forall2 bumped cs cs' ∧ buf' = pre ++ mjoin cs' ++ post.
Proof.
  revert pre. induction cs as [|c cs IH]; intros pre Hs Hw H; [simplify_eq/=; by exists []|].
  apply Forall_cons in Hw as [Hc Hw]. cbn [length bump_commands] in H.
  apply done_bind in H as (_ & _ & H).
  change (mjoin (c :: cs)) with (c ++ mjoin cs) in H, Hs. rewrite <-app_assoc in H, Hs.
  destruct (read_cmd pre c (mjoin cs ++ post) Hc Hs) as [R1 R2]. rewrite R1, R2 in H. cbn [mbind outcome_bind] in H.
  apply done_bind in H as (_ & _ & H). rewrite bump_command_mid in H by done.
  apply done_bind in H as (buf1 & (c' & Hb & [= <-])%done_bind & H).
  destruct (bumped_wf c c' Hc Hb) as (_ & Hl & _).
  replace (len pre + len c)%Z with (len (pre ++ c')) in H by (rewrite len_app; lia). rewrite app_assoc in H.
  apply IH in H as (cs' & Hcs & ->); [|unfold small in *; rewrite !len_app in *; lia|done].
  exists (c' :: cs'). split; [by constructor|]. change (mjoin (c' :: cs')) with (c' ++ mjoin cs'). by rewrite <-!app_assoc.
Qed.
End bump.

(** *** The reader *)

Lemma find_amber_split cs1 a cs2 pre post file_len he :
  small (pre ++ mjoin (cs1 ++ a :: cs2) ++ post) → Forall wf_cmd (cs1 ++ a :: cs2) →
  Forall (λ c, ¬ named "__AMBER" c) cs1 → named "__AMBER" a → (len pre + len (mjoin (cs1 ++ a :: cs2)) ≤ he)%Z →
  find_amber (length (cs1 ++ a :: cs2)) (pre ++ mjoin (cs1 ++ a :: cs2) ++ post) file_len he (len pre)
  = amber_segment_at (pre ++ mjoin (cs1 ++ a :: cs2) ++ post) file_len (len (pre ++ mjoin cs1)).
Proof.
  revert pre. induction cs1 as [|c cs1 IH]; intros pre Hs Hw Hn Ha Hle; cbn [app length find_amber].
  - cbn [app] in *. apply Forall_cons in Hw as [Hc Hw]. change (mjoin (a :: cs2)) with (a ++ mjoin cs2) in *. rewrite <-app_assoc in Hs |- *.
    destruct (read_cmd pre a (mjoin cs2 ++ post) Hc Hs) as [R1 R2]. rewrite R1, R2. rewrite len_app in Hle.
    pose proof (wf_min a Hc). pose proof (len_nonneg (mjoin cs2)). destruct (wf_nsects a Hc (proj1 Ha)) as (? & _ & _).
    rewrite bool_decide_eq_false_2 by lia. cbn [ok mbind outcome_bind]. rewrite bool_decide_eq_false_2 by lia.
    rewrite bool_decide_eq_true_2 by (split; [apply Ha|unfold SEG_CMD_SIZE; lia]).
    rewrite get_mid, (get_out a 8 16) by lia. cbn [or_crash mbind outcome_bind].
    rewrite (proj2 (segname_named a "__AMBER" (proj1 Ha) ltac:(lia))) by done. by rewrite app_nil_r.
  - cbn [app] in Hw. apply Forall_cons in Hw as [Hc Hw]. apply Forall_cons in Hn as [Hnc Hn].
    cbn [app] in Hs, Hle. change (mjoin (c :: cs1 ++ a :: cs2)) with (c ++ mjoin (cs1 ++ a :: cs2)) in *. rewrite <-app_assoc in Hs |- *.
    destruct (read_cmd pre c (mjoin (cs1 ++ a :: cs2) ++ post) Hc Hs) as [R1 R2]. rewrite R1, R2. rewrite len_app in Hle.
    pose proof (wf_min c Hc). pose proof (len_nonneg (mjoin (cs1 ++ a :: cs2))).
    rewrite bool_decide_eq_false_2 by lia. cbn [ok mbind outcome_bind]. rewrite bool_decide_eq_false_2 by lia.
    assert (Hrec : find_amber (length (cs1 ++ a :: cs2)) (pre ++ c ++ mjoin (cs1 ++ a :: cs2) ++ post) file_len he (len pre + len c)
            = amber_segment_at (pre ++ c ++ mjoin (cs1 ++ a :: cs2) ++ post) file_len (len (pre ++ mjoin (c :: cs1)))).
    { pose proof (IH (pre ++ c)) as IH'. rewrite <-!app_assoc, len_app in IH'. rewrite IH' by (done || lia).
      change (mjoin (c :: cs1)) with (c ++ mjoin cs1). done. }
    case_bool_decide as Hseg; [|done]. destruct Hseg as [Hseg Hmin].
    unfold SEG_CMD_SIZE in Hmin. rewrite get_mid, (get_out c 8 16) by lia. cbn [or_crash mbind outcome_bind].
    destruct (segname_is _ _) eqn:E; [|done]. by apply (segname_named c "__AMBER" Hseg) in E; [|lia].
Qed.

(** *** The loops of [inject_amber_segment] *)

Lemma require_done b message u : require b message = Done u → b = true.
Proof. by destruct b. Qed.
Ltac step H :=
  lazymatch type of H with
  | require _ _ ≫= _ = Done _ => let Hb := fresh "Hb" in
      apply done_bind in H as (_ & Hb%require_done & H); rewrite ?negb_true_iff, ?bool_decide_eq_true, ?bool_decide_eq_false in Hb
  end.

(** [v] is where a segment or a section of [c] has content; [r] is the memory of a segment. *)
Definition sect_size (c : rstr) (i : nat) : Z := field 8 c (72 + 80 * Z.of_nat i + 40).
Definition sect_off (c : rstr) (i : nat) : Z := field 4 c (72 + 80 * Z.of_nat i + 48).
Definition has_content (c : rstr) (v : Z) : Prop :=
  is_segment c ∧ (0 < v)%Z ∧
  ((¬ named "__LINKEDIT" c ∧ (0 < field 8 c 48)%Z ∧ v = field 8 c 40) ∨
   ∃ i, i < Z.to_nat (field 4 c 64) ∧ (0 < sect_size c i)%Z ∧ v = sect_off c i).
Definition has_vm (c : rstr) (r : Z * Z) : Prop :=
  is_segment c ∧ ¬ named "__LINKEDIT" c ∧ (0 < field 8 c 32)%Z ∧ r = (field 8 c 24, saturating_add (field 8 c 24) (field 8 c 32)).
Definition seen (l : Layout) (v : Z) : Prop := ∃ e, earliest_content l = Some e ∧ (e ≤ v)%Z.
Record grows (l l' : Layout) : Prop := {
  grows_content : ∀ v, seen l v → seen l' v;
  grows_vm : ∀ r, r ∈ other_vm l → r ∈ other_vm l';
}.
Lemma grows_refl l : grows l l.
Proof. done. Qed.
Lemma grows_trans l1 l2 l3 : grows l1 l2 → grows l2 l3 → grows l1 l3.
Proof. intros [] []. split; auto. Qed.
Lemma with_content_spec l v : linkedit (with_content l v) = linkedit l ∧ grows l (with_content l v) ∧ seen (with_content l v) v.
Proof.
  split_and!; [done|split; [|done]|].
  - intros w (e & He & Hle). unfold seen, with_content. simpl. rewrite He. eexists. split; [done|lia].
  - unfold seen, with_content. simpl. eexists. split; [done|]. destruct (earliest_content l); lia.
Qed.
Lemma scan_sections_spec n i x c z l l' :
  small (x ++ c ++ z) → (72 + 80 * (Z.of_nat i + Z.of_nat n) ≤ len c)%Z →
  scan_sections n (x ++ c ++ z) (len x + (72 + 80 * Z.of_nat i)) l = Done l' →
  linkedit l' = linkedit l ∧ grows l l' ∧
  ∀ j, i ≤ j < i + n → (0 < sect_size c j)%Z → (0 < sect_off c j)%Z → seen l' (sect_off c j).
Proof.
  revert i l. induction n as [|n IH]; intros i l Hs Hle H; [simplify_eq/=; split_and!; [done..|lia]|].
  cbn [scan_sections] in H. unfold read_u64, read_u32, SECT_SIZE in H. rewrite <-!Z.add_assoc in H.
  rewrite !read_field in H by (done || lia). cbn [mbind outcome_bind] in H.
  change (field 8 c (72 + (80 * Z.of_nat i + 40))) with (field 8 c (72 + (80 * Z.of_nat i + 40))) in H.
  rewrite !Z.add_assoc in H. change (field 8 c (72 + 80 * Z.of_nat i + 40)) with (sect_size c i) in H.
  change (field 4 c (72 + 80 * Z.of_nat i + 48)) with (sect_off c i) in H.
  replace (len x + 72 + 80 * Z.of_nat i + 80)%Z with (len x + (72 + 80 * Z.of_nat (S i)))%Z in H by lia.
  apply IH in H as (Hl & Hg & Hall); [|done|lia].
  set (l1 := if bool_decide _ then _ else _) in *.
  assert (H1 : linkedit l1 = linkedit l ∧ grows l l1 ∧ ((0 < sect_size c i)%Z → (0 < sect_off c i)%Z → seen l1 (sect_off c i))).
  { subst l1. case_bool_decide as Hc; [|split_and!; [done..|]; intros ? ?; by destruct Hc].
    destruct (with_content_spec l (sect_off c i)) as (? & ? & ?). done. }
  destruct H1 as (E1 & G1 & S1). split_and!; [congruence|by eapply grows_trans|].
  intros j Hj Hz Ho. destruct (decide (j = i)) as [->|]; [by apply Hg, S1|apply Hall; [lia|done..]].
Qed.
(** What one segment command adds to the layout. *)
Lemma scan_segment_spec x c z l l' :
  small (x ++ c ++ z) → is_segment c → (8 ≤ len c)%Z → scan_segment (x ++ c ++ z) (len x) (len c) l = Done l' →
  (SEG_CMD_SIZE ≤ len c ∧ SEG_CMD_SIZE + field 4 c 64 * SECT_SIZE ≤ len c)%Z ∧ ¬ named "__AMBER" c ∧
  linkedit l' = (if segname_is (default [] (get c 8 16)) "__LINKEDIT"
                 then Some {| linkedit_cmd_off := len x; linkedit_fileoff := field 8 c 40; linkedit_vmaddr := field 8 c 24 |}
                 else linkedit l) ∧
  (named "__LINKEDIT" c → linkedit l = None) ∧ grows l l' ∧ (∀ v, has_content c v → seen l' v) ∧ (∀ r, has_vm c r → r ∈ other_vm l').
Proof.
  intros Hs Hseg H8 H. unfold scan_segment in H. step H. unfold SEG_CMD_SIZE in Hb.
  rewrite get_mid, (get_out c 8 16) in H by lia. cbn [or_crash mbind outcome_bind] in H.
  unfold read_u64, read_u32 in H. rewrite !read_field in H by (done || lia). cbn [mbind outcome_bind] in H. step H.
  pose proof (field_range 4 c 64 ltac:(lia)) as Hn. split; [unfold SEG_CMD_SIZE in *; lia|].
  apply done_bind in H as (l1 & H1 & H). unfold SEG_CMD_SIZE, SECT_SIZE in *.
  pose proof (scan_sections_spec (Z.to_nat (field 4 c 64)) 0 x c z l1 l' Hs) as Hsect.
  change (72 + 80 * Z.of_nat 0)%Z with 72%Z in Hsect. apply Hsect in H as (El & Gl & Sl); [|lia]. clear Hsect.
  pose proof (segname_named c "__LINKEDIT" Hseg ltac:(lia)) as NL. pose proof (segname_named c "__AMBER" Hseg ltac:(lia)) as NA.
  assert (Hcontent : ∀ v, (¬ named "__LINKEDIT" c → (0 < field 8 c 48)%Z → (0 < field 8 c 40)%Z → seen l1 (field 8 c 40)) →
            has_content c v → seen l' v).
  { intros v Hown (_ & Hv & [(Hno & Hfs & ->)|(i & Hi & Hz & ->)]); [by apply Gl, Hown|]. apply Sl; [lia|done..]. }
  destruct (segname_is _ "__LINKEDIT") eqn:EL.
  - step H1. simplify_eq/=. assert (HL : named "__LINKEDIT" c) by by apply NL. split_and!.
    + intros [_ Ha]. destruct HL as [_ Hl]. rewrite Ha in Hl. by vm_compute in Hl.
    + by rewrite El.
    + done.
    + by split; apply Gl.
    + intros v. apply Hcontent. intros Hno. by destruct Hno.
    + intros r (_ & Hno & _). by destruct Hno.
  - destruct (segname_is _ "__AMBER") eqn:EA; [done|]. simplify_eq/=.
    set (l2 := if bool_decide (0 < field 8 c 48 ∧ 0 < field 8 c 40)%Z then _ else _) in *.
    assert (H2 : linkedit l2 = linkedit l ∧ grows l l2 ∧ ((0 < field 8 c 48)%Z → (0 < field 8 c 40)%Z → seen l2 (field 8 c 40))).
    { subst l2. destruct (bool_decide_reflect (0 < field 8 c 48 ∧ 0 < field 8 c 40)%Z) as [Hc|Hc]; [|split_and!; [done..|]; intros ? ?; by destruct Hc].
      destruct (with_content_spec l (field 8 c 40)) as (? & ? & ?). done. }
    destruct H2 as (E2 & G2 & S2). set (l3 := if bool_decide (0 < field 8 c 32)%Z then _ else _) in *.
    assert (H3 : linkedit l3 = linkedit l2 ∧ grows l2 l3 ∧ (∀ r, has_vm c r → r ∈ other_vm l3)).
    { subst l3. destruct (bool_decide_reflect (0 < field 8 c 32)%Z) as [Hc|Hc]; [|split_and!; [done..|]; by intros r (_ & _ & ? & _)].
      split_and!; [done|split; [done|]|]; simpl; intros r; [intros Hr; apply elem_of_app; by left|].
      intros (_ & _ & _ & ->). apply elem_of_app. right. by apply list_elem_of_singleton. }
    destruct H3 as (E3 & G3 & V3). split_and!.
    + intros Ha. apply NA in Ha. congruence.
    + congruence.
    + intros Hl. apply NL in Hl. congruence.
    + eapply grows_trans; [done|]. by eapply grows_trans.
    + intros v. apply Hcontent. intros _ ? ?. by apply G3, S2.
    + intros r Hr. by apply Gl, V3.
Qed.

(** The linkedit a run over [cs] records, when none was recorded before. *)
Definition recorded (o o' : option Linkedit) (pre : rstr) (cs : list rstr) : Prop :=
  match o with
  | Some le => o' = Some le ∧ Forall (λ c, ¬ named "__LINKEDIT" c) cs
  | None =>
      (o' = None ∧ Forall (λ c, ¬ named "__LINKEDIT" c) cs) ∨
      ∃ cs1 lk cs2, cs = cs1 ++ lk :: cs2 ∧ named "__LINKEDIT" lk ∧ Forall (λ c, ¬ named "__LINKEDIT" c) (cs1 ++ cs2) ∧
        o' = Some {| linkedit_cmd_off := len (pre ++ mjoin cs1); linkedit_fileoff := field 8 lk 40; linkedit_vmaddr := field 8 lk 24 |}
  end.
Record Commands (macho pre : rstr) (k : nat) (he off' : Z) (l l' : Layout) (cs : list rstr) (post : rstr) : Prop := {
  cmds_bytes : macho = pre ++ mjoin cs ++ post;
  cmds_count : length cs = k;
  cmds_end : off' = len (pre ++ mjoin cs);
  cmds_fit : k ≠ 0 → (off' ≤ he)%Z;
  cmds_wf : Forall wf_cmd cs;
  cmds_no_amber : Forall (λ c, ¬ named "__AMBER" c) cs;
  cmds_linkedit : recorded (linkedit l) (linkedit l') pre cs;
  cmds_grows : grows l l';
  cmds_content : ∀ c v, c ∈ cs → has_content c v → seen l' v;
  cmds_vm : ∀ c r, c ∈ cs → has_vm c r → r ∈ other_vm l';
}.
(** One round of the first loop, over one command. *)
Lemma scan_command_spec pre c post l l' :
  small (pre ++ c ++ post) → (8 ≤ len c)%Z →
  (if bool_decide (cmd_of c = LC_SEGMENT_64) then scan_segment (pre ++ c ++ post) (len pre) (len c) l else Done l) = Done l' →
  (is_segment c → (SEG_CMD_SIZE ≤ len c ∧ SEG_CMD_SIZE + field 4 c 64 * SECT_SIZE ≤ len c)%Z) ∧ ¬ named "__AMBER" c ∧
  recorded (linkedit l) (linkedit l') pre [c] ∧
  grows l l' ∧ (∀ v, has_content c v → seen l' v) ∧ (∀ r, has_vm c r → r ∈ other_vm l').
Proof.
  intros Hs H8 H. case_bool_decide as Hseg.
  - apply scan_segment_spec in H as (Hfit & HA & El & HL & HG & HC & HV); [|done..]. split_and!; [done..| |done|done|done].
    assert (24 ≤ len c)%Z as H24 by (unfold SEG_CMD_SIZE in Hfit; lia).
    pose proof (segname_named c "__LINKEDIT" Hseg H24) as NL. destruct (segname_is _ _) eqn:E.
    + assert (Hn : named "__LINKEDIT" c) by by apply NL. rewrite (HL Hn). right. exists [], c, []. split_and!; [done|done|by constructor|].
      by rewrite El, app_nil_r.
    + assert (Hn : Forall (λ c, ¬ named "__LINKEDIT" c) [c]).
      { apply Forall_singleton. intros ?%NL. congruence. }
      rewrite El. destruct (linkedit l); [done|by left].
  - simplify_eq. assert (Hn : ∀ n, ¬ named n c) by (by intros n [? _]). split_and!; [done..| |done| |].
    + destruct (linkedit l'); [split; [done|by apply Forall_singleton]|left; split; [done|by apply Forall_singleton]].
    + by intros v [? _].
    + by intros r [? _].
Qed.
Lemma recorded_cons o o1 o' pre c cs : recorded o o1 pre [c] → recorded o1 o' (pre ++ c) cs → recorded o o' pre (c :: cs).
Proof.
  intros H1 H2. destruct o as [le|]; cbn [recorded] in *.
  - destruct H1 as [-> [H1 _]%Forall_cons_1]. destruct H2 as [-> H2]. split; [done|by apply Forall_cons].
  - destruct H1 as [[-> [H1 _]%Forall_cons_1]|(cs1 & lk & cs2 & Hc & Hlk & _ & ->)]; cbn [recorded] in H2.
    + destruct H2 as [[-> H2]|(cs1 & lk & cs2 & -> & Hlk & Hn & ->)]; [left; split; [done|by apply Forall_cons]|].
      right. exists (c :: cs1), lk, cs2. split_and!; [done|done|by apply Forall_cons|].
      change (mjoin (c :: cs1)) with (c ++ mjoin cs1). by rewrite app_assoc.
    + destruct H2 as [-> H2]. destruct cs1 as [|a cs1]; simplify_eq/=; [|by destruct cs1].
      right. by exists [], lk, cs.
Qed.
Lemma scan_commands_split k macho pre rest he l l' off' :
  macho = pre ++ rest → small macho → (he ≤ len macho)%Z → scan_commands k macho he (len pre) l = Done (l', off') →
  ∃ cs post, Commands macho pre k he off' l l' cs post.
Proof.
  revert pre rest l. induction k as [|k IH]; intros pre rest l -> Hs Hhe H.
  { simplify_eq/=. exists [], rest. split.
    - done.
    - done.
    - by rewrite app_nil_r.
    - done.
    - done.
    - done.
    - destruct (linkedit l'); [split|left; split]; done.
    - done.
    - intros c v Hc. by apply elem_of_nil in Hc.
    - intros c v Hc. by apply elem_of_nil in Hc. }
  cbn [scan_commands] in H. step H. rewrite len_app in Hhe.
  assert (R : ∀ k, (0 ≤ k)%Z → (k + 4 ≤ 8)%Z → read_u32 (pre ++ rest) (len pre + k) = Done (field 4 rest k)).
  { intros i Hi Hi8. rewrite <-(app_nil_r rest) at 1. apply read_field; [by rewrite app_nil_r|lia..]. }
  pose proof (R 0%Z) as R0. rewrite Z.add_0_r in R0. rewrite R0, R in H by lia. clear R R0. cbn [mbind outcome_bind] in H. step H.
  set (n := field 4 rest 4) in *.
  destruct (get_in_range rest 0 n) as [c Hc]; [lia..|]. apply get_Some in Hc as (x & rest' & Hrest & Hx & Hn).
  assert (x = []) as -> by (destruct x; [done|by unfold len in Hx; simpl in Hx]). cbn [app] in Hrest. clear Hx.
  assert (Hcmd : field 4 rest 0 = cmd_of c).
  { unfold cmd_of, field. rewrite Hrest. by rewrite get_front by lia. }
  assert (Hsize : field 4 c 4 = len c).
  { rewrite Hn. subst n. unfold field. rewrite Hrest. by rewrite get_front by lia. }
  rewrite Hcmd in H. rewrite <-Hn in *. clearbody n. subst rest.
  apply done_bind in H as (l1 & H1 & H).
  apply scan_command_spec in H1 as (Hwf & HA & Hrec & HG & HC & HV); [|done|lia].
  rewrite <-len_app in H. destruct (IH (pre ++ c) rest' l1 ltac:(by rewrite <-app_assoc) Hs ltac:(by rewrite len_app) H) as (cs & post & K).
  exists (c :: cs), post. destruct K as [K1 K2 K3 K4 K5 K6 K7 K8 K9 K10].
  split.
  - rewrite K1. by rewrite mjoin_cons, <-!app_assoc.
  - simpl. by f_equal.
  - rewrite K3. by rewrite mjoin_cons, <-app_assoc.
  - intros _. destruct k; [|by apply K4]. destruct cs; [|done]. rewrite K3. change (mjoin []) with (@nil ascii). rewrite app_nil_r, len_app. lia.
  - constructor; [|done]. split; [done|lia|done].
  - by constructor.
  - by eapply recorded_cons.
  - by eapply grows_trans.
  - intros c' v [-> |Hin]%elem_of_cons Hv; [by apply K8, HC|by apply (K9 c')].
  - intros c' r [-> |Hin]%elem_of_cons Hv; [by apply K8, HV|by apply (K10 c')].
Qed.

(** ** The image, before and after *)

Lemma get_part ps1 p ps2 : get (mjoin (ps1 ++ p :: ps2)) (len (mjoin ps1)) (len p) = Some p.
Proof. rewrite join_app, mjoin_cons. by apply get_at. Qed.
Lemma len_zeros n : len (zeros n) = Z.of_nat n.
Proof. unfold zeros, len. by rewrite length_replicate. Qed.
Lemma field_at w ps1 v ps2 k :
  (0 ≤ v < 256 ^ Z.of_nat w)%Z → k = len (mjoin ps1) → field (Z.of_nat w) (mjoin (ps1 ++ le_bytes w v :: ps2)) k = v.
Proof.
  intros Hv ->. unfold field. pose proof (get_part ps1 (le_bytes w v) ps2) as E. rewrite len_le_bytes in E. rewrite E.
  by apply from_le_le_bytes.
Qed.
Lemma page_align_spec v page : (0 < page)%Z → (0 ≤ v)%Z →
  (v ≤ align_up v page < v + page)%Z ∧ (align_up v page mod page = 0)%Z.
Proof.
  intros Hp Hv. unfold align_up. pose proof (Z.mod_pos_bound v page Hp). pose proof (Z.div_mod v page ltac:(lia)).
  case_bool_decide as E; [lia|]. split; [lia|].
  replace (v + (page - v mod page))%Z with ((v / page + 1) * page)%Z by lia. apply Z_mod_mult.
Qed.

Section amber_command.
Context (vmaddr span fileoff blob_len : Z).
#[local] Abbreviation amber := (amber_command vmaddr span fileoff blob_len).
Lemma len_amber : len amber = AMBER_CMD_SIZE.
Proof.
  unfold amber_command. rewrite !len_mjoin_cons, !len_le_bytes, !len_zeros, !padded_length by (vm_compute; lia). done.
Qed.
Lemma amber_fields : (0 ≤ fileoff < 256 ^ 8)%Z → (0 ≤ blob_len < 256 ^ 8)%Z →
  cmd_of amber = LC_SEGMENT_64 ∧ field 4 amber 4 = AMBER_CMD_SIZE ∧ get amber 8 16 = Some (padded_name "__AMBER") ∧
  field 4 amber 64 = 1%Z ∧ field 8 amber 40 = fileoff ∧ field 8 amber 48 = blob_len.
Proof.
  intros Hf Hb. unfold cmd_of, amber_command.
  set (c := le_bytes 4 LC_SEGMENT_64); set (n := le_bytes 4 AMBER_CMD_SIZE); set (p := padded_name "__AMBER").
  split_and!.
  - apply (field_at 4 []); [done|done].
  - apply (field_at 4 [c]); [done|]. unfold c. by rewrite !len_mjoin_cons, !len_le_bytes.
  - pose proof (get_part [c; n] p) as E. unfold c, n in E. rewrite !len_mjoin_cons, !len_le_bytes in E. apply E.
  - apply (field_at 4 [c; n; p; le_bytes 8 vmaddr; le_bytes 8 span; le_bytes 8 fileoff; le_bytes 8 blob_len; le_bytes 4 1; le_bytes 4 1]); [done|].
    unfold c, n, p. by rewrite !len_mjoin_cons, !len_le_bytes.
  - apply (field_at 8 [c; n; p; le_bytes 8 vmaddr; le_bytes 8 span]); [done|]. unfold c, n, p. by rewrite !len_mjoin_cons, !len_le_bytes.
  - apply (field_at 8 [c; n; p; le_bytes 8 vmaddr; le_bytes 8 span; le_bytes 8 fileoff]); [done|]. unfold c, n, p. by rewrite !len_mjoin_cons, !len_le_bytes.
Qed.
Lemma amber_wf : (0 ≤ fileoff < 256 ^ 8)%Z → (0 ≤ blob_len < 256 ^ 8)%Z → wf_cmd amber ∧ named "__AMBER" amber.
Proof.
  intros Hf Hb. destruct (amber_fields Hf Hb) as (H1 & H2 & H3 & H4 & _). split; [|by split].
  split; rewrite ?len_amber; [done|done|]. intros _. rewrite H4. done.
Qed.
End amber_command.

(** The parts of an image whose [__LINKEDIT] command is [p_linkedit]: the header of 32 bytes, the
    commands, the unused room the new command takes, what lies before the contents of
    [__LINKEDIT], and those contents to the end of the file. *)
Record Parts := {
  p_head : rstr; p_before : list rstr; p_linkedit : rstr; p_after : list rstr;
  p_pad : rstr; p_body : rstr; p_rest : rstr;
}.
Definition commands (p : Parts) : list rstr := p_before p ++ p_linkedit p :: p_after p.
Definition content_start (p : Parts) : Z := len (p_head p ++ mjoin (commands p) ++ p_pad p).
Definition image (p : Parts) : rstr := p_head p ++ mjoin (commands p) ++ p_pad p ++ p_body p ++ p_rest p.
Record wf_parts (p : Parts) : Prop := {
  parts_head : len (p_head p) = 32%Z;
  parts_magic : field 4 (p_head p) 0 = MH_MAGIC_64;
  parts_ncmds : field 4 (p_head p) 16 = Z.of_nat (length (commands p));
  parts_sizeofcmds : field 4 (p_head p) 20 = len (mjoin (commands p));
  parts_wf : Forall wf_cmd (commands p);
  parts_no_amber : Forall (λ c, ¬ named "__AMBER" c) (commands p);
  parts_linkedit : named "__LINKEDIT" (p_linkedit p);
  parts_one_linkedit : Forall (λ c, ¬ named "__LINKEDIT" c) (p_before p ++ p_after p);
  parts_fileoff : field 8 (p_linkedit p) 40 = (content_start p + len (p_body p))%Z;
  parts_pad : len (p_pad p) = AMBER_CMD_SIZE;
  parts_content : ∀ c v, c ∈ commands p → has_content c v → (content_start p ≤ v)%Z;
}.
Definition fileoff_of (p : Parts) : Z := field 8 (p_linkedit p) 40.
Definition amber_of (p : Parts) (span : Z) (blob : rstr) : rstr :=
  amber_command (field 8 (p_linkedit p) 24) span (fileoff_of p) (len blob).
(** What the insertion makes of them. *)
Record Injected (p : Parts) (blob : rstr) (span : Z) (out : rstr) : Prop := {
  inj_image : ∃ head' before' linkedit' after',
    out = head' ++ mjoin (before' ++ amber_of p span blob :: linkedit' :: after') ++ p_body p ++ blob
          ++ zeros (Z.to_nat (span - len blob)) ++ p_rest p ∧
    len head' = 32%Z ∧ field 4 head' 0 = MH_MAGIC_64 ∧
    field 4 head' 16 = Z.of_nat (S (length (commands p))) ∧
    field 4 head' 20 = (len (mjoin (commands p)) + AMBER_CMD_SIZE)%Z ∧
    Forall2 (bumped (fileoff_of p) span) (p_before p) before' ∧
    bumped (fileoff_of p) span (p_linkedit p) linkedit' ∧
    Forall2 (bumped (fileoff_of p) span) (p_after p) after';
}.

Lemma or_crash_done {A} (o : option A) a : or_crash o = Done a → o = Some a.
Proof. destruct o; simpl; congruence. Qed.
Lemma len_inj_app (x y s t : rstr) : x ++ s = y ++ t → len x = len y → x = y ∧ s = t.
Proof. intros H Hl. apply app_inj_1; [|done]. unfold len in Hl. lia. Qed.
Lemma resize_exact s n : (len s ≤ n)%Z → resize s n = s ++ zeros (Z.to_nat (n - len s)).
Proof.
  intros H. unfold resize, len in *. rewrite take_ge by lia. do 3 f_equal. lia.
Qed.
(** Two fields of the header are set. *)
Lemma put_front c z k t s' : (0 ≤ k)%Z → (k + len t ≤ len c)%Z → put (c ++ z) k t = Some s' →
  ∃ c', s' = c' ++ z ∧ len c' = len c ∧ get c' k (len t) = Some t ∧ ∀ a n, (a + n ≤ k ∨ k + len t ≤ a)%Z → get c' a n = get c a n.
Proof.
  intros Hk Hle Hp. pose proof (put_mid [] c z k t Hk Hle) as E. rewrite len_nil, Z.add_0_l in E. cbn [app] in E. rewrite E in Hp.
  destruct (put c k t) as [c'|] eqn:Ec; simplify_eq/=. exists c'. split_and!; [done|by eapply put_length|by eapply get_put_eq|].
  intros a n Hd. by eapply get_put_ne.
Qed.
Lemma insert_segment_spec hd cs1 lk cs2 post blob ncmds span out :
  let macho := hd ++ mjoin (cs1 ++ lk :: cs2) ++ post in
  let le := {| linkedit_cmd_off := len (hd ++ mjoin cs1); linkedit_fileoff := field 8 lk 40; linkedit_vmaddr := field 8 lk 24 |} in
  len hd = 32%Z → (len blob ≤ span)%Z → (0 ≤ ncmds < 256 ^ 4 - 1)%Z → (field 8 lk 40 ≤ len macho)%Z →
  insert_segment macho blob ncmds (len (mjoin (cs1 ++ lk :: cs2))) span le = Done out →
  ∃ hd' pad body rest,
    post = pad ++ body ++ rest ∧ len pad = AMBER_CMD_SIZE ∧ field 8 lk 40 = (len (hd ++ mjoin (cs1 ++ lk :: cs2) ++ pad) + len body)%Z ∧
    out = hd' ++ mjoin (cs1 ++ amber_command (field 8 lk 24) span (field 8 lk 40) (len blob) :: lk :: cs2) ++ body ++ blob
          ++ zeros (Z.to_nat (span - len blob)) ++ rest ∧
    len hd' = 32%Z ∧ field 4 hd' 0 = field 4 hd 0 ∧ field 4 hd' 16 = (ncmds + 1)%Z ∧
    field 4 hd' 20 = (len (mjoin (cs1 ++ lk :: cs2)) + AMBER_CMD_SIZE)%Z ∧ (len (mjoin (cs1 ++ lk :: cs2)) + AMBER_CMD_SIZE < 2 ^ 32)%Z.
Proof.
  intros macho le Hhd Hspan Hnc Hoff H. unfold insert_segment in H. cbn [linkedit_fileoff linkedit_cmd_off linkedit_vmaddr le] in H.
  set (amber := amber_command _ _ _ _) in *. set (off := field 8 lk 40) in *. set (cmds := mjoin (cs1 ++ lk :: cs2)) in *.
  assert (Hcmds : cmds = mjoin cs1 ++ mjoin (lk :: cs2)) by apply join_app.
  pose proof (len_nonneg (mjoin (lk :: cs2))) as Hlk. pose proof (len_nonneg (mjoin cs1)) as Hcs1.
  assert (Hlen : len cmds = (len (mjoin cs1) + len (mjoin (lk :: cs2)))%Z) by (by rewrite Hcmds, len_app).
  step H. step H. unfold AMBER_CMD_SIZE, SEG_CMD_SIZE, SECT_SIZE in *.
  apply done_bind in H as (bf & Hbf%or_crash_done & H). apply done_bind in H as (af & Haf%or_crash_done & H).
  apply done_bind in H as (bd & Hbd%or_crash_done & H). apply done_bind in H as (rs & Hrs%or_crash_done & H).
  (* the four slices *)
  assert (Hm : macho = (hd ++ mjoin cs1) ++ mjoin (lk :: cs2) ++ post) by (unfold macho; rewrite Hcmds; by rewrite <-!app_assoc).
  assert (bf = hd ++ mjoin cs1) as -> by (rewrite Hm, get_0_app in Hbf by done; by simplify_eq).
  assert (af = mjoin (lk :: cs2)) as ->.
  { rewrite Hm, (get_at (hd ++ mjoin cs1) (mjoin (lk :: cs2)) post) in Haf; [by simplify_eq|done|rewrite len_app; lia]. }
  apply get_Some in Hbd as (x & y & Hxy & Hx & Hbd). apply get_Some in Hrs as (x' & y' & Hxy' & Hx' & Hrs).
  assert (Hpost : ∃ pad, x = (hd ++ cmds) ++ pad ∧ post = pad ++ bd ++ y).
  { assert (Hm' : macho = (hd ++ cmds) ++ post) by (unfold macho; by rewrite <-app_assoc).
    exists (drop (length (hd ++ cmds)) x). pose proof Hxy as Hxy2. rewrite Hm' in Hxy2.
    rewrite <-(take_drop (length (hd ++ cmds)) x), <-(app_assoc (take _ _)) in Hxy2.
    apply app_inj_1 in Hxy2 as [Ha Hb'].
    - split; [|done]. rewrite <-(take_drop (length (hd ++ cmds)) x) at 1. by rewrite <-Ha.
    - assert (len (hd ++ cmds) ≤ len x)%Z by (rewrite Hx, len_app; lia). unfold len in *. rewrite length_take. lia. }
  destruct Hpost as (pad & -> & Hpost). rewrite Hxy in Hxy'. rewrite app_assoc in Hxy'.
  assert (Hl : len (((hd ++ cmds) ++ pad) ++ bd) = len x') by (rewrite len_app; lia).
  destruct (len_inj_app _ _ _ _ Hxy' Hl) as [_ ->].
  assert (y' = []) as ->.
  { assert (len y' = 0)%Z as Hy by (rewrite Hxy, !len_app in Hrs; rewrite !len_app in *; lia). unfold len in Hy. by destruct y'. }
  rewrite app_nil_r in *. rewrite !len_app in Hx.
  (* the new image *)
  apply done_bind in H as (out1 & Ho1%or_crash_done & Ho2%or_crash_done).
  rewrite resize_exact in Ho1 by (unfold amber; rewrite !len_app, len_amber; unfold AMBER_CMD_SIZE, SEG_CMD_SIZE, SECT_SIZE; rewrite !len_app in *; lia).
  match type of Ho1 with context [zeros ?k] => replace k with (Z.to_nat (span - len blob)) in Ho1
    by (unfold amber; rewrite !len_app, len_amber; unfold AMBER_CMD_SIZE, SEG_CMD_SIZE, SECT_SIZE; lia) end.
  rewrite <-!app_assoc in Ho1.
  apply put_front in Ho1 as (hd1 & -> & Hl1 & G1 & K1); [|lia|rewrite len_le_bytes; lia].
  apply put_front in Ho2 as (hd2 & -> & Hl2 & G2 & K2); [|lia|rewrite len_le_bytes, Hl1; lia].
  rewrite len_le_bytes in G1, K1, G2, K2. change (Z.of_nat 4) with 4%Z in *.
  exists hd2, pad, bd, rs. split_and!.
  - done.
  - lia.
  - rewrite !len_app. lia.
  - rewrite join_app, !mjoin_cons. by rewrite <-!app_assoc.
  - lia.
  - unfold field. by rewrite K2, K1 by lia.
  - unfold field. rewrite K2 by lia. rewrite G1. apply (from_le_le_bytes 4). lia.
  - unfold field. rewrite G2. apply (from_le_le_bytes 4). unfold U32_MAX in *. lia.
  - unfold U32_MAX in *. lia.
Qed.

(** *** From the checks to the parts *)

Lemma get_own_head x s w k : (0 ≤ k)%Z → (k + w ≤ len x)%Z → field w (x ++ s) k = field w x k.
Proof. intros. unfold field. by rewrite get_front. Qed.
Lemma read_head x s w k : small (x ++ s) → (0 ≤ w ≤ 8)%Z → (0 ≤ k)%Z → (k + w ≤ len x)%Z → read_le_at w (x ++ s) k = Done (field w x k).
Proof.
  intros Hs Hw Hk Hle. pose proof (len_nonneg s). rewrite read_own by (rewrite ?len_app; done || lia). by rewrite get_own_head.
Qed.
Lemma macho_page_pos cputype page : macho_page_size cputype = Done page → (0 < page)%Z ∧ (4096 | page)%Z ∧ (page ≤ 2 ^ 14)%Z.
Proof.
  unfold macho_page_size. repeat case_bool_decide; intros ?; simplify_eq; split_and!; try lia; by apply Z.mod_divide.
Qed.
Record Checked (macho blob : rstr) (page span : Z) (hd : rstr) (cs1 : list rstr) (lk : rstr) (cs2 : list rstr) (post : rstr)
    (le : Linkedit) : Prop := {
  chk_bytes : macho = hd ++ mjoin (cs1 ++ lk :: cs2) ++ post;
  chk_head : len hd = 32%Z;
  chk_magic : field 4 hd 0 = MH_MAGIC_64;
  chk_ncmds : field 4 hd 16 = Z.of_nat (length (cs1 ++ lk :: cs2));
  chk_sizeofcmds : field 4 hd 20 = len (mjoin (cs1 ++ lk :: cs2));
  chk_wf : Forall wf_cmd (cs1 ++ lk :: cs2);
  chk_no_amber : Forall (λ c, ¬ named "__AMBER" c) (cs1 ++ lk :: cs2);
  chk_linkedit : named "__LINKEDIT" lk;
  chk_one : Forall (λ c, ¬ named "__LINKEDIT" c) (cs1 ++ cs2);
  chk_le : le = {| linkedit_cmd_off := len (hd ++ mjoin cs1); linkedit_fileoff := field 8 lk 40; linkedit_vmaddr := field 8 lk 24 |};
  chk_in_file : (field 8 lk 40 ≤ len macho)%Z;
  chk_content : ∀ c v, c ∈ cs1 ++ lk :: cs2 → has_content c v → (32 + len (mjoin (cs1 ++ lk :: cs2)) + AMBER_CMD_SIZE ≤ v)%Z;
  chk_page : (0 < page)%Z ∧ (4096 | page)%Z ∧ (page ≤ 2 ^ 14)%Z;
  chk_aligned : (field 8 lk 40 mod page = 0)%Z ∧ (field 8 lk 24 mod page = 0)%Z;
  chk_span : span = align_up (len blob) page;
  chk_vm : ∀ c r, c ∈ cs1 ++ lk :: cs2 → has_vm c r →
    (saturating_add (field 8 lk 24) span ≤ r.1 ∨ r.2 ≤ field 8 lk 24)%Z;
}.
Lemma check_layout_spec macho blob page le hd rest :
  macho = hd ++ rest → small macho → len hd = 32%Z → field 4 hd 0 = MH_MAGIC_64 → (32 + field 4 hd 20 ≤ len macho)%Z →
  (0 < page)%Z ∧ (4096 | page)%Z ∧ (page ≤ 2 ^ 14)%Z → field 4 hd 16 ≠ 0%Z →
  check_layout macho (field 4 hd 16) (field 4 hd 20) page (len blob) = Done le →
  ∃ cs1 lk cs2 post, Checked macho blob page (align_up (len blob) page) hd cs1 lk cs2 post le.
Proof.
  intros Hm Hs Hhd Hmagic Hfit Hpage Hnc H. unfold check_layout in H.
  apply done_bind in H as ([l off] & Hscan & H). rewrite <-Hhd in Hscan at 2.
  destruct (scan_commands_split _ _ hd rest _ _ _ _ Hm Hs Hfit Hscan) as (cs & post & [K1 K2 K3 K4 K5 K6 K7 K8 K9 K10]).
  step H. rewrite K3, len_app, Hhd in Hb. assert (Hsz : field 4 hd 20 = len (mjoin cs)) by lia.
  apply done_bind in H as (le' & Hle & H). destruct (linkedit l) as [le0|] eqn:El; simplify_eq/=.
  destruct K7 as [[? _]|(cs1 & lk & cs2 & -> & Hlk & Hno & [= ->])]; [done|]. cbn [linkedit_fileoff linkedit_vmaddr] in *.
  step H. step H. apply done_bind in H as (_ & _ & H). step H. apply done_bind in H as (_ & Hvm%require_done & H). simplify_eq.
  exists cs1, lk, cs2, post. pose proof (field_range 4 hd 16 ltac:(lia)). split; try done.
  - rewrite K2. lia.
  - lia.
  - intros c v Hc Hv. destruct (K9 c v Hc Hv) as (e & He & Hle). rewrite He in Hb2. simpl in Hb2. lia.
  - lia.
  - intros c r Hc Hr. pose proof (K10 c r Hc Hr) as Hin. apply negb_true_iff in Hvm.
    destruct (decide (r.1 < saturating_add (field 8 lk 24) (align_up (len blob) page) ∧ field 8 lk 24 < r.2)%Z) as [Hov|]; [|lia].
    exfalso. apply not_true_iff_false in Hvm. apply Hvm, existsb_exists. exists r. split; [by apply list_elem_of_In|by apply bool_decide_eq_true].
Qed.
(** The parts of an image whose checks all passed. *)
Lemma inject_checked macho blob out :
  (len macho < 2 ^ 60)%Z → inject_amber_segment macho blob = Done out →
  ∃ page span hd cs1 lk cs2 post le mid, Checked macho blob page span hd cs1 lk cs2 post le ∧ blob ≠ [] ∧
    insert_segment macho blob (field 4 hd 16) (field 4 hd 20) span le = Done mid ∧
    bump_linkedit_offsets mid ((field 4 hd 16 + 1) mod 2 ^ 32) ((field 4 hd 20 + AMBER_CMD_SIZE) mod 2 ^ 32) (linkedit_fileoff le) span = Done out.
Proof.
  intros Hlen H. unfold inject_amber_segment in H. step H.
  assert (Hs : small macho) by (unfold small; lia).
  destruct (get_in_range macho 0 32) as [hd Hhd]; [lia..|]. apply get_prefix in Hhd as (rest & Hm & Hhd).
  apply done_bind in H as ([] & Hmagic & H). step H.
  unfold read_u32 in H. rewrite Hm in H, Hs. rewrite !read_head in H by (lia || done). cbn [mbind outcome_bind] in H.
  apply done_bind in H as (page & Hpage%macho_page_pos & H). step H. rewrite <-Hm in H, Hs.
  apply done_bind in H as (le & Hle & H). apply done_bind in H as (mid & Hmid & H).
  assert (Hmg : field 4 hd 0 = MH_MAGIC_64).
  { unfold check_magic in Hmagic. apply done_bind in Hmagic as (magic & Hg%or_crash_done & Hmagic). step Hmagic.
    apply require_done, bool_decide_eq_true in Hmagic. rewrite Hm, get_front in Hg by lia. unfold field. by rewrite Hg. }
  rewrite <-Hm in Hb1. destruct (check_layout_spec macho blob page le hd rest Hm Hs Hhd Hmg) as (cs1 & lk & cs2 & post & C); [lia|done|lia|done|].
  exists page, (align_up (len blob) page), hd, cs1, lk, cs2, post, le, mid. done.
Qed.

Lemma bumped_amber thr span a a' : named "__AMBER" a → (24 ≤ len a)%Z → bumped thr span a a' → a' = a.
Proof.
  intros Ha Hl. unfold bumped, bump_command. rewrite bool_decide_eq_true_2 by apply Ha. change (0 + 8)%Z with 8%Z.
  rewrite (get_out a 8 16) by lia. cbn [or_crash mbind outcome_bind].
  rewrite (proj2 (segname_named a "__AMBER" (proj1 Ha) Hl)) by done. by intros [= <-].
Qed.
(** The image with the segment in it: its commands are well formed, the new one among them. *)
Lemma inserted_parts macho blob page span hd cs1 lk cs2 post le mid :
  (len macho < 2 ^ 60)%Z → (len blob < 2 ^ 60)%Z → blob ≠ [] → Checked macho blob page span hd cs1 lk cs2 post le →
  insert_segment macho blob (field 4 hd 16) (field 4 hd 20) span le = Done mid →
  ∃ p head', macho = image p ∧ wf_parts p ∧ p_head p = hd ∧ p_before p = cs1 ∧ p_linkedit p = lk ∧ p_after p = cs2 ∧
    let cs := cs1 ++ amber_of p span blob :: lk :: cs2 in
    let tail := p_body p ++ blob ++ zeros (Z.to_nat (span - len blob)) ++ p_rest p in
    mid = head' ++ mjoin cs ++ tail ∧ small mid ∧ len head' = 32%Z ∧ Forall wf_cmd cs ∧ named "__AMBER" (amber_of p span blob) ∧
    field 4 head' 0 = MH_MAGIC_64 ∧ field 4 head' 16 = Z.of_nat (S (length (commands p))) ∧
    field 4 head' 20 = (len (mjoin (commands p)) + AMBER_CMD_SIZE)%Z ∧
    Z.to_nat ((field 4 hd 16 + 1) mod 2 ^ 32) = length cs ∧ (0 < len blob ≤ span)%Z ∧ (span < len blob + 2 ^ 14)%Z ∧
    (4096 | span)%Z ∧ (4096 | fileoff_of p)%Z.
Proof.
  intros Hlen Hblob Hne C Hmid. destruct C as [C1 C2 C3 C4 C5 C6 C7 C8 C9 C10 C11 C12 C13 C14 C15 C16].
  assert (Hpos : (0 < len blob)%Z) by (destruct blob; [done|unfold len; simpl; lia]).
  destruct (page_align_spec (len blob) page) as [Hspan Hmod]; [lia..|]. rewrite <-C15 in Hspan, Hmod.
  rewrite C1, C5 in Hmid. subst le.
  assert (Hcount : (Z.of_nat (length (cs1 ++ lk :: cs2)) < 256 ^ 4 - 1)%Z).
  { assert (Hall : ∀ cs, Forall wf_cmd cs → (8 * Z.of_nat (length cs) ≤ len (mjoin cs))%Z).
    { induction 1 as [|c cs Hc _ IH]; [done|]. rewrite mjoin_cons, len_app. simpl length. pose proof (wf_min c Hc). lia. }
    pose proof (Hall _ C6). pose proof (field_range 4 hd 20 ltac:(lia)). lia. }
  apply insert_segment_spec in Hmid as (hd' & pad & body & rest & Hpost & Hpad & Hoff & -> & Hhd' & M0 & M16 & M20 & Msz); [|done|lia|rewrite C4; lia|by rewrite C1 in C11].
  set (p := {| p_head := hd; p_before := cs1; p_linkedit := lk; p_after := cs2; p_pad := pad; p_body := body; p_rest := rest |}).
  exists p, hd'. assert (Hst : content_start p = (32 + len (mjoin (cs1 ++ lk :: cs2)) + AMBER_CMD_SIZE)%Z).
  { unfold content_start, commands. simpl. rewrite !len_app. lia. }
  assert (Hp : macho = image p) by (rewrite C1, Hpost; done).
  destruct (amber_wf (field 8 lk 24) span (field 8 lk 40) (len blob)) as [Wa Na]; [by apply (field_range 8 lk 40)|lia|].
  split_and!; [done| |done..|]; [|cbn zeta; split_and!].
  - split; try done. intros c v Hc Hv. rewrite Hst. by apply (C12 c).
  - done.
  - unfold small, amber_of. rewrite join_app, !mjoin_cons, !len_app, len_amber, len_zeros.
    rewrite Hp in Hlen. unfold image, commands in Hlen. simpl in Hlen. rewrite join_app, mjoin_cons, !len_app in Hlen.
    unfold AMBER_CMD_SIZE, SEG_CMD_SIZE, SECT_SIZE in *. simpl. lia.
  - done.
  - apply Forall_app in C6 as [Wb Wt]. apply Forall_app. split; [done|by constructor].
  - done.
  - by rewrite M0.
  - rewrite M16, C4. unfold commands. simpl. lia.
  - by rewrite M20.
  - rewrite C4, Z.mod_small by lia. rewrite !length_app. simpl. lia.
  - lia.
  - lia.
  - lia.
  - destruct C13 as (_ & Hd & _). etrans; [exact Hd|]. apply Z.mod_divide; lia.
  - destruct C13 as (_ & Hd & _). etrans; [exact Hd|]. apply Z.mod_divide; [lia|]. apply C14.
Qed.
Lemma inject_parts macho blob out :
  (len macho < 2 ^ 60)%Z → (len blob < 2 ^ 60)%Z → inject_amber_segment macho blob = Done out →
  ∃ p span, macho = image p ∧ wf_parts p ∧ Injected p blob span out ∧ (0 < len blob ≤ span)%Z ∧ (span < len blob + 2 ^ 14)%Z ∧
    (4096 | span)%Z ∧ (4096 | fileoff_of p)%Z.
Proof.
  intros Hlen Hblob H. destruct (inject_checked macho blob out Hlen H) as (page & span & hd & cs1 & lk & cs2 & post & le & mid & C & Hne & Hmid & Hb).
  destruct (inserted_parts macho blob page span hd cs1 lk cs2 post le mid Hlen Hblob Hne C Hmid)
    as (p & hd' & Hp & Hwf & E1 & E2 & E3 & E4 & -> & Hsm & Hhd' & Hcs & Ha & M0 & M16 & M20 & Hn & Hs1 & Hs2 & Hs3 & Hs4).
  exists p, span. split_and!; try done; [|lia..].
  unfold bump_linkedit_offsets in Hb. rewrite Hn in Hb. apply done_bind in Hb as ([buf off] & Hb & Hend). step Hend. injection Hend as ->.
  rewrite <-Hhd' in Hb at 3. apply bump_commands_split in Hb as (cs' & Hcs' & ->); [|done|done].
  apply Forall2_app_inv_l in Hcs' as (b' & t' & Hb' & Ht & ->).
  apply Forall2_cons_inv_l in Ht as (a' & t2 & Ha' & Ht & ->). apply Forall2_cons_inv_l in Ht as (lk' & a2 & Hlk' & Hafter & ->).
  assert (a' = amber_of p span blob) as ->.
  { eapply bumped_amber; [exact Ha| |exact Ha']. unfold amber_of. by rewrite len_amber. }
  assert (linkedit_fileoff le = fileoff_of p) as Hle by (rewrite (chk_le _ _ _ _ _ _ _ _ _ _ C); unfold fileoff_of; by rewrite E3).
  rewrite Hle in *. split. exists hd', b', lk', a2. rewrite E2, E3, E4. done.
Qed.

(** ** Offsets follow what they point at *)

Section follow.
Context (threshold span : Z).
(** Where the byte at file offset [v] goes; and what becomes of a 32-bit offset, for which 0 means none. *)
Definition shift (v : Z) : Z := if bool_decide (threshold ≤ v)%Z then (v + span)%Z else v.
Definition moved (v : Z) : Z := if bool_decide (v = 0)%Z then 0%Z else shift v.

Lemma put_field w s k v s' : (0 ≤ k)%Z → (0 ≤ v < 256 ^ Z.of_nat w)%Z → put s k (le_bytes w v) = Some s' → field (Z.of_nat w) s' k = v.
Proof.
  intros Hk Hv Hp. unfold field. pose proof (get_put_eq _ _ _ _ Hp) as E. rewrite len_le_bytes in E. rewrite E.
  by apply (from_le_le_bytes w).
Qed.
Lemma bump_u32_moves s k s' : (0 ≤ k)%Z → (k + 4 ≤ len s)%Z → small s → (0 ≤ span < 2 ^ 62)%Z →
  bump_u32 s k threshold span = Done s' → field 4 s' k = moved (field 4 s k).
Proof.
  intros Hk Hle Hs Hspan H. unfold bump_u32, read_u32 in H. rewrite read_own in H by (done || lia). cbn [mbind outcome_bind] in H.
  pose proof (field_range 4 s k ltac:(lia)) as Hf. unfold moved, shift. case_bool_decide as H0.
  - simplify_eq. case_bool_decide; [done|]. rewrite bool_decide_eq_false_2 by lia. done.
  - rewrite bool_decide_eq_false_2, bool_decide_eq_true_2 by lia. rewrite wrap_u64_id in H by (unfold in_u64, U64_MOD; lia).
    case_bool_decide; [done|]. destruct (put s k _) as [s1|] eqn:E; simplify_eq/=. apply (put_field 4) in E; [done|lia|]. unfold U32_MAX in *. lia.
Qed.
Definition spaced (ks : list Z) : Prop := StronglySorted (λ a b, a + 4 ≤ b)%Z ks.
Lemma bump_fields_moves ks s s' : spaced ks → Forall (λ k, 0 ≤ k ∧ k + 4 ≤ len s)%Z ks → small s → (0 ≤ span < 2 ^ 62)%Z →
  bump_fields ks s threshold span = Done s' → ∀ k, k ∈ ks → field 4 s' k = moved (field 4 s k).
Proof.
  intros Hsp. revert s. induction Hsp as [|k ks Hsp IH Hall]; intros s Hks Hs Hspan H k' Hin; [by apply elem_of_nil in Hin|].
  cbn [bump_fields] in H. apply done_bind in H as (s1 & H1 & H). apply Forall_cons in Hks as [[Hk Hle] Hks].
  assert (Hl : len s1 = len s) by (apply (bump_u32_keeps _ _ _ _ _ 0 0 H1); lia).
  apply elem_of_cons in Hin as [-> |Hin].
  - rewrite (keeps_field 4 k s1 s'); [by apply bump_u32_moves|]. eapply bump_fields_keeps; [exact Hall|exact H].
  - assert (Hgap : (k + 4 ≤ k')%Z) by (eapply Forall_forall in Hall; [exact Hall|exact Hin]).
    assert (Hk' : field 4 s1 k' = field 4 s k') by (eapply keeps_field, bump_u32_keeps; [exact H1|lia]).
    rewrite <-Hk'. apply (IH s1); [by rewrite Hl|unfold small in *; lia|done..].
Qed.
Lemma bump_sections_moves n s k s' : (0 ≤ k)%Z → (k + Z.of_nat n * 80 ≤ len s)%Z → small s → (0 ≤ span < 2 ^ 62)%Z →
  bump_sections n s k threshold span = Done s' →
  ∀ i o, i < n → (o = 48 ∨ o = 56)%Z → field 4 s' (k + 80 * Z.of_nat i + o) = moved (field 4 s (k + 80 * Z.of_nat i + o)).
Proof.
  revert s k. induction n as [|n IH]; intros s k Hk Hle Hs Hspan H i o Hi Ho; [lia|]. cbn [bump_sections] in H.
  apply done_bind in H as (s1 & H1 & (s2 & H2 & H)%done_bind). unfold SECT_SIZE in H.
  assert (L1 : len s1 = len s) by (apply (bump_u32_keeps _ _ _ _ _ 0 0 H1); lia).
  assert (L2 : len s2 = len s1) by (apply (bump_u32_keeps _ _ _ _ _ 0 0 H2); lia).
  assert (Hs1 : small s1) by (unfold small in *; lia).
  destruct i as [|i].
  - change (80 * Z.of_nat 0)%Z with 0%Z. rewrite Z.add_0_r.
    rewrite (keeps_field 4 (k + o) s2 s') by (eapply bump_sections_keeps; [|exact H]; lia). destruct Ho as [-> | ->].
    + rewrite (keeps_field 4 (k + 48) s1 s2) by (eapply bump_u32_keeps; [exact H2|lia]). apply bump_u32_moves; (done || lia).
    + rewrite (bump_u32_moves s1 (k + 56)) by (done || lia). f_equal. eapply keeps_field, bump_u32_keeps; [exact H1|lia].
  - replace (k + 80 * Z.of_nat (S i) + o)%Z with (k + 80 + 80 * Z.of_nat i + o)%Z by lia.
    rewrite (IH s2 (k + 80)%Z) by (done || (unfold small in *; lia)). f_equal.
    etrans; [eapply keeps_field, bump_u32_keeps; [exact H2|lia]|]. eapply keeps_field, bump_u32_keeps; [exact H1|lia].
Qed.
Lemma offset_fields_spaced cmd cmdsize : spaced (offset_fields cmd cmdsize).
Proof.
  unfold offset_fields, spaced.
  repeat match goal with |- context [if ?b then _ else _] => destruct b end; repeat constructor; lia.
Qed.

(** The file offsets in a load command of a given size, as the format's header file lists them: the
    command, the size of its structure and the place of the field. *)
Inductive offset_field : Z → Z → Z → Prop :=
  | symoff size : (24 ≤ size)%Z → offset_field 0x2 size 8
  | stroff size : (24 ≤ size)%Z → offset_field 0x2 size 16
  | tocoff size : (80 ≤ size)%Z → offset_field 0xb size 32
  | modtaboff size : (80 ≤ size)%Z → offset_field 0xb size 40
  | extrefsymoff size : (80 ≤ size)%Z → offset_field 0xb size 48
  | indirectsymoff size : (80 ≤ size)%Z → offset_field 0xb size 56
  | extreloff size : (80 ≤ size)%Z → offset_field 0xb size 64
  | locreloff size : (80 ≤ size)%Z → offset_field 0xb size 72
  | dyld_info cmd size k : cmd ∈ [0x22; 0x80000022]%Z → (48 ≤ size)%Z → k ∈ [8; 16; 24; 32; 40]%Z → offset_field cmd size k
  | dataoff cmd size : cmd ∈ [0x1d; 0x1e; 0x26; 0x29; 0x2b; 0x2e; 0x36; 0x37; 0x38; 0x80000033; 0x80000034]%Z →
      (16 ≤ size)%Z → offset_field cmd size 8
  | cryptoff size : (16 ≤ size)%Z → offset_field 0x2c size 8
  | hints_offset size : (16 ≤ size)%Z → offset_field 0x16 size 8.
Lemma offset_field_listed cmd size k : offset_field cmd size k → k ∈ offset_fields cmd size.
Proof.
  destruct 1 as [| | | | | | | |cmd size k Hc Hs Hk|cmd size Hc Hs| |]; unfold offset_fields.
  9,10: rewrite !elem_of_cons, elem_of_nil in Hc; destruct_or?; subst; try done; simpl.
  all: repeat (first [rewrite bool_decide_eq_true_2 by auto|rewrite bool_decide_eq_false_2 by (intros []; done)]; simpl); rewrite ?elem_of_cons in *; tauto.
Qed.
(** The file offsets of a command, in its old and new form. *)
Record follows (c c' : rstr) : Prop := {
  follows_length : len c' = len c;
  follows_fields : ¬ is_segment c → ∀ k, offset_field (cmd_of c) (len c) k → field 4 c' k = moved (field 4 c k);
  follows_segment : is_segment c → field 8 c' 40 = wrap_u64 (shift (field 8 c 40));
  follows_sections : is_segment c → ∀ i o, i < Z.to_nat (field 4 c 64) → (o = 48 ∨ o = 56)%Z →
    field 4 c' (72 + 80 * Z.of_nat i + o) = moved (field 4 c (72 + 80 * Z.of_nat i + o));
  follows_vmaddr : is_segment c →
    field 8 c' 24 = if segname_is (default [] (get c 8 16)) "__LINKEDIT" then wrap_u64 (field 8 c 24 + span) else field 8 c 24;
}.
Lemma bumped_follows c c' : wf_cmd c → small c → ¬ named "__AMBER" c → (0 ≤ span < 2 ^ 62)%Z → bumped threshold span c c' → follows c c'.
Proof.
  intros Hw Hs Hna Hspan Hb. pose proof (bumped_wf _ _ c c' Hw Hb) as (_ & Hlen & _). unfold bumped, bump_command in Hb.
  case_bool_decide as Hseg.
  - destruct (wf_nsects c Hw Hseg) as (H72 & Hn & Hfit). change (0 + 8)%Z with 8%Z in Hb. rewrite (get_out c 8 16) in Hb by lia.
    cbn [or_crash mbind outcome_bind] in Hb. destruct (segname_is _ "__AMBER") eqn:EA;
      [by apply (segname_named c "__AMBER" Hseg) in EA; [|lia]|].
    change (0 + 40)%Z with 40%Z in Hb. change (0 + 24)%Z with 24%Z in Hb. change (0 + 64)%Z with 64%Z in Hb. change (0 + SEG_CMD_SIZE)%Z with 72%Z in Hb.
    apply done_bind in Hb as (c1 & H1 & (c2 & H2 & (ns & Hns & H)%done_bind)%done_bind).
    assert (K1 : ∀ a n, (a + n ≤ 40 ∨ 48 ≤ a)%Z → keeps a n c c1) by (intros; eapply bump_u64_keeps; [exact H1|lia]).
    assert (K2 : ∀ a n, (a + n ≤ 24 ∨ 32 ≤ a)%Z → keeps a n c1 c2).
    { intros. destruct (segname_is _ "__LINKEDIT"); [eapply (bump_vmaddr_keeps 0); [exact H2|lia]|by simplify_eq]. }
    pose proof (proj1 (K1 0%Z 0%Z ltac:(lia))) as L1. pose proof (proj1 (K2 0%Z 0%Z ltac:(lia))) as L2.
    assert (Hs2 : small c2) by (unfold small in *; lia). assert (Hs1 : small c1) by (unfold small in *; lia).
    unfold read_u32 in Hns. rewrite read_own in Hns by (done || lia). injection Hns as <-.
    rewrite (keeps_field _ _ _ _ (K2 64%Z 4%Z ltac:(lia))), (keeps_field _ _ _ _ (K1 64%Z 4%Z ltac:(lia))) in H.
    assert (K3 : ∀ a n, (a + n ≤ 72)%Z → keeps a n c2 c') by (intros; eapply bump_sections_keeps; [|exact H]; lia).
    split; [done|done|intros _..].
    + rewrite (keeps_field _ _ _ _ (K3 40%Z 8%Z ltac:(lia))), (keeps_field _ _ _ _ (K2 40%Z 8%Z ltac:(lia))).
      unfold bump_u64_fileoff, read_u64 in H1. rewrite read_own in H1 by (done || lia). cbn [mbind outcome_bind] in H1. unfold shift.
      pose proof (field_range 8 c 40 ltac:(lia)). case_bool_decide as Ht.
      * simplify_eq. rewrite bool_decide_eq_false_2, wrap_u64_id by (unfold in_u64, U64_MOD; lia). done.
      * rewrite bool_decide_eq_true_2 by lia. destruct (put c 40 _) as [s1|] eqn:E; simplify_eq/=.
        apply (put_field 8) in E; [done|lia|]. apply wrap_u64_range.
    + intros i o Hi Ho. rewrite (bump_sections_moves (Z.to_nat (field 4 c 64)) c2 72 c') by (done || lia). f_equal.
      etrans; [eapply keeps_field, K2; lia|]. eapply keeps_field, K1; lia.
    + rewrite (keeps_field _ _ _ _ (K3 24%Z 8%Z ltac:(lia))). destruct (segname_is _ "__LINKEDIT").
      * unfold read_u64 in H2. rewrite read_own in H2 by (done || lia). cbn [mbind outcome_bind] in H2.
        destruct (put c1 24 _) as [s1|] eqn:E; simplify_eq/=. rewrite (keeps_field _ _ _ _ (K1 24%Z 8%Z ltac:(lia))) in E.
        apply (put_field 8) in E; [done|lia|]. apply wrap_u64_range.
      * simplify_eq. eapply keeps_field, K1; lia.
  - split; [done| |by intros ?..]. intros _ k Hk%offset_field_listed.
    assert ((Z.add 0 <$> offset_fields (cmd_of c) (len c)) = offset_fields (cmd_of c) (len c)) as E by (by rewrite <-(list_fmap_id (offset_fields _ _)) at 2).
    rewrite E in Hb. eapply bump_fields_moves; [apply offset_fields_spaced| |done|done|exact Hb|done].
    eapply Forall_impl; [apply (offset_fields_fit (cmd_of c) (len c))|]. simpl. lia.
Qed.
End follow.

(** ** Theorems *)

Lemma bumped_all thr span cs cs' : Forall wf_cmd cs → Forall2 (bumped thr span) cs cs' →
  Forall wf_cmd cs' ∧ length cs' = length cs ∧ len (mjoin cs') = len (mjoin cs) ∧
  ∀ n, Forall (λ c, ¬ named n c) cs → Forall (λ c, ¬ named n c) cs'.
Proof.
  intros Hw H. induction H as [|c c' cs cs' Hc _ IH]; [done|]. apply Forall_cons in Hw as [Hwc Hw].
  destruct (bumped_wf thr span c c' Hwc Hc) as (W & Hl & _ & Hn). destruct (IH Hw) as (W' & Hl1 & Hl2 & Hn').
  split_and!; [by constructor|simpl; by f_equal|rewrite !mjoin_cons, !len_app; lia|].
  intros n [H1 H2]%Forall_cons. apply Forall_cons. split; [by rewrite Hn|by apply Hn'].
Qed.
Lemma follow_all p thr span cs cs' : wf_parts p → small (image p) → (0 ≤ span < 2 ^ 62)%Z → (∀ c, c ∈ cs → c ∈ commands p) →
  Forall2 (bumped thr span) cs cs' → Forall2 (follows thr span) cs cs'.
Proof.
  intros Hp Hs Hspan Hin H. induction H as [|c c' cs cs' Hc _ IH]; [constructor|]. constructor; [|apply IH; intros d Hd; apply Hin; by right].
  assert (Hc' : c ∈ commands p) by (apply Hin; left). pose proof (parts_wf p Hp) as Hw. pose proof (parts_no_amber p Hp) as Hn.
  rewrite Forall_forall in Hw, Hn. apply bumped_follows; [by apply Hw| |by apply Hn|done|done].
  apply list_elem_of_split in Hc' as (l1 & l2 & E). unfold image in Hs. rewrite E, join_app, mjoin_cons in Hs.
  unfold small in *. rewrite !len_app in Hs. pose proof (len_nonneg (p_head p)). pose proof (len_nonneg (mjoin l1)). pose proof (len_nonneg (mjoin l2)).
  pose proof (len_nonneg (p_pad p)). pose proof (len_nonneg (p_body p)). pose proof (len_nonneg (p_rest p)). lia.
Qed.

(** C35. When the script's segment is put into a Mach-O, nothing else changes its contents and every
    file offset follows what it points at: the load commands stay in order with the new one before
    [__LINKEDIT]'s; contents before [__LINKEDIT] keep their place, those of [__LINKEDIT] move by a
    whole number of pages; each offset field of each command ([offset_field], which has the format's but
    for those of notes and kernel file sets) is moved exactly when its target
    was; and only unused bytes of the header were taken for the new command. *)
Theorem offsets_follow_contents macho blob out :
  (len macho < 2 ^ 60)%Z → (len blob < 2 ^ 60)%Z → inject_amber_segment macho blob = Done out →
  ∃ p span head' before' linkedit' after',
    macho = image p ∧ wf_parts p ∧
    out = head' ++ mjoin (before' ++ amber_of p span blob :: linkedit' :: after') ++ p_body p ++ blob
          ++ zeros (Z.to_nat (span - len blob)) ++ p_rest p ∧
    Forall2 (follows (fileoff_of p) span) (p_before p) before' ∧ follows (fileoff_of p) span (p_linkedit p) linkedit' ∧
    Forall2 (follows (fileoff_of p) span) (p_after p) after' ∧ (4096 | span)%Z ∧ (len blob ≤ span)%Z ∧
    (∀ a n, content_start p ≤ a → 0 ≤ n → a + n ≤ len macho → a + n ≤ fileoff_of p ∨ fileoff_of p ≤ a →
       get out (shift (fileoff_of p) span a) n = get macho a n)%Z ∧
    (∀ c v, c ∈ commands p → has_content c v → content_start p ≤ v)%Z.
Proof.
  intros Hlen Hblob H. apply inject_parts in H as (p & span & Hp & Hwf & [Hinj] & Hs1 & Hs2 & Hs3 & _); [|done..].
  destruct Hinj as (hd' & b' & lk' & a' & -> & Hhd' & _ & _ & _ & Hb & Hl & Ha).
  assert (Hsm : small (image p)) by (unfold small; rewrite <-Hp; lia). assert (Hspan : (0 ≤ span < 2 ^ 62)%Z) by lia.
  pose proof (parts_wf p Hwf) as Hw. apply Forall_app in Hw as [Wb [Wl Wa]%Forall_cons].
  exists p, span, hd', b', lk', a'. split_and!; [done|done|done|..|done|lia| |apply Hwf].
  - eapply follow_all; [done..| |done]. intros c Hc. apply elem_of_app. by left.
  - apply bumped_follows; [done| | |done|done].
    + unfold image, commands in Hsm. rewrite join_app, mjoin_cons in Hsm. unfold small in *. rewrite !len_app in Hsm.
      pose proof (len_nonneg (p_head p)). pose proof (len_nonneg (mjoin (p_before p))). pose proof (len_nonneg (mjoin (p_after p))).
      pose proof (len_nonneg (p_pad p)). pose proof (len_nonneg (p_body p)). pose proof (len_nonneg (p_rest p)). lia.
    + pose proof (parts_no_amber p Hwf) as Hn. rewrite Forall_forall in Hn. apply Hn, elem_of_app. right. left.
  - eapply follow_all; [done..| |done]. intros c Hc. apply elem_of_app. right. by right.
  - destruct (bumped_all _ _ _ _ Wb Hb) as (_ & _ & Lb & _). destruct (bumped_all _ _ _ _ Wa Ha) as (_ & _ & La & _).
    destruct (bumped_wf _ _ _ _ Wl Hl) as (_ & Ll & _).
    set (front := hd' ++ mjoin (b' ++ amber_of p span blob :: lk' :: a')).
    set (old := p_head p ++ mjoin (commands p) ++ p_pad p).
    assert (Lf : len front = content_start p).
    { unfold front, content_start, commands, amber_of. rewrite !join_app, !mjoin_cons, !len_app, len_amber, (parts_pad p Hwf), (parts_head p Hwf). lia. }
    assert (Hm : image p = old ++ p_body p ++ p_rest p) by (unfold image, old; by rewrite <-!app_assoc).
    assert (Ho : hd' ++ mjoin (b' ++ amber_of p span blob :: lk' :: a') ++ p_body p ++ blob ++ zeros (Z.to_nat (span - len blob)) ++ p_rest p
      = front ++ p_body p ++ (blob ++ zeros (Z.to_nat (span - len blob))) ++ p_rest p) by (unfold front; by rewrite <-!app_assoc).
    rewrite Ho, Hp, Hm. pose proof (parts_fileoff p Hwf) as Hfo. fold (fileoff_of p) in Hfo.
    intros a n Hca Hn Hle Hd. rewrite !len_app in Hle. change (len old) with (content_start p) in Hle. unfold shift. case_bool_decide as Ht.
    + rewrite !app_assoc. replace (a + span)%Z with (len (((front ++ p_body p) ++ blob) ++ zeros (Z.to_nat (span - len blob))) + (a - fileoff_of p))%Z
        by (rewrite !len_app, len_zeros; lia).
      rewrite get_back by lia. replace a with (len (old ++ p_body p) + (a - fileoff_of p))%Z at 2
        by (rewrite len_app; change (len old) with (content_start p); lia).
      by rewrite get_back by lia.
    + destruct Hd as [Hd|Hd]; [|lia]. replace a with (len front + (a - content_start p))%Z at 1 by lia.
      rewrite get_mid by lia. replace a with (len old + (a - content_start p))%Z at 2 by (change (len old) with (content_start p); lia).
      by rewrite get_mid by lia.
Qed.

(** The reader's search, on an image with the segment, whatever follows it. *)
Lemma segment_found p blob span out sig :
  wf_parts p → Injected p blob span out → small (out ++ sig) → (len blob ≤ span)%Z →
  macho_amber_segment (out ++ sig) = Done (Some {| seg_start := fileoff_of p; seg_end := fileoff_of p + len blob |}) ∧
  (∃ x y, out ++ sig = x ++ blob ++ y ∧ len x = fileoff_of p) ∧
  field 4 (out ++ sig) 20 = (field 4 (p_head p) 20 + AMBER_CMD_SIZE)%Z.
Proof.
  intros Hwf [Hinj] Hsm Hspan. destruct Hinj as (hd' & b' & lk' & a' & -> & Hhd' & M0 & M16 & M20 & Hb & Hl & Ha).
  pose proof (parts_wf p Hwf) as Hw. apply Forall_app in Hw as [Wb [Wl Wa]%Forall_cons].
  pose proof (parts_no_amber p Hwf) as Hn. apply Forall_app in Hn as [Nb _].
  destruct (bumped_all _ _ _ _ Wb Hb) as (Wb' & Cb & Lb & Nb'). destruct (bumped_all _ _ _ _ Wa Ha) as (Wa' & Ca & La & _).
  destruct (bumped_wf _ _ _ _ Wl Hl) as (Wl' & Ll & _). pose proof (parts_fileoff p Hwf) as Hfo. fold (fileoff_of p) in Hfo.
  pose proof (len_nonneg (p_rest p)) as Lr. pose proof (len_nonneg sig) as Lsig. pose proof (len_nonneg blob) as Lblob.
  set (amber := amber_of p span blob) in *. set (cs := b' ++ amber :: lk' :: a') in *.
  set (zs := zeros (Z.to_nat (span - len blob))) in *.
  assert (Lcs : len (mjoin cs) = (len (mjoin (commands p)) + AMBER_CMD_SIZE)%Z).
  { unfold cs, commands, amber, amber_of. rewrite !join_app, !mjoin_cons, !len_app, len_amber. lia. }
  assert (Lfront : len (hd' ++ mjoin cs ++ p_body p) = fileoff_of p).
  { rewrite !len_app, Lcs, Hhd', Hfo. unfold content_start. rewrite !len_app, (parts_head p Hwf), (parts_pad p Hwf). lia. }
  set (out := hd' ++ mjoin cs ++ p_body p ++ blob ++ zs ++ p_rest p) in *.
  assert (Hout : out ++ sig = hd' ++ mjoin cs ++ (p_body p ++ blob ++ zs ++ p_rest p ++ sig)) by (unfold out; by rewrite <-!app_assoc).
  assert (Hfr : (0 ≤ fileoff_of p < 256 ^ 8)%Z) by (apply field_range; lia).
  destruct (amber_wf (field 8 (p_linkedit p) 24) span (fileoff_of p) (len blob)) as [Wamb Namb]; [done|unfold small in Hsm; rewrite Hout, !len_app in Hsm; pose proof (len_nonneg hd'); pose proof (len_nonneg (mjoin cs)); pose proof (len_nonneg (p_body p)); pose proof (len_nonneg zs); lia|].
  destruct (amber_fields (field 8 (p_linkedit p) 24) span (fileoff_of p) (len blob)) as (_ & _ & _ & _ & F40 & F48);
    [done|unfold small in Hsm; rewrite Hout, !len_app in Hsm; pose proof (len_nonneg hd'); pose proof (len_nonneg (mjoin cs)); pose proof (len_nonneg (p_body p)); pose proof (len_nonneg zs); lia|].
  assert (Hlen : (fileoff_of p + len blob ≤ len (out ++ sig) ∧ 32 + len (mjoin cs) ≤ len (out ++ sig))%Z).
  { rewrite Hout, !len_app. rewrite !len_app in Lfront. pose proof (len_nonneg zs). pose proof (len_nonneg (p_body p)). lia. }
  assert (F : ∀ k, (0 ≤ k)%Z → (k + 4 ≤ 32)%Z → field 4 (out ++ sig) k = field 4 hd' k) by (intros; rewrite Hout; apply get_own_head; lia).
  split; [|split].
  - unfold macho_amber_segment, macho_amber_segment_in. pose proof (len_nonneg (mjoin cs)).
    rewrite bool_decide_eq_false_2 by lia. destruct (get_in_range (out ++ sig) 0 4) as [t Ht]; [lia..|].
    assert (from_le_bytes t = MH_MAGIC_64) as Hmagic.
    { rewrite <-M0, <-(F 0%Z) by lia. unfold field. by rewrite Ht. }
    rewrite Ht. cbn [fmap option_fmap option_map or_crash mbind outcome_bind].
    rewrite Hmagic, bool_decide_eq_false_2 by (intros Hne; by apply Hne).
    unfold read_u32. rewrite !read_own by (done || lia). rewrite !F by lia. rewrite M16, M20. cbn [ok mbind outcome_bind].
    rewrite bool_decide_eq_false_2 by lia.
    replace (Z.to_nat (Z.of_nat (S (length (commands p))))) with (length cs)
      by (unfold cs, commands; rewrite !length_app; simpl; lia).
    rewrite Hout in Hsm |- *. rewrite <-Hhd' at 2. unfold cs in *. rewrite find_amber_split.
    + unfold amber_segment_at, read_u64. set (tail := p_body p ++ blob ++ zs ++ p_rest p ++ sig) in *.
      assert (E : hd' ++ mjoin (b' ++ amber :: lk' :: a') ++ tail = (hd' ++ mjoin b') ++ amber ++ (mjoin (lk' :: a') ++ tail)).
      { rewrite join_app, mjoin_cons. by rewrite <-!app_assoc. }
      rewrite E in Hsm |- *. rewrite !read_field by (done || (unfold amber, amber_of; rewrite len_amber; done)).
      unfold amber, amber_of. rewrite F40, F48. cbn [ok mbind outcome_bind mret option_ret option_bind].
      rewrite bool_decide_eq_false_2, bool_decide_eq_false_2; [done| |].
      * fold (amber_of p span blob). fold amber. rewrite <-E, <-Hout. lia.
      * unfold U64_MOD. unfold small in Hsm. rewrite <-E, <-Hout in Hsm. lia.
    + exact Hsm.
    + apply Forall_app. split; [done|]. constructor; [done|by constructor].
    + by apply Nb'.
    + exact Namb.
    + rewrite Hhd'. lia.
  - exists (hd' ++ mjoin cs ++ p_body p), (zs ++ p_rest p ++ sig). split; [|done]. rewrite Hout. by rewrite <-!app_assoc.
  - rewrite F, M20 by lia. by rewrite (parts_sizeofcmds p Hwf).
Qed.

(** C36. On macOS: a script put into a Mach-O is the one that is found again, and runs, whatever is appended
    to the file afterwards, a signature for instance. *)
Theorem macho_round_trip macho payload blob out sig :
  (len macho < 2 ^ 60)%Z → (len payload < 2 ^ 59)%Z → (len sig < 2 ^ 60)%Z →
  trailer_blob payload = Done blob → inject_amber_segment macho blob = Done out →
  (∃ t, find_standalone_trailer (out ++ sig) = Done (Some t) ∧ flags t = 0%Z ∧
     get (out ++ sig) (payload_start t) (payload_len t) = Some payload) ∧
  (utf8_valid payload = true → (32 + field 4 macho 20 + AMBER_CMD_SIZE ≤ MACHO_HEADER_READ_LIMIT)%Z →
   read_standalone_payload (Some (file_of (out ++ sig))) = Done (Some payload)).
Proof.
  intros Hlen Hpl Hsig (Hne & _ & Hb)%trailer_blob_spec Hinj.
  assert (Lb : len blob = (len payload + 32)%Z) by (rewrite Hb, len_app, len_trailer; done).
  assert (Hpos : (0 < len payload)%Z) by (destruct payload; [done|unfold len; simpl; lia]).
  apply inject_parts in Hinj as (p & span & Hp & Hwf & HI & Hs1 & Hs2 & _); [|done|lia].
  assert (Hsm : small (out ++ sig)).
  { destruct HI as [(hd' & b' & lk' & a' & -> & Hhd' & _ & _ & _ & Hbb & Hl & Ha)].
    pose proof (parts_wf p Hwf) as Hw. apply Forall_app in Hw as [Wb [Wl Wa]%Forall_cons].
    destruct (bumped_all _ _ _ _ Wb Hbb) as (_ & _ & L1 & _). destruct (bumped_all _ _ _ _ Wa Ha) as (_ & _ & L2 & _).
    destruct (bumped_wf _ _ _ _ Wl Hl) as (_ & L3 & _). unfold small, amber_of.
    rewrite !len_app, join_app, !mjoin_cons, !len_app, len_amber, len_zeros.
    rewrite Hp in Hlen. unfold image, commands in Hlen. rewrite join_app, mjoin_cons, !len_app, (parts_head p Hwf) in Hlen.
    unfold AMBER_CMD_SIZE, SEG_CMD_SIZE, SECT_SIZE in *. pose proof (len_nonneg (p_pad p)). lia. }
  destruct (segment_found p blob span out sig Hwf HI Hsm (proj2 Hs1)) as (Hseg & (x & y & Hxy & Hx) & H20).
  set (t := {| payload_start := fileoff_of p; payload_len := len payload; flags := 0; trailer_end := fileoff_of p + len blob |}).
  assert (Hx0 : (0 ≤ fileoff_of p)%Z) by (rewrite <-Hx; apply len_nonneg).
  assert (Hfit : (fileoff_of p + len blob ≤ len (out ++ sig))%Z) by (rewrite Hxy, !len_app; pose proof (len_nonneg y); lia).
  assert (Hfind : find_standalone_trailer (out ++ sig) = Done (Some t)).
  { unfold find_standalone_trailer. rewrite Hseg. cbn [mbind outcome_bind seg_end seg_start]. unfold TRAILER_TOTAL_SIZE.
    rewrite bool_decide_eq_false_2 by lia.
    assert (Hmagic : get (out ++ sig) (fileoff_of p + len blob - 16) 16 = Some MAGIC_TRAILER).
    { rewrite Hxy, Hb. unfold trailer. rewrite <-!app_assoc. rewrite !(app_assoc x), (app_assoc _ (le_bytes 8 (len payload))), (app_assoc _ (le_bytes 8 0)).
      apply get_at; [rewrite !len_app, !len_le_bytes; change (len MAGIC_TRAILER) with 16%Z; lia|done]. }
    rewrite Hmagic. cbn [or_crash mbind outcome_bind]. rewrite bool_decide_eq_false_2 by (intros Hn; by apply Hn).
    unfold parse_trailer_at, TRAILER_TOTAL_SIZE. rewrite bool_decide_eq_false_2 by lia.
    assert (Hraw : get (out ++ sig) (fileoff_of p + len blob - 32) 32 = Some (trailer (len payload))).
    { rewrite Hxy, Hb. rewrite <-!app_assoc, (app_assoc x). apply get_at; [rewrite !len_app, len_trailer; lia|by rewrite len_trailer]. }
    rewrite Hraw. cbn [or_crash mbind outcome_bind]. rewrite parse_trailer_spec; [unfold t; do 3 f_equal; lia|lia..]. }
  assert (Hget : get (out ++ sig) (payload_start t) (payload_len t) = Some payload).
  { simpl. rewrite Hxy, Hb, <-app_assoc. by apply get_at. }
  split; [by exists t|]. intros Hu Hlimit. apply (read_found _ t); [|done..]. rewrite reader_agrees; [done|done|].
  intros _. rewrite H20. rewrite Hp in Hlimit. unfold image in Hlimit. rewrite get_own_head in Hlimit by (rewrite ?(parts_head p Hwf); lia). lia.
Qed.

(** *** No image makes the insertion panic *)

Lemma bind_fine {A B} (m : outcome A) (f : A → outcome B) : m ≠ Crashed → (∀ a, m = Done a → f a ≠ Crashed) → m ≫= f ≠ Crashed.
Proof. intros Hm Hf [?|(a & Ha & Hc)]%crashed_bind; [done|by apply (Hf a)]. Qed.
Lemma require_fine b message : require b message ≠ Crashed.
Proof. by destruct b. Qed.
Lemma get_fine s a n : (0 ≤ a)%Z → (0 ≤ n)%Z → (a + n ≤ len s)%Z → or_crash (get s a n) ≠ Crashed.
Proof. intros. by destruct (get_in_range s a n) as [t ->]. Qed.
Lemma read_done_range w s a v : read_le_at w s a = Done v → (0 ≤ a ∧ 0 ≤ w ∧ a + w ≤ len s)%Z.
Proof.
  unfold read_le_at. case_bool_decide; [done|]. destruct (get s a w) eqn:E; [|done]. intros _. by eapply get_bounds.
Qed.
Lemma read_done_pos w s a v : read_le_at w s a = Done v → (0 ≤ v)%Z.
Proof.
  unfold read_le_at. case_bool_decide; [done|]. destruct (get s a w) as [t|]; [|done]. intros [= <-]. pose proof (from_le_range t). lia.
Qed.
Lemma put_after_read w s a v t : read_le_at w s a = Done v → len t = w → or_crash (put s a t) ≠ Crashed.
Proof. intros Hr%read_done_range Ht. by destruct (put_in_range s a t) as [s' ->]; [lia..|]. Qed.
Ltac fine := first [apply read_le_not_crashed | apply require_fine | done].
Ltac fine_bind := apply bind_fine; [try fine|intros].
Lemma bump_u32_fine s a thr span : bump_u32 s a thr span ≠ Crashed.
Proof.
  unfold bump_u32. apply bind_fine; [apply read_le_not_crashed|intros v Hv]. repeat (case_bool_decide; [done|]).
  by eapply put_after_read; [exact Hv|rewrite len_le_bytes].
Qed.
Lemma bump_u64_fine s a thr span : bump_u64_fileoff s a thr span ≠ Crashed.
Proof.
  unfold bump_u64_fileoff. apply bind_fine; [apply read_le_not_crashed|intros v Hv]. case_bool_decide; [done|].
  by eapply put_after_read; [exact Hv|rewrite len_le_bytes].
Qed.
Lemma bump_fields_fine ks s thr span : bump_fields ks s thr span ≠ Crashed.
Proof. revert s. induction ks as [|k ks IH]; intros s; [done|]. cbn [bump_fields]. apply bind_fine; [apply bump_u32_fine|auto]. Qed.
Lemma bump_sections_fine n s k thr span : bump_sections n s k thr span ≠ Crashed.
Proof.
  revert s k. induction n as [|n IH]; intros s k; [done|]. cbn [bump_sections].
  apply bind_fine; [apply bump_u32_fine|intros]. apply bind_fine; [apply bump_u32_fine|auto].
Qed.
Lemma bump_command_fine c thr span : wf_cmd c → bump_command c 0 (cmd_of c) (len c) thr span ≠ Crashed.
Proof.
  intros Hw. unfold bump_command. case_bool_decide as Hseg; [|apply bump_fields_fine].
  destruct (wf_nsects c Hw Hseg) as (H72 & _ & _). apply bind_fine; [apply get_fine; lia|intros name _].
  destruct (segname_is _ _); [done|]. apply bind_fine; [apply bump_u64_fine|intros c1 _]. apply bind_fine.
  - destruct (segname_is _ _); [|done]. apply bind_fine; [apply read_le_not_crashed|intros v Hv].
    by eapply put_after_read; [exact Hv|rewrite len_le_bytes].
  - intros c2 _. apply bind_fine; [apply read_le_not_crashed|intros; apply bump_sections_fine].
Qed.
Lemma bump_commands_fine cs pre post he thr span :
  small (pre ++ mjoin cs ++ post) → Forall wf_cmd cs →
  bump_commands (length cs) (pre ++ mjoin cs ++ post) he (len pre) thr span ≠ Crashed.
Proof.
  revert pre. induction cs as [|c cs IH]; intros pre Hs Hw; [done|]. apply Forall_cons in Hw as [Hc Hw]. cbn [length bump_commands].
  rewrite mjoin_cons, <-app_assoc in Hs |- *. destruct (read_cmd pre c (mjoin cs ++ post) Hc Hs) as [R1 R2].
  apply bind_fine; [apply require_fine|intros _ _]. rewrite R1, R2. cbn [mbind outcome_bind].
  apply (bind_fine (require _ _)); [apply require_fine|intros _ _]. rewrite bump_command_mid by done.
  apply bind_fine; [by apply bind_fine; [apply bump_command_fine|]|]. intros b (c' & Hb & [= <-])%done_bind.
  destruct (bumped_wf _ _ c c' Hc Hb) as (_ & Hl & _).
  replace (len pre + len c)%Z with (len (pre ++ c')) by (rewrite len_app; lia). rewrite app_assoc.
  apply IH; [|done]. unfold small in *. rewrite !len_app in *. lia.
Qed.
Lemma scan_sections_fine n s k l : scan_sections n s k l ≠ Crashed.
Proof.
  revert k l. induction n as [|n IH]; intros k l; [done|]. cbn [scan_sections].
  apply bind_fine; [apply read_le_not_crashed|intros]. apply bind_fine; [apply read_le_not_crashed|auto].
Qed.
Lemma scan_segment_fine s offset cmdsize l : (0 ≤ offset)%Z → (offset + cmdsize ≤ len s)%Z → scan_segment s offset cmdsize l ≠ Crashed.
Proof.
  intros Ho Hle. unfold scan_segment. apply bind_fine; [apply require_fine|intros [] Hsz%require_done]. apply bool_decide_eq_true in Hsz.
  unfold SEG_CMD_SIZE in Hsz. apply bind_fine; [apply get_fine; lia|intros name _].
  do 5 (apply bind_fine; [apply read_le_not_crashed|intros ? _]). apply bind_fine; [apply require_fine|intros _ _].
  apply bind_fine; [|intros; apply scan_sections_fine]. destruct (segname_is _ _).
  - by apply bind_fine; [apply require_fine|].
  - by destruct (segname_is _ _).
Qed.
Lemma scan_commands_fine n s he offset l : (0 ≤ offset)%Z → (he ≤ len s)%Z → scan_commands n s he offset l ≠ Crashed.
Proof.
  intros Ho Hhe. revert offset Ho l. induction n as [|n IH]; intros offset Ho l; [done|]. cbn [scan_commands].
  apply bind_fine; [apply require_fine|intros _ _]. apply bind_fine; [apply read_le_not_crashed|intros cmd _].
  apply bind_fine; [apply read_le_not_crashed|intros cmdsize _].
  apply bind_fine; [apply require_fine|intros [] Hb%require_done]. rewrite negb_true_iff, bool_decide_eq_false in Hb.
  apply bind_fine; [|intros; apply IH; lia]. case_bool_decide; [|done]. apply scan_segment_fine; lia.
Qed.
Lemma check_order_fine n s offset fo : (0 ≤ offset)%Z → check_order n s offset fo ≠ Crashed.
Proof.
  revert offset. induction n as [|n IH]; intros offset Ho; [done|]. cbn [check_order].
  apply bind_fine; [apply read_le_not_crashed|intros cmd _]. apply bind_fine; [apply read_le_not_crashed|intros cmdsize Hs%read_done_pos].
  apply bind_fine; [|intros; apply IH; lia]. case_bool_decide; [|done].
  apply bind_fine; [apply read_le_not_crashed|intros ? _]. apply bind_fine; [apply read_le_not_crashed|intros ? Hr%read_done_range].
  apply bind_fine; [apply get_fine; lia|intros; apply require_fine].
Qed.
Lemma check_layout_fine macho ncmds sizeofcmds page n :
  (32 + sizeofcmds ≤ len macho)%Z → check_layout macho ncmds sizeofcmds page n ≠ Crashed.
Proof.
  intros Hle. unfold check_layout. apply bind_fine; [apply scan_commands_fine; lia|intros [l off] _].
  apply bind_fine; [apply require_fine|intros _ _]. apply bind_fine; [by destruct (linkedit l)|intros le _].
  do 2 (apply bind_fine; [apply require_fine|intros _ _]). apply bind_fine; [by apply check_order_fine|intros _ _].
  by do 2 (apply bind_fine; [apply require_fine|intros _ _]).
Qed.
Lemma insert_segment_fine macho blob page span hd cs1 lk cs2 post le :
  (0 ≤ span)%Z → Checked macho blob page span hd cs1 lk cs2 post le →
  insert_segment macho blob (field 4 hd 16) (field 4 hd 20) span le ≠ Crashed.
Proof.
  intros Hspan [C1 C2 C3 C4 C5 C6 C7 C8 C9 -> C11 _ _ _ _ _]. unfold insert_segment. cbn [linkedit_fileoff linkedit_cmd_off linkedit_vmaddr].
  rewrite join_app, len_app in C5. pose proof (len_nonneg (mjoin cs1)). pose proof (len_nonneg (mjoin (lk :: cs2))).
  assert (Hm : (32 + field 4 hd 20 ≤ len macho)%Z) by (rewrite C1, join_app, !len_app; pose proof (len_nonneg post); lia).
  pose proof (field_range 8 lk 40 ltac:(lia)).
  do 2 (apply bind_fine; [apply require_fine|intros [] ?%require_done]).
  rewrite negb_true_iff, bool_decide_eq_false, bool_decide_eq_true in *. unfold AMBER_CMD_SIZE, SEG_CMD_SIZE, SECT_SIZE in *.
  rewrite len_app, C2.
  apply bind_fine; [apply get_fine; lia|intros bf Hbf%or_crash_done%get_length]. apply bind_fine; [apply get_fine; lia|intros af Haf%or_crash_done%get_length].
  apply bind_fine; [apply get_fine; lia|intros bd _]. apply bind_fine; [apply get_fine; lia|intros rs _].
  assert (Hlen : ∀ s, (184 ≤ len (resize (bf ++ amber_command (field 8 lk 24) span (field 8 lk 40) (len blob) ++ af ++ s) (field 8 lk 40 + span)))%Z).
  { intros s. unfold resize, len, zeros. rewrite length_app, length_take, length_replicate. unfold len in *. lia. }
  set (out := resize _ _ ++ rs). assert (Ho : (184 ≤ len out)%Z) by (unfold out; rewrite len_app; pose proof (Hlen (bd ++ blob)); pose proof (len_nonneg rs); lia).
  apply bind_fine.
  - destruct (put_in_range out 16 (le_bytes 4 (field 4 hd 16 + 1))) as [o ->]; [lia|rewrite len_le_bytes; lia|done].
  - intros o Hput%or_crash_done%put_length. destruct (put_in_range o 20 (le_bytes 4 (field 4 hd 20 + (72 + 80)))) as [o' ->]; [lia|rewrite len_le_bytes; lia|done].
Qed.

(** C37. Whatever bytes the runtime's executable and the script are, putting one into the other ends
    with an image or an error message: no slice is out of range.  The sizes are those
    of buffers that fit in memory.  This is of a release build, where sums wrap: the two that
    move a segment's file offset and the address of [__LINKEDIT] can go past 64 bits
    ([sums_wrap]), and a build that checks for overflow stops there. *)
Theorem injection_never_panics macho blob :
  (len macho < 2 ^ 60)%Z → (len blob < 2 ^ 60)%Z → inject_amber_segment macho blob ≠ Crashed.
Proof.
  intros Hlen Hblob. unfold inject_amber_segment. apply bind_fine; [apply require_fine|intros [] H32%require_done].
  rewrite negb_true_iff, bool_decide_eq_false in H32. assert (Hs : small macho) by (unfold small; lia).
  destruct (get_in_range macho 0 32) as [hd Hhd]; [lia..|]. apply get_prefix in Hhd as (rest & Hm & Hhd).
  apply bind_fine.
  { unfold check_magic. apply bind_fine; [|intros; apply bind_fine; [apply require_fine|intros; apply require_fine]].
    by destruct (get_in_range macho 0 4) as [t ->]; [lia..|]. }
  intros [] Hmagic. apply bind_fine; [apply require_fine|intros [] Hne%require_done]. rewrite negb_true_iff, bool_decide_eq_false in Hne.
  unfold read_u32. rewrite Hm in Hs |- *. rewrite !read_head by (lia || done). cbn [mbind outcome_bind]. rewrite <-Hm in Hs |- *.
  apply (bind_fine (macho_page_size _)).
  { unfold macho_page_size. repeat case_bool_decide; done. }
  intros page Hpage%macho_page_pos. apply (bind_fine (require _ _)); [apply require_fine|intros [] Hb%require_done].
  rewrite negb_true_iff, bool_decide_eq_false in Hb.
  apply (bind_fine (check_layout _ _ _ _ _)); [apply check_layout_fine; lia|intros le Hle].
  assert (Hmg : field 4 hd 0 = MH_MAGIC_64).
  { unfold check_magic in Hmagic. apply done_bind in Hmagic as (magic & Hg%or_crash_done & Hmagic). step Hmagic.
    apply require_done, bool_decide_eq_true in Hmagic. rewrite Hm, get_front in Hg by lia. unfold field. by rewrite Hg. }
  destruct (check_layout_spec macho blob page le hd rest Hm Hs Hhd Hmg) as (cs1 & lk & cs2 & post & C); [lia|done|lia|done|].
  destruct (page_align_spec (len blob) page) as [Hspan _]; [lia|apply len_nonneg|].
  apply (bind_fine (insert_segment _ _ _ _ _ _)); [eapply insert_segment_fine; [pose proof (len_nonneg blob); lia|exact C]|intros mid Hmid].
  destruct (inserted_parts _ _ _ _ _ _ _ _ _ _ _ Hlen Hblob Hne C Hmid)
    as (p & hd' & Hp & Hwf & E1 & E2 & E3 & E4 & -> & Hsm & Hhd' & Hcs & Ha & M0 & M16 & M20 & Hn & _).
  unfold bump_linkedit_offsets. rewrite Hn. apply bind_fine.
  - rewrite <-Hhd' at 3. by apply bump_commands_fine.
  - intros [buf off] _. by apply bind_fine; [apply require_fine|].
Qed.

(** ** A concrete image *)

Module MachOToy.
(** An x86-64 image of one page and a symbol table: [__TEXT] with one section, [LC_SYMTAB], [__LINKEDIT]. *)
Definition text_cmd : rstr := mjoin [
  le_bytes 4 LC_SEGMENT_64; le_bytes 4 152; padded_name "__TEXT"; le_bytes 8 0x100000000; le_bytes 8 4096; le_bytes 8 0; le_bytes 8 4096;
  le_bytes 4 7; le_bytes 4 5; le_bytes 4 1; le_bytes 4 0;
  padded_name "__text"; padded_name "__TEXT"; le_bytes 8 0x100000f00; le_bytes 8 4; le_bytes 4 3840; le_bytes 4 0; le_bytes 4 0; le_bytes 4 0; zeros 16].
Definition symtab_cmd : rstr := mjoin [le_bytes 4 LC_SYMTAB; le_bytes 4 24; le_bytes 4 4096; le_bytes 4 1; le_bytes 4 4100; le_bytes 4 4].
Definition linkedit_cmd : rstr := mjoin [
  le_bytes 4 LC_SEGMENT_64; le_bytes 4 72; padded_name "__LINKEDIT"; le_bytes 8 0x100001000; le_bytes 8 4096; le_bytes 8 4096; le_bytes 8 8;
  le_bytes 4 1; le_bytes 4 1; le_bytes 4 0; le_bytes 4 0].
Definition cmds : rstr := text_cmd ++ symtab_cmd ++ linkedit_cmd.
Definition macho : rstr :=
  mjoin [le_bytes 4 MH_MAGIC_64; le_bytes 4 CPU_TYPE_X86_64; zeros 8; le_bytes 4 3; le_bytes 4 (len cmds); zeros 8] ++ cmds
  ++ zeros (4096 - 32 - length cmds) ++ "SYMSSTRS".
Definition out : rstr := match inject_amber_segment macho SeaToy.blob with Done o => o | _ => [] end.
Lemma injected : inject_amber_segment macho SeaToy.blob = Done out.
Proof. unfold out. by destruct (inject_amber_segment macho SeaToy.blob) eqn:E; [|vm_compute in E..]. Qed.
Lemma sizes : (len macho < 2 ^ 60)%Z ∧ (len SeaToy.blob < 2 ^ 60)%Z ∧ (len SeaToy.script < 2 ^ 59)%Z ∧
  (32 + field 4 macho 20 + AMBER_CMD_SIZE ≤ MACHO_HEADER_READ_LIMIT)%Z.
Proof. by vm_compute. Qed.
(** The symbol table moved, and what it points at with it. *)
Example symtab_moved :
  field 4 out (32 + 152 + 8) = 8192%Z ∧ get out 8192 4 = Some ("SYMS" : rstr) ∧
  field 4 out (32 + 152 + 16) = 8196%Z ∧ get out 8196 4 = Some ("STRS" : rstr) ∧ get out 4096 14 = Some SeaToy.script.
Proof. vm_compute. done. Qed.
(** An empty segment may have any file offset, and [__LINKEDIT] any address behind the others:
    moved by the page of the new segment, 2^64 - 1 becomes 4095 and 2^64 - 4096 becomes 0. *)
Definition far_cmds : rstr :=
  text_cmd
  ++ mjoin [le_bytes 4 LC_SEGMENT_64; le_bytes 4 72; padded_name "__EMPTY"; zeros 16; le_bytes 8 (2 ^ 64 - 1); zeros 8; zeros 16]
  ++ mjoin [le_bytes 4 LC_SEGMENT_64; le_bytes 4 72; padded_name "__LINKEDIT"; le_bytes 8 (2 ^ 64 - 4096); le_bytes 8 4096;
            le_bytes 8 4096; le_bytes 8 8; le_bytes 4 1; le_bytes 4 1; le_bytes 4 0; le_bytes 4 0].
Definition far : rstr :=
  mjoin [le_bytes 4 MH_MAGIC_64; le_bytes 4 CPU_TYPE_X86_64; zeros 8; le_bytes 4 3; le_bytes 4 (len far_cmds); zeros 8]
  ++ far_cmds ++ zeros (4096 - 32 - length far_cmds) ++ "SYMSSTRS".
Example sums_wrap :
  match inject_amber_segment far SeaToy.blob with
  | Done image => field 8 image (32 + 152 + 40) = 4095%Z ∧ field 8 image (32 + 152 + 72 + 152 + 24) = 0%Z
  | _ => False
  end.
Proof. vm_compute. done. Qed.
(** Images that are refused. *)
Example refused_images :
  inject_amber_segment out SeaToy.blob = Failed (compile_error "host runtime already contains an __AMBER segment") ∧
  inject_amber_segment SeaToy.exe SeaToy.blob = Failed (compile_error "host runtime is not a 64-bit Mach-O") ∧
  inject_amber_segment (le_bytes 4 FAT_CIGAM ++ zeros 40) SeaToy.blob
    = Failed (compile_error "universal Mach-O is not supported (amber compile does not rewrite fat binaries)").
Proof. vm_compute. done. Qed.
End MachOToy.

Lemma offsets_follow_contents_witness :
  ∃ p, MachOToy.macho = image p ∧ wf_parts p ∧ length (commands p) = 3.
Proof.
  destruct (offsets_follow_contents MachOToy.macho SeaToy.blob MachOToy.out (proj1 MachOToy.sizes) (proj1 (proj2 MachOToy.sizes)) MachOToy.injected)
    as (p & span & head' & b' & lk' & a' & Hp & Hwf & _). exists p. split; [exact Hp|]. split; [exact Hwf|].
  pose proof (parts_ncmds p Hwf) as Hn. rewrite <-(get_own_head _ (mjoin (commands p) ++ p_pad p ++ p_body p ++ p_rest p) 4 16) in Hn
    by (rewrite ?(parts_head p Hwf); lia). change (field 4 (image p) 16 = Z.of_nat (length (commands p))) in Hn. rewrite <-Hp in Hn.
  assert (field 4 MachOToy.macho 16 = 3%Z) as E by (vm_compute; reflexivity). lia.
Defined.
Lemma macho_round_trip_witness :
  read_standalone_payload (Some (file_of (MachOToy.out ++ "a signature"))) = Done (Some SeaToy.script).
Proof.
  destruct MachOToy.sizes as (H1 & _ & H3 & H4).
  refine (proj2 (macho_round_trip MachOToy.macho SeaToy.script SeaToy.blob MachOToy.out "a signature" H1 H3 _ _ MachOToy.injected) _ H4);
    reflexivity.
Defined.
Lemma injection_never_panics_witness : inject_amber_segment MachOToy.macho SeaToy.blob ≠ Crashed.
Proof. apply (injection_never_panics _ _ (proj1 MachOToy.sizes) (proj1 (proj2 MachOToy.sizes))). Defined.
