(* ===== verification/Compile.v ===== *)
(** * [amber compile], [src/tooling/compiler.rs]

    The command that makes one executable of the runtime and a script: it checks that the
    files the entry reaches can be embedded, bundles them ([Bundler]), copies the running
    executable and puts the bundle into the copy ([Standalone], [MachO]).  The files that are
    read are [Bundler]'s host; the syntax tree oxc visits is the list of its nodes.  What
    happens to the output is a computation over an abstract disk that stops at the first
    error: its operations are those of the operating system and of [codesign], which are
    parameters. *)

From S2P Require Import Prelude RustPath RawPath ImportMap Bytes Standalone MachO Bundler.

Definition EMBEDDABLE_EXTENSIONS : list string := ["js"; "mjs"; "cjs"; "ts"; "tsx"; "mts"; "json"]%string.
Definition EMBEDDABLE_LIST : rstr := "js, mjs, cjs, ts, tsx, mts, or json".

(** What the visitor looks at. *)
Inductive Argument := StringLiteral (value : rstr) | OtherArgument.
Inductive AstKind :=
  | ImportExpression
  | CallExpression (callee : option rstr) (arguments : list Argument)     (* the callee, when it is an identifier *)
  | OtherKind.

(** The result of running [codesign]. *)
Record Output := { o_success : bool; o_status : rstr; o_stdout : rstr; o_stderr : rstr }.
Record CompileHost := {
  c_files : BundleHost;
  c_os : rstr;                                           (* [std::env::consts::OS] *)
  c_current_exe : result pathbuf rstr;
  c_source_type : pathbuf → result unit rstr;            (* [SourceType::from_path] *)
  c_nodes : pathbuf → rstr → list AstKind;               (* the visit of the parsed file, in order *)
}.
Definition failed_with {A} (message : rstr) : result A rstr := Err (compile_error message).

Definition is_amber_executable_name (p : pathbuf) : bool :=
  match pb_file_name p with Some name => bool_decide (name ∈ ["amber" : rstr; "amber.exe" : rstr]) | None => false end.
Definition is_embeddable_file (p : pathbuf) : bool := has_extension p EMBEDDABLE_EXTENSIONS.
Definition is_native_addon_specifier (specifier : rstr) : bool :=
  ends_with ".node" specifier || has_extension specifier ["node"%string].
Definition unsupported_module {A} (p : pathbuf) : result A rstr :=
  failed_with ("unsupported module '" ++ p ++ "' (embedded files must be " ++ EMBEDDABLE_LIST ++ ")").
Definition is_direct_require (callee : option rstr) : bool := bool_decide (callee = Some ("require" : rstr)).
Definition require_arg_is_string_literal (arguments : list Argument) : bool :=
  match arguments with StringLiteral _ :: _ => true | _ => false end.

Record DynamicLoadCheck := { dynamic_import : bool; computed_require : bool }.
Definition enter_node (check : DynamicLoadCheck) (kind : AstKind) : DynamicLoadCheck :=
  if dynamic_import check || computed_require check then check
  else match kind with
       | ImportExpression => {| dynamic_import := true; computed_require := computed_require check |}
       | CallExpression callee arguments =>
           if is_direct_require callee && negb (require_arg_is_string_literal arguments)
           then {| dynamic_import := dynamic_import check; computed_require := true |} else check
       | OtherKind => check
       end.

Section compile.
Context (c : CompileHost).
#[local] Abbreviation h := (c_files c).

Definition runtime_candidate_names : list rstr :=
  if bool_decide (c_os c = "windows") then ["amber.exe" : rstr; "amber" : rstr] else ["amber" : rstr].
Definition resolve_runtime_binary : result pathbuf rstr :=
  match c_current_exe c with
  | Err err => failed_with ("failed to resolve current executable: " ++ err)
  | Ok current_exe =>
      if is_amber_executable_name current_exe then Ok current_exe
      else
        let search_dirs :=
          match pb_parent current_exe with
          | Some parent => parent :: match pb_parent parent with Some grandparent => [grandparent] | None => [] end
          | None => []
          end in
        Ok ((first_file h (dir ← search_dirs; pb_join dir <$> runtime_candidate_names)) .unwrap_or current_exe)
  end.
Definition ensure_supported_host : result unit rstr :=
  if bool_decide (c_os c ∈ ["linux" : rstr; "macos" : rstr; "windows" : rstr]) then Ok tt
  else failed_with ("unsupported host OS '" ++ c_os c
         ++ "' (supported hosts: linux, macos, windows; cross-compilation is not supported)").

(** ** What may be embedded *)

Definition ensure_embeddable (p : pathbuf) : result unit rstr :=
  if b_is_file h p && is_embeddable_file p then Ok tt else unsupported_module p.
Definition native_addon {A} (specifier : rstr) (from : pathbuf) : result A rstr :=
  failed_with ("native addon '" ++ specifier ++ "' is not embedded (imported by " ++ from ++ ")").
Definition embeddable_dep (from : pathbuf) (specifier resolved : rstr) : result (option pathbuf) rstr :=
  if is_native_addon_specifier resolved then native_addon specifier from
  else _ ← ensure_embeddable resolved; Ok (Some resolved).
Definition classify_specifier (from : pathbuf) (specifier : rstr) : result (option pathbuf) rstr :=
  if is_native_addon_specifier specifier then native_addon specifier from
  else if pb_is_absolute specifier
  then failed_with ("absolute module specifiers are not embedded ('" ++ specifier ++ "' imported by " ++ from ++ ")")
  else match resolve_module_path h from specifier with
       | Some resolved => embeddable_dep from specifier resolved
       | None => if starts_with "." specifier then failed_with ("cannot resolve '" ++ specifier ++ "' from " ++ from) else Ok None
       end.
Definition reject_dynamic_loads (p : pathbuf) (source : rstr) : result unit rstr :=
  if has_extension p ["json"%string] then Ok tt
  else
    _ ← (match c_source_type c p with Ok _ => Ok tt | Err err => failed_with ("unsupported module '" ++ p ++ "': " ++ err) end);
    let check := fold_left enter_node (c_nodes c p source) {| dynamic_import := false; computed_require := false |} in
    if dynamic_import check then failed_with ("dynamic import() is not embedded (in " ++ p ++ ")")
    else if computed_require check then failed_with ("computed require() is not embedded (in " ++ p ++ ")")
    else Ok tt.
(** The specifiers of one file, in order, and the files they name. *)
Fixpoint classify_all (from : pathbuf) (specifiers : list rstr) : result (list pathbuf) rstr :=
  match specifiers with
  | [] => Ok []
  | specifier :: l =>
      next ← classify_specifier from specifier;
      rest ← classify_all from l;
      Ok (match next with Some p => p :: rest | None => rest end)
  end.
Definition preflight_file (p : pathbuf) : result (list pathbuf) rstr :=
  source ← (match b_read h p with Ok s => Ok s | Err err => failed_with ("failed to read '" ++ p ++ "': " ++ err) end);
  _ ← reject_dynamic_loads p source;
  if has_extension p ["json"%string] then Ok [] else classify_all p (scan_import_specifiers h source).
(** The loop over the stack of files, whose top is the head; [visited] holds canonical paths. *)
Fixpoint preflight_walk (fuel : nat) (visited : gset path) (queue : list pathbuf) : option (result unit rstr) :=
  match fuel with
  | 0 => None
  | S fuel =>
      match queue with
      | [] => Some (Ok tt)
      | current :: queue =>
          if bool_decide (canonical h current ∈ visited) then preflight_walk fuel visited queue
          else match preflight_file current with
               | Err e => Some (Err e)
               | Ok deps => preflight_walk fuel ({[canonical h current]} ∪ visited) (reverse deps ++ queue)
               end
      end
  end.
Definition preflight_embeddable (fuel : nat) (entry : pathbuf) : option (result unit rstr) :=
  if negb (b_exists h entry) then Some (failed_with ("entry file not found: " ++ entry))
  else if negb (b_is_file h entry) then Some (failed_with ("entry must be a file: " ++ entry))
  else match ensure_embeddable entry with
       | Err e => Some (Err e)
       | Ok _ => preflight_walk fuel ∅ [entry]
       end.
Definition same_file (p q : pathbuf) : bool :=
  bool_decide (components p = components q) ||
  match b_canonicalize h p, b_canonicalize h q with
  | Some p, Some q => bool_decide (components p = components q)
  | _, _ => false
  end.

(** ** The output *)

Section disk.
Context {D : Type}.
(** A computation over the disk. *)
Definition Io (A : Type) : Type := D → result A rstr * D.
#[export] Instance Io_ret : MRet Io := λ A a s, (Ok a, s).
#[export] Instance Io_bind : MBind Io := λ A B f m s,
  match m s with (Ok a, s) => f a s | (Err e, s) => (Err e, s) end.
Record Disk := {
  d_exists : pathbuf → D → bool;
  d_is_dir : pathbuf → D → bool;
  d_open : pathbuf → D → option SeaFile;
  d_create_dir_all : pathbuf → Io unit;
  d_copy : pathbuf → pathbuf → Io unit;
  d_append : pathbuf → rstr → Io unit;               (* open for append, [write_all], [flush] *)
  d_read : pathbuf → Io rstr;
  d_write : pathbuf → rstr → Io unit;
  d_metadata : pathbuf → Io unit;
  d_set_permissions : pathbuf → Z → Io unit;
  d_remove_file : pathbuf → Io unit;
  d_codesign : list rstr → pathbuf → Io Output;
}.
Context (d : Disk).
Definition throw {A} (message : rstr) : Io A := λ s, (failed_with message, s).
Definition map_err {A} (f : rstr → rstr) (m : Io A) : Io A := λ s,
  match m s with (Err e, s) => (Err (compile_error (f e)), s) | r => r end.
(** The Mach-O routines inside the disk's monad. They do not panic (MachOTheorems), so what stands for a
    panic is never reached. *)
Definition lift {A} (m : outcome A) : Io A := λ s,
  match m with Done a => (Ok a, s) | Failed e => (Err e, s) | Crashed => (Err [], s) end.

Definition to_ascii_lowercase : rstr → rstr := to_lowercase.
Definition remove_macos_signature (output_path : pathbuf) : Io unit :=
  output ← map_err (λ err, "macOS codesign failed to start for '" ++ output_path ++ "': " ++ err)
             (d_codesign d ["--remove-signature" : rstr] output_path);
  if o_success output then mret tt
  else if contains "not signed" (to_ascii_lowercase (o_stderr output)) then mret tt
  else
    let detail := trim (o_stderr output) in
    let detail := if bool_decide (detail = []) then "exit status " ++ o_status output else detail in
    throw ("macOS codesign --remove-signature failed for '" ++ output_path ++ "': " ++ detail).
Definition sign_macos_adhoc (output_path : pathbuf) : Io unit :=
  output ← map_err (λ err, "macOS codesign failed to start for '" ++ output_path ++ "': " ++ err)
             (d_codesign d ["--sign" : rstr; "-" : rstr; "--force" : rstr] output_path);
  if o_success output then mret tt
  else
    let detail := trim (o_stderr output) in
    let detail :=
      if bool_decide (trim (o_stdout output) = []) then detail
      else (if bool_decide (detail = []) then detail else detail ++ [newline]) ++ trim (o_stdout output) in
    let detail := if bool_decide (detail = []) then "exit status " ++ o_status output else detail in
    throw ("macOS codesign failed for '" ++ output_path ++ "': " ++ detail).
Definition mark_executable (output_path : pathbuf) : Io unit :=
  if bool_decide (c_os c = "windows") then mret tt
  else
    let failed := λ err, "failed to mark '" ++ output_path ++ "' executable: " ++ err in
    _ ← map_err failed (d_metadata d output_path);
    map_err failed (d_set_permissions d output_path (7 * 64 + 5 * 8 + 5)%Z). (* 0o755 *)
Definition append_trailer_bytes (output_path : pathbuf) (blob : rstr) : Io unit :=
  map_err (λ err, "failed to write trailer at '" ++ output_path ++ "': " ++ err) (d_append d output_path blob).
Definition embed_blob (output_path : pathbuf) (blob : rstr) : Io unit :=
  if bool_decide (c_os c = "macos") then
    _ ← remove_macos_signature output_path;
    bytes ← map_err (λ err, "failed to read host binary '" ++ output_path ++ "': " ++ err) (d_read d output_path);
    injected ← lift (inject_amber_segment bytes blob);
    map_err (λ err, "failed to write trailer at '" ++ output_path ++ "': " ++ err) (d_write d output_path injected)
  else append_trailer_bytes output_path blob.
(** The new executable is read back the way it will read itself. *)
Definition read_back (output_path : pathbuf) : Io unit := λ s,
  match read_standalone_payload (d_open d output_path s) with
  | Done (Some _) => (Ok tt, s)
  | Done None => (failed_with ("internal error: '" ++ output_path ++ "' has no readable AMBER_STANDALONE trailer after write"), s)
  | Failed err => (failed_with ("internal error: trailer check failed for '" ++ output_path ++ "': " ++ err), s)
  | Crashed => (Err [], s)
  end.
Definition write_trailer (output_path : pathbuf) (payload : rstr) : Io unit :=
  blob ← lift (trailer_blob payload);
  _ ← embed_blob output_path blob;
  _ ← mark_executable output_path;
  _ ← (if bool_decide (c_os c = "macos") then sign_macos_adhoc output_path else mret tt);
  read_back output_path.
Definition create_parent (output_path : pathbuf) : Io unit := λ s,
  match pb_parent output_path with
  | Some parent =>
      if negb (bool_decide (parent = [])) && negb (d_exists d parent s)
      then map_err (λ err, "failed to create output directory '" ++ parent ++ "': " ++ err) (d_create_dir_all d parent) s
      else (Ok tt, s)
  | None => (Ok tt, s)
  end.
(** The copy is removed when its trailer cannot be written. *)
Definition or_remove (output_path : pathbuf) (m : Io unit) : Io unit := λ s,
  match m s with (Err err, s) => (Err err, (d_remove_file d output_path s).2) | r => r end.
Definition embed_payload (runtime_binary output_path : pathbuf) (payload : rstr) : Io unit :=
  _ ← create_parent output_path;
  _ ← map_err (λ err, "failed to create binary at '" ++ output_path ++ "': " ++ err) (d_copy d runtime_binary output_path);
  or_remove output_path (write_trailer output_path payload).
Definition bundle_opts (entry_file : pathbuf) : BundleOptions :=
  {| entry := entry_file; outfile := None; minify := false; sourcemap := false; target := "es2022"; import_map := None |}.
(** Everything before the output is touched: the runtime to copy and the script. *)
Definition prepare_binary (fuel : nat) (entry_file output_path : pathbuf) (is_dir : bool) : option (result (pathbuf * rstr) rstr) :=
  match ensure_supported_host with
  | Err e => Some (Err e)
  | Ok _ =>
      r ← preflight_embeddable fuel entry_file;
      match r with
      | Err e => Some (Err e)
      | Ok _ =>
          match resolve_runtime_binary with
          | Err e => Some (Err e)
          | Ok runtime_binary =>
              if is_dir then Some (failed_with ("output path is a directory: " ++ output_path))
              else if same_file output_path runtime_binary
              then Some (failed_with ("refusing to overwrite the Amber runtime binary: " ++ output_path))
              else
                r ← bundle_project h fuel (bundle_opts entry_file);
                Some (match r.2 with
                      | Ok o => Ok (runtime_binary, out_code o)
                      | Err err => failed_with ("bundle failed: " ++ err)
                      end)
          end
      end
  end.
(** [None]: the fuel of the two walks was not enough. *)
Definition compile_binary (fuel : nat) (entry_file output_path : pathbuf) (s : D) : option (result unit rstr * D) :=
  r ← prepare_binary fuel entry_file output_path (d_is_dir d output_path s);
  Some match r with
       | Err e => (Err e, s)
       | Ok (runtime_binary, code) => embed_payload runtime_binary output_path code s
       end.
End disk.
End compile.
Arguments Disk : clear implicits.
Arguments Io : clear implicits.
