(* ===== verification/CompileTheorems.v ===== *)
(** * Theorems on [amber compile]

    What the check of the module graph guarantees of every file that is bundled; what is in the
    executable after a compile that succeeded, and that starting it finds the bundle; and what a
    compile that failed leaves behind. *)

From S2P Require Import Prelude RustPath RawPath ImportMap Bytes Standalone StandaloneTheorems MachO MachOTheorems Bundler BundlerTheorems Compile.

(** ** The check of the module graph *)

Section preflight.
Context (c : CompileHost).
#[local] Abbreviation h := (c_files c).

(** A file that may be embedded, and one whose loads are all static. *)
Definition embeddable (p : pathbuf) : Prop := b_is_file h p = true ∧ is_embeddable_file p = true.
Definition static_loads (p : pathbuf) : Prop :=
  ∃ source, b_read h p = Ok source ∧ reject_dynamic_loads c p source = Ok tt.
Definition is_json (p : pathbuf) : bool := has_extension p ["json"%string].

Lemma ensure_embeddable_ok p : ensure_embeddable c p = Ok tt → embeddable p.
Proof. unfold ensure_embeddable, embeddable. destruct (_ && _) eqn:E; [|done]. by apply andb_true_iff in E. Qed.
(** What the check lets through is what the bundler resolves. *)
Lemma classify_agrees from s next dep :
  classify_specifier c from s = Ok next → resolve_bundle_dep h None from s = Ok dep →
  next = dep ∧ ∀ q, next = Some q → embeddable q.
Proof.
  unfold classify_specifier, embeddable_dep, resolve_bundle_dep. cbn [mbind option_bind default from_option].
  destruct (is_native_addon_specifier s); [done|]. destruct (pb_is_absolute s); [done|].
  destruct (resolve_module_path h from s) as [r|].
  - destruct (is_native_addon_specifier r); [done|]. destruct (ensure_embeddable c r) as [[]|] eqn:Ee; [|done].
    destruct (negb _); [done|]. intros [= <-] [= <-]. split; [done|]. intros q [= <-]. by apply ensure_embeddable_ok.
  - destruct (starts_with "." s); [done|]. destruct (_ || _); [done|]. intros [= <-] [= <-]. done.
Qed.
Lemma classify_all_agrees from l next deps :
  classify_all c from l = Ok next → dependencies h None from l = Ok deps → next = deps.*2 ∧ ∀ q, q ∈ next → embeddable q.
Proof.
  revert next deps. induction l as [|s l IH]; intros next deps Hn Hd; simpl in Hn, Hd.
  - simplify_eq. split; [done|]. intros q Hq. by apply elem_of_nil in Hq.
  - destruct (classify_specifier c from s) as [n|] eqn:Es; [|done]. destruct (resolve_bundle_dep h None from s) as [dep|] eqn:Er; [|done].
    simpl in Hn, Hd. destruct (classify_all c from l) as [ns|] eqn:El; [|done]. destruct (dependencies h None from l) as [ds|] eqn:Ed; [|done].
    simpl in Hn, Hd. simplify_eq. destruct (classify_agrees _ _ _ _ Es Er) as [-> He]. destruct (IH _ _ eq_refl eq_refl) as [-> Hq].
    destruct dep as [q|]; [|done]. split; [done|]. intros q' [-> |?]%elem_of_cons; [by apply He|by apply Hq].
Qed.
Lemma classify_file from s q : classify_specifier c from s = Ok (Some q) → embeddable q.
Proof.
  unfold classify_specifier, embeddable_dep. destruct (is_native_addon_specifier s); [done|]. destruct (pb_is_absolute s); [done|].
  destruct (resolve_module_path h from s) as [r|]; [|by destruct (starts_with "." s)].
  destruct (is_native_addon_specifier r); [done|]. destruct (ensure_embeddable c r) as [[]|] eqn:Ee; [|done].
  intros [= <-]. by apply ensure_embeddable_ok.
Qed.
Lemma classify_all_files from l deps : classify_all c from l = Ok deps → ∀ q, q ∈ deps → b_is_file h q = true.
Proof.
  revert deps. induction l as [|s l IH]; intros deps Hd q Hq; simpl in Hd; [simplify_eq; by apply elem_of_nil in Hq|].
  destruct (classify_specifier c from s) as [n|] eqn:Es; [|done]. simpl in Hd.
  destruct (classify_all c from l) as [ns|] eqn:El; [|done]. simpl in Hd. simplify_eq.
  assert (Hns : q ∈ ns → b_is_file h q = true) by (intros ?; by apply (IH ns)).
  destruct n as [p|]; [|by apply Hns]. apply elem_of_cons in Hq as [-> |Hq]; [|by apply Hns].
  by apply classify_file in Es as [? _].
Qed.
Lemma preflight_file_agrees p next deps :
  (is_json p = true → deps = []) → preflight_file c p = Ok next → module_dependencies h None p = Ok deps →
  static_loads p ∧ next = deps.*2 ∧ ∀ q, q ∈ next → embeddable q.
Proof.
  intros Hj. unfold preflight_file, module_dependencies, read_module, static_loads. destruct (b_read h p) as [source|]; [|done]. simpl.
  destruct (reject_dynamic_loads c p source) as [[]|] eqn:Er; [|done]. simpl. intros Hn Hd. split; [by exists source|].
  unfold is_json in Hj. destruct (has_extension p _); [|by eapply classify_all_agrees].
  simplify_eq. rewrite (Hj eq_refl). split; [done|]. intros q Hq. by apply elem_of_nil in Hq.
Qed.

(** *** The two walks visit the same files *)

Definition unseen (visited : gset path) (queue : list pathbuf) : list pathbuf := filter (λ q, canonical h q ∉ visited) queue.
Lemma unseen_app v l k : unseen v (l ++ k) = unseen v l ++ unseen v k.
Proof. apply filter_app. Qed.
Lemma unseen_reverse v l : unseen v (reverse l) = reverse (unseen v l).
Proof.
  induction l as [|q l IH]; [done|]. rewrite reverse_cons, unseen_app, IH. unfold unseen at 2 3. rewrite filter_cons.
  rewrite filter_cons, filter_nil. destruct (decide (canonical h q ∉ v)); [by rewrite reverse_cons|by rewrite app_nil_r].
Qed.
Lemma unseen_more v v' l : v ⊆ v' → unseen v' (unseen v l) = unseen v' l.
Proof.
  intros Hv. induction l as [|q l IH]; [done|]. unfold unseen in *. rewrite !filter_cons. destruct (decide (canonical h q ∉ v)).
  - rewrite filter_cons. destruct (decide (canonical h q ∉ v')); by rewrite IH.
  - rewrite IH. by rewrite decide_False by set_solver.
Qed.
Definition checked (p : pathbuf) : Prop := embeddable p ∧ static_loads p.
(** What the walk has taken up it keeps. *)
Lemma walk_keeps fuel queue g g' p : p ∈ modules g → walk h fuel None queue g = Some (Ok g') → p ∈ modules g'.
Proof.
  revert queue g. induction fuel as [|fuel IH]; intros queue g Hp Hw; [done|]. cbn [walk] in Hw.
  destruct queue as [|q queue]; [by simplify_eq|]. case_bool_decide; [by eapply IH|].
  destruct (module_dependencies h None q); [|done]. eapply IH; [|exact Hw]. simpl. apply elem_of_app. by left.
Qed.
Lemma walks_agree fp fb visited qp qb g g' :
  (∀ p deps, p ∈ modules g' → is_json p = true → module_dependencies h None p = Ok deps → deps = []) →
  visited = dom (path_to_id g) → unseen visited qp = unseen visited qb → (∀ q, q ∈ qp → embeddable q) → Forall checked (modules g) →
  preflight_walk c fp visited qp = Some (Ok tt) → walk h fb None qb g = Some (Ok g') → Forall checked (modules g').
Proof.
  intros Hj. remember (fp + fb) as n eqn:Hn. revert fp fb visited qp qb g Hn.
  induction n as [n IH] using lt_wf_ind. intros fp fb visited qp qb g -> Hv Hq Hemb Hg Hp Hb.
  destruct fb as [|fb]; [done|]. destruct qb as [|b qb]; [by simpl in Hb; simplify_eq|].
  destruct fp as [|fp]; [done|].
  assert (Hin : is_Some (path_to_id g !! canonical h b) ↔ canonical h b ∈ visited) by (by rewrite Hv, elem_of_dom).
  cbn [walk] in Hb. case_bool_decide as Hbv.
  { apply (IH (S fp + fb) ltac:(lia) (S fp) fb visited qp qb g); try done. rewrite Hq. unfold unseen. rewrite filter_cons.
    rewrite decide_False by (intros Hno; by apply Hno, Hin). done. }
  assert (Hbn : canonical h b ∉ visited) by (intros Hin'; by apply Hbv, Hin). unfold unseen in Hq at 2.
  rewrite filter_cons, decide_True in Hq by done. fold (unseen visited qb) in Hq.
  destruct qp as [|p qp]; [done|]. cbn [preflight_walk] in Hp. case_bool_decide as Hpv.
  { apply (IH (fp + S fb) ltac:(lia) fp (S fb) visited qp (b :: qb) g); try done.
    - unfold unseen in Hq at 1. rewrite filter_cons, decide_False in Hq by (intros Hno; by apply Hno). fold (unseen visited qp) in Hq.
      rewrite Hq. unfold unseen. by rewrite filter_cons, decide_True by done.
    - intros q Hq'. apply Hemb. by right.
    - cbn [walk]. by rewrite bool_decide_eq_false_2 by done. }
  unfold unseen in Hq at 1. rewrite filter_cons, decide_True in Hq by done. fold (unseen visited qp) in Hq. injection Hq as -> Hq.
  destruct (preflight_file c b) as [next|] eqn:Ep; [|done]. destruct (module_dependencies h None b) as [deps|] eqn:Ed; [|done].
  assert (b ∈ modules g') as Hbg by (eapply walk_keeps, Hb; simpl; apply elem_of_app; right; left).
  destruct (preflight_file_agrees b next deps (λ Hjb, Hj b deps Hbg Hjb Ed) Ep Ed) as (Hst & -> & He).
  set (g1 := {| modules := modules g ++ [b]; path_to_id := _ |}) in *.
  apply (IH (fp + fb) ltac:(lia) fp fb ({[canonical h b]} ∪ visited) (reverse deps.*2 ++ qp) (reverse (filter (λ q, path_to_id g1 !! canonical h q = None) deps.*2) ++ qb) g1); try done.
  - unfold g1. simpl. rewrite dom_insert_L. by rewrite Hv.
  - rewrite !unseen_app, !unseen_reverse. f_equal.
    + f_equal. assert (E : filter (λ q, path_to_id g1 !! canonical h q = None) deps.*2 = unseen ({[canonical h b]} ∪ visited) deps.*2).
      { unfold unseen. apply list_filter_iff. intros q. unfold g1. simpl. rewrite <-not_elem_of_dom, dom_insert_L, <-Hv. done. }
      rewrite E. by rewrite unseen_more.
    + rewrite <-(unseen_more visited _ qp), <-(unseen_more visited _ qb) by set_solver. by rewrite Hq.
  - intros q [Hq'|Hq']%elem_of_app; [by apply He, elem_of_reverse|apply Hemb; by right].
  - unfold g1. simpl. apply Forall_app. split; [done|]. apply Forall_singleton. split; [apply Hemb; left|done].
Qed.

(** *** The check ends *)

Definition pre_depends (p q : pathbuf) : Prop := ∃ deps, preflight_file c p = Ok deps ∧ q ∈ deps.
Lemma preflight_total (U : gset path) :
  (∀ p q, canonical h p ∈ U → pre_depends p q → canonical h q ∈ U) →
  ∀ n visited queue, size (U ∖ visited) = n → (∀ q, q ∈ queue → canonical h q ∈ U) →
  ∃ fuel, ∀ fuel', fuel ≤ fuel' → is_Some (preflight_walk c fuel' visited queue).
Proof.
  intros Hdep. induction n as [n IHn] using lt_wf_ind. intros visited queue Hn. induction queue as [|p queue IHq]; intros Hq.
  { exists 1. intros [|f] ?; [lia|]. simpl. eauto. }
  destruct (decide (canonical h p ∈ visited)) as [Hp|Hp].
  { destruct IHq as [fuel Hf]; [intros; apply Hq; by right|]. exists (S fuel). intros [|f] Hle; [lia|]. simpl.
    rewrite bool_decide_eq_true_2 by done. apply Hf. lia. }
  destruct (preflight_file c p) as [deps|e] eqn:Ed.
  2:{ exists 1. intros [|f] Hle; [lia|]. simpl. rewrite bool_decide_eq_false_2, Ed by done. eauto. }
  destruct (IHn (size (U ∖ ({[canonical h p]} ∪ visited)))) with (visited := {[canonical h p]} ∪ visited) (queue := reverse deps ++ queue)
    as [fuel Hf]; [|done| |].
  - rewrite <-Hn. apply subset_size. assert (canonical h p ∈ U) by (apply Hq; left). set_solver.
  - intros q [Hin|Hin]%elem_of_app; [rewrite elem_of_reverse in Hin|apply Hq; by right]. apply (Hdep p); [apply Hq; left|by exists deps].
  - exists (S fuel). intros [|f] Hle; [lia|]. simpl. rewrite bool_decide_eq_false_2, Ed by done. apply Hf. lia.
Qed.
End preflight.

(** ** The output *)

(** What the operations on files are documented to do.  [alias p q]: the two paths name one
    file, as hard links do; a copy of a file onto itself is documented to truncate it. *)
Record disk_laws {D} (d : Disk D) (alias : pathbuf → pathbuf → Prop) : Prop := {
  law_create : ∀ q p s r s' f, d_create_dir_all d q s = (r, s') → d_open d p s = Some f → d_open d p s' = Some f;
  law_copy : ∀ src dst s s', ¬ alias src dst → d_copy d src dst s = (Ok tt, s') →
    ∃ bytes, d_open d src s = Some (file_of bytes) ∧ d_open d dst s' = Some (file_of bytes);
  law_append : ∀ p t s s' bytes, d_append d p t s = (Ok tt, s') → d_open d p s = Some (file_of bytes) →
    d_open d p s' = Some (file_of (bytes ++ t));
  law_metadata : ∀ p s r s', d_metadata d p s = (r, s') → d_open d p s' = d_open d p s;
  law_permissions : ∀ p m s r s', d_set_permissions d p m s = (r, s') → d_open d p s' = d_open d p s;
}.
(** What they leave alone, whether they fail or not: directories that are made do not hide a
    file, and an operation on [q] changes no file that [q] is not a name of. *)
Definition keeps {D} (d : Disk D) (alias : pathbuf → pathbuf → Prop) (q : pathbuf) (s s' : D) : Prop :=
  ∀ p f, ¬ alias p q → d_open d p s = Some f → d_open d p s' = Some f.
Record frame_laws {D} (d : Disk D) (alias : pathbuf → pathbuf → Prop) : Prop := {
  frame_create : ∀ q p s r s' f, d_create_dir_all d q s = (r, s') → d_open d p s = Some f → d_open d p s' = Some f;
  frame_copy : ∀ src q s r s', d_copy d src q s = (r, s') → keeps d alias q s s';
  frame_append : ∀ q t s r s', d_append d q t s = (r, s') → keeps d alias q s s';
  frame_read : ∀ q s r s', d_read d q s = (r, s') → keeps d alias q s s';
  frame_write : ∀ q t s r s', d_write d q t s = (r, s') → keeps d alias q s s';
  frame_metadata : ∀ q s r s', d_metadata d q s = (r, s') → keeps d alias q s s';
  frame_permissions : ∀ q m s r s', d_set_permissions d q m s = (r, s') → keeps d alias q s s';
  frame_codesign : ∀ l q s r s', d_codesign d l q s = (r, s') → keeps d alias q s s';
  frame_remove : ∀ q s r s', d_remove_file d q s = (r, s') → keeps d alias q s s';
  remove_removes : ∀ q s s', d_remove_file d q s = (Ok tt, s') → d_open d q s' = None;
}.
Lemma io_bind_ok {D A B} (m : Io D A) (f : A → Io D B) s b s' :
  (m ≫= f) s = (Ok b, s') → ∃ a s1, m s = (Ok a, s1) ∧ f a s1 = (Ok b, s').
Proof. unfold mbind, Io_bind. destruct (m s) as [[a|e] s1]; [eauto|done]. Qed.
Lemma io_bind_err {D A B} (m : Io D A) (f : A → Io D B) s e s' :
  (m ≫= f) s = (Err e, s') → m s = (Err e, s') ∨ ∃ a s1, m s = (Ok a, s1) ∧ f a s1 = (Err e, s').
Proof. unfold mbind, Io_bind. destruct (m s) as [[a|e1] s1]; [eauto|]. intros [= <- <-]. by left. Qed.
Lemma map_err_ok {D A} f (m : Io D A) s a s' : map_err f m s = (Ok a, s') → m s = (Ok a, s').
Proof. unfold map_err. by destruct (m s) as [[]]. Qed.
Lemma map_err_err {D A} f (m : Io D A) s e s' : map_err f m s = (Err e, s') → ∃ e', e = compile_error (f e') ∧ m s = (Err e', s').
Proof. unfold map_err. destruct (m s) as [[|e'] s1]; [done|]. intros [= <- <-]. eauto. Qed.
Lemma file_of_inj b1 b2 : file_of b1 = file_of b2 → b1 = b2.
Proof.
  intros H. assert (Hr : ∀ a n, get b1 a n = get b2 a n) by (intros; by injection H as _ ->).
  assert (Hl : len b1 = len b2) by (by injection H). pose proof (Hr 0%Z (len b1)) as E.
  rewrite <-(app_nil_r b1) in E at 1. rewrite get_0_app in E by done. rewrite Hl in E.
  rewrite <-(app_nil_r b2) in E at 1. rewrite get_0_app in E by done. by simplify_eq.
Qed.

Section output.
Context (c : CompileHost) {D : Type} (d : Disk D) (alias : pathbuf → pathbuf → Prop).

Lemma mark_executable_keeps p s s' : disk_laws d alias → mark_executable c d p s = (Ok tt, s') → d_open d p s' = d_open d p s.
Proof.
  intros L. unfold mark_executable. case_bool_decide; [by intros [= <-]|]. intros ([] & s1 & H1%map_err_ok & H2%map_err_ok)%io_bind_ok.
  rewrite (law_permissions d alias L _ _ _ _ _ H2). by rewrite (law_metadata d alias L _ _ _ _ H1).
Qed.
(** The image an appended script makes, read back. *)
Lemma appended_read_back host code p :
  small (host ++ code ++ trailer (len code)) → (4 ≤ len host)%Z → field 4 host 0 ≠ MH_MAGIC_64 →
  read_standalone_payload (Some (file_of (host ++ code ++ trailer (len code)))) = Done (Some p) → p = code.
Proof.
  intros Hs H4 Hm Hr. apply (proj1 (appended_spec _ p Hs ltac:(by rewrite get_own_head by lia))) in Hr as (Hp & _ & host' & blob & Hb & Heq).
  apply trailer_blob_spec in Hb as (_ & Hpl & ->).
  assert (Hlen : len code = len p ∧ host ++ code = host' ++ p).
  { rewrite (app_assoc host), (app_assoc host') in Heq. apply app_inj_2 in Heq as [Heq Ht].
    2:{ apply Nat2Z.inj. change (len (trailer (len code)) = len (trailer (len p))). by rewrite !len_trailer. }
    split; [|done]. unfold trailer in Ht. apply app_inj_1 in Ht as [Ht _]; [|by rewrite !length_le_bytes].
    apply (f_equal from_le_bytes) in Ht. unfold U64_MOD in Hpl. unfold small in Hs. rewrite (len_app host), (len_app code), len_trailer in Hs.
    pose proof (len_nonneg host). pose proof (len_nonneg code). pose proof (len_nonneg p).
    by rewrite !(from_le_le_bytes 8) in Ht by lia. }
  destruct Hlen as [Hl Heq']. apply app_inj_2 in Heq' as [_ ?]; [done|]. unfold len in Hl. lia.
Qed.
End output.

(** ** Errors of [amber compile] carry its prefix *)

Definition prefixed (e : rstr) : Prop := starts_with COMPILE_ERROR_PREFIX e = true.
Lemma compile_error_prefixed m : prefixed (compile_error m).
Proof. apply starts_with_spec. by eexists. Qed.
Definition says {A} (m : outcome A) : Prop := match m with Failed e => prefixed e | _ => True end.
Lemma says_bind {A B} (m : outcome A) (f : A → outcome B) : says m → (∀ a, says (f a)) → says (m ≫= f).
Proof. destruct m; simpl; auto. Qed.
Lemma says_failed {A} m : says (failed m : outcome A).
Proof. apply compile_error_prefixed. Qed.
Lemma says_require b m : says (require b m).
Proof. destruct b; [done|apply compile_error_prefixed]. Qed.
Lemma says_or_crash {A} (o : option A) : says (or_crash o).
Proof. by destruct o. Qed.
Lemma says_read w s a : says (read_le_at w s a).
Proof. unfold read_le_at. case_bool_decide; [apply compile_error_prefixed|]. destruct (get s a w); [done|apply compile_error_prefixed]. Qed.
Create HintDb says.
#[local] Hint Resolve says_failed says_require says_or_crash says_read compile_error_prefixed : says.
(** Walks through a computation, branch by branch. *)
Ltac says_walk :=
  repeat first
    [ progress intros | exact I | solve [eauto with says nocore]
    | apply says_bind | case_match | apply says_read ].
Lemma says_bump_u32 s a t n : says (bump_u32 s a t n).
Proof. unfold bump_u32. says_walk. Qed.
Lemma says_bump_u64 s a t n : says (bump_u64_fileoff s a t n).
Proof. unfold bump_u64_fileoff. says_walk. Qed.
#[local] Hint Resolve says_bump_u32 says_bump_u64 : says.
Lemma says_bump_fields ks s t n : says (bump_fields ks s t n).
Proof. revert s. induction ks; intros s; cbn [bump_fields]; says_walk. Qed.
Lemma says_bump_sections m s k t n : says (bump_sections m s k t n).
Proof. revert s k. induction m; intros s k; cbn [bump_sections]; says_walk. Qed.
#[local] Hint Resolve says_bump_fields says_bump_sections : says.
Lemma says_bump_command s o cmd size t n : says (bump_command s o cmd size t n).
Proof. unfold bump_command. says_walk. Qed.
#[local] Hint Resolve says_bump_command : says.
Lemma says_bump_commands m s he o t n : says (bump_commands m s he o t n).
Proof. revert s o. induction m; intros s o; cbn [bump_commands]; says_walk. Qed.
Lemma says_scan_sections m s k l : says (scan_sections m s k l).
Proof. revert k l. induction m; intros k l; cbn [scan_sections]; says_walk. Qed.
#[local] Hint Resolve says_bump_commands says_scan_sections : says.
Lemma says_scan_segment s o size l : says (scan_segment s o size l).
Proof. unfold scan_segment. says_walk. Qed.
#[local] Hint Resolve says_scan_segment : says.
Lemma says_scan_commands m s he o l : says (scan_commands m s he o l).
Proof. revert o l. induction m; intros o l; cbn [scan_commands]; says_walk. Qed.
Lemma says_check_order m s o fo : says (check_order m s o fo).
Proof. revert o. induction m; intros o; cbn [check_order]; says_walk. Qed.
#[local] Hint Resolve says_scan_commands says_check_order : says.
Lemma says_inject macho blob : says (inject_amber_segment macho blob).
Proof.
  unfold inject_amber_segment, check_magic, macho_page_size, check_layout, insert_segment, bump_linkedit_offsets, or_fail.
  says_walk; apply compile_error_prefixed.
Qed.
Lemma says_trailer_blob s : says (trailer_blob s).
Proof. unfold trailer_blob. says_walk. Qed.

(** The checks before the output is touched. *)
Definition tells {A} (r : result A rstr) : Prop := match r with Ok _ => True | Err e => prefixed e end.
Lemma tells_bind {A B} (r : result A rstr) (f : A → result B rstr) : tells r → (∀ a, tells (f a)) → tells (r ≫= f).
Proof. destruct r; simpl; auto. Qed.
Lemma tells_failed {A} m : tells (failed_with m : result A rstr).
Proof. apply compile_error_prefixed. Qed.
Section checks.
Context (c : CompileHost).
Lemma tells_embeddable p : tells (ensure_embeddable c p).
Proof. unfold ensure_embeddable. case_match; [done|apply tells_failed]. Qed.
Lemma tells_classify from s : tells (classify_specifier c from s).
Proof.
  unfold classify_specifier, embeddable_dep, native_addon. repeat case_match; try apply tells_failed; try done.
  apply tells_bind; [apply tells_embeddable|done].
Qed.
Lemma tells_classify_all from l : tells (classify_all c from l).
Proof.
  induction l as [|s l IH]; [done|]. cbn [classify_all]. apply tells_bind; [apply tells_classify|intros next].
  apply tells_bind; [done|done].
Qed.
Lemma tells_preflight_file p : tells (preflight_file c p).
Proof.
  unfold preflight_file. apply tells_bind; [case_match; [done|apply tells_failed]|intros source]. apply tells_bind.
  - unfold reject_dynamic_loads. case_match; [done|]. apply tells_bind; [case_match; [done|apply tells_failed]|intros _].
    repeat case_match; try apply tells_failed; done.
  - intros _. case_match; [done|apply tells_classify_all].
Qed.
Lemma tells_preflight fuel entry r : preflight_embeddable c fuel entry = Some r → tells r.
Proof.
  unfold preflight_embeddable. case_match; [intros [= <-]; apply tells_failed|]. case_match; [intros [= <-]; apply tells_failed|].
  pose proof (tells_embeddable entry) as He. destruct (ensure_embeddable c entry) as [|e]; [|by intros [= <-]]. generalize (∅ : gset path), [entry].
  induction fuel as [|fuel IH]; intros visited queue; [done|]. cbn [preflight_walk]. destruct queue as [|p queue]; [by intros [= <-]|].
  case_bool_decide; [apply IH|]. pose proof (tells_preflight_file p) as Hp. destruct (preflight_file c p) as [deps|e]; [apply IH|by intros [= <-]].
Qed.
Lemma prepare_binary_spec fuel entry_file output_path is_dir r :
  prepare_binary c fuel entry_file output_path is_dir = Some r → tells r ∧
  ∀ runtime code, r = Ok (runtime, code) →
    resolve_runtime_binary c = Ok runtime ∧ is_dir = false ∧ same_file c output_path runtime = false ∧
    preflight_embeddable c fuel entry_file = Some (Ok tt) ∧
    ∃ o, bundle_text (c_files c) fuel (bundle_opts entry_file) = Some (Ok o) ∧ out_code o = code.
Proof.
  unfold prepare_binary. unfold ensure_supported_host. case_bool_decide; [|intros [= <-]; split; [apply tells_failed|done]].
  intros ([[]|e] & Hp & H')%bind_Some; [|simplify_eq; split; [by apply tells_preflight in Hp|done]].
  destruct (resolve_runtime_binary c) as [rt|e] eqn:Er.
  2:{ simplify_eq. split; [|done]. unfold resolve_runtime_binary in Er. destruct (c_current_exe c); [by case_match|]. unfold failed_with in Er. simplify_eq. apply compile_error_prefixed. }
  destruct is_dir; [simplify_eq; split; [apply tells_failed|done]|]. destruct (same_file c output_path rt) eqn:Es; [simplify_eq; split; [apply tells_failed|done]|].
  apply bind_Some in H' as ([effects br] & Hb & [= <-]). simpl. unfold bundle_project in Hb. apply bind_Some in Hb as (bt & Hbt & Hb).
  destruct bt as [o|e]; simplify_eq/=; (split; [try done; apply compile_error_prefixed|]); [|done].
  intros runtime code [= <- <-]. split_and!; [done..|]. by exists o.
Qed.
End checks.

(** ** Theorems *)

(** C33. What [amber compile] bundles was checked: when the check of the module graph passes and the
    bundler succeeds on the same entry, each bundled module is a file of an embeddable kind without
    a dynamic load -- provided no bundled JSON file names modules of its own, since the check
    does not look into JSON files and the bundler does ([json_is_scanned]). *)
Theorem bundled_files_checked c fuel fuel' entry_file o :
  preflight_embeddable c fuel entry_file = Some (Ok tt) →
  bundle_text (c_files c) fuel' (bundle_opts entry_file) = Some (Ok o) →
  ∃ g, walk (c_files c) fuel' None [entry_file] start_graph = Some (Ok g) ∧ module_count o = length (modules g) ∧
    ((∀ p deps, p ∈ modules g → is_json p = true → module_dependencies (c_files c) None p = Ok deps → deps = []) →
     Forall (checked c) (modules g)).
Proof.
  intros Hpre Hb. pose proof Hb as Hb'. apply bundle_text_spec in Hb' as (map & g & bundled & prepared & Hm & Hw & Hbm & ->).
  unfold load_map in Hm. simpl in Hm. simplify_eq. exists g. split; [done|].
  apply bundle_modules_spec in Hbm as (Hp & Hlen & _). split; [simpl; rewrite Hlen; by apply Forall2_length in Hp|]. intros Hj.
  unfold preflight_embeddable in Hpre. destruct (negb _); [done|]. destruct (negb _); [done|].
  destruct (ensure_embeddable c entry_file) as [[]|] eqn:Ee; [|done].
  eapply (walks_agree c fuel fuel' ∅ [entry_file] [entry_file] start_graph g Hj); [done|done| |by constructor|exact Hpre|exact Hw].
  intros q ->%list_elem_of_singleton. by apply ensure_embeddable_ok.
Qed.

(** A compile ends, cyclic imports included: when the files reachable from the entry, in the check and
    in the bundler, are among finitely many, some number of rounds is enough. *)
Theorem compile_terminates {D} (c : CompileHost) (d : Disk D) (entry_file output_path : pathbuf) (U : gset path) :
  canonical (c_files c) entry_file ∈ U →
  (∀ p q, canonical (c_files c) p ∈ U → pre_depends c p q ∨ depends (c_files c) None p q → canonical (c_files c) q ∈ U) →
  ∃ fuel, ∀ fuel', fuel ≤ fuel' → ∀ s : D, is_Some (compile_binary c d fuel' entry_file output_path s).
Proof.
  intros He Hu. destruct (preflight_total c U ltac:(by eauto) _ ∅ [entry_file] eq_refl) as [f1 H1]; [by intros q ->%list_elem_of_singleton|].
  destruct (bundle_total (c_files c) (bundle_opts entry_file) U He) as [f2 H2].
  { intros map p q Hm Hp Hd. unfold load_map in Hm. simpl in Hm. simplify_eq. eauto. }
  exists (f1 + f2). intros fuel Hle s. unfold compile_binary. enough (is_Some (prepare_binary c fuel entry_file output_path (d_is_dir d output_path s))) as [r ->] by (by eexists).
  unfold prepare_binary. destruct (ensure_supported_host c); [|by eexists].
  assert (is_Some (preflight_embeddable c fuel entry_file)) as [r Hr].
  { unfold preflight_embeddable. repeat case_match; try by eexists. apply H1. lia. }
  rewrite Hr. simpl. destruct r; [|by eexists]. destruct (resolve_runtime_binary c); [|by eexists].
  destruct (d_is_dir d output_path s); [by eexists|]. destruct (same_file _ _ _); [by eexists|].
  destruct (H2 fuel ltac:(lia)) as [br Hbr]. rewrite Hbr. by eexists.
Qed.

Lemma create_parent_opens {D} (d : Disk D) out s r s' p f :
  (∀ q p s r s' f, d_create_dir_all d q s = (r, s') → d_open d p s = Some f → d_open d p s' = Some f) →
  create_parent d out s = (r, s') → d_open d p s = Some f → d_open d p s' = Some f.
Proof.
  intros L. unfold create_parent. destruct (pb_parent out) as [parent|]; [|by intros [= <- <-]].
  destruct (_ && _); [|by intros [= <- <-]]. unfold map_err. destruct (d_create_dir_all d parent s) as [r1 s1] eqn:E.
  intros Hr Hp. assert (s' = s1) as -> by (destruct r1; by simplify_eq). by eapply L.
Qed.
(** C32. A compile that succeeds, on Linux or Windows and not onto another name of the running executable,
    has made a copy of that executable with the bundle of the entry behind it, under a path that is
    not that executable's own; and a start of the copy finds exactly that bundle, and runs it.
    Where [alias] holds for a hard link the check of the output path does not see it, and the copy
    is documented to truncate the executable ([hard_link_passes]). *)
Theorem compiled_executable_runs_bundle {D} (c : CompileHost) (d : Disk D) alias fuel entry_file output_path s s' runtime host :
  disk_laws d alias → ¬ alias runtime output_path → c_os c ≠ "macos" →
  resolve_runtime_binary c = Ok runtime → d_open d runtime s = Some (file_of host) →
  (4 ≤ len host < 2 ^ 60)%Z → field 4 host 0 ≠ MH_MAGIC_64 →
  (∀ o, bundle_text (c_files c) fuel (bundle_opts entry_file) = Some (Ok o) → len (out_code o) < 2 ^ 60)%Z →
  compile_binary c d fuel entry_file output_path s = Some (Ok tt, s') →
  ∃ o, bundle_text (c_files c) fuel (bundle_opts entry_file) = Some (Ok o) ∧ same_file c output_path runtime = false ∧
    d_open d output_path s' = Some (file_of (host ++ out_code o ++ trailer (len (out_code o)))) ∧
    detect_standalone_payload (Some (d_open d output_path s')) = Done (Some (out_code o)).
Proof.
  intros L Hal Hos Hrt Hopen Hhost Hm Hsize H. unfold compile_binary in H. apply bind_Some in H as (r & Hp & H).
  apply prepare_binary_spec in Hp as [_ Hp]. destruct r as [[rt code]|]; [|done].
  destruct (Hp _ _ eq_refl) as (Hrt' & _ & Hsame & _ & o & Hb & Ho). rewrite Hrt in Hrt'. injection Hrt' as <-. injection H as H.
  exists o. split; [done|]. split; [done|]. pose proof (Hsize o Hb) as Hcode. subst code. set (code := out_code o) in *. clearbody code.
  unfold embed_payload in H. apply io_bind_ok in H as ([] & s1 & H1 & H). apply io_bind_ok in H as ([] & s2 & H2%map_err_ok & H).
  pose proof (create_parent_opens d _ _ _ _ _ _ (law_create d alias L) H1 Hopen) as Hopen1.
  apply (law_copy d alias L) in H2 as (bytes & Hsrc & Hdst); [|done]. rewrite Hopen1 in Hsrc. injection Hsrc as Hsrc.
  assert (bytes = host) as -> by (apply file_of_inj; unfold file_of; f_equal; congruence).
  unfold or_remove in H. destruct (write_trailer c d output_path code s2) as [[[]|] s3] eqn:Hw; [|done]. injection H as <-.
  unfold write_trailer in Hw. apply io_bind_ok in Hw as (blob & s2' & Hl & Hw). unfold lift in Hl.
  destruct (trailer_blob code) as [blob'| |] eqn:Eb; [|done..]. injection Hl as <- <-. apply trailer_blob_spec in Eb as (_ & _ & ->).
  apply io_bind_ok in Hw as ([] & s4 & He & Hw). unfold embed_blob in He. rewrite bool_decide_eq_false_2 in He by done.
  apply map_err_ok in He. apply (law_append d alias L _ _ _ _ _ He) in Hdst.
  apply io_bind_ok in Hw as ([] & s5 & Hmk & Hw). apply (mark_executable_keeps c d alias _ _ _ L) in Hmk. rewrite Hdst in Hmk.
  apply io_bind_ok in Hw as ([] & s6 & Hsg & Hw). rewrite bool_decide_eq_false_2 in Hsg by done. injection Hsg as <-.
  unfold read_back in Hw. rewrite Hmk in Hw. destruct (read_standalone_payload _) as [[p|]| |] eqn:Er in Hw; [|done..]. injection Hw as <-.
  split; [done|]. simpl. rewrite Hmk, Er. do 2 f_equal. eapply appended_read_back; [| |exact Hm|exact Er]; [|lia].
  unfold small. rewrite (len_app host), (len_app code), len_trailer. lia.
Qed.

(** Sizes are those of files in memory, and reading gives as many bytes as asked for. *)
Record sane {D} (c : CompileHost) (d : Disk D) (fuel : nat) (entry_file : pathbuf) : Prop := {
  sane_file : ∀ p s f a n t, d_open d p s = Some f → f_read f a n = Some t → len t = n;
  sane_read : ∀ p s b s', d_read d p s = (Ok b, s') → (len b < 2 ^ 60)%Z;
  sane_code : ∀ o, bundle_text (c_files c) fuel (bundle_opts entry_file) = Some (Ok o) → (len (out_code o) < 2 ^ 59)%Z;
}.
Definition io_tells {D A} (m : Io D A) : Prop := ∀ s e s', m s = (Err e, s') → prefixed e.
Lemma io_tells_bind {D A B} (m : Io D A) (f : A → Io D B) : io_tells m → (∀ s a s', m s = (Ok a, s') → io_tells (f a)) → io_tells (m ≫= f).
Proof. intros Hm Hf s e s' [H|(a & s1 & Ha & H)]%io_bind_err; [by eapply Hm|by eapply Hf]. Qed.
Lemma io_tells_map_err {D A} f (m : Io D A) : io_tells (map_err f m).
Proof. intros s e s' (e' & -> & _)%map_err_err. apply compile_error_prefixed. Qed.
Lemma io_tells_throw {D A} m : io_tells (throw m : Io D A).
Proof. intros s e s' [= <- <-]. apply compile_error_prefixed. Qed.
Lemma io_tells_ret {D A} (a : A) : io_tells (mret a : Io D A).
Proof. intros s e s' H. discriminate H. Qed.
Lemma io_tells_lift {D A} (m : outcome A) : says m → m ≠ Crashed → io_tells (lift m : Io D A).
Proof. intros Hs Hc s e s'. unfold lift. destruct m; [done|intros [= <- <-]; exact Hs|done]. Qed.
Section failure.
Context (c : CompileHost) {D : Type} (d : Disk D) (fuel : nat) (entry_file : pathbuf) (reads : sane c d fuel entry_file).
Lemma embed_blob_tells p blob : (len blob < 2 ^ 60)%Z → io_tells (embed_blob c d p blob).
Proof using reads.
  intros Hb. unfold embed_blob. case_bool_decide; [|apply io_tells_map_err]. apply io_tells_bind.
  - unfold remove_macos_signature. apply io_tells_bind; [apply io_tells_map_err|intros s o s' _].
    repeat case_match; try apply io_tells_ret; apply io_tells_throw.
  - intros _ _ _ _. apply io_tells_bind; [apply io_tells_map_err|intros s bytes s' Hr%map_err_ok%(sane_read c d fuel entry_file reads)].
    apply io_tells_bind; [|intros; apply io_tells_map_err]. apply io_tells_lift; [apply says_inject|by apply injection_never_panics].
Qed.
Lemma write_trailer_tells p code : (len code < 2 ^ 59)%Z → io_tells (write_trailer c d p code).
Proof using reads.
  intros Hc. unfold write_trailer. apply io_tells_bind.
  { apply io_tells_lift; [apply says_trailer_blob|]. unfold trailer_blob. repeat case_bool_decide; done. }
  intros s blob s' Hb. apply io_tells_bind.
  { apply embed_blob_tells. unfold lift in Hb. destruct (trailer_blob code) as [b'| |] eqn:E; [|done..]. injection Hb as <- _.
    apply trailer_blob_spec in E as (_ & _ & ->). rewrite len_app, len_trailer. lia. }
  intros _ _ _ _. apply io_tells_bind.
  { unfold mark_executable. case_bool_decide; [apply io_tells_ret|]. apply io_tells_bind; [apply io_tells_map_err|intros; apply io_tells_map_err]. }
  intros _ _ _ _. apply io_tells_bind.
  { case_bool_decide; [|apply io_tells_ret]. unfold sign_macos_adhoc. apply io_tells_bind; [apply io_tells_map_err|intros ? o ? _].
    case_match; [apply io_tells_ret|apply io_tells_throw]. }
  intros _ _ _ _ s1 e s2. unfold read_back. destruct (reader_never_panics (d_open d p s1)) as [Hn _].
  { intros f a n t Hf. by eapply (sane_file c d fuel entry_file reads). }
  destruct (read_standalone_payload _) as [[?|]| |]; [done| | |done]; intros [= <- <-]; apply compile_error_prefixed.
Qed.

(** Where a compile that failed after its checks leaves the disk: after a directory that could not be
    made; after a copy that could not be made; or after the trailer could not be written to the copy,
    which is then removed. *)
Inductive left_behind (output_path runtime : pathbuf) (code : rstr) (s : D) : D → Prop :=
  | left_no_parent parent e s' :
      pb_parent output_path = Some parent → d_exists d parent s = false → d_create_dir_all d parent s = (Err e, s') →
      left_behind output_path runtime code s s'
  | left_no_copy s1 e s' :
      create_parent d output_path s = (Ok tt, s1) → d_copy d runtime output_path s1 = (Err e, s') →
      left_behind output_path runtime code s s'
  | left_removed s1 s2 e s3 r s' :
      create_parent d output_path s = (Ok tt, s1) → d_copy d runtime output_path s1 = (Ok tt, s2) →
      write_trailer c d output_path code s2 = (Err e, s3) → d_remove_file d output_path s3 = (r, s') →
      (r = Ok tt → d_open d output_path s' = None) → left_behind output_path runtime code s s'.
Lemma create_parent_failed out s e s' :
  create_parent d out s = (Err e, s') →
  prefixed e ∧ ∃ parent e', pb_parent out = Some parent ∧ d_exists d parent s = false ∧ d_create_dir_all d parent s = (Err e', s').
Proof.
  unfold create_parent. destruct (pb_parent out) as [parent|]; [|done].
  destruct (negb (bool_decide (parent = [])) && negb (d_exists d parent s)) eqn:E; [|done].
  intros (e' & -> & H)%map_err_err. split; [apply compile_error_prefixed|]. exists parent, e'.
  apply andb_true_iff in E as [_ ?%negb_true_iff]. done.
Qed.
End failure.

(** Computations that change nothing but the output. *)
Section frame.
Context (c : CompileHost) {D : Type} (d : Disk D) (alias : pathbuf → pathbuf → Prop) (L : frame_laws d alias) (out : pathbuf).
#[local] Set Default Proof Using "L".
Definition io_keeps {A} (m : Io D A) : Prop := ∀ s r s', m s = (r, s') → keeps d alias out s s'.
Lemma output_keeps_trans s1 s2 s3 : keeps d alias out s1 s2 → keeps d alias out s2 s3 → keeps d alias out s1 s3.
Proof. intros H1 H2 p f Hp Hf. by apply H2, H1. Qed.
Lemma io_keeps_bind {A B} (m : Io D A) (f : A → Io D B) : io_keeps m → (∀ a, io_keeps (f a)) → io_keeps (m ≫= f).
Proof.
  intros Hm Hf s r s'. unfold mbind, Io_bind. destruct (m s) as [[a|e] s1] eqn:E; intros H.
  - eapply output_keeps_trans; [by eapply Hm|by eapply Hf].
  - injection H as <- <-. by eapply Hm.
Qed.
Lemma io_keeps_pure {A} (r : result A rstr) : io_keeps (λ s, (r, s)).
Proof. intros s r' s' [= <- <-]. by intros p f. Qed.
Lemma io_keeps_map_err {A} f (m : Io D A) : io_keeps m → io_keeps (map_err f m).
Proof.
  intros Hm s r s'. unfold map_err. destruct (m s) as [[a|e] s1] eqn:E; intros [= <- <-]; by eapply Hm.
Qed.
Lemma io_keeps_lift {A} (m : outcome A) : io_keeps (lift m).
Proof. intros s r s'. unfold lift. destruct m; intros [= <- <-]; by intros p f. Qed.
#[local] Hint Resolve io_keeps_lift : keeps.
#[local] Hint Extern 1 (io_keeps (d_copy _ _ _)) => (intros ? ? ?; apply (frame_copy d alias L)) : keeps.
#[local] Hint Extern 1 (io_keeps (d_append _ _ _)) => (intros ? ? ?; apply (frame_append d alias L)) : keeps.
#[local] Hint Extern 1 (io_keeps (d_read _ _)) => (intros ? ? ?; apply (frame_read d alias L)) : keeps.
#[local] Hint Extern 1 (io_keeps (d_write _ _ _)) => (intros ? ? ?; apply (frame_write d alias L)) : keeps.
#[local] Hint Extern 1 (io_keeps (d_metadata _ _)) => (intros ? ? ?; apply (frame_metadata d alias L)) : keeps.
#[local] Hint Extern 1 (io_keeps (d_set_permissions _ _ _)) => (intros ? ? ?; apply (frame_permissions d alias L)) : keeps.
#[local] Hint Extern 1 (io_keeps (d_codesign _ _ _)) => (intros ? ? ?; apply (frame_codesign d alias L)) : keeps.
Ltac keeps_walk :=
  repeat first
    [ progress intros | apply io_keeps_bind | apply io_keeps_map_err | case_match
    | apply io_keeps_pure | solve [eauto with keeps nocore] ].
Lemma write_trailer_keeps payload : io_keeps (write_trailer c d out payload).
Proof.
  unfold write_trailer, embed_blob, append_trailer_bytes, remove_macos_signature, mark_executable, sign_macos_adhoc. keeps_walk.
  intros s r s'. unfold read_back. destruct (read_standalone_payload _) as [[]| |]; intros [= <- <-]; by intros p f.
Qed.
Lemma embed_payload_keeps runtime payload : io_keeps (embed_payload c d runtime out payload).
Proof.
  unfold embed_payload. apply io_keeps_bind.
  { intros s r s' H p f _. by eapply (create_parent_opens d _ _ _ _ _ _ (frame_create d alias L)). }
  intros _. apply io_keeps_bind; [keeps_walk|]. intros _ s r s'. unfold or_remove.
  destruct (write_trailer c d out payload s) as [[[]|e] s1] eqn:E; intros [= <- <-]; apply write_trailer_keeps in E; [done|].
  eapply output_keeps_trans; [exact E|]. destruct (d_remove_file d out s1) as [r s2] eqn:Er. by eapply frame_remove.
Qed.
End frame.

(** C34. A compile that fails says so with the contract's prefix, and changes no file but the output.
    When a check or the bundle fails it changes nothing at all.  When the output's directory cannot be
    made, what [create_dir_all] had made stays; when the copy fails, what it had written stays; and when the
    runtime has been copied, any later failure -- on macOS also of the rewriting of the executable or
    of its signature -- has the output removed, and it is gone if that removal succeeds. *)
Theorem compile_failures {D} (c : CompileHost) (d : Disk D) alias fuel entry_file output_path s s' e :
  sane c d fuel entry_file → frame_laws d alias →
  compile_binary c d fuel entry_file output_path s = Some (Err e, s') →
  prefixed e ∧ keeps d alias output_path s s' ∧
  ((s' = s ∧ prepare_binary c fuel entry_file output_path (d_is_dir d output_path s) = Some (Err e)) ∨
   ∃ runtime code,
     prepare_binary c fuel entry_file output_path (d_is_dir d output_path s) = Some (Ok (runtime, code)) ∧
     left_behind c d output_path runtime code s s').
Proof.
  intros Hsane L H. unfold compile_binary in H. apply bind_Some in H as (r & Hpr & H).
  pose proof (prepare_binary_spec _ _ _ _ _ _ Hpr) as [Ht Hp].
  destruct r as [[rt code]|e']; [|injection H as -> ->; split; [exact Ht|split; [by intros p f|by left]]].
  destruct (Hp _ _ eq_refl) as (_ & _ & _ & _ & o & Hb & <-). pose proof (sane_code _ _ _ _ Hsane o Hb) as Hcode. injection H as H.
  pose proof (embed_payload_keeps c d alias L output_path _ _ _ _ _ H) as Hk.
  enough (prefixed e ∧ left_behind c d output_path rt (out_code o) s s') as [? ?] by (split; [done|]; split; [done|]; right; eauto).
  unfold embed_payload in H. apply io_bind_err in H as [H|([] & s1 & H1 & H)].
  { apply create_parent_failed in H as (? & parent & e' & ? & ? & ?). split; [done|]. by eapply left_no_parent. }
  apply io_bind_err in H as [(e' & -> & H)%map_err_err|([] & s2 & H2%map_err_ok & H)].
  { split; [apply compile_error_prefixed|by eapply left_no_copy]. }
  unfold or_remove in H. destruct (write_trailer c d output_path (out_code o) s2) as [[[]|e3] s3] eqn:Ew; [done|]. injection H as <- <-.
  split; [by eapply (write_trailer_tells c d fuel entry_file Hsane)|].
  destruct (d_remove_file d output_path s3) as [r s4] eqn:Er. eapply left_removed; [done|done|done|done|].
  intros ->. by eapply remove_removes.
Qed.

(** ** A concrete compile *)

Module CompileToy.
(** The two files of [BundleToy], on a Linux whose runtime is [/bin/amber]. *)
Definition host : CompileHost := {|
  c_files := BundleToy.host; c_os := "linux"; c_current_exe := Ok ("/bin/amber" : rstr);
  c_source_type := λ _, Ok tt; c_nodes := λ _ _, [CallExpression (Some ("require" : rstr)) [StringLiteral "fs"]] |}.
(** A disk is its files; [full] is one on which nothing can be appended. *)
Definition files : Type := list (rstr * rstr).
Fixpoint find (p : pathbuf) (s : files) : option rstr :=
  match s with [] => None | (q, b) :: s => if bool_decide (p = q) then Some b else find p s end.
Fixpoint removed (q : pathbuf) (s : files) : files :=
  match s with [] => [] | (x, b) :: s => if bool_decide (x = q) then removed q s else (x, b) :: removed q s end.
Definition disk (full : bool) : Disk files := {|
  d_exists := λ _ _, true; d_is_dir := λ _ _, false; d_open := λ p s, file_of <$> find p s;
  d_create_dir_all := λ _ s, (Ok tt, s);
  d_copy := λ src dst s, match find src s with Some b => (Ok tt, (dst, b) :: s) | None => (Err ("not found" : rstr), s) end;
  d_append := λ p t s, if full then (Err ("no space" : rstr), s)
                       else match find p s with Some b => (Ok tt, (p, b ++ t) :: s) | None => (Err ("not found" : rstr), s) end;
  d_read := λ p s, (Err ("unreadable" : rstr), s); d_write := λ p t s, (Ok tt, (p, t) :: s);
  d_metadata := λ _ s, (Ok tt, s); d_set_permissions := λ _ _ s, (Ok tt, s);
  d_remove_file := λ p s, (Ok tt, removed p s);
  d_codesign := λ _ _ s, (Err ("no codesign" : rstr), s) |}.
Lemma find_here p b s : find p ((p, b) :: s) = Some b.
Proof. simpl. by rewrite bool_decide_eq_true_2. Qed.
Lemma laws full : disk_laws (disk full) eq.
Proof.
  split; simpl.
  - by intros q p s r s' f [= <- <-].
  - intros src dst s s' _. destruct (find src s) as [b|] eqn:E; [|done]. intros [= <-]. exists b. by rewrite find_here.
  - intros p t s s' bytes. destruct full; [done|]. destruct (find p s) as [b|] eqn:E; [|done]. intros [= <-]. simpl. intros [= Hl Hr].
    rewrite bool_decide_eq_true_2 by done. simpl. rewrite (file_of_inj b bytes); [done|]. unfold file_of. by rewrite Hl, Hr.
  - by intros p s r s' [= <- <-].
  - by intros p m s r s' [= <- <-].
Qed.
Lemma find_other p q b (s : files) : p ≠ q → find p ((q, b) :: s) = find p s.
Proof. intros H. simpl. by rewrite bool_decide_eq_false_2. Qed.
Lemma find_removed p q (s : files) : find p (removed q s) = if bool_decide (p = q) then None else find p s.
Proof.
  induction s as [|[x b] s IH]; simpl; [by case_bool_decide|]. destruct (bool_decide_reflect (x = q)) as [->|]; simpl; rewrite IH;
    repeat case_bool_decide; congruence.
Qed.
Lemma frame full : frame_laws (disk full) eq.
Proof.
  assert (∀ p q b (s : files) f, p ≠ q → file_of <$> find p s = Some f → file_of <$> find p ((q, b) :: s) = Some f) as Hcons
    by (intros; by rewrite find_other).
  split; unfold keeps; cbn [disk d_open d_create_dir_all d_copy d_append d_read d_write d_metadata d_set_permissions d_codesign d_remove_file].
  - by intros q p s r s' f [= <- <-].
  - intros src q s r s' H p f Hp Hf. destruct (find src s); injection H as <- <-; auto.
  - intros q t s r s' H p f Hp Hf. destruct full; [by injection H as <- <-|].
    destruct (find q s); injection H as <- <-; auto.
  - by intros q s r s' [= <- <-].
  - intros q t s r s' [= <- <-] p f Hp Hf. auto.
  - by intros q s r s' [= <- <-].
  - by intros q m s r s' [= <- <-].
  - by intros l q s r s' [= <- <-].
  - intros q s r s' [= <- <-] p f Hp Hf. rewrite find_removed. by rewrite bool_decide_eq_false_2.
  - intros q s s' [= <-]. rewrite find_removed. by rewrite bool_decide_eq_true_2.
Qed.
Definition before : files := [("/bin/amber" : rstr, SeaToy.host)].
Definition after (full : bool) : files :=
  match compile_binary host (disk full) 5 "/p/a.js" "/p/app" before with Some (_, s) => s | None => [] end.
Lemma compiled : compile_binary host (disk false) 5 "/p/a.js" "/p/app" before = Some (Ok tt, after false).
Proof.
  unfold after. destruct (compile_binary host (disk false) 5 "/p/a.js" "/p/app" before) as [[r s]|] eqn:E; [|by vm_compute in E].
  assert (match compile_binary host (disk false) 5 "/p/a.js" "/p/app" before with Some (Ok tt, _) => true | _ => false end = true) as H by (vm_compute; reflexivity).
  rewrite E in H. by destruct r as [[]|].
Qed.
Lemma bundle_small o : bundle_text BundleToy.host 5 (bundle_opts "/p/a.js") = Some (Ok o) → (len (out_code o) < 2 ^ 59)%Z.
Proof.
  assert (match bundle_text BundleToy.host 5 (bundle_opts "/p/a.js") with Some (Ok o) => bool_decide (len (out_code o) < 2 ^ 59)%Z | _ => true end = true) as H
    by (vm_compute; reflexivity).
  intros E. rewrite E in H. by apply bool_decide_eq_true in H.
Qed.
Lemma host_sane full : sane host (disk full) 5 "/p/a.js".
Proof.
  split; simpl.
  - intros p s f a n t Hf. destruct (find p s); [|done]. simplify_eq/=. apply get_length.
  - done.
  - apply bundle_small.
Qed.
Lemma no_json p deps : is_json p = true → module_dependencies BundleToy.host None p = Ok deps → deps = [].
Proof.
  intros Hj Hd. unfold module_dependencies, read_module in Hd. cbn in Hd. unfold BundleToy.at_path in Hd.
  assert (Hc : ∀ q, components p = components q → is_json p = is_json q).
  { intros q Hq. unfold is_json, has_extension, pb_extension, pb_file_name. by rewrite Hq. }
  case_bool_decide as H1; [rewrite (Hc _ H1) in Hj; by vm_compute in Hj|].
  case_bool_decide as H2; [rewrite (Hc _ H2) in Hj; by vm_compute in Hj|]. done.
Qed.
(** [/p/app] is a hard link of [/bin/amber]; a copy of a file onto itself truncates it. *)
Definition linked_name (p : pathbuf) : pathbuf := if bool_decide (p = "/p/app") then "/bin/amber" else p.
Definition linked_disk : Disk files := {|
  d_exists := λ _ _, true; d_is_dir := λ _ _, false; d_open := λ p s, file_of <$> find (linked_name p) s;
  d_create_dir_all := λ _ s, (Ok tt, s);
  d_copy := λ src dst s,
    if bool_decide (linked_name src = linked_name dst) then (Ok tt, (linked_name dst, []) :: s)
    else match find src s with Some b => (Ok tt, (linked_name dst, b) :: s) | None => (Err ("not found" : rstr), s) end;
  d_append := λ p t s, match find (linked_name p) s with
                       | Some b => (Ok tt, (linked_name p, b ++ t) :: s)
                       | None => (Err ("not found" : rstr), s)
                       end;
  d_read := λ p s, (Err ("unreadable" : rstr), s); d_write := λ p t s, (Ok tt, (linked_name p, t) :: s);
  d_metadata := λ _ s, (Ok tt, s); d_set_permissions := λ _ _ s, (Ok tt, s);
  d_remove_file := λ p s, (Ok tt, removed p s);
  d_codesign := λ _ _ s, (Err ("no codesign" : rstr), s) |}.
End CompileToy.
(** Onto a hard link of the runtime, [amber compile] reports success and leaves, under both
    names, the script and its trailer with no executable in front of them. *)
Example hard_link_passes :
  match compile_binary CompileToy.host CompileToy.linked_disk 5 "/p/a.js" "/p/app" CompileToy.before,
        bundle_text BundleToy.host 5 (bundle_opts "/p/a.js") with
  | Some (Ok tt, s), Some (Ok o) =>
      bool_decide (CompileToy.find "/bin/amber" s = Some (out_code o ++ trailer (len (out_code o))))
  | _, _ => false
  end = true.
Proof. vm_compute. reflexivity. Qed.

Lemma bundled_files_checked_witness :
  ∃ g, length (modules g) = 2 ∧ Forall (checked CompileToy.host) (modules g).
Proof.
  assert (Hp : preflight_embeddable CompileToy.host 5 "/p/a.js" = Some (Ok tt)) by (vm_compute; reflexivity).
  destruct (bundle_text BundleToy.host 5 (bundle_opts "/p/a.js")) as [[o|e]|] eqn:Hb; [|vm_compute in Hb; discriminate..].
  destruct (bundled_files_checked CompileToy.host 5 5 "/p/a.js" o Hp Hb) as (g & _ & Hn & Hg). exists g.
  split; [|apply Hg; intros p deps _; apply CompileToy.no_json].
  rewrite <-Hn. assert (match bundle_text BundleToy.host 5 (bundle_opts "/p/a.js") with Some (Ok o) => module_count o | _ => 0 end = 2) as E
    by (vm_compute; reflexivity). rewrite Hb in E. exact E.
Defined.
Lemma compiled_executable_runs_bundle_witness :
  ∃ o, detect_standalone_payload (Some (d_open (CompileToy.disk false) "/p/app" (CompileToy.after false))) = Done (Some (out_code o)).
Proof.
  destruct (compiled_executable_runs_bundle CompileToy.host (CompileToy.disk false) eq 5 "/p/a.js" "/p/app" CompileToy.before (CompileToy.after false)
    "/bin/amber" SeaToy.host (CompileToy.laws false)) as (o & _ & _ & _ & Ho).
  - discriminate.
  - discriminate.
  - reflexivity.
  - reflexivity.
  - vm_compute. split; [discriminate|reflexivity].
  - discriminate.
  - intros o Ho%CompileToy.bundle_small. lia.
  - exact CompileToy.compiled.
  - exists o. exact Ho.
Defined.
Lemma compile_failures_witness :
  ∃ e, compile_binary CompileToy.host (CompileToy.disk true) 5 "/p/a.js" "/p/app" CompileToy.before = Some (Err e, CompileToy.before) ∧ prefixed e.
Proof.
  assert (match compile_binary CompileToy.host (CompileToy.disk true) 5 "/p/a.js" "/p/app" CompileToy.before with
          | Some (Err _, s) => bool_decide (s = CompileToy.before) | _ => false end = true) as H by (vm_compute; reflexivity).
  destruct (compile_binary _ _ _ _ _ _) as [[[[]|e] s]|] eqn:E; [discriminate| |discriminate]. apply bool_decide_eq_true in H. subst s.
  exists e. split; [reflexivity|]. exact (proj1 (compile_failures _ _ _ _ _ _ _ _ _ (CompileToy.host_sane true) (CompileToy.frame true) E)).
Defined.
Lemma compile_terminates_witness :
  ∃ fuel, ∀ fuel', fuel ≤ fuel' → ∀ s : CompileToy.files, is_Some (compile_binary CompileToy.host (CompileToy.disk false) fuel' "/p/a.js" "/p/app" s).
Proof.
  apply (compile_terminates CompileToy.host (CompileToy.disk false) "/p/a.js" "/p/app" {[components "/p/a.js"; components "/p/b.js"]}).
  - apply elem_of_union. left. by apply elem_of_singleton.
  - intros p q _ Hd. assert (Hf : b_is_file BundleToy.host q = true).
    { destruct Hd as [(deps & Hd & Hin)|(deps & s & Hd & Hin)].
      - unfold preflight_file in Hd. destruct (b_read _ p); [|discriminate]. cbn [mbind result_bind] in Hd.
        destruct (reject_dynamic_loads _ _ _); [|discriminate]. cbn [mbind result_bind] in Hd. destruct (has_extension p _).
        + injection Hd as <-. by apply elem_of_nil in Hin.
        + apply (classify_all_files _ _ _ _ Hd _ Hin).
      - unfold module_dependencies in Hd. destruct (read_module _ p); [|discriminate].
        apply (dependencies_spec _ _ _ _ _ Hd) in Hin as [_ Hq%resolve_is_file]. exact Hq. }
    cbn in Hf. apply orb_true_iff in Hf. unfold BundleToy.at_path in Hf. rewrite !bool_decide_eq_true in Hf.
    apply elem_of_union. destruct Hf as [Hq|Hq]; [left|right]; apply elem_of_singleton; exact Hq.
Defined.
(** A line of a JSON file is scanned like code by the bundler, and not looked at by the check. *)
Example json_is_scanned : scan_line "  'build': require('./gone'), " = ["./gone" : rstr].
Proof. vm_compute. reflexivity. Qed.
