(* ===== verification/HostDisk.v ===== *)
(** * The host's disk under [std::fs]

    Directories and regular files with inodes, so that an open file stays the
    file it was when its name is removed or given to another place.  The operations are those of
    [std::fs] and [std::fs::File] that the runtime uses, on a disk without
    symbolic or hard links.  Paths are resolved name by name: every name but the last has to
    be a directory that is there, also before a [..].  Whatever else can go wrong is the kernel's
    choice: [Kernel] may refuse any call, cut any write short and stop any
    removal of a tree half-way. *)

From S2P Require Import Prelude RustPath DiskFs.

(** ** Errors, [io::Error] *)

Inductive error_kind :=
  | KNotFound | KPermissionDenied | KAlreadyExists | KInvalidInput | KIsADirectory | KNotADirectory
  | KInvalidData | KUnsupported | KOther.
Inductive io_error := RawOs (code : Z) | Kind (kind : error_kind) (message : rstr).
#[export] Instance error_kind_dec : EqDecision error_kind.
Proof. solve_decision. Defined.
#[export] Instance io_error_dec : EqDecision io_error.
Proof. solve_decision. Defined.
(** The numbers of [libc] on Linux. *)
Definition EPERM : Z := 1.
Definition ENOENT : Z := 2.
Definition EBADF : Z := 9.
Definition EACCES : Z := 13.
Definition EEXIST : Z := 17.
Definition ENOTDIR : Z := 20.
Definition EISDIR : Z := 21.
Definition EINVAL : Z := 22.
Definition EMFILE : Z := 24.
Definition ENAMETOOLONG : Z := 36.
Definition ENOTEMPTY : Z := 39.
(** [err.kind() == ErrorKind::NotFound] *)
Definition is_not_found (e : io_error) : bool := bool_decide (e = RawOs ENOENT) || match e with Kind KNotFound _ => true | _ => false end.

(** ** The disk *)

Inductive Entry := FileE (ino : nat) | DirE (ino : nat).
#[export] Instance entry_dec : EqDecision Entry.
Proof. solve_decision. Defined.
Record HostDisk := {
  tree : gmap loc Entry;
  contents : gmap nat rstr;
  modes : gmap nat Z;
  next_ino : nat;
}.
Definition with_tree (d : HostDisk) (t : gmap loc Entry) : HostDisk :=
  {| tree := t; contents := contents d; modes := modes d; next_ino := next_ino d |}.
Definition with_content (d : HostDisk) (ino : nat) (data : rstr) : HostDisk :=
  {| tree := tree d; contents := <[ino := data]> (contents d); modes := modes d; next_ino := next_ino d |}.
Definition with_mode (d : HostDisk) (ino : nat) (mode : Z) : HostDisk :=
  {| tree := tree d; contents := contents d; modes := <[ino := mode]> (modes d); next_ino := next_ino d |}.
(** A new file or directory at [l]. *)
Definition created (d : HostDisk) (l : loc) (e : nat → Entry) (mode : Z) : HostDisk :=
  {| tree := <[l := e (next_ino d)]> (tree d); contents := <[next_ino d := []]> (contents d);
     modes := <[next_ino d := mode]> (modes d); next_ino := S (next_ino d) |}.
(** The root is there without an entry. *)
Definition entry_at (d : HostDisk) (l : loc) : option Entry :=
  match l with [] => Some (DirE 0) | _ => tree d !! l end.
Definition inode (e : Entry) : nat := match e with FileE i | DirE i => i end.
Definition data_of (d : HostDisk) (ino : nat) : rstr := default [] (contents d !! ino).
(** What is at a location, to the eye: a directory, or a file with its bytes. *)
Definition seen_at (d : HostDisk) (l : loc) : option (option rstr) :=
  match entry_at d l with
  | Some (FileE i) => Some (Some (data_of d i)) | Some (DirE _) => Some None | None => None
  end.

(** ** Paths *)

Definition nul : ascii := "000"%char.
Definition bad_name : io_error := Kind KInvalidInput "file name contained an unexpected NUL byte".
(** The location a path names, whether or not the last name is there. *)
Fixpoint walk_path (d : HostDisk) (l : loc) (p : path) : result loc io_error :=
  match p with
  | [] => Ok l
  | c :: p =>
      match entry_at d l with
      | Some (DirE _) => walk_path d (enter_component l c) p
      | Some (FileE _) => Err (RawOs ENOTDIR)
      | None => Err (RawOs ENOENT)
      end
  end.
Definition abs_path (l : loc) : path := RootDir :: (Normal <$> l).
Definition has_nul (p : path) : bool := existsb (λ c, bool_decide (nul ∈ component_str c)) p.
Definition resolve_path (d : HostDisk) (cwd : loc) (p : path) : result loc io_error :=
  if has_nul p then Err bad_name
  else match p with
       | [] => Err (RawOs ENOENT)
       | RootDir :: p => walk_path d [] p
       | _ => walk_path d cwd p
       end.

Record Kernel := {
  refuse : rstr → path → HostDisk → option io_error;       (* a call, by its name and path *)
  refuse_file : rstr → HostDisk → option io_error;         (* a call on an open file *)
  cut_write : HostDisk → rstr → option (nat * io_error);   (* how many bytes before the error *)
  kept : loc → HostDisk → option (list loc * io_error);    (* what a failed removal has left *)
  dir_len : nat → Z;                                       (* [st_size] of a directory *)
}.
(** A kernel that refuses nothing. *)
Definition quiet_kernel : Kernel :=
  {| refuse := λ _ _ _, None; refuse_file := λ _ _, None; cut_write := λ _ _, None; kept := λ _ _, None; dir_len := λ _, 4096%Z |}.

Section std.
Context (K : Kernel) (cwd : loc).
Abbreviation Os A := (HostDisk → result A io_error * HostDisk).

Definition lookup_path (name : rstr) (d : HostDisk) (p : path) : result (loc * Entry) io_error :=
  match refuse K name p d with
  | Some e => Err e
  | None =>
      l ← resolve_path d cwd p;
      match entry_at d l with Some e => Ok (l, e) | None => Err (RawOs ENOENT) end
  end.

(** ** Queries *)

Record Metadata := { md_is_file : bool; md_is_dir : bool; md_len : Z; md_mode : Z }.
Definition metadata_of (d : HostDisk) (e : Entry) : Metadata :=
  let mode := default 0%Z (modes d !! inode e) in
  match e with
  | FileE i => {| md_is_file := true; md_is_dir := false; md_len := Z.of_nat (length (data_of d i)); md_mode := mode |}
  | DirE i => {| md_is_file := false; md_is_dir := true; md_len := dir_len K i; md_mode := mode |}
  end.
Definition std_metadata (d : HostDisk) (p : path) : result Metadata io_error :=
  x ← lookup_path "stat" d p; Ok (metadata_of d x.2).
(** There are no links to tell apart. *)
Definition std_symlink_metadata (d : HostDisk) (p : path) : result Metadata io_error :=
  x ← lookup_path "lstat" d p; Ok (metadata_of d x.2).
Definition std_exists (d : HostDisk) (p : path) : bool := is_ok (std_metadata d p).
Definition std_is_dir (d : HostDisk) (p : path) : bool :=
  match std_metadata d p with Ok m => md_is_dir m | Err _ => false end.
Definition std_is_file (d : HostDisk) (p : path) : bool :=
  match std_metadata d p with Ok m => md_is_file m | Err _ => false end.
Definition std_canonicalize (d : HostDisk) (p : path) : result path io_error :=
  x ← lookup_path "realpath" d p; Ok (abs_path x.1).
(** In the order of the map, as good as any. *)
Definition names_in (d : HostDisk) (l : loc) : list rstr := omap (λ kv, name_in l kv.1) (map_to_list (tree d)).
Definition std_read_dir (d : HostDisk) (p : path) : result (list (rstr * Entry)) io_error :=
  x ← lookup_path "opendir" d p;
  match x.2 with
  | DirE _ => Ok (omap (λ n, (λ e, (n, e)) <$> entry_at d (x.1 ++ [n])) (names_in d x.1))
  | FileE _ => Err (RawOs ENOTDIR)
  end.

(** ** Open files *)

Record OpenOptions := {
  o_read : bool; o_write : bool; o_append : bool; o_truncate : bool; o_create : bool; o_create_new : bool; o_mode : Z }.
Record File := { f_entry : Entry; f_readable : bool; f_writable : bool; f_append : bool; f_pos : Z }.
Definition at_pos (f : File) (pos : Z) : File :=
  {| f_entry := f_entry f; f_readable := f_readable f; f_writable := f_writable f; f_append := f_append f; f_pos := pos |}.
(** The combinations [OpenOptions::open] turns down. *)
Definition invalid_options (o : OpenOptions) : bool :=
  negb (o_read o || o_write o || o_append o)
  || (negb (o_write o) && negb (o_append o) && (o_truncate o || o_create o || o_create_new o))
  || (o_append o && o_truncate o && negb (o_create_new o)).
Definition opened (o : OpenOptions) (e : Entry) : File :=
  {| f_entry := e; f_readable := o_read o; f_writable := o_write o || o_append o; f_append := o_append o; f_pos := 0 |}.
Definition std_open (o : OpenOptions) (p : path) : Os File := λ d,
  if invalid_options o then (Err (RawOs EINVAL), d)
  else match refuse K "open" p d with
  | Some e => (Err e, d)
  | None =>
      match resolve_path d cwd p with
      | Err e => (Err e, d)
      | Ok l =>
          match entry_at d l with
          | Some e =>
              if o_create_new o then (Err (RawOs EEXIST), d)
              else match e with
                   | DirE _ => if o_write o || o_append o then (Err (RawOs EISDIR), d) else (Ok (opened o e), d)
                   | FileE i => (Ok (opened o e), if o_truncate o then with_content d i [] else d)
                   end
          | None =>
              if o_create o || o_create_new o
              then (Ok (opened o (FileE (next_ino d))), created d l FileE (o_mode o))
              else (Err (RawOs ENOENT), d)
          end
      end
  end.
Definition file_refused {A} (name : rstr) (m : Os A) : Os A := λ d,
  match refuse_file K name d with Some e => (Err e, d) | None => m d end.
Definition file_read (f : File) (n : nat) : Os (rstr * File) := file_refused "read" (λ d,
  if negb (f_readable f) then (Err (RawOs EBADF), d)
  else match f_entry f with
       | DirE _ => (Err (RawOs EISDIR), d)
       | FileE i =>
           let bytes := take n (drop (Z.to_nat (f_pos f)) (data_of d i)) in
           (Ok (bytes, at_pos f (f_pos f + Z.of_nat (length bytes))), d)
       end).
(** [bytes] over [data] from [pos] on, with zeros for a gap. *)
Definition overwrite (data : rstr) (pos : nat) (bytes : rstr) : rstr :=
  take pos data ++ replicate (pos - length data) nul ++ bytes ++ drop (pos + length bytes) data.
Definition file_write_all (f : File) (bytes : rstr) (d : HostDisk) : result unit io_error * File * HostDisk :=
  if bool_decide (bytes = []) then (Ok tt, f, d)
  else match refuse_file K "write" d with
  | Some e => (Err e, f, d)
  | None =>
      if negb (f_writable f) then (Err (RawOs EBADF), f, d)
      else match f_entry f with
           | DirE _ => (Err (RawOs EISDIR), f, d)
           | FileE i =>
               let pos := if f_append f then length (data_of d i) else Z.to_nat (f_pos f) in
               let wrote bytes := with_content d i (overwrite (data_of d i) pos bytes) in
               match cut_write K d bytes with
               | Some (n, e) => (Err e, at_pos f (Z.of_nat (pos + length (take n bytes))), wrote (take n bytes))
               | None => (Ok tt, at_pos f (Z.of_nat (pos + length bytes)), wrote bytes)
               end
           end
  end.
(** A position past [i64::MAX] is negative to [lseek]. *)
Definition file_seek (f : File) (pos : Z) : Os File := file_refused "seek" (λ d,
  if bool_decide (2 ^ 63 ≤ pos)%Z then (Err (RawOs EINVAL), d) else (Ok (at_pos f pos), d)).
Definition file_set_len (f : File) (n : Z) : Os unit := file_refused "ftruncate" (λ d,
  if bool_decide (2 ^ 63 ≤ n)%Z || negb (f_writable f) then (Err (RawOs EINVAL), d)
  else match f_entry f with
       | DirE _ => (Err (RawOs EINVAL), d)
       | FileE i => (Ok tt, with_content d i (overwrite (take (Z.to_nat n) (data_of d i)) (Z.to_nat n) []))
       end).
Definition file_metadata (f : File) (d : HostDisk) : result Metadata io_error :=
  match refuse_file K "fstat" d with Some e => Err e | None => Ok (metadata_of d (f_entry f)) end.
Definition file_set_permissions (f : File) (mode : Z) : Os unit := file_refused "fchmod" (λ d,
  (Ok tt, with_mode d (inode (f_entry f)) mode)).

(** ** Whole files *)

Definition read_options : OpenOptions :=
  {| o_read := true; o_write := false; o_append := false; o_truncate := false; o_create := false; o_create_new := false; o_mode := 438 |}.
Definition write_options : OpenOptions :=
  {| o_read := false; o_write := true; o_append := false; o_truncate := true; o_create := true; o_create_new := false; o_mode := 438 |}.
Definition std_read (p : path) (d : HostDisk) : result rstr io_error :=
  match std_open read_options p d with
  | (Ok f, _) =>
      match refuse_file K "read" d with
      | Some e => Err e
      | None => match f_entry f with FileE i => Ok (data_of d i) | DirE _ => Err (RawOs EISDIR) end
      end
  | (Err e, _) => Err e
  end.
Definition std_write (p : path) (data : rstr) : Os unit := λ d,
  match std_open write_options p d with
  | (Ok f, d) => let '(r, _, d) := file_write_all f data d in (r, d)
  | (Err e, d) => (Err e, d)
  end.
(** Both files are open, the target truncated, before anything is copied; the mode is the source's. *)
Definition std_copy (p q : path) : Os unit := λ d,
  match std_open read_options p d with
  | (Err e, d) => (Err e, d)
  | (Ok f, d) =>
      match f_entry f with
      | DirE _ => (Err (Kind KInvalidInput "the source path is neither a regular file nor a symlink to a regular file"), d)
      | FileE i =>
          match std_open write_options q d with
          | (Err e, d) => (Err e, d)
          | (Ok g, d) =>
              let d := with_mode d (inode (f_entry g)) (default 0%Z (modes d !! i)) in
              let '(r, _, d) := file_write_all g (data_of d i) d in (r, d)
          end
      end
  end.
Definition std_set_permissions (p : path) (mode : Z) : Os unit := λ d,
  match lookup_path "chmod" d p with
  | Ok x => (Ok tt, with_mode d (inode x.2) mode)
  | Err e => (Err e, d)
  end.

(** ** Directories and names *)

Definition std_create_dir (p : path) : Os unit := λ d,
  match refuse K "mkdir" p d with
  | Some e => (Err e, d)
  | None =>
      match resolve_path d cwd p with
      | Err e => (Err e, d)
      | Ok l =>
          match entry_at d l with
          | Some _ => (Err (RawOs EEXIST), d)
          | None => (Ok tt, created d l DirE 511)
          end
      end
  end.
(** [DirBuilder::create_dir_all]; the path gets shorter. *)
Fixpoint create_all (fuel : nat) (p : path) : Os unit := λ d,
  if bool_decide (p = []) then (Ok tt, d)
  else
    let again d := match std_create_dir p d with
                   | (Ok _, d) => (Ok tt, d)
                   | (Err e, d) => if std_is_dir d p then (Ok tt, d) else (Err e, d)
                   end in
    match std_create_dir p d with
    | (Ok _, d) => (Ok tt, d)
    | (Err e, d) =>
        if is_not_found e then
          match fuel, parent p with
          | S fuel, Some q => match create_all fuel q d with (Ok _, d) => again d | (Err e, d) => (Err e, d) end
          | _, _ => (Err (Kind KOther "failed to create whole tree"), d)
          end
        else if std_is_dir d p then (Ok tt, d) else (Err e, d)
    end.
Definition std_create_dir_all (p : path) : Os unit := create_all (length p) p.
Definition std_remove_file (p : path) : Os unit := λ d,
  match lookup_path "unlink" d p with
  | Ok (l, FileE _) => (Ok tt, with_tree d (delete l (tree d)))
  | Ok (_, DirE _) => (Err (RawOs EISDIR), d)
  | Err e => (Err e, d)
  end.
Definition std_remove_dir (p : path) : Os unit := λ d,
  match lookup_path "rmdir" d p with
  | Ok (l, DirE _) =>
      if bool_decide (l = []) then (Err (RawOs EPERM), d)
      else if bool_decide (names_in d l = []) then (Ok tt, with_tree d (delete l (tree d)))
      else (Err (RawOs ENOTEMPTY), d)
  | Ok (_, FileE _) => (Err (RawOs ENOTDIR), d)
  | Err e => (Err e, d)
  end.
(** The entries outside [l], and those that lead to a place of [left_over]. *)
Definition without (l : loc) (left_over : list loc) (t : gmap loc Entry) : gmap loc Entry :=
  filter (λ kv, ¬ l `prefix_of` kv.1 ∨ Exists (λ k, kv.1 `prefix_of` k) left_over) t.
Definition std_remove_dir_all (p : path) : Os unit := λ d,
  match lookup_path "rmdir" d p with
  | Ok (l, DirE _) =>
      if bool_decide (l = []) then (Err (RawOs EPERM), d)
      else match kept K l d with
           | Some (left_over, e) => (Err e, with_tree d (without l left_over (tree d)))
           | None => (Ok tt, with_tree d (without l [] (tree d)))
           end
  | Ok (_, FileE _) => (Err (RawOs ENOTDIR), d)
  | Err e => (Err e, d)
  end.
(** [rename(2)]: a file takes a file's place, a directory an empty directory's. *)
Definition renamed (src dst : loc) (t : gmap loc Entry) : gmap loc Entry := moved src dst t ∪ remove_tree (remove_tree t src) dst.
Definition std_rename (p q : path) : Os unit := λ d,
  match lookup_path "rename" d p with
  | Err e => (Err e, d)
  | Ok (src, e) =>
      match resolve_path d cwd q with
      | Err err => (Err err, d)
      | Ok dst =>
          if bool_decide (src = []) || bool_decide (dst = []) then (Err (RawOs EINVAL), d)
          else if bool_decide (src = dst) then (Ok tt, d)
          else if bool_decide (src `prefix_of` dst) then (Err (RawOs EINVAL), d)
          else match e, entry_at d dst with
               | DirE _, Some (FileE _) => (Err (RawOs ENOTDIR), d)
               | FileE _, Some (DirE _) => (Err (RawOs EISDIR), d)
               | DirE _, Some (DirE _) =>
                   if bool_decide (names_in d dst = []) then (Ok tt, with_tree d (renamed src dst (tree d))) else (Err (RawOs ENOTEMPTY), d)
               | _, _ => (Ok tt, with_tree d (renamed src dst (tree d)))
               end
      end
  end.

(** The disk as the broker and the sandbox's file system look at it. *)
Definition opt {A E} (r : result A E) : option A := match r with Ok a => Some a | Err _ => None end.
Definition host_of (d : HostDisk) : Host := {|
  current_dir := Some (abs_path cwd);
  canonicalize := λ p, opt (std_canonicalize d p);
  host_metadata := λ p, (λ m, {| m_is_file := md_is_file m; m_is_dir := md_is_dir m; m_len := md_len m |}) <$> opt (std_metadata d p);
  host_read := λ p, match std_read p d with
                    | Ok b => Ok b
                    | Err (RawOs code) => Err (OtherKind (Z.to_nat code), [] : rstr)
                    | Err (Kind KNotFound m) => Err (NotFound, m)
                    | Err (Kind _ m) => Err (OtherKind 0, m)
                    end;
  host_list_dir := λ p, match std_read_dir d p with Ok l => Some l.*1 | Err _ => None end;
|}.
End std.
Abbreviation Os A := (HostDisk → result A io_error * HostDisk).
