(* ===== verification/HostDiskTheorems.v ===== *)
(** * The host's disk: what each call of [std::fs] leaves alone

    [keeps S A d d']: between the two disks nothing changed outside the places of [S], except that an
    empty place of [A] may have become a directory.  Every operation of
    [HostDisk] keeps to the places its paths name. *)

From S2P Require Import Prelude RustPath DiskFs HostDisk.

(** ** Well-formed disks *)

Record wf_host (d : HostDisk) : Prop := {
  wf_parent : ∀ l n e, tree d !! (l ++ [n]) = Some e → ∃ i, entry_at d l = Some (DirE i);
  wf_fresh : ∀ l e, tree d !! l = Some e → inode e < next_ino d;
  wf_one_name : ∀ l l' i, tree d !! l = Some (FileE i) → tree d !! l' = Some (FileE i) → l = l';
}.
Lemma entry_at_tree d l e : entry_at d l = Some e → (l = [] ∧ e = DirE 0) ∨ (l ≠ [] ∧ tree d !! l = Some e).
Proof. destruct l; simpl; [intros [= <-]; auto|intros; right; done]. Qed.
Lemma entry_at_file d l i : entry_at d l = Some (FileE i) → l ≠ [] ∧ tree d !! l = Some (FileE i).
Proof. by intros [[-> ?]|?]%entry_at_tree. Qed.
Lemma entry_at_cons d l : l ≠ [] → entry_at d l = tree d !! l.
Proof. by destruct l. Qed.
Lemma entry_at_snoc d l n : entry_at d (l ++ [n]) = tree d !! (l ++ [n]).
Proof. apply entry_at_cons. by destruct l. Qed.
Lemma prefix_snoc (k l : loc) n : k `prefix_of` l ++ [n] → k = l ++ [n] ∨ k `prefix_of` l.
Proof.
  intros [r Hr]. destruct r as [|x r _] using rev_ind; [left; by rewrite app_nil_r in Hr|right].
  rewrite app_assoc in Hr. apply app_inj_2 in Hr as [-> _]; [by eexists|done].
Qed.
Lemma entry_prefix d l k e : wf_host d → entry_at d l = Some e → k `prefix_of` l → k ≠ l → ∃ i, entry_at d k = Some (DirE i).
Proof.
  intros Hw. revert e. induction l as [|n l IH] using rev_ind; intros e He Hk Hne.
  - destruct Hk as [r Hr]. by destruct k.
  - rewrite entry_at_snoc in He. apply wf_parent in He as [i Hi]; [|done].
    apply prefix_snoc in Hk as [->|Hk]; [done|]. destruct (base.decide (k = l)) as [->|]; [by eexists|]. by eapply IH.
Qed.
Lemma entry_parent d l e : wf_host d → entry_at d l = Some e → is_Some (entry_at d (parent_loc l)).
Proof.
  intros Hw He. destruct l as [|n l _] using rev_ind; [by exists (DirE 0)|]. rewrite parent_loc_snoc, entry_at_snoc in *.
  apply wf_parent in He as [i ->]; [by eexists|done].
Qed.

(** ** Paths *)

Lemma walk_app d l p q : walk_path d l (p ++ q) = (l' ← walk_path d l p; walk_path d l' q).
Proof. revert l. induction p as [|c p IH]; intros l; simpl; [done|]. destruct (entry_at d l) as [[]|]; [done|apply IH|done]. Qed.
Lemma walk_locate d l p k : walk_path d l p = Ok k → k = locate l p.
Proof.
  revert l. induction p as [|c p IH]; intros l; simpl; [by intros [= <-]|].
  destruct (entry_at d l) as [[]|]; [done| |done]. apply IH.
Qed.
Lemma walk_snoc d l p c k : walk_path d l (p ++ [c]) = Ok k →
  ∃ m i, walk_path d l p = Ok m ∧ entry_at d m = Some (DirE i) ∧ k = enter_component m c.
Proof.
  rewrite walk_app. destruct (walk_path d l p) as [m|] eqn:E; [|done]. simpl. destruct (entry_at d m) as [[|i]|] eqn:Em; [done| |done].
  intros [= <-]. eauto.
Qed.
(** Only a name that is not there yet leads to an empty place. *)
Lemma walk_empty d l p k : wf_host d → walk_path d l p = Ok k → entry_at d k = None → is_Some (entry_at d l) →
  ∃ q n m i, p = q ++ [Normal n] ∧ walk_path d l q = Ok m ∧ entry_at d m = Some (DirE i) ∧ k = m ++ [n].
Proof.
  intros Hw Hp Hk Hl. destruct p as [|c q _] using rev_ind; [simpl in Hp; simplify_eq; rewrite Hk in Hl; by destruct Hl|].
  apply walk_snoc in Hp as (m & i & Hq & Hm & ->). destruct c as [| | |n]; simpl in Hk.
  - done.
  - congruence.
  - apply (entry_parent d m) in Hm as [? Hm]; [|done]. unfold parent_loc in Hm. congruence.
  - by exists q, n, m, i.
Qed.
Lemma walk_dirs d l k : wf_host d → is_Some (entry_at d (l ++ k)) → walk_path d l (Normal <$> k) = Ok (l ++ k).
Proof.
  revert l. induction k as [|n k IH]; intros l Hw [e He]; simpl; [by rewrite app_nil_r|].
  destruct (entry_prefix d (l ++ n :: k) l e Hw He) as [i ->]; [by eexists|intros E%(f_equal length); rewrite length_app in E; simpl in E; lia|].
  replace (l ++ n :: k) with ((l ++ [n]) ++ k) in * by by rewrite <-app_assoc. apply IH; [done|by eexists].
Qed.
Lemma resolve_cases d cwd p l : resolve_path d cwd p = Ok l →
  has_nul p = false ∧ p ≠ [] ∧
  ((∃ q, p = RootDir :: q ∧ walk_path d [] q = Ok l) ∨ (is_absolute p = false ∧ walk_path d cwd p = Ok l ∧ is_Some (entry_at d cwd))).
Proof.
  unfold resolve_path. destruct (has_nul p); [done|]. destruct p as [|c q]; [done|]. intros H. split; [done|]. split; [done|].
  assert (Hcwd : walk_path d cwd (c :: q) = Ok l → is_Some (entry_at d cwd)) by (simpl; destruct (entry_at d cwd); [by eexists|done]).
  destruct c; [left; eauto|right; auto..].
Qed.
Lemma resolve_locate d cwd p l : resolve_path d cwd p = Ok l → l = locate cwd p.
Proof. intros (_ & _ & [(q & -> & H)|(_ & H & _)])%resolve_cases; apply walk_locate in H; done. Qed.
(** An empty place is named by its parent and a name. *)
Lemma resolve_empty d cwd p l : wf_host d → resolve_path d cwd p = Ok l → entry_at d l = None →
  ∃ q n m i, p = q ++ [Normal n] ∧ entry_at d m = Some (DirE i) ∧ l = m ++ [n] ∧ m = locate cwd q ∧ (q = [] ∨ resolve_path d cwd q = Ok m).
Proof.
  intros Hw H Hl. pose proof H as (Hn & _ & Hc)%resolve_cases. assert (Hnul : ∀ q c, p = q ++ [c] → has_nul q = false).
  { intros q c ->. unfold has_nul in Hn. rewrite existsb_app in Hn. by apply orb_false_iff in Hn as [? _]. }
  destruct Hc as [(q & -> & Hq)|(Ha & Hq & Hc)].
  - apply walk_empty in Hq as (q' & n & m & i & -> & Hm & Hd & ->); [|done..|by eexists]. exists (RootDir :: q'), n, m, i.
    split_and!; [done..|simpl; by apply walk_locate in Hm|]. right. unfold resolve_path. by rewrite (Hnul (RootDir :: q') (Normal n)).
  - apply walk_empty in Hq as (q' & n & m & i & -> & Hm & Hd & ->); [|done..]. exists q', n, m, i.
    split_and!; [done..|by apply walk_locate in Hm|]. destruct q' as [|c q']; [by left|right]. unfold resolve_path.
    rewrite (Hnul (c :: q') (Normal n)) by done. by destruct c.
Qed.
Lemma resolve_parent d cwd p l n : wf_host d → resolve_path d cwd p = Ok (l ++ [n]) → entry_at d (l ++ [n]) = None →
  ∃ i, entry_at d l = Some (DirE i).
Proof. intros Hw H He. apply resolve_empty in H as (q & n' & m & i & _ & Hm & E & _); [|done..]. apply app_inj_2 in E as [-> _]; [by exists i|done]. Qed.
(** ** Keeping to places *)

Section keeps.
Context (S A : loc → Prop).
Context (S_up : ∀ k k', S k → k `prefix_of` k' → S k').
Record keeps (d d' : HostDisk) : Prop := {
  keeps_wf : wf_host d';
  keeps_next : next_ino d ≤ next_ino d';
  keeps_seen : ∀ k, ¬ S k → seen_at d' k = seen_at d k ∨ (seen_at d k = None ∧ seen_at d' k = Some None ∧ A k);
  keeps_files : ∀ i l, i < next_ino d → entry_at d' l = Some (FileE i) → entry_at d l = Some (FileE i) ∨ S l;
}.
Lemma keeps_same d : wf_host d → keeps d d.
Proof. split; auto. Qed.
Lemma keeps_then d1 d2 d3 : keeps d1 d2 → keeps d2 d3 → keeps d1 d3.
Proof.
  intros [W1 N1 K1 F1] [W2 N2 K2 F2]. split; [done|lia| |].
  - intros k Hk. destruct (K1 k Hk) as [E1|(E1 & E1' & HA)], (K2 k Hk) as [E2|(E2 & E2' & HA')]; rewrite ?E2, ?E2'; try (by left);
      try (right; naive_solver congruence).
  - intros i l Hi Hl. destruct (F2 i l) as [H|H]; [lia|done| |by right]. by apply F1.
Qed.
Lemma keeps_mode d i mode : wf_host d → keeps d (with_mode d i mode).
Proof. intros []. split; [by split|done|by left|by left]. Qed.
Lemma seen_content_other d i data l : entry_at d l ≠ Some (FileE i) → seen_at (with_content d i data) l = seen_at d l.
Proof.
  intros Hl. unfold seen_at. change (entry_at (with_content d i data) l) with (entry_at d l).
  destruct (entry_at d l) as [[j|]|]; [|done..]. unfold data_of. simpl. rewrite lookup_insert_ne; [done|]. by intros ->.
Qed.
Lemma keeps_content d i data : wf_host d → (∀ l, entry_at d l = Some (FileE i) → S l) → keeps d (with_content d i data).
Proof.
  intros Hw Hi. destruct Hw. split; [by split|done| |by left]. intros k Hk. left. apply seen_content_other. intros E. by apply Hk, Hi.
Qed.
Lemma keeps_created d l n e mode : wf_host d → (∃ i, entry_at d l = Some (DirE i)) → entry_at d (l ++ [n]) = None →
  (∀ i, inode (e i) = i) → S (l ++ [n]) ∨ ((∀ i, e i = DirE i) ∧ A (l ++ [n])) → keeps d (created d (l ++ [n]) e mode).
Proof.
  intros Hw [i Hl] Hn He Hplace. set (k := l ++ [n]) in *. pose proof Hw as [Wp Wf W1].
  assert (Hk : k ≠ []) by (by destruct l). rewrite entry_at_cons in Hn by done.
  assert (Hother : ∀ m, m ≠ k → entry_at (created d k e mode) m = entry_at d m).
  { intros m Hm. destruct m; [done|]. simpl. by rewrite lookup_insert_ne by done. }
  assert (Hnew : entry_at (created d k e mode) k = Some (e (next_ino d))).
  { rewrite entry_at_cons by done. simpl. by rewrite lookup_insert_eq. }
  assert (Hseen : ∀ m, m ≠ k → seen_at (created d k e mode) m = seen_at d m).
  { intros m Hm. unfold seen_at. rewrite Hother by done. destruct (entry_at d m) as [[j|]|] eqn:Em; [|done..].
    apply entry_at_file in Em as [_ Em]. apply Wf in Em. simpl in Em. unfold data_of. simpl. by rewrite lookup_insert_ne by lia. }
  split.
  - split.
    + intros m n' e'. simpl. destruct (base.decide (m ++ [n'] = k)) as [E|E].
      * apply app_inj_2 in E as [-> _]; [|done]. rewrite Hother; [by exists i|]. intros E%(f_equal length). unfold k in E. rewrite length_app in E. simpl in E. lia.
      * rewrite lookup_insert_ne by done. intros [j Hj]%Wp. destruct (base.decide (m = k)) as [->|]; [|rewrite Hother by done; by exists j].
        rewrite entry_at_cons in Hj by done. congruence.
    + intros m e'. simpl. destruct (base.decide (m = k)) as [->|]; [rewrite lookup_insert_eq; intros [= <-]; rewrite He; lia|].
      rewrite lookup_insert_ne by done. intros ?%Wf. lia.
    + intros m m' j. simpl. destruct (base.decide (m = k)) as [->|], (base.decide (m' = k)) as [->|]; rewrite ?lookup_insert_eq, ?lookup_insert_ne by done;
        [done| | |apply W1].
      * intros [= E] H%Wf. simpl in H. pose proof (He (next_ino d)) as Hi. rewrite E in Hi. simpl in Hi. lia.
      * intros H%Wf [= E]. simpl in H. pose proof (He (next_ino d)) as Hi. rewrite E in Hi. simpl in Hi. lia.
  - simpl. lia.
  - intros m Hm. destruct (base.decide (m = k)) as [->|]; [|left; by apply Hseen]. destruct Hplace as [HS|[Hd HA]]; [done|]. right.
    unfold seen_at. rewrite Hnew, Hd, entry_at_cons, Hn by done. done.
  - intros j m Hj. destruct (base.decide (m = k)) as [->|]; [|rewrite Hother by done; by left]. rewrite Hnew. intros [= E].
    pose proof (He (next_ino d)) as Hi. rewrite E in Hi. simpl in Hi. lia.
Qed.
(** A tree with some of its entries gone. *)
Lemma keeps_less (d : HostDisk) (t : gmap loc Entry) : wf_host d → t ⊆ tree d →
  (∀ l n, is_Some (t !! (l ++ [n])) → l = [] ∨ is_Some (t !! l)) → (∀ l, ¬ S l → t !! l = tree d !! l) → keeps d (with_tree d t).
Proof.
  intros [Wp Wf W1] Hsub Hup Hout.
  assert (Hin : ∀ l e, t !! l = Some e → tree d !! l = Some e) by (intros; by eapply lookup_weaken).
  assert (He : ∀ l, ¬ S l → entry_at (with_tree d t) l = entry_at d l) by (intros [|]; [done|apply Hout]).
  split; [split|done| |].
  - intros l n e Ht. simpl in Ht. destruct (Wp l n e (Hin _ _ Ht)) as [i Hi]. exists i. destruct (base.decide (l = [])) as [->|]; [done|].
    rewrite entry_at_cons in Hi |- * by done. destruct (Hup l n) as [->|[e' He']]; [by eexists|done|]. simpl. rewrite He'. by rewrite (Hin _ _ He') in Hi.
  - intros l e Ht%Hin. by apply Wf in Ht.
  - intros l l' i Ht%Hin Ht'%Hin. by eapply W1.
  - intros k Hk. left. unfold seen_at. by rewrite He.
  - intros i l _ Hl. left. apply entry_at_file in Hl as [Hn Hl]. rewrite entry_at_cons by done. by apply Hin.
Qed.
Lemma keeps_deleted d l : wf_host d → S l → (∀ n, tree d !! (l ++ [n]) = None) → keeps d (with_tree d (delete l (tree d))).
Proof.
  intros Hw Hl Hn. apply keeps_less; [done|apply delete_subseteq| |].
  - intros k n [e [Hk He]%lookup_delete_Some]. destruct (base.decide (k = [])) as [|]; [by left|right].
    destruct (wf_parent d Hw _ _ _ He) as [i Hi]. rewrite entry_at_cons in Hi by done. exists (DirE i). apply lookup_delete_Some.
    split; [|done]. intros ->. by rewrite Hn in He.
  - intros k Hk. apply lookup_delete_ne. by intros ->.
Qed.
Lemma keeps_without d l left_over : wf_host d → S l → keeps d (with_tree d (without l left_over (tree d))).
Proof using S_up.
  intros Hw Hl. apply keeps_less; [done|apply map_filter_subseteq| |].
  - intros k n [e [He Hk]%map_lookup_filter_Some]. destruct (base.decide (k = [])) as [|]; [by left|right].
    destruct (wf_parent d Hw _ _ _ He) as [i Hi]. rewrite entry_at_cons in Hi by done. exists (DirE i).
    apply map_lookup_filter_Some. split; [done|]. simpl in *. destruct Hk as [Hk|Hk].
    + left. intros Hp. apply Hk. etrans; [exact Hp|by eexists].
    + right. eapply Exists_impl; [exact Hk|]. simpl. intros m Hm. etrans; [by eexists|exact Hm].
  - intros k Hk. unfold without. destruct (tree d !! k) as [e|] eqn:E; [|by apply map_lookup_filter_None; left].
    apply map_lookup_filter_Some. split; [done|]. simpl. left. intros Hp. by eapply Hk, S_up.
Qed.
Lemma lookup_renamed src dst t k :
  renamed src dst t !! k = if bool_decide (dst `prefix_of` k) then t !! (src ++ drop (length dst) k)
                           else if bool_decide (src `prefix_of` k) then None else t !! k.
Proof.
  unfold renamed. rewrite lookup_union, lookup_moved, !lookup_remove_tree. case_bool_decide; [|by rewrite (left_id None _)].
  by destruct (t !! _).
Qed.
Lemma prefix_drop (dst k : loc) : dst `prefix_of` k → k = dst ++ drop (length dst) k.
Proof. intros [r ->]. by rewrite drop_app_length. Qed.
Lemma keeps_renamed d src dst e : wf_host d → S src → S dst → src ≠ [] → dst ≠ [] → ¬ src `prefix_of` dst →
  entry_at d src = Some e → (∃ i, entry_at d (parent_loc dst) = Some (DirE i)) →
  keeps d (with_tree d (renamed src dst (tree d))).
Proof using S_up.
  intros Hw Hs Hd Hsn Hdn Hnp He [i Hi]. pose proof Hw as [Wp Wf W1]. rewrite entry_at_cons in He by done.
  assert (Hl := lookup_renamed src dst (tree d)).
  assert (Hout : ∀ k, ¬ S k → renamed src dst (tree d) !! k = tree d !! k).
  { intros k Hk. rewrite Hl, !bool_decide_eq_false_2; [done|intros Hp; apply Hk; eapply S_up; [|exact Hp]; done..]. }
  assert (Hold : ∀ k x, renamed src dst (tree d) !! k = Some x →
    (dst `prefix_of` k ∧ tree d !! (src ++ drop (length dst) k) = Some x) ∨ (¬ dst `prefix_of` k ∧ ¬ src `prefix_of` k ∧ tree d !! k = Some x)).
  { intros k x. rewrite Hl. case_bool_decide; [by left|]. case_bool_decide; [done|]. intros ?. by right. }
  split; [split|done| |].
  - intros k n x. simpl. rewrite Hl. case_bool_decide as Hp.
    + destruct (base.decide (k ++ [n] = dst)) as [E|Hne].
      * intros _. assert (Hk : k = parent_loc dst) by by rewrite <-E, parent_loc_snoc. rewrite <-Hk in Hi.
        destruct (base.decide (k = [])) as [->|Hk0]; [by exists 0|]. rewrite entry_at_cons in Hi |- * by done. simpl. rewrite Hl.
        rewrite bool_decide_eq_false_2 by (rewrite <-E; intros [r Hr%(f_equal length)]; rewrite !length_app in Hr; simpl in Hr; lia).
        rewrite bool_decide_eq_false_2; [by exists i|]. intros Hsk. apply Hnp. rewrite <-E. etrans; [exact Hsk|by eexists].
      * apply prefix_snoc in Hp as [->|Hp]; [done|]. destruct (prefix_drop dst k Hp) as [E]. intros Hx.
        rewrite drop_app_le in Hx by (apply prefix_length in Hp; lia). rewrite app_assoc in Hx. destruct (Wp _ _ _ Hx) as [j Hj].
        assert (k ≠ []) by (intros ->; apply prefix_nil_inv in Hp; done). rewrite entry_at_cons by done. simpl.
        rewrite Hl, bool_decide_eq_true_2 by done. rewrite entry_at_cons in Hj by (by destruct src). by exists j.
    + case_bool_decide as Hp'; [done|]. intros [j Hj]%Wp. exists j. destruct (base.decide (k = [])) as [->|]; [done|].
      rewrite entry_at_cons in Hj |- * by done. simpl. rewrite Hl, !bool_decide_eq_false_2; [done|intros Hq..].
      * apply Hp'. etrans; [exact Hq|by eexists].
      * apply Hp. etrans; [exact Hq|by eexists].
  - intros k x [[_ Hx]|(_ & _ & Hx)]%Hold; by apply Wf in Hx.
  - intros k k' j [[Hk Hx]|(Hk & Hk2 & Hx)]%Hold [[Hk' Hx']|(Hk' & Hk2' & Hx')]%Hold; pose proof (W1 _ _ _ Hx Hx') as E.
    + apply app_inv_head in E. rewrite (prefix_drop _ _ Hk), (prefix_drop _ _ Hk'). by f_equal.
    + destruct Hk2'. rewrite <-E. by eexists.
    + destruct Hk2. rewrite E. by eexists.
    + done.
  - intros k Hk. left. unfold seen_at. assert (entry_at (with_tree d (renamed src dst (tree d))) k = entry_at d k) as ->; [|done].
    destruct k; [done|]. by apply Hout.
  - intros j k _ Hk. apply entry_at_file in Hk as [Hn Hk]. apply Hold in Hk as [[Hk _]|(_ & _ & Hk)]; [right; eapply S_up; [|exact Hk]; done|left].
    by rewrite entry_at_cons.
Qed.
End keeps.

(** ** The calls *)

(** A path of names, absolute or not. *)
Definition plain (p : path) : Prop := ∃ names, p = Normal <$> names ∨ p = CurDir :: (Normal <$> names) ∨ p = RootDir :: (Normal <$> names).
Lemma plain_parent cwd p q : plain p → parent p = Some q → plain q ∧ locate cwd q `prefix_of` locate cwd p.
Proof.
  intros (names & Hp) (c & -> & Hc)%parent_Some. rewrite locate_app.
  assert (∃ ns n, (q = Normal <$> ns ∨ q = CurDir :: (Normal <$> ns) ∨ q = RootDir :: (Normal <$> ns)) ∧ (c = Normal n ∨ q = [] ∧ c = CurDir)) as (ns & n & Hq & Hcn).
  { destruct names as [|n ns _] using rev_ind.
    - exists [], []. destruct q as [|x q]; simpl in Hp; destruct Hp as [Hp|[Hp|Hp]]; simplify_eq; try (by destruct q); auto.
    - exists ns, n. rewrite fmap_app in Hp. simpl in Hp. destruct Hp as [Hp|[Hp|Hp]].
      + apply app_inj_2 in Hp as [-> Hp]; [simplify_eq; auto|done].
      + change (CurDir :: (Normal <$> ns) ++ [Normal n]) with ((CurDir :: (Normal <$> ns)) ++ [Normal n]) in Hp.
        apply app_inj_2 in Hp as [-> Hp]; [simplify_eq; auto|done].
      + change (RootDir :: (Normal <$> ns) ++ [Normal n]) with ((RootDir :: (Normal <$> ns)) ++ [Normal n]) in Hp.
        apply app_inj_2 in Hp as [-> Hp]; [simplify_eq; auto|done]. }
  split; [by exists ns|]. destruct Hcn as [-> |[-> ->]]; simpl; [by eexists|done].
Qed.

Section calls.
Context (K : Kernel) (cwd : loc) (S A : loc → Prop).
Context (S_up : ∀ k k', S k → k `prefix_of` k' → S k') (A_down : ∀ k k', A k → k' `prefix_of` k → A k').
Set Default Proof Using "All".
#[local] Abbreviation keeps := (keeps S A).
Definition writable_at (d : HostDisk) (p : path) : Prop := ∀ l, resolve_path d cwd p = Ok l → S l.
(** A handle to write with is one of a file inside [S]. *)
Definition file_ok (d : HostDisk) (f : File) : Prop :=
  f_writable f = true → ∀ i, f_entry f = FileE i → i < next_ino d ∧ ∀ l, entry_at d l = Some (FileE i) → S l.
Lemma keeps_file_ok d d' f : keeps d d' → file_ok d f → file_ok d' f.
Proof.
  intros H Hf Hw i Hi. destruct (Hf Hw i Hi) as [Hlt Hl]. split; [pose proof (keeps_next _ _ _ _ H); lia|].
  intros l Hl'. apply (keeps_files _ _ _ _ H) in Hl' as [Hl'|]; auto.
Qed.
Lemma std_open_keeps o p d r d' : wf_host d → std_open K cwd o p d = (r, d') → (o_write o || o_append o = true → writable_at d p) →
  keeps d d' ∧ ∀ f, r = Ok f → file_ok d' f.
Proof.
  intros Hw Ho Hp. unfold std_open in Ho. destruct (HostDisk.invalid_options o) eqn:Ev; [simplify_eq; split; [by apply keeps_same|done]|].
  destruct (refuse K "open" p d); [simplify_eq; split; [by apply keeps_same|done]|].
  destruct (resolve_path d cwd p) as [l|] eqn:Er; [|simplify_eq; split; [by apply keeps_same|done]].
  unfold HostDisk.invalid_options in Ev. destruct (o_write o || o_append o) eqn:Ewa.
  - specialize (Hp eq_refl l Er). destruct (entry_at d l) as [[i|i]|] eqn:El.
    + destruct (o_create_new o); [simplify_eq; split; [by apply keeps_same|done]|]. simplify_eq.
      assert (Hi : ∀ k, entry_at d k = Some (FileE i) → S k).
      { intros k Hk. apply entry_at_file in Hk as [_ Hk], El as [_ El]. by rewrite (wf_one_name d Hw _ _ _ Hk El). }
      split; [destruct (o_truncate o); [by apply keeps_content|by apply keeps_same]|]. intros f [= <-] _ j [= <-].
      apply entry_at_file in El as [_ El]. apply (wf_fresh d Hw) in El. simpl in El. split; [by destruct (o_truncate o)|].
      intros k Hk. apply Hi. by destruct (o_truncate o).
    + destruct (o_create_new o); simplify_eq; (split; [by apply keeps_same|done]).
    + destruct (o_create o || o_create_new o); [|simplify_eq; split; [by apply keeps_same|done]]. simplify_eq.
      pose proof Er as (q & n & m & j & _ & Hm & -> & _)%resolve_empty; [|done..].
      split; [apply keeps_created; eauto|]. intros f [= <-] _ i [= <-]. split; [simpl; lia|]. intros k Hk.
      assert (Hmn : m ++ [n] ≠ []) by (by destruct m). apply entry_at_file in Hk as [Hkn Hk]. simpl in Hk.
      destruct (base.decide (k = m ++ [n])) as [->|]; [done|]. rewrite lookup_insert_ne in Hk by done.
      apply (wf_fresh d Hw) in Hk. simpl in Hk. lia.
  - apply orb_false_iff in Ewa as [Ew Ea]. rewrite Ew, Ea in Ev. simpl in Ev. rewrite orb_false_r in Ev. apply orb_false_iff in Ev as [Ev1 Ev2].
    apply orb_false_iff in Ev2 as [[Et Ec]%orb_false_iff En]. rewrite Et, Ec, En in Ho. simpl in Ho.
    assert (Hro : ∀ f e, f = opened o e → file_ok d f) by (intros f e -> Hf; simpl in Hf; by rewrite Ew, Ea in Hf).
    destruct (entry_at d l) as [[i|i]|] eqn:El.
    + simplify_eq. split; [by apply keeps_same|]. intros f [= <-]. by eapply Hro.
    + simplify_eq. split; [by apply keeps_same|]. intros f [= <-]. by eapply Hro.
    + simplify_eq. split; [by apply keeps_same|done].
Qed.
Lemma file_write_keeps f bytes d r f' d' : wf_host d → file_ok d f → file_write_all K f bytes d = (r, f', d') → keeps d d' ∧ file_ok d' f'.
Proof.
  intros Hw Hf H. unfold file_write_all in H. case_bool_decide; [simplify_eq; split; [by apply keeps_same|done]|].
  destruct (refuse_file K "write" d); [simplify_eq; split; [by apply keeps_same|done]|].
  destruct (f_writable f) eqn:Ef; simpl in H; [|simplify_eq; split; [by apply keeps_same|done]].
  destruct (f_entry f) as [i|] eqn:Ei; [|simplify_eq; split; [by apply keeps_same|done]]. destruct (Hf Ef i Ei) as [Hi Hl].
  assert (Hk : ∀ data, keeps d (with_content d i data)) by (intros; by apply keeps_content).
  assert (Hat : ∀ pos, file_ok d (at_pos f pos)) by (intros pos Hp j Hj; by apply Hf).
  destruct (cut_write K d bytes) as [[n e]|]; simplify_eq; (split; [apply Hk|eapply keeps_file_ok; [apply Hk|apply Hat]]).
Qed.
Lemma write_opened o p data d r d' : wf_host d → (o_write o || o_append o = true → writable_at d p) →
  (match std_open K cwd o p d with (Ok f, d) => let '(r, _, d) := file_write_all K f data d in (r, d) | (Err e, d) => (Err e, d) end) = (r, d') →
  keeps d d'.
Proof.
  intros Hw Hp H. destruct (std_open K cwd o p d) as [ro d1] eqn:Eo. apply std_open_keeps in Eo as [H1 Hf]; [|done..].
  destruct ro as [f|e]; [|by simplify_eq].
  destruct (file_write_all K f data d1) as [[r1 f1] d2] eqn:Ew. apply file_write_keeps in Ew as [H2 _]; [|by eapply keeps_wf|by apply Hf].
  simplify_eq. by eapply keeps_then.
Qed.
Lemma std_write_keeps p data d r d' : wf_host d → writable_at d p → std_write K cwd p data d = (r, d') → keeps d d'.
Proof. intros Hw Hp H. eapply (write_opened write_options); [done|by intros _|exact H]. Qed.
Lemma std_copy_keeps p q d r d' : wf_host d → writable_at d q → std_copy K cwd p q d = (r, d') → keeps d d'.
Proof.
  intros Hw Hq H. unfold std_copy in H. destruct (std_open K cwd read_options p d) as [[f|e] d1] eqn:Eo.
  2:{ apply std_open_keeps in Eo as [? _]; [by simplify_eq|done..]. }
  assert (d1 = d) as ->.
  { unfold std_open in Eo. simpl in Eo. repeat case_match; by simplify_eq. }
  destruct (f_entry f) as [i|]; [|simplify_eq; by apply keeps_same].
  destruct (std_open K cwd write_options q d) as [ro d2] eqn:Eg. apply std_open_keeps in Eg as [H2 Hg]; [|done..].
  destruct ro as [g|e]; [|by simplify_eq].
  assert (Hm : keeps d2 (with_mode d2 (inode (f_entry g)) (default 0%Z (modes d2 !! i)))) by (eapply keeps_mode, keeps_wf, H2).
  destruct (file_write_all K g _ _) as [[r1 f1] d3] eqn:Ew. apply file_write_keeps in Ew as [H3 _];
    [simplify_eq; eapply keeps_then; [exact H2|by eapply keeps_then]|by eapply keeps_wf|]. eapply keeps_file_ok; [exact Hm|by apply Hg].
Qed.
Lemma file_set_len_keeps f n d r d' : wf_host d → file_ok d f → file_set_len K f n d = (r, d') → keeps d d'.
Proof.
  intros Hw Hf H. unfold file_set_len, file_refused in H. destruct (refuse_file K _ d); [simplify_eq; by apply keeps_same|].
  destruct (f_writable f) eqn:Ef; [|rewrite orb_true_r in H; simplify_eq; by apply keeps_same].
  destruct (_ || _); [simplify_eq; by apply keeps_same|]. destruct (f_entry f) as [i|] eqn:Ei; simplify_eq; [|by apply keeps_same].
  apply keeps_content; [done|]. by apply Hf.
Qed.
Lemma std_set_permissions_keeps p mode d r d' : wf_host d → std_set_permissions K cwd p mode d = (r, d') → keeps d d'.
Proof. intros Hw H. unfold std_set_permissions in H. destruct (lookup_path _ _ _ _ _); simplify_eq; [by apply keeps_mode|by apply keeps_same]. Qed.
Lemma lookup_path_ok name d p l e : lookup_path K cwd name d p = Ok (l, e) → resolve_path d cwd p = Ok l ∧ entry_at d l = Some e.
Proof.
  unfold lookup_path. destruct (refuse K name p d); [done|]. destruct (resolve_path d cwd p) as [k|]; [|done]. simpl.
  destruct (entry_at d k) eqn:E; [|done]. by intros [= <- <-].
Qed.
Lemma std_create_dir_keeps p d r d' : wf_host d → (∀ l, resolve_path d cwd p = Ok l → entry_at d l = None → S l ∨ A l) →
  std_create_dir K cwd p d = (r, d') → keeps d d'.
Proof.
  intros Hw Hp H. unfold std_create_dir in H. destruct (refuse K "mkdir" p d); [simplify_eq; by apply keeps_same|].
  destruct (resolve_path d cwd p) as [l|] eqn:Er; [|simplify_eq; by apply keeps_same].
  destruct (entry_at d l) eqn:El; simplify_eq; [by apply keeps_same|].
  pose proof Er as (q & n & m & j & _ & Hm & -> & _)%resolve_empty; [|done..]. apply keeps_created; [done|by exists j|done..|].
  destruct (Hp _ eq_refl El); [by left|right; done].
Qed.
(** Over a path that is there, [create_dir_all] does nothing. *)
Lemma std_create_dir_there p d l : resolve_path d cwd p = Ok l → is_Some (entry_at d l) → ∃ e, std_create_dir K cwd p d = (Err e, d).
Proof. intros Hr [x Hx]. unfold std_create_dir. destruct (refuse K "mkdir" p d); [by eexists|]. rewrite Hr, Hx. by eexists. Qed.
Lemma resolve_front d p q l : wf_host d → resolve_path d cwd p = Ok l → parent p = Some q → q = [] ∨ ∃ m, resolve_path d cwd q = Ok m ∧ is_Some (entry_at d m).
Proof.
  intros Hw (Hn & _ & Hc)%resolve_cases (c & -> & Hcr)%parent_Some.
  assert (has_nul q = false) as Hq. { unfold has_nul in Hn. rewrite existsb_app in Hn. by apply orb_false_iff in Hn as [? _]. }
  destruct q as [|x q]; [by left|right]. unfold resolve_path. rewrite Hq. destruct Hc as [(q' & E & Hw')|(Ha & Hw' & _)].
  - simpl in E. injection E as -> <-. apply walk_snoc in Hw' as (m & i & Hm & He & _). exists m. split; [done|]. rewrite He. by eexists.
  - apply walk_snoc in Hw' as (m & i & Hm & He & _). exists m. split; [|rewrite He; by eexists]. by destruct x.
Qed.
Lemma create_all_there fuel p d l : wf_host d → resolve_path d cwd p = Ok l → is_Some (entry_at d l) → (create_all K cwd fuel p d).2 = d.
Proof.
  intros Hw. revert p l. induction fuel as [|fuel IH]; intros p l Hr Hl; destruct (std_create_dir_there p d l Hr Hl) as [e He];
    simpl; (case_bool_decide; [done|]); rewrite He; (destruct (is_not_found e); [|by destruct (std_is_dir _ _ _ _)]); [done|].
  destruct (parent p) as [q|] eqn:Eq; [|done].
  assert ((create_all K cwd fuel q d).2 = d) as Hq.
  { destruct (resolve_front d p q l Hw Hr Eq) as [-> |(m & Hm & Hs)]; [by destruct fuel|by eapply IH]. }
  destruct (create_all K cwd fuel q d) as [[] d1]; simpl in Hq; subst d1; [|done]. rewrite He. by destruct (std_is_dir _ _ _ _).
Qed.
Lemma create_all_keeps fuel p d r d' : wf_host d → plain p → A (locate cwd p) → create_all K cwd fuel p d = (r, d') → keeps d d'.
Proof.
  revert p d r d'. induction fuel as [|fuel IH]; intros p d r d' Hw Hp HA H; simpl in H;
    (case_bool_decide; [simplify_eq; by apply keeps_same|]);
    assert (Hdir : ∀ d1 r1 d2, wf_host d1 → std_create_dir K cwd p d1 = (r1, d2) → keeps d1 d2)
      by (intros d1 r1 d2 Hw1 H1; eapply std_create_dir_keeps; [done| |exact H1]; intros l Hl%resolve_locate _; subst l; by right);
    destruct (std_create_dir K cwd p d) as [[u|e] d1] eqn:E1; pose proof (Hdir _ _ _ Hw E1) as K1; [by simplify_eq| |by simplify_eq|].
  - destruct (is_not_found e); [by simplify_eq|]. destruct (std_is_dir K cwd d1 p); by simplify_eq.
  - destruct (is_not_found e); [|destruct (std_is_dir K cwd d1 p); by simplify_eq]. destruct (parent p) as [q|] eqn:Eq; [|by simplify_eq].
    destruct (plain_parent cwd p q Hp Eq) as [Hq Hpre]. pose proof (keeps_wf _ _ _ _ K1) as W1.
    destruct (create_all K cwd fuel q d1) as [[u|e2] d2] eqn:E2; pose proof (IH _ _ _ _ W1 Hq (A_down _ _ HA Hpre) E2) as K2;
      [|simplify_eq; by eapply keeps_then].
    pose proof (keeps_wf _ _ _ _ K2) as W2. destruct (std_create_dir K cwd p d2) as [[u3|e3] d3] eqn:E3; pose proof (Hdir _ _ _ W2 E3) as K3;
      [|destruct (std_is_dir K cwd d3 p)]; simplify_eq; (eapply keeps_then; [exact K1|by eapply keeps_then]).
Qed.
Lemma file_no_children d l i : wf_host d → entry_at d l = Some (FileE i) → ∀ n, tree d !! (l ++ [n]) = None.
Proof. intros Hw Hl n. destruct (tree d !! (l ++ [n])) eqn:E; [|done]. apply (wf_parent d Hw) in E as [j E]. congruence. Qed.
Lemma no_names_no_children d l : names_in d l = [] → ∀ n, tree d !! (l ++ [n]) = None.
Proof.
  intros H n. destruct (tree d !! (l ++ [n])) as [e|] eqn:E; [|done]. exfalso. apply elem_of_map_to_list in E.
  assert (n ∈ names_in d l) as Hin; [|rewrite H in Hin; by apply elem_of_nil in Hin].
  unfold names_in. apply list_elem_of_omap. exists (l ++ [n], e). split; [done|]. unfold name_in. simpl. by rewrite parent_loc_snoc, bool_decide_eq_true_2, last_snoc.
Qed.
Lemma std_remove_file_keeps p d r d' : wf_host d → writable_at d p → std_remove_file K cwd p d = (r, d') → keeps d d'.
Proof.
  intros Hw Hp H. unfold std_remove_file in H. destruct (lookup_path K cwd "unlink" d p) as [[l [i|i]]|] eqn:E; simplify_eq; [|by apply keeps_same..].
  apply lookup_path_ok in E as [Hr He]. apply keeps_deleted; [done|by apply Hp|by eapply file_no_children].
Qed.
Lemma std_remove_dir_keeps p d r d' : wf_host d → writable_at d p → std_remove_dir K cwd p d = (r, d') → keeps d d'.
Proof.
  intros Hw Hp H. unfold std_remove_dir in H. destruct (lookup_path K cwd "rmdir" d p) as [[l [i|i]]|] eqn:E; [simplify_eq; by apply keeps_same| |simplify_eq; by apply keeps_same].
  apply lookup_path_ok in E as [Hr He]. case_bool_decide; [simplify_eq; by apply keeps_same|]. case_bool_decide as Hn; simplify_eq; [|by apply keeps_same].
  apply keeps_deleted; [done|by apply Hp|by apply no_names_no_children].
Qed.
Lemma std_remove_dir_all_keeps p d r d' : wf_host d → writable_at d p → std_remove_dir_all K cwd p d = (r, d') → keeps d d'.
Proof.
  intros Hw Hp H. unfold std_remove_dir_all in H. destruct (lookup_path K cwd "rmdir" d p) as [[l [i|i]]|] eqn:E; [simplify_eq; by apply keeps_same| |simplify_eq; by apply keeps_same].
  apply lookup_path_ok in E as [Hr He]. case_bool_decide; [simplify_eq; by apply keeps_same|].
  destruct (kept K l d) as [[left_over e]|]; simplify_eq; apply keeps_without; (done || by apply Hp).
Qed.
Lemma std_rename_keeps p q d r d' : wf_host d → writable_at d p → writable_at d q → std_rename K cwd p q d = (r, d') → keeps d d'.
Proof.
  intros Hw Hp Hq H. unfold std_rename in H. destruct (lookup_path K cwd "rename" d p) as [[src e]|] eqn:E; [|simplify_eq; by apply keeps_same].
  apply lookup_path_ok in E as [Hr He]. destruct (resolve_path d cwd q) as [dst|] eqn:Er; [|simplify_eq; by apply keeps_same].
  destruct (bool_decide (src = []) || bool_decide (dst = [])) eqn:E0; [simplify_eq; by apply keeps_same|].
  apply orb_false_iff in E0 as [Hs0%bool_decide_eq_false Hd0%bool_decide_eq_false].
  case_bool_decide as Hsd; [simplify_eq; by apply keeps_same|]. case_bool_decide as Hpre; [simplify_eq; by apply keeps_same|].
  assert (Hgo : keeps d (with_tree d (renamed src dst (tree d)))).
  { eapply keeps_renamed; [done|done|by apply Hp|by apply Hq|done..|exact He|]. destruct (entry_at d dst) as [x|] eqn:Ed.
    - eapply entry_prefix; [done|exact Ed|apply parent_loc_prefix|]. intros E%(f_equal length). unfold parent_loc in E.
      rewrite length_take in E. destruct dst; [done|]. simpl in E. lia.
    - pose proof Er as (q' & n & m & i & _ & Hm & -> & _)%resolve_empty; [|done..]. rewrite parent_loc_snoc. by exists i. }
  destruct e, (entry_at d dst) as [[]|]; repeat case_bool_decide; simplify_eq; (exact Hgo || by apply keeps_same).
Qed.
(** Writing a file makes no directory, so that paths lead where they led. *)
Definition same_dirs (d d' : HostDisk) : Prop := ∀ k i, entry_at d' k = Some (DirE i) → entry_at d k = Some (DirE i).
Lemma same_dirs_resolve d d' p l : same_dirs d d' → resolve_path d' cwd p = Ok l → resolve_path d cwd p = Ok l.
Proof using Type.
  intros Hd. assert (Hwalk : ∀ q m k, walk_path d' m q = Ok k → walk_path d m q = Ok k).
  { induction q as [|c q IH]; intros m k; simpl; [done|]. destruct (entry_at d' m) as [[|i]|] eqn:E; [done| |done]. rewrite (Hd _ _ E). apply IH. }
  unfold resolve_path. destruct (has_nul p); [done|]. destruct p as [|[] p]; [done|apply Hwalk..].
Qed.
Lemma std_open_dirs o p d ro d1 : std_open K cwd o p d = (ro, d1) → same_dirs d d1.
Proof using Type.
  intros H. assert (Hsame : same_dirs d d) by (by intros ??). unfold std_open in H.
  destruct (HostDisk.invalid_options o); [by simplify_eq|]. destruct (refuse K "open" p d); [by simplify_eq|].
  destruct (resolve_path d cwd p) as [l|]; [|by simplify_eq].
  destruct (entry_at d l) as [[i|i]|] eqn:El; repeat case_match; simplify_eq; try exact Hsame.
  intros k i Hk. destruct k as [|n k]; [done|]. simpl in Hk |- *. destruct (base.decide (l = n :: k)) as [->|]; [by rewrite lookup_insert_eq in Hk|].
  by rewrite lookup_insert_ne in Hk.
Qed.
Lemma file_write_all_dirs f data d r f' d' : file_write_all K f data d = (r, f', d') → same_dirs d d'.
Proof using Type. unfold file_write_all. intros H. repeat case_match; simplify_eq; by intros ??. Qed.
Lemma std_write_dirs p data d r d' : std_write K cwd p data d = (r, d') → same_dirs d d'.
Proof using Type.
  unfold std_write. destruct (std_open K cwd write_options p d) as [[f|e] d1] eqn:Eo; apply std_open_dirs in Eo; [|by intros [= <- <-]].
  destruct (file_write_all K f data d1) as [[r1 f1] d2] eqn:Ew. apply file_write_all_dirs in Ew. intros [= <- <-] k i Hk. by apply Eo, Ew.
Qed.
End calls.
