(* ===== verification/NodeFs.v ===== *)
(** * Node's [fs] module, [src/nodejs_core/fs.rs]: the work

    The file operations behind [fs], [fs.promises] and the callback functions: each works on the
    sandbox's in-memory file system when it is enabled and on the host's disk otherwise, or says
    nothing of it and always takes the disk.  The statics of the file ([FD_TABLE],
    [NEXT_FD], [DIR_TABLE], [NEXT_DIR_ID], [FS_JOBS], [FS_JOB_SEQ]) are fields of [World], beside the
    disk, the sandbox's statics and the permission broker's.  What the script sees -- buffers, the
    callbacks called, the promises settled -- is there too. *)

From S2P Require Import Prelude RustPath DiskFs Permissions VirtualFs HostDisk.

(** ** Options *)

Inductive FileEncoding := Utf8 | Hex | Base64 | Latin1 | BufferEncoding.
#[export] Instance file_encoding_dec : EqDecision FileEncoding.
Proof. solve_decision. Defined.
Record FileIoOptions := { encoding : FileEncoding; flag : option rstr }.
Record OpenMode := { m_read : bool; m_write : bool; m_append : bool; m_create : bool; m_truncate : bool; m_exclusive : bool }.
#[export] Instance open_mode_dec : EqDecision OpenMode.
Proof. solve_decision. Defined.
Definition mode_write : OpenMode :=
  {| m_read := false; m_write := true; m_append := false; m_create := true; m_truncate := true; m_exclusive := false |}.
Definition mode_append : OpenMode :=
  {| m_read := false; m_write := true; m_append := true; m_create := true; m_truncate := false; m_exclusive := false |}.
Definition mode_read_only : OpenMode :=
  {| m_read := true; m_write := false; m_append := false; m_create := false; m_truncate := false; m_exclusive := false |}.
Definition and_read (m : OpenMode) : OpenMode :=
  {| m_read := true; m_write := m_write m; m_append := m_append m; m_create := m_create m; m_truncate := m_truncate m; m_exclusive := m_exclusive m |}.
Definition and_exclusive (m : OpenMode) : OpenMode :=
  {| m_read := m_read m; m_write := m_write m; m_append := m_append m; m_create := m_create m; m_truncate := m_truncate m; m_exclusive := true |}.
Definition mode_update : OpenMode :=
  {| m_read := true; m_write := true; m_append := false; m_create := false; m_truncate := false; m_exclusive := false |}.
Definition is_plain_write (m : OpenMode) : bool :=
  m_write m && m_create m && m_truncate m && negb (m_append m) && negb (m_exclusive m) && negb (m_read m).
(** [OpenMode::parse]: the flags of each arm, in order. *)
Definition mode_table : list (list rstr * OpenMode) := [
  (["r" : rstr; "rs" : rstr], mode_read_only);
  (["r+" : rstr; "rs+" : rstr], mode_update);
  (["w" : rstr], mode_write);
  (["wx" : rstr; "xw" : rstr], and_exclusive mode_write);
  (["w+" : rstr], and_read mode_write);
  (["wx+" : rstr; "xw+" : rstr], and_read (and_exclusive mode_write));
  (["a" : rstr; "as" : rstr], mode_append);
  (["ax" : rstr; "xa" : rstr], and_exclusive mode_append);
  (["a+" : rstr; "as+" : rstr], and_read mode_append);
  (["ax+" : rstr; "xa+" : rstr], and_read (and_exclusive mode_append))].
Definition parse_mode (flag : rstr) : result OpenMode rstr :=
  let flag := to_lowercase flag in
  match list_find (λ arm : list rstr * OpenMode, flag ∈ arm.1) mode_table with
  | Some (_, arm) => Ok arm.2
  | None => Err ("Unknown file open flag: " ++ flag)
  end.
Definition to_open_options (m : OpenMode) (perm : Z) : OpenOptions := {|
  o_read := m_read m; o_write := m_write m; o_append := m_append m;
  o_create_new := m_exclusive m; o_create := negb (m_exclusive m) && m_create m;
  o_truncate := negb (m_append m) && m_truncate m && negb (m_exclusive m); o_mode := perm |}.
Definition open_mode (o : FileIoOptions) (default_append : bool) : result OpenMode rstr :=
  match flag o with
  | Some flag => parse_mode flag
  | None => Ok (if default_append then mode_append else mode_write)
  end.
Definition file_encoding_from_name (name : rstr) : result FileEncoding rstr :=
  let name := to_lowercase name in
  if bool_decide (name ∈ ["utf8" : rstr; "utf-8" : rstr; "utf8mb4" : rstr]) then Ok Utf8
  else if bool_decide (name = "hex") then Ok Hex
  else if bool_decide (name = "base64") then Ok Base64
  else if bool_decide (name ∈ ["latin1" : rstr; "binary" : rstr; "ascii" : rstr]) then Ok Latin1
  else if bool_decide (name ∈ ["buffer" : rstr; "raw" : rstr]) then Ok BufferEncoding
  else Err ("Unknown encoding: " ++ name).

(** ** Texts and bytes *)

(** The crates [hex] and [base64], and [String::from_utf8_lossy]. *)
Record Codec := {
  hex_decode : rstr → option rstr;
  hex_encode : rstr → rstr;
  base64_decode : rstr → option rstr;          (* the standard alphabet with padding, else without *)
  base64_encode : rstr → rstr;
  from_utf8_lossy : rstr → rstr;
}.
(** [text.chars()], of valid UTF-8. *)
Fixpoint chars (fuel : nat) (s : rstr) : list N :=
  match fuel with
  | 0 => []
  | S fuel =>
      let low := λ c, (N_of_ascii c mod 64)%N in
      match s with
      | [] => []
      | a :: s =>
          if (N_of_ascii a <? 128)%N then N_of_ascii a :: chars fuel s
          else if (N_of_ascii a <? 224)%N then
            match s with b :: s => (N_of_ascii a mod 32 * 64 + low b)%N :: chars fuel s | _ => [] end
          else if (N_of_ascii a <? 240)%N then
            match s with b :: c :: s => (N_of_ascii a mod 16 * 4096 + low b * 64 + low c)%N :: chars fuel s | _ => [] end
          else
            match s with
            | b :: c :: d :: s => (N_of_ascii a mod 8 * 262144 + low b * 4096 + low c * 64 + low d)%N :: chars fuel s | _ => []
            end
      end
  end.
Definition latin1_bytes (text : rstr) : rstr := (λ ch, ascii_of_N (ch mod 256)) <$> chars (length text) text.
(** A character below 256 in UTF-8. *)
Definition latin1_text (bytes : rstr) : rstr :=
  b ← bytes;
  if (N_of_ascii b <? 128)%N then [b] else [ascii_of_N (192 + N_of_ascii b / 64); ascii_of_N (128 + N_of_ascii b mod 64)].
Section codec.
Context (X : Codec).
Definition string_to_file_bytes (text : rstr) (e : FileEncoding) : result rstr rstr :=
  match e with
  | Utf8 | BufferEncoding => Ok text
  | Hex => match hex_decode X text with Some b => Ok b | None => Err ("The data argument is not valid hex" : rstr) end
  | Base64 => match base64_decode X text with Some b => Ok b | None => Err ("The data argument is not valid base64" : rstr) end
  | Latin1 => Ok (latin1_bytes text)
  end.
End codec.

(** ** Errors *)

Definition raw_code (code : Z) : option rstr :=
  if bool_decide (code = ENOENT) then Some ("ENOENT" : rstr)
  else if bool_decide (code = EACCES ∨ code = EPERM) then Some ("EACCES" : rstr)
  else if bool_decide (code = EEXIST) then Some ("EEXIST" : rstr)
  else if bool_decide (code = EINVAL) then Some ("EINVAL" : rstr)
  else if bool_decide (code = EISDIR) then Some ("EISDIR" : rstr)
  else if bool_decide (code = ENOTDIR) then Some ("ENOTDIR" : rstr)
  else if bool_decide (code = ENOTEMPTY) then Some ("ENOTEMPTY" : rstr)
  else if bool_decide (code = EBADF) then Some ("EBADF" : rstr)
  else if bool_decide (code = ENAMETOOLONG) then Some ("ENAMETOOLONG" : rstr)
  else None.
Definition kind_code (k : error_kind) : rstr :=
  match k with
  | KNotFound => "ENOENT" | KPermissionDenied => "EACCES" | KAlreadyExists => "EEXIST" | KInvalidInput => "EINVAL"
  | KIsADirectory => "EISDIR" | KNotADirectory => "ENOTDIR" | _ => "EIO"
  end.
(** A number outside the table has none of the kinds of the second match. *)
Definition io_error_code (e : io_error) : rstr :=
  match e with RawOs code => default ("EIO" : rstr) (raw_code code) | Kind k _ => kind_code k end.

(** ** The state *)

Record DirEntryInfo := { de_name : rstr; de_is_file : bool; de_is_dir : bool; de_is_symlink : bool }.
Inductive StatMeta := OsMeta (m : Metadata) | VfsMeta (m : VfsMetadata).
Record DirHandle := { entries : list DirEntryInfo; index : nat }.
Inductive FsCallbackShape := ShapeValue | ShapeVoid | ShapeCount.
Inductive FsDelivery := Callback (callback : nat) (shape : FsCallbackShape) | Promise.
(** A typed array: its buffer, where it starts there and its length. *)
Record View := { view_buffer : nat; byte_offset : nat; byte_length : nat }.
Inductive FsWork :=
  | ReadFile (path : rstr) (encoding : FileEncoding)
  | WriteFile (path bytes : rstr) (mode : OpenMode)
  | Mkdir (path : rstr) (recursive : bool)
  | Rmdir (path : rstr)
  | Readdir (path : rstr) (with_file_types : bool)
  | Stat (path : rstr) (follow : bool)
  | Unlink (path : rstr)
  | Rename (from to : rstr)
  | CopyFile (from to : rstr) (exclusive : bool)
  | Rm (path : rstr) (recursive force : bool)
  | Realpath (path : rstr)
  | Chmod (path : rstr) (mode : Z)
  | Access (path : rstr) (mode : Z)
  | Open (path : rstr) (mode : OpenMode) (perm : Z)
  | ReadFd (fd : Z) (offset len : nat) (position : option Z) (buffer : View)
  | WriteFd (fd : Z) (bytes : rstr) (position : option Z)
  | Close (fd : Z)
  | Cp (from to : rstr) (recursive force error_on_exist : bool)
  | Opendir (path : rstr)
  | Statfs (path : rstr)
  | DirRead (dir : Z)
  | DirClose (dir : Z)
  | Fstat (fd : Z)
  | Ftruncate (fd len : Z)
  | Fchmod (fd mode : Z)
  | ReadFdAll (fd : Z)
  | WriteFdAll (fd : Z) (bytes : rstr).
Inductive FsValue :=
  | VUndefined | VNull | VBool (b : bool) | VInt (n : Z) | VText (s : rstr) | VBuffer (bytes : rstr) | VStats (m : StatMeta)
  | VNames (l : list rstr) | VEntries (l : list DirEntryInfo) | VEntry (e : DirEntryInfo) | VDir (id : Z) (path : rstr)
  | VStatfs (info : list Z) | VView (v : View) | VPromise (job : Z).
(** What is thrown, or handed to a callback or a promise as its error. *)
Inductive FsFail :=
  | PermissionDenied (e : PermissionError)
  | CodedTypeError (code message : rstr)
  | IoFailure (syscall path : rstr) (err : io_error).
(** A callback's arguments, or a promise's outcome. *)
Inductive Delivered := Called (callback : nat) (args : list (result FsValue FsFail)) | Settled (outcome : result FsValue FsFail).

Record World := {
  disk : HostDisk;
  vfs : Vfs;
  perms : PermState;
  fd_table : gmap Z File;
  next_fd : Z;
  dir_table : gmap Z DirHandle;
  next_dir_id : Z;
  fs_jobs : gmap Z (FsDelivery * FsWork);
  fs_job_seq : Z;
  buffers : gmap nat rstr;
  delivered : list (Z * Delivered);
}.
Definition on (f : HostDisk → HostDisk) (w : World) : World :=
  {| disk := f (disk w); vfs := vfs w; perms := perms w; fd_table := fd_table w; next_fd := next_fd w; dir_table := dir_table w;
     next_dir_id := next_dir_id w; fs_jobs := fs_jobs w; fs_job_seq := fs_job_seq w; buffers := buffers w; delivered := delivered w |}.
Definition set_vfs (v : Vfs) (w : World) : World :=
  {| disk := disk w; vfs := v; perms := perms w; fd_table := fd_table w; next_fd := next_fd w; dir_table := dir_table w;
     next_dir_id := next_dir_id w; fs_jobs := fs_jobs w; fs_job_seq := fs_job_seq w; buffers := buffers w; delivered := delivered w |}.
Definition set_perms (p : PermState) (w : World) : World :=
  {| disk := disk w; vfs := vfs w; perms := p; fd_table := fd_table w; next_fd := next_fd w; dir_table := dir_table w;
     next_dir_id := next_dir_id w; fs_jobs := fs_jobs w; fs_job_seq := fs_job_seq w; buffers := buffers w; delivered := delivered w |}.
Definition set_fds (t : gmap Z File) (n : Z) (w : World) : World :=
  {| disk := disk w; vfs := vfs w; perms := perms w; fd_table := t; next_fd := n; dir_table := dir_table w;
     next_dir_id := next_dir_id w; fs_jobs := fs_jobs w; fs_job_seq := fs_job_seq w; buffers := buffers w; delivered := delivered w |}.
Definition set_dirs (t : gmap Z DirHandle) (n : Z) (w : World) : World :=
  {| disk := disk w; vfs := vfs w; perms := perms w; fd_table := fd_table w; next_fd := next_fd w; dir_table := t;
     next_dir_id := n; fs_jobs := fs_jobs w; fs_job_seq := fs_job_seq w; buffers := buffers w; delivered := delivered w |}.
Definition set_jobs (t : gmap Z (FsDelivery * FsWork)) (n : Z) (w : World) : World :=
  {| disk := disk w; vfs := vfs w; perms := perms w; fd_table := fd_table w; next_fd := next_fd w; dir_table := dir_table w;
     next_dir_id := next_dir_id w; fs_jobs := t; fs_job_seq := n; buffers := buffers w; delivered := delivered w |}.
Definition set_buffers (t : gmap nat rstr) (w : World) : World :=
  {| disk := disk w; vfs := vfs w; perms := perms w; fd_table := fd_table w; next_fd := next_fd w; dir_table := dir_table w;
     next_dir_id := next_dir_id w; fs_jobs := fs_jobs w; fs_job_seq := fs_job_seq w; buffers := t; delivered := delivered w |}.
Definition tell (x : Z * Delivered) (w : World) : World :=
  {| disk := disk w; vfs := vfs w; perms := perms w; fd_table := fd_table w; next_fd := next_fd w; dir_table := dir_table w;
     next_dir_id := next_dir_id w; fs_jobs := fs_jobs w; fs_job_seq := fs_job_seq w; buffers := buffers w; delivered := delivered w ++ [x] |}.

(** Computations that may fail: with an [io::Error], or with what is thrown. *)
Definition M (E A : Type) := World → result A E * World.
#[export] Instance M_ret {E} : MRet (M E) := λ A a w, (Ok a, w).
#[export] Instance M_bind {E} : MBind (M E) := λ A B f m w, match m w with (Ok a, w) => f a w | (Err e, w) => (Err e, w) end.
Definition fail {E A} (e : E) : M E A := λ w, (Err e, w).
Definition get_world {E} : M E World := λ w, (Ok w, w).
Definition update {E} (f : World → World) : M E unit := λ w, (Ok tt, f w).
Definition of_result {E A} (r : result A E) : M E A := λ w, (r, w).
Definition map_err {E E' A} (f : E → E') (m : M E A) : M E' A := λ w,
  match m w with (Ok a, w) => (Ok a, w) | (Err e, w) => (Err (f e), w) end.
Abbreviation Io := (M io_error).
Abbreviation Js := (M FsFail).
(** A call of [std::fs]. *)
Definition os {A} (m : Os A) : Io A := λ w, let '(r, d) := m (disk w) in (r, on (λ _, d) w).
Definition ask {A} (q : HostDisk → result A io_error) : Io A := λ w, (q (disk w), w).

(** ** The operations *)

(** [fd.to_string()] *)
Definition i32_str (z : Z) : rstr := if bool_decide (z < 0)%Z then "-" ++ dec (Z.to_N (- z)) else dec (Z.to_N z).
(** An error of the in-memory file system; a number is the host's, passed on. *)
Definition vfs_error (e : ErrorKind * rstr) : io_error :=
  match e.1 with
  | NotFound => Kind KNotFound e.2
  | InvalidData => Kind KInvalidData e.2
  | OtherKind 0 => Kind KOther e.2
  | OtherKind code => RawOs (Z.of_nat code)
  end.
Definition from_vfs {A} (r : io_result A) : result A io_error := match r with Ok a => Ok a | Err e => Err (vfs_error e) end.
(** What the operations have from outside: the kernel, the current directory, the clock and parser of
    the broker's audit, the text codecs, [access(2)] and [statvfs(3)]. *)
Record Env := {
  kernel : Kernel;
  cwd : loc;
  url_host : rstr → option rstr;
  now : rstr;
  codec : Codec;
  os_access : rstr → Z → HostDisk → result unit io_error;
  os_statvfs : rstr → HostDisk → result (list Z) io_error;
}.

Section ops.
Context (V : Env).
#[local] Abbreviation K := (kernel V).
Definition world_host (w : World) : Host := host_of K (cwd V) (disk w).
Definition vfs_on {E} : M E bool := λ w, (Ok (is_enabled (vfs w)), w).
Definition vfs_ask {A} (q : Host → Vfs → io_result A) : Io A := λ w, (from_vfs (q (world_host w) (vfs w)), w).
Definition vfs_bool {E} (q : Host → Vfs → bool) : M E bool := λ w, (Ok (q (world_host w) (vfs w)), w).
Definition vfs_do {E} (f : Host → Vfs → Vfs) : M E unit := λ w, (Ok tt, set_vfs (f (world_host w) (vfs w)) w).
Definition vfs_unlink (p : path) : Io unit := λ w,
  let '(v, r) := vfs_remove_file (world_host w) (vfs w) p in (from_vfs r, set_vfs v w).
(** A failure as a value, where the code looks at it. *)
Definition try {E A} (m : M E A) : M E (result A E) := λ w, let '(r, w) := m w in (Ok r, w).

Definition read_file_bytes (path : rstr) : Io rstr :=
  on ← vfs_on;
  if on : bool then vfs_ask (λ h v, vfs_read h v (components path))
  else ask (std_read K (cwd V) (components path)).
(** [libc::open] and the loop of [libc::write]; the path ends at its first NUL. *)
Definition c_string (s : rstr) : rstr := default s (fst <$> split_once nul s).
Definition direct_write_sync (c_path : option rstr) (path data : rstr) : Io unit :=
  on ← vfs_on;
  if on : bool then vfs_do (λ h v, vfs_write h v (components path) data)
  else
    r ← match c_path with
        | Some c => try (os (std_write K (cwd V) (components (c_string c)) data))
        | None => mret (Err (RawOs ENOENT))
        end;
    match r with
    | Ok _ => mret tt
    | Err _ => os (std_write K (cwd V) (components path) data)
    end.
Definition write_file_bytes (c_path : option rstr) (path data : rstr) (mode : OpenMode) : Io unit :=
  let p := components path in
  if negb (m_write mode) then fail (RawOs EBADF)
  else
    on ← vfs_on;
    if on : bool then
      exists_ ← vfs_bool (λ h v, vfs_exists h v p);
      if m_exclusive mode && exists_ then fail (RawOs EEXIST)
      else if m_append mode then
        r ← try (vfs_ask (λ h v, vfs_read h v p));
        existing ← of_result (match r with Ok b => Ok b | Err e => if is_not_found e then Ok [] else Err e end);
        vfs_do (λ h v, vfs_write h v p (existing ++ data))
      else if negb (m_truncate mode) && exists_ then
        existing ← vfs_ask (λ h v, vfs_read h v p);
        vfs_do (λ h v, vfs_write h v p (data ++ drop (length data) existing))
      else vfs_do (λ h v, vfs_write h v p data)
    else if is_plain_write mode then direct_write_sync c_path path data
    else
      f ← os (std_open K (cwd V) (to_open_options mode 438) p);
      os (λ d, let '(r, _, d) := file_write_all K f data d in (r, d)).
Definition mkdir_at (path : rstr) (recursive : bool) : Io unit :=
  let p := components path in
  on ← vfs_on;
  if on : bool then
    exists_ ← vfs_bool (λ h v, vfs_exists h v p);
    if exists_ : bool then
      if recursive then
        r ← try (vfs_ask (λ h v, vfs_metadata h v p));
        match r with
        | Ok meta => if is_file meta then fail (RawOs EEXIST) else mret tt
        | Err _ => fail (RawOs EEXIST)
        end
      else fail (RawOs EEXIST)
    else if recursive then vfs_do (λ h v, vfs_create_dir_all h v p)
    else
      missing ← (match parent p with
                 | Some par =>
                     if bool_decide (par = []) || bool_decide (par = [RootDir]) then mret false
                     else e ← vfs_bool (λ h v, vfs_exists h v par); mret (negb e)
                 | None => mret false
                 end);
      if missing : bool then fail (Kind KNotFound "parent directory does not exist")
      else vfs_do (λ h v, vfs_create_dir h v p)
  else if recursive then
    w ← get_world;
    if std_is_file K (cwd V) (disk w) p then fail (RawOs EEXIST) else os (std_create_dir_all K (cwd V) p)
  else os (std_create_dir K (cwd V) p).
Definition host_entry (x : rstr * Entry) (with_file_types : bool) : DirEntryInfo :=
  {| de_name := from_utf8_lossy (codec V) x.1; de_is_file := with_file_types && match x.2 with FileE _ => true | _ => false end;
     de_is_dir := with_file_types && match x.2 with DirE _ => true | _ => false end; de_is_symlink := false |}.
Definition vfs_entry (h : Host) (v : Vfs) (p : path) (name : rstr) : DirEntryInfo :=
  let meta := match vfs_metadata h v (path_join p (components name)) with Ok m => Some m | Err _ => None end in
  {| de_name := name; de_is_file := default true (is_file <$> meta); de_is_dir := default false (is_dir <$> meta); de_is_symlink := false |}.
Definition read_directory (path : rstr) (with_file_types : bool) : Io (list DirEntryInfo) :=
  let p := components path in
  on ← vfs_on;
  if on : bool then
    r ← try (vfs_ask (λ h v, vfs_metadata h v p));
    match r with
    | Ok meta => if negb (is_dir meta) then fail (RawOs ENOTDIR) else mret tt
    | Err _ => mret tt
    end;;
    names ← vfs_ask (λ h v, vfs_read_dir h v p);
    w ← get_world;
    mret (vfs_entry (world_host w) (vfs w) p <$> names)
  else
    l ← ask (λ d, std_read_dir K (cwd V) d p);
    mret ((λ x, host_entry x with_file_types) <$> l).
Definition stat_metadata (path : rstr) (follow : bool) : Io StatMeta :=
  let p := components path in
  on ← vfs_on;
  if on : bool then m ← vfs_ask (λ h v, vfs_metadata h v p); mret (VfsMeta m)
  else m ← ask (λ d, if follow then std_metadata K (cwd V) d p else std_symlink_metadata K (cwd V) d p); mret (OsMeta m).
Definition unlink_path (path : rstr) : Io unit :=
  on ← vfs_on;
  if on : bool then vfs_unlink (components path) else os (std_remove_file K (cwd V) (components path)).
Definition rmdir_path (path : rstr) : Io unit :=
  on ← vfs_on;
  if on : bool then vfs_do (λ h v, vfs_remove_dir_all h v (components path)) else os (std_remove_dir K (cwd V) (components path)).
Definition rename_path (from to : rstr) : Io unit := os (std_rename K (cwd V) (components from) (components to)).
Definition copy_path (from to : rstr) (exclusive : bool) : Io unit :=
  on ← vfs_on;
  if on : bool then
    exists_ ← vfs_bool (λ h v, vfs_exists h v (components to));
    if exclusive && exists_ then fail (RawOs EEXIST)
    else
      bytes ← vfs_ask (λ h v, vfs_read h v (components from));
      vfs_do (λ h v, vfs_write h v (components to) bytes)
  else
    w ← get_world;
    if exclusive && std_exists K (cwd V) (disk w) (components to) then fail (RawOs EEXIST)
    else os (std_copy K (cwd V) (components from) (components to)).
Definition no_such : io_error := Kind KNotFound "no such file or directory".
Definition rm_path (path : rstr) (recursive force : bool) : Io unit :=
  let p := components path in
  on ← vfs_on;
  if on : bool then
    exists_ ← vfs_bool (λ h v, vfs_exists h v p);
    if negb exists_ then if force then mret tt else fail no_such
    else
      r ← try (vfs_ask (λ h v, vfs_metadata h v p));
      match r with
      | Ok meta =>
          if is_dir meta then
            if negb recursive then fail (RawOs EISDIR) else vfs_do (λ h v, vfs_remove_dir_all h v p)
          else vfs_unlink p
      | Err _ => vfs_unlink p
      end
  else
    r ← try (ask (λ d, std_symlink_metadata K (cwd V) d p));
    match r with
    | Ok meta =>
        if md_is_dir meta then
          if negb recursive then fail (RawOs EISDIR) else os (std_remove_dir_all K (cwd V) p)
        else os (std_remove_file K (cwd V) p)
    | Err e => if is_not_found e && force then mret tt else fail e
    end.
Definition realpath_of (path : rstr) : Io rstr :=
  on ← vfs_on;
  if on : bool then
    exists_ ← vfs_bool (λ h v, vfs_exists h v (components path));
    if exists_ : bool then mret path else fail no_such
  else p ← ask (λ d, std_canonicalize K (cwd V) d (components path)); mret (render p).
Definition chmod_path (path : rstr) (mode : Z) : Io unit := os (std_set_permissions K (cwd V) (components path) mode).
Definition access_path (path : rstr) (mode : Z) : Io unit :=
  if bool_decide (nul ∈ path) then fail (Kind KInvalidInput "path contains a nul") else ask (os_access V path mode).
Definition statfs_info (path : rstr) : Io (list Z) :=
  on ← vfs_on;
  if on : bool then fail (Kind KUnsupported "statfs is unavailable under the sandbox VFS")
  else if bool_decide (nul ∈ path) then fail (RawOs EINVAL) else ask (os_statvfs V path).

(** *** Descriptors *)

Definition I32_MAX : Z := 2 ^ 31 - 1.
Definition saturating_succ (z : Z) : Z := Z.min (z + 1) I32_MAX.
Definition open_fd (path : rstr) (mode : OpenMode) (perm : Z) : Io Z :=
  let opts := to_open_options mode (if m_create mode || m_exclusive mode then perm else 438) in
  f ← os (std_open K (cwd V) opts (components path));
  w ← get_world;
  let fd := next_fd w in
  update (set_fds (<[fd := f]> (fd_table w)) (saturating_succ fd));;
  mret fd.
Definition handle_of (fd : Z) : Io File := λ w,
  match fd_table w !! fd with Some f => (Ok f, w) | None => (Err (RawOs EBADF), w) end.
Definition put_handle (fd : Z) (f : File) : Io unit := λ w, (Ok tt, set_fds (<[fd := f]> (fd_table w)) (next_fd w) w).
Definition seek_to (fd : Z) (f : File) (position : option Z) : Io File :=
  match position with
  | Some position => f ← os (file_seek K f position); put_handle fd f;; mret f
  | None => mret f
  end.
Definition read_fd (fd : Z) (position : option Z) (length : nat) : Io rstr :=
  f ← handle_of fd;
  f ← seek_to fd f position;
  r ← os (file_read K f length);
  put_handle fd r.2;;
  mret r.1.
Definition write_fd (fd : Z) (position : option Z) (bytes : rstr) : Io Z :=
  f ← handle_of fd;
  f ← seek_to fd f position;
  r ← os (λ d, let '(r, f, d) := file_write_all K f bytes d in (Ok (r, f), d));
  put_handle fd r.2;;
  _ ← of_result r.1;
  mret (Z.of_nat (length bytes)).
Definition close_fd (fd : Z) : Io unit :=
  _ ← handle_of fd;
  w ← get_world;
  update (set_fds (delete fd (fd_table w)) (next_fd w)).
Definition fstat_fd (fd : Z) : Io Metadata := f ← handle_of fd; ask (file_metadata K f).
Definition ftruncate_fd (fd len : Z) : Io unit := f ← handle_of fd; os (file_set_len K f len).
Definition fchmod_fd (fd mode : Z) : Io unit := f ← handle_of fd; os (file_set_permissions K f mode).
(** [filehandle.readFile()]; a read answers with nothing at the end of the file only. *)
Fixpoint read_fd_all (fuel : nat) (fd : Z) : Io (option rstr) :=
  match fuel with
  | 0 => mret None
  | S fuel =>
      chunk ← read_fd fd None (N.to_nat 65536);
      if bool_decide (chunk = []) then mret (Some [])
      else rest ← read_fd_all fuel fd; mret (app chunk <$> rest)
  end.
Definition write_fd_all (fd : Z) (bytes : rstr) : Io unit := _ ← write_fd fd None bytes; mret tt.

(** *** Directory handles *)

Definition MAX_OPEN_DIRS : nat := 256.
Definition dir_register (l : list DirEntryInfo) : Io Z :=
  w ← get_world;
  let id := next_dir_id w in
  update (set_dirs (dir_table w) (saturating_succ id));;
  if bool_decide (MAX_OPEN_DIRS ≤ size (dir_table w)) then fail (RawOs EMFILE)
  else
    update (set_dirs (<[id := {| entries := l; index := 0 |}]> (dir_table w)) (saturating_succ id));;
    mret id.
Definition dir_read_next (id : Z) : Io (option DirEntryInfo) := λ w,
  match dir_table w !! id with
  | None => (Err (RawOs EBADF), w)
  | Some handle =>
      match entries handle !! index handle with
      | None => (Ok None, w)
      | Some entry => (Ok (Some entry), set_dirs (<[id := {| entries := entries handle; index := S (index handle) |}]> (dir_table w)) (next_dir_id w) w)
      end
  end.
Definition dir_close (id : Z) : Io unit := λ w,
  match dir_table w !! id with
  | Some _ => (Ok tt, set_dirs (delete id (dir_table w)) (next_dir_id w) w)
  | None => (Err (RawOs EBADF), w)
  end.

(** *** Permissions *)

Definition check_path (action : PermissionAction) (p : path) : M PermissionError unit := λ w,
  let '(st, r) := check_global_permission (world_host w) (url_host V) (now V) (perms w) FileSystem action (Path p) in
  (r, set_perms st w).
Definition ensure_fs_permission (action : PermissionAction) (path : rstr) : Js unit :=
  w ← get_world;
  if negb (has_restrictions (perms w)) then mret tt else map_err PermissionDenied (check_path action (components path)).
(** [broker_denial] and [work_denial] answer with the error there is, if any. *)
Definition broker_denial (action : PermissionAction) (path : rstr) : Js unit := ensure_fs_permission action path.
Definition work_denial (work : FsWork) : Js unit :=
  match work with
  | ReadFile path _ | Readdir path _ | Stat path _ | Realpath path | Access path _ => broker_denial Read path
  | WriteFile path _ _ | Mkdir path _ | Rmdir path | Unlink path | Rm path _ _ | Chmod path _ => broker_denial Write path
  | Rename from to => broker_denial Write from;; broker_denial Write to
  | CopyFile from to _ => broker_denial Read from;; broker_denial Write to
  | Cp from to _ _ _ => broker_denial Read from;; broker_denial Write to
  | Opendir path | Statfs path => broker_denial Read path
  | DirRead _ | DirClose _ => mret tt
  | Open path mode _ =>
      (if m_read mode then broker_denial Read path else mret tt);;
      (if m_write mode then broker_denial Write path else mret tt)
  | ReadFd _ _ _ _ _ | WriteFd _ _ _ | Close _ | Fstat _ | Ftruncate _ _ | Fchmod _ _ | ReadFdAll _ | WriteFdAll _ _ => mret tt
  end.

(** *** Recursive copies *)

Fixpoint lexical (out p : path) : path :=
  match p with
  | [] => out
  | CurDir :: p => lexical out p
  | ParentDir :: p => lexical (default out (parent out)) p
  | c :: p => lexical (path_join out [c]) p
  end.
Definition normalize_lexical (s : rstr) : path := lexical [] (components s).
Definition absolutize (s : rstr) : path :=
  if is_absolute (components s) then normalize_lexical s
  else lexical [] (path_join (abs_path (cwd V)) (components s)).
Definition cp_entry_allowed (action : PermissionAction) (p : path) : Io unit :=
  map_err (λ _, RawOs EACCES) (check_path action p).
Definition copy_place (force error_on_exist : bool) (dest_is_dir : option bool) : Io bool :=
  match dest_is_dir with
  | Some true => fail (RawOs EISDIR)
  | Some false => if negb force then if error_on_exist then fail (RawOs EEXIST) else mret false else mret true
  | None => mret true
  end.
Definition cp_file_real (from to : path) (force error_on_exist : bool) : Io unit :=
  cp_entry_allowed Read from;;
  cp_entry_allowed Write to;;
  r ← try (ask (λ d, std_symlink_metadata K (cwd V) d to));
  go ← copy_place force error_on_exist (md_is_dir <$> opt r);
  if go : bool then os (std_copy K (cwd V) from to) else mret tt.
Definition cp_file_vfs (from to : path) (force error_on_exist : bool) : Io unit :=
  cp_entry_allowed Read from;;
  cp_entry_allowed Write to;;
  r ← try (vfs_ask (λ h v, vfs_metadata h v to));
  go ← copy_place force error_on_exist (is_dir <$> opt r);
  if go : bool then
    bytes ← vfs_ask (λ h v, vfs_read h v from);
    vfs_do (λ h v, vfs_write h v to bytes)
  else mret tt.
(** The fuel of the copies of directories is the depth of the recursion; [None]: there was not enough. *)
Definition Deep (A : Type) := World → option (result A io_error * World).
Definition shallow {A} (m : Io A) : Deep A := λ w, Some (m w).
Definition and_then {A B} (m : Deep A) (f : A → Deep B) : Deep B := λ w,
  match m w with Some (Ok a, w) => f a w | Some (Err e, w) => Some (Err e, w) | None => None end.
Fixpoint each_deep {A} (f : A → Deep unit) (l : list A) : Deep unit :=
  match l with [] => shallow (mret tt) | x :: l => and_then (f x) (λ _, each_deep f l) end.
Definition real_target (to : path) : Io unit :=
  r ← try (ask (λ d, std_symlink_metadata K (cwd V) d to));
  match r with
  | Ok dest => if negb (md_is_dir dest) then fail (RawOs ENOTDIR) else mret tt
  | Err _ => os (std_create_dir_all K (cwd V) to)
  end.
Definition vfs_target (to : path) : Io unit :=
  r ← try (vfs_ask (λ h v, vfs_metadata h v to));
  match r with
  | Ok dest => if negb (is_dir dest) then fail (RawOs ENOTDIR) else mret tt
  | Err _ => vfs_do (λ h v, vfs_create_dir_all h v to)
  end.
Fixpoint cp_dir_real (fuel : nat) (from to : path) (force error_on_exist : bool) : Deep unit :=
  match fuel with
  | 0 => λ _, None
  | S fuel =>
      and_then (shallow (
        cp_entry_allowed Read from;;
        cp_entry_allowed Write to;;
        real_target to;;
        ask (λ d, std_read_dir K (cwd V) d from))) (λ l,
      each_deep (λ entry,
        let child p := path_join p [Normal (from_utf8_lossy (codec V) entry.1)] in
        and_then (shallow (ask (λ d, std_metadata K (cwd V) d (path_join from [Normal entry.1])))) (λ meta,
        if md_is_dir meta then cp_dir_real fuel (child from) (child to) force error_on_exist
        else shallow (cp_file_real (child from) (child to) force error_on_exist))) l)
  end.
Fixpoint cp_dir_vfs (fuel : nat) (from to : path) (force error_on_exist : bool) : Deep unit :=
  match fuel with
  | 0 => λ _, None
  | S fuel =>
      and_then (shallow (
        cp_entry_allowed Read from;;
        cp_entry_allowed Write to;;
        vfs_target to;;
        vfs_ask (λ h v, vfs_read_dir h v from))) (λ l,
      each_deep (λ name,
        let child p := path_join p (components name) in
        and_then (shallow (vfs_ask (λ h v, vfs_metadata h v (child from)))) (λ meta,
        if is_dir meta then cp_dir_vfs fuel (child from) (child to) force error_on_exist
        else shallow (cp_file_vfs (child from) (child to) force error_on_exist))) l)
  end.
(** The deepest ancestor that is there, spelled out, and the rest of the path; [cursor] gets shorter. *)
Fixpoint deepest (fuel : nat) (d : HostDisk) (p cursor : path) : result path io_error :=
  match std_canonicalize K (cwd V) d cursor with
  | Ok real => Ok (path_join real (default [] (path_strip_prefix cursor p)))
  | Err err =>
      if is_not_found err then
        match fuel, parent cursor with S fuel, Some cursor => deepest fuel d p cursor | _, _ => Err err end
      else Err err
  end.
Definition realpath_deepest (p : path) (d : HostDisk) : result path io_error := deepest (length p) d p p.
Definition cp_path (fuel : nat) (from to : rstr) (recursive force error_on_exist : bool) : Deep unit :=
  let p := components from in
  let q := components to in
  if path_starts_with (absolutize to) (absolutize from) then shallow (fail (RawOs EINVAL))
  else and_then (shallow vfs_on) (λ on_,
    if on_ : bool then
      and_then (shallow (vfs_ask (λ h v, vfs_metadata h v p))) (λ meta,
      if is_dir meta then
        if negb recursive then shallow (fail (RawOs EISDIR)) else cp_dir_vfs fuel p q force error_on_exist
      else shallow (cp_file_vfs p q force error_on_exist))
    else
      and_then (shallow (
        meta ← ask (λ d, std_metadata K (cwd V) d p);
        src_real ← ask (realpath_deepest p);
        dst_real ← ask (realpath_deepest q);
        if path_starts_with dst_real src_real then fail (RawOs EINVAL) else mret meta)) (λ meta,
      if md_is_dir meta then
        if negb recursive then shallow (fail (RawOs EISDIR)) else cp_dir_real fuel p q force error_on_exist
      else shallow (cp_file_real p q force error_on_exist))).

(** *** Jobs *)

Definition decoded (bytes : rstr) (e : FileEncoding) : FsValue :=
  match e with
  | BufferEncoding => VBuffer bytes
  | Utf8 => VText (from_utf8_lossy (codec V) bytes)
  | Hex => VText (hex_encode (codec V) bytes)
  | Base64 => VText (base64_encode (codec V) bytes)
  | Latin1 => VText (latin1_text bytes)
  end.
Definition directory_entries_to_js (l : list DirEntryInfo) (with_file_types : bool) : FsValue :=
  if with_file_types then VEntries l else VNames (de_name <$> l).
(** The bytes go where the view starts plus [offset], when the buffer has the room. *)
Definition write_view_bytes (view : View) (offset : nat) (data : rstr) : Js unit := λ w,
  match buffers w !! view_buffer view with
  | Some b =>
      let start := byte_offset view + offset in
      if bool_decide (start + length data ≤ length b)
      then (Ok tt, set_buffers (<[view_buffer view := take start b ++ data ++ drop (start + length data) b]> (buffers w)) w)
      else (Ok tt, w)
  | None => (Ok tt, w)
  end.
Definition job {A} (syscall path : rstr) (m : Io A) (k : A → FsValue) : Js FsValue :=
  a ← map_err (IoFailure syscall path) m; mret (k a).
Definition undefined {A} (_ : A) : FsValue := VUndefined.
(** [as i32] *)
Definition as_i32 (n : Z) : Z := (n + 2 ^ 31) mod 2 ^ 32 - 2 ^ 31.
Definition execute_work (fuel : nat) (work : FsWork) : World → option (result FsValue FsFail * World) := λ w,
  match work with
  | ReadFile path e => Some (job "open" path (read_file_bytes path) (λ b, decoded b e) w)
  | WriteFile path bytes mode => Some (job "open" path (write_file_bytes None path bytes mode) undefined w)
  | Mkdir path recursive => Some (job "mkdir" path (mkdir_at path recursive) undefined w)
  | Rmdir path => Some (job "rmdir" path (rmdir_path path) undefined w)
  | Readdir path with_file_types =>
      Some (job "scandir" path (read_directory path with_file_types) (λ l, directory_entries_to_js l with_file_types) w)
  | Stat path follow => Some (job (if follow then "stat" else "lstat") path (stat_metadata path follow) VStats w)
  | Unlink path => Some (job "unlink" path (unlink_path path) undefined w)
  | Rename from to => Some (job "rename" from (rename_path from to) undefined w)
  | CopyFile from to exclusive => Some (job "copyfile" from (copy_path from to exclusive) undefined w)
  | Rm path recursive force => Some (job "rm" path (rm_path path recursive force) undefined w)
  | Realpath path => Some (job "realpath" path (realpath_of path) VText w)
  | Chmod path mode => Some (job "chmod" path (chmod_path path mode) undefined w)
  | Access path mode => Some (job "access" path (access_path path mode) undefined w)
  | Open path mode perm => Some (job "open" path (open_fd path mode perm) VInt w)
  | ReadFd fd offset len position view =>
      Some ((bytes ← map_err (IoFailure "read" (i32_str fd)) (read_fd fd position len);
             write_view_bytes view offset bytes;;
             mret (VInt (as_i32 (Z.of_nat (length bytes))))) w)
  | WriteFd fd bytes position => Some (job "write" (i32_str fd) (write_fd fd position bytes) (λ n, VInt (as_i32 n)) w)
  | Close fd => Some (job "close" (i32_str fd) (close_fd fd) undefined w)
  | Cp from to recursive force error_on_exist =>
      (λ x, (match x.1 with Ok _ => Ok VUndefined | Err e => Err (IoFailure "cp" from e) end, x.2))
      <$> cp_path fuel from to recursive force error_on_exist w
  | Opendir path =>
      Some ((l ← map_err (IoFailure "opendir" path) (read_directory path true);
             id ← map_err (IoFailure "opendir" path) (dir_register l);
             mret (VDir id path)) w)
  | Statfs path => Some (job "statfs" path (statfs_info path) VStatfs w)
  | DirRead dir =>
      Some (job "readdir" (i32_str dir) (dir_read_next dir) (λ e, match e with Some e => VEntry e | None => VNull end) w)
  | DirClose dir => Some (job "close" (i32_str dir) (dir_close dir) undefined w)
  | Fstat fd => Some (job "fstat" (i32_str fd) (fstat_fd fd) (λ m, VStats (OsMeta m)) w)
  | Ftruncate fd len => Some (job "ftruncate" (i32_str fd) (ftruncate_fd fd len) undefined w)
  | Fchmod fd mode => Some (job "fchmod" (i32_str fd) (fchmod_fd fd mode) undefined w)
  | ReadFdAll fd =>
      match read_fd_all fuel fd w with
      | (Ok (Some b), w) => Some (Ok (VBuffer b), w)
      | (Ok None, _) => None
      | (Err e, w) => Some (Err (IoFailure "read" (i32_str fd) e), w)
      end
  | WriteFdAll fd bytes =>
      Some (job "write" (i32_str fd) (write_fd_all fd bytes) (λ _, VInt (as_i32 (Z.of_nat (length bytes)))) w)
  end.
Definition work_buffer (work : FsWork) : option FsValue :=
  match work with ReadFd _ _ _ _ view => Some (VView view) | _ => None end.
Definition deliver_job_with_extra (d : FsDelivery) (r : result FsValue FsFail) (extra : option FsValue) : Delivered :=
  match d with
  | Callback callback shape =>
      match r with
      | Ok value =>
          Called callback (Ok <$> match shape with
                                  | ShapeVoid => [VNull] | ShapeValue => [VNull; value]
                                  | ShapeCount => [VNull; value; default VUndefined extra]
                                  end)
      | Err e => Called callback [Err e]
      end
  | Promise => Settled r
  end.
Definition enqueue_fs_job (d : FsDelivery) (work : FsWork) : Js unit := λ w,
  let id := fs_job_seq w in
  (Ok tt, set_jobs (<[id := (d, work)]> (fs_jobs w)) ((id + 1) mod 2 ^ 32)%Z w).
Definition run_fs_job (fuel : nat) (id : Z) (d : FsDelivery) (work : FsWork) (w : World) : option World :=
  match work_denial work w with
  | (Err denied, w) => Some (tell (id, deliver_job_with_extra d (Err denied) None) w)
  | (Ok _, w) =>
      x ← execute_work fuel work w;
      Some (tell (id, deliver_job_with_extra d x.1 (work_buffer work)) x.2)
  end.
(** The [nextTick] turn of a job. *)
Definition fs_job_trampoline (fuel : nat) (id : Z) (w : World) : option World :=
  match fs_jobs w !! id with
  | Some (d, work) => run_fs_job fuel id d work (set_jobs (delete id (fs_jobs w)) (fs_job_seq w) w)
  | None => Some w
  end.
End ops.
