(* ===== verification/NodeFsApi.v ===== *)
(** * Node's [fs] module, [src/nodejs_core/fs.rs]: the functions a script calls

    Every native callback of the file, from the arguments V8 hands it -- what its conversions answer, value
    by value -- to the operation of [NodeFs] or the job it queues, and the tables that bind
    them to names: [fs_functions], [promises_functions] and [dir_functions].  [fs_step] is one event of a
    program: a call, or the turn of a queued job. *)

From S2P Require Import Prelude RustPath DiskFs Permissions VirtualFs HostDisk NodeFs.

(** ** Arguments *)

(** A string: its bytes when every character is below 256, its UTF-8 and its lossy Rust form. *)
Record JsString := { one_byte : option rstr; utf8 : rstr; text : rstr }.
Record JsValue := {
  js_undefined : bool;
  js_null : bool;
  js_string : bool;
  js_object : bool;
  js_function : option nat;
  js_text : option JsString;                  (* to_string *)
  js_int32 : option Z;
  js_uint32 : option Z;
  js_position : option Z;                     (* number_value().max(0.0) as u64 *)
  js_text_prop : rstr → option rstr;          (* a property that is neither undefined nor null, as text *)
  js_true_prop : rstr → option bool;          (* a property's truth *)
  js_bytes : option rstr;                     (* copy_binary_value *)
  js_view : option View;                      (* an ArrayBufferView *)
  js_uint8_array : bool;
}.
Definition undefined_value : JsValue := {|
  js_undefined := true; js_null := false; js_string := false; js_object := false; js_function := None;
  js_text := Some {| one_byte := Some ("undefined" : rstr); utf8 := "undefined"; text := "undefined" |};
  js_int32 := Some 0%Z; js_uint32 := Some 0%Z; js_position := Some 0%Z; js_text_prop := λ _, None; js_true_prop := λ _, None;
  js_bytes := None; js_view := None; js_uint8_array := false |}.
Abbreviation Args := (list JsValue).
Definition get_arg (args : Args) (i : nat) : JsValue := default undefined_value (args !! i).
Definition nullish (v : JsValue) : bool := js_undefined v || js_null v.
Definition is_function (v : JsValue) : bool := bool_decide (is_Some (js_function v)).
Definition arg_text (v : JsValue) : rstr := default [] (text <$> js_text v).
Definition arg_i32 (v : JsValue) (d : Z) : Z := if nullish v then d else default d (js_int32 v).
Definition arg_usize (v : JsValue) (d : nat) : nat := if nullish v then d else default d (Z.to_nat <$> js_uint32 v).
Definition arg_position (v : JsValue) : option Z := if nullish v then None else js_position v.
(** The path, and the bytes of the stack buffer that C functions get. *)
Definition get_path_fast (v : JsValue) : rstr * option rstr :=
  match js_text v with
  | None => ([], None)
  | Some s =>
      let bytes := default (utf8 s) (one_byte s) in
      if bool_decide (0 < length bytes < 511) && utf8_valid bytes then (bytes, Some bytes) else (text s, None)
  end.
Definition invalid_options : rstr := "Invalid file options".
Definition parse_file_io_options (v : JsValue) (default_encoding : FileEncoding) : result FileIoOptions rstr :=
  if nullish v then Ok {| encoding := default_encoding; flag := None |}
  else if js_string v then e ← file_encoding_from_name (arg_text v); Ok {| encoding := e; flag := None |}
  else if js_object v && negb (is_function v) then
    e ← (match js_text_prop v "encoding" with Some name => file_encoding_from_name name | None => Ok default_encoding end);
    Ok {| encoding := e; flag := js_text_prop v "flag" |}
  else Err invalid_options.
Definition option_truthy (v : JsValue) (key : rstr) : bool :=
  if negb (js_object v) || is_function v || js_null v then false else default false (js_true_prop v key).
Definition data_message : rstr :=
  "The " ++ [dquote] ++ "data" ++ [dquote] ++ " argument must be of type string or an instance of Buffer, TypedArray, or DataView".
Definition value_to_file_bytes (X : Codec) (v : JsValue) (e : FileEncoding) : result rstr rstr :=
  if nullish v then Err data_message
  else match js_bytes v with
       | Some b => Ok b
       | None => if js_string v then string_to_file_bytes X (arg_text v) (match e with BufferEncoding => Utf8 | e => e end) else Err data_message
       end.
Definition cp_options (v : JsValue) : bool * bool * bool :=
  let get_bool name d := if js_object v then default d (js_true_prop v name) else d in
  (get_bool "recursive" false, get_bool "force" true, get_bool "errorOnExist" false).
Definition view_byte_length (v : JsValue) : nat := default 0 (byte_length <$> js_view v).

Section api.
Context (V : Env) (fuel : nat).
Definition Function := Args → World → option (result FsValue FsFail * World).
Definition at_once (f : Args → Js FsValue) : Function := λ args w, Some (f args w).

Definition coded {A} (code : rstr) (r : result A rstr) : Js A :=
  of_result match r with Ok a => Ok a | Err message => Err (CodedTypeError code message) end.
Definition io_options (v : JsValue) (e : FileEncoding) : Js FileIoOptions := coded "ERR_UNKNOWN_ENCODING" (parse_file_io_options v e).
Definition mode_of (o : FileIoOptions) (default_append : bool) : Js OpenMode := coded "ERR_INVALID_ARG_VALUE" (open_mode o default_append).
Definition file_bytes (v : JsValue) (e : FileEncoding) : Js rstr :=
  of_result match value_to_file_bytes (codec V) v e with
            | Ok b => Ok b
            | Err message =>
                Err (CodedTypeError (if contains "not valid" message then "ERR_INVALID_ARG_VALUE" else "ERR_INVALID_ARG_TYPE") message)
            end.
Definition require_callback (args : Args) (name : rstr) : Js nat :=
  match last args ≫= js_function with
  | Some callback => mret callback
  | None => fail (CodedTypeError "ERR_INVALID_ARG_TYPE" (name ++ ": callback must be a function"))
  end.
Definition callback_index (args : Args) (option_index : nat) : option nat :=
  if is_function (get_arg args option_index) then Some option_index
  else if is_function (get_arg args (S option_index)) then Some (S option_index) else None.
Definition throws {A} (syscall path : rstr) (m : Io A) : Js A := map_err (IoFailure syscall path) m.
Definition start_promise (work : FsWork) : Js FsValue :=
  w ← get_world; enqueue_fs_job Promise work;; mret (VPromise (fs_job_seq w)).
Definition queue (callback : nat) (shape : FsCallbackShape) (work : FsWork) : Js FsValue :=
  enqueue_fs_job (Callback callback shape) work;; mret VUndefined.
Abbreviation allowed := (ensure_fs_permission V).
Abbreviation K := (kernel V).

(** ** The synchronous functions *)

(** [open], [fstat] and [read] straight into the new buffer, which stays zero where nothing was read. *)
Definition read_direct (c : rstr) : Io (option rstr) := λ w,
  match std_open K (cwd V) read_options (components (c_string c)) (disk w) with
  | (Err _, _) => (Ok None, w)
  | (Ok f, _) =>
      match file_metadata K f (disk w) with
      | Err _ => (Ok None, w)
      | Ok m =>
          let len := Z.to_nat (md_len m) in
          let bytes := match file_read K f len (disk w) with (Ok r, _) => r.1 | (Err _, _) => [] end in
          (Ok (Some (bytes ++ replicate (len - length bytes) nul)), w)
      end
  end.
Definition fs_read_file_sync_callback (args : Args) : Js FsValue :=
  let '(path, c_path) := get_path_fast (get_arg args 0) in
  allowed Read path;;
  o ← io_options (get_arg args 1) BufferEncoding;
  on ← vfs_on;
  direct ← (match c_path with
            | Some c => if bool_decide (encoding o = BufferEncoding) && negb on then throws "open" path (read_direct c) else mret None
            | None => mret None
            end);
  match direct with
  | Some b => mret (VBuffer b)
  | None => b ← throws "open" path (read_file_bytes V path); mret (decoded V b (encoding o))
  end.
Definition write_sync_inner (default_append : bool) (args : Args) : Js FsValue :=
  let '(path, c_path) := get_path_fast (get_arg args 0) in
  allowed Write path;;
  o ← io_options (get_arg args 2) Utf8;
  mode ← mode_of o default_append;
  let val := get_arg args 1 in
  if js_string val && bool_decide (encoding o = Utf8 ∨ encoding o = BufferEncoding) && is_plain_write mode then
    let data := match js_text val with Some s => default (utf8 s) (one_byte s) | None => [] end in
    _ ← throws "open" path (direct_write_sync V c_path path data);
    mret VUndefined
  else
    bytes ← file_bytes val (encoding o);
    _ ← throws "open" path (write_file_bytes V (if is_plain_write mode then c_path else None) path bytes mode);
    mret VUndefined.
Definition fs_write_file_sync_callback : Args → Js FsValue := write_sync_inner false.
Definition fs_append_file_sync_callback : Args → Js FsValue := write_sync_inner true.
Definition fs_exists_sync_callback (args : Args) : Js FsValue :=
  let path := arg_text (get_arg args 0) in
  allowed Read path;;
  on ← vfs_on;
  if on : bool then b ← vfs_bool V (λ h v, vfs_exists h v (components path)); mret (VBool b)
  else w ← get_world; mret (VBool (std_exists K (cwd V) (disk w) (components path))).
Definition fs_mkdir_sync_callback (args : Args) : Js FsValue :=
  let path := arg_text (get_arg args 0) in
  allowed Write path;;
  throws "mkdir" path (mkdir_at V path (option_truthy (get_arg args 1) "recursive"));; mret VUndefined.
Definition fs_readdir_sync_callback (args : Args) : Js FsValue :=
  let path := arg_text (get_arg args 0) in
  allowed Read path;;
  let with_file_types := option_truthy (get_arg args 1) "withFileTypes" in
  l ← throws "scandir" path (read_directory V path with_file_types);
  mret (directory_entries_to_js l with_file_types).
Definition fs_stat_sync_callback (args : Args) : Js FsValue :=
  let path := arg_text (get_arg args 0) in
  allowed Read path;;
  m ← throws "stat" path (stat_metadata V path true); mret (VStats m).
Definition fs_lstat_sync_callback (args : Args) : Js FsValue :=
  let path := arg_text (get_arg args 0) in
  allowed Read path;;
  m ← throws "lstat" path (stat_metadata V path false); mret (VStats m).
Definition fs_unlink_sync_callback (args : Args) : Js FsValue :=
  let path := arg_text (get_arg args 0) in
  allowed Write path;;
  throws "unlink" path (unlink_path V path);; mret VUndefined.
Definition fs_rename_sync_callback (args : Args) : Js FsValue :=
  let from := arg_text (get_arg args 0) in
  let to := arg_text (get_arg args 1) in
  allowed Write from;;
  allowed Write to;;
  throws "rename" from (rename_path V from to);; mret VUndefined.
Definition fs_rmdir_sync_callback (args : Args) : Js FsValue :=
  let path := arg_text (get_arg args 0) in
  allowed Write path;;
  throws "rmdir" path (rmdir_path V path);; mret VUndefined.
Definition COPYFILE_EXCL : Z := 1.
Definition exclusive_arg (v : JsValue) : bool := negb (bool_decide (Z.land (arg_i32 v 0) COPYFILE_EXCL = 0%Z)).
Definition fs_copy_file_sync_callback (args : Args) : Js FsValue :=
  let from := arg_text (get_arg args 0) in
  let to := arg_text (get_arg args 1) in
  allowed Read from;;
  allowed Write to;;
  throws "copyfile" from (copy_path V from to (exclusive_arg (get_arg args 2)));; mret VUndefined.
Definition fs_rm_sync_callback (args : Args) : Js FsValue :=
  let path := arg_text (get_arg args 0) in
  allowed Write path;;
  throws "rm" path (rm_path V path (option_truthy (get_arg args 1) "recursive") (option_truthy (get_arg args 1) "force"));; mret VUndefined.
Definition fs_realpath_sync_callback (args : Args) : Js FsValue :=
  let path := arg_text (get_arg args 0) in
  allowed Read path;;
  s ← throws "realpath" path (realpath_of V path); mret (VText s).
(** [as u32] *)
Definition mode_arg (v : JsValue) : Z := (arg_i32 v 438 mod 2 ^ 32)%Z.
Definition fs_chmod_sync_callback (args : Args) : Js FsValue :=
  let path := arg_text (get_arg args 0) in
  allowed Write path;;
  throws "chmod" path (chmod_path V path (mode_arg (get_arg args 1)));; mret VUndefined.
Definition fs_access_sync_callback (args : Args) : Js FsValue :=
  let path := arg_text (get_arg args 0) in
  allowed Read path;;
  throws "access" path (access_path V path (arg_i32 (get_arg args 1) 0));; mret VUndefined.
Definition flags_mode (flags : rstr) : Js OpenMode :=
  coded "ERR_INVALID_ARG_VALUE" (parse_mode (if bool_decide (flags = []) then "r" else flags)).
Definition open_allowed (mode : OpenMode) (path : rstr) : Js unit :=
  (if m_read mode then allowed Read path else mret tt);;
  (if m_write mode then allowed Write path else mret tt).
Definition flags_arg (v : JsValue) : rstr := if js_undefined v then "r" else arg_text v.
Definition fs_open_sync_callback (args : Args) : Js FsValue :=
  let path := arg_text (get_arg args 0) in
  mode ← flags_mode (flags_arg (get_arg args 1));
  open_allowed mode path;;
  fd ← throws "open" path (open_fd V path mode (mode_arg (get_arg args 2))); mret (VInt fd).
Definition fs_read_sync_callback (args : Args) : Js FsValue :=
  let fd := arg_i32 (get_arg args 0) (-1) in
  let buffer := get_arg args 1 in
  let offset := arg_usize (get_arg args 2) 0 in
  let length_ := arg_usize (get_arg args 3) (view_byte_length buffer - offset) in
  bytes ← throws "read" (i32_str fd) (read_fd V fd (arg_position (get_arg args 4)) length_);
  match js_view buffer with Some view => write_view_bytes view offset bytes | None => mret tt end;;
  mret (VInt (as_i32 (Z.of_nat (length bytes)))).
(** The bytes and the position of a write to a descriptor. *)
Definition fd_data (args : Args) : rstr * option Z :=
  let data := get_arg args 1 in
  if js_string data then (arg_text data, arg_position (get_arg args 2))
  else
    let offset := arg_usize (get_arg args 2) 0 in
    let length_ := arg_usize (get_arg args 3) (view_byte_length data - offset) in
    let owned := default [] (js_bytes data) in
    (take (Nat.min (offset + length_) (length owned) - Nat.min offset (length owned)) (drop (Nat.min offset (length owned)) owned),
     arg_position (get_arg args 4)).
Definition fs_write_fd_sync_callback (args : Args) : Js FsValue :=
  let fd := arg_i32 (get_arg args 0) (-1) in
  let '(bytes, position) := fd_data args in
  n ← throws "write" (i32_str fd) (write_fd V fd position bytes); mret (VInt (as_i32 n)).
Definition fs_close_sync_callback (args : Args) : Js FsValue :=
  let fd := arg_i32 (get_arg args 0) (-1) in
  throws "close" (i32_str fd) (close_fd fd);; mret VUndefined.
Definition fs_cp_sync_callback : Function := λ args w,
  let from := arg_text (get_arg args 0) in
  let to := arg_text (get_arg args 1) in
  let '(recursive, force, error_on_exist) := cp_options (get_arg args 2) in
  match (allowed Read from;; allowed Write to) w with
  | (Err e, w) => Some (Err e, w)
  | (Ok _, w) =>
      x ← cp_path V fuel from to recursive force error_on_exist w;
      Some (match x.1 with Ok _ => Ok VUndefined | Err e => Err (IoFailure "cp" from e) end, x.2)
  end.
Definition fs_opendir_sync_callback (args : Args) : Js FsValue :=
  let path := arg_text (get_arg args 0) in
  allowed Read path;;
  id ← throws "opendir" path (l ← read_directory V path true; dir_register l); mret (VDir id path).
Definition fs_statfs_sync_callback (args : Args) : Js FsValue :=
  let path := arg_text (get_arg args 0) in
  allowed Read path;;
  info ← throws "statfs" path (statfs_info V path); mret (VStatfs info).

(** ** The functions with a callback *)

(** The options of a call that may have none before its callback. *)
Definition options_before (args : Args) (option_index : nat) (callback_at : nat) : JsValue :=
  if bool_decide (callback_at = option_index) then undefined_value else get_arg args option_index.
Definition with_index (args : Args) (option_index : nat) (name : rstr) (k : nat → JsValue → Js FsValue) : Js FsValue :=
  match callback_index args option_index with
  | None => fail (CodedTypeError "ERR_INVALID_ARG_TYPE" (name ++ ": callback must be a function"))
  | Some at_ => match js_function (get_arg args at_) with Some callback => k callback (options_before args option_index at_) | None => mret VUndefined end
  end.
Definition fs_read_file_callback (args : Args) : Js FsValue :=
  let path := arg_text (get_arg args 0) in
  with_index args 1 "readFile" (λ callback options,
    o ← io_options options BufferEncoding;
    allowed Read path;;
    queue callback ShapeValue (ReadFile path (encoding o))).
Definition write_callback_inner (default_append : bool) (name : rstr) (args : Args) : Js FsValue :=
  let path := arg_text (get_arg args 0) in
  with_index args 2 name (λ callback options,
    o ← io_options options Utf8;
    mode ← mode_of o default_append;
    bytes ← file_bytes (get_arg args 1) (encoding o);
    allowed Write path;;
    queue callback ShapeVoid (WriteFile path bytes mode)).
Definition fs_write_file_callback : Args → Js FsValue := write_callback_inner false "writeFile".
Definition fs_append_file_callback : Args → Js FsValue := write_callback_inner true "appendFile".
(** [args.length() >= n && !args.get(i).is_function()] *)
Definition optional (args : Args) (i : nat) : option JsValue :=
  if bool_decide (i + 2 ≤ length args) && negb (is_function (get_arg args i)) then Some (get_arg args i) else None.
Definition fs_copy_file_callback (args : Args) : Js FsValue :=
  callback ← require_callback args "copyFile";
  let from := arg_text (get_arg args 0) in
  let to := arg_text (get_arg args 1) in
  let mode_arg :=
    if bool_decide (4 ≤ length args) || (bool_decide (length args = 3) && negb (is_function (get_arg args 2)))
    then get_arg args 2 else undefined_value in
  allowed Read from;;
  allowed Write to;;
  queue callback ShapeVoid (CopyFile from to (exclusive_arg mode_arg)).
Definition fs_rm_callback (args : Args) : Js FsValue :=
  callback ← require_callback args "rm";
  let path := arg_text (get_arg args 0) in
  let options := default undefined_value (optional args 1) in
  allowed Write path;;
  queue callback ShapeVoid (Rm path (option_truthy options "recursive") (option_truthy options "force")).
Definition fs_realpath_callback (args : Args) : Js FsValue :=
  callback ← require_callback args "realpath";
  let path := arg_text (get_arg args 0) in
  allowed Read path;;
  queue callback ShapeValue (Realpath path).
Definition fs_chmod_callback (args : Args) : Js FsValue :=
  callback ← require_callback args "chmod";
  let path := arg_text (get_arg args 0) in
  allowed Write path;;
  queue callback ShapeVoid (Chmod path (mode_arg (get_arg args 1))).
Definition fs_access_callback (args : Args) : Js FsValue :=
  callback ← require_callback args "access";
  let path := arg_text (get_arg args 0) in
  allowed Read path;;
  queue callback ShapeVoid (Access path (match optional args 1 with Some v => arg_i32 v 0 | None => 0 end)).
Definition fs_open_callback (args : Args) : Js FsValue :=
  callback ← require_callback args "open";
  let path := arg_text (get_arg args 0) in
  mode ← flags_mode (match optional args 1 with Some v => arg_text v | None => "r" end);
  open_allowed mode path;;
  queue callback ShapeValue (Open path mode (match optional args 2 with Some v => mode_arg v | None => 438%Z end)).
Definition uint8_view (v : JsValue) : Js View :=
  match js_view v with
  | Some view => if js_uint8_array v then mret view else fail (CodedTypeError "ERR_INVALID_ARG_TYPE" "read: buffer must be a Uint8Array")
  | None => fail (CodedTypeError "ERR_INVALID_ARG_TYPE" "read: buffer must be a Uint8Array")
  end.
Definition fs_read_callback (args : Args) : Js FsValue :=
  callback ← require_callback args "read";
  let fd := arg_i32 (get_arg args 0) (-1) in
  view ← uint8_view (get_arg args 1);
  let offset := arg_usize (get_arg args 2) 0 in
  let available := byte_length view - offset in
  let length_ := match optional args 3 with Some v => arg_usize v available | None => available end in
  queue callback ShapeCount (ReadFd fd offset length_ (optional args 4 ≫= arg_position) view).
Definition fs_write_fd_callback (args : Args) : Js FsValue :=
  callback ← require_callback args "write";
  let '(bytes, position) := fd_data args in
  queue callback ShapeCount (WriteFd (arg_i32 (get_arg args 0) (-1)) bytes position).
Definition fs_close_callback (args : Args) : Js FsValue :=
  callback ← require_callback args "close";
  queue callback ShapeVoid (Close (arg_i32 (get_arg args 0) (-1))).
Definition fs_lstat_callback (args : Args) : Js FsValue :=
  callback ← require_callback args "lstat";
  let path := arg_text (get_arg args 0) in
  allowed Read path;;
  queue callback ShapeValue (Stat path false).
Definition fs_mkdir_callback (args : Args) : Js FsValue :=
  callback ← require_callback args "mkdir";
  let path := arg_text (get_arg args 0) in
  allowed Write path;;
  queue callback ShapeVoid (Mkdir path (option_truthy (default undefined_value (optional args 1)) "recursive")).
Definition fs_cp_callback (args : Args) : Js FsValue :=
  callback ← require_callback args "cp";
  let from := arg_text (get_arg args 0) in
  let to := arg_text (get_arg args 1) in
  let '(recursive, force, error_on_exist) := cp_options (get_arg args 2) in
  allowed Read from;;
  allowed Write to;;
  queue callback ShapeVoid (Cp from to recursive force error_on_exist).
Definition fs_opendir_callback (args : Args) : Js FsValue :=
  callback ← require_callback args "opendir";
  let path := arg_text (get_arg args 0) in
  allowed Read path;;
  queue callback ShapeValue (Opendir path).
Definition fs_statfs_callback (args : Args) : Js FsValue :=
  callback ← require_callback args "statfs";
  let path := arg_text (get_arg args 0) in
  allowed Read path;;
  queue callback ShapeValue (Statfs path).

(** ** [fs.promises] *)

Definition fs_promises_read_file_callback (args : Args) : Js FsValue :=
  let path := arg_text (get_arg args 0) in
  o ← io_options (get_arg args 1) BufferEncoding;
  allowed Read path;;
  start_promise (ReadFile path (encoding o)).
Definition schedule_promise_write (default_append : bool) (args : Args) : Js FsValue :=
  let path := arg_text (get_arg args 0) in
  o ← io_options (get_arg args 2) Utf8;
  mode ← mode_of o default_append;
  bytes ← file_bytes (get_arg args 1) (encoding o);
  allowed Write path;;
  start_promise (WriteFile path bytes mode).
Definition fs_promises_write_file_callback : Args → Js FsValue := schedule_promise_write false.
Definition fs_promises_append_file_callback : Args → Js FsValue := schedule_promise_write true.
(** A promise for work on one path. *)
Definition promise_on (action : PermissionAction) (work : Args → rstr → FsWork) (args : Args) : Js FsValue :=
  let path := arg_text (get_arg args 0) in
  allowed action path;;
  start_promise (work args path).
Definition promise_on_two (first : PermissionAction) (work : Args → rstr → rstr → FsWork) (args : Args) : Js FsValue :=
  let from := arg_text (get_arg args 0) in
  let to := arg_text (get_arg args 1) in
  allowed first from;;
  allowed Write to;;
  start_promise (work args from to).
Definition fs_promises_mkdir_callback := promise_on Write (λ args path, Mkdir path (option_truthy (get_arg args 1) "recursive")).
Definition fs_promises_rmdir_callback := promise_on Write (λ _ path, Rmdir path).
Definition fs_promises_readdir_callback := promise_on Read (λ args path, Readdir path (option_truthy (get_arg args 1) "withFileTypes")).
Definition fs_promises_stat_callback := promise_on Read (λ _ path, Stat path true).
Definition fs_promises_lstat_callback := promise_on Read (λ _ path, Stat path false).
Definition fs_promises_unlink_callback := promise_on Write (λ _ path, Unlink path).
Definition fs_promises_rename_callback := promise_on_two Write (λ _ from to, Rename from to).
Definition fs_promises_copy_file_callback := promise_on_two Read (λ args from to, CopyFile from to (exclusive_arg (get_arg args 2))).
Definition fs_promises_rm_callback :=
  promise_on Write (λ args path, Rm path (option_truthy (get_arg args 1) "recursive") (option_truthy (get_arg args 1) "force")).
Definition fs_promises_realpath_callback := promise_on Read (λ _ path, Realpath path).
Definition fs_promises_chmod_callback := promise_on Write (λ args path, Chmod path (mode_arg (get_arg args 1))).
Definition fs_promises_access_callback := promise_on Read (λ args path, Access path (arg_i32 (get_arg args 1) 0)).
Definition fs_promises_cp_callback := promise_on_two Read (λ args from to,
  let '(recursive, force, error_on_exist) := cp_options (get_arg args 2) in Cp from to recursive force error_on_exist).
Definition fs_promises_opendir_callback := promise_on Read (λ _ path, Opendir path).
Definition fs_promises_statfs_callback := promise_on Read (λ _ path, Statfs path).
Definition fs_promises_open_callback (args : Args) : Js FsValue :=
  let path := arg_text (get_arg args 0) in
  mode ← flags_mode (flags_arg (get_arg args 1));
  open_allowed mode path;;
  start_promise (Open path mode (mode_arg (get_arg args 2))).
Definition fs_promises_read_callback (args : Args) : Js FsValue :=
  let fd := arg_i32 (get_arg args 0) (-1) in
  view ← uint8_view (get_arg args 1);
  let offset := arg_usize (get_arg args 2) 0 in
  let length_ := arg_usize (get_arg args 3) (byte_length view - offset) in
  start_promise (ReadFd fd offset length_ (arg_position (get_arg args 4)) view).
Definition fs_promises_write_callback (args : Args) : Js FsValue :=
  let '(bytes, position) := fd_data args in
  start_promise (WriteFd (arg_i32 (get_arg args 0) (-1)) bytes position).
Definition promise_fd (work : Args → Z → FsWork) (args : Args) : Js FsValue := start_promise (work args (arg_i32 (get_arg args 0) (-1))).
Definition fs_promises_close_callback := promise_fd (λ _ fd, Close fd).
Definition fs_promises_fstat_callback := promise_fd (λ _ fd, Fstat fd).
Definition fs_promises_ftruncate_callback := promise_fd (λ args fd, Ftruncate fd (Z.of_nat (arg_usize (get_arg args 1) 0))).
Definition fs_promises_fchmod_callback := promise_fd (λ args fd, Fchmod fd (mode_arg (get_arg args 1))).
Definition fs_promises_read_fd_all_callback := promise_fd (λ _ fd, ReadFdAll fd).
Definition fs_promises_write_fd_all_callback := promise_fd (λ args fd,
  let data := get_arg args 1 in
  WriteFdAll fd (if js_string data then arg_text data else default [] (js_bytes data))).

(** ** Directory handles; [dir] is the [__dirId] of the object they are called on *)

Definition dir_read_sync_callback (dir : Z) (args : Args) : Js FsValue :=
  e ← throws "readdir" (i32_str dir) (dir_read_next dir);
  mret (match e with Some e => VEntry e | None => VNull end).
Definition dir_read_callback (dir : Z) (args : Args) : Js FsValue :=
  callback ← require_callback args "dir.read"; queue callback ShapeValue (DirRead dir).
Definition dir_close_sync_callback (dir : Z) (args : Args) : Js FsValue :=
  throws "close" (i32_str dir) (dir_close dir);; mret VUndefined.
Definition dir_close_callback (dir : Z) (args : Args) : Js FsValue :=
  callback ← require_callback args "dir.close"; queue callback ShapeVoid (DirClose dir).

(** ** The names *)

Definition bind (name : string) (f : Args → Js FsValue) : string * Function := (name, at_once f).
Definition fs_functions : list (string * Function) := [
  bind "readFileSync" fs_read_file_sync_callback; bind "writeFileSync" fs_write_file_sync_callback;
  bind "appendFileSync" fs_append_file_sync_callback; bind "existsSync" fs_exists_sync_callback;
  bind "mkdirSync" fs_mkdir_sync_callback; bind "readdirSync" fs_readdir_sync_callback; bind "statSync" fs_stat_sync_callback;
  bind "unlinkSync" fs_unlink_sync_callback; bind "renameSync" fs_rename_sync_callback; bind "rmdirSync" fs_rmdir_sync_callback;
  bind "readFile" fs_read_file_callback; bind "writeFile" fs_write_file_callback; bind "appendFile" fs_append_file_callback;
  bind "lstatSync" fs_lstat_sync_callback; bind "lstat" fs_lstat_callback; bind "copyFileSync" fs_copy_file_sync_callback;
  bind "copyFile" fs_copy_file_callback; bind "rmSync" fs_rm_sync_callback; bind "rm" fs_rm_callback;
  bind "realpathSync" fs_realpath_sync_callback; bind "realpath" fs_realpath_callback; bind "chmodSync" fs_chmod_sync_callback;
  bind "chmod" fs_chmod_callback; bind "accessSync" fs_access_sync_callback; bind "access" fs_access_callback;
  bind "openSync" fs_open_sync_callback; bind "open" fs_open_callback; bind "readSync" fs_read_sync_callback;
  bind "read" fs_read_callback; bind "writeSync" fs_write_fd_sync_callback; bind "write" fs_write_fd_callback;
  bind "closeSync" fs_close_sync_callback; bind "close" fs_close_callback; bind "mkdir" fs_mkdir_callback;
  bind "cp" fs_cp_callback; ("cpSync"%string, fs_cp_sync_callback); bind "opendir" fs_opendir_callback;
  bind "opendirSync" fs_opendir_sync_callback; bind "statfs" fs_statfs_callback; bind "statfsSync" fs_statfs_sync_callback].
Definition promises_functions : list (string * Function) := [
  bind "readFile" fs_promises_read_file_callback; bind "writeFile" fs_promises_write_file_callback;
  bind "appendFile" fs_promises_append_file_callback; bind "mkdir" fs_promises_mkdir_callback;
  bind "rmdir" fs_promises_rmdir_callback; bind "readdir" fs_promises_readdir_callback; bind "stat" fs_promises_stat_callback;
  bind "unlink" fs_promises_unlink_callback; bind "rename" fs_promises_rename_callback; bind "lstat" fs_promises_lstat_callback;
  bind "copyFile" fs_promises_copy_file_callback; bind "rm" fs_promises_rm_callback; bind "realpath" fs_promises_realpath_callback;
  bind "chmod" fs_promises_chmod_callback; bind "access" fs_promises_access_callback; bind "open" fs_promises_open_callback;
  bind "read" fs_promises_read_callback; bind "write" fs_promises_write_callback; bind "close" fs_promises_close_callback;
  bind "cp" fs_promises_cp_callback; bind "opendir" fs_promises_opendir_callback; bind "statfs" fs_promises_statfs_callback;
  bind "__fstat" fs_promises_fstat_callback; bind "__ftruncate" fs_promises_ftruncate_callback;
  bind "__fchmod" fs_promises_fchmod_callback; bind "__readFdAll" fs_promises_read_fd_all_callback;
  bind "__writeFdAll" fs_promises_write_fd_all_callback].
Definition dir_functions (dir : Z) : list (string * Function) := [
  bind "read" (dir_read_callback dir); bind "readSync" (dir_read_sync_callback dir);
  bind "close" (dir_close_callback dir); bind "closeSync" (dir_close_sync_callback dir)].

(** ** A program *)

Inductive Event :=
  | CallFs (name : string) (args : Args)
  | CallPromises (name : string) (args : Args)
  | CallDir (dir : Z) (name : string) (args : Args)
  | NextTick (id : Z).
Definition function_named (name : string) (l : list (string * Function)) : option Function :=
  snd <$> (snd <$> list_find (λ x : string * Function, x.1 = name) l).
Definition call (f : option Function) (args : Args) (w : World) : option World :=
  match f with Some f => snd <$> f args w | None => Some w end.
Definition fs_step (e : Event) (w : World) : option World :=
  match e with
  | CallFs name args => call (function_named name fs_functions) args w
  | CallPromises name args => call (function_named name promises_functions) args w
  | CallDir dir name args => call (function_named name (dir_functions dir)) args w
  | NextTick id => fs_job_trampoline V fuel id w
  end.
Fixpoint fs_run (events : list Event) (w : World) : option World :=
  match events with [] => Some w | e :: l => w ← fs_step e w; fs_run l w end.
End api.
