(* ===== verification/NodeFsTheorems.v ===== *)
(** * Node's [fs] module: permissions and confinement

    The broker sees a path's normal form, the kernel the path itself.  [normalize_resolved] and
    [normalize_plain] say when the two agree; on them rests a small program logic ([safe]) in which every
    function of the module is shown to keep the disk unchanged outside what the broker lets the script write. *)

From S2P Require Import Prelude RustPath DiskFs Permissions VirtualFs HostDisk HostDiskTheorems NodeFs NodeFsApi.

(** ** What the broker is asked about *)

Lemma abs_path_locate l : locate [] (abs_path l) = l.
Proof. unfold abs_path. simpl. by rewrite locate_names. Qed.
Lemma plain_locate cwd p : plain p → is_absolute p = false → abs_path (locate cwd p) = path_join (abs_path cwd) p.
Proof.
  intros (names & [-> |[-> | ->]]) Ha; [| |done]; unfold path_join; rewrite Ha; simpl; rewrite locate_names; unfold abs_path; rewrite fmap_app; [|done].
  by destruct names.
Qed.
Section normalize.
Context (K : Kernel) (cwd : loc).
Context (honest : ∀ p d, refuse K "realpath" p d = None) (clean : has_nul (abs_path cwd) = false).
Lemma canonicalize_host d p : canonicalize (host_of K cwd d) p =
  match resolve_path d cwd p with Ok l => if entry_at d l then Some (abs_path l) else None | Err _ => None end.
Proof using honest.
  simpl. unfold std_canonicalize, lookup_path. rewrite honest. destruct (resolve_path d cwd p) as [l|]; [|done]. simpl. by destruct (entry_at d l).
Qed.
(** The path [normalize_path] looks at. *)
Lemma resolve_anchored d p l : wf_host d → resolve_path d cwd p = Ok l →
  resolve_path d cwd (if is_absolute p then p else path_join (abs_path cwd) p) = Ok l.
Proof using clean.
  intros Hw H. destruct (is_absolute p) eqn:Ha; [done|]. apply resolve_cases in H as (Hn & Hne & [(q & -> & _)|(_ & Hq & Hc)]); [done|].
  unfold path_join. rewrite Ha. simpl. set (p' := match p with CurDir :: p' => p' | _ => p end).
  assert (Hp' : walk_path d cwd p' = Ok l).
  { destruct p as [|[] q]; [done..| |done|done]. simpl in Hq. by destruct (entry_at d cwd) as [[]|]. }
  unfold resolve_path. assert (has_nul (RootDir :: ((Normal <$> cwd) ++ p')) = false) as ->.
  { change (RootDir :: ((Normal <$> cwd) ++ p')) with (abs_path cwd ++ p'). unfold has_nul in *. rewrite existsb_app, clean. simpl. destruct p as [|[] q]; done. }
  rewrite walk_app. assert (walk_path d [] (Normal <$> cwd) = Ok cwd) as -> by by apply walk_dirs. done.
Qed.
Lemma anchored_absolute p : is_absolute (if is_absolute p then p else path_join (abs_path cwd) p) = true.
Proof. destruct (is_absolute p) eqn:Ha; [done|]. unfold path_join. by rewrite Ha. Qed.
Lemma normalize_resolved d p l : wf_host d → resolve_path d cwd p = Ok l → normalize_path (host_of K cwd d) p = abs_path l.
Proof using honest clean.
  intros Hw H. apply resolve_anchored in H; [|done]. unfold normalize_path. change (current_dir (host_of K cwd d)) with (Some (abs_path cwd)). cbv match.
  pose proof (anchored_absolute p) as Habs. set (p' := if is_absolute p then p else path_join (abs_path cwd) p) in *. clearbody p'. clear p.
  rewrite canonicalize_host, H. destruct (entry_at d l) eqn:El; [done|].
  pose proof H as (q & n & m & i & -> & Hm & -> & Hq & Hr)%resolve_empty; [|done..].
  rewrite parent_app by done. unfold file_name. rewrite last_snoc, canonicalize_host. destruct Hr as [-> |Hr]; [done|]. rewrite Hr, Hm.
  unfold path_join. simpl. unfold abs_path. by rewrite fmap_app.
Qed.
Lemma canonicalize_abs d l c : canonicalize (host_of K cwd d) (abs_path l) = Some c → c = abs_path l.
Proof using honest.
  rewrite canonicalize_host. destruct (resolve_path d cwd (abs_path l)) as [k|] eqn:E; [|done]. apply resolve_locate in E. simpl in E.
  rewrite locate_names in E. destruct (entry_at d k); [intros [= <-]; by subst|done].
Qed.
Lemma normalize_plain d p : plain p → normalize_path (host_of K cwd d) p = abs_path (locate cwd p).
Proof using honest.
  intros Hp. unfold normalize_path. change (current_dir (host_of K cwd d)) with (Some (abs_path cwd)). cbv match.
  assert ((if is_absolute p then p else path_join (abs_path cwd) p) = abs_path (locate cwd p)) as ->.
  { destruct (is_absolute p) eqn:Ha; [|by rewrite plain_locate]. destruct Hp as (names & [-> |[-> | ->]]); [by destruct names|done|].
    simpl. by rewrite locate_names. }
  set (l := locate cwd p). clearbody l. destruct (canonicalize _ (abs_path l)) as [c|] eqn:Ec; [by apply canonicalize_abs in Ec|].
  destruct l as [|n l _] using rev_ind; [done|]. unfold abs_path. rewrite fmap_app. change (Normal <$> [n]) with [Normal n]. rewrite app_comm_cons, parent_app by done.
  unfold file_name. rewrite last_snoc. destruct (canonicalize (host_of K cwd d) (RootDir :: (Normal <$> l))) as [c|] eqn:Ec'; [|done].
  apply (canonicalize_abs d l) in Ec' as ->. done.
Qed.
End normalize.

(** ** A logic for the module's computations *)

Section safe.
Context (V : Env) (r0 : bool) (b0 : ResourceBroker).
Context (honest : ∀ p d, refuse (kernel V) "realpath" p d = None) (clean : has_nul (abs_path (cwd V)) = false).
Set Default Proof Using "All".

(** What the broker lets through, by location; the places below such a one and above it. *)
Definition granted (a : PermissionAction) (l : loc) : Prop :=
  r0 = true → Permissions.decide (url_host V) b0 FileSystem a (Path (abs_path l)) = Allow.
Definition under_grant (k : loc) : Prop := ∃ l, granted Write l ∧ l `prefix_of` k.
Definition over_grant (k : loc) : Prop := ∃ l, granted Write l ∧ k `prefix_of` l.
Lemma under_up k k' : under_grant k → k `prefix_of` k' → under_grant k'.
Proof. intros (l & Hl & Hp) ?. exists l. split; [done|by etrans]. Qed.
Lemma over_down k k' : over_grant k → k' `prefix_of` k → over_grant k'.
Proof. intros (l & Hl & Hp) ?. exists l. split; [done|by etrans]. Qed.
#[local] Abbreviation keeps := (keeps under_grant over_grant).
#[local] Abbreviation file_ok := (file_ok under_grant).
(** Queued directory copies and recursive [mkdir]s have targets without [..]. *)
Definition tame_work (work : FsWork) : Prop :=
  match work with
  | Mkdir path true => plain (components path) | Cp _ to _ _ _ => plain (components to)
  | Open _ mode _ => m_append mode = true → m_write mode = true | _ => True end.
Record inv (w : World) : Prop := {
  inv_disk : wf_host (disk w);
  inv_flag : has_restrictions (perms w) = r0;
  inv_broker : broker (perms w) = b0;
  inv_files : ∀ fd f, fd_table w !! fd = Some f → file_ok (disk w) f;
  inv_jobs : ∀ id d work, fs_jobs w !! id = Some (d, work) → tame_work work;
}.
Lemma inv_on w d : inv w → keeps (disk w) d → inv (on (λ _, d) w).
Proof.
  intros [H1 H2 H3 H4 H5] Hk. split; [by eapply keeps_wf|done|done| |done]. intros fd f Hf.
  eapply (keeps_file_ok (kernel V) (cwd V)); [apply under_up|apply over_down|exact Hk|by eapply H4].
Qed.
Definition good {A} (w : World) (Q : A → HostDisk → Prop) {E} (x : result A E * World) : Prop :=
  inv x.2 ∧ keeps (disk w) (disk x.2) ∧ ∀ a, x.1 = Ok a → Q a (disk x.2).
Definition safe {E A} (P : HostDisk → Prop) (m : M E A) (Q : A → HostDisk → Prop) : Prop := ∀ w, inv w → P (disk w) → good w Q (m w).
Lemma good_same {E A} w (Q : A → HostDisk → Prop) (x : result A E * World) :
  inv x.2 → disk x.2 = disk w → (∀ a, x.1 = Ok a → Q a (disk w)) → good w Q x.
Proof. intros H1 H2 H3. unfold good. rewrite <-H2 in *. split; [done|]. split; [by apply keeps_same, inv_disk|]. done. Qed.
Definition any {A} (_ : A) (_ : HostDisk) : Prop := True.
Lemma safe_then {E A B} P (m : M E A) (R : A → HostDisk → Prop) (f : A → M E B) Q :
  safe P m R → (∀ a, safe (R a) (f a) Q) → safe P (m ≫= f) Q.
Proof.
  intros Hm Hf w Hw HP. destruct (Hm w Hw HP) as (H1 & K1 & H2). unfold mbind, M_bind. destruct (m w) as [[a|e] w1]; simpl in *.
  - destruct (Hf a w1 H1 (H2 a eq_refl)) as (H3 & K2 & H4). split; [done|]. split; [|done]. eapply (keeps_then under_grant over_grant); [exact K1|exact K2].
  - split; [done|]. split; [done|]. by intros.
Qed.
Lemma safe_weaken {E A} (P P' : HostDisk → Prop) (m : M E A) Q Q' : safe P m Q → (∀ d, P' d → P d) → (∀ a d, Q a d → Q' a d) → safe P' m Q'.
Proof. intros Hm HP HQ w Hw Hd. destruct (Hm w Hw (HP _ Hd)) as (H1 & H2 & H3). split; [done|]. split; [done|]. intros a Ha. by apply HQ, H3. Qed.
Lemma safe_ret {E A} (a : A) (Q : A → HostDisk → Prop) : safe (E := E) (Q a) (mret a) Q.
Proof. intros w Hw HP. split; [done|]. split; [by apply keeps_same, inv_disk|]. by intros ? [= <-]. Qed.
Lemma safe_fail {E A} (e : E) P (Q : A → HostDisk → Prop) : safe P (fail e) Q.
Proof. intros w Hw HP. split; [done|]. split; [by apply keeps_same, inv_disk|]. by intros. Qed.
(** What leaves the disk, the descriptors and the jobs alone. *)
Definition quiet {E A} (m : M E A) : Prop := ∀ w, inv w → inv (m w).2 ∧ disk (m w).2 = disk w.
Lemma safe_quiet {E A} P (m : M E A) : quiet m → safe P m (λ _, P).
Proof.
  intros Hm w Hw HP. destruct (Hm w Hw) as [H1 H2]. split; [done|]. rewrite H2. split; [by apply keeps_same, inv_disk|]. by intros.
Qed.
Lemma safe_after {E A B} P (m : M E A) (f : A → M E B) Q : quiet m → (∀ a, safe P (f a) Q) → safe P (m ≫= f) Q.
Proof. intros Hm Hf. eapply safe_then; [by apply safe_quiet|done]. Qed.
Lemma quiet_then {E A B} (m : M E A) (f : A → M E B) : quiet m → (∀ a, quiet (f a)) → quiet (m ≫= f).
Proof.
  intros Hm Hf w Hw. destruct (Hm w Hw) as [H1 H2]. unfold mbind, M_bind. destruct (m w) as [[a|e] w1]; [|done].
  destruct (Hf a w1 H1) as [H3 H4]. split; [done|]. simpl in *. congruence.
Qed.
Lemma quiet_same {E A} (m : M E A) : (∀ w, (m w).2 = w) → quiet m.
Proof. intros H w Hw. by rewrite H. Qed.
Lemma quiet_ret {E A} (a : A) : quiet (E := E) (mret a).
Proof. by apply quiet_same. Qed.
Lemma quiet_fail {E A} (e : E) : quiet (A := A) (fail e).
Proof. by apply quiet_same. Qed.
Lemma quiet_get {E} : quiet (E := E) get_world.
Proof. by apply quiet_same. Qed.
Lemma quiet_result {E A} (r : result A E) : quiet (of_result r).
Proof. by apply quiet_same. Qed.
Lemma quiet_ask {A} (q : HostDisk → result A io_error) : quiet (ask q).
Proof. by apply quiet_same. Qed.
Lemma quiet_vfs_on {E} : quiet (E := E) vfs_on.
Proof. by apply quiet_same. Qed.
Lemma quiet_vfs_ask {A} (q : Host → Vfs → io_result A) : quiet (vfs_ask V q).
Proof. by apply quiet_same. Qed.
Lemma quiet_vfs_bool {E} (q : Host → Vfs → bool) : quiet (E := E) (vfs_bool V q).
Proof. by apply quiet_same. Qed.
Lemma inv_vfs w v : inv w → inv (set_vfs v w).
Proof. intros []. by split. Qed.
Lemma quiet_vfs_do {E} (f : Host → Vfs → Vfs) : quiet (E := E) (vfs_do V f).
Proof. intros w Hw. split; [by apply inv_vfs|done]. Qed.
Lemma quiet_vfs_unlink p : quiet (vfs_unlink V p).
Proof. intros w Hw. unfold vfs_unlink. destruct (vfs_remove_file _ _ _) as [v r]. split; [by apply inv_vfs|reflexivity]. Qed.
Lemma quiet_try {E A} (m : M E A) : quiet m → quiet (try m).
Proof. intros Hm w Hw. specialize (Hm w Hw). unfold try. by destruct (m w). Qed.
Lemma quiet_map_err {E E' A} (f : E → E') (m : M E A) : quiet m → quiet (map_err f m).
Proof. intros Hm w Hw. specialize (Hm w Hw). unfold map_err. by destruct (m w) as [[] ?]. Qed.
Lemma safe_map_err {E E' A} (f : E → E') P (m : M E A) Q : safe P m Q → safe P (map_err f m) Q.
Proof.
  intros Hm w Hw HP. specialize (Hm w Hw HP) as (H1 & H2 & H3). unfold map_err. destruct (m w) as [[a|e] w1];
    (split; [done|split; [done|]]); simpl; [intros x [= <-]; by apply H3|done].
Qed.
Lemma safe_try {E A} P (m : M E A) Q : safe P m Q → safe P (try m) any.
Proof. intros Hm w Hw HP. specialize (Hm w Hw HP) as (H1 & H2 & _). unfold try. by destruct (m w). Qed.
Lemma safe_os {A} (P : HostDisk → Prop) (m : Os A) (Q : A → HostDisk → Prop) :
  (∀ d r d', wf_host d → P d → m d = (r, d') → keeps d d' ∧ ∀ a, r = Ok a → Q a d') → safe P (os m) Q.
Proof.
  intros H w Hw HP. unfold os. destruct (m (disk w)) as [r d'] eqn:E. apply H in E as [Hk Hr]; [|by apply inv_disk|done].
  split; [by apply inv_on|]. split; [done|]. done.
Qed.
Lemma safe_os_any {A} (P : HostDisk → Prop) (m : Os A) : (∀ d r d', wf_host d → P d → m d = (r, d') → keeps d d') → safe P (os m) any.
Proof. intros H. apply safe_os. intros d r d' Hw HP E. split; [by eapply H|by intros]. Qed.

(** *** Checks *)

Definition passed (a : PermissionAction) (p : path) (d : HostDisk) : Prop :=
  (∀ l, resolve_path d (cwd V) p = Ok l → granted a l) ∧ (plain p → granted a (locate (cwd V) p)).
Lemma check_path_ok a p w w' : inv w → check_path V a p w = (Ok tt, w') → passed a p (disk w).
Proof.
  intros [H1 H2 H3 _ _] H. unfold check_path in H.
  destruct (check_global_permission _ _ _ _ _ _ _) as [st r] eqn:E. simplify_eq.
  assert (Hd : r0 = true → Permissions.decide (url_host V) b0 FileSystem a (Path (normalize_path (world_host V w) p)) = Allow).
  { intros Hr. unfold check_global_permission in E. rewrite H2, Hr in E. simpl in E. unfold check_result, check in E. simpl in E. rewrite H3 in E.
    destruct (Permissions.decide _ _ _ _ _); [done|]. by injection E. }
  split.
  - intros l Hl Hr. specialize (Hd Hr). unfold world_host in Hd. by rewrite (normalize_resolved _ _ honest clean _ _ l) in Hd.
  - intros Hp Hr. specialize (Hd Hr). unfold world_host in Hd. by rewrite (normalize_plain _ _ honest) in Hd.
Qed.
Lemma quiet_check a p : quiet (check_path V a p).
Proof.
  intros w [H1 H2 H3 H4 H5]. unfold check_path. destruct (check_global_broker (world_host V w) (url_host V) (now V) (perms w) FileSystem a (Path p)) as [E1 E2].
  destruct (check_global_permission _ _ _ _ _ _ _) as [st r]. simpl in *. split; [|done]. split; simpl; (done || congruence).
Qed.
Lemma safe_check a p (P : HostDisk → Prop) : safe P (check_path V a p) (λ _ d, P d ∧ passed a p d).
Proof.
  intros w Hw HP. destruct (quiet_check a p w Hw) as [H1 H2]. split; [done|]. rewrite H2. split; [by apply keeps_same, inv_disk|].
  intros [] Ha. split; [done|]. eapply (check_path_ok _ _ w); [exact Hw|]. by rewrite (surjective_pairing (check_path V a p w)), Ha.
Qed.

(** *** The operations *)

Lemma safe_any_quiet {E A} P (m : M E A) : quiet m → safe P m any.
Proof. intros Hm. by eapply safe_weaken; [apply safe_quiet|..]. Qed.
Lemma passed_writable p d : passed Write p d → writable_at (cwd V) under_grant d p.
Proof. intros [H _] l Hl. exists l. split; [by apply H|done]. Qed.
Lemma passed_over p d : passed Write p d → plain p → over_grant (locate (cwd V) p).
Proof. intros [_ H] Hp. exists (locate (cwd V) p). split; [by apply H|done]. Qed.
#[local] Hint Resolve under_up over_down passed_writable passed_over : fs.

Ltac quiet :=
  solve [repeat first
    [ progress intros
    | apply quiet_ret | apply quiet_fail | apply quiet_get | apply quiet_result | apply quiet_ask | apply quiet_vfs_on
    | apply quiet_vfs_ask | apply quiet_vfs_bool | apply quiet_vfs_do | apply quiet_vfs_unlink | apply quiet_check
    | apply quiet_try | apply quiet_map_err | apply quiet_then | branch ]].
Ltac safe :=
  repeat first
    [ apply safe_fail
    | apply safe_any_quiet; quiet
    | apply safe_after; [quiet|intros ?]
    | apply safe_map_err
    | branch ].
(** A call of [std::fs] on a path that passed. *)
Ltac call H :=
  apply safe_os_any; intros ? ? ? Hw HP Hr;
  eapply (H (kernel V) (cwd V) under_grant over_grant under_up over_down) in Hr; eauto with fs; try (apply passed_writable; naive_solver); naive_solver.
Ltac call' H := eapply safe_weaken; [call H|..].

Lemma quiet_read_file path : quiet (read_file_bytes V path).
Proof. unfold read_file_bytes. quiet. Qed.
Definition same_path (c_path : option rstr) (path : rstr) : Prop := ∀ c, c_path = Some c → components (c_string c) = components path.
Lemma safe_direct_write c_path path data : same_path c_path path →
  safe (passed Write (components path)) (direct_write_sync V c_path path data) any.
Proof.
  intros Hc. unfold direct_write_sync. apply safe_after; [quiet|intros on_]. destruct on_; [apply safe_any_quiet; quiet|].
  destruct c_path as [c|]; simpl.
  - rewrite (Hc c eq_refl).
    eapply safe_then with (R := λ _ d, writable_at (cwd V) under_grant d (components path)).
    + intros w Hw HP%passed_writable. unfold try, os. destruct (std_write (kernel V) (cwd V) (components path) data (disk w)) as [r d'] eqn:E.
      pose proof (std_write_dirs _ _ _ _ _ _ _ E) as Hd.
      eapply (std_write_keeps (kernel V) (cwd V) under_grant over_grant under_up over_down) in E; [|by apply inv_disk|done].
      split; [by apply inv_on|]. split; [done|]. intros _ _ l Hl. apply HP. by eapply same_dirs_resolve.
    + intros [u|e]; [by apply safe_any_quiet, quiet_ret|]. call std_write_keeps.
  - apply safe_after; [quiet|intros r]. destruct r; [apply safe_any_quiet; quiet|]. call std_write_keeps.
Qed.
Lemma safe_write_file c_path path data mode : same_path c_path path →
  safe (passed Write (components path)) (write_file_bytes V c_path path data mode) any.
Proof.
  intros Hc. unfold write_file_bytes. destruct (negb (m_write mode)); [apply safe_fail|]. apply safe_after; [quiet|intros on_].
  destruct on_; [apply safe_any_quiet; quiet|]. destruct (is_plain_write mode); [by apply safe_direct_write|].
  eapply safe_then with (R := λ f d, file_ok d f).
  - apply safe_os. intros d r d' Hw HP H. eapply (std_open_keeps (kernel V) (cwd V) _ _ under_up over_down) in H; [|done|intros; by apply passed_writable]. done.
  - intros f. apply safe_os_any. intros d r d' Hw Hf H. destruct (file_write_all _ _ _ _) as [[r1 f1] d1] eqn:E. simplify_eq.
    by eapply (file_write_keeps (kernel V) (cwd V) _ _ under_up over_down) in E as [? _].
Qed.
Lemma safe_mkdir path recursive : (recursive = true → plain (components path)) → safe (passed Write (components path)) (mkdir_at V path recursive) any.
Proof.
  intros Hp. unfold mkdir_at. apply safe_after; [quiet|intros on_]. destruct on_; [apply safe_any_quiet; quiet|]. destruct recursive.
  - apply safe_after; [quiet|intros w]. destruct (std_is_file _ _ _ _); [apply safe_fail|]. call create_all_keeps.
  - apply safe_os_any. intros d r d' Hw HP H. eapply (std_create_dir_keeps (kernel V) (cwd V) under_grant over_grant under_up over_down); [done| |exact H].
    intros l Hl _. left. by eapply passed_writable.
Qed.
Lemma quiet_read_directory path t : quiet (read_directory V path t).
Proof. unfold read_directory. quiet. Qed.
Lemma quiet_stat path follow : quiet (stat_metadata V path follow).
Proof. unfold stat_metadata. quiet. Qed.
Lemma safe_unlink path : safe (passed Write (components path)) (unlink_path V path) any.
Proof. unfold unlink_path. safe. call std_remove_file_keeps. Qed.
Lemma safe_rmdir path : safe (passed Write (components path)) (rmdir_path V path) any.
Proof. unfold rmdir_path. safe. call std_remove_dir_keeps. Qed.
Lemma safe_rename from to : safe (λ d, passed Write (components from) d ∧ passed Write (components to) d) (rename_path V from to) any.
Proof. unfold rename_path. call std_rename_keeps. Qed.
Lemma safe_copy from to exclusive : safe (passed Write (components to)) (copy_path V from to exclusive) any.
Proof. unfold copy_path. safe. call std_copy_keeps. Qed.
Lemma safe_rm path recursive force : safe (passed Write (components path)) (rm_path V path recursive force) any.
Proof. unfold rm_path. safe; first [call std_remove_dir_all_keeps|call std_remove_file_keeps]. Qed.
Lemma quiet_realpath path : quiet (realpath_of V path).
Proof. unfold realpath_of. quiet. Qed.
Lemma safe_chmod P path mode : safe P (chmod_path V path mode) any.
Proof. unfold chmod_path. call std_set_permissions_keeps. Qed.
Lemma quiet_access path mode : quiet (access_path V path mode).
Proof. unfold access_path. quiet. Qed.
Lemma quiet_statfs path : quiet (statfs_info V path).
Proof. unfold statfs_info. quiet. Qed.

(** *** Descriptors *)

Lemma inv_put w fd f n : inv w → file_ok (disk w) f → inv (set_fds (<[fd := f]> (fd_table w)) n w).
Proof.
  intros [H1 H2 H3 H4 H5] Hf. split; [done..| |done]. simpl. intros fd' f' H. destruct (base.decide (fd = fd')) as [->|].
  - rewrite lookup_insert_eq in H. by simplify_eq.
  - rewrite lookup_insert_ne in H by done. by eapply H4.
Qed.
Lemma safe_handle P fd : safe P (handle_of fd) (λ f d, file_ok d f).
Proof.
  intros w Hw HP. unfold handle_of. destruct (fd_table w !! fd) as [f|] eqn:E; (split; [done|]; split; [by apply keeps_same, inv_disk|]); [|done].
  intros f' [= <-]. by eapply inv_files.
Qed.
Lemma safe_put fd f : safe (λ d, file_ok d f) (put_handle fd f) (λ _ d, file_ok d f).
Proof. intros w Hw HP. split; [by apply inv_put|]. simpl. split; [apply keeps_same; by apply inv_disk|]. by intros. Qed.
(** A handle moved is as good a handle. *)
Lemma file_ok_at d f pos : file_ok d f → file_ok d (at_pos f pos).
Proof. intros H Hw i Hi. by apply H. Qed.
Lemma safe_seek fd f position : safe (λ d, file_ok d f) (seek_to V fd f position) (λ g d, file_ok d g).
Proof.
  destruct position as [pos|]; simpl; [|apply (safe_ret f (λ g d, file_ok d g))].
  eapply safe_then with (R := λ g d, file_ok d g).
  - apply safe_os. intros d r d' Hw HP H. unfold file_seek, file_refused in H. destruct (refuse_file _ _ _); [simplify_eq; split; [by apply keeps_same|done]|].
    case_bool_decide; simplify_eq; (split; [by apply keeps_same|]); [done|]. intros g [= <-]. by apply file_ok_at.
  - intros g. eapply safe_then; [apply safe_put|]. intros []. apply (safe_ret g (λ g d, file_ok d g)).
Qed.
Lemma safe_read_fd P fd position n : safe P (read_fd V fd position n) any.
Proof.
  unfold read_fd. eapply safe_then; [apply safe_handle|intros f]. eapply safe_then; [apply safe_seek|intros g].
  eapply safe_then with (R := λ r d, file_ok d r.2).
  - apply safe_os. intros d r d' Hw HP H. unfold file_read, file_refused in H. destruct (refuse_file _ _ _); [simplify_eq; split; [by apply keeps_same|done]|].
    destruct (negb (f_readable g)); [simplify_eq; split; [by apply keeps_same|done]|].
    destruct (f_entry g); simplify_eq; (split; [by apply keeps_same|]); [|done]. intros x [= <-]. by apply file_ok_at.
  - intros r. eapply safe_then; [apply safe_put|]. intros []. by apply safe_any_quiet, quiet_ret.
Qed.
Lemma safe_write_fd P fd position bytes : safe P (write_fd V fd position bytes) any.
Proof.
  unfold write_fd. eapply safe_then; [apply safe_handle|intros f]. eapply safe_then; [apply safe_seek|intros g].
  eapply safe_then with (R := λ r d, file_ok d r.2).
  - apply safe_os. intros d r d' Hw HP H. destruct (file_write_all _ _ _ _) as [[r1 f1] d1] eqn:E. simplify_eq.
    eapply (file_write_keeps (kernel V) (cwd V) _ _ under_up over_down) in E as [? ?]; [|done..]. split; [done|]. by intros x [= <-].
  - intros r. eapply safe_then; [apply safe_put|]. intros []. apply safe_any_quiet. quiet.
Qed.
Lemma quiet_close fd : quiet (close_fd fd).
Proof.
  intros w Hw. unfold close_fd, mbind, M_bind, handle_of. simpl. destruct (fd_table w !! fd) eqn:E; [|done]. simpl. split; [|done].
  destruct Hw as [H1 H2 H3 H4 H5]. split; [done..| |done]. simpl. intros fd' f' [_ H]%lookup_delete_Some. by eapply H4.
Qed.
Lemma quiet_handle fd : quiet (handle_of fd).
Proof. apply quiet_same. intros w. unfold handle_of. by destruct (fd_table w !! fd). Qed.
Lemma quiet_fstat fd : quiet (fstat_fd V fd).
Proof. unfold fstat_fd. apply quiet_then; [apply quiet_handle|intros f; apply quiet_ask]. Qed.
Lemma safe_ftruncate P fd n : safe P (ftruncate_fd V fd n) any.
Proof.
  unfold ftruncate_fd. eapply safe_then; [apply safe_handle|intros f]. apply safe_os_any. intros d r d' Hw HP H.
  by eapply (file_set_len_keeps (kernel V) (cwd V) _ _ under_up over_down) in H.
Qed.
Lemma safe_fchmod P fd mode : safe P (fchmod_fd V fd mode) any.
Proof.
  unfold fchmod_fd. eapply safe_then; [apply safe_handle|intros f]. apply safe_os_any. intros d r d' Hw HP H.
  unfold file_set_permissions, file_refused in H. destruct (refuse_file _ _ _); simplify_eq; [by apply keeps_same|by apply keeps_mode].
Qed.
Lemma safe_read_fd_all P fuel fd : safe P (read_fd_all V fuel fd) any.
Proof.
  revert P. induction fuel as [|fuel IH]; intros P; [by apply safe_any_quiet, quiet_ret|]. cbn [read_fd_all].
  eapply safe_then; [apply safe_read_fd|intros chunk]. case_bool_decide; [by apply safe_any_quiet, quiet_ret|].
  eapply safe_then; [apply IH|intros rest]. by apply safe_any_quiet, quiet_ret.
Qed.
Lemma safe_open_fd path mode perm : (m_append mode = true → m_write mode = true) →
  safe (λ d, m_write mode = true → passed Write (components path) d) (open_fd V path mode perm) any.
Proof.
  intros Hm. unfold open_fd. eapply safe_then with (R := λ f d, file_ok d f).
  - apply safe_os. intros d r d' Hw HP H. eapply (std_open_keeps (kernel V) (cwd V) _ _ under_up over_down) in H; [done..|].
    simpl. intros Ho. apply passed_writable, HP. destruct (m_write mode); [done|]. by apply Hm.
  - intros f w Hw Hf. unfold mbind, M_bind, get_world, update. simpl. apply good_same; [by apply inv_put|done|by intros].
Qed.

(** *** Directory handles *)

Lemma inv_dirs w t n : inv w → inv (set_dirs t n w).
Proof. intros []. by split. Qed.
Lemma quiet_dir_register l : quiet (dir_register l).
Proof.
  intros w Hw. unfold dir_register, mbind, M_bind, get_world, update. simpl. case_bool_decide; simpl; (split; [|done]); repeat apply inv_dirs; done.
Qed.
Lemma quiet_dir_read id : quiet (dir_read_next id).
Proof.
  intros w Hw. unfold dir_read_next. destruct (dir_table w !! id) as [h|]; [|done]. destruct (entries h !! index h); [|done].
  simpl. split; [by apply inv_dirs|done].
Qed.
Lemma quiet_dir_close id : quiet (dir_close id).
Proof. intros w Hw. unfold dir_close. destruct (dir_table w !! id); [|done]. simpl. split; [by apply inv_dirs|done]. Qed.

(** *** Permissions *)

Lemma safe_ensure a path (P : HostDisk → Prop) : safe P (ensure_fs_permission V a path) (λ _ d, P d ∧ passed a (components path) d).
Proof.
  intros w Hw HP. unfold ensure_fs_permission, mbind, M_bind, get_world. simpl. destruct (has_restrictions (perms w)) eqn:Er; simpl.
  - exact (safe_map_err PermissionDenied P _ _ (safe_check a (components path) P) w Hw HP).
  - apply good_same; [done..|]. intros [] _. split; [done|]. rewrite (inv_flag w Hw) in Er. split; intros; intros ?; congruence.
Qed.
Lemma quiet_ensure a path : quiet (ensure_fs_permission V a path).
Proof. unfold ensure_fs_permission. quiet. Qed.
(** What [work_denial] leaves to rely on. *)
Definition work_passed (work : FsWork) (d : HostDisk) : Prop :=
  match work with
  | WriteFile path _ _ | Mkdir path _ | Rmdir path | Unlink path | Rm path _ _ | Chmod path _ => passed Write (components path) d
  | Rename from to => passed Write (components from) d ∧ passed Write (components to) d
  | CopyFile _ to _ => passed Write (components to) d
  | Open path mode _ => m_write mode = true → passed Write (components path) d
  | _ => True
  end.
Lemma safe_denial work P : safe P (work_denial V work) (λ _ d, work_passed work d).
Proof.
  destruct work; simpl; try (eapply safe_weaken; [apply safe_any_quiet; quiet|done|done]);
    try (eapply safe_weaken; [apply safe_ensure|done|naive_solver]).
  - eapply safe_then; [apply safe_ensure|intros []]. eapply safe_weaken; [apply safe_ensure with (P := passed Write (components from))|naive_solver|naive_solver].
  - apply safe_after; [apply quiet_ensure|intros []]. eapply safe_weaken; [apply safe_ensure|done|naive_solver].
  - apply safe_after; [branch; [apply quiet_ensure|apply quiet_ret]|intros []]. destruct (m_write mode).
    + eapply safe_weaken; [apply safe_ensure|done|naive_solver].
    + by eapply safe_weaken; [apply safe_any_quiet, quiet_ret|..].
Qed.

(** *** Recursive copies *)

Definition safe_deep {A} (P : HostDisk → Prop) (m : Deep A) (Q : A → HostDisk → Prop) : Prop :=
  ∀ w x, inv w → P (disk w) → m w = Some x → good w Q x.
Lemma deep_shallow {A} P (m : Io A) Q : safe P m Q → safe_deep P (shallow m) Q.
Proof. intros Hm w x Hw HP [= <-]. by apply Hm. Qed.
Lemma deep_then {A B} P (m : Deep A) (f : A → Deep B) R Q : safe_deep P m R → (∀ a, safe_deep (R a) (f a) Q) → safe_deep P (and_then m f) Q.
Proof.
  intros Hm Hf w x Hw HP H. unfold and_then in H. destruct (m w) as [[[a|e] w1]|] eqn:E; [|simplify_eq|done];
    destruct (Hm _ _ Hw HP E) as (H1 & K1 & H2); simpl in *.
  - destruct (Hf a _ _ H1 (H2 a eq_refl) H) as (H3 & K2 & H4). split; [done|]. split; [|done]. eapply (keeps_then under_grant over_grant); [exact K1|exact K2].
  - split; [done|]. split; [done|]. by intros.
Qed.
Lemma deep_each {A} (f : A → Deep unit) l : (∀ a P, safe_deep P (f a) any) → ∀ P, safe_deep P (each_deep f l) any.
Proof.
  intros Hf. induction l as [|a l IH]; intros P; simpl; [by apply deep_shallow, safe_any_quiet, quiet_ret|].
  eapply deep_then; [apply Hf|intros ?; apply IH].
Qed.
Lemma quiet_entry a p : quiet (cp_entry_allowed V a p).
Proof. unfold cp_entry_allowed. quiet. Qed.
Lemma safe_entry a p P : safe P (cp_entry_allowed V a p) (λ _ d, passed a p d).
Proof. unfold cp_entry_allowed. apply safe_map_err. eapply safe_weaken; [apply safe_check|done|naive_solver]. Qed.
Lemma quiet_place force error_on_exist o : quiet (copy_place force error_on_exist o).
Proof. unfold copy_place. quiet. Qed.
Lemma safe_cp_file_real P from to force error_on_exist : safe P (cp_file_real V from to force error_on_exist) any.
Proof.
  unfold cp_file_real. apply safe_after; [apply quiet_entry|intros _]. eapply safe_then; [apply safe_entry|intros ?].
  apply safe_after; [quiet|intros ?]. apply safe_after; [apply quiet_place|intros go]. destruct go; [call std_copy_keeps|by apply safe_any_quiet, quiet_ret].
Qed.
Lemma quiet_cp_file_vfs from to force error_on_exist : quiet (cp_file_vfs V from to force error_on_exist).
Proof.
  unfold cp_file_vfs. apply quiet_then; [apply quiet_entry|intros _]. apply quiet_then; [apply quiet_entry|intros _].
  apply quiet_then; [quiet|intros r]. apply quiet_then; [apply quiet_place|intros go]. quiet.
Qed.
Lemma safe_target to : plain to → safe (passed Write to) (real_target V to) any.
Proof.
  intros Hp. unfold real_target. apply safe_after; [quiet|intros r]. destruct r; [apply safe_any_quiet; quiet|]. call create_all_keeps.
Qed.
Lemma plain_child p n : plain p → plain (path_join p [Normal n]).
Proof.
  intros (names & Hp). exists (names ++ [n]). unfold path_join. cbn [is_absolute]. rewrite fmap_app.
  destruct Hp as [H|[H|H]]; rewrite H; [|by right; left|by right; right]. left. by destruct names.
Qed.
Lemma deep_cp_dir_real fuel from to force error_on_exist P : plain to → safe_deep P (cp_dir_real V fuel from to force error_on_exist) any.
Proof.
  revert from to P. induction fuel as [|fuel IH]; intros from to P Hp; [by intros w x|]. cbn [cp_dir_real]. eapply deep_then.
  - apply deep_shallow. apply safe_after; [apply quiet_entry|intros _]. eapply safe_then; [apply safe_entry|intros ?].
    eapply safe_then; [by apply safe_target|intros ?]. apply safe_any_quiet. quiet.
  - intros l. apply deep_each. intros entry P'. eapply deep_then; [apply deep_shallow, safe_any_quiet; quiet|intros meta].
    destruct (md_is_dir meta); [by apply IH, plain_child|apply deep_shallow, safe_cp_file_real].
Qed.
Lemma deep_cp_dir_vfs fuel from to force error_on_exist P : safe_deep P (cp_dir_vfs V fuel from to force error_on_exist) any.
Proof.
  revert from to P. induction fuel as [|fuel IH]; intros from to P; [by intros w x|]. cbn [cp_dir_vfs]. eapply deep_then.
  - apply deep_shallow, safe_any_quiet. apply quiet_then; [apply quiet_entry|intros _]. apply quiet_then; [apply quiet_entry|intros _].
    unfold vfs_target. quiet.
  - intros l. apply deep_each. intros entry P'. eapply deep_then; [apply deep_shallow, safe_any_quiet; quiet|intros meta].
    destruct (is_dir meta); [apply IH|apply deep_shallow, safe_any_quiet, quiet_cp_file_vfs].
Qed.
Lemma deep_cp_path fuel from to recursive force error_on_exist P : plain (components to) →
  safe_deep P (cp_path V fuel from to recursive force error_on_exist) any.
Proof.
  intros Hp. unfold cp_path. destruct (path_starts_with _ _); [apply deep_shallow, safe_fail|].
  eapply deep_then; [apply deep_shallow, safe_any_quiet; quiet|intros on_]. destruct on_.
  - eapply deep_then; [apply deep_shallow, safe_any_quiet; quiet|intros meta].
    destruct (is_dir meta); [|apply deep_shallow, safe_any_quiet, quiet_cp_file_vfs].
    destruct (negb recursive); [apply deep_shallow, safe_fail|apply deep_cp_dir_vfs].
  - eapply deep_then; [apply deep_shallow, safe_any_quiet; quiet|intros meta].
    destruct (md_is_dir meta); [|apply deep_shallow, safe_cp_file_real].
    destruct (negb recursive); [apply deep_shallow, safe_fail|by apply deep_cp_dir_real].
Qed.

(** *** Jobs *)

Lemma quiet_view view offset data : quiet (write_view_bytes view offset data).
Proof.
  intros w Hw. unfold write_view_bytes. destruct (buffers w !! view_buffer view); [|done]. case_bool_decide; [|done].
  split; [|done]. by destruct Hw.
Qed.
Lemma safe_job {A} P syscall path (m : Io A) k Q : safe P m Q → safe P (job syscall path m k) any.
Proof. intros Hm. unfold job. eapply safe_then; [by apply safe_map_err|intros a]. by apply safe_any_quiet, quiet_ret. Qed.
Lemma execute_safe fuel work w x : tame_work work → inv w → work_passed work (disk w) → execute_work V fuel work w = Some x → good w any x.
Proof.
  intros Ht Hw HP H. destruct work; cbn [execute_work] in H;
    try (apply (inj Some) in H; rewrite <-H; clear H; revert w Hw HP; simpl in Ht).
  - eapply safe_job, safe_any_quiet, quiet_read_file.
  - eapply safe_job, safe_write_file. by intros c.
  - eapply safe_job, safe_mkdir. intros ->. exact Ht.
  - eapply safe_job, safe_rmdir.
  - eapply safe_job, safe_any_quiet, quiet_read_directory.
  - eapply safe_job, safe_any_quiet, quiet_stat.
  - eapply safe_job, safe_unlink.
  - eapply safe_job, safe_rename.
  - eapply safe_job, safe_copy.
  - eapply safe_job, safe_rm.
  - eapply safe_job, safe_any_quiet, quiet_realpath.
  - eapply safe_job, safe_chmod.
  - eapply safe_job, safe_any_quiet, quiet_access.
  - by eapply safe_job, safe_open_fd.
  - eapply safe_then; [apply safe_map_err, safe_read_fd|intros bytes]. apply safe_after; [apply quiet_view|intros ?]. by apply safe_any_quiet, quiet_ret.
  - eapply safe_job, safe_write_fd.
  - eapply safe_job, safe_any_quiet, quiet_close.
  - destruct (cp_path _ _ _ _ _ _ _ _) as [y|] eqn:E; [|done]. injection H as <-.
    eapply deep_cp_path in E as (H1 & H2 & _); [|exact Ht|exact Hw|exact HP]. split; [exact H1|]. split; [exact H2|done].
  - apply safe_after; [apply quiet_map_err, quiet_read_directory|intros l]. apply safe_after; [apply quiet_map_err, quiet_dir_register|intros id].
    by apply safe_any_quiet, quiet_ret.
  - eapply safe_job, safe_any_quiet, quiet_statfs.
  - eapply safe_job, safe_any_quiet, quiet_dir_read.
  - eapply safe_job, safe_any_quiet, quiet_dir_close.
  - eapply safe_job, safe_any_quiet, quiet_fstat.
  - eapply safe_job, safe_ftruncate.
  - eapply safe_job, safe_fchmod.
  - destruct (safe_read_fd_all _ fuel fd w Hw HP) as (H1 & H2 & _). destruct (read_fd_all V fuel fd w) as [[[b|]|e] w1]; simplify_eq; done.
  - eapply safe_job. unfold write_fd_all. eapply safe_then; [apply safe_write_fd|intros ?]. by apply safe_any_quiet, quiet_ret.
Qed.
Lemma inv_tell w x : inv w → inv (tell x w).
Proof. intros []. by split. Qed.
Lemma safe_enqueue P d work : tame_work work → safe P (enqueue_fs_job d work) (λ _, P).
Proof.
  intros Ht w Hw HP. unfold enqueue_fs_job. simpl. apply good_same; [|done|done]. destruct Hw as [H1 H2 H3 H4 H5]. split; [done..|]. simpl.
  intros id d' work' H. destruct (base.decide (fs_job_seq w = id)) as [<-|].
  - rewrite lookup_insert_eq in H. by simplify_eq.
  - rewrite lookup_insert_ne in H by done. by eapply H5.
Qed.
Lemma trampoline_safe fuel id w w' : inv w → fs_job_trampoline V fuel id w = Some w' → inv w' ∧ keeps (disk w) (disk w').
Proof.
  intros Hw H. unfold fs_job_trampoline in H. destruct (fs_jobs w !! id) as [[d work]|] eqn:E; [|simplify_eq; split; [done|by apply keeps_same, inv_disk]].
  assert (Ht : tame_work work) by by eapply inv_jobs. set (w0 := set_jobs (delete id (fs_jobs w)) (fs_job_seq w) w) in *.
  assert (Hw0 : inv w0).
  { destruct Hw as [H1 H2 H3 H4 H5]. split; [done..|]. simpl. intros id' d' work' [_ H']%lookup_delete_Some. by eapply H5. }
  change (disk w) with (disk w0). clearbody w0. unfold run_fs_job in H. pose proof (safe_denial work (λ _, True) w0 Hw0 I) as (H1 & H2 & H3).
  destruct (work_denial V work w0) as [[u|e] w1]; simpl in *.
  - destruct (execute_work V fuel work w1) as [x|] eqn:Ex; [|done]. injection H as <-.
    eapply execute_safe in Ex as (H4 & H5 & _); [|done..|by apply (H3 u)]. split; [by apply inv_tell|]. eapply (keeps_then under_grant over_grant); [exact H2|exact H5].
  - injection H as <-. split; [by apply inv_tell|exact H2].
Qed.

(** *** The functions of the module *)

Definition no_nul (v : JsValue) : Prop := ∀ s, js_text v = Some s → nul ∉ default (utf8 s) (one_byte s).
(** The calls the theorem speaks of: no NUL in the path, and names only in the targets of recursive copies and directories. *)
Definition tame_call (name : string) (args : Args) : Prop :=
  no_nul (get_arg args 0)
  ∧ (name ∈ ["mkdirSync"; "mkdir"]%string → plain (components (arg_text (get_arg args 0))))
  ∧ (name ∈ ["cpSync"; "cp"]%string → plain (components (arg_text (get_arg args 1)))).
Definition appends (m : OpenMode) : Prop := m_append m = true → m_write m = true.
Lemma parse_mode_appends f m : parse_mode f = Ok m → appends m.
Proof.
  unfold parse_mode. destruct (list_find _ mode_table) as [[i [fs arm]]|] eqn:E; [|done]. intros [= <-]. apply list_find_Some in E as (Hi & _).
  assert (Forall (λ x : list rstr * OpenMode, appends x.2) mode_table) as Hf by (repeat constructor; done). rewrite Forall_forall in Hf.
  by apply (Hf (fs, arm)), (list_elem_of_lookup_2 _ i).
Qed.
Lemma safe_flags P f : safe P (flags_mode f) (λ m d, P d ∧ appends m).
Proof.
  intros w Hw HP. apply good_same; [done..|]. intros m H. split; [done|]. unfold flags_mode, coded, of_result in H. simpl in H.
  destruct (parse_mode _) eqn:E; [|done]. injection H as <-. by eapply parse_mode_appends.
Qed.
Lemma quiet_coded {A} code (r : result A rstr) : quiet (coded code r).
Proof. apply quiet_result. Qed.
Lemma quiet_file_bytes v e : quiet (file_bytes V v e).
Proof. apply quiet_result. Qed.
Lemma quiet_require args name : quiet (require_callback args name).
Proof. unfold require_callback. quiet. Qed.
Lemma quiet_uint8 v : quiet (uint8_view v).
Proof. unfold uint8_view. quiet. Qed.
Lemma quiet_throws {A} syscall path (m : Io A) : quiet m → quiet (throws syscall path m).
Proof. apply quiet_map_err. Qed.
Lemma quiet_open_allowed mode path : quiet (open_allowed V mode path).
Proof. unfold open_allowed. apply quiet_then; [|intros _]; branch; (apply quiet_ensure || apply quiet_ret). Qed.
Lemma safe_open_allowed mode path P : safe P (open_allowed V mode path) (λ _ d, m_write mode = true → passed Write (components path) d).
Proof.
  unfold open_allowed. apply safe_after; [branch; [apply quiet_ensure|apply quiet_ret]|intros ?]. destruct (m_write mode).
  - eapply safe_weaken; [apply safe_ensure|done|naive_solver].
  - by eapply safe_weaken; [apply safe_any_quiet, quiet_ret|..].
Qed.
Lemma safe_queue P callback shape work : tame_work work → safe P (queue callback shape work) any.
Proof. intros Ht. unfold queue. eapply safe_then; [by apply safe_enqueue|intros ?]. by apply safe_any_quiet, quiet_ret. Qed.
Lemma safe_promise P work : tame_work work → safe P (start_promise work) any.
Proof.
  intros Ht. unfold start_promise. apply safe_after; [quiet|intros w]. eapply safe_then; [by apply safe_enqueue|intros ?]. by apply safe_any_quiet, quiet_ret.
Qed.
Lemma safe_sync {A} P a path syscall spath (op : Io A) (k : A → Js FsValue) : safe (passed a (components path)) op any → (∀ x, quiet (k x)) →
  safe P (ensure_fs_permission V a path;; x ← throws syscall spath op; k x) any.
Proof.
  intros Ho Hk. eapply safe_then; [apply safe_ensure|intros ?]. eapply safe_then; [apply safe_map_err; eapply safe_weaken; [exact Ho|naive_solver|done]|].
  intros x. by apply safe_any_quiet.
Qed.
Lemma safe_sync_two {A} P a from to syscall spath (op : Io A) (k : A → Js FsValue) :
  safe (λ d, (a = Write → passed Write (components from) d) ∧ passed Write (components to) d) op any → (∀ x, quiet (k x)) →
  safe P (ensure_fs_permission V a from;; ensure_fs_permission V Write to;; x ← throws syscall spath op; k x) any.
Proof.
  intros Ho Hk. eapply safe_then; [apply safe_ensure|intros ?]. eapply safe_then; [apply safe_ensure|intros ?].
  eapply safe_then; [apply safe_map_err; eapply safe_weaken; [exact Ho| |done]|intros x; by apply safe_any_quiet].
  intros d [[_ H1] H2]. split; [|done]. by intros ->.
Qed.
Ltac sync H := intros; apply safe_sync; [eapply safe_weaken; [apply H|naive_solver|done]|intros ?; apply quiet_ret].
Lemma path_fast v : no_nul v → same_path (get_path_fast v).2 (get_path_fast v).1.
Proof.
  intros Hn c. unfold get_path_fast. destruct (js_text v) as [s|] eqn:E; [|done]. specialize (Hn s E).
  destruct (_ && _); [|done]. simpl. intros [= <-]. unfold c_string. rewrite (proj2 (split_once_None nul _)); done.
Qed.
Ltac quiet ::=
  solve [repeat first
    [ progress intros
    | apply quiet_ret | apply quiet_fail | apply quiet_get | apply quiet_result | apply quiet_ask | apply quiet_vfs_on
    | apply quiet_vfs_ask | apply quiet_vfs_bool | apply quiet_vfs_do | apply quiet_vfs_unlink | apply quiet_check
    | apply quiet_coded | apply quiet_file_bytes | apply quiet_require | apply quiet_uint8 | apply quiet_ensure
    | apply quiet_open_allowed | apply quiet_view | apply quiet_dir_register | apply quiet_dir_read | apply quiet_dir_close | apply quiet_read_file
    | apply quiet_read_directory | apply quiet_stat | apply quiet_realpath | apply quiet_access | apply quiet_statfs | apply quiet_close
    | apply quiet_try | apply quiet_throws | apply quiet_map_err | apply quiet_then | branch ]].
(** A function that queues its work, a function that works at once, and one that changes nothing. *)
Ltac queued :=
  repeat first
    [ exact I | apply safe_queue | apply safe_promise | apply safe_fail | apply safe_after; [quiet|intros ?] | apply safe_any_quiet, quiet_ret
    | branch ].
Definition fn_ok (name : string) (f : Args → Js FsValue) : Prop := ∀ args P, tame_call name args → safe P (f args) any.
Lemma quiet_read_direct c : quiet (read_direct V c).
Proof.
  apply quiet_same. intros w. unfold read_direct. destruct (std_open _ _ _ _ _) as [[f|] ?]; [|done]. by destruct (file_metadata _ _ _).
Qed.
Lemma read_file_sync_ok : fn_ok "readFileSync" (fs_read_file_sync_callback V).
Proof.
  intros args P _. apply safe_any_quiet. unfold fs_read_file_sync_callback. destruct (get_path_fast _) as [path c].
  apply quiet_then; [quiet|intros ?]. apply quiet_then; [quiet|intros o]. apply quiet_then; [quiet|intros on_]. apply quiet_then; [|quiet].
  destruct c; [|quiet]. destruct (_ && _); [apply quiet_throws, quiet_read_direct|quiet].
Qed.
Lemma write_sync_ok name default_append : fn_ok name (write_sync_inner V default_append).
Proof.
  intros args P [Hn _]. apply path_fast in Hn. unfold write_sync_inner. destruct (get_path_fast _) as [path c]. simpl in Hn.
  eapply safe_then; [apply safe_ensure|intros ?]. apply safe_after; [quiet|intros o]. apply safe_after; [quiet|intros mode].
  assert (∀ Q, (∀ d, Q d → passed Write (components path) d) → ∀ op : Io unit, safe (passed Write (components path)) op any →
    safe Q (_ ← throws "open" path op; mret VUndefined) any) as Hop.
  { intros Q HQ op Ho. eapply safe_then; [apply safe_map_err; eapply safe_weaken; [exact Ho|exact HQ|done]|intros ?]. by apply safe_any_quiet, quiet_ret. }
  destruct (_ && _ && _).
  - apply Hop; [naive_solver|by apply safe_direct_write].
  - apply safe_after; [quiet|intros bytes]. apply Hop; [naive_solver|]. apply safe_write_file. destruct (is_plain_write mode); [done|by intros ?].
Qed.
Lemma exists_ok : fn_ok "existsSync" (fs_exists_sync_callback V).
Proof. intros args P _. apply safe_any_quiet. unfold fs_exists_sync_callback. quiet. Qed.
Lemma mkdir_sync_ok : fn_ok "mkdirSync" (fs_mkdir_sync_callback V).
Proof.
  intros args P (_ & Hp & _). unfold fs_mkdir_sync_callback. apply safe_sync; [|quiet]. apply safe_mkdir. intros _. apply Hp. set_solver.
Qed.
Lemma unlink_sync_ok : fn_ok "unlinkSync" (fs_unlink_sync_callback V).
Proof. intros args P _. apply safe_sync; [apply safe_unlink|quiet]. Qed.
Lemma rmdir_sync_ok : fn_ok "rmdirSync" (fs_rmdir_sync_callback V).
Proof. intros args P _. apply safe_sync; [apply safe_rmdir|quiet]. Qed.
Lemma rm_sync_ok : fn_ok "rmSync" (fs_rm_sync_callback V).
Proof. intros args P _. apply safe_sync; [apply safe_rm|quiet]. Qed.
Lemma chmod_sync_ok : fn_ok "chmodSync" (fs_chmod_sync_callback V).
Proof. intros args P _. apply safe_sync; [apply safe_chmod|quiet]. Qed.
Lemma rename_sync_ok : fn_ok "renameSync" (fs_rename_sync_callback V).
Proof. intros args P _. apply safe_sync_two; [eapply safe_weaken; [apply safe_rename|naive_solver|done]|quiet]. Qed.
Lemma copy_sync_ok : fn_ok "copyFileSync" (fs_copy_file_sync_callback V).
Proof. intros args P _. apply safe_sync_two; [eapply safe_weaken; [apply safe_copy|naive_solver|done]|quiet]. Qed.
Lemma readdir_sync_ok : fn_ok "readdirSync" (fs_readdir_sync_callback V).
Proof. intros args P _. apply safe_any_quiet. unfold fs_readdir_sync_callback. quiet. Qed.
Lemma open_sync_ok : fn_ok "openSync" (fs_open_sync_callback V).
Proof.
  intros args P _. unfold fs_open_sync_callback. eapply safe_then; [apply safe_flags|intros mode]. intros w Hw [HP Hm]. revert w Hw HP. 
  eapply safe_then; [apply safe_open_allowed|intros ?]. eapply safe_then; [by apply safe_map_err, safe_open_fd|intros ?]. by apply safe_any_quiet, quiet_ret.
Qed.
Lemma open_callback_ok : fn_ok "open" (fs_open_callback V).
Proof.
  intros args P _. unfold fs_open_callback. apply safe_after; [quiet|intros callback]. eapply safe_then; [apply safe_flags|intros mode].
  intros w Hw [HP Hm]. revert w Hw HP. apply safe_after; [quiet|intros ?]. by apply safe_queue.
Qed.
Lemma open_promise_ok : fn_ok "open" (fs_promises_open_callback V).
Proof.
  intros args P _. unfold fs_promises_open_callback. eapply safe_then; [apply safe_flags|intros mode].
  intros w Hw [HP Hm]. revert w Hw HP. apply safe_after; [quiet|intros ?]. by apply safe_promise.
Qed.
Lemma read_sync_ok : fn_ok "readSync" (fs_read_sync_callback V).
Proof.
  intros args P _. unfold fs_read_sync_callback. eapply safe_then; [apply safe_map_err, safe_read_fd|intros ?]. apply safe_any_quiet. quiet.
Qed.
Lemma write_fd_sync_ok : fn_ok "writeSync" (fs_write_fd_sync_callback V).
Proof.
  intros args P _. unfold fs_write_fd_sync_callback. destruct (fd_data args). eapply safe_then; [apply safe_map_err, safe_write_fd|intros ?].
  apply safe_any_quiet. quiet.
Qed.
Lemma mkdir_queued_ok (f : Args → Js FsValue) name : name ∈ ["mkdirSync"; "mkdir"]%string →
  (∀ args P, plain (components (arg_text (get_arg args 0))) → safe P (f args) any) → fn_ok name f.
Proof. intros Hn Hf args P (_ & Hp & _). by apply Hf, Hp. Qed.
Lemma cp_queued_ok (f : Args → Js FsValue) name : name ∈ ["cpSync"; "cp"]%string →
  (∀ args P, plain (components (arg_text (get_arg args 1))) → safe P (f args) any) → fn_ok name f.
Proof. intros Hn Hf args P (_ & _ & Hp). by apply Hf, Hp. Qed.
Lemma mkdir_callback_ok : fn_ok "mkdir" (fs_mkdir_callback V).
Proof.
  apply mkdir_queued_ok; [set_solver|]. intros args P Hp. unfold fs_mkdir_callback. do 2 (apply safe_after; [quiet|intros ?]).
  apply safe_queue. simpl. by branch.
Qed.
Lemma mkdir_promise_ok : fn_ok "mkdir" (fs_promises_mkdir_callback V).
Proof.
  apply mkdir_queued_ok; [set_solver|]. intros args P Hp. unfold fs_promises_mkdir_callback, promise_on. apply safe_after; [quiet|intros ?].
  apply safe_promise. simpl. by branch.
Qed.
Lemma cp_callback_ok : fn_ok "cp" (fs_cp_callback V).
Proof.
  apply cp_queued_ok; [set_solver|]. intros args P Hp. unfold fs_cp_callback. apply safe_after; [quiet|intros ?]. destruct (cp_options _) as [[recursive force] e].
  do 2 (apply safe_after; [quiet|intros ?]). by apply safe_queue.
Qed.
Lemma cp_promise_ok : fn_ok "cp" (fs_promises_cp_callback V).
Proof.
  apply cp_queued_ok; [set_solver|]. intros args P Hp. unfold fs_promises_cp_callback, promise_on_two. do 2 (apply safe_after; [quiet|intros ?]).
  destruct (cp_options _) as [[recursive force] e]. by apply safe_promise.
Qed.
Lemma with_index_ok args i name k P : (∀ callback options, safe P (k callback options) any) → safe P (with_index args i name k) any.
Proof. intros Hk. unfold with_index. destruct (callback_index args i) as [at_|]; [|apply safe_fail]. destruct (js_function _); [apply Hk|by apply safe_any_quiet, quiet_ret]. Qed.
Lemma read_callback_ok : fn_ok "readFile" (fs_read_file_callback V).
Proof. intros args P _. apply with_index_ok. intros callback options. queued. Qed.
Lemma write_callback_ok name name' default_append : fn_ok name (write_callback_inner V default_append name').
Proof. intros args P _. apply with_index_ok. intros callback options. queued. Qed.
Lemma write_promise_ok : fn_ok "write" fs_promises_write_callback.
Proof. intros args P _. unfold fs_promises_write_callback. destruct (fd_data args). by apply safe_promise. Qed.
(** A table whose functions are safe. *)
Definition table_ok (T : string → Args → Prop) (l : list (string * Function)) : Prop :=
  Forall (λ x : string * Function, ∀ args w y, T x.1 args → inv w → x.2 args w = Some y → good w any y) l.
Lemma entry_ok name f : fn_ok name f → ∀ args w y, tame_call (bind name f).1 args → inv w → (bind name f).2 args w = Some y → good w any y.
Proof. intros Hf args w y Ht Hw [= <-]. by apply (Hf args (λ _, True)). Qed.
Lemma cp_sync_ok fuel args w y : tame_call "cpSync" args → inv w → fs_cp_sync_callback V fuel args w = Some y → good w any y.
Proof.
  intros (_ & _ & Hp) Hw H. specialize (Hp ltac:(set_solver)). unfold fs_cp_sync_callback in H. destruct (cp_options _) as [[recursive force] e].
  set (check := (ensure_fs_permission V Read (arg_text (get_arg args 0));; ensure_fs_permission V Write (arg_text (get_arg args 1)))) in *.
  assert (quiet check) as [H1 H2]%(λ q : quiet check, q w Hw) by (apply quiet_then; [apply quiet_ensure|intros ?; apply quiet_ensure]).
  clearbody check. destruct (check w) as [[u|err] w1]; simpl in *.
  - destruct (cp_path _ _ _ _ _ _ _ _) as [x|] eqn:E; [|done]. injection H as <-.
    eapply (deep_cp_path _ _ _ _ _ _ (λ _, True)) in E as (H3 & H4 & _); [|done..]. rewrite H2 in H4. split; [exact H3|]. split; [exact H4|done].
  - injection H as <-. by apply good_same.
Qed.
Ltac entry :=
  first [simple apply entry_ok | apply cp_sync_ok];
  first
    [ simple apply read_file_sync_ok | simple apply exists_ok | simple apply mkdir_sync_ok | simple apply unlink_sync_ok | simple apply rmdir_sync_ok
    | simple apply rm_sync_ok | simple apply chmod_sync_ok | simple apply rename_sync_ok | simple apply copy_sync_ok | simple apply open_sync_ok
    | simple apply open_callback_ok | simple apply open_promise_ok | simple apply read_sync_ok | simple apply write_fd_sync_ok
    | simple apply mkdir_callback_ok | simple apply mkdir_promise_ok | simple apply cp_callback_ok | simple apply cp_promise_ok
    | simple apply read_callback_ok | simple apply write_promise_ok
    | unfold fs_write_file_sync_callback, fs_append_file_sync_callback; simple apply write_sync_ok
    | unfold fs_write_file_callback, fs_append_file_callback; simple apply write_callback_ok
    | intros ? ? _; solve [queued] ].
Lemma fs_functions_ok fuel : table_ok tame_call (fs_functions V fuel).
Proof.
  unfold table_ok, fs_functions. repeat (apply Forall_cons; split); try (by apply Forall_nil); entry.
Qed.
Lemma promises_functions_ok : table_ok tame_call (promises_functions V).
Proof. unfold table_ok, promises_functions. repeat (apply Forall_cons; split); try (by apply Forall_nil); entry. Qed.
Lemma dir_functions_ok dir : table_ok (λ _ _, True) (dir_functions dir).
Proof.
  assert (Hb : ∀ name f, (∀ args P, safe P (f args) any) → ∀ args w y, True → inv w → (bind name f).2 args w = Some y → good w any y).
  { intros name f Hf args w y _ Hw [= <-]. by apply (Hf args (λ _, True)). }
  unfold table_ok, dir_functions. repeat (apply Forall_cons; split); try (by apply Forall_nil); apply Hb; intros args P; solve [queued].
Qed.
End safe.

(** ** Confinement *)

Definition tame_event (e : Event) : Prop :=
  match e with CallFs name args | CallPromises name args => tame_call name args | CallDir _ _ _ | NextTick _ => True end.
(** Writing to [l] passes the permission check. *)
Definition may_write (V : Env) (w : World) (l : loc) : Prop := granted V (has_restrictions (perms w)) (broker (perms w)) Write l.
Section confined.
Context (V : Env) (fuel : nat) (r0 : bool) (b0 : ResourceBroker).
Context (honest : ∀ p d, refuse (kernel V) "realpath" p d = None) (clean : has_nul (abs_path (cwd V)) = false).
#[local] Abbreviation inv := (inv V r0 b0).
#[local] Abbreviation keeps := (keeps (under_grant V r0 b0) (over_grant V r0 b0)).
Lemma table_call T l name args w w' : table_ok V r0 b0 T l → T name args → inv w →
  call (function_named name l) args w = Some w' → inv w' ∧ keeps (disk w) (disk w').
Proof.
  intros Hl Ht Hw H. unfold function_named, call in H. destruct (list_find _ l) as [[i [name' f]]|] eqn:E; simpl in H.
  - apply list_find_Some in E as (Hi & Hn & _). simpl in Hn. subst name'. destruct (f args w) as [y|] eqn:Ef; [|done]. injection H as <-.
    assert ((name, f) ∈ l) as Hin by by eapply list_elem_of_lookup_2. unfold table_ok in Hl. rewrite Forall_forall in Hl.
    destruct (Hl _ Hin args w y Ht Hw Ef) as (H1 & H2 & _). by split.
  - injection H as <-. split; [done|]. by eapply keeps_same, inv_disk.
Qed.
Lemma fs_step_safe e w w' : tame_event e → inv w → fs_step V fuel e w = Some w' → inv w' ∧ keeps (disk w) (disk w').
Proof using honest clean.
  intros Ht Hw H. destruct e as [name args|name args|dir name args|id]; simpl in H.
  - eapply table_call; [|exact Ht|exact Hw|exact H]. by apply fs_functions_ok.
  - eapply table_call; [|exact Ht|exact Hw|exact H]. by apply promises_functions_ok.
  - eapply (table_call (λ _ _, True)); [|exact I|exact Hw|exact H]. by apply dir_functions_ok.
  - by eapply trampoline_safe.
Qed.
Lemma fs_run_safe events w w' : Forall tame_event events → inv w → fs_run V fuel events w = Some w' → inv w' ∧ keeps (disk w) (disk w').
Proof using honest clean.
  revert w. induction events as [|e events IH]; intros w Ht Hw H; [simpl in H; injection H as <-; split; [done|by eapply keeps_same, inv_disk]|].
  apply Forall_cons in Ht as [He Ht]. cbn [fs_run] in H. destruct (fs_step V fuel e w) as [w1|] eqn:E; [|done].
  apply fs_step_safe in E as [H1 H2]; [|done..]. apply IH in H as [H3 H4]; [|done..]. split; [done|]. eapply keeps_then; [exact H2|exact H4].
Qed.
End confined.
