(* ===== verification/NodeFsExamples.v ===== *)
(** * Node's [fs] module on concrete worlds

    A small disk, a sandbox with one writable directory and the calls that do not do what they
    say: paths with a NUL byte or a [..] behind a missing directory leave the sandbox, three functions leave the
    in-memory file system, and some results are not Node's. *)

From S2P Require Import Prelude RustPath DiskFs Permissions VirtualFs HostDisk HostDiskTheorems NodeFs NodeFsApi NodeFsTheorems.

(** ** The bench *)

Definition plain_codec : Codec := {|
  hex_decode := λ _, None; hex_encode := λ b, b; base64_decode := λ _, None; base64_encode := λ b, b; from_utf8_lossy := λ b, b |}.
Definition bench_env : Env := {|
  kernel := quiet_kernel; cwd := []; url_host := λ _, None; now := []; codec := plain_codec;
  os_access := λ _ _ _, Ok tt; os_statvfs := λ _ _, Ok [] |}.
Definition empty_disk : HostDisk := {| tree := ∅; contents := ∅; modes := ∅; next_ino := 1 |}.
Definition jail : loc := ["jail" : rstr].
Definition jail_file : loc := ["jail" : rstr; "a" : rstr].
Definition etc : loc := ["etc" : rstr].
Definition passwd : loc := ["etc" : rstr; "passwd" : rstr].
(** [/jail], [/etc] and the file [/etc/passwd], which is [root]. *)
Definition bench_disk : HostDisk :=
  with_content (created (created (created empty_disk jail DirE 511) etc DirE 511) passwd FileE 420) 3 "root".
Definition bench_host : Host := host_of quiet_kernel [] bench_disk.
(** Everything denied, reads and writes below [/jail] granted. *)
Definition jail_perms : PermState :=
  grant_paths bench_host (grant_paths bench_host (deny_all bench_host perm_init) Read [abs_path jail]) Write [abs_path jail].
Definition world_with (d : HostDisk) (p : PermState) (v : Vfs) : World := {|
  disk := d; vfs := v; perms := p; fd_table := ∅; next_fd := 3; dir_table := ∅; next_dir_id := 1;
  fs_jobs := ∅; fs_job_seq := 1; buffers := ∅; delivered := [] |}.
Definition jail_world : World := world_with bench_disk jail_perms vfs_init.
Definition free_world : World := world_with bench_disk perm_init vfs_init.
(** A string argument whose characters are below 128. *)
Definition str (s : rstr) : JsValue := {|
  js_undefined := false; js_null := false; js_string := true; js_object := false; js_function := None;
  js_text := Some {| one_byte := Some s; utf8 := s; text := s |}; js_int32 := Some 0%Z; js_uint32 := Some 0%Z; js_position := Some 0%Z;
  js_text_prop := λ _, None; js_true_prop := λ _, None; js_bytes := None; js_view := None; js_uint8_array := false |}.
(** An object with these properties true and no other. *)
Definition options (true_props : list rstr) : JsValue := {|
  js_undefined := false; js_null := false; js_string := false; js_object := true; js_function := None;
  js_text := Some {| one_byte := Some ("[object Object]" : rstr); utf8 := "[object Object]"; text := "[object Object]" |};
  js_int32 := Some 0%Z; js_uint32 := Some 0%Z; js_position := Some 0%Z;
  js_text_prop := λ _, None; js_true_prop := λ key, Some (bool_decide (key ∈ true_props)); js_bytes := None; js_view := None; js_uint8_array := false |}.
Definition after (events : list Event) (w : World) (l : loc) : option (option (option rstr)) :=
  (λ w, seen_at (disk w) l) <$> fs_run bench_env 10 events w.

Example jailed_write : after [CallFs "writeFileSync" [str "/jail/a"; str "hello"]] jail_world jail_file = Some (Some (Some ("hello" : rstr))).
Proof. vm_compute. reflexivity. Qed.
Example jailed_escape : after [CallFs "writeFileSync" [str "/jail/../etc/passwd"; str "evil"]] jail_world passwd = Some (Some (Some ("root" : rstr))).
Proof. vm_compute. reflexivity. Qed.
Example nul_escapes_the_jail :
  after [CallFs "writeFileSync" [str (("/jail/../etc/passwd" : rstr) ++ [nul] ++ ("/x" : rstr)); str "evil"]] jail_world passwd = Some (Some (Some ("evil" : rstr))).
Proof. vm_compute. reflexivity. Qed.
Example mkdir_escapes_the_jail :
  after [CallFs "mkdirSync" [str "/jail/none/../../etc/evil"; options ["recursive" : rstr]]] jail_world ["etc" : rstr; "evil" : rstr] = Some (Some None).
Proof. vm_compute. reflexivity. Qed.
Lemma wf_created d l n e mode : wf_host d → (∃ i, entry_at d l = Some (DirE i)) → entry_at d (l ++ [n]) = None → (∀ i, inode (e i) = i) →
  wf_host (created d (l ++ [n]) e mode).
Proof. intros Hw Hl Hn He. eapply (keeps_wf (λ _, True) (λ _, True)), keeps_created; [exact Hw|exact Hl|exact Hn|exact He|by left]. Qed.
Lemma wf_content d i data : wf_host d → wf_host (with_content d i data).
Proof. intros Hw. by eapply (keeps_wf (λ _, True) (λ _, True)), keeps_content. Qed.
Lemma bench_wf : wf_host bench_disk.
Proof.
  assert (wf_host empty_disk) as H0 by (split; simpl; intros *; rewrite ?lookup_empty; done).
  apply (wf_content _ 3), (wf_created _ ["etc" : rstr] "passwd"); [|by exists 2|done..].
  apply (wf_created _ [] "etc"); [|by exists 0|done..]. by apply (wf_created _ [] "jail"); [|exists 0|..].
Qed.
Lemma is_ran {A} (o : option A) : (if o then true else false) = true → is_Some o.
Proof. destruct o; [by eexists|done]. Qed.
(** A write inside the jail, and what the theorem says of the file outside. *)
Definition hello : list Event := [CallFs "writeFileSync" [str "/jail/a"; str "hello"]].

(** ** Results that are not Node's *)

(** What a function answers. *)
Definition answer (f : Args → Js FsValue) (args : Args) (w : World) : result FsValue FsFail := (f args w).1.
Definition byte (n : N) : rstr := [ascii_of_N n].
(** U+00E9: one Latin-1 byte, two bytes of UTF-8. *)
Definition e_acute : JsValue := {|
  js_undefined := false; js_null := false; js_string := true; js_object := false; js_function := None;
  js_text := Some {| one_byte := Some (byte 233); utf8 := byte 195 ++ byte 169; text := byte 195 ++ byte 169 |};
  js_int32 := Some 0%Z; js_uint32 := Some 0%Z; js_position := Some 0%Z;
  js_text_prop := λ _, None; js_true_prop := λ _, None; js_bytes := None; js_view := None; js_uint8_array := false |}.
Example text_written_as_latin1 :
  after [CallFs "writeFileSync" [str "/jail/a"; e_acute]] free_world jail_file = Some (Some (Some (byte 233))).
Proof. vm_compute. reflexivity. Qed.
(** A directory, where [EISDIR] is due. *)
Example directory_read_as_zeros :
  answer (fs_read_file_sync_callback bench_env) [str "/etc"] free_world = Ok (VBuffer (replicate (N.to_nat 4096) nul)).
Proof. vm_compute. reflexivity. Qed.
Example copy_onto_itself_empties :
  after [CallFs "copyFileSync" [str "/etc/passwd"; str "/etc/passwd"]] free_world passwd = Some (Some (Some ([] : rstr))).
Proof. vm_compute. reflexivity. Qed.
Example too_many_files_is_eio : io_error_code (RawOs EMFILE) = "EIO".
Proof. reflexivity. Qed.
(** Everything below the root may be written but [/etc/passwd]. *)
Definition deny_passwd : PermState :=
  deny bench_host (grant_paths bench_host (grant_paths bench_host (deny_all bench_host perm_init) Read [[RootDir]]) Write [[RootDir]])
    FileSystem Write (Path (abs_path passwd)).
Example removal_ignores_denials :
  after [CallFs "rmSync" [str "/etc/passwd"]; CallFs "rmSync" [str "/etc"; options ["recursive" : rstr]]] (world_with bench_disk deny_passwd vfs_init) passwd
    = Some None
  ∧ after [CallFs "rmSync" [str "/etc/passwd"]] (world_with bench_disk deny_passwd vfs_init) passwd = Some (Some (Some ("root" : rstr))).
Proof. split; vm_compute; reflexivity. Qed.
(** Reading is all that is granted. *)
Definition read_only : PermState := grant_paths bench_host (deny_all bench_host perm_init) Read [[RootDir]].
Definition int (n : Z) : JsValue := {|
  js_undefined := false; js_null := false; js_string := false; js_object := false; js_function := None;
  js_text := Some {| one_byte := Some []; utf8 := []; text := [] |}; js_int32 := Some n; js_uint32 := Some n; js_position := Some n;
  js_text_prop := λ _, None; js_true_prop := λ _, None; js_bytes := None; js_view := None; js_uint8_array := false |}.
Example mode_changed_by_a_reader :
  (λ w, modes (disk w) !! 3) <$> fs_run bench_env 10
    [CallFs "openSync" [str "/etc/passwd"; str "r"]; CallPromises "__fchmod" [int 3; int 511]; NextTick 1] (world_with bench_disk read_only vfs_init)
  = Some (Some 511%Z).
Proof. vm_compute. reflexivity. Qed.
(** A view of the first two of eight bytes gets the four that were asked for. *)
Definition short_view : JsValue := {|
  js_undefined := false; js_null := false; js_string := false; js_object := true; js_function := None;
  js_text := Some {| one_byte := Some []; utf8 := []; text := [] |}; js_int32 := Some 0%Z; js_uint32 := Some 0%Z; js_position := Some 0%Z;
  js_text_prop := λ _, None; js_true_prop := λ _, None; js_bytes := Some (replicate 2 nul);
  js_view := Some {| view_buffer := 0; byte_offset := 0; byte_length := 2 |}; js_uint8_array := true |}.
Example read_overruns_the_view :
  (λ w, buffers w !! 0) <$> fs_run bench_env 10 [CallFs "openSync" [str "/etc/passwd"; str "r"]; CallFs "readSync" [int 3; short_view; int 0; int 4]]
    (set_buffers {[0 := replicate 8 nul]} free_world)
  = Some (Some (("root" : rstr) ++ replicate 4 nul)).
Proof. vm_compute. reflexivity. Qed.
