(* ===== verification/NodeFsVfs.v ===== *)
(** * Node's [fs] module over the sandbox's file system

    With the in-memory file system enabled, the functions of the module leave the host's disk as it is
    -- all but [rename], [open] and [chmod], which do not ask whether it is enabled. *)

From S2P Require Import Prelude RustPath DiskFs Permissions VirtualFs HostDisk NodeFs NodeFsApi NodeFsExamples.

Lemma enabled_write h v p data : is_enabled (vfs_write h v p data) = is_enabled v.
Proof.
  assert (Hd : ∀ rest cur v, is_enabled (create_dirs_from h v cur rest) = is_enabled v).
  { induction rest as [|c rest IH]; intros cur v0; simpl; [done|]. by rewrite IH. }
  unfold vfs_write, vfs_create_dir_all, is_enabled in *. simpl. destruct (parent _); [apply Hd|done].
Qed.
Lemma enabled_create_all h v p : is_enabled (vfs_create_dir_all h v p) = is_enabled v.
Proof.
  unfold vfs_create_dir_all. generalize (@nil component) as cur. revert v. induction (VirtualFs.normalize h p) as [|c rest IH]; intros v cur; simpl; [done|].
  by rewrite IH.
Qed.
Lemma enabled_remove_file h v p : is_enabled (vfs_remove_file h v p).1 = is_enabled v.
Proof. unfold vfs_remove_file, is_enabled. by destruct (is_cow_enabled _). Qed.
Lemma enabled_remove_dir h v p : is_enabled (vfs_remove_dir_all h v p) = is_enabled v.
Proof. unfold vfs_remove_dir_all, is_enabled. by destruct (is_cow_enabled _). Qed.

(** The jobs that work on the host whatever the sandbox says. *)
Definition host_work (work : FsWork) : bool := match work with Rename _ _ | Chmod _ _ | Open _ _ _ => true | _ => false end.
Section contained.
Context (V : Env).
Record sandboxed (w : World) : Prop := {
  sb_enabled : is_enabled (vfs w) = true;
  sb_files : fd_table w = ∅;
  sb_jobs : ∀ id d work, fs_jobs w !! id = Some (d, work) → host_work work = false;
}.
Definition contained {E A} (m : M E A) : Prop := ∀ w, sandboxed w → sandboxed (m w).2 ∧ disk (m w).2 = disk w.
Lemma contained_then {E A B} (m : M E A) (f : A → M E B) : contained m → (∀ a, contained (f a)) → contained (m ≫= f).
Proof.
  intros Hm Hf w Hw. destruct (Hm w Hw) as [H1 H2]. unfold mbind, M_bind. destruct (m w) as [[a|e] w1]; [|done]. simpl in *.
  destruct (Hf a w1 H1) as [H3 H4]. split; [done|congruence].
Qed.
(** The one place where it matters that the sandbox is enabled. *)
Lemma contained_on {E A} (f : bool → M E A) : contained (f true) → contained (vfs_on ≫= f).
Proof. intros Hf w Hw. unfold mbind, M_bind, vfs_on. rewrite (sb_enabled w Hw). by apply Hf. Qed.
Lemma contained_same {E A} (m : M E A) : (∀ w, (m w).2 = w) → contained m.
Proof. intros H w Hw. by rewrite H. Qed.
Lemma contained_ret {E A} (a : A) : contained (E := E) (mret a).
Proof. by apply contained_same. Qed.
Lemma contained_fail {E A} (e : E) : contained (A := A) (fail e).
Proof. by apply contained_same. Qed.
Lemma contained_get {E} : contained (E := E) get_world.
Proof. by apply contained_same. Qed.
Lemma contained_result {E A} (r : result A E) : contained (of_result r).
Proof. by apply contained_same. Qed.
Lemma contained_ask {A} (q : HostDisk → result A io_error) : contained (ask q).
Proof. by apply contained_same. Qed.
Lemma contained_vfs_ask {A} (q : Host → Vfs → io_result A) : contained (vfs_ask V q).
Proof. by apply contained_same. Qed.
Lemma contained_vfs_bool {E} (q : Host → Vfs → bool) : contained (E := E) (vfs_bool V q).
Proof. by apply contained_same. Qed.
Lemma sandboxed_vfs w v : is_enabled v = is_enabled (vfs w) → sandboxed w → sandboxed (set_vfs v w).
Proof. intros Hv [H1 H2 H3]. split; [by rewrite <-H1|done..]. Qed.
Lemma contained_write {E} p data : contained (E := E) (vfs_do V (λ h v, vfs_write h v p data)).
Proof. intros w Hw. split; [|done]. apply sandboxed_vfs; [apply enabled_write|done]. Qed.
Lemma contained_create {E} p : contained (E := E) (vfs_do V (λ h v, vfs_create_dir h v p)).
Proof. intros w Hw. split; [|done]. by apply sandboxed_vfs. Qed.
Lemma contained_create_all {E} p : contained (E := E) (vfs_do V (λ h v, vfs_create_dir_all h v p)).
Proof. intros w Hw. split; [|done]. apply sandboxed_vfs; [apply enabled_create_all|done]. Qed.
Lemma contained_remove_dir {E} p : contained (E := E) (vfs_do V (λ h v, vfs_remove_dir_all h v p)).
Proof. intros w Hw. split; [|done]. apply sandboxed_vfs; [apply enabled_remove_dir|done]. Qed.
Lemma contained_unlink p : contained (vfs_unlink V p).
Proof.
  intros w Hw. unfold vfs_unlink. pose proof (enabled_remove_file (world_host V w) (vfs w) p) as Hv.
  destruct (vfs_remove_file _ _ _) as [v r]. simpl. split; [|done]. by apply sandboxed_vfs.
Qed.
Lemma contained_try {E A} (m : M E A) : contained m → contained (try m).
Proof. intros Hm w Hw. specialize (Hm w Hw). unfold try. by destruct (m w). Qed.
Lemma contained_map_err {E E' A} (f : E → E') (m : M E A) : contained m → contained (map_err f m).
Proof. intros Hm w Hw. specialize (Hm w Hw). unfold map_err. by destruct (m w) as [[] ?]. Qed.
(** No descriptor is open, so that all they do is to fail. *)
Lemma contained_handle {B} fd (f : File → Io B) : contained (handle_of fd ≫= f).
Proof. intros w Hw. unfold mbind, M_bind, handle_of. by rewrite (sb_files w Hw), lookup_empty. Qed.
Lemma contained_check a p : contained (check_path V a p).
Proof. intros w [H1 H2 H3]. unfold check_path. destruct (check_global_permission _ _ _ _ _ _ _). by split. Qed.
Lemma contained_view view offset data : contained (write_view_bytes view offset data).
Proof.
  intros w [H1 H2 H3]. unfold write_view_bytes. destruct (buffers w !! view_buffer view); [|done]. case_bool_decide; by split.
Qed.
Lemma sandboxed_dirs w t n : sandboxed w → sandboxed (set_dirs t n w).
Proof. intros []. by split. Qed.
Lemma contained_dir_register l : contained (dir_register l).
Proof.
  intros w Hw. unfold dir_register, mbind, M_bind, get_world, update. simpl. case_bool_decide; simpl; (split; [|done]); repeat apply sandboxed_dirs; done.
Qed.
Lemma contained_dir_read id : contained (dir_read_next id).
Proof.
  intros w Hw. unfold dir_read_next. destruct (dir_table w !! id) as [h|]; [|done]. destruct (entries h !! index h); [|done].
  split; [by apply sandboxed_dirs|done].
Qed.
Lemma contained_dir_close id : contained (dir_close id).
Proof. intros w Hw. unfold dir_close. destruct (dir_table w !! id); [|done]. split; [by apply sandboxed_dirs|done]. Qed.
Lemma contained_enqueue d work : host_work work = false → contained (enqueue_fs_job d work).
Proof.
  intros Ht w [H1 H2 H3]. split; [|done]. split; [done..|]. simpl. intros id d' work'. destruct (base.decide (fs_job_seq w = id)) as [<-|].
  - rewrite lookup_insert_eq. by intros [= <- <-].
  - rewrite lookup_insert_ne by done. apply H3.
Qed.
Lemma contained_direct c : contained (read_direct V c).
Proof. apply contained_same. intros w. unfold read_direct. destruct (std_open _ _ _ _ _) as [[f|] ?]; [|done]. by destruct (file_metadata _ _ _). Qed.
Lemma contained_start work : host_work work = false → contained (start_promise work).
Proof.
  intros Hw. unfold start_promise. apply contained_then; [apply contained_get|intros w]. apply contained_then; [by apply contained_enqueue|intros ?].
  apply contained_ret.
Qed.
Lemma contained_queue callback shape work : host_work work = false → contained (queue callback shape work).
Proof. intros Hw. unfold queue. apply contained_then; [by apply contained_enqueue|intros ?]. apply contained_ret. Qed.

Ltac contained :=
  repeat first
    [ progress intros | assumption | simple apply contained_on; cbv beta iota | simple apply contained_handle
    | simple apply contained_queue; [reflexivity] | simple apply contained_start; [reflexivity]
    | simple apply contained_then | simple apply contained_ret | simple apply contained_fail | simple apply contained_get
    | simple apply contained_result | simple apply contained_ask | simple apply contained_vfs_ask | simple apply contained_vfs_bool
    | simple apply contained_write | simple apply contained_create | simple apply contained_create_all | simple apply contained_remove_dir
    | simple apply contained_unlink | simple apply contained_try | simple apply contained_map_err | simple apply contained_check
    | simple apply contained_view | simple apply contained_dir_register | simple apply contained_dir_read | simple apply contained_dir_close | simple apply contained_direct | branch ].
Ltac ops := cbv beta delta [read_file_bytes direct_write_sync write_file_bytes mkdir_at rmdir_path read_directory stat_metadata unlink_path copy_path rm_path
  realpath_of access_path close_fd statfs_info read_fd write_fd write_fd_all fstat_fd ftruncate_fd fchmod_fd ensure_fs_permission broker_denial work_denial
  cp_entry_allowed copy_place vfs_target cp_file_vfs job throws io_options mode_of flags_mode coded file_bytes require_callback uint8_view open_allowed
  promise_on promise_on_two promise_fd with_index].

(** *** Copies and jobs *)

Definition deep_contained {A} (m : Deep A) : Prop := ∀ w x, sandboxed w → m w = Some x → sandboxed x.2 ∧ disk x.2 = disk w.
Lemma deep_contained_shallow {A} (m : Io A) : contained m → deep_contained (shallow m).
Proof. intros Hm w x Hw [= <-]. by apply Hm. Qed.
Lemma deep_contained_then {A B} (m : Deep A) (f : A → Deep B) : deep_contained m → (∀ a, deep_contained (f a)) → deep_contained (and_then m f).
Proof.
  intros Hm Hf w x Hw H. unfold and_then in H. destruct (m w) as [[[a|e] w1]|] eqn:E; [|simplify_eq|done]; destruct (Hm _ _ Hw E) as [H1 H2]; [|done].
  destruct (Hf a _ _ H1 H) as [H3 H4]. split; [done|]. simpl in *. congruence.
Qed.
Lemma deep_contained_each {A} (f : A → Deep unit) l : (∀ a, deep_contained (f a)) → deep_contained (each_deep f l).
Proof. intros Hf. induction l as [|a l IH]; simpl; [by apply deep_contained_shallow, contained_ret|]. apply deep_contained_then; [apply Hf|intros _; apply IH]. Qed.
Lemma contained_cp_file from to force e : contained (cp_file_vfs V from to force e).
Proof. ops. contained. Qed.
Lemma deep_contained_dir fuel from to force e : deep_contained (cp_dir_vfs V fuel from to force e).
Proof.
  revert from to. induction fuel as [|fuel IH]; intros from to; [by intros w|]. cbn [cp_dir_vfs]. apply deep_contained_then.
  - apply deep_contained_shallow. ops. contained.
  - intros l. apply deep_contained_each. intros entry. apply deep_contained_then; [apply deep_contained_shallow; contained|intros meta].
    destruct (is_dir meta); [apply IH|apply deep_contained_shallow, contained_cp_file].
Qed.
Lemma deep_contained_cp fuel from to recursive force e : deep_contained (cp_path V fuel from to recursive force e).
Proof.
  unfold cp_path. destruct (path_starts_with _ _); [apply deep_contained_shallow; contained|].
  intros w x Hw H. unfold and_then at 1, shallow at 1, vfs_on in H. cbv beta iota in H. rewrite (sb_enabled w Hw) in H. revert w x Hw H.
  apply deep_contained_then; [apply deep_contained_shallow; contained|intros meta].
  destruct (is_dir meta); [|apply deep_contained_shallow, contained_cp_file].
  destruct (negb recursive); [apply deep_contained_shallow; contained|apply deep_contained_dir].
Qed.
Lemma execute_contained fuel work w x : host_work work = false → sandboxed w → execute_work V fuel work w = Some x → sandboxed x.2 ∧ disk x.2 = disk w.
Proof.
  intros Hh Hw H. destruct work; try discriminate Hh; cbn [execute_work] in H;
    try match type of H with Some (?m w) = _ => injection H as <-; revert w Hw; change (contained m); ops; contained end.
  - destruct (cp_path _ _ _ _ _ _ _ _) as [y|] eqn:E; [|done]. injection H as <-. by eapply deep_contained_cp in E.
  - assert (read_fd_all V fuel fd w = (Err (RawOs EBADF), w) ∨ fuel = 0) as [Hr| ->].
    { destruct fuel as [|fuel]; [by right|left]. cbn [read_fd_all]. unfold read_fd, mbind, M_bind, handle_of. by rewrite (sb_files w Hw), lookup_empty. }
    + rewrite Hr in H. by injection H as <-.
    + done.
Qed.
Lemma sandboxed_tell w x : sandboxed w → sandboxed (tell x w).
Proof. intros []. by split. Qed.
Lemma trampoline_contained fuel id w w' : sandboxed w → fs_job_trampoline V fuel id w = Some w' → sandboxed w' ∧ disk w' = disk w.
Proof.
  intros Hw H. unfold fs_job_trampoline in H. destruct (fs_jobs w !! id) as [[d work]|] eqn:E; [|by injection H as <-].
  assert (Hh : host_work work = false) by by eapply sb_jobs. set (w0 := set_jobs (delete id (fs_jobs w)) (fs_job_seq w) w) in *.
  assert (Hw0 : sandboxed w0).
  { destruct Hw as [H1 H2 H3]. split; [done..|]. simpl. intros id' d' work' [_ H']%lookup_delete_Some. by eapply H3. }
  change (disk w) with (disk w0). clearbody w0. unfold run_fs_job in H.
  assert (Hd : contained (work_denial V work)) by (destruct work; cbn [work_denial]; ops; contained).
  destruct (Hd w0 Hw0) as [H1 H2]. destruct (work_denial V work w0) as [[u|e] w1]; simpl in *.
  - destruct (execute_work V fuel work w1) as [x|] eqn:Ex; [|done]. injection H as <-. apply execute_contained in Ex as [H3 H4]; [|done..].
    split; [by apply sandboxed_tell|]. simpl. congruence.
  - injection H as <-. split; [by apply sandboxed_tell|done].
Qed.

(** *** The functions *)

(** The names of the functions that work on the host whatever the sandbox says. *)
Definition host_functions : list string := ["renameSync"; "rename"; "openSync"; "open"; "chmodSync"; "chmod"]%string.
Definition table_contained (l : list (string * Function)) : Prop := Forall (λ x : string * Function, x.1 ∉ host_functions → ∀ args w y, sandboxed w →
  x.2 args w = Some y → sandboxed y.2 ∧ disk y.2 = disk w) l.
Lemma entry_contained name f : (∀ args, contained (f args)) → (bind name f).1 ∉ host_functions → ∀ args w y, sandboxed w →
  (bind name f).2 args w = Some y → sandboxed y.2 ∧ disk y.2 = disk w.
Proof. intros Hf _ args w y Hw [= <-]. by apply Hf. Qed.
Lemma cp_sync_contained fuel args w y : sandboxed w → fs_cp_sync_callback V fuel args w = Some y → sandboxed y.2 ∧ disk y.2 = disk w.
Proof.
  intros Hw H. unfold fs_cp_sync_callback in H. destruct (cp_options _) as [[recursive force] e].
  set (check := (ensure_fs_permission V Read (arg_text (get_arg args 0));; ensure_fs_permission V Write (arg_text (get_arg args 1)))) in *.
  assert (contained check) as Hc by (unfold check; ops; contained). destruct (Hc w Hw) as [H1 H2]. clearbody check.
  destruct (check w) as [[u|err] w1]; [|by injection H as <-].
  destruct (cp_path _ _ _ _ _ _ _ _) as [x|] eqn:E; [|done]. injection H as <-. apply deep_contained_cp in E as [H3 H4]; [|done]. split; [done|].
  simpl in *. congruence.
Qed.
Ltac head_of t := lazymatch t with ?f _ => head_of f | _ => t end.
Ltac opened := match goal with |- contained ?t => let h := head_of t in unfold h end.
Ltac entry :=
  first
    [ solve [intros []; apply (bool_decide_unpack _); vm_compute; exact I]
    | simple apply entry_contained; intros args; opened; ops; first [solve [contained] | opened; ops; solve [contained]] ].
Lemma fs_functions_contained fuel : table_contained (fs_functions V fuel).
Proof.
  unfold table_contained, fs_functions. repeat (apply Forall_cons; split); try (by apply Forall_nil).
  all: first [entry | intros _ args w y; apply cp_sync_contained].
Qed.
Lemma promises_functions_contained : table_contained (promises_functions V).
Proof. unfold table_contained, promises_functions. repeat (apply Forall_cons; split); try (by apply Forall_nil); entry. Qed.
Lemma dir_functions_contained dir : table_contained (dir_functions dir).
Proof. unfold table_contained, dir_functions. repeat (apply Forall_cons; split); try (by apply Forall_nil); entry. Qed.
Lemma call_contained l name args w w' : table_contained l → name ∉ host_functions → sandboxed w → call (function_named name l) args w = Some w' →
  sandboxed w' ∧ disk w' = disk w.
Proof.
  intros Hl Hn Hw H. unfold function_named, call in H. destruct (list_find _ l) as [[i [name' f]]|] eqn:E; simpl in H; [|by injection H as <-].
  apply list_find_Some in E as (Hi & Hn' & _). simpl in Hn'. subst name'. destruct (f args w) as [y|] eqn:Ef; [|done]. injection H as <-.
  assert ((name, f) ∈ l) as Hin by by eapply list_elem_of_lookup_2. unfold table_contained in Hl. rewrite Forall_forall in Hl.
  by apply (Hl _ Hin Hn args w y Hw Ef).
Qed.
(** A call that asks whether the sandbox is enabled, or a turn. *)
Definition asks (e : Event) : Prop :=
  match e with CallFs name _ | CallPromises name _ | CallDir _ name _ => name ∉ host_functions | NextTick _ => True end.
Lemma fs_run_contained fuel events w w' : Forall asks events → sandboxed w → fs_run V fuel events w = Some w' → sandboxed w' ∧ disk w' = disk w.
Proof.
  revert w. induction events as [|e events IH]; intros w He Hw H; [by injection H as <-|]. cbn [fs_run] in H. apply Forall_cons in He as [He Hes].
  destruct (fs_step V fuel e w) as [w1|] eqn:E; [|done].
  assert (sandboxed w1 ∧ disk w1 = disk w) as [H1 H2].
  { destruct e as [name args|name args|dir name args|id]; simpl in E, He.
    - by eapply call_contained; [apply fs_functions_contained|..].
    - by eapply call_contained; [apply promises_functions_contained|..].
    - by eapply call_contained; [apply dir_functions_contained|..].
    - by eapply trampoline_contained. }
  apply IH in H as [H3 H4]; [|done..]. split; [done|congruence].
Qed.
End contained.
(** C2. With the sandbox's file system enabled, no sequence of [fs] calls and queued jobs changes the host's
    disk in any way -- with [rename], [open] and [chmod] and their synchronous forms left
    out, which work on the host without asking. *)
Theorem vfs_isolates V fuel events w w' :
  is_enabled (vfs w) = true → fd_table w = ∅ → fs_jobs w = ∅ → Forall asks events → fs_run V fuel events w = Some w' → disk w' = disk w.
Proof. intros Hv Hf Hj He H. eapply fs_run_contained in H as [_ H]; [done|done|]. split; [done|done|by rewrite Hj]. Qed.
(** The bench's disk under a copy-on-write sandbox. *)
Definition cow_world : World := world_with bench_disk perm_init (enable vfs_init true).
Definition overwrite_passwd : list Event :=
  [CallFs "writeFileSync" [str "/etc/passwd"; str "evil"]; CallFs "unlinkSync" [str "/etc/passwd"]; CallPromises "rm" [str "/etc"; options ["recursive" : rstr]]; NextTick 1].
Lemma vfs_isolates_witness : ∃ w', fs_run bench_env 10 overwrite_passwd cow_world = Some w' ∧ disk w' = bench_disk
  ∧ files (vfs w') = ∅.
Proof.
  assert (is_Some (fs_run bench_env 10 overwrite_passwd cow_world)) as [w' E] by (apply is_ran; vm_compute; reflexivity).
  exists w'. split; [exact E|]. split.
  - apply (vfs_isolates bench_env 10 overwrite_passwd cow_world w'); [reflexivity..| |exact E].
    repeat (apply Forall_cons; split; [try exact I; apply (bool_decide_unpack _); vm_compute; exact I|]). by apply Forall_nil.
  - assert (files (vfs (default cow_world (fs_run bench_env 10 overwrite_passwd cow_world))) = ∅) as Hf by (vm_compute; reflexivity).
    by rewrite E in Hf.
Defined.
(** What [asks] leaves out does leave the sandbox. *)
Example rename_leaves_the_sandbox :
  after [CallFs "renameSync" [str "/etc/passwd"; str "/jail/b"]] cow_world passwd = Some None.
Proof. vm_compute. reflexivity. Qed.
Example open_leaves_the_sandbox :
  after [CallFs "openSync" [str "/etc/passwd"; str "w"]] cow_world passwd = Some (Some (Some ([] : rstr))).
Proof. vm_compute. reflexivity. Qed.
