(* ===== verification/NodeFsJobs.v ===== *)
(** * Node's [fs] module: queued jobs and directory handles

    Every operation is built from six updates of the state, none of which touches the queue of jobs
    or what has been delivered.  From this one fact: a job runs once and is answered once, a job whose
    permission is gone by then does nothing, and never more than 256 directory handles are open. *)

From S2P Require Import Prelude RustPath DiskFs Permissions VirtualFs HostDisk NodeFs NodeFsApi NodeFsExamples.

(** ** What the operations do to the state *)

(** A relation on states that the six updates respect. *)
Class Frame (R : World → World → Prop) := {
  frame_order :: PreOrder R;
  frame_on w d : R w (on (λ _, d) w);
  frame_vfs w v : R w (set_vfs v w);
  frame_perms w p : R w (set_perms p w);
  frame_fds w t n : R w (set_fds t n w);
  frame_buffers w b : R w (set_buffers b w);
  frame_dirs w t n : size t ≤ Nat.max MAX_OPEN_DIRS (size (dir_table w)) → R w (set_dirs t n w);
}.
Section frame.
Context (V : Env) {R : World → World → Prop} `{!Frame R}.
Set Default Proof Using "All".
Definition within {E A} (m : M E A) : Prop := ∀ w, R w (m w).2.
Lemma within_then {E A B} (m : M E A) (f : A → M E B) : within m → (∀ a, within (f a)) → within (m ≫= f).
Proof.
  intros Hm Hf w. specialize (Hm w). unfold mbind, M_bind. destruct (m w) as [[a|e] w1]; [|done]. etrans; [exact Hm|apply Hf].
Qed.
Lemma within_same {E A} (m : M E A) : (∀ w, (m w).2 = w) → within m.
Proof. intros H w. by rewrite H. Qed.
Lemma within_ret {E A} (a : A) : within (E := E) (mret a).
Proof. by apply within_same. Qed.
Lemma within_fail {E A} (e : E) : within (A := A) (fail e).
Proof. by apply within_same. Qed.
Lemma within_get {E} : within (E := E) get_world.
Proof. by apply within_same. Qed.
Lemma within_result {E A} (r : result A E) : within (of_result r).
Proof. by apply within_same. Qed.
Lemma within_ask {A} (q : HostDisk → result A io_error) : within (ask q).
Proof. by apply within_same. Qed.
Lemma within_vfs_on {E} : within (E := E) vfs_on.
Proof. by apply within_same. Qed.
Lemma within_vfs_ask {A} (q : Host → Vfs → io_result A) : within (vfs_ask V q).
Proof. by apply within_same. Qed.
Lemma within_vfs_bool {E} (q : Host → Vfs → bool) : within (E := E) (vfs_bool V q).
Proof. by apply within_same. Qed.
Lemma within_vfs_do {E} (f : Host → Vfs → Vfs) : within (E := E) (vfs_do V f).
Proof. intros w. apply frame_vfs. Qed.
Lemma within_vfs_unlink p : within (vfs_unlink V p).
Proof. intros w. unfold vfs_unlink. destruct (vfs_remove_file _ _ _). apply frame_vfs. Qed.
Lemma within_os {A} (m : Os A) : within (os m).
Proof. intros w. unfold os. destruct (m (disk w)) as [r d]. apply frame_on. Qed.
Lemma within_try {E A} (m : M E A) : within m → within (try m).
Proof. intros Hm w. specialize (Hm w). unfold try. by destruct (m w). Qed.
Lemma within_map_err {E E' A} (f : E → E') (m : M E A) : within m → within (map_err f m).
Proof. intros Hm w. specialize (Hm w). unfold map_err. by destruct (m w) as [[] ?]. Qed.
Lemma within_handle fd : within (handle_of fd).
Proof. apply within_same. intros w. unfold handle_of. by destruct (fd_table w !! fd). Qed.
Lemma within_put fd f : within (put_handle fd f).
Proof. intros w. apply frame_fds. Qed.
Lemma within_fds {E} t n : within (E := E) (update (set_fds t n)).
Proof. intros w. apply frame_fds. Qed.
Lemma within_check a p : within (check_path V a p).
Proof. intros w. unfold check_path. destruct (check_global_permission _ _ _ _ _ _ _). apply frame_perms. Qed.
Lemma within_view view offset data : within (write_view_bytes view offset data).
Proof. intros w. unfold write_view_bytes. destruct (buffers w !! view_buffer view); [|done]. case_bool_decide; [apply frame_buffers|done]. Qed.
Lemma within_dir_register l : within (dir_register l).
Proof.
  intros w. unfold dir_register, mbind, M_bind, get_world, update. simpl. case_bool_decide as Hb; simpl.
  - apply frame_dirs. lia.
  - etrans; [apply (frame_dirs w (dir_table w) (saturating_succ (next_dir_id w))); lia|]. apply frame_dirs. simpl.
    rewrite map_size_insert. destruct (dir_table w !! next_dir_id w); simpl; lia.
Qed.
Lemma within_dir_read id : within (dir_read_next id).
Proof.
  intros w. unfold dir_read_next. destruct (dir_table w !! id) as [h|] eqn:E; [|done]. destruct (entries h !! index h); [|done].
  apply frame_dirs. rewrite map_size_insert_Some by by eexists. lia.
Qed.
Lemma within_dir_close id : within (dir_close id).
Proof.
  intros w. unfold dir_close. destruct (dir_table w !! id) eqn:E; [|done]. apply frame_dirs. rewrite map_size_delete_Some by by eexists. lia.
Qed.
Ltac within :=
  solve [repeat first
    [ progress intros | assumption
    | simple apply within_then | simple apply within_ret | simple apply within_fail | simple apply within_get | simple apply within_result
    | simple apply within_ask | simple apply within_vfs_on | simple apply within_vfs_ask | simple apply within_vfs_bool | simple apply within_vfs_do
    | simple apply within_vfs_unlink | simple apply within_os | simple apply within_try | simple apply within_map_err | simple apply within_handle
    | simple apply within_put | simple apply within_fds | simple apply within_check | simple apply within_view | simple apply within_dir_register
    | simple apply within_dir_read | simple apply within_dir_close | branch ]].
Lemma within_job {A} syscall path (m : Io A) k : within m → within (job syscall path m k).
Proof. intros Hm. unfold job. within. Qed.
Lemma within_direct_write c path data : within (direct_write_sync V c path data).
Proof. unfold direct_write_sync. within. Qed.
Lemma within_write_file c path data mode : within (write_file_bytes V c path data mode).
Proof.
  unfold write_file_bytes. destruct (negb _); [within|]. apply within_then; [within|intros [|]]; [within|].
  destruct (is_plain_write mode); [apply within_direct_write|within].
Qed.
Lemma within_seek fd f position : within (seek_to V fd f position).
Proof. unfold seek_to. within. Qed.
Lemma within_read_fd fd position n : within (read_fd V fd position n).
Proof. unfold read_fd. apply within_then; [within|intros f]. apply within_then; [apply within_seek|within]. Qed.
Lemma within_write_fd fd position bytes : within (write_fd V fd position bytes).
Proof. unfold write_fd. apply within_then; [within|intros f]. apply within_then; [apply within_seek|within]. Qed.
Lemma within_read_fd_all fuel fd : within (read_fd_all V fuel fd).
Proof.
  induction fuel as [|fuel IH]; [apply within_ret|]. cbn [read_fd_all]. apply within_then; [apply within_read_fd|intros chunk].
  case_bool_decide; [within|]. apply within_then; [exact IH|within].
Qed.
Lemma within_ensure a path : within (ensure_fs_permission V a path).
Proof. unfold ensure_fs_permission. within. Qed.
Lemma within_denial work : within (work_denial V work).
Proof.
  destruct work; simpl; unfold broker_denial; repeat first [apply within_then; [|intros ?] | simple apply within_ensure | within | branch].
Qed.
Definition deep_within {A} (m : Deep A) : Prop := ∀ w x, m w = Some x → R w x.2.
Lemma deep_within_shallow {A} (m : Io A) : within m → deep_within (shallow m).
Proof. intros Hm w x [= <-]. apply Hm. Qed.
Lemma deep_within_then {A B} (m : Deep A) (f : A → Deep B) : deep_within m → (∀ a, deep_within (f a)) → deep_within (and_then m f).
Proof.
  intros Hm Hf w x H. unfold and_then in H. destruct (m w) as [[[a|e] w1]|] eqn:E; [|simplify_eq|done]; specialize (Hm _ _ E).
  - etrans; [exact Hm|by eapply Hf].
  - exact Hm.
Qed.
Lemma deep_within_each {A} (f : A → Deep unit) l : (∀ a, deep_within (f a)) → deep_within (each_deep f l).
Proof. intros Hf. induction l as [|a l IH]; simpl; [by apply deep_within_shallow, within_ret|]. apply deep_within_then; [apply Hf|intros _; apply IH]. Qed.
Lemma within_cp_file_real from to force e : within (cp_file_real V from to force e).
Proof. unfold cp_file_real, cp_entry_allowed, copy_place. within. Qed.
Lemma within_cp_file_vfs from to force e : within (cp_file_vfs V from to force e).
Proof. unfold cp_file_vfs, cp_entry_allowed, copy_place. within. Qed.
Lemma deep_within_dir_real fuel from to force e : deep_within (cp_dir_real V fuel from to force e).
Proof.
  revert from to. induction fuel as [|fuel IH]; intros from to; [by intros w|]. cbn [cp_dir_real]. apply deep_within_then.
  - apply deep_within_shallow. unfold cp_entry_allowed, real_target. within.
  - intros l. apply deep_within_each. intros entry. apply deep_within_then; [apply deep_within_shallow; within|intros meta].
    destruct (md_is_dir meta); [apply IH|apply deep_within_shallow, within_cp_file_real].
Qed.
Lemma deep_within_dir_vfs fuel from to force e : deep_within (cp_dir_vfs V fuel from to force e).
Proof.
  revert from to. induction fuel as [|fuel IH]; intros from to; [by intros w|]. cbn [cp_dir_vfs]. apply deep_within_then.
  - apply deep_within_shallow. unfold cp_entry_allowed, vfs_target. within.
  - intros l. apply deep_within_each. intros entry. apply deep_within_then; [apply deep_within_shallow; within|intros meta].
    destruct (is_dir meta); [apply IH|apply deep_within_shallow, within_cp_file_vfs].
Qed.
Lemma deep_within_cp fuel from to recursive force e : deep_within (cp_path V fuel from to recursive force e).
Proof.
  unfold cp_path. destruct (path_starts_with _ _); [apply deep_within_shallow; within|].
  apply deep_within_then; [apply deep_within_shallow; within|intros on_]. destruct on_.
  - apply deep_within_then; [apply deep_within_shallow; within|intros meta].
    destruct (is_dir meta); [|apply deep_within_shallow, within_cp_file_vfs].
    destruct (negb recursive); [apply deep_within_shallow; within|apply deep_within_dir_vfs].
  - apply deep_within_then; [apply deep_within_shallow; within|intros meta].
    destruct (md_is_dir meta); [|apply deep_within_shallow, within_cp_file_real].
    destruct (negb recursive); [apply deep_within_shallow; within|apply deep_within_dir_real].
Qed.
Lemma execute_within fuel work w x : execute_work V fuel work w = Some x → R w x.2.
Proof.
  intros H. destruct work; cbn [execute_work] in H;
    try match type of H with Some (?m w) = _ => injection H as <-; revert w; change (within m) end.
  - apply within_job. unfold read_file_bytes. within.
  - apply within_job, within_write_file.
  - apply within_job. unfold mkdir_at. within.
  - apply within_job. unfold rmdir_path. within.
  - apply within_job. unfold read_directory. within.
  - apply within_job. unfold stat_metadata. within.
  - apply within_job. unfold unlink_path. within.
  - apply within_job. unfold rename_path. within.
  - apply within_job. unfold copy_path. within.
  - apply within_job. unfold rm_path. within.
  - apply within_job. unfold realpath_of. within.
  - apply within_job. unfold chmod_path. within.
  - apply within_job. unfold access_path. within.
  - apply within_job. unfold open_fd. within.
  - apply within_then; [apply within_map_err, within_read_fd|within].
  - apply within_job, within_write_fd.
  - apply within_job. unfold close_fd. within.
  - destruct (cp_path _ _ _ _ _ _ _ _) as [y|] eqn:E; [|done]. injection H as <-. by eapply deep_within_cp.
  - unfold read_directory. within.
  - apply within_job. unfold statfs_info. within.
  - apply within_job. within.
  - apply within_job. within.
  - apply within_job. unfold fstat_fd. within.
  - apply within_job. unfold ftruncate_fd. within.
  - apply within_job. unfold fchmod_fd. within.
  - pose proof (within_read_fd_all fuel fd w) as Hr. destruct (read_fd_all V fuel fd w) as [[[b|]|e] w1]; simplify_eq; exact Hr.
  - apply within_job. unfold write_fd_all. apply within_then; [apply within_write_fd|within].
Qed.

(** *** The functions: at most one job is queued, and at the end *)

Definition queues {E A} (m : M E A) : Prop :=
  ∀ w, R w (m w).2 ∨ ∃ d work w1, R w w1 ∧ (m w).2 = (enqueue_fs_job d work w1).2.
Lemma queues_within {E A} (m : M E A) : within m → queues m.
Proof. intros Hm w. left. apply Hm. Qed.
Lemma queues_then {E A B} (m : M E A) (f : A → M E B) : within m → (∀ a, queues (f a)) → queues (m ≫= f).
Proof.
  intros Hm Hf w. specialize (Hm w). unfold mbind, M_bind. destruct (m w) as [[a|e] w1]; [|by left].
  destruct (Hf a w1) as [H|(d & work & w2 & H & H')]; [left; by etrans|]. right. exists d, work, w2. split; [by etrans|exact H'].
Qed.
Lemma queues_queue callback shape work : queues (queue callback shape work).
Proof. intros w. right. by exists (Callback callback shape), work, w. Qed.
Lemma queues_promise work : queues (start_promise work).
Proof. intros w. right. by exists Promise, work, w. Qed.
Lemma within_coded {A} code (r : result A rstr) : within (coded code r).
Proof. apply within_result. Qed.
Lemma within_file_bytes v e : within (file_bytes V v e).
Proof. apply within_result. Qed.
Lemma within_require args name : within (require_callback args name).
Proof. unfold require_callback. within. Qed.
Lemma within_uint8 v : within (uint8_view v).
Proof. unfold uint8_view. within. Qed.
Lemma within_open_allowed mode path : within (open_allowed V mode path).
Proof. unfold open_allowed. apply within_then; [|intros ?]; branch; (apply within_ensure || within). Qed.
Lemma within_read_direct c : within (read_direct V c).
Proof. apply within_same. intros w. unfold read_direct. destruct (std_open _ _ _ _ _) as [[f|] ?]; [|done]. by destruct (file_metadata _ _ _). Qed.
Ltac ops := cbv beta delta [read_file_bytes mkdir_at rmdir_path read_directory stat_metadata unlink_path rename_path copy_path rm_path
  realpath_of chmod_path access_path open_fd close_fd statfs_info throws io_options mode_of flags_mode promise_on promise_on_two promise_fd].
Ltac leaf :=
  solve [repeat first
    [ progress intros | assumption
    | simple apply within_then | simple apply within_ensure | simple apply within_coded | simple apply within_file_bytes | simple apply within_require
    | simple apply within_uint8 | simple apply within_open_allowed | simple apply within_read_direct | simple apply within_direct_write
    | simple apply within_write_file | simple apply within_read_fd | simple apply within_write_fd | simple apply within_map_err | within | branch ]].
Ltac queued :=
  solve [repeat first
    [ progress intros | simple apply queues_queue | simple apply queues_promise
    | simple apply queues_within; leaf | simple apply queues_then; [leaf|intros ?] | branch ]].
Lemma queues_index args i name k : (∀ callback options, queues (k callback options)) → queues (with_index args i name k).
Proof. intros Hk. unfold with_index. destruct (callback_index args i); [destruct (js_function _); [apply Hk|queued]|queued]. Qed.
Definition table_queues (l : list (string * Function)) : Prop := Forall (λ x : string * Function, ∀ args w y, x.2 args w = Some y →
  R w y.2 ∨ ∃ d work w1, R w w1 ∧ y.2 = (enqueue_fs_job d work w1).2) l.
Lemma entry_queues name f : (∀ args, queues (f args)) → ∀ args w y, (bind name f).2 args w = Some y →
  R w y.2 ∨ ∃ d work w1, R w w1 ∧ y.2 = (enqueue_fs_job d work w1).2.
Proof. intros Hf args w y [= <-]. apply Hf. Qed.
Lemma cp_sync_within fuel args w y : fs_cp_sync_callback V fuel args w = Some y → R w y.2.
Proof.
  intros H. unfold fs_cp_sync_callback in H. destruct (cp_options _) as [[recursive force] e].
  set (check := (ensure_fs_permission V Read (arg_text (get_arg args 0));; ensure_fs_permission V Write (arg_text (get_arg args 1)))) in *.
  assert (within check) as Hc by (unfold check; leaf). specialize (Hc w). clearbody check. destruct (check w) as [[u|err] w1]; [|by injection H as <-].
  destruct (cp_path _ _ _ _ _ _ _ _) as [x|] eqn:E; [|done]. injection H as <-. apply deep_within_cp in E. by etrans.
Qed.
Ltac head_of t := lazymatch t with ?f _ => head_of f | _ => t end.
Ltac opened := match goal with |- queues ?t => let h := head_of t in unfold h end.
(** The body of the function, down to the operations. *)
Ltac entry :=
  simple apply entry_queues; intros args; opened; ops;
  first [queued | simple apply queues_index; intros ? ?; queued | opened; ops; first [queued | simple apply queues_index; intros ? ?; queued]].
Lemma fs_functions_queue fuel : table_queues (fs_functions V fuel).
Proof.
  unfold table_queues, fs_functions. repeat (apply Forall_cons; split); try (by apply Forall_nil).
  all: first [entry | intros args w y H; left; by eapply cp_sync_within].
Qed.
Lemma promises_functions_queue : table_queues (promises_functions V).
Proof. unfold table_queues, promises_functions. repeat (apply Forall_cons; split); try (by apply Forall_nil); entry. Qed.
Lemma dir_functions_queue dir : table_queues (dir_functions dir).
Proof. unfold table_queues, dir_functions. repeat (apply Forall_cons; split); try (by apply Forall_nil); entry. Qed.
Lemma call_queues l name args w w' : table_queues l → call (function_named name l) args w = Some w' →
  R w w' ∨ ∃ d work w1, R w w1 ∧ w' = (enqueue_fs_job d work w1).2.
Proof.
  intros Hl H. unfold function_named, call in H. destruct (list_find _ l) as [[i [name' f]]|] eqn:E; simpl in H; [|injection H as <-; by left].
  apply list_find_Some in E as (Hi & _ & _). destruct (f args w) as [y|] eqn:Ef; [|done]. injection H as <-.
  assert ((name', f) ∈ l) as Hin by by eapply list_elem_of_lookup_2. unfold table_queues in Hl. rewrite Forall_forall in Hl. by apply (Hl _ Hin args).
Qed.
(** A turn takes its job from the queue and answers it, nothing else is queued or answered. *)
Lemma trampoline_answers fuel id w w' d work : fs_jobs w !! id = Some (d, work) → fs_job_trampoline V fuel id w = Some w' →
  ∃ w1 x, R (set_jobs (delete id (fs_jobs w)) (fs_job_seq w) w) w1 ∧ w' = tell (id, x) w1.
Proof.
  intros Hj H. unfold fs_job_trampoline in H. rewrite Hj in H. unfold run_fs_job in H.
  set (w0 := set_jobs _ _ w) in *. pose proof (within_denial work w0) as Hd. destruct (work_denial V work w0) as [[u|e] w1].
  - destruct (execute_work V fuel work w1) as [x|] eqn:Ex; [|done]. injection H as <-. apply execute_within in Ex.
    eexists x.2, _. split; [by etrans|done].
  - injection H as <-. by eexists w1, _.
Qed.
End frame.

(** ** The queue *)

Definition answered (w : World) : list Z := (delivered w).*1.
(** The queue, what was answered and the counter are the same, and the handles stay within their bound. *)
Definition steady (w w' : World) : Prop :=
  fs_jobs w' = fs_jobs w ∧ delivered w' = delivered w ∧ fs_job_seq w' = fs_job_seq w
  ∧ (size (dir_table w) ≤ MAX_OPEN_DIRS → size (dir_table w') ≤ MAX_OPEN_DIRS).
#[export] Instance steady_preorder : PreOrder steady.
Proof.
  split; [by intros w|]. intros w1 w2 w3 (J1 & D1 & S1 & H1) (J2 & D2 & S2 & H2). unfold steady. rewrite J2, D2, S2. naive_solver.
Qed.
Record accounted (w : World) : Prop := {
  acc_seq : (1 ≤ fs_job_seq w)%Z;
  acc_ids : ∀ id, (1 ≤ id < fs_job_seq w)%Z ↔ is_Some (fs_jobs w !! id) ∨ id ∈ answered w;
  acc_once : NoDup (answered w);
  acc_apart : ∀ id, is_Some (fs_jobs w !! id) → id ∉ answered w;
  acc_dirs : size (dir_table w) ≤ MAX_OPEN_DIRS;
}.
Lemma accounted_steady w w' : steady w w' → accounted w → accounted w'.
Proof. intros (J & D & S & H) [H1 H2 H3 H4 H5]. split; unfold answered in *; rewrite ?J, ?D, ?S; auto. Qed.
Lemma accounted_enqueue d work w : (fs_job_seq w + 1 < 2 ^ 32)%Z → accounted w → accounted (enqueue_fs_job d work w).2.
Proof.
  intros Hlt [H1 H2 H3 H4 H5]. set (id := fs_job_seq w). assert (Hs : ((id + 1) mod 2 ^ 32 = id + 1)%Z) by (apply Z.mod_small; unfold id; lia).
  assert (Hnew : ¬ (is_Some (fs_jobs w !! id) ∨ id ∈ answered w)) by (rewrite <-H2; unfold id; lia).
  split; simpl; fold id; rewrite ?Hs; unfold answered in *; simpl; [unfold id in *; lia| |done| |done].
  - intros k. destruct (base.decide (k = id)) as [->|Hk]; [rewrite lookup_insert_eq; split; [by left; eexists|unfold id; lia]|].
    rewrite lookup_insert_ne, <-H2 by done. unfold id in *. lia.
  - intros k. destruct (base.decide (k = id)) as [->|Hk]; [intros _ ?; apply Hnew; by right|]. rewrite lookup_insert_ne by done. apply H4.
Qed.
Lemma accounted_answer id x w : is_Some (fs_jobs w !! id) → accounted w →
  accounted (tell (id, x) (set_jobs (delete id (fs_jobs w)) (fs_job_seq w) w)).
Proof.
  intros Hj [H1 H2 H3 H4 H5]. split; unfold answered in *; simpl; rewrite ?fmap_app; simpl; [done| | | |done].
  - intros k. rewrite H2, elem_of_app, list_elem_of_singleton. destruct (base.decide (k = id)) as [->|]; [naive_solver|].
    rewrite lookup_delete_ne by done. naive_solver.
  - apply NoDup_app. split; [done|]. split; [|apply NoDup_singleton]. intros k Hk ->%list_elem_of_singleton. by apply (H4 id).
  - intros k [y [Hk Hy]%lookup_delete_Some]. rewrite elem_of_app, list_elem_of_singleton. intros [Hin| ->]; [|done]. by eapply H4; [eexists|].
Qed.
#[export] Instance steady_frame : Frame steady.
Proof. split; [apply _|intros; by split_and!..|]. intros w t n Hn. split_and!; [done..|]. simpl. lia. Qed.
Section accounts.
Context (V : Env) (fuel : nat).
Lemma fs_step_accounted e w w' : (fs_job_seq w + 1 < 2 ^ 32)%Z → accounted w → fs_step V fuel e w = Some w' →
  accounted w' ∧ (fs_job_seq w' ≤ fs_job_seq w + 1)%Z.
Proof.
  intros Hlt Hw H. assert (Hq : ∀ w1, (steady w w1 ∨ ∃ d work w0, steady w w0 ∧ w1 = (enqueue_fs_job d work w0).2) →
    accounted w1 ∧ (fs_job_seq w1 ≤ fs_job_seq w + 1)%Z).
  { intros w1 [Hs|(d & work & w0 & Hs & ->)]; pose proof Hs as (_ & _ & S & _).
    - split; [by eapply accounted_steady|lia].
    - split; [apply accounted_enqueue; [lia|by eapply accounted_steady]|]. simpl. rewrite S, Z.mod_small; [lia|]. pose proof (acc_seq _ Hw). lia. }
  destruct e as [name args|name args|dir name args|id]; simpl in H.
  - apply Hq. eapply (call_queues V); [eapply fs_functions_queue; apply _|exact H].
  - apply Hq. eapply (call_queues V); [eapply promises_functions_queue; apply _|exact H].
  - apply Hq. eapply (call_queues V); [eapply (dir_functions_queue V); apply _|exact H].
  - destruct (fs_jobs w !! id) as [[d work]|] eqn:E; [|unfold fs_job_trampoline in H; rewrite E in H; injection H as <-; split; [done|lia]].
    eapply (@trampoline_answers V steady _) in H as (w1 & x & Hs & ->); [|exact E]. pose proof Hs as (J & D & S & Hd). simpl in J, D, S, Hd.
    split; [|simpl; lia]. assert (Ha : accounted (tell (id, x) (set_jobs (delete id (fs_jobs w)) (fs_job_seq w) w))) by (apply accounted_answer; [by eexists|done]).
    eapply accounted_steady; [|exact Ha]. split_and!; simpl; [done|by rewrite D|done|done].
Qed.
Lemma fs_run_accounted events w w' : (fs_job_seq w + Z.of_nat (length events) < 2 ^ 32)%Z → accounted w → fs_run V fuel events w = Some w' →
  accounted w'.
Proof.
  revert w. induction events as [|e events IH]; intros w Hlt Hw H; [by injection H as <-|]. cbn [fs_run] in H.
  destruct (fs_step V fuel e w) as [w1|] eqn:E; [|done]. rewrite length_cons in Hlt. apply fs_step_accounted in E as [H1 H2]; [|lia|done].
  apply IH in H; [done| |done]. lia.
Qed.
End accounts.
(** C6. In a program of fewer than [2^32] calls and turns, every job that was ever queued -- they are numbered
    from 1 -- is either still waiting or has been answered, by one callback or one settled promise, never by two and never while it still waits;
    and at no time are more than 256 directory handles open. *)
Theorem jobs_accounted_for V fuel events w w' :
  fs_jobs w = ∅ → delivered w = [] → fs_job_seq w = 1%Z → dir_table w = ∅ → (Z.of_nat (length events) < 2 ^ 32 - 1)%Z →
  fs_run V fuel events w = Some w' →
  (∀ id, (1 ≤ id < fs_job_seq w')%Z ↔ is_Some (fs_jobs w' !! id) ∨ id ∈ answered w')
  ∧ NoDup (answered w') ∧ (∀ id, is_Some (fs_jobs w' !! id) → id ∉ answered w')
  ∧ size (dir_table w') ≤ MAX_OPEN_DIRS.
Proof.
  intros Hj Hd Hs Ht Hlt H. apply fs_run_accounted in H as [H1 H2 H3 H4 H5]; [done|rewrite Hs; lia|].
  split; unfold answered; rewrite ?Hj, ?Hd, ?Hs, ?Ht; simpl; [done| |by apply NoDup_nil|by intros id [? ?]|rewrite map_size_empty; lia].
  intros id. rewrite lookup_empty. split; [lia|]. intros [[? ?]|Hin]; [done|by apply elem_of_nil in Hin].
Qed.
Definition three_unlinks : list Event := [CallPromises "unlink" [str "/jail/a"]; NextTick 1; CallPromises "unlink" [str "/jail/b"]].
Lemma jobs_accounted_for_witness : ∃ w',
  fs_run bench_env 10 three_unlinks jail_world = Some w' ∧ NoDup (answered w').
Proof.
  assert (is_Some (fs_run bench_env 10 three_unlinks jail_world)) as [w' E] by (apply is_ran; vm_compute; reflexivity).
  exists w'. split; [exact E|]. by destruct (jobs_accounted_for bench_env 10 three_unlinks jail_world w') as (_ & H & _).
Defined.
