(* ===== verification/NodeFsLaws.v ===== *)
(** * Node's [fs] module: what the operations compute

    The ten open modes against a specification of the contents after a write, on the disk and in the
    sandbox; descriptors read back what was written; directory handles give the listing once; and a recursive copy
    makes finitely many steps. *)

From S2P Require Import Prelude RustPath DiskFs Permissions VirtualFs HostDisk HostDiskTheorems NodeFs NodeFsApi NodeFsExamples NodeFsVfs.

(** ** Open modes *)

Lemma overwrite_start base bytes : overwrite base 0 bytes = bytes ++ drop (length bytes) base.
Proof. unfold overwrite. done. Qed.
Lemma overwrite_end base bytes : overwrite base (length base) bytes = base ++ bytes.
Proof. unfold overwrite. rewrite firstn_all, Nat.sub_diag, drop_ge by lia. simpl. by rewrite app_nil_r. Qed.
(** A kernel that does as it is told. *)
Record obliging (K : Kernel) : Prop := {
  ob_refuse : ∀ name p d, refuse K name p d = None;
  ob_file : ∀ name d, refuse_file K name d = None;
  ob_write : ∀ d bytes, cut_write K d bytes = None;
}.
Lemma quiet_obliging : obliging quiet_kernel.
Proof. done. Qed.
Lemma with_content_at (d : HostDisk) i l data : entry_at d l = Some (FileE i) → seen_at (with_content d i data) l = Some (Some data).
Proof. intros H. unfold seen_at. change (entry_at (with_content d i data) l) with (entry_at d l). rewrite H. unfold data_of. simpl. by rewrite lookup_insert_eq. Qed.
(** Writing through a handle at the start of its file, or at its end. *)
Definition placed (append : bool) (base data : rstr) : rstr := if append then base ++ data else data ++ drop (length data) base.
Lemma write_all_at K f data (d : HostDisk) l i : obliging K → f_writable f = true → f_entry f = FileE i → f_pos f = 0%Z → entry_at d l = Some (FileE i) →
  ∃ f' d', file_write_all K f data d = (Ok tt, f', d') ∧ seen_at d' l = Some (Some (placed (f_append f) (data_of d i) data)).
Proof.
  intros [H1 H2 H3] Hw Hf Hp Hl. unfold file_write_all. case_bool_decide as Hd.
  - exists f, d. split; [done|]. subst data. unfold seen_at. rewrite Hl. unfold placed. simpl. by destruct (f_append f); rewrite ?app_nil_r.
  - rewrite H2, Hw. simpl. rewrite Hf, H3. eexists _, _. split; [done|]. rewrite (with_content_at _ _ _ _ Hl), Hp. unfold placed.
    by destruct (f_append f); rewrite ?overwrite_end, ?overwrite_start.
Qed.
(** What a file holds after a write in a mode, when it held [old]; [None]: there was no file. *)
Definition contents_after (m : OpenMode) (old : option rstr) (data : rstr) : result rstr io_error :=
  if negb (m_write m) then Err (RawOs EBADF)
  else match old with
       | Some base =>
           if m_exclusive m then Err (RawOs EEXIST)
           else Ok (placed (m_append m) (if m_truncate m then [] else base) data)
       | None => if m_create m then Ok data else Err (RawOs ENOENT)
       end.
Lemma parse_mode_modes flag m : parse_mode flag = Ok m → m ∈ mode_table.*2.
Proof.
  unfold parse_mode. destruct (list_find _ mode_table) as [[i x]|] eqn:E; [|done]. intros [= <-]. apply list_find_Some in E as (Hi & _).
  apply list_elem_of_fmap. exists x. split; [done|]. by eapply list_elem_of_lookup_2.
Qed.
(** A file of the disk. *)
Definition disk_holds (V : Env) (w : World) (path : rstr) (old : option rstr) : Prop :=
  is_enabled (vfs w) = false ∧ ∃ l, resolve_path (disk w) (cwd V) (components path) = Ok l ∧ seen_at (disk w) l = Some <$> old.
(** A file of the sandbox, its own or one of the host seen through it. *)
Definition vfs_holds (V : Env) (w : World) (path : rstr) (old : option rstr) : Prop :=
  let h := world_host V w in
  is_enabled (vfs w) = true
  ∧ match old with
    | Some b => vfs_read h (vfs w) (components path) = Ok b ∧ vfs_exists h (vfs w) (components path) = true
    | None => (∃ m, vfs_read h (vfs w) (components path) = Err (NotFound, m)) ∧ vfs_exists h (vfs w) (components path) = false
    end.
Lemma opened_write K (d : HostDisk) cwd p l o data old :
  obliging K → resolve_path d cwd p = Ok l → seen_at d l = Some <$> old → HostDisk.invalid_options o = false → o_write o || o_append o = true →
  match old with
  | Some base => if o_create_new o then std_open K cwd o p d = (Err (RawOs EEXIST), d)
      else ∃ f d1 f' d2, std_open K cwd o p d = (Ok f, d1) ∧ file_write_all K f data d1 = (Ok tt, f', d2)
             ∧ seen_at d2 l = Some (Some (placed (o_append o) (if o_truncate o then [] else base) data))
  | None => if o_create o || o_create_new o
            then ∃ f d1 f' d2, std_open K cwd o p d = (Ok f, d1) ∧ file_write_all K f data d1 = (Ok tt, f', d2) ∧ seen_at d2 l = Some (Some data)
            else std_open K cwd o p d = (Err (RawOs ENOENT), d)
  end.
Proof.
  intros HK Hr Hl Hv Hw. unfold std_open. rewrite Hv, (ob_refuse K HK), Hr. unfold seen_at in Hl.
  destruct (entry_at d l) as [[i|i]|] eqn:El; destruct old as [base|]; try done.
  - injection Hl as Hl. destruct (o_create_new o); [done|].
    destruct (write_all_at K (opened o (FileE i)) data (if o_truncate o then with_content d i [] else d) l i HK) as (f' & d' & Hf & Hs);
      [done..|by destruct (o_truncate o)|]. eexists _, _, f', d'. split; [done|]. split; [exact Hf|]. rewrite Hs. simpl. repeat f_equal.
    destruct (o_truncate o); [|done]. unfold data_of. simpl. by rewrite lookup_insert_eq.
  - destruct (o_create o || o_create_new o); [|done]. assert (Hn : l ≠ []) by (intros ->; by simpl in El).
    assert (Hnew : entry_at (created d l FileE (o_mode o)) l = Some (FileE (next_ino d))) by (rewrite entry_at_cons by done; simpl; by rewrite lookup_insert_eq).
    destruct (write_all_at K (opened o (FileE (next_ino d))) data _ l _ HK Hw eq_refl eq_refl Hnew) as (f' & d' & Hf & Hs).
    eexists _, _, f', d'. split; [done|]. split; [exact Hf|]. rewrite Hs. simpl. unfold data_of. simpl. rewrite lookup_insert_eq. simpl.
    unfold placed. destruct (o_append o); [done|]. by rewrite drop_nil, app_nil_r.
Qed.

Lemma placed_fresh append data : placed append [] data = data.
Proof. unfold placed. by destruct append; rewrite ?drop_nil, ?app_nil_r. Qed.
Lemma std_write_spec K (d : HostDisk) cwd p l data old : obliging K → resolve_path d cwd p = Ok l → seen_at d l = Some <$> old →
  ∃ d', std_write K cwd p data d = (Ok tt, d') ∧ seen_at d' l = Some (Some data).
Proof.
  intros HK Hr Hl. pose proof (opened_write K d cwd p l write_options data old HK Hr Hl eq_refl eq_refl) as H. simpl in H.
  destruct old as [base|]; destruct H as (f & d1 & f' & d2 & H1 & H2 & H3); unfold std_write; rewrite H1, H2; exists d2; (split; [reflexivity|]); rewrite H3, ?drop_nil, ?app_nil_r; reflexivity.
Qed.
Definition write_outcome (holds : World → option rstr → Prop) (w : World) (spec : result rstr io_error) (x : result unit io_error * World) : Prop :=
  match spec with Ok b => x.1 = Ok tt ∧ holds x.2 (Some b) | Err e => x.1 = Err e ∧ disk x.2 = disk w ∧ vfs x.2 = vfs w end.
(** The location the path named before the write. *)
Definition now_holds (V : Env) (w : World) (path : rstr) (w' : World) (b : option rstr) : Prop :=
  ∃ l, resolve_path (disk w) (cwd V) (components path) = Ok l ∧ seen_at (disk w') l = Some <$> b.
Lemma direct_write_spec V c path data w old : obliging (kernel V) → (∀ s, c = Some s → components (c_string s) = components path) →
  disk_holds V w path old →
  (direct_write_sync V c path data w).1 = Ok tt ∧ now_holds V w path (direct_write_sync V c path data w).2 (Some data).
Proof.
  intros HK Hc (Hv & l & Hr & Hl). destruct (std_write_spec (kernel V) (disk w) (cwd V) (components path) l data old HK Hr Hl) as (d' & Hd & Hs).
  unfold direct_write_sync, mbind, M_bind, vfs_on. simpl. rewrite Hv. destruct c as [s|].
  - rewrite (Hc s eq_refl). unfold try, os. rewrite Hd. simpl. split; [done|]. by exists l.
  - simpl. unfold os. rewrite Hd. simpl. split; [done|]. by exists l.
Qed.
Lemma disk_write_spec V c path data mode w old : obliging (kernel V) → (∀ s, c = Some s → components (c_string s) = components path) →
  mode ∈ mode_table.*2 → disk_holds V w path old →
  write_outcome (now_holds V w path) w (contents_after mode old data) (write_file_bytes V c path data mode w).
Proof.
  intros HK Hc Hm Hold. pose proof Hold as (Hv & l & Hr & Hl). unfold contents_after. destruct (m_write mode) eqn:Ew; [|unfold write_file_bytes; rewrite Ew; by split_and!].
  change (negb true) with false. cbv iota.
  assert (Ho : HostDisk.invalid_options (to_open_options mode 438) = false ∧ (m_exclusive mode = true → m_create mode = true)
     ∧ (m_append mode = true → m_truncate mode = false) ∧ (is_plain_write mode = true → mode = mode_write)).
  { repeat (apply elem_of_cons in Hm as [->|Hm]; [done|]). by apply elem_of_nil in Hm. }
  destruct Ho as (Hvalid & Hxc & Hat & Hplain).
  pose proof (opened_write (kernel V) (disk w) (cwd V) (components path) l (to_open_options mode 438) data old HK Hr Hl Hvalid) as Ho.
  simpl in Ho. rewrite Ew in Ho. specialize (Ho eq_refl).
  assert (write_file_bytes V c path data mode w = if is_plain_write mode then direct_write_sync V c path data w
    else match std_open (kernel V) (cwd V) (to_open_options mode 438) (components path) (disk w) with
         | (Ok f, d) => let '(r, _, d') := file_write_all (kernel V) f data d in (r, on (λ _, d') (on (λ _, d) w))
         | (Err e, d) => (Err e, on (λ _, d) w)
         end) as ->.
  { unfold write_file_bytes. rewrite Ew. unfold mbind, M_bind at 1, vfs_on at 1. simpl. rewrite Hv. destruct (is_plain_write mode); [done|]. unfold M_bind, os.
    destruct (std_open _ _ _ _ _) as [[f|e] d]; [|done]. simpl. by destruct (file_write_all _ _ _ _) as [[r f'] d']. }
  destruct (is_plain_write mode) eqn:Ep.
  - rewrite (Hplain eq_refl). destruct (direct_write_spec V c path data w old HK Hc Hold) as [H1 H2]. destruct old; simpl; rewrite ?drop_nil, ?app_nil_r; by split.
  - destruct old as [base|].
    + destruct (m_exclusive mode); [rewrite Ho; by split_and!|]. destruct Ho as (f & d1 & f' & d2 & -> & -> & H3).
      split; [done|]. exists l. split; [done|]. simpl. rewrite H3. destruct (m_append mode); simpl; [by rewrite Hat|by rewrite andb_true_r].
    + assert (negb (m_exclusive mode) && m_create mode || m_exclusive mode = m_create mode) as Hcreate by (destruct (m_exclusive mode); simpl; rewrite ?orb_false_r; [by rewrite Hxc|done]).
      rewrite Hcreate in Ho. destruct (m_create mode); [|rewrite Ho; by split_and!]. destruct Ho as (f & d1 & f' & d2 & -> & -> & H3).
      split; [done|]. by exists l.
Qed.
Lemma vfs_written V w path data : is_enabled (vfs w) = true →
  vfs_holds V (set_vfs (vfs_write (world_host V w) (vfs w) (components path) data) w) path (Some data).
Proof.
  intros Hv. unfold vfs_holds. change (world_host V (set_vfs _ w)) with (world_host V w). simpl.
  set (h := world_host V w). set (p := components path). destruct (vfs_write_fields h (vfs w) p data) as (_ & Hf & Hd).
  split; [exact (eq_trans (enabled_write h (vfs w) p data) Hv)|]. unfold vfs_read, vfs_exists. rewrite Hf, Hd, lookup_insert_eq, bool_decide_eq_false_2 by set_solver.
  by rewrite bool_decide_eq_true_2 by by eexists.
Qed.
(** The sandbox makes a missing file in every mode that writes. *)
Definition sandbox_contents_after (m : OpenMode) (old : option rstr) (data : rstr) : result rstr io_error :=
  match old with None => if m_write m then Ok data else Err (RawOs EBADF) | Some _ => contents_after m old data end.
(** The one combination where this is not what the mode says. *)
Lemma sandbox_contents m old data : m ∈ mode_table.*2 →
  sandbox_contents_after m old data = if bool_decide (m = mode_update ∧ old = None) then Ok data else contents_after m old data.
Proof.
  intros Hm. destruct old as [base|]; [by rewrite bool_decide_eq_false_2 by by intros []|].
  repeat (apply elem_of_cons in Hm as [->|Hm]; [by vm_compute|]). by apply elem_of_nil in Hm.
Qed.
Lemma vfs_write_spec V c path data mode w old : mode ∈ mode_table.*2 → vfs_holds V w path old →
  write_outcome (λ w' b, vfs_holds V w' path b ∧ disk w' = disk w) w (sandbox_contents_after mode old data) (write_file_bytes V c path data mode w).
Proof.
  intros Hm Hold. unfold sandbox_contents_after, contents_after. destruct (m_write mode) eqn:Ew; [|unfold write_file_bytes; rewrite Ew; by destruct old; split_and!].
  change (negb true) with false. cbv iota.
  assert (Ho : m_append mode = true → m_truncate mode = false) by (repeat (apply elem_of_cons in Hm as [->|Hm]; [done|]); by apply elem_of_nil in Hm).
  assert (Hw : ∀ x, (vfs_holds V (set_vfs (vfs_write (world_host V w) (vfs w) (components path) x) w) path (Some x)
      ∧ disk (set_vfs (vfs_write (world_host V w) (vfs w) (components path) x) w) = disk w)) by (intros x; split; [apply vfs_written, Hold|done]).
  destruct Hold as [Hv Hold]. unfold write_file_bytes. rewrite Ew. unfold mbind, M_bind, vfs_on, vfs_bool, vfs_ask, vfs_do, try, of_result. simpl. rewrite Hv.
  destruct old as [base|]; destruct Hold as [Hr ->].
  - rewrite andb_true_r. destruct (m_exclusive mode); [by split_and!|]. rewrite andb_true_r. destruct (m_append mode).
    + rewrite Ho, Hr by done. simpl. split; [done|apply Hw].
    + destruct (m_truncate mode); simpl; [rewrite drop_nil, app_nil_r|rewrite Hr]; (split; [done|apply Hw]).
  - rewrite !andb_false_r. destruct Hr as [m Hr]. destruct (m_append mode); [rewrite Hr|]; (split; [done|apply Hw]).
Qed.
(** C4. Writing a file in any of the ten modes does on the host's disk what the mode says -- it must not be there, its end is
    written or its start, it is emptied first or must be there -- and does the same, with the same errors, in the
    sandbox's file system, with one exception: [r+] makes a missing file there, where the mode says [ENOENT].  The
    kernel fails nothing. *)
Theorem write_modes_agree V c path data flag mode w wv old :
  obliging (kernel V) → (∀ s, c = Some s → components (c_string s) = components path) → parse_mode flag = Ok mode →
  disk_holds V w path old → vfs_holds V wv path old →
  write_outcome (now_holds V w path) w (contents_after mode old data) (write_file_bytes V c path data mode w)
  ∧ write_outcome (λ w' b, vfs_holds V w' path b ∧ disk w' = disk wv) wv
      (if bool_decide (mode = mode_update ∧ old = None) then Ok data else contents_after mode old data) (write_file_bytes V c path data mode wv).
Proof.
  intros HK Hc Hm%parse_mode_modes Hd Hv. split; [by apply disk_write_spec|]. rewrite <-sandbox_contents by done. by apply vfs_write_spec.
Qed.
Lemma write_modes_agree_witness :
  ∃ w', write_file_bytes bench_env None "/etc/passwd" "more" mode_append free_world = (Ok tt, w')
    ∧ seen_at (disk w') passwd = Some (Some ("rootmore" : rstr)).
Proof.
  destruct (write_modes_agree bench_env None "/etc/passwd" "more" "a" mode_append free_world cow_world (Some ("root" : rstr)))
    as [[H1 (l & Hl & Hs)] _]; [exact quiet_obliging|done|reflexivity| | |].
  - split; [done|]. exists passwd. by split.
  - by split_and!.
  - destruct (write_file_bytes bench_env None "/etc/passwd" "more" mode_append free_world) as [r w']. simpl in *. subst r. exists w'. split; [done|].
    vm_compute in Hl. injection Hl as <-. exact Hs.
Defined.
Example update_makes_the_file :
  (write_file_bytes bench_env None "/jail/none" "x" mode_update free_world).1 = Err (RawOs ENOENT)
  ∧ (write_file_bytes bench_env None "/jail/none" "x" mode_update cow_world).1 = Ok tt.
Proof. split; vm_compute; reflexivity. Qed.

(** ** Descriptors *)

Lemma overwrite_read base pos bytes : take (length bytes) (drop pos (overwrite base pos bytes)) = bytes.
Proof.
  unfold overwrite. rewrite app_assoc. assert (length (take pos base ++ replicate (pos - length base) nul) = pos) as Hl.
  { rewrite length_app, length_take, length_replicate. lia. }
  rewrite <-Hl at 1. by rewrite drop_app_length, take_app_length.
Qed.
Lemma overwrite_outside base pos bytes k : k < pos ∨ pos + length bytes ≤ k → k < length base → overwrite base pos bytes !! k = base !! k.
Proof.
  intros Hk Hb. unfold overwrite. destruct (base.decide (k < pos)).
  - rewrite lookup_app_l by (rewrite length_take; lia). by rewrite lookup_take_lt by lia.
  - destruct Hk as [?|Hk]; [lia|]. rewrite lookup_app_r by (rewrite length_take; lia). rewrite length_take, Nat.min_l by lia.
    rewrite lookup_app_r by (rewrite length_replicate; lia). rewrite length_replicate, lookup_app_r by lia. rewrite lookup_drop. f_equal. lia.
Qed.
(** C5. What is written through a descriptor at a position is there for every descriptor of the same file: each reads
    it back from that position, whatever name the file has by then and whether or not it has one, and
    the bytes before and after stay. *)
Theorem fd_round_trip V fd f i pos bytes w :
  obliging (kernel V) → fd_table w !! fd = Some f → f_writable f = true → f_append f = false → f_entry f = FileE i →
  (0 ≤ pos < 2 ^ 63)%Z → bytes ≠ [] →
  ∃ w', write_fd V fd (Some pos) bytes w = (Ok (Z.of_nat (length bytes)), w')
    ∧ (∀ fd' f', fd_table w' !! fd' = Some f' → f_readable f' = true → f_entry f' = FileE i →
         (read_fd V fd' (Some pos) (length bytes) w').1 = Ok bytes)
    ∧ (∀ k, (Z.of_nat k < pos ∨ pos + Z.of_nat (length bytes) ≤ Z.of_nat k)%Z → k < length (data_of (disk w) i) →
         data_of (disk w') i !! k = data_of (disk w) i !! k).
Proof.
  intros [H1 H2 H3] Hf Hw Ha Hi Hpos Hb.
  set (data := overwrite (data_of (disk w) i) (Z.to_nat pos) bytes).
  assert (Hd : data_of (with_content (disk w) i data) i = data) by (unfold data_of; simpl; by rewrite lookup_insert_eq).
  assert (Hwrite : file_write_all (kernel V) (at_pos f pos) bytes (disk w)
    = (Ok tt, at_pos (at_pos f pos) (Z.of_nat (Z.to_nat pos + length bytes)), with_content (disk w) i data)).
  { unfold file_write_all. rewrite bool_decide_eq_false_2, H2 by done. simpl. by rewrite Hw, Hi, Ha, H3. }
  assert (Hseek : ∀ g d, file_seek (kernel V) g pos d = (Ok (at_pos g pos), d)).
  { intros g d. unfold file_seek, file_refused. rewrite H2, bool_decide_eq_false_2 by lia. done. }
  assert (Hrun : ∃ w', write_fd V fd (Some pos) bytes w = (Ok (Z.of_nat (length bytes)), w') ∧ disk w' = with_content (disk w) i data).
  { unfold write_fd, mbind, M_bind, handle_of. rewrite Hf. unfold seek_to, mbind, M_bind, os. rewrite Hseek. simpl. rewrite Hwrite. simpl. by eexists. }
  destruct Hrun as (w' & Hrun & Hdisk). exists w'. split; [exact Hrun|]. rewrite Hdisk. split.
  - intros fd' f' Hf' Hr' Hi'. unfold read_fd, mbind, M_bind, handle_of. rewrite Hf'. unfold seek_to, mbind, M_bind, os. rewrite Hseek. simpl.
    unfold file_read, file_refused. rewrite H2. simpl. rewrite Hr', Hi'. simpl. rewrite Hdisk, Hd. unfold data. by rewrite overwrite_read.
  - intros k Hk Hlt. rewrite Hd. apply overwrite_outside; [lia|done].
Qed.
Definition opened_world : World := default free_world (fs_run bench_env 10 [CallFs "openSync" [str "/etc/passwd"; str "r+"]; CallFs "renameSync" [str "/etc/passwd"; str "/jail/b"]] free_world).
Lemma fd_round_trip_witness : ∃ w', write_fd bench_env 3 (Some 2%Z) "xyz" opened_world = (Ok 3%Z, w')
  ∧ (read_fd bench_env 3 (Some 2%Z) 3 w').1 = Ok ("xyz" : rstr).
Proof.
  destruct (fd_round_trip bench_env 3 {| f_entry := FileE 3; f_readable := true; f_writable := true; f_append := false; f_pos := 0 |} 3 2 "xyz" opened_world)
    as (w' & H1 & H2 & _); [exact quiet_obliging|vm_compute; reflexivity|done..|].
  exists w'. split; [exact H1|].
  assert (fd_table (write_fd bench_env 3 (Some 2%Z) "xyz" opened_world).2 !! 3%Z
    = Some {| f_entry := FileE 3; f_readable := true; f_writable := true; f_append := false; f_pos := 5 |}) as Hf by (vm_compute; reflexivity).
  rewrite H1 in Hf. exact (H2 3%Z _ Hf eq_refl eq_refl).
Defined.
