(* ===== verification/NodeFsCopy.v ===== *)
(** * Node's [fs] module: recursive copies

    On a kernel that fails nothing, [cp] with [recursive] makes a target that is not there the tree the
    source is, and nothing else; and it ends. *)

From S2P Require Import Prelude RustPath DiskFs Permissions VirtualFs HostDisk HostDiskTheorems NodeFs NodeFsApi NodeFsExamples NodeFsLaws.

(** ** Paths and places *)

Lemma seen_dir (d : HostDisk) l : seen_at d l = Some None ↔ ∃ i, entry_at d l = Some (DirE i).
Proof. unfold seen_at. destruct (entry_at d l) as [[]|]; naive_solver. Qed.
Lemma seen_none (d : HostDisk) l : seen_at d l = None ↔ entry_at d l = None.
Proof. unfold seen_at. destruct (entry_at d l) as [[]|]; naive_solver. Qed.
Lemma seen_file (d : HostDisk) l b : seen_at d l = Some (Some b) ↔ ∃ i, entry_at d l = Some (FileE i) ∧ data_of d i = b.
Proof. unfold seen_at. destruct (entry_at d l) as [[]|]; naive_solver. Qed.
(** Where directories stay, paths lead where they led. *)
Lemma resolve_grows (d d' : HostDisk) cwd p l : (∀ k, seen_at d k = Some None → seen_at d' k = Some None) →
  resolve_path d cwd p = Ok l → resolve_path d' cwd p = Ok l.
Proof.
  intros Hd. assert (Hwalk : ∀ q m k, walk_path d m q = Ok k → walk_path d' m q = Ok k).
  { induction q as [|c q IH]; intros m k; simpl; [done|]. destruct (entry_at d m) as [[|i]|] eqn:E; [done| |done].
    destruct (proj1 (seen_dir d' m) (Hd m (proj2 (seen_dir d m) (ex_intro _ i E)))) as [j ->]. apply IH. }
  unfold resolve_path. destruct (has_nul p); [done|]. destruct p as [|[] p]; [done|apply Hwalk..].
Qed.
Lemma walk_child (d : HostDisk) l p m n : walk_path d l p = Ok m → (∃ i, entry_at d m = Some (DirE i)) → walk_path d l (p ++ [Normal n]) = Ok (m ++ [n]).
Proof. intros Hp [i Hm]. rewrite walk_app, Hp. simpl. by rewrite Hm. Qed.
Lemma resolve_child (d : HostDisk) cwd p l n : resolve_path d cwd p = Ok l → (∃ i, entry_at d l = Some (DirE i)) → nul ∉ n →
  resolve_path d cwd (path_join p [Normal n]) = Ok (l ++ [n]).
Proof.
  intros (Hn & Hne & Hc)%resolve_cases Hl Hnul. assert (path_join p [Normal n] = p ++ [Normal n]) as -> by (by destruct p).
  unfold resolve_path. unfold has_nul in *. rewrite existsb_app, Hn. simpl. rewrite bool_decide_eq_false_2 by done. simpl.
  destruct Hc as [(q & -> & Hq)|(Ha & Hq & _)]; [by apply walk_child|]. by destruct p as [|[] p]; [done|done|apply (walk_child d cwd _ l n Hq Hl)..].
Qed.
(** Nothing is below a place with nothing, or with a file. *)
Lemma below_none (d : HostDisk) l x : wf_host d → seen_at d l ≠ Some None → x ≠ [] → seen_at d (l ++ x) = None.
Proof.
  intros Hw Hl Hx. destruct (seen_at d (l ++ x)) as [s|] eqn:E; [|done]. exfalso. apply Hl. apply seen_dir.
  assert (is_Some (entry_at d (l ++ x))) as [e He]. { unfold seen_at in E. destruct (entry_at d (l ++ x)); [by eexists|done]. }
  eapply entry_prefix; [done|exact He|by eexists|]. intros Hxx. apply Hx. rewrite <-(app_nil_r l) in Hxx at 1. by apply app_inv_head in Hxx.
Qed.

(** ** One file, one directory *)

(** From [d] to [d'] the places outside [T] stay as they are. *)
Definition only (T : loc) (d d' : HostDisk) : Prop := wf_host d' ∧ ∀ k, ¬ T `prefix_of` k → seen_at d' k = seen_at d k.
Lemma only_keeps T d d' : keeps (λ k, T `prefix_of` k) (λ _, False) d d' → only T d d'.
Proof. intros H. split; [by eapply keeps_wf|]. intros k Hk. by destruct (keeps_seen _ _ _ _ H k Hk) as [|(_ & _ & [])]. Qed.
Section calls.
Context (K : Kernel) (cwd : loc) (HK : obliging K).
Set Default Proof Using "All".
Lemma prefix_up (T k k' : loc) : T `prefix_of` k → k `prefix_of` k' → T `prefix_of` k'.
Proof. intros; by etrans. Qed.
Lemma copy_file (d : HostDisk) p q l T b : wf_host d → resolve_path d cwd p = Ok l → seen_at d l = Some (Some b) →
  resolve_path d cwd q = Ok T → seen_at d T = None →
  ∃ d', std_copy K cwd p q d = (Ok tt, d') ∧ only T d d' ∧ seen_at d' T = Some (Some b).
Proof.
  intros Hw Hp (i & Hi & Hb)%seen_file Hq HT.
  assert (∃ d', std_copy K cwd p q d = (Ok tt, d') ∧ seen_at d' T = Some (Some b)) as (d' & Hc & Hs).
  { unfold std_copy, std_open at 1. simpl. rewrite (ob_refuse K HK), Hp, Hi. simpl.
    unfold std_open. simpl. rewrite (ob_refuse K HK), Hq. apply seen_none in HT. rewrite HT. simpl.
    assert (Hn : T ≠ []) by (intros ->; by simpl in HT).
    set (d1 := with_mode _ _ _). assert (Hnew : entry_at d1 T = Some (FileE (next_ino d))).
    { change (entry_at d1 T) with (entry_at (created d T FileE 438) T). rewrite entry_at_cons by done. simpl. by rewrite lookup_insert_eq. }
    assert (Hd : data_of d1 i = b).
    { unfold data_of, d1. simpl. rewrite lookup_insert_ne; [exact Hb|]. intros <-. apply entry_at_file in Hi as [_ Hi]. apply (wf_fresh d Hw) in Hi. simpl in Hi. lia. }
    destruct (write_all_at K (opened write_options (FileE (next_ino d))) b d1 T _ HK eq_refl eq_refl eq_refl Hnew) as (f' & d' & Hf & Hs).
    rewrite Hd, Hf. exists d'. split; [done|]. rewrite Hs. unfold data_of, d1. simpl. rewrite lookup_insert_eq. simpl. by rewrite drop_nil, app_nil_r. }
  exists d'. split; [exact Hc|]. split; [|exact Hs]. apply only_keeps.
  eapply (std_copy_keeps K cwd (λ k, T `prefix_of` k) (λ _, False)); [by apply prefix_up|done|exact Hw| |exact Hc].
  intros m Hm. rewrite Hq in Hm. by injection Hm as <-.
Qed.
Lemma make_dir (d : HostDisk) q T : wf_host d → resolve_path d cwd q = Ok T → seen_at d T = None →
  ∃ d', std_create_dir_all K cwd q d = (Ok tt, d') ∧ only T d d' ∧ seen_at d' T = Some None ∧ ∀ x, x ≠ [] → seen_at d' (T ++ x) = None.
Proof.
  intros Hw Hq HT. pose proof HT as HT'. apply seen_none in HT.
  assert (Hone : std_create_dir K cwd q d = (Ok tt, created d T DirE 511)) by (unfold std_create_dir; by rewrite (ob_refuse K HK), Hq, HT).
  assert (Hn : T ≠ []) by (intros ->; by simpl in HT).
  exists (created d T DirE 511). split_and!.
  - unfold std_create_dir_all. destruct q as [|c q]; [done|]. destruct (length (c :: q)); simpl; by rewrite Hone.
  - apply only_keeps. eapply (std_create_dir_keeps K cwd (λ k, T `prefix_of` k) (λ _, False)); [by apply prefix_up|done|exact Hw| |exact Hone].
    intros m Hm _. left. rewrite Hq in Hm. by injection Hm as <-.
  - apply seen_dir. exists (next_ino d). rewrite entry_at_cons by done. simpl. by rewrite lookup_insert_eq.
  - intros x Hx. assert (seen_at d (T ++ x) = None) as Hd%seen_none by (apply below_none; [done|by rewrite HT'|done]). apply seen_none.
    assert (T ++ x ≠ []) by (by destruct T). rewrite entry_at_cons in Hd |- * by done. simpl. rewrite lookup_insert_ne; [done|].
    intros E. apply Hx. rewrite <-(app_nil_r T) in E at 1. by apply app_inv_head in E.
Qed.
End calls.
Lemma NoDup_omap_inj {A B} (f : A → option B) xs :
  NoDup xs → (∀ x y b, x ∈ xs → y ∈ xs → f x = Some b → f y = Some b → x = y) → NoDup (omap f xs).
Proof.
  induction 1 as [|x xs Hx Hxs IH]; intros Hf; simpl; [constructor|].
  assert (NoDup (omap f xs)) by (apply IH; intros; eapply Hf; [by right|by right|done|done]).
  destruct (f x) as [b|] eqn:E; [|done]. constructor; [|done]. intros (y & Hy & Hb)%list_elem_of_omap. apply Hx.
  by rewrite (Hf x y b) by (by left || by right || done).
Qed.
Lemma name_in_Some l k n : name_in l k = Some n ↔ k = l ++ [n].
Proof.
  unfold name_in. case_bool_decide as H; split; try done.
  - intros Hn. destruct k as [|m k _] using rev_ind; [done|]. rewrite parent_loc_snoc in H. rewrite last_snoc in Hn. by simplify_eq.
  - intros ->. by rewrite last_snoc.
  - intros ->. by rewrite parent_loc_snoc in H.
Qed.
Lemma read_dir_spec K cwd (d : HostDisk) p l : obliging K → resolve_path d cwd p = Ok l → seen_at d l = Some None →
  ∃ L, std_read_dir K cwd d p = Ok L ∧ NoDup L.*1 ∧ ∀ n e, (n, e) ∈ L ↔ entry_at d (l ++ [n]) = Some e.
Proof.
  intros HK Hp (i & Hl)%seen_dir. eexists. split; [unfold std_read_dir, lookup_path; rewrite (ob_refuse K HK), Hp; simpl; rewrite Hl; reflexivity|].
  assert (Hin : ∀ n, n ∈ names_in d l ↔ is_Some (entry_at d (l ++ [n]))).
  { intros n. unfold names_in. rewrite list_elem_of_omap, entry_at_snoc. split.
    - intros ([k e] & Hk & Hn). apply name_in_Some in Hn. simpl in Hn. subst k. apply elem_of_map_to_list in Hk. by eexists.
    - intros [e He]. exists (l ++ [n], e). split; [by apply elem_of_map_to_list|by apply name_in_Some]. }
  assert (Hnd : NoDup (names_in d l)).
  { apply NoDup_omap_inj; [apply NoDup_map_to_list|]. intros [k e] [k' e'] n Hk Hk' H1 H2. apply name_in_Some in H1, H2. simpl in H1, H2. subst.
    apply elem_of_map_to_list in Hk, Hk'. congruence. }
  set (f := λ n, (λ e, (n, e)) <$> entry_at d (l ++ [n])).
  assert (Hf : ∀ n x, f n = Some x ↔ x.1 = n ∧ entry_at d (l ++ [n]) = Some x.2).
  { intros n [m e]. unfold f. destruct (entry_at d (l ++ [n])); naive_solver. }
  split.
  - change (NoDup (omap f (names_in d l)).*1). revert Hnd. generalize (names_in d l) as ns. clear -Hf. induction ns as [|n ns IH]; intros Hnd; simpl; [constructor|]. apply NoDup_cons in Hnd as [Hn Hns].
    destruct (f n) as [[m e]|] eqn:E; [|by apply IH]. apply Hf in E as [E _]. simpl in E. subst m. simpl. constructor; [|by apply IH].
    intros ([m e'] & -> & (k & Hk & [Hx _]%Hf)%list_elem_of_omap)%list_elem_of_fmap. simpl in *. by subst k.
  - intros n e. rewrite list_elem_of_omap. split.
    + intros (m & _ & [Hm He]%Hf). simpl in *. by subst m.
    + intros He. exists n. split; [apply Hin; by eexists|by apply Hf].
Qed.

(** ** Trees *)

Section copy.
Context (V : Env) (HK : obliging (kernel V)) (force error_on_exist : bool).
Set Default Proof Using "All".
Lemma check_free a p w : has_restrictions (perms w) = false → check_path V a p w = (Ok tt, w).
Proof. intros Hp. unfold check_path, check_global_permission. rewrite Hp. simpl. by destruct w. Qed.
Lemma entry_free {B} a p w (f : unit → Io B) : has_restrictions (perms w) = false → (cp_entry_allowed V a p ≫= f) w = f tt w.
Proof. intros Hp. unfold cp_entry_allowed, mbind, M_bind, map_err. by rewrite check_free. Qed.
Definition free (w : World) : Prop := has_restrictions (perms w) = false.
Lemma on_disk w : on (λ _, disk w) w = w.
Proof. by destruct w. Qed.
Lemma copy_one w p q l T b : free w → wf_host (disk w) → resolve_path (disk w) (cwd V) p = Ok l → seen_at (disk w) l = Some (Some b) →
  resolve_path (disk w) (cwd V) q = Ok T → seen_at (disk w) T = None →
  ∃ w', cp_file_real V p q force error_on_exist w = (Ok tt, w') ∧ free w' ∧ only T (disk w) (disk w') ∧ seen_at (disk w') T = Some (Some b).
Proof.
  intros Hf Hw Hp Hb Hq HT. destruct (copy_file (kernel V) (cwd V) HK (disk w) p q l T b) as (d' & Hc & Ho & Hs); [done..|].
  exists (on (λ _, d') w). split; [|done]. unfold cp_file_real. rewrite !entry_free by done. unfold mbind, M_bind, try, ask.
  unfold std_symlink_metadata, lookup_path. rewrite (ob_refuse _ HK), Hq. apply seen_none in HT. simpl. rewrite HT. simpl. unfold os. by rewrite Hc.
Qed.
Lemma target_made w q T : free w → wf_host (disk w) → resolve_path (disk w) (cwd V) q = Ok T → seen_at (disk w) T = None →
  ∃ w', real_target V q w = (Ok tt, w') ∧ free w' ∧ only T (disk w) (disk w') ∧ seen_at (disk w') T = Some None
    ∧ ∀ x, x ≠ [] → seen_at (disk w') (T ++ x) = None.
Proof.
  intros Hf Hw Hq HT. destruct (make_dir (kernel V) (cwd V) HK (disk w) q T) as (d' & Hc & Ho & Hs); [done..|].
  exists (on (λ _, d') w). split; [|done]. unfold real_target, mbind, M_bind, try, ask, std_symlink_metadata, lookup_path.
  rewrite (ob_refuse _ HK), Hq. apply seen_none in HT. simpl. rewrite HT. simpl. unfold os. by rewrite Hc.
Qed.
(** The trees are apart: the target is not in the source, nor the source, which is there, in the target, which is not. *)
Lemma apart (d : HostDisk) R T : wf_host d → seen_at d R = Some None → seen_at d T = None → ¬ R `prefix_of` T → ∀ y, ¬ T `prefix_of` R ++ y.
Proof using Type.
  intros Hw HR HT HRT y HTy. destruct (prefix_weak_total T R (R ++ y) HTy) as [[z ->]|?]; [by eexists| |done].
  destruct z as [|c z]; [rewrite app_nil_r in HR; congruence|]. rewrite below_none in HR; [done|done|by rewrite HT|done].
Qed.
(** What is copied of a directory when the names [done_] are. *)
Record copying (d0 : HostDisk) (R T : loc) (done_ : rstr → Prop) (w : World) : Prop := {
  co_free : free w;
  co_only : only T d0 (disk w);
  co_target : seen_at (disk w) T = Some None;
  co_done : ∀ n x, done_ n → seen_at (disk w) (T ++ n :: x) = seen_at d0 (R ++ n :: x);
  co_rest : ∀ n x, ¬ done_ n → seen_at (disk w) (T ++ n :: x) = None;
}.
Lemma copying_next d0 R T done_ n w w' : copying d0 R T done_ w → ¬ done_ n → free w' → only (T ++ [n]) (disk w) (disk w') →
  (∀ x, seen_at (disk w') (T ++ n :: x) = seen_at d0 (R ++ n :: x)) → copying d0 R T (λ m, done_ m ∨ m = n) w'.
Proof.
  intros [H1 [H2 H2'] H3 H4 H5] Hn Hf [Ho Ho'] Hx. assert (Hout : ∀ m x, m ≠ n → ¬ T ++ [n] `prefix_of` T ++ m :: x).
  { intros m x Hm Hp. apply prefix_app_inv in Hp. by apply prefix_cons_inv_1 in Hp. }
  assert (HTn : ∀ k, ¬ T `prefix_of` k → ¬ T ++ [n] `prefix_of` k) by (intros k Hk Hp; apply Hk; etrans; [by eexists|exact Hp]).
  split; [done| | | |].
  - split; [done|]. intros k Hk. rewrite Ho' by auto. by apply H2'.
  - rewrite Ho'; [done|]. intros Hp%prefix_length. rewrite length_app in Hp. simpl in Hp. lia.
  - intros m x [Hm| ->]; [|apply Hx]. destruct (base.decide (m = n)) as [->|]; [done|]. rewrite Ho' by auto. by apply H4.
  - intros m x Hm. rewrite Ho' by (apply Hout; naive_solver). apply H5. naive_solver.
Qed.
(** A file name the kernel can have and UTF-8 can spell. *)
Definition good_name (n : rstr) : Prop := from_utf8_lossy (codec V) n = n ∧ nul ∉ n.
Definition tree_below (d : HostDisk) (R : loc) (fuel : nat) : Prop :=
  (∀ x, seen_at d (R ++ x) ≠ None → length x < fuel) ∧ ∀ x n, seen_at d (R ++ x ++ [n]) ≠ None → good_name n.
Lemma tree_below_child (d0 d : HostDisk) R n fuel : tree_below d0 R (S fuel) → (∀ x, seen_at d (R ++ n :: x) = seen_at d0 (R ++ n :: x)) →
  tree_below d (R ++ [n]) fuel.
Proof.
  intros [H1 H2] He. split.
  - intros x Hx. rewrite <-app_assoc in Hx. simpl in Hx. rewrite He in Hx. apply H1 in Hx. simpl in Hx. lia.
  - intros x m Hx. rewrite <-app_assoc in Hx. simpl in Hx. rewrite He in Hx. by apply (H2 (n :: x) m).
Qed.
(** The statement for one call, which the recursion has for the calls below. *)
Definition copies (fuel : nat) : Prop := ∀ w p q R T, free w → wf_host (disk w) → resolve_path (disk w) (cwd V) p = Ok R → seen_at (disk w) R = Some None →
  resolve_path (disk w) (cwd V) q = Ok T → seen_at (disk w) T = None → ¬ R `prefix_of` T → tree_below (disk w) R fuel →
  ∃ w', cp_dir_real V fuel p q force error_on_exist w = Some (Ok tt, w') ∧ free w' ∧ only T (disk w) (disk w')
    ∧ ∀ x, seen_at (disk w') (T ++ x) = seen_at (disk w) (R ++ x).
Definition cp_entry (fuel : nat) (p q : path) (entry : rstr * Entry) : Deep unit :=
  let child p := path_join p [Normal (from_utf8_lossy (codec V) entry.1)] in
  and_then (shallow (ask (λ d, std_metadata (kernel V) (cwd V) d (path_join p [Normal entry.1])))) (λ meta,
  if md_is_dir meta then cp_dir_real V fuel (child p) (child q) force error_on_exist
  else shallow (cp_file_real V (child p) (child q) force error_on_exist)).
Section step.
Context (fuel : nat) (d0 : HostDisk) (p q : path) (R T : loc) (IH : copies fuel).
Context (Hw0 : wf_host d0) (Hp0 : resolve_path d0 (cwd V) p = Ok R) (HR0 : seen_at d0 R = Some None).
Context (Hq0 : resolve_path d0 (cwd V) q = Ok T) (HT0 : seen_at d0 T = None) (HRT : ¬ R `prefix_of` T) (Htree : tree_below d0 R (S fuel)).
Lemma source_same done_ w y : copying d0 R T done_ w → seen_at (disk w) (R ++ y) = seen_at d0 (R ++ y).
Proof using Hw0 HR0 HT0 HRT. intros Hc. apply (co_only _ _ _ _ _ Hc). by apply (apart d0 R T). Qed.
Lemma paths_same done_ w r l : copying d0 R T done_ w → resolve_path d0 (cwd V) r = Ok l → resolve_path (disk w) (cwd V) r = Ok l.
Proof using Hw0 HT0.
  intros Hc. apply resolve_grows. intros k Hk. rewrite (proj2 (co_only _ _ _ _ _ Hc)); [done|]. intros [z ->].
  destruct z as [|c z]; [rewrite app_nil_r in Hk; congruence|]. rewrite below_none in Hk; [done|done|by rewrite HT0|done].
Qed.
Lemma entry_copied done_ n e w : copying d0 R T done_ w → ¬ done_ n → seen_at d0 (R ++ [n]) ≠ None →
  ∃ w', cp_entry fuel p q (n, e) w = Some (Ok tt, w') ∧ copying d0 R T (λ m, done_ m ∨ m = n) w'.
Proof.
  intros Hc Hn Hs0. pose proof Hc as [H1 [H2 H2'] H3 H4 H5]. destruct (proj2 Htree [] n Hs0) as [Hlossy Hnul].
  pose proof (source_same _ _ [n] Hc) as Hs. assert (HR : seen_at (disk w) R = Some None) by (pose proof (source_same _ _ [] Hc) as E; rewrite !app_nil_r in E; congruence).
  assert (Hpn : resolve_path (disk w) (cwd V) (path_join p [Normal n]) = Ok (R ++ [n])) by (apply resolve_child; [by eapply paths_same|by apply seen_dir|done]).
  assert (Hqn : resolve_path (disk w) (cwd V) (path_join q [Normal n]) = Ok (T ++ [n])) by (apply resolve_child; [by eapply paths_same|by apply seen_dir|done]).
  unfold cp_entry. simpl. rewrite Hlossy. unfold and_then, shallow, ask, std_metadata, lookup_path. rewrite (ob_refuse _ HK), Hpn. simpl.
  destruct (seen_at d0 (R ++ [n])) as [[b|]|] eqn:E0; [| |done].
  - apply seen_file in Hs as (i & Hi & Hb). rewrite Hi. simpl.
    destruct (copy_one w (path_join p [Normal n]) (path_join q [Normal n]) (R ++ [n]) (T ++ [n]) b) as (w' & Hcp & Hf' & Ho' & Hs'); [done|done|done|apply seen_file; eauto|done|by apply H5|].
    exists w'. split; [by rewrite Hcp|]. eapply copying_next; [exact Hc|done..|]. intros [|c x]; [congruence|].
    change (n :: c :: x) with ([n] ++ c :: x). rewrite !app_assoc, !below_none; [done|done|by rewrite E0|done|apply Ho'|by rewrite Hs'|done].
  - apply seen_dir in Hs as [i Hi]. rewrite Hi. simpl.
    destruct (IH w (path_join p [Normal n]) (path_join q [Normal n]) (R ++ [n]) (T ++ [n])) as (w' & Hcp & Hf' & Ho' & Hs'); try done.
    + apply seen_dir. eauto.
    + by apply H5.
    + intros [Hp|Hp]%prefix_snoc; [apply app_inj_2 in Hp as [-> _]; [by apply HRT|done]|]. apply HRT. etrans; [by eexists|exact Hp].
    + eapply tree_below_child; [exact Htree|]. intros x. by apply (source_same _ _ (n :: x) Hc).
    + exists w'. split; [by rewrite Hcp|]. eapply copying_next; [exact Hc|done..|]. intros x. specialize (Hs' x). rewrite <-!app_assoc in Hs'. simpl in Hs'.
      rewrite Hs'. by apply (source_same _ _ (n :: x) Hc).
Qed.
Lemma entries_copied L : ∀ done_ w, copying d0 R T done_ w → NoDup L.*1 → (∀ n, n ∈ L.*1 → ¬ done_ n ∧ seen_at d0 (R ++ [n]) ≠ None) →
  ∃ w', each_deep (cp_entry fuel p q) L w = Some (Ok tt, w') ∧ copying d0 R T (λ m, done_ m ∨ m ∈ L.*1) w'.
Proof.
  induction L as [|[n e] L IHL]; intros done_ w Hc Hnd Hin; simpl.
  - exists w. split; [done|]. destruct Hc as [H1 H2 H3 H4 H5]. split; [done..| |].
    + intros m x [Hm|Hm%elem_of_nil]; [by apply H4|done].
    + intros m x Hm. apply H5. tauto.
  - apply NoDup_cons in Hnd as [Hn Hnd]. destruct (Hin n) as [Hdn Hsn]; [by left|].
    destruct (entry_copied done_ n e w Hc Hdn Hsn) as (w1 & H1 & Hc1).
    destruct (IHL _ w1 Hc1 Hnd) as (w2 & H2 & Hc2).
    { intros m Hm. destruct (Hin m) as [? ?]; [by right|]. split; [|done]. intros [?| ->]; done. }
    exists w2. split; [unfold and_then; by rewrite H1|]. destruct Hc2 as [K1 K2 K3 K4 K5]. split; [done..| |].
    + intros m x Hm. apply K4. set_solver.
    + intros m x Hm. apply K5. set_solver.
Qed.
End step.
Lemma dir_copies fuel : copies fuel.
Proof.
  induction fuel as [|fuel IH]; intros w p q R T Hf Hw Hp HR Hq HT HRT Htree.
  { destruct Htree as [Htree _]. specialize (Htree []). rewrite app_nil_r, HR in Htree. specialize (Htree ltac:(done)). simpl in Htree. lia. }
  destruct (target_made w q T Hf Hw Hq HT) as (w1 & Hm & Hf1 & Ho1 & HT1 & Hx1).
  assert (Hc1 : copying (disk w) R T (λ _, False) w1) by (split; [done..|]; intros n x _; by apply Hx1).
  assert (HR1 : seen_at (disk w1) R = Some None) by (pose proof (source_same (disk w) R T Hw HR HT HRT _ _ [] Hc1) as E; rewrite !app_nil_r in E; congruence).
  destruct (read_dir_spec (kernel V) (cwd V) (disk w1) p R HK) as (L & HL & Hnd & Hin); [by eapply (paths_same (disk w) R T)|done|].
  assert (Hseen : ∀ n, n ∈ L.*1 ↔ seen_at (disk w) (R ++ [n]) ≠ None).
  { intros n. rewrite <-(source_same (disk w) R T Hw HR HT HRT _ _ [n] Hc1), seen_none. split.
    - intros ([m e] & -> & He%Hin)%list_elem_of_fmap. simpl. congruence.
    - intros He. destruct (entry_at (disk w1) (R ++ [n])) as [e|] eqn:E; [|by destruct He]. apply Hin in E. apply list_elem_of_fmap. by exists (n, e). }
  destruct (entries_copied fuel (disk w) p q R T IH Hw Hp HR Hq HT HRT Htree L (λ _, False) w1 Hc1 Hnd) as (w2 & Hrun & Hc2).
  { intros n Hn. split; [intros []|by apply Hseen]. }
  exists w2. split.
  { cbn [cp_dir_real]. unfold and_then at 1, shallow at 1. rewrite !entry_free by done. unfold mbind at 1, M_bind at 1. rewrite Hm. unfold ask. rewrite HL. exact Hrun. }
  destruct Hc2 as [H1 H2 H3 H4 H5]. split; [done|]. split; [done|]. intros [|n x]; [by rewrite !app_nil_r, H3|].
  destruct (base.decide (n ∈ L.*1)) as [Hn|Hn]; [apply H4; by right|]. rewrite H5 by tauto. symmetry.
  assert (seen_at (disk w) (R ++ [n]) = None) as HRn by (destruct (seen_at (disk w) (R ++ [n])) eqn:E; [exfalso; apply Hn, Hseen; congruence|done]).
  destruct x as [|c x]; [done|]. change (n :: c :: x) with ([n] ++ c :: x). rewrite app_assoc. apply below_none; [done|by rewrite HRn|done].
Qed.
End copy.

(** ** The call *)

Lemma abs_path_prefix l k : path_starts_with (abs_path k) (abs_path l) = true ↔ l `prefix_of` k.
Proof.
  rewrite path_starts_with_spec. unfold abs_path. split.
  - intros Hp%prefix_cons_inv_2. revert k Hp. induction l as [|x l IH]; intros [|y k] Hp; simpl in Hp; try apply prefix_nil.
    + by apply prefix_nil_inv in Hp.
    + pose proof (prefix_cons_inv_1 _ _ _ _ Hp) as [= ->]. apply prefix_cons_inv_2 in Hp. by apply prefix_cons, IH.
  - intros [z ->]. rewrite fmap_app. apply prefix_cons. by eexists.
Qed.
Lemma lexical_locate l p : lexical (abs_path l) p = abs_path (locate l p).
Proof.
  revert l. induction p as [|c p IH]; intros l; [done|]. destruct c as [| | |n].
  - exact (IH []).
  - exact (IH l).
  - change (lexical (abs_path l) (ParentDir :: p)) with (lexical (default (abs_path l) (parent (abs_path l))) p).
    change (locate l (ParentDir :: p)) with (locate (take (length l - 1) l) p). rewrite <-IH. f_equal.
    destruct l as [|x l _] using rev_ind; [done|]. rewrite length_app, Nat.add_sub, take_app_length. unfold abs_path at 2. rewrite fmap_app.
    change (Normal <$> [x]) with [Normal x]. by rewrite app_comm_cons, parent_app.
  - change (lexical (abs_path l) (Normal n :: p)) with (lexical (path_join (abs_path l) [Normal n]) p).
    replace (path_join (abs_path l) [Normal n]) with (abs_path (l ++ [n])); [apply IH|]. unfold abs_path, path_join. simpl. by rewrite fmap_app.
Qed.
Lemma absolutize_locate V s : absolutize V s = abs_path (locate (cwd V) (components s)).
Proof.
  unfold absolutize, normalize_lexical. destruct (is_absolute (components s)) eqn:Ha.
  - destruct (components s) as [|[] p]; try done. exact (lexical_locate [] p).
  - unfold path_join. rewrite Ha. simpl. assert (Hnames : ∀ ns l p, lexical (abs_path l) ((Normal <$> ns) ++ p) = abs_path (locate (l ++ ns) p)).
    { intros ns l p. by rewrite lexical_locate, locate_app, locate_names. }
    change (lexical [RootDir] ((Normal <$> cwd V) ++ match components s with CurDir :: p' => p' | _ => components s end) = abs_path (locate (cwd V) (components s))).
    rewrite (Hnames (cwd V) []). simpl. by destruct (components s) as [|[] p].
Qed.
Lemma strip_prefix_app q r : path_strip_prefix q (q ++ r) = Some r.
Proof. by apply path_strip_prefix_Some. Qed.
(** C3. A recursive [cp] of a directory to a place where nothing is, outside the source, succeeds and makes that
    place the tree the source is: the same directories and the same files with the same bytes, and no
    other; everything else on the disk stays as it was, whatever [force] and [errorOnExist] say.  This is on the host's disk, without links,
    with a kernel that fails nothing and nothing restricted; the target's spelling has a directory before its name
    ([cp_to_a_new_name_fails]) and the names are UTF-8.  The depth of the tree is fuel enough. *)
Theorem cp_copies V fuel from to force error_on_exist w R T :
  obliging (kernel V) → has_restrictions (perms w) = false → is_enabled (vfs w) = false → wf_host (disk w) →
  resolve_path (disk w) (cwd V) (components from) = Ok R → seen_at (disk w) R = Some None →
  resolve_path (disk w) (cwd V) (components to) = Ok T → seen_at (disk w) T = None → parent (components to) ≠ Some [] →
  ¬ R `prefix_of` T → tree_below V (disk w) R fuel →
  ∃ w', cp_path V fuel from to true force error_on_exist w = Some (Ok tt, w')
    ∧ (∀ x, seen_at (disk w') (T ++ x) = seen_at (disk w) (R ++ x))
    ∧ ∀ k, ¬ T `prefix_of` k → seen_at (disk w') k = seen_at (disk w) k.
Proof.
  intros HK Hf Hv Hw Hp HR Hq HT Hpar HRT Htree.
  destruct (dir_copies V HK force error_on_exist fuel w (components from) (components to) R T) as (w' & Hrun & _ & [_ Ho] & Hx); [done..|].
  exists w'. split; [|done]. unfold cp_path. pose proof Hp as HpL%resolve_locate. pose proof Hq as HqL%resolve_locate.
  rewrite !absolutize_locate, <-HpL, <-HqL.
  assert (path_starts_with (abs_path T) (abs_path R) = false) as Hno by (apply not_true_iff_false; by rewrite abs_path_prefix).
  rewrite Hno. unfold and_then at 1, shallow at 1, vfs_on. rewrite Hv.
  pose proof HR as (i & Hi)%seen_dir. pose proof HT as HT'%seen_none.
  assert (Hcan : ∀ r l e, resolve_path (disk w) (cwd V) r = Ok l → entry_at (disk w) l = Some e → std_canonicalize (kernel V) (cwd V) (disk w) r = Ok (abs_path l)).
  { intros r l e Hr Hl. unfold std_canonicalize, lookup_path. rewrite (ob_refuse _ HK), Hr. simpl. by rewrite Hl. }
  assert (Hsrc : realpath_deepest V (components from) (disk w) = Ok (abs_path R)).
  { unfold realpath_deepest. rewrite <-(app_nil_r (components from)) at 2. destruct (length (components from)); simpl;
      rewrite (Hcan _ _ _ Hp Hi), strip_prefix_app; unfold path_join; simpl; by rewrite app_nil_r. }
  assert (Hdst : realpath_deepest V (components to) (disk w) = Ok (abs_path T)).
  { pose proof Hq as (q & n & m & j & Hto & Hm & -> & Hml & Hqr)%resolve_empty; [|done..]. unfold realpath_deepest.
    assert (parent (components to) = Some q) as Hpq by (rewrite Hto; by apply parent_app). destruct Hqr as [-> |Hqr]; [done|].
    assert (std_canonicalize (kernel V) (cwd V) (disk w) (components to) = Err (RawOs ENOENT)) as Hnone.
    { unfold std_canonicalize, lookup_path. rewrite (ob_refuse _ HK), Hq. simpl. by rewrite HT'. }
    assert (length (components to) = S (length q)) as -> by (rewrite Hto, length_app; simpl; lia).
    cbn [deepest]. rewrite Hnone. simpl is_not_found. cbv iota. rewrite Hpq.
    assert (∀ fuel', deepest V fuel' (disk w) (components to) q = Ok (abs_path (m ++ [n]))) as ->; [|done].
    intros fuel'. destruct fuel'; simpl; rewrite (Hcan _ _ _ Hqr Hm), Hto, strip_prefix_app; unfold path_join; simpl; unfold abs_path; by rewrite fmap_app. }
  unfold and_then, shallow, mbind, M_bind, ask. unfold std_metadata, lookup_path. rewrite (ob_refuse _ HK), Hp. simpl. rewrite Hi. simpl.
  rewrite Hsrc, Hdst, Hno. exact Hrun.
Qed.
Lemma bench_tree_below : tree_below bench_env bench_disk etc 2.
Proof.
  assert (Hk : ∀ k, seen_at bench_disk k ≠ None → k ∈ [] :: (map_to_list (tree bench_disk)).*1).
  { intros k Hk. destruct (entry_at bench_disk k) as [e|] eqn:E; [|by apply seen_none in E]. apply entry_at_tree in E as [[-> _]|[_ E]]; [by left|right].
    apply list_elem_of_fmap. exists (k, e). split; [done|]. by apply elem_of_map_to_list. }
  assert (Hl : (map_to_list (tree bench_disk)).*1 ≡ₚ [jail; etc; passwd]) by (apply (bool_decide_unpack _); vm_compute; exact I).
  setoid_rewrite Hl in Hk. split.
  - intros x Hx%Hk. repeat (apply elem_of_cons in Hx as [Hx|Hx]); try (apply (f_equal length) in Hx; simpl in Hx; lia). by apply elem_of_nil in Hx.
  - intros x n Hx. split; [done|]. apply Hk in Hx. apply elem_of_cons in Hx as [Hx|Hx]; [done|].
    assert (∀ k m, etc ++ x ++ [n] = k ++ [m] → n = m) as Hlast by (intros k m E; rewrite app_assoc in E; by apply app_inj_2 in E as [_ [= ->]]).
    assert (Hm : n = "jail" ∨ n = "etc" ∨ n = "passwd").
    { repeat (apply elem_of_cons in Hx as [Hx|Hx]); [left|right; left|right; right|by apply elem_of_nil in Hx];
        [exact (Hlast [] _ Hx)|exact (Hlast [] _ Hx)|exact (Hlast etc _ Hx)]. }
    apply (bool_decide_unpack _). destruct Hm as [->|[->| ->]]; vm_compute; exact I.
Qed.
Lemma cp_copies_witness : ∃ w', cp_path bench_env 2 "/etc" "/jail/copy" true true false free_world = Some (Ok tt, w')
  ∧ seen_at (disk w') ["jail" : rstr; "copy" : rstr; "passwd" : rstr] = Some (Some ("root" : rstr)).
Proof.
  destruct (cp_copies bench_env 2 "/etc" "/jail/copy" true false free_world etc ["jail" : rstr; "copy" : rstr]) as (w' & Hrun & Hx & _);
    [exact quiet_obliging|reflexivity|reflexivity|exact bench_wf|reflexivity..|discriminate| |exact bench_tree_below|].
  - intros [z Hz]. discriminate Hz.
  - exists w'. split; [exact Hrun|]. exact (Hx ["passwd" : rstr]).
Defined.
(** A target that is one relative name is not found, since the path before it is empty. *)
Example cp_to_a_new_name_fails :
  (λ x, x.1) <$> cp_path bench_env 5 "/etc" "copy" true true false free_world = Some (Err (RawOs ENOENT)).
Proof. vm_compute. reflexivity. Qed.
(** With any options object, [force] is off unless it is asked for: an existing file is not overwritten. *)
Example options_turn_force_off : cp_options (options ["recursive" : rstr]) = (true, false, false).
Proof. vm_compute. reflexivity. Qed.
