(* ===== verification/NodeFsTurns.v ===== *)
(** * Node's [fs] module: a job's turn ends

    Reading a file to its end takes at most a read per byte.  A recursive copy on the disk ends on every
    tree, whatever the kernel refuses and wherever the target is that the checks let
    pass, also when the target is above the source or makes directories inside it: all it
    makes lies no deeper than what there was.  With this the turn of a queued job gives its one
    answer. *)

From S2P Require Import Prelude RustPath DiskFs Permissions VirtualFs HostDisk HostDiskTheorems NodeFs NodeFsApi NodeFsExamples NodeFsJobs NodeFsCopy.

(** ** What a call may add to the disk *)

Definition grew (P : loc → Prop) (d d' : HostDisk) : Prop := ∀ k, is_Some (entry_at d' k) → is_Some (entry_at d k) ∨ P k.
#[export] Instance grew_preorder P : PreOrder (grew P).
Proof.
  split; [by left|]. intros d1 d2 d3 H1 H2 k [Hk|Hk]%H2; [by apply H1|by right].
Qed.
Lemma grew_impl (P Q : loc → Prop) d d' : (∀ k, P k → Q k) → grew P d d' → grew Q d d'.
Proof. intros H Hg k [Hk|Hk]%Hg; [by left|right; by apply H]. Qed.
Lemma grew_tree P d d' : tree d' = tree d → grew P d d'.
Proof. intros H k. unfold entry_at. rewrite H. by left. Qed.
Lemma grew_created (P : loc → Prop) d l e mode : P l → grew P d (created d l e mode).
Proof.
  intros Hl k. unfold entry_at. destruct k as [|x k]; [by left|]. simpl.
  destruct (base.decide (l = x :: k)) as [->|]; [by right|]. rewrite lookup_insert_ne by done. by left.
Qed.
Section grows.
Context (K : Kernel) (cwd : loc).
Lemma std_open_grew o p d : grew (λ k, k = locate cwd p) d (std_open K cwd o p d).2.
Proof.
  unfold std_open. destruct (HostDisk.invalid_options o); [done|]. destruct (refuse _ _ _ _); [done|].
  destruct (resolve_path d cwd p) as [l|] eqn:E; [|done]. destruct (entry_at d l) as [e|].
  - destruct (o_create_new o); [done|]. destruct e; [|by destruct (_ || _)]. destruct (o_truncate o); [by apply grew_tree|done].
  - destruct (_ || _); [|done]. apply grew_created. by apply resolve_locate in E.
Qed.
Lemma file_write_grew P f bytes d : grew P d (file_write_all K f bytes d).2.
Proof. apply grew_tree. unfold file_write_all. by repeat case_match. Qed.
Lemma std_copy_grew p q d : grew (λ k, k = locate cwd q) d (std_copy K cwd p q d).2.
Proof.
  unfold std_copy. pose proof (std_open_grew write_options q d) as Hw.
  assert (∀ r d', std_open K cwd read_options p d = (r, d') → d' = d) as Hr.
  { intros r d'. unfold std_open. simpl. repeat case_match; naive_solver. }
  destruct (std_open K cwd read_options p d) as [[f|e] d1]; rewrite (Hr _ _ eq_refl); [|done]. destruct (f_entry f); [|done].
  destruct (std_open K cwd write_options q d) as [[g|e] d2]; [|done]. cbn [snd] in Hw. etrans; [exact Hw|].
  set (d3 := with_mode d2 _ _). etrans; [by apply (grew_tree _ _ d3)|].
  pose proof (file_write_grew (λ k, k = locate cwd q) g (data_of d3 ino) d3) as Hg. by destruct (file_write_all _ _ _ _) as [[r f'] d'].
Qed.
Lemma std_create_dir_grew p d : grew (λ k, k = locate cwd p) d (std_create_dir K cwd p d).2.
Proof.
  unfold std_create_dir. destruct (refuse _ _ _ _); [done|]. destruct (resolve_path d cwd p) as [l|] eqn:E; [|done].
  destruct (entry_at d l); [done|]. apply grew_created. by apply resolve_locate in E.
Qed.
(** The directories on the way, as the path spells it. *)
Lemma create_all_grew fuel p d : grew (λ k, ∃ q, q `prefix_of` p ∧ k = locate cwd q) d (create_all K cwd fuel p d).2.
Proof.
  revert p d. induction fuel as [|fuel IH]; intros p d; cbn [create_all]; (case_bool_decide; [done|]);
    assert (∀ d, grew (λ k, ∃ q, q `prefix_of` p ∧ k = locate cwd q) d (std_create_dir K cwd p d).2) as Hone
      by (intros d0; eapply grew_impl; [|apply std_create_dir_grew]; intros k ->; by exists p);
    specialize (Hone d) as Hd; destruct (std_create_dir K cwd p d) as [[[]|e] d1]; cbn [snd] in Hd; try done.
  - destruct (is_not_found e); [done|]. by destruct (std_is_dir _ _ _ _).
  - destruct (is_not_found e); [|by destruct (std_is_dir _ _ _ _)]. destruct (parent p) as [q|] eqn:Hq; [|done].
    apply parent_Some in Hq as (c & -> & _).
    assert (grew (λ k, ∃ q', q' `prefix_of` q ++ [c] ∧ k = locate cwd q') d1 (create_all K cwd fuel q d1).2) as Hq.
    { eapply grew_impl; [|apply IH]. intros k (q' & Hp & ->). exists q'. split; [by apply prefix_app_r|done]. }
    destruct (create_all K cwd fuel q d1) as [[[]|e'] d2]; cbn [snd] in Hq; [|by etrans].
    specialize (Hone d2). destruct (std_create_dir K cwd (q ++ [c]) d2) as [[[]|e'] d3]; cbn [snd] in Hone;
      [|destruct (std_is_dir _ _ _ _)]; (etrans; [exact Hd|]; etrans; [exact Hq|exact Hone]).
Qed.
End grows.

(** ** Recursive copies end *)

Lemma locate_length cwd p : length (locate cwd p) ≤ length cwd + length p.
Proof.
  revert cwd. induction p as [|c p IH]; intros cwd; [simpl; lia|]. change (locate cwd (c :: p)) with (locate (enter_component cwd c) p).
  etrans; [apply IH|]. destruct c; simpl; rewrite ?length_take, ?length_app; simpl; lia.
Qed.
Lemma prefix_names q (names : list rstr) : q `prefix_of` Normal <$> names → ∃ ns, q = Normal <$> ns ∧ length ns ≤ length names.
Proof.
  intros [z Hz]. exists (take (length q) names). assert (q = take (length q) (Normal <$> names)) as Hq by by rewrite Hz, take_app_length.
  rewrite <-fmap_take in Hq. split; [done|]. rewrite length_take. lia.
Qed.
Lemma join_name p n : path_join p [Normal n] = p ++ [Normal n].
Proof. by destruct p. Qed.
Lemma looked_up K cwd name d p l e : lookup_path K cwd name d p = Ok (l, e) → resolve_path d cwd p = Ok l ∧ entry_at d l = Some e.
Proof. by eapply (lookup_path_ok K cwd (λ _, True) (λ _, True)). Qed.
Section ends.
Context (V : Env) (from to : path) (B : nat) (force error_on_exist : bool).
#[local] Abbreviation R := (locate (cwd V) from).
#[local] Abbreviation T := (locate (cwd V) to).
Context (HRT : ¬ R `prefix_of` T) (HB : length (cwd V) + length to ≤ B).
Set Default Proof Using "All".
(** Nothing below the source is deeper than this. *)
Definition shallow_source (d : HostDisk) : Prop := ∀ k, is_Some (entry_at d k) → R `prefix_of` k → length k ≤ length R + B.
Definition at_ (p : path) (ns : list rstr) : path := p ++ (Normal <$> ns).
Lemma at_child p ns n : path_join (at_ p ns) [Normal n] = at_ p (ns ++ [n]).
Proof using Type. unfold at_. by rewrite join_name, fmap_app, app_assoc. Qed.
Definition near (ns : list rstr) (k : loc) : Prop := ∃ q, q `prefix_of` at_ to ns ∧ k = locate (cwd V) q.
Lemma near_shallow ns d d' : length ns ≤ B → grew (near ns) d d' → shallow_source d → shallow_source d'.
Proof.
  intros Hn Hg Hd k [Hk|(q & Hq & ->)]%Hg HR; [by apply Hd|]. unfold at_ in Hq.
  destruct (prefix_weak_total q to (to ++ (Normal <$> ns)) Hq) as [[z Hz]|[z ->]]; [by eexists| |].
  - pose proof (locate_length (cwd V) q). apply (f_equal length) in Hz. rewrite length_app in Hz. lia.
  - apply prefix_app_inv, prefix_names in Hq as (ns' & -> & Hl). rewrite locate_app, locate_names in HR |- *. rewrite length_app.
    destruct (prefix_weak_total R T (T ++ ns') HR) as [?|Hp%prefix_length]; [by eexists|done|lia].
Qed.
(** The steps of the copy, none of which makes anything that is not near. *)
Definition adds {A} (ns : list rstr) (m : Io A) : Prop := ∀ w, grew (near ns) (disk w) (disk (m w).2).
Lemma adds_then {A C} ns (m : Io A) (f : A → Io C) : adds ns m → (∀ a, adds ns (f a)) → adds ns (m ≫= f).
Proof using Type. intros Hm Hf w. specialize (Hm w). unfold mbind, M_bind. destruct (m w) as [[a|e] w1]; [|done]. etrans; [exact Hm|apply Hf]. Qed.
Lemma adds_same {A} ns (m : Io A) : (∀ w, disk (m w).2 = disk w) → adds ns m.
Proof using Type. intros H w. by rewrite H. Qed.
Lemma adds_os {A} ns (m : Os A) : (∀ d, grew (near ns) d (m d).2) → adds ns (os m).
Proof using Type. intros H w. specialize (H (disk w)). unfold os. by destruct (m (disk w)). Qed.
Lemma adds_allowed ns a p : adds ns (cp_entry_allowed V a p).
Proof using Type.
  apply adds_same. intros w. assert (disk (check_path V a p w).2 = disk w) as Hc by (unfold check_path; by case_match).
  unfold cp_entry_allowed, map_err. by destruct (check_path V a p w) as [[] ?].
Qed.
Lemma adds_looked {A} ns (q : HostDisk → result A io_error) : adds ns (try (ask q)).
Proof using Type. by apply adds_same. Qed.
Lemma adds_target ns : adds ns (real_target V (at_ to ns)).
Proof using Type.
  apply adds_then; [apply adds_looked|]. intros [m|e]; [by apply adds_same; intros w; destruct (negb _)|].
  apply adds_os. intros d. apply create_all_grew.
Qed.
Lemma adds_file p ns : adds ns (cp_file_real V p (at_ to ns) force error_on_exist).
Proof using Type.
  do 2 (apply adds_then; [apply adds_allowed|intros []]). apply adds_then; [apply adds_looked|]. intros r.
  apply adds_then; [apply adds_same; intros w; unfold copy_place; repeat case_match; done|]. intros []; [|by apply adds_same].
  apply adds_os. intros d. eapply grew_impl; [|apply std_copy_grew]. intros k ->. by exists (at_ to ns).
Qed.
Lemma dir_ends fuel ns w : length ns ≤ B → B < length ns + fuel → shallow_source (disk w) →
  ∃ x, cp_dir_real V fuel (at_ from ns) (at_ to ns) force error_on_exist w = Some x ∧ shallow_source (disk x.2).
Proof.
  revert ns w. induction fuel as [|fuel IH]; intros ns w Hn Hf Hw; [lia|]. cbn [cp_dir_real].
  match goal with |- context [and_then (shallow ?m)] => set (top := m) end. unfold and_then at 1, shallow at 1.
  assert (adds ns top) as Ht.
  { subst top. do 2 (apply adds_then; [apply adds_allowed|intros []]). apply adds_then; [apply adds_target|]. intros []. by apply adds_same. }
  pose proof (near_shallow ns _ _ Hn (Ht w) Hw) as Hw1. destruct (top w) as [[L|e] w1]; [|by eexists]. clear Ht Hw. cbn [snd] in Hw1.
  clear top. revert w1 Hw1. induction L as [|[n e] L IHL]; intros w1 Hw1; cbn [each_deep]; [by eexists|]. cbv zeta.
  unfold and_then at 1 2, shallow at 1, ask at 1. cbn [fst]. rewrite !at_child.
  destruct (std_metadata _ _ (disk w1) (at_ from (ns ++ [n]))) as [meta|err] eqn:Em; [|by eexists].
  assert (length (ns ++ [from_utf8_lossy (codec V) n]) ≤ B) as Hlen.
  { unfold std_metadata in Em. destruct (lookup_path _ _ _ _ _) as [[l e']|] eqn:El; [|done]. apply looked_up in El as [Hl%resolve_locate He].
    unfold at_ in Hl. rewrite locate_app, locate_names in Hl. specialize (Hw1 l). rewrite Hl, !length_app in Hw1. rewrite !length_app. simpl in *.
    assert (is_Some (entry_at (disk w1) (R ++ ns ++ [n]))) as Hs by (rewrite <-Hl; by eexists). specialize (Hw1 Hs ltac:(by eexists)). lia. }
  assert (∃ x, (if md_is_dir meta then cp_dir_real V fuel (at_ from (ns ++ [from_utf8_lossy (codec V) n])) (at_ to (ns ++ [from_utf8_lossy (codec V) n])) force error_on_exist
      else shallow (cp_file_real V (at_ from (ns ++ [from_utf8_lossy (codec V) n])) (at_ to (ns ++ [from_utf8_lossy (codec V) n])) force error_on_exist)) w1 = Some x
      ∧ shallow_source (disk x.2)) as ([[[]|err] w2] & -> & Hw2).
  { destruct (md_is_dir meta); [apply IH; [done|rewrite length_app in *; simpl; lia|done]|]. eexists. split; [done|].
    eapply near_shallow; [exact Hlen|apply adds_file|done]. }
  - apply IHL, Hw2.
  - by eexists.
Qed.
End ends.
Lemma and_then_impl {A C} (m : Deep A) (f g : A → Deep C) : (∀ a w x, f a w = Some x → g a w = Some x) →
  ∀ w x, and_then m f w = Some x → and_then m g w = Some x.
Proof. intros Hfg w x. unfold and_then. destruct (m w) as [[[a|e] w']|]; [apply Hfg|done..]. Qed.
Lemma each_deep_impl {A} (f g : A → Deep unit) l : (∀ a w x, f a w = Some x → g a w = Some x) →
  ∀ w x, each_deep f l w = Some x → each_deep g l w = Some x.
Proof.
  intros Hfg. induction l as [|a l IH]; intros w x; cbn [each_deep]; [done|]. unfold and_then.
  destruct (f a w) as [y|] eqn:E; [|done]. rewrite (Hfg _ _ _ E). destruct y as [[[]|e] w']; [apply IH|done].
Qed.
(** More fuel changes nothing. *)
Lemma cp_dir_more V fuel fuel' p q force error_on_exist w x : fuel ≤ fuel' →
  cp_dir_real V fuel p q force error_on_exist w = Some x → cp_dir_real V fuel' p q force error_on_exist w = Some x.
Proof.
  revert fuel' p q w x. induction fuel as [|fuel IH]; intros fuel' p q w x Hl; [done|]. destruct fuel' as [|fuel']; [lia|]. cbn [cp_dir_real].
  apply and_then_impl. intros L. apply each_deep_impl. intros a. apply and_then_impl. intros meta w1 x1.
  destruct (md_is_dir meta); [|done]. apply IH. lia.
Qed.
Lemma depth_bound (d : HostDisk) : ∃ B, ∀ k, is_Some (entry_at d k) → length k ≤ B.
Proof.
  exists (max_list (length <$> (map_to_list (tree d)).*1)). intros k [e He]. apply entry_at_tree in He as [[-> _]|[_ He]]; [simpl; lia|].
  apply max_list_elem_of_le. apply list_elem_of_fmap. exists k. split; [done|]. apply list_elem_of_fmap. exists (k, e). split; [done|].
  by apply elem_of_map_to_list.
Qed.
Lemma cp_ends V from to recursive force error_on_exist w : is_enabled (vfs w) = false →
  ∃ n x, ∀ fuel, n ≤ fuel → cp_path V fuel from to recursive force error_on_exist w = Some x.
Proof.
  intros Hv. unfold cp_path. destruct (path_starts_with _ _) eqn:Ho; [exists 0; by eexists|].
  unfold and_then at 1, shallow at 1, vfs_on. rewrite Hv. unfold and_then at 1.
  match goal with |- context [shallow ?m w] => set (top := m) end.
  assert (disk (top w).2 = disk w) as Hd by (subst top; unfold mbind, M_bind, ask; repeat case_match; naive_solver).
  unfold shallow at 1. destruct (top w) as [[meta|e] w1]; [|exists 0; by eexists]. cbn [snd] in Hd. clear top Hv.
  destruct (md_is_dir meta); [|exists 0; by eexists]. destruct (negb recursive); [exists 0; by eexists|].
  rewrite !absolutize_locate in Ho. apply not_true_iff_false in Ho. rewrite abs_path_prefix in Ho.
  destruct (depth_bound (disk w1)) as [B HB]. set (B' := B + length (cwd V) + length (components to)).
  destruct (dir_ends V (components from) (components to) B' force error_on_exist Ho ltac:(lia) (S B') [] w1) as (x & Hx & _); [simpl; lia..| |].
  { intros k Hk _. specialize (HB k Hk). lia. }
  exists (S B'), x. intros fuel Hf. unfold at_ in Hx. simpl in Hx. rewrite !app_nil_r in Hx. by eapply cp_dir_more.
Qed.

(** ** Reading to the end *)

(** The bytes before the end of the file, from the position of the descriptor on. *)
Definition left_of (fd : Z) (w : World) : nat :=
  match fd_table w !! fd with
  | Some f => match f_entry f with FileE i => Z.to_nat (Z.of_nat (length (data_of (disk w) i)) - f_pos f) | DirE _ => 0 end
  | None => 0
  end.
Lemma read_fd_left V fd n w chunk w' : read_fd V fd None n w = (Ok chunk, w') → chunk ≠ [] → left_of fd w' < left_of fd w.
Proof.
  unfold read_fd, mbind, M_bind, handle_of, left_of. destruct (fd_table w !! fd) as [f|] eqn:Ef; [|done]. simpl.
  unfold os, file_read, file_refused. destruct (refuse_file _ _ _); [done|]. destruct (negb (f_readable f)); [done|].
  destruct (f_entry f) as [i|i] eqn:Ee; [|done]. unfold put_handle. simpl. intros [= <- <-] Hc. simpl. rewrite lookup_insert_eq. simpl. rewrite Ee.
  set (data := data_of (disk w) i) in *. change (data_of _ i) with data.
  assert (0 < length (take n (drop (Z.to_nat (f_pos f)) data))) as Hl by (destruct (take n _); [done|simpl; lia]).
  rewrite length_take, length_drop in Hl |- *. lia.
Qed.
Lemma read_all_ends V fd w : ∃ n x, x.1 ≠ Ok None ∧ ∀ fuel, n ≤ fuel → read_fd_all V fuel fd w = x.
Proof.
  remember (left_of fd w) as k eqn:Hk. revert w Hk. induction (lt_wf k) as [k _ IH]. intros w ->. set (size := N.to_nat 65536).
  assert (∀ fuel, read_fd_all V (S fuel) fd w = (chunk ← read_fd V fd None size; if bool_decide (chunk = []) then mret (Some []) else
    rest ← read_fd_all V fuel fd; mret (app chunk <$> rest)) w) as Hstep by done.
  destruct (read_fd V fd None size w) as [[chunk|e] w'] eqn:E.
  - destruct (base.decide (chunk = [])) as [->|Hc].
    + exists 1, (Ok (Some []), w'). split; [done|]. intros [|fuel] Hf; [lia|]. rewrite Hstep. unfold mbind, M_bind. by rewrite E.
    + destruct (IH _ (read_fd_left _ _ _ _ _ _ E Hc) w' eq_refl) as (n & [r w2] & Hx & Hn).
      exists (S n), (match r with Ok rest => Ok (app chunk <$> rest) | Err e => Err e end, w2). split; [by destruct r as [[]|]|].
      intros [|fuel] Hf; [lia|]. rewrite Hstep. unfold mbind, M_bind. rewrite E, bool_decide_eq_false_2 by done. rewrite Hn by lia. by destruct r.
  - exists 1, (Err e, w'). split; [done|]. intros [|fuel] Hf; [lia|]. rewrite Hstep. unfold mbind, M_bind. by rewrite E.
Qed.

(** ** Turns *)

Lemma denial_perms V work w : ∃ p, (work_denial V work w).2 = set_perms p w.
Proof.
  assert (Hbind : ∀ (m f : Js unit), (∀ w, ∃ p, (m w).2 = set_perms p w) → (∀ w, ∃ p, (f w).2 = set_perms p w) → ∀ w, ∃ p, ((m;; f) w).2 = set_perms p w).
  { intros m f Hm Hf w1. unfold mbind, M_bind. destruct (Hm w1) as [p Hp]. destruct (m w1) as [[[]|e] w2]; simpl in Hp; [|by exists p].
    destruct (Hf w2) as [p' ->]. exists p'. by rewrite Hp. }
  assert (Hret : ∀ w, ∃ p, ((mret tt : Js unit) w).2 = set_perms p w) by (intros [] ; by eexists).
  assert (Hcheck : ∀ a path w, ∃ p, (broker_denial V a path w).2 = set_perms p w).
  { intros a path w1. unfold broker_denial, ensure_fs_permission, mbind, M_bind, get_world. simpl. destruct (negb _); [apply Hret|].
    unfold map_err, check_path. destruct (check_global_permission _ _ _ _ _ _ _) as [st [[]|e]]; by exists st. }
  destruct work; cbn [work_denial]; first [apply Hcheck | apply Hret | apply Hbind; clear w; intros w; try branch; (apply Hcheck || apply Hret)].
Qed.
(** The state in which the turn of job [id] begins. *)
Definition dequeued (id : Z) (w : World) : World := set_jobs (delete id (fs_jobs w)) (fs_job_seq w) w.
Definition is_copy (work : FsWork) : bool := match work with Cp _ _ _ _ _ => true | _ => false end.
Lemma work_ends V work w : (is_copy work = true → is_enabled (vfs w) = false) →
  ∃ n x, ∀ fuel, n ≤ fuel → execute_work V fuel work w = Some x.
Proof.
  intros Hv. destruct work as [| | | | | | | | | | | | | | | | |from to recursive force error_on_exist| | | | | | | |fd|]; cbn [execute_work]; try (exists 0; by eexists).
  - destruct (cp_ends V from to recursive force error_on_exist w (Hv eq_refl)) as (n & x & Hn). exists n. eexists. intros fuel Hf. by rewrite Hn.
  - destruct (read_all_ends V fd w) as (n & [r w'] & Hx & Hn). destruct r as [[b|]|e]; [|done|]; exists n; eexists; intros fuel Hf; by rewrite Hn.
Qed.
(** C7. The turn of a queued job ends, takes the job from the queue and answers it and nothing else; only for a recursive copy
    inside the in-memory file system is it not known to end ([vfs_copy_runs_away]).  The permission is checked
    again then: when it is gone, the disk, the sandbox's files and the descriptors stay as they were
    and the answer is the denial; otherwise the answer is the outcome of the work.  The kernel may refuse any call, cut any
    write and leave any removal half done; the disk may hold any tree without links. *)
Theorem job_turn V id w d work :
  fs_jobs w !! id = Some (d, work) → (is_copy work = true → is_enabled (vfs w) = false) →
  ∃ n w', (∀ fuel, n ≤ fuel → fs_job_trampoline V fuel id w = Some w')
  ∧ fs_jobs w' = delete id (fs_jobs w) ∧ fs_job_seq w' = fs_job_seq w
  ∧ match work_denial V work (dequeued id w) with
    | (Err denied, _) =>
        delivered w' = delivered w ++ [(id, deliver_job_with_extra d (Err denied) None)]
        ∧ disk w' = disk w ∧ vfs w' = vfs w ∧ fd_table w' = fd_table w
    | (Ok _, w0) => ∃ x, (∀ fuel, n ≤ fuel → execute_work V fuel work w0 = Some x)
        ∧ delivered w' = delivered w ++ [(id, deliver_job_with_extra d x.1 (work_buffer work))]
        ∧ disk w' = disk x.2 ∧ vfs w' = vfs x.2 ∧ fd_table w' = fd_table x.2
    end.
Proof.
  intros Hj Hv. unfold fs_job_trampoline. rewrite Hj. fold (dequeued id w). unfold run_fs_job.
  destruct (denial_perms V work (dequeued id w)) as [p Hp]. destruct (work_denial V work (dequeued id w)) as [[u|e] w0]; simpl in Hp; subst w0.
  - destruct (work_ends V work (set_perms p (dequeued id w)) Hv) as (n & x & Hn). exists n. eexists. split; [intros fuel Hf; by rewrite (Hn fuel Hf)|].
    pose proof (Hn n ltac:(lia)) as Hs. eapply (@execute_within V steady _) in Hs as (J & D & S & _). simpl in J, D, S |- *. rewrite J, D, S.
    split; [done|]. split; [done|]. by exists x.
  - exists 0. eexists. by split.
Qed.
Definition queued_world : World := default jail_world (fs_run bench_env 10 [CallPromises "unlink" [str "/etc/passwd"]] free_world).
(** The same world, with the permissions taken back before the turn. *)
Definition revoked_world : World := set_perms jail_perms queued_world.
Lemma job_turn_witness : ∃ n w',
  fs_job_trampoline bench_env n 1 revoked_world = Some w' ∧ seen_at (disk w') passwd = Some (Some ("root" : rstr)).
Proof.
  destruct (job_turn bench_env 1 revoked_world Promise (Unlink "/etc/passwd")) as (n & w' & Hrun & _ & _ & H); [vm_compute; reflexivity|done|].
  exists n, w'. split; [by apply Hrun|].
  assert (is_ok (work_denial bench_env (Unlink "/etc/passwd") (dequeued 1 revoked_world)).1 = false) as Hd by (vm_compute; reflexivity).
  destruct (work_denial _ _ _) as [[u|e] w0]; [discriminate|]. destruct H as (_ & -> & _). vm_compute. reflexivity.
Defined.
(** An empty in-memory file system, and a directory in it. *)
Definition vfs_world : World := world_with bench_disk perm_init (vfs_create_dir_all bench_host (VirtualFs.enable vfs_init false) [RootDir; Normal ("a" : rstr)]).
(** The target is made inside the source, as [/a/..], and copied on into itself. *)
Example vfs_copy_runs_away : cp_path bench_env 40 "/a" "/a/../b" true true false vfs_world = None.
Proof. vm_compute. reflexivity. Qed.
